(* ===== verification/_CoqProject ===== *)
-Q . S2P
Prelude.v
RustStr.v
Routing.v
AccessControl.v
FlowControl.v
NonceTracker.v
KeyTracker.v
Vault.v
ToyCrypto.v
SecureChannel.v
Handshake.v
Attributes.v
Identities.v
IdentitySpec.v
IdentityKeys.v
Credentials.v
CredentialSpec.v
StateMachine.v
PeerIdentity.v
IdentityExamples.v
AbacExpr.v
AbacEval.v
AbacParser.v
AbacPolicy.v
IpAddr.v
MultiAddr.v
MultiAddrSpec.v
Router.v
RouterSpec.v
RouterShutdown.v
RouterExamples.v
Node.v
NodeSpec.v
NodeSend.v
NodeExamples.v
Tcp.v
Execution.v
TcpSpec.v
Portal.v
PortalSpec.v
TcpExamples.v
ChannelWorkers.v
ChannelWorkersSpec.v
ChannelOverTcp.v
ChannelIdentity.v
ChannelExamples.v
Pipes.v
PipeSpec.v
Pipe2.v
Pipe2Spec.v
PipeExamples.v
Forwarding.v
ForwardingSpec.v
ForwardingExamples.v
Api.v
Interleaving.v
Authority.v
AuthoritySpec.v
AuthorityExamples.v
IdentityV2.v
IdentityV2Spec.v
IdentityV2Examples.v
Streams.v
StreamService.v
StreamSpec.v
ProducerSpec.v
StreamExamples.v
AbacElixir.v
AbacGrammar.v
