(* ===== verification/Prelude.v ===== *)
(** * Ockam: a verification of the messaging and trust core

    Ockam lets programs exchange messages end to end: workers with addresses,
    routes of hops between them, nodes that run the workers, transports between
    nodes, secure channels between identities, and policies that decide who may
    send what to whom.  This library models the Rust implementation,
    [src/implementations/rust/ockam]; paths below are relative to it.  Rust
    functions are Rocq functions of the same name (with the type in front where
    two types share a method name), fallible ones return [result] (with [Panic]
    for a panic), those that change state are computations of the state monad
    [stm], and those that wait are programs ([Node.prog]).

    ** Files

    - [Prelude]: the monads, their notations, tactics and generic lemmas.
    - [RustStr]: what is used of the Rust standard library: numbers as text,
      splitting, UTF-8, big-endian integers.  [IpAddr]: IP addresses as text.
    - [Routing]: addresses, routes, messages (ockam_core/src/routing).
    - [AccessControl]: access control traits and mailboxes
      (ockam_core/src/access_control, routing/mailbox.rs).
    - [FlowControl]: which local workers a message from outside may reach
      (ockam_core/src/flow_control).
    - [Vault]: secrets and the operations on them (ockam_vault/src), over the
      class [Crypto] of the primitives; [ToyCrypto] is an instance for examples.
    - [NonceTracker], [KeyTracker], [SecureChannel]: the data phase of a secure
      channel (ockam_identity/src/secure_channel/{nonce_tracker, key_tracker,
      encryptor, decryptor}.rs).  [Handshake], [StateMachine]: the Noise XX
      handshake and the machines that drive it (secure_channel/handshake).
    - [Attributes]: who sent a message and with which attributes
      (secure_channel/local_info.rs, identities/storage, access controls, trust
      policies).  [AbacExpr], [AbacEval], [AbacParser], [AbacPolicy]: the
      policy language and the access controls that use it (ockam_abac/src).
      [AbacElixir], [AbacGrammar]: the rules, the grammar and the formatter of
      policies in the Elixir implementation (implementations/elixir/ockam/
      ockam_abac).
    - [Identities], with [IdentitySpec], [IdentityKeys]: identities as histories
      of signed changes, their verification, their keys and their repository
      (ockam_identity/src/{identity, identities}).  [Credentials],
      [CredentialSpec]: credentials (ockam_identity/src/{credential,
      credentials}).  [PeerIdentity]: handshakes between such identities;
      [IdentityExamples]: encodings and a small node.
    - [IdentityV2], with [IdentityV2Spec] and [IdentityV2Examples]: the second
      version of identities, its purpose keys and credentials
      (ockam_identity/src/v2/{models, identity, identities, purpose_keys,
      credentials}).
    - [MultiAddr], [MultiAddrSpec]: multi-addresses (ockam_multiaddr/src).
    - [Router], with [RouterSpec], [RouterShutdown], [RouterExamples]: the
      router of a node (ockam_node/src/router), one message at a time.
    - [Node], with [NodeSpec], [NodeSend], [NodeExamples]: the
      tasks of a node, their contexts and relays, and the channels they share
      with the router (ockam_node/src/{context, relay}, worker_builder.rs,
      processor_builder.rs, async_drop.rs, node.rs).
    - [Tcp], with [TcpSpec]: the TCP transport, its workers and processors as
      programs that call the node and the sockets (ockam_transport_tcp/src);
      [Portal], [PortalSpec]: its inlets and outlets (ockam_transport_tcp/src/
      portal).  [Execution]: executions of such programs under an effect of
      their calls, sessions of a worker and rounds of a processor;
      [TcpExamples]: an encoding, connections and portals.
    - [ChannelWorkers], with [ChannelWorkersSpec]: the workers of secure channels,
      their listener, registry and options (ockam_identity/src/{secure_channel,
      secure_channels}); [ChannelOverTcp]: a channel over a connection;
      [ChannelIdentity]: whose messages a channel forwards; [ChannelExamples]:
      channels between small nodes.
    - [Pipes], with [PipeSpec]: pipes with their hooks, and channels of two pipes
      (ockam/src/{pipe, channel, protocols, delay.rs, monotonic.rs});  [Pipe2],
      [Pipe2Spec]: worker systems and the pipes built on them (ockam/src/{system,
      pipe2, metadata.rs}); [PipeExamples]: encodings and small pipes.
    - [Streams], with [StreamSpec] and [ProducerSpec]: the producers and consumers of
      streams (ockam/src/{stream, protocols/stream}); [StreamService]: the services
      that keep the streams, of the Elixir implementation
      (implementations/elixir/ockam/ockam/lib/ockam/stream); [StreamExamples]: a
      small stream.
    - [Forwarding], [ForwardingSpec], [ForwardingExamples]: the forwarding service
      and remote forwarders (ockam/src/{forwarding_service, remote},
      ockam_node/src/delayed.rs).
    - [Api]: requests, responses and their clients (ockam_core/src/api.rs,
      ockam_node/src/{api, rpc_client}.rs).  [Authority], with [AuthoritySpec] and
      [AuthorityExamples]: the workers of an authority (its Okta service
      included), its trusted identities, the policy in front of them, and the
      exchange of credentials (ockam_api/src/{authenticator,
      bootstrapped_identities_store.rs, nodes/authority_node, okta},
      ockam_identity/src/credentials).  [Interleaving]:
      invariants of programs that take turns on a shared state.

    ** What the theorems show

    - Secure channels: the handshake of two honest sides completes with equal
      keys and the channel delivers what was sent, in any order within the
      window; no message is accepted twice, no nonce is used twice, a forged
      message leaves the decryptor unchanged (but for a leftover key, which is
      shown too); a finished handshake has verified the peer's identity, and two
      nodes that accept each other's identity get a channel.
    - Identities and credentials: decoding accepts exactly the valid histories,
      a known history only grows (as long as SHA-256 tells the two apart), every operation on keys leaves an identity
      that others accept; a credential is accepted exactly when its authority
      signed it for who presents it and it has not expired.  In the second
      version, the accepted histories are characterised too, what is stored of a
      credential goes back to a purpose key that an authority attested, and the
      issuer is shown to swap its arguments.
    - Replay window and key renewal: the bitmap refines the set of accepted
      nonces, the key tracker the chain of keys.
    - Access: a message leaves through a flow control only to a consumer that
      was registered and not removed; policies decide as their reading says;
      what a worker handles was let in by its own access control and let out by
      that of the sender, for every application, every worker code and every
      schedule of the node.
    - Policies: the evaluator with two stacks refines the recursive reading,
      terminates on ranked environments, and printing is read back.  The rules
      in Elixir never decide otherwise than the same policies in Rust do, where
      these have a value and no lists are put into order, and their text is read
      back.
    - Addresses: routes and multi-addresses are read back from their text and
      binary forms, and a multi-address refines a double-ended queue.
    - Nodes: the router refines a directory of workers (with workers at unused
      addresses) and keeps its invariant, a graceful shutdown of clusters that are
      not empty goes through its phases, and the outcome of a send is given on
      every branch.
    - Transports: a TCP connection tries to forward the first ones of the messages
      it was given, in order, whatever is cut or fails; those whose forwarding
      fails are lost, and the others keep their order; the same holds of the bytes
      of a portal; what comes from a connection reaches the consumers of
      its flow control only.
    - Channels in nodes: the workers of a channel deliver each message at most
      once with the identity of the peer, over TCP in order, and all of them when
      nothing fails; whatever is received, what is forwarded is attributed to a
      peer that has proved its identity to the trust policy.
    - Pipes: an ordered pipe forwards what it was given in that order, whatever
      is lost, repeated, reordered or fails, and everything when nothing
      overtakes; the systems of a builder lead through the handlers that were
      asked for.
    - Streams: a consumer in Rust and the services in Elixir are one system; what
      the consumer tries to pass on is the stream from the index that was saved, in
      order and without gaps, whatever the network loses or reorders (what fails to
      be passed on is dropped), and the consumer can always come to
      its end unless one message is lost, which stops it; a producer pushes in
      order what it was given.
    - Forwarders: messages are relayed in order along the route that was
      registered, to its first hop only, and a remote forwarder lets them out to
      consumers of its flow control only; a registered name comes back.
    - Authorities: in every interleaving of messages, each member of an authority
      with fixed trusted identities goes back to an enroller of the configuration
      or to what Okta has answered, a one-time code is taken at most as often
      as it was issued, and the policy of a worker decides as it reads; requests
      and responses are read back.
    - Theorems on runs that go wrong state the behaviour of the code where it
      differs from what is documented: a shutdown that does not end, addresses
      taken over, a counter that wraps around, a message hidden in a longer one,
      a pipe that one overtaken message or one stray acknowledgement stops for
      good, a sender that panics on its own event, and so on.

    ** Bounds and fuel

    Integers keep their width: 64-bit nonces with their overflow check, the
    64-bit bitmap with [overflowing_shl], the message counter modulo [2^64],
    16-bit ports, lengths of 8 bits.  Printing decimal numbers has fuel for
    20 digits, enough for 64 bits.  The loops over explicit stacks
    ([equals_loop], [compare_loop], [show_loop]) take the size of the
    expressions as fuel, the parser three steps per token and two, the grammar
    of rules and the loops over the bytes of a multi-address the length of their
    input: each is proved enough.
    Evaluation has no bound in the source (an environment may be circular), so
    its theorems hold for every fuel (and so do those on the policy of an
    authority), and [eval_terminates] gives one for
    environments without circles.  Programs of tasks are inductive trees with an
    explicit loop constructor; a run of a node is a list of scheduling choices of
    any length.

    ** Parameters

    Cryptographic primitives ([Crypto], [CryptoLaws]), the encodings of other
    crates (BARE, CBOR, varint, the lexer of the policy language, the text of floats), the cache of
    tokens ([LruCache], [LruLaws]), what the
    state machines ask of identities ([PeerIdentities], which [PeerIdentity]
    implements), remote retrieval of credentials, the code of workers
    ([WorkerCode]), the system time, the lookup of host names, the answers of
    sockets.

    ** Not modelled

    The asynchronous runtime itself, threads, timers and files; logging
    and metrics; databases behind the storage interfaces; the secure channel and
    the workers of the second version of identities; the node manager, the
    command line and the desktop application; the Elixir implementation but for
    its stream services and its attribute rules, and the TypeScript one; security of the cryptographic
    primitives. *)

From Stdlib Require Import ZArith Lia Sorted.
From Stdlib Require Strings.Byte Strings.String.
From stdpp Require Import base gmap list numbers option countable.

(** ** Outcomes of Rust code

    A Rust function that returns [Result<A, E>] and may also panic
    ([unwrap], [expect], [unreachable!], [copy_from_slice] on slices of
    different lengths, ...) is modelled by a value of [result E A]. *)

Inductive result (E A : Type) : Type :=
| Ok (a : A)
| Err (e : E)
| Panic.

Arguments Ok {E A} a.
Arguments Err {E A} e.
Arguments Panic {E A}.

Definition rbind {E A B} (m : result E A) (k : A -> result E B) : result E B :=
  match m with
  | Ok a => k a
  | Err e => Err e
  | Panic => Panic
  end.

Definition rmap {E A B} (f : A -> B) (m : result E A) : result E B :=
  rbind m (fun a => Ok (f a)).

Definition map_err {E F A} (f : E -> F) (m : result E A) : result F A :=
  match m with
  | Ok a => Ok a
  | Err e => Err (f e)
  | Panic => Panic
  end.

(** [Option::ok_or] *)
Definition ok_or {E A} (o : option A) (e : E) : result E A :=
  match o with
  | Some a => Ok a
  | None => Err e
  end.

(** [Option::unwrap] and [Option::expect] *)
Definition unwrap {E A} (o : option A) : result E A :=
  match o with
  | Some a => Ok a
  | None => Panic
  end.

(** [Result::ok] on a result that did not panic *)
Definition res_ok {E A} (m : result E A) : option A :=
  match m with
  | Ok a => Some a
  | _ => None
  end.

Definition is_ok {E A} (m : result E A) : bool :=
  match m with
  | Ok _ => true
  | _ => false
  end.

Declare Scope rust_scope.
Delimit Scope rust_scope with rust.

Notation "'let?' x ':=' m 'in' k" := (rbind m (fun x => k))
  (at level 10, x pattern, m at level 100, k at level 200) : rust_scope.
Notation "m ';;?' k" := (rbind m (fun _ => k))
  (at level 199, right associativity) : rust_scope.
Open Scope rust_scope.

(** ** Code that also changes a state

    [stm S E A] is a computation on a state [S] (a vault, a worker) that ends
    like a [result]; the state it leaves is kept when it fails. *)

Definition stm (S E A : Type) : Type := S -> result E A * S.

Definition sret {S E A} (a : A) : stm S E A := fun s => (Ok a, s).
Definition serr {S E A} (e : E) : stm S E A := fun s => (Err e, s).
Definition spanic {S E A} : stm S E A := fun s => (Panic, s).

Definition sbind {S E A B} (m : stm S E A) (k : A -> stm S E B) : stm S E B :=
  fun s => match m s with
           | (Ok a, s') => k a s'
           | (Err e, s') => (Err e, s')
           | (Panic, s') => (Panic, s')
           end.

(** A computation without effect on the state. *)
Definition slift {S E A} (r : result E A) : stm S E A := fun s => (r, s).

Definition sget {S E} : stm S E S := fun s => (Ok s, s).
Definition sput {S E} (s : S) : stm S E unit := fun _ => (Ok tt, s).

(** The result of a computation as a value: a match on a [Result]. *)
Definition stry {S E A} (m : stm S E A) : stm S E (result E A) :=
  fun s => match m s with
           | (Panic, s') => (Panic, s')
           | (r, s') => (Ok r, s')
           end.

Notation "'let!' x ':=' m 'in' k" := (sbind m (fun x => k))
  (at level 10, x pattern, m at level 100, k at level 200) : rust_scope.
Notation "m ';;!' k" := (sbind m (fun _ => k))
  (at level 199, right associativity) : rust_scope.

Lemma sbind_ok {S E A B} (m : stm S E A) (k : A -> stm S E B) s b s' :
  sbind m k s = (Ok b, s') <-> exists a s1, m s = (Ok a, s1) /\ k a s1 = (Ok b, s').
Proof. unfold sbind. destruct (m s) as [[]]; naive_solver. Qed.

(** The three ways a bind ends. *)
Lemma sbind_inv {S E A B} (m : stm S E A) (k : A -> stm S E B) s r s' :
  sbind m k s = (r, s') ->
  (exists a s1, m s = (Ok a, s1) /\ k a s1 = (r, s')) \/
  (exists e, m s = (Err e, s') /\ r = Err e) \/
  (m s = (Panic, s') /\ r = Panic).
Proof. unfold sbind. destruct (m s) as [[]]; naive_solver. Qed.

Lemma slift_inv {S E A} (m : result E A) (s s' : S) r : slift m s = (r, s') -> m = r /\ s' = s.
Proof. unfold slift. naive_solver. Qed.

(** A bind whose first computation is known runs on. *)
Lemma sbind_run {S E A B} (m : stm S E A) (k : A -> stm S E B) s a s1 :
  m s = (Ok a, s1) -> sbind m k s = k a s1.
Proof. intros H. unfold sbind. rewrite H. done. Qed.

Create HintDb ockam.

(** A bind that succeeds went through a success of its first part. *)
Lemma rbind_ok {E A B} (m : result E A) (k : A -> result E B) b :
  rbind m k = Ok b <-> exists a, m = Ok a /\ k a = Ok b.
Proof. destruct m; simpl; naive_solver. Qed.

Lemma rbind_err {E A B} (m : result E A) (k : A -> result E B) e :
  rbind m k = Err e <-> m = Err e \/ exists a, m = Ok a /\ k a = Err e.
Proof. destruct m; simpl; naive_solver. Qed.

Lemma rbind_not_panic {E A B} (m : result E A) (k : A -> result E B) :
  m <> Panic -> (forall a, m = Ok a -> k a <> Panic) -> rbind m k <> Panic.
Proof. destruct m; simpl; naive_solver. Qed.

(** [inv_ok H] takes apart a hypothesis [let? x := m in k = Ok b]. *)
Ltac inv_ok H :=
  apply rbind_ok in H; let a := fresh "a" in let E := fresh "E" in
  destruct H as (a & E & H).

(** [case_match_hyp] and [split_if] are the case analyses on the conditions of
    the code: they keep the equation of the scrutinee. *)
Ltac split_if :=
  match goal with
  | |- context [if ?b then _ else _] => destruct b eqn:?
  | H : context [if ?b then _ else _] |- _ => destruct b eqn:?
  end.

Ltac bool_hyps :=
  repeat match goal with
  | H : andb _ _ = true |- _ => apply andb_true_iff in H as [? ?]
  | H : orb _ _ = false |- _ => apply orb_false_iff in H as [? ?]
  | H : negb _ = true |- _ => apply negb_true_iff in H
  | H : negb _ = false |- _ => apply negb_false_iff in H
  | H : bool_decide _ = true |- _ => apply bool_decide_eq_true in H
  | H : bool_decide _ = false |- _ => apply bool_decide_eq_false in H
  | H : Z.ltb _ _ = true |- _ => apply Z.ltb_lt in H
  | H : Z.ltb _ _ = false |- _ => apply Z.ltb_ge in H
  | H : Z.leb _ _ = true |- _ => apply Z.leb_le in H
  | H : Z.leb _ _ = false |- _ => apply Z.leb_gt in H
  | H : Z.eqb _ _ = true |- _ => apply Z.eqb_eq in H
  | H : Z.eqb _ _ = false |- _ => apply Z.eqb_neq in H
  end.

(** ** Bytes and Rust strings

    A [Vec<u8>] and the UTF-8 bytes of a [str] are lists of bytes. *)

Notation byte := Corelib.Init.Byte.byte.
Notation bytes := (list byte).

#[export] Instance byte_eq_dec : EqDecision byte.
Proof. intros x y. destruct (Byte.byte_eq_dec x y); [left | right]; done. Defined.

#[export] Instance byte_countable : Countable byte :=
  inj_countable Byte.to_N Byte.of_N Byte.of_to_N.

Definition byte_val (b : byte) : Z := Z.of_N (Byte.to_N b).

(** The low byte of an integer: Rust's [as u8]. *)
Definition byte_of (z : Z) : byte :=
  default Byte.x00 (Byte.of_N (Z.to_N (z mod 256))).

Lemma byte_val_range b : (0 <= byte_val b < 256)%Z.
Proof. unfold byte_val. pose proof (Byte.to_N_bounded b). lia. Qed.

Lemma byte_of_val b : byte_of (byte_val b) = b.
Proof.
  unfold byte_of. rewrite Z.mod_small by apply byte_val_range.
  unfold byte_val. rewrite N2Z.id, Byte.of_to_N. done.
Qed.

Lemma byte_val_of z : byte_val (byte_of z) = (z mod 256)%Z.
Proof.
  unfold byte_of, byte_val.
  pose proof (Z.mod_pos_bound z 256 ltac:(lia)).
  pose proof (Byte.to_of_N_option_map (Z.to_N (z mod 256))) as H1.
  destruct (Byte.of_N _) as [b|] eqn:E; simpl in *.
  - apply Byte.to_of_N in E. rewrite E. lia.
  - destruct (N.leb_spec (Z.to_N (z mod 256)) 255); [done | lia].
Qed.

Lemma byte_val_inj a b : byte_val a = byte_val b -> a = b.
Proof. intros H. rewrite <- (byte_of_val a), <- (byte_of_val b), H. done. Qed.

(** A string literal of the source. *)
Definition str (s : String.string) : bytes := String.list_byte_of_string s.

Export String.StringSyntax.
Delimit Scope string_scope with string.
Arguments str s%_string_scope.

(** ** Lists *)

(** A list is empty or has a last element. *)
Lemma snoc_cases {A} (l : list A) : l = [] \/ exists l' x, l = l' ++ [x].
Proof. induction l using rev_ind; eauto. Qed.

(** ** Sublists and sorted lists *)

Lemma sorted_snoc {X} (R : X -> X -> Prop) l x :
  StronglySorted R l -> Forall (fun y => R y x) l -> StronglySorted R (l ++ [x]).
Proof.
  induction 1 as [|y l Hl IH Hy]; cbn; [by repeat constructor|].
  intros Hx. inversion Hx; subst. constructor; [auto|]. apply Forall_app. by repeat constructor.
Qed.

Lemma sublist_map {X Y} (f : X -> Y) l l' : l' `sublist_of` l -> map f l' `sublist_of` map f l.
Proof. induction 1; cbn; by constructor. Qed.

Lemma sublist_map_inv {X Y} (f : X -> Y) l l' :
  l' `sublist_of` map f l -> exists k, k `sublist_of` l /\ l' = map f k.
Proof.
  revert l'. induction l as [|x l IH]; intros l' Hs; cbn in Hs.
  - apply sublist_nil_r in Hs as ->. by exists [].
  - apply sublist_cons_r in Hs as [Hs | (l1 & -> & Hs)]; destruct (IH _ Hs) as (k & Hk & ->).
    + exists k. by split; [constructor|].
    + exists (x :: k). by split; [constructor|].
Qed.

Lemma sorted_sublist {X} (R : X -> X -> Prop) k l : k `sublist_of` l -> StronglySorted R l -> StronglySorted R k.
Proof.
  induction 1 as [|x k l Hs IH|x k l Hs IH]; intros Hl; [done|inversion Hl; subst..]; [|auto].
  constructor; [auto|]. apply list.Forall_forall. intros y Hy. rewrite list.Forall_forall in *.
  eauto using elem_of_sublist.
Qed.

Lemma sorted_lookup {X} (R : X -> X -> Prop) l i j x y :
  StronglySorted R l -> l !! i = Some x -> l !! j = Some y -> i < j -> R x y.
Proof.
  intros Hl. revert i j. induction Hl as [|z l Hl IH Hz]; intros i j Hi Hj Hlt; [done|].
  destruct j as [|j]; [lia|]. destruct i as [|i]; cbn in *.
  - simplify_eq. rewrite list.Forall_forall in Hz. apply Hz. by eapply list_elem_of_lookup_2.
  - eapply IH; [done..|lia].
Qed.

(** All of [0], ..., [n - 1]. *)
Lemma sorted_full n l : StronglySorted lt l -> Forall (fun i => i < n) l -> length l = n -> l = seq 0 n.
Proof.
  revert n. induction l as [|x l IH] using rev_ind; intros n Hs Hb Hl; [by subst|].
  rewrite length_app in Hl. cbn in Hl. destruct n as [|n]; [lia|].
  apply Forall_app in Hb as [Hb Hx%Forall_inv].
  assert (Forall (fun i => i < x) l) as Hlt.
  { apply list.Forall_forall. intros i [j Hj]%list_elem_of_lookup_1.
    eapply (sorted_lookup lt (l ++ [x]) j (length l)); [done|..].
    - by apply lookup_app_l_Some.
    - by rewrite list_lookup_middle.
    - by apply lookup_lt_Some in Hj. }
  assert (StronglySorted lt l) as Hs' by (eapply sorted_sublist, Hs; by apply sublist_inserts_r).
  assert (l = seq 0 n) as ->.
  { apply IH; [done| |lia]. eapply list.Forall_impl; [exact Hlt|]. cbn. lia. }
  assert (x = n) as ->; [|by rewrite seq_S].
  assert (n <= x); [|lia]. destruct n as [|n]; [lia|]. change (n < x).
  rewrite list.Forall_forall in Hlt. apply Hlt, elem_of_seq. lia.
Qed.
