(* ===== verification/RustStr.v ===== *)
(** * The part of the Rust standard library the modelled code uses

    Decimal formatting and parsing of unsigned integers, [str::split] with a
    character and with the pattern ["=>"], [str::join], UTF-8 validation
    ([core::str::from_utf8]), [str::trim] and big-endian fixed-width integers,
    each with the lemmas the round trips of the components need. *)

From Stdlib Require Import ZArith Lia.
From Stdlib Require Strings.Byte Strings.String.
From stdpp Require Import base gmap list numbers option countable sorting.
From S2P Require Import Prelude.

(** ** Decimal numbers *)

Inductive IntErrorKind :=
| Empty
| InvalidDigit
| PosOverflow.

Definition digit (d : Z) : byte := byte_of (48 + d).

Definition digit_val (b : byte) : option Z :=
  let v := byte_val b in
  if (48 <=? v)%Z && (v <=? 57)%Z then Some (v - 48)%Z else None.

Local Open Scope Z_scope.

(** [char::to_digit]. *)
Definition to_digit (radix : Z) (b : byte) : option Z :=
  let v := byte_val b in
  let d := if (48 <=? v) && (v <=? 57) then Some (v - 48)
           else if (97 <=? v) && (v <=? 122) then Some (v - 87)
           else if (65 <=? v) && (v <=? 90) then Some (v - 55)
           else None in
  match d with
  | Some d => if d <? radix then Some d else None
  | None => None
  end.

Lemma to_digit_10 c : to_digit 10 c = digit_val c.
Proof.
  unfold to_digit, digit_val. destruct ((48 <=? byte_val c) && (byte_val c <=? 57)) eqn:E.
  - apply andb_true_iff in E as [E1%Z.leb_le E2%Z.leb_le].
    by rewrite (proj2 (Z.ltb_lt _ _)) by lia.
  - destruct ((97 <=? byte_val c) && (byte_val c <=? 122)) eqn:E1.
    + apply andb_true_iff in E1 as [E1%Z.leb_le E2%Z.leb_le].
      by rewrite (proj2 (Z.ltb_ge _ _)) by lia.
    + destruct ((65 <=? byte_val c) && (byte_val c <=? 90)) eqn:E3; [|done].
      apply andb_true_iff in E3 as [E3%Z.leb_le E4%Z.leb_le].
      by rewrite (proj2 (Z.ltb_ge _ _)) by lia.
Qed.

Local Close Scope Z_scope.

(** [Display] of an unsigned integer. The fuel is the number of digits after
    the first one: 19 is enough for a [u64], whose largest value has 20. *)
Fixpoint dec_go (fuel : nat) (n : Z) (acc : bytes) : bytes :=
  let acc' := digit (n mod 10) :: acc in
  match fuel with
  | O => acc'
  | S f => if (n / 10 =? 0)%Z then acc' else dec_go f (n / 10) acc'
  end.

Definition to_dec (n : Z) : bytes := dec_go 19 n [].

(** [FromStr] of an unsigned integer whose largest value is [max]: the loop
    over the digits, with [checked_mul] and [checked_add]. *)
Fixpoint parse_digits (max acc : Z) (l : bytes) : result IntErrorKind Z :=
  match l with
  | [] => Ok acc
  | c :: r =>
      match digit_val c with
      | None => Err InvalidDigit
      | Some d =>
          if (max <? acc * 10)%Z then Err PosOverflow
          else if (max <? acc * 10 + d)%Z then Err PosOverflow
          else parse_digits max (acc * 10 + d) r
      end
  end.

Definition parse_uint (max : Z) (l : bytes) : result IntErrorKind Z :=
  match l with
  | [] => Err Empty
  | c :: r =>
      if decide (c = Byte.x2b) then
        match r with
        | [] => Err InvalidDigit
        | _ => parse_digits max 0 r
        end
      else parse_digits max 0 l
  end.

Lemma digit_val_digit d : (0 <= d < 10)%Z -> digit_val (digit d) = Some d.
Proof.
  intros H. unfold digit_val, digit. rewrite byte_val_of, Z.mod_small by lia.
  destruct (Z.leb_spec 48 (48 + d)); [|lia].
  destruct (Z.leb_spec (48 + d) 57); [|lia]. simpl. f_equal; lia.
Qed.

Lemma digit_cases d : (0 <= d < 10)%Z -> digit d ∈ str "0123456789".
Proof.
  intros H.
  assert (d = 0 \/ d = 1 \/ d = 2 \/ d = 3 \/ d = 4 \/ d = 5 \/ d = 6 \/ d = 7
          \/ d = 8 \/ d = 9)%Z as Hd by lia.
  repeat (destruct Hd as [-> | Hd]); [..| subst]; vm_compute; set_solver.
Qed.

(** The digits of [n], read from the left, bring the accumulator to [n]. *)
Lemma parse_dec_go max f n rest :
  (0 <= n < 10 ^ Z.of_nat (S f))%Z -> (n <= max)%Z ->
  parse_digits max 0 (dec_go f n rest) = parse_digits max n rest.
Proof.
  revert n rest. induction f as [|f IH]; intros n rest Hn Hm.
  - change (10 ^ Z.of_nat 1)%Z with 10%Z in Hn. cbn [dec_go parse_digits].
    rewrite Z.mod_small, digit_val_digit by lia.
    destruct (Z.ltb_spec max (0 * 10)); [lia|].
    destruct (Z.ltb_spec max (0 * 10 + n)); [lia|]. f_equal; lia.
  - pose proof (Z.mod_pos_bound n 10 ltac:(lia)).
    pose proof (Z.div_mod n 10 ltac:(lia)).
    cbn [dec_go]. destruct (Z.eqb_spec (n / 10) 0) as [E|E].
    + cbn [parse_digits]. rewrite digit_val_digit by lia.
      destruct (Z.ltb_spec max (0 * 10)); [lia|].
      destruct (Z.ltb_spec max (0 * 10 + n mod 10)); [lia|]. f_equal; lia.
    + rewrite IH.
      * cbn [parse_digits]. rewrite digit_val_digit by lia.
        destruct (Z.ltb_spec max (n / 10 * 10)); [lia|].
        destruct (Z.ltb_spec max (n / 10 * 10 + n mod 10)); [lia|]. f_equal; lia.
      * split; [apply Z.div_pos; lia|].
        apply Z.div_lt_upper_bound; [lia|].
        rewrite <- Z.pow_succ_r, <- Nat2Z.inj_succ by lia. lia.
      * lia.
Qed.

(** The text of a number is made of digits and is not empty. *)
Lemma dec_go_digits f n acc :
  (0 <= n)%Z ->
  exists d ds, dec_go f n acc = d :: ds ++ acc /\
    Forall (fun b => b ∈ str "0123456789") (d :: ds).
Proof.
  revert n acc. induction f as [|f IH]; intros n acc Hn.
  - pose proof (Z.mod_pos_bound n 10 ltac:(lia)).
    exists (digit (n mod 10)), []. split; [done|].
    constructor; [apply digit_cases; lia | done].
  - pose proof (Z.mod_pos_bound n 10 ltac:(lia)). cbn [dec_go].
    destruct (n / 10 =? 0)%Z.
    + exists (digit (n mod 10)), []. split; [done|].
      constructor; [apply digit_cases; lia | done].
    + destruct (IH (n / 10)%Z (digit (n mod 10) :: acc)) as (d & ds & -> & Hds).
      { apply Z.div_pos; lia. }
      exists d, (ds ++ [digit (n mod 10)]). rewrite <- app_assoc. split; [done|].
      inversion_clear Hds. constructor; [done|]. apply Forall_app; split; [done|].
      constructor; [apply digit_cases; lia | done].
Qed.

Lemma to_dec_digits n :
  (0 <= n)%Z ->
  exists d ds, to_dec n = d :: ds /\
    Forall (fun b => b ∈ str "0123456789") (d :: ds).
Proof.
  intros Hn. destruct (dec_go_digits 19 n [] Hn) as (d & ds & E & H).
  exists d, ds. rewrite app_nil_r in E. done.
Qed.

(** Printing and parsing an unsigned integer gives it back. *)
Lemma parse_uint_to_dec max n :
  (0 <= n <= max)%Z -> (max < 2 ^ 64)%Z -> parse_uint max (to_dec n) = Ok n.
Proof.
  intros Hn Hm. destruct (to_dec_digits n) as (d & ds & E & H); [lia|].
  unfold parse_uint. rewrite E.
  rewrite decide_False.
  - rewrite <- E. unfold to_dec. rewrite parse_dec_go; [done| |lia].
    assert (2 ^ 64 < 10 ^ Z.of_nat 20)%Z by (vm_compute; done). lia.
  - intros ->. inversion_clear H. revert H0. vm_compute. set_solver.
Qed.

(** ** Splitting and joining *)

(** [s.split(c)] for a character [c] *)
Fixpoint split_go (c : byte) (cur : bytes) (l : bytes) : list bytes :=
  match l with
  | [] => [cur]
  | b :: r => if decide (b = c) then cur :: split_go c [] r
              else split_go c (cur ++ [b]) r
  end.

Definition split_char (c : byte) (l : bytes) : list bytes := split_go c [] l.

(** [s.split("=>")]: the matches do not overlap and are found from the left *)
Fixpoint split_arrow_go (cur : bytes) (l : bytes) : list bytes :=
  match l with
  | [] => [cur]
  | b :: r =>
      match r with
      | b' :: r' =>
          if bool_decide (b = Byte.x3d) && bool_decide (b' = Byte.x3e)
          then cur :: split_arrow_go [] r'
          else split_arrow_go (cur ++ [b]) r
      | [] => [cur ++ [b]]
      end
  end.

Definition split_arrow (l : bytes) : list bytes := split_arrow_go [] l.

(** Whether the two bytes of ["=>"] occur in this order. *)
Fixpoint has_arrow (l : bytes) : bool :=
  match l with
  | [] => false
  | b :: r =>
      bool_decide (b = Byte.x3d) && bool_decide (head r = Some Byte.x3e)
      || has_arrow r
  end.

(** [v.join(sep)] *)
Fixpoint join (sep : bytes) (l : list bytes) : bytes :=
  match l with
  | [] => []
  | [x] => x
  | x :: r => x ++ sep ++ join sep r
  end.

Lemma split_go_none c cur l : c ∉ l -> split_go c cur l = [cur ++ l].
Proof.
  revert cur. induction l as [|b l IH]; intros cur H; simpl.
  - rewrite app_nil_r. done.
  - rewrite decide_False by set_solver. rewrite IH by set_solver.
    rewrite <- app_assoc. done.
Qed.

Lemma split_go_app c cur l r :
  c ∉ l -> split_go c cur (l ++ c :: r) = (cur ++ l) :: split_char c r.
Proof.
  revert cur. induction l as [|b l IH]; intros cur H; simpl.
  - rewrite decide_True, app_nil_r by done. done.
  - rewrite decide_False by set_solver. rewrite IH by set_solver.
    rewrite <- app_assoc. done.
Qed.

Lemma split_char_none c l : c ∉ l -> split_char c l = [l].
Proof. apply (split_go_none c []). Qed.

Lemma split_char_app c l r : c ∉ l -> split_char c (l ++ c :: r) = l :: split_char c r.
Proof. apply (split_go_app c []). Qed.

Lemma split_arrow_none cur l : has_arrow l = false -> split_arrow_go cur l = [cur ++ l].
Proof.
  revert cur. induction l as [|b l IH]; intros cur H; simpl in *.
  - rewrite app_nil_r. done.
  - apply orb_false_iff in H as [H1 H2]. destruct l as [|b' l]; [done|].
    replace (bool_decide (b = Byte.x3d) && bool_decide (b' = Byte.x3e)) with false.
    + rewrite IH by done. rewrite <- app_assoc. done.
    + rewrite <- H1. simpl. f_equal. apply bool_decide_ext. split; congruence.
Qed.

Lemma split_arrow_app cur l r :
  has_arrow l = false ->
  split_arrow_go cur (l ++ str " => " ++ r) =
    (cur ++ l ++ [Byte.x20]) :: split_arrow_go [] (Byte.x20 :: r).
Proof.
  revert cur. induction l as [|b l IH]; intros cur H.
  - cbn. destruct r as [|b r]; done.
  - cbn [has_arrow] in H. apply orb_false_iff in H as [H1 H2].
    change ((b :: l) ++ str " => " ++ r) with (b :: (l ++ str " => " ++ r)).
    specialize (IH (cur ++ [b]) H2).
    destruct l as [|b' l].
    + cbn in *. rewrite andb_false_r, IH. rewrite <- app_assoc. done.
    + cbn [split_arrow_go app] in *.
      replace (bool_decide (b = Byte.x3d) && bool_decide (b' = Byte.x3e)) with false.
      * rewrite IH, <- !app_assoc. done.
      * rewrite <- H1. f_equal. apply bool_decide_ext. cbn. split; congruence.
Qed.

(** ** [core::str::from_utf8] *)

Definition cont (b : byte) : bool := (128 <=? byte_val b)%Z && (byte_val b <=? 191)%Z.

Definition between (lo hi : Z) (b : byte) : bool :=
  (lo <=? byte_val b)%Z && (byte_val b <=? hi)%Z.

Fixpoint utf8_valid (l : bytes) : bool :=
  match l with
  | [] => true
  | b0 :: r0 =>
      if between 0 127 b0 then utf8_valid r0
      else if between 194 223 b0 then
        match r0 with
        | b1 :: r1 => cont b1 && utf8_valid r1
        | _ => false
        end
      else if between 224 239 b0 then
        match r0 with
        | b1 :: b2 :: r2 =>
            (if between 224 224 b0 then between 160 191 b1
             else if between 237 237 b0 then between 128 159 b1
             else cont b1)
            && cont b2 && utf8_valid r2
        | _ => false
        end
      else if between 240 244 b0 then
        match r0 with
        | b1 :: b2 :: b3 :: r3 =>
            (if between 240 240 b0 then between 144 191 b1
             else if between 244 244 b0 then between 128 143 b1
             else cont b1)
            && cont b2 && cont b3 && utf8_valid r3
        | _ => false
        end
      else false
  end.

(** [from_utf8(b).ok()] *)
Definition from_utf8 (b : bytes) : option bytes :=
  if utf8_valid b then Some b else None.

(** ** [str::trim]: characters with the Unicode property White_Space *)

(** Drop one white-space character at the front. *)
Definition strip_ws (l : bytes) : option bytes :=
  match l with
  | b0 :: r0 =>
      if between 9 13 b0 || between 32 32 b0 then Some r0 else
      match r0 with
      | b1 :: r1 =>
          if between 194 194 b0 && (between 133 133 b1 || between 160 160 b1) then Some r1 else
          match r1 with
          | b2 :: r2 =>
              if between 225 225 b0 && between 154 154 b1 && between 128 128 b2
              || between 226 226 b0 && between 128 128 b1 &&
                 (between 128 138 b2 || between 168 169 b2 || between 175 175 b2)
              || between 226 226 b0 && between 129 129 b1 && between 159 159 b2
              || between 227 227 b0 && between 128 128 b1 && between 128 128 b2
              then Some r2 else None
          | [] => None
          end
      | [] => None
      end
  | [] => None
  end.

(** The same on the reversed text. *)
Definition strip_ws_rev (l : bytes) : option bytes :=
  match l with
  | b0 :: r0 =>
      if between 9 13 b0 || between 32 32 b0 then Some r0 else
      match r0 with
      | b1 :: r1 =>
          if bool_decide (strip_ws [b1; b0] = Some []) then Some r1 else
          match r1 with
          | b2 :: r2 => if bool_decide (strip_ws [b2; b1; b0] = Some []) then Some r2 else None
          | [] => None
          end
      | [] => None
      end
  | [] => None
  end.

(** Each round drops at least one byte: the length is enough fuel. *)
Fixpoint strip_while (strip : bytes -> option bytes) (fuel : nat) (l : bytes) : bytes :=
  match fuel with
  | O => l
  | S f => match strip l with
           | Some r => strip_while strip f r
           | None => l
           end
  end.

Definition trim_start (l : bytes) : bytes := strip_while strip_ws (length l) l.
Definition trim_end (l : bytes) : bytes := rev (strip_while strip_ws_rev (length l) (rev l)).
Definition trim (l : bytes) : bytes := trim_end (trim_start l).

Lemma trim_start_space l : trim_start (Byte.x20 :: l) = trim_start l.
Proof. done. Qed.

Lemma trim_end_space l : trim_end (l ++ [Byte.x20]) = trim_end l.
Proof.
  unfold trim_end. rewrite rev_app_distr, length_app. cbn [rev app length].
  rewrite Nat.add_comm. cbn [strip_while Nat.add].
  change (strip_ws_rev (Byte.x20 :: rev l)) with (Some (rev l)). done.
Qed.

(** A text that begins with a digit has no white space at the front. *)
Lemma trim_start_digit d l : d ∈ str "0123456789" -> trim_start (d :: l) = d :: l.
Proof.
  intros H. unfold trim_start. cbn [length strip_while].
  replace (strip_ws (d :: l)) with (@None bytes); [done|].
  repeat (apply elem_of_cons in H as [-> | H];
    [destruct l as [|? [|? ?]]; done|]). inversion H.
Qed.

(** Stripping until nothing is left to strip. *)
Section Strip.
Context (strip : bytes -> option bytes).
Hypothesis strip_suffix : forall l r, strip l = Some r -> exists p, l = p ++ r /\ p <> [].

Lemma strip_while_done f l : length l <= f -> strip (strip_while strip f l) = None.
Proof.
  revert l; induction f as [|f IH]; intros l Hl; simpl; destruct (strip l) as [r|] eqn:E; try done.
  - apply strip_suffix in E as ([|b p] & -> & Hp); simpl in Hl; [done|lia].
  - apply IH. apply strip_suffix in E as ([|b p] & -> & Hp); [done|].
    simpl in Hl. rewrite length_app in Hl. lia.
Qed.

Lemma strip_while_suffix f l : exists p, l = p ++ strip_while strip f l.
Proof.
  revert l; induction f as [|f IH]; intros l; simpl; [by exists []|].
  destruct (strip l) as [r|] eqn:E; [|by exists []].
  apply strip_suffix in E as (p & -> & _). destruct (IH r) as [q Hq].
  exists (p ++ q). by rewrite <- app_assoc, <- Hq.
Qed.

Lemma strip_while_none f l : strip l = None -> strip_while strip f l = l.
Proof. intros H. destruct f; simpl; [done|]. by rewrite H. Qed.
End Strip.

Lemma strip_ws_suffix l r : strip_ws l = Some r -> exists p, l = p ++ r /\ p <> [].
Proof.
  unfold strip_ws. intros H. repeat case_match; simplify_eq.
  - by exists [b].
  - by exists [b; b0].
  - by exists [b; b0; b1].
Qed.

Lemma strip_ws_rev_suffix l r : strip_ws_rev l = Some r -> exists p, l = p ++ r /\ p <> [].
Proof.
  unfold strip_ws_rev. intros H. repeat case_match; simplify_eq.
  - by exists [b].
  - by exists [b; b0].
  - by exists [b; b0; b1].
Qed.

Lemma strip_ws_prefix p q : strip_ws (p ++ q) = None -> strip_ws p = None.
Proof.
  destruct p as [|b0 [|b1 [|b2 p]]]; simpl; [done|..]; repeat case_match; done.
Qed.

(** Trimming twice is trimming once. *)
Lemma trim_idem l : trim (trim l) = trim l.
Proof.
  unfold trim. set (t := trim_start l).
  assert (Ht : strip_ws t = None) by (apply (strip_while_done _ strip_ws_suffix); done).
  assert (He : exists q, t = trim_end t ++ q).
  { destruct (strip_while_suffix _ strip_ws_rev_suffix (length t) (rev t)) as [p Hp].
    exists (rev p). unfold trim_end. rewrite <- rev_app_distr, <- Hp. by rewrite rev_involutive. }
  destruct He as [q He]. rewrite He in Ht. apply strip_ws_prefix in Ht.
  unfold trim_start. rewrite strip_while_none by done.
  unfold trim_end at 1. rewrite strip_while_none; [by rewrite rev_involutive|].
  unfold trim_end. rewrite rev_involutive. apply (strip_while_done _ strip_ws_rev_suffix).
  by rewrite length_rev.
Qed.

(** ** Big-endian integers of [n] bytes *)

Fixpoint to_be_bytes (n : nat) (z : Z) : bytes :=
  match n with
  | O => []
  | S m => byte_of (Z.shiftr z (8 * Z.of_nat m)) :: to_be_bytes m z
  end.

Fixpoint from_be_bytes (acc : Z) (l : bytes) : Z :=
  match l with
  | [] => acc
  | b :: r => from_be_bytes (acc * 256 + byte_val b) r
  end.

Lemma length_to_be_bytes n z : length (to_be_bytes n z) = n.
Proof. induction n; simpl; auto. Qed.

Lemma from_to_be_bytes n acc z :
  (0 <= z < 256 ^ Z.of_nat n)%Z ->
  from_be_bytes acc (to_be_bytes n z) = (acc * 256 ^ Z.of_nat n + z)%Z.
Proof.
  cut (forall acc, from_be_bytes acc (to_be_bytes n z) =
         acc * 256 ^ Z.of_nat n + z mod 256 ^ Z.of_nat n)%Z.
  { intros H Hz. rewrite H, Z.mod_small; done. }
  clear acc. induction n as [|n IH]; intros acc.
  - simpl. rewrite Z.mod_1_r. lia.
  - cbn [to_be_bytes from_be_bytes]. rewrite IH, byte_val_of.
    rewrite Nat2Z.inj_succ, Z.pow_succ_r by lia.
    assert (0 < 256 ^ Z.of_nat n)%Z by (apply Z.pow_pos_nonneg; lia).
    rewrite Z.shiftr_div_pow2 by lia.
    replace (2 ^ (8 * Z.of_nat n))%Z with (256 ^ Z.of_nat n)%Z
      by (rewrite Z.pow_mul_r by lia; done).
    rewrite (Z.mul_comm 256 (256 ^ Z.of_nat n)), Z.rem_mul_r by lia. lia.
Qed.

(** ** Slices *)

(** [&l[a..b]]: panics when the range is not inside the slice. *)
Definition slice {E} (l : bytes) (a b : nat) : result E bytes :=
  if (a <=? b) && (b <=? length l) then Ok (take (b - a) (drop a l)) else Panic.

(** [&l[a..]] *)
Definition slice_from {E} (l : bytes) (a : nat) : result E bytes :=
  if a <=? length l then Ok (drop a l) else Panic.

Lemma slice_ok {E} l a b :
  a <= b -> b <= length l -> slice (E := E) l a b = Ok (take (b - a) (drop a l)).
Proof.
  intros H1 H2. unfold slice. apply Nat.leb_le in H1, H2. rewrite H1, H2. done.
Qed.

Lemma slice_length {E} l a b (r : bytes) : slice (E := E) l a b = Ok r -> length r = b - a.
Proof.
  unfold slice. split_if; [|done]. intros [= <-]. bool_hyps.
  rewrite length_take, length_drop. repeat match goal with
  | H : Nat.leb _ _ = true |- _ => apply Nat.leb_le in H end. lia.
Qed.

Lemma slice_from_ok {E} l a : a <= length l -> slice_from (E := E) l a = Ok (drop a l).
Proof. intros H. unfold slice_from. apply Nat.leb_le in H. rewrite H. done. Qed.

#[global] Arguments to_be_bytes : simpl never.
#[global] Arguments from_be_bytes : simpl never.

(** ** Ordered maps *)

(** [Ord] of [str]: lexicographic on the bytes. *)
Fixpoint bytes_compare (a b : bytes) : comparison :=
  match a, b with
  | [], [] => Eq
  | [], _ :: _ => Lt
  | _ :: _, [] => Gt
  | x :: a', y :: b' =>
      match (byte_val x ?= byte_val y)%Z with
      | Eq => bytes_compare a' b'
      | c => c
      end
  end.

Lemma bytes_compare_eq a b : bytes_compare a b = Eq <-> a = b.
Proof.
  revert b; induction a as [|x a IH]; intros [|y b]; simpl; try done.
  destruct (Z.compare_spec (byte_val x) (byte_val y)) as [Hv|Hv|Hv].
  - apply byte_val_inj in Hv as ->. rewrite IH. split; [by intros ->|congruence].
  - split; [done|intros [= -> _]; lia].
  - split; [done|intros [= -> _]; lia].
Qed.

(** The entries of a [BTreeMap] with string keys, in the order of an iteration. *)
Definition key_le {A} (p q : bytes * A) : Prop := bytes_compare p.1 q.1 <> Gt.

#[export] Instance key_le_dec {A} : RelDecision (@key_le A).
Proof. intros p q. unfold key_le. solve_decision. Defined.

Definition btree_iter {A} (m : gmap bytes A) : list (bytes * A) := merge_sort key_le (map_to_list m).

Lemma btree_iter_elem {A} (m : gmap bytes A) k v : (k, v) ∈ btree_iter m <-> m !! k = Some v.
Proof. unfold btree_iter. by rewrite merge_sort_Permutation, elem_of_map_to_list. Qed.

Lemma btree_iter_nodup {A} (m : gmap bytes A) : NoDup (btree_iter m).*1.
Proof. unfold btree_iter. rewrite merge_sort_Permutation. apply NoDup_fst_map_to_list. Qed.
