(* ===== verification/Routing.v ===== *)
(** * Addresses, routes and messages (ockam_core/src/routing)

    [Address] and its text form, [Route] and [RouteBuilder], and the message
    types a worker receives ([TransportMessage], [LocalMessage],
    [RelayMessage]). A [RouteBuilder] made by [Route::modify] borrows the route
    and writes it back when it is dropped: [RouteBuilder_drop] is that write. *)

From Stdlib Require Import ZArith Lia.
From Stdlib Require Strings.Byte Strings.String.
From stdpp Require Import base gmap list numbers option countable.
From S2P Require Import Prelude RustStr.

(** ** Addresses: address.rs, transport_type.rs, error.rs *)

Record TransportType := mkTransportType { tt_code : byte }.

Definition LOCAL : TransportType := mkTransportType Byte.x00.

Record Address := mkAddress {
  a_tt : TransportType;
  a_inner : bytes
}.

Inductive AddressParseErrorKind :=
| InvalidType (e : IntErrorKind)
| MultipleSep.

Inductive RouteError :=
| IncompleteRoute.

#[export] Instance TransportType_eq_dec : EqDecision TransportType.
Proof. solve_decision. Defined.
#[export] Instance TransportType_countable : Countable TransportType :=
  inj_countable' tt_code mkTransportType (fun '(mkTransportType _) => eq_refl).
#[export] Instance Address_eq_dec : EqDecision Address.
Proof. solve_decision. Defined.
#[export] Instance Address_countable : Countable Address :=
  inj_countable' (fun a => (a_tt a, a_inner a)) (fun '(t, i) => mkAddress t i)
    (fun '(mkAddress _ _) => eq_refl).

Definition TransportType_is_local (t : TransportType) : bool := bool_decide (t = LOCAL).

Definition TransportType_display (t : TransportType) : bytes := to_dec (byte_val (tt_code t)).

Definition Address_new (t : TransportType) (data : bytes) : Address := mkAddress t data.

(** [impl FromStr for Address] *)
Definition Address_from_str (s : bytes) : result AddressParseErrorKind Address :=
  match split_char Byte.x23 s with
  | [v0] => Ok (mkAddress LOCAL v0)
  | [v0; v1] =>
      match parse_uint 255 v0 with
      | Ok n => Ok (mkAddress (mkTransportType (byte_of n)) v1)
      | Err e => Err (InvalidType e)
      | Panic => Panic
      end
  | _ => Err MultipleSep
  end.

(** [Address::from_string], also [From<String>], [From<&str>]: panics on a text
    that does not parse. *)
Definition Address_from_string (s : bytes) : result AddressParseErrorKind Address :=
  match Address_from_str s with
  | Ok a => Ok a
  | _ => Panic
  end.

Definition Address_without_type (a : Address) : bytes :=
  default (str "<unprintable>") (from_utf8 (a_inner a)).

Definition Address_address (a : Address) : bytes :=
  default (str "Invalid UTF-8") (from_utf8 (a_inner a)).

Definition Address_is_local (a : Address) : bool := bool_decide (a_tt a = LOCAL).

(** [impl Display for Address] *)
Definition Address_display (a : Address) : bytes :=
  TransportType_display (a_tt a) ++ str "#" ++ default (str "Invalid UTF-8") (from_utf8 (a_inner a)).

Definition Address_from_vec (data : bytes) : Address := mkAddress LOCAL data.

Definition Address_from_pair (p : TransportType * bytes) : Address := mkAddress p.1 p.2.

(** ** Routes: route.rs *)

Notation Route := (list Address).

Record RouteBuilder := mkRouteBuilder {
  rb_inner : list Address;
  (** whether [write_back] holds a reference to the route it was made from *)
  write_back : bool
}.

Definition RouteBuilder_new : RouteBuilder := mkRouteBuilder [] false.

Definition Route_new : RouteBuilder := RouteBuilder_new.

Definition Route_modify (r : Route) : RouteBuilder := mkRouteBuilder r true.

Definition RouteBuilder_append (addr : Address) (b : RouteBuilder) : RouteBuilder :=
  mkRouteBuilder (rb_inner b ++ [addr]) (write_back b).

Definition RouteBuilder_append_t (ty : TransportType) (addr : bytes) (b : RouteBuilder)
  : RouteBuilder :=
  mkRouteBuilder (rb_inner b ++ [Address_from_pair (ty, addr)]) (write_back b).

Definition RouteBuilder_prepend (addr : Address) (b : RouteBuilder) : RouteBuilder :=
  mkRouteBuilder (addr :: rb_inner b) (write_back b).

(** [route.inner.into_iter().rev().for_each(|addr| self.inner.push_front(addr))] *)
Definition RouteBuilder_prepend_route (route : Route) (b : RouteBuilder) : RouteBuilder :=
  mkRouteBuilder (foldl (fun acc addr => addr :: acc) (rb_inner b) (rev route)) (write_back b).

Definition RouteBuilder_append_route (route : Route) (b : RouteBuilder) : RouteBuilder :=
  mkRouteBuilder (foldl (fun acc addr => acc ++ [addr]) (rb_inner b) route) (write_back b).

Definition RouteBuilder_replace (addr : Address) (b : RouteBuilder) : RouteBuilder :=
  mkRouteBuilder (addr :: tail (rb_inner b)) (write_back b).

Definition RouteBuilder_pop_front (b : RouteBuilder) : RouteBuilder :=
  mkRouteBuilder (tail (rb_inner b)) (write_back b).

Definition RouteBuilder_pop_back (b : RouteBuilder) : RouteBuilder :=
  mkRouteBuilder (removelast (rb_inner b)) (write_back b).

(** [impl From<RouteBuilder> for Route]: a copy; the builder is dropped after. *)
Definition RouteBuilder_into (b : RouteBuilder) : Route := rb_inner b.

(** [impl Drop for RouteBuilder]: the value of the borrowed route afterwards. *)
Definition RouteBuilder_drop (b : RouteBuilder) (borrowed : Route) : Route :=
  if write_back b then rb_inner b else borrowed.

Definition Route_create (vt : list Address) : Route :=
  RouteBuilder_into (foldl (fun r addr => RouteBuilder_append addr r) Route_new vt).

(** [Route::parse]: [None] on the empty text only; an address that does not
    parse panics inside [append], through [From<&str> for Address]. *)
Fixpoint Route_parse_fold (b : RouteBuilder) (addrs : list bytes)
  : result AddressParseErrorKind RouteBuilder :=
  match addrs with
  | [] => Ok b
  | addr :: rest =>
      let? a := Address_from_string (trim addr) in
      Route_parse_fold (RouteBuilder_append a b) rest
  end.

Definition Route_parse (s : bytes) : result AddressParseErrorKind (option Route) :=
  match s with
  | [] => Ok None
  | _ =>
      match split_arrow s with
      | [] => Ok None
      | addrs =>
          let? b := Route_parse_fold Route_new addrs in
          Ok (Some (RouteBuilder_into b))
      end
  end.

(** [Route::step] mutates the route: it returns the route it leaves too. *)
Definition Route_step (r : Route) : result RouteError Address * Route :=
  match r with
  | [] => (Err IncompleteRoute, [])
  | a :: r' => (Ok a, r')
  end.

Definition Route_next (r : Route) : result RouteError Address :=
  ok_or (head r) IncompleteRoute.

Definition Route_recipient (r : Route) : result RouteError Address :=
  ok_or (list.last r) IncompleteRoute.

Definition Route_len (r : Route) : nat := length r.
Definition Route_is_empty (r : Route) : bool := bool_decide (r = []).

(** [for i in 0..=(hl - nl)] with its early return *)
Fixpoint contains_route_loop (h needle : Route) (i n : nat) : bool :=
  if bool_decide (take (length needle) (drop i h) = needle) then true
  else match n with
       | O => false
       | S n' => contains_route_loop h needle (S i) n'
       end.

Definition Route_contains_route (r needle : Route) : result RouteError bool :=
  if Route_is_empty needle then Err IncompleteRoute
  else
    let hl := Route_len r in
    let nl := Route_len needle in
    if (hl <? nl)%nat then Ok false
    else Ok (contains_route_loop r needle 0 (hl - nl)).

Definition Route_is_local (r : Route) : bool := forallb Address_is_local r.

Definition Route_display (r : Route) : bytes := join (str " => ") (map Address_display r).

(** ** Messages: routing/message *)

Record TransportMessage := mkTransportMessage {
  version : byte;
  onward_route : Route;
  return_route : Route;
  payload : bytes
}.

Record LocalInfo := mkLocalInfo {
  type_identifier : bytes;
  li_data : bytes
}.

Record LocalMessage := mkLocalMessage {
  transport_message : TransportMessage;
  local_info : list LocalInfo
}.

Record RelayMessage := mkRelayMessage {
  rm_source : Address;
  rm_destination : Address;
  rm_local_msg : LocalMessage
}.

(** The encoding of messages between nodes (BARE, [serde]). *)
Class TransportCodec := {
  encode_transport : TransportMessage -> option bytes;
  decode_transport : bytes -> option TransportMessage
}.

Class TransportCodecLaws `{TransportCodec} : Prop := {
  transport_roundtrip : forall t b, encode_transport t = Some b -> decode_transport b = Some t
}.

Definition TransportMessage_v1 (onward return_ : Route) (p : bytes) : TransportMessage :=
  mkTransportMessage Byte.x01 onward return_ p.

Definition LocalMessage_append_local_info (info : LocalInfo) (m : LocalMessage) : LocalMessage :=
  mkLocalMessage (transport_message m) (local_info m ++ [info]).

Definition LocalMessage_clear_local_info (ty : bytes) (m : LocalMessage) : LocalMessage :=
  mkLocalMessage (transport_message m)
    (filter (fun x => type_identifier x <> ty) (local_info m)).

Definition LocalMessage_replace_local_info (info : LocalInfo) (m : LocalMessage) : LocalMessage :=
  let m' := LocalMessage_clear_local_info (type_identifier info) m in
  mkLocalMessage (transport_message m') (local_info m' ++ [info]).

Definition RelayMessage_onward_route (m : RelayMessage) : Route :=
  onward_route (transport_message (rm_local_msg m)).

Definition RelayMessage_return_route (m : RelayMessage) : Route :=
  return_route (transport_message (rm_local_msg m)).

(** * Properties *)

(** ** The text form of an address *)

(** An address the text form can carry. *)
Definition printable (a : Address) : bool :=
  utf8_valid (a_inner a) && bool_decide (Byte.x23 ∉ a_inner a).

Lemma TransportType_display_spec t :
  exists d ds, TransportType_display t = d :: ds /\
    d ∈ str "0123456789" /\ Byte.x23 ∉ d :: ds.
Proof.
  unfold TransportType_display.
  destruct (to_dec_digits (byte_val (tt_code t))) as (d & ds & E & H).
  { apply byte_val_range. }
  exists d, ds. split; [done|]. split; [by inversion H|].
  intros Hin. rewrite list.Forall_forall in H. apply H in Hin. revert Hin. vm_compute.
  set_solver.
Qed.

Lemma TransportType_display_parse t :
  parse_uint 255 (TransportType_display t) = Ok (byte_val (tt_code t)).
Proof.
  apply parse_uint_to_dec; [|lia]. pose proof (byte_val_range (tt_code t)). lia.
Qed.

Lemma Address_display_printable a :
  printable a = true ->
  Address_display a = TransportType_display (a_tt a) ++ Byte.x23 :: a_inner a.
Proof.
  unfold printable, Address_display, from_utf8. intros H. bool_hyps. rewrite H. done.
Qed.

Lemma address_text a :
  printable a = true -> Address_from_str (Address_display a) = Ok a.
Proof.
  intros H. rewrite Address_display_printable by done.
  unfold printable in H. bool_hyps.
  destruct (TransportType_display_spec (a_tt a)) as (d & ds & E & _ & Hn).
  unfold Address_from_str. rewrite split_char_app by (rewrite E; done).
  rewrite split_char_none by done. rewrite TransportType_display_parse, byte_of_val.
  destruct a as [[t] i]; done.
Qed.

(** The addresses whose text survives the [" => "] separators and [trim]. *)
Definition route_printable (a : Address) : bool :=
  printable a && negb (has_arrow (Address_display a))
  && bool_decide (trim_end (Address_display a) = Address_display a).

Lemma trim_piece a pre post :
  route_printable a = true ->
  pre = [] \/ pre = [Byte.x20] -> post = [] \/ post = [Byte.x20] ->
  trim (pre ++ Address_display a ++ post) = Address_display a.
Proof.
  intros H Hpre Hpost. unfold route_printable in H. bool_hyps.
  assert (trim_start (pre ++ Address_display a ++ post) = Address_display a ++ post) as E.
  { rewrite Address_display_printable by done.
    destruct (TransportType_display_spec (a_tt a)) as (d & ds & -> & Hd & _).
    destruct Hpre as [-> | ->]; cbn [app];
      rewrite ?trim_start_space; apply trim_start_digit; done. }
  unfold trim. rewrite E. destruct Hpost as [-> | ->].
  - rewrite app_nil_r. done.
  - rewrite trim_end_space. done.
Qed.

Lemma split_arrow_space t : split_arrow_go [] (Byte.x20 :: t) = split_arrow_go [Byte.x20] t.
Proof. destruct t; done. Qed.

Lemma split_display cur a r :
  cur = [] \/ cur = [Byte.x20] -> forallb route_printable (a :: r) = true ->
  map trim (split_arrow_go cur (Route_display (a :: r))) = map Address_display (a :: r).
Proof.
  revert cur a. induction r as [|a' r IH]; intros cur a Hcur H; cbn [forallb] in H; bool_hyps.
  - unfold Route_display. cbn [map join]. assert (H' := H).
    unfold route_printable in H'. bool_hyps.
    rewrite split_arrow_none by done. cbn [map]. f_equal.
    rewrite <- (app_nil_r (Address_display a)) at 1. apply trim_piece; auto.
  - unfold Route_display in *. cbn [map] in *. assert (H' := H).
    unfold route_printable in H'. bool_hyps.
    change (join (str " => ") (Address_display a :: Address_display a' :: map Address_display r))
      with (Address_display a ++ str " => " ++
              join (str " => ") (Address_display a' :: map Address_display r)).
    rewrite split_arrow_app, split_arrow_space by done. cbn [map]. f_equal.
    + apply trim_piece; auto.
    + apply IH; [by right|]. cbn [forallb]. apply andb_true_iff. done.
Qed.

Lemma parse_fold_pieces b ps r :
  map trim ps = map Address_display r -> forallb route_printable r = true ->
  Route_parse_fold b ps = Ok (mkRouteBuilder (rb_inner b ++ r) (write_back b)).
Proof.
  revert b r. induction ps as [|p ps IH]; intros b [|a r] E H; try done.
  - rewrite app_nil_r. destruct b; done.
  - cbn [map] in E. injection E as E1 E2. cbn [forallb] in H. bool_hyps.
    assert (H' := H). unfold route_printable in H'. bool_hyps.
    cbn [Route_parse_fold]. rewrite E1. unfold Address_from_string.
    rewrite address_text by done. cbn [rbind].
    rewrite (IH _ r) by done. unfold RouteBuilder_append. simpl.
    rewrite <- app_assoc. done.
Qed.

Lemma route_text a r :
  forallb route_printable (a :: r) = true ->
  Route_parse (Route_display (a :: r)) = Ok (Some (a :: r)).
Proof.
  intros H.
  pose proof (split_display [] a r (or_introl eq_refl) H) as Hsplit.
  unfold Route_parse.
  destruct (Route_display (a :: r)) as [|b s] eqn:E.
  { exfalso. cbn [split_arrow_go map] in Hsplit. injection Hsplit as Hd _.
    change (trim []) with (@nil byte) in Hd.
    cbn [forallb] in H. unfold route_printable in H. bool_hyps.
    rewrite Address_display_printable in Hd by done.
    destruct (TransportType_display_spec (a_tt a)) as (d & ds & Ed & _).
    rewrite Ed in Hd. discriminate Hd. }
  fold (split_arrow (b :: s)) in Hsplit.
  destruct (split_arrow (b :: s)) as [|p ps] eqn:E2; [done|].
  rewrite (parse_fold_pieces Route_new (p :: ps) (a :: r)) by done. done.
Qed.

(** Parsing never panics, and what it accepts is exactly a text with at most one
    separator whose type part is a [u8]. *)
Lemma Address_from_str_local s :
  Byte.x23 ∉ s -> Address_from_str s = Ok (mkAddress LOCAL s).
Proof. intros H. unfold Address_from_str. rewrite split_char_none; done. Qed.

Lemma split_go_no_sep c cur l :
  c ∉ cur -> forall p, p ∈ split_go c cur l -> c ∉ p.
Proof.
  revert cur. induction l as [|b l IH]; intros cur Hc p; simpl.
  - set_solver.
  - destruct (decide (b = c)); [|apply IH; set_solver].
    intros Hp. apply elem_of_cons in Hp as [-> | Hp]; [done|]. eapply IH; [|done]. set_solver.
Qed.

Lemma Address_from_str_no_sep s a : Address_from_str s = Ok a -> Byte.x23 ∉ a_inner a.
Proof.
  unfold Address_from_str. intros H.
  pose proof (split_go_no_sep Byte.x23 [] s ltac:(set_solver)) as Hs.
  fold (split_char Byte.x23 s) in Hs.
  destruct (split_char Byte.x23 s) as [|v0 [|v1 [|]]]; try done.
  - injection H as <-. apply Hs. set_solver.
  - destruct (parse_uint 255 v0); try done. injection H as <-. apply Hs. set_solver.
Qed.

(** ** Route builders *)

(** The operations of the builder and the list each one is meant to produce. *)
Inductive route_op :=
| OpAppend (a : Address)
| OpPrepend (a : Address)
| OpPrependRoute (r : Route)
| OpAppendRoute (r : Route)
| OpReplace (a : Address)
| OpPopFront
| OpPopBack.

Definition run_builder (op : route_op) : RouteBuilder -> RouteBuilder :=
  match op with
  | OpAppend a => RouteBuilder_append a
  | OpPrepend a => RouteBuilder_prepend a
  | OpPrependRoute r => RouteBuilder_prepend_route r
  | OpAppendRoute r => RouteBuilder_append_route r
  | OpReplace a => RouteBuilder_replace a
  | OpPopFront => RouteBuilder_pop_front
  | OpPopBack => RouteBuilder_pop_back
  end.

Definition route_op_spec (op : route_op) (l : list Address) : list Address :=
  match op with
  | OpAppend a => l ++ [a]
  | OpPrepend a => a :: l
  | OpPrependRoute r => r ++ l
  | OpAppendRoute r => l ++ r
  | OpReplace a => a :: drop 1 l
  | OpPopFront => drop 1 l
  | OpPopBack => take (length l - 1) l
  end.

Lemma foldl_push_front {A} (r l : list A) :
  foldl (fun acc a => a :: acc) l (rev r) = r ++ l.
Proof.
  revert l. induction r as [|a r IH]; intros l; [done|].
  cbn [rev]. rewrite foldl_app, IH. done.
Qed.

Lemma foldl_push_back {A} (r l : list A) : foldl (fun acc a => acc ++ [a]) l r = l ++ r.
Proof.
  revert l. induction r as [|a r IH]; intros l; simpl.
  - rewrite app_nil_r. done.
  - rewrite IH, <- app_assoc. done.
Qed.

Lemma removelast_take {A} (l : list A) : removelast l = take (length l - 1) l.
Proof. rewrite removelast_firstn_len. f_equal. lia. Qed.

Lemma run_builder_spec op b :
  run_builder op b = mkRouteBuilder (route_op_spec op (rb_inner b)) (write_back b).
Proof.
  destruct op; unfold run_builder; simpl; unfold RouteBuilder_append, RouteBuilder_prepend,
    RouteBuilder_prepend_route, RouteBuilder_append_route, RouteBuilder_replace,
    RouteBuilder_pop_front, RouteBuilder_pop_back;
    rewrite ?foldl_push_front, ?foldl_push_back, ?removelast_take; try done;
    destruct (rb_inner b); done.
Qed.

Lemma run_builder_all ops b :
  foldl (fun b op => run_builder op b) b ops =
  mkRouteBuilder (foldl (fun l op => route_op_spec op l) (rb_inner b) ops) (write_back b).
Proof.
  revert b. induction ops as [|op ops IH]; intros b; simpl; [by destruct b|].
  rewrite IH, run_builder_spec. done.
Qed.

(** ** Containment *)

Lemma contains_route_loop_spec h needle i n :
  contains_route_loop h needle i n = true <->
  exists j, i <= j <= i + n /\ take (length needle) (drop j h) = needle.
Proof.
  revert i. induction n as [|n IH]; intros i; simpl; case_bool_decide as E.
  - split; [|done]. exists i. split; [lia | done].
  - split; [done|]. intros (j & Hj & Ej). assert (j = i) as -> by lia. done.
  - split; [|done]. exists i. split; [lia | done].
  - rewrite IH. split; intros (j & Hj & Ej).
    + exists j. split; [lia | done].
    + exists j. split; [|done]. destruct (decide (j = i)) as [-> | ]; [done | lia].
Qed.

(** ** Main theorems *)

(** Printing an address and parsing the text gives the address back, for
    every transport type and every payload that is valid UTF-8 without the
    separator. *)
Theorem address_display_roundtrip (a : Address) :
  utf8_valid (a_inner a) = true -> Byte.x23 ∉ a_inner a ->
  Address_from_str (Address_display a) = Ok a.
Proof.
  intros Hu Hs. apply address_text. unfold printable. rewrite Hu.
  apply bool_decide_eq_true. done.
Qed.

Lemma address_display_roundtrip_witness :
  let a := mkAddress (mkTransportType Byte.x7f) (str "carol") in
  Address_display a = str "127#carol" /\ Address_from_str (Address_display a) = Ok a.
Proof.
  split; [vm_compute; reflexivity|].
  apply address_display_roundtrip; [vm_compute; reflexivity|].
  apply (bool_decide_unpack _). vm_compute. exact I.
Defined.

(** Printing a non-empty route and parsing the text gives the route back,
    provided no address text contains the arrow or ends in white space. *)
Theorem route_display_roundtrip (r : Route) :
  r <> [] -> forallb route_printable r = true ->
  Route_parse (Route_display r) = Ok (Some r).
Proof. destruct r as [|a r]; [done|]. intros _. apply route_text. Qed.

Definition sample_route : Route :=
  [mkAddress (mkTransportType Byte.x01) (str "alice");
   mkAddress LOCAL (str "a = b");
   mkAddress LOCAL (str "bob")].

Lemma route_display_roundtrip_witness :
  Route_display sample_route = str "1#alice => 0#a = b => 0#bob" /\
  Route_parse (Route_display sample_route) = Ok (Some sample_route).
Proof.
  split; [vm_compute; reflexivity|].
  apply route_display_roundtrip; [discriminate | vm_compute; reflexivity].
Defined.

(** [contains_route] answers [true] exactly when the needle occurs in the
    route as consecutive hops, and refuses an empty needle. *)
Theorem contains_route_correct (r needle : Route) :
  (needle = [] -> Route_contains_route r needle = Err IncompleteRoute) /\
  (needle <> [] -> exists b, Route_contains_route r needle = Ok b /\
     (b = true <-> exists before after, r = before ++ needle ++ after)).
Proof.
  unfold Route_contains_route, Route_is_empty, Route_len.
  split; intros H; [by rewrite bool_decide_eq_true_2|].
  rewrite bool_decide_eq_false_2 by done.
  destruct (Nat.ltb_spec (length r) (length needle)) as [Hl|Hl].
  - exists false. split; [done|]. split; [done|]. intros (p & q & ->).
    rewrite !length_app in Hl. lia.
  - eexists. split; [done|]. rewrite contains_route_loop_spec. split.
    + intros (j & _ & Ej). exists (take j r), (drop (length needle) (drop j r)).
      rewrite <- Ej at 1. rewrite take_drop, take_drop. done.
    + intros (p & q & ->). exists (length p). rewrite !length_app. split; [lia|].
      rewrite drop_app_length, take_app_length. done.
Qed.

Lemma contains_route_correct_witness :
  let r := sample_route in let n := drop 1 sample_route in
  Route_contains_route r n = Ok true /\
  exists b, Route_contains_route r n = Ok b /\
    (b = true <-> exists before after, r = before ++ n ++ after).
Proof.
  split; [vm_compute; reflexivity|].
  apply contains_route_correct. discriminate.
Defined.

(** A builder made by [modify] leaves in the borrowed route, when it is
    dropped, what the sequence of builder calls computes on lists, and the route
    it converts into is the same; a builder made by [new] touches no route. *)
Theorem route_builder_write_back (r : Route) (ops : list route_op) :
  let b := foldl (fun b op => run_builder op b) (Route_modify r) ops in
  let b' := foldl (fun b op => run_builder op b) Route_new ops in
  RouteBuilder_drop b r = foldl (fun l op => route_op_spec op l) r ops /\
  RouteBuilder_into b = RouteBuilder_drop b r /\
  RouteBuilder_drop b' r = r /\
  RouteBuilder_into b' = foldl (fun l op => route_op_spec op l) [] ops.
Proof. cbv zeta. rewrite !run_builder_all. done. Qed.
