(* ===== verification/AccessControl.v ===== *)
(** * Access control and mailboxes (ockam_core/src/access_control, routing/mailbox.rs)

    The traits [IncomingAccessControl] and [OutgoingAccessControl] are type
    classes, the implementations of ockam_core their instances, and
    [Arc<dyn ..>] the closure [dyn_incoming] or [dyn_outgoing] of an instance.
    A mailbox pairs an address with two such closures. *)

From Stdlib Require Import ZArith Lia.
From Stdlib Require Strings.Byte Strings.String.
From stdpp Require Import base gmap list numbers option countable.
From S2P Require Import Prelude RustStr Routing.

(** The errors an authorization can end with: a route without a next hop, an
    error of the storage an access control reads (opaque), or one of the
    identity errors of the access controls based on attributes. *)
Inductive Error :=
| RouteErr (e : RouteError)
| StorageErr (code : nat)
| DecodeErr
| InvalidSystemTime
| InvalidIdentityId
| InvalidLocalInfoType.

Definition allow : result Error bool := Ok true.
Definition deny : result Error bool := Ok false.

Class IncomingAccessControl (A : Type) :=
  incoming_is_authorized : A -> RelayMessage -> result Error bool.

Class OutgoingAccessControl (A : Type) :=
  outgoing_is_authorized : A -> RelayMessage -> result Error bool.

(** [Arc<dyn IncomingAccessControl>], [Arc<dyn OutgoingAccessControl>] *)
Definition DynAccessControl := RelayMessage -> result Error bool.

Definition dyn_incoming {A} `{IncomingAccessControl A} (a : A) : DynAccessControl :=
  incoming_is_authorized a.
Definition dyn_outgoing {A} `{OutgoingAccessControl A} (a : A) : DynAccessControl :=
  outgoing_is_authorized a.

(** ** The implementations of ockam_core *)

Inductive AllowAll := mkAllowAll.
Inductive DenyAll := mkDenyAll.
Inductive AllowSourceAddress := mkAllowSourceAddress (a : Address).
Inductive AllowSourceAddresses := mkAllowSourceAddresses (l : list Address).
Inductive AllowOnwardAddress := mkAllowOnwardAddress (a : Address).
Inductive AllowOnwardAddresses := mkAllowOnwardAddresses (l : list Address).
Inductive AllIncomingAccessControl := mkAllIncoming (l : list DynAccessControl).
Inductive AllOutgoingAccessControl := mkAllOutgoing (l : list DynAccessControl).
Inductive AnyIncomingAccessControl := mkAnyIncoming (l : list DynAccessControl).
Inductive AnyOutgoingAccessControl := mkAnyOutgoing (l : list DynAccessControl).

#[export] Instance AllowAll_incoming : IncomingAccessControl AllowAll := fun _ _ => allow.
#[export] Instance AllowAll_outgoing : OutgoingAccessControl AllowAll := fun _ _ => allow.
#[export] Instance DenyAll_incoming : IncomingAccessControl DenyAll := fun _ _ => deny.
#[export] Instance DenyAll_outgoing : OutgoingAccessControl DenyAll := fun _ _ => deny.

Definition AllowSourceAddress_is_authorized (self : AllowSourceAddress) (m : RelayMessage)
  : result Error bool :=
  let 'mkAllowSourceAddress a := self in
  if decide (a = rm_source m) then allow else deny.

Definition AllowSourceAddresses_is_authorized (self : AllowSourceAddresses) (m : RelayMessage)
  : result Error bool :=
  let 'mkAllowSourceAddresses l := self in
  if decide (rm_source m ∈ l) then allow else deny.

Definition AllowOnwardAddress_is_authorized (self : AllowOnwardAddress) (m : RelayMessage)
  : result Error bool :=
  let 'mkAllowOnwardAddress a := self in
  let onward := RelayMessage_onward_route m in
  let? next := map_err RouteErr (Route_next onward) in
  if decide (a <> next) then deny else allow.

Definition AllowOnwardAddresses_is_authorized (self : AllowOnwardAddresses) (m : RelayMessage)
  : result Error bool :=
  let 'mkAllowOnwardAddresses l := self in
  let onward := RelayMessage_onward_route m in
  let? next := map_err RouteErr (Route_next onward) in
  if decide (next ∉ l) then deny else allow.

(** The [for ac in &self.0] loops, with the [?] and the early returns. *)
Fixpoint all_is_authorized (acs : list DynAccessControl) (m : RelayMessage) : result Error bool :=
  match acs with
  | [] => allow
  | ac :: rest =>
      let? b := ac m in
      if negb b then deny else all_is_authorized rest m
  end.

Fixpoint any_is_authorized (acs : list DynAccessControl) (m : RelayMessage) : result Error bool :=
  match acs with
  | [] => deny
  | ac :: rest =>
      let? b := ac m in
      if b then allow else any_is_authorized rest m
  end.

#[export] Instance AllowSourceAddress_incoming : IncomingAccessControl AllowSourceAddress :=
  AllowSourceAddress_is_authorized.
#[export] Instance AllowSourceAddresses_incoming : IncomingAccessControl AllowSourceAddresses :=
  AllowSourceAddresses_is_authorized.
#[export] Instance AllowOnwardAddress_outgoing : OutgoingAccessControl AllowOnwardAddress :=
  AllowOnwardAddress_is_authorized.
#[export] Instance AllowOnwardAddresses_outgoing : OutgoingAccessControl AllowOnwardAddresses :=
  AllowOnwardAddresses_is_authorized.
#[export] Instance AllIncoming_incoming : IncomingAccessControl AllIncomingAccessControl :=
  fun '(mkAllIncoming l) m => all_is_authorized l m.
#[export] Instance AllOutgoing_outgoing : OutgoingAccessControl AllOutgoingAccessControl :=
  fun '(mkAllOutgoing l) m => all_is_authorized l m.
#[export] Instance AnyIncoming_incoming : IncomingAccessControl AnyIncomingAccessControl :=
  fun '(mkAnyIncoming l) m => any_is_authorized l m.
#[export] Instance AnyOutgoing_outgoing : OutgoingAccessControl AnyOutgoingAccessControl :=
  fun '(mkAnyOutgoing l) m => any_is_authorized l m.

(** ** Mailboxes: mailbox.rs *)

Record Mailbox := mkMailbox {
  mb_address : Address;
  mb_incoming : DynAccessControl;
  mb_outgoing : DynAccessControl
}.

Record Mailboxes := mkMailboxes {
  main_mailbox : Mailbox;
  additional_mailboxes : list Mailbox
}.

Definition Mailbox_deny_all (a : Address) : Mailbox :=
  mkMailbox a (dyn_incoming mkDenyAll) (dyn_outgoing mkDenyAll).

Definition Mailboxes_main (a : Address) (i o : DynAccessControl) : Mailboxes :=
  mkMailboxes (mkMailbox a i o) [].

Definition Mailboxes_additional_addresses (self : Mailboxes) : list Address :=
  map mb_address (additional_mailboxes self).

Definition Mailboxes_main_address (self : Mailboxes) : Address :=
  mb_address (main_mailbox self).

Definition Mailboxes_contains (self : Mailboxes) (a : Address) : bool :=
  if decide (mb_address (main_mailbox self) = a) then true
  else existsb (fun x => bool_decide (mb_address x = a)) (additional_mailboxes self).

Definition Mailboxes_find_mailbox (self : Mailboxes) (a : Address) : option Mailbox :=
  if decide (mb_address (main_mailbox self) = a) then Some (main_mailbox self)
  else List.find (fun x => bool_decide (mb_address x = a)) (additional_mailboxes self).

Definition Mailboxes_is_incoming_authorized (self : Mailboxes) (m : RelayMessage)
  : result Error bool :=
  match Mailboxes_find_mailbox self (rm_destination m) with
  | Some mailbox => mb_incoming mailbox m
  | None => deny
  end.

Definition Mailboxes_is_outgoing_authorized (self : Mailboxes) (m : RelayMessage)
  : result Error bool :=
  match Mailboxes_find_mailbox self (rm_source m) with
  | Some mailbox => mb_outgoing mailbox m
  | None => deny
  end.

Definition Mailboxes_addresses (self : Mailboxes) : list Address :=
  mb_address (main_mailbox self) :: Mailboxes_additional_addresses self.

(** * Properties *)

(** The first access control whose answer is not [skip] decides. *)
Definition decided_by (skip : bool) (acs : list DynAccessControl) (m : RelayMessage)
    (r : result Error bool) : Prop :=
  exists before ac after, acs = before ++ ac :: after /\
    Forall (fun a => a m = Ok skip) before /\ ac m = r /\ r <> Ok skip.

Lemma decided_by_cons skip ac acs m r :
  decided_by skip (ac :: acs) m r <->
  (ac m = r /\ r <> Ok skip) \/ (ac m = Ok skip /\ decided_by skip acs m r).
Proof.
  split.
  - intros ([|x before] & ac' & after & E & HF & Hac & Hr).
    + simplify_list_eq. by left.
    + simplify_list_eq. inversion_clear HF. right. split; [done|].
      exists before, ac', after. done.
  - intros [[Hac Hr] | [Hac (before & ac' & after & -> & HF & Hac' & Hr)]].
    + exists [], ac, acs. done.
    + exists (ac :: before), ac', after. split_and!; try done. constructor; done.
Qed.

Lemma decided_by_nil skip m r : ~ decided_by skip [] m r.
Proof. intros ([|] & ? & ? & ? & _); done. Qed.

Lemma all_decided acs m r :
  all_is_authorized acs m = r <->
  decided_by true acs m r \/ (Forall (fun a => a m = Ok true) acs /\ r = Ok true).
Proof.
  revert r. induction acs as [|ac acs IH]; intros r; simpl.
  - split; [intros <-; by right|]. intros [H | [_ ->]]; [|done].
    by apply decided_by_nil in H.
  - rewrite decided_by_cons, list.Forall_cons.
    destruct (ac m) as [[]|e|] eqn:E; simpl; [rewrite IH|..]; naive_solver.
Qed.

Lemma any_decided acs m r :
  any_is_authorized acs m = r <->
  decided_by false acs m r \/ (Forall (fun a => a m = Ok false) acs /\ r = Ok false).
Proof.
  revert r. induction acs as [|ac acs IH]; intros r; simpl.
  - split; [intros <-; by right|]. intros [H | [_ ->]]; [|done].
    by apply decided_by_nil in H.
  - rewrite decided_by_cons, list.Forall_cons.
    destruct (ac m) as [[]|e|] eqn:E; simpl; [|rewrite IH|..]; naive_solver.
Qed.

(** The [All] and [Any] combinators, for incoming and outgoing messages,
    return what the first member that does not say yes (no) returns, errors
    included, and allow (deny) when every member does. *)
Theorem combinators_decision (acs : list DynAccessControl) (m : RelayMessage)
    (r : result Error bool) :
  (incoming_is_authorized (mkAllIncoming acs) m = r <->
     decided_by true acs m r \/ (Forall (fun a => a m = Ok true) acs /\ r = Ok true)) /\
  (outgoing_is_authorized (mkAllOutgoing acs) m = r <->
     decided_by true acs m r \/ (Forall (fun a => a m = Ok true) acs /\ r = Ok true)) /\
  (incoming_is_authorized (mkAnyIncoming acs) m = r <->
     decided_by false acs m r \/ (Forall (fun a => a m = Ok false) acs /\ r = Ok false)) /\
  (outgoing_is_authorized (mkAnyOutgoing acs) m = r <->
     decided_by false acs m r \/ (Forall (fun a => a m = Ok false) acs /\ r = Ok false)).
Proof.
  split_and!; [apply all_decided | apply all_decided | apply any_decided | apply any_decided].
Qed.

Lemma find_mailbox_spec self a :
  match Mailboxes_find_mailbox self a with
  | Some mb => mb_address mb = a /\ mb ∈ main_mailbox self :: additional_mailboxes self
  | None => a ∉ Mailboxes_addresses self
  end.
Proof.
  unfold Mailboxes_find_mailbox, Mailboxes_addresses, Mailboxes_additional_addresses.
  case_decide as E; [set_solver|].
  destruct (List.find _ _) as [mb|] eqn:Ef.
  - apply List.find_some in Ef as [Hin Hb]. bool_hyps. split; [done|].
    apply list_elem_of_In in Hin. set_solver.
  - intros Hin. apply elem_of_cons in Hin as [Ha | Hin]; [congruence|].
    apply list_elem_of_In, in_map_iff in Hin as (mb & Hmb & Hin).
    pose proof (List.find_none _ _ Ef mb Hin) as Hn.
    simpl in Hn. rewrite bool_decide_eq_true_2 in Hn; done.
Qed.

Lemma Mailboxes_contains_spec self a :
  Mailboxes_contains self a = true <-> a ∈ Mailboxes_addresses self.
Proof.
  unfold Mailboxes_contains, Mailboxes_addresses, Mailboxes_additional_addresses.
  case_decide as E; [set_solver|]. rewrite existsb_exists, elem_of_cons.
  setoid_rewrite bool_decide_eq_true. rewrite list_elem_of_In, in_map_iff. naive_solver.
Qed.

Lemma Mailboxes_contains_false self a :
  Mailboxes_contains self a = false <-> a ∉ Mailboxes_addresses self.
Proof. rewrite <- not_true_iff_false, Mailboxes_contains_spec. done. Qed.

(** A message goes in only through the mailbox of its destination and out
    only through the mailbox of its source, whose access control allowed it; a
    message for (from) an address outside the mailboxes is denied, without an
    error. *)
Theorem mailboxes_guard (self : Mailboxes) (m : RelayMessage) :
  (forall r, Mailboxes_is_incoming_authorized self m = r ->
     (Mailboxes_contains self (rm_destination m) = false /\ r = Ok false) \/
     exists mb, mb ∈ main_mailbox self :: additional_mailboxes self /\
       mb_address mb = rm_destination m /\ mb_incoming mb m = r) /\
  (forall r, Mailboxes_is_outgoing_authorized self m = r ->
     (Mailboxes_contains self (rm_source m) = false /\ r = Ok false) \/
     exists mb, mb ∈ main_mailbox self :: additional_mailboxes self /\
       mb_address mb = rm_source m /\ mb_outgoing mb m = r).
Proof.
  unfold Mailboxes_is_incoming_authorized, Mailboxes_is_outgoing_authorized.
  pose proof (find_mailbox_spec self (rm_destination m)).
  pose proof (find_mailbox_spec self (rm_source m)).
  pose proof (Mailboxes_contains_false self (rm_destination m)).
  pose proof (Mailboxes_contains_false self (rm_source m)).
  repeat case_match; naive_solver.
Qed.

Definition sample_message : RelayMessage :=
  mkRelayMessage (Address_from_vec (str "alice")) (Address_from_vec (str "bob"))
    (mkLocalMessage (TransportMessage_v1 [Address_from_vec (str "bob")] [] []) []).

Definition sample_mailboxes : Mailboxes :=
  mkMailboxes (Mailbox_deny_all (Address_from_vec (str "main")))
    [mkMailbox (Address_from_vec (str "bob"))
       (dyn_incoming (mkAllowSourceAddress (Address_from_vec (str "alice"))))
       (dyn_outgoing mkDenyAll)].

Lemma mailboxes_guard_witness :
  Mailboxes_is_incoming_authorized sample_mailboxes sample_message = Ok true /\
  ((Mailboxes_contains sample_mailboxes (rm_destination sample_message) = false /\
      Ok (E := Error) true = Ok false) \/
   exists mb, mb ∈ main_mailbox sample_mailboxes :: additional_mailboxes sample_mailboxes /\
     mb_address mb = rm_destination sample_message /\ mb_incoming mb sample_message = Ok true).
Proof.
  split; [vm_compute; reflexivity|].
  apply mailboxes_guard. vm_compute. reflexivity.
Defined.
