(* ===== verification/FlowControl.v ===== *)
(** * Flow controls (ockam_core/src/flow_control)

    The registry of producers, spawners and consumers that decides which local
    workers a message coming from outside may reach. The four maps sit behind
    one lock each; an operation is modelled as one state transition (the
    interleavings of two operations inside each other are not modelled). *)

From Stdlib Require Import ZArith Lia.
From Stdlib Require Strings.Byte Strings.String.
From stdpp Require Import base gmap fin_maps fin_map_dom list numbers option countable.
From S2P Require Import Prelude RustStr Routing AccessControl.

Record FlowControlId := mkFlowControlId { fc_id : bytes }.

#[export] Instance FlowControlId_eq_dec : EqDecision FlowControlId.
Proof. solve_decision. Defined.
#[export] Instance FlowControlId_countable : Countable FlowControlId :=
  inj_countable' fc_id mkFlowControlId (fun '(mkFlowControlId _) => eq_refl).

Record ProducerInfo := mkProducerInfo {
  flow_control_id : FlowControlId;
  spawner_flow_control_id : option FlowControlId
}.

Notation ConsumersInfo := (gset Address).

Record FlowControls := mkFlowControls {
  consumers : gmap FlowControlId ConsumersInfo;
  producers : gmap Address ProducerInfo;
  producers_additional_addresses : gmap Address Address;
  spawners : gmap Address FlowControlId
}.

(** ** flow_controls_api.rs *)

Definition FlowControls_new : FlowControls := mkFlowControls ∅ ∅ ∅ ∅.

Definition add_consumer (address : Address) (id : FlowControlId) (self : FlowControls)
  : FlowControls :=
  let cs := if decide (consumers self !! id = None)
            then <[id := ∅]> (consumers self) else consumers self in
  let set := default ∅ (cs !! id) in
  mkFlowControls (<[id := {[address]} ∪ set]> cs) (producers self)
    (producers_additional_addresses self) (spawners self).

Definition add_producer (address : Address) (id : FlowControlId)
    (spawner_id : option FlowControlId) (additional : list Address) (self : FlowControls)
  : FlowControls :=
  let paa := <[address := address]> (producers_additional_addresses self) in
  mkFlowControls (consumers self)
    (<[address := mkProducerInfo id spawner_id]> (producers self))
    (foldl (fun m x => <[x := address]> m) paa additional)
    (spawners self).

Definition add_spawner (address : Address) (id : FlowControlId) (self : FlowControls)
  : FlowControls :=
  mkFlowControls (consumers self) (producers self) (producers_additional_addresses self)
    (<[address := id]> (spawners self)).

Definition get_consumers_info (self : FlowControls) (id : FlowControlId) : ConsumersInfo :=
  default ∅ (consumers self !! id).

Definition get_flow_control_with_spawner (self : FlowControls) (a : Address)
  : option FlowControlId := spawners self !! a.

Definition get_flow_control_with_producer (self : FlowControls) (a : Address)
  : option ProducerInfo := producers self !! a.

Definition find_flow_control_with_producer_address (self : FlowControls) (a : Address)
  : option ProducerInfo :=
  match producers_additional_addresses self !! a with
  | Some producer_address => producers self !! producer_address
  | None => None
  end.

(** ** flow_controls_cleanup.rs *)

(** [map.iter().any(|(_, v)| p(v))] *)
Definition any_value {K V} `{Countable K} (p : V -> bool) (m : gmap K V) : bool :=
  existsb (fun kv => p kv.2) (map_to_list m).

Definition spawned_by (id : FlowControlId) (info : ProducerInfo) : bool :=
  match spawner_flow_control_id info with
  | None => false
  | Some i => bool_decide (i = id)
  end.

Definition set_consumers (cs : gmap FlowControlId ConsumersInfo) (self : FlowControls)
  : FlowControls :=
  mkFlowControls cs (producers self) (producers_additional_addresses self) (spawners self).

Definition cleanup_spawner (address : Address) (self : FlowControls) : FlowControls :=
  match spawners self !! address with
  | None => self
  | Some id =>
      let self := mkFlowControls (consumers self) (producers self)
                    (producers_additional_addresses self) (delete address (spawners self)) in
      if any_value (fun i => bool_decide (i = id)) (spawners self) then self
      else if any_value (spawned_by id) (producers self) then self
      else set_consumers (delete id (consumers self)) self
  end.

Definition cleanup_producers_spawner (id : FlowControlId) (self : FlowControls) : FlowControls :=
  if any_value (fun i => bool_decide (i = id)) (spawners self) then self
  else if any_value (spawned_by id) (producers self) then self
  else set_consumers (delete id (consumers self)) self.

Definition cleanup_producer (address : Address) (self : FlowControls) : FlowControls :=
  match producers self !! address with
  | None => self
  | Some info =>
      let self := mkFlowControls (consumers self) (delete address (producers self))
                    (filter (fun kv => kv.2 <> address) (producers_additional_addresses self))
                    (spawners self) in
      let self := match spawner_flow_control_id info with
                  | Some id => cleanup_producers_spawner id self
                  | None => self
                  end in
      let id := flow_control_id info in
      if any_value (fun i => bool_decide (flow_control_id i = id)) (producers self) then self
      else set_consumers (delete id (consumers self)) self
  end.

(** One pass of [iter_mut().for_each(remove)] and [retain]; the code runs it twice. *)
Definition remove_consumer (address : Address) (cs : gmap FlowControlId ConsumersInfo)
  : gmap FlowControlId ConsumersInfo :=
  filter (fun kv => kv.2 <> ∅) ((fun s => s ∖ {[address]}) <$> cs).

Definition cleanup_consumer (address : Address) (self : FlowControls) : FlowControls :=
  let self := set_consumers (remove_consumer address (consumers self)) self in
  set_consumers (remove_consumer address (consumers self)) self.

Definition cleanup_address (address : Address) (self : FlowControls) : FlowControls :=
  cleanup_consumer address (cleanup_producer address (cleanup_spawner address self)).

(** flow_controls_debug.rs; the order of the identifiers is not modelled *)
Definition get_flow_controls_with_consumer (self : FlowControls) (a : Address)
  : gset FlowControlId := dom (filter (fun kv => a ∈ kv.2) (consumers self)).

(** ** access_control.rs *)

Record FlowControlOutgoingAccessControl := mkFlowControlAC {
  (** the shared registry, as it is when a message is checked *)
  fac_flow_controls : FlowControls;
  fac_flow_control_id : FlowControlId;
  fac_spawner_flow_control_id : option FlowControlId
}.

Definition is_consumer (self : FlowControlOutgoingAccessControl) (next : Address)
    (id : FlowControlId) : bool :=
  bool_decide (next ∈ get_consumers_info (fac_flow_controls self) id).

Definition FlowControlOutgoing_is_authorized (self : FlowControlOutgoingAccessControl)
    (m : RelayMessage) : result Error bool :=
  let? next := map_err RouteErr (Route_next (RelayMessage_onward_route m)) in
  if is_consumer self next (fac_flow_control_id self) then allow
  else match fac_spawner_flow_control_id self with
       | Some id => if is_consumer self next id then allow else deny
       | None => deny
       end.

#[export] Instance FlowControl_outgoing : OutgoingAccessControl FlowControlOutgoingAccessControl :=
  FlowControlOutgoing_is_authorized.

(** * Properties *)

Lemma any_value_true {K V} `{Countable K} (p : V -> bool) (m : gmap K V) :
  any_value p m = true <-> exists k v, m !! k = Some v /\ p v = true.
Proof.
  unfold any_value. rewrite existsb_exists. split.
  - intros ([k v] & Hin & Hp). apply list_elem_of_In, elem_of_map_to_list in Hin. eauto.
  - intros (k & v & Hk & Hp). exists (k, v). split; [|done].
    apply list_elem_of_In, elem_of_map_to_list. done.
Qed.

Lemma any_value_intro {K V} `{Countable K} (p : V -> bool) (m : gmap K V) k v :
  m !! k = Some v -> p v = true -> any_value p m = true.
Proof. intros. apply any_value_true. eauto. Qed.

(** [mem fc id x]: [x] is a consumer of the flow control [id]. *)
Definition mem (fc : FlowControls) (id : FlowControlId) (x : Address) : Prop :=
  x ∈ get_consumers_info fc id.

Lemma mem_delete cs fc id id' x :
  mem (set_consumers (delete id cs) fc) id' x <->
  id <> id' /\ mem (set_consumers cs fc) id' x.
Proof.
  unfold mem, get_consumers_info; simpl.
  destruct (decide (id = id')) as [<- | Hne].
  - rewrite lookup_delete_eq. set_solver.
  - rewrite lookup_delete_ne by done. naive_solver.
Qed.

Lemma get_remove_consumer a cs id :
  default ∅ (remove_consumer a cs !! id) = default ∅ (cs !! id) ∖ {[a]}.
Proof.
  unfold remove_consumer. rewrite map_lookup_filter, lookup_fmap.
  destruct (cs !! id) as [s|]; simpl; [|set_solver].
  case_guard as Hg; simpl; [done|]. simpl in Hg. congruence.
Qed.

Lemma mem_cleanup_consumer a fc id x :
  mem (cleanup_consumer a fc) id x <-> mem fc id x /\ x <> a.
Proof.
  unfold mem, get_consumers_info, cleanup_consumer; simpl.
  rewrite !get_remove_consumer. set_solver.
Qed.

Lemma mem_cleanup_spawner a fc id x :
  mem (cleanup_spawner a fc) id x -> mem fc id x.
Proof.
  unfold cleanup_spawner. destruct (spawners fc !! a); [|done].
  repeat split_if; try done. rewrite mem_delete. intros [_ H]. done.
Qed.

Lemma mem_cleanup_producers_spawner i fc id x :
  mem (cleanup_producers_spawner i fc) id x -> mem fc id x.
Proof.
  unfold cleanup_producers_spawner. repeat split_if; try done.
  rewrite mem_delete. intros [_ H]. done.
Qed.

Lemma mem_cleanup_producer a fc id x :
  mem (cleanup_producer a fc) id x -> mem fc id x.
Proof.
  unfold cleanup_producer. destruct (producers fc !! a) as [info|]; [|done].
  destruct (spawner_flow_control_id info);
    split_if; rewrite ?mem_delete;
    try (intros [_ H]; revert H); intros H; try done;
    eapply mem_cleanup_producers_spawner in H; done.
Qed.

Lemma mem_cleanup_address a fc id x :
  mem (cleanup_address a fc) id x -> mem fc id x /\ x <> a.
Proof.
  unfold cleanup_address. rewrite mem_cleanup_consumer. intros [H Hx].
  split; [|done]. eapply mem_cleanup_spawner, mem_cleanup_producer. done.
Qed.

Lemma mem_add_consumer a i fc id x :
  mem (add_consumer a i fc) id x <-> mem fc id x \/ (id = i /\ x = a).
Proof.
  unfold mem, get_consumers_info, add_consumer; simpl.
  destruct (decide (id = i)) as [-> | Hne].
  - rewrite lookup_insert_eq. simpl. case_decide as E.
    + rewrite lookup_insert_eq, E. set_solver.
    + set_solver.
  - rewrite lookup_insert_ne by done. case_decide as E.
    + rewrite lookup_insert_ne by done. naive_solver.
    + naive_solver.
Qed.

(** What cleaning an address leaves of the other three maps. *)
Lemma cleanup_address_spawners a fc : spawners (cleanup_address a fc) = delete a (spawners fc).
Proof.
  unfold cleanup_address, cleanup_consumer; simpl.
  transitivity (spawners (cleanup_spawner a fc)).
  - unfold cleanup_producer, cleanup_producers_spawner.
    repeat case_match; done.
  - unfold cleanup_spawner. destruct (spawners fc !! a) eqn:E.
    + repeat case_match; done.
    + rewrite delete_id; done.
Qed.

Lemma cleanup_spawner_rest a fc :
  producers (cleanup_spawner a fc) = producers fc /\
  producers_additional_addresses (cleanup_spawner a fc) = producers_additional_addresses fc.
Proof. unfold cleanup_spawner. repeat case_match; done. Qed.

Lemma cleanup_address_producers a fc :
  producers (cleanup_address a fc) = delete a (producers fc).
Proof.
  unfold cleanup_address, cleanup_consumer; simpl.
  rewrite <- (proj1 (cleanup_spawner_rest a fc)).
  unfold cleanup_producer, cleanup_producers_spawner.
  destruct (producers (cleanup_spawner a fc) !! a) eqn:E.
  - repeat case_match; done.
  - rewrite delete_id; done.
Qed.

Lemma cleanup_address_aliases a fc :
  producers_additional_addresses (cleanup_address a fc) =
  if decide (producers fc !! a = None) then producers_additional_addresses fc
  else filter (fun kv => kv.2 <> a) (producers_additional_addresses fc).
Proof.
  unfold cleanup_address, cleanup_consumer; simpl.
  destruct (cleanup_spawner_rest a fc) as [E1 E2].
  unfold cleanup_producer, cleanup_producers_spawner. rewrite E1, E2.
  destruct (producers fc !! a) eqn:E; case_decide; try done.
  repeat case_match; done.
Qed.

(** ** Histories of the registry *)

Inductive fc_op :=
| AddConsumer (a : Address) (id : FlowControlId)
| AddProducer (a : Address) (id : FlowControlId) (spawner : option FlowControlId)
    (additional : list Address)
| AddSpawner (a : Address) (id : FlowControlId)
| CleanupAddress (a : Address).

Definition fc_apply (fc : FlowControls) (op : fc_op) : FlowControls :=
  match op with
  | AddConsumer a id => add_consumer a id fc
  | AddProducer a id sp l => add_producer a id sp l fc
  | AddSpawner a id => add_spawner a id fc
  | CleanupAddress a => cleanup_address a fc
  end.

Definition fc_run (ops : list fc_op) (fc : FlowControls) : FlowControls := foldl fc_apply fc ops.

(** The invariant: no empty consumer set is stored, and every alias names a
    registered producer. *)
Record fc_wf (fc : FlowControls) : Prop := {
  wf_consumers : forall id s, consumers fc !! id = Some s -> s <> ∅;
  wf_aliases : forall x p, producers_additional_addresses fc !! x = Some p ->
                 is_Some (producers fc !! p)
}.

(** Every consumer set that [f] leaves is a non-empty one of before. *)
Definition shrinks (fc fc' : FlowControls) : Prop :=
  consumers fc' ⊆ consumers fc.

Lemma shrinks_delete id fc : shrinks fc (set_consumers (delete id (consumers fc)) fc).
Proof. apply delete_subseteq. Qed.

Lemma shrinks_cleanup_spawner a fc : shrinks fc (cleanup_spawner a fc).
Proof.
  unfold cleanup_spawner, shrinks. repeat case_match; simpl; try done. apply delete_subseteq.
Qed.

Lemma shrinks_cleanup_producer a fc : shrinks fc (cleanup_producer a fc).
Proof.
  unfold cleanup_producer, cleanup_producers_spawner, shrinks.
  repeat case_match; simpl; try done;
    repeat (etrans; [apply delete_subseteq|]); done.
Qed.

Lemma remove_consumer_nonempty a cs id s : remove_consumer a cs !! id = Some s -> s <> ∅.
Proof.
  unfold remove_consumer. rewrite map_lookup_filter_Some. naive_solver.
Qed.

Lemma wf_cleanup a fc : fc_wf fc -> fc_wf (cleanup_address a fc).
Proof.
  intros [Hc Ha]. split.
  - intros id s. unfold cleanup_address, cleanup_consumer. simpl.
    apply remove_consumer_nonempty.
  - intros x p. rewrite cleanup_address_aliases, cleanup_address_producers.
    case_decide as E.
    + intros Hx. rewrite delete_id by done. eauto.
    + rewrite map_lookup_filter_Some. intros [Hx Hp].
      rewrite lookup_delete_ne by (simpl in Hp; congruence). eauto.
Qed.

Lemma foldl_insert_lookup (l : list Address) (m : gmap Address Address) v x p :
  foldl (fun m x => <[x := v]> m) m l !! x = Some p -> p = v \/ m !! x = Some p.
Proof.
  revert m. induction l as [|y l IH]; intros m; simpl; [by right|].
  intros H. apply IH in H as [H|H]; [by left|].
  destruct (decide (x = y)) as [-> | Hne].
  - rewrite lookup_insert_eq in H. left. congruence.
  - rewrite lookup_insert_ne in H by done. by right.
Qed.

Lemma wf_apply op fc : fc_wf fc -> fc_wf (fc_apply fc op).
Proof.
  intros [Hc Ha]. destruct op as [a id|a id sp l|a id|a]; simpl.
  - split; simpl; [|done]. intros i s.
    destruct (decide (i = id)) as [-> | Hne].
    + rewrite lookup_insert_eq. set_solver.
    + rewrite lookup_insert_ne by done. case_decide; [|eauto].
      rewrite lookup_insert_ne by done. eauto.
  - split; simpl; [done|]. intros x p Hx.
    destruct (decide (p = a)) as [-> | Hne]; [rewrite lookup_insert_eq; eauto|].
    rewrite lookup_insert_ne by done. apply foldl_insert_lookup in Hx as [->|Hx]; [done|].
    destruct (decide (x = a)) as [-> | Hne'].
    + rewrite lookup_insert_eq in Hx. congruence.
    + rewrite lookup_insert_ne in Hx by done. eauto.
  - split; simpl; done.
  - apply wf_cleanup. done.
Qed.

Lemma wf_new : fc_wf FlowControls_new.
Proof. split; simpl; intros *; rewrite lookup_empty; done. Qed.

Lemma wf_run ops fc : fc_wf fc -> fc_wf (fc_run ops fc).
Proof.
  revert fc. induction ops as [|op ops IH]; intros fc H; simpl; [done|].
  apply IH, wf_apply. done.
Qed.

(** In every state the registry can reach, no flow control has an empty set
    of consumers, and looking a producer up by any of its addresses succeeds
    exactly when the address is a known alias. *)
Theorem flow_controls_invariant (ops : list fc_op) :
  let fc := fc_run ops FlowControls_new in
  (forall id, consumers fc !! id <> Some ∅) /\
  (forall a, find_flow_control_with_producer_address fc a = None <->
             producers_additional_addresses fc !! a = None).
Proof.
  destruct (wf_run ops FlowControls_new wf_new) as [Hc Ha]. split.
  - intros id E. by apply (Hc id ∅).
  - intros a. unfold find_flow_control_with_producer_address.
    destruct (producers_additional_addresses _ !! a) as [p|] eqn:E; [|done].
    destruct (Ha a p E) as [info ->]. done.
Qed.

Lemma mem_run ops id x :
  mem (fc_run ops FlowControls_new) id x ->
  exists before after, ops = before ++ AddConsumer x id :: after /\
    CleanupAddress x ∉ after.
Proof.
  induction ops as [|op ops IH] using rev_ind.
  - unfold mem, get_consumers_info. simpl. rewrite lookup_empty. set_solver.
  - unfold fc_run. rewrite foldl_app. simpl. intros H.
    assert (mem (fc_run ops FlowControls_new) id x /\ op <> CleanupAddress x
            \/ op = AddConsumer x id) as [[Hm Hop] | ->].
    { destruct op as [a i|a i sp l|a i|a]; simpl in H; try by left.
      - apply mem_add_consumer in H as [H | [-> ->]]; [left | right]; done.
      - apply mem_cleanup_address in H as [H Hx]. left. split; [done | congruence]. }
    + destruct (IH Hm) as (before & after & -> & Hn).
      exists before, (after ++ [op]). rewrite <- app_assoc. split; [done | set_solver].
    + exists ops, []. split; [done | set_solver].
Qed.

(** C8: a message is let out by a flow-control access control only if its next
    hop was registered as a consumer of that flow control (or of its spawner's)
    and was not cleaned up since. *)
Theorem flow_control_authorized_history (ops : list fc_op) (id : FlowControlId)
    (spawner : option FlowControlId) (m : RelayMessage) :
  FlowControlOutgoing_is_authorized
    (mkFlowControlAC (fc_run ops FlowControls_new) id spawner) m = Ok true ->
  exists next rest i before after,
    RelayMessage_onward_route m = next :: rest /\ (i = id \/ spawner = Some i) /\
    ops = before ++ AddConsumer next i :: after /\ CleanupAddress next ∉ after.
Proof.
  unfold FlowControlOutgoing_is_authorized, Route_next. intros H.
  destruct (RelayMessage_onward_route m) as [|next rest]; [done|]. simpl in H.
  assert (exists i, (i = id \/ spawner = Some i) /\ mem (fc_run ops FlowControls_new) i next)
    as (i & Hi & Hm).
  { unfold is_consumer in H. simpl in H. repeat case_match; bool_hyps; try done; eauto. }
  destruct (mem_run ops i next Hm) as (before & after & E & Hn).
  exists next, rest, i, before, after. done.
Qed.

Definition addr (s : String.string) : Address := Address_from_vec (str s).
Arguments addr s%_string_scope.

Definition sample_id : FlowControlId := mkFlowControlId (str "f1").

Definition sample_ops : list fc_op :=
  [AddProducer (addr "decryptor") sample_id None [addr "encryptor"];
   AddConsumer (addr "bob") sample_id;
   AddConsumer (addr "carol") sample_id;
   CleanupAddress (addr "carol")].

Lemma flow_control_authorized_history_witness :
  FlowControlOutgoing_is_authorized
    (mkFlowControlAC (fc_run sample_ops FlowControls_new) sample_id None) sample_message
    = Ok true /\
  exists next rest i before after,
    RelayMessage_onward_route sample_message = next :: rest /\
    (i = sample_id \/ None = Some i) /\
    sample_ops = before ++ AddConsumer next i :: after /\ CleanupAddress next ∉ after.
Proof.
  split; [vm_compute; reflexivity|].
  apply flow_control_authorized_history. vm_compute. reflexivity.
Defined.

(** ** Cleaning up *)

(** Once an address is cleaned up, whatever the registry held, it is no
    spawner, no producer, no consumer of any flow control, nothing it produced
    under resolves to it, and no flow-control access control lets a message out
    to it. *)
Theorem cleanup_forgets_address (ops : list fc_op) (a : Address) :
  let fc := cleanup_address a (fc_run ops FlowControls_new) in
  get_flow_control_with_spawner fc a = None /\
  get_flow_control_with_producer fc a = None /\
  get_flow_controls_with_consumer fc a = ∅ /\
  (forall x, producers_additional_addresses fc !! x <> Some a) /\
  (forall id spawner m, head (RelayMessage_onward_route m) = Some a ->
     FlowControlOutgoing_is_authorized (mkFlowControlAC fc id spawner) m = Ok false).
Proof.
  cbv zeta. set (fc := fc_run ops FlowControls_new).
  assert (Hm : forall id, a ∉ get_consumers_info (cleanup_address a fc) id).
  { intros id H. apply mem_cleanup_address in H as [_ H]. done. }
  split_and!.
  - unfold get_flow_control_with_spawner. rewrite cleanup_address_spawners.
    apply lookup_delete_eq.
  - unfold get_flow_control_with_producer. rewrite cleanup_address_producers.
    apply lookup_delete_eq.
  - unfold get_flow_controls_with_consumer. apply dom_empty_iff_L, map_empty.
    intros id. apply map_lookup_filter_None. right. intros s Hs Hin. apply (Hm id). unfold get_consumers_info. rewrite Hs. done.
  - intros x. rewrite cleanup_address_aliases. case_decide as E.
    + intros Hx. apply (wf_aliases _ (wf_run ops _ wf_new)) in Hx. fold fc in Hx.
      rewrite E in Hx. by destruct Hx.
    + rewrite map_lookup_filter_Some. naive_solver.
  - intros id spawner m Hh. unfold FlowControlOutgoing_is_authorized, Route_next.
    rewrite Hh. cbn [ok_or map_err rbind]. unfold is_consumer.
    cbn [fac_flow_controls fac_flow_control_id fac_spawner_flow_control_id].
    rewrite bool_decide_eq_false_2 by apply Hm.
    destruct spawner; [|done]. rewrite bool_decide_eq_false_2 by apply Hm. done.
Qed.

Lemma cleanup_forgets_address_witness :
  FlowControlOutgoing_is_authorized
    (mkFlowControlAC (cleanup_address (addr "bob") (fc_run sample_ops FlowControls_new))
       sample_id None) sample_message = Ok false.
Proof. apply cleanup_forgets_address. vm_compute. reflexivity. Defined.

(** The addresses whose cleanup frees everything. *)
Definition mentioned (fc : FlowControls) (a : Address) : Prop :=
  a ∈ dom (spawners fc) \/ a ∈ dom (producers fc) \/ exists id, mem fc id a.

Lemma cleanup_mentioned a fc x : mentioned (cleanup_address a fc) x -> mentioned fc x /\ x <> a.
Proof.
  unfold mentioned. rewrite cleanup_address_spawners, cleanup_address_producers, !dom_delete_L.
  intros [H | [H | [id H]]]; [set_solver..|]. apply mem_cleanup_address in H. naive_solver.
Qed.

Lemma cleanup_all_mentioned l fc x :
  mentioned (foldl (fun fc a => cleanup_address a fc) fc l) x -> mentioned fc x /\ x ∉ l.
Proof.
  revert fc. induction l as [|a l IH]; intros fc; simpl; [set_solver|].
  intros H. apply IH in H as [H Hl]. apply cleanup_mentioned in H as [H Hx]. set_solver.
Qed.

Lemma wf_cleanup_all l fc : fc_wf fc -> fc_wf (foldl (fun fc a => cleanup_address a fc) fc l).
Proof.
  revert fc. induction l as [|a l IH]; intros fc H; simpl; [done|]. apply IH, wf_cleanup, H.
Qed.

Lemma nothing_mentioned fc : fc_wf fc -> (forall x, ~ mentioned fc x) -> fc = FlowControls_new.
Proof.
  intros [Hc Ha] Hn. unfold mentioned in Hn.
  assert (spawners fc = ∅) as E1 by (apply dom_empty_iff_L; set_solver).
  assert (producers fc = ∅) as E2 by (apply dom_empty_iff_L; set_solver).
  assert (producers_additional_addresses fc = ∅) as E3.
  { apply map_empty. intros x. destruct (_ !! x) as [p|] eqn:E; [|done].
    apply Ha in E. rewrite E2, lookup_empty in E. by destruct E. }
  assert (consumers fc = ∅) as E4.
  { apply map_empty. intros id. destruct (consumers fc !! id) as [s|] eqn:E; [|done].
    exfalso. destruct (set_choose_L s (Hc id s E)) as [x Hx].
    apply (Hn x). right; right. exists id. unfold mem, get_consumers_info. rewrite E. done. }
  destruct fc; simpl in *; subst; done.
Qed.

Definition mentioned_set (fc : FlowControls) : gset Address :=
  dom (spawners fc) ∪ dom (producers fc) ∪ ⋃ (map_to_list (consumers fc)).*2.

Lemma elem_of_mentioned_set fc x : mentioned fc x -> x ∈ mentioned_set fc.
Proof.
  unfold mentioned, mentioned_set. intros [H | [H | [id H]]]; [set_solver..|].
  apply elem_of_union_r, elem_of_union_list.
  unfold mem, get_consumers_info in H. destruct (consumers fc !! id) as [s|] eqn:E; [|set_solver].
  exists s. split; [|done]. apply list_elem_of_fmap. exists (id, s). split; [done|].
  apply elem_of_map_to_list. done.
Qed.

(** Whatever was registered, cleaning up every registered address, in any
    order, leaves the registry empty: nothing leaks. *)
Theorem cleanup_all_empties (ops : list fc_op) (l : list Address) :
  mentioned_set (fc_run ops FlowControls_new) ⊆ list_to_set l ->
  foldl (fun fc a => cleanup_address a fc) (fc_run ops FlowControls_new) l = FlowControls_new.
Proof.
  intros Hl. apply nothing_mentioned.
  - apply wf_cleanup_all, wf_run, wf_new.
  - intros x Hx. apply cleanup_all_mentioned in Hx as [Hm Hn].
    apply elem_of_mentioned_set in Hm. set_solver.
Qed.

Lemma cleanup_all_empties_witness :
  foldl (fun fc a => cleanup_address a fc) (fc_run sample_ops FlowControls_new)
    [addr "bob"; addr "decryptor"] = FlowControls_new.
Proof.
  apply cleanup_all_empties. apply (bool_decide_unpack _). vm_compute. exact I.
Defined.

(** Identifiers of flow controls and identifiers of spawners are drawn apart. *)
Definition roles_disjoint (fc : FlowControls) : Prop :=
  forall q i, producers fc !! q = Some i ->
    (forall s, spawners fc !! s <> Some (flow_control_id i)) /\
    (forall q' i', producers fc !! q' = Some i' ->
       spawner_flow_control_id i' <> Some (flow_control_id i)).

Lemma cleanup_spawner_keeps a fc id x :
  (forall id', spawners fc !! a = Some id' -> id' = id ->
     any_value (spawned_by id') (producers fc) = true) ->
  mem fc id x -> mem (cleanup_spawner a fc) id x.
Proof.
  unfold cleanup_spawner. intros Hid H.
  destruct (spawners fc !! a) as [id'|] eqn:E; [|done].
  repeat split_if; try done. apply mem_delete. split; [|done].
  intros ->. specialize (Hid id eq_refl eq_refl). simpl in *. congruence.
Qed.

Lemma cleanup_producers_spawner_keeps i fc id x :
  (i = id -> any_value (spawned_by id) (producers fc) = true) ->
  mem fc id x -> mem (cleanup_producers_spawner i fc) id x.
Proof.
  unfold cleanup_producers_spawner. intros Hid H.
  repeat split_if; try done. apply mem_delete. split; [|done].
  intros ->. rewrite Hid in *; done.
Qed.

Lemma cleanup_producer_keeps a fc id x :
  (forall info, producers fc !! a = Some info -> spawner_flow_control_id info = Some id ->
     any_value (spawned_by id) (delete a (producers fc)) = true) ->
  (forall info, producers fc !! a = Some info -> flow_control_id info = id ->
     any_value (fun i => bool_decide (flow_control_id i = id)) (delete a (producers fc)) = true) ->
  mem fc id x -> mem (cleanup_producer a fc) id x.
Proof.
  unfold cleanup_producer. intros Hs Hf H.
  destruct (producers fc !! a) as [info|] eqn:E; [|done].
  specialize (Hs info eq_refl). specialize (Hf info eq_refl).
  set (fc1 := mkFlowControls _ _ _ _).
  set (fc2 := match spawner_flow_control_id info with Some _ => _ | None => _ end).
  assert (producers fc2 = delete a (producers fc)) as Ep.
  { subst fc2. unfold cleanup_producers_spawner. repeat case_match; done. }
  assert (mem fc2 id x) as H2.
  { subst fc2. destruct (spawner_flow_control_id info) as [i|]; [|done].
    apply cleanup_producers_spawner_keeps; [|done]. intros ->. apply Hs. done. }
  rewrite Ep. split_if; [done|]. apply mem_delete. split; [|done].
  intros Hi. rewrite <- Hi in Hf. rewrite Hf in *; done.
Qed.

(** Cleaning up one address takes no consumer away from a producer that
    stays: for its own flow control and for its spawner's, exactly the cleaned
    address disappears. *)
Theorem cleanup_keeps_other_producers (fc : FlowControls) (a p : Address) (info : ProducerInfo)
    (id : FlowControlId) (x : Address) :
  roles_disjoint fc -> producers fc !! p = Some info -> p <> a ->
  (id = flow_control_id info \/ spawner_flow_control_id info = Some id) ->
  x ∈ get_consumers_info (cleanup_address a fc) id <->
  x ∈ get_consumers_info fc id /\ x <> a.
Proof.
  intros Hd Hp Hpa Hid. split; [apply mem_cleanup_address|]. intros [Hx Hxa].
  destruct (cleanup_spawner_rest a fc) as [Ep _].
  assert (Hp' : delete a (producers fc) !! p = Some info) by (rewrite lookup_delete_ne; done).
  apply mem_cleanup_consumer. split; [|done].
  apply cleanup_producer_keeps; rewrite ?Ep.
  - intros i Hi Hsi. destruct Hid as [-> | Hid].
    + exfalso. by apply (proj2 (Hd p info Hp) a i Hi).
    + apply (any_value_intro _ _ p info); [done|]. unfold spawned_by. rewrite Hid.
      apply bool_decide_eq_true. done.
  - intros i Hi Hfi. destruct Hid as [-> | Hid].
    + apply (any_value_intro _ _ p info); [done|]. apply bool_decide_eq_true. done.
    + exfalso. apply (proj2 (Hd a i Hi) p info Hp). congruence.
  - apply cleanup_spawner_keeps; [|done]. intros id' Hs ->. destruct Hid as [-> | Hid].
    + exfalso. by apply (proj1 (Hd p info Hp) a).
    + apply (any_value_intro _ _ p info); [done|]. unfold spawned_by. rewrite Hid.
      apply bool_decide_eq_true. done.
Qed.

Lemma cleanup_keeps_other_producers_witness :
  let fc := fc_run (take 3 sample_ops) FlowControls_new in
  addr "bob" ∈ get_consumers_info (cleanup_address (addr "carol") fc) sample_id <->
  addr "bob" ∈ get_consumers_info fc sample_id /\ addr "bob" <> addr "carol".
Proof.
  apply (cleanup_keeps_other_producers _ (addr "carol") (addr "decryptor")
           (mkProducerInfo sample_id None)); [|vm_compute; reflexivity|discriminate|by left].
  intros q i Hq.
  change (<[addr "decryptor" := mkProducerInfo sample_id None]> (∅ : gmap Address ProducerInfo) !! q = Some i) in Hq.
  apply lookup_insert_Some in Hq as [[<- <-] | [_ Hq]]; [|by rewrite lookup_empty in Hq].
  split.
  - intros s. change ((∅ : gmap Address FlowControlId) !! s <> Some sample_id). rewrite lookup_empty. done.
  - intros q' i' Hq'.
    change (<[addr "decryptor" := mkProducerInfo sample_id None]> (∅ : gmap Address ProducerInfo) !! q' = Some i') in Hq'.
    apply lookup_insert_Some in Hq' as [[<- <-] | [_ Hq']]; [done|].
    by rewrite lookup_empty in Hq'.
Defined.
