(* ===== verification/NonceTracker.v ===== *)
(** * Replay protection (ockam_identity/src/secure_channel/nonce_tracker.rs)

    The receiving side of a secure channel keeps the largest nonce it accepted
    and a bitmap of the last 64 positions behind it. The abstract specification
    is the set of accepted nonces itself: a nonce is accepted when it was not
    accepted before and lies within [KEY_RENEWAL_INTERVAL] of the largest one. *)

From Stdlib Require Import ZArith Lia.
From stdpp Require Import base list numbers option sets.
From S2P Require Import Prelude.

Local Open Scope Z_scope.

Definition KEY_RENEWAL_INTERVAL : Z := 32.

(** The errors of the secure channel that concern nonces. *)
Inductive NonceError :=
| InvalidNonce
| NonceOverflow.

Record NonceTracker := mkNonceTracker {
  nonce_bitmap : Z;
  current_nonce : Z
}.

(** [u64::overflowing_shl(s).0], for a shift given as [u64 as u32] *)
Definition overflowing_shl (x s : Z) : Z :=
  Z.shiftl x (Z.land (s mod 2 ^ 32) 63) mod 2 ^ 64.

Definition NonceTracker_new : NonceTracker := mkNonceTracker 0 0.

Definition NonceTracker_mark (self : NonceTracker) (nonce : Z) : result NonceError NonceTracker :=
  if current_nonce self <? nonce then
    let relative_shift := nonce - current_nonce self in
    if KEY_RENEWAL_INTERVAL <? relative_shift then Err InvalidNonce
    else Ok (mkNonceTracker
               (Z.lor (overflowing_shl (nonce_bitmap self) relative_shift) 1) nonce)
  else
    let relative := current_nonce self - nonce in
    if KEY_RENEWAL_INTERVAL <? relative then Err InvalidNonce
    else
      let bit := overflowing_shl 1 relative in
      if negb (Z.land (nonce_bitmap self) bit =? 0) then Err InvalidNonce
      else Ok (mkNonceTracker (Z.lor (nonce_bitmap self) bit) (current_nonce self)).

(** A receiver that marks a sequence of nonces, keeping its tracker when a nonce
    is refused; the accepted nonces are collected, the last one first. *)
Fixpoint mark_all (t : NonceTracker) (accepted ns : list Z) : NonceTracker * list Z :=
  match ns with
  | [] => (t, accepted)
  | n :: ns' =>
      match NonceTracker_mark t n with
      | Ok t' => mark_all t' (n :: accepted) ns'
      | _ => mark_all t accepted ns'
      end
  end.

(** ** The specification: the accepted nonces *)

Definition highest (accepted : list Z) : Z := foldr Z.max 0 accepted.

Definition acceptable (accepted : list Z) (n : Z) : bool :=
  bool_decide (n ∉ accepted) && (Z.abs (n - highest accepted) <=? KEY_RENEWAL_INTERVAL).

Fixpoint accept_all (accepted ns : list Z) : list Z :=
  match ns with
  | [] => accepted
  | n :: ns' => if acceptable accepted n then accept_all (n :: accepted) ns'
                else accept_all accepted ns'
  end.

(** * Properties *)

Lemma highest_ge accepted n : n ∈ accepted -> n <= highest accepted.
Proof.
  induction accepted as [|m l IH]; [set_solver|]. intros [-> | H]%elem_of_cons; simpl.
  - lia.
  - apply IH in H. fold (highest l). lia.
Qed.

Lemma highest_nonneg accepted : 0 <= highest accepted.
Proof. induction accepted; simpl; [done|]. fold (highest accepted). lia. Qed.

(** The tracker represents a list of accepted nonces: bit [i] stands for the
    nonce [i] places below the current one. *)
Record represents (t : NonceTracker) (accepted : list Z) : Prop := {
  rep_current : current_nonce t = highest accepted;
  rep_width : 0 <= nonce_bitmap t < 2 ^ 64;
  rep_bits : forall i, 0 <= i < 64 ->
    Z.testbit (nonce_bitmap t) i = true <-> current_nonce t - i ∈ accepted;
  rep_nonneg : Forall (fun n => 0 <= n) accepted
}.

Lemma overflowing_shl_small x s :
  0 <= s <= 32 -> overflowing_shl x s = Z.shiftl x s mod 2 ^ 64.
Proof.
  intros Hs. unfold overflowing_shl. rewrite (Z.mod_small s) by lia.
  change 63 with (Z.ones 6). rewrite Z.land_ones by lia.
  rewrite (Z.mod_small s) by (change (2 ^ 6) with 64; lia). done.
Qed.

Lemma lor_width a b : 0 <= a < 2 ^ 64 -> 0 <= b < 2 ^ 64 -> 0 <= Z.lor a b < 2 ^ 64.
Proof.
  intros Ha Hb. split; [apply Z.lor_nonneg; lia|].
  destruct (decide (Z.lor a b = 0)) as [-> | Hne]; [lia|].
  assert (0 <= Z.lor a b) by (apply Z.lor_nonneg; lia).
  apply Z.log2_lt_pow2; [lia|]. rewrite Z.log2_lor by lia.
  apply Z.max_lub_lt; (destruct (decide (0 < a)), (decide (0 < b)));
    try (apply Z.log2_lt_pow2; lia); rewrite Z.log2_nonpos; lia.
Qed.

Lemma bit_test m i : 0 <= i < 64 -> (Z.land m (overflowing_shl 1 i) =? 0) = negb (Z.testbit m i)
  \/ 32 < i.
Proof.
  intros Hi. destruct (decide (i <= 32)); [left | right; lia].
  rewrite overflowing_shl_small by lia. rewrite Z.shiftl_1_l.
  rewrite Z.mod_small by (split; [lia | apply Z.pow_lt_mono_r; lia]).
  destruct (Z.testbit m i) eqn:E; simpl.
  - apply Z.eqb_neq. intros H. apply (f_equal (fun z => Z.testbit z i)) in H.
    rewrite Z.land_spec, E, Z.pow2_bits_true, Z.bits_0 in H by lia. done.
  - apply Z.eqb_eq. apply Z.bits_inj'. intros k Hk. rewrite Z.land_spec, Z.bits_0.
    destruct (decide (k = i)) as [-> | Hne]; [rewrite E; done|].
    rewrite Z.pow2_bits_false by lia. apply andb_false_r.
Qed.

Lemma represents_new : represents NonceTracker_new [].
Proof.
  split; simpl; [done | lia | | constructor]. intros i Hi. rewrite Z.bits_0. set_solver.
Qed.

(** A nonce above the current one: the window moves. *)
Lemma represents_advance t accepted n :
  represents t accepted -> 0 < n - current_nonce t <= KEY_RENEWAL_INTERVAL ->
  represents (mkNonceTracker
    (Z.lor (overflowing_shl (nonce_bitmap t) (n - current_nonce t)) 1) n) (n :: accepted).
Proof.
  intros [Hc Hw Hb Hn] Hs. unfold KEY_RENEWAL_INTERVAL in Hs.
  pose proof (highest_nonneg accepted).
  rewrite overflowing_shl_small by lia. set (s := n - current_nonce t) in *.
  split; cbn [current_nonce nonce_bitmap].
  - simpl. fold (highest accepted). lia.
  - apply lor_width; [apply Z.mod_pos_bound; lia | lia].
  - intros i Hi. rewrite Z.lor_spec, Z.mod_pow2_bits_low by lia.
    rewrite Z.shiftl_spec by lia. rewrite orb_true_iff, elem_of_cons.
    assert (Z.testbit 1 i = true <-> n - i = n) as ->.
    { destruct (decide (i = 0)) as [-> | Hne]; [simpl; lia|].
      change 1 with (2 ^ 0). rewrite Z.pow2_bits_false by lia. lia. }
    destruct (decide (i < s)).
    + rewrite Z.testbit_neg_r by lia. split; [intros [?|?]; [done | by left]|].
      intros [?|Hin]; [by right|]. apply highest_ge in Hin. lia.
    + rewrite Hb by lia. replace (current_nonce t - (i - s)) with (n - i) by lia. naive_solver.
  - constructor; [lia | done].
Qed.

(** A nonce at or below the current one: its bit is set. *)
Lemma represents_fill t accepted n :
  represents t accepted -> 0 <= n ->
  0 <= current_nonce t - n <= KEY_RENEWAL_INTERVAL ->
  represents (mkNonceTracker
    (Z.lor (nonce_bitmap t) (overflowing_shl 1 (current_nonce t - n))) (current_nonce t))
    (n :: accepted).
Proof.
  intros [Hc Hw Hb Hn] H0 Hs. unfold KEY_RENEWAL_INTERVAL in Hs.
  rewrite overflowing_shl_small by lia. rewrite Z.shiftl_1_l.
  rewrite Z.mod_small by (split; [lia | apply Z.pow_lt_mono_r; lia]).
  split; cbn [current_nonce nonce_bitmap].
  - simpl. fold (highest accepted). lia.
  - apply lor_width; [done|]. split; [lia | apply Z.pow_lt_mono_r; lia].
  - intros i Hi. rewrite Z.lor_spec, orb_true_iff, Hb, elem_of_cons by done.
    rewrite Z.pow2_bits_eqb, Z.eqb_eq by lia.
    split; intros [?|?]; [by right | left; lia | right; lia | by left].
  - constructor; [lia | done].
Qed.

(** Marking accepts exactly what the specification accepts. *)
Lemma mark_refines t accepted n :
  represents t accepted -> 0 <= n ->
  if acceptable accepted n
  then exists t', NonceTracker_mark t n = Ok t' /\ represents t' (n :: accepted)
  else NonceTracker_mark t n = Err InvalidNonce.
Proof.
  intros Hr H0. pose proof (represents_advance t accepted n Hr) as Hadv.
  pose proof (represents_fill t accepted n Hr H0) as Hfill.
  destruct Hr as [Hc Hw Hb Hn]. unfold acceptable, NonceTracker_mark. rewrite <- Hc.
  unfold KEY_RENEWAL_INTERVAL in *.
  destruct (Z.ltb_spec (current_nonce t) n) as [Hlt | Hge].
  - rewrite bool_decide_eq_true_2 by (intros Hin%highest_ge; lia). simpl.
    destruct (Z.ltb_spec 32 (n - current_nonce t)), (Z.leb_spec (Z.abs (n - current_nonce t)) 32);
      try lia; [done|]. eexists. split; [done|]. apply Hadv. lia.
  - destruct (Z.ltb_spec 32 (current_nonce t - n)), (Z.leb_spec (Z.abs (n - current_nonce t)) 32);
      try lia; [by rewrite andb_false_r|]. rewrite andb_true_r.
    destruct (bit_test (nonce_bitmap t) (current_nonce t - n)) as [-> | ?]; [lia| |lia].
    rewrite negb_involutive. specialize (Hb (current_nonce t - n) ltac:(lia)).
    replace (current_nonce t - (current_nonce t - n)) with n in Hb by lia.
    destruct (Z.testbit _ _); case_bool_decide as Hin; try done.
    + by destruct Hin; apply Hb.
    + eexists. split; [done|]. apply Hfill. lia.
    + by apply Hb in Hin.
Qed.

Lemma mark_all_refines ns t accepted :
  represents t accepted -> Forall (fun n => 0 <= n) ns ->
  (mark_all t accepted ns).2 = accept_all accepted ns /\
  represents (mark_all t accepted ns).1 (accept_all accepted ns).
Proof.
  revert t accepted. induction ns as [|n ns IH]; intros t accepted Hr Hns; [done|].
  inversion_clear Hns. pose proof (mark_refines t accepted n Hr H) as Hm.
  cbn [mark_all accept_all]. destruct (acceptable accepted n).
  - destruct Hm as (t' & -> & Hr'). apply IH; done.
  - rewrite Hm. apply IH; done.
Qed.

Lemma accept_all_NoDup ns accepted : NoDup accepted -> NoDup (accept_all accepted ns).
Proof.
  revert accepted. induction ns as [|n ns IH]; intros accepted H; simpl; [done|].
  destruct (acceptable accepted n) eqn:E; [|by apply IH].
  apply IH. unfold acceptable in E. bool_hyps. constructor; done.
Qed.

(** C7: the bitmap tracker refines the set of accepted nonces: on every sequence
    of [u64] nonces it accepts exactly those that were not accepted before and
    are at most the renewal interval away from the largest accepted one, and
    that largest one is its current nonce. *)
Theorem nonce_tracker_refines_set (ns : list Z) :
  Forall (fun n => 0 <= n < 2 ^ 64) ns ->
  (mark_all NonceTracker_new [] ns).2 = accept_all [] ns /\
  current_nonce (mark_all NonceTracker_new [] ns).1 = highest (accept_all [] ns).
Proof.
  intros Hns. destruct (mark_all_refines ns NonceTracker_new [] represents_new) as [H1 H2].
  - eapply Forall_impl; [exact Hns|]. simpl. lia.
  - split; [done|]. apply rep_current. done.
Qed.

Lemma nonce_tracker_refines_set_witness :
  let ns := [0; 1; 0; 34; 33; 1; 34; 66] in
  accept_all [] ns = [66; 34; 33; 1; 0] /\
  (mark_all NonceTracker_new [] ns).2 = accept_all [] ns /\
  current_nonce (mark_all NonceTracker_new [] ns).1 = highest (accept_all [] ns).
Proof.
  split; [vm_compute; reflexivity|].
  apply nonce_tracker_refines_set. repeat constructor; vm_compute; congruence.
Defined.

(** No nonce is accepted twice, whatever the sender of the nonces does. *)
Theorem no_nonce_accepted_twice (ns : list Z) :
  Forall (fun n => 0 <= n < 2 ^ 64) ns -> NoDup (mark_all NonceTracker_new [] ns).2.
Proof.
  intros Hns. destruct (mark_all_refines ns NonceTracker_new [] represents_new) as [-> _].
  - eapply Forall_impl; [exact Hns|]. simpl. lia.
  - apply accept_all_NoDup. constructor.
Qed.

Lemma no_nonce_accepted_twice_witness :
  NoDup (mark_all NonceTracker_new [] [5; 5; 4; 37; 4; 5; 70]).2.
Proof. apply no_nonce_accepted_twice. repeat constructor; vm_compute; congruence. Defined.
