(* ===== verification/KeyTracker.v ===== *)
(** * Key renewal on the receiving side
    (ockam_identity/src/secure_channel/key_tracker.rs)

    The nonces are cut into intervals of [renewal_interval] and each interval
    has its own key. The tracker holds the key of the current interval and of
    the one before. The abstract view is a chain of keys [K 0], [K 1], ... and
    the number [r] of the current interval. *)

From Stdlib Require Import ZArith Lia.
From stdpp Require Import base list numbers option.
From S2P Require Import Prelude NonceTracker.

Local Open Scope Z_scope.

Notation KeyId := bytes.

Record KeyTracker := mkKeyTracker {
  current_key : KeyId;
  previous_key : option KeyId;
  number_of_rekeys : Z;
  max_rekeys_reached : bool;
  renewal_interval : Z
}.

Definition u64_max : Z := 2 ^ 64 - 1.

(** [u64] multiplication and addition as they wrap; the theorems show that the
    wrap-around is never reached. *)
Definition u64_mul (a b : Z) : Z := (a * b) mod 2 ^ 64.
Definition u64_add (a b : Z) : Z := (a + b) mod 2 ^ 64.

Definition KeyTracker_new (key_id : KeyId) (interval : Z) : KeyTracker :=
  mkKeyTracker key_id None 0 false interval.

Definition KeyTracker_get_key (self : KeyTracker) (nonce : Z) : result NonceError (option KeyId) :=
  let current_interval_start := u64_mul (number_of_rekeys self) (renewal_interval self) in
  if max_rekeys_reached self then Err InvalidNonce
  else if current_interval_start <=? nonce then
    let nonce_age := nonce - current_interval_start in
    if nonce_age <? renewal_interval self then Ok (Some (current_key self))
    else if nonce_age <? u64_mul (renewal_interval self) 2 then Ok None
    else Err InvalidNonce
  else if current_interval_start - nonce <=? renewal_interval self then
    match previous_key self with
    | Some previous => Ok (Some previous)
    | None => Err InvalidNonce
    end
  else Err InvalidNonce.

(** The key to delete, and the tracker afterwards. *)
Definition KeyTracker_update_key (self : KeyTracker) (decryption_key : KeyId)
  : option KeyId * KeyTracker :=
  if bool_decide (decryption_key <> current_key self)
     && bool_decide (Some decryption_key <> previous_key self) then
    let key_to_delete := previous_key self in
    if u64_max - u64_mul (number_of_rekeys self) (renewal_interval self)
         <? renewal_interval self
    then (key_to_delete,
          mkKeyTracker decryption_key (Some (current_key self)) (number_of_rekeys self) true
            (renewal_interval self))
    else (key_to_delete,
          mkKeyTracker decryption_key (Some (current_key self))
            (u64_add (number_of_rekeys self) 1) (max_rekeys_reached self)
            (renewal_interval self))
  else (None, self).

(** * Properties *)

(** The key before interval [r]. *)
Definition previous_of (K : nat -> KeyId) (r : nat) : option KeyId :=
  match r with
  | O => None
  | S p => Some (K p)
  end.

(** The tracker is in interval [r] of the chain [K], with interval size [I]. *)
Definition tracks (K : nat -> KeyId) (I : Z) (r : nat) (t : KeyTracker) : Prop :=
  t = mkKeyTracker (K r) (previous_of K r) (Z.of_nat r) false I.

(** The interval [r] lies within the [u64] nonces. *)
Definition in_range (I : Z) (r : nat) : Prop :=
  0 < I /\ 2 * I <= u64_max /\ (Z.of_nat r + 1) * I <= 2 ^ 64.

Lemma u64_mul_exact a b : 0 <= a * b < 2 ^ 64 -> u64_mul a b = a * b.
Proof. apply Z.mod_small. Qed.

Lemma in_range_start I r : in_range I r -> u64_mul (Z.of_nat r) I = Z.of_nat r * I.
Proof. intros (H1 & H2 & H3). apply u64_mul_exact. nia. Qed.

Lemma tracks_new K I : tracks K I 0 (KeyTracker_new (K 0%nat) I).
Proof. done. Qed.

(** What [get_key] answers, by the number of the nonce's interval. *)
Lemma get_key_interval K I r t nonce :
  tracks K I r t -> in_range I r -> 0 <= nonce ->
  KeyTracker_get_key t nonce =
    (if nonce / I =? Z.of_nat r then Ok (Some (K r))
     else if nonce / I =? Z.of_nat r + 1 then Ok None
     else if nonce / I =? Z.of_nat r - 1 then ok_or (Some <$> previous_of K r) InvalidNonce
     else Err InvalidNonce).
Proof.
  intros -> Hr Hn. pose proof Hr as (H1 & H2 & H3). unfold u64_max in H2.
  unfold KeyTracker_get_key; cbn [number_of_rekeys renewal_interval max_rekeys_reached
    current_key previous_key].
  rewrite in_range_start by done. rewrite u64_mul_exact by lia.
  pose proof (Z.div_mod nonce I ltac:(lia)) as Hd.
  pose proof (Z.mod_pos_bound nonce I ltac:(lia)) as Hb.
  set (q := nonce / I) in *. set (m := nonce mod I) in *.
  destruct (Z.eqb_spec q (Z.of_nat r)) as [E|E].
  - destruct (Z.leb_spec (Z.of_nat r * I) nonce); [|nia].
    destruct (Z.ltb_spec (nonce - Z.of_nat r * I) I); [done | nia].
  - destruct (Z.eqb_spec q (Z.of_nat r + 1)) as [E1|E1].
    + destruct (Z.leb_spec (Z.of_nat r * I) nonce); [|nia].
      destruct (Z.ltb_spec (nonce - Z.of_nat r * I) I); [nia|].
      destruct (Z.ltb_spec (nonce - Z.of_nat r * I) (I * 2)); [done | nia].
    + destruct (Z.leb_spec (Z.of_nat r * I) nonce).
      * assert (Z.of_nat r + 1 < q) by nia.
        destruct (Z.ltb_spec (nonce - Z.of_nat r * I) I); [nia|].
        destruct (Z.ltb_spec (nonce - Z.of_nat r * I) (I * 2)); [nia|].
        destruct (Z.eqb_spec q (Z.of_nat r - 1)); [lia | done].
      * assert (q < Z.of_nat r) by nia.
        destruct (Z.eqb_spec q (Z.of_nat r - 1)) as [E2|E2].
        -- destruct (Z.leb_spec (Z.of_nat r * I - nonce) I); [|nia].
           destruct r; done.
        -- destruct (Z.leb_spec (Z.of_nat r * I - nonce) I); [nia | done].
Qed.

(** Updating with the key of the next interval moves on; updating with a key
    that is still held changes nothing. *)
Lemma update_key_next K I r t :
  tracks K I r t -> in_range I (S r) ->
  K (S r) <> K r -> Some (K (S r)) <> previous_of K r ->
  exists t', KeyTracker_update_key t (K (S r)) = (previous_of K r, t') /\ tracks K I (S r) t'.
Proof.
  intros -> Hr Hk Hp. unfold KeyTracker_update_key.
  cbn [current_key previous_key number_of_rekeys renewal_interval max_rekeys_reached].
  rewrite !bool_decide_eq_true_2 by done. cbn [andb].
  destruct Hr as (H1 & H2 & H3). rewrite Nat2Z.inj_succ in H3.
  rewrite u64_mul_exact by nia. unfold u64_max, u64_add.
  destruct (Z.ltb_spec (2 ^ 64 - 1 - Z.of_nat r * I) I); [nia|].
  eexists. split; [done|]. unfold tracks. simpl.
  rewrite Z.mod_small by nia. f_equal. lia.
Qed.

Lemma update_key_held K I r t k :
  tracks K I r t -> k = K r \/ Some k = previous_of K r ->
  KeyTracker_update_key t k = (None, t).
Proof.
  intros -> Hk. unfold KeyTracker_update_key; cbn [current_key previous_key].
  destruct Hk as [-> | <-].
  - rewrite (bool_decide_eq_false_2 (K r <> K r)) by (intros H; done). done.
  - rewrite (bool_decide_eq_false_2 (Some k <> Some k)) by (intros H; done).
    rewrite andb_false_r. done.
Qed.

(** A receiver that renews its key for the intervals [1], ..., [r]. *)
Fixpoint renewals (K : nat -> KeyId) (t : KeyTracker) (from n : nat) : KeyTracker :=
  match n with
  | O => t
  | S n' => renewals K (KeyTracker_update_key t (K (S from))).2 (S from) n'
  end.

Lemma renewals_tracks K I from n t :
  tracks K I from t -> in_range I (from + n) ->
  (forall i, (i < from + n)%nat -> K (S i) <> K i /\ Some (K (S i)) <> previous_of K i) ->
  tracks K I (from + n) (renewals K t from n).
Proof.
  revert from t. induction n as [|n IH]; intros from t Ht Hr HK; cbn [renewals].
  - rewrite Nat.add_0_r. done.
  - destruct (HK from ltac:(lia)) as [Hk Hp].
    assert (in_range I (S from)) by (unfold in_range in *; nia).
    destruct (update_key_next K I from t) as (t' & -> & Ht'); [done..|]. simpl.
    replace (from + S n)%nat with (S from + n)%nat in * by lia. apply IH; auto.
Qed.

(** After any number of renewals along a chain of keys, as long as the
    interval lies within the [u64] nonces, the tracker answers every nonce with
    the key of its interval when that is the current or the previous one, asks
    for a new key for the next interval only, and refuses all others. *)
Theorem key_tracker_by_interval (K : nat -> KeyId) (I nonce : Z) (r : nat) :
  in_range I r -> 0 <= nonce ->
  (forall i, (i < r)%nat -> K (S i) <> K i /\ Some (K (S i)) <> previous_of K i) ->
  KeyTracker_get_key (renewals K (KeyTracker_new (K 0%nat) I) 0 r) nonce =
    (if nonce / I =? Z.of_nat r then Ok (Some (K r))
     else if nonce / I =? Z.of_nat r + 1 then Ok None
     else if (nonce / I =? Z.of_nat r - 1) then Ok (previous_of K r)
     else Err InvalidNonce).
Proof.
  intros Hr Hn HK. pose proof Hr as (HI & _).
  rewrite (get_key_interval K I r); [|apply (renewals_tracks K I 0 r); done|done..].
  repeat (split_if; try done). bool_hyps. destruct r as [|p]; [|done].
  pose proof (Z.div_pos nonce I Hn HI). lia.
Qed.

Definition sample_chain (n : nat) : KeyId := [byte_of (Z.of_nat n)].

Lemma key_tracker_by_interval_witness :
  KeyTracker_get_key (renewals sample_chain (KeyTracker_new (sample_chain 0%nat) 32) 0 3) 70 =
    Ok (Some [Byte.x02]).
Proof.
  rewrite (key_tracker_by_interval sample_chain 32 70 3).
  - vm_compute. reflexivity.
  - unfold in_range, u64_max. lia.
  - lia.
  - intros i Hi. assert (i = 0 \/ i = 1 \/ i = 2)%nat as [-> | [-> | ->]] by lia;
      split; vm_compute; discriminate.
Defined.
