(* ===== verification/Vault.v ===== *)
(** * The vault (ockam_vault/src)

    Ephemeral secrets in a key-value store, persistent secrets in the software
    security module, and the symmetric and asymmetric operations on them. The
    primitives themselves (AES-GCM, X25519, Ed25519, P-256, SHA-256, HKDF, the
    hexadecimal encoding and the random generator) come from other crates: they
    are the fields of the class [Crypto], and [CryptoLaws] states what the code
    relies on. *)

From Stdlib Require Import ZArith Lia.
From Stdlib Require Strings.Byte Strings.String.
From stdpp Require Import base gmap list numbers option countable.
From S2P Require Import Prelude RustStr KeyTracker.

(** ** Types *)

(** Identifiers of the failures; the texts they carry are left out. *)
Inductive VaultError :=
| InvalidPublicKey
| UnknownEcdhKeyType
| InvalidKeyType
| EntryNotFound
| InvalidSecretLength
| InvalidHkdfOutputType
| AeadAesGcmEncrypt
| AeadAesGcmDecrypt
| HkdfExpandError
| Foreign.

Inductive SecretType := TBuffer | TAes | TX25519 | TEd25519 | TNistP256.

Inductive SecretAttributes :=
| Buffer (n : Z)
| Aes128
| Aes256
| Ed25519
| X25519
| NistP256.

#[export] Instance SecretType_eq_dec : EqDecision SecretType.
Proof. solve_decision. Defined.
#[export] Instance SecretAttributes_eq_dec : EqDecision SecretAttributes.
Proof. solve_decision. Defined.

Definition secret_type (a : SecretAttributes) : SecretType :=
  match a with
  | Buffer _ => TBuffer
  | Aes128 => TAes
  | Aes256 => TAes
  | Ed25519 => TEd25519
  | X25519 => TX25519
  | NistP256 => TNistP256
  end.

Definition CURVE25519_SECRET_LENGTH : Z := 32.
Definition CURVE25519_PUBLIC_LENGTH : Z := 32.
Definition AES256_SECRET_LENGTH : Z := 32.
Definition AES128_SECRET_LENGTH : Z := 16.
Definition NISTP256_SECRET_LENGTH : Z := 32.

Definition attributes_length (a : SecretAttributes) : Z :=
  match a with
  | Buffer s => s
  | Aes128 => AES128_SECRET_LENGTH
  | Aes256 => AES256_SECRET_LENGTH
  | Ed25519 => CURVE25519_SECRET_LENGTH
  | X25519 => CURVE25519_SECRET_LENGTH
  | NistP256 => NISTP256_SECRET_LENGTH
  end.

Record StoredSecret := mkStoredSecret {
  secret : bytes;
  attributes : SecretAttributes
}.

Record PublicKey := mkPublicKey {
  pk_data : bytes;
  stype : SecretType
}.

#[export] Instance PublicKey_eq_dec : EqDecision PublicKey.
Proof. solve_decision. Defined.

(** [StoredSecret::create]: the secret is at least as long as its attributes say. *)
Definition StoredSecret_create (s : bytes) (a : SecretAttributes) : result VaultError StoredSecret :=
  if (Z.of_nat (length s) <? attributes_length a)%Z then Err InvalidSecretLength
  else Ok (mkStoredSecret s a).

(** ** The primitives of other crates *)

Class Crypto := {
  aes256_encrypt : bytes -> bytes -> bytes -> bytes -> option bytes;
  aes256_decrypt : bytes -> bytes -> bytes -> bytes -> option bytes;
  aes128_encrypt : bytes -> bytes -> bytes -> bytes -> option bytes;
  aes128_decrypt : bytes -> bytes -> bytes -> bytes -> option bytes;
  x25519_public : bytes -> bytes;
  x25519 : bytes -> bytes -> bytes;
  ed25519_public : bytes -> bytes;
  ed25519_sign : bytes -> bytes -> bytes;
  ed25519_verify : bytes -> bytes -> bytes -> option bool;
  p256_public : bytes -> option bytes;
  p256_sign : bytes -> bytes -> option bytes;
  p256_verify : bytes -> bytes -> bytes -> option bool;
  p256_generate : nat -> option bytes;
  sha256_digest : bytes -> bytes;
  (** salt, input key material, info, length of the output *)
  hkdf : bytes -> bytes -> bytes -> nat -> option bytes;
  hex_encode : bytes -> bytes;
  (** the bytes the [n]-th use of the generator gives, for a length *)
  rand_bytes : nat -> nat -> bytes
}.

(** The largest message AES-GCM encrypts. *)
Definition aead_max : Z := 2 ^ 36 - 32.

(** Documented behaviour of the primitives. *)
Class CryptoLaws (C : Crypto) : Prop := {
  aes256_roundtrip : forall k n a m, length k = 32 -> length n = 12 ->
    (Z.of_nat (length m) <= aead_max)%Z ->
    exists c, aes256_encrypt k n a m = Some c /\ length c = length m + 16 /\
      aes256_decrypt k n a c = Some m;
  aes128_roundtrip : forall k n a m, length k = 16 -> length n = 12 ->
    (Z.of_nat (length m) <= aead_max)%Z ->
    exists c, aes128_encrypt k n a m = Some c /\ length c = length m + 16 /\
      aes128_decrypt k n a c = Some m;
  x25519_public_length : forall s, length (x25519_public s) = 32;
  x25519_length : forall s p, length (x25519 s p) = 32;
  x25519_commutes : forall s t, length s = 32 -> length t = 32 ->
    x25519 s (x25519_public t) = x25519 t (x25519_public s);
  sha256_length : forall m, length (sha256_digest m) = 32;
  hkdf_length : forall s k i n, (Z.of_nat n <= 8160)%Z ->
    exists o, hkdf s k i n = Some o /\ length o = n;
  hex_inj : forall a b, hex_encode a = hex_encode b -> a = b;
  hex_length : forall a, length (hex_encode a) = 2 * length a;
  rand_length : forall i n, length (rand_bytes i n) = n
}.

(** ** The stores: secrets_store_impl.rs, vault_kms.rs, in_memory_key_value_storage.rs *)

Record Vault := mkVault {
  ephemeral_secrets : gmap KeyId StoredSecret;
  (** the storage of [VaultSecurityModule] *)
  storage : gmap KeyId StoredSecret;
  (** how often the random generator was used *)
  draws : nat
}.

Notation vault_m := (stm Vault VaultError).

Section VaultOps.
Context {C : Crypto}.

(** [rng.fill_bytes] on a buffer of [n] bytes *)
Definition fill_bytes (n : nat) : vault_m bytes :=
  fun v => (Ok (rand_bytes (draws v) n),
            mkVault (ephemeral_secrets v) (storage v) (S (draws v))).

Definition ephemeral_put (k : KeyId) (s : StoredSecret) : vault_m unit :=
  fun v => (Ok tt, mkVault (<[k := s]> (ephemeral_secrets v)) (storage v) (draws v)).

Definition ephemeral_delete (k : KeyId) : vault_m (option StoredSecret) :=
  fun v => (Ok (ephemeral_secrets v !! k),
            mkVault (delete k (ephemeral_secrets v)) (storage v) (draws v)).

(** [VaultSecurityModule::public_key] *)
Definition p256_public_key (s : bytes) : result VaultError PublicKey :=
  match p256_public s with
  | Some pk => Ok (mkPublicKey pk TNistP256)
  | None => Err Foreign
  end.

(** [array_ref![s, 0, 32]] *)
Definition array_32 (s : bytes) : result VaultError bytes := slice s 0 32.

Definition compute_key_id_for_public_key (pk : PublicKey) : KeyId :=
  hex_encode (sha256_digest (pk_data pk)).

Definition compute_key_id (s : bytes) (a : SecretAttributes) : vault_m KeyId :=
  match secret_type a with
  | TX25519 =>
      let! sk := slift (array_32 s) in
      sret (compute_key_id_for_public_key (mkPublicKey (x25519_public sk) TX25519))
  | TEd25519 =>
      let! sk := slift (array_32 s) in
      sret (compute_key_id_for_public_key (mkPublicKey (ed25519_public sk) TEd25519))
  | TBuffer | TAes =>
      let! rand := fill_bytes 8 in
      sret (hex_encode rand)
  | TNistP256 =>
      let! pk := slift (p256_public_key s) in
      sret (compute_key_id_for_public_key pk)
  end.

Definition create_secret_from_attributes (a : SecretAttributes) : vault_m bytes :=
  match secret_type a with
  | TX25519 | TEd25519 | TBuffer | TAes => fill_bytes (Z.to_nat (attributes_length a))
  | TNistP256 =>
      fun v => (match p256_generate (draws v) with Some s => Ok s | None => Err Foreign end,
                mkVault (ephemeral_secrets v) (storage v) (S (draws v)))
  end.

Definition import_ephemeral_secret (s : bytes) (a : SecretAttributes) : vault_m KeyId :=
  let! key_id := compute_key_id s a in
  let! stored := slift (StoredSecret_create s a) in
  let! _ := ephemeral_put key_id stored in
  sret key_id.

Definition create_ephemeral_secret (a : SecretAttributes) : vault_m KeyId :=
  let! s := create_secret_from_attributes a in
  import_ephemeral_secret s a.

Definition get_ephemeral_secret (k : KeyId) : vault_m StoredSecret :=
  fun v => (ok_or (ephemeral_secrets v !! k) EntryNotFound, v).

Definition delete_ephemeral_secret (k : KeyId) : vault_m bool :=
  let! r := ephemeral_delete k in
  sret (bool_decide (is_Some r)).

Definition kms_get_secret (k : KeyId) : vault_m StoredSecret :=
  fun v => (ok_or (storage v !! k) EntryNotFound, v).

Definition create_persistent_secret (a : SecretAttributes) : vault_m KeyId :=
  let! s := create_secret_from_attributes a in
  let! stored := slift (StoredSecret_create s a) in
  let! key_id := compute_key_id s a in
  let! _ := (fun v => (Ok tt, mkVault (ephemeral_secrets v) (<[key_id := stored]> (storage v))
                                (draws v))) in
  sret key_id.

Definition delete_persistent_secret (k : KeyId) : vault_m bool :=
  fun v => (Ok (bool_decide (is_Some (storage v !! k))),
            mkVault (ephemeral_secrets v) (delete k (storage v)) (draws v)).

Definition get_secret_attributes (k : KeyId) : vault_m SecretAttributes :=
  let! v := sget in
  match ephemeral_secrets v !! k with
  | Some stored => sret (attributes stored)
  | None =>
      let! stored := kms_get_secret k in
      sret (attributes stored)
  end.

Definition compute_public_key_from_secret (stored : StoredSecret) : result VaultError PublicKey :=
  match secret_type (attributes stored) with
  | TX25519 =>
      let? sk := array_32 (secret stored) in
      Ok (mkPublicKey (x25519_public sk) TX25519)
  | TEd25519 =>
      let? sk := array_32 (secret stored) in
      Ok (mkPublicKey (ed25519_public sk) TEd25519)
  | TNistP256 => p256_public_key (secret stored)
  | TBuffer | TAes => Err InvalidKeyType
  end.

Definition get_public_key (k : KeyId) : vault_m PublicKey :=
  let! v := sget in
  match ephemeral_secrets v !! k with
  | Some stored => slift (compute_public_key_from_secret stored)
  | None =>
      let! stored := kms_get_secret k in
      slift (compute_public_key_from_secret stored)
  end.

Definition get_key_id (pk : PublicKey) : vault_m KeyId :=
  sret (hex_encode (sha256_digest (pk_data pk))).

(** ** Signatures: vault_kms.rs, signer_impl.rs *)

Definition sign_with_secret (stored : StoredSecret) (data : bytes) : result VaultError bytes :=
  match secret_type (attributes stored) with
  | TEd25519 =>
      let? sk := array_32 (secret stored) in
      Ok (ed25519_sign sk data)
  | TNistP256 => ok_or (p256_sign (secret stored) data) Foreign
  | TBuffer | TAes | TX25519 => Err InvalidKeyType
  end.

(** The key comes from the ephemeral secrets or else from the security module. *)
Definition sign (k : KeyId) (data : bytes) : vault_m bytes :=
  let! v := sget in
  match ephemeral_secrets v !! k with
  | Some stored => slift (sign_with_secret stored data)
  | None =>
      let! stored := kms_get_secret k in
      slift (sign_with_secret stored data)
  end.

Definition verify (pk : PublicKey) (data signature : bytes) : result VaultError bool :=
  match stype pk with
  | TEd25519 =>
      if negb (Z.of_nat (length (pk_data pk)) =? CURVE25519_PUBLIC_LENGTH)%Z
         || negb (length signature =? 64)%nat
      then Err InvalidPublicKey
      else ok_or (ed25519_verify (pk_data pk) data signature) InvalidPublicKey
  | TNistP256 => ok_or (p256_verify (pk_data pk) data signature) Foreign
  | TBuffer | TAes | TX25519 => Err InvalidPublicKey
  end.

(** ** AES-GCM: symmetric_impl.rs *)

Inductive AesGen :=
| Aes128Gcm (key : bytes)
| Aes256Gcm (key : bytes).

(** The key is converted to an array of the exact length, which panics on a
    secret of another length. *)
Definition make_aes (stored : StoredSecret) : result VaultError AesGen :=
  match attributes stored with
  | Aes256 => if length (secret stored) =? 32 then Ok (Aes256Gcm (secret stored)) else Panic
  | Aes128 => if length (secret stored) =? 16 then Ok (Aes128Gcm (secret stored)) else Panic
  | _ => Err AeadAesGcmEncrypt
  end.

(** The nonce is converted to an array of 12 bytes. *)
Definition encrypt_message (aes : AesGen) (msg nonce aad : bytes) : result VaultError bytes :=
  if negb (length nonce =? 12) then Panic
  else ok_or (match aes with
              | Aes128Gcm k => aes128_encrypt k nonce aad msg
              | Aes256Gcm k => aes256_encrypt k nonce aad msg
              end) AeadAesGcmEncrypt.

Definition decrypt_message (aes : AesGen) (msg nonce aad : bytes) : result VaultError bytes :=
  if negb (length nonce =? 12) then Panic
  else ok_or (match aes with
              | Aes128Gcm k => aes128_decrypt k nonce aad msg
              | Aes256Gcm k => aes256_decrypt k nonce aad msg
              end) AeadAesGcmDecrypt.

Definition aead_aes_gcm_encrypt (k : KeyId) (msg nonce aad : bytes) : vault_m bytes :=
  let! stored := get_ephemeral_secret k in
  let! aes := slift (make_aes stored) in
  slift (encrypt_message aes msg nonce aad).

Definition aead_aes_gcm_decrypt (k : KeyId) (msg nonce aad : bytes) : vault_m bytes :=
  let! stored := get_ephemeral_secret k in
  let! aes := slift (make_aes stored) in
  slift (decrypt_message aes msg nonce aad).

(** ** Diffie-Hellman and HKDF: asymmetric_impl.rs *)

Definition ecdh_internal (stored : StoredSecret) (peer : PublicKey) : result VaultError bytes :=
  match secret_type (attributes stored) with
  | TX25519 =>
      if negb (Z.of_nat (length (pk_data peer)) =? attributes_length (attributes stored))%Z
      then Err UnknownEcdhKeyType
      else
        let? sk := array_32 (secret stored) in
        let? pk := array_32 (pk_data peer) in
        Ok (x25519 sk pk)
  | TBuffer | TAes | TEd25519 => Err UnknownEcdhKeyType
  | TNistP256 => Err UnknownEcdhKeyType
  end.

Definition ec_diffie_hellman (k : KeyId) (peer : PublicKey) : vault_m KeyId :=
  let! stored := get_ephemeral_secret k in
  let! dh := slift (ecdh_internal stored peer) in
  import_ephemeral_secret dh (Buffer (Z.of_nat (length dh) mod 2 ^ 32)).

(** The loop over the output attributes: 32 bytes of the key material each. *)
Fixpoint hkdf_outputs (okm : bytes) (index : nat) (outs : list SecretAttributes)
    (secrets : list KeyId) : vault_m (list KeyId) :=
  match outs with
  | [] => sret secrets
  | a :: rest =>
      if negb (bool_decide (secret_type a = TBuffer) || bool_decide (secret_type a = TAes))
      then serr InvalidHkdfOutputType
      else
        let! s := slift (slice okm index (index + Z.to_nat (attributes_length a))) in
        let! k := import_ephemeral_secret s a in
        hkdf_outputs okm (index + 32) rest (secrets ++ [k])
  end.

Definition hkdf_sha256 (salt : KeyId) (info : bytes) (ikm : option KeyId)
    (outs : list SecretAttributes) : vault_m (list KeyId) :=
  let! ikm_secret :=
    match ikm with
    | Some k =>
        let! stored := get_ephemeral_secret k in
        if decide (secret_type (attributes stored) = TBuffer) then sret (Ok (secret stored))
        else sret (Err InvalidKeyType)
    | None => sret (Ok [])
    end in
  let! stored := get_ephemeral_secret salt in
  if decide (secret_type (attributes stored) <> TBuffer) then serr InvalidKeyType
  else
    let! ikm_bytes := slift ikm_secret in
    let! okm := slift (ok_or (hkdf (secret stored) ikm_bytes info (length outs * 32))
                         HkdfExpandError) in
    hkdf_outputs okm 0 outs [].

End VaultOps.

(** * Properties *)

Section VaultProps.
Context {C : Crypto} {L : CryptoLaws C}.

Implicit Types (v : Vault) (k : KeyId).

(** The vault holds a secret under a key identifier. *)
Definition holds v k (s : bytes) (a : SecretAttributes) : Prop :=
  ephemeral_secrets v !! k = Some (mkStoredSecret s a).

(** The identifier the next Buffer or AES secret gets. *)
Definition next_id v : KeyId := hex_encode (rand_bytes (draws v) 8).

(** The first [N] uses of the generator give different identifiers. *)
Definition distinct_ids (N : nat) : Prop :=
  forall i j, i < N -> j < N -> rand_bytes i 8 = rand_bytes j 8 -> i = j.

(** Identifiers of 16 digits come from the generator. *)
Definition known_ids v : Prop :=
  forall k s, ephemeral_secrets v !! k = Some s -> length k = 16 ->
    exists i, i < draws v /\ k = hex_encode (rand_bytes i 8).

Lemma next_id_fresh N v :
  distinct_ids N -> known_ids v -> draws v < N -> ephemeral_secrets v !! next_id v = None.
Proof.
  intros Hd Hk HN. destruct (ephemeral_secrets v !! next_id v) as [s|] eqn:E; [|done].
  destruct (Hk _ _ E) as (i & Hi & Hid).
  { unfold next_id. rewrite hex_length, rand_length. done. }
  apply hex_inj, Hd in Hid; lia.
Qed.

(** The state an import of a Buffer or AES secret leaves. *)
Definition imported v (s : bytes) (a : SecretAttributes) : Vault :=
  mkVault (<[next_id v := mkStoredSecret s a]> (ephemeral_secrets v)) (storage v) (S (draws v)).

Lemma import_run v s a :
  secret_type a = TBuffer \/ secret_type a = TAes ->
  (attributes_length a <= Z.of_nat (length s))%Z ->
  import_ephemeral_secret s a v = (Ok (next_id v), imported v s a).
Proof.
  intros Ha Hl. unfold import_ephemeral_secret, compute_key_id, StoredSecret_create.
  destruct (Z.ltb_spec (Z.of_nat (length s)) (attributes_length a)); [lia|].
  destruct Ha as [-> | ->]; done.
Qed.

Lemma known_imported v s a : known_ids v -> known_ids (imported v s a).
Proof.
  intros Hk k s' H Hlen. simpl in *. destruct (decide (k = next_id v)) as [-> | Hne].
  - exists (draws v). split; [lia | done].
  - rewrite lookup_insert_ne in H by done. destruct (Hk k s' H Hlen) as (i & ? & ?).
    exists i. split; [lia | done].
Qed.

Lemma known_delete v k :
  known_ids v -> known_ids (mkVault (delete k (ephemeral_secrets v)) (storage v) (draws v)).
Proof.
  intros Hk k' s H Hlen. simpl in *. apply lookup_delete_Some in H as [_ H]. eauto.
Qed.

Lemma holds_imported v s a : holds (imported v s a) (next_id v) s a.
Proof. unfold holds, imported. simpl. apply lookup_insert_eq. Qed.

Lemma holds_imported_other v s a k s' a' :
  holds v k s' a' -> k <> next_id v -> holds (imported v s a) k s' a'.
Proof. unfold holds, imported. simpl. intros H Hne. rewrite lookup_insert_ne; done. Qed.

Lemma holds_not_fresh v k k' s a : holds v k s a -> ephemeral_secrets v !! k' = None -> k <> k'.
Proof. unfold holds. congruence. Qed.

Lemma holds_delete v k k' s a :
  holds v k s a -> k <> k' ->
  holds (mkVault (delete k' (ephemeral_secrets v)) (storage v) (draws v)) k s a.
Proof. unfold holds. simpl. intros H Hne. rewrite lookup_delete_ne; done. Qed.

(** AES-256 with a secret the vault holds is the primitive on that secret. *)
Lemma aead_encrypt_run v k s msg nonce aad :
  holds v k s Aes256 -> length s = 32 -> length nonce = 12 ->
  aead_aes_gcm_encrypt k msg nonce aad v =
    (ok_or (aes256_encrypt s nonce aad msg) AeadAesGcmEncrypt, v).
Proof.
  intros Hk Hs Hn. unfold aead_aes_gcm_encrypt, get_ephemeral_secret, sbind, slift.
  rewrite Hk. simpl. unfold make_aes. simpl. rewrite Hs. simpl.
  unfold encrypt_message. rewrite Hn. done.
Qed.

Lemma aead_decrypt_run v k s msg nonce aad :
  holds v k s Aes256 -> length s = 32 -> length nonce = 12 ->
  aead_aes_gcm_decrypt k msg nonce aad v =
    (ok_or (aes256_decrypt s nonce aad msg) AeadAesGcmDecrypt, v).
Proof.
  intros Hk Hs Hn. unfold aead_aes_gcm_decrypt, get_ephemeral_secret, sbind, slift.
  rewrite Hk. simpl. unfold make_aes. simpl. rewrite Hs. simpl.
  unfold decrypt_message. rewrite Hn. done.
Qed.

Lemma attributes_run v k s a :
  holds v k s a -> get_secret_attributes k v = (Ok a, v).
Proof. intros Hk. unfold get_secret_attributes, sbind, sget. rewrite Hk. done. Qed.

Lemma delete_run v k :
  delete_ephemeral_secret k v =
    (Ok (bool_decide (is_Some (ephemeral_secrets v !! k))),
     mkVault (delete k (ephemeral_secrets v)) (storage v) (draws v)).
Proof. done. Qed.

Lemma array_32_run s : length s = 32 -> array_32 s = Ok s.
Proof.
  intros H. unfold array_32. rewrite slice_ok by lia.
  rewrite drop_0, take_ge by lia. done.
Qed.

(** Diffie-Hellman in a vault. *)
Lemma ecdh_run v k s peer :
  holds v k s X25519 -> length s = 32 -> length (pk_data peer) = 32 ->
  ec_diffie_hellman k peer v =
    (Ok (next_id v), imported v (x25519 s (pk_data peer)) (Buffer 32)).
Proof.
  intros Hk Hs Hp. unfold ec_diffie_hellman, get_ephemeral_secret, sbind, slift.
  rewrite Hk. simpl. unfold ecdh_internal. simpl. rewrite Hp. simpl.
  rewrite !array_32_run by done. cbn [rbind].
  rewrite x25519_length. change (Z.of_nat 32 mod 2 ^ 32)%Z with 32%Z.
  apply import_run; [by left|]. simpl. rewrite x25519_length. done.
Qed.

Lemma holds_attr_ne v k k' s s' a a' :
  holds v k s a -> holds v k' s' a' -> a <> a' -> k <> k'.
Proof. unfold holds. congruence. Qed.

Lemma public_key_run v k s :
  holds v k s X25519 -> length s = 32 ->
  get_public_key k v = (Ok (mkPublicKey (x25519_public s) TX25519), v).
Proof.
  intros Hk Hs. unfold get_public_key, sbind, sget. rewrite Hk.
  unfold slift, compute_public_key_from_secret. cbn [attributes secret_type secret].
  rewrite array_32_run by done. done.
Qed.

(** Two derived secrets of 32 bytes. *)
Definition kdf2 (ck ikm : bytes) : bytes * bytes :=
  match hkdf ck ikm [] 64 with
  | Some o => (take 32 o, take 32 (drop 32 o))
  | None => ([], [])
  end.

Lemma kdf2_spec ck ikm :
  exists o, hkdf ck ikm [] 64 = Some o /\ length o = 64 /\
    kdf2 ck ikm = (take 32 o, take 32 (drop 32 o)) /\
    length (kdf2 ck ikm).1 = 32 /\ length (kdf2 ck ikm).2 = 32.
Proof.
  destruct (hkdf_length ck ikm [] 64) as (o & E & Hl); [lia|].
  exists o. unfold kdf2. rewrite E. cbn [fst snd].
  rewrite !length_take, length_drop, Hl. split_and!; done.
Qed.

(** The attributes of the derived secrets. *)
Definition derived (a : SecretAttributes) : Prop := a = Buffer 32 \/ a = Aes256.

Lemma derived_import v s a :
  derived a -> length s = 32 -> import_ephemeral_secret s a v = (Ok (next_id v), imported v s a).
Proof. intros [-> | ->] Hs; apply import_run; rewrite ?Hs; auto; done. Qed.

Lemma hkdf_outputs_step v okm index a rest acc :
  derived a -> index + 32 <= length okm ->
  hkdf_outputs okm index (a :: rest) acc v =
  hkdf_outputs okm (index + 32) rest (acc ++ [next_id v])
    (imported v (take 32 (drop index okm)) a).
Proof.
  intros Ha Hl. cbn [hkdf_outputs].
  assert (bool_decide (secret_type a = TBuffer) || bool_decide (secret_type a = TAes) = true)
    as -> by (destruct Ha as [-> | ->]; done).
  cbn [negb]. assert (Z.to_nat (attributes_length a) = 32) as -> by (destruct Ha as [-> | ->]; done).
  erewrite sbind_run by (unfold slift; rewrite slice_ok by lia; done).
  replace (index + 32 - index) with 32 by lia.
  erewrite sbind_run; [done|]. apply derived_import; [done|].
  rewrite length_take, length_drop. lia.
Qed.

Lemma hkdf_run v salt ck ikm m a1 a2 :
  holds v salt ck (Buffer 32) -> derived a1 -> derived a2 ->
  match ikm with Some k => holds v k m (Buffer 32) | None => m = [] end ->
  let v1 := imported v (kdf2 ck m).1 a1 in
  hkdf_sha256 salt [] ikm [a1; a2] v =
    (Ok [next_id v; next_id v1], imported v1 (kdf2 ck m).2 a2).
Proof.
  intros Hsalt Ha1 Ha2 Hikm. destruct (kdf2_spec ck m) as (o & E & Hl & Ek & _). rewrite Ek.
  cbv zeta. cbn [fst snd]. unfold hkdf_sha256.
  assert ((match ikm with
           | Some k => let! stored := get_ephemeral_secret k in
               if decide (secret_type (attributes stored) = TBuffer)
               then sret (Ok (secret stored)) else sret (Err InvalidKeyType)
           | None => sret (Ok [])
           end : vault_m (result VaultError bytes)) v = (Ok (Ok m), v)) as Ei.
  { destruct ikm as [k|]; [|subst m; done].
    unfold sbind, get_ephemeral_secret. rewrite Hikm. done. }
  erewrite sbind_run by exact Ei. erewrite sbind_run.
  2:{ unfold get_ephemeral_secret. rewrite Hsalt. done. }
  cbn [attributes secret_type secret]. rewrite decide_False by (intros H; by apply H).
  erewrite sbind_run by done.
  change (length [a1; a2] * 32) with 64.
  erewrite sbind_run by (unfold slift; rewrite E; done).
  rewrite hkdf_outputs_step by (done || lia). rewrite hkdf_outputs_step by (done || lia).
  rewrite drop_0. done.
Qed.

End VaultProps.
