(* ===== verification/ToyCrypto.v ===== *)
(** * A concrete instance of the primitives

    Small functions that satisfy [CryptoLaws], so that the theorems about the
    vault, the secure channel and the handshake can be run on concrete inputs.
    They have the documented lengths and equations of the primitives and none of
    their security. *)

From Stdlib Require Import ZArith Lia.
From Stdlib Require Strings.Byte Strings.String.
From stdpp Require Import base gmap list numbers option countable.
From S2P Require Import Prelude RustStr KeyTracker Vault.

Definition pad (n : nat) (l : bytes) : bytes := take n (l ++ replicate n Byte.x00).

Lemma length_pad n l : length (pad n l) = n.
Proof. unfold pad. rewrite length_take, length_app, length_replicate. lia. Qed.

Lemma pad_exact n l : length l = n -> pad n l = l.
Proof. intros H. unfold pad. rewrite take_app_le, take_ge by lia. done. Qed.

(** The tag depends on the key and on the nonce. *)
Definition toy_tag (k n : bytes) : bytes := pad 8 k ++ pad 8 (drop 4 n).

Definition toy_encrypt (k n a m : bytes) : option bytes := Some (m ++ toy_tag k n).

Definition toy_decrypt (k n a c : bytes) : option bytes :=
  if decide (drop (length c - 16) c = toy_tag k n) then Some (take (length c - 16) c) else None.

Definition byte_add (a b : byte) : byte := byte_of (byte_val a + byte_val b).

Definition toy_x25519 (s p : bytes) : bytes := zip_with byte_add (pad 32 s) (pad 32 p).

#[export] Instance toy_crypto : Crypto := {|
  aes256_encrypt := toy_encrypt;
  aes256_decrypt := toy_decrypt;
  aes128_encrypt := toy_encrypt;
  aes128_decrypt := toy_decrypt;
  x25519_public := pad 32;
  x25519 := toy_x25519;
  ed25519_public := pad 32;
  ed25519_sign := fun sk data => pad 32 sk ++ pad 32 data;
  ed25519_verify := fun pk data sig => Some (bool_decide (sig = pk ++ pad 32 data));
  p256_public := fun _ => None;
  p256_sign := fun _ _ => None;
  p256_verify := fun _ _ _ => None;
  p256_generate := fun _ => None;
  sha256_digest := fun m => pad 32 (rev m);
  hkdf := fun s k i n => Some (pad n (s ++ k ++ i));
  hex_encode := fun l => l ++ l;
  rand_bytes := fun i n => to_be_bytes n (Z.of_nat (S i))
|}.

Lemma length_toy_tag k n : length (toy_tag k n) = 16.
Proof. unfold toy_tag. rewrite length_app, !length_pad. done. Qed.

Lemma toy_roundtrip k n a m :
  exists c, toy_encrypt k n a m = Some c /\ length c = length m + 16 /\
    toy_decrypt k n a c = Some m.
Proof.
  eexists. split; [done|]. rewrite length_app, length_toy_tag. split; [done|].
  unfold toy_decrypt. rewrite length_app, length_toy_tag.
  replace (length m + 16 - 16) with (length m) by lia.
  rewrite drop_app_length, decide_True, take_app_length by done. done.
Qed.

Lemma zip_with_comm {A B} (f : A -> A -> B) l k :
  (forall x y, f x y = f y x) -> zip_with f l k = zip_with f k l.
Proof. intros Hf. revert k. induction l; intros [|]; simpl; f_equal; auto. Qed.

#[export] Instance toy_laws : CryptoLaws toy_crypto.
Proof.
  split; simpl.
  - intros. apply toy_roundtrip.
  - intros. apply toy_roundtrip.
  - intros. apply length_pad.
  - intros. unfold toy_x25519. rewrite length_zip_with, !length_pad. done.
  - intros s t Hs Ht. unfold toy_x25519. rewrite !(pad_exact 32 t), !(pad_exact 32 s) by done.
    apply zip_with_comm. intros x y. unfold byte_add. f_equal. lia.
  - intros. apply length_pad.
  - intros. eexists. split; [done | apply length_pad].
  - intros a b H. apply app_inj_1 in H as [H _]; [done|].
    apply (f_equal length) in H. rewrite !length_app in H. lia.
  - intros. rewrite length_app. lia.
  - intros. apply length_to_be_bytes.
Qed.

Lemma toy_distinct_ids N : (Z.of_nat N < 2 ^ 64)%Z -> distinct_ids N.
Proof.
  intros HN i j Hi Hj H. simpl in H.
  assert (forall k, k < N -> from_be_bytes 0 (to_be_bytes 8 (Z.of_nat (S k))) = Z.of_nat (S k)) as E.
  { intros k Hk. rewrite from_to_be_bytes; [lia|].
    change (256 ^ Z.of_nat 8)%Z with (2 ^ 64)%Z. lia. }
  pose proof (E i Hi). pose proof (E j Hj). rewrite H in *. lia.
Qed.

(** An empty vault, and one that holds an AES key. *)
Definition empty_vault : Vault := mkVault ∅ ∅ 0.

Definition sample_secret : bytes := replicate 32 Byte.x07.

Definition sample_vault : Vault := (import_ephemeral_secret sample_secret Aes256 empty_vault).2.

Definition sample_key : KeyId := next_id empty_vault.

Lemma known_empty : known_ids empty_vault.
Proof. intros k s H. simpl in H. rewrite lookup_empty in H. done. Qed.

Lemma known_sample : known_ids sample_vault.
Proof. apply (known_imported empty_vault), known_empty. Qed.

Lemma holds_sample : holds sample_vault sample_key sample_secret Aes256.
Proof. apply (holds_imported empty_vault). Qed.
