(* ===== verification/SecureChannel.v ===== *)
(** * The data phase of a secure channel
    (ockam_identity/src/secure_channel/encryptor.rs, decryptor.rs)

    The encryptor numbers its messages and renews its key every
    [KEY_RENEWAL_INTERVAL] of them; the decryptor follows with the nonce and key
    trackers. Both work in a vault: the state of a computation is the pair of
    the worker's own fields and the vault it uses. *)

From Stdlib Require Import ZArith Lia.
From Stdlib Require Strings.Byte Strings.String.
From stdpp Require Import base gmap list numbers option countable sets.
From S2P Require Import Prelude RustStr NonceTracker KeyTracker Vault ToyCrypto.

Inductive ChannelError :=
| NonceErr (e : NonceError)
| VaultErr (e : VaultError)
| InternalErr.

(** A vault operation in the middle of a worker's computation. *)
Definition on_vault {X A} (m : stm Vault VaultError A) : stm (X * Vault) ChannelError A :=
  fun '(x, v) => let '(r, v') := m v in (map_err VaultErr r, (x, v')).

Definition get_self {X} : stm (X * Vault) ChannelError X := fun '(x, v) => (Ok x, (x, v)).
Definition set_self {X} (x : X) : stm (X * Vault) ChannelError unit := fun '(_, v) => (Ok tt, (x, v)).

(** ** encryptor.rs *)

Record Encryptor := mkEncryptor {
  enc_key : KeyId;
  enc_nonce : Z
}.

(** The 8-byte nonce of the message and the 12-byte nonce of AES-GCM. *)
Definition convert_nonce_from_u64 (nonce : Z) : bytes * bytes :=
  let b := to_be_bytes 8 nonce in
  (b, replicate 4 Byte.x00 ++ b).

Definition zeroes : bytes := replicate 32 Byte.x00.

Section Ops.
Context {C : Crypto}.

Definition rekey {X} (key : KeyId) : stm (X * Vault) ChannelError KeyId :=
  let nonce_buffer := (convert_nonce_from_u64 u64_max).2 in
  let! new_key_buffer := on_vault (aead_aes_gcm_encrypt key zeroes nonce_buffer []) in
  let! attrs := on_vault (get_secret_attributes key) in
  let! s := slift (slice new_key_buffer 0 32) in
  on_vault (import_ephemeral_secret s attrs).

Definition Encryptor_new (key : KeyId) (nonce : Z) : Encryptor := mkEncryptor key nonce.

(** The renewal of the key at the start of each interval but the first. *)
Definition Encryptor_renew (current_nonce : Z) : stm (Encryptor * Vault) ChannelError unit :=
  if (0 <? current_nonce)%Z && (current_nonce mod KEY_RENEWAL_INTERVAL =? 0)%Z then
    let! self := get_self in
    let! new_key := rekey (enc_key self) in
    let old_key := enc_key self in
    let! _ := set_self (mkEncryptor new_key (enc_nonce self)) in
    let! _ := on_vault (delete_ephemeral_secret old_key) in
    sret tt
  else sret tt.

Definition Encryptor_encrypt (payload : bytes) : stm (Encryptor * Vault) ChannelError bytes :=
  let! self := get_self in
  let current_nonce := enc_nonce self in
  if (current_nonce =? u64_max)%Z then serr (NonceErr NonceOverflow)
  else
    let! _ := set_self (mkEncryptor (enc_key self) (enc_nonce self + 1)) in
    let! _ := Encryptor_renew current_nonce in
    let '(small_nonce, nonce) := convert_nonce_from_u64 current_nonce in
    let! self := get_self in
    let! cipher_text := on_vault (aead_aes_gcm_encrypt (enc_key self) payload nonce []) in
    sret (small_nonce ++ cipher_text).

Definition Encryptor_shutdown : stm (Encryptor * Vault) ChannelError unit :=
  let! self := get_self in
  let! deleted := on_vault (delete_ephemeral_secret (enc_key self)) in
  if negb deleted then serr InternalErr else sret tt.

(** ** decryptor.rs *)

Record Decryptor := mkDecryptor {
  key_tracker : KeyTracker;
  nonce_tracker : NonceTracker
}.

Definition Decryptor_new (key_id : KeyId) : Decryptor :=
  mkDecryptor (KeyTracker_new key_id KEY_RENEWAL_INTERVAL) NonceTracker_new.

Definition convert_nonce_from_small (b : bytes) : result ChannelError (Z * bytes) :=
  if negb (length b =? 8) then Err (NonceErr InvalidNonce)
  else
    let nonce := from_be_bytes 0 b in
    Ok (nonce, (convert_nonce_from_u64 nonce).2).

Definition Decryptor_decrypt (payload : bytes) : stm (Decryptor * Vault) ChannelError bytes :=
  let! self := get_self in
  if length payload <? 8 then serr (NonceErr InvalidNonce)
  else
    let! small := slift (slice payload 0 8) in
    let! (nonce, nonce_buffer) := slift (convert_nonce_from_small small) in
    let! nonce_tracker' :=
      slift (map_err NonceErr (NonceTracker_mark (nonce_tracker self) nonce)) in
    let! found := slift (map_err NonceErr (KeyTracker_get_key (key_tracker self) nonce)) in
    let! key := match found with
                | Some key => sret key
                | None => rekey (current_key (key_tracker self))
                end in
    let! text := slift (slice_from payload 8) in
    let! result := stry (on_vault (aead_aes_gcm_decrypt key text nonce_buffer [])) in
    match result with
    | Ok plain =>
        let '(key_to_delete, key_tracker') := KeyTracker_update_key (key_tracker self) key in
        let! _ := set_self (mkDecryptor key_tracker' nonce_tracker') in
        let! _ := match key_to_delete with
                  | Some k => let! _ := on_vault (delete_ephemeral_secret k) in sret tt
                  | None => sret tt
                  end in
        sret plain
    | r => slift r
    end.

Definition Decryptor_shutdown : stm (Decryptor * Vault) ChannelError unit :=
  let! self := get_self in
  let! _ := on_vault (delete_ephemeral_secret (current_key (key_tracker self))) in
  match previous_key (key_tracker self) with
  | Some k => let! _ := on_vault (delete_ephemeral_secret k) in sret tt
  | None => sret tt
  end.

End Ops.

(** * Properties *)

(** ** What holds of any behaviour of the primitives *)

Section Any.
Context {C : Crypto}.

Lemma on_vault_self {X A : Type} (m : stm Vault VaultError A) (x x' : X) v v' r :
  on_vault m (x, v) = (r, (x', v')) -> x' = x.
Proof. unfold on_vault. destruct (m v). congruence. Qed.

Lemma rekey_self {X : Type} key (x x' : X) v v' r : rekey key (x, v) = (r, (x', v')) -> x' = x.
Proof.
  unfold rekey, sbind, slift.
  destruct (on_vault (aead_aes_gcm_encrypt _ _ _ _) (x, v)) as [r1 [x1 v1]] eqn:E1.
  apply on_vault_self in E1 as ->. destruct r1 as [buf| |]; [|congruence..].
  destruct (on_vault (get_secret_attributes key) (x, v1)) as [r2 [x2 v2]] eqn:E2.
  apply on_vault_self in E2 as ->. destruct r2; [|congruence..].
  destruct (slice buf 0 32); [|congruence..]. apply on_vault_self.
Qed.

Lemma renew_nonce n e v r e' v' :
  Encryptor_renew n (e, v) = (r, (e', v')) -> enc_nonce e' = enc_nonce e.
Proof.
  unfold Encryptor_renew. destruct (_ && _); [|unfold sret; congruence].
  unfold sbind, get_self, sret.
  destruct (rekey (enc_key e) (e, v)) as [rk [ek vk]] eqn:Ek.
  apply rekey_self in Ek as ->. destruct rk; cbn [set_self]; [|congruence..].
  destruct (on_vault (delete_ephemeral_secret _) _) as [rd [ed vd]] eqn:Ed.
  apply on_vault_self in Ed as ->. destruct rd; intros [= <- <- <-]; done.
Qed.

(** One encryption: the nonce moves on by one unless it is exhausted, and a
    message that goes out begins with the nonce it consumed. *)
Lemma encrypt_nonce payload e v r e' v' :
  Encryptor_encrypt payload (e, v) = (r, (e', v')) ->
  (enc_nonce e = u64_max /\ e' = e /\ v' = v /\ r = Err (NonceErr NonceOverflow)) \/
  (enc_nonce e <> u64_max /\ enc_nonce e' = (enc_nonce e + 1)%Z /\
   forall out, r = Ok out -> take 8 out = to_be_bytes 8 (enc_nonce e)).
Proof.
  unfold Encryptor_encrypt. unfold sbind at 1. cbn [get_self].
  destruct (Z.eqb_spec (enc_nonce e) u64_max) as [E|E].
  { unfold serr. intros [= <- <- <-]. by left. }
  intros H. right. split; [done|]. revert H. unfold sbind at 1. cbn [set_self].
  set (e1 := mkEncryptor (enc_key e) (enc_nonce e + 1)).
  unfold sbind at 1. destruct (Encryptor_renew (enc_nonce e) (e1, v)) as [r1 [e2 v2]] eqn:Es.
  apply renew_nonce in Es.
  destruct r1 as [[]| |]; [|intros [= <- <- <-]; split; [done | congruence]..].
  destruct (convert_nonce_from_u64 (enc_nonce e)) as [small nonce] eqn:Ec.
  unfold sbind, get_self.
  destruct (on_vault (aead_aes_gcm_encrypt _ _ _ _) (e2, v2)) as [rc [ec vc]] eqn:Ee.
  apply on_vault_self in Ee as ->. unfold sret.
  destruct rc; intros [= <- <- <-]; split; try done. intros out [= <-].
  assert (small = to_be_bytes 8 (enc_nonce e)) as -> by (unfold convert_nonce_from_u64 in Ec; congruence).
  rewrite take_app_le by (rewrite length_to_be_bytes; lia).
  rewrite take_ge by (rewrite length_to_be_bytes; lia). done.
Qed.

(** The messages of a sender, the failed ones included. *)
Fixpoint encrypt_all (payloads : list bytes) (st : Encryptor * Vault)
  : list (result ChannelError bytes) * (Encryptor * Vault) :=
  match payloads with
  | [] => ([], st)
  | p :: ps =>
      let '(r, st1) := Encryptor_encrypt p st in
      let '(rs, st2) := encrypt_all ps st1 in
      (r :: rs, st2)
  end.

(** The nonces on the messages that go out. *)
Definition nonces_of (rs : list (result ChannelError bytes)) : list Z :=
  omap (fun r => match r with Ok out => Some (from_be_bytes 0 (take 8 out)) | _ => None end) rs.

Lemma be_bytes_u64 n : (0 <= n <= u64_max)%Z -> from_be_bytes 0 (to_be_bytes 8 n) = n.
Proof.
  unfold u64_max. intros H. rewrite from_to_be_bytes; [lia|].
  change (256 ^ Z.of_nat 8)%Z with (2 ^ 64)%Z. lia.
Qed.

Lemma encrypt_all_nonces payloads e v :
  (0 <= enc_nonce e <= u64_max)%Z ->
  let rs := (encrypt_all payloads (e, v)).1 in
  Forall (fun n => enc_nonce e <= n < u64_max)%Z (nonces_of rs) /\ NoDup (nonces_of rs).
Proof.
  revert e v. induction payloads as [|p ps IH]; intros e v He; cbn [encrypt_all].
  { split; constructor. }
  destruct (Encryptor_encrypt p (e, v)) as [r [e1 v1]] eqn:E.
  apply encrypt_nonce in E as [(_ & -> & -> & ->) | (Hn & En & Hout)].
  - specialize (IH e v He). destruct (encrypt_all ps (e, v)). done.
  - specialize (IH e1 v1 ltac:(lia)). destruct (encrypt_all ps (e1, v1)) as [rs st].
    simpl in *. destruct IH as [IH1 IH2].
    assert (Forall (fun n => enc_nonce e <= n < u64_max)%Z (nonces_of rs)).
    { eapply Forall_impl; [exact IH1|]. simpl. lia. }
    destruct r as [out| |]; simpl; [|done..]. rewrite (Hout out eq_refl), be_bytes_u64 by done.
    split; constructor; try done; [lia|]. intros Hin.
    rewrite list.Forall_forall in IH1. apply IH1 in Hin. lia.
Qed.

Lemma fetch_self (found : option KeyId) key (x x' : Decryptor) v v' r :
  (match found with Some k => sret k | None => rekey key end) (x, v) = (r, (x', v')) -> x' = x.
Proof. destruct found; [unfold sret; congruence | apply rekey_self]. Qed.

Lemma try_self {A : Type} (m : stm Vault VaultError A) (x x' : Decryptor) v v' r :
  stry (on_vault m) (x, v) = (r, (x', v')) -> x' = x.
Proof.
  unfold stry. destruct (on_vault m (x, v)) as [r1 [x1 v1]] eqn:E.
  apply on_vault_self in E as ->. destruct r1; congruence.
Qed.

(** One decryption: a success marked the nonce at the front of the message; a
    failure leaves both trackers as they were. *)
Lemma decrypt_cases payload d v r d' v' :
  Decryptor_decrypt payload (d, v) = (r, (d', v')) ->
  (exists plain, r = Ok plain /\ 8 <= length payload /\
     NonceTracker_mark (nonce_tracker d) (from_be_bytes 0 (take 8 payload)) =
       Ok (nonce_tracker d')) \/
  (d' = d /\ forall plain, r <> Ok plain).
Proof.
  unfold Decryptor_decrypt. intros H.
  apply sbind_inv in H as [(self & s1 & Es & H) | [(e & Es & ->) | (Es & ->)]]; [|done..].
  injection Es as <- <-.
  destruct (Nat.ltb_spec (length payload) 8) as [Hl|Hl]; [injection H as <- <- <-; by right|].
  rewrite slice_ok, drop_0 in H by lia. unfold sbind at 1, slift at 1 in H.
  unfold convert_nonce_from_small in H. rewrite length_take in H.
  replace (8 - 0) with 8 in H by lia. rewrite Nat.min_l in H by lia.
  unfold sbind at 1, slift at 1 in H. cbn [negb Nat.eqb] in H.
  set (n := from_be_bytes 0 (take 8 payload)) in *.
  apply sbind_inv in H as [(t' & s1 & Et & H) | [(e & Et & ->) | (Et & ->)]];
    apply slift_inv in Et as [Et Ee]; [|injection Ee as -> ->; by right..]. subst s1.
  destruct (NonceTracker_mark (nonce_tracker d) n) as [t1| |] eqn:Em; try done.
  injection Et as ->.
  apply sbind_inv in H as [(found & s1 & Et & H) | [(e & Et & ->) | (Et & ->)]];
    apply slift_inv in Et as [_ Ee]; [|injection Ee as -> ->; by right..]. subst s1.
  apply sbind_inv in H as [(key & [d1 v1] & Ek & H) | [(e & Ek & ->) | (Ek & ->)]];
    apply fetch_self in Ek as ->; [|by right..].
  apply sbind_inv in H as [(text & s1 & Et & H) | [(e & Et & ->) | (Et & ->)]];
    apply slift_inv in Et as [_ Ee]; [|injection Ee as -> ->; by right..]. subst s1.
  apply sbind_inv in H as [(res & [d1 v2] & Er & H) | [(e & Er & ->) | (Er & ->)]];
    apply try_self in Er as ->; [|by right..].
  destruct res as [plain|e|]; [|injection H as <- <- <-; by right..]. left.
  destruct (KeyTracker_update_key (key_tracker d) key) as [kd kt].
  unfold sbind at 1 in H. cbn [set_self] in H. exists plain.
  destruct kd as [k|]; [unfold on_vault in H|]; unfold sbind, sret in H;
    simpl in H; injection H as <- <- <-; done.
Qed.

(** The nonces of the messages a receiver accepts, the last one first, for any
    sequence of inputs. *)
Fixpoint decrypt_all (inputs : list bytes) (accepted : list Z) (st : Decryptor * Vault)
  : list Z * (Decryptor * Vault) :=
  match inputs with
  | [] => (accepted, st)
  | p :: ps =>
      match Decryptor_decrypt p st with
      | (Ok _, st') => decrypt_all ps (from_be_bytes 0 (take 8 p) :: accepted) st'
      | (_, st') => decrypt_all ps accepted st'
      end
  end.

Lemma from_be_bytes_nonneg l : (0 <= from_be_bytes 0 l)%Z.
Proof.
  assert (forall acc, 0 <= acc -> 0 <= from_be_bytes acc l)%Z as H; [|by apply H].
  induction l as [|b l IH]; intros acc Hacc; [done|].
  change (0 <= from_be_bytes (acc * 256 + byte_val b) l)%Z. apply IH.
  pose proof (byte_val_range b). lia.
Qed.

Lemma decrypt_all_NoDup inputs accepted d v :
  represents (nonce_tracker d) accepted -> NoDup accepted ->
  NoDup (decrypt_all inputs accepted (d, v)).1.
Proof.
  revert accepted d v. induction inputs as [|p ps IH]; intros accepted d v Hr Hd; [done|].
  cbn [decrypt_all]. destruct (Decryptor_decrypt p (d, v)) as [r [d' v']] eqn:E.
  apply decrypt_cases in E as [(plain & -> & _ & Hm) | [-> Hr']].
  - pose proof (mark_refines _ _ (from_be_bytes 0 (take 8 p)) Hr
                  (from_be_bytes_nonneg _)) as Hs.
    destruct (acceptable accepted _) eqn:Ea; [|congruence].
    destruct Hs as (t' & Ht & Hr'). rewrite Hm in Ht. injection Ht as <-.
    apply IH; [done|]. unfold acceptable in Ea. bool_hyps. constructor; done.
  - destruct r as [plain| |]; [by destruct (Hr' plain)|..]; apply IH; done.
Qed.

End Any.

(** ** What holds when the primitives behave as documented *)

(** The secret after one renewal, and the chain of the secrets of a channel. *)
Definition next_secret `{Crypto} (s : bytes) : bytes :=
  match aes256_encrypt s (convert_nonce_from_u64 u64_max).2 [] zeroes with
  | Some c => take 32 c
  | None => []
  end.

Fixpoint chain `{Crypto} (s0 : bytes) (i : nat) : bytes :=
  match i with
  | O => s0
  | S j => next_secret (chain s0 j)
  end.

(** The number of the interval of a nonce. *)
Definition interval (n : Z) : nat := Z.to_nat (n / KEY_RENEWAL_INTERVAL).

(** The message with nonce [n] on the wire. *)
Definition wire `{Crypto} (s0 : bytes) (n : Z) (p : bytes) : bytes :=
  to_be_bytes 8 n ++
  default [] (aes256_encrypt (chain s0 (interval n)) (convert_nonce_from_u64 n).2 [] p).

Section Laws.
Context {C : Crypto} {L : CryptoLaws C}.
Variable s0 : bytes.
Hypothesis Hs0 : length s0 = 32.
Variable N : nat.
Hypothesis HN : distinct_ids N.

Lemma length_nonce12 n : length (convert_nonce_from_u64 n).2 = 12.
Proof.
  unfold convert_nonce_from_u64. cbn [snd].
  rewrite length_app, length_replicate, length_to_be_bytes. done.
Qed.

Lemma next_secret_spec s :
  length s = 32 ->
  exists c, aes256_encrypt s (convert_nonce_from_u64 u64_max).2 [] zeroes = Some c /\
    32 <= length c /\ next_secret s = take 32 c /\ length (next_secret s) = 32.
Proof.
  intros Hs. unfold next_secret.
  destruct (aes256_roundtrip s (convert_nonce_from_u64 u64_max).2 [] zeroes)
    as (c & E & Hl & _); [done | apply length_nonce12 | vm_compute; congruence|].
  exists c. rewrite E. change (length zeroes) with 32 in Hl.
  split_and!; [done | lia | done|]. rewrite length_take. lia.
Qed.

Lemma length_chain i : length (chain s0 i) = 32.
Proof.
  induction i as [|i IH]; [done|]. cbn [chain].
  destruct (next_secret_spec _ IH) as (c & _ & _ & _ & H). done.
Qed.

Lemma rekey_run {X : Type} (x : X) v k s :
  holds v k s Aes256 -> length s = 32 ->
  rekey k (x, v) = (Ok (next_id v), (x, imported v (next_secret s) Aes256)).
Proof.
  intros Hk Hs. destruct (next_secret_spec s Hs) as (c & E & Hl & En & Hn).
  unfold rekey. erewrite sbind_run.
  2:{ unfold on_vault. erewrite aead_encrypt_run by (try apply length_nonce12; done).
      rewrite E. done. }
  erewrite sbind_run.
  2:{ unfold on_vault. erewrite attributes_run by done. done. }
  erewrite sbind_run.
  2:{ unfold slift. rewrite slice_ok by lia. done. }
  rewrite Nat.sub_0_r, drop_0, <- En. unfold on_vault.
  rewrite import_run; [done | by right |]. rewrite Hn. done.
Qed.

(** *** The sender *)

(** The encryptor is about to use [enc_nonce e]: its key is the one of the
    nonce before. *)
Record enc_inv (e : Encryptor) (v : Vault) : Prop := {
  ei_nonce : (0 <= enc_nonce e <= u64_max)%Z;
  ei_key : holds v (enc_key e) (chain s0 (interval (enc_nonce e - 1))) Aes256;
  ei_ids : known_ids v
}.

Lemma interval_step n :
  (0 < n)%Z ->
  interval n = if (n mod KEY_RENEWAL_INTERVAL =? 0)%Z then S (interval (n - 1))
               else interval (n - 1).
Proof.
  intros Hn. unfold interval, KEY_RENEWAL_INTERVAL.
  destruct (Z.eqb_spec (n mod 32) 0) as [E|E].
  - rewrite <- Z2Nat.inj_succ by (apply Z.div_pos; lia). f_equal.
    pose proof (Z.div_mod n 32 ltac:(lia)).
    replace n with ((n / 32 - 1) * 32 + 32)%Z at 2 by lia.
    replace ((n / 32 - 1) * 32 + 32 - 1)%Z with (31 + (n / 32 - 1) * 32)%Z by lia.
    rewrite Z.div_add by lia. change (31 / 32)%Z with 0%Z. lia.
  - f_equal. pose proof (Z.div_mod n 32 ltac:(lia)). pose proof (Z.mod_pos_bound n 32 ltac:(lia)).
    apply (Z.div_unique_pos _ _ _ (n mod 32 - 1)); lia.
Qed.

(** After the renewal step the key is the one of the nonce in use. *)
Lemma renew_run e v n :
  holds v (enc_key e) (chain s0 (interval (n - 1))) Aes256 -> known_ids v -> (0 <= n)%Z ->
  draws v < N ->
  exists e' v', Encryptor_renew n (e, v) = (Ok tt, (e', v')) /\
    enc_nonce e' = enc_nonce e /\ holds v' (enc_key e') (chain s0 (interval n)) Aes256 /\
    known_ids v' /\ draws v' <= S (draws v).
Proof.
  intros Hk Hi Hn Hd. unfold Encryptor_renew.
  destruct (Z.ltb_spec 0 n) as [Hpos|Hz]; cbn [andb].
  2:{ assert (n = 0%Z) as -> by lia. exists e, v. split_and!; try done. lia. }
  pose proof (interval_step n Hpos) as Hint.
  destruct (n mod KEY_RENEWAL_INTERVAL =? 0)%Z; rewrite Hint.
  2:{ exists e, v. split_and!; try done. lia. }
  pose proof (next_id_fresh N v HN Hi Hd) as Hfresh.
  eexists _, _. split.
  { erewrite sbind_run by done. erewrite sbind_run by (apply rekey_run; [done | apply length_chain]).
    erewrite sbind_run by done. erewrite sbind_run by done. done. }
  cbn [enc_nonce enc_key]. split_and!; [done| | |].
  - apply holds_delete; [apply holds_imported|].
    eapply not_eq_sym, holds_not_fresh; done.
  - apply known_delete, known_imported. done.
  - simpl. lia.
Qed.

Lemma wire_spec n p :
  (Z.of_nat (length p) <= aead_max)%Z ->
  exists c, aes256_encrypt (chain s0 (interval n)) (convert_nonce_from_u64 n).2 [] p = Some c /\
    wire s0 n p = to_be_bytes 8 n ++ c /\
    aes256_decrypt (chain s0 (interval n)) (convert_nonce_from_u64 n).2 [] c = Some p.
Proof.
  intros Hp. destruct (aes256_roundtrip (chain s0 (interval n)) (convert_nonce_from_u64 n).2 [] p)
    as (c & E & _ & D); [apply length_chain | apply length_nonce12 | done|].
  exists c. unfold wire. rewrite E. done.
Qed.

Lemma encrypt_run p e v :
  enc_inv e v -> (enc_nonce e < u64_max)%Z -> draws v < N ->
  (Z.of_nat (length p) <= aead_max)%Z ->
  exists e' v', Encryptor_encrypt p (e, v) = (Ok (wire s0 (enc_nonce e) p), (e', v')) /\
    enc_inv e' v' /\ enc_nonce e' = (enc_nonce e + 1)%Z /\ draws v' <= S (draws v).
Proof.
  intros [Hn Hk Hi] Hlt Hd Hp. destruct (wire_spec (enc_nonce e) p Hp) as (c & Ec & Ew & _).
  destruct (renew_run (mkEncryptor (enc_key e) (enc_nonce e + 1)) v (enc_nonce e))
    as (e' & v' & Er & En & Hk' & Hi' & Hd'); [done | done | lia | done|].
  exists e', v'. split_and!; [|split|done|done].
  - unfold Encryptor_encrypt. erewrite sbind_run by done.
    destruct (Z.eqb_spec (enc_nonce e) u64_max); [lia|].
    erewrite sbind_run by done. erewrite sbind_run by exact Er.
    rewrite (surjective_pairing (convert_nonce_from_u64 (enc_nonce e))).
    erewrite sbind_run by done. erewrite sbind_run.
    2:{ unfold on_vault.
        erewrite aead_encrypt_run by (first [exact Hk' | apply length_chain | apply length_nonce12]).
        rewrite Ec. done. }
    rewrite Ew. done.
  - rewrite En. simpl. lia.
  - rewrite En. simpl. rewrite Z.add_simpl_r. done.
  - done.
Qed.

Lemma encrypt_all_run ps e v :
  enc_inv e v -> (enc_nonce e + Z.of_nat (length ps) <= u64_max)%Z ->
  draws v + length ps <= N -> Forall (fun p => Z.of_nat (length p) <= aead_max)%Z ps ->
  (encrypt_all ps (e, v)).1 =
    imap (fun i p => Ok (wire s0 (enc_nonce e + Z.of_nat i) p)) ps.
Proof.
  revert e v. induction ps as [|p ps IH]; intros e v He Hn Hd Hp; [done|].
  inversion_clear Hp. cbn [length] in *. cbn [encrypt_all].
  destruct (encrypt_run p e v) as (e' & v' & -> & He' & En & Hd'); [done | lia | lia | done|].
  specialize (IH e' v' He' ltac:(lia) ltac:(lia) H0).
  destruct (encrypt_all ps (e', v')) as [rs st]. cbn [fst] in *. rewrite IH.
  rewrite imap_cons. rewrite Z.add_0_r. f_equal. apply imap_ext. intros i q _. simpl.
  do 2 f_equal. lia.
Qed.

(** *** The receiver *)

(** The receiver that accepted these nonces: its window represents them, and its
    vault holds the secrets of the current and of the previous interval. *)
Record dec_inv (accepted : list Z) (d : Decryptor) (v : Vault) : Prop := {
  di_nonces : represents (nonce_tracker d) accepted;
  di_bound : Forall (fun n => n <= u64_max)%Z accepted;
  di_keys : exists K, let r := interval (highest accepted) in
    tracks K KEY_RENEWAL_INTERVAL r (key_tracker d) /\
    holds v (K r) (chain s0 r) Aes256 /\
    (forall p, r = S p -> holds v (K p) (chain s0 p) Aes256 /\ K p <> K r);
  di_ids : known_ids v
}.

Lemma highest_cons n accepted : highest (n :: accepted) = Z.max n (highest accepted).
Proof. done. Qed.

Lemma highest_bound accepted :
  Forall (fun n => n <= u64_max)%Z accepted -> (highest accepted <= u64_max)%Z.
Proof.
  induction 1 as [|n l Hn _ IH]; [vm_compute; congruence|]. rewrite highest_cons. lia.
Qed.

Lemma interval_in_range n : (0 <= n <= u64_max)%Z -> in_range KEY_RENEWAL_INTERVAL (interval n).
Proof.
  unfold in_range, interval, u64_max, KEY_RENEWAL_INTERVAL. intros Hn.
  pose proof (Z.div_pos n 32 ltac:(lia) ltac:(lia)). rewrite Z2Nat.id by done.
  pose proof (Z.div_mod n 32 ltac:(lia)). pose proof (Z.mod_pos_bound n 32 ltac:(lia)).
  split_and!; [lia | lia |]. assert (n / 32 < 2 ^ 59)%Z; [|lia].
  apply Z.div_lt_upper_bound; lia.
Qed.

Lemma interval_Z n : (0 <= n)%Z -> Z.of_nat (interval n) = (n / KEY_RENEWAL_INTERVAL)%Z.
Proof. intros Hn. unfold interval. rewrite Z2Nat.id; [done|]. apply Z.div_pos; done. Qed.

Lemma interval_mono m n : (0 <= m <= n)%Z -> interval m <= interval n.
Proof.
  intros H. apply Nat2Z.inj_le. rewrite !interval_Z by lia. apply Z.div_le_mono; [done | lia].
Qed.

(** An accepted nonce lies in the current interval or next to it. *)
Lemma acceptable_interval accepted n :
  acceptable accepted n = true -> (0 <= n)%Z ->
  let r := interval (highest accepted) in
  interval n = r \/ interval n = S r \/ S (interval n) = r.
Proof.
  unfold acceptable. intros H Hn. bool_hyps. pose proof (highest_nonneg accepted).
  pose proof (interval_Z n Hn) as Ein. pose proof (interval_Z (highest accepted) ltac:(done)) as Eih.
  unfold KEY_RENEWAL_INTERVAL in *.
  pose proof (Z.div_mod n 32 ltac:(lia)). pose proof (Z.mod_pos_bound n 32 ltac:(lia)).
  pose proof (Z.div_mod (highest accepted) 32 ltac:(lia)).
  pose proof (Z.mod_pos_bound (highest accepted) 32 ltac:(lia)). simpl. lia.
Qed.

(** The part of a decryption that follows the choice of the key. *)
Lemma decrypt_with_key d v v1 n p key found t' kd kt' :
  (0 <= n <= u64_max)%Z -> (Z.of_nat (length p) <= aead_max)%Z ->
  NonceTracker_mark (nonce_tracker d) n = Ok t' ->
  KeyTracker_get_key (key_tracker d) n = Ok found ->
  (match found with
   | Some k => sret k
   | None => rekey (current_key (key_tracker d))
   end) (d, v) = (Ok key, (d, v1)) ->
  holds v1 key (chain s0 (interval n)) Aes256 ->
  KeyTracker_update_key (key_tracker d) key = (kd, kt') ->
  Decryptor_decrypt (wire s0 n p) (d, v) =
    (Ok p, (mkDecryptor kt' t',
            match kd with
            | Some k => mkVault (delete k (ephemeral_secrets v1)) (storage v1) (draws v1)
            | None => v1
            end)).
Proof.
  intros Hn Hp Hm Hg Hk Hh Hu. destruct (wire_spec n p Hp) as (c & _ & -> & Ed).
  unfold Decryptor_decrypt. erewrite sbind_run by done.
  pose proof (length_to_be_bytes 8 n) as Hl. rewrite length_app, Hl.
  destruct (Nat.ltb_spec (8 + length c) 8); [lia|].
  erewrite sbind_run.
  2:{ unfold slift. rewrite slice_ok by (rewrite ?length_app, ?Hl; lia). done. }
  rewrite Nat.sub_0_r, drop_0, take_app_le, take_ge by lia.
  erewrite sbind_run.
  2:{ unfold slift, convert_nonce_from_small. rewrite Hl. cbn [Nat.eqb negb].
      rewrite be_bytes_u64 by done. done. }
  cbv beta iota.
  erewrite sbind_run by (unfold slift; rewrite Hm; done).
  erewrite sbind_run by (unfold slift; rewrite Hg; done).
  erewrite sbind_run by exact Hk.
  erewrite sbind_run.
  2:{ unfold slift. rewrite slice_from_ok by (rewrite length_app; lia). done. }
  rewrite drop_app_ge, Hl, Nat.sub_diag, drop_0 by lia.
  erewrite sbind_run.
  2:{ unfold stry, on_vault.
      erewrite aead_decrypt_run by (first [exact Hh | apply length_chain | apply length_nonce12]).
      rewrite Ed. done. }
  rewrite Hu. destruct kd; done.
Qed.

Lemma dec_inv_new key v :
  holds v key s0 Aes256 -> known_ids v -> dec_inv [] (Decryptor_new key) v.
Proof.
  intros Hk Hi. split; [apply represents_new | constructor | | done].
  exists (fun _ => key). split_and!; [done | done |]. intros p Hp. discriminate Hp.
Qed.

(** The nonce is marked, and the key the tracker answers is the one of the
    nonce's interval. *)
Lemma get_key_here K r t n :
  tracks K KEY_RENEWAL_INTERVAL r t -> in_range KEY_RENEWAL_INTERVAL r -> (0 <= n)%Z ->
  interval n = r -> KeyTracker_get_key t n = Ok (Some (K r)).
Proof.
  intros Ht Hr Hn <-. rewrite (get_key_interval K KEY_RENEWAL_INTERVAL (interval n)) by done.
  rewrite interval_Z, Z.eqb_refl by done. done.
Qed.

Lemma get_key_before K p t n :
  tracks K KEY_RENEWAL_INTERVAL (S p) t -> in_range KEY_RENEWAL_INTERVAL (S p) -> (0 <= n)%Z ->
  interval n = p -> KeyTracker_get_key t n = Ok (Some (K p)).
Proof.
  intros Ht Hr Hn <-.
  rewrite (get_key_interval K KEY_RENEWAL_INTERVAL (S (interval n))) by done.
  rewrite Nat2Z.inj_succ, interval_Z by done. set (q := (n / KEY_RENEWAL_INTERVAL)%Z).
  destruct (Z.eqb_spec q (Z.succ q)); [lia|]. destruct (Z.eqb_spec q (Z.succ q + 1)); [lia|].
  destruct (Z.eqb_spec q (Z.succ q - 1)); [done | lia].
Qed.

Lemma get_key_after K r t n :
  tracks K KEY_RENEWAL_INTERVAL r t -> in_range KEY_RENEWAL_INTERVAL r -> (0 <= n)%Z ->
  interval n = S r -> KeyTracker_get_key t n = Ok None.
Proof.
  intros Ht Hr Hn E. rewrite (get_key_interval K KEY_RENEWAL_INTERVAL r) by done.
  apply (f_equal Z.of_nat) in E. rewrite interval_Z, Nat2Z.inj_succ in E by done. rewrite E.
  destruct (Z.eqb_spec (Z.succ (Z.of_nat r)) (Z.of_nat r)); [lia|].
  destruct (Z.eqb_spec (Z.succ (Z.of_nat r)) (Z.of_nat r + 1)); [done | lia].
Qed.

(** The interval of the largest nonce once [n] is accepted. *)
Lemma interval_highest n accepted :
  (0 <= n)%Z ->
  interval (highest (n :: accepted)) = Nat.max (interval n) (interval (highest accepted)).
Proof.
  intros Hn. rewrite highest_cons. pose proof (highest_nonneg accepted).
  destruct (Z.le_ge_cases n (highest accepted)).
  - rewrite Z.max_r, Nat.max_r by (try apply interval_mono; lia). done.
  - rewrite Z.max_l, Nat.max_l by (try apply interval_mono; lia). done.
Qed.

(** A message of the current or of the previous interval. *)
Lemma decrypt_held accepted d v n p :
  dec_inv accepted d v -> acceptable accepted n = true -> (0 <= n <= u64_max)%Z ->
  (Z.of_nat (length p) <= aead_max)%Z ->
  interval n = interval (highest accepted) \/ S (interval n) = interval (highest accepted) ->
  exists d' v', Decryptor_decrypt (wire s0 n p) (d, v) = (Ok p, (d', v')) /\
    dec_inv (n :: accepted) d' v' /\ draws v' <= S (draws v).
Proof.
  intros [Hr Hb (K & Ht & Hc & Hprev) Hi] Ha Hn Hp Hint.
  pose proof (mark_refines _ _ n Hr ltac:(lia)) as Hm. rewrite Ha in Hm.
  destruct Hm as (t' & Hm & Hr'). pose proof (highest_nonneg accepted).
  assert (in_range KEY_RENEWAL_INTERVAL (interval (highest accepted))) as Hrange.
  { apply interval_in_range. split; [done | by apply highest_bound]. }
  assert (exists key, KeyTracker_get_key (key_tracker d) n = Ok (Some key) /\
            holds v key (chain s0 (interval n)) Aes256 /\
            KeyTracker_update_key (key_tracker d) key = (None, key_tracker d))
    as (key & Hg & Hh & Hu).
  { destruct Hint as [E|E].
    - exists (K (interval (highest accepted))). rewrite E. split_and!; [|done|].
      + eapply get_key_here; [done | done | lia | done].
      + eapply update_key_held; [exact Ht | by left].
    - rewrite <- E in *. destruct (Hprev (interval n) eq_refl) as [Hk _].
      exists (K (interval n)). split_and!; [|done|].
      + eapply get_key_before; [done | done | lia | done].
      + eapply update_key_held; [exact Ht | by right]. }
  eexists _, _. split.
  - eapply decrypt_with_key; [done | done | exact Hm | exact Hg | done | exact Hh | exact Hu].
  - cbn [draws]. split; [|lia]. split; cbn [nonce_tracker key_tracker].
    + done.
    + constructor; [lia | done].
    + exists K. rewrite interval_highest by lia. rewrite Nat.max_r by lia. done.
    + done.
Qed.

(** The first message of the next interval renews the key. *)
Lemma decrypt_next accepted d v n p :
  dec_inv accepted d v -> acceptable accepted n = true -> (0 <= n <= u64_max)%Z ->
  (Z.of_nat (length p) <= aead_max)%Z -> draws v < N ->
  interval n = S (interval (highest accepted)) ->
  exists d' v', Decryptor_decrypt (wire s0 n p) (d, v) = (Ok p, (d', v')) /\
    dec_inv (n :: accepted) d' v' /\ draws v' <= S (draws v).
Proof.
  intros [Hr Hb (K & Ht & Hc & Hprev) Hi] Ha Hn Hp Hd Hint.
  pose proof (mark_refines _ _ n Hr ltac:(lia)) as Hm. rewrite Ha in Hm.
  destruct Hm as (t' & Hm & Hr'). pose proof (highest_nonneg accepted).
  set (r := interval (highest accepted)) in *.
  assert (in_range KEY_RENEWAL_INTERVAL r) as Hrange.
  { apply interval_in_range. split; [done | by apply highest_bound]. }
  assert (in_range KEY_RENEWAL_INTERVAL (S r)) as Hrange'
    by (rewrite <- Hint; apply interval_in_range; done).
  pose proof (next_id_fresh N v HN Hi Hd) as Hfresh.
  set (K' := fun i => if decide (i = S r) then next_id v else K i).
  assert (EK : K' r = K r) by (unfold K'; rewrite decide_False by lia; done).
  assert (EK' : K' (S r) = next_id v) by (unfold K'; rewrite decide_True; done).
  assert (EP : previous_of K' r = previous_of K r).
  { destruct r as [|q] eqn:Er; [done|]. simpl. unfold K'. rewrite decide_False by lia. done. }
  assert (Ht' : tracks K' KEY_RENEWAL_INTERVAL r (key_tracker d)).
  { unfold tracks. rewrite EK, EP. done. }
  assert (Hrn : K r <> next_id v) by (eapply holds_not_fresh; done).
  destruct (update_key_next K' KEY_RENEWAL_INTERVAL r (key_tracker d) Ht' Hrange')
    as (kt' & Hu & Hkt').
  { rewrite EK, EK'. congruence. }
  { rewrite EK', EP. destruct r as [|q]; [done|]. simpl. intros [= E].
    destruct (Hprev q eq_refl) as [Hq _]. apply (holds_not_fresh _ _ (next_id v)) in Hq; done. }
  rewrite EK' in Hu.
  eexists _, _. split.
  - eapply decrypt_with_key; [done | done | exact Hm | eapply get_key_after; [done | done | lia | done]
      | | | exact Hu].
    + cbv beta iota. rewrite Ht. cbn [current_key]. apply rekey_run; [exact Hc | apply length_chain].
    + rewrite Hint. apply holds_imported.
  - set (v1 := imported v (next_secret (chain s0 r)) Aes256).
    assert (Hn1 : holds v1 (next_id v) (chain s0 (S r)) Aes256) by apply holds_imported.
    assert (Hr1 : holds v1 (K r) (chain s0 r) Aes256) by (apply holds_imported_other; done).
    rewrite EP. split; [split; cbn [nonce_tracker key_tracker]|].
    + done.
    + constructor; [lia | done].
    + exists K'. rewrite interval_highest by lia. rewrite Nat.max_l by (fold r; lia).
      rewrite Hint, EK'. split; [done|]. split.
      * destruct r as [|q]; [done|]. cbn [previous_of]. destruct (Hprev q eq_refl) as [Hq Hne].
        apply holds_delete; [done|]. eapply not_eq_sym, holds_not_fresh; done.
      * intros q [= <-]. rewrite EK. split; [|done].
        destruct r as [|q]; [done|]. cbn [previous_of]. destruct (Hprev q eq_refl) as [Hq Hne].
        apply holds_delete; [done | congruence].
    + destruct r as [|q]; cbn [previous_of]; [by apply known_imported|].
      apply known_delete, known_imported. done.
    + destruct r; simpl; lia.
Qed.

Lemma decrypt_run accepted d v n p :
  dec_inv accepted d v -> acceptable accepted n = true -> (0 <= n <= u64_max)%Z ->
  (Z.of_nat (length p) <= aead_max)%Z -> draws v < N ->
  exists d' v', Decryptor_decrypt (wire s0 n p) (d, v) = (Ok p, (d', v')) /\
    dec_inv (n :: accepted) d' v' /\ draws v' <= S (draws v).
Proof.
  intros Hi Ha Hn Hp Hd.
  destruct (acceptable_interval accepted n Ha ltac:(lia)) as [E | [E | E]].
  - apply (decrypt_held accepted); auto.
  - apply (decrypt_next accepted); auto.
  - apply (decrypt_held accepted); auto.
Qed.

(** What a receiver answers to a sequence of inputs. *)
Fixpoint decrypt_results (inputs : list bytes) (st : Decryptor * Vault)
  : list (result ChannelError bytes) :=
  match inputs with
  | [] => []
  | p :: ps => let '(r, st') := Decryptor_decrypt p st in r :: decrypt_results ps st'
  end.

(** The order in which the messages [0], ..., [len - 1] arrive: some may be lost,
    none arrives twice, none is overtaken by more than the window. *)
Fixpoint valid_schedule (len : nat) (accepted : list Z) (sched : list nat) : bool :=
  match sched with
  | [] => true
  | i :: rest =>
      (i <? len) && acceptable accepted (Z.of_nat i)
      && valid_schedule len (Z.of_nat i :: accepted) rest
  end.

Lemma decrypt_results_run ps sched accepted d v :
  dec_inv accepted d v -> draws v + length sched <= N ->
  Forall (fun p => Z.of_nat (length p) <= aead_max)%Z ps ->
  (Z.of_nat (length ps) <= u64_max)%Z ->
  valid_schedule (length ps) accepted sched = true ->
  decrypt_results (map (fun i => wire s0 (Z.of_nat i) (default [] (ps !! i))) sched) (d, v) =
    map (fun i => Ok (default [] (ps !! i))) sched.
Proof.
  revert accepted d v. induction sched as [|i sched IH]; intros accepted d v Hi Hd Hp Hl Hs; [done|].
  cbn [valid_schedule length] in *. bool_hyps. apply Nat.ltb_lt in H.
  cbn [map decrypt_results].
  destruct (lookup_lt_is_Some_2 ps i H) as [p Ep].
  destruct (decrypt_run accepted d v (Z.of_nat i) (default [] (ps !! i)))
    as (d' & v' & -> & Hi' & Hd'); [done | done | lia | | lia |].
  { rewrite Ep. simpl. rewrite list.Forall_lookup in Hp. eauto. }
  f_equal. apply (IH (Z.of_nat i :: accepted)); [done | lia | done | done | done].
Qed.

End Laws.

(** A sender never uses a nonce twice and never uses the last [u64] value
    (kept for key renewal), whatever it encrypts and whatever fails in between. *)
Theorem encryptor_nonces_unique {C : Crypto} (payloads : list bytes) (e : Encryptor) (v : Vault) :
  (0 <= enc_nonce e <= u64_max)%Z ->
  let nonces := nonces_of (encrypt_all payloads (e, v)).1 in
  NoDup nonces /\ Forall (fun n => enc_nonce e <= n < u64_max)%Z nonces.
Proof. intros He. apply and_comm, encrypt_all_nonces. done. Qed.

Lemma encryptor_nonces_unique_witness :
  let nonces := nonces_of (encrypt_all [str "a"; str "b"; str "c"]
                             (mkEncryptor sample_key (u64_max - 2), sample_vault)).1 in
  NoDup nonces /\ Forall (fun n => u64_max - 2 <= n < u64_max)%Z nonces.
Proof. apply encryptor_nonces_unique. vm_compute. split; congruence. Defined.

(** C6: no message is accepted twice: over any sequence of inputs, forged or
    replayed ones included, the nonces of the messages a receiver decrypts
    successfully are pairwise different. *)
Theorem decryptor_no_replay {C : Crypto} (inputs : list bytes) (key : KeyId) (v : Vault) :
  NoDup (decrypt_all inputs [] (Decryptor_new key, v)).1.
Proof. apply decrypt_all_NoDup; [apply represents_new | constructor]. Qed.

(** An input that does not decrypt leaves the nonce window and the keys of
    the receiver as they were. *)
Theorem decryptor_failure_keeps_state {C : Crypto} (input : bytes) (d d' : Decryptor)
    (v v' : Vault) (r : result ChannelError bytes) :
  Decryptor_decrypt input (d, v) = (r, (d', v')) -> is_ok r = false -> d' = d.
Proof.
  intros E Hr. apply decrypt_cases in E as [(plain & -> & _) | [-> _]]; done.
Qed.

Lemma decryptor_failure_keeps_state_witness :
  let run := Decryptor_decrypt (to_be_bytes 8 31 ++ replicate 20 Byte.x00)
               (Decryptor_new sample_key, sample_vault) in
  is_ok run.1 = false /\ run.2.1 = Decryptor_new sample_key.
Proof.
  cbv zeta. set (input := to_be_bytes 8 31 ++ _). split; [vm_compute; reflexivity|].
  apply (decryptor_failure_keeps_state input _ _ sample_vault
           (Decryptor_decrypt input (Decryptor_new sample_key, sample_vault)).2.2
           (Decryptor_decrypt input (Decryptor_new sample_key, sample_vault)).1).
  - destruct (Decryptor_decrypt input _) as [? []]. reflexivity.
  - vm_compute. reflexivity.
Defined.

(** What the network delivers: the sent messages in the order of a schedule. *)
Definition delivered (sent : list (result ChannelError bytes)) (sched : list nat) : list bytes :=
  map (fun i => match sent !! i with Some (Ok w) => w | _ => [] end) sched.

Lemma delivery_lemma {C : Crypto} {L : CryptoLaws C} (s0 : bytes) (N : nat)
    (ks kr : KeyId) (vs vr : Vault) (ps : list bytes) (sched : list nat) :
  length s0 = 32 -> distinct_ids N ->
  holds vs ks s0 Aes256 -> holds vr kr s0 Aes256 -> known_ids vs -> known_ids vr ->
  Forall (fun p => Z.of_nat (length p) <= aead_max)%Z ps ->
  (Z.of_nat (length ps) <= u64_max)%Z ->
  draws vs + length ps <= N -> draws vr + length sched <= N ->
  valid_schedule (length ps) [] sched = true ->
  decrypt_results
    (delivered (encrypt_all ps (Encryptor_new ks 0, vs)).1 sched) (Decryptor_new kr, vr) =
  map (fun i => Ok (default [] (ps !! i))) sched.
Proof.
  intros Hs0 HN Hks Hkr His Hir Hp Hl Hds Hdr Hv.
  rewrite (encrypt_all_run s0 Hs0 N HN); [|split; done|done|done|done].
  rewrite <- (decrypt_results_run s0 Hs0 N HN ps sched [] (Decryptor_new kr) vr);
    [|by apply dec_inv_new|done..].
  f_equal. unfold delivered. apply map_ext_in. intros i Hin.
  assert (i < length ps) as Hi.
  { clear -Hv Hin. revert Hv Hin. generalize (@nil Z).
    induction sched as [|j sched IH]; intros acc Hv Hin; [done|].
    cbn [valid_schedule] in Hv. bool_hyps. destruct Hin as [-> | Hin].
    - apply Nat.ltb_lt. done.
    - eapply IH; done. }
  destruct (lookup_lt_is_Some_2 ps i Hi) as [p Ep]. rewrite list_lookup_imap, Ep. done.
Qed.

(** C3: the two ends of a channel that start from the same secret stay in step.
    Whatever payloads the sender encrypts, and in whatever order the network
    delivers them within the window, across every key renewal, the receiver
    returns exactly the payloads. *)
Theorem channel_delivery {C : Crypto} {L : CryptoLaws C} (s0 : bytes) (N : nat)
    (ks kr : KeyId) (vs vr : Vault) (ps : list bytes) (sched : list nat) :
  length s0 = 32 -> distinct_ids N ->
  holds vs ks s0 Aes256 -> holds vr kr s0 Aes256 -> known_ids vs -> known_ids vr ->
  Forall (fun p => Z.of_nat (length p) <= aead_max)%Z ps ->
  (Z.of_nat (length ps) <= u64_max)%Z ->
  draws vs + length ps <= N -> draws vr + length sched <= N ->
  valid_schedule (length ps) [] sched = true ->
  decrypt_results
    (delivered (encrypt_all ps (Encryptor_new ks 0, vs)).1 sched) (Decryptor_new kr, vr) =
  map (fun i => Ok (default [] (ps !! i))) sched.
Proof. apply delivery_lemma. Qed.

Definition sample_payloads : list bytes :=
  [str "hello"; str "dear"; str "bob"] ++ replicate 40 (str "x").

(** Out of order, with losses, and across a key renewal. *)
Definition sample_schedule : list nat := [1; 0; 20; 31; 2; 33; 30; 42].

Lemma channel_delivery_witness :
  decrypt_results
    (delivered (encrypt_all sample_payloads (Encryptor_new sample_key 0, sample_vault)).1
       sample_schedule) (Decryptor_new sample_key, sample_vault) =
  map (fun i => Ok (default [] (sample_payloads !! i))) sample_schedule.
Proof.
  apply (channel_delivery sample_secret 64); [reflexivity | apply toy_distinct_ids; lia
    | apply holds_sample | apply holds_sample | apply known_sample | apply known_sample
    | | vm_compute; congruence | vm_compute; lia | vm_compute; lia | vm_compute; reflexivity].
  apply list.Forall_forall. intros p Hp. unfold sample_payloads in Hp.
  apply elem_of_app in Hp as [Hp | Hp].
  - repeat (apply elem_of_cons in Hp as [-> | Hp]; [vm_compute; congruence|]). inversion Hp.
  - apply elem_of_replicate in Hp as [-> _]. vm_compute. congruence.
Defined.

(** A message with a nonce of the next interval that does not decrypt leaves
    the trackers alone but adds a secret to the vault that nothing refers to and
    nothing deletes: each forged message of this kind costs the receiver one. *)
Theorem forged_renewal_leaks_secret :
  let run := Decryptor_decrypt (to_be_bytes 8 32 ++ replicate 16 Byte.x00)
               (Decryptor_new sample_key, sample_vault) in
  is_ok run.1 = false /\ run.2.1 = Decryptor_new sample_key /\
  size (ephemeral_secrets run.2.2) = S (size (ephemeral_secrets sample_vault)) /\
  size (ephemeral_secrets (Decryptor_shutdown run.2).2.2) = 1.
Proof. vm_compute. done. Qed.
