(* ===== verification/Handshake.v ===== *)
(** * The Noise XX handshake (ockam_identity/src/secure_channel/handshake/handshake.rs)

    Each function of [Handshake] works on a copy of the handshake state and
    stores it when it succeeds; the vault is changed as it goes. The state of a
    computation is the pair of the stored handshake state and the vault. *)

From Stdlib Require Import ZArith Lia.
From Stdlib Require Strings.Byte Strings.String.
From stdpp Require Import base gmap list numbers option countable.
From S2P Require Import Prelude RustStr KeyTracker Vault ToyCrypto.

Inductive XXError :=
| InternalVaultError
| MessageLenMismatch
| InvalidInternalState.

Inductive HandshakeError :=
| XXErr (e : XXError)
| HVaultErr (e : VaultError)
(** a key that should have been set *)
| KeyNotSet
(** a state and an event that do not go together *)
| UnexpectedEvent
(** an error of the identities or of the encoding of payloads *)
| IdentityErr (code : nat).

Inductive Role := Initiator | Responder.

Definition is_initiator (r : Role) : bool :=
  match r with
  | Initiator => true
  | Responder => false
  end.

Record HandshakeKeys := mkHandshakeKeys {
  encryption_key : KeyId;
  decryption_key : KeyId
}.

Inductive Status :=
| Initial
| WaitingForMessage1
| WaitingForMessage2
| WaitingForMessage3
| Ready (keys : HandshakeKeys).

Record HandshakeState := mkHandshakeState {
  hs_s : option KeyId;
  hs_e : option KeyId;
  hs_k : option KeyId;
  hs_re : option PublicKey;
  hs_rs : option PublicKey;
  hs_n : Z;
  hs_h : bytes;
  hs_ck : option KeyId;
  hs_status : Status
}.

(** Assignments to one field. *)
Definition set_h (h : bytes) (st : HandshakeState) : HandshakeState :=
  mkHandshakeState (hs_s st) (hs_e st) (hs_k st) (hs_re st) (hs_rs st) (hs_n st) h (hs_ck st)
    (hs_status st).
Definition set_k (k : option KeyId) (st : HandshakeState) : HandshakeState :=
  mkHandshakeState (hs_s st) (hs_e st) k (hs_re st) (hs_rs st) (hs_n st) (hs_h st) (hs_ck st)
    (hs_status st).
Definition set_ck (ck : option KeyId) (st : HandshakeState) : HandshakeState :=
  mkHandshakeState (hs_s st) (hs_e st) (hs_k st) (hs_re st) (hs_rs st) (hs_n st) (hs_h st) ck
    (hs_status st).
Definition set_n (n : Z) (st : HandshakeState) : HandshakeState :=
  mkHandshakeState (hs_s st) (hs_e st) (hs_k st) (hs_re st) (hs_rs st) n (hs_h st) (hs_ck st)
    (hs_status st).
Definition set_re (re : option PublicKey) (st : HandshakeState) : HandshakeState :=
  mkHandshakeState (hs_s st) (hs_e st) (hs_k st) re (hs_rs st) (hs_n st) (hs_h st) (hs_ck st)
    (hs_status st).
Definition set_rs (rs : option PublicKey) (st : HandshakeState) : HandshakeState :=
  mkHandshakeState (hs_s st) (hs_e st) (hs_k st) (hs_re st) rs (hs_n st) (hs_h st) (hs_ck st)
    (hs_status st).
Definition set_status (s : Status) (st : HandshakeState) : HandshakeState :=
  mkHandshakeState (hs_s st) (hs_e st) (hs_k st) (hs_re st) (hs_rs st) (hs_n st) (hs_h st)
    (hs_ck st) s.
Definition clear_s (st : HandshakeState) : HandshakeState :=
  mkHandshakeState None (hs_e st) (hs_k st) (hs_re st) (hs_rs st) (hs_n st) (hs_h st) (hs_ck st)
    (hs_status st).
Definition clear_e (st : HandshakeState) : HandshakeState :=
  mkHandshakeState (hs_s st) None (hs_k st) (hs_re st) (hs_rs st) (hs_n st) (hs_h st) (hs_ck st)
    (hs_status st).

Notation hs_m := (stm (HandshakeState * Vault) HandshakeError).

Definition hs_vault {X A} (m : stm Vault VaultError A) : stm (X * Vault) HandshakeError A :=
  fun '(x, v) => let '(r, v') := m v in (map_err HVaultErr r, (x, v')).

Definition load_state : hs_m HandshakeState := fun '(st, v) => (Ok st, (st, v)).
Definition store_state (st : HandshakeState) : hs_m unit := fun '(_, v) => (Ok tt, (st, v)).

(** The accessors [s()], [e()], [k()], [ck()], [re()], [rs()] and the [take_]
    functions of [HandshakeState]: an error when the field is not set. *)
Definition set_or_error {A} (o : option A) : hs_m A := slift (ok_or o KeyNotSet).

Definition HandshakeState_new (s e : KeyId) : HandshakeState :=
  mkHandshakeState (Some s) (Some e) None None None 0 (replicate 32 Byte.x00) None Initial.

Definition SHA256_SIZE : Z := 32.
Definition AES_GCM_TAGSIZE : nat := 16.

(** [b"Noise_XX_25519_AESGCM_SHA256\0\0\0\0"] *)
Definition protocol_name : bytes := str "Noise_XX_25519_AESGCM_SHA256" ++ replicate 4 Byte.x00.

Definition ck_attributes : SecretAttributes := Buffer SHA256_SIZE.
Definition k_attributes : SecretAttributes := Aes256.

Definition key_size : nat := 32.
Definition encrypted_key_size : nat := key_size + AES_GCM_TAGSIZE.

Definition read_start (message : bytes) (len : nat) : result HandshakeError bytes :=
  if length message <? len then Err (XXErr MessageLenMismatch) else slice message 0 len.

Definition read_end (message : bytes) (drop_length : nat) : result HandshakeError bytes :=
  if length message <? drop_length then Err (XXErr MessageLenMismatch)
  else slice_from message drop_length.

Definition read_middle (message : bytes) (drop_length len : nat) : result HandshakeError bytes :=
  if length message <? drop_length + len then Err (XXErr MessageLenMismatch)
  else slice message drop_length (drop_length + len).

Definition read_key (message : bytes) : result HandshakeError bytes :=
  read_start message key_size.
Definition read_message1_payload (message : bytes) : result HandshakeError bytes :=
  read_end message key_size.
Definition read_message2_encrypted_key (message : bytes) : result HandshakeError bytes :=
  read_middle message key_size encrypted_key_size.
Definition read_message2_payload (message : bytes) : result HandshakeError bytes :=
  read_end message (key_size + encrypted_key_size).
Definition read_message3_encrypted_key (message : bytes) : result HandshakeError bytes :=
  read_start message encrypted_key_size.
Definition read_message3_payload (message : bytes) : result HandshakeError bytes :=
  read_end message encrypted_key_size.

Section Ops.
Context {C : Crypto}.

Definition mix_hash (data : bytes) (st : HandshakeState) : HandshakeState :=
  set_h (sha256_digest (hs_h st ++ data)) st.

(** [Handshake::new], with the generation of the ephemeral key *)
Definition Handshake_new (static_key : KeyId) : stm Vault VaultError HandshakeState :=
  let! ephemeral_key := create_ephemeral_secret X25519 in
  sret (HandshakeState_new static_key ephemeral_key).

Definition initialize : hs_m unit :=
  let! st := load_state in
  let st := set_h protocol_name st in
  let! k := hs_vault (import_ephemeral_secret (replicate 32 Byte.x00) k_attributes) in
  let st := set_k (Some k) st in
  let! ck := hs_vault (import_ephemeral_secret protocol_name ck_attributes) in
  let st := set_ck (Some ck) st in
  let st := set_h (sha256_digest (hs_h st)) st in
  store_state st.

Definition hs_dh (key_id : KeyId) (pk : PublicKey) : hs_m KeyId :=
  hs_vault (ec_diffie_hellman key_id pk).

(** [Handshake::hkdf] on the local copy of the state *)
Definition hs_hkdf (st : HandshakeState) (dh : KeyId) : hs_m HandshakeState :=
  let! ck := set_or_error (hs_ck st) in
  let! out := hs_vault (hkdf_sha256 ck [] (Some dh) [ck_attributes; k_attributes]) in
  let! _ := hs_vault (delete_ephemeral_secret dh) in
  match out with
  | [new_ck; new_k] =>
      let! old_ck := set_or_error (hs_ck st) in
      let st := set_ck (Some new_ck) st in
      let! _ := hs_vault (delete_ephemeral_secret old_ck) in
      let! old_k := set_or_error (hs_k st) in
      let st := set_k (Some new_k) st in
      let! _ := hs_vault (delete_ephemeral_secret old_k) in
      sret (set_n 0 st)
  | _ => serr (XXErr InternalVaultError)
  end.

Definition compute_final_keys (st : HandshakeState) : hs_m (HandshakeState * (KeyId * KeyId)) :=
  let! ck := set_or_error (hs_ck st) in
  let! out := hs_vault (hkdf_sha256 ck [] None [k_attributes; k_attributes]) in
  match out with
  | [k1; k2] =>
      let! old_ck := set_or_error (hs_ck st) in
      let st := set_ck None st in
      let! _ := hs_vault (delete_ephemeral_secret old_ck) in
      let! old_k := set_or_error (hs_k st) in
      let st := set_k None st in
      let! _ := hs_vault (delete_ephemeral_secret old_k) in
      sret (st, (k1, k2))
  | _ => serr (XXErr InternalVaultError)
  end.

(** The AES-GCM nonce made of the message counter. *)
Definition hs_nonce (n : Z) : bytes := replicate 4 Byte.x00 ++ to_be_bytes 8 n.

Definition hash_and_decrypt (st : HandshakeState) (c : bytes) : hs_m (HandshakeState * bytes) :=
  let! k := set_or_error (hs_k st) in
  let! p := hs_vault (aead_aes_gcm_decrypt k c (hs_nonce (hs_n st)) (hs_h st)) in
  let st := mix_hash c st in
  sret (set_n (hs_n st + 1) st, p).

Definition encrypt_and_hash (st : HandshakeState) (p : bytes) : hs_m (HandshakeState * bytes) :=
  let! k := set_or_error (hs_k st) in
  let! c := hs_vault (aead_aes_gcm_encrypt k p (hs_nonce (hs_n st)) (hs_h st)) in
  let st := mix_hash c st in
  sret (set_n (hs_n st + 1) st, c).

Definition encode_message1 (payload : bytes) : hs_m bytes :=
  let! st := load_state in
  let! e := set_or_error (hs_e st) in
  let! e_pub_key := hs_vault (get_public_key e) in
  let st := mix_hash (pk_data e_pub_key) st in
  let message := pk_data e_pub_key ++ payload in
  let st := mix_hash payload st in
  let! _ := store_state st in
  sret message.

Definition decode_message1 (message : bytes) : hs_m bytes :=
  let! st := load_state in
  let! key := slift (read_key message) in
  let st := mix_hash key st in
  let st := set_re (Some (mkPublicKey key TX25519)) st in
  let! payload := slift (read_message1_payload message) in
  let st := mix_hash payload st in
  let! _ := store_state st in
  sret payload.

Definition encode_message2 (payload : bytes) : hs_m bytes :=
  let! st := load_state in
  let! e := set_or_error (hs_e st) in
  let! e_pub_key := hs_vault (get_public_key e) in
  let st := mix_hash (pk_data e_pub_key) st in
  let message2 := pk_data e_pub_key in
  let! re := set_or_error (hs_re st) in
  let! dh := hs_dh e re in
  let! st := hs_hkdf st dh in
  let! s := set_or_error (hs_s st) in
  let! s_pub_key := hs_vault (get_public_key s) in
  let! (st, c) := encrypt_and_hash st (pk_data s_pub_key) in
  let message2 := message2 ++ c in
  let! dh := hs_dh s re in
  let! st := hs_hkdf st dh in
  let! (st, c) := encrypt_and_hash st payload in
  let message2 := message2 ++ c in
  let! _ := store_state st in
  sret message2.

Definition decode_message2 (message : bytes) : hs_m bytes :=
  let! st := load_state in
  let! re_pub_key := slift (read_key message) in
  let re := mkPublicKey re_pub_key TX25519 in
  let st := set_re (Some re) st in
  let st := mix_hash re_pub_key st in
  let! e := set_or_error (hs_e st) in
  let! dh := hs_dh e re in
  let! st := hs_hkdf st dh in
  let! rs_pub_key := slift (read_message2_encrypted_key message) in
  let! (st, p) := hash_and_decrypt st rs_pub_key in
  let rs := mkPublicKey p TX25519 in
  let st := set_rs (Some rs) st in
  let! e := set_or_error (hs_e st) in
  let! dh := hs_dh e rs in
  let! st := hs_hkdf st dh in
  let! c := slift (read_message2_payload message) in
  let! (st, payload) := hash_and_decrypt st c in
  let! _ := store_state st in
  sret payload.

Definition encode_message3 (payload : bytes) : hs_m bytes :=
  let! st := load_state in
  let! s := set_or_error (hs_s st) in
  let! s_pub_key := hs_vault (get_public_key s) in
  let! (st, c) := encrypt_and_hash st (pk_data s_pub_key) in
  let message3 := c in
  let! re := set_or_error (hs_re st) in
  let! dh := hs_dh s re in
  let! st := hs_hkdf st dh in
  let! (st, c) := encrypt_and_hash st payload in
  let message3 := message3 ++ c in
  let! _ := store_state st in
  sret message3.

Definition decode_message3 (message : bytes) : hs_m bytes :=
  let! st := load_state in
  let! rs_pub_key := slift (read_message3_encrypted_key message) in
  let! (st, p) := hash_and_decrypt st rs_pub_key in
  let rs := mkPublicKey p TX25519 in
  let st := set_rs (Some rs) st in
  let! e := set_or_error (hs_e st) in
  let! dh := hs_dh e rs in
  let! st := hs_hkdf st dh in
  let! c := slift (read_message3_payload message) in
  let! (st, payload) := hash_and_decrypt st c in
  let! _ := store_state st in
  sret payload.

Definition delete_handshake_keys : hs_m unit :=
  let! st := load_state in
  let! s := set_or_error (hs_s st) in
  let! _ := store_state (clear_s st) in
  let! st := load_state in
  let! e := set_or_error (hs_e st) in
  let! _ := store_state (clear_e st) in
  let! _ := hs_vault (delete_ephemeral_secret s) in
  let! _ := hs_vault (delete_ephemeral_secret e) in
  sret tt.

Definition set_final_state (role : Role) : hs_m unit :=
  let! st := load_state in
  let! (st, (k1, k2)) := compute_final_keys st in
  let keys := if is_initiator role then mkHandshakeKeys k2 k1 else mkHandshakeKeys k1 k2 in
  let st := set_status (Ready keys) st in
  let! _ := store_state st in
  delete_handshake_keys.

Definition get_handshake_keys (st : HandshakeState) : option HandshakeKeys :=
  match hs_status st with
  | Ready keys => Some keys
  | _ => None
  end.

End Ops.

(** * Properties *)

Section Run.
Context {C : Crypto} {L : CryptoLaws C}.
Variable N : nat.
Hypothesis HN : distinct_ids N.

(** What the state of one party stands for: its secrets [s], [e], the chaining
    key [ck], the key [k], the transcript hash and the counter. *)
Record view (st : HandshakeState) (v : Vault) (s e ck k h : bytes) (n : Z) : Prop := {
  vw_s : exists i, hs_s st = Some i /\ holds v i s X25519;
  vw_e : exists i, hs_e st = Some i /\ holds v i e X25519;
  vw_k : exists i, hs_k st = Some i /\ holds v i k Aes256;
  vw_ck : exists i, hs_ck st = Some i /\ holds v i ck (Buffer 32);
  vw_h : hs_h st = h;
  vw_n : hs_n st = n;
  vw_ids : known_ids v;
  vw_len : length s = 32 /\ length e = 32 /\ length k = 32
}.

(** The fields that the cryptographic steps leave alone. *)
Definition same_rest (st st' : HandshakeState) : Prop :=
  hs_s st' = hs_s st /\ hs_e st' = hs_e st /\ hs_re st' = hs_re st /\ hs_rs st' = hs_rs st /\
  hs_status st' = hs_status st.

Lemma view_fields st st' v s e ck k h n :
  view st v s e ck k h n ->
  hs_s st' = hs_s st -> hs_e st' = hs_e st -> hs_k st' = hs_k st -> hs_ck st' = hs_ck st ->
  view st' v s e ck k (hs_h st') (hs_n st').
Proof.
  intros [Hs He Hk Hck Hh Hn Hi Hl] E1 E2 E3 E4.
  split; rewrite ?E1, ?E2, ?E3, ?E4; done.
Qed.

(** Deleting what is no longer needed keeps what is. *)
Definition without (v : Vault) (k : KeyId) : Vault :=
  mkVault (delete k (ephemeral_secrets v)) (storage v) (draws v).

Lemma holds_without v k k' s a : holds v k s a -> k <> k' -> holds (without v k') k s a.
Proof. apply holds_delete. Qed.

Section Rotate.
Variables (v : Vault) (dh ck k : bytes) (kc kk : KeyId).

(** The vault when the shared secret and the two derived secrets are in it, and
    when the shared secret and the old ones are gone. *)
Definition with_dh : Vault := imported v dh (Buffer 32).
Definition with_ck : Vault := imported with_dh ck (Buffer 32).
Definition with_k : Vault := imported with_ck k Aes256.
Definition rotated : Vault := without (without (without with_k (next_id v)) kc) kk.

Hypothesis Hids : known_ids v.
Hypothesis Hd : draws v + 3 <= N.

Lemma rotate_known : known_ids with_dh /\ known_ids with_ck /\ known_ids with_k.
Proof. split_and!; repeat apply known_imported; done. Qed.

Lemma rotate_fresh :
  ephemeral_secrets v !! next_id v = None /\
  ephemeral_secrets with_dh !! next_id with_dh = None /\
  ephemeral_secrets with_ck !! next_id with_ck = None.
Proof.
  destruct rotate_known as (H1 & H2 & _).
  split_and!; apply (next_id_fresh N); try done; simpl; lia.
Qed.

(** What was held before is held with the new secrets, under other identifiers. *)
Lemma rotate_keeps j t a :
  holds v j t a ->
  holds with_dh j t a /\ holds with_k j t a /\
  j <> next_id v /\ j <> next_id with_dh /\ j <> next_id with_ck.
Proof.
  intros Hj. destruct rotate_fresh as (F0 & F1 & F2).
  assert (j <> next_id v) by (eapply holds_not_fresh; done).
  assert (holds with_dh j t a) by (apply holds_imported_other; done).
  assert (j <> next_id with_dh) by (eapply holds_not_fresh; done).
  assert (holds with_ck j t a) by (apply holds_imported_other; done).
  assert (j <> next_id with_ck) by (eapply holds_not_fresh; done).
  split_and!; try done. apply holds_imported_other; done.
Qed.

Lemma rotate_new :
  holds with_k (next_id with_dh) ck (Buffer 32) /\ holds with_k (next_id with_ck) k Aes256 /\
  next_id v <> next_id with_dh /\ next_id v <> next_id with_ck /\
  next_id with_dh <> next_id with_ck.
Proof.
  destruct rotate_fresh as (F0 & F1 & F2).
  assert (H1 : holds with_dh (next_id v) dh (Buffer 32)) by apply holds_imported.
  assert (N01 : next_id v <> next_id with_dh) by (eapply holds_not_fresh; done).
  assert (H2 : holds with_ck (next_id v) dh (Buffer 32)) by (apply holds_imported_other; done).
  assert (Hc2 : holds with_ck (next_id with_dh) ck (Buffer 32)) by apply holds_imported.
  assert (N12 : next_id with_dh <> next_id with_ck) by (eapply holds_not_fresh; done).
  split_and!; try done.
  - apply holds_imported_other; done.
  - apply holds_imported.
  - eapply holds_not_fresh; done.
Qed.

Lemma rotate_spec ck0 k0 :
  holds v kc ck0 (Buffer 32) -> holds v kk k0 Aes256 ->
  known_ids rotated /\ draws rotated = draws v + 3 /\
  holds rotated (next_id with_dh) ck (Buffer 32) /\ holds rotated (next_id with_ck) k Aes256 /\
  (forall j t, holds v j t X25519 -> holds rotated j t X25519).
Proof.
  intros Hc Hk. destruct rotate_new as (Hc3 & Hk3 & N01 & N02 & N12).
  destruct (rotate_keeps _ _ _ Hc) as (_ & _ & C0 & C1 & C2).
  destruct (rotate_keeps _ _ _ Hk) as (_ & _ & K0 & K1 & K2).
  split_and!.
  - do 3 apply known_delete. apply rotate_known.
  - simpl. lia.
  - do 3 (apply holds_without; [|congruence]). done.
  - do 3 (apply holds_without; [|congruence]). done.
  - intros j t Hj. destruct (rotate_keeps _ _ _ Hj) as (_ & Hj3 & J0 & _ & _).
    apply holds_without; [|by apply (holds_attr_ne _ _ _ _ _ _ _ Hj Hk)].
    apply holds_without; [|by apply (holds_attr_ne _ _ _ _ _ _ _ Hj Hc)].
    apply holds_without; done.
Qed.

End Rotate.

(** A Diffie-Hellman step: the shared secret is mixed into the chaining key and
    the key, and the old ones leave the vault. *)
Lemma mix_dh_run st v s e ck k h n i sk pk :
  view st v s e ck k h n -> holds v i sk X25519 -> length sk = 32 -> length (pk_data pk) = 32 ->
  draws v + 3 <= N ->
  let kd := kdf2 ck (x25519 sk (pk_data pk)) in
  exists st' v', view st' v' s e kd.1 kd.2 h 0 /\ same_rest st st' /\
    draws v' = draws v + 3 /\
    forall x B (F : HandshakeState -> hs_m B),
      sbind (hs_dh i pk) (fun dh => sbind (hs_hkdf st dh) F) (x, v) = F st' (x, v').
Proof.
  intros [(ks & Es & Hs) (ke & Ee & He) (kk & Ek & Hk) (kc & Ec & Hc) Hh Hn Hids (Ls & Le & Lk)]
    Hi Lsk Lpk Hd kd.
  set (dh := x25519 sk (pk_data pk)) in *.
  destruct (rotate_spec v dh kd.1 kd.2 kc kk Hids Hd ck k Hc Hk) as (R1 & R2 & R3 & R4 & R5).
  exists (set_n 0 (set_k (Some (next_id (with_ck v dh kd.1))) (set_ck (Some (next_id (with_dh v dh))) st))),
    (rotated v dh kd.1 kd.2 kc kk).
  destruct (kdf2_spec ck dh) as (_ & _ & _ & _ & _ & L2).
  split_and!; try done.
  - split; simpl; eauto.
  - intros x B F. unfold hs_dh. erewrite sbind_run.
    2:{ unfold hs_vault. rewrite (ecdh_run v i sk pk) by done. done. }
    erewrite sbind_run; [done|]. unfold hs_hkdf, set_or_error. rewrite Ec.
    erewrite sbind_run by done. erewrite sbind_run.
    2:{ unfold hs_vault.
        rewrite (hkdf_run (with_dh v dh) kc ck (Some (next_id v)) dh (Buffer 32) Aes256);
          [done| | by left | by right | apply holds_imported].
        apply (rotate_keeps v dh kd.1 kd.2 Hids Hd). done. }
    erewrite sbind_run by done. cbv beta iota.
    erewrite sbind_run by done. erewrite sbind_run by done.
    cbn [hs_k set_ck]. rewrite Ek. erewrite sbind_run by done. erewrite sbind_run by done. done.
Qed.

Definition mixed (h data : bytes) : bytes := sha256_digest (h ++ data).

Lemma length_hs_nonce n : length (hs_nonce n) = 12.
Proof. unfold hs_nonce. rewrite length_app, length_replicate, length_to_be_bytes. done. Qed.

(** Encrypting and decrypting a part of a message move both parties alike. *)
Lemma seal_run st v s e ck k h n p :
  view st v s e ck k h n -> (Z.of_nat (length p) <= aead_max)%Z ->
  exists c st', aes256_decrypt k (hs_nonce n) h c = Some p /\ length c = length p + 16 /\
    view st' v s e ck k (mixed h c) (n + 1) /\ same_rest st st' /\
    forall x, encrypt_and_hash st p (x, v) = (Ok (st', c), (x, v)).
Proof.
  intros Hv Hp. pose proof Hv as [_ _ (kk & Ek & Hk) _ Hh Hn _ (_ & _ & Lk)].
  destruct (aes256_roundtrip k (hs_nonce n) h p Lk (length_hs_nonce n) Hp) as (c & Ec & Hl & Ed).
  exists c, (set_n (hs_n (mix_hash c st) + 1) (mix_hash c st)). split_and!; try done.
  - unfold mixed. rewrite <- Hh, <- Hn.
    exact (view_fields st (set_n (hs_n (mix_hash c st) + 1) (mix_hash c st)) v s e ck k h n Hv
             eq_refl eq_refl eq_refl eq_refl).
  - intros x. unfold encrypt_and_hash, set_or_error. rewrite Ek. erewrite sbind_run by done.
    erewrite sbind_run; [done|]. unfold hs_vault.
    rewrite (aead_encrypt_run v kk k) by (done || apply length_hs_nonce).
    rewrite Hh, Hn, Ec. done.
Qed.

Lemma open_run st v s e ck k h n c p :
  view st v s e ck k h n -> aes256_decrypt k (hs_nonce n) h c = Some p ->
  exists st', view st' v s e ck k (mixed h c) (n + 1) /\ same_rest st st' /\
    forall x, hash_and_decrypt st c (x, v) = (Ok (st', p), (x, v)).
Proof.
  intros Hv Ed. pose proof Hv as [_ _ (kk & Ek & Hk) _ Hh Hn _ (_ & _ & Lk)].
  exists (set_n (hs_n (mix_hash c st) + 1) (mix_hash c st)). split_and!; try done.
  - unfold mixed. rewrite <- Hh, <- Hn.
    exact (view_fields st (set_n (hs_n (mix_hash c st) + 1) (mix_hash c st)) v s e ck k h n Hv
             eq_refl eq_refl eq_refl eq_refl).
  - intros x. unfold hash_and_decrypt, set_or_error. rewrite Ek. erewrite sbind_run by done.
    erewrite sbind_run; [done|]. unfold hs_vault.
    rewrite (aead_decrypt_run v kk k) by (done || apply length_hs_nonce).
    rewrite Hh, Hn, Ed. done.
Qed.

(** The start of a handshake. *)
Lemma initialize_run v ks ke s e :
  holds v ks s X25519 -> holds v ke e X25519 -> length s = 32 -> length e = 32 ->
  known_ids v -> draws v + 2 <= N ->
  exists st v', initialize (HandshakeState_new ks ke, v) = (Ok tt, (st, v')) /\
    view st v' s e protocol_name (replicate 32 Byte.x00) (sha256_digest protocol_name) 0 /\
    same_rest (HandshakeState_new ks ke) st /\ draws v' = draws v + 2.
Proof.
  intros Hs He Ls Le Hids Hd.
  set (v1 := imported v (replicate 32 Byte.x00) Aes256).
  pose proof (known_imported v (replicate 32 Byte.x00) Aes256 Hids) as Hids1. fold v1 in Hids1.
  pose proof (next_id_fresh N v HN Hids ltac:(lia)) as F0.
  pose proof (next_id_fresh N v1 HN Hids1 ltac:(simpl; lia)) as F1.
  assert (Hkeep : forall j t, holds v j t X25519 ->
            holds (imported v1 protocol_name (Buffer 32)) j t X25519).
  { intros j t Hj. assert (holds v1 j t X25519).
    { apply holds_imported_other; [done|]. eapply holds_not_fresh; done. }
    apply holds_imported_other; [done|]. eapply holds_not_fresh; done. }
  assert (Hk1 : holds v1 (next_id v) (replicate 32 Byte.x00) Aes256) by apply holds_imported.
  eexists _, (imported v1 protocol_name (Buffer 32)). split.
  { unfold initialize. erewrite sbind_run by done. erewrite sbind_run.
    2:{ unfold hs_vault. rewrite import_run; [done | by right | done]. }
    erewrite sbind_run.
    2:{ unfold hs_vault. rewrite import_run; [done | by left | done]. }
    done. }
  split_and!; try done.
  - split; simpl; eauto using known_imported.
    + eexists. split; [done|]. apply holds_imported_other; [done|].
      eapply holds_not_fresh; done.
    + eexists. split; [done|]. apply holds_imported.
  - simpl. lia.
Qed.

Lemma mix_view st v s e ck k h n data :
  view st v s e ck k h n -> view (mix_hash data st) v s e ck k (mixed h data) n.
Proof.
  intros Hv. pose proof (vw_h _ _ _ _ _ _ _ _ Hv) as Hh. pose proof (vw_n _ _ _ _ _ _ _ _ Hv) as Hn.
  unfold mixed. rewrite <- Hh, <- Hn.
  exact (view_fields st (mix_hash data st) v s e ck k h n Hv eq_refl eq_refl eq_refl eq_refl).
Qed.

Lemma re_view st v s e ck k h n re :
  view st v s e ck k h n -> view (set_re re st) v s e ck k h n.
Proof.
  intros Hv. pose proof (vw_h _ _ _ _ _ _ _ _ Hv) as Hh. pose proof (vw_n _ _ _ _ _ _ _ _ Hv) as Hn.
  rewrite <- Hh, <- Hn.
  exact (view_fields st (set_re re st) v s e ck k h n Hv eq_refl eq_refl eq_refl eq_refl).
Qed.

Lemma rs_view st v s e ck k h n rs :
  view st v s e ck k h n -> view (set_rs rs st) v s e ck k h n.
Proof.
  intros Hv. pose proof (vw_h _ _ _ _ _ _ _ _ Hv) as Hh. pose proof (vw_n _ _ _ _ _ _ _ _ Hv) as Hn.
  rewrite <- Hh, <- Hn.
  exact (view_fields st (set_rs rs st) v s e ck k h n Hv eq_refl eq_refl eq_refl eq_refl).
Qed.

(** Reading the parts of a message back. *)
Lemma read_start_app a b n : length a = n -> read_start (a ++ b) n = Ok a.
Proof.
  intros <-. unfold read_start. rewrite length_app.
  destruct (Nat.ltb_spec (length a + length b) (length a)); [lia|].
  rewrite slice_ok by (rewrite ?length_app; lia).
  rewrite Nat.sub_0_r, drop_0, take_app_length. done.
Qed.

Lemma read_end_app a b n : length a = n -> read_end (a ++ b) n = Ok b.
Proof.
  intros <-. unfold read_end. rewrite length_app.
  destruct (Nat.ltb_spec (length a + length b) (length a)); [lia|].
  rewrite slice_from_ok by (rewrite length_app; lia). rewrite drop_app_length. done.
Qed.

Lemma read_middle_app a b c n m :
  length a = n -> length b = m -> read_middle ((a ++ b) ++ c) n m = Ok b.
Proof.
  intros <- <-. unfold read_middle. rewrite !length_app.
  destruct (Nat.ltb_spec (length a + length b + length c) (length a + length b)); [lia|].
  rewrite slice_ok by (rewrite ?length_app; lia).
  rewrite <- app_assoc, drop_app_length.
  replace (length a + length b - length a) with (length b) by lia. rewrite take_app_length. done.
Qed.

(** Public keys of the own secrets. *)
Lemma own_public_key_run v i s :
  holds v i s X25519 -> length s = 32 ->
  forall x : HandshakeState,
    hs_vault (get_public_key i) (x, v) = (Ok (mkPublicKey (x25519_public s) TX25519), (x, v)).
Proof.
  intros Hi Hs x. unfold hs_vault. rewrite (public_key_run v i s) by done. done.
Qed.

Lemma public_bound s : (Z.of_nat (length (x25519_public s)) <= aead_max)%Z.
Proof. rewrite x25519_public_length. vm_compute. congruence. Qed.

Lemma encode_message1_run st v s e ck k h n p :
  view st v s e ck k h n ->
  exists st', encode_message1 p (st, v) = (Ok (x25519_public e ++ p), (st', v)) /\
    view st' v s e ck k (mixed (mixed h (x25519_public e)) p) n /\ same_rest st st'.
Proof.
  intros Hv. pose proof Hv as [_ (ke & Ee & He) _ _ _ _ _ (_ & Le & _)].
  eexists. split; [|split].
  - unfold encode_message1. erewrite sbind_run by done. unfold set_or_error. rewrite Ee.
    erewrite sbind_run by done. erewrite sbind_run by (apply own_public_key_run; done).
    erewrite sbind_run by done. done.
  - apply mix_view, mix_view. done.
  - done.
Qed.

Lemma decode_message1_run st v s e ck k h n pub p :
  view st v s e ck k h n -> length pub = 32 ->
  exists st', decode_message1 (pub ++ p) (st, v) = (Ok p, (st', v)) /\
    view st' v s e ck k (mixed (mixed h pub) p) n /\
    same_rest (set_re (Some (mkPublicKey pub TX25519)) st) st'.
Proof.
  intros Hv Hl. eexists. split; [|split].
  - unfold decode_message1, read_key, read_message1_payload. erewrite sbind_run by done.
    erewrite sbind_run by (unfold slift; rewrite read_start_app by done; done).
    erewrite sbind_run by (unfold slift; rewrite read_end_app by done; done).
    erewrite sbind_run by done. done.
  - apply mix_view, re_view, mix_view. done.
  - done.
Qed.

(** Message 2: the two encrypted parts and the state both parties reach. *)
Definition message2_parts (ck h dh1 dh2 pub_e pub_s p c1 c2 ck' k' h' : bytes) : Prop :=
  let kd1 := kdf2 ck dh1 in
  let h1 := mixed h pub_e in
  let kd2 := kdf2 kd1.1 dh2 in
  length c1 = 48 /\ aes256_decrypt kd1.2 (hs_nonce 0) h1 c1 = Some pub_s /\
  aes256_decrypt kd2.2 (hs_nonce 0) (mixed h1 c1) c2 = Some p /\
  ck' = kd2.1 /\ k' = kd2.2 /\ h' = mixed (mixed h1 c1) c2.

Lemma encode_message2_run st v s e ck k h n re p :
  view st v s e ck k h n -> hs_re st = Some re -> length (pk_data re) = 32 ->
  draws v + 6 <= N -> (Z.of_nat (length p) <= aead_max)%Z ->
  exists c1 c2 ck' k' h' st' v',
    encode_message2 p (st, v) = (Ok ((x25519_public e ++ c1) ++ c2), (st', v')) /\
    message2_parts ck h (x25519 e (pk_data re)) (x25519 s (pk_data re)) (x25519_public e)
      (x25519_public s) p c1 c2 ck' k' h' /\
    view st' v' s e ck' k' h' 1 /\ same_rest st st' /\ draws v' = draws v + 6.
Proof.
  intros Hv Hre Lre Hd Hp. pose proof Hv as [_ (ke & Ee & He) _ _ _ _ _ (Ls & Le & _)].
  apply (mix_view _ _ _ _ _ _ _ _ (x25519_public e)) in Hv.
  destruct (mix_dh_run _ _ _ _ _ _ _ _ ke e re Hv He Le Lre ltac:(lia))
    as (st1 & v1 & V1 & R1 & D1 & Run1).
  pose proof V1 as [(ks & Es & Hs) _ _ _ _ _ _ _].
  destruct (seal_run _ _ _ _ _ _ _ _ (x25519_public s) V1 (public_bound s))
    as (c1 & st2 & Dec1 & Lc1 & V2 & R2 & Run2).
  destruct (mix_dh_run _ _ _ _ _ _ _ _ ks s re V2 Hs Ls Lre ltac:(lia))
    as (st3 & v3 & V3 & R3 & D3 & Run3).
  destruct (seal_run _ _ _ _ _ _ _ _ p V3 Hp) as (c2 & st4 & Dec2 & Lc2 & V4 & R4 & Run4).
  exists c1, c2. do 3 eexists. exists st4, v3. split_and!.
  - unfold encode_message2. erewrite sbind_run by done. unfold set_or_error at 1. rewrite Ee.
    erewrite sbind_run by done. erewrite sbind_run by (apply own_public_key_run; done).
    cbn [pk_data]. unfold set_or_error at 1. change (hs_re (mix_hash _ st)) with (hs_re st).
    rewrite Hre. erewrite sbind_run by done. rewrite Run1. unfold set_or_error at 1.
    rewrite Es. erewrite sbind_run by done.
    erewrite sbind_run by (apply own_public_key_run; done).
    erewrite sbind_run by apply Run2. cbv beta iota. rewrite Run3.
    erewrite sbind_run by apply Run4. cbv beta iota. erewrite sbind_run by done. done.
  - rewrite x25519_public_length in Lc1. split_and!; done.
  - exact V4.
  - unfold same_rest in *. simpl in *. naive_solver congruence.
  - lia.
Qed.

Lemma decode_message2_run st v s e ck k h n pub_e pub_s p c1 c2 ck' k' h' :
  view st v s e ck k h n -> length pub_e = 32 -> length pub_s = 32 -> draws v + 6 <= N ->
  message2_parts ck h (x25519 e pub_e) (x25519 e pub_s) pub_e pub_s p c1 c2 ck' k' h' ->
  exists st' v',
    decode_message2 ((pub_e ++ c1) ++ c2) (st, v) = (Ok p, (st', v')) /\
    view st' v' s e ck' k' h' 1 /\
    same_rest (set_rs (Some (mkPublicKey pub_s TX25519))
                 (set_re (Some (mkPublicKey pub_e TX25519)) st)) st' /\
    draws v' = draws v + 6.
Proof.
  intros Hv Lpe Lps Hd (Lc1 & Dec1 & Dec2 & -> & -> & ->).
  pose proof Hv as [_ (ke & Ee & He) _ _ _ _ _ (Ls & Le & _)].
  apply (re_view _ _ _ _ _ _ _ _ (Some (mkPublicKey pub_e TX25519))) in Hv.
  apply (mix_view _ _ _ _ _ _ _ _ pub_e) in Hv.
  destruct (mix_dh_run _ _ _ _ _ _ _ _ ke e (mkPublicKey pub_e TX25519) Hv He Le Lpe ltac:(lia))
    as (st1 & v1 & V1 & R1 & D1 & Run1).
  destruct (open_run _ _ _ _ _ _ _ _ c1 pub_s V1 Dec1) as (st2 & V2 & R2 & Run2).
  apply (rs_view _ _ _ _ _ _ _ _ (Some (mkPublicKey pub_s TX25519))) in V2.
  pose proof V2 as [_ (ke2 & Ee2 & He2) _ _ _ _ _ _].
  destruct (mix_dh_run _ _ _ _ _ _ _ _ ke2 e (mkPublicKey pub_s TX25519) V2 He2 Le Lps ltac:(lia))
    as (st3 & v3 & V3 & R3 & D3 & Run3).
  destruct (open_run _ _ _ _ _ _ _ _ c2 p V3 Dec2) as (st4 & V4 & R4 & Run4).
  exists st4, v3. split_and!.
  - unfold decode_message2, read_key, read_message2_encrypted_key, read_message2_payload.
    erewrite sbind_run by done.
    erewrite sbind_run by (unfold slift; rewrite <- app_assoc, read_start_app by done; done).
    unfold set_or_error at 1. change (hs_e (mix_hash _ (set_re _ st))) with (hs_e st).
    rewrite Ee. erewrite sbind_run by done. rewrite Run1.
    erewrite sbind_run by (unfold slift; rewrite read_middle_app by done; done).
    erewrite sbind_run by apply Run2. cbv beta iota. unfold set_or_error at 1. rewrite Ee2.
    erewrite sbind_run by done. rewrite Run3. erewrite sbind_run.
    2:{ unfold slift. rewrite read_end_app by (rewrite length_app, Lpe, Lc1; done). done. }
    erewrite sbind_run by apply Run4. cbv beta iota. erewrite sbind_run by done. done.
  - exact V4.
  - unfold same_rest in *. simpl in *. naive_solver congruence.
  - lia.
Qed.

(** Message 3. *)
Definition message3_parts (ck k h dh pub_s p c1 c2 ck' k' h' : bytes) : Prop :=
  let kd := kdf2 ck dh in
  length c1 = 48 /\ aes256_decrypt k (hs_nonce 1) h c1 = Some pub_s /\
  aes256_decrypt kd.2 (hs_nonce 0) (mixed h c1) c2 = Some p /\
  ck' = kd.1 /\ k' = kd.2 /\ h' = mixed (mixed h c1) c2.

Lemma encode_message3_run st v s e ck k h re p :
  view st v s e ck k h 1 -> hs_re st = Some re -> length (pk_data re) = 32 ->
  draws v + 3 <= N -> (Z.of_nat (length p) <= aead_max)%Z ->
  exists c1 c2 ck' k' h' st' v',
    encode_message3 p (st, v) = (Ok (c1 ++ c2), (st', v')) /\
    message3_parts ck k h (x25519 s (pk_data re)) (x25519_public s) p c1 c2 ck' k' h' /\
    view st' v' s e ck' k' h' 1 /\ same_rest st st' /\ draws v' = draws v + 3.
Proof.
  intros Hv Hre Lre Hd Hp. pose proof Hv as [(ks & Es & Hs) _ _ _ _ _ _ (Ls & Le & _)].
  destruct (seal_run _ _ _ _ _ _ _ _ (x25519_public s) Hv (public_bound s))
    as (c1 & st1 & Dec1 & Lc1 & V1 & R1 & Run1).
  destruct (mix_dh_run _ _ _ _ _ _ _ _ ks s re V1 Hs Ls Lre ltac:(lia))
    as (st2 & v2 & V2 & R2 & D2 & Run2).
  destruct (seal_run _ _ _ _ _ _ _ _ p V2 Hp) as (c2 & st3 & Dec2 & Lc2 & V3 & R3 & Run3).
  exists c1, c2. do 3 eexists. exists st3, v2. split_and!.
  - unfold encode_message3. erewrite sbind_run by done. unfold set_or_error at 1. rewrite Es.
    erewrite sbind_run by done. erewrite sbind_run by (apply own_public_key_run; done).
    erewrite sbind_run by apply Run1. cbv beta iota. unfold set_or_error at 1.
    assert (hs_re st1 = Some re) as -> by (unfold same_rest in R1; naive_solver congruence).
    erewrite sbind_run by done. rewrite Run2. erewrite sbind_run by apply Run3. cbv beta iota.
    erewrite sbind_run by done. done.
  - rewrite x25519_public_length in Lc1. split_and!; done.
  - exact V3.
  - unfold same_rest in *. naive_solver congruence.
  - lia.
Qed.

Lemma decode_message3_run st v s e ck k h pub_s p c1 c2 ck' k' h' :
  view st v s e ck k h 1 -> length pub_s = 32 -> draws v + 3 <= N ->
  message3_parts ck k h (x25519 e pub_s) pub_s p c1 c2 ck' k' h' ->
  exists st' v',
    decode_message3 (c1 ++ c2) (st, v) = (Ok p, (st', v')) /\
    view st' v' s e ck' k' h' 1 /\
    same_rest (set_rs (Some (mkPublicKey pub_s TX25519)) st) st' /\ draws v' = draws v + 3.
Proof.
  intros Hv Lps Hd (Lc1 & Dec1 & Dec2 & -> & -> & ->).
  destruct (open_run _ _ _ _ _ _ _ _ c1 pub_s Hv Dec1) as (st1 & V1 & R1 & Run1).
  apply (rs_view _ _ _ _ _ _ _ _ (Some (mkPublicKey pub_s TX25519))) in V1.
  pose proof V1 as [_ (ke & Ee & He) _ _ _ _ _ (Ls & Le & _)].
  destruct (mix_dh_run _ _ _ _ _ _ _ _ ke e (mkPublicKey pub_s TX25519) V1 He Le Lps ltac:(lia))
    as (st2 & v2 & V2 & R2 & D2 & Run2).
  destruct (open_run _ _ _ _ _ _ _ _ c2 p V2 Dec2) as (st3 & V3 & R3 & Run3).
  exists st3, v2. split_and!.
  - unfold decode_message3, read_message3_encrypted_key, read_message3_payload.
    erewrite sbind_run by done.
    erewrite sbind_run by (unfold slift; rewrite read_start_app by done; done).
    erewrite sbind_run by apply Run1. cbv beta iota. unfold set_or_error at 1. rewrite Ee.
    erewrite sbind_run by done. rewrite Run2.
    erewrite sbind_run by (unfold slift; rewrite read_end_app by done; done).
    erewrite sbind_run by apply Run3. cbv beta iota. erewrite sbind_run by done. done.
  - exact V3.
  - unfold same_rest in *. simpl in *. naive_solver congruence.
  - lia.
Qed.

(** The end of a handshake: two new keys, and nothing left of the handshake's own
    secrets. *)
Lemma set_final_state_run role st v s e ck k h n :
  view st v s e ck k h n -> draws v + 2 <= N ->
  exists st' v' k1 k2,
    set_final_state role (st, v) = (Ok tt, (st', v')) /\
    get_handshake_keys st' =
      Some (if is_initiator role then mkHandshakeKeys k2 k1 else mkHandshakeKeys k1 k2) /\
    holds v' k1 (kdf2 ck []).1 Aes256 /\ holds v' k2 (kdf2 ck []).2 Aes256 /\
    hs_rs st' = hs_rs st /\ known_ids v' /\ draws v' = draws v + 2 /\
    (forall i, Some i = hs_s st \/ Some i = hs_e st \/ Some i = hs_k st \/ Some i = hs_ck st ->
       ephemeral_secrets v' !! i = None).
Proof.
  intros [(ks & Es & Hs) (ke & Ee & He) (kk & Ek & Hk) (kc & Ec & Hc) Hh Hn Hids _] Hd.
  set (v1 := imported v (kdf2 ck []).1 Aes256). set (v2 := imported v1 (kdf2 ck []).2 Aes256).
  pose proof (known_imported v (kdf2 ck []).1 Aes256 Hids) as Hids1. fold v1 in Hids1.
  pose proof (next_id_fresh N v HN Hids ltac:(lia)) as F0.
  pose proof (next_id_fresh N v1 HN Hids1 ltac:(simpl; lia)) as F1.
  assert (Hkeep : forall j t a, holds v j t a -> next_id v <> j /\ next_id v1 <> j).
  { intros j t a Hj. assert (j <> next_id v) by (eapply holds_not_fresh; done).
    assert (holds v1 j t a) by (apply holds_imported_other; done).
    assert (j <> next_id v1) by (eapply holds_not_fresh; done). done. }
  assert (H1 : holds v1 (next_id v) (kdf2 ck []).1 Aes256) by apply holds_imported.
  assert (N01 : next_id v <> next_id v1) by (eapply holds_not_fresh; done).
  assert (Hw : forall j t a, holds v2 j t a -> j <> kc -> j <> kk -> j <> ks -> j <> ke ->
    holds (without (without (without (without v2 kc) kk) ks) ke) j t a)
    by (intros; do 4 (apply holds_without; [|done]); done).
  destruct (Hkeep _ _ _ Hs), (Hkeep _ _ _ He), (Hkeep _ _ _ Hk), (Hkeep _ _ _ Hc).
  eexists _, _, (next_id v), (next_id v1). split.
  { unfold set_final_state, compute_final_keys, set_or_error. erewrite sbind_run by done.
    erewrite sbind_run.
    2:{ rewrite Ec. erewrite sbind_run by done. erewrite sbind_run.
        2:{ unfold hs_vault. rewrite (hkdf_run v kc ck None []) by (done || by right). done. }
        cbv beta iota. erewrite sbind_run by done. erewrite sbind_run by done.
        cbn [hs_k set_ck]. rewrite Ek. erewrite sbind_run by done. erewrite sbind_run by done.
        done. }
    cbv beta iota. erewrite sbind_run by done. unfold delete_handshake_keys, set_or_error.
    erewrite sbind_run by done. cbn [hs_s hs_e set_status set_k set_ck]. rewrite Es.
    do 3 erewrite sbind_run by done. cbn [hs_e clear_s set_status set_k set_ck]. rewrite Ee.
    do 4 erewrite sbind_run by done. done. }
  cbn [get_handshake_keys hs_status clear_e clear_s set_status hs_rs set_k set_ck].
  split_and!; try done.
  - apply Hw; try done. apply holds_imported_other; done.
  - apply Hw; try done. apply holds_imported.
  - do 4 apply known_delete. apply known_imported. done.
  - simpl. lia.
  - simpl. rewrite Es, Ee, Ek, Ec. intros i Hi. rewrite !lookup_delete_None. naive_solver.
Qed.

End Run.

(** ** A complete exchange between two parties *)

Definition run {S E A} (m : stm S E A) (s : S) : result E (A * S) :=
  match m s with
  | (Ok a, s') => Ok (a, s')
  | (Err e, _) => Err e
  | (Panic, _) => Panic
  end.

(** The three messages, each decoded by the other party, and the final keys; the
    result holds the payloads as they arrive. *)
Definition honest_exchange `{Crypto} (p1 p2 p3 : bytes) (I R : HandshakeState * Vault)
  : result HandshakeError
      (bytes * bytes * bytes * (HandshakeState * Vault) * (HandshakeState * Vault)) :=
  let? (_, I) := run initialize I in
  let? (_, R) := run initialize R in
  let? (m1, I) := run (encode_message1 p1) I in
  let? (q1, R) := run (decode_message1 m1) R in
  let? (m2, R) := run (encode_message2 p2) R in
  let? (q2, I) := run (decode_message2 m2) I in
  let? (m3, I) := run (encode_message3 p3) I in
  let? (_, I) := run (set_final_state Initiator) I in
  let? (q3, R) := run (decode_message3 m3) R in
  let? (_, R) := run (set_final_state Responder) R in
  Ok (q1, q2, q3, I, R).

(** A party ready to start: a static and an ephemeral X25519 secret in its vault,
    and room for [m] more identifiers. *)
Record party `{Crypto} (N m : nat) (ks ke : KeyId) (s e : bytes) (v : Vault) : Prop := {
  party_s : holds v ks s X25519;
  party_e : holds v ke e X25519;
  party_len : length s = 32 /\ length e = 32;
  party_ids : known_ids v;
  party_draws : draws v + m <= N
}.

Lemma run_ok {S E A} (m : stm S E A) s a s' : m s = (Ok a, s') -> run m s = Ok (a, s').
Proof. intros H. unfold run. rewrite H. done. Qed.

Lemma honest_run {C : Crypto} {L : CryptoLaws C} N (HN : distinct_ids N)
    ksi kei ksr ker si ei sr er vi vr p1 p2 p3 :
  party N 13 ksi kei si ei vi -> party N 13 ksr ker sr er vr ->
  (Z.of_nat (length p2) <= aead_max)%Z -> (Z.of_nat (length p3) <= aead_max)%Z ->
  exists I vi' R vr' k1 k2 K1 K2,
    honest_exchange p1 p2 p3 (HandshakeState_new ksi kei, vi) (HandshakeState_new ksr ker, vr) =
      Ok (p1, p2, p3, (I, vi'), (R, vr')) /\
    get_handshake_keys I = Some k1 /\ get_handshake_keys R = Some k2 /\
    length K1 = 32 /\ length K2 = 32 /\
    holds vi' (decryption_key k1) K1 Aes256 /\ holds vr' (encryption_key k2) K1 Aes256 /\
    holds vi' (encryption_key k1) K2 Aes256 /\ holds vr' (decryption_key k2) K2 Aes256 /\
    hs_rs I = Some (mkPublicKey (x25519_public sr) TX25519) /\
    hs_rs R = Some (mkPublicKey (x25519_public si) TX25519) /\
    known_ids vi' /\ known_ids vr' /\ draws vi' = draws vi + 13 /\ draws vr' = draws vr + 13.
Proof.
  intros [Hsi Hei [Lsi Lei] Hki Hdi] [Hsr Her [Lsr Ler] Hkr Hdr] Hp2 Hp3.
  pose proof x25519_public_length as Lpub.
  destruct (initialize_run N HN vi ksi kei si ei) as (I1 & vi1 & EI1 & VI1 & SI1 & DI1); [done..|lia|].
  destruct (initialize_run N HN vr ksr ker sr er) as (R1 & vr1 & ER1 & VR1 & SR1 & DR1); [done..|lia|].
  destruct (encode_message1_run _ _ _ _ _ _ _ _ p1 VI1) as (I2 & EI2 & VI2 & SI2).
  destruct (decode_message1_run _ _ _ _ _ _ _ _ (x25519_public ei) p1 VR1 (Lpub ei))
    as (R2 & ER2 & VR2 & SR2).
  assert (hs_re R2 = Some (mkPublicKey (x25519_public ei) TX25519)) as Hre.
  { unfold same_rest in SR2. naive_solver. }
  destruct (encode_message2_run N HN _ _ _ _ _ _ _ _ _ p2 VR2 Hre (Lpub ei) ltac:(lia) Hp2)
    as (c1 & c2 & ck2 & k2 & h2 & R3 & vr3 & ER3 & P2 & VR3 & SR3 & DR3).
  cbn [pk_data] in P2. rewrite (x25519_commutes er ei), (x25519_commutes sr ei) in P2 by done.
  destruct (decode_message2_run N HN _ _ _ _ _ _ _ _ _ _ _ _ _ _ _ _ VI2 (Lpub er) (Lpub sr)
              ltac:(lia) P2) as (I3 & vi3 & EI3 & VI3 & SI3 & DI3).
  assert (hs_re I3 = Some (mkPublicKey (x25519_public er) TX25519)) as HreI.
  { unfold same_rest in SI3. naive_solver. }
  destruct (encode_message3_run N HN _ _ _ _ _ _ _ _ p3 VI3 HreI (Lpub er) ltac:(lia) Hp3)
    as (d1 & d2 & ck3 & k3 & h3 & I4 & vi4 & EI4 & P3 & VI4 & SI4 & DI4).
  cbn [pk_data] in P3. rewrite (x25519_commutes si er) in P3 by done.
  destruct (decode_message3_run N HN _ _ _ _ _ _ _ _ _ _ _ _ _ _ VR3 (Lpub si) ltac:(lia) P3)
    as (R4 & vr4 & ER4 & VR4 & SR4 & DR4).
  destruct (set_final_state_run N HN Initiator _ _ _ _ _ _ _ _ VI4 ltac:(lia))
    as (I5 & vi5 & a1 & a2 & EI5 & GI & A1 & A2 & RI & KI & DI5 & _).
  destruct (set_final_state_run N HN Responder _ _ _ _ _ _ _ _ VR4 ltac:(lia))
    as (R5 & vr5 & b1 & b2 & ER5 & GR & B1 & B2 & RR & KR & DR5 & _).
  destruct (kdf2_spec ck3 []) as (_ & _ & _ & _ & LK1 & LK2).
  exists I5, vi5, R5, vr5, (mkHandshakeKeys a2 a1), (mkHandshakeKeys b1 b2),
    (kdf2 ck3 []).1, (kdf2 ck3 []).2.
  unfold same_rest in *. split_and!; try done; try lia.
  - unfold honest_exchange.
    rewrite (run_ok _ _ _ _ EI1); cbn [rbind]. rewrite (run_ok _ _ _ _ ER1); cbn [rbind].
    rewrite (run_ok _ _ _ _ EI2); cbn [rbind]. rewrite (run_ok _ _ _ _ ER2); cbn [rbind].
    rewrite (run_ok _ _ _ _ ER3); cbn [rbind]. rewrite (run_ok _ _ _ _ EI3); cbn [rbind].
    rewrite (run_ok _ _ _ _ EI4); cbn [rbind]. rewrite (run_ok _ _ _ _ EI5); cbn [rbind].
    rewrite (run_ok _ _ _ _ ER4); cbn [rbind]. rewrite (run_ok _ _ _ _ ER5); cbn [rbind]. done.
  - simpl in SI3. naive_solver congruence.
  - simpl in SR4. naive_solver congruence.
Qed.

(** Generating an X25519 key in a vault. *)
Lemma create_x25519_run {C : Crypto} {L : CryptoLaws C} v :
  known_ids v ->
  let s := rand_bytes (draws v) 32 in
  let id := hex_encode (sha256_digest (x25519_public s)) in
  let v' := mkVault (<[id := mkStoredSecret s X25519]> (ephemeral_secrets v)) (storage v)
              (S (draws v)) in
  create_ephemeral_secret X25519 v = (Ok id, v') /\ known_ids v' /\ holds v' id s X25519 /\
  length s = 32.
Proof.
  intros Hk s id v'. assert (length s = 32) as Hl by apply rand_length. split_and!.
  - unfold create_ephemeral_secret, create_secret_from_attributes. cbn [secret_type].
    erewrite sbind_run by done. change (Z.to_nat (attributes_length X25519)) with 32. fold s.
    unfold import_ephemeral_secret, compute_key_id. cbn [secret_type].
    erewrite sbind_run.
    2:{ erewrite sbind_run by (unfold slift; rewrite array_32_run by done; done). done. }
    erewrite sbind_run.
    2:{ unfold slift, StoredSecret_create. rewrite Hl. done. }
    done.
  - intros k t H Hlen. simpl in H. destruct (decide (k = id)) as [-> | Hne].
    + exfalso. unfold id in Hlen. rewrite hex_length, sha256_length in Hlen. lia.
    + rewrite lookup_insert_ne in H by done. destruct (Hk k t H Hlen) as (i & Hi & E).
      exists i. simpl. split; [lia | done].
  - unfold holds, v'. simpl. apply lookup_insert_eq.
  - done.
Qed.

(** C4: two honest parties that exchange the three messages of the handshake end
    with the same pair of keys, crossed (what one encrypts with, the other
    decrypts with), have received each other's payloads unchanged, and hold each
    other's static public key. *)
Theorem xx_handshake_agreement {C : Crypto} {L : CryptoLaws C} (N : nat)
    (ksi kei ksr ker : KeyId) (si ei sr er : bytes) (vi vr : Vault) (p1 p2 p3 : bytes) :
  distinct_ids N -> party N 13 ksi kei si ei vi -> party N 13 ksr ker sr er vr ->
  (Z.of_nat (length p2) <= aead_max)%Z -> (Z.of_nat (length p3) <= aead_max)%Z ->
  exists I vi' R vr' ki kr K1 K2,
    honest_exchange p1 p2 p3 (HandshakeState_new ksi kei, vi) (HandshakeState_new ksr ker, vr) =
      Ok (p1, p2, p3, (I, vi'), (R, vr')) /\
    get_handshake_keys I = Some ki /\ get_handshake_keys R = Some kr /\
    holds vi' (decryption_key ki) K1 Aes256 /\ holds vr' (encryption_key kr) K1 Aes256 /\
    holds vi' (encryption_key ki) K2 Aes256 /\ holds vr' (decryption_key kr) K2 Aes256 /\
    hs_rs I = Some (mkPublicKey (x25519_public sr) TX25519) /\
    hs_rs R = Some (mkPublicKey (x25519_public si) TX25519).
Proof.
  intros HN HI HR Hp2 Hp3.
  destruct (honest_run N HN ksi kei ksr ker si ei sr er vi vr p1 p2 p3 HI HR Hp2 Hp3)
    as (I & vi' & R & vr' & ki & kr & K1 & K2 & E & GI & GR & _ & _ & H1 & H2 & H3 & H4 & RI & RR & _).
  exists I, vi', R, vr', ki, kr, K1, K2. done.
Qed.

(** A vault with a static and an ephemeral key. *)
Definition sample_keys : KeyId * KeyId * Vault :=
  match create_ephemeral_secret X25519 empty_vault with
  | (Ok ks, v1) =>
      match create_ephemeral_secret X25519 v1 with
      | (Ok ke, v2) => (ks, ke, v2)
      | (_, v2) => (ks, [], v2)
      end
  | (_, v1) => ([], [], v1)
  end.

Lemma sample_party :
  party 20 13 sample_keys.1.1 sample_keys.1.2 (rand_bytes 0 32) (rand_bytes 1 32) sample_keys.2.
Proof.
  split.
  - vm_compute. reflexivity.
  - vm_compute. reflexivity.
  - split; vm_compute; reflexivity.
  - destruct (create_x25519_run empty_vault known_empty) as (E1 & K1 & _).
    destruct (create_x25519_run _ K1) as (E2 & K2 & _).
    unfold sample_keys. rewrite E1, E2. exact K2.
  - vm_compute. lia.
Qed.

Lemma xx_handshake_agreement_witness :
  let I0 := (HandshakeState_new sample_keys.1.1 sample_keys.1.2, sample_keys.2) in
  exists I vi' R vr' ki kr K1 K2,
    honest_exchange [] (str "bob") (str "alice") I0 I0 =
      Ok ([], str "bob", str "alice", (I, vi'), (R, vr')) /\
    get_handshake_keys I = Some ki /\ get_handshake_keys R = Some kr /\
    holds vi' (decryption_key ki) K1 Aes256 /\ holds vr' (encryption_key kr) K1 Aes256 /\
    holds vi' (encryption_key ki) K2 Aes256 /\ holds vr' (decryption_key kr) K2 Aes256 /\
    hs_rs I = Some (mkPublicKey (x25519_public (rand_bytes 0 32)) TX25519) /\
    hs_rs R = Some (mkPublicKey (x25519_public (rand_bytes 0 32)) TX25519).
Proof.
  apply (xx_handshake_agreement 20 _ _ _ _ _ (rand_bytes 1 32) _ (rand_bytes 1 32));
    [apply toy_distinct_ids; lia | apply sample_party | apply sample_party
    | vm_compute; congruence | vm_compute; congruence].
Defined.
