(* ===== verification/Attributes.v ===== *)
(** * Who sent a message, and with which attributes

    The identifier a secure channel attaches to every message it delivers
    ([ockam_identity/src/secure_channel/local_info.rs]), the store of
    authenticated attributes ([identities/storage/]), the access controls that
    read them ([secure_channel/access_control/]) and the trust policies of a
    new channel ([secure_channel/trust_policy/]).

    The BARE encoding of the local info and the CBOR encoding of an entry are
    third-party code: the classes [InfoCodec] and [EntryCodec].  The system
    time is an argument. *)

From Stdlib Require Import ZArith Lia.
From Stdlib Require Strings.Byte Strings.String.
From stdpp Require Import base gmap list numbers option countable.
From S2P Require Import Prelude.
From S2P Require Import RustStr.
From S2P Require Import Routing.
From S2P Require Import AccessControl.

(** ** Identifiers *)

(** [IdentityIdentifier(KeyId)]: its string. *)
Notation IdentityIdentifier := bytes.

Definition PREFIX : bytes := str "P".

Fixpoint starts_with (p s : bytes) : bool :=
  match p, s with
  | [], _ => true
  | x :: p, y :: s => bool_decide (x = y) && starts_with p s
  | _ :: _, [] => false
  end.

Definition IdentityIdentifier_from_hex (s : bytes) : IdentityIdentifier := PREFIX ++ trim s.

Definition IdentityIdentifier_try_from (value : bytes) : result Error IdentityIdentifier :=
  let value := trim value in
  if starts_with PREFIX value then Ok value else Err InvalidIdentityId.

(** [ct_eq] of the byte slices: constant time in the source. *)
Definition IdentityIdentifier_ct_eq (a b : IdentityIdentifier) : bool := bool_decide (a = b).

(** ** The local info of a secure channel *)

Definition IDENTITY_SECURE_CHANNEL_IDENTIFIER : bytes := str "IDENTITY_SECURE_CHANNEL_IDENTIFIER".

(** The BARE encoding of a string. *)
Class InfoCodec := {
  encode_info : bytes -> bytes;
  decode_info : bytes -> option bytes
}.

Class InfoCodecLaws `{InfoCodec} := {
  decode_encode_info : forall s, decode_info (encode_info s) = Some s
}.

Section LocalInfo.
Context `{InfoCodec}.

(** [IdentitySecureChannelLocalInfo::decode]: the string, then [TryFrom]. *)
Definition LocalInfo_decode (data : bytes) : option IdentityIdentifier :=
  match decode_info data with
  | Some s => res_ok (IdentityIdentifier_try_from s)
  | None => None
  end.

Definition from_local_info (value : LocalInfo) : result Error IdentityIdentifier :=
  if negb (bool_decide (type_identifier value = IDENTITY_SECURE_CHANNEL_IDENTIFIER))
  then Err InvalidLocalInfoType
  else match LocalInfo_decode (li_data value) with
       | Some info => Ok info
       | None => Err InvalidLocalInfoType
       end.

Definition to_local_info (id : IdentityIdentifier) : LocalInfo :=
  mkLocalInfo IDENTITY_SECURE_CHANNEL_IDENTIFIER (encode_info id).

Definition find_info_from_list (l : list LocalInfo) : result Error IdentityIdentifier :=
  match list_find (fun x => type_identifier x = IDENTITY_SECURE_CHANNEL_IDENTIFIER) l with
  | Some (_, info) => from_local_info info
  | None => Err InvalidLocalInfoType
  end.

Definition find_info (m : LocalMessage) : result Error IdentityIdentifier :=
  find_info_from_list (local_info m).

Definition mark (l : list LocalInfo) (id : IdentityIdentifier) : list LocalInfo :=
  filter (fun x => type_identifier x <> IDENTITY_SECURE_CHANNEL_IDENTIFIER) l
    ++ [to_local_info id].

(** ** Access controls on the identifier *)

Definition IdentityAnyId_is_authorized (m : RelayMessage) : result Error bool :=
  Ok (is_ok (find_info (rm_local_msg m))).

(** The loop that accumulates with [|=]. *)
Definition IdentityId_contains (ids : list IdentityIdentifier) (their_id : IdentityIdentifier)
  : bool :=
  fold_left (fun found trusted => found || IdentityIdentifier_ct_eq trusted their_id) ids false.

Definition IdentityId_is_authorized (ids : list IdentityIdentifier) (m : RelayMessage)
  : result Error bool :=
  match find_info (rm_local_msg m) with
  | Ok id => Ok (IdentityId_contains ids id)
  | Err _ => Ok false
  | Panic => Panic
  end.
End LocalInfo.

(** ** Trust policies *)

Class TrustPolicy (A : Type) := trust_check : A -> IdentityIdentifier -> result Error bool.

Inductive TrustEveryonePolicy := mkTrustEveryone.
Inductive TrustIdentifierPolicy := mkTrustIdentifier (id : IdentityIdentifier).
Inductive TrustMultiIdentifiersPolicy := mkTrustMulti (ids : list IdentityIdentifier).
Inductive AllTrustPolicy (F S : Type) := mkAllTrust (first : F) (second : S).
Inductive AnyTrustPolicy (F S : Type) := mkAnyTrust (first : F) (second : S).
Arguments mkAllTrust {F S}.
Arguments mkAnyTrust {F S}.

Definition TrustEveryone_check (_ : TrustEveryonePolicy) (_ : IdentityIdentifier)
  : result Error bool := allow.
Definition TrustIdentifier_check (self : TrustIdentifierPolicy) (their : IdentityIdentifier)
  : result Error bool :=
  let '(mkTrustIdentifier id) := self in Ok (IdentityIdentifier_ct_eq their id).
Definition TrustMulti_check (self : TrustMultiIdentifiersPolicy) (their : IdentityIdentifier)
  : result Error bool :=
  let '(mkTrustMulti ids) := self in
  if negb (IdentityId_contains ids their) then Ok false else Ok true.

(** [&&] and [||] evaluate the second policy only if the first did not decide. *)
Definition AllTrust_check {F S} `{TrustPolicy F} `{TrustPolicy S} (self : AllTrustPolicy F S)
    (their : IdentityIdentifier) : result Error bool :=
  let '(mkAllTrust f s) := self in
  let? b := trust_check f their in if b then trust_check s their else Ok false.
Definition AnyTrust_check {F S} `{TrustPolicy F} `{TrustPolicy S} (self : AnyTrustPolicy F S)
    (their : IdentityIdentifier) : result Error bool :=
  let '(mkAnyTrust f s) := self in
  let? b := trust_check f their in if b then Ok true else trust_check s their.

#[export] Instance trust_everyone : TrustPolicy TrustEveryonePolicy := TrustEveryone_check.
#[export] Instance trust_identifier : TrustPolicy TrustIdentifierPolicy := TrustIdentifier_check.
#[export] Instance trust_multi : TrustPolicy TrustMultiIdentifiersPolicy := TrustMulti_check.
#[export] Instance trust_all {F S} `{TrustPolicy F} `{TrustPolicy S}
  : TrustPolicy (AllTrustPolicy F S) := AllTrust_check.
#[export] Instance trust_any {F S} `{TrustPolicy F} `{TrustPolicy S}
  : TrustPolicy (AnyTrustPolicy F S) := AnyTrust_check.

(** ** Storage of authenticated data *)

(** The trait [Storage]; the order of the arguments is [id], then the
    namespace. *)
Class Storage (S : Type) := {
  storage_get : bytes -> bytes -> stm S Error (option bytes);
  storage_set : bytes -> bytes -> bytes -> stm S Error unit;
  storage_del : bytes -> bytes -> stm S Error unit;
  storage_keys : bytes -> stm S Error (list bytes)
}.

(** What the users of a storage rely on: [contents] is what it holds, reads do
    not change it, a write that fails changes nothing. *)
Class StorageLaws (S : Type) `{Storage S} := {
  contents : S -> bytes -> bytes -> option bytes;
  get_law : forall id ns s r s', storage_get id ns s = (r, s') ->
    contents s' = contents s /\ r <> Panic /\ (forall o, r = Ok o -> o = contents s ns id);
  set_law : forall id ns v s r s', storage_set id ns v s = (r, s') -> r <> Panic /\
    (r = Ok tt -> forall ns' id', contents s' ns' id' =
       if bool_decide (ns' = ns /\ id' = id) then Some v else contents s ns' id') /\
    (r <> Ok tt -> contents s' = contents s);
  del_law : forall id ns s r s', storage_del id ns s = (r, s') -> r <> Panic /\
    (r = Ok tt -> forall ns' id', contents s' ns' id' =
       if bool_decide (ns' = ns /\ id' = id) then None else contents s ns' id') /\
    (r <> Ok tt -> contents s' = contents s)
}.

(** *** [InMemoryStorage]: namespace, then id *)

Notation InMemoryStorage := (gmap bytes (gmap bytes bytes)).

Definition InMemory_get (id ns : bytes) : stm InMemoryStorage Error (option bytes) := fun m =>
  match m !! ns with
  | Some a => (Ok (a !! id), m)
  | None => (Ok None, m)
  end.

Definition InMemory_set (id ns val : bytes) : stm InMemoryStorage Error unit := fun m =>
  match m !! ns with
  | Some a => (Ok tt, <[ns := <[id := val]> a]> m)
  | None => (Ok tt, <[ns := {[id := val]}]> m)
  end.

Definition InMemory_del (id ns : bytes) : stm InMemoryStorage Error unit := fun m =>
  match m !! ns with
  | Some a =>
      let a := delete id a in
      (Ok tt, if bool_decide (a = ∅) then delete ns m else <[ns := a]> m)
  | None => (Ok tt, m)
  end.

Definition InMemory_keys (ns : bytes) : stm InMemoryStorage Error (list bytes) := fun m =>
  (Ok (match m !! ns with
       | Some a => (btree_iter a).*1
       | None => []
       end), m).

#[export] Instance in_memory_storage : Storage InMemoryStorage := {|
  storage_get := InMemory_get;
  storage_set := InMemory_set;
  storage_del := InMemory_del;
  storage_keys := InMemory_keys
|}.

(** *** Attributes *)

Record AttributesEntry := mkAttributesEntry {
  attrs : gmap bytes bytes;
  added : Z;
  expires : option Z;
  attested_by : option IdentityIdentifier
}.

(** The CBOR encoding of an entry. *)
Class EntryCodec := {
  encode_entry : AttributesEntry -> bytes;
  decode_entry : bytes -> option AttributesEntry
}.

Class EntryCodecLaws `{EntryCodec} := {
  decode_encode_entry : forall e, decode_entry (encode_entry e) = Some e
}.

Definition ATTRIBUTES_KEY : bytes := str "ATTRIBUTES".

Section IdentitiesStorage.
Context {S : Type} `{Storage S} `{EntryCodec}.

(** [now] is what [Timestamp::now()] returns. *)
Definition get_attributes (now : option Z) (id : IdentityIdentifier)
  : stm S Error (option AttributesEntry) :=
  let! e := storage_get id ATTRIBUTES_KEY in
  match e with
  | None => sret None
  | Some e =>
      let! entry := slift (ok_or (decode_entry e) DecodeErr) in
      let! now := slift (ok_or now InvalidSystemTime) in
      match expires entry with
      | Some exp =>
          if (exp <=? now)%Z then
            let! _ := storage_del id ATTRIBUTES_KEY in sret None
          else sret (Some entry)
      | None => sret (Some entry)
      end
  end.

Definition put_attributes (sender : IdentityIdentifier) (entry : AttributesEntry)
  : stm S Error unit :=
  let! _ := storage_set sender ATTRIBUTES_KEY (encode_entry entry) in sret tt.

(** [Timestamp::now().unwrap()] panics without a system time. *)
Definition put_attribute_value (now : option Z) (subject : IdentityIdentifier)
    (name value : bytes) : stm S Error unit :=
  let! o := get_attributes now subject in
  let attributes := match o with Some entry => attrs entry | None => ∅ end in
  let attributes := <[name := value]> attributes in
  let! t := slift (unwrap now) in
  put_attributes subject (mkAttributesEntry attributes t None (Some subject)).

Definition delete_attributes (id : IdentityIdentifier) : stm S Error unit :=
  storage_del id ATTRIBUTES_KEY.

Fixpoint list_loop (now : option Z) (ids : list bytes)
    (l : list (IdentityIdentifier * AttributesEntry))
  : stm S Error (list (IdentityIdentifier * AttributesEntry)) :=
  match ids with
  | [] => sret l
  | id :: ids =>
      let! identifier := slift (IdentityIdentifier_try_from id) in
      let! o := get_attributes now identifier in
      match o with
      | Some a => list_loop now ids (l ++ [(identifier, a)])
      | None => list_loop now ids l
      end
  end.

Definition list_attributes (now : option Z)
  : stm S Error (list (IdentityIdentifier * AttributesEntry)) :=
  let! ids := storage_keys ATTRIBUTES_KEY in list_loop now ids [].

(** *** [CredentialAccessControl] *)

Context `{InfoCodec}.

Fixpoint check_required (required : list (bytes * bytes)) (a : gmap bytes bytes) : bool :=
  match required with
  | [] => true
  | (k, v) :: required =>
      match a !! k with
      | None => false
      | Some attr_val =>
          if negb (bool_decide (v = attr_val)) then false else check_required required a
      end
  end.

Definition Credential_is_authorized (required : list (bytes * bytes)) (now : option Z)
    (m : RelayMessage) : stm S Error bool :=
  match find_info (rm_local_msg m) with
  | Ok id =>
      let! o := get_attributes now id in
      match o with
      | Some a => sret (check_required required (attrs a))
      | None => sret false
      end
  | Err _ => sret false
  | Panic => spanic
  end.
End IdentitiesStorage.

(** * Properties *)

(** ** Identifiers *)

(** What a string must be to be read back as an identifier. *)
Definition valid_id (id : IdentityIdentifier) : Prop := IdentityIdentifier_try_from id = Ok id.

Lemma strip_ws_P l : strip_ws (Byte.x50 :: l) = None.
Proof. by destruct l as [|b1 [|b2 l]]. Qed.

Lemma strip_ws_rev_P u : strip_ws_rev u = None -> strip_ws_rev (u ++ [Byte.x50]) = None.
Proof.
  destruct u as [|b0 [|b1 [|b2 u]]]; cbn [app]; [done| | |unfold strip_ws_rev; by repeat case_match]; unfold strip_ws_rev;
    destruct (between 9 13 b0 || between 32 32 b0); try done; intros H.
  destruct (bool_decide (strip_ws [b1; b0] = Some [])); [done|].
  rewrite strip_ws_P. by rewrite bool_decide_false.
Qed.

(** Both constructors of an identifier give a valid one. *)
Lemma try_from_valid s id : IdentityIdentifier_try_from s = Ok id -> valid_id id.
Proof.
  unfold valid_id, IdentityIdentifier_try_from. destruct (starts_with PREFIX (trim s)) eqn:E; [|done].
  intros [= <-]. by rewrite trim_idem, E.
Qed.

Lemma from_hex_valid s : valid_id (IdentityIdentifier_from_hex s).
Proof.
  unfold valid_id, IdentityIdentifier_try_from, IdentityIdentifier_from_hex.
  change (PREFIX ++ trim s) with (Byte.x50 :: trim s).
  assert (H : trim (Byte.x50 :: trim s) = Byte.x50 :: trim s); [|by rewrite H].
  unfold trim at 1, trim_start. rewrite strip_while_none by apply strip_ws_P.
  unfold trim_end. rewrite strip_while_none; [by rewrite rev_involutive|].
  cbn [rev]. apply strip_ws_rev_P. unfold trim, trim_end. rewrite rev_involutive.
  apply (strip_while_done _ strip_ws_rev_suffix). by rewrite length_rev.
Qed.

Section MarkFind.
Context `{InfoCodecLaws}.

Lemma find_marked l info :
  type_identifier info = IDENTITY_SECURE_CHANNEL_IDENTIFIER ->
  snd <$> list_find (fun x => type_identifier x = IDENTITY_SECURE_CHANNEL_IDENTIFIER)
    (filter (fun x => type_identifier x <> IDENTITY_SECURE_CHANNEL_IDENTIFIER) l ++ [info])
  = Some info.
Proof.
  intros Hi. rewrite list_find_app_r.
  - simpl. by rewrite decide_True.
  - apply list_find_None, list.Forall_forall. intros x Hx.
    by apply list_elem_of_filter in Hx as [Hx _].
Qed.

(** The identity a secure channel attaches to a message is the one an
    access control finds.  After [mark] the lookup returns exactly the
    identifier given, whatever local info the message carried before: an
    earlier (possibly forged) claim of a secure channel identity is gone,
    and local info of other kinds is kept in order. *)
Theorem mark_find l id :
  valid_id id ->
  find_info_from_list (mark l id) = Ok id /\
  (forall x, x ∈ mark l id ->
     type_identifier x = IDENTITY_SECURE_CHANNEL_IDENTIFIER -> x = to_local_info id) /\
  filter (fun x => type_identifier x <> IDENTITY_SECURE_CHANNEL_IDENTIFIER) (mark l id) =
  filter (fun x => type_identifier x <> IDENTITY_SECURE_CHANNEL_IDENTIFIER) l.
Proof.
  intros Hid. split; [|split].
  - unfold find_info_from_list, mark. pose proof (find_marked l (to_local_info id) eq_refl) as Hf.
    destruct (list_find _ _) as [[i x]|]; [|done]. injection Hf as ->.
    unfold from_local_info, LocalInfo_decode. simpl. rewrite decode_encode_info.
    unfold valid_id in Hid. by rewrite Hid.
  - unfold mark. intros x [[Hx _]%list_elem_of_filter | Hx%list_elem_of_singleton]%elem_of_app Ht;
      done.
  - unfold mark. rewrite list.filter_app, filter_cons_False, filter_nil, app_nil_r by naive_solver.
    apply list_filter_filter_l. done.
Qed.
End MarkFind.

(** ** Decisions on the identifier *)

Lemma contains_spec ids id : IdentityId_contains ids id = bool_decide (id ∈ ids).
Proof.
  unfold IdentityId_contains, IdentityIdentifier_ct_eq.
  assert (H : forall b, fold_left (fun found t => found || bool_decide (t = id)) ids b =
    b || bool_decide (id ∈ ids)).
  { induction ids as [|x ids IH]; intros b; simpl.
    - by destruct b.
    - rewrite IH. rewrite <- orb_assoc. f_equal. repeat case_bool_decide; set_solver. }
  by rewrite H.
Qed.

(** A message passes [IdentityIdAccessControl] exactly when it came through a
    secure channel from one of the identities listed; the trust policies
    decide by the same membership, combined with [and] and [or]. *)
Theorem identity_checks_decision `{InfoCodec} {F S} `{TrustPolicy F} `{TrustPolicy S} ids m id
    (f : F) (s : S) :
  IdentityId_is_authorized ids m =
    Ok (match find_info (rm_local_msg m) with Ok i => bool_decide (i ∈ ids) | _ => false end) /\
  trust_check (mkTrustMulti ids) id = Ok (bool_decide (id ∈ ids)) /\
  (trust_check (mkAllTrust f s) id = Ok true <->
     trust_check f id = Ok true /\ trust_check s id = Ok true) /\
  (trust_check (mkAnyTrust f s) id = Ok true <->
     trust_check f id = Ok true \/ trust_check f id = Ok false /\ trust_check s id = Ok true).
Proof.
  split; [|split; [|split]].
  - unfold IdentityId_is_authorized.
    destruct (find_info (rm_local_msg m)) as [i| |] eqn:E; [by rewrite contains_spec|done|].
    exfalso. revert E. unfold find_info, find_info_from_list, from_local_info. by repeat case_match.
  - unfold trust_check, trust_multi. simpl. rewrite contains_spec. by destruct (bool_decide _).
  - unfold trust_check at 1, trust_all. simpl.
    destruct (trust_check f id) as [[]| |]; simpl; naive_solver.
  - unfold trust_check at 1, trust_any. simpl.
    destruct (trust_check f id) as [[]| |]; simpl; naive_solver.
Qed.

(** ** The attribute store *)

#[export] Program Instance in_memory_laws : StorageLaws InMemoryStorage := {|
  contents := fun m ns id => m !! ns ≫= lookup id
|}.
Next Obligation.
  intros id ns s r s'. simpl. unfold InMemory_get.
  destruct (s !! ns) as [a|] eqn:E; intros [= <- <-];
    (split; [done|split; [done|]]); intros o [= <-]; done.
Qed.
Next Obligation.
  intros id ns v s r s'. simpl. unfold InMemory_set.
  rename s into m.
  destruct (m !! ns) as [a|] eqn:E; intros [= <- <-];
    (split; [done|split; [|done]]); intros _ ns' id'.
  - destruct (decide (ns' = ns)) as [->|Hn].
    + rewrite lookup_insert_eq, E. simpl. destruct (decide (id' = id)) as [->|Hi].
      * by rewrite lookup_insert_eq, bool_decide_true.
      * rewrite lookup_insert_ne by done. rewrite bool_decide_false by naive_solver. done.
    + rewrite lookup_insert_ne by done. by rewrite bool_decide_false by naive_solver.
  - destruct (decide (ns' = ns)) as [->|Hn].
    + rewrite lookup_insert_eq, E. simpl. destruct (decide (id' = id)) as [->|Hi].
      * by rewrite lookup_singleton_eq, bool_decide_true.
      * rewrite lookup_singleton_ne by done. rewrite bool_decide_false by naive_solver. done.
    + rewrite lookup_insert_ne by done. by rewrite bool_decide_false by naive_solver.
Qed.
Next Obligation.
  intros id ns s r s'. simpl. unfold InMemory_del.
  rename s into m.
  destruct (m !! ns) as [a|] eqn:E; intros [= <- <-];
    (split; [done|split; [|done]]); intros _ ns' id'.
  - assert (Hd : forall id', delete id a !! id' = if bool_decide (id' = id) then None else a !! id').
    { intros i. case_bool_decide as Hi; [by rewrite Hi, lookup_delete_eq|by rewrite lookup_delete_ne]. }
    destruct (decide (ns' = ns)) as [->|Hn].
    + rewrite E. simpl. specialize (Hd id').
      destruct (decide (delete id a = ∅)) as [He|He];
        [rewrite (bool_decide_true (_ = ∅)) by done|rewrite (bool_decide_false (_ = ∅)) by done].
      * rewrite lookup_delete_eq. simpl. rewrite He, lookup_empty in Hd.
        repeat case_bool_decide; naive_solver.
      * rewrite lookup_insert_eq. simpl. rewrite Hd. repeat case_bool_decide; naive_solver.
    + rewrite (bool_decide_false (ns' = ns /\ _)) by naive_solver.
      by case_bool_decide; [rewrite lookup_delete_ne|rewrite lookup_insert_ne].
  - case_bool_decide as Hb; [|done]. destruct Hb as [-> ->]. by rewrite E.
Qed.

Definition is_expired (now : Z) (e : AttributesEntry) : bool :=
  match expires e with
  | Some exp => (exp <=? now)%Z
  | None => false
  end.

(** An entry as a reader at the time [now] sees it. *)
Definition unexpired (now : Z) (e : AttributesEntry) : option AttributesEntry :=
  if is_expired now e then None else Some e.

Section AttributeStore.
Context {S : Type} `{StorageLaws S} `{EntryCodecLaws}.

(** The abstract attribute store: who has which attributes at the time [now]. *)
Definition attributes_at (now : Z) (s : S) (id : IdentityIdentifier) : option AttributesEntry :=
  (contents s ATTRIBUTES_KEY id ≫= decode_entry) ≫= unexpired now.

Lemma expired_later now now' e :
  (now <= now')%Z -> is_expired now e = true -> is_expired now' e = true.
Proof. unfold is_expired. destruct (expires e); [|done]. rewrite !Z.leb_le. lia. Qed.

(** A read returns what the abstract store holds; it may drop an expired
    entry, which no later reader can tell. *)
Lemma get_attributes_spec now id s r s' :
  get_attributes (Some now) id s = (r, s') ->
  r <> Panic /\ (forall o, r = Ok o -> o = attributes_at now s id) /\
  (forall now' id', (now <= now')%Z -> attributes_at now' s' id' = attributes_at now' s id').
Proof.
  unfold get_attributes, attributes_at. intros Hg.
  apply sbind_inv in Hg as [(a & s1 & Hg & Hk)|[(e & Hg & ->)|[Hg ->]]];
    apply get_law in Hg as (Hc & Hp & Ho); [..|done].
  2:{ split; [done|split; [done|]]. intros now' id' _. by rewrite Hc. }
  specialize (Ho a eq_refl) as ->. destruct (contents s ATTRIBUTES_KEY id) as [d|] eqn:Ed.
  2:{ injection Hk as <- <-. split; [done|split; [by intros o [= <-]|]].
      intros now' id' _. by rewrite Hc. }
  destruct (decode_entry d) as [e|] eqn:Ee.
  2:{ cbv [sbind slift ok_or] in Hk. injection Hk as <- <-. split; [done|split; [done|]].
      intros now' id' _. by rewrite Hc. }
  erewrite !sbind_run in Hk by done. simpl. rewrite Ee. simpl.
  assert (Hkeep : forall (o : option AttributesEntry), sret (E := Error) o s1 = (r, s') ->
    o = unexpired now e ->
    r <> Panic /\ (forall o, r = Ok o -> o = unexpired now e) /\
    (forall now' id', (now <= now')%Z ->
      (contents s' ATTRIBUTES_KEY id' ≫= decode_entry) ≫= unexpired now' =
      (contents s ATTRIBUTES_KEY id' ≫= decode_entry) ≫= unexpired now')).
  { intros o [= <- <-] ->. split; [done|split; [by intros o [= <-]|]].
    intros now' id' _. by rewrite Hc. }
  unfold unexpired, is_expired in *. destruct (expires e) as [x|] eqn:Ex; [|by apply Hkeep in Hk].
  destruct (x <=? now)%Z eqn:Hx; [|by apply Hkeep in Hk].
  apply sbind_inv in Hk as [(u & s2 & Hd & Hk)|[(er & Hd & ->)|[Hd ->]]];
    apply del_law in Hd as (Hp' & Hok & Herr); [| |done].
  - injection Hk as <- <-. split; [done|split; [by intros o [= <-]|]]. intros now' id' Hn.
    destruct u. rewrite Hok, Hc by done. case_bool_decide as Hb; [|done]. destruct Hb as [_ ->].
    rewrite Ed. simpl. rewrite Ee. simpl. rewrite Ex.
    by rewrite (proj2 (Z.leb_le _ _)) by (apply Z.leb_le in Hx; lia).
  - split; [done|split; [done|]]. intros now' id' _. by rewrite Herr, Hc.
Qed.

Lemma put_attributes_spec id e s s' :
  put_attributes id e s = (Ok tt, s') ->
  forall now id', attributes_at now s' id' =
    if bool_decide (id' = id) then unexpired now e else attributes_at now s id'.
Proof.
  unfold put_attributes, attributes_at.
  intros (u & s1 & Hs & [= ->])%sbind_ok now id'. destruct u.
  apply set_law in Hs as (_ & Hok & _). rewrite Hok by done.
  repeat case_bool_decide; try naive_solver. simpl. by rewrite decode_encode_entry.
Qed.

Lemma delete_attributes_spec id s s' :
  delete_attributes id s = (Ok tt, s') ->
  forall now id', attributes_at now s' id' =
    if bool_decide (id' = id) then None else attributes_at now s id'.
Proof.
  unfold delete_attributes, attributes_at. intros Hs now id'.
  apply del_law in Hs as (_ & Hok & _). rewrite Hok by done.
  repeat case_bool_decide; naive_solver.
Qed.

(** The attribute store is a map from identities to entries that expire.
    Over any storage that keeps what it is given, a stored entry is read back
    until its expiration time and never after, replaces the previous entry of
    the identity, and does not touch the attributes of others; deleting
    removes exactly one identity; a read never changes what anybody can read
    later, although it removes expired entries. *)
Theorem attribute_store_refines_map id e s s1 now id' r s2 :
  put_attributes id e s = (Ok tt, s1) ->
  get_attributes (Some now) id' s1 = (r, s2) ->
  (forall o, r = Ok o ->
     o = if bool_decide (id' = id) then unexpired now e else attributes_at now s id') /\
  r <> Panic /\
  (forall now' i, (now <= now')%Z -> attributes_at now' s2 i = attributes_at now' s1 i) /\
  (forall s3, delete_attributes id s2 = (Ok tt, s3) -> forall now' i, (now <= now')%Z ->
     attributes_at now' s3 i = if bool_decide (i = id) then None else attributes_at now' s i).
Proof.
  intros Hp Hg. apply get_attributes_spec in Hg as (Hnp & Ho & Hs).
  pose proof (put_attributes_spec _ _ _ _ Hp) as Hput. split; [|split; [done|split; [done|]]].
  - intros o Hr. rewrite (Ho o Hr). apply Hput.
  - intros s3 Hd now' i Hn. rewrite (delete_attributes_spec _ _ _ Hd).
    case_bool_decide as Hi; [done|]. rewrite Hs, Hput by done. by rewrite bool_decide_false.
Qed.

(** Setting a single attribute makes all attributes of the identity
    permanent: the new entry keeps the current attributes but has no
    expiration time, and names the identity itself as the attester. *)
Theorem put_attribute_value_drops_expiry now id name value s s' :
  put_attribute_value (Some now) id name value s = (Ok tt, s') ->
  forall now', (now <= now')%Z -> attributes_at now' s' id = Some (mkAttributesEntry
    (<[name := value]> (from_option attrs ∅ (attributes_at now s id))) now None (Some id)).
Proof.
  intros (o & s1 & Hg & Hk)%sbind_ok now' Hn.
  apply get_attributes_spec in Hg as (_ & Ho & _). specialize (Ho o eq_refl) as ->.
  rewrite (sbind_run (slift (unwrap (Some now))) _ s1 now s1 eq_refl) in Hk.
  rewrite (put_attributes_spec _ _ _ _ Hk), bool_decide_true by done.
  by destruct (attributes_at now s id).
Qed.

(** *** Access control on credentials *)

Context `{InfoCodec}.

Lemma check_required_spec req a :
  check_required req a = true <-> Forall (fun '(k, v) => a !! k = Some v) req.
Proof.
  induction req as [|[k v] req IH]; simpl; [done|]. rewrite list.Forall_cons, <- IH.
  destruct (a !! k) as [w|]; [|naive_solver]. case_bool_decide; simpl; naive_solver.
Qed.

(** [CredentialAccessControl] authorizes a message exactly when it came
    through a secure channel and the store holds, unexpired, attributes of
    the identity at the other end that include every required pair. *)
Theorem credential_access_decision req now m s b s' :
  Credential_is_authorized req (Some now) m s = (Ok b, s') ->
  b = true <-> exists id e, find_info (rm_local_msg m) = Ok id /\
    attributes_at now s id = Some e /\ Forall (fun '(k, v) => attrs e !! k = Some v) req.
Proof.
  unfold Credential_is_authorized. destruct (find_info (rm_local_msg m)) as [id| |]; [..|done].
  2:{ intros [= <- <-]. split; [done|]. by intros (? & ? & ? & _). }
  intros (o & s1 & Hg & Hk)%sbind_ok. apply get_attributes_spec in Hg as (_ & Ho & _).
  specialize (Ho o eq_refl) as ->. destruct (attributes_at now s id) as [e|] eqn:Ea.
  - injection Hk as <- <-. rewrite check_required_spec.
    split; [by intros ?; exists id, e|].
    intros (? & ? & [= <-] & He & ?). by rewrite Ea in He; injection He as <-.
  - injection Hk as <- <-. split; [done|]. intros (? & ? & [= <-] & He & _). by rewrite Ea in He.
Qed.
End AttributeStore.

(** ** Concrete instances *)

(** A codec for the strings: the identity. *)
#[export] Instance plain_info : InfoCodec := {| encode_info := fun s => s; decode_info := Some |}.
#[export] Instance plain_info_laws : InfoCodecLaws.
Proof. split. done. Qed.

Lemma mark_find_witness :
  let forged := mkLocalInfo IDENTITY_SECURE_CHANNEL_IDENTIFIER (str "Pmallory") in
  let other := mkLocalInfo (str "OTHER") (str "x") in
  valid_id (str "Palice") /\ find_info_from_list [forged; other] = Ok (str "Pmallory") /\
  find_info_from_list (mark [forged; other] (str "Palice")) = Ok (str "Palice").
Proof.
  split; [vm_compute; reflexivity|]. split; [vm_compute; reflexivity|].
  apply (mark_find _ (str "Palice")). vm_compute. reflexivity.
Defined.

(** A codec for the entries, through the binary numbers that enumerate them. *)
#[export] Instance entry_eq_dec : EqDecision AttributesEntry.
Proof. solve_decision. Defined.
#[export] Program Instance entry_countable : Countable AttributesEntry :=
  inj_countable (fun e => (attrs e, added e, expires e, attested_by e))
    (fun '(a, b, c, d) => Some (mkAttributesEntry a b c d)) _.
Next Obligation. by intros []. Qed.

Fixpoint positive_bits (p : positive) : bytes :=
  match p with
  | xH => []
  | xO p => Byte.x00 :: positive_bits p
  | xI p => Byte.x01 :: positive_bits p
  end.

Fixpoint bits_positive (l : bytes) : positive :=
  match l with
  | [] => xH
  | b :: l => if bool_decide (b = Byte.x00) then xO (bits_positive l) else xI (bits_positive l)
  end.

Lemma bits_positive_bits p : bits_positive (positive_bits p) = p.
Proof. induction p as [p IH|p IH|]; simpl; by rewrite ?IH. Qed.

#[export] Instance toy_entries : EntryCodec := {|
  encode_entry := fun e => positive_bits (encode e);
  decode_entry := fun l => decode (bits_positive l)
|}.
#[export] Instance toy_entries_laws : EntryCodecLaws.
Proof. split. intros e. simpl. by rewrite bits_positive_bits, decode_encode. Qed.

Definition sample_entry : AttributesEntry :=
  mkAttributesEntry {[str "r" := str "a"]} 10 (Some 100%Z) None.
Definition sample_store : InMemoryStorage := (put_attributes (str "Palice") sample_entry ∅).2.

Lemma attribute_store_refines_map_witness :
  (get_attributes (Some 99%Z) (str "Palice") sample_store).1 = Ok (Some sample_entry) /\
  (get_attributes (Some 100%Z) (str "Palice") sample_store).1 = Ok None.
Proof.
  split.
  - destruct (get_attributes (Some 99%Z) (str "Palice") sample_store) as [r s2] eqn:E.
    destruct (attribute_store_refines_map (str "Palice") sample_entry ∅ sample_store 99
      (str "Palice") r s2) as (Ho & Hp & _); [reflexivity|exact E|].
    simpl. destruct r as [o| |]; [|discriminate E|by destruct Hp].
    rewrite (Ho o eq_refl). reflexivity.
  - destruct (get_attributes (Some 100%Z) (str "Palice") sample_store) as [r s2] eqn:E.
    destruct (attribute_store_refines_map (str "Palice") sample_entry ∅ sample_store 100
      (str "Palice") r s2) as (Ho & Hp & _); [reflexivity|exact E|].
    simpl. destruct r as [o| |]; [|discriminate E|by destruct Hp].
    rewrite (Ho o eq_refl). reflexivity.
Defined.

Lemma put_attribute_value_drops_expiry_witness :
  let s' := (put_attribute_value (Some 50%Z) (str "Palice") (str "b") (str "c") sample_store).2 in
  exists e,
    attributes_at 1000000 s' (str "Palice") = Some e /\ attrs e !! str "r" = Some (str "a").
Proof.
  cbv zeta.
  destruct (put_attribute_value (Some 50%Z) (str "Palice") (str "b") (str "c") sample_store)
    as [r s2] eqn:E.
  assert (Hr : r = Ok tt) by (change r with (r, s2).1; rewrite <- E; vm_compute; reflexivity).
  rewrite Hr in E. eexists. split.
  - apply (put_attribute_value_drops_expiry 50 (str "Palice") (str "b") (str "c") sample_store s2 E);
      lia.
  - vm_compute. reflexivity.
Defined.

Definition sample_relay : RelayMessage :=
  mkRelayMessage (Address_from_vec (str "c")) (Address_from_vec (str "d"))
    (mkLocalMessage (TransportMessage_v1 [] [] []) [to_local_info (str "Palice")]).

Lemma credential_access_decision_witness :
  (Credential_is_authorized [(str "r", str "a")] (Some 99%Z) sample_relay sample_store).1
  = Ok true.
Proof.
  destruct (Credential_is_authorized [(str "r", str "a")] (Some 99%Z) sample_relay sample_store)
    as [r s'] eqn:E.
  assert (Hr : exists b, r = Ok b)
    by (change r with (r, s').1; rewrite <- E; eexists; vm_compute; reflexivity).
  destruct Hr as [b Hr]. rewrite Hr in E |- *. simpl. f_equal.
  apply (credential_access_decision _ _ _ _ _ _ E).
  exists (str "Palice"), sample_entry. split; [vm_compute; reflexivity|].
  split; [vm_compute; reflexivity|]. repeat constructor.
Defined.
