(* ===== verification/Identities.v ===== *)
(** * Identities and their change histories (ockam_identity/src/identity, identities)

    An identity is a chain of signed changes: its keys, each with a label, the
    first one the root key whose hash is the identifier.  This file has the
    changes and histories, their verification ([IdentitiesKeys::verify_change]),
    the operations that create and rotate keys, import and export, and the
    repository of known identities.

    The state of a computation is the vault with the storage of the repository.
    The BARE encodings and the hexadecimal decoding are code of other crates:
    the classes [IdentityCodec] and [HexDecode]. *)

From Stdlib Require Import ZArith Lia.
From Stdlib Require Strings.Byte Strings.String.
From stdpp Require Import base gmap list numbers option countable.
From S2P Require Import Prelude RustStr Routing AccessControl KeyTracker Vault Attributes.

(** Identity errors, those of the vault and of the storage, and the errors of
    the application with their text. *)
Inductive IdError :=
| ConsistencyError
| InvalidInternalState
| IdentityVerificationFailed
| BareError
| UnknownAuthority
| IdentityNotFound
| CborError
| ApplicationInvalid (msg : bytes)
| CoreInternal (msg : bytes)
| VaultErr (e : VaultError)
| StoreErr (e : Error).

(** ** Changes (identity/identity_change) *)

Inductive SecretPersistence := Ephemeral | Persistent.

Record SecretAttributesV1 := mkSecretAttributesV1 {
  sa_stype : SecretType;
  sa_persistence : SecretPersistence;
  sa_length : Z
}.

Record KeyAttributes := mkKeyAttributes {
  ka_label : bytes;
  ka_secret_attributes : SecretAttributesV1
}.

Definition KeyAttributes_secret_attributes (k : KeyAttributes) : SecretAttributes :=
  let a := ka_secret_attributes k in
  match sa_stype a with
  | TBuffer => Buffer (sa_length a)
  | TAes => if (sa_length a =? AES256_SECRET_LENGTH)%Z then Aes256 else Aes128
  | TX25519 => X25519
  | TEd25519 => Ed25519
  | TNistP256 => NistP256
  end.

Definition KeyAttributes_new (label : bytes) (a : SecretAttributes) : KeyAttributes :=
  mkKeyAttributes label (mkSecretAttributesV1 (secret_type a) Persistent (attributes_length a)).

Definition default_with_label (label : bytes) : KeyAttributes := KeyAttributes_new label Ed25519.

(** [ChangeIdentifier([u8; 32])] *)
Notation ChangeIdentifier := bytes.

Record CreateKeyChangeData := mkCreateKey {
  ck_prev_change_id : ChangeIdentifier;
  ck_key_attributes : KeyAttributes;
  ck_public_key : PublicKey
}.

Record RotateKeyChangeData := mkRotateKey {
  rk_prev_change_id : ChangeIdentifier;
  rk_key_attributes : KeyAttributes;
  rk_public_key : PublicKey
}.

Inductive IdentityChange :=
| CreateKey (data : CreateKeyChangeData)
| RotateKey (data : RotateKeyChangeData).

Definition change_label (c : IdentityChange) : bytes :=
  match c with
  | CreateKey data => ka_label (ck_key_attributes data)
  | RotateKey data => ka_label (rk_key_attributes data)
  end.

Definition has_label (l : bytes) (c : IdentityChange) : bool := bool_decide (change_label c = l).

Definition change_public_key (c : IdentityChange) : PublicKey :=
  match c with
  | CreateKey data => ck_public_key data
  | RotateKey data => rk_public_key data
  end.

Definition previous_change_identifier (c : IdentityChange) : ChangeIdentifier :=
  match c with
  | CreateKey data => ck_prev_change_id data
  | RotateKey data => rk_prev_change_id data
  end.

Inductive SignatureType := RootSign | SelfSign | PrevSign.

#[export] Instance SignatureType_eq_dec : EqDecision SignatureType.
Proof. solve_decision. Defined.

Record Signature := mkSignature {
  sig_stype : SignatureType;
  sig_data : bytes
}.

Record IdentitySignedChange := mkSignedChange {
  sc_identifier : ChangeIdentifier;
  sc_change : IdentityChange;
  sc_signatures : list Signature
}.

(** [IdentityChangeConstants] *)
Definition INITIAL_CHANGE : bytes := str "OCKAM_INITIAL_CHANGE".
Definition ROOT_LABEL : bytes := str "OCKAM_RK".
Definition CHANGE_HISTORY_KEY : bytes := str "CHANGE_HISTORY".

(** ** Histories (identity/identity_change_history.rs) *)

Inductive IdentityHistoryComparison := Equal | Conflict | Newer | Older.

Notation IdentityChangeHistory := (list IdentitySignedChange).

(** The BARE encoding of a change and of a history. *)
Class IdentityCodec := {
  encode_change : IdentityChange -> option bytes;
  encode_history : IdentityChangeHistory -> option bytes;
  decode_history : bytes -> option IdentityChangeHistory
}.

Class HexDecode := hex_decode : bytes -> option bytes.

(** The loop of [check_consistency], from the last existing change. *)
Fixpoint consistency_loop (prev : option IdentitySignedChange) (new : list IdentitySignedChange)
  : bool :=
  match new with
  | [] => true
  | change :: new =>
      match prev with
      | Some p =>
          if negb (bool_decide (sc_identifier p = previous_change_identifier (sc_change change)))
          then false
          else consistency_loop (Some change) new
      | None => consistency_loop (Some change) new
      end
  end.

Definition check_consistency (existing new : list IdentitySignedChange) : bool :=
  consistency_loop (list.last existing) new.

Definition check_consistency_and_add_change (change : IdentitySignedChange)
    (self : IdentityChangeHistory) : result IdError IdentityChangeHistory :=
  if negb (check_consistency self [change]) then Err IdentityVerificationFailed
  else Ok (self ++ [change]).

Definition check_entire_consistency (self : IdentityChangeHistory) : result IdError unit :=
  if negb (check_consistency [] self) then Err ConsistencyError else Ok tt.

(** The loop over the pairs of changes, then the lengths. *)
Fixpoint history_conflict (self known : IdentityChangeHistory) : bool :=
  match self, known with
  | a :: self, b :: known =>
      if negb (bool_decide (sc_identifier a = sc_identifier b)) then true
      else history_conflict self known
  | _, _ => false
  end.

Definition history_compare (self known : IdentityChangeHistory) : IdentityHistoryComparison :=
  if history_conflict self known then Conflict
  else match Nat.compare (length self) (length known) with
       | Lt => Older
       | Eq => Equal
       | Gt => Newer
       end.

Definition find_last_key_change (existing : list IdentitySignedChange) (label : bytes)
  : result IdError IdentitySignedChange :=
  match list_find (fun e => has_label label (sc_change e) = true) (rev existing) with
  | Some (_, e) => Ok e
  | None => Err InvalidInternalState
  end.

Definition find_last_key_change_public_key (existing : list IdentitySignedChange) (label : bytes)
  : result IdError PublicKey :=
  let? last_key_change := find_last_key_change existing label in
  Ok (change_public_key (sc_change last_key_change)).

Definition get_current_root_public_key (existing : list IdentitySignedChange)
  : result IdError PublicKey := find_last_key_change_public_key existing ROOT_LABEL.

Definition get_public_key_static (changes : list IdentitySignedChange) (label : bytes)
  : result IdError PublicKey :=
  let? change := find_last_key_change changes label in
  Ok (change_public_key (sc_change change)).

Definition get_first_root_public_key (self : IdentityChangeHistory) : result IdError PublicKey :=
  match self with
  | [] => Err InvalidInternalState
  | root_change :: _ =>
      match sc_change root_change with
      | CreateKey c => Ok (ck_public_key c)
      | RotateKey _ => Err InvalidInternalState
      end
  end.

Definition get_last_change_id (self : IdentityChangeHistory) : result IdError ChangeIdentifier :=
  match list.last self with
  | Some e => Ok (sc_identifier e)
  | None => Err InvalidInternalState
  end.

(** ** Identities (identity/identity.rs) *)

Record Identity := mkIdentity {
  identifier : IdentityIdentifier;
  change_history : IdentityChangeHistory
}.

Definition Identity_add_change (change : IdentitySignedChange) (self : Identity)
  : result IdError Identity :=
  let? h := check_consistency_and_add_change change (change_history self) in
  Ok (mkIdentity (identifier self) h).

Definition Identity_get_public_key (self : Identity) (key_label : option bytes)
  : result IdError PublicKey :=
  match key_label with
  | Some label => get_public_key_static (change_history self) label
  | None => get_public_key_static (change_history self) ROOT_LABEL
  end.

Section Codec.
Context `{IdentityCodec}.

Definition history_export (self : IdentityChangeHistory) : result IdError bytes :=
  ok_or (encode_history self) ConsistencyError.

Definition history_import (data : bytes) : result IdError IdentityChangeHistory :=
  let? s := ok_or (decode_history data) ConsistencyError in
  let? _ := check_entire_consistency s in
  Ok s.

Definition Identity_import (id : IdentityIdentifier) (data : bytes) : result IdError Identity :=
  let? h := history_import data in
  Ok (mkIdentity id h).
End Codec.

(** ** Verification (identities/identity_keys.rs) *)

Section Verification.
Context {C : Crypto} `{IdentityCodec}.

(** [struct SignaturesCheck]: how many signatures of each kind are missing. *)
Record SignaturesCheck := mkSignaturesCheck {
  self_sign : nat;
  prev_sign : nat;
  root_sign : nat
}.

(** [Vault::sha256] of the encoded change *)
Definition change_id_of (change : IdentityChange) : result IdError ChangeIdentifier :=
  let? change_binary := ok_or (encode_change change) BareError in
  Ok (sha256_digest change_binary).

(** The counter of a signature, the key it must verify with, and the check with
    the counter decremented. *)
Definition signature_key (existing : list IdentitySignedChange) (new_change : IdentitySignedChange)
    (check : SignaturesCheck) (t : SignatureType)
  : result IdError (nat * PublicKey * SignaturesCheck) :=
  match t with
  | RootSign =>
      match existing with
      | [] => Err IdentityVerificationFailed
      | _ =>
          let? pk := get_current_root_public_key existing in
          Ok (root_sign check, pk,
              mkSignaturesCheck (self_sign check) (prev_sign check) (root_sign check - 1))
      end
  | SelfSign =>
      Ok (self_sign check, change_public_key (sc_change new_change),
          mkSignaturesCheck (self_sign check - 1) (prev_sign check) (root_sign check))
  | PrevSign =>
      let? pk := get_public_key_static existing (change_label (sc_change new_change)) in
      Ok (prev_sign check, pk,
          mkSignaturesCheck (self_sign check) (prev_sign check - 1) (root_sign check))
  end.

Fixpoint signatures_loop (existing : list IdentitySignedChange) (new_change : IdentitySignedChange)
    (change_id : ChangeIdentifier) (check : SignaturesCheck) (signatures : list Signature)
  : result IdError SignaturesCheck :=
  match signatures with
  | [] => Ok check
  | signature :: signatures =>
      let? (counter, public_key, check') :=
        signature_key existing new_change check (sig_stype signature) in
      if (counter =? 0)%nat then Err IdentityVerificationFailed
      else
        let? b := map_err VaultErr (verify public_key change_id (sig_data signature)) in
        if negb b then Err IdentityVerificationFailed
        else signatures_loop existing new_change change_id check' signatures
  end.

Definition verify_change (existing : list IdentitySignedChange) (new_change : IdentitySignedChange)
  : result IdError unit :=
  let? change_id := change_id_of (sc_change new_change) in
  if negb (bool_decide (change_id = sc_identifier new_change)) then Err IdentityVerificationFailed
  else
    let signatures_check :=
      match sc_change new_change with
      | CreateKey _ => mkSignaturesCheck 1 0 (match existing with [] => 0 | _ => 1 end)
      | RotateKey _ => mkSignaturesCheck 1 1 1
      end in
    let? check := signatures_loop existing new_change change_id signatures_check
                    (sc_signatures new_change) in
    if ((prev_sign check =? 0) && (root_sign check =? 0) && (self_sign check =? 0))%nat
    then Ok tt else Err IdentityVerificationFailed.

(** [for i in 0..len]: the changes before the [i]-th, and the [i]-th. *)
Fixpoint verify_from (existing rest : list IdentitySignedChange) : result IdError unit :=
  match rest with
  | [] => Ok tt
  | new_change :: rest =>
      let? _ := verify_change existing new_change in
      verify_from (existing ++ [new_change]) rest
  end.

Definition verify_all_existing_changes (identity_changes : IdentityChangeHistory)
  : result IdError unit := verify_from [] identity_changes.

Definition IdentitiesKeys_verify_signature (identity : Identity) (signature data : bytes)
    (key_label : option bytes) : result IdError bool :=
  let? public_key := Identity_get_public_key identity key_label in
  map_err VaultErr (verify public_key data signature).

(** ** Import (identities/identities_creation.rs) *)

Definition IdentityIdentifier_from_public_key (pk : PublicKey) : IdentityIdentifier :=
  IdentityIdentifier_from_hex (hex_encode (sha256_digest (pk_data pk))).

Definition compute_identity_identifier (h : IdentityChangeHistory)
  : result IdError IdentityIdentifier :=
  let? root_public_key := get_first_root_public_key h in
  Ok (IdentityIdentifier_from_public_key root_public_key).

Definition IdentitiesCreation_decode_identity (data : bytes) : result IdError Identity :=
  let? change_history := history_import data in
  let? _ := verify_all_existing_changes change_history in
  let? id := compute_identity_identifier change_history in
  Ok (mkIdentity id change_history).

Definition decode_identity_hex `{HexDecode} (data : bytes) : result IdError Identity :=
  let? d := ok_or (hex_decode data) ConsistencyError in
  IdentitiesCreation_decode_identity d.
End Verification.

(** ** Operations on the vault and the repository *)

Section Operations.
Context {C : Crypto} `{IdentityCodec} {S : Type} `{Storage S}.

Notation id_m := (stm (Vault * S) IdError).

Definition in_vault {A} (m : stm Vault VaultError A) : id_m A :=
  fun '(v, s) => let (r, v') := m v in (map_err VaultErr r, (v', s)).

Definition in_storage {A} (m : stm S Error A) : id_m A :=
  fun '(v, s) => let (r, s') := m s in (map_err StoreErr r, (v, s')).

(** *** The repository (identities/storage/identities_repository.rs) *)

Definition put_identity (identity : Identity) : id_m unit :=
  let! data := slift (history_export (change_history identity)) in
  in_storage (storage_set (identifier identity) CHANGE_HISTORY_KEY data).

Definition retrieve_identity (id : IdentityIdentifier) : id_m (option Identity) :=
  let! o := in_storage (storage_get id CHANGE_HISTORY_KEY) in
  match o with
  | Some data => let! i := slift (Identity_import id data) in sret (Some i)
  | None => sret None
  end.

Definition get_identity (id : IdentityIdentifier) : id_m Identity :=
  let! o := retrieve_identity id in
  match o with
  | Some identity => sret identity
  | None => serr IdentityNotFound
  end.

Definition IdentitiesStorage_update_identity (identity : Identity) : id_m unit :=
  let! o := retrieve_identity (identifier identity) in
  let! should_set :=
    match o with
    | Some known =>
        match history_compare (change_history identity) (change_history known) with
        | Equal => sret false
        | Conflict => serr ConsistencyError
        | Newer => sret true
        | Older => serr ConsistencyError
        end
    | None => sret true
    end in
  if should_set : bool then put_identity identity else sret tt.

(** *** Keys (identities/identity_keys.rs) *)

Definition get_secret_key_from_change (change : IdentitySignedChange) : id_m KeyId :=
  in_vault (get_key_id (change_public_key (sc_change change))).

Definition get_labelled_key (identity : Identity) (label : bytes) : id_m KeyId :=
  let! change := slift (find_last_key_change (change_history identity) label) in
  get_secret_key_from_change change.

Definition get_root_secret_key (identity : Identity) : id_m KeyId :=
  get_labelled_key identity ROOT_LABEL.

Definition get_secret_key (identity : Identity) (key_label : option bytes) : id_m KeyId :=
  match key_label with
  | Some label => get_labelled_key identity label
  | None => get_root_secret_key identity
  end.

Definition create_signature (identity : Identity) (data : bytes) (key_label : option bytes)
  : id_m bytes :=
  let! secret := get_secret_key identity key_label in
  in_vault (sign secret data).

Definition make_change_identifier : ChangeIdentifier := sha256_digest INITIAL_CHANGE.

Definition generate_key_if_needed (secret : option KeyId) (key_attributes : KeyAttributes)
  : id_m KeyId :=
  match secret with
  | Some s => sret s
  | None =>
      in_vault (create_persistent_secret (KeyAttributes_secret_attributes key_attributes))
  end.

Definition make_create_key_change_static (secret : option KeyId) (prev_id : ChangeIdentifier)
    (key_attributes : KeyAttributes) (root_key : option KeyId) : id_m IdentitySignedChange :=
  let! secret_key := generate_key_if_needed secret key_attributes in
  let! public_key := in_vault (get_public_key secret_key) in
  let change_block := CreateKey (mkCreateKey prev_id key_attributes public_key) in
  let! change_id := slift (change_id_of change_block) in
  let! self_signature := in_vault (sign secret_key change_id) in
  let signatures := [mkSignature SelfSign self_signature] in
  let! signatures :=
    match root_key with
    | Some root_key =>
        let! root_signature := in_vault (sign root_key change_id) in
        sret (signatures ++ [mkSignature RootSign root_signature])
    | None => sret signatures
    end in
  sret (mkSignedChange change_id change_block signatures).

Definition make_create_key_change (identity : Identity) (secret : option KeyId)
    (key_attributes : KeyAttributes) : id_m IdentitySignedChange :=
  let change_history := change_history identity in
  if is_ok (find_last_key_change change_history (ka_label key_attributes))
  then serr InvalidInternalState
  else
    let prev_id := match get_last_change_id change_history with
                   | Ok prev_id => prev_id
                   | _ => make_change_identifier
                   end in
    let! root_secret := get_root_secret_key identity in
    make_create_key_change_static secret prev_id key_attributes (Some root_secret).

Definition make_rotate_key_change (identity : Identity) (key_attributes : KeyAttributes)
  : id_m IdentitySignedChange :=
  let! prev_change_id := slift (get_last_change_id (change_history identity)) in
  let! last_change_in_chain :=
    slift (find_last_key_change (change_history identity) (ka_label key_attributes)) in
  let! last_key_in_chain := get_secret_key_from_change last_change_in_chain in
  let secret_attributes := KeyAttributes_secret_attributes key_attributes in
  let! secret_key := in_vault (create_persistent_secret secret_attributes) in
  let! public_key := in_vault (get_public_key secret_key) in
  let change_block := RotateKey (mkRotateKey prev_change_id key_attributes public_key) in
  let! change_id := slift (change_id_of change_block) in
  let! self_signature := in_vault (sign secret_key change_id) in
  let! root_key := get_root_secret_key identity in
  let! root_signature := in_vault (sign root_key change_id) in
  let! prev_signature := in_vault (sign last_key_in_chain change_id) in
  sret (mkSignedChange change_id change_block
          [mkSignature SelfSign self_signature; mkSignature RootSign root_signature;
           mkSignature PrevSign prev_signature]).

(** The operations that take [&mut Identity] return the identity they leave. *)
Definition create_key (identity : Identity) (label : bytes) : id_m Identity :=
  let! change := make_create_key_change identity None (default_with_label label) in
  slift (Identity_add_change change identity).

Definition rotate_key (identity : Identity) (label : bytes) : id_m Identity :=
  let! change := make_rotate_key_change identity (default_with_label label) in
  slift (Identity_add_change change identity).

Definition rotate_root_key (identity : Identity) : id_m Identity :=
  let! change := make_rotate_key_change identity (default_with_label ROOT_LABEL) in
  slift (Identity_add_change change identity).

Definition add_key (identity : Identity) (label : bytes) (secret : KeyId) : id_m Identity :=
  let! secret_attributes := in_vault (get_secret_attributes secret) in
  let key_attribs := KeyAttributes_new label secret_attributes in
  let! change := make_create_key_change identity (Some secret) key_attribs in
  slift (Identity_add_change change identity).

Definition create_signed_static_key (identity : Identity) : id_m (KeyId * bytes) :=
  let! static_key_id := in_vault (create_ephemeral_secret X25519) in
  let! public_static_key := in_vault (get_public_key static_key_id) in
  let! signature := create_signature identity (pk_data public_static_key) None in
  sret (static_key_id, signature).

(** *** Creation (identities/identities_creation.rs) *)

Definition create_initial_key (key_id : option KeyId) (key_attribs : KeyAttributes)
  : id_m IdentityChangeHistory :=
  let! create_key_change :=
    make_create_key_change_static key_id make_change_identifier key_attribs None in
  let change_history := [create_key_change] in
  let! _ := slift (check_entire_consistency change_history) in
  let! _ := slift (verify_all_existing_changes change_history) in
  sret change_history.

Definition make_and_persist_identity (key_id : option KeyId) (key_attributes : KeyAttributes)
  : id_m Identity :=
  let! change_history := create_initial_key key_id key_attributes in
  let! id := slift (compute_identity_identifier change_history) in
  let identity := mkIdentity id change_history in
  let! _ := IdentitiesStorage_update_identity identity in
  sret identity.

Definition create_identity : id_m Identity :=
  make_and_persist_identity None (KeyAttributes_new ROOT_LABEL Ed25519).

Definition create_identity_with_existing_key (kid : KeyId) (attrs : KeyAttributes)
  : id_m Identity := make_and_persist_identity (Some kid) attrs.

Definition import_private_identity `{HexDecode} (identity_history secret : bytes)
  : id_m Identity :=
  let! secret := slift (unwrap (hex_decode secret)) in
  let key_attributes := default_with_label ROOT_LABEL in
  let! _ := in_vault (import_ephemeral_secret secret
                        (KeyAttributes_secret_attributes key_attributes)) in
  let! data := slift (ok_or (hex_decode identity_history) InvalidInternalState) in
  let! identity := slift (IdentitiesCreation_decode_identity data) in
  let! _ := IdentitiesStorage_update_identity identity in
  sret identity.
End Operations.
