(* ===== verification/IdentitySpec.v ===== *)
(** * What the verification of an identity establishes

    A declarative reading of change histories ([valid_history], [chained]) that
    the verification code decides, what a change identifier commits to, and the
    repository, which only replaces a known history by one that extends it. *)

From Stdlib Require Import ZArith Lia Permutation.
From Stdlib Require Strings.Byte Strings.String.
From stdpp Require Import base gmap list numbers option countable.
From S2P Require Import Prelude RustStr Routing AccessControl KeyTracker Vault Attributes.
From S2P Require Import Identities.

(** ** The specification *)

(** What the users of the encoding rely on: encoding does not fail, different
    changes have different encodings, and a history is read back. *)
Class IdentityCodecLaws `{IdentityCodec} : Prop := {
  encode_change_total : forall c, is_Some (encode_change c);
  encode_change_inj : forall c c' b, encode_change c = Some b -> encode_change c' = Some b -> c = c';
  decode_encode_history : forall h, exists b, encode_history h = Some b /\ decode_history b = Some h
}.

Section Spec.
Context {C : Crypto} `{IdentityCodec}.

Implicit Types (h existing : IdentityChangeHistory) (c : IdentitySignedChange).

(** The key that the last change with a label sets. *)
Definition latest_key h (label : bytes) : option PublicKey :=
  list.last (map (fun c => change_public_key (sc_change c))
               (filter (fun c => change_label (sc_change c) = label) h)).

(** The kinds of signatures a change must carry. *)
Definition required existing (c : IdentityChange) : list SignatureType :=
  match c with
  | CreateKey _ => match existing with [] => [SelfSign] | _ => [SelfSign; RootSign] end
  | RotateKey _ => [SelfSign; RootSign; PrevSign]
  end.

(** The key a signature is made with. *)
Definition signing_key existing c (t : SignatureType) : option PublicKey :=
  match t with
  | RootSign => latest_key existing ROOT_LABEL
  | SelfSign => Some (change_public_key (sc_change c))
  | PrevSign => latest_key existing (change_label (sc_change c))
  end.

Definition signed_by existing c (s : Signature) : Prop :=
  exists pk, signing_key existing c (sig_stype s) = Some pk /\
    verify pk (sc_identifier c) (sig_data s) = Ok true.

(** A change that may follow the existing ones. *)
Record valid_change existing c : Prop := {
  vc_identifier : exists b, encode_change (sc_change c) = Some b /\ sc_identifier c = sha256_digest b;
  vc_kinds : map sig_stype (sc_signatures c) ≡ₚ required existing (sc_change c);
  vc_signed : Forall (signed_by existing c) (sc_signatures c)
}.

Definition valid_history h : Prop :=
  forall pre c post, h = pre ++ c :: post -> valid_change pre c.

(** Each change names the one before it. *)
Definition chained h : Prop :=
  forall i a b, h !! i = Some a -> h !! S i = Some b ->
    previous_change_identifier (sc_change b) = sc_identifier a.

(** Changes at the same place of two histories whose encodings differ and have
    the same SHA-256 digest. *)
Definition colliding h h' : Prop :=
  exists j a b x y, h !! j = Some a /\ h' !! j = Some b /\
    encode_change (sc_change a) = Some x /\ encode_change (sc_change b) = Some y /\
    x <> y /\ sha256_digest x = sha256_digest y.

(** ** The last key of a label *)

Lemma find_rev_snoc existing c label :
  find_last_key_change (existing ++ [c]) label =
  if has_label label (sc_change c) then Ok c else find_last_key_change existing label.
Proof.
  unfold find_last_key_change. rewrite rev_app_distr. cbn [rev app list_find].
  destruct (has_label label (sc_change c)) eqn:E.
  - by rewrite decide_True.
  - rewrite decide_False by congruence. by destruct (list_find _ _) as [[]|].
Qed.

Lemma latest_key_snoc existing c label :
  latest_key (existing ++ [c]) label =
  if has_label label (sc_change c) then Some (change_public_key (sc_change c))
  else latest_key existing label.
Proof.
  unfold latest_key, has_label. rewrite list.filter_app, map_app. case_bool_decide as E.
  - rewrite filter_cons_True by done. cbn. by rewrite last_snoc.
  - rewrite filter_cons_False by done. cbn. by rewrite app_nil_r.
Qed.

(** It depends on the changes only. *)
Lemma latest_key_changes h1 h2 label :
  map sc_change h1 = map sc_change h2 -> latest_key h1 label = latest_key h2 label.
Proof.
  intros E. unfold latest_key. f_equal. revert h2 E.
  induction h1 as [|a h1 IH]; intros [|b h2] [=]; [done|].
  rewrite !filter_cons. destruct decide, decide; try congruence; cbn; [f_equal; [congruence|]|]; auto.
Qed.

Lemma find_last_public_key existing label :
  find_last_key_change_public_key existing label =
  ok_or (latest_key existing label) InvalidInternalState.
Proof.
  induction existing as [|c existing IH] using rev_ind; [done|].
  unfold find_last_key_change_public_key in *. rewrite find_rev_snoc, latest_key_snoc.
  by destruct (has_label label (sc_change c)).
Qed.

Lemma get_public_key_latest existing label :
  get_public_key_static existing label = ok_or (latest_key existing label) InvalidInternalState.
Proof. apply find_last_public_key. Qed.

(** ** Verification of one change *)

Definition counts (check : SignaturesCheck) (t : SignatureType) : nat :=
  match t with
  | SelfSign => self_sign check
  | RootSign => root_sign check
  | PrevSign => prev_sign check
  end.

Lemma signature_key_ok existing c check t n pk check' :
  signature_key existing c check t = Ok (n, pk, check') <->
  signing_key existing c t = Some pk /\ n = counts check t /\
    check' = mkSignaturesCheck (self_sign check - if decide (t = SelfSign) then 1 else 0)
               (prev_sign check - if decide (t = PrevSign) then 1 else 0)
               (root_sign check - if decide (t = RootSign) then 1 else 0).
Proof.
  unfold signature_key, signing_key, get_current_root_public_key.
  rewrite find_last_public_key, get_public_key_latest.
  destruct t; repeat (destruct decide; try done); rewrite ?Nat.sub_0_r.
  - destruct existing as [|c0 existing]; [naive_solver|].
    destruct (latest_key (c0 :: existing) ROOT_LABEL); simpl; naive_solver.
  - naive_solver.
  - destruct (latest_key existing _); simpl; naive_solver.
Qed.

Notation count t ss := (count_occ SignatureType_eq_dec (map sig_stype ss) t).

Lemma signatures_loop_ok existing c check ss :
  (exists check', signatures_loop existing c (sc_identifier c) check ss = Ok check' /\
     forall t, counts check' t = 0) <->
  Forall (signed_by existing c) ss /\ forall t, counts check t = count t ss.
Proof.
  revert check. induction ss as [|s ss IH]; intros check; cbn [signatures_loop].
  { split; [intros (? & [= <-] & ?); done|]. intros [_ Hc]. exists check. done. }
  rewrite list.Forall_cons. split.
  - intros (check' & Hl & Hz). inv_ok Hl. destruct a as [[n pk] check1].
    apply signature_key_ok in E as (Hk & -> & ->).
    destruct (Nat.eqb_spec (counts check (sig_stype s)) 0) as [|Hn]; [done|].
    inv_ok Hl. destruct a; [|done]. cbn [negb] in Hl.
    destruct (verify pk (sc_identifier c) (sig_data s)) as [[]| |] eqn:Ev; try done.
    destruct (proj1 (IH _) (ex_intro _ check' (conj Hl Hz))) as [Hf Hc].
    split; [split; [by exists pk | done]|]. intros t. specialize (Hc t). cbn [map count_occ].
    destruct t; cbn [counts self_sign prev_sign root_sign] in *;
      destruct (sig_stype s); repeat destruct decide; try done;
      repeat (destruct (SignatureType_eq_dec _ _); try done); cbn [counts] in Hn; lia.
  - intros [[(pk & Hk & Hv) Hf] Hc].
    rewrite (proj2 (signature_key_ok existing c check (sig_stype s) _ pk _)) by (split_and!; done).
    cbn [rbind]. pose proof (Hc (sig_stype s)) as Hs. cbn [map count_occ] in Hs.
    destruct (SignatureType_eq_dec _ _) as [_|]; [|done].
    destruct (Nat.eqb_spec (counts check (sig_stype s)) 0); [lia|].
    rewrite Hv. cbn [map_err rbind negb]. apply IH. split; [done|].
    intros t. specialize (Hc t). cbn [map count_occ] in Hc.
    destruct t; cbn [counts self_sign prev_sign root_sign] in *;
      destruct (sig_stype s); repeat destruct decide; try done;
      repeat (destruct (SignatureType_eq_dec _ _); try done); lia.
Qed.

(** The counters that [verify_change] starts with. *)
Definition initial_check existing (c : IdentityChange) : SignaturesCheck :=
  match c with
  | CreateKey _ => mkSignaturesCheck 1 0 (match existing with [] => 0 | _ => 1 end)
  | RotateKey _ => mkSignaturesCheck 1 1 1
  end.

Lemma initial_counts existing (ch : IdentityChange) t :
  counts (initial_check existing ch) t = count_occ SignatureType_eq_dec (required existing ch) t.
Proof.
  by destruct ch, t, existing.
Qed.

Lemma all_counted check :
  ((prev_sign check =? 0) && (root_sign check =? 0) && (self_sign check =? 0))%nat = true <->
  forall t, counts check t = 0.
Proof.
  rewrite !andb_true_iff, !Nat.eqb_eq. split.
  - intros [[] ?] []; done.
  - intros Hc. split; [split|]; [apply (Hc PrevSign) | apply (Hc RootSign) | apply (Hc SelfSign)].
Qed.

Lemma verify_change_ok existing c : verify_change existing c = Ok tt <-> valid_change existing c.
Proof.
  unfold verify_change, change_id_of. fold (initial_check existing (sc_change c)).
  destruct (encode_change (sc_change c)) as [b|] eqn:Eb; cbn [ok_or rbind].
  2:{ split; [done|]. intros [(b & E & _) _ _]. congruence. }
  case_bool_decide as Eid; cbn [negb].
  2:{ split; [done|]. intros [(b' & E & Hid) _ _]. congruence. }
  rewrite Eid. pose proof (signatures_loop_ok existing c (initial_check existing (sc_change c))
                             (sc_signatures c)) as Hloop.
  split.
  - intros Hv. inv_ok Hv. destruct (_ && _) eqn:Ez in Hv; [|done]. pose proof (proj1 (all_counted a) Ez) as Hz.
    destruct (proj1 Hloop) as [Hf Hc]; [by exists a|]. split; [by exists b | | done].
    apply (Permutation_count_occ SignatureType_eq_dec). intros t. by rewrite <-Hc, initial_counts.
  - intros [_ Hk Hf]. destruct (proj2 Hloop) as (check' & -> & Hz).
    { split; [done|]. intros t. rewrite initial_counts. symmetry.
      by apply (Permutation_count_occ SignatureType_eq_dec). }
    cbn [rbind]. by rewrite (proj2 (all_counted check')).
Qed.

(** ** Verification of a history *)

Lemma verify_from_ok existing rest :
  verify_from existing rest = Ok tt <->
  forall pre c post, rest = pre ++ c :: post -> valid_change (existing ++ pre) c.
Proof.
  revert existing. induction rest as [|c rest IH]; intros existing; cbn [verify_from].
  { split; [|done]. intros _ [|] ? ? [=]. }
  split.
  - intros Hv. inv_ok Hv. destruct a. apply verify_change_ok in E.
    intros [|c0 pre] c' post [= <- ->]; [by rewrite app_nil_r|].
    rewrite (cons_middle c existing pre), app_assoc. by apply (proj1 (IH _) Hv pre c' post).
  - intros Hall. rewrite (proj2 (verify_change_ok existing c)).
    2:{ rewrite <-(app_nil_r existing). by apply (Hall [] c rest). }
    cbn [rbind]. apply IH. intros pre c' post ->. rewrite <-app_assoc.
    by apply (Hall (c :: pre) c' post).
Qed.

Lemma verify_all_ok h : verify_all_existing_changes h = Ok tt <-> valid_history h.
Proof. apply verify_from_ok. Qed.

Lemma consistency_loop_ok c h : consistency_loop (Some c) h = true <-> chained (c :: h).
Proof.
  revert c. induction h as [|d h IH]; intros c; cbn [consistency_loop].
  { split; [|done]. intros _ i a b Ha Hb. by destruct i. }
  case_bool_decide as E; cbn [negb].
  - rewrite IH. split; intros Hc i a b Ha Hb.
    + destruct i as [|i]; [cbn in Ha, Hb; congruence | by apply (Hc i)].
    + by apply (Hc (S i)).
  - split; [done|]. intros Hc. by destruct E; rewrite (Hc 0 c d).
Qed.

Lemma consistent_ok h : check_entire_consistency h = Ok tt <-> chained h.
Proof.
  unfold check_entire_consistency, check_consistency. cbn [list.last].
  destruct h as [|c h]; cbn [consistency_loop negb].
  { split; [|done]. intros _ i a b Ha. by rewrite lookup_nil in Ha. }
  rewrite <-consistency_loop_ok. by destruct (consistency_loop (Some c) h).
Qed.

(** A history that starts with a rotation is not valid. *)
Lemma valid_first c rest :
  valid_history (c :: rest) -> exists data, sc_change c = CreateKey data.
Proof.
  intros Hv. destruct (Hv [] c rest eq_refl) as [_ Hk Hf].
  destruct (sc_change c) as [data|data] eqn:E; [by exists data|]. exfalso.
  assert (RootSign ∈ map sig_stype (sc_signatures c)) as Hin by (rewrite Hk; set_solver).
  apply list_elem_of_fmap in Hin as (s & Es & Hs).
  rewrite list.Forall_forall in Hf. destruct (Hf s Hs) as (pk & Hpk & _).
  rewrite <-Es in Hpk. done.
Qed.

(** What an accepted identity is made of. *)
Lemma decode_identity_parts data i :
  IdentitiesCreation_decode_identity data = Ok i ->
  exists c rest, chained (c :: rest) /\ valid_history (c :: rest) /\
    i = mkIdentity (IdentityIdentifier_from_public_key (change_public_key (sc_change c))) (c :: rest) /\
    decode_history data = Some (c :: rest).
Proof.
  unfold IdentitiesCreation_decode_identity, history_import. intros E.
  inv_ok E. inv_ok E0. inv_ok E0. destruct a1. apply consistent_ok in E2.
  injection E0 as ->. inv_ok E. destruct a0. apply verify_all_ok in E0. inv_ok E.
  injection E as <-. unfold compute_identity_identifier in E3.
  destruct a as [|c rest]; [done|]. exists c, rest. destruct (valid_first c rest E0) as [d Ec].
  cbn in E3. rewrite Ec in *. injection E3 as <-. split_and!; try done.
  by destruct (decode_history data) as [h'|]; [injection E1 as ->|].
Qed.

(** C5: [decode_identity] accepts exactly the encodings of non-empty chained
    valid histories.  Valid means that each change has the digest of its
    encoding as identifier and carries one signature with its own key, one with
    the root key of its time unless it is the first, and for a rotation one
    with the key it replaces, and no others.  The identifier is the hash of the
    first key. *)
Theorem decode_identity_exact (data : bytes) (i : Identity) :
  IdentitiesCreation_decode_identity data = Ok i <->
  exists c rest, decode_history data = Some (c :: rest) /\ chained (c :: rest) /\
    valid_history (c :: rest) /\
    i = mkIdentity (IdentityIdentifier_from_public_key (change_public_key (sc_change c))) (c :: rest).
Proof.
  split.
  - intros (c & rest & ? & ? & -> & ?)%decode_identity_parts. by exists c, rest.
  - unfold IdentitiesCreation_decode_identity, history_import.
    intros (c & rest & -> & Hc & Hv & ->). cbn [ok_or rbind].
    rewrite (proj2 (consistent_ok _) Hc). cbn [rbind]. rewrite (proj2 (verify_all_ok _) Hv).
    cbn [rbind]. unfold compute_identity_identifier. destruct (valid_first c rest Hv) as [d Ec].
    cbn. by rewrite Ec.
Qed.

(** ** What a change identifier commits to *)

Context {L : IdentityCodecLaws}.

Lemma valid_lookup h i c : valid_history h -> h !! i = Some c -> valid_change (take i h) c.
Proof.
  intros Hv Hi. apply (Hv (take i h) c (drop (S i) h)). by rewrite take_drop_middle.
Qed.

Lemma same_identifier h1 h2 i a b :
  valid_history h1 -> valid_history h2 -> h1 !! i = Some a -> h2 !! i = Some b ->
  sc_identifier a = sc_identifier b -> sc_change a = sc_change b \/ colliding h1 h2.
Proof.
  intros Hv1 Hv2 Ha Hb E.
  destruct (valid_lookup _ _ _ Hv1 Ha) as [(x & Ex & Ix) _ _].
  destruct (valid_lookup _ _ _ Hv2 Hb) as [(y & Ey & Iy) _ _].
  destruct (decide (x = y)) as [-> | Hne].
  - left. by apply (encode_change_inj _ _ y).
  - right. exists i, a, b, x, y. split_and!; try done. congruence.
Qed.

Lemma commits h1 h2 i a b :
  chained h1 -> valid_history h1 -> chained h2 -> valid_history h2 ->
  h1 !! i = Some a -> h2 !! i = Some b -> sc_identifier a = sc_identifier b ->
  map sc_change (take (S i) h1) = map sc_change (take (S i) h2) \/ colliding h1 h2.
Proof.
  intros Hc1 Hv1 Hc2 Hv2. revert a b. induction i as [|i IH]; intros a b Ha Hb E.
  - destruct (same_identifier _ _ _ _ _ Hv1 Hv2 Ha Hb E) as [Hs|]; [left | by right].
    rewrite (take_S_r h1 0 a), (take_S_r h2 0 b), !map_app by done. cbn. by rewrite !take_0, Hs.
  - destruct (same_identifier _ _ _ _ _ Hv1 Hv2 Ha Hb E) as [Hs|]; [|by right].
    destruct (lookup_lt_is_Some_2 h1 i) as [a' Ha']; [apply lookup_lt_Some in Ha; lia|].
    destruct (lookup_lt_is_Some_2 h2 i) as [b' Hb']; [apply lookup_lt_Some in Hb; lia|].
    destruct (IH a' b' Ha' Hb') as [Ht|]; [|left|by right].
    { rewrite <-(Hc1 i a' a), <-(Hc2 i b' b) by done. by rewrite Hs. }
    rewrite (take_S_r h1 (S i) a), (take_S_r h2 (S i) b), !map_app, Ht by done.
    cbn. by rewrite Hs.
Qed.

(** [history_compare] on the identifiers. *)
Lemma conflict_prefix self known :
  length known <= length self -> history_conflict self known = false ->
  map sc_identifier known `prefix_of` map sc_identifier self.
Proof.
  revert known. induction self as [|a self IH]; intros [|b known] Hl Hn; cbn in *;
    [apply prefix_nil | lia | apply prefix_nil |].
  case_bool_decide as E; [|done]. rewrite E. apply prefix_cons, IH; [lia | done].
Qed.

Lemma compare_extends self known :
  history_compare self known = Newer \/ history_compare self known = Equal ->
  map sc_identifier known `prefix_of` map sc_identifier self.
Proof.
  unfold history_compare. destruct (history_conflict self known) eqn:E; [intros []; done|].
  destruct (Nat.compare_spec (length self) (length known)); intros []; try done;
    apply conflict_prefix; (done || lia).
Qed.

Lemma compare_equal self known :
  history_compare self known = Equal -> map sc_identifier known = map sc_identifier self.
Proof.
  intros E. apply prefix_length_eq; [apply compare_extends; by right|].
  unfold history_compare in E. destruct (history_conflict _ _); [done|].
  destruct (Nat.compare_spec (length self) (length known)); try done. rewrite !length_map. lia.
Qed.

(** Two verified histories whose identifiers agree up to some change (this is
    what [compare] looks at) are made of the same changes up to there: the same
    keys under the same labels, in the same order.  The only way out is that
    two of their changes collide under SHA-256. *)
Lemma prefix_commits (h1 h2 : IdentityChangeHistory) :
  chained h1 -> valid_history h1 -> chained h2 -> valid_history h2 ->
  map sc_identifier h1 `prefix_of` map sc_identifier h2 ->
  map sc_change h1 `prefix_of` map sc_change h2 \/ colliding h1 h2.
Proof.
  intros Hc1 Hv1 Hc2 Hv2 Hcmp.
  assert (map sc_change h1 = map sc_change (take (length h1) h2) \/ colliding h1 h2) as [E|];
    [|left|by right].
  { destruct h1 as [|a h1' _] using rev_ind; [by left|]. rewrite length_app, Nat.add_1_r.
    assert ((h1' ++ [a]) !! length h1' = Some a) as Ha by (by apply list_lookup_middle).
    assert (exists b, h2 !! length h1' = Some b /\ sc_identifier b = sc_identifier a) as (b & Hb & E).
    { destruct Hcmp as [k Hk].
      assert ((sc_identifier <$> h2) !! length h1' = Some (sc_identifier a)) as Hb.
      { change (sc_identifier <$> h2) with (map sc_identifier h2). rewrite Hk.
        rewrite map_app, <-app_assoc. apply list_lookup_middle. by rewrite length_map. }
      apply list_lookup_fmap_Some in Hb as (b & ? & ?). eauto. }
    destruct (commits _ _ _ _ _ Hc1 Hv1 Hc2 Hv2 Ha Hb (eq_sym E)) as [Ht|]; [left | by right].
    rewrite <-Ht. f_equal. rewrite take_ge; [done|]. rewrite length_app. cbn. lia. }
  rewrite E, <-(take_drop (length h1) h2), map_app, take_app_length'; [apply prefix_app_r; done|].
  rewrite length_take. apply (f_equal length) in E. rewrite !length_map, length_take in E. lia.
Qed.

(** ** The repository *)

Context {S : Type} {St : Storage S} {SL : StorageLaws S}.

(** The history the repository has for an identifier. *)
Definition known (s : S) (id : IdentityIdentifier) : option IdentityChangeHistory :=
  contents s CHANGE_HISTORY_KEY id ≫= decode_history.

(** Identities that arrive one after the other; a failed update is ignored. *)
Fixpoint update_all (ups : list Identity) (st : Vault * S) : Vault * S :=
  match ups with
  | [] => st
  | i :: ups => update_all ups (IdentitiesStorage_update_identity i st).2
  end.

Lemma retrieve_run id v s r v' s' :
  retrieve_identity id (v, s) = (r, (v', s')) ->
  v' = v /\ contents s' = contents s /\ r <> Panic /\
  match r with
  | Ok (Some i) => known s id = Some (change_history i) /\ chained (change_history i)
  | Ok None => contents s CHANGE_HISTORY_KEY id = None
  | _ => True
  end.
Proof.
  unfold retrieve_identity, sbind, in_storage, Identity_import, history_import.
  destruct (storage_get id CHANGE_HISTORY_KEY s) as [r1 s1] eqn:E.
  destruct (get_law _ _ _ _ _ E) as (Hc & Hp & Ho).
  destruct r1 as [[data|]|e|]; cbn; try (intros [= <- <- <-]; done).
  - unfold slift. destruct (decode_history data) as [h|] eqn:Ed; cbn; [|by intros [= <- <- <-]].
    destruct (check_entire_consistency h) as [[]| |] eqn:Ec; cbn; [|by intros [= <- <- <-]|].
    2:{ unfold check_entire_consistency in Ec. by destruct (negb _). }
    intros [= <- <- <-]. split_and!; try done; [|by apply consistent_ok].
    unfold known. by rewrite <-(Ho _ eq_refl).
  - intros [= <- <- <-]. split_and!; try done. symmetry. by apply Ho.
Qed.

Lemma put_identity_run i v s r v' s' :
  put_identity i (v, s) = (r, (v', s')) ->
  v' = v /\ r <> Panic /\
  (contents s' = contents s \/
   known s' (identifier i) = Some (change_history i) /\
   forall ns id, (ns, id) <> (CHANGE_HISTORY_KEY, identifier i) -> contents s' ns id = contents s ns id).
Proof.
  unfold put_identity, sbind, slift, in_storage, history_export.
  destruct (decode_encode_history (change_history i)) as (b & Eb & Db). rewrite Eb. cbn [ok_or].
  destruct (storage_set (identifier i) CHANGE_HISTORY_KEY b s) as [r1 s1] eqn:E.
  destruct (set_law _ _ _ _ _ _ E) as (Hp & Hok & Hno).
  cbn. intros [= <- <- <-]. destruct r1 as [[]|e|]; cbn; [|split_and!; try done; left; by apply Hno..].
  split_and!; try done. right. specialize (Hok eq_refl). split.
  - unfold known. rewrite Hok, bool_decide_eq_true_2 by done. done.
  - intros ns id Hne. rewrite Hok, bool_decide_eq_false_2; [done|]. intros [-> ->]. done.
Qed.

Lemma put_identity_ok i v s v' s' :
  put_identity i (v, s) = (Ok tt, (v', s')) ->
  v' = v /\ known s' (identifier i) = Some (change_history i).
Proof.
  unfold put_identity, sbind, slift, in_storage, history_export.
  destruct (decode_encode_history (change_history i)) as (b & Eb & Db). rewrite Eb. cbn [ok_or].
  destruct (storage_set (identifier i) CHANGE_HISTORY_KEY b s) as [r1 s1] eqn:E.
  destruct (set_law _ _ _ _ _ _ E) as (_ & Hok & _).
  intros [= Hr <- <-]. destruct r1 as [[]| |]; try done. split; [done|].
  unfold known. rewrite (Hok eq_refl), bool_decide_eq_true_2 by done. done.
Qed.

Lemma update_identity_run i v s r v' s' :
  IdentitiesStorage_update_identity i (v, s) = (r, (v', s')) ->
  v' = v /\ r <> Panic /\
  (contents s' = contents s \/
   known s' (identifier i) = Some (change_history i) /\
   (forall ns id, (ns, id) <> (CHANGE_HISTORY_KEY, identifier i) -> contents s' ns id = contents s ns id) /\
   (contents s CHANGE_HISTORY_KEY (identifier i) = None \/
    exists h, known s (identifier i) = Some h /\ history_compare (change_history i) h = Newer)).
Proof.
  unfold IdentitiesStorage_update_identity. intros E.
  apply sbind_inv in E as [(o & [v1 s1] & E1 & E) | [(e & E & ->) | (E & ->)]];
    [|apply retrieve_run in E as (-> & -> & ? & _); split_and!; auto..].
  apply retrieve_run in E1 as (-> & Hc & _ & Ho).
  apply sbind_inv in E as [(b & [v2 s2] & E2 & E) | [(e & E & ->) | (E & ->)]].
  - assert (v2 = v /\ s2 = s1) as [-> ->].
    { destruct o as [k|]; [destruct (history_compare _ _)|]; by injection E2. }
    destruct b; [|injection E as <- <- <-; by auto].
    apply put_identity_run in E as (-> & Hp & [Hs | [Hk Hs]]); split_and!; auto.
    { left. congruence. }
    right. split_and!; [done | intros; rewrite <-Hc; by apply Hs |].
    destruct o as [k|]; [right | by left]. destruct Ho as [Ho _].
    exists (change_history k). split; [done|]. by destruct (history_compare _ _).
  - destruct o as [k|]; [destruct (history_compare _ _)|]; injection E as E <- <-; split_and!; auto.
  - by destruct o as [k|]; [destruct (history_compare _ _)|].
Qed.

(** After a successful update the repository knows the identity. *)
Lemma update_known i v s v' s' :
  IdentitiesStorage_update_identity i (v, s) = (Ok tt, (v', s')) ->
  v' = v /\ exists h, known s' (identifier i) = Some h /\
    map sc_identifier h = map sc_identifier (change_history i).
Proof.
  unfold IdentitiesStorage_update_identity. intros E.
  apply sbind_ok in E as (o & [v1 s1] & E1 & E). apply retrieve_run in E1 as (-> & Hc & _ & Ho).
  apply sbind_ok in E as (b & [v2 s2] & E2 & E).
  assert (v2 = v /\ s2 = s1) as [-> ->].
  { destruct o as [k|]; [destruct (history_compare _ _)|]; by injection E2. }
  destruct b.
  - apply put_identity_ok in E as [-> Hk]. split; [done|]. by exists (change_history i).
  - injection E as <- <-. split; [done|]. destruct o as [k|]; [|done].
    destruct Ho as [Ho _]. exists (change_history k). split; [unfold known; by rewrite Hc|].
    destruct (history_compare _ _) eqn:Ecmp; try done. apply compare_equal. done.
Qed.

(** Why reading or storing an identity fails. *)
Definition repository_error (e : IdError) : Prop := e = ConsistencyError \/ exists e', e = StoreErr e'.

Lemma in_storage_error {A} (m : stm S Error A) st e st' :
  in_storage m st = (Err e, st') -> repository_error e.
Proof.
  destruct st as [v s]. unfold in_storage. destruct (m s) as [[]]; intros [= <- <-]; right; eauto.
Qed.

Lemma retrieve_error id st e st' : retrieve_identity id st = (Err e, st') -> repository_error e.
Proof.
  intros E. apply sbind_inv in E as [([data|] & s1 & _ & E) | [(e' & E & [= ->]) | (_ & [=])]].
  - apply sbind_inv in E as [(? & ? & _ & [=]) | [(e' & E & [= ->]) | (_ & [=])]].
    apply slift_inv in E as [E _]. unfold Identity_import, history_import, check_entire_consistency in E.
    destruct (decode_history data) as [h|]; cbn in E; [|injection E as <-; by left].
    destruct (negb _); cbn in E; [injection E as <-; by left | done].
  - done.
  - by eapply in_storage_error.
Qed.

Lemma update_errors i st e st' :
  IdentitiesStorage_update_identity i st = (Err e, st') -> repository_error e.
Proof.
  intros E. apply sbind_inv in E as [(o & s1 & _ & E) | [(e' & E & [= ->]) | (_ & [=])]].
  2:{ by eapply retrieve_error. }
  apply sbind_inv in E as [([] & s2 & _ & E) | [(e' & E & [= ->]) | (_ & [=])]]; [| done |].
  - apply sbind_inv in E as [(? & ? & _ & E) | [(e' & E & [= ->]) | (_ & [=])]].
    + by eapply in_storage_error.
    + apply slift_inv in E as [E _]. unfold history_export in E.
      destruct (encode_history _); [done|]. injection E as <-. by left.
  - left. destruct o; [destruct (history_compare _ _)|]; cbv in E; congruence.
Qed.

Definition verified h : Prop := chained h /\ valid_history h.

Lemma updates_extend ups v s id h :
  Forall (fun i => verified (change_history i)) ups -> known s id = Some h -> verified h ->
  exists h', known (update_all ups (v, s)).2 id = Some h' /\ verified h' /\
    (h' = h \/ exists i, i ∈ ups /\ identifier i = id /\ h' = change_history i) /\
    map sc_identifier h `prefix_of` map sc_identifier h'.
Proof.
  intros Hi Hk Hv. revert v s h Hk Hv. induction Hi as [|i ups Hi His IH]; intros v s h Hk Hv.
  { exists h. split_and!; auto. }
  cbn [update_all]. destruct (IdentitiesStorage_update_identity i (v, s)) as [r [v1 s1]] eqn:E.
  assert (forall s2, known s2 id = Some h ->
    exists h', known (update_all ups (v, s2)).2 id = Some h' /\ verified h' /\
      (h' = h \/ exists i', i' ∈ i :: ups /\ identifier i' = id /\ h' = change_history i') /\
      map sc_identifier h `prefix_of` map sc_identifier h') as Hkeep.
  { intros s2 Hk2. destruct (IH v s2 h Hk2 Hv) as (h' & ? & ? & [? | (i' & ? & ?)] & ?);
      exists h'; split_and!; auto. right. exists i'. by split; [right|]. }
  apply update_identity_run in E as (-> & _ & [Hc | (Hn & Hc & Hold)]); cbn [snd].
  - apply Hkeep. unfold known. by rewrite Hc.
  - destruct (decide (id = identifier i)) as [-> | Hne].
    + destruct Hold as [Hnone | (h0 & Hh0 & Hnew)].
      { unfold known in Hk. by rewrite Hnone in Hk. }
      assert (h0 = h) as -> by congruence.
      destruct (IH v s1 _ Hn Hi) as (h' & Hk' & Hv' & Ho & Hp). exists h'. split_and!; try done.
      * right. destruct Ho as [-> | (i' & ? & ?)]; [exists i | exists i']; split_and!; try done;
          [left | by right; tauto | tauto..].
      * etrans; [|exact Hp]. apply compare_extends. by left.
    + apply Hkeep. unfold known. rewrite Hc; [done|]. congruence.
Qed.

(** C20: whatever verified identities the repository is asked to update, the
    history it has for an identifier stays verified, is the known one or one of
    those that were offered for the identifier, and has the identifiers of the
    known changes as its first ones.  So the keys that were known remain, in
    their order, unless the known history and the new one have, at the same
    place, two changes with different encodings and the same SHA-256 digest. *)
Theorem known_history_only_grows (ups : list Identity) (v : Vault) (s : S) (id : IdentityIdentifier)
    (h : IdentityChangeHistory) :
  Forall (fun i => verified (change_history i)) ups -> known s id = Some h -> verified h ->
  exists h', known (update_all ups (v, s)).2 id = Some h' /\ verified h' /\
    (h' = h \/ exists i, i ∈ ups /\ identifier i = id /\ h' = change_history i) /\
    map sc_identifier h `prefix_of` map sc_identifier h' /\
    (map sc_change h `prefix_of` map sc_change h' \/ colliding h h').
Proof.
  intros Hi Hk Hv. destruct (updates_extend ups v s id h Hi Hk Hv) as (h' & Hk' & Hv' & Ho & Hp).
  exists h'. split_and!; try done. destruct Hv as [Hc Hv], Hv' as [Hc' Hv'].
  by apply prefix_commits.
Qed.
End Spec.
