(* ===== verification/IdentityKeys.v ===== *)
(** * The keys of an identity

    An identity whose current keys are in the vault stays verifiable under the
    operations that create and rotate keys ([managed]), and whoever receives its
    export accepts it. *)

From Stdlib Require Import ZArith Lia Permutation.
From Stdlib Require Strings.Byte Strings.String.
From stdpp Require Import base gmap list numbers option countable.
From S2P Require Import Prelude RustStr Routing AccessControl KeyTracker Vault Attributes.
From S2P Require Import Identities IdentitySpec.

(** Documented behaviour of the signature schemes. *)
Class SignatureLaws (C : Crypto) : Prop := {
  ed25519_public_length : forall s, length (ed25519_public s) = 32;
  ed25519_sign_length : forall s d, length (ed25519_sign s d) = 64;
  ed25519_verify_sign : forall s d, length s = 32 ->
    ed25519_verify (ed25519_public s) d (ed25519_sign s d) = Some true;
  p256_verify_sign : forall s pk d sig, p256_public s = Some pk -> p256_sign s d = Some sig ->
    p256_verify pk d sig = Some true
}.

Section Keys.
Context {C : Crypto} {CL : CryptoLaws C} {SG : SignatureLaws C}.

(** ** Keys the vault can sign with *)

(** Ephemeral secrets are looked up first. *)
Definition secret_at (v : Vault) (k : KeyId) : option StoredSecret :=
  match ephemeral_secrets v !! k with
  | Some stored => Some stored
  | None => storage v !! k
  end.

Lemma sign_run v k d :
  sign k d v = (match secret_at v k with
                | Some stored => sign_with_secret stored d
                | None => Err EntryNotFound
                end, v).
Proof.
  unfold sign, secret_at, sbind, sget, kms_get_secret, slift.
  destruct (ephemeral_secrets v !! k); [done|]. by destruct (storage v !! k).
Qed.

Lemma get_public_key_run v k :
  get_public_key k v = (match secret_at v k with
                        | Some stored => compute_public_key_from_secret stored
                        | None => Err EntryNotFound
                        end, v).
Proof.
  unfold get_public_key, secret_at, sbind, sget, kms_get_secret, slift.
  destruct (ephemeral_secrets v !! k); [done|]. by destruct (storage v !! k).
Qed.

Lemma get_secret_attributes_run v k :
  get_secret_attributes k v = (match secret_at v k with
                               | Some stored => Ok (attributes stored)
                               | None => Err EntryNotFound
                               end, v).
Proof.
  unfold get_secret_attributes, secret_at, sbind, sget, kms_get_secret, slift.
  destruct (ephemeral_secrets v !! k); [done|]. by destruct (storage v !! k).
Qed.

Notation key_id pk := (compute_key_id_for_public_key pk).

(** The vault has the secret of a public key and can sign with it. *)
Definition owns (v : Vault) (pk : PublicKey) : Prop :=
  exists stored, secret_at v (key_id pk) = Some stored /\
    compute_public_key_from_secret stored = Ok pk /\
    forall d, exists sig, sign_with_secret stored d = Ok sig.

(** What a stored secret signs, its public key verifies. *)
Lemma stored_signature stored pk d sig :
  compute_public_key_from_secret stored = Ok pk -> sign_with_secret stored d = Ok sig ->
  verify pk d sig = Ok true.
Proof.
  unfold compute_public_key_from_secret, sign_with_secret.
  destruct (secret_type (attributes stored)); try done.
  - intros Hpk Hs. inv_ok Hpk. injection Hpk as <-. rewrite E in Hs. injection Hs as <-.
    unfold verify. cbn [stype pk_data]. rewrite ed25519_public_length, ed25519_sign_length.
    cbn [Z.eqb negb orb]. rewrite ed25519_verify_sign; [done|].
    unfold array_32 in E. apply slice_length in E. lia.
  - unfold p256_public_key. intros Hpk Hs.
    destruct (p256_public (secret stored)) as [p|] eqn:Ep; [|done]. injection Hpk as <-.
    destruct (p256_sign (secret stored) d) as [g|] eqn:Eg; [|done]. injection Hs as <-.
    unfold verify. cbn [stype pk_data]. by rewrite (p256_verify_sign _ _ _ _ Ep Eg).
Qed.

Lemma owns_sign v pk d :
  owns v pk -> exists sig, sign (key_id pk) d v = (Ok sig, v) /\ verify pk d sig = Ok true.
Proof.
  intros (stored & Hs & Hpk & Hsig). destruct (Hsig d) as [sig Es]. exists sig.
  rewrite sign_run, Hs, Es. split; [done|]. by eapply stored_signature.
Qed.

(** The Ed25519 key the vault generates next. *)
Definition next_key (v : Vault) : PublicKey :=
  mkPublicKey (ed25519_public (rand_bytes (draws v) 32)) TEd25519.

Definition with_next_key (v : Vault) : Vault :=
  mkVault (ephemeral_secrets v)
    (<[key_id (next_key v) := mkStoredSecret (rand_bytes (draws v) 32) Ed25519]> (storage v))
    (S (draws v)).

(** It is new to the vault. *)
Definition fresh_key (v : Vault) : Prop := secret_at v (key_id (next_key v)) = None.

Lemma create_persistent_run v :
  create_persistent_secret Ed25519 v = (Ok (key_id (next_key v)), with_next_key v).
Proof.
  unfold create_persistent_secret. erewrite sbind_run by done.
  change (Z.to_nat (attributes_length Ed25519)) with 32.
  erewrite sbind_run.
  2:{ unfold slift, StoredSecret_create. rewrite rand_length. done. }
  erewrite sbind_run.
  2:{ unfold compute_key_id. cbn [secret_type]. erewrite sbind_run; [done|].
      unfold slift. rewrite array_32_run; [done | apply rand_length]. }
  done.
Qed.

Lemma owns_next v : fresh_key v -> owns (with_next_key v) (next_key v).
Proof.
  unfold fresh_key, secret_at. intros Hf.
  exists (mkStoredSecret (rand_bytes (draws v) 32) Ed25519).
  unfold secret_at, with_next_key. cbn [ephemeral_secrets storage].
  destruct (ephemeral_secrets v !! key_id (next_key v)); [done|]. rewrite lookup_insert_eq.
  unfold compute_public_key_from_secret, sign_with_secret. cbn [attributes secret secret_type].
  rewrite array_32_run by apply rand_length. split_and!; try done. intros d. eauto.
Qed.

Lemma owns_with_next v pk : fresh_key v -> owns v pk -> owns (with_next_key v) pk.
Proof.
  intros Hf (stored & Hs & Hpk). exists stored. split; [|done]. revert Hs.
  unfold fresh_key in Hf. unfold secret_at, with_next_key in *. cbn [ephemeral_secrets storage].
  destruct (ephemeral_secrets v !! key_id pk) eqn:E; [done|]. intros Hs.
  rewrite lookup_insert_ne; [done|]. intros Ek. rewrite Ek, E, Hs in Hf. done.
Qed.

(** ** Identities whose keys are in the vault *)

Context `{IdentityCodec} {IL : IdentityCodecLaws}.

Record managed (v : Vault) (i : Identity) : Prop := {
  m_verified : verified (change_history i);
  m_identifier : compute_identity_identifier (change_history i) = Ok (identifier i);
  m_root : is_Some (latest_key (change_history i) ROOT_LABEL);
  m_owned : forall label pk, latest_key (change_history i) label = Some pk -> owns v pk
}.

Lemma chained_snoc h c :
  chained h -> (forall p, list.last h = Some p ->
    previous_change_identifier (sc_change c) = sc_identifier p) -> chained (h ++ [c]).
Proof.
  intros Hc Hl j a b Ha Hb. destruct (decide (S j < length h)) as [Hj|Hj].
  - rewrite lookup_app_l in Ha, Hb by lia. by apply (Hc j).
  - assert (S j = length h) as Ej.
    { apply lookup_lt_Some in Hb. rewrite length_app in Hb. cbn in Hb. lia. }
    rewrite lookup_app_l in Ha by lia. rewrite Ej, list_lookup_middle in Hb by done.
    injection Hb as <-. apply Hl. rewrite last_lookup, <-Ej. done.
Qed.

Lemma valid_snoc h c : valid_history h -> valid_change h c -> valid_history (h ++ [c]).
Proof.
  intros Hv Hc pre d post E. destruct post as [|e post _] using rev_ind.
  - apply app_inj_tail in E as [-> ->]. done.
  - rewrite app_comm_cons, app_assoc in E. apply app_inj_tail in E as [-> _].
    by apply (Hv pre d post).
Qed.

Lemma add_change_ok i c :
  (forall p, list.last (change_history i) = Some p ->
     previous_change_identifier (sc_change c) = sc_identifier p) ->
  Identity_add_change c i = Ok (mkIdentity (identifier i) (change_history i ++ [c])).
Proof.
  intros Hl. unfold Identity_add_change, check_consistency_and_add_change, check_consistency.
  destruct (list.last (change_history i)) as [p|] eqn:E; cbn [consistency_loop]; [|done].
  rewrite bool_decide_eq_true_2; [done|]. symmetry. by apply Hl.
Qed.

(** A valid change by a key of the vault keeps an identity managed. *)
Lemma managed_snoc v v' i c :
  managed v i -> (forall pk, owns v pk -> owns v' pk) ->
  owns v' (change_public_key (sc_change c)) ->
  (forall p, list.last (change_history i) = Some p ->
     previous_change_identifier (sc_change c) = sc_identifier p) ->
  valid_change (change_history i) c ->
  managed v' (mkIdentity (identifier i) (change_history i ++ [c])).
Proof.
  intros [[Hc Hv] Hid Hr Ho] Hmono Hnew Hl Hvc. split; cbn [change_history identifier].
  - split; [by apply chained_snoc | by apply valid_snoc].
  - unfold compute_identity_identifier in *. by destruct (change_history i).
  - rewrite latest_key_snoc. by destruct (has_label _ _).
  - intros label pk. rewrite latest_key_snoc.
    destruct (has_label label (sc_change c)); [intros [= <-]; done | eauto].
Qed.

(** Whoever decodes the export of a managed identity accepts it. *)
Lemma managed_accepted v i :
  managed v i -> exists data, history_export (change_history i) = Ok data /\
    IdentitiesCreation_decode_identity data = Ok i.
Proof.
  intros [[Hc Hv] Hid _ _]. destruct (decode_encode_history (change_history i)) as (b & Eb & Db).
  exists b. unfold history_export. rewrite Eb. split; [done|].
  unfold IdentitiesCreation_decode_identity, history_import. rewrite Db. cbn [ok_or rbind].
  rewrite (proj2 (consistent_ok _) Hc). cbn [rbind]. rewrite (proj2 (verify_all_ok _) Hv).
  cbn [rbind]. rewrite Hid. by destruct i.
Qed.

(** ** Runs of the operations *)

Context {S : Type} {St : Storage S}.

Lemma find_last_some h label pk :
  latest_key h label = Some pk ->
  exists c, find_last_key_change h label = Ok c /\ change_public_key (sc_change c) = pk.
Proof.
  intros E. pose proof (find_last_public_key h label) as Hf. rewrite E in Hf.
  unfold find_last_key_change_public_key in Hf. cbn [ok_or] in Hf. inv_ok Hf.
  injection Hf as <-. eauto.
Qed.

Lemma find_last_none h label :
  latest_key h label = None -> find_last_key_change h label = Err InvalidInternalState.
Proof.
  intros E. pose proof (find_last_public_key h label) as Hf. rewrite E in Hf.
  unfold find_last_key_change_public_key in Hf. cbn [ok_or] in Hf.
  by destruct (find_last_key_change h label); [|injection Hf as ->|].
Qed.

Lemma labelled_key_run i label pk (st : Vault * S) :
  latest_key (change_history i) label = Some pk ->
  get_labelled_key i label st = (Ok (key_id pk), st).
Proof.
  intros (c & Hc & <-)%find_last_some. unfold get_labelled_key. destruct st as [v s].
  erewrite sbind_run by (unfold slift; by rewrite Hc). done.
Qed.

Lemma vault_sign_run pk d v (s : S) :
  owns v pk -> exists sig, in_vault (sign (key_id pk) d) (v, s) = (Ok sig, (v, s)) /\
    verify pk d sig = Ok true.
Proof.
  intros Ho. destruct (owns_sign v pk d Ho) as (sig & E & Hv). exists sig.
  unfold in_vault. by rewrite E.
Qed.

Lemma vault_public_key_run pk v (s : S) :
  owns v pk -> in_vault (get_public_key (key_id pk)) (v, s) = (Ok pk, (v, s)).
Proof.
  intros (stored & Hs & Hpk & _). unfold in_vault. by rewrite get_public_key_run, Hs, Hpk.
Qed.

Lemma change_id_run c : exists b, encode_change c = Some b /\ change_id_of c = Ok (sha256_digest b).
Proof.
  destruct (encode_change_total c) as [b E]. exists b. unfold change_id_of. by rewrite E.
Qed.

Lemma create_static_run v (s : S) secret attrs prev root v1 pk :
  generate_key_if_needed secret attrs (v, s) = (Ok (key_id pk), (v1, s)) -> owns v1 pk ->
  (forall rpk, root = Some rpk -> owns v1 rpk) ->
  exists c, make_create_key_change_static secret prev attrs
              ((fun pk => key_id pk) <$> root) (v, s) = (Ok c, (v1, s)) /\
    sc_change c = CreateKey (mkCreateKey prev attrs pk) /\
    forall existing, (existing = [] /\ root = None) \/
                     (existing <> [] /\ is_Some root /\ latest_key existing ROOT_LABEL = root) ->
      valid_change existing c.
Proof.
  intros Hg Ho Hr. unfold make_create_key_change_static. erewrite sbind_run by exact Hg.
  erewrite sbind_run by (by apply vault_public_key_run).
  destruct (change_id_run (CreateKey (mkCreateKey prev attrs pk))) as (b & Eb & Ei).
  erewrite sbind_run by (unfold slift; by rewrite Ei).
  destruct (vault_sign_run pk (sha256_digest b) v1 s Ho) as (sig & Es & Hv).
  erewrite sbind_run by exact Es.
  destruct root as [rpk|].
  - destruct (vault_sign_run rpk (sha256_digest b) v1 s (Hr rpk eq_refl)) as (rsig & Ers & Hrv).
    cbn [fmap option_fmap option_map].
    erewrite sbind_run by (erewrite sbind_run by exact Ers; reflexivity).
    eexists. split; [reflexivity|]. split; [done|]. intros existing [[_ [=]] | (Hne & _ & Hl)].
    split; cbn [sc_identifier sc_change sc_signatures].
    + by exists b.
    + by destruct existing.
    + repeat constructor; [by exists pk | by exists rpk].
  - cbn [fmap option_fmap option_map]. erewrite sbind_run by reflexivity.
    eexists. split; [reflexivity|]. split; [done|].
    intros existing [[-> _] | (_ & [? [=]] & _)].
    split; cbn [sc_identifier sc_change sc_signatures]; [by exists b | done |].
    repeat constructor. by exists pk.
Qed.

Lemma managed_last v i :
  managed v i -> exists p, list.last (change_history i) = Some p /\
    get_last_change_id (change_history i) = Ok (sc_identifier p).
Proof.
  intros [_ _ [pk Hr] _]. unfold get_last_change_id.
  destruct (list.last (change_history i)) as [p|] eqn:E; [by exists p|].
  apply last_None in E. by rewrite E in Hr.
Qed.

Lemma create_change_run v (s : S) i secret attrs v1 pk :
  managed v i -> latest_key (change_history i) (ka_label attrs) = None ->
  generate_key_if_needed secret attrs (v, s) = (Ok (key_id pk), (v1, s)) ->
  (forall pk', owns v pk' -> owns v1 pk') -> owns v1 pk ->
  exists c, make_create_key_change i secret attrs (v, s) = (Ok c, (v1, s)) /\
    valid_change (change_history i) c /\ change_public_key (sc_change c) = pk /\
    change_label (sc_change c) = ka_label attrs /\
    forall p, list.last (change_history i) = Some p ->
      previous_change_identifier (sc_change c) = sc_identifier p.
Proof.
  intros Hm Hn Hg Hmono Ho. pose proof (m_root _ _ Hm) as [rpk Hr].
  destruct (managed_last v i Hm) as (p & Hp & Hlast).
  unfold make_create_key_change. rewrite (find_last_none _ _ Hn), Hlast. cbn [is_ok].
  erewrite sbind_run by (by apply labelled_key_run).
  destruct (create_static_run v s secret attrs (sc_identifier p) (Some rpk) v1 pk Hg Ho)
    as (c & Ec & Hc & Hv).
  { intros ? [= <-]. by eapply Hmono, (m_owned _ _ Hm). }
  exists c. cbn [fmap option_fmap option_map] in Ec. rewrite Ec, Hc. split_and!; try done.
  - apply Hv. right. rewrite Hr. split_and!; eauto. intros En. by rewrite En in Hp.
  - cbn. intros p' Hp'. congruence.
Qed.

Lemma rotate_change_run v (s : S) i label opk :
  managed v i -> fresh_key v -> latest_key (change_history i) label = Some opk ->
  exists c, make_rotate_key_change i (default_with_label label) (v, s) = (Ok c, (with_next_key v, s)) /\
    valid_change (change_history i) c /\ change_public_key (sc_change c) = next_key v /\
    change_label (sc_change c) = label /\
    forall p, list.last (change_history i) = Some p ->
      previous_change_identifier (sc_change c) = sc_identifier p.
Proof.
  intros Hm Hf Hl. pose proof (m_root _ _ Hm) as [rpk Hr].
  destruct (managed_last v i Hm) as (p & Hp & Hlast).
  pose proof (owns_next v Hf) as Hnext.
  pose proof (owns_with_next v rpk Hf (m_owned _ _ Hm _ _ Hr)) as Hro.
  pose proof (owns_with_next v opk Hf (m_owned _ _ Hm _ _ Hl)) as Hoo.
  unfold make_rotate_key_change. erewrite sbind_run by (unfold slift; by rewrite Hlast).
  destruct (find_last_some _ _ _ Hl) as (lc & Elc & Hlc).
  erewrite sbind_run by (unfold slift; cbn [ka_label default_with_label KeyAttributes_new]; by rewrite Elc).
  erewrite sbind_run by reflexivity.
  erewrite sbind_run.
  2:{ change (KeyAttributes_secret_attributes _) with Ed25519. unfold in_vault.
      by rewrite create_persistent_run. }
  erewrite sbind_run by (by apply vault_public_key_run).
  set (ch := RotateKey _). destruct (change_id_run ch) as (b & Eb & Ei).
  erewrite sbind_run by (unfold slift; by rewrite Ei).
  destruct (vault_sign_run _ (sha256_digest b) _ s Hnext) as (sig & Es & Hsig).
  destruct (vault_sign_run _ (sha256_digest b) _ s Hro) as (rsig & Ers & Hrsig).
  destruct (vault_sign_run _ (sha256_digest b) _ s Hoo) as (osig & Eos & Hosig).
  erewrite sbind_run by exact Es. erewrite sbind_run by (by apply labelled_key_run).
  erewrite sbind_run by exact Ers. rewrite Hlc. erewrite sbind_run by exact Eos.
  eexists. split; [reflexivity|]. split_and!; try done.
  - split; cbn [sc_identifier sc_change sc_signatures]; [by exists b | done |].
    repeat constructor; [by exists (next_key v) | by exists rpk | by exists opk].
  - cbn. intros p' Hp'. congruence.
Qed.

(** ** The operations together *)

Inductive key_op :=
| OpCreate (label : bytes)
| OpAdd (label : bytes) (pk : PublicKey)
| OpRotate (label : bytes)
| OpRotateRoot.

Definition op_label (op : key_op) : bytes :=
  match op with
  | OpCreate label | OpAdd label _ | OpRotate label => label
  | OpRotateRoot => ROOT_LABEL
  end.

Definition rotates (op : key_op) : bool :=
  match op with OpCreate _ | OpAdd _ _ => false | _ => true end.

Definition run_key_op (op : key_op) (i : Identity) : stm (Vault * S) IdError Identity :=
  match op with
  | OpCreate label => create_key i label
  | OpAdd label pk => add_key i label (key_id pk)
  | OpRotate label => rotate_key i label
  | OpRotateRoot => rotate_root_key i
  end.

(** A change by one of the operations, and the identity with it. *)
Lemma changed_identity v v' i c pk label :
  managed v i -> (forall pk', owns v pk' -> owns v' pk') -> owns v' pk ->
  valid_change (change_history i) c -> change_public_key (sc_change c) = pk ->
  change_label (sc_change c) = label ->
  (forall p, list.last (change_history i) = Some p ->
     previous_change_identifier (sc_change c) = sc_identifier p) ->
  exists i', Identity_add_change c i = Ok i' /\ managed v' i' /\ identifier i' = identifier i /\
    change_history i' = change_history i ++ [c] /\
    forall l, latest_key (change_history i') l =
      if bool_decide (l = label) then Some pk else latest_key (change_history i) l.
Proof.
  intros Hm Hmono Ho Hv Hpk Hlab Hl. rewrite (add_change_ok _ _ Hl). eexists. split; [done|].
  split_and!; try done; [by eapply managed_snoc; rewrite ?Hpk; eauto|].
  intros l. cbn [change_history]. rewrite latest_key_snoc, Hpk. unfold has_label. rewrite Hlab.
  by repeat case_bool_decide.
Qed.

Lemma generate_next v (s : S) label :
  generate_key_if_needed None (default_with_label label) (v, s) =
    (Ok (key_id (next_key v)), (with_next_key v, s)).
Proof.
  unfold generate_key_if_needed, in_vault. change (KeyAttributes_secret_attributes _) with Ed25519.
  by rewrite create_persistent_run.
Qed.

(** The key of an operation: the one that is added, or the one the vault
    generates; and the vault afterwards. *)
Definition op_key (op : key_op) (v : Vault) : PublicKey :=
  match op with OpAdd _ pk => pk | _ => next_key v end.

Definition op_vault (op : key_op) (v : Vault) : Vault :=
  match op with OpAdd _ _ => v | _ => with_next_key v end.

(** A generated key is none of the current ones. *)
Definition new_key (op : key_op) (v : Vault) (i : Identity) : Prop :=
  match op with
  | OpAdd _ _ => True
  | _ => forall l, latest_key (change_history i) l <> Some (op_key op v)
  end.

Lemma next_key_is_new v i l :
  managed v i -> fresh_key v -> latest_key (change_history i) l <> Some (next_key v).
Proof.
  intros Hm Hf E. destruct (m_owned _ _ Hm _ _ E) as (stored & Hs & _).
  unfold fresh_key in Hf. congruence.
Qed.

(** What an operation leaves behind when it succeeds. *)
Definition op_success (op : key_op) (v : Vault) (s : S) (i : Identity) : Prop :=
  exists i' c data, run_key_op op i (v, s) = (Ok i', (op_vault op v, s)) /\
    managed (op_vault op v) i' /\
    identifier i' = identifier i /\ change_history i' = change_history i ++ [c] /\
    change_public_key (sc_change c) = op_key op v /\ new_key op v i /\
    (forall l, latest_key (change_history i') l =
       if bool_decide (l = op_label op) then Some (op_key op v) else latest_key (change_history i) l) /\
    history_export (change_history i') = Ok data /\
    IdentitiesCreation_decode_identity data = Ok i'.

Lemma op_finish op v s i c :
  managed v i -> fresh_key v -> (forall pk', owns v pk' -> owns (op_vault op v) pk') ->
  owns (op_vault op v) (op_key op v) ->
  valid_change (change_history i) c -> change_public_key (sc_change c) = op_key op v ->
  change_label (sc_change c) = op_label op ->
  (forall p, list.last (change_history i) = Some p ->
     previous_change_identifier (sc_change c) = sc_identifier p) ->
  run_key_op op i (v, s) = (Identity_add_change c i, (op_vault op v, s)) -> op_success op v s i.
Proof.
  intros Hm Hf Hmono Ho Hv Hpk Hlab Hl Hrun.
  destruct (changed_identity v _ i c _ _ Hm Hmono Ho Hv Hpk Hlab Hl)
    as (i' & Ei & Hm' & Hid & Hh & Hk).
  destruct (managed_accepted _ i' Hm') as (data & Hd & Hdec).
  exists i', c, data. rewrite Hrun, Ei. split_and!; try done.
  destruct op; try done; intros l; by apply next_key_is_new.
Qed.

Lemma creates_key op v s i :
  managed v i -> fresh_key v -> (forall l pk, op = OpAdd l pk -> owns v pk) ->
  rotates op = false -> latest_key (change_history i) (op_label op) = None ->
  op_success op v s i.
Proof.
  intros Hm Hf Ha Hop Hn. destruct op as [label|label pk| |]; try done; cbn [op_label] in Hn.
  - destruct (create_change_run v s i None (default_with_label label) _ _ Hm Hn
                (generate_next v s label) (fun pk => owns_with_next v pk Hf) (owns_next v Hf))
      as (c & Ec & Hv & Hpk & Hlab & Hl).
    eapply (op_finish _ _ _ _ c); eauto.
    + intros. by apply owns_with_next.
    + by apply owns_next.
    + cbn [run_key_op]. unfold create_key. by erewrite sbind_run by exact Ec.
  - pose proof (Ha label pk eq_refl) as Ho. destruct (id Ho) as (stored & Hs & _).
    destruct (create_change_run v s i (Some (key_id pk)) (KeyAttributes_new label (attributes stored))
                v pk Hm Hn eq_refl (fun _ H => H) Ho) as (c & Ec & Hv & Hpk & Hlab & Hl).
    eapply (op_finish _ _ _ _ c); eauto. cbn [run_key_op]. unfold add_key.
    erewrite sbind_run by (unfold in_vault; by rewrite get_secret_attributes_run, Hs).
    by erewrite sbind_run by exact Ec.
Qed.

Lemma rotates_key op v s i pk :
  managed v i -> fresh_key v -> rotates op = true ->
  latest_key (change_history i) (op_label op) = Some pk -> op_success op v s i.
Proof.
  intros Hm Hf Hop Hn.
  destruct (rotate_change_run v s i (op_label op) pk Hm Hf Hn) as (c & Ec & Hv & Hpk & Hlab & Hl).
  assert (op_vault op v = with_next_key v /\ op_key op v = next_key v) as [Hov Hok] by by destruct op.
  apply (op_finish _ _ _ _ c); rewrite ?Hov, ?Hok; try done.
  - intros. by apply owns_with_next.
  - by apply owns_next.
  - destruct op as [| |label|]; try done; cbn [run_key_op]; unfold rotate_key, rotate_root_key;
      by erewrite sbind_run by exact Ec.
Qed.

(** C21: operations on the keys of an identity whose keys are in the vault.
    Creating or adding a key fails exactly if the label has a key already, and
    rotating exactly if it has none; then nothing changes.  Otherwise one change
    is appended: the current key of the label is the one that was added, or the
    one that the vault has just generated, which is none of the keys that were
    current before; the other labels keep their keys, the identifier stays, the
    vault can sign with all current keys, and anyone who decodes the exported
    identity accepts it.  The keys of the identity are in the vault before, an
    added key too, and the key that is generated next is not. *)
Theorem key_operations (op : key_op) (v : Vault) (s : S) (i : Identity) :
  managed v i -> fresh_key v -> (forall l pk, op = OpAdd l pk -> owns v pk) ->
  if Bool.eqb (rotates op) (bool_decide (is_Some (latest_key (change_history i) (op_label op))))
  then op_success op v s i
  else run_key_op op i (v, s) = (Err InvalidInternalState, (v, s)).
Proof.
  intros Hm Hf Ha. destruct (latest_key (change_history i) (op_label op)) as [pk|] eqn:El.
  - rewrite bool_decide_eq_true_2 by eauto. destruct (rotates op) eqn:Hop; cbn [Bool.eqb].
    { by eapply rotates_key. }
    destruct (find_last_some _ _ _ El) as (c & Ec & _).
    destruct op as [label|label pk'| |]; try done; cbn [op_label] in Ec; cbn [run_key_op].
    + unfold create_key, make_create_key_change, sbind. cbn [ka_label default_with_label KeyAttributes_new]. by rewrite Ec.
    + destruct (Ha label pk' eq_refl) as (stored & Hs & _). unfold add_key.
      erewrite sbind_run by (unfold in_vault; by rewrite get_secret_attributes_run, Hs).
      unfold make_create_key_change, sbind. cbn [ka_label KeyAttributes_new]. by rewrite Ec.
  - rewrite bool_decide_eq_false_2 by (intros [? [=]]).
    destruct (rotates op) eqn:Hop; cbn [Bool.eqb]; [|by apply creates_key].
    destruct (managed_last v i Hm) as (p & _ & Hlast). pose proof (find_last_none _ _ El) as Ec.
    destruct op as [| |label|]; try done; cbn [op_label] in Ec; cbn [run_key_op];
      unfold rotate_key, rotate_root_key, make_rotate_key_change, sbind, slift;
      cbn [ka_label default_with_label KeyAttributes_new]; by rewrite Hlast, Ec.
Qed.

(** ** New identities *)

Context {IS : StorageLaws S}.

Lemma initial_key_run v (s : S) :
  fresh_key v -> exists c, create_initial_key None (KeyAttributes_new ROOT_LABEL Ed25519) (v, s) =
    (Ok [c], (with_next_key v, s)) /\
    verified [c] /\ change_public_key (sc_change c) = next_key v /\
    change_label (sc_change c) = ROOT_LABEL /\ exists d, sc_change c = CreateKey d.
Proof.
  intros Hf.
  destruct (create_static_run v s None (KeyAttributes_new ROOT_LABEL Ed25519) make_change_identifier
              None _ _ (generate_next v s ROOT_LABEL) (owns_next v Hf)) as (c & Ec & Hc & Hv); [done|].
  assert (verified [c]) as Hver.
  { split; [intros j a b Ha Hb; by destruct j|]. intros [|? [|]] d post [= <- <-].
    apply Hv. by left. }
  exists c. unfold create_initial_key. cbn [fmap option_fmap option_map] in Ec.
  erewrite sbind_run by exact Ec. destruct Hver as [Hch Hva].
  erewrite sbind_run by (unfold slift; by rewrite (proj2 (consistent_ok _) Hch)).
  erewrite sbind_run by (unfold slift; by rewrite (proj2 (verify_all_ok _) Hva)).
  rewrite Hc. split_and!; try done. by eexists.
Qed.

(** The identity of a fresh root key. *)
Lemma new_identity v (s : S) :
  fresh_key v -> exists c, create_initial_key None (KeyAttributes_new ROOT_LABEL Ed25519) (v, s) =
    (Ok [c], (with_next_key v, s)) /\
    compute_identity_identifier [c] = Ok (IdentityIdentifier_from_public_key (next_key v)) /\
    latest_key [c] ROOT_LABEL = Some (next_key v) /\
    managed (with_next_key v) (mkIdentity (IdentityIdentifier_from_public_key (next_key v)) [c]).
Proof.
  intros Hf. destruct (initial_key_run v s Hf) as (c & Ec & Hver & Hpk & Hlab & d & Hd). exists c.
  assert (compute_identity_identifier [c] = Ok (IdentityIdentifier_from_public_key (next_key v))) as Hid.
  { rewrite <-Hpk. unfold compute_identity_identifier, get_first_root_public_key. by rewrite Hd. }
  assert (latest_key [c] ROOT_LABEL = Some (next_key v)) as Hroot.
  { rewrite (latest_key_snoc [] c). unfold has_label. by rewrite bool_decide_eq_true_2, Hpk. }
  split_and!; try done. split; [done | done | by exists (next_key v) |].
  intros label pk. cbn [change_history]. rewrite (latest_key_snoc [] c).
  destruct (has_label _ _); [|done]. intros [= <-]. rewrite Hpk. by apply owns_next.
Qed.

(** A new identity is managed: its only key is the root key, whose hash is
    its identifier, the vault can sign with it, the repository knows the
    identity, and anyone who decodes its export accepts it.  Creation fails only
    if the storage fails or a conflicting history is known for the identifier. *)
Theorem create_identity_outcomes (v : Vault) (s : S) (r : result IdError Identity)
    (v' : Vault) (s' : S) :
  fresh_key v -> create_identity (v, s) = (r, (v', s')) ->
  match r with
  | Ok i => managed v' i /\ identifier i = IdentityIdentifier_from_public_key (next_key v) /\
      latest_key (change_history i) ROOT_LABEL = Some (next_key v) /\
      (exists h, known s' (identifier i) = Some h /\
         map sc_identifier h = map sc_identifier (change_history i)) /\
      exists data, history_export (change_history i) = Ok data /\
        IdentitiesCreation_decode_identity data = Ok i
  | Err e => repository_error e
  | Panic => False
  end.
Proof.
  intros Hf. unfold create_identity, make_and_persist_identity.
  destruct (new_identity v s Hf) as (c & Ec & Hid & Hroot & Hm).
  erewrite sbind_run by exact Ec. erewrite sbind_run by (unfold slift; by rewrite Hid).
  intros E. apply sbind_inv in E as [([] & [v1 s1] & E & Er) | [(e & E & ->) | (E & ->)]].
  - injection Er as <- <- <-. destruct (update_known _ _ _ _ _ E) as [-> Hk].
    split_and!; try done. by eapply managed_accepted.
  - by apply update_errors in E.
  - by apply update_identity_run in E as (_ & ? & _).
Qed.
End Keys.
