(* ===== verification/Credentials.v ===== *)
(** * Credentials (ockam_identity/src/credential, credentials)

    An authority signs attributes of a subject; who receives the credential
    verifies it against the authorities of a trust context and stores the
    attributes until the credential expires.  An [AuthorityService] caches the
    credential a node has from its authority.

    The CBOR encoding of the signed data and the way a credential is retrieved
    from a remote issuer are parameters; the system time is an argument of every
    function that reads the clock. *)

From Stdlib Require Import ZArith Lia Permutation.
From Stdlib Require Strings.Byte Strings.String.
From stdpp Require Import base gmap list numbers option countable.
From S2P Require Import Prelude RustStr Routing AccessControl KeyTracker Vault Attributes.
From S2P Require Import Identities IdentitySpec IdentityKeys.

(** ** Data (credential/credential_data.rs, credential.rs) *)

(** The verification status is a type only. *)
Inductive Verified : Set := .
Inductive Unverified : Set := .

Record CredentialData (T : Type) := mkCredentialData {
  cd_schema : option Z;
  cd_attributes : gmap bytes bytes;
  cd_subject : IdentityIdentifier;
  cd_issuer : IdentityIdentifier;
  cd_issuer_key_label : bytes;
  cd_created : Z;
  cd_expires : Z
}.
Arguments mkCredentialData {T}.
Arguments cd_schema {T}.
Arguments cd_attributes {T}.
Arguments cd_subject {T}.
Arguments cd_issuer {T}.
Arguments cd_issuer_key_label {T}.
Arguments cd_created {T}.
Arguments cd_expires {T}.

Definition into_verified (d : CredentialData Unverified) : CredentialData Verified :=
  mkCredentialData (cd_schema d) (cd_attributes d) (cd_subject d) (cd_issuer d)
    (cd_issuer_key_label d) (cd_created d) (cd_expires d).

Record Credential := mkCredential {
  cr_data : bytes;
  cr_signature : bytes
}.

(** The CBOR encoding of the data of a credential. *)
Class CredentialCodec := {
  encode_data : CredentialData Verified -> option bytes;
  decode_data : bytes -> option (CredentialData Unverified)
}.

Class CredentialCodecLaws `{CredentialCodec} : Prop := {
  decode_encode_data : forall d, exists b u, encode_data d = Some b /\
    decode_data b = Some u /\ into_verified u = d
}.

Definition CredentialData_verify (self : CredentialData Unverified) (subject issuer : IdentityIdentifier)
    (now : Z) : result IdError unit :=
  if negb (bool_decide (cd_issuer_key_label self = ROOT_LABEL))
  then Err (ApplicationInvalid (str "invalid signing key"))
  else if negb (bool_decide (cd_issuer self = issuer))
  then Err (ApplicationInvalid (str "unknown authority"))
  else if negb (bool_decide (cd_subject self = subject))
  then Err (ApplicationInvalid (str "unknown subject"))
  else if (cd_expires self <=? now)%Z
  then Err (ApplicationInvalid (str "expired credential"))
  else Ok tt.

(** [Timestamp::add_seconds]: saturating 64-bit addition *)
Definition add_seconds (t seconds : Z) : Z := Z.min (2 ^ 64 - 1) (t + seconds).

(** ** Builder (credential/credential_builder.rs); a [Duration] is its number of
    nanoseconds *)

Definition nanos : Z := 1000000000.
Definition MAX_CREDENTIAL_VALIDITY : Z := 30 * 24 * 3600 * nanos.

Record CredentialBuilder := mkBuilder {
  b_schema : option Z;
  b_attrs : gmap bytes bytes;
  b_subject : IdentityIdentifier;
  b_issuer : IdentityIdentifier;
  b_validity : Z
}.

Definition CredentialBuilder_new (subject issuer : IdentityIdentifier) : CredentialBuilder :=
  mkBuilder None ∅ subject issuer MAX_CREDENTIAL_VALIDITY.

Definition with_attribute (k v : bytes) (self : CredentialBuilder) : CredentialBuilder :=
  mkBuilder (b_schema self) (<[k := v]> (b_attrs self)) (b_subject self) (b_issuer self)
    (b_validity self).

Definition with_schema (s : Z) (self : CredentialBuilder) : CredentialBuilder :=
  mkBuilder (Some s) (b_attrs self) (b_subject self) (b_issuer self) (b_validity self).

(** [assert!] panics. *)
Definition valid_for (val : Z) (self : CredentialBuilder) : result IdError CredentialBuilder :=
  if (val <=? MAX_CREDENTIAL_VALIDITY)%Z then
    Ok (mkBuilder (b_schema self) (b_attrs self) (b_subject self) (b_issuer self) val)
  else Panic.

Definition CredentialBuilder_from_attributes (subject issuer : IdentityIdentifier)
    (attrs : list (bytes * bytes)) : CredentialBuilder :=
  foldl (fun crd '(k, v) => with_attribute k v crd) (CredentialBuilder_new subject issuer) attrs.

Definition build (now : option Z) (self : CredentialBuilder) : result IdError (CredentialData Verified) :=
  let? now := ok_or now (CoreInternal (str "invalid system time")) in
  let exp := add_seconds now (b_validity self / nanos) in
  Ok (mkCredentialData (b_schema self) (b_attrs self) (b_subject self) (b_issuer self) ROOT_LABEL
        now exp).

(** ** Issuing and verifying (credentials/credentials.rs) *)

Section Credentials.
Context {C : Crypto} `{IdentityCodec} `{CredentialCodec} {S : Type} `{Storage S} `{EntryCodec}.

Notation id_m := (stm (Vault * S) IdError).

Definition verify_credential (now : option Z) (subject : IdentityIdentifier)
    (authorities : list Identity) (credential : Credential)
  : result IdError (CredentialData Verified) :=
  let? credential_data := ok_or (decode_data (cr_data credential)) CborError in
  match list_find (fun x => identifier x = cd_issuer credential_data) authorities with
  | None => Err UnknownAuthority
  | Some (_, issuer) =>
      let? now := ok_or now (ApplicationInvalid (str "invalid system time")) in
      let? _ := CredentialData_verify credential_data subject (identifier issuer) now in
      let sig := cr_signature credential in
      let? b := IdentitiesKeys_verify_signature issuer sig (cr_data credential)
                  (Some (cd_issuer_key_label credential_data)) in
      if negb b then Err (ApplicationInvalid (str "invalid signature"))
      else Ok (into_verified credential_data)
  end.

Definition Credentials_issue_credential (issuer : IdentityIdentifier)
    (credential_data : CredentialData Verified) : id_m Credential :=
  let! bytes := slift (ok_or (encode_data credential_data) CborError) in
  let! issuer_identity := get_identity issuer in
  let! sig := create_signature issuer_identity bytes None in
  sret (mkCredential bytes sig).

(** The clock is read again after the verification. *)
Definition Credentials_receive_presented_credential (now now' : option Z)
    (sender : IdentityIdentifier) (authorities : list Identity) (credential : Credential)
  : id_m unit :=
  let! credential_data := slift (verify_credential now sender authorities credential) in
  let! added := slift (unwrap now') in
  in_storage (put_attributes sender
    (mkAttributesEntry (cd_attributes credential_data) added
       (Some (cd_expires credential_data)) (Some (cd_issuer credential_data)))).

(** ** The issuer (credentials/credentials_issuer.rs) *)

Definition LEGACY_ID : bytes := str "project_id".
Definition TRUST_CONTEXT_ID : bytes := str "trust_context_id".
Definition PROJECT_MEMBER_SCHEMA : Z := 1.

Record CredentialsIssuer := mkIssuer {
  ci_issuer : IdentityIdentifier;
  ci_trust_context : bytes
}.

Definition CredentialsIssuer_issue_credential (now now' : option Z) (self : CredentialsIssuer)
    (from : IdentityIdentifier) : id_m (option Credential) :=
  let! o := in_storage (get_attributes now from) in
  match o with
  | Some entry =>
      let crd := foldl (fun crd '(a, v) => with_attribute a v crd)
                   (with_schema PROJECT_MEMBER_SCHEMA (CredentialBuilder_new from (ci_issuer self)))
                   (btree_iter (attrs entry)) in
      let crd := with_attribute LEGACY_ID (ci_trust_context self) crd in
      let crd := with_attribute TRUST_CONTEXT_ID (ci_trust_context self) crd in
      let! data := slift (build now' crd) in
      let! c := Credentials_issue_credential (ci_issuer self) data in
      sret (Some c)
  | None => sret None
  end.

(** ** Authorities (credentials/authority_service.rs, trust_context.rs) *)

(** The trait [CredentialsRetriever] *)
Definition CredentialsRetriever : Type := IdentityIdentifier -> id_m Credential.

Definition CredentialsMemoryRetriever (credential : Credential) : CredentialsRetriever :=
  fun _ => sret credential.

Record CachedCredential := mkCached {
  cached_credential : Credential;
  valid_until : Z
}.

Record AuthorityService := mkAuthorityService {
  as_identifier : IdentityIdentifier;
  as_own_credential : option CredentialsRetriever
}.

(** The cache is part of the state. *)
Notation au_m := (stm ((Vault * S) * option CachedCredential) IdError).

Definition on_identities {A} (m : id_m A) : au_m A :=
  fun '(st, cache) => let (r, st') := m st in (r, (st', cache)).

Definition AuthorityService_identity (self : AuthorityService) : id_m Identity :=
  get_identity (as_identifier self).

(** A credential in the cache that is valid for another minute. *)
Definition AuthorityService_cached (now : Z) (cache : option CachedCredential) : option Credential :=
  match cache with
  | Some c => if (add_seconds now 60 <? valid_until c)%Z then Some (cached_credential c) else None
  | None => None
  end.

Definition AuthorityService_credential (now now' : option Z) (self : AuthorityService)
    (for_identity : IdentityIdentifier) : au_m Credential :=
  let! now := slift (ok_or now (ApplicationInvalid (str "invalid system time"))) in
  let! (_, cache) := sget in
  match AuthorityService_cached now cache with
  | Some c => sret c
  | None =>
      let! retriever := slift (ok_or (as_own_credential self) UnknownAuthority) in
      let! credential := on_identities (retriever for_identity) in
      let! authority := on_identities (AuthorityService_identity self) in
      let! credential_data := slift (verify_credential now' for_identity [authority] credential) in
      let! _ := (fun '(st, _) =>
                   (Ok tt, (st, Some (mkCached credential (cd_expires credential_data))))) in
      sret credential
  end.

Definition TrustContext_authorities (authority : option AuthorityService) : id_m (list Identity) :=
  let! a := slift (ok_or authority UnknownAuthority) in
  let! i := AuthorityService_identity a in
  sret [i].
End Credentials.
