(* ===== verification/CredentialSpec.v ===== *)
(** * What a credential establishes

    When a credential is accepted, and its life from the authority that issues
    it to the attribute store of who receives it. *)

From Stdlib Require Import ZArith Lia Permutation.
From Stdlib Require Strings.Byte Strings.String.
From stdpp Require Import base gmap list numbers option countable.
From S2P Require Import Prelude RustStr Routing AccessControl KeyTracker Vault Attributes.
From S2P Require Import Identities IdentitySpec IdentityKeys Credentials.

Section CredentialSpec.
Context {C : Crypto} {CL : CryptoLaws C} {SG : SignatureLaws C}.
Context `{IC : IdentityCodec} {IL : IdentityCodecLaws} `{CC : CredentialCodec} {CCL : CredentialCodecLaws}.
Context {S : Type} `{St : Storage S} {SL : StorageLaws S} `{EC : EntryCodec} {ECL : EntryCodecLaws}.

Implicit Types (d : CredentialData Verified) (u : CredentialData Unverified).

Lemma data_verify_ok u subject issuer t :
  CredentialData_verify u subject issuer t = Ok tt <->
  cd_issuer_key_label u = ROOT_LABEL /\ cd_issuer u = issuer /\ cd_subject u = subject /\
  (t < cd_expires u)%Z.
Proof.
  unfold CredentialData_verify. repeat case_bool_decide; cbn [negb]; try naive_solver.
  destruct (Z.leb_spec (cd_expires u) t).
  - split; [done|]. intros (_ & _ & _ & ?). lia.
  - split; [|done]. intros _. split_and!; done.
Qed.

(** The authority that a credential names. *)
Lemma find_authority (authorities : list Identity) id n i :
  list_find (fun x => identifier x = id) authorities = Some (n, i) <->
  authorities !! n = Some i /\ identifier i = id /\
  Forall (fun x => identifier x <> id) (take n authorities).
Proof.
  rewrite list_find_Some, Forall_lookup. setoid_rewrite lookup_take_Some. naive_solver.
Qed.

(** An accepted credential is for who presents it. *)
Lemma credential_sound now subject authorities c d :
  verify_credential now subject authorities c = Ok d ->
  exists u, decode_data (cr_data c) = Some u /\ d = into_verified u /\ cd_subject u = subject.
Proof.
  unfold verify_credential. intros E. inv_ok E.
  destruct (decode_data (cr_data c)) as [u|]; [|done]. injection E0 as <-.
  destruct (list_find _ _) as [[n i]|] in E; [|done]. inv_ok E. inv_ok E. destruct a0.
  apply data_verify_ok in E1 as (_ & _ & Hs & _). inv_ok E. destruct a0; [|done].
  injection E as <-. eauto.
Qed.

(** C13: a credential is accepted exactly if its data decode, name the subject
    that presents it and the root key, have not expired, and its signature over
    the very bytes that were received verifies with the current root key of the
    first authority that has the issuer's identifier. *)
Theorem credential_accepted_exactly (now : option Z) (subject : IdentityIdentifier)
    (authorities : list Identity) (c : Credential) d :
  verify_credential now subject authorities c = Ok d <->
  exists u t n i pk, decode_data (cr_data c) = Some u /\ d = into_verified u /\ now = Some t /\
    authorities !! n = Some i /\ identifier i = cd_issuer d /\
    Forall (fun x => identifier x <> cd_issuer d) (take n authorities) /\
    cd_issuer_key_label d = ROOT_LABEL /\ cd_subject d = subject /\ (t < cd_expires d)%Z /\
    latest_key (change_history i) ROOT_LABEL = Some pk /\
    verify pk (cr_data c) (cr_signature c) = Ok true.
Proof.
  unfold verify_credential, IdentitiesKeys_verify_signature, Identity_get_public_key. split.
  - intros E. inv_ok E. destruct (decode_data (cr_data c)) as [u|]; [|done]. injection E0 as <-.
    destruct (list_find _ _) as [[n i]|] eqn:Ef in E; [|done]. apply find_authority in Ef as (Hn & Hi & Hb).
    inv_ok E. destruct now as [t|]; [|done]. injection E0 as <-. inv_ok E. destruct a.
    apply data_verify_ok in E0 as (Hl & Hiss & Hs & Ht). inv_ok E. inv_ok E0.
    rewrite get_public_key_latest, Hl in E1.
    destruct (latest_key _ _) as [pk|] eqn:Ek; [|done]. injection E1 as <-.
    destruct (verify pk _ _) as [[]| |] eqn:Ev; try done; cbn in E0; injection E0 as <-; cbn in E; [|done].
    injection E as <-. exists u, t, n, i, pk. split_and!; done.
  - intros (u & t & n & i & pk & -> & -> & -> & Hn & Hi & Hb & Hl & Hs & Ht & Hk & Hv).
    cbn [ok_or rbind]. cbn [cd_issuer cd_issuer_key_label cd_subject cd_expires into_verified] in *.
    rewrite (proj2 (find_authority authorities (cd_issuer u) n i)) by done. cbn [rbind].
    rewrite (proj2 (data_verify_ok u subject (identifier i) t)) by done. cbn [rbind].
    rewrite Hl, get_public_key_latest, Hk. cbn [ok_or rbind]. by rewrite Hv.
Qed.

(** ** From the issuer to the attribute store *)

Lemma create_signature_run v (s : S) i pk data :
  managed v i -> latest_key (change_history i) ROOT_LABEL = Some pk ->
  exists sig, create_signature i data None (v, s) = (Ok sig, (v, s)) /\ verify pk data sig = Ok true.
Proof.
  intros Hm Hr. unfold create_signature, get_secret_key, get_root_secret_key.
  erewrite sbind_run by (by apply labelled_key_run). apply vault_sign_run, (m_owned _ _ Hm _ _ Hr).
Qed.

Lemma issue_run v s i d :
  managed v i -> get_identity (identifier i) (v, s) = (Ok i, (v, s)) ->
  exists c u pk, Credentials_issue_credential (identifier i) d (v, s) = (Ok c, (v, s)) /\
    decode_data (cr_data c) = Some u /\ into_verified u = d /\
    latest_key (change_history i) ROOT_LABEL = Some pk /\
    verify pk (cr_data c) (cr_signature c) = Ok true.
Proof.
  intros Hm Hg. destruct (m_root _ _ Hm) as [pk Hr].
  destruct (decode_encode_data d) as (b & u & Eb & Eu & Hu).
  destruct (create_signature_run v s i pk b Hm Hr) as (sig & Es & Hv).
  exists (mkCredential b sig), u, pk. split_and!; try done.
  unfold Credentials_issue_credential. erewrite sbind_run by (unfold slift; by rewrite Eb).
  erewrite sbind_run by exact Hg. by erewrite sbind_run by exact Es.
Qed.

(** Storing attributes: they are there until they expire, or nothing changed. *)
Lemma put_attributes_outcomes id e s r s' :
  put_attributes id e s = (r, s') ->
  (r = Ok tt /\ forall later id', attributes_at later s' id' =
     if bool_decide (id' = id) then unexpired later e else attributes_at later s id') \/
  ((exists err, r = Err err) /\ forall later id', attributes_at later s' id' = attributes_at later s id').
Proof.
  intros E. destruct r as [[]|err|].
  - left. split; [done|]. by apply put_attributes_spec.
  - right. split; [by exists err|].
    apply sbind_inv in E as [(? & ? & _ & [=]) | [(e' & E & [= ->]) | (_ & [=])]].
    apply set_law in E as (_ & _ & Hno). intros. unfold attributes_at. by rewrite Hno.
  - apply sbind_inv in E as [(? & ? & _ & [=]) | [(e' & _ & [=]) | (E & _)]].
    by apply set_law in E as [? _].
Qed.

Lemma build_bounds t b d :
  (0 <= t < 2 ^ 64)%Z -> (0 <= b_validity b <= MAX_CREDENTIAL_VALIDITY)%Z -> build (Some t) b = Ok d ->
  (cd_issuer d = b_issuer b /\ cd_issuer_key_label d = ROOT_LABEL /\ cd_subject d = b_subject b /\
   cd_attributes d = b_attrs b) /\ (t <= cd_expires d <= t + 30 * 24 * 3600)%Z /\ (cd_expires d < 2 ^ 64)%Z.
Proof.
  intros Ht Hv [= <-]. cbn [cd_expires]. split; [done|]. unfold add_seconds.
  assert (0 <= b_validity b / nanos <= 30 * 24 * 3600)%Z as Hd.
  { unfold MAX_CREDENTIAL_VALIDITY, nanos in *. split; [apply Z.div_pos; lia|].
    apply Z.div_le_upper_bound; lia. }
  lia.
Qed.

(** What the receiver of an issued credential does with it. *)
Lemma receive_issued i c u pk now subject :
  decode_data (cr_data c) = Some u -> cd_issuer u = identifier i -> cd_issuer_key_label u = ROOT_LABEL ->
  latest_key (change_history i) ROOT_LABEL = Some pk -> verify pk (cr_data c) (cr_signature c) = Ok true ->
  verify_credential (Some now) subject [i] c =
    if negb (bool_decide (cd_subject u = subject)) then Err (ApplicationInvalid (str "unknown subject"))
    else if (cd_expires u <=? now)%Z then Err (ApplicationInvalid (str "expired credential"))
    else Ok (into_verified u).
Proof.
  intros Eu Hi Hl Hk Hv. unfold verify_credential. rewrite Eu. cbn [ok_or rbind list_find].
  rewrite decide_True by done. cbn [rbind]. unfold CredentialData_verify.
  rewrite Hl, Hi, !bool_decide_eq_true_2 by done. cbn [negb].
  destruct (bool_decide (cd_subject u = subject)); [|done]. cbn [negb].
  destruct (cd_expires u <=? now)%Z; [done|]. cbn [rbind].
  unfold IdentitiesKeys_verify_signature, Identity_get_public_key.
  rewrite get_public_key_latest, Hk. cbn [ok_or rbind]. by rewrite Hv.
Qed.

(** C14: the life of a credential.  An authority whose keys are in its vault and
    whose identity is in its repository issues a credential valid for at most 30
    days.  Whoever trusts the authority can be presented with it by its subject
    and then sees its attributes, attested by the authority, until it expires
    and not after; presenting it for another subject, or after it expired, is
    refused and changes nothing. *)
Theorem credential_end_to_end (v : Vault) (s : S) (i : Identity) (b : CredentialBuilder) (t : Z) d :
  managed v i -> get_identity (identifier i) (v, s) = (Ok i, (v, s)) ->
  b_issuer b = identifier i -> (0 <= b_validity b <= MAX_CREDENTIAL_VALIDITY)%Z ->
  (0 <= t < 2 ^ 64)%Z -> build (Some t) b = Ok d ->
  (cd_expires d <= t + 30 * 24 * 3600)%Z /\
  exists c, Credentials_issue_credential (identifier i) d (v, s) = (Ok c, (v, s)) /\
  forall (v2 : Vault) (s2 : S) (now now' : Z) (sender : IdentityIdentifier),
    let '(r, (v2', s2')) :=
      Credentials_receive_presented_credential (Some now) (Some now') sender [i] c (v2, s2) in
    v2' = v2 /\
    if bool_decide (sender = b_subject b) && (now <? cd_expires d)%Z then
      (r = Ok tt /\ forall later id, attributes_at later s2' id =
         if bool_decide (id = sender) then
           if (later <? cd_expires d)%Z
           then Some (mkAttributesEntry (b_attrs b) now' (Some (cd_expires d)) (Some (identifier i)))
           else None
         else attributes_at later s2 id) \/
      ((exists e, r = Err (StoreErr e)) /\
       forall later id, attributes_at later s2' id = attributes_at later s2 id)
    else s2' = s2 /\ exists msg, r = Err (ApplicationInvalid msg).
Proof.
  intros Hm Hg Hi Hval Ht Hb. destruct (build_bounds t b d Ht Hval Hb) as ((Hdi & Hdl & Hds & Hda) & He & _).
  split; [lia|]. destruct (issue_run v s i d Hm Hg) as (c & u & pk & Ec & Eu & Hu & Hk & Hv).
  exists c. split; [done|]. intros v2 s2 now now' sender.
  unfold Credentials_receive_presented_credential, sbind at 1, slift at 1.
  subst d. cbn [cd_issuer cd_issuer_key_label cd_subject cd_attributes cd_expires into_verified] in *.
  rewrite (receive_issued i c u pk), Hds by congruence. destruct (bool_decide_reflect (b_subject b = sender)) as [<-|Hs]; cbn [negb].
  2:{ rewrite bool_decide_eq_false_2 by congruence. cbn [andb]. split_and!; eauto. }
  rewrite bool_decide_eq_true_2 by done. cbn [andb].
  destruct (Z.leb_spec (cd_expires u) now), (Z.ltb_spec now (cd_expires u)); try lia; [by eauto|].
  unfold sbind, slift, in_storage. cbn [unwrap cd_attributes cd_issuer cd_expires into_verified].
  rewrite Hda, Hdi, Hi.
  destruct (put_attributes _ _ s2) as [r1 s2'] eqn:Ep. split; [done|].
  apply put_attributes_outcomes in Ep as [[-> Hat] | [[err ->] Hat]].
  - left. split; [done|]. intros later id. rewrite Hat. case_bool_decide; [|done].
    unfold unexpired, is_expired. cbn [Attributes.expires].
    destruct (Z.leb_spec (cd_expires u) later), (Z.ltb_spec later (cd_expires u)); (done || lia).
  - right. split; [by eexists | done].
Qed.

(** ** The cache of an authority *)

(** The cache of an [AuthorityService] does not look at who asks.  After a
    credential was retrieved for one identity, every other identity that asks in
    the next time gets that same credential, which no verifier accepts for it. *)
Theorem authority_cache_ignores_identity (self : AuthorityService) (t t' : option Z)
    (id : IdentityIdentifier) (st st1 : Vault * S) (cache : option CachedCredential) (c : Credential) :
  AuthorityService_credential t t' self id (st, None) = (Ok c, (st1, cache)) ->
  exists u, decode_data (cr_data c) = Some u /\ cd_subject u = id /\
  forall (other : IdentityIdentifier) (now : Z) (now' : option Z),
    (add_seconds now 60 < cd_expires u)%Z -> other <> id ->
    AuthorityService_credential (Some now) now' self other (st1, cache) = (Ok c, (st1, cache)) /\
    forall when authorities d, verify_credential when other authorities c <> Ok d.
Proof.
  unfold AuthorityService_credential at 1. intros E.
  apply sbind_ok in E as (t0 & [? ?] & E1 & E). apply slift_inv in E1 as [_ [= -> ->]].
  erewrite sbind_run in E by reflexivity. cbn [AuthorityService_cached] in E.
  apply sbind_ok in E as (ret & [? ?] & E1 & E). apply slift_inv in E1 as [_ [= -> ->]].
  apply sbind_ok in E as (c' & [st2 ca2] & E1 & E).
  apply sbind_ok in E as (au & [st3 ca3] & E2 & E).
  apply sbind_ok in E as (d & [st4 ca4] & E3 & E). apply slift_inv in E3 as [Hv [= -> ->]].
  erewrite sbind_run in E by reflexivity. injection E as -> -> <-.
  apply credential_sound in Hv as (u & Hu & -> & Hs). exists u. split_and!; [done..|].
  intros other now now' Hnow Hne. split.
  - unfold AuthorityService_credential. erewrite sbind_run by reflexivity.
    erewrite sbind_run by reflexivity. cbn [AuthorityService_cached valid_until cached_credential cd_expires into_verified].
    by rewrite (proj2 (Z.ltb_lt _ _) Hnow).
  - intros when authorities d Hd. apply credential_sound in Hd as (u' & Hu' & _ & Hs'). congruence.
Qed.
End CredentialSpec.
