(* ===== verification/StateMachine.v ===== *)
(** * The handshake state machines
    (handshake_state_machine.rs, initiator_state_machine.rs, responder_state_machine.rs)

    Events drive the handshake and the verification of the peer. What the
    machines need of the identities (decoding an exported identity, checking its
    signature, the trust policy, the credentials) is the interface
    [PeerIdentities]; the theorems hold for every implementation of it. *)

From Stdlib Require Import ZArith Lia.
From Stdlib Require Strings.Byte Strings.String.
From stdpp Require Import base gmap list numbers option countable.
From S2P Require Import Prelude RustStr KeyTracker Vault ToyCrypto Handshake SecureChannel Credentials.

Inductive Event :=
| Initialize
| ReceivedMessage (message : bytes).

Inductive Action :=
| NoAction
| SendMessage (message : bytes).

Record HandshakeResults := mkHandshakeResults {
  handshake_keys : HandshakeKeys;
  their_identifier : bytes
}.

(** The payload of messages 2 and 3. *)
Record IdentityAndCredentials := mkIdentityAndCredentials {
  ic_identity : bytes;
  ic_signature : bytes;
  ic_credentials : list Credential
}.

(** The identities component as the handshake uses it. *)
Class PeerIdentities := {
  Identity : Type;
  identifier_of : Identity -> bytes;
  (** the BARE encoding of the payload *)
  decode_payload : bytes -> option IdentityAndCredentials;
  decode_identity : bytes -> result HandshakeError Identity;
  (** identity, signature, signed data *)
  identity_signature : Identity -> bytes -> bytes -> result HandshakeError bool;
  trust_policy_check : bytes -> result HandshakeError bool;
  (** the identity of the authority of the trust context *)
  authority_identity : result HandshakeError Identity;
  receive_presented_credential : bytes -> Identity -> Credential -> result HandshakeError unit;
  update_identity : Identity -> result HandshakeError unit
}.

Definition SecureChannelVerificationFailed : HandshakeError := IdentityErr 1.
Definition SecureChannelTrustCheckFailed : HandshakeError := IdentityErr 2.
Definition InvalidPayload : HandshakeError := IdentityErr 3.

(** [CommonStateMachine], [Handshake] and the identity payload of a machine. *)
Record Machine := mkMachine {
  m_trust_context : bool;
  m_their_identifier : option bytes;
  m_handshake : HandshakeState;
  m_identity_payload : option bytes
}.

Notation machine_m := (stm (Machine * Vault) HandshakeError).

Definition on_handshake {A} (m : hs_m A) : machine_m A :=
  fun '(x, v) =>
    let '(r, (st, v')) := m (m_handshake x, v) in
    (r, (mkMachine (m_trust_context x) (m_their_identifier x) st (m_identity_payload x), v')).

Definition get_machine : machine_m Machine := fun '(x, v) => (Ok x, (x, v)).

Definition set_status_of (s : Status) : machine_m unit :=
  fun '(x, v) =>
    (Ok tt, (mkMachine (m_trust_context x) (m_their_identifier x)
               (set_status s (m_handshake x)) (m_identity_payload x), v)).

Definition set_their_identifier (i : bytes) : machine_m unit :=
  fun '(x, v) =>
    (Ok tt, (mkMachine (m_trust_context x) (Some i) (m_handshake x) (m_identity_payload x), v)).

(** [self.identity_payload.take().ok_or(XXError::InvalidInternalState)] *)
Definition take_identity_payload : machine_m bytes :=
  fun '(x, v) =>
    (ok_or (m_identity_payload x) (XXErr InvalidInternalState),
     (mkMachine (m_trust_context x) (m_their_identifier x) (m_handshake x) None, v)).

Section Machines.
Context {C : Crypto} {P : PeerIdentities}.

(** [CommonStateMachine::verify_signature] *)
Definition verify_signature (identity : Identity) (signature : bytes) (pk : PublicKey)
  : result HandshakeError unit :=
  let? verified := identity_signature identity signature (pk_data pk) in
  if negb verified then Err SecureChannelVerificationFailed else Ok tt.

(** The loop over the presented credentials. *)
Fixpoint verify_presented (identifier : bytes) (credentials : list Credential)
  : result HandshakeError unit :=
  match credentials with
  | [] => Ok tt
  | c :: rest =>
      let? authority := authority_identity in
      match receive_presented_credential identifier authority c with
      | Ok _ => verify_presented identifier rest
      | Err _ => Err SecureChannelVerificationFailed
      | Panic => Panic
      end
  end.

Definition verify_credentials (trust_context : bool) (identity : Identity)
    (credentials : list Credential) : result HandshakeError unit :=
  let? trusted := trust_policy_check (identifier_of identity) in
  if negb trusted then Err SecureChannelTrustCheckFailed
  else
    let? _ :=
      if trust_context then verify_presented (identifier_of identity) credentials
      else match credentials with
           | [] => Ok tt
           | _ => Err SecureChannelVerificationFailed
           end in
    update_identity identity.

Definition verify_identity (peer : IdentityAndCredentials) (peer_public_key : PublicKey)
  : machine_m unit :=
  let! self := get_machine in
  let! identity := slift (decode_identity (ic_identity peer)) in
  let! _ := slift (verify_signature identity (ic_signature peer) peer_public_key) in
  let! _ := slift (verify_credentials (m_trust_context self) identity (ic_credentials peer)) in
  set_their_identifier (identifier_of identity).

Definition deserialize_payload (payload : bytes) : result HandshakeError IdentityAndCredentials :=
  ok_or (decode_payload payload) InvalidPayload.

(** [self.handshake.state.rs()?] *)
Definition peer_static_key : machine_m PublicKey :=
  let! self := get_machine in
  slift (ok_or (hs_rs (m_handshake self)) KeyNotSet).

Definition initiator_on_event (event : Event) : machine_m Action :=
  let! self := get_machine in
  match hs_status (m_handshake self), event with
  | Initial, Initialize =>
      let! _ := on_handshake initialize in
      let! message1 := on_handshake (encode_message1 []) in
      let! _ := set_status_of WaitingForMessage2 in
      sret (SendMessage message1)
  | WaitingForMessage2, ReceivedMessage message =>
      let! message2_payload := on_handshake (decode_message2 message) in
      let! payload := slift (deserialize_payload message2_payload) in
      let! rs := peer_static_key in
      let! _ := verify_identity payload rs in
      let! identity_payload := take_identity_payload in
      let! message3 := on_handshake (encode_message3 identity_payload) in
      let! _ := on_handshake (set_final_state Initiator) in
      sret (SendMessage message3)
  | _, _ => serr UnexpectedEvent
  end.

Definition responder_on_event (event : Event) : machine_m Action :=
  let! self := get_machine in
  match hs_status (m_handshake self), event with
  | Initial, Initialize =>
      let! _ := on_handshake initialize in
      let! _ := set_status_of WaitingForMessage1 in
      sret NoAction
  | WaitingForMessage1, ReceivedMessage message =>
      let! _ := on_handshake (decode_message1 message) in
      let! identity_payload := take_identity_payload in
      let! message2 := on_handshake (encode_message2 identity_payload) in
      let! _ := set_status_of WaitingForMessage3 in
      sret (SendMessage message2)
  | WaitingForMessage3, ReceivedMessage message =>
      let! message3_payload := on_handshake (decode_message3 message) in
      let! payload := slift (deserialize_payload message3_payload) in
      let! rs := peer_static_key in
      let! _ := verify_identity payload rs in
      let! _ := on_handshake (set_final_state Responder) in
      sret NoAction
  | _, _ => serr UnexpectedEvent
  end.

Definition get_handshake_results (self : Machine) : option HandshakeResults :=
  match m_their_identifier self, get_handshake_keys (m_handshake self) with
  | Some i, Some keys => Some (mkHandshakeResults keys i)
  | _, _ => None
  end.

End Machines.

(** * Properties *)

(** ** Handshake functions write the stored state once, at the end *)

Section Frames.
Context {C : Crypto}.

(** [m] started in the stored state [st] leaves it, and its value satisfies [Q]. *)
Definition keeps {A} (st : HandshakeState) (m : hs_m A) (Q : A -> Prop) : Prop :=
  forall v r st' v', m (st, v) = (r, (st', v')) -> st' = st /\ forall a, r = Ok a -> Q a.

(** [m] leaves the stored state or replaces it by one that satisfies [P]. *)
Definition stores {A} (st : HandshakeState) (m : hs_m A) (P : HandshakeState -> Prop) : Prop :=
  forall v r st' v', m (st, v) = (r, (st', v')) -> st' = st \/ P st'.

Lemma keeps_bind {A B} st (m : hs_m A) (k : A -> hs_m B) Q Q' :
  keeps st m Q -> (forall a, Q a -> keeps st (k a) Q') -> keeps st (sbind m k) Q'.
Proof.
  intros Hm Hk v r st' v' H.
  apply sbind_inv in H as [(a & [st1 v1] & E & H) | [(e & E & ->) | (E & ->)]];
    apply Hm in E as [-> Ha]; [|done..]. eapply Hk; eauto.
Qed.

Lemma stores_bind {A B} st (m : hs_m A) (k : A -> hs_m B) Q P :
  keeps st m Q -> (forall a, Q a -> stores st (k a) P) -> stores st (sbind m k) P.
Proof.
  intros Hm Hk v r st' v' H.
  apply sbind_inv in H as [(a & [st1 v1] & E & H) | [(e & E & ->) | (E & ->)]];
    apply Hm in E as [-> Ha]; [|by left..]. eapply Hk; eauto.
Qed.

Lemma keeps_vault {A} st (m : stm Vault VaultError A) : keeps st (hs_vault m) (fun _ => True).
Proof. intros v r st' v' H. unfold hs_vault in H. destruct (m v). naive_solver. Qed.

Lemma keeps_lift {A} st (m : result HandshakeError A) (Q : A -> Prop) :
  (forall a, m = Ok a -> Q a) -> keeps st (slift m) Q.
Proof. intros HQ v r st' v' H. apply slift_inv in H as [-> H]. naive_solver. Qed.

Lemma keeps_set_or_error {A} st (o : option A) : keeps st (set_or_error o) (fun _ => True).
Proof. by apply keeps_lift. Qed.

Lemma keeps_load st : keeps st load_state (fun a => a = st).
Proof. intros v r st' v' H. injection H as <- <- <-. naive_solver. Qed.

Lemma keeps_ret {A} st (a : A) (Q : A -> Prop) : Q a -> keeps st (sret a) Q.
Proof. intros HQ v r st' v' H. injection H as <- <- <-. naive_solver. Qed.

Lemma keeps_err {A} st e (Q : A -> Prop) : keeps st (serr e) Q.
Proof. intros v r st' v' H. injection H as <- <- <-. naive_solver. Qed.

Lemma stores_store {A} st st1 (a : A) (P : HandshakeState -> Prop) :
  P st1 -> stores st (let! _ := store_state st1 in sret a) P.
Proof. intros HP v r st' v' H. injection H as <- <- <-. by right. Qed.

Hint Resolve keeps_vault keeps_set_or_error keeps_load keeps_err : ockam.

Lemma keeps_hkdf st st0 dh : keeps st (hs_hkdf st0 dh) (same_rest st0).
Proof.
  unfold hs_hkdf. eapply keeps_bind; [eauto with ockam|]. intros ck _.
  eapply keeps_bind; [eauto with ockam|]. intros out _.
  eapply keeps_bind; [eauto with ockam|]. intros _ _.
  destruct out as [|new_ck [|new_k [|]]]; eauto with ockam.
  do 4 (eapply keeps_bind; [eauto with ockam|]; intros ? _). apply keeps_ret. done.
Qed.

Lemma keeps_encrypt st st0 p : keeps st (encrypt_and_hash st0 p) (fun x => same_rest st0 x.1).
Proof.
  unfold encrypt_and_hash. do 2 (eapply keeps_bind; [eauto with ockam|]; intros ? _).
  apply keeps_ret. done.
Qed.

Lemma keeps_decrypt st st0 c : keeps st (hash_and_decrypt st0 c) (fun x => same_rest st0 x.1).
Proof.
  unfold hash_and_decrypt. do 2 (eapply keeps_bind; [eauto with ockam|]; intros ? _).
  apply keeps_ret. done.
Qed.

Hint Resolve keeps_hkdf keeps_encrypt keeps_decrypt : ockam.

Lemma same_rest_status st st' : same_rest st st' -> hs_status st' = hs_status st.
Proof. unfold same_rest. naive_solver. Qed.
Lemma same_rest_rs st st' : same_rest st st' -> hs_rs st' = hs_rs st.
Proof. unfold same_rest. naive_solver. Qed.

Lemma decode_message2_status st m :
  stores st (decode_message2 m) (fun st' => hs_status st' = hs_status st).
Proof.
  unfold decode_message2, hs_dh. eapply stores_bind; [eauto with ockam|]. intros ? ->.
  eapply stores_bind; [by apply keeps_lift with (Q := fun _ => True)|]. intros re _.
  do 2 (eapply stores_bind; [eauto with ockam|]; intros ? _).
  eapply stores_bind; [eauto with ockam|]. intros st1 S1%same_rest_status.
  eapply stores_bind; [by apply keeps_lift with (Q := fun _ => True)|]. intros c _.
  eapply stores_bind; [eauto with ockam|]. intros [st2 p] S2%same_rest_status.
  do 2 (eapply stores_bind; [eauto with ockam|]; intros ? _).
  eapply stores_bind; [eauto with ockam|]. intros st3 S3%same_rest_status.
  eapply stores_bind; [by apply keeps_lift with (Q := fun _ => True)|]. intros c2 _.
  eapply stores_bind; [eauto with ockam|]. intros [st4 p2] S4%same_rest_status.
  apply stores_store. simpl in *. congruence.
Qed.

Lemma decode_message3_status st m :
  stores st (decode_message3 m) (fun st' => hs_status st' = hs_status st).
Proof.
  unfold decode_message3, hs_dh. eapply stores_bind; [eauto with ockam|]. intros ? ->.
  eapply stores_bind; [by apply keeps_lift with (Q := fun _ => True)|]. intros c _.
  eapply stores_bind; [eauto with ockam|]. intros [st2 p] S2%same_rest_status.
  do 2 (eapply stores_bind; [eauto with ockam|]; intros ? _).
  eapply stores_bind; [eauto with ockam|]. intros st3 S3%same_rest_status.
  eapply stores_bind; [by apply keeps_lift with (Q := fun _ => True)|]. intros c2 _.
  eapply stores_bind; [eauto with ockam|]. intros [st4 p2] S4%same_rest_status.
  apply stores_store. simpl in *. congruence.
Qed.

Lemma encode_message3_rest st p :
  stores st (encode_message3 p) (fun st' => hs_status st' = hs_status st /\ hs_rs st' = hs_rs st).
Proof.
  unfold encode_message3, hs_dh. eapply stores_bind; [eauto with ockam|]. intros ? ->.
  do 2 (eapply stores_bind; [eauto with ockam|]; intros ? _).
  eapply stores_bind; [eauto with ockam|]. intros [st1 c1] S1.
  do 2 (eapply stores_bind; [eauto with ockam|]; intros ? _).
  eapply stores_bind; [eauto with ockam|]. intros st2 S2.
  eapply stores_bind; [eauto with ockam|]. intros [st3 c2] S3.
  apply stores_store. unfold same_rest in *. simpl in *. naive_solver congruence.
Qed.

Lemma encode_message1_status st p :
  stores st (encode_message1 p) (fun st' => hs_status st' = hs_status st).
Proof.
  unfold encode_message1. eapply stores_bind; [eauto with ockam|]. intros ? ->.
  do 2 (eapply stores_bind; [eauto with ockam|]; intros ? _). apply stores_store. done.
Qed.

Lemma decode_message1_status st m :
  stores st (decode_message1 m) (fun st' => hs_status st' = hs_status st).
Proof.
  unfold decode_message1. eapply stores_bind; [eauto with ockam|]. intros ? ->.
  do 2 (eapply stores_bind; [by apply keeps_lift with (Q := fun _ => True)|]; intros ? _).
  apply stores_store. done.
Qed.

Lemma encode_message2_status st p :
  stores st (encode_message2 p) (fun st' => hs_status st' = hs_status st).
Proof.
  unfold encode_message2, hs_dh. eapply stores_bind; [eauto with ockam|]. intros ? ->.
  do 4 (eapply stores_bind; [eauto with ockam|]; intros ? _).
  eapply stores_bind; [eauto with ockam|]. intros st1 S1%same_rest_status.
  do 2 (eapply stores_bind; [eauto with ockam|]; intros ? _).
  eapply stores_bind; [eauto with ockam|]. intros [st2 c1] S2%same_rest_status.
  eapply stores_bind; [eauto with ockam|]. intros ? _.
  eapply stores_bind; [eauto with ockam|]. intros st3 S3%same_rest_status.
  eapply stores_bind; [eauto with ockam|]. intros [st4 c2] S4%same_rest_status.
  apply stores_store. simpl in *. congruence.
Qed.

Lemma initialize_status st : stores st initialize (fun st' => hs_status st' = hs_status st).
Proof.
  unfold initialize. eapply stores_bind; [eauto with ockam|]. intros ? ->.
  do 2 (eapply stores_bind; [eauto with ockam|]; intros ? _).
  intros v r st' v' H. injection H as <- <- <-. by right.
Qed.

Lemma keeps_final_keys st st0 :
  keeps st (compute_final_keys st0) (fun x => hs_rs x.1 = hs_rs st0).
Proof.
  unfold compute_final_keys. do 2 (eapply keeps_bind; [eauto with ockam|]; intros ? _).
  destruct a0 as [|k1 [|k2 [|]]]; eauto with ockam.
  do 4 (eapply keeps_bind; [eauto with ockam|]; intros ? _). apply keeps_ret. done.
Qed.

Lemma set_final_state_rs role st v r st' v' :
  set_final_state role (st, v) = (r, (st', v')) -> hs_rs st' = hs_rs st.
Proof.
  unfold set_final_state. intros H.
  apply sbind_inv in H as [(a & s1 & E & H) | [(e & E & ->) | (E & ->)]]; [|done..].
  injection E as <- <-.
  apply sbind_inv in H as [([st1 [k1 k2]] & [st2 v2] & E & H) | [(e & E & ->) | (E & ->)]];
    apply keeps_final_keys in E as [-> Hrs]; [|done..]. specialize (Hrs _ eq_refl). simpl in Hrs.
  erewrite sbind_run in H by done.
  unfold delete_handshake_keys, sbind, load_state, set_or_error, slift, store_state, hs_vault in H.
  simpl in H. destruct (hs_s st1); simpl in H; [|injection H as <- <- <-; done].
  destruct (hs_e st1); simpl in H; injection H as <- <- <-; done.
Qed.

End Frames.

(** ** Authentication of the peer *)

Section Authentication.
Context {C : Crypto} {P : PeerIdentities}.

(** The checks that an accepted peer has passed: its identity decodes, its
    signature covers the static key of the handshake, the trust policy accepts
    it, and its credentials were verified in the trust context. *)
Definition vouched (trust_context : bool) (peer : IdentityAndCredentials) (identity : Identity)
    (rs : PublicKey) : Prop :=
  decode_identity (ic_identity peer) = Ok identity /\
  identity_signature identity (ic_signature peer) (pk_data rs) = Ok true /\
  trust_policy_check (identifier_of identity) = Ok true /\
  (if trust_context
   then verify_presented (identifier_of identity) (ic_credentials peer) = Ok tt
   else ic_credentials peer = []) /\
  update_identity identity = Ok tt.

(** When the handshake is complete, the peer whose static key it used is vouched
    for and is the one reported. *)
Definition authenticated (x : Machine) : Prop :=
  forall keys, hs_status (m_handshake x) = Ready keys ->
  exists peer identity rs, hs_rs (m_handshake x) = Some rs /\
    vouched (m_trust_context x) peer identity rs /\
    m_their_identifier x = Some (identifier_of identity).

Lemma verify_identity_ok peer rs x v x' v' :
  verify_identity peer rs (x, v) = (Ok tt, (x', v')) ->
  exists identity, vouched (m_trust_context x) peer identity rs /\
    x' = mkMachine (m_trust_context x) (Some (identifier_of identity)) (m_handshake x)
           (m_identity_payload x).
Proof.
  unfold verify_identity. intros H. erewrite sbind_run in H by done.
  apply sbind_ok in H as (identity & s1 & E1 & H). apply slift_inv in E1 as [E1 ->].
  apply sbind_ok in H as ([] & s1 & E2 & H). apply slift_inv in E2 as [E2 ->].
  apply sbind_ok in H as ([] & s1 & E3 & H). apply slift_inv in E3 as [E3 ->].
  injection H as <- <-. exists identity. split; [|done].
  unfold verify_signature in E2. inv_ok E2. destruct a; [|done].
  unfold verify_credentials in E3. inv_ok E3. destruct a; [|done]. inv_ok E3.
  destruct a. split_and!; try done.
  destruct (m_trust_context x); [done|]. destruct (ic_credentials peer); done.
Qed.

Lemma verify_identity_frame peer rs x v r x' v' :
  verify_identity peer rs (x, v) = (r, (x', v')) ->
  m_handshake x' = m_handshake x /\ m_trust_context x' = m_trust_context x.
Proof.
  unfold verify_identity. intros H. erewrite sbind_run in H by done.
  do 3 (apply sbind_inv in H as [(? & s1 & E & H) | [(e & E & ->) | (E & ->)]];
    apply slift_inv in E as [_ Es]; [|injection Es as -> ->; done..]; subst s1).
  injection H as <- <- <-. done.
Qed.

Lemma on_handshake_inv {A : Type} (m : hs_m A) x v r x' v' :
  on_handshake m (x, v) = (r, (x', v')) ->
  exists st', m (m_handshake x, v) = (r, (st', v')) /\
    x' = mkMachine (m_trust_context x) (m_their_identifier x) st' (m_identity_payload x).
Proof.
  unfold on_handshake. destruct (m (m_handshake x, v)) as [r1 [st1 v1]].
  intros H. injection H as <- <- <-. eauto.
Qed.

Lemma not_ready_authenticated x :
  (forall keys, hs_status (m_handshake x) <> Ready keys) -> authenticated x.
Proof. intros H keys E. by destruct (H keys). Qed.

(** A handshake function that keeps the status leaves the machine as it was but
    for the handshake state. *)
Lemma on_handshake_status {A : Type} (m : hs_m A) x v r x' v' :
  (forall st, stores st m (fun st' => hs_status st' = hs_status st)) ->
  on_handshake m (x, v) = (r, (x', v')) ->
  hs_status (m_handshake x') = hs_status (m_handshake x) /\
  m_trust_context x' = m_trust_context x.
Proof.
  intros Hm H. apply on_handshake_inv in H as (st' & E & ->). apply Hm in E. simpl.
  destruct E as [-> | E]; done.
Qed.

(** From a checked peer to the end of the handshake. *)
Lemma finish_authenticated role x v r x' v' peer identity rs :
  vouched (m_trust_context x) peer identity rs -> hs_rs (m_handshake x) = Some rs ->
  m_their_identifier x = Some (identifier_of identity) ->
  on_handshake (set_final_state role) (x, v) = (r, (x', v')) -> authenticated x'.
Proof.
  intros Hv Hrs Hi H keys _. apply on_handshake_inv in H as (st' & E & ->).
  apply set_final_state_rs in E. exists peer, identity, rs. simpl. rewrite E. done.
Qed.

(** The common part of both machines: deserialize the payload, verify it against
    the static key of the handshake, go on. *)
Lemma verify_step {A : Type} payload (k : machine_m A) x v r x' v' :
  (forall keys, hs_status (m_handshake x) <> Ready keys) ->
  (let! p := slift (deserialize_payload payload) in
   let! rs := peer_static_key in
   let! _ := verify_identity p rs in k) (x, v) = (r, (x', v')) ->
  (forall x1 v1 peer identity rs, vouched (m_trust_context x1) peer identity rs ->
     hs_rs (m_handshake x1) = Some rs -> m_their_identifier x1 = Some (identifier_of identity) ->
     m_handshake x1 = m_handshake x -> k (x1, v1) = (r, (x', v')) -> authenticated x') ->
  authenticated x'.
Proof.
  intros Hnr H Hk.
  apply sbind_inv in H as [(p & s1 & E & H) | [(e & E & ->) | (E & ->)]];
    apply slift_inv in E as [_ Es]; [|injection Es as -> ->; by apply not_ready_authenticated..].
  subst s1. unfold peer_static_key in H.
  apply sbind_inv in H as [(rs & s1 & E & H) | [(e & E & ->) | (E & ->)]];
    erewrite sbind_run in E by done; apply slift_inv in E as [Ers Es];
    [|injection Es as -> ->; by apply not_ready_authenticated..]. subst s1.
  apply sbind_inv in H as [([] & [x1 v1] & E & H) | [(e & E & ->) | (E & ->)]].
  - apply verify_identity_ok in E as (identity & Hv & ->).
    destruct (hs_rs (m_handshake x)) as [rs'|] eqn:Erx; [|done]. injection Ers as ->.
    refine (Hk _ _ p identity rs _ _ _ _ H); [exact Hv | exact Erx | done | done].
  - apply verify_identity_frame in E as [E _]. apply not_ready_authenticated. by rewrite E.
  - apply verify_identity_frame in E as [E _]. apply not_ready_authenticated. by rewrite E.
Qed.

Lemma initiator_step ev x v r x' v' :
  initiator_on_event ev (x, v) = (r, (x', v')) -> authenticated x -> authenticated x'.
Proof.
  unfold initiator_on_event. intros H Ha. erewrite sbind_run in H by done.
  destruct (hs_status (m_handshake x)) eqn:Est, ev as [|message];
    try (injection H as <- <- <-; exact Ha).
  - apply sbind_inv in H as [([] & [x1 v1] & E & H) | [(e & E & ->) | (E & ->)]];
      apply (on_handshake_status _ _ _ _ _ _ initialize_status) in E as [E _];
      [|apply not_ready_authenticated; congruence..].
    apply sbind_inv in H as [(m1 & [x2 v2] & E2 & H) | [(e & E2 & ->) | (E2 & ->)]];
      apply (on_handshake_status _ _ _ _ _ _ (fun st => encode_message1_status st [])) in E2 as [E2 _];
      [|apply not_ready_authenticated; congruence..].
    injection H as <- <- <-. apply not_ready_authenticated. done.
  - apply sbind_inv in H as [(p & [x1 v1] & E & H) | [(e & E & ->) | (E & ->)]];
      apply (on_handshake_status _ _ _ _ _ _ (fun st => decode_message2_status st message)) in E as [E _];
      [|apply not_ready_authenticated; congruence..].
    eapply verify_step; [rewrite E, Est; done | exact H |].
    intros x2 v2 peer identity rs Hv Hrs Hi Hh Hk.
    apply sbind_inv in Hk as [(ip & s3 & E3 & Hk) | [(e & E3 & ->) | (E3 & ->)]];
      injection E3 as E3 Es; subst;
      [|apply not_ready_authenticated; simpl; rewrite Hh; congruence..].
    apply sbind_inv in Hk as [(m3 & [x4 v4] & E4 & Hk) | [(e & E4 & ->) | (E4 & ->)]];
      apply on_handshake_inv in E4 as (st4 & E4 & ->); apply encode_message3_rest in E4;
      simpl in E4; rewrite Hh in *;
      (assert (hs_status st4 = WaitingForMessage2) as Es4 by naive_solver congruence);
      [|apply not_ready_authenticated; simpl; congruence..].
    assert (hs_rs st4 = Some rs) as Hrs4 by naive_solver congruence.
    apply sbind_inv in Hk as [([] & [x5 v5] & E5 & Hk) | [(e & E5 & ->) | (E5 & ->)]];
      (apply (finish_authenticated _ _ _ _ _ _ peer identity rs) in E5; [|done..]);
      [|done..]. injection Hk as <- <- <-. done.
Qed.

Lemma responder_step ev x v r x' v' :
  responder_on_event ev (x, v) = (r, (x', v')) -> authenticated x -> authenticated x'.
Proof.
  unfold responder_on_event. intros H Ha. erewrite sbind_run in H by done.
  destruct (hs_status (m_handshake x)) eqn:Est, ev as [|message];
    try (injection H as <- <- <-; exact Ha).
  - apply sbind_inv in H as [([] & [x1 v1] & E & H) | [(e & E & ->) | (E & ->)]];
      apply (on_handshake_status _ _ _ _ _ _ initialize_status) in E as [E _];
      [|apply not_ready_authenticated; congruence..].
    injection H as <- <- <-. apply not_ready_authenticated. done.
  - apply sbind_inv in H as [(p & [x1 v1] & E & H) | [(e & E & ->) | (E & ->)]];
      apply (on_handshake_status _ _ _ _ _ _ (fun st => decode_message1_status st message)) in E as [E _];
      [|apply not_ready_authenticated; congruence..].
    apply sbind_inv in H as [(ip & s3 & E3 & H) | [(e & E3 & ->) | (E3 & ->)]];
      injection E3 as E3 Es; subst; [|apply not_ready_authenticated; simpl; congruence..].
    apply sbind_inv in H as [(m2 & [x4 v4] & E4 & H) | [(e & E4 & ->) | (E4 & ->)]];
      apply (on_handshake_status _ _ _ _ _ _ (fun st => encode_message2_status st ip)) in E4 as [E4 _] ||
      apply on_handshake_inv in E4 as (st4 & E4 & ->);
      [| apply not_ready_authenticated; simpl in *; congruence..].
    injection H as <- <- <-. apply not_ready_authenticated. done.
  - apply sbind_inv in H as [(p & [x1 v1] & E & H) | [(e & E & ->) | (E & ->)]];
      apply (on_handshake_status _ _ _ _ _ _ (fun st => decode_message3_status st message)) in E as [E _];
      [|apply not_ready_authenticated; congruence..].
    eapply verify_step; [rewrite E, Est; done | exact H |].
    intros x2 v2 peer identity rs Hv Hrs Hi Hh Hk.
    apply sbind_inv in Hk as [([] & [x5 v5] & E5 & Hk) | [(e & E5 & ->) | (E5 & ->)]];
      (apply (finish_authenticated _ _ _ _ _ _ peer identity rs) in E5; [|done..]);
      [|done..]. injection Hk as <- <- <-. done.
Qed.

End Authentication.

(** ** Complete runs of the machines *)

Definition on_event {C : Crypto} {P : PeerIdentities} (role : Role) : Event -> machine_m Action :=
  match role with
  | Initiator => initiator_on_event
  | Responder => responder_on_event
  end.

(** A machine that receives events whatever it answers to them. *)
Fixpoint run_events {C : Crypto} {P : PeerIdentities} (role : Role) (events : list Event)
    (st : Machine * Vault) : Machine * Vault :=
  match events with
  | [] => st
  | ev :: rest => run_events role rest (on_event role ev st).2
  end.

(** A machine as [new] makes it. *)
Definition new_machine (trust_context : bool) (ks ke : KeyId) (payload : bytes) : Machine :=
  mkMachine trust_context None (HandshakeState_new ks ke) (Some payload).

Section Complete.
Context {C : Crypto} {L : CryptoLaws C} {P : PeerIdentities}.

Lemma run_events_authenticated role events x v :
  authenticated x -> authenticated (run_events role events (x, v)).1.
Proof.
  revert x v. induction events as [|ev events IH]; intros x v Hx; [done|].
  cbn [run_events]. destruct (on_event role ev (x, v)) as [r [x' v']] eqn:E. cbn [snd].
  apply IH. destruct role; simpl in E.
  - eapply initiator_step; done.
  - eapply responder_step; done.
Qed.

Lemma run_events_ready role events x v keys :
  hs_status (m_handshake x) = Ready keys -> run_events role events (x, v) = (x, v).
Proof.
  intros H. induction events as [|ev events IH]; [done|]. cbn [run_events].
  assert ((on_event role ev (x, v)).2 = (x, v)) as E.
  { destruct role; unfold on_event, initiator_on_event, responder_on_event;
      erewrite sbind_run by done; rewrite H; done. }
  rewrite E. exact IH.
Qed.

Lemma on_handshake_run {A : Type} (m : hs_m A) x v a st' v' :
  m (m_handshake x, v) = (Ok a, (st', v')) ->
  on_handshake m (x, v) =
    (Ok a, (mkMachine (m_trust_context x) (m_their_identifier x) st' (m_identity_payload x), v')).
Proof. intros H. unfold on_handshake. rewrite H. done. Qed.

Lemma verify_identity_run peer rs identity x v :
  vouched (m_trust_context x) peer identity rs ->
  verify_identity peer rs (x, v) =
    (Ok tt, (mkMachine (m_trust_context x) (Some (identifier_of identity)) (m_handshake x)
               (m_identity_payload x), v)).
Proof.
  intros (H1 & H2 & H3 & H4 & H5). unfold verify_identity. erewrite sbind_run by done.
  erewrite sbind_run by (unfold slift; rewrite H1; done).
  erewrite sbind_run by (unfold slift, verify_signature; rewrite H2; done).
  assert (verify_credentials (m_trust_context x) identity (ic_credentials peer) = Ok tt) as ->.
  { unfold verify_credentials. rewrite H3. simpl.
    destruct (m_trust_context x); rewrite H4; simpl; rewrite H5; done. }
  done.
Qed.

Lemma status_view st v s e ck k h n stt :
  view st v s e ck k h n -> view (set_status stt st) v s e ck k h n.
Proof.
  intros Hv. pose proof (vw_h _ _ _ _ _ _ _ _ Hv) as Hh. pose proof (vw_n _ _ _ _ _ _ _ _ Hv) as Hn.
  rewrite <- Hh, <- Hn.
  exact (view_fields st (set_status stt st) v s e ck k h n Hv eq_refl eq_refl eq_refl eq_refl).
Qed.

Variable N : nat.
Hypothesis HN : distinct_ids N.

(** The transcript hash after message 1 with an empty payload. *)
Definition hash1 (pub_e : bytes) : bytes :=
  mixed (mixed (sha256_digest protocol_name) pub_e) [].

Lemma initiator_initialize tc ks ke s e p v m :
  party N (2 + m) ks ke s e v ->
  exists st v', initiator_on_event Initialize (new_machine tc ks ke p, v) =
      (Ok (SendMessage (x25519_public e ++ [])), (mkMachine tc None st (Some p), v')) /\
    view st v' s e protocol_name (replicate 32 Byte.x00) (hash1 (x25519_public e)) 0 /\
    hs_status st = WaitingForMessage2 /\ draws v' = draws v + 2.
Proof.
  intros [Hs He [Ls Le] Hk Hd].
  destruct (initialize_run N HN v ks ke s e) as (st1 & v1 & E1 & V1 & S1 & D1); [done..|lia|].
  destruct (encode_message1_run _ _ _ _ _ _ _ _ [] V1) as (st2 & E2 & V2 & S2).
  exists (set_status WaitingForMessage2 st2), v1. split_and!; [|by apply status_view|done|done].
  unfold initiator_on_event. erewrite sbind_run by done. cbn [m_handshake new_machine hs_status
    HandshakeState_new]. erewrite sbind_run by (apply on_handshake_run; exact E1).
  erewrite sbind_run by (apply on_handshake_run; exact E2). erewrite sbind_run by done. done.
Qed.

Lemma responder_initialize tc ks ke s e p v m :
  party N (2 + m) ks ke s e v ->
  exists st v', responder_on_event Initialize (new_machine tc ks ke p, v) =
      (Ok NoAction, (mkMachine tc None st (Some p), v')) /\
    view st v' s e protocol_name (replicate 32 Byte.x00) (sha256_digest protocol_name) 0 /\
    hs_status st = WaitingForMessage1 /\ draws v' = draws v + 2.
Proof.
  intros [Hs He [Ls Le] Hk Hd].
  destruct (initialize_run N HN v ks ke s e) as (st1 & v1 & E1 & V1 & S1 & D1); [done..|lia|].
  exists (set_status WaitingForMessage1 st1), v1. split_and!; [|by apply status_view|done|done].
  unfold responder_on_event. erewrite sbind_run by done. cbn [m_handshake new_machine hs_status
    HandshakeState_new]. erewrite sbind_run by (apply on_handshake_run; exact E1).
  erewrite sbind_run by done. done.
Qed.

Lemma responder_message1 tc st p v s e pub :
  view st v s e protocol_name (replicate 32 Byte.x00) (sha256_digest protocol_name) 0 ->
  hs_status st = WaitingForMessage1 -> length pub = 32 -> draws v + 6 <= N ->
  (Z.of_nat (length p) <= aead_max)%Z ->
  exists c1 c2 ck k h st' v',
    responder_on_event (ReceivedMessage (pub ++ [])) (mkMachine tc None st (Some p), v) =
      (Ok (SendMessage ((x25519_public e ++ c1) ++ c2)), (mkMachine tc None st' None, v')) /\
    message2_parts protocol_name (hash1 pub) (x25519 e pub) (x25519 s pub) (x25519_public e)
      (x25519_public s) p c1 c2 ck k h /\
    view st' v' s e ck k h 1 /\ hs_status st' = WaitingForMessage3 /\ draws v' = draws v + 6.
Proof.
  intros Hv Hst Lp Hd Hp.
  destruct (decode_message1_run _ _ _ _ _ _ _ _ pub [] Hv Lp) as (st1 & E1 & V1 & S1).
  assert (hs_re st1 = Some (mkPublicKey pub TX25519)) as Hre.
  { unfold same_rest in S1. naive_solver. }
  destruct (encode_message2_run N HN _ _ _ _ _ _ _ _ _ p V1 Hre Lp Hd Hp)
    as (c1 & c2 & ck & k & h & st2 & v2 & E2 & P2 & V2 & S2 & D2).
  exists c1, c2, ck, k, h, (set_status WaitingForMessage3 st2), v2.
  split_and!; [|exact P2|by apply status_view|done|done].
  unfold responder_on_event. erewrite sbind_run by done. cbn [m_handshake]. rewrite Hst.
  erewrite sbind_run by (apply on_handshake_run; exact E1). erewrite sbind_run by done.
  erewrite sbind_run by (apply on_handshake_run; exact E2). erewrite sbind_run by done. done.
Qed.

Lemma initiator_message2 tc st p v s e pub_e pub_s q c1 c2 ck k h peer identity :
  view st v s e protocol_name (replicate 32 Byte.x00) (hash1 (x25519_public e)) 0 ->
  hs_status st = WaitingForMessage2 -> length pub_e = 32 -> length pub_s = 32 ->
  message2_parts protocol_name (hash1 (x25519_public e)) (x25519 e pub_e) (x25519 e pub_s)
    pub_e pub_s q c1 c2 ck k h ->
  decode_payload q = Some peer -> vouched tc peer identity (mkPublicKey pub_s TX25519) ->
  draws v + 11 <= N -> (Z.of_nat (length p) <= aead_max)%Z ->
  exists d1 d2 ck' k' h' x' v' k1 k2,
    initiator_on_event (ReceivedMessage ((pub_e ++ c1) ++ c2)) (mkMachine tc None st (Some p), v) =
      (Ok (SendMessage (d1 ++ d2)), (x', v')) /\
    message3_parts ck k h (x25519 s pub_e) (x25519_public s) p d1 d2 ck' k' h' /\
    get_handshake_results x' =
      Some (mkHandshakeResults (mkHandshakeKeys k2 k1) (identifier_of identity)) /\
    holds v' k1 (kdf2 ck' []).1 Aes256 /\ holds v' k2 (kdf2 ck' []).2 Aes256 /\
    known_ids v' /\ draws v' = draws v + 11.
Proof.
  intros Hv Hst Lpe Lps P2 Hdec Hvouch Hd Hp.
  destruct (decode_message2_run N HN _ _ _ _ _ _ _ _ _ _ _ _ _ _ _ _ Hv Lpe Lps ltac:(lia) P2)
    as (st1 & v1 & E1 & V1 & S1 & D1).
  unfold same_rest in S1. simpl in S1. destruct S1 as (_ & _ & Hre & Hrs & _).
  destruct (encode_message3_run N HN _ _ _ _ _ _ _ _ p V1 Hre Lpe ltac:(lia) Hp)
    as (d1 & d2 & ck' & k' & h' & st2 & v2 & E2 & P3 & V2 & S2 & D2).
  destruct (set_final_state_run N HN Initiator _ _ _ _ _ _ _ _ V2 ltac:(lia))
    as (st3 & v3 & k1 & k2 & E3 & G3 & K1 & K2 & _ & I3 & D3 & _).
  do 5 eexists. exists (mkMachine tc (Some (identifier_of identity)) st3 None), v3, k1, k2.
  split_and!; [|exact P3| |done|done|done|lia].
  - unfold initiator_on_event. erewrite sbind_run by done. cbn [m_handshake]. rewrite Hst.
    erewrite sbind_run by (apply on_handshake_run; exact E1). erewrite sbind_run.
    2:{ unfold slift, deserialize_payload. rewrite Hdec. done. }
    erewrite sbind_run.
    2:{ unfold peer_static_key. erewrite sbind_run by done. cbn [m_handshake]. rewrite Hrs. done. }
    erewrite sbind_run by (apply verify_identity_run; exact Hvouch). erewrite sbind_run by done.
    erewrite sbind_run by (apply on_handshake_run; exact E2).
    erewrite sbind_run by (apply on_handshake_run; exact E3). done.
  - unfold get_handshake_results. cbn [m_their_identifier m_handshake]. rewrite G3. done.
Qed.

Lemma responder_message3 tc st v s e ck k h pub_s q d1 d2 ck' k' h' peer identity :
  view st v s e ck k h 1 -> hs_status st = WaitingForMessage3 -> length pub_s = 32 ->
  message3_parts ck k h (x25519 e pub_s) pub_s q d1 d2 ck' k' h' ->
  decode_payload q = Some peer -> vouched tc peer identity (mkPublicKey pub_s TX25519) ->
  draws v + 5 <= N ->
  exists x' v' k1 k2,
    responder_on_event (ReceivedMessage (d1 ++ d2)) (mkMachine tc None st None, v) =
      (Ok NoAction, (x', v')) /\
    get_handshake_results x' =
      Some (mkHandshakeResults (mkHandshakeKeys k1 k2) (identifier_of identity)) /\
    holds v' k1 (kdf2 ck' []).1 Aes256 /\ holds v' k2 (kdf2 ck' []).2 Aes256 /\
    known_ids v' /\ draws v' = draws v + 5.
Proof.
  intros Hv Hst Lps P3 Hdec Hvouch Hd.
  destruct (decode_message3_run N HN _ _ _ _ _ _ _ _ _ _ _ _ _ _ Hv Lps ltac:(lia) P3)
    as (st1 & v1 & E1 & V1 & S1 & D1).
  unfold same_rest in S1. simpl in S1. destruct S1 as (_ & _ & _ & Hrs & _).
  destruct (set_final_state_run N HN Responder _ _ _ _ _ _ _ _ V1 ltac:(lia))
    as (st3 & v3 & k1 & k2 & E3 & G3 & K1 & K2 & _ & I3 & D3 & _).
  exists (mkMachine tc (Some (identifier_of identity)) st3 None), v3, k1, k2.
  split_and!; [| |done|done|done|lia].
  - unfold responder_on_event. erewrite sbind_run by done. cbn [m_handshake]. rewrite Hst.
    erewrite sbind_run by (apply on_handshake_run; exact E1). erewrite sbind_run.
    2:{ unfold slift, deserialize_payload. rewrite Hdec. done. }
    erewrite sbind_run.
    2:{ unfold peer_static_key. erewrite sbind_run by done. cbn [m_handshake]. rewrite Hrs. done. }
    erewrite sbind_run by (apply verify_identity_run; exact Hvouch).
    erewrite sbind_run by (apply on_handshake_run; exact E3). done.
  - unfold get_handshake_results. cbn [m_their_identifier m_handshake]. rewrite G3. done.
Qed.

End Complete.

(** The five events of a handshake between two machines, each with the identities
    of its own node. *)
Definition handshake_session {C : Crypto} (Pi Pr : PeerIdentities) (I R : Machine * Vault)
  : result HandshakeError ((Machine * Vault) * (Machine * Vault)) :=
  let? (a1, I) := run (initiator_on_event (P := Pi) Initialize) I in
  let? (_, R) := run (responder_on_event (P := Pr) Initialize) R in
  match a1 with
  | SendMessage m1 =>
      let? (a2, R) := run (responder_on_event (P := Pr) (ReceivedMessage m1)) R in
      match a2 with
      | SendMessage m2 =>
          let? (a3, I) := run (initiator_on_event (P := Pi) (ReceivedMessage m2)) I in
          match a3 with
          | SendMessage m3 =>
              let? (_, R) := run (responder_on_event (P := Pr) (ReceivedMessage m3)) R in
              Ok (I, R)
          | NoAction => Err UnexpectedEvent
          end
      | NoAction => Err UnexpectedEvent
      end
  | NoAction => Err UnexpectedEvent
  end.

(** One side of a session: its keys, the payload it presents, and the identity
    that the peer will vouch for. *)
Record side {C : Crypto} {P : PeerIdentities} (N : nat) (their_trust_context : bool)
    (ks ke : KeyId) (s e : bytes) (v : Vault) (payload : bytes) (id : Identity) : Prop := {
  side_party : party N 13 ks ke s e v;
  side_size : (Z.of_nat (length payload) <= aead_max)%Z;
  side_payload : exists peer, decode_payload payload = Some peer /\
    vouched their_trust_context peer id (mkPublicKey (x25519_public s) TX25519)
}.

Lemma session_run {C : Crypto} {L : CryptoLaws C} (Pi Pr : PeerIdentities) N (HN : distinct_ids N)
    tci tcr ksi kei ksr ker si ei sr er vi vr pi pr (idi : Identity (PeerIdentities := Pr))
    (idr : Identity (PeerIdentities := Pi)) :
  side (P := Pr) N tcr ksi kei si ei vi pi idi -> side (P := Pi) N tci ksr ker sr er vr pr idr ->
  exists xi vi' xr vr' a b c d K1 K2,
    handshake_session Pi Pr (new_machine tci ksi kei pi, vi) (new_machine tcr ksr ker pr, vr) =
      Ok ((xi, vi'), (xr, vr')) /\
    get_handshake_results xi = Some (mkHandshakeResults (mkHandshakeKeys a b) (identifier_of idr)) /\
    get_handshake_results xr = Some (mkHandshakeResults (mkHandshakeKeys c d) (identifier_of idi)) /\
    length K1 = 32 /\ length K2 = 32 /\
    holds vi' a K2 Aes256 /\ holds vr' d K2 Aes256 /\
    holds vi' b K1 Aes256 /\ holds vr' c K1 Aes256 /\
    known_ids vi' /\ known_ids vr' /\ draws vi' = draws vi + 13 /\ draws vr' = draws vr + 13.
Proof.
  intros [PI SI (peeri & Di & Vi)] [PR SR (peerr & Dr & Vr)].
  pose proof x25519_public_length as Lpub.
  pose proof (party_len _ _ _ _ _ _ _ PI) as [Lsi Lei].
  pose proof (party_len _ _ _ _ _ _ _ PR) as [Lsr Ler].
  pose proof (party_draws _ _ _ _ _ _ _ PI). pose proof (party_draws _ _ _ _ _ _ _ PR).
  destruct (initiator_initialize (P := Pi) N HN tci ksi kei si ei pi vi 11 PI) as (I1 & vi1 & EI1 & VI1 & TI1 & DI1).
  destruct (responder_initialize (P := Pr) N HN tcr ksr ker sr er pr vr 11 PR) as (R1 & vr1 & ER1 & VR1 & TR1 & DR1).
  destruct (responder_message1 (P := Pr) N HN tcr R1 pr vr1 sr er (x25519_public ei) VR1 TR1 (Lpub ei)
              ltac:(lia) SR) as (c1 & c2 & ck & k & h & R2 & vr2 & ER2 & P2 & VR2 & TR2 & DR2).
  rewrite (x25519_commutes er ei), (x25519_commutes sr ei) in P2 by done.
  destruct (initiator_message2 (P := Pi) N HN tci I1 pi vi1 si ei _ _ pr c1 c2 ck k h peerr idr VI1 TI1
              (Lpub er) (Lpub sr) P2 Dr Vr ltac:(lia) SI)
    as (d1 & d2 & ck' & k' & h' & xi & vi2 & k1 & k2 & EI2 & P3 & GI & A1 & A2 & KI & DI2).
  rewrite (x25519_commutes si er) in P3 by done.
  destruct (responder_message3 (P := Pr) N HN tcr R2 vr2 sr er ck k h _ pi d1 d2 ck' k' h' peeri idi VR2 TR2
              (Lpub si) P3 Di Vi ltac:(lia))
    as (xr & vr3 & j1 & j2 & ER3 & GR & B1 & B2 & KR & DR3).
  destruct (kdf2_spec ck' []) as (_ & _ & _ & _ & LK1 & LK2).
  exists xi, vi2, xr, vr3, k2, k1, j1, j2, (kdf2 ck' []).1, (kdf2 ck' []).2.
  split_and!; try done; try lia. unfold handshake_session.
  rewrite (run_ok _ _ _ _ EI1); cbn [rbind]. rewrite (run_ok _ _ _ _ ER1); cbn [rbind].
  rewrite (run_ok _ _ _ _ ER2); cbn [rbind]. rewrite (run_ok _ _ _ _ EI2); cbn [rbind].
  rewrite (run_ok _ _ _ _ ER3); cbn [rbind]. done.
Qed.

(** ** The trust context of a machine does not change *)

Section TrustContext.
Context {C : Crypto} {P : PeerIdentities}.

Definition keeps_trust {A} (m : machine_m A) : Prop :=
  forall x v r x' v', m (x, v) = (r, (x', v')) -> m_trust_context x' = m_trust_context x.

Lemma keeps_trust_bind {A B} (m : machine_m A) (k : A -> machine_m B) :
  keeps_trust m -> (forall a, keeps_trust (k a)) -> keeps_trust (sbind m k).
Proof.
  intros Hm Hk x v r x' v' H.
  apply sbind_inv in H as [(a & [x1 v1] & E & H) | [(e & E & ->) | (E & ->)]];
    apply Hm in E; [|done..]. apply Hk in H. congruence.
Qed.

Lemma keeps_trust_handshake {A : Type} (m : hs_m A) : keeps_trust (on_handshake m).
Proof. intros x v r x' v' H. apply on_handshake_inv in H as (st' & _ & ->). done. Qed.

Lemma keeps_trust_lift {A} (m : result HandshakeError A) : keeps_trust (slift m).
Proof. intros x v r x' v' H. apply slift_inv in H as [_ H]. congruence. Qed.

Lemma keeps_trust_get : keeps_trust get_machine.
Proof. intros x v r x' v' H. injection H as <- <- <-. done. Qed.

Lemma keeps_trust_status s : keeps_trust (set_status_of s).
Proof. intros x v r x' v' H. injection H as <- <- <-. done. Qed.

Lemma keeps_trust_take : keeps_trust take_identity_payload.
Proof. intros x v r x' v' H. injection H as <- <- <-. done. Qed.

Lemma keeps_trust_ret {A} (a : A) : keeps_trust (sret a).
Proof. intros x v r x' v' H. injection H as <- <- <-. done. Qed.

Lemma keeps_trust_err {A} e : keeps_trust (serr (A := A) e).
Proof. intros x v r x' v' H. injection H as <- <- <-. done. Qed.

Lemma keeps_trust_verify p rs : keeps_trust (verify_identity p rs).
Proof. intros x v r x' v' H. apply verify_identity_frame in H as [_ H]. done. Qed.

Hint Resolve keeps_trust_bind keeps_trust_handshake keeps_trust_lift keeps_trust_get
  keeps_trust_status keeps_trust_take keeps_trust_ret keeps_trust_err keeps_trust_verify : ockam.

Lemma keeps_trust_peer_key : keeps_trust peer_static_key.
Proof. unfold peer_static_key. auto with ockam. Qed.

Hint Resolve keeps_trust_peer_key : ockam.

Lemma on_event_trust role ev : keeps_trust (on_event role ev).
Proof.
  destruct role; unfold on_event, initiator_on_event, responder_on_event;
    apply keeps_trust_bind; auto with ockam; intros x;
    destruct (hs_status (m_handshake x)), ev; auto 12 with ockam.
Qed.

Lemma run_events_trust role events x v :
  m_trust_context (run_events role events (x, v)).1 = m_trust_context x.
Proof.
  revert x v. induction events as [|ev events IH]; intros x v; [done|]. cbn [run_events].
  destruct (on_event role ev (x, v)) as [r [x' v']] eqn:E. apply on_event_trust in E.
  cbn [snd]. rewrite IH. done.
Qed.

End TrustContext.

(** ** Main theorems *)

(** Whatever events a machine receives, of either role and with any
    behaviour of the primitives and of the identities, it reports a finished
    handshake only with an identity that decoded, whose signature covers the
    static key the peer used in this handshake, that the trust policy accepts,
    and whose credentials were verified. *)
Lemma peer_is_vouched {C : Crypto} {P : PeerIdentities} (role : Role)
    (events : list Event) (tc : bool) (ks ke : KeyId) (payload : bytes) (v : Vault)
    (res : HandshakeResults) :
  let x := (run_events role events (new_machine tc ks ke payload, v)).1 in
  get_handshake_results x = Some res ->
  exists peer identity rs, hs_rs (m_handshake x) = Some rs /\
    vouched tc peer identity rs /\ their_identifier res = identifier_of identity.
Proof.
  intros x H. assert (authenticated x) as Ha.
  { apply run_events_authenticated, not_ready_authenticated. done. }
  unfold get_handshake_results, get_handshake_keys in H.
  destruct (m_their_identifier x) as [i|] eqn:Ei; [|done].
  destruct (hs_status (m_handshake x)) eqn:Es; try done. injection H as <-.
  destruct (Ha keys Es) as (peer & identity & rs & Hrs & Hv & Hi).
  exists peer, identity, rs. split; [done|]. unfold x in Hv.
  rewrite run_events_trust in Hv. split; [exact Hv|]. simpl. congruence.
Qed.

(** A finished handshake is final: no later event changes the keys, the peer
    or the vault. *)
Theorem finished_handshake_is_final {C : Crypto} {P : PeerIdentities} (role : Role)
    (events : list Event) (x : Machine) (v : Vault) (res : HandshakeResults) :
  get_handshake_results x = Some res -> run_events role events (x, v) = (x, v).
Proof.
  unfold get_handshake_results, get_handshake_keys. intros H.
  destruct (m_their_identifier x); [|done].
  destruct (hs_status (m_handshake x)) eqn:Es; try done.
  eapply run_events_ready. exact Es.
Qed.

(** Two machines whose payloads verify complete the handshake, report each
    other, and the channel they obtain works in both directions: whatever is
    sent, in whatever order within the window it is delivered, arrives. *)
Lemma session_delivers {C : Crypto} {L : CryptoLaws C} (Pi Pr : PeerIdentities)
    (N : nat) (tci tcr : bool) (ksi kei ksr ker : KeyId) (si ei sr er : bytes) (vi vr : Vault)
    (pi pr : bytes) (idi : Identity (PeerIdentities := Pr)) (idr : Identity (PeerIdentities := Pi))
    (ps : list bytes) (sched : list nat) :
  distinct_ids N ->
  side (P := Pr) N tcr ksi kei si ei vi pi idi -> side (P := Pi) N tci ksr ker sr er vr pr idr ->
  Forall (fun p => Z.of_nat (length p) <= aead_max)%Z ps ->
  (Z.of_nat (length ps) <= u64_max)%Z -> valid_schedule (length ps) [] sched = true ->
  draws vi + 13 + length ps + length sched <= N ->
  draws vr + 13 + length ps + length sched <= N ->
  exists xi vi' xr vr' ri rr,
    handshake_session Pi Pr (new_machine tci ksi kei pi, vi) (new_machine tcr ksr ker pr, vr) =
      Ok ((xi, vi'), (xr, vr')) /\
    get_handshake_results xi = Some ri /\ their_identifier ri = identifier_of idr /\
    get_handshake_results xr = Some rr /\ their_identifier rr = identifier_of idi /\
    (let sent := (encrypt_all ps (Encryptor_new (encryption_key (handshake_keys ri)) 0, vi')).1 in
     decrypt_results (delivered sent sched)
       (Decryptor_new (decryption_key (handshake_keys rr)), vr') =
     map (fun i => Ok (default [] (ps !! i))) sched) /\
    (let sent := (encrypt_all ps (Encryptor_new (encryption_key (handshake_keys rr)) 0, vr')).1 in
     decrypt_results (delivered sent sched)
       (Decryptor_new (decryption_key (handshake_keys ri)), vi') =
     map (fun i => Ok (default [] (ps !! i))) sched).
Proof.
  intros HN HI HR Hp Hl Hs Hdi Hdr.
  destruct (session_run Pi Pr N HN tci tcr ksi kei ksr ker si ei sr er vi vr pi pr idi idr HI HR)
    as (xi & vi' & xr & vr' & a & b & c & d & K1 & K2 & E & GI & GR & L1 & L2 & Ha & Hd & Hb & Hc
        & KI & KR & DI & DR).
  exists xi, vi', xr, vr'. do 2 eexists. split; [exact E|]. split; [exact GI|]. split; [done|].
  split; [exact GR|]. split; [done|]. cbn [handshake_keys encryption_key decryption_key]. split.
  - apply (delivery_lemma K2 N); try done; lia.
  - apply (delivery_lemma K1 N); try done; lia.
Qed.

(** ** Concrete runs *)

(** Identities that present a four-letter name and the static key itself as the
    signature. *)
#[export] Instance toy_identities : PeerIdentities := {|
  Identity := bytes;
  identifier_of := fun i => i;
  decode_payload := fun q => Some (mkIdentityAndCredentials (take 4 q) (drop 4 q) []);
  decode_identity := fun b => if decide (b = str "evil") then Err (IdentityErr 9) else Ok b;
  identity_signature := fun _ sig data => Ok (bool_decide (sig = data));
  trust_policy_check := fun _ => Ok true;
  authority_identity := Err (IdentityErr 8);
  receive_presented_credential := fun _ _ _ => Err (IdentityErr 7);
  update_identity := fun _ => Ok tt
|}.

Definition sample_public : bytes := x25519_public (rand_bytes 0 32).

Definition sample_machine (name : bytes) : Machine * Vault :=
  (new_machine false sample_keys.1.1 sample_keys.1.2 (name ++ sample_public), sample_keys.2).

Definition sent_message (r : result HandshakeError Action * (Machine * Vault)) : bytes :=
  match r.1 with
  | Ok (SendMessage m) => m
  | _ => []
  end.

Definition sample_message1 : bytes :=
  sent_message (initiator_on_event Initialize (sample_machine (str "bob!"))).

Definition sample_message2 : bytes :=
  sent_message (responder_on_event (ReceivedMessage sample_message1)
    (run_events Responder [Initialize] (sample_machine (str "anna")))).

Lemma sample_side name :
  length name = 4 -> name <> str "evil" ->
  side 1000 false sample_keys.1.1 sample_keys.1.2 (rand_bytes 0 32) (rand_bytes 1 32)
    sample_keys.2 (name ++ sample_public) name.
Proof.
  intros Hn He. pose proof sample_party as [Hs Hk Hl Hi Hd]. split.
  - split; try done. vm_compute. lia.
  - rewrite length_app, Hn. vm_compute. congruence.
  - exists (mkIdentityAndCredentials name sample_public []). split.
    + simpl. rewrite take_app_le, drop_app_ge, take_ge, Hn by lia. done.
    + split_and!; try done. simpl. rewrite decide_False by done. done.
Qed.

Lemma sample_peer_vouched :
  let x := (run_events Initiator [Initialize; ReceivedMessage (str "garbage");
                                  ReceivedMessage sample_message2; Initialize]
              (sample_machine (str "bob!"))).1 in
  exists res, get_handshake_results x = Some res /\
  exists peer identity rs, hs_rs (m_handshake x) = Some rs /\
    vouched false peer identity rs /\ their_identifier res = identifier_of identity.
Proof.
  eexists. split; [vm_compute; reflexivity|].
  eapply peer_is_vouched. vm_compute. reflexivity.
Defined.

Lemma finished_handshake_is_final_witness :
  let done := run_events Initiator [Initialize; ReceivedMessage sample_message2]
                (sample_machine (str "bob!")) in
  run_events Initiator [ReceivedMessage sample_message2; Initialize] done = done.
Proof.
  cbv zeta. set (st := run_events Initiator [Initialize; ReceivedMessage sample_message2] _).
  rewrite (surjective_pairing st).
  eapply finished_handshake_is_final. vm_compute. reflexivity.
Defined.

Lemma sample_session :
  exists xi vi' xr vr' ri rr,
    handshake_session toy_identities toy_identities (sample_machine (str "bob!")) (sample_machine (str "anna")) =
      Ok ((xi, vi'), (xr, vr')) /\
    get_handshake_results xi = Some ri /\ their_identifier ri = str "anna" /\
    get_handshake_results xr = Some rr /\ their_identifier rr = str "bob!" /\
    (let sent := (encrypt_all [str "hi"; str "there"]
                    (Encryptor_new (encryption_key (handshake_keys ri)) 0, vi')).1 in
     decrypt_results (delivered sent [1; 0])
       (Decryptor_new (decryption_key (handshake_keys rr)), vr') =
     [Ok (str "there"); Ok (str "hi")]) /\
    (let sent := (encrypt_all [str "hi"; str "there"]
                    (Encryptor_new (encryption_key (handshake_keys rr)) 0, vr')).1 in
     decrypt_results (delivered sent [1; 0])
       (Decryptor_new (decryption_key (handshake_keys ri)), vi') =
     [Ok (str "there"); Ok (str "hi")]).
Proof.
  apply (session_delivers toy_identities toy_identities 1000 false false
           sample_keys.1.1 sample_keys.1.2 sample_keys.1.1 sample_keys.1.2
           (rand_bytes 0 32) (rand_bytes 1 32) (rand_bytes 0 32) (rand_bytes 1 32)
           sample_keys.2 sample_keys.2 (str "bob!" ++ sample_public) (str "anna" ++ sample_public)
           (str "bob!") (str "anna") [str "hi"; str "there"] [1; 0]).
  - apply toy_distinct_ids. lia.
  - apply sample_side; [reflexivity | discriminate].
  - apply sample_side; [reflexivity | discriminate].
  - repeat constructor; vm_compute; congruence.
  - vm_compute. congruence.
  - vm_compute. reflexivity.
  - vm_compute. lia.
  - vm_compute. lia.
Defined.
