(* ===== verification/PeerIdentity.v ===== *)
(** * Secure channels between identities
    (secure_channel/handshake/handshake_state_machine.rs, initiator_state_machine.rs,
    responder_state_machine.rs)

    The identities of a node as the handshake uses them ([peer_identities], an
    implementation of [PeerIdentities]), the construction of a state machine with
    the payload that it will present, and what follows for two nodes whose
    identities are in their vaults. *)

From Stdlib Require Import ZArith Lia.
From Stdlib Require Strings.Byte Strings.String.
From stdpp Require Import base gmap list numbers option countable.
From S2P Require Import Prelude RustStr Routing AccessControl KeyTracker Vault Attributes.
From S2P Require Import Handshake SecureChannel StateMachine.
From S2P Require Import Identities IdentitySpec IdentityKeys Credentials CredentialSpec.

(** The BARE encoding of a payload. *)
Class PayloadCodec := {
  payload_encode : IdentityAndCredentials -> option bytes;
  payload_decode : bytes -> option IdentityAndCredentials
}.

Class PayloadCodecLaws `{PayloadCodec} : Prop := {
  payload_roundtrip : forall p b, payload_encode p = Some b -> payload_decode b = Some p
}.

(** Which error of the identities it was is left out. *)
Definition identity_failed (e : IdError) : HandshakeError := IdentityErr 10.
Definition policy_failed (e : Error) : HandshakeError := IdentityErr 11.

Section Peer.
Context {C : Crypto} `{IC : IdentityCodec} `{CC : CredentialCodec} `{PC : PayloadCodec}.
Context {S : Type} `{St : Storage S} `{EC : EntryCodec}.
Context {A : Type} `{TP : TrustPolicy A}.

Notation id_m := (stm (Vault * S) IdError).

(** The identities of a node with the given vault and storage, at a time; a
    presented credential is verified and stored, a known identity compared. *)
Definition peer_identities (st : Vault * S) (now : option Z) (policy : A)
    (authority : option AuthorityService) : PeerIdentities := {|
  StateMachine.Identity := Identities.Identity;
  identifier_of := identifier;
  decode_payload := payload_decode;
  decode_identity data := map_err identity_failed (IdentitiesCreation_decode_identity data);
  identity_signature i signature data :=
    map_err identity_failed (IdentitiesKeys_verify_signature i signature data None);
  trust_policy_check id := map_err policy_failed (trust_check policy id);
  authority_identity :=
    map_err identity_failed
      (let? a := ok_or authority UnknownAuthority in (AuthorityService_identity a st).1);
  receive_presented_credential id a c :=
    map_err identity_failed (Credentials_receive_presented_credential now now id [a] c st).1;
  update_identity i := map_err identity_failed (IdentitiesStorage_update_identity i st).1
|}.

(** ** Construction of a machine *)

Definition get_static_key : id_m KeyId := in_vault (create_ephemeral_secret X25519).

Definition sign_static_key (identity : Identities.Identity) (key_id : KeyId) : id_m bytes :=
  let! public_static_key := in_vault (get_public_key key_id) in
  create_signature identity (pk_data public_static_key) None.

Definition make_identity_payload (id : IdentityIdentifier) (credentials : list Credential)
    (static_key : KeyId) : id_m bytes :=
  let! identity := get_identity id in
  let! exported := slift (history_export (change_history identity)) in
  let! signature := sign_static_key identity static_key in
  slift (ok_or (payload_encode (mkIdentityAndCredentials exported signature credentials)) BareError).

(** [InitiatorStateMachine::new] and [ResponderStateMachine::new] *)
Definition StateMachine_new (trust_context : bool) (id : IdentityIdentifier)
    (credentials : list Credential) : id_m Machine :=
  let! static_key := get_static_key in
  let! identity_payload := make_identity_payload id credentials static_key in
  let! handshake := in_vault (Handshake_new static_key) in
  sret (mkMachine trust_context None handshake (Some identity_payload)).

(** * Properties *)

Context {CL : CryptoLaws C} {SG : SignatureLaws C} {IL : IdentityCodecLaws}.
Context {PL : PayloadCodecLaws} {SL : StorageLaws S}.

Lemma map_err_ok {E F B} (f : E -> F) (m : result E B) b : map_err f m = Ok b <-> m = Ok b.
Proof. destruct m; cbn; naive_solver. Qed.

(** ** What a finished handshake proves *)

Lemma known_extends i st st' h :
  IdentitiesStorage_update_identity i st = (Ok tt, st') -> known st.2 (identifier i) = Some h ->
  map sc_identifier h `prefix_of` map sc_identifier (change_history i).
Proof.
  destruct st as [v s]. cbn [snd]. unfold IdentitiesStorage_update_identity. intros E Hk.
  apply sbind_ok in E as (o & [v1 s1] & E1 & E). apply retrieve_run in E1 as (-> & _ & _ & Ho).
  apply sbind_ok in E as (b & st2 & E2 & _). destruct o as [k|].
  - destruct Ho as [Ho _]. assert (h = change_history k) as -> by congruence.
    apply compare_extends. destruct (history_compare _ _); try done; [by right | by left].
  - unfold known in Hk. by rewrite Ho in Hk.
Qed.

(** What the owner of the static key [static] has proved: a verified history
    whose first key hashes to the identifier [id] and whose current root key
    signed the static key; the trust policy accepts [id], and the history extends
    the one known for it. *)
Definition proved_identity (st : Vault * S) (policy : A) (static : PublicKey) (id : IdentityIdentifier) : Prop :=
  exists c rest root sig, verified (c :: rest) /\
    id = IdentityIdentifier_from_public_key (change_public_key (sc_change c)) /\
    latest_key (c :: rest) ROOT_LABEL = Some root /\ verify root (pk_data static) sig = Ok true /\
    trust_check policy id = Ok true /\
    forall h, known st.2 id = Some h -> map sc_identifier h `prefix_of` map sc_identifier (c :: rest).

Lemma vouched_proves st now policy authority tc peer i static :
  vouched (P := peer_identities st now policy authority) tc peer i static ->
  proved_identity st policy static (identifier i).
Proof.
  intros (Hd & Hsig & Ht & _ & Hu).
  apply (proj1 (map_err_ok identity_failed _ _)) in Hd, Hsig, Hu.
  apply (proj1 (map_err_ok policy_failed _ _)) in Ht.
  apply decode_identity_parts in Hd as (c & rest & Hc & Hv & Ei & _). subst i.
  unfold IdentitiesKeys_verify_signature, Identity_get_public_key in Hsig. inv_ok Hsig.
  rewrite get_public_key_latest in E. cbn [change_history] in E.
  destruct (latest_key _ _) as [root|] eqn:Er; [|done]. injection E as <-.
  apply (proj1 (map_err_ok VaultErr _ _)) in Hsig.
  exists c, rest, root, (ic_signature peer). split_and!; try done.
  intros h Hh. destruct (IdentitiesStorage_update_identity _ st) as [r st'] eqn:Eu. cbn in Hu. subst r.
  by apply (known_extends _ _ _ _ Eu).
Qed.

(** C2: when a handshake finishes, whatever messages were received, the reported
    peer has proved possession of its identity: it presented a verified history
    whose first key hashes to the reported identifier and whose current root key
    signed the static key used in this handshake.  The trust policy accepted the
    identifier, and the history extends the one known for it. *)
Theorem handshake_proves_identity (st : Vault * S) (now : option Z) (policy : A)
    (authority : option AuthorityService) (role : Role) (events : list Event) (tc : bool)
    (ks ke : KeyId) (payload : bytes) (v : Vault) (res : HandshakeResults) :
  let x := (run_events (P := peer_identities st now policy authority) role events
              (new_machine tc ks ke payload, v)).1 in
  get_handshake_results x = Some res ->
  exists c rest root static sig, hs_rs (m_handshake x) = Some static /\
    verified (c :: rest) /\
    their_identifier res = IdentityIdentifier_from_public_key (change_public_key (sc_change c)) /\
    latest_key (c :: rest) ROOT_LABEL = Some root /\ verify root (pk_data static) sig = Ok true /\
    trust_check policy (their_identifier res) = Ok true /\
    forall h, known st.2 (their_identifier res) = Some h ->
      map sc_identifier h `prefix_of` map sc_identifier (c :: rest).
Proof.
  intros x H. apply (peer_is_vouched (P := peer_identities st now policy authority)) in H
    as (peer & i & static & Hrs & Hv & Hi).
  apply vouched_proves in Hv as (c & rest & root & sig & Hv). rewrite Hi.
  exists c, rest, root, static, sig. split; [done | exact Hv].
Qed.

(** ** Two nodes with identities *)

(** The X25519 key the vault generates next. *)
Definition next_static (v : Vault) : PublicKey :=
  mkPublicKey (x25519_public (rand_bytes (draws v) 32)) TX25519.

Notation static_id v := (compute_key_id_for_public_key (next_static v)).

Definition with_static (v : Vault) : Vault :=
  mkVault (<[static_id v := mkStoredSecret (rand_bytes (draws v) 32) X25519]> (ephemeral_secrets v))
    (storage v) (Datatypes.S (draws v)).

Lemma create_static_key_run v : create_ephemeral_secret X25519 v = (Ok (static_id v), with_static v).
Proof.
  unfold create_ephemeral_secret. erewrite sbind_run by done.
  change (Z.to_nat (attributes_length X25519)) with 32. unfold import_ephemeral_secret.
  erewrite sbind_run.
  2:{ unfold compute_key_id. cbn [secret_type]. erewrite sbind_run; [done|].
      unfold slift. rewrite array_32_run; [done | apply rand_length]. }
  erewrite sbind_run.
  2:{ unfold slift, StoredSecret_create. rewrite rand_length. done. }
  done.
Qed.

Lemma owns_with_static v pk :
  secret_at v (static_id v) = None -> owns v pk -> owns (with_static v) pk.
Proof.
  intros Hf (stored & Hs & Hpk). exists stored. split; [|done]. revert Hs.
  unfold secret_at, with_static in *. cbn [ephemeral_secrets storage]. intros Hs.
  rewrite lookup_insert_ne; [done|]. intros Ek. rewrite Ek in Hf. congruence.
Qed.

Lemma known_with_static v : known_ids v -> known_ids (with_static v).
Proof.
  intros Hk k stored Hs Hlen. unfold with_static in *. cbn [ephemeral_secrets draws] in *.
  destruct (decide (k = static_id v)) as [-> | Hne].
  - unfold compute_key_id_for_public_key in Hlen. rewrite hex_length, sha256_length in Hlen. done.
  - rewrite lookup_insert_ne in Hs by done. destruct (Hk k stored Hs Hlen) as (j & ? & ->).
    exists j. split; [lia | done].
Qed.

Lemma holds_static v : holds (with_static v) (static_id v) (rand_bytes (draws v) 32) X25519.
Proof. unfold holds, with_static. cbn. apply lookup_insert_eq. Qed.

(** A node ready to open channels as an identity: its keys are in the vault, the
    repository has it, and the next two keys will be new. *)
Record ready (v : Vault) (s : S) (i : Identities.Identity) : Prop := {
  rd_managed : managed v i;
  rd_stored : forall v', get_identity (identifier i) (v', s) = (Ok i, (v', s));
  rd_ids : known_ids v;
  rd_static : secret_at v (static_id v) = None;
  rd_ephemeral : secret_at (with_static v) (static_id (with_static v)) = None
}.

(** The machine of such a node. *)
Lemma machine_run v s i tc credentials m st' :
  ready v s i -> StateMachine_new tc (identifier i) credentials (v, s) = (Ok m, st') ->
  exists data sig root payload,
    m = new_machine tc (static_id v) (static_id (with_static v)) payload /\
    st' = (with_static (with_static v), s) /\
    payload_decode payload = Some (mkIdentityAndCredentials data sig credentials) /\
    IdentitiesCreation_decode_identity data = Ok i /\
    latest_key (change_history i) ROOT_LABEL = Some root /\
    verify root (pk_data (next_static v)) sig = Ok true.
Proof.
  intros [Hm Hst Hids Hs He] E. destruct (m_root _ _ Hm) as [root Hr].
  destruct (managed_accepted v i Hm) as (data & Hd & Hdec).
  assert (managed (with_static v) i) as Hm1.
  { destruct Hm as [H1 H2 H3 H4]. split; try done. intros. apply owns_with_static; eauto. }
  unfold StateMachine_new, get_static_key in E. erewrite sbind_run in E.
  2:{ unfold in_vault. by rewrite create_static_key_run. }
  apply sbind_ok in E as (payload & st1 & E1 & E). unfold make_identity_payload in E1.
  erewrite sbind_run in E1 by apply Hst.
  erewrite sbind_run in E1 by (unfold slift; by rewrite Hd).
  destruct (create_signature_run (with_static v) s i root (pk_data (next_static v)) Hm1 Hr)
    as (sig & Esig & Hv).
  erewrite sbind_run in E1.
  2:{ unfold sign_static_key. erewrite sbind_run; [exact Esig|]. unfold in_vault.
      erewrite public_key_run; [done | apply holds_static | apply rand_length]. }
  apply slift_inv in E1 as [Ep ->]. apply sbind_ok in E as (h & st2 & E2 & [= <- <-]).
  unfold in_vault, Handshake_new in E2. erewrite sbind_run in E2 by apply create_static_key_run.
  injection E2 as <- <-. exists data, sig, root, payload. split_and!; try done.
  apply payload_roundtrip. by destruct (payload_encode _) as [b|]; [injection Ep as ->|].
Qed.

(** A node accepts an identity with the credentials it presents. *)
Definition welcomes (P : PeerIdentities) (tc : bool) (i : StateMachine.Identity)
    (credentials : list Credential) : Prop :=
  trust_policy_check (identifier_of i) = Ok true /\
  (if tc then verify_presented (identifier_of i) credentials = Ok tt else credentials = []) /\
  update_identity i = Ok tt.

(** Such a node is one side of a session. *)
Lemma ready_side N v s i tc credentials m st' st now policy authority their_tc :
  ready v s i -> StateMachine_new tc (identifier i) credentials (v, s) = (Ok m, st') ->
  draws v + 15 <= N -> (Z.of_nat (length (default [] (m_identity_payload m))) <= aead_max)%Z ->
  welcomes (peer_identities st now policy authority) their_tc i credentials ->
  exists payload, m = new_machine tc (static_id v) (static_id (with_static v)) payload /\
    draws st'.1 = draws v + 2 /\
    side (P := peer_identities st now policy authority) N their_tc (static_id v)
      (static_id (with_static v)) (rand_bytes (draws v) 32) (rand_bytes (Datatypes.S (draws v)) 32)
      st'.1 payload i.
Proof.
  intros Hrd E HN Hsize (Ht & Hc & Hu).
  destruct (machine_run _ _ _ _ _ _ _ Hrd E) as (data & sig & root & payload & -> & -> & Hp & Hdec & Hr & Hv).
  destruct Hrd as [Hm Hst Hids Hs He]. exists payload. split; [done|]. split; [cbn; lia|]. split.
  - split; cbn [fst].
    + unfold holds. cbn. rewrite lookup_insert_ne; [apply holds_static|]. intros Ek.
      unfold secret_at in He. rewrite Ek in He. unfold with_static at 1 in He.
      cbn [ephemeral_secrets] in He. by rewrite lookup_insert_eq in He.
    + apply holds_static.
    + split; apply rand_length.
    + by apply known_with_static, known_with_static.
    + cbn. lia.
  - exact Hsize.
  - eexists. split; [exact Hp|]. split_and!.
    + cbn [ic_identity]. by apply (map_err_ok identity_failed).
    + apply (map_err_ok identity_failed).
      unfold IdentitiesKeys_verify_signature, Identity_get_public_key.
      rewrite get_public_key_latest, Hr. cbn [ok_or rbind ic_signature].
      change (map_err VaultErr (verify root (pk_data (next_static v)) sig) = Ok true). by rewrite Hv.
    + done.
    + by destruct their_tc.
    + done.
Qed.

(** C1: secure channels between identities.  Two nodes have an identity each,
    with its keys in the vault, and accept each other's.  The machines they
    construct complete the handshake, each reports the identifier of the other,
    and the channel works in both directions: whatever is sent, in whatever
    order within the window it is delivered, arrives. *)
Theorem identities_establish_channel (N : nat) (vi vr : Vault) (si sr : S)
    (ii ir : Identities.Identity) (tci tcr : bool) (ci cr : list Credential) (mi mr : Machine)
    (ni nr sti str : Vault * S) (ti tr : option Z) (pi pr : A) (ai ar : option AuthorityService)
    (ps : list bytes) (sched : list nat) :
  let Pi := peer_identities sti ti pi ai in let Pr := peer_identities str tr pr ar in
  distinct_ids N -> ready vi si ii -> ready vr sr ir ->
  StateMachine_new tci (identifier ii) ci (vi, si) = (Ok mi, ni) ->
  StateMachine_new tcr (identifier ir) cr (vr, sr) = (Ok mr, nr) ->
  (Z.of_nat (length (default [] (m_identity_payload mi))) <= aead_max)%Z ->
  (Z.of_nat (length (default [] (m_identity_payload mr))) <= aead_max)%Z ->
  welcomes Pr tcr ii ci -> welcomes Pi tci ir cr ->
  Forall (fun p => Z.of_nat (length p) <= aead_max)%Z ps ->
  (Z.of_nat (length ps) <= u64_max)%Z -> valid_schedule (length ps) [] sched = true ->
  draws vi + 15 + length ps + length sched <= N -> draws vr + 15 + length ps + length sched <= N ->
  exists xi vi' xr vr' ri rr,
    handshake_session Pi Pr (mi, ni.1) (mr, nr.1) = Ok ((xi, vi'), (xr, vr')) /\
    get_handshake_results xi = Some ri /\ their_identifier ri = identifier ir /\
    get_handshake_results xr = Some rr /\ their_identifier rr = identifier ii /\
    (let sent := (encrypt_all ps (Encryptor_new (encryption_key (handshake_keys ri)) 0, vi')).1 in
     decrypt_results (delivered sent sched)
       (Decryptor_new (decryption_key (handshake_keys rr)), vr') =
     map (fun i => Ok (default [] (ps !! i))) sched) /\
    (let sent := (encrypt_all ps (Encryptor_new (encryption_key (handshake_keys rr)) 0, vr')).1 in
     decrypt_results (delivered sent sched)
       (Decryptor_new (decryption_key (handshake_keys ri)), vi') =
     map (fun i => Ok (default [] (ps !! i))) sched).
Proof.
  intros Pi Pr HN Hi Hr Ei Er Li Lr Wi Wr Hp Hl Hs Di Dr.
  destruct (ready_side N _ _ _ _ _ _ _ str tr pr ar tcr Hi Ei ltac:(lia) Li Wi) as (qi & -> & Dni & Si).
  destruct (ready_side N _ _ _ _ _ _ _ sti ti pi ai tci Hr Er ltac:(lia) Lr Wr) as (qr & -> & Dnr & Sr).
  eapply (session_delivers Pi Pr N tci tcr); try done; rewrite ?Dni, ?Dnr; lia.
Qed.
End Peer.
