(* ===== verification/IdentityExamples.v ===== *)
(** * Concrete identities

    Encodings through the binary numbers that enumerate the data, and the
    theorems on identities, credentials and secure channels applied to a small
    node. *)

From Stdlib Require Import ZArith Lia.
From Stdlib Require Strings.Byte Strings.String.
From stdpp Require Import base gmap list numbers option countable.
From S2P Require Import Prelude RustStr Routing AccessControl KeyTracker Vault ToyCrypto Attributes.
From S2P Require Import Handshake SecureChannel StateMachine.
From S2P Require Import Identities IdentitySpec IdentityKeys Credentials CredentialSpec PeerIdentity.

(** ** Encodings *)

#[export] Instance SecretPersistence_eq_dec : EqDecision SecretPersistence.
Proof. solve_decision. Defined.
#[export] Instance SecretType_countable : Countable SecretType.
Proof.
  refine (inj_countable (fun t => match t with TBuffer => 0 | TAes => 1 | TX25519 => 2 | TEd25519 => 3
                                     | TNistP256 => 4 end)
    (fun n => Some (match n with 0 => TBuffer | 1 => TAes | 2 => TX25519 | 3 => TEd25519
                              | _ => TNistP256 end)) _).
  by intros [].
Defined.
#[export] Instance SecretPersistence_countable : Countable SecretPersistence.
Proof.
  refine (inj_countable (fun t => match t with Ephemeral => false | Persistent => true end)
    (fun b : bool => Some (if b then Persistent else Ephemeral)) _).
  by intros [].
Defined.
#[export] Instance SignatureType_countable : Countable SignatureType.
Proof.
  refine (inj_countable (fun t => match t with RootSign => 0 | SelfSign => 1 | PrevSign => 2 end)
    (fun n => Some (match n with 0 => RootSign | 1 => SelfSign | _ => PrevSign end)) _).
  by intros [].
Defined.

#[export] Instance PublicKey_countable : Countable PublicKey.
Proof.
  refine (inj_countable (fun k => (pk_data k, stype k)) (fun '(a, b) => Some (mkPublicKey a b)) _).
  by intros [].
Defined.
#[export] Instance SecretAttributesV1_eq_dec : EqDecision SecretAttributesV1.
Proof. solve_decision. Defined.
#[export] Instance KeyAttributes_eq_dec : EqDecision KeyAttributes.
Proof. solve_decision. Defined.
#[export] Instance KeyAttributes_countable : Countable KeyAttributes.
Proof.
  refine (inj_countable
            (fun k => (ka_label k, sa_stype (ka_secret_attributes k),
                       sa_persistence (ka_secret_attributes k), sa_length (ka_secret_attributes k)))
            (fun '(a, b, c, d) => Some (mkKeyAttributes a (mkSecretAttributesV1 b c d))) _).
  by intros [? []].
Defined.
#[export] Instance CreateKeyChangeData_eq_dec : EqDecision CreateKeyChangeData.
Proof. solve_decision. Defined.
#[export] Instance RotateKeyChangeData_eq_dec : EqDecision RotateKeyChangeData.
Proof. solve_decision. Defined.
#[export] Instance IdentityChange_eq_dec : EqDecision IdentityChange.
Proof. solve_decision. Defined.
#[export] Instance IdentityChange_countable : Countable IdentityChange.
Proof.
  refine (inj_countable
            (fun c => (match c with CreateKey _ => false | RotateKey _ => true end,
                       previous_change_identifier c,
                       match c with CreateKey d => ck_key_attributes d | RotateKey d => rk_key_attributes d end,
                       change_public_key c))
            (fun '(b, p, a, k) => Some (if b : bool then RotateKey (mkRotateKey p a k)
                                       else CreateKey (mkCreateKey p a k))) _).
  by intros [[]|[]].
Defined.
#[export] Instance Signature_eq_dec : EqDecision Signature.
Proof. solve_decision. Defined.
#[export] Instance Signature_countable : Countable Signature.
Proof.
  refine (inj_countable (fun s => (sig_stype s, sig_data s)) (fun '(a, b) => Some (mkSignature a b)) _).
  by intros [].
Defined.
#[export] Instance SignedChange_eq_dec : EqDecision IdentitySignedChange.
Proof. solve_decision. Defined.
#[export] Instance SignedChange_countable : Countable IdentitySignedChange.
Proof.
  refine (inj_countable (fun c => (sc_identifier c, sc_change c, sc_signatures c))
            (fun '(a, b, c) => Some (mkSignedChange a b c)) _).
  by intros [].
Defined.

#[export] Instance toy_identity_codec : IdentityCodec := {|
  encode_change c := Some (positive_bits (encode c));
  encode_history h := Some (positive_bits (encode h));
  decode_history b := decode (bits_positive b)
|}.

#[export] Instance toy_identity_codec_laws : IdentityCodecLaws.
Proof.
  split.
  - intros c. by eexists.
  - intros c c' b [= <-] [= E]. apply (f_equal bits_positive) in E.
    rewrite !bits_positive_bits in E. by apply (inj encode) in E.
  - intros h. eexists. split; [done|]. cbn. by rewrite bits_positive_bits, decode_encode.
Qed.

#[export] Instance toy_credential_codec : CredentialCodec := {|
  encode_data d := Some (positive_bits (encode (cd_schema d, cd_attributes d, cd_subject d, cd_issuer d,
                                                (cd_issuer_key_label d, cd_created d, cd_expires d))));
  decode_data b :=
    (fun '(s, a, u, i, (l, c, e)) => mkCredentialData s a u i l c e) <$> decode (bits_positive b)
|}.

#[export] Instance toy_credential_codec_laws : CredentialCodecLaws.
Proof.
  split. intros d. do 2 eexists. split; [done|]. cbn. rewrite bits_positive_bits, decode_encode. cbn.
  split; [done|]. by destruct d.
Qed.

#[export] Instance Credential_eq_dec : EqDecision Credential.
Proof. solve_decision. Defined.
#[export] Instance Credential_countable : Countable Credential.
Proof.
  refine (inj_countable (fun c => (cr_data c, cr_signature c)) (fun '(a, b) => Some (mkCredential a b)) _).
  by intros [].
Defined.

#[export] Instance toy_payload_codec : PayloadCodec := {|
  payload_encode p := Some (positive_bits (encode (ic_identity p, ic_signature p, ic_credentials p)));
  payload_decode b :=
    (fun '(i, s, c) => mkIdentityAndCredentials i s c) <$> decode (bits_positive b)
|}.

#[export] Instance toy_payload_codec_laws : PayloadCodecLaws.
Proof.
  split. intros p b [= <-]. cbn. rewrite bits_positive_bits, decode_encode. by destruct p.
Qed.

#[export] Instance toy_signature_laws : SignatureLaws toy_crypto.
Proof.
  split; cbn; intros.
  - apply length_pad.
  - by rewrite length_app, !length_pad.
  - by rewrite bool_decide_eq_true_2.
  - done.
Qed.

(** ** A node with an identity *)

(** Its vault, and its repository when the identity is stored there. *)
Definition node_vault : Vault := with_next_key empty_vault.

Definition node_id : IdentityIdentifier := IdentityIdentifier_from_public_key (next_key empty_vault).

Definition repository_of (i : Identities.Identity) : InMemoryStorage :=
  {[CHANGE_HISTORY_KEY := {[identifier i := default [] (encode_history (change_history i))]}]}.

Lemma node_identity :
  exists c, managed node_vault (mkIdentity node_id [c]) /\
    latest_key [c] ROOT_LABEL = Some (next_key empty_vault).
Proof.
  destruct (new_identity empty_vault (∅ : InMemoryStorage)) as (c & _ & _ & Hr & Hm); [done|].
  by exists c.
Qed.

Lemma stored_identity i :
  chained (change_history i) ->
  forall v, get_identity (identifier i) (v, repository_of i) = (Ok i, (v, repository_of i)).
Proof.
  intros Hc v. unfold get_identity, retrieve_identity. erewrite sbind_run.
  2:{ erewrite sbind_run.
      2:{ unfold in_storage, storage_get, in_memory_storage, InMemory_get, repository_of.
          rewrite lookup_singleton_eq, lookup_singleton_eq. reflexivity. }
      change (default [] (encode_history (change_history i))) with (positive_bits (encode (change_history i))).
      cbv beta iota. erewrite sbind_run; [reflexivity|].
      unfold slift, Identity_import, history_import. cbn [decode_history toy_identity_codec].
      rewrite bits_positive_bits, decode_encode. cbn [ok_or rbind].
      rewrite (proj2 (consistent_ok _) Hc). reflexivity. }
  by destruct i.
Qed.

Lemma known_stored i : known (repository_of i) (identifier i) = Some (change_history i).
Proof.
  unfold known. cbn [contents in_memory_laws]. unfold repository_of.
  rewrite lookup_singleton_eq. cbn. rewrite lookup_singleton_eq. cbn.
  by rewrite bits_positive_bits, decode_encode.
Qed.

Lemma update_empty i v :
  (IdentitiesStorage_update_identity i (v, (∅ : InMemoryStorage))).1 = Ok tt.
Proof. reflexivity. Qed.

(** The node's identity before and after a rotation of its root key. *)
Lemma rotated_identity :
  exists c c', managed node_vault (mkIdentity node_id [c]) /\
    verified [c; c'] /\ sc_change c <> sc_change c'.
Proof.
  destruct node_identity as (c & Hm & Hr). exists c.
  assert (fresh_key node_vault) as Hf by (vm_compute; reflexivity).
  destruct (rotates_key OpRotateRoot node_vault (∅ : InMemoryStorage) _ _ Hm Hf eq_refl Hr)
    as (i' & c' & data & _ & Hm' & _ & Hh & Hpk & Hnew & _).
  exists c'. split; [exact Hm|]. split; [exact (eq_ind _ verified (m_verified _ _ Hm') _ Hh)|].
  intros E. apply (Hnew ROOT_LABEL). cbn [change_history]. rewrite <-Hpk, <-E.
  unfold latest_key in *. rewrite filter_cons in Hr |- *. by destruct decide.
Qed.

Lemma known_history_only_grows_witness :
  exists c c' h', sc_change c <> sc_change c' /\
    known (update_all [mkIdentity node_id [c; c']]
             (node_vault, repository_of (mkIdentity node_id [c]))).2 node_id = Some h' /\
    verified h' /\ map sc_change [c] `prefix_of` map sc_change h'.
Proof.
  destruct rotated_identity as (c & c' & Hm & Hv & Hne).
  destruct (known_history_only_grows [mkIdentity node_id [c; c']] node_vault
              (repository_of (mkIdentity node_id [c])) node_id [c])
    as (h' & Hk & Hv' & Ho & Hp & _).
  - constructor; [exact Hv | constructor].
  - apply (known_stored (mkIdentity node_id [c])).
  - apply (m_verified _ _ Hm).
  - exists c, c', h'. split_and!; try done.
    destruct Ho as [-> | (i & Hi & _ & ->)]; [done|].
    apply list_elem_of_singleton in Hi as ->. by exists [sc_change c'].
Defined.

Lemma key_operations_witness :
  exists i, op_success OpRotateRoot node_vault (∅ : InMemoryStorage) i /\
    run_key_op (OpRotate (str "other")) i (node_vault, (∅ : InMemoryStorage)) =
      (Err InvalidInternalState, (node_vault, ∅)).
Proof.
  destruct node_identity as (c & Hm & Hr). exists (mkIdentity node_id [c]).
  assert (fresh_key node_vault) as Hf by (vm_compute; reflexivity).
  assert (latest_key [c] (str "other") = None) as Ho.
  { unfold latest_key in Hr |- *. rewrite filter_cons in Hr |- *.
    destruct (decide (change_label (sc_change c) = ROOT_LABEL)) as [E|]; [|discriminate Hr].
    rewrite decide_False by (rewrite E; discriminate). reflexivity. }
  pose proof (fun op => key_operations op node_vault (∅ : InMemoryStorage) _ Hm Hf) as Hop. split.
  - specialize (Hop OpRotateRoot). cbn [op_label change_history rotates] in Hop. rewrite Hr in Hop.
    apply Hop. intros l pk E. discriminate E.
  - specialize (Hop (OpRotate (str "other"))). cbn [op_label change_history rotates] in Hop.
    rewrite Ho in Hop. apply Hop. intros l pk E. discriminate E.
Defined.

Lemma create_identity_outcomes_witness :
  match (create_identity (empty_vault, (∅ : InMemoryStorage))).1 with
  | Ok i => identifier i = node_id /\ latest_key (change_history i) ROOT_LABEL = Some (next_key empty_vault)
  | _ => False
  end.
Proof.
  destruct (create_identity (empty_vault, (∅ : InMemoryStorage))) as [r [v' s']] eqn:E.
  assert (is_ok r = true) as Hr.
  { change r with (r, (v', s')).1. rewrite <-E. vm_compute. reflexivity. }
  pose proof (create_identity_outcomes empty_vault ∅ r v' s' eq_refl E) as H.
  destruct r as [i| |]; [|discriminate Hr..]. split; apply H.
Defined.

(** A credential that the node issues for [Palice], valid for 100 seconds. *)
Definition alice_builder : CredentialBuilder :=
  mkBuilder None {[str "role" := str "member"]} (str "Palice") node_id (100 * nanos).

Definition alice_data : CredentialData Verified :=
  mkCredentialData None {[str "role" := str "member"]} (str "Palice") node_id ROOT_LABEL 1000 1100.

Lemma credential_end_to_end_witness :
  exists i c, Credentials_issue_credential node_id alice_data (node_vault, repository_of i) =
      (Ok c, (node_vault, repository_of i)) /\
    (Credentials_receive_presented_credential (Some 1050%Z) (Some 1050%Z) (str "Palice") [i] c
       (empty_vault, (∅ : InMemoryStorage))).2.1 = empty_vault.
Proof.
  destruct node_identity as (k & Hm & _). exists (mkIdentity node_id [k]).
  destruct (credential_end_to_end node_vault (repository_of (mkIdentity node_id [k]))
              (mkIdentity node_id [k]) alice_builder 1000 alice_data Hm) as (_ & c & Hc & Hall).
  - apply (stored_identity (mkIdentity node_id [k])), (m_verified _ _ Hm).
  - reflexivity.
  - vm_compute. split; discriminate.
  - lia.
  - reflexivity.
  - exists c. split; [exact Hc|]. specialize (Hall empty_vault ∅ 1050%Z 1050%Z (str "Palice")).
    destruct (Credentials_receive_presented_credential _ _ _ _ _ _) as [r [v2 s2]]. apply Hall.
Defined.

Lemma authority_cache_ignores_identity_witness :
  exists (self : AuthorityService (S := InMemoryStorage)) st1 cache c,
    AuthorityService_credential (Some 1000%Z) (Some 1000%Z) self (str "Palice") (st1, None) =
      (Ok c, (st1, cache)) /\
    AuthorityService_credential (Some 1001%Z) (Some 1001%Z) self (str "Pbob") (st1, cache) =
      (Ok c, (st1, cache)) /\
    forall when authorities d, verify_credential when (str "Pbob") authorities c <> Ok d.
Proof.
  destruct node_identity as (k & Hm & _). set (i := mkIdentity node_id [k]).
  pose proof (stored_identity i (proj1 (m_verified _ _ Hm))) as Hst.
  destruct (issue_run node_vault (repository_of i) i alice_data Hm (Hst node_vault))
    as (c & u & pk & _ & Eu & Hu & Hk & Hv).
  set (self := mkAuthorityService (S := InMemoryStorage) node_id (Some (CredentialsMemoryRetriever c))).
  assert (exists cache, AuthorityService_credential (Some 1000%Z) (Some 1000%Z) self (str "Palice")
            ((node_vault, repository_of i), None) = (Ok c, ((node_vault, repository_of i), cache))) as [cache E].
  { eexists. unfold AuthorityService_credential. erewrite sbind_run by reflexivity.
    erewrite sbind_run by reflexivity. cbn [AuthorityService_cached].
    erewrite sbind_run by reflexivity. erewrite sbind_run by reflexivity.
    erewrite sbind_run.
    2:{ unfold on_identities, AuthorityService_identity. change (as_identifier self) with (identifier i).
        rewrite Hst. reflexivity. }
    erewrite sbind_run.
    2:{ unfold slift. rewrite (receive_issued i c u pk 1000 (str "Palice") Eu);
          [|exact (f_equal cd_issuer Hu) | exact (f_equal cd_issuer_key_label Hu) | exact Hk | exact Hv].
        change (cd_subject u) with (cd_subject (into_verified u)).
        change (cd_expires u) with (cd_expires (into_verified u)). rewrite Hu. reflexivity. }
    reflexivity. }
  exists self, (node_vault, repository_of i), cache, c. split; [exact E|].
  destruct (authority_cache_ignores_identity self (Some 1000%Z) (Some 1000%Z) (str "Palice") _ _ _ _ E)
    as (u' & Hu' & _ & Hall).
  assert (u' = u) as Hsame by congruence. apply Hall; [|discriminate].
  rewrite Hsame. change (cd_expires u) with (cd_expires (into_verified u)). rewrite Hu.
  vm_compute. reflexivity.
Defined.

(** ** Two nodes that open a channel *)

Definition the_identity : Identities.Identity :=
  mkIdentity node_id
    match (create_initial_key None (KeyAttributes_new ROOT_LABEL Ed25519) (empty_vault, (∅ : InMemoryStorage))).1 with
    | Ok h => h
    | _ => []
    end.

Lemma the_identity_managed : managed node_vault the_identity.
Proof.
  destruct (new_identity empty_vault (∅ : InMemoryStorage)) as (c & E & _ & _ & Hm); [done|].
  unfold the_identity. by rewrite E.
Qed.

Lemma node_ready : ready node_vault (repository_of the_identity) the_identity.
Proof.
  split.
  - apply the_identity_managed.
  - apply stored_identity, (m_verified _ _ the_identity_managed).
  - intros k stored Hk. exfalso. revert Hk. vm_compute. discriminate.
  - vm_compute. reflexivity.
  - vm_compute. reflexivity.
Qed.

(** The machine that the node constructs, and its peer's view of it. *)
Definition opened : result IdError Machine * (Vault * InMemoryStorage) :=
  StateMachine_new false node_id [] (node_vault, repository_of the_identity).

Definition opened_machine : Machine :=
  match opened.1 with Ok m => m | _ => new_machine false [] [] [] end.

Definition peer_view : PeerIdentities :=
  peer_identities (empty_vault, (∅ : InMemoryStorage)) (Some 1000%Z) mkTrustEveryone None.

Lemma opened_ok : StateMachine_new false (identifier the_identity) [] (node_vault, repository_of the_identity) =
  (Ok opened_machine, opened.2).
Proof.
  change (opened = (Ok opened_machine, opened.2)).
  assert (is_ok opened.1 = true) as H by (vm_compute; reflexivity).
  unfold opened_machine. destruct opened as [[m|e|] st]; [reflexivity | discriminate H..].
Qed.

Lemma opened_size : (Z.of_nat (length (default [] (m_identity_payload opened_machine))) <= aead_max)%Z.
Proof. apply Z.leb_le. vm_compute. reflexivity. Qed.

Lemma opened_welcome : welcomes peer_view false the_identity [].
Proof. split_and!; [reflexivity.. |]. cbn [update_identity peer_view peer_identities]. by rewrite update_empty. Qed.

Lemma identities_establish_channel_witness :
  exists xi vi' xr vr' ri rr,
    handshake_session peer_view peer_view (opened_machine, opened.2.1) (opened_machine, opened.2.1) =
      Ok ((xi, vi'), (xr, vr')) /\
    get_handshake_results xi = Some ri /\ their_identifier ri = node_id /\
    get_handshake_results xr = Some rr /\ their_identifier rr = node_id /\
    decrypt_results
      (delivered (encrypt_all [str "hi"; str "there"]
                    (Encryptor_new (encryption_key (handshake_keys ri)) 0, vi')).1 [1; 0])
      (Decryptor_new (decryption_key (handshake_keys rr)), vr') = [Ok (str "there"); Ok (str "hi")].
Proof.
  destruct (identities_establish_channel 1000 node_vault node_vault _ _ the_identity the_identity
              false false [] [] opened_machine opened_machine opened.2 opened.2
              (empty_vault, (∅ : InMemoryStorage)) (empty_vault, ∅) (Some 1000%Z) (Some 1000%Z)
              mkTrustEveryone mkTrustEveryone None None [str "hi"; str "there"] [1; 0]
              (toy_distinct_ids 1000 ltac:(lia)) node_ready node_ready opened_ok opened_ok
              opened_size opened_size opened_welcome opened_welcome)
    as (xi & vi' & xr & vr' & ri & rr & E & Hi & Ii & Hr & Ir & D & _).
  - repeat constructor; vm_compute; congruence.
  - vm_compute. congruence.
  - vm_compute. reflexivity.
  - vm_compute. lia.
  - vm_compute. lia.
  - exists xi, vi', xr, vr', ri, rr. split_and!; [exact E | exact Hi | exact Ii | exact Hr | exact Ir | exact D].
Defined.

(** The initiator of a completed session has received two events. *)
Lemma session_initiator {C : Crypto} (Pi Pr : PeerIdentities) I R xi vi R' :
  handshake_session Pi Pr I R = Ok ((xi, vi), R') ->
  exists m2, run_events (P := Pi) Initiator [Initialize; ReceivedMessage m2] I = (xi, vi).
Proof.
  unfold handshake_session, run. cbn [run_events on_event].
  destruct (initiator_on_event Initialize I) as [[[|m1]| |] I1]; cbn; try done;
    destruct (responder_on_event Initialize R) as [[?| |] R1]; cbn; try done.
  destruct (responder_on_event (ReceivedMessage m1) R1) as [[[|m2]| |] R2]; cbn; try done.
  destruct (initiator_on_event (ReceivedMessage m2) I1) as [[[|m3]| |] I2] eqn:E; cbn; try done.
  destruct (responder_on_event (ReceivedMessage m3) R2) as [[?| |] R3]; cbn; try done.
  intros [= -> <-]. exists m2. by rewrite E.
Qed.

Lemma opened_session :
  exists payload ks ke m2 res, opened_machine = new_machine false ks ke payload /\
    get_handshake_results
      (run_events (P := peer_view) Initiator [Initialize; ReceivedMessage m2]
         (new_machine false ks ke payload, opened.2.1)).1 = Some res /\ their_identifier res = node_id.
Proof.
  destruct (ready_side 1000 _ _ _ _ _ _ _ (empty_vault, (∅ : InMemoryStorage)) (Some 1000%Z)
              mkTrustEveryone None false node_ready opened_ok
              ltac:(vm_compute; lia) opened_size opened_welcome) as (payload & Em & _ & Hside).
  destruct (session_run peer_view peer_view 1000 (toy_distinct_ids 1000 ltac:(lia)) false false
              _ _ _ _ _ _ _ _ _ _ _ _ _ _ Hside Hside)
    as (xi & vi & xr & vr & a & b & c & d & K1 & K2 & E & Hi & _).
  apply session_initiator in E as [m2 E]. exists payload. do 2 eexists. exists m2.
  eexists. split; [exact Em|]. rewrite E. split; [exact Hi | reflexivity].
Qed.

Lemma handshake_proves_identity_witness :
  exists c rest root static sig, verified (c :: rest) /\
    node_id = IdentityIdentifier_from_public_key (change_public_key (sc_change c)) /\
    latest_key (c :: rest) ROOT_LABEL = Some root /\ verify root (pk_data static) sig = Ok true.
Proof.
  destruct opened_session as (payload & ks & ke & m2 & res & _ & Hres & Hid).
  destruct (handshake_proves_identity (empty_vault, (∅ : InMemoryStorage)) (Some 1000%Z) mkTrustEveryone
              None Initiator [Initialize; ReceivedMessage m2] false ks ke payload opened.2.1 res Hres)
    as (c & rest & root & static & sig & _ & Hv & Hi & Hr & Hs & _).
  exists c, rest, root, static, sig. rewrite <-Hid. split_and!; [exact Hv | exact Hi | exact Hr | exact Hs].
Defined.
