(* ===== verification/AbacExpr.v ===== *)
(** * Policy expressions: [ockam_abac/src/expr.rs] and [error.rs]

    The expressions of attribute-based access control, their comparison
    ([Expr::equals], [Expr::compare], both written with an explicit control
    stack) and their printing.  A [String] is its UTF-8 bytes, an [f64] is an
    IEEE 754 datum ([spec_float], all NaNs identified, as no operation here
    tells them apart), an [i64] is an integer.

    A control stack is a list whose head is the top of the Rust [Vec].  The
    loops carry fuel; [equals_loop_ref], [compare_loop_ref] and
    [show_loop_ref] show that the fuel given is enough and that the loops
    compute the structural definitions below. *)

From Stdlib Require Import ZArith Lia Floats.SpecFloat.
From stdpp Require Import base list numbers option.
From S2P Require Import Prelude.
From S2P Require Import RustStr.

Local Open Scope Z_scope.

Inductive Expr :=
| EStr (s : bytes)
| EInt (i : Z)
| EFloat (f : spec_float)
| EBool (b : bool)
| EIdent (s : bytes)
| ESeq (xs : list Expr)
| EList (xs : list Expr).

Inductive Val :=
| VStr (s : bytes)
| VInt (i : Z)
| VFloat (f : spec_float)
| VBool (b : bool)
| VSeq (xs : list Val).

Inductive EvalError :=
| Unbound (s : bytes)
| Unknown (s : bytes)
| InvalidType (e : Expr) (m : bytes)
| TypeMismatch (a b : Expr)
| Malformed (m : bytes).

Fixpoint Expr_from_val (v : Val) : Expr :=
  match v with
  | VStr s => EStr s
  | VInt i => EInt i
  | VFloat f => EFloat f
  | VBool b => EBool b
  | VSeq s => ESeq (map Expr_from_val s)
  end.

Definition Expr_is_true (e : Expr) : bool :=
  match e with EBool true => true | _ => false end.
Definition Expr_is_false (e : Expr) : bool :=
  match e with EBool false => true | _ => false end.
Definition Expr_is_unit (e : Expr) : bool :=
  match e with EList [] => true | _ => false end.
Definition Expr_is_ident (e : Expr) : bool :=
  match e with EIdent _ => true | _ => false end.
Definition EvalError_is_unbound (e : EvalError) : bool :=
  match e with Unbound _ => true | _ => false end.

Definition expr_unit : Expr := EList [].
Definition with_op (op : Expr) (exprs : list Expr) : Expr := EList (op :: exprs).
Definition expr_and (exprs : list Expr) : Expr := with_op (EIdent (str "and")) exprs.
Definition expr_or (exprs : list Expr) : Expr := with_op (EIdent (str "or")) exprs.
Definition expr_exists (exprs : list Expr) : Expr := with_op (EIdent (str "exists?")) exprs.
Definition expr_when (test then_ orelse : Expr) : Expr :=
  with_op (EIdent (str "if")) [test; then_; orelse].
Definition expr_eq (exprs : list Expr) : Expr := with_op (EIdent (str "=")) exprs.

(** ** Orders of the scalars *)

(** [Ord] of [bool]: [false] before [true]. *)
Definition bool_compare (a b : bool) : comparison :=
  match a, b with
  | true, false => Gt
  | false, true => Lt
  | _, _ => Eq
  end.

(** ** [Expr::equals] and [Expr::compare] *)

Fixpoint equals_loop (fuel : nat) (ctrl : list (Expr * Expr)) : option (result EvalError bool) :=
  match fuel with
  | O => None
  | S fuel =>
      match ctrl with
      | [] => Some (Ok true)
      | (EStr a, EStr b) :: ctrl =>
          if bool_decide (a = b) then equals_loop fuel ctrl else Some (Ok false)
      | (EBool a, EBool b) :: ctrl =>
          if bool_decide (a = b) then equals_loop fuel ctrl else Some (Ok false)
      | (EIdent a, EIdent b) :: ctrl =>
          if bool_decide (a = b) then equals_loop fuel ctrl else Some (Ok false)
      | (EInt a, EInt b) :: ctrl =>
          if a =? b then equals_loop fuel ctrl else Some (Ok false)
      | (EFloat a, EFloat b) :: ctrl =>
          if SFeqb a b then equals_loop fuel ctrl else Some (Ok false)
      | (ESeq a, ESeq b) :: ctrl =>
          if Nat.eqb (length a) (length b) then equals_loop fuel (zip a b ++ ctrl)
          else Some (Ok false)
      | (EList a, EList b) :: ctrl =>
          if Nat.eqb (length a) (length b) then equals_loop fuel (zip a b ++ ctrl)
          else Some (Ok false)
      | (a, b) :: _ => Some (Err (TypeMismatch a b))
      end
  end.

Fixpoint compare_loop (fuel : nat) (ctrl : list (Expr * Expr)) (res : option comparison)
  : option (result EvalError (option comparison)) :=
  match fuel with
  | O => None
  | S fuel =>
      let scalar ctrl res :=
        match res with
        | Some Eq => compare_loop fuel ctrl res
        | _ => Some (Ok res)
        end in
      match ctrl with
      | [] => Some (Ok res)
      | (EStr a, EStr b) :: ctrl => scalar ctrl (Some (bytes_compare a b))
      | (EBool a, EBool b) :: ctrl => scalar ctrl (Some (bool_compare a b))
      | (EIdent a, EIdent b) :: ctrl => scalar ctrl (Some (bytes_compare a b))
      | (EInt a, EInt b) :: ctrl => scalar ctrl (Some (a ?= b))
      | (EFloat a, EFloat b) :: ctrl => scalar ctrl (SFcompare a b)
      | (ESeq a, ESeq b) :: ctrl =>
          let res := Nat.compare (length a) (length b) in
          match res with
          | Eq => compare_loop fuel (zip a b ++ ctrl) (Some Eq)
          | _ => Some (Ok (Some res))
          end
      | (EList a, EList b) :: ctrl =>
          let res := Nat.compare (length a) (length b) in
          match res with
          | Eq => compare_loop fuel (zip a b ++ ctrl) (Some Eq)
          | _ => Some (Ok (Some res))
          end
      | (a, b) :: _ => Some (Err (TypeMismatch a b))
      end
  end.

(** The number of constructors: every iteration consumes one of the left
    expressions' constructors. *)
Fixpoint expr_size (e : Expr) : nat :=
  match e with
  | ESeq xs | EList xs => S (list_sum (map expr_size xs))
  | _ => 1%nat
  end.

(** A loop that ran out of fuel has no Rust counterpart; [equals_ref_spec]
    and [compare_ref_spec] exclude it. *)
Definition out_of_fuel {E A} (o : option (result E A)) : result E A :=
  match o with
  | Some r => r
  | None => Panic
  end.

Definition Expr_equals (self other : Expr) : result EvalError bool :=
  out_of_fuel (equals_loop (S (expr_size self)) [(self, other)]).

Definition Expr_compare (self other : Expr) : result EvalError (option comparison) :=
  out_of_fuel (compare_loop (S (expr_size self)) [(self, other)] None).

(** ** Printing: the calls the [Display] implementation makes on the formatter *)

Inductive piece :=
| WStr (s : bytes)       (* write!(f, "{s:?}") *)
| WInt (i : Z)           (* write!(f, "{i}") *)
| WNan
| WInf (negative : bool)
| WFloat (f : spec_float) (* write!(f, "{x:?}") of a finite number *)
| WBool (b : bool)
| WIdent (s : bytes)
| WOpen | WClose | WSeqOpen | WSeqClose | WSpace.

Inductive ShowOp :=
| Show (e : Expr)
| ShowListEnd
| ShowSeqEnd
| ShowWhitespace.

Definition write_float (x : spec_float) : piece :=
  match x with
  | S754_nan => WNan
  | S754_infinity s => WInf s
  | _ => WFloat x
  end.

(** The pushes of the loop over [es.iter().rev()], top of the stack first. *)
Fixpoint show_items (first : bool) (es : list Expr) : list ShowOp :=
  match es with
  | [] => []
  | e :: es => (if first then [] else [ShowWhitespace]) ++ Show e :: show_items false es
  end.

Fixpoint show_loop (fuel : nat) (ctrl : list ShowOp) (out : list piece) : option (list piece) :=
  match fuel with
  | O => None
  | S fuel =>
      match ctrl with
      | [] => Some out
      | Show (EStr s) :: ctrl => show_loop fuel ctrl (out ++ [WStr s])
      | Show (EInt i) :: ctrl => show_loop fuel ctrl (out ++ [WInt i])
      | Show (EFloat x) :: ctrl => show_loop fuel ctrl (out ++ [write_float x])
      | Show (EBool b) :: ctrl => show_loop fuel ctrl (out ++ [WBool b])
      | Show (EIdent v) :: ctrl => show_loop fuel ctrl (out ++ [WIdent v])
      | Show (EList es) :: ctrl =>
          show_loop fuel (show_items true es ++ ShowListEnd :: ctrl) (out ++ [WOpen])
      | Show (ESeq es) :: ctrl =>
          show_loop fuel (show_items true es ++ ShowSeqEnd :: ctrl) (out ++ [WSeqOpen])
      | ShowListEnd :: ctrl => show_loop fuel ctrl (out ++ [WClose])
      | ShowSeqEnd :: ctrl => show_loop fuel ctrl (out ++ [WSeqClose])
      | ShowWhitespace :: ctrl => show_loop fuel ctrl (out ++ [WSpace])
      end
  end.

Definition Expr_fmt (e : Expr) : result EvalError (list piece) :=
  out_of_fuel (Ok <$> show_loop (S (3 * expr_size e)) [Show e] []).

(** ** Structural definitions of the three loops *)

Fixpoint pairwise {E} (f : Expr -> Expr -> result E bool) (xs ys : list Expr) : result E bool :=
  match xs, ys with
  | x :: xs, y :: ys => let? b := f x y in if b then pairwise f xs ys else Ok false
  | _, _ => Ok true
  end.

Fixpoint lexicographic {E} (f : Expr -> Expr -> result E (option comparison))
    (xs ys : list Expr) : result E (option comparison) :=
  match xs, ys with
  | x :: xs, y :: ys =>
      let? o := f x y in
      match o with
      | Some Eq => lexicographic f xs ys
      | _ => Ok o
      end
  | _, _ => Ok (Some Eq)
  end.

Fixpoint equals_ref (a b : Expr) : result EvalError bool :=
  match a, b with
  | EStr a, EStr b => Ok (bool_decide (a = b))
  | EBool a, EBool b => Ok (bool_decide (a = b))
  | EIdent a, EIdent b => Ok (bool_decide (a = b))
  | EInt a, EInt b => Ok (a =? b)
  | EFloat a, EFloat b => Ok (SFeqb a b)
  | ESeq xs, ESeq ys | EList xs, EList ys =>
      if Nat.eqb (length xs) (length ys) then pairwise equals_ref xs ys else Ok false
  | a, b => Err (TypeMismatch a b)
  end.

Fixpoint compare_ref (a b : Expr) : result EvalError (option comparison) :=
  match a, b with
  | EStr a, EStr b => Ok (Some (bytes_compare a b))
  | EBool a, EBool b => Ok (Some (bool_compare a b))
  | EIdent a, EIdent b => Ok (Some (bytes_compare a b))
  | EInt a, EInt b => Ok (Some (a ?= b))
  | EFloat a, EFloat b => Ok (SFcompare a b)
  | ESeq xs, ESeq ys | EList xs, EList ys =>
      match Nat.compare (length xs) (length ys) with
      | Eq => lexicographic compare_ref xs ys
      | c => Ok (Some c)
      end
  | a, b => Err (TypeMismatch a b)
  end.

(** The pieces of a list, separated by spaces. *)
Fixpoint spaced (first : bool) (ps : list (list piece)) : list piece :=
  match ps with
  | [] => []
  | p :: ps => (if first then [] else [WSpace]) ++ p ++ spaced false ps
  end.

Fixpoint pieces (e : Expr) : list piece :=
  match e with
  | EStr s => [WStr s]
  | EInt i => [WInt i]
  | EFloat x => [write_float x]
  | EBool b => [WBool b]
  | EIdent v => [WIdent v]
  | EList es => WOpen :: spaced true (map pieces es) ++ [WClose]
  | ESeq es => WSeqOpen :: spaced true (map pieces es) ++ [WSeqClose]
  end.

(** Induction over expressions with the hypothesis for every element. *)
Lemma Expr_rect' (P : Expr -> Prop) :
  (forall s, P (EStr s)) -> (forall i, P (EInt i)) -> (forall f, P (EFloat f)) ->
  (forall b, P (EBool b)) -> (forall s, P (EIdent s)) ->
  (forall xs, Forall P xs -> P (ESeq xs)) -> (forall xs, Forall P xs -> P (EList xs)) ->
  forall e, P e.
Proof.
  intros H1 H2 H3 H4 H5 H6 H7. fix IH 1. intros [s|i|f|b|s|xs|xs].
  - apply H1.
  - apply H2.
  - apply H3.
  - apply H4.
  - apply H5.
  - apply H6. induction xs as [|x xs IHxs]; constructor; [apply IH|apply IHxs].
  - apply H7. induction xs as [|x xs IHxs]; constructor; [apply IH|apply IHxs].
Qed.

(** ** The loops compute the structural definitions *)

Definition pairs_size (ctrl : list (Expr * Expr)) : nat := list_sum (map (expr_size ∘ fst) ctrl).

Lemma pairs_size_zip xs ys ctrl :
  length xs = length ys ->
  pairs_size (zip xs ys ++ ctrl) = (list_sum (map expr_size xs) + pairs_size ctrl)%nat.
Proof.
  revert ys; induction xs as [|x xs IH]; intros [|y ys]; try done; simpl.
  intros [= Hl]. unfold pairs_size in *. simpl. rewrite IH by done. simpl. lia.
Qed.

Definition pairwise_ref (ctrl : list (Expr * Expr)) : result EvalError bool :=
  pairwise equals_ref ctrl.*1 ctrl.*2.
Definition lexicographic_ref (ctrl : list (Expr * Expr)) : result EvalError (option comparison) :=
  lexicographic compare_ref ctrl.*1 ctrl.*2.

Lemma pairwise_app {E} (f : Expr -> Expr -> result E bool) xs ys xs' ys' :
  length xs = length ys ->
  pairwise f (xs ++ xs') (ys ++ ys') =
  (let? b := pairwise f xs ys in if b then pairwise f xs' ys' else Ok false).
Proof.
  revert ys; induction xs as [|x xs IH]; intros [|y ys]; try done; simpl.
  intros [= Hl]. destruct (f x y) as [[]| |]; simpl; auto.
Qed.

Lemma lexicographic_app {E} (f : Expr -> Expr -> result E (option comparison)) xs ys xs' ys' :
  length xs = length ys ->
  lexicographic f (xs ++ xs') (ys ++ ys') =
  (let? o := lexicographic f xs ys in
   match o with Some Eq => lexicographic f xs' ys' | _ => Ok o end).
Proof.
  revert ys; induction xs as [|x xs IH]; intros [|y ys]; try done; simpl.
  intros [= Hl]. destruct (f x y) as [[[]|]| |]; simpl; auto.
Qed.

Lemma equals_loop_ref fuel ctrl :
  (pairs_size ctrl < fuel)%nat -> equals_loop fuel ctrl = Some (pairwise_ref ctrl).
Proof.
  unfold pairwise_ref.
  revert ctrl; induction fuel as [|fuel IH]; [lia|]; intros [|[a b] ctrl] Hf; [done|].
  assert (Hc : forall c : bool, (c = true -> (pairs_size ctrl < fuel)%nat) ->
    (if c then equals_loop fuel ctrl else Some (Ok false)) =
    Some (if c then pairwise equals_ref ctrl.*1 ctrl.*2 else Ok false)).
  { intros [] Hc; [rewrite IH|]; auto. }
  assert (Hs : forall xs ys, (S (list_sum (map expr_size xs)) + pairs_size ctrl < S fuel)%nat ->
    (if Nat.eqb (length xs) (length ys) then equals_loop fuel (zip xs ys ++ ctrl)
     else Some (Ok false)) =
    Some (let? r := (if Nat.eqb (length xs) (length ys) then pairwise equals_ref xs ys
                     else Ok false) in
          if r then pairwise equals_ref ctrl.*1 ctrl.*2 else Ok false)).
  { intros xs ys Hle. destruct (Nat.eqb_spec (length xs) (length ys)) as [He|]; [|done].
    rewrite IH by (rewrite pairs_size_zip by done; lia).
    rewrite !fmap_app, fst_zip, snd_zip, pairwise_app by lia. done. }
  unfold pairs_size in Hf; simpl in Hf; fold (pairs_size ctrl) in Hf.
  destruct a, b; simpl in *; try done; try (apply Hc; intros; lia); apply Hs; lia.
Qed.

Lemma compare_loop_ref fuel ctrl res :
  (pairs_size ctrl < fuel)%nat -> (ctrl = [] -> res = Some Eq) ->
  compare_loop fuel ctrl res = Some (lexicographic_ref ctrl).
Proof.
  unfold lexicographic_ref.
  revert ctrl res; induction fuel as [|fuel IH]; [lia|]; intros [|[a b] ctrl] res Hf Hr.
  { simpl. by rewrite Hr. }
  assert (Hc : forall o, (pairs_size ctrl < fuel)%nat ->
    match o with Some Eq => compare_loop fuel ctrl o | _ => Some (Ok o) end =
    Some (match o with Some Eq => lexicographic compare_ref ctrl.*1 ctrl.*2 | _ => Ok o end)).
  { intros [[]|] Hc; [rewrite IH|..]; auto. }
  assert (Hs : forall xs ys, (S (list_sum (map expr_size xs)) + pairs_size ctrl < S fuel)%nat ->
    match Nat.compare (length xs) (length ys) with
    | Eq => compare_loop fuel (zip xs ys ++ ctrl) (Some Eq)
    | _ => Some (Ok (Some (Nat.compare (length xs) (length ys)))) end =
    Some (let? o := match Nat.compare (length xs) (length ys) with
                    | Eq => lexicographic compare_ref xs ys | c => Ok (Some c) end in
          match o with Some Eq => lexicographic compare_ref ctrl.*1 ctrl.*2 | _ => Ok o end)).
  { intros xs ys Hle. destruct (Nat.compare_spec (length xs) (length ys)) as [He| |]; [|done..].
    rewrite IH by (rewrite ?pairs_size_zip by done; auto; lia).
    rewrite !fmap_app, fst_zip, snd_zip, lexicographic_app by lia. done. }
  unfold pairs_size in Hf; simpl in Hf; fold (pairs_size ctrl) in Hf.
  pose proof (fun c => Hc (Some c)) as Hc'.
  destruct a, b; simpl in *; try done; first [apply Hc'; lia | apply Hc; lia | apply Hs; lia].
Qed.

Lemma equals_ref_spec a b : Expr_equals a b = equals_ref a b.
Proof.
  unfold Expr_equals. rewrite equals_loop_ref by (unfold pairs_size; simpl; lia).
  unfold pairwise_ref; simpl. by destruct (equals_ref a b) as [[]| |].
Qed.

Lemma compare_ref_spec a b : Expr_compare a b = compare_ref a b.
Proof.
  unfold Expr_compare. rewrite compare_loop_ref by (unfold pairs_size; simpl; lia || done).
  unfold lexicographic_ref; simpl. by destruct (compare_ref a b) as [[[]|]| |].
Qed.

(** An upper bound of the iterations an element of the stack takes. *)
Definition show_weight (o : ShowOp) : nat :=
  match o with
  | Show e => 3 * expr_size e - 1
  | _ => 1
  end.

Lemma show_items_size first es :
  (list_sum (map show_weight (show_items first es)) <= 3 * list_sum (map expr_size es))%nat.
Proof.
  revert first; induction es as [|e es IH]; intros first; [simpl; lia|].
  specialize (IH false). assert (1 <= expr_size e)%nat by (destruct e; simpl; lia).
  unfold list_sum in *. destruct first; cbn [show_items app map fold_right show_weight] in *; lia.
Qed.

Definition show_ref (o : ShowOp) : list piece :=
  match o with
  | Show e => pieces e
  | ShowListEnd => [WClose]
  | ShowSeqEnd => [WSeqClose]
  | ShowWhitespace => [WSpace]
  end.

Lemma show_items_ref first es :
  concat (map show_ref (show_items first es)) = spaced first (map pieces es).
Proof.
  revert first; induction es as [|e es IH]; intros first; simpl; [done|].
  rewrite map_app, concat_app. simpl. rewrite IH. by destruct first.
Qed.

Lemma show_loop_ref fuel ctrl out :
  (list_sum (map show_weight ctrl) < fuel)%nat ->
  show_loop fuel ctrl out = Some (out ++ concat (map show_ref ctrl)).
Proof.
  revert ctrl out; induction fuel as [|fuel IH]; [lia|].
  intros [|[[| | | | |es|es]| | |] ctrl] out Hf; cbn [show_loop map list_sum concat show_ref pieces] in *;
    rewrite ?app_nil_r; [done|..]; try (rewrite IH by (simpl in Hf; lia); by rewrite <- app_assoc);
    (rewrite IH; [rewrite map_app, concat_app, show_items_ref; simpl; by rewrite <- !app_assoc|]);
    rewrite map_app, list_sum_app; pose proof (show_items_size true es); simpl in *; lia.
Qed.

Lemma Expr_fmt_pieces e : Expr_fmt e = Ok (pieces e).
Proof.
  unfold Expr_fmt. rewrite show_loop_ref by (simpl; lia). simpl. by rewrite app_nil_r.
Qed.

(** ** Laws of the comparison *)

(** The comparison of two steps of a chain [a <= b <= c]. *)
Definition join_cmp (o1 o2 : comparison) : comparison :=
  match o1 with Eq => o2 | c => c end.

Class PreorderCmp {A} (cmp : A -> A -> option comparison) := {
  cmp_swap : forall a b, cmp b a = CompOpp <$> cmp a b;
  cmp_trans : forall a b c o1 o2, o1 <> Gt -> o2 <> Gt ->
    cmp a b = Some o1 -> cmp b c = Some o2 -> cmp a c = Some (join_cmp o1 o2)
}.

#[export] Instance bytes_preorder : PreorderCmp (fun a b => Some (bytes_compare a b)).
Proof.
  split.
  - intros a b. simpl. f_equal. revert b; induction a as [|x a IH]; intros [|y b]; simpl; try done.
    rewrite (Z.compare_antisym (byte_val x)). destruct (byte_val x ?= byte_val y); simpl; auto.
  - intros a b c o1 o2 H1 H2 [= <-] [= <-]. f_equal. revert b c H1 H2.
    induction a as [|x a IH]; intros [|y b] [|z c]; simpl; try done.
    destruct (Z.compare_spec (byte_val x) (byte_val y)), (Z.compare_spec (byte_val y) (byte_val z)),
      (Z.compare_spec (byte_val x) (byte_val z)); try done; try lia; [apply IH|].
    by destruct (bytes_compare a b).
Qed.

#[export] Instance bool_preorder : PreorderCmp (fun a b => Some (bool_compare a b)).
Proof.
  split; [by intros [] []|]. intros [] [] [] o1 o2; simpl; intros ? ? [= <-] [= <-]; done.
Qed.

#[export] Instance int_preorder : PreorderCmp (fun a b => Some (a ?= b)).
Proof.
  split; [intros a b; simpl; by rewrite Z.compare_antisym|].
  intros a b c o1 o2 H1 H2 [= <-] [= <-]. f_equal.
  destruct (Z.compare_spec a b), (Z.compare_spec b c), (Z.compare_spec a c); done || lia.
Qed.

Ltac fold_pos_compare :=
  repeat match goal with
    |- context [Pos.compare_cont Eq ?m ?n] => change (Pos.compare_cont Eq m n) with (Pos.compare m n)
  end.

#[export] Instance float_preorder : PreorderCmp SFcompare.
Proof.
  split.
  - intros [[]|[]| |[] m e] [[]|[]| |[] m' e']; simpl; try done; fold_pos_compare;
      rewrite (Z.compare_antisym e), (Pos.compare_antisym m);
      destruct (e ?= e'); simpl; done.
  - intros [[]|[]| |[] m e] [[]|[]| |[] m' e'] [[]|[]| |[] m'' e''] o1 o2; simpl; try done;
      intros H1 H2 [= <-] [= <-]; f_equal; revert H1 H2; try done; fold_pos_compare;
      try (by destruct (e ?= e'), (Pos.compare m m'));
      try (by destruct (e' ?= e''), (Pos.compare m' m''));
      destruct (Z.compare_spec e e'), (Z.compare_spec e' e''), (Z.compare_spec e e'');
      simpl; try done; try lia;
      destruct (Pos.compare_spec m m'), (Pos.compare_spec m' m''), (Pos.compare_spec m m'');
      simpl; done || lia.
Qed.

(** The result of a comparison with its arguments exchanged. *)
Definition swap_result (r : result EvalError (option comparison))
  : result EvalError (option comparison) :=
  match r with
  | Ok o => Ok (CompOpp <$> o)
  | Err (TypeMismatch a b) => Err (TypeMismatch b a)
  | r => r
  end.

Lemma lexicographic_swap xs ys :
  Forall (fun x => forall y, compare_ref y x = swap_result (compare_ref x y)) xs ->
  lexicographic compare_ref ys xs = swap_result (lexicographic compare_ref xs ys).
Proof.
  intros H. revert ys; induction H as [|x xs Hx _ IH]; intros [|y ys]; simpl; try done.
  rewrite Hx. destruct (compare_ref x y) as [[[]|]|[]|]; simpl; auto.
Qed.

Lemma compare_ref_swap a b : compare_ref b a = swap_result (compare_ref a b).
Proof.
  revert b; induction a as [s|i|f|b'|s|xs IH|xs IH] using Expr_rect'; intros [];
    simpl; try done.
  - f_equal. apply (cmp_swap (cmp := fun a b => Some (bytes_compare a b))).
  - f_equal. apply (cmp_swap (cmp := fun a b => Some (a ?= b))).
  - f_equal. apply cmp_swap.
  - f_equal. apply (cmp_swap (cmp := fun a b => Some (bool_compare a b))).
  - f_equal. apply (cmp_swap (cmp := fun a b => Some (bytes_compare a b))).
  - rewrite Nat.compare_antisym. destruct (Nat.compare _ _); simpl; auto using lexicographic_swap.
  - rewrite Nat.compare_antisym. destruct (Nat.compare _ _); simpl; auto using lexicographic_swap.
Qed.

Definition chains (a : Expr) : Prop :=
  forall b c o1 o2, o1 <> Gt -> o2 <> Gt ->
    compare_ref a b = Ok (Some o1) -> compare_ref b c = Ok (Some o2) ->
    compare_ref a c = Ok (Some (join_cmp o1 o2)).

Lemma lexicographic_chains xs ys zs o1 o2 :
  Forall chains xs -> length xs = length ys -> length ys = length zs -> o1 <> Gt -> o2 <> Gt ->
  lexicographic compare_ref xs ys = Ok (Some o1) ->
  lexicographic compare_ref ys zs = Ok (Some o2) ->
  lexicographic compare_ref xs zs = Ok (Some (join_cmp o1 o2)).
Proof.
  intros H. revert ys zs; induction H as [|x xs Hx _ IH]; intros [|y ys] [|z zs]; simpl; try done.
  { intros _ _ _ _ [= <-] [= <-]. done. }
  intros [= Hl1] [= Hl2] G1 G2.
  destruct (compare_ref x y) as [[p|]| |] eqn:Exy; simpl; try done.
  destruct (compare_ref y z) as [[q|]| |] eqn:Eyz; simpl; try (by destruct p).
  pose proof (Hx y z p q) as Hc. rewrite Exy, Eyz in Hc.
  destruct p, q; try (by intros; simplify_eq);
    rewrite Hc by done; simpl; try (by intros; simplify_eq).
  - by apply IH.
  - intros Hl [= <-]. by destruct o1.
Qed.

Lemma nested_chains xs ys zs o1 o2 :
  Forall chains xs -> o1 <> Gt -> o2 <> Gt ->
  match Nat.compare (length xs) (length ys) with
  | Eq => lexicographic compare_ref xs ys | c => Ok (Some c) end = Ok (Some o1) ->
  match Nat.compare (length ys) (length zs) with
  | Eq => lexicographic compare_ref ys zs | c => Ok (Some c) end = Ok (Some o2) ->
  match Nat.compare (length xs) (length zs) with
  | Eq => lexicographic compare_ref xs zs | c => Ok (Some c) end = Ok (Some (join_cmp o1 o2)).
Proof.
  intros H G1 G2.
  destruct (Nat.compare_spec (length xs) (length ys)),
    (Nat.compare_spec (length ys) (length zs)), (Nat.compare_spec (length xs) (length zs));
    try lia; try (by intros; simplify_eq); eauto using lexicographic_chains.
  intros _ [= <-]. by destruct o1.
Qed.

Lemma compare_ref_chains a : chains a.
Proof.
  induction a as [s|i|f|b'|s|xs IH|xs IH] using Expr_rect';
    intros [] [] o1 o2 G1 G2; simpl; try done; eauto using nested_chains.
  all: intros [= H1] [= H2]; f_equal.
  - by apply (cmp_trans (cmp := fun a b => Some (bytes_compare a b)) s s0 s1); [..|f_equal|f_equal].
  - by apply (cmp_trans (cmp := fun a b => Some (a ?= b)) i i0 i1); [..|f_equal|f_equal].
  - by apply (cmp_trans f f0 f1).
  - by apply (cmp_trans (cmp := fun a b => Some (bool_compare a b)) b' b b0); [..|f_equal|f_equal].
  - by apply (cmp_trans (cmp := fun a b => Some (bytes_compare a b)) s s0 s1); [..|f_equal|f_equal].
Qed.

Definition is_equal (o : option comparison) : bool :=
  match o with Some Eq => true | _ => false end.

Lemma pairwise_lexicographic xs ys :
  Forall (fun x => forall y, equals_ref x y = rmap is_equal (compare_ref x y)) xs ->
  pairwise equals_ref xs ys = rmap is_equal (lexicographic compare_ref xs ys).
Proof.
  intros H. revert ys; induction H as [|x xs Hx _ IH]; intros [|y ys]; simpl; try done.
  rewrite Hx. destruct (compare_ref x y) as [[[]|]| |]; simpl; auto.
Qed.

Lemma equals_ref_compare a b : equals_ref a b = rmap is_equal (compare_ref a b).
Proof.
  assert (Hb : forall s t, bool_decide (s = t) = is_equal (Some (bytes_compare s t))).
  { intros s t. pose proof (bytes_compare_eq s t) as He.
    destruct (bytes_compare s t); simpl; rewrite ?bool_decide_eq_true, ?bool_decide_eq_false;
      intuition congruence. }
  revert b; induction a as [s|i|f|b'|s|xs IH|xs IH] using Expr_rect'; intros [];
    unfold rmap; simpl; rewrite ?Hb; try done.
  - by rewrite Z.eqb_compare; destruct (i ?= i0).
  - by destruct b', b.
  - rewrite Nat.eqb_compare. destruct (Nat.compare _ _); simpl; auto using pairwise_lexicographic.
  - rewrite Nat.eqb_compare. destruct (Nat.compare _ _); simpl; auto using pairwise_lexicographic.
Qed.

Lemma compare_ref_no_panic a b : compare_ref a b <> Panic.
Proof.
  assert (Hl : forall xs ys, Forall (fun x => forall y, compare_ref x y <> Panic) xs ->
    lexicographic compare_ref xs ys <> Panic).
  { intros xs ys H. revert ys; induction H as [|x xs Hx _ IH]; intros [|y ys]; simpl; try done.
    specialize (Hx y). destruct (compare_ref x y) as [[[]|]| |]; simpl; auto. }
  revert b; induction a as [s|i|f|b'|s|xs IH|xs IH] using Expr_rect'; intros []; simpl; try done;
    destruct (Nat.compare _ _); auto.
Qed.

Lemma Expr_equals_no_panic a b : Expr_equals a b <> Panic.
Proof.
  rewrite equals_ref_spec, equals_ref_compare. pose proof (compare_ref_no_panic a b).
  by destruct (compare_ref a b).
Qed.

Lemma Expr_compare_no_panic a b : Expr_compare a b <> Panic.
Proof. rewrite compare_ref_spec. apply compare_ref_no_panic. Qed.

(** The two comparisons of policy expressions agree and order them.
    [equals] answers [true] exactly where [compare] answers [Equal], fails
    exactly where it fails, and neither loop panics; comparing in the other direction
    gives the opposite answer (also for the type error); and the strict order
    is transitive, so that the adjacent tests of [(< a b c)] order every pair. *)
Theorem expr_order_laws a b c :
  Expr_compare a b <> Panic /\
  Expr_equals a b = rmap is_equal (Expr_compare a b) /\
  Expr_compare b a = swap_result (Expr_compare a b) /\
  (Expr_compare a b = Ok (Some Lt) -> Expr_compare b c = Ok (Some Lt) ->
   Expr_compare a c = Ok (Some Lt)).
Proof.
  rewrite equals_ref_spec, !compare_ref_spec. repeat split.
  - apply compare_ref_no_panic.
  - apply equals_ref_compare.
  - apply compare_ref_swap.
  - intros H1 H2. by apply (compare_ref_chains a b c Lt Lt).
Qed.

Lemma expr_order_laws_witness :
  let a := ESeq [EInt 1; EStr (str "a")] in
  let b := ESeq [EInt 1; EStr (str "b")] in
  let c := ESeq [EInt 2; EStr (str "a")] in
  Expr_compare a b = Ok (Some Lt) /\ Expr_compare b c = Ok (Some Lt) /\
  Expr_compare a c = Ok (Some Lt).
Proof.
  split; [|split]; [reflexivity|reflexivity|].
  apply (expr_order_laws _ (ESeq [EInt 1; EStr (str "b")])); reflexivity.
Defined.
