(* ===== verification/AbacEval.v ===== *)
(** * Evaluation of policy expressions: [ockam_abac/src/eval.rs] and [env.rs]

    [eval] is the Rust loop: a control stack of operations and an argument
    stack of values, both lists with the top first.  [denote] is what the
    loop is meant to compute, a recursive evaluator; the two agree on
    values and on errors, [eval] never panics, and it diverges exactly where
    [denote] does. *)

From Stdlib Require Import ZArith Lia.
From Stdlib Require Strings.Byte Strings.String.
From stdpp Require Import base gmap list numbers option countable relations.
From S2P Require Import Prelude.
From S2P Require Import AbacExpr.

(** ** [Env] *)

Notation Env := (gmap bytes Expr).

Inductive MergeError := BindingExists (k : bytes).

Definition Env_new : Env := ∅.

Definition Env_get (self : Env) (k : bytes) : result EvalError Expr :=
  ok_or (self !! k) (Unbound k).

Definition Env_contains (self : Env) (k : bytes) : bool := bool_decide (is_Some (self !! k)).

Definition Env_put (k : bytes) (v : Expr) (self : Env) : Env := <[k := v]> self.

Definition Env_del (k : bytes) (self : Env) : Env := delete k self.

(** The loops over [other.0]; [bindings] is the content of the other
    environment in the order of its keys. *)
Fixpoint merge_check (self : Env) (bindings : list (bytes * Expr)) : result MergeError unit :=
  match bindings with
  | [] => Ok tt
  | (k, _) :: rest => if Env_contains self k then Err (BindingExists k) else merge_check self rest
  end.

Definition Env_merge_right (self : Env) (bindings : list (bytes * Expr)) : Env :=
  fold_left (fun e '(k, v) => <[k := v]> e) bindings self.

Definition Env_merge (self : Env) (bindings : list (bytes * Expr)) : result MergeError unit * Env :=
  match merge_check self bindings with
  | Ok _ => (Ok tt, Env_merge_right self bindings)
  | Err e => (Err e, self)
  | Panic => (Panic, self)
  end.

Definition Env_merge_left (self : Env) (bindings : list (bytes * Expr)) : Env :=
  fold_left (fun e '(k, v) => match e !! k with Some _ => e | None => <[k := v]> e end)
    bindings self.

(** ** The machine *)

Inductive Op :=
| OpEval (e : Expr)
| OpAnd (n : nat)
| OpOr (n : nat)
| OpNot
| OpIf
| OpEq (n : nat)
| OpGt (n : nat)
| OpLt (n : nat)
| OpMember
| OpSeq (n : nat).

Definition config : Type := list Op * list Expr.

(** The names the evaluator matches on. *)
Inductive builtin := BAnd | BOr | BNot | BIf | BLt | BGt | BEq | BNe | BMember | BExists.

Definition builtin_of (id : bytes) : option builtin :=
  if bool_decide (id = str "and") then Some BAnd
  else if bool_decide (id = str "or") then Some BOr
  else if bool_decide (id = str "not") then Some BNot
  else if bool_decide (id = str "if") then Some BIf
  else if bool_decide (id = str "<") then Some BLt
  else if bool_decide (id = str ">") then Some BGt
  else if bool_decide (id = str "=") then Some BEq
  else if bool_decide (id = str "!=") then Some BNe
  else if bool_decide (id = str "member?") then Some BMember
  else if bool_decide (id = str "exists?") then Some BExists
  else None.

(** [exists?]: the loop over the arguments, which stops at the first
    identifier that is not bound. *)
Fixpoint eval_exists (env : Env) (xs : list Expr) : result EvalError bool :=
  match xs with
  | [] => Ok true
  | EIdent id :: rest => if Env_contains env id then eval_exists env rest else Ok false
  | other :: _ => Err (InvalidType other (str "'exists?' expects identifiers as arguments"))
  end.

(** The case [Op::Eval(Expr::List(xs))] whose head is an identifier: [xs] are
    the arguments. *)
Definition eval_call (env : Env) (id : bytes) (xs : list Expr) (ctrl : list Op)
    (args : list Expr) : result EvalError config :=
  let nargs := length xs in
  let push ops := Ok (map OpEval xs ++ ops ++ ctrl, args) in
  match builtin_of id with
  | Some BAnd =>
      match xs with
      | [] => Ok (ctrl, EBool true :: args)
      | x :: rest => Ok (OpEval x :: OpAnd (nargs - 1) :: map OpEval rest ++ ctrl, args)
      end
  | Some BOr =>
      match xs with
      | [] => Ok (ctrl, EBool false :: args)
      | x :: rest => Ok (OpEval x :: OpOr (nargs - 1) :: map OpEval rest ++ ctrl, args)
      end
  | Some BNot =>
      if negb (Nat.eqb nargs 1) then Err (Malformed (str "'not' requires one argument"))
      else push [OpNot]
  | Some BIf =>
      match xs with
      | [test; then_; else_] =>
          Ok (OpEval test :: OpIf :: OpEval then_ :: OpEval else_ :: ctrl, args)
      | _ => Err (Malformed (str "'if' requires three arguments"))
      end
  | Some BLt =>
      if Nat.ltb nargs 2 then Err (Malformed (str "'<' requires at least two arguments"))
      else push [OpLt nargs]
  | Some BGt =>
      if Nat.ltb nargs 2 then Err (Malformed (str "'>' requires at least two arguments"))
      else push [OpGt nargs]
  | Some BEq =>
      if Nat.ltb nargs 2 then Err (Malformed (str "'=' requires at least two arguments"))
      else push [OpEq nargs]
  | Some BNe => push [OpEq nargs; OpNot]
  | Some BMember =>
      if negb (Nat.eqb nargs 2) then Err (Malformed (str "'member?' requires two arguments"))
      else push [OpMember]
  | Some BExists => let? b := eval_exists env xs in Ok (ctrl, EBool b :: args)
  | None => Err (Unknown id)
  end.

(** [fn pop]: panics on an empty stack. *)
Definition pop {A} (s : list A) : result EvalError (A * list A) :=
  match s with
  | x :: s => Ok (x, s)
  | [] => Panic
  end.

(** The loop [for _ in 0 .. n { pop(&mut ctrl) }]. *)
Fixpoint pop_n {A} (n : nat) (s : list A) : result EvalError (list A) :=
  match n with
  | O => Ok s
  | S n => let? p := pop s in pop_n n p.2
  end.

(** The predicate on the adjacent pairs, first failure wins. *)
Fixpoint adjacent (f : Expr -> Expr -> result EvalError bool) (xs : list Expr)
  : result EvalError bool :=
  match xs with
  | x :: (y :: _) as rest =>
      let? b := f x y in if b then adjacent f rest else Ok false
  | _ => Ok true
  end.

(** [eval_predicate]: the [n] topmost arguments, oldest first; the
    subtraction [args.len() - n] panics when there are fewer. *)
Definition eval_predicate (n : nat) (args : list Expr)
    (f : Expr -> Expr -> result EvalError bool) : result EvalError (list Expr) :=
  if Nat.ltb (length args) n then Panic
  else let? b := adjacent f (rev (take n args)) in Ok (EBool b :: drop n args).

Definition less_than (x y : Expr) : result EvalError bool :=
  let? o := Expr_compare x y in Ok (bool_decide (o = Some Lt)).
Definition greater_than (x y : Expr) : result EvalError bool :=
  let? o := Expr_compare x y in Ok (bool_decide (o = Some Gt)).

(** The loop of [member?]. *)
Fixpoint member_loop (y : Expr) (xs : list Expr) : result EvalError bool :=
  match xs with
  | [] => Ok false
  | x :: xs => let? b := Expr_equals y x in if b then Ok true else member_loop y xs
  end.

(** One iteration of the loop on the popped operation [x]. *)
Definition eval_op (env : Env) (x : Op) (ctrl : list Op) (args : list Expr)
  : result EvalError config :=
  match x with
  | OpEval (EIdent id) => let? e := Env_get env id in Ok (OpEval e :: ctrl, args)
  | OpEval (EList []) => Ok (ctrl, expr_unit :: args)
  | OpEval (EList (EIdent id :: xs)) => eval_call env id xs ctrl args
  | OpEval (EList (other :: _)) => Err (InvalidType other (str "expected (op ...)"))
  | OpEval (ESeq xs) => Ok (map OpEval xs ++ OpSeq (length xs) :: ctrl, args)
  | OpEval e => Ok (ctrl, e :: args)
  | OpAnd O => Ok (ctrl, args)
  | OpAnd (S n) =>
      let? (v, args) := pop args in
      match v with
      | EBool true => let? (x, ctrl) := pop ctrl in Ok (x :: OpAnd n :: ctrl, args)
      | EBool false => let? ctrl := pop_n (S n) ctrl in Ok (ctrl, EBool false :: args)
      | other => Err (InvalidType other (str "'and' expects boolean arguments"))
      end
  | OpOr O => Ok (ctrl, args)
  | OpOr (S n) =>
      let? (v, args) := pop args in
      match v with
      | EBool false => let? (x, ctrl) := pop ctrl in Ok (x :: OpOr n :: ctrl, args)
      | EBool true => let? ctrl := pop_n (S n) ctrl in Ok (ctrl, EBool true :: args)
      | other => Err (InvalidType other (str "'or' expects boolean arguments"))
      end
  | OpNot =>
      let? (v, args) := pop args in
      match v with
      | EBool b => Ok (ctrl, EBool (negb b) :: args)
      | other => Err (InvalidType other (str "'not' expects boolean arguments"))
      end
  | OpIf =>
      let? (t, ctrl) := pop ctrl in
      let? (f, ctrl) := pop ctrl in
      let? (v, args) := pop args in
      match v with
      | EBool true => Ok (t :: ctrl, args)
      | EBool false => Ok (f :: ctrl, args)
      | other => Err (InvalidType other (str "'if' expects test to evaluate to bool"))
      end
  | OpEq n => let? args := eval_predicate n args Expr_equals in Ok (ctrl, args)
  | OpLt n => let? args := eval_predicate n args less_than in Ok (ctrl, args)
  | OpGt n => let? args := eval_predicate n args greater_than in Ok (ctrl, args)
  | OpMember =>
      let? (s, args) := pop args in
      let? (y, args) := pop args in
      match s with
      | ESeq xs => let? b := member_loop y xs in Ok (ctrl, EBool b :: args)
      | other => Err (InvalidType other (str "'member?' expects sequence as second argument"))
      end
  | OpSeq n =>
      if Nat.ltb (length args) n then Panic
      else Ok (ctrl, ESeq (rev (take n args)) :: drop n args)
  end.

(** The [while let] loop.  [None]: the fuel is spent.  At the end
    [debug_assert_eq!(1, args.len())] and the last [pop]. *)
Fixpoint eval_loop (fuel : nat) (env : Env) (c : config) : option (result EvalError Expr) :=
  match fuel with
  | O => None
  | S fuel =>
      match c with
      | ([], args) => Some (match args with [v] => Ok v | _ => Panic end)
      | (x :: ctrl, args) =>
          match eval_op env x ctrl args with
          | Ok c' => eval_loop fuel env c'
          | Err e => Some (Err e)
          | Panic => Some Panic
          end
      end
  end.

Definition eval (fuel : nat) (expr : Expr) (env : Env) : option (result EvalError Expr) :=
  eval_loop fuel env ([OpEval expr], []).

(** ** The recursive evaluator

    An outcome is [None] (the recursion is deeper than the fuel), an error or
    a value. *)

Definition outcome (A : Type) : Type := option (EvalError + A).

Definition obind {A B} (o : outcome A) (k : A -> outcome B) : outcome B :=
  match o with
  | Some (inr a) => k a
  | Some (inl e) => Some (inl e)
  | None => None
  end.
Definition oret {A} (a : A) : outcome A := Some (inr a).
Definition oerr {A} (e : EvalError) : outcome A := Some (inl e).
Notation "'let^' x ':=' m 'in' k" := (obind m (fun x => k))
  (at level 10, x pattern, m at level 100, k at level 200) : rust_scope.

(** The outcome of a Rust result; a panic has none. *)
Definition lift {A} (r : result EvalError A) : outcome A :=
  match r with
  | Ok a => oret a
  | Err e => oerr e
  | Panic => None
  end.

Definition unlift {A} (r : EvalError + A) : result EvalError A :=
  match r with
  | inr a => Ok a
  | inl e => Err e
  end.

(** Left to right, stopping at the first error. *)
Fixpoint eval_all (ev : Expr -> outcome Expr) (xs : list Expr) : outcome (list Expr) :=
  match xs with
  | [] => oret []
  | x :: xs => let^ v := ev x in let^ vs := eval_all ev xs in oret (v :: vs)
  end.

(** [and] ([stop = false]) and [or] ([stop = true]): left to right, the first
    argument equal to [stop] is the result and the rest is not evaluated; the
    value of the last argument is the result, whatever its type. *)
Fixpoint eval_chain (stop : bool) (msg : bytes) (ev : Expr -> outcome Expr) (x : Expr)
    (xs : list Expr) : outcome Expr :=
  match xs with
  | [] => ev x
  | y :: ys =>
      let^ v := ev x in
      match v with
      | EBool b => if Bool.eqb b stop then oret (EBool stop) else eval_chain stop msg ev y ys
      | other => oerr (InvalidType other msg)
      end
  end.

Definition predicate (ev : Expr -> outcome Expr) (f : Expr -> Expr -> result EvalError bool)
    (xs : list Expr) : outcome bool :=
  let^ vs := eval_all ev xs in lift (adjacent f vs).

Definition apply_builtin (env : Env) (ev : Expr -> outcome Expr) (b : builtin)
    (xs : list Expr) : outcome Expr :=
  let at_least_two name f :=
    match xs with
    | _ :: _ :: _ => let^ b := predicate ev f xs in oret (EBool b)
    | _ => oerr (Malformed (str "'" ++ str name ++ str "' requires at least two arguments"))
    end in
  match b, xs with
  | BAnd, [] => oret (EBool true)
  | BAnd, x :: xs => eval_chain false (str "'and' expects boolean arguments") ev x xs
  | BOr, [] => oret (EBool false)
  | BOr, x :: xs => eval_chain true (str "'or' expects boolean arguments") ev x xs
  | BNot, [x] =>
      let^ v := ev x in
      match v with
      | EBool b => oret (EBool (negb b))
      | other => oerr (InvalidType other (str "'not' expects boolean arguments"))
      end
  | BNot, _ => oerr (Malformed (str "'not' requires one argument"))
  | BIf, [test; t; f] =>
      let^ v := ev test in
      match v with
      | EBool b => ev (if b then t else f)
      | other => oerr (InvalidType other (str "'if' expects test to evaluate to bool"))
      end
  | BIf, _ => oerr (Malformed (str "'if' requires three arguments"))
  | BLt, _ => at_least_two "<"%string less_than
  | BGt, _ => at_least_two ">"%string greater_than
  | BEq, _ => at_least_two "="%string Expr_equals
  | BNe, _ => let^ b := predicate ev Expr_equals xs in oret (EBool (negb b))
  | BMember, [y; s] =>
      let^ y := ev y in
      let^ s := ev s in
      match s with
      | ESeq vs => let^ b := lift (member_loop y vs) in oret (EBool b)
      | other => oerr (InvalidType other (str "'member?' expects sequence as second argument"))
      end
  | BMember, _ => oerr (Malformed (str "'member?' requires two arguments"))
  | BExists, _ => let^ b := lift (eval_exists env xs) in oret (EBool b)
  end.

Fixpoint denote (fuel : nat) (env : Env) (e : Expr) : outcome Expr :=
  match fuel with
  | O => None
  | S fuel =>
      match e with
      | EIdent id => let^ e := lift (Env_get env id) in denote fuel env e
      | EList [] => oret expr_unit
      | EList (EIdent id :: xs) =>
          match builtin_of id with
          | Some b => apply_builtin env (denote fuel env) b xs
          | None => oerr (Unknown id)
          end
      | EList (other :: _) => oerr (InvalidType other (str "expected (op ...)"))
      | ESeq xs => let^ vs := eval_all (denote fuel env) xs in oret (ESeq vs)
      | e => oret e
      end
  end.

(** ** The machine computes the recursive evaluator *)

Section Machine.
Context (env : Env).

Definition mstep (c c' : config) : Prop :=
  match c with
  | (x :: ctrl, args) => eval_op env x ctrl args = Ok c'
  | _ => False
  end.

Definition mfails (c : config) (e : EvalError) : Prop :=
  exists x ctrl args, rtc mstep c (x :: ctrl, args) /\ eval_op env x ctrl args = Err e.

(** From [s] the machine does what the outcome [o] says: it reaches the
    configuration [k v], fails with the error, or runs for more than [m]
    iterations. *)
Definition behaves {A} (m : nat) (o : outcome A) (s : config) (k : A -> config) : Prop :=
  match o with
  | Some (inr v) => rtc mstep s (k v)
  | Some (inl e) => mfails s e
  | None => eval_loop m env s = None
  end.

Lemma loop_step n c c' : mstep c c' -> eval_loop (S n) env c = eval_loop n env c'.
Proof. destruct c as [[|x ctrl] args]; simpl; [done|]. by intros ->. Qed.

Lemma loop_mono n n' c r :
  eval_loop n env c = Some r -> n <= n' -> eval_loop n' env c = Some r.
Proof.
  revert n' c; induction n as [|n IH]; intros [|n'] [[|x ctrl] args]; simpl; try done; try lia.
  intros H ?. destruct (eval_op env x ctrl args); auto. apply IH; auto with lia.
Qed.

Lemma loop_none_anti n n' c : eval_loop n env c = None -> n' <= n -> eval_loop n' env c = None.
Proof.
  intros H Hn. destruct (eval_loop n' env c) eqn:E; [|done].
  by rewrite (loop_mono _ _ _ _ E Hn) in H.
Qed.

Lemma rtc_none m c c' : rtc mstep c c' -> eval_loop m env c' = None -> eval_loop m env c = None.
Proof.
  induction 1 as [|c c1 c' Hs _ IH]; [done|]. intros H. destruct m as [|m]; [done|].
  rewrite (loop_step _ _ _ Hs). apply (loop_none_anti (S m)); auto with lia.
Qed.

Lemma rtc_some n c c' r :
  rtc mstep c c' -> eval_loop n env c' = Some r -> exists n', eval_loop n' env c = Some r.
Proof.
  induction 1 as [|c c1 c' Hs _ IH]; [by exists n|]. intros [n' H]%IH.
  exists (S n'). by rewrite (loop_step _ _ _ Hs).
Qed.

Lemma rtc_fails c c' e : rtc mstep c c' -> mfails c' e -> mfails c e.
Proof. intros H (x & ctrl & args & Hr & He). exists x, ctrl, args. split; [by etrans|done]. Qed.

Lemma behaves_rtc {A} m (o : outcome A) s s' k :
  rtc mstep s s' -> behaves m o s' k -> behaves m o s k.
Proof. destruct o as [[]|]; simpl; eauto using rtc_fails, rtc_none. intros. by etrans. Qed.

Lemma behaves_step {A} m (o : outcome A) s s' k :
  mstep s s' -> behaves m o s' k -> behaves m o s k.
Proof. intros H. apply behaves_rtc. by apply rtc_once. Qed.

(** The step that starts the evaluation of a node pays for one level of the
    recursion. *)
Lemma behaves_enter {A} m (o : outcome A) s s' k :
  mstep s s' -> behaves m o s' k -> behaves (S m) o s k.
Proof.
  intros Hs. destruct o as [[]|]; unfold behaves.
  - apply rtc_fails. by apply rtc_once.
  - by apply rtc_l.
  - by rewrite (loop_step _ _ _ Hs).
Qed.

Lemma behaves_err {A} m (o : outcome A) x ctrl args k e :
  o = oerr e -> eval_op env x ctrl args = Err e -> behaves m o (x :: ctrl, args) k.
Proof. intros -> H. exists x, ctrl, args. split; [apply rtc_refl|done]. Qed.

Lemma behaves_done {A} m (v : A) s k : mstep s (k v) -> behaves m (oret v) s k.
Proof. intros H. by apply rtc_once. Qed.

Lemma behaves_bind {A B} m (o : outcome A) (f : A -> outcome B) s k k' :
  behaves m o s k -> (forall v, o = oret v -> behaves m (f v) (k v) k') ->
  behaves m (obind o f) s k'.
Proof.
  destruct o as [[e|v]|]; simpl; auto. intros H Hf. by apply (behaves_rtc _ _ _ (k v)), Hf.
Qed.

Lemma eval_all_length ev xs vs : eval_all ev xs = oret vs -> length vs = length xs.
Proof.
  revert vs; induction xs as [|x xs IH]; intros vs; simpl; [by intros [= <-]|].
  destruct (ev x) as [[|v]|]; simpl; try done.
  destruct (eval_all ev xs) as [[|vs']|]; simpl; try done.
  intros [= <-]. simpl. f_equal. by apply IH.
Qed.

Lemma pop_n_map xs (c : list Op) : pop_n (length xs) (map OpEval xs ++ c) = Ok c.
Proof. induction xs as [|x xs IH]; simpl; auto. Qed.

Lemma adjacent_no_panic f xs : (forall x y, f x y <> Panic) -> adjacent f xs <> Panic.
Proof.
  intros Hf. induction xs as [|x [|y ys] IH]; simpl; try done.
  specialize (Hf x y). destruct (f x y) as [[]| |]; simpl; auto.
Qed.

Lemma member_no_panic y xs : member_loop y xs <> Panic.
Proof.
  induction xs as [|x xs IH]; simpl; try done.
  pose proof (Expr_equals_no_panic y x). destruct (Expr_equals y x) as [[]| |]; simpl; auto.
Qed.

Lemma exists_no_panic xs : eval_exists env xs <> Panic.
Proof. induction xs as [|[] xs IH]; simpl; try done. by destruct (Env_contains env s). Qed.

Lemma less_no_panic x y : less_than x y <> Panic.
Proof. unfold less_than. pose proof (Expr_compare_no_panic x y). by destruct (Expr_compare x y). Qed.

Lemma greater_no_panic x y : greater_than x y <> Panic.
Proof.
  unfold greater_than. pose proof (Expr_compare_no_panic x y). by destruct (Expr_compare x y).
Qed.

Lemma eval_predicate_rev n vs args f :
  n = length vs ->
  eval_predicate n (rev vs ++ args) f = (let? b := adjacent f vs in Ok (EBool b :: args)).
Proof.
  intros ->. unfold eval_predicate.
  rewrite (proj2 (Nat.ltb_ge _ _)) by (rewrite length_app, length_rev; lia).
  rewrite <- (length_rev vs), take_app_length, drop_app_length, rev_involutive. done.
Qed.

(** What holds of the machine on the sub-expressions holds of it on lists of
    them, on the lazy chains and on every builtin. *)
Section Node.
Context (m : nat) (ev : Expr -> outcome Expr).
Hypothesis IH : forall e c a, behaves m (ev e) (OpEval e :: c, a) (fun v => (c, v :: a)).

Lemma all_behaves xs c a :
  behaves m (eval_all ev xs) (map OpEval xs ++ c, a) (fun vs => (c, rev vs ++ a)).
Proof.
  revert a; induction xs as [|x xs IHxs]; intros a; simpl; [apply rtc_refl|].
  eapply behaves_bind; [apply IH|]. intros v _. simpl.
  eapply behaves_bind; [apply IHxs|]. intros vs _. simpl.
  rewrite <- app_assoc. apply rtc_refl.
Qed.

Definition chain_op (stop : bool) (n : nat) : Op := if stop then OpOr n else OpAnd n.
Definition chain_msg (stop : bool) : bytes :=
  if stop then str "'or' expects boolean arguments" else str "'and' expects boolean arguments".

Lemma chain_step stop v n c a :
  eval_op env (chain_op stop (S n)) c (v :: a) =
  match v with
  | EBool b =>
      if Bool.eqb b stop then let? c := pop_n (S n) c in Ok (c, EBool stop :: a)
      else let? (x, c) := pop c in Ok (x :: chain_op stop n :: c, a)
  | other => Err (InvalidType other (chain_msg stop))
  end.
Proof. by destruct stop, v as [| | |[]| | |]. Qed.

Lemma chain_behaves stop x xs c a :
  behaves m (eval_chain stop (chain_msg stop) ev x xs)
    (OpEval x :: chain_op stop (length xs) :: map OpEval xs ++ c, a) (fun v => (c, v :: a)).
Proof.
  revert x a; induction xs as [|y ys IHys]; intros x a; cbn [eval_chain].
  { eapply behaves_rtc; [apply rtc_refl|]. rewrite <- (app_nil_l (c)).
    assert (H : behaves m (let^ v := ev x in oret v)
      (OpEval x :: chain_op stop 0 :: c, a) (fun v => (c, v :: a))).
    { eapply behaves_bind; [apply IH|]. intros v _. apply behaves_done. by destruct stop. }
    by destruct (ev x) as [[]|]. }
  eapply behaves_bind; [apply IH|]. intros v _.
  pose proof (chain_step stop v (length ys) (map OpEval (y :: ys) ++ c) a) as Hs.
  destruct v as [| | |b| | |]; try (eapply behaves_err; [done|exact Hs]).
  destruct (Bool.eqb b stop).
  - apply behaves_done. simpl in Hs. rewrite pop_n_map in Hs. exact Hs.
  - eapply behaves_step; [exact Hs|]. apply IHys.
Qed.

Lemma obind_assoc {A B C} (o : outcome A) (f : A -> outcome B) (g : B -> outcome C) :
  obind (obind o f) g = obind o (fun a => obind (f a) g).
Proof. by destruct o as [[]|]. Qed.

Lemma predicate_behaves op f xs c a :
  (forall x y, f x y <> Panic) ->
  (forall args, eval_op env op c args =
    (let? args := eval_predicate (length xs) args f in Ok (c, args))) ->
  behaves m (let^ b := predicate ev f xs in oret (EBool b)) (map OpEval xs ++ op :: c, a)
    (fun v => (c, v :: a)).
Proof.
  intros Hf Hop. unfold predicate. rewrite obind_assoc.
  assert (Hb : forall vs, adjacent f vs <> Panic) by (intros; by apply adjacent_no_panic).
  eapply behaves_bind; [apply all_behaves|]. intros vs Hvs%eval_all_length. specialize (Hb vs).
  pose proof (Hop (rev vs ++ a)) as H. rewrite eval_predicate_rev in H by done.
  destruct (adjacent f vs) as [b|e|]; [..|done].
  - by apply behaves_done.
  - by eapply behaves_err.
Qed.

Lemma call_error (e : EvalError) id xs c a :
  eval_call env id xs c a = Err e ->
  behaves (A := Expr) (S m) (oerr e) (OpEval (EList (EIdent id :: xs)) :: c, a)
    (fun v => (c, v :: a)).
Proof. intros H. by eapply behaves_err. Qed.

(** The comparison operators check that there are two arguments. *)
Lemma comparison_behaves id op f msg xs c a :
  (forall x y, f x y <> Panic) ->
  (forall args, eval_op env op c args =
    (let? args := eval_predicate (length xs) args f in Ok (c, args))) ->
  eval_call env id xs c a =
    (if Nat.ltb (length xs) 2 then Err (Malformed msg) else Ok (map OpEval xs ++ op :: c, a)) ->
  behaves (S m)
    (match xs with
     | _ :: _ :: _ => let^ b := predicate ev f xs in oret (EBool b)
     | _ => oerr (Malformed msg)
     end) (OpEval (EList (EIdent id :: xs)) :: c, a) (fun v => (c, v :: a)).
Proof.
  intros Hf Hop Hc. destruct xs as [|x [|y ys]]; [by apply call_error..|].
  eapply behaves_enter; [exact Hc|]. by apply predicate_behaves.
Qed.

Lemma call_behaves id b xs c a :
  builtin_of id = Some b ->
  behaves (S m) (apply_builtin env ev b xs) (OpEval (EList (EIdent id :: xs)) :: c, a)
    (fun v => (c, v :: a)).
Proof.
  intros Hb.
  assert (Hc : eval_call env id xs c a = eval_call env id xs c a) by done.
  unfold eval_call in Hc at 2. rewrite Hb in Hc. destruct b; cbn [apply_builtin].
  - destruct xs as [|x xs]; [apply behaves_done; exact Hc|]. eapply behaves_enter; [exact Hc|].
    simpl. rewrite Nat.sub_0_r. apply (chain_behaves false).
  - destruct xs as [|x xs]; [apply behaves_done; exact Hc|]. eapply behaves_enter; [exact Hc|].
    simpl. rewrite Nat.sub_0_r. apply (chain_behaves true).
  - destruct xs as [|x [|y ys]]; [apply call_error; exact Hc| |apply call_error; exact Hc].
    eapply behaves_enter; [exact Hc|]. eapply behaves_bind; [apply IH|]. intros v _.
    destruct v; try (by eapply behaves_err). by apply behaves_done.
  - destruct xs as [|x [|y [|z [|? ?]]]]; try (apply call_error; exact Hc).
    eapply behaves_enter; [exact Hc|]. eapply behaves_bind; [apply IH|]. intros v _.
    destruct v as [| | |b'| | |]; try (by eapply behaves_err).
    destruct b'; (eapply behaves_step; [reflexivity|apply IH]).
  - by apply (comparison_behaves _ (OpLt (length xs))); [apply less_no_panic| |exact Hc].
  - by apply (comparison_behaves _ (OpGt (length xs))); [apply greater_no_panic| |exact Hc].
  - by apply (comparison_behaves _ (OpEq (length xs))); [apply Expr_equals_no_panic| |exact Hc].
  - eapply behaves_enter; [exact Hc|].
    assert (Hr : (let^ b := predicate ev Expr_equals xs in oret (EBool (negb b))) =
      (let^ v := (let^ b := predicate ev Expr_equals xs in oret (EBool b)) in
       match v with EBool b => oret (EBool (negb b)) | v => oret v end)).
    { by destruct (predicate _ _ _) as [[]|]. }
    rewrite Hr. eapply behaves_bind.
    { apply (predicate_behaves (OpEq (length xs))); [apply Expr_equals_no_panic|done]. }
    intros v Hv. destruct (predicate ev Expr_equals xs) as [[|b]|]; simplify_eq/=.
    by apply behaves_done.
  - destruct xs as [|x [|y [|? ?]]]; try (apply call_error; exact Hc).
    eapply behaves_enter; [exact Hc|]. eapply behaves_bind; [apply IH|]. intros v _.
    eapply behaves_bind; [apply IH|]. intros s _.
    destruct s as [| | | | |vs|]; try (by eapply behaves_err).
    assert (Ho : eval_op env OpMember c (ESeq vs :: v :: a) =
      (let? b := member_loop v vs in Ok (c, EBool b :: a))) by done.
    pose proof (member_no_panic v vs). destruct (member_loop v vs); [..|done].
    + by apply behaves_done.
    + by eapply behaves_err.
  - pose proof (exists_no_panic xs). destruct (eval_exists env xs); [..|done].
    + apply behaves_done; exact Hc.
    + apply call_error; exact Hc.
Qed.

End Node.

Lemma eval_behaves m e c a :
  behaves m (denote m env e) (OpEval e :: c, a) (fun v => (c, v :: a)).
Proof.
  revert e c a; induction m as [|m IH]; intros e c a; [done|]. cbn [denote].
  destruct e as [| | | |id|xs|[|[| | | |id| |] xs]]; try (by apply behaves_done);
    try (by eapply behaves_err).
  - destruct (Env_get env id) as [e|er|] eqn:He.
    + eapply behaves_enter; [|apply IH]. simpl. by rewrite He.
    + eapply behaves_err; [done|]. simpl. by rewrite He.
    + unfold Env_get in He. by destruct (env !! id).
  - eapply behaves_enter; [done|].
    eapply behaves_bind; [apply (all_behaves _ _ IH)|]. intros vs Hvs%eval_all_length.
    apply behaves_done. unfold mstep. cbn [eval_op].
    rewrite (proj2 (Nat.ltb_ge _ _)) by (rewrite length_app, length_rev; lia).
    rewrite <- Hvs, <- (length_rev vs), take_app_length, drop_app_length, rev_involutive. done.
  - destruct (builtin_of id) as [b|] eqn:Hb; [by apply call_behaves|].
    eapply behaves_err; [done|]. simpl. unfold eval_call. by rewrite Hb.
Qed.

Lemma fails_loop c e : mfails c e -> exists n, eval_loop n env c = Some (Err e).
Proof.
  intros (x & ctrl & args & Hr & He). apply (rtc_some 1 _ _ _ Hr). simpl. by rewrite He.
Qed.

Lemma denote_eval n e v : denote n env e = Some v -> exists k, eval k e env = Some (unlift v).
Proof.
  intros Hd. pose proof (eval_behaves n e [] []) as H. rewrite Hd in H. destruct v as [er|v].
  - by apply fails_loop.
  - by apply (rtc_some 1 _ _ _ H).
Qed.

Lemma eval_denote n e r : eval n e env = Some r -> exists v, denote n env e = Some v /\ r = unlift v.
Proof.
  intros He. destruct (denote n env e) as [v|] eqn:Hd.
  - exists v. split; [done|]. destruct (denote_eval _ _ _ Hd) as [k Hk].
    apply (loop_mono _ (Nat.max n k)) in He; [|lia].
    apply (loop_mono _ (Nat.max n k)) in Hk; [|lia]. rewrite He in Hk. by injection Hk.
  - pose proof (eval_behaves n e [] []) as H. rewrite Hd in H.
    unfold behaves in H. unfold eval in He. by rewrite H in He.
Qed.

End Machine.

(** ** More fuel never changes an outcome *)

Definition refines {A} (o o' : outcome A) : Prop := forall r, o = Some r -> o' = Some r.

Lemma refines_refl {A} (o : outcome A) : refines o o.
Proof. by intros r. Qed.

Lemma refines_bind {A B} (o o' : outcome A) (f f' : A -> outcome B) :
  refines o o' -> (forall v, refines (f v) (f' v)) -> refines (obind o f) (obind o' f').
Proof.
  intros Ho Hf. destruct o as [[e|v]|]; simpl; [..|by intros].
  - rewrite (Ho _ eq_refl). apply refines_refl.
  - rewrite (Ho _ eq_refl). apply Hf.
Qed.

#[local] Hint Resolve refines_refl refines_bind : ockam.

Section Refines.
Context (ev ev' : Expr -> outcome Expr).
Hypothesis Hev : forall e, refines (ev e) (ev' e).

Lemma all_refines xs : refines (eval_all ev xs) (eval_all ev' xs).
Proof. induction xs as [|x xs IH]; simpl; auto with ockam. Qed.

Lemma chain_refines stop msg x xs :
  refines (eval_chain stop msg ev x xs) (eval_chain stop msg ev' x xs).
Proof.
  revert x; induction xs as [|y ys IH]; intros x; simpl; [apply Hev|].
  apply refines_bind; [apply Hev|]. intros []; auto with ockam.
  destruct (Bool.eqb _ _); auto with ockam.
Qed.

Lemma predicate_refines f xs : refines (predicate ev f xs) (predicate ev' f xs).
Proof. apply refines_bind; auto using all_refines with ockam. Qed.

Lemma builtin_refines env b xs :
  refines (apply_builtin env ev b xs) (apply_builtin env ev' b xs).
Proof.
  destruct b, xs as [|x [|y [|z [|? ?]]]]; cbn [apply_builtin];
    repeat first [ apply refines_refl | apply chain_refines | apply predicate_refines | apply Hev
                 | apply refines_bind | case_match | intros ? ].
Qed.
End Refines.

Lemma denote_mono n n' env e : n <= n' -> refines (denote n env e) (denote n' env e).
Proof.
  revert n' e; induction n as [|n IH]; intros [|n'] e Hn; try lia; [done..|]. cbn [denote].
  assert (Hd : forall e, refines (denote n env e) (denote n' env e)) by (intros; apply IH; lia).
  destruct e as [| | | |id|xs|[|[| | | |id| |] xs]]; auto with ockam.
  - apply refines_bind; [by apply all_refines|]. auto with ockam.
  - destruct (builtin_of id); auto using builtin_refines with ockam.
Qed.

(** ** Termination on environments without cycles *)

Fixpoint idents (e : Expr) : list bytes :=
  match e with
  | EIdent i => [i]
  | ESeq xs | EList xs => concat (map idents xs)
  | _ => []
  end.

(** The bindings refer to each other only downwards along [rk]. *)
Definition ranked (rk : bytes -> nat) (env : Env) : Prop :=
  forall k e i, env !! k = Some e -> i ∈ idents e -> rk i < rk k.

Section Total.
Context (ev : Expr -> outcome Expr).

Lemma all_total xs : Forall (fun x => ev x <> None) xs -> eval_all ev xs <> None.
Proof.
  induction 1 as [|x xs Hx _ IH]; simpl; [done|].
  destruct (ev x) as [[]|], (eval_all ev xs) as [[]|]; done.
Qed.

Lemma chain_total stop msg x xs :
  Forall (fun x => ev x <> None) (x :: xs) -> eval_chain stop msg ev x xs <> None.
Proof.
  revert x; induction xs as [|y ys IH]; intros x [Hx Hxs]%list.Forall_cons; simpl; [done|].
  destruct (ev x) as [[|[| | |b| | |]]|]; simpl; try done.
  destruct (Bool.eqb b stop); auto.
Qed.

Lemma predicate_total f xs :
  (forall x y, f x y <> Panic) -> Forall (fun x => ev x <> None) xs -> predicate ev f xs <> None.
Proof.
  intros Hf Hxs%all_total. unfold predicate. destruct (eval_all ev xs) as [[|vs]|]; simpl; try done.
  pose proof (adjacent_no_panic f vs Hf). by destruct (adjacent f vs).
Qed.

Lemma bind_total {A B} (o : outcome A) (f : A -> outcome B) :
  o <> None -> (forall v, f v <> None) -> obind o f <> None.
Proof. intros Ho Hf. destruct o as [[]|]; simpl; auto. Qed.

Lemma builtin_total env b xs :
  Forall (fun x => ev x <> None) xs -> apply_builtin env ev b xs <> None.
Proof.
  intros H. pose proof (exists_no_panic env xs) as He.
  destruct b; cbn [apply_builtin].
  1,2: destruct xs; [done|by apply chain_total].
  1,2,7: destruct xs as [|x [|y [|z [|? ?]]]]; try done; decompose_Forall_hyps;
    apply bind_total; [done|]; intros v; try (by destruct v as [| | |[]| | |]).
  - apply bind_total; [done|]. intros s. destruct s; try done.
    pose proof (member_no_panic v xs). by destruct (member_loop v xs).
  - destruct xs as [|x [|y ys]]; try done. apply bind_total; [|done].
    apply predicate_total; auto using less_no_panic.
  - destruct xs as [|x [|y ys]]; try done. apply bind_total; [|done].
    apply predicate_total; auto using greater_no_panic.
  - destruct xs as [|x [|y ys]]; try done. apply bind_total; [|done].
    apply predicate_total; auto using Expr_equals_no_panic.
  - apply bind_total; [|done]. apply predicate_total; auto using Expr_equals_no_panic.
  - by destruct (eval_exists env xs).
Qed.
End Total.

Lemma common_fuel env xs :
  Forall (fun x => exists n, denote n env x <> None) xs ->
  exists n, Forall (fun x => denote n env x <> None) xs.
Proof.
  induction 1 as [|x xs [n Hn] _ [n' Hn']]; [by exists 0|].
  exists (Nat.max n n'). constructor.
  - destruct (denote n env x) as [r|] eqn:E; [|done].
    by rewrite (denote_mono n (Nat.max n n') env x ltac:(lia) r E).
  - eapply list.Forall_impl; [exact Hn'|]. intros y Hy.
    destruct (denote n' env y) as [r|] eqn:E; [|done].
    by rewrite (denote_mono n' (Nat.max n n') env y ltac:(lia) r E).
Qed.

Lemma idents_elem xs i : i ∈ concat (map idents xs) <-> exists x, x ∈ xs /\ i ∈ idents x.
Proof.
  induction xs as [|x xs IH]; simpl; [set_solver|].
  rewrite elem_of_app, IH. setoid_rewrite elem_of_cons. naive_solver.
Qed.

(** Expressions whose identifiers are ranked below [r]. *)
Lemma denote_below rk env r e :
  ranked rk env -> (forall i, i ∈ idents e -> rk i < r) -> exists n, denote n env e <> None.
Proof.
  intros Hrk. revert e; induction r as [r IHr] using lt_wf_ind.
  induction e as [s|i|f|b|id|xs IH|xs IH] using Expr_rect'; intros Hi; try (by exists 1).
  - destruct (env !! id) as [e|] eqn:He.
    + destruct (IHr (rk id)) with (e := e) as [n Hn].
      { apply Hi. simpl. set_solver. }
      { intros i Hie. by apply (Hrk id e). }
      exists (S n). simpl. unfold Env_get. by rewrite He.
    + exists 1. simpl. unfold Env_get. by rewrite He.
  - destruct (common_fuel env xs) as [n Hn].
    { rewrite list.Forall_forall in IH |- *. intros x Hx. apply IH; [done|].
      intros i Hix. apply Hi. apply idents_elem. eauto. }
    exists (S n). cbn [denote]. apply bind_total; [by apply all_total|done].
  - destruct xs as [|x xs]; [by exists 1|].
    destruct x as [| | | |id| |]; try (by exists 1).
    destruct (common_fuel env xs) as [n Hn].
    { apply list.Forall_cons in IH as [_ IH].
      rewrite list.Forall_forall in IH |- *. intros x Hx. apply IH; [done|].
      intros i Hix. apply Hi. apply idents_elem. exists x. set_solver. }
    exists (S n). cbn [denote]. destruct (builtin_of id); [by apply builtin_total|done].
Qed.

Lemma denote_total rk env e : ranked rk env -> exists n v, denote n env e = Some v.
Proof.
  intros Hrk.
  destruct (denote_below rk env (S (list_max (map rk (idents e)))) e Hrk) as [n Hn].
  { intros i Hi. apply Nat.lt_succ_r.
    pose proof (proj1 (list_max_le (map rk (idents e)) _) (Nat.le_refl _)) as H.
    rewrite list.Forall_forall in H. apply H. apply list_elem_of_In, in_map.
    by apply list_elem_of_In. }
  exists n. destruct (denote n env e) as [v|]; [by exists v|done].
Qed.

(** ** Claims *)

(** C33: the stack machine of [eval] implements the recursive evaluator.  The
    loop ends with [r] if and only if the recursive evaluator ends, and
    [r] is then its value or its error; in particular the argument and
    control stacks never underflow, no subtraction of [usize] wraps, the
    final [debug_assert] holds and the loop never panics, while [and], [or]
    and [if] evaluate exactly the arguments they need. *)
Theorem eval_refines_denote env e r :
  (exists n, eval n e env = Some r) <-> (exists n v, denote n env e = Some v /\ r = unlift v).
Proof.
  split.
  - intros [n Hn]. exists n. by apply eval_denote.
  - intros (n & v & Hd & ->). by apply (denote_eval env n).
Qed.

(** C38: evaluation ends for every expression, with a value or an error and
    never with a panic, when the bindings of the environment do not refer to
    each other in a cycle. *)
Theorem eval_terminates rk env e :
  ranked rk env -> exists n v, eval n e env = Some (unlift v).
Proof.
  intros Hrk. destruct (denote_total rk env e Hrk) as (n & v & Hd).
  destruct (denote_eval env n e v Hd) as [k Hk]. by exists k, v.
Qed.

Definition sample_env : Env :=
  <[str "subject.role" := EStr (str "admin")]>
  (<[str "role" := EIdent (str "subject.role")]> ∅).

Lemma eval_terminates_witness :
  (exists n v, eval n (expr_eq [EIdent (str "role"); EStr (str "admin")]) sample_env
     = Some (unlift v)) /\
  eval 7 (expr_eq [EIdent (str "role"); EStr (str "admin")]) sample_env = Some (Ok (EBool true)).
Proof.
  split; [|vm_compute; reflexivity].
  apply (eval_terminates (fun k => if bool_decide (k = str "role") then 1 else 0)).
  unfold sample_env. intros k e i [[<- <-]|[_ [[<- <-]|[_ H]]%lookup_insert_Some]]%lookup_insert_Some Hi;
    [by apply elem_of_nil in Hi| |by rewrite lookup_empty in H].
  apply list_elem_of_singleton in Hi as ->. apply Nat.ltb_lt. vm_compute. reflexivity.
Defined.

(** The condition is needed: a binding that refers to itself makes
    [eval] loop forever, whatever the number of iterations allowed. *)
Theorem eval_cycle_diverges x n : eval n (EIdent x) (<[x := EIdent x]> ∅) = None.
Proof.
  unfold eval. induction n as [|n IH]; [done|]. cbn [eval_loop eval_op].
  unfold Env_get. by rewrite lookup_insert_eq.
Qed.
