(* ===== verification/AbacParser.v ===== *)
(** * The policy parser: [ockam_abac/src/parser.rs]

    [parse] works on the token sequence of the [wast] lexer with a control
    stack.  The lexer is third-party code: its output, a list of tokens
    that may end in a lexer error, is the argument of [parse].  The
    conversions of the standard library the parser calls
    ([i64::from_str_radix], [f64::from_str], [str::from_utf8]) are modelled. *)

From Stdlib Require Import ZArith Lia Floats.SpecFloat.
From Stdlib Require Strings.Byte Strings.String.
From stdpp Require Import base list numbers option countable.
From S2P Require Import Prelude.
From S2P Require Import RustStr.
From S2P Require Import AbacExpr.

Local Open Scope Z_scope.

(** ** Numbers *)

Inductive ParseIntError := PEmpty | PInvalidDigit | PPosOverflow | PNegOverflow.

Definition i64_min : Z := - 2 ^ 63.
Definition i64_max : Z := 2 ^ 63 - 1.

(** The digit loop of [i64::from_str_radix]: [checked_mul], then
    [checked_add] or, for a negative number, [checked_sub]. *)
Fixpoint radix_digits (radix : Z) (neg : bool) (acc : Z) (l : bytes) : result ParseIntError Z :=
  match l with
  | [] => Ok acc
  | c :: r =>
      match to_digit radix c with
      | None => Err PInvalidDigit
      | Some d =>
          let mul := acc * radix in
          if neg then
            if mul <? i64_min then Err PNegOverflow
            else if mul - d <? i64_min then Err PNegOverflow
            else radix_digits radix neg (mul - d) r
          else
            if i64_max <? mul then Err PPosOverflow
            else if i64_max <? mul + d then Err PPosOverflow
            else radix_digits radix neg (mul + d) r
      end
  end.

Definition i64_from_str_radix (src : bytes) (radix : Z) : result ParseIntError Z :=
  match src with
  | [] => Err PEmpty
  | c :: r =>
      if bool_decide (c = Byte.x2b) then
        match r with [] => Err PInvalidDigit | _ => radix_digits radix false 0 r end
      else if bool_decide (c = Byte.x2d) then
        match r with [] => Err PInvalidDigit | _ => radix_digits radix true 0 r end
      else radix_digits radix false 0 src
  end.

(** [f64::from_str]: sign, then [inf], [infinity] or [nan] in any case, or a
    decimal number with an optional fraction and exponent, rounded to the
    nearest double, ties to even. *)

Definition lower (b : byte) : byte :=
  let v := byte_val b in if (65 <=? v) && (v <=? 90) then byte_of (v + 32) else b.

Fixpoint take_digits (l : bytes) : bytes * bytes :=
  match l with
  | c :: r =>
      match digit_val c with
      | Some _ => let (ds, rest) := take_digits r in (c :: ds, rest)
      | None => ([], l)
      end
  | [] => ([], [])
  end.

Definition digits_value (ds : bytes) : Z :=
  fold_left (fun acc c => acc * 10 + default 0 (digit_val c)) ds 0.

(** The value [(-1)^neg * m * 10^e] rounded.  As [10 > 2^3], the first bound
    puts the value above every double and the second below half of the
    smallest one; the powers computed stay small between them. *)
Definition f64_of_decimal (neg : bool) (m e : Z) : spec_float :=
  if m =? 0 then S754_zero neg
  else if 0 <=? e then
    if 1025 <=? Z.log2 m + 3 * e then S754_infinity neg
    else binary_round 53 1024 neg (Z.to_pos (m * 10 ^ e)) 0
  else
    if Z.log2 m + 1 + 3 * e <=? -1075 then S754_zero neg
    else let '(q, e', loc) := SFdiv_core_binary 53 1024 m 0 (10 ^ (- e)) 0 in
         binary_round_aux 53 1024 neg q e' loc.

Definition is_nil (l : bytes) : bool := match l with [] => true | _ => false end.

(** The exponent part, and nothing after it. *)
Definition parse_exponent (l : bytes) : option Z :=
  match l with
  | [] => Some 0
  | c :: r =>
      if bool_decide (lower c = Byte.x65) then
        let '(neg, r) := match r with
                         | s :: r' => if bool_decide (s = Byte.x2b) then (false, r')
                                      else if bool_decide (s = Byte.x2d) then (true, r')
                                      else (false, r)
                         | [] => (false, r)
                         end in
        let (ds, rest) := take_digits r in
        if is_nil ds || negb (is_nil rest) then None
        else Some (if neg : bool then - digits_value ds else digits_value ds)
      else None
  end.

Definition parse_decimal (neg : bool) (l : bytes) : option spec_float :=
  let (int, r) := take_digits l in
  let (frac, r) := match r with
                   | c :: r' => if bool_decide (c = Byte.x2e) then take_digits r' else ([], r)
                   | [] => ([], r)
                   end in
  if is_nil int && is_nil frac then None
  else match parse_exponent r with
       | Some e => Some (f64_of_decimal neg (digits_value (int ++ frac)) (e - Z.of_nat (length frac)))
       | None => None
       end.

Definition f64_from_str (src : bytes) : option spec_float :=
  let '(neg, r) := match src with
                   | c :: r => if bool_decide (c = Byte.x2b) then (false, r)
                               else if bool_decide (c = Byte.x2d) then (true, r)
                               else (false, src)
                   | [] => (false, src)
                   end in
  let low := map lower r in
  if bool_decide (low = str "inf") || bool_decide (low = str "infinity") then Some (S754_infinity neg)
  else if bool_decide (low = str "nan") then Some S754_nan
  else parse_decimal neg r.

(** ** Tokens *)

Inductive token :=
| TWhitespace | TLineComment | TBlockComment
| TInteger (val : bytes) (radix : Z)
| TFloatInf (negative : bool) | TFloatNan | TFloatNanVal | TFloatNormal (src : bytes)
| TString (s : bytes)
| TLParen | TRParen
| TReserved (s : bytes)
| TKeyword (s : bytes)
| TId (s : bytes).

(** The result of a call [lx.parse(&mut parse_position)?] that finds
    something; the end of the list is the end of the input. *)
Inductive lexed :=
| Tok (t : token)
| LexError (msg : bytes).

Inductive ParseError :=
| PUtf8
| PInt (e : ParseIntError)
| PFloat
| POther (msg : bytes)
| PMessage (msg : bytes)
| PTypeMismatch (a b : Expr).

(** The regular expression of identifiers,
    [^[a-zA-Z!$%&*/<=>?~_^][a-zA-Z0-9!$%&*/<=>?~_^.+-@]*$].  The last three
    characters of the second class are the range from [+] to [@]. *)
Definition is_alpha (b : byte) : bool :=
  between 97 122 b || between 65 90 b.
Definition ident_start (b : byte) : bool :=
  is_alpha b || bool_decide (b ∈ str "!$%&*/<=>?~_^").
Definition ident_rest (b : byte) : bool :=
  ident_start b || between 48 57 b || bool_decide (b = Byte.x2e) || between 43 64 b.

Definition ident_pattern (s : bytes) : bool :=
  match s with
  | [] => false
  | c :: r => ident_start c && forallb ident_rest r
  end.

(** ** The parser *)

Inductive POp :=
| PNext
| PValue (e : Expr)
| PListStart
| PListEnd
| PSeqStart
| PSeqEnd.

(** The tokens not yet read, the control stack (top first) and the values. *)
Record pstate := mkPState {
  p_tokens : list lexed;
  p_ctrl : list POp;
  p_vals : list Expr
}.

Definition opt_err {A} (o : option A) (e : ParseError) : result ParseError A :=
  ok_or o e.

(** The operations the parser pushes for a token, top first. *)
Definition token_ops (t : token) : result ParseError (list POp) :=
  match t with
  | TWhitespace | TLineComment | TBlockComment => Ok [PNext]
  | TInteger s r =>
      let? x := map_err PInt (i64_from_str_radix s r) in Ok [PNext; PValue (EInt x)]
  | TFloatInf true => Ok [PNext; PValue (EFloat (S754_infinity true))]
  | TFloatInf false => Ok [PNext; PValue (EFloat (S754_infinity false))]
  | TFloatNan | TFloatNanVal => Ok [PNext; PValue (EFloat S754_nan)]
  | TFloatNormal src =>
      let? f := opt_err (f64_from_str src) PFloat in Ok [PNext; PValue (EFloat f)]
  | TString s => let? s := opt_err (from_utf8 s) PUtf8 in Ok [PNext; PValue (EStr s)]
  | TLParen => Ok [PNext; PListStart]
  | TRParen => Ok [PListEnd]
  | TReserved s =>
      if bool_decide (s = str "]") then Ok [PSeqEnd]
      else if bool_decide (s = str "[") then Ok [PNext; PSeqStart]
      else if ident_pattern s then Ok [PNext; PValue (EIdent s)]
      else Err (PMessage (str "invalid reserved token '" ++ s ++ str "'"))
  | TKeyword s =>
      if bool_decide (s = str "true") then Ok [PNext; PValue (EBool true)]
      else if bool_decide (s = str "false") then Ok [PNext; PValue (EBool false)]
      else if ident_pattern s then Ok [PNext; PValue (EIdent s)]
      else Err (PMessage (str "invalid keyword token '" ++ s ++ str "'"))
  | TId s => Ok [PNext; PValue (EIdent s)]
  end.

(** The inner loop at the end of a list: the values popped, in that order. *)
Fixpoint pop_list (ctrl : list POp) (v : list Expr) : result ParseError (list Expr * list POp) :=
  match ctrl with
  | [] => Ok (v, [])
  | PListStart :: ctrl => Ok (v, ctrl)
  | PValue x :: ctrl => pop_list ctrl (v ++ [x])
  | PListEnd :: _ => Err (PMessage (str "')' without matching '('"))
  | PSeqStart :: _ => Err (PMessage (str "'[' without matching ']'"))
  | PSeqEnd :: _ => Err (PMessage (str "']' without matching '['"))
  | PNext :: _ => Panic
  end.

Fixpoint pop_seq (ctrl : list POp) (v : list Expr) : result ParseError (list Expr * list POp) :=
  match ctrl with
  | [] => Ok (v, [])
  | PSeqStart :: ctrl => Ok (v, ctrl)
  | PValue x :: ctrl => pop_seq ctrl (v ++ [x])
  | PListEnd :: _ => Err (PMessage (str "')' without matching '('"))
  | PListStart :: _ => Err (PMessage (str "'(' without matching ')'"))
  | PSeqEnd :: _ => Err (PMessage (str "']' without matching '['"))
  | PNext :: _ => Panic
  end.

(** The elements of a sequence have the same type. *)
Fixpoint check_seq (v : list Expr) : result ParseError unit :=
  match v with
  | x :: (y :: _) as rest =>
      match Expr_equals x y with
      | Err (TypeMismatch x y) => Err (PTypeMismatch x y)
      | Panic => Panic
      | _ => check_seq rest
      end
  | _ => Ok tt
  end.

(** One iteration on the popped operation [e]. *)
Definition parse_op (e : POp) (toks : list lexed) (ctrl : list POp) (vals : list Expr)
  : result ParseError pstate :=
  match e with
  | PNext =>
      match toks with
      | [] => Ok (mkPState [] ctrl vals)
      | LexError msg :: _ => Err (POther msg)
      | Tok t :: toks =>
          let? ops := token_ops t in Ok (mkPState toks (ops ++ ctrl) vals)
      end
  | PValue x => Ok (mkPState toks ctrl (vals ++ [x]))
  | PListEnd =>
      let? (v, ctrl) := pop_list ctrl [] in
      Ok (mkPState toks (PNext :: PValue (EList (rev v)) :: ctrl) vals)
  | PSeqEnd =>
      let? (v, ctrl) := pop_seq ctrl [] in
      let? _ := check_seq (rev v) in
      Ok (mkPState toks (PNext :: PValue (ESeq (rev v)) :: ctrl) vals)
  | PListStart => Err (PMessage (str "unclosed '('"))
  | PSeqStart => Err (PMessage (str "unclosed '['"))
  end.

Fixpoint parse_loop (fuel : nat) (st : pstate) : option (result ParseError (list Expr)) :=
  match fuel with
  | O => None
  | S fuel =>
      match p_ctrl st with
      | [] => Some (Ok (p_vals st))
      | e :: ctrl =>
          match parse_op e (p_tokens st) ctrl (p_vals st) with
          | Ok st' => parse_loop fuel st'
          | Err e => Some (Err e)
          | Panic => Some Panic
          end
      end
  end.

(** The fuel: a token costs at most three iterations ([parse_loop_total]). *)
Definition parse (toks : list lexed) : result ParseError (option Expr) :=
  let? vals := out_of_fuel (parse_loop (3 * length toks + 2) (mkPState toks [PNext] [])) in
  match vals with
  | [] => Ok None
  | [x] => Ok (Some x)
  | _ => Ok (Some (EList (rev vals)))
  end.

Definition Expr_try_from (toks : list lexed) : result ParseError Expr :=
  let? o := parse toks in
  match o with
  | Some x => Ok x
  | None => Err (PMessage (str "empty expression value"))
  end.

(** ** The parser returns, and never reaches [unreachable!] *)

Definition op_weight (o : POp) : nat :=
  match o with
  | PListEnd | PSeqEnd => 3
  | _ => 1
  end.

Definition pweight (st : pstate) : nat :=
  3 * length (p_tokens st) + list_sum (map op_weight (p_ctrl st)).

(** The operations that may lie below the top of the stack. *)
Definition settled (o : POp) : bool :=
  match o with
  | PValue _ | PListStart | PSeqStart => true
  | _ => false
  end.

Definition pinv (st : pstate) : Prop := Forall settled (tail (p_ctrl st)).

Lemma pop_list_spec ctrl v r ctrl' :
  pop_list ctrl v = Ok (r, ctrl') ->
  (list_sum (map op_weight ctrl') <= list_sum (map op_weight ctrl))%nat /\
  (Forall settled ctrl -> Forall settled ctrl').
Proof.
  revert v; induction ctrl as [|[] ctrl IH]; intros v; simpl; try done.
  - intros [= <- <-]. done.
  - intros [H1 H2]%IH. split; [lia|]. intros [_ H]%list.Forall_cons. auto.
  - intros [= <- <-]. split; [lia|]. by intros [_ H]%list.Forall_cons.
Qed.

Lemma pop_seq_spec ctrl v r ctrl' :
  pop_seq ctrl v = Ok (r, ctrl') ->
  (list_sum (map op_weight ctrl') <= list_sum (map op_weight ctrl))%nat /\
  (Forall settled ctrl -> Forall settled ctrl').
Proof.
  revert v; induction ctrl as [|[] ctrl IH]; intros v; simpl; try done.
  - intros [= <- <-]. done.
  - intros [H1 H2]%IH. split; [lia|]. intros [_ H]%list.Forall_cons. auto.
  - intros [= <- <-]. split; [lia|]. by intros [_ H]%list.Forall_cons.
Qed.

Lemma pop_no_panic ctrl v :
  Forall settled ctrl -> pop_list ctrl v <> Panic /\ pop_seq ctrl v <> Panic.
Proof.
  intros H. revert v; induction H as [|[] ctrl Ho _ IH]; intros v; simpl; try done.
Qed.

Lemma check_seq_no_panic v : check_seq v <> Panic.
Proof.
  induction v as [|x [|y ys] IH]; simpl; try done.
  pose proof (Expr_equals_no_panic x y). by destruct (Expr_equals x y) as [|[]|].
Qed.

(** What a token pushes: at most two operations, the lower one settled. *)
Lemma token_ops_spec t ops ctrl :
  token_ops t = Ok ops ->
  (list_sum (map op_weight (ops ++ ctrl)) <= 3 + list_sum (map op_weight ctrl))%nat /\
  (Forall settled ctrl -> Forall settled (tail (ops ++ ctrl))).
Proof.
  destruct t; simpl; try (by intros [= <-]; simpl; split; [lia|auto]).
  - destruct (i64_from_str_radix val radix); simpl; [|done..]. intros [= <-]. simpl. auto with lia.
  - destruct negative; intros [= <-]; simpl; auto with lia.
  - destruct (f64_from_str src); simpl; [|done]. intros [= <-]. simpl. auto with lia.
  - destruct (from_utf8 s); simpl; [|done]. intros [= <-]. simpl. auto with lia.
  - repeat case_match; intros [= <-]; simpl; auto with lia.
  - repeat case_match; intros [= <-]; simpl; auto with lia.
Qed.

Lemma radix_digits_no_panic radix n a l : radix_digits radix n a l <> Panic.
Proof. revert a; induction l as [|c l IH]; intros a; simpl; [done|]. by repeat case_match. Qed.

Lemma from_str_radix_no_panic s radix : i64_from_str_radix s radix <> Panic.
Proof. unfold i64_from_str_radix. repeat case_match; auto using radix_digits_no_panic. Qed.

Lemma token_ops_no_panic t : token_ops t <> Panic.
Proof.
  destruct t; simpl; try done; try (by repeat case_match).
  - pose proof (from_str_radix_no_panic val radix). by destruct (i64_from_str_radix val radix).
  - by destruct (f64_from_str src).
  - by destruct (from_utf8 s).
Qed.

Lemma parse_op_spec e toks ctrl vals :
  Forall settled ctrl ->
  match parse_op e toks ctrl vals with
  | Ok st' => (pweight st' < pweight (mkPState toks (e :: ctrl) vals))%nat /\ pinv st'
  | Err _ => True
  | Panic => False
  end.
Proof.
  intros Hs. unfold pweight, pinv. destruct (pop_no_panic ctrl [] Hs) as [Hl Hq].
  assert (Ht : Forall settled (tail ctrl)) by (destruct Hs; simpl; auto).
  destruct e; simpl; try done.
  - destruct toks as [|[t|msg] toks]; simpl; [split; [lia|done]| |done].
    pose proof (token_ops_no_panic t). destruct (token_ops t) as [ops| |] eqn:Et; simpl; try done.
    destruct (token_ops_spec t ops ctrl Et) as [H1 H2]. split; [lia|auto].
  - split; [lia|done].
  - destruct (pop_list ctrl []) as [[v c]| |] eqn:E; simpl; try done.
    apply pop_list_spec in E as [H1 H2]. split; [lia|auto].
  - destruct (pop_seq ctrl []) as [[v c]| |] eqn:E; simpl; try done.
    apply pop_seq_spec in E as [H1 H2]. pose proof (check_seq_no_panic (rev v)).
    destruct (check_seq (rev v)); simpl; try done. split; [lia|auto].
Qed.

Lemma parse_loop_total fuel st :
  (pweight st < fuel)%nat -> pinv st ->
  exists r, parse_loop fuel st = Some r /\ r <> Panic.
Proof.
  revert st; induction fuel as [|fuel IH]; intros [toks ctrl vals] Hw Hi; [lia|]. simpl.
  destruct ctrl as [|e ctrl]; [by eexists|]. simpl in *.
  pose proof (parse_op_spec e toks ctrl vals Hi) as H.
  destruct (parse_op e toks ctrl vals) as [st'| |]; [|by eexists|done].
  apply IH; [lia|apply H].
Qed.

Lemma parse_loop_mono n n' st r :
  parse_loop n st = Some r -> (n <= n')%nat -> parse_loop n' st = Some r.
Proof.
  revert n' st; induction n as [|n IH]; intros [|n'] st; simpl; try done; try lia.
  intros H ?. destruct (p_ctrl st) as [|e c]; [done|].
  destruct (parse_op _ _ _ _); auto. apply IH; auto with lia.
Qed.

(** ** Reading back what was printed *)

(** [Display] of an [i64]. *)
Definition i64_display (i : Z) : bytes :=
  if i <? 0 then str "-" ++ to_dec (- i) else to_dec i.

(** The token the lexer makes of each piece the printer writes: strings are
    read back with their escapes undone, a printed float denotes the
    float, identifiers are keywords or reserved words. *)
Inductive lexes : piece -> token -> Prop :=
| lexes_str s : utf8_valid s = true -> lexes (WStr s) (TString s)
| lexes_int i : i64_min <= i <= i64_max -> lexes (WInt i) (TInteger (i64_display i) 10)
| lexes_nan : lexes WNan TFloatNan
| lexes_inf s : lexes (WInf s) (TFloatInf s)
| lexes_float f src : f64_from_str src = Some f -> lexes (WFloat f) (TFloatNormal src)
| lexes_bool b : lexes (WBool b) (TKeyword (if b then str "true" else str "false"))
| lexes_keyword s :
    ident_pattern s = true -> s <> str "true" -> s <> str "false" ->
    lexes (WIdent s) (TKeyword s)
| lexes_reserved s : ident_pattern s = true -> lexes (WIdent s) (TReserved s)
| lexes_open : lexes WOpen TLParen
| lexes_close : lexes WClose TRParen
| lexes_seq_open : lexes WSeqOpen (TReserved (str "["))
| lexes_seq_close : lexes WSeqClose (TReserved (str "]"))
| lexes_space : lexes WSpace TWhitespace.

(** The elements of every sequence of the expression have one type, which is what
    the parser demands. *)
Fixpoint homogeneous (e : Expr) : bool :=
  match e with
  | ESeq xs => forallb homogeneous xs && is_ok (check_seq xs)
  | EList xs => forallb homogeneous xs
  | _ => true
  end.

Lemma radix_digits_pos acc l n :
  parse_digits i64_max acc l = Ok n -> radix_digits 10 false acc l = Ok n.
Proof.
  revert acc; induction l as [|c l IH]; intros acc; cbn [parse_digits radix_digits]; [by intros [= ->]|].
  rewrite to_digit_10. destruct (digit_val c); [|done]. by repeat case_match; auto.
Qed.

Lemma radix_digits_neg acc l n :
  parse_digits (2 ^ 63) acc l = Ok n -> radix_digits 10 true (- acc) l = Ok (- n).
Proof.
  revert acc; induction l as [|c l IH]; intros acc; cbn [parse_digits radix_digits].
  { by intros [= ->]. }
  rewrite to_digit_10. destruct (digit_val c) as [d|]; [|done].
  destruct (Z.ltb_spec (2 ^ 63) (acc * 10)); [done|].
  destruct (Z.ltb_spec (2 ^ 63) (acc * 10 + d)); [done|]. intros H1%IH.
  unfold i64_min. rewrite !(proj2 (Z.ltb_ge _ _)) by lia.
  replace (- acc * 10 - d) with (- (acc * 10 + d)) by lia. done.
Qed.

Lemma parse_digits_to_dec max n :
  0 <= n <= max -> n < 2 ^ 64 -> parse_digits max 0 (to_dec n) = Ok n.
Proof.
  intros Hn Hm. unfold to_dec. rewrite parse_dec_go; [done| |lia].
  change (Z.of_nat 20) with 20. lia.
Qed.

Lemma i64_display_parse i :
  i64_min <= i <= i64_max -> i64_from_str_radix (i64_display i) 10 = Ok i.
Proof.
  unfold i64_min, i64_max. intros Hi. unfold i64_display.
  destruct (Z.ltb_spec i 0) as [Hneg|Hpos].
  - destruct (to_dec_digits (- i)) as (d & ds & E & _); [lia|].
    pose proof (parse_digits_to_dec (2 ^ 63) (- i) ltac:(lia) ltac:(lia)) as Hd.
    apply radix_digits_neg in Hd. rewrite Z.opp_involutive in Hd. rewrite E in *. exact Hd.
  - destruct (to_dec_digits i) as (d & ds & E & Hf); [lia|].
    pose proof (parse_digits_to_dec i64_max i ltac:(unfold i64_max; lia) ltac:(lia)) as Hd.
    apply radix_digits_pos in Hd. rewrite E in *. unfold i64_from_str_radix.
    apply list.Forall_cons in Hf as [Hf _].
    rewrite !bool_decide_false; [done|intros ->..];
      apply (bool_decide_pack _) in Hf; by vm_compute in Hf.
Qed.

(** The parser goes from [st] to [st'] whatever fuel is left. *)
Definition advances (st st' : pstate) : Prop :=
  exists k, forall n, parse_loop (k + n) st = parse_loop n st'.

Lemma advances_trans st1 st2 st3 : advances st1 st2 -> advances st2 st3 -> advances st1 st3.
Proof.
  intros [k Hk] [k' Hk']. exists (k + k')%nat. intros n. by rewrite <- Nat.add_assoc, Hk.
Qed.

Lemma advances_step toks e c vals st :
  parse_op e toks c vals = Ok st -> advances (mkPState toks (e :: c) vals) st.
Proof. intros H. exists 1%nat. intros n. simpl. by rewrite H. Qed.

Lemma advances_token t ops toks c vals :
  token_ops t = Ok ops ->
  advances (mkPState (Tok t :: toks) (PNext :: c) vals) (mkPState toks (ops ++ c) vals).
Proof. intros H. apply advances_step. simpl. by rewrite H. Qed.

Lemma pop_list_values l c v : pop_list (map PValue l ++ PListStart :: c) v = Ok (v ++ l, c).
Proof.
  revert v; induction l as [|x l IH]; intros v; simpl; [by rewrite app_nil_r|].
  by rewrite IH, <- app_assoc.
Qed.

Lemma pop_seq_values l c v : pop_seq (map PValue l ++ PSeqStart :: c) v = Ok (v ++ l, c).
Proof.
  revert v; induction l as [|x l IH]; intros v; simpl; [by rewrite app_nil_r|].
  by rewrite IH, <- app_assoc.
Qed.

(** Reading the tokens of an expression puts the expression on the stack. *)
Definition reads (e : Expr) : Prop :=
  forall ts rest c vals, homogeneous e = true -> Forall2 lexes (pieces e) ts ->
    advances (mkPState (map Tok ts ++ rest) (PNext :: c) vals)
             (mkPState rest (PNext :: PValue e :: c) vals).

Lemma reads_items first xs ts rest c vals :
  Forall reads xs -> forallb homogeneous xs = true ->
  Forall2 lexes (spaced first (map pieces xs)) ts ->
  advances (mkPState (map Tok ts ++ rest) (PNext :: c) vals)
           (mkPState rest (PNext :: map PValue (rev xs) ++ c) vals).
Proof.
  intros H. revert first ts c; induction H as [|x xs Hx _ IH]; intros first ts c Hh Hts; simpl in *.
  { apply Forall2_nil_inv_l in Hts as ->. by exists 0%nat. }
  apply andb_true_iff in Hh as [Hh1 Hh2]. apply Forall2_app_inv_l in Hts as (t0 & ts' & H0 & Hts & ->).
  apply Forall2_app_inv_l in Hts as (t1 & t2 & H1 & H2 & ->).
  rewrite !map_app, <- !app_assoc.
  assert (Ha : advances (mkPState (map Tok t0 ++ map Tok t1 ++ map Tok t2 ++ rest) (PNext :: c) vals)
                 (mkPState (map Tok t1 ++ map Tok t2 ++ rest) (PNext :: c) vals)).
  { destruct first; simpl in H0.
    - apply Forall2_nil_inv_l in H0 as ->. by exists 0%nat.
    - apply Forall2_cons_inv_l in H0 as (t & ? & Hl & ?%Forall2_nil_inv_l & ->). subst.
      inversion Hl; subst. by apply (advances_token _ [PNext]). }
  eapply advances_trans; [exact Ha|]. eapply advances_trans; [by apply Hx|].
  by apply (IH false).
Qed.

Lemma reads_scalar e p v :
  pieces e = [p] -> v = e ->
  (forall t, lexes p t -> token_ops t = Ok [PNext; PValue v]) -> reads e.
Proof.
  intros Hp -> Ht ts rest c vals _ Hts. rewrite Hp in Hts.
  apply Forall2_cons_inv_l in Hts as (t & ? & Hl & ?%Forall2_nil_inv_l & ->). subst.
  apply (advances_token t [PNext; PValue e]). auto.
Qed.

Lemma ident_not_bracket s : ident_pattern s = true -> s <> str "]" /\ s <> str "[".
Proof. intros H. split; intros ->; by vm_compute in H. Qed.

Lemma reads_expr e : reads e.
Proof.
  induction e as [s|i|f|b|id|xs IH|xs IH] using Expr_rect'.
  - eapply reads_scalar; [done..|]. inversion 1; subst. simpl. unfold from_utf8.
    by match goal with H : utf8_valid _ = true |- _ => rewrite H end.
  - eapply reads_scalar; [done..|]. inversion 1; subst. simpl. by rewrite i64_display_parse.
  - eapply reads_scalar; [done..|].
    destruct f as [sg|sg| |sg m e]; inversion 1; subst; simpl; try done; try (by destruct sg);
      by match goal with H : f64_from_str _ = _ |- _ => rewrite H end.
  - eapply reads_scalar; [done..|]. inversion 1; subst. by destruct b.
  - eapply reads_scalar; [done..|]. inversion 1 as [| | | | | |s Hp Ht Hf|s Hp| | | | |]; subst; simpl.
    + by rewrite !bool_decide_false, Hp.
    + destruct (ident_not_bracket id Hp). by rewrite !bool_decide_false, Hp.
  - intros ts rest c vals [Hh Hc]%andb_true_iff Hts. simpl in Hts.
    apply Forall2_cons_inv_l in Hts as (t0 & ts' & H0 & Hts & ->).
    apply Forall2_app_inv_l in Hts as (t1 & t2 & H1 & H2 & ->).
    apply Forall2_cons_inv_l in H2 as (t3 & ? & H3 & ?%Forall2_nil_inv_l & ->). subst.
    inversion H0; subst; inversion H3; subst. rewrite map_cons, map_app, <- app_comm_cons, <- app_assoc.
    eapply advances_trans; [by apply (advances_token _ [PNext; PSeqStart])|].
    eapply advances_trans; [by apply (reads_items true xs)|].
    eapply advances_trans; [by apply (advances_token _ [PSeqEnd])|].
    apply advances_step. simpl. rewrite pop_seq_values. simpl. rewrite rev_involutive.
    by destruct (check_seq xs).
  - intros ts rest c vals Hh Hts. simpl in Hts, Hh.
    apply Forall2_cons_inv_l in Hts as (t0 & ts' & H0 & Hts & ->).
    apply Forall2_app_inv_l in Hts as (t1 & t2 & H1 & H2 & ->).
    apply Forall2_cons_inv_l in H2 as (t3 & ? & H3 & ?%Forall2_nil_inv_l & ->). subst.
    inversion H0; subst; inversion H3; subst. rewrite map_cons, map_app, <- app_comm_cons, <- app_assoc.
    eapply advances_trans; [by apply (advances_token _ [PNext; PListStart])|].
    eapply advances_trans; [by apply (reads_items true xs)|].
    eapply advances_trans; [by apply (advances_token _ [PListEnd])|].
    apply advances_step. simpl. rewrite pop_list_values. simpl. by rewrite rev_involutive.
Qed.

(** Fuel beyond the parser's own gives the parser's result. *)
Lemma parse_loop_enough toks n r :
  parse_loop n (mkPState toks [PNext] []) = Some r ->
  parse_loop (3 * length toks + 2) (mkPState toks [PNext] []) = Some r.
Proof.
  intros Hn.
  destruct (parse_loop_total (3 * length toks + 2) (mkPState toks [PNext] [])) as (r' & Hr & _).
  { unfold pweight. simpl. lia. }
  { by apply list.Forall_nil. }
  apply (parse_loop_mono _ (Nat.max n (3 * length toks + 2))) in Hn; [|lia].
  rewrite Hr. apply (parse_loop_mono _ (Nat.max n (3 * length toks + 2))) in Hr; [|lia]. congruence.
Qed.

(** ** Claims *)

(** The parser returns on every token sequence: its loop ends within
    three iterations per token, and neither the [unreachable!] on
    consecutive [Next] operations nor any other panic is reached. *)
Theorem parse_returns toks : parse toks <> Panic.
Proof.
  unfold parse.
  destruct (parse_loop_total (3 * length toks + 2) (mkPState toks [PNext] [])) as (r & -> & Hr).
  { unfold pweight. simpl. lia. }
  { by apply list.Forall_nil. }
  destruct r as [[|x [|y l]]| |]; done.
Qed.

(** C40: reading back a printed expression gives the expression.  If the
    lexer yields for every piece the printer writes the token that denotes
    it, then [parse] returns the printed expression, for every expression
    whose sequences are homogeneous, at any nesting. *)
Theorem parse_display_roundtrip e ps ts :
  Expr_fmt e = Ok ps -> Forall2 lexes ps ts -> homogeneous e = true ->
  parse (map Tok ts) = Ok (Some e).
Proof.
  rewrite Expr_fmt_pieces. intros [= <-] Hts Hh.
  destruct (reads_expr e ts [] [] [] Hh Hts) as [k Hk]. rewrite app_nil_r in Hk.
  specialize (Hk 3%nat). apply parse_loop_enough in Hk.
  unfold parse. by rewrite Hk.
Qed.

Definition sample_expr : Expr :=
  expr_and [expr_eq [EIdent (str "subject.role"); EStr (str "admin")];
            EList [EIdent (str "member?"); EInt (-5); ESeq [EInt (-5); EInt 7]]].

Definition sample_tokens : list token :=
  [TLParen; TKeyword (str "and"); TWhitespace;
   TLParen; TReserved (str "="); TWhitespace; TKeyword (str "subject.role"); TWhitespace;
   TString (str "admin"); TRParen; TWhitespace;
   TLParen; TKeyword (str "member?"); TWhitespace; TInteger (str "-5") 10; TWhitespace;
   TReserved (str "["); TInteger (str "-5") 10; TWhitespace; TInteger (str "7") 10;
   TReserved (str "]"); TRParen; TRParen].

Lemma parse_display_roundtrip_witness :
  Expr_fmt sample_expr = Ok (pieces sample_expr) /\
  parse (map Tok sample_tokens) = Ok (Some sample_expr).
Proof.
  split; [vm_compute; reflexivity|].
  apply (parse_display_roundtrip sample_expr (pieces sample_expr)).
  - vm_compute. reflexivity.
  - change sample_tokens with
      ([TLParen; TKeyword (str "and"); TWhitespace;
        TLParen; TReserved (str "="); TWhitespace; TKeyword (str "subject.role"); TWhitespace;
        TString (str "admin"); TRParen; TWhitespace;
        TLParen; TKeyword (str "member?"); TWhitespace; TInteger (i64_display (-5)) 10; TWhitespace;
        TReserved (str "["); TInteger (i64_display (-5)) 10; TWhitespace;
        TInteger (i64_display 7) 10; TReserved (str "]"); TRParen; TRParen]).
    repeat constructor; try discriminate; unfold i64_min, i64_max; lia.
  - vm_compute. reflexivity.
Defined.

(** A closing parenthesis that closes nothing is accepted: it turns
    everything read so far into a list, so that [= 1 1 )] is read as
    [(= 1 1)], although the messages of the parser name the case an error. *)
Theorem unmatched_paren_accepted x y :
  parse [Tok (TReserved (str "=")); Tok (TId x); Tok (TId y); Tok TRParen] =
  Ok (Some (expr_eq [EIdent x; EIdent y])).
Proof. reflexivity. Qed.
