(* ===== verification/AbacPolicy.v ===== *)
(** * Attribute-based access control: [ockam_abac/src/{types,mem,policy,attribute_access_control}.rs]

    Policies are stored per resource and action; an incoming message is
    authorized if the policy, evaluated in an environment extended with the
    authenticated attributes of its sender, yields [true].  [PolicyStorage]
    is the trait of that name, with [Memory] as its implementation. *)

From Stdlib Require Import ZArith Lia.
From Stdlib Require Strings.Byte Strings.String.
From stdpp Require Import base gmap list numbers option countable sorting.
From S2P Require Import Prelude.
From S2P Require Import RustStr.
From S2P Require Import Routing.
From S2P Require Import AccessControl.
From S2P Require Import AbacExpr.
From S2P Require Import AbacEval.
From S2P Require Import Attributes.

(** ** [Subject], [Resource] and [Action]

    [Either<String, StrBuf<24>>]: short strings are stored inline. *)

Notation InlineStr := (bytes + bytes)%type.
Notation Resource := InlineStr (only parsing).
Notation Action := InlineStr (only parsing).

Definition MAX_INLINE_SIZE : nat := 24.

(** [StrBuf::from_str_checked] refuses a string longer than its capacity;
    [assert_inline] panics on it. *)
Definition InlineStr_inline (s : bytes) : option InlineStr :=
  if Nat.leb (length s) MAX_INLINE_SIZE then Some (inr s) else None.

Definition InlineStr_assert_inline (s : bytes) : result Error InlineStr :=
  unwrap (InlineStr_inline s).

Definition InlineStr_new (s : bytes) : result Error InlineStr :=
  if Nat.leb (length s) MAX_INLINE_SIZE then InlineStr_assert_inline s else Ok (inl s).

Definition InlineStr_as_str (t : InlineStr) : bytes :=
  match t with
  | inl s => s
  | inr s => s
  end.

(** The derived [Ord]: the [Left] variant first. *)
Definition inline_compare (a b : InlineStr) : comparison :=
  match a, b with
  | inl a, inl b => bytes_compare a b
  | inr a, inr b => bytes_compare a b
  | inl _, inr _ => Lt
  | inr _, inl _ => Gt
  end.

(** ** [PolicyStorage] and [Memory] *)

Class PolicyStorage (P : Type) := {
  get_policy : Resource -> Action -> stm P Error (option Expr);
  set_policy : Resource -> Action -> Expr -> stm P Error unit;
  del_policy : Resource -> Action -> stm P Error unit;
  policies : Resource -> stm P Error (list (Action * Expr))
}.

Notation Memory := (gmap Resource (gmap Action Expr)).

Definition Inner_del_policy (r : Resource) (a : Action) (self : Memory) : Memory :=
  match self !! r with
  | Some p =>
      let p := delete a p in
      let self := <[r := p]> self in
      if Nat.eqb (size p) 0 then delete r self else self
  | None => self
  end.

Definition Inner_get_policy (self : Memory) (r : Resource) (a : Action) : option Expr :=
  match self !! r with
  | Some p => p !! a
  | None => None
  end.

Definition Inner_set_policy (r : Resource) (a : Action) (p : Expr) (self : Memory) : Memory :=
  let m := default ∅ (self !! r) in <[r := <[a := p]> m]> self.

Definition action_le (p q : Action * Expr) : Prop := inline_compare p.1 q.1 <> Gt.
#[export] Instance action_le_dec : RelDecision action_le.
Proof. intros p q. unfold action_le. solve_decision. Defined.

Definition Inner_policies (self : Memory) (r : Resource) : list (Action * Expr) :=
  match self !! r with
  | Some p => merge_sort action_le (map_to_list p)
  | None => []
  end.

#[export] Instance memory_policies : PolicyStorage Memory := {|
  get_policy := fun r a s => (Ok (Inner_get_policy s r a), s);
  set_policy := fun r a p s => (Ok tt, Inner_set_policy r a p s);
  del_policy := fun r a s => (Ok tt, Inner_del_policy r a s);
  policies := fun r s => (Ok (Inner_policies s r), s)
|}.

(** ** [AbacAccessControl] *)

Record AbacAccessControl := mkAbac {
  abac_expression : Expr;
  abac_environment : Env
}.

Definition Abac_create (name value : bytes) : AbacAccessControl :=
  mkAbac (EList [EIdent (str "="); EIdent (str "subject." ++ name); EStr value]) Env_new.

(** One iteration of the loop over the attributes.  A key with white space is
    only logged. *)
Definition add_attribute (environment : Env) (attr : bytes * bytes) : Env :=
  let (key, value) := attr in
  match from_utf8 value with
  | Some s =>
      if Env_contains environment key then environment
      else Env_put (str "subject." ++ key) (EStr s) environment
  | None => environment
  end.

Definition subject_environment (environment : Env) (attributes : option AttributesEntry)
    (id : IdentityIdentifier) : Env :=
  let environment := match attributes with
                     | Some e => fold_left add_attribute (btree_iter (attrs e)) environment
                     | None => environment
                     end in
  Env_put (str "subject.identifier") (EStr id) environment.

Section Access.
Context {S : Type} `{Storage S} `{EntryCodec} `{InfoCodec}.

(** [None]: the evaluation needs more than [fuel] iterations. *)
Definition is_identity_authorized (fuel : nat) (self : AbacAccessControl) (now : option Z)
    (id : IdentityIdentifier) : stm S Error (option bool) :=
  let! attributes := get_attributes now id in
  match eval fuel (abac_expression self)
          (subject_environment (abac_environment self) attributes id) with
  | Some (Ok (EBool b)) => sret (Some b)
  | Some (Ok _) => sret (Some false)
  | Some (Err _) => sret (Some false)
  | Some Panic => spanic
  | None => sret None
  end.

Definition Abac_is_authorized (fuel : nat) (self : AbacAccessControl) (now : option Z)
    (m : RelayMessage) : stm S Error (option bool) :=
  match find_info (rm_local_msg m) with
  | Ok id => is_identity_authorized fuel self now id
  | Err _ => sret (Some false)
  | Panic => spanic
  end.

(** ** [PolicyAccessControl]; the policies are a store of their own *)

Context {P : Type} `{PolicyStorage P}.

Record PolicyAccessControl := mkPolicyAccessControl {
  pac_resource : Resource;
  pac_action : Action;
  pac_environment : Env
}.

(** A computation on one of the two stores. *)
Definition on_policies {A} (c : stm P Error A) : stm (P * S) Error A :=
  fun '(p, s) => let (r, p') := c p in (r, (p', s)).
Definition on_attributes {A} (c : stm S Error A) : stm (P * S) Error A :=
  fun '(p, s) => let (r, s') := c s in (r, (p, s')).

Definition Policy_is_authorized (fuel : nat) (self : PolicyAccessControl) (now : option Z)
    (m : RelayMessage) : stm (P * S) Error (option bool) :=
  let! o := on_policies (get_policy (pac_resource self) (pac_action self)) in
  match o with
  | Some (EBool b) => sret (Some b)
  | Some expr =>
      on_attributes (Abac_is_authorized fuel (mkAbac expr (pac_environment self)) now m)
  | None => sret (Some false)
  end.
End Access.

(** * Properties *)

(** ** The policy store *)

(** No resource is kept without a policy. *)
Definition policies_wf (s : Memory) : Prop := forall r p, s !! r = Some p -> p <> ∅.

(** The policy store is a map from pairs of a resource and an action to
    policies.  Setting and deleting affect exactly the pair named, listing
    a resource returns exactly its policies, each action once, and a resource
    whose last policy is deleted disappears. *)
Theorem policy_store_refines_map s r a e :
  policies_wf s ->
  policies_wf (Inner_set_policy r a e s) /\ policies_wf (Inner_del_policy r a s) /\
  (forall r' a', Inner_get_policy (Inner_set_policy r a e s) r' a' =
     if bool_decide ((r', a') = (r, a)) then Some e else Inner_get_policy s r' a') /\
  (forall r' a', Inner_get_policy (Inner_del_policy r a s) r' a' =
     if bool_decide ((r', a') = (r, a)) then None else Inner_get_policy s r' a') /\
  (forall a' e', (a', e') ∈ Inner_policies s r <-> Inner_get_policy s r a' = Some e') /\
  NoDup (Inner_policies s r).*1.
Proof.
  intros Hwf. split; [|split; [|split; [|split; [|split]]]].
  - intros r' p. unfold Inner_set_policy. rewrite lookup_insert_Some.
    intros [[<- <-]|[_ Hp]]; [apply insert_non_empty|by apply (Hwf r')].
  - intros r' p. unfold Inner_del_policy. destruct (s !! r) as [q|] eqn:Er; [|apply Hwf].
    destruct (Nat.eqb_spec (size (delete a q)) 0) as [Hz|Hz].
    + rewrite lookup_delete_Some, lookup_insert_Some. intros [? [[<- _]|[_ Hp]]]; [done|].
      by apply (Hwf r').
    + rewrite lookup_insert_Some. intros [[<- <-]|[_ Hp]]; [|by apply (Hwf r')].
      intros He. by rewrite He, map_size_empty in Hz.
  - intros r' a'. unfold Inner_get_policy, Inner_set_policy.
    destruct (decide (r' = r)) as [->|Hr].
    + rewrite lookup_insert_eq. destruct (decide (a' = a)) as [->|Ha].
      * by rewrite lookup_insert_eq, bool_decide_true.
      * rewrite lookup_insert_ne, bool_decide_false by congruence.
        destruct (s !! r); [done|]. apply lookup_empty.
    + by rewrite lookup_insert_ne, bool_decide_false by congruence.
  - intros r' a'. unfold Inner_get_policy, Inner_del_policy.
    destruct (s !! r) as [q|] eqn:Er.
    2:{ case_bool_decide as Hb; [|done]. injection Hb as -> ->. by rewrite Er. }
    destruct (decide (r' = r)) as [->|Hr].
    + destruct (Nat.eqb_spec (size (delete a q)) 0) as [Hz|Hz].
      * rewrite lookup_delete_eq, Er. case_bool_decide as Hb; [done|].
        apply map_size_empty_inv in Hz. rewrite <- (lookup_delete_ne q a) by congruence.
        by rewrite Hz, lookup_empty.
      * rewrite lookup_insert_eq, Er. destruct (decide (a' = a)) as [->|Ha].
        -- by rewrite lookup_delete_eq, bool_decide_true.
        -- by rewrite lookup_delete_ne, bool_decide_false by congruence.
    + rewrite bool_decide_false by congruence.
      destruct (Nat.eqb _ _); by rewrite ?lookup_delete_ne, lookup_insert_ne by done.
  - intros a' e'. unfold Inner_policies, Inner_get_policy. destruct (s !! r) as [q|].
    + by rewrite merge_sort_Permutation, elem_of_map_to_list.
    + split; [by intros ?%elem_of_nil|done].
  - unfold Inner_policies. destruct (s !! r); [|apply NoDup_nil_2].
    rewrite merge_sort_Permutation. apply NoDup_fst_map_to_list.
Qed.

Lemma policy_store_refines_map_witness :
  policies_wf ∅ /\
  Inner_get_policy (Inner_set_policy (inr (str "r")) (inr (str "a")) (EBool true) ∅)
    (inr (str "r")) (inr (str "a")) = Some (EBool true).
Proof.
  assert (H : policies_wf ∅) by (intros r p Hp; rewrite lookup_empty in Hp; discriminate).
  split; [exact H|].
  destruct (policy_store_refines_map ∅ (inr (str "r")) (inr (str "a")) (EBool true) H)
    as (_ & _ & Hs & _). rewrite Hs. reflexivity.
Defined.

(** ** The environment of a subject *)

Lemma starts_with_app p s : starts_with p (p ++ s) = true.
Proof. induction p as [|b p IH]; simpl; [done|]. by rewrite bool_decide_true. Qed.

Lemma starts_with_inv p s : starts_with p s = true -> exists t, s = p ++ t.
Proof.
  revert s; induction p as [|b p IH]; intros s; [by exists s|].
  destruct s as [|c s]; simpl; [done|]. rewrite andb_true_iff, bool_decide_eq_true.
  intros [<- [t ->]%IH]. by exists t.
Qed.

Definition is_subject (k : bytes) : bool := starts_with (str "subject.") k.

(** The attributes of a credential never change bindings of another kind. *)
Lemma add_attributes_other l env k :
  is_subject k = false -> fold_left add_attribute l env !! k = env !! k.
Proof.
  intros Hk. revert env; induction l as [|[key v] l IH]; intros env; cbn [fold_left]; [done|].
  rewrite IH. unfold add_attribute. destruct (from_utf8 v); [|done].
  destruct (Env_contains env key); [done|]. apply lookup_insert_ne. intros <-.
  unfold is_subject in Hk. by rewrite starts_with_app in Hk.
Qed.

(** What the loop does to the binding of an attribute [key]: the value of the last
    usable occurrence, unless the environment binds the bare key. *)
Lemma add_attributes_lookup l env key :
  NoDup l.*1 -> is_subject key = false -> env !! key = None ->
  fold_left add_attribute l env !! (str "subject." ++ key) =
  match list_find (fun kv => kv.1 = key) l with
  | Some (_, (_, v)) =>
      match from_utf8 v with
      | Some s => Some (EStr s)
      | None => env !! (str "subject." ++ key)
      end
  | None => env !! (str "subject." ++ key)
  end.
Proof.
  intros Hnd Hk He. revert env He Hnd; induction l as [|[k v] l IH]; intros env He Hnd; [done|].
  rewrite fmap_cons, NoDup_cons in Hnd. destruct Hnd as [Hnin Hnd].
  cbn [fold_left list_find fst].
  assert (He' : add_attribute env (k, v) !! key = None).
  { rewrite <- He. exact (add_attributes_other [(k, v)] env key Hk). }
  rewrite (IH _ He' Hnd). unfold add_attribute, Env_put.
  destruct (decide (k = key)) as [->|Hne].
  - assert (Hnone : list_find (fun kv : bytes * bytes => kv.1 = key) l = None).
    { apply list_find_None, list.Forall_forall. intros [k' v'] Hin Hk'.
      simpl in Hk'. subst k'. apply Hnin. apply list_elem_of_fmap. by exists (key, v'). }
    rewrite Hnone. unfold Env_contains. rewrite bool_decide_false by (rewrite He; by intros []).
    destruct (from_utf8 v); [|done]. by rewrite lookup_insert_eq.
  - assert (Hsame : (match from_utf8 v with
        | Some s => if Env_contains env k then env else <[str "subject." ++ k := EStr s]> env
        | None => env end) !! (str "subject." ++ key) = env !! (str "subject." ++ key)).
    { destruct (from_utf8 v); [|done]. destruct (Env_contains env k); [done|].
      apply lookup_insert_ne. intros Heq. by apply app_inv_head in Heq. }
    rewrite Hsame. destruct (list_find _ l) as [[i [k' v']]|]; done.
Qed.

Lemma btree_find (m : gmap bytes bytes) key :
  (snd ∘ snd <$> list_find (fun kv => kv.1 = key) (btree_iter m)) = m !! key.
Proof.
  destruct (list_find _ _) as [[i [k v]]|] eqn:E; simpl.
  - apply list_find_Some in E as (Hi & Hk & _). simpl in Hk. subst k.
    symmetry. apply btree_iter_elem. by eapply list_elem_of_lookup_2.
  - destruct (m !! key) as [v|] eqn:Ev; [|done]. exfalso.
    apply list_find_None in E. rewrite list.Forall_forall in E.
    apply (E (key, v)); [by apply btree_iter_elem|done].
Qed.

Lemma subject_environment_lookup env e id key :
  is_subject key = false -> env !! key = None -> key <> str "identifier" ->
  subject_environment env (Some e) id !! (str "subject." ++ key) =
  match attrs e !! key ≫= from_utf8 with
  | Some s => Some (EStr s)
  | None => env !! (str "subject." ++ key)
  end.
Proof.
  intros Hk He Hne. unfold subject_environment, Env_put.
  rewrite lookup_insert_ne.
  2:{ change (str "subject.identifier") with (str "subject." ++ str "identifier").
      intros Heq. apply app_inv_head in Heq. by symmetry in Heq. }
  rewrite add_attributes_lookup by (apply btree_iter_nodup || done).
  rewrite <- (btree_find (attrs e) key).
  destruct (list_find _ _) as [[i [k v]]|]; simpl; [|done]. by destruct (from_utf8 v).
Qed.

(** The environment a policy is evaluated in.  The identifier is always
    the authenticated one, even if the credential has an attribute of that
    name; an attribute with a UTF-8 value is bound under its name with the
    prefix "subject.", replacing a binding of that name which the
    environment had before; everything outside "subject." is left as configured. *)
Theorem subject_environment_spec env o id :
  subject_environment env o id !! str "subject.identifier" = Some (EStr id) /\
  (forall k, is_subject k = false -> subject_environment env o id !! k = env !! k) /\
  (forall e key v, o = Some e -> attrs e !! key = Some v -> utf8_valid v = true ->
     is_subject key = false -> env !! key = None -> key <> str "identifier" ->
     subject_environment env o id !! (str "subject." ++ key) = Some (EStr v)).
Proof.
  split; [|split].
  - unfold subject_environment, Env_put. apply lookup_insert_eq.
  - intros k Hk. unfold subject_environment, Env_put.
    rewrite lookup_insert_ne by (intros <-; by vm_compute in Hk).
    destruct o; [by apply add_attributes_other|done].
  - intros e key v -> Hv Hu Hk He Hne. rewrite subject_environment_lookup by done.
    rewrite Hv. simpl. unfold from_utf8. by rewrite Hu.
Qed.

(** ** Decisions *)

(** Attributes are strings: they do not add cycles to the environment. *)
Lemma ranked_put rk env k s : ranked rk env -> ranked rk (Env_put k (EStr s) env).
Proof.
  intros Hr k' e i. unfold Env_put. rewrite lookup_insert_Some.
  intros [[<- <-]|[_ He]] Hi; [by apply elem_of_nil in Hi|by eapply Hr].
Qed.

Lemma ranked_subject rk env o id : ranked rk env -> ranked rk (subject_environment env o id).
Proof.
  intros Hr. unfold subject_environment. apply ranked_put. destruct o as [e|]; [|done].
  generalize (btree_iter (attrs e)) as l. intros l. revert env Hr.
  induction l as [|[k v] l IH]; intros env Hr; [done|]. cbn [fold_left]. apply IH.
  unfold add_attribute. destruct (from_utf8 v); [|done].
  destruct (Env_contains env k); [done|]. by apply ranked_put.
Qed.

(** The policy [e] holds in the environment: the recursive evaluator gives
    [true]. *)
Definition holds_in (env : Env) (e : Expr) : Prop := exists n, denote n env e = oret (EBool true).

Section Decisions.
Context {S : Type} `{StorageLaws S} `{EntryCodecLaws} `{InfoCodec}.

(** The sender of the message satisfies the expression, in the state [s] of
    the attribute store at the time [now]. *)
Definition sender_satisfies (self : AbacAccessControl) (now : Z) (m : RelayMessage) (s : S)
  : Prop :=
  exists id, find_info (rm_local_msg m) = Ok id /\
    holds_in (subject_environment (abac_environment self) (attributes_at now s id) id)
      (abac_expression self).

(** The attributes of the sender cannot be read. *)
Definition attributes_fail (now : Z) (m : RelayMessage) (s : S) (e : Error) : Prop :=
  exists id, find_info (rm_local_msg m) = Ok id /\ (get_attributes (Some now) id s).1 = Err e.

Lemma eval_decides rk env e :
  ranked rk env -> exists n r, eval n e env = Some r /\ r <> Panic /\
    (r = Ok (EBool true) <-> holds_in env e).
Proof.
  intros Hrk. destruct (denote_total rk env e Hrk) as (n & v & Hd).
  destruct (denote_eval env n e v Hd) as [k Hk]. exists k, (unlift v).
  split; [done|]. split; [by destruct v|]. unfold holds_in. split.
  - exists n. destruct v; simplify_eq/=. done.
  - intros [n' Hn']. apply (denote_mono n (Nat.max n n') env e ltac:(lia)) in Hd.
    apply (denote_mono n' (Nat.max n n') env e ltac:(lia)) in Hn'.
    rewrite Hd in Hn'. by injection Hn' as ->.
Qed.

(** [AbacAccessControl] decides by the policy.  With an environment
    without cycles, given enough iterations it always answers (or
    passes on an error of the attribute storage), and the answer is yes
    exactly when the message came through a secure channel and the
    expression evaluates to [true] for the identity at its other end, with
    the attributes of that identity that have not expired; an evaluation
    that fails, or ends in anything but a boolean, denies. *)
Lemma abac_decides rk self now m s :
  ranked rk (abac_environment self) ->
  exists fuel, forall r s',
    Abac_is_authorized fuel self (Some now) m s = (r, s') ->
    r <> Panic /\ (forall e, r = Err e -> attributes_fail now m s e) /\
    forall o, r = Ok o -> exists b, o = Some b /\ (b = true <-> sender_satisfies self now m s).
Proof.
  intros Hrk. unfold Abac_is_authorized, sender_satisfies.
  destruct (find_info (rm_local_msg m)) as [id|e|] eqn:Ef.
  - set (env := subject_environment (abac_environment self) (attributes_at now s id) id).
    destruct (eval_decides rk env (abac_expression self)) as (n & v & Hv & Hp & Hiff).
    { by apply ranked_subject. }
    exists n. intros r s' Hr.
    apply sbind_inv in Hr as [(o & s1 & Hg & Hk)|[(er & Hg & ->)|[Hg ->]]];
      pose proof Hg as (Hgp & Ho & _)%get_attributes_spec; [| |done].
    2:{ split_and!; [done| |done]. intros e [= <-]. exists id. by rewrite Hg. }
    specialize (Ho o eq_refl) as ->. fold env in Hk. rewrite Hv in Hk.
    assert (Hb : exists b, r = Ok (Some b) /\ (b = true <-> v = Ok (EBool true))).
    { destruct v as [[| | |b| | |]|er|]; [..|done];
        cbv [sret] in Hk; injection Hk as <- <-; eexists; (split; [done|]);
        (split; [|by intros [=]]); try done. by intros ->. }
    destruct Hb as (b & -> & Hb). split_and!; [done..|]. intros ? [= <-]. exists b. split; [done|].
    rewrite Hb, Hiff. split; [by exists id|]. by intros (? & [= <-] & ?).
  - exists 0. intros r s' [= <- <-]. split_and!; [done..|]. intros o [= <-]. exists false.
    split; [done|]. split; [done|]. by intros (? & ? & _).
  - exfalso. revert Ef. unfold find_info, find_info_from_list, from_local_info.
    by repeat case_match.
Qed.

(** The expression of [create] on an environment of strings. *)
Lemma eq_policy_holds env k value :
  (forall e, env !! k = Some e -> exists s, e = EStr s) ->
  holds_in env (EList [EIdent (str "="); EIdent k; EStr value]) <-> env !! k = Some (EStr value).
Proof.
  intros Hs.
  assert (Hd : denote 3 env (EList [EIdent (str "="); EIdent k; EStr value]) =
    match env !! k with
    | Some (EStr s) => oret (EBool (bool_decide (s = value)))
    | Some _ => None
    | None => oerr (Unbound k)
    end).
  { cbn [denote]. change (builtin_of (str "=")) with (Some BEq).
    unfold apply_builtin, predicate. cbn [eval_all]. unfold Env_get.
    destruct (env !! k) as [e|] eqn:Ek; [|done]. destruct (Hs e eq_refl) as [s ->]. simpl.
    rewrite equals_ref_spec. simpl. by case_bool_decide. }
  unfold holds_in. split.
  - intros [n Hn]. apply (denote_mono n (Nat.max n 3) env _ ltac:(lia)) in Hn.
    assert (Heq3 : forall r, denote 3 env (EList [EIdent (str "="); EIdent k; EStr value]) = Some r ->
      Some r = oret (EBool true)).
    { intros r Hr. apply (denote_mono 3 (Nat.max n 3) env _ ltac:(lia)) in Hr. rewrite <- Hr. exact Hn. }
    rewrite Hd in Heq3. destruct (env !! k) as [e|] eqn:Ek.
    + destruct (Hs e eq_refl) as [s ->]. specialize (Heq3 _ eq_refl). injection Heq3 as Heq3.
      apply bool_decide_eq_true in Heq3 as ->. done.
    + by specialize (Heq3 _ eq_refl).
  - intros Ek. exists 3. rewrite Hd, Ek. by rewrite bool_decide_true.
Qed.

Lemma create_holds name value o id :
  utf8_valid value = true -> is_subject name = false -> name <> str "identifier" ->
  holds_in (subject_environment Env_new o id)
    (EList [EIdent (str "="); EIdent (str "subject." ++ name); EStr value]) <->
  exists e, o = Some e /\ attrs e !! name = Some value.
Proof.
  intros Hu Hs Hne.
  assert (Hl : subject_environment Env_new o id !! (str "subject." ++ name) =
    EStr <$> (((attrs <$> o) ≫= lookup name) ≫= from_utf8)).
  { destruct o as [e|].
    - rewrite subject_environment_lookup by done. simpl.
      destruct (attrs e !! name); [|done]. simpl. by destruct (from_utf8 _).
    - unfold subject_environment, Env_put. rewrite lookup_insert_ne; [done|].
      change (str "subject.identifier") with (str "subject." ++ str "identifier").
      intros Heq. apply app_inv_head in Heq. by symmetry in Heq. }
  rewrite eq_policy_holds, Hl.
  - destruct o as [e|]; simpl; [|naive_solver].
    destruct (attrs e !! name) as [v|] eqn:Ev; simpl; [|naive_solver].
    unfold from_utf8. destruct (utf8_valid v) eqn:Euv; simpl; naive_solver congruence.
  - intros e He. rewrite Hl in He. destruct (_ ≫= from_utf8); naive_solver.
Qed.

(** The access control made by [AbacAccessControl::create] for a name and
    a value lets a message pass exactly when its authenticated sender has
    that attribute, unexpired, with that value. *)
Theorem abac_create_decision name value now m s :
  utf8_valid value = true -> is_subject name = false -> name <> str "identifier" ->
  exists fuel, forall r s',
    Abac_is_authorized fuel (Abac_create name value) (Some now) m s = (r, s') ->
    r <> Panic /\ forall o, r = Ok o -> exists b, o = Some b /\
      (b = true <-> exists id e, find_info (rm_local_msg m) = Ok id /\
         attributes_at now s id = Some e /\ attrs e !! name = Some value).
Proof.
  intros Hu Hs Hne.
  destruct (abac_decides (fun _ => 0) (Abac_create name value) now m s) as [fuel Hf].
  { intros k e i He. simpl in He. unfold Env_new in He. by rewrite lookup_empty in He. }
  exists fuel. intros r s' Hr. destruct (Hf r s' Hr) as (Hp & _ & Ho). split; [done|].
  intros o Hro. destruct (Ho o Hro) as (b & -> & Hb). exists b. split; [done|].
  rewrite Hb. unfold sender_satisfies. simpl.
  split; intros (id & Hid).
  - destruct Hid as [Hid Hh]. apply create_holds in Hh as (e & He & Hv); [|done..]. eauto.
  - destruct Hid as (e & Hid & He & Hv). exists id. split; [done|].
    apply create_holds; [done..|]. eauto.
Qed.

(** C34: [PolicyAccessControl] looks the policy up before each decision.  If the
    bindings of its environment do not refer to each other in a cycle
    ([ranked]), then with enough iterations it comes to an end.  Without a
    policy for the resource and action the message is denied, a constant policy
    is the answer itself (without looking at the message), and any other policy
    is evaluated for the sender.  There is no decision only if the policy, or the
    attributes of the sender, cannot be read; this error is passed on. *)
Theorem policy_access_decision {P} `{PolicyStorage P} rk self now m (p p' : P) (s : S) ro :
  ranked rk (pac_environment self) ->
  get_policy (pac_resource self) (pac_action self) p = (ro, p') -> ro <> Panic ->
  exists fuel, forall r st,
    Policy_is_authorized fuel self (Some now) m (p, s) = (r, st) ->
    match r with
    | Ok d => exists o b, ro = Ok o /\ d = Some b /\
        (b = true <-> match o with
                      | None => False
                      | Some (EBool c) => c = true
                      | Some e => sender_satisfies (mkAbac e (pac_environment self)) now m s
                      end)
    | Err e => ro = Err e \/ (exists x, ro = Ok (Some x)) /\ attributes_fail now m s e
    | Panic => False
    end.
Proof.
  intros Hrk Hget Hp. unfold Policy_is_authorized.
  assert (Hrun : on_policies (S := S) (get_policy (pac_resource self) (pac_action self)) (p, s)
                 = (ro, (p', s))) by (simpl; by rewrite Hget).
  destruct ro as [o|e|]; [|exists 0; intros r st Hr; unfold sbind in Hr; rewrite Hrun in Hr|done].
  2:{ injection Hr as <- <-. by left. }
  setoid_rewrite (sbind_run _ _ _ _ _ Hrun).
  assert (Hexpr : forall e, o = Some e -> exists fuel, forall r st,
    on_attributes (Abac_is_authorized fuel (mkAbac e (pac_environment self)) (Some now) m) (p', s)
      = (r, st) ->
    match r with
    | Ok d => exists o' b, Ok (E := Error) o = Ok o' /\ d = Some b /\
        (b = true <-> sender_satisfies (mkAbac e (pac_environment self)) now m s)
    | Err e' => Ok o = Err e' \/ (exists x, Ok (E := Error) o = Ok (Some x)) /\ attributes_fail now m s e'
    | Panic => False
    end).
  { intros e ->. destruct (abac_decides rk (mkAbac e (pac_environment self)) now m s Hrk) as [n Hn].
    exists n. intros r st. simpl. destruct (Abac_is_authorized _ _ _ _ s) as [r' s'] eqn:E.
    intros [= <- <-]. destruct (Hn r' s' eq_refl) as (Hnp & He & Ho). destruct r' as [d|e'|]; [|right; eauto|done].
    destruct (Ho d eq_refl) as (b & -> & Hb). by exists (Some e), b. }
  destruct o as [[| | |b| | |]|];
    try (destruct (Hexpr _ eq_refl) as [n Hn]; exists n; intros r st Hr; specialize (Hn r st Hr);
         destruct r; [destruct Hn as (_ & b & _ & ? & ?); by eexists _, b | done..]).
  - exists 0. intros r st [= <- <-]. by eexists _, b.
  - exists 0. intros r st [= <- <-]. by eexists None, false.
Qed.
End Decisions.

(** ** Instances of the claims *)

Definition alice_message : RelayMessage := sample_relay.

Lemma abac_create_decision_witness :
  (exists fuel, forall r s',
    Abac_is_authorized fuel (Abac_create (str "r") (str "a")) (Some 99%Z) alice_message
      sample_store = (r, s') ->
    r <> Panic /\ forall o, r = Ok o -> exists b, o = Some b /\
      (b = true <-> exists id e, find_info (rm_local_msg alice_message) = Ok id /\
         attributes_at 99 sample_store id = Some e /\ attrs e !! str "r" = Some (str "a"))) /\
  (Abac_is_authorized 7 (Abac_create (str "r") (str "a")) (Some 99%Z) alice_message
     sample_store).1 = Ok (Some true) /\
  (Abac_is_authorized 7 (Abac_create (str "r") (str "a")) (Some 100%Z) alice_message
     sample_store).1 = Ok (Some false).
Proof.
  split; [|split; vm_compute; reflexivity].
  apply (abac_create_decision (str "r") (str "a")); [reflexivity|reflexivity|discriminate].
Defined.

Definition sample_policies : Memory :=
  Inner_set_policy (inr (str "res")) (inr (str "act"))
    (expr_eq [EIdent (str "subject.r"); EStr (str "a")]) ∅.

Lemma policy_access_decision_witness :
  let self := mkPolicyAccessControl (inr (str "res")) (inr (str "act")) ∅ in
  let policy := Some (expr_eq [EIdent (str "subject.r"); EStr (str "a")]) in
  (exists fuel, forall r st,
    Policy_is_authorized fuel self (Some 99%Z) alice_message (sample_policies, sample_store)
      = (r, st) ->
    match r with
    | Ok d => exists o b, Ok (E := Error) policy = Ok o /\ d = Some b /\
        (b = true <-> match o with
                      | None => False
                      | Some (EBool c) => c = true
                      | Some e => sender_satisfies (mkAbac e ∅) 99 alice_message sample_store
                      end)
    | Err e => Ok policy = Err e \/
        (exists x, Ok (E := Error) policy = Ok (Some x)) /\ attributes_fail 99 alice_message sample_store e
    | Panic => False
    end) /\
  (Policy_is_authorized 7 self (Some 99%Z) alice_message (sample_policies, sample_store)).1
    = Ok (Some true).
Proof.
  split; [|vm_compute; reflexivity].
  apply (policy_access_decision (fun _ => 0)
    (mkPolicyAccessControl (inr (str "res")) (inr (str "act")) ∅) 99 alice_message
    sample_policies sample_policies sample_store
    (Ok (Some (expr_eq [EIdent (str "subject.r"); EStr (str "a")])))).
  - intros k e i He. simpl in He. by rewrite lookup_empty in He.
  - assert (Hg : Inner_get_policy sample_policies (inr (str "res")) (inr (str "act")) =
      Some (expr_eq [EIdent (str "subject.r"); EStr (str "a")])) by (vm_compute; reflexivity).
    cbn [get_policy memory_policies pac_resource pac_action]. rewrite Hg. reflexivity.
  - discriminate.
Defined.
