(* ===== verification/IpAddr.v ===== *)
(** * Text form of IP addresses: the part of [std::net] the multi-addresses use

    [FromStr] and [Display] of [Ipv4Addr] and [Ipv6Addr].  An address is the
    list of its 4 or 16 octets. *)

From Stdlib Require Import ZArith Lia.
From Stdlib Require Strings.Byte Strings.String.
From stdpp Require Import base list numbers option countable.
From S2P Require Import Prelude.
From S2P Require Import RustStr.

Local Open Scope Z_scope.

(** ** Parsing *)

(** The digits at the front of the text. *)
Fixpoint span_digits (radix : Z) (s : bytes) : list Z * bytes :=
  match s with
  | c :: r =>
      match to_digit radix c with
      | Some d => let (ds, rest) := span_digits radix r in (d :: ds, rest)
      | None => ([], s)
      end
  | [] => ([], [])
  end.

Definition digits_to_Z (radix : Z) (ds : list Z) : Z := fold_left (fun a d => a * radix + d) ds 0.

(** [Parser::read_number]: at most [max_digits] digits follow, the value is at
    most [bound]. *)
Definition read_number (radix : Z) (max_digits : nat) (allow_zero_prefix : bool) (bound : Z)
    (s : bytes) : option (Z * bytes) :=
  let (ds, rest) := span_digits radix s in
  let has_leading_zero := match ds with 0 :: _ => true | _ => false end in
  if Nat.eqb (length ds) 0 then None
  else if Nat.ltb max_digits (length ds) then None
  else if negb allow_zero_prefix && has_leading_zero && Nat.ltb 1 (length ds) then None
  else let v := digits_to_Z radix ds in
       if bound <? v then None else Some (v, rest).

(** [Parser::read_given_char] *)
Definition read_char (c : byte) (s : bytes) : option bytes :=
  match s with
  | x :: r => if bool_decide (x = c) then Some r else None
  | [] => None
  end.

(** [Parser::read_separator]: the separator comes before all items but the
    first. *)
Definition read_separator {A} (sep : byte) (index : nat) (inner : bytes -> option (A * bytes))
    (s : bytes) : option (A * bytes) :=
  match index with
  | O => inner s
  | S _ => match read_char sep s with
           | Some s => inner s
           | None => None
           end
  end.

Definition read_octet (index : nat) (s : bytes) : option (Z * bytes) :=
  read_separator Byte.x2e index (read_number 10 3 false 255) s.

(** [Parser::read_ipv4_addr] *)
Definition read_ipv4_addr (s : bytes) : option (bytes * bytes) :=
  match read_octet 0 s with
  | Some (a, s) =>
      match read_octet 1 s with
      | Some (b, s) =>
          match read_octet 2 s with
          | Some (c, s) =>
              match read_octet 3 s with
              | Some (d, s) => Some (map byte_of [a; b; c; d], s)
              | None => None
              end
          | None => None
          end
      | None => None
      end
  | None => None
  end.

Definition ip4_from_str (s : bytes) : option bytes :=
  if Nat.ltb 15 (length s) then None
  else match read_ipv4_addr s with
       | Some (o, []) => Some o
       | _ => None
       end.

(** [read_groups]: at most [n] more groups, of which [i] are read.  The groups
    read, whether an IPv4 address ended them, and the rest. *)
Fixpoint read_groups (n i : nat) (s : bytes) : list Z * bool * bytes :=
  match n with
  | O => ([], false, s)
  | S n' =>
      let v4 := match n' with
                | O => None
                | S _ => read_separator Byte.x3a i read_ipv4_addr s
                end in
      match v4 with
      | Some (o, s') =>
          ([from_be_bytes 0 (take 2 o); from_be_bytes 0 (drop 2 o)], true, s')
      | None =>
          match read_separator Byte.x3a i (read_number 16 4 true 65535) s with
          | Some (g, s') => let '(gs, v4, s'') := read_groups n' (S i) s' in (g :: gs, v4, s'')
          | None => ([], false, s)
          end
      end
  end.

Definition read_ipv6_addr (s : bytes) : option (list Z * bytes) :=
  let '(head, head_ipv4, s) := read_groups 8 0 s in
  let head_size := length head in
  if Nat.eqb head_size 8 then Some (head, s)
  else if head_ipv4 : bool then None
  else match read_char Byte.x3a s with
       | Some s =>
           match read_char Byte.x3a s with
           | Some s =>
               let limit := (8 - (head_size + 1))%nat in
               let '(tail, _, s) := read_groups limit 0 s in
               Some (head ++ repeat 0 (8 - head_size - length tail) ++ tail, s)
           | None => None
           end
       | None => None
       end.

Definition ip6_octets (groups : list Z) : bytes := concat (map (to_be_bytes 2) groups).

Definition ip6_from_str (s : bytes) : option bytes :=
  match read_ipv6_addr s with
  | Some (gs, []) => Some (ip6_octets gs)
  | _ => None
  end.

(** ** Display *)

Definition ip4_display (o : bytes) : bytes := join (str ".") (map (fun b => to_dec (byte_val b)) o).

Fixpoint segments (o : bytes) : list Z :=
  match o with
  | a :: b :: r => from_be_bytes 0 [a; b] :: segments r
  | _ => []
  end.

Definition hex_digit (d : Z) : byte := if d <? 10 then byte_of (48 + d) else byte_of (87 + d).

(** [{:x}] of a [u16]. *)
Definition hex_display (n : Z) : bytes :=
  let ds := map hex_digit [n / 4096 mod 16; n / 256 mod 16; n / 16 mod 16; n mod 16] in
  let skip := if 4096 <=? n then 0%nat else if 256 <=? n then 1%nat
              else if 16 <=? n then 2%nat else 3%nat in
  drop skip ds.

(** The first longest run of zero segments: start and length. *)
Fixpoint longest_zeros (segs : list Z) (i cur_start cur_len best_start best_len : nat)
  : nat * nat :=
  match segs with
  | [] => (best_start, best_len)
  | s :: segs =>
      if s =? 0 then
        let cur_start := if Nat.eqb cur_len 0 then i else cur_start in
        let cur_len := S cur_len in
        if Nat.ltb best_len cur_len then longest_zeros segs (S i) cur_start cur_len cur_start cur_len
        else longest_zeros segs (S i) cur_start cur_len best_start best_len
      else longest_zeros segs (S i) 0 0 best_start best_len
  end.

Definition fmt_subslice (chunk : list Z) : bytes := join (str ":") (map hex_display chunk).

(** [to_ipv4_mapped]: [::ffff:a.b.c.d]. *)
Definition to_ipv4_mapped (o : bytes) : option bytes :=
  if bool_decide (take 12 o = repeat Byte.x00 10 ++ [Byte.xff; Byte.xff]) then Some (drop 12 o)
  else None.

Definition ip6_display (o : bytes) : bytes :=
  match to_ipv4_mapped o with
  | Some v4 => str "::ffff:" ++ ip4_display v4
  | None =>
      let segs := segments o in
      let (start, len) := longest_zeros segs 0 0 0 0 0 in
      if Nat.ltb 1 len then
        fmt_subslice (take start segs) ++ str "::" ++ fmt_subslice (drop (start + len) segs)
      else fmt_subslice segs
  end.

(** ** Reading back a printed IPv4 address *)

Definition no_digit (s : bytes) : bool :=
  match s with
  | c :: _ => match to_digit 10 c with Some _ => false | None => true end
  | [] => true
  end.

Lemma span_digits_app l ds rest :
  map (to_digit 10) l = map Some ds -> no_digit rest = true ->
  span_digits 10 (l ++ rest) = (ds, rest).
Proof.
  revert ds; induction l as [|c l IH]; intros [|d ds]; simpl; try done.
  - destruct rest as [|c rest]; simpl; [done|]. by destruct (to_digit 10 c).
  - intros [= -> Hl] Hr. by rewrite (IH ds).
Qed.

(** The digits of a number that fits an octet, and what [read_number] checks
    of them. *)
Definition octet_ok (n : Z) : bool :=
  let l := to_dec n in
  let ds := map (fun c => default 0 (to_digit 10 c)) l in
  forallb (fun c => match to_digit 10 c with Some _ => true | None => false end) l &&
  negb (Nat.eqb (length ds) 0) && negb (Nat.ltb 3 (length ds)) &&
  negb (match ds with 0 :: _ => true | _ => false end && Nat.ltb 1 (length ds)) &&
  (digits_to_Z 10 ds =? n).

Lemma octets_ok : forallb octet_ok (map Z.of_nat (seq 0 256)) = true.
Proof. vm_compute. reflexivity. Qed.

Lemma octet_ok_all n : 0 <= n < 256 -> octet_ok n = true.
Proof.
  intros Hn. pose proof octets_ok as H. rewrite forallb_forall in H. apply H.
  apply in_map_iff. exists (Z.to_nat n). split; [lia|]. apply in_seq. lia.
Qed.

Lemma read_number_octet n rest :
  0 <= n < 256 -> no_digit rest = true ->
  read_number 10 3 false 255 (to_dec n ++ rest) = Some (n, rest).
Proof.
  intros Hn Hr. pose proof (octet_ok_all n Hn) as H. unfold octet_ok in H.
  rewrite !andb_true_iff, !negb_true_iff in H. destruct H as [[[[Hd H0] H3] Hz] Hv].
  unfold read_number.
  rewrite (span_digits_app _ (map (fun c => default 0 (to_digit 10 c)) (to_dec n))); [|clear -Hd|done].
  - rewrite H0, H3. simpl negb. rewrite andb_true_l, Hz. apply Z.eqb_eq in Hv. rewrite Hv.
    by rewrite (proj2 (Z.ltb_ge _ _)) by lia.
  - rewrite forallb_forall in Hd. rewrite map_map. apply map_ext_in. intros c Hc.
    specialize (Hd c Hc). by destruct (to_digit 10 c).
Qed.

Lemma ip4_roundtrip a b c d : ip4_from_str (ip4_display [a; b; c; d]) = Some [a; b; c; d].
Proof.
  unfold ip4_from_str, ip4_display. cbn [map join].
  pose proof (byte_val_range a). pose proof (byte_val_range b).
  pose proof (byte_val_range c). pose proof (byte_val_range d).
  assert (Hlen : forall n, 0 <= n < 256 -> (length (to_dec n) <= 3)%nat).
  { intros n Hn. pose proof (octet_ok_all n Hn) as Ho. unfold octet_ok in Ho.
    rewrite !andb_true_iff, !negb_true_iff in Ho. destruct Ho as [[[_ H3] _] _].
    apply Nat.ltb_ge in H3. by rewrite length_map in H3. }
  rewrite (proj2 (Nat.ltb_ge _ _)).
  2:{ rewrite !length_app. simpl. pose proof (Hlen _ H). pose proof (Hlen _ H0).
      pose proof (Hlen _ H1). pose proof (Hlen _ H2). lia. }
  unfold read_ipv4_addr, read_octet, read_separator.
  rewrite read_number_octet by done. cbn [app str]. simpl read_char. cbv iota.
  rewrite read_number_octet by done. simpl read_char. cbv iota.
  rewrite read_number_octet by done. simpl read_char. cbv iota.
  rewrite <- (app_nil_r (to_dec (byte_val d))), read_number_octet by done. simpl.
  by rewrite !byte_of_val.
Qed.
