(* ===== verification/MultiAddr.v ===== *)
(** * Multi-addresses: [ockam_multiaddr/src]

    A multi-address is a sequence of protocol components, kept in binary form
    ([dat], of which the first [off] bytes have been dropped).  The variable-length
    integers come from the crate [unsigned_varint]: class [Varint].

    [TinyVec] is a byte list whether inline or on the heap. *)

From Stdlib Require Import ZArith Lia.
From Stdlib Require Strings.Byte Strings.String.
From stdpp Require Import base gmap list numbers option countable.
From S2P Require Import Prelude.
From S2P Require Import RustStr.
From S2P Require Import IpAddr.

Local Open Scope Z_scope.

(** The integers of [unsigned_varint]; decoding returns the rest of the input. *)
Class Varint := {
  encode_u32 : Z -> bytes;
  encode_usize : Z -> bytes;
  decode_u32 : bytes -> option (Z * bytes);
  decode_usize : bytes -> option (Z * bytes)
}.

(** An encoded number is read back, and what decoding reads depends only on
    the bytes it consumes, of which there is at least one. *)
Class VarintLaws `{Varint} := {
  decode_encode_u32 : forall n r, 0 <= n < 2 ^ 32 -> decode_u32 (encode_u32 n ++ r) = Some (n, r);
  decode_encode_usize : forall n r,
    0 <= n < 2 ^ 64 -> decode_usize (encode_usize n ++ r) = Some (n, r);
  decode_u32_local : forall l n r, decode_u32 l = Some (n, r) ->
    exists p, l = p ++ r /\ p <> [] /\ forall r', decode_u32 (p ++ r') = Some (n, r');
  decode_usize_local : forall l n r, decode_usize l = Some (n, r) ->
    exists p, l = p ++ r /\ p <> [] /\ forall r', decode_usize (p ++ r') = Some (n, r')
}.

Notation Code := Z (only parsing).

Inductive ErrorImpl :=
| EUnregistered (c : Code)
| EInvalidProto (c : Code)
| EUnregisteredPrefix (s : bytes)
| EInvalidVarint
| EMessage (m : bytes)
| EMessageUtf8   (* the message of a [Utf8Error], whose text is left out *)
| ERequiredBytes (c : Code) (n : Z)
| ECustom.

Record ProtoValue := mkProtoValue {
  pv_code : Code;
  pv_data : bytes
}.

(** ** The trait [Protocol] and its implementations *)

Record Protocol := mkProtocol {
  proto_ty : Type;
  CODE : Code;
  PREFIX : bytes;
  read_str : bytes -> result ErrorImpl proto_ty;
  write_str : proto_ty -> bytes;
  read_bytes : bytes -> result ErrorImpl proto_ty;
  write_bytes : proto_ty -> bytes
}.

(** [write!(f, "/{}/{}", PREFIX, value)] *)
Definition write_component (prefix value : bytes) : bytes := str "/" ++ prefix ++ str "/" ++ value.

(** [copy_from_slice] into an array of [n] bytes. *)
Definition read_array (n : nat) (input : bytes) : result ErrorImpl bytes :=
  if Nat.eqb (length input) n then Ok input else Panic.

(** [Display] of [ParseIntError] *)
Definition int_error_message (e : IntErrorKind) : bytes :=
  match e with
  | Empty => str "cannot parse integer from empty string"
  | InvalidDigit => str "invalid digit found in string"
  | PosOverflow => str "number too large to fit in target type"
  end.

Section Protocols.
Context `{Varint}.

Definition Ip4 : Protocol := {|
  proto_ty := bytes;
  CODE := 4;
  PREFIX := str "ip4";
  read_str := fun input => ok_or (ip4_from_str input) ECustom;
  read_bytes := fun input => read_array 4 input;
  write_str := fun o => write_component (str "ip4") (ip4_display o);
  write_bytes := fun o => encode_u32 4 ++ o
|}.

Definition Ip6 : Protocol := {|
  proto_ty := bytes;
  CODE := 41;
  PREFIX := str "ip6";
  read_str := fun input => ok_or (ip6_from_str input) ECustom;
  read_bytes := fun input => read_array 16 input;
  write_str := fun o => write_component (str "ip6") (ip6_display o);
  write_bytes := fun o => encode_u32 41 ++ o
|}.

Definition Tcp : Protocol := {|
  proto_ty := Z;
  CODE := 6;
  PREFIX := str "tcp";
  read_str := fun input => map_err (fun e => EMessage (int_error_message e)) (parse_uint 65535 input);
  read_bytes := fun input => let? b := read_array 2 input in Ok (from_be_bytes 0 b);
  write_str := fun p => write_component (str "tcp") (to_dec p);
  write_bytes := fun p => encode_u32 6 ++ to_be_bytes 2 p
|}.

(** The macro [gen_str_proto!]. *)
Definition gen_str_proto (c : Code) (p : bytes) : Protocol := {|
  proto_ty := bytes;
  CODE := c;
  PREFIX := p;
  read_str := fun input => Ok input;
  read_bytes := fun input => ok_or (from_utf8 input) EMessageUtf8;
  write_str := fun s => write_component p s;
  write_bytes := fun s => encode_u32 c ++ encode_usize (Z.of_nat (length s)) ++ s
|}.

Definition Worker : Protocol := gen_str_proto 102526 (str "worker").
Definition DnsAddr : Protocol := gen_str_proto 56 (str "dnsaddr").
Definition Service : Protocol := gen_str_proto 62526 (str "service").
Definition Node : Protocol := gen_str_proto 72526 (str "node").
Definition Project : Protocol := gen_str_proto 82526 (str "project").
Definition Space : Protocol := gen_str_proto 92526 (str "space").
Definition Secure : Protocol := gen_str_proto 99526 (str "secure").

Definition string_protocols : list Protocol :=
  [Worker; DnsAddr; Service; Node; Project; Space; Secure].
Definition std_protocols : list Protocol := [Ip4; Ip6; Tcp] ++ string_protocols.

(** ** The trait [Codec] and [StdCodec] *)

Record Codec := mkCodec {
  split_str : bytes -> bytes -> result ErrorImpl (bytes * bytes);
  split_bytes : Code -> bytes -> result ErrorImpl (bytes * bytes);
  is_valid_bytes : Code -> bytes -> result ErrorImpl bool;
  codec_write_bytes : ProtoValue -> bytes -> result ErrorImpl bytes;
  transcode_str : bytes -> bytes -> bytes -> result ErrorImpl bytes;
  transcode_bytes : Code -> bytes -> bytes -> result ErrorImpl bytes
}.

(** The arms of the matches of [StdCodec] on a code and on a prefix. *)
Definition std_by_code (c : Code) : option Protocol :=
  list_find (fun p => CODE p = c) std_protocols ≫= fun x => Some x.2.
Definition std_by_prefix (s : bytes) : option Protocol :=
  list_find (fun p => PREFIX p = s) std_protocols ≫= fun x => Some x.2.

(** [str::find('/')] and [split_at]. *)
Fixpoint split_slash (input : bytes) : bytes * bytes :=
  match input with
  | [] => ([], [])
  | c :: r => if bool_decide (c = Byte.x2f) then ([], input)
              else let (x, y) := split_slash r in (c :: x, y)
  end.

Definition Std_split_str (_ : bytes) (input : bytes) : result ErrorImpl (bytes * bytes) :=
  Ok (split_slash input).

Definition split_fixed (c : Code) (n : nat) (input : bytes) : result ErrorImpl (bytes * bytes) :=
  if Nat.ltb (length input) n then Err (ERequiredBytes c (Z.of_nat n))
  else Ok (take n input, drop n input).

Definition Std_split_bytes (code : Code) (input : bytes) : result ErrorImpl (bytes * bytes) :=
  if code =? 4 then split_fixed 4 4 input
  else if code =? 41 then split_fixed 41 16 input
  else if code =? 6 then split_fixed 6 2 input
  else if existsb (fun p => CODE p =? code) string_protocols then
    match decode_usize input with
    | Some (len, input) =>
        if Z.of_nat (length input) <? len then Err (ERequiredBytes code len)
        else Ok (take (Z.to_nat len) input, drop (Z.to_nat len) input)
    | None => Err EInvalidVarint
    end
  else Err (EUnregistered code).

(** [P::read_bytes(input).is_ok()] *)
Definition ok_bool {A} (r : result ErrorImpl A) : result ErrorImpl bool :=
  match r with
  | Ok _ => Ok true
  | Err _ => Ok false
  | Panic => Panic
  end.

Definition Std_is_valid_bytes (code : Code) (input : bytes) : result ErrorImpl bool :=
  match std_by_code code with
  | Some p => ok_bool (read_bytes p input)
  | None => Ok false
  end.

Definition Std_write_bytes (val : ProtoValue) (buf : bytes) : result ErrorImpl bytes :=
  match std_by_code (pv_code val) with
  | Some p => let? v := read_bytes p (pv_data val) in Ok (buf ++ write_bytes p v)
  | None => Err (EUnregistered (pv_code val))
  end.

Definition Std_transcode_str (prefix value buf : bytes) : result ErrorImpl bytes :=
  match std_by_prefix prefix with
  | Some p => let? v := read_str p value in Ok (buf ++ write_bytes p v)
  | None => Err (EUnregisteredPrefix prefix)
  end.

Definition Std_transcode_bytes (code : Code) (value out : bytes) : result ErrorImpl bytes :=
  match std_by_code code with
  | Some p => let? v := read_bytes p value in Ok (out ++ write_str p v)
  | None => Err (EUnregistered code)
  end.

Definition StdCodec : Codec := {|
  split_str := Std_split_str;
  split_bytes := Std_split_bytes;
  is_valid_bytes := Std_is_valid_bytes;
  codec_write_bytes := Std_write_bytes;
  transcode_str := Std_transcode_str;
  transcode_bytes := Std_transcode_bytes
|}.

(** ** [Registry] *)

Record Registry := mkRegistry {
  reg_bytes : gmap Z Codec;
  reg_strings : gmap bytes Codec
}.

Definition RegistryBuilder_new : Registry := mkRegistry ∅ ∅.

Definition has_code (r : Registry) (c : Code) : bool := bool_decide (is_Some (reg_bytes r !! c)).
Definition has_prefix (r : Registry) (p : bytes) : bool :=
  bool_decide (is_Some (reg_strings r !! p)).

Definition register (code : Code) (prefix : bytes) (codec : Codec) (r : Registry) : Registry :=
  mkRegistry (<[code := codec]> (reg_bytes r)) (<[prefix := codec]> (reg_strings r)).

Definition register_protocol (r : Registry) (p : Protocol) : Registry :=
  register (CODE p) (PREFIX p) StdCodec r.

Definition Registry_default : Registry :=
  fold_left register_protocol
    [Worker; Tcp; DnsAddr; Service; Node; Project; Space; Secure; Ip4; Ip6] RegistryBuilder_new.

Definition get_by_code (r : Registry) (c : Code) : option Codec := reg_bytes r !! c.
Definition get_by_prefix (r : Registry) (p : bytes) : option Codec := reg_strings r !! p.
End Protocols.

Section MultiAddr.
Context `{Varint}.

(** ** Iterators *)

Record BytesIter := mkBytesIter {
  bi_bytes : bytes;
  bi_offset : nat;
  bi_is_err : bool;
  bi_registry : Registry
}.

Definition BytesIter_with_registry (b : bytes) (reg : Registry) : BytesIter :=
  mkBytesIter b 0 false reg.

Definition item : Type := nat * Code * bytes.

Definition is_empty (l : bytes) : bool := match l with [] => true | _ => false end.

(** The item at the front of [input]: code, value, rest. *)
Definition next_item (reg : Registry) (input : bytes) : result ErrorImpl (Code * bytes * bytes) :=
  match decode_u32 input with
  | Some (code, b) =>
      match get_by_code reg code with
      | Some codec => let? (val, rest) := split_bytes codec code b in Ok (code, val, rest)
      | None => Err (EUnregistered code)
      end
  | None => Err EInvalidVarint
  end.

Definition BytesIter_next (it : BytesIter) : option (result ErrorImpl item) * BytesIter :=
  if Nat.leb (length (bi_bytes it)) (bi_offset it) || bi_is_err it then (None, it)
  else
    match next_item (bi_registry it) (drop (bi_offset it) (bi_bytes it)) with
    | Ok (code, val, rest) =>
        (Some (Ok (bi_offset it, code, val)),
         mkBytesIter (bi_bytes it) (length (bi_bytes it) - length rest) (bi_is_err it)
           (bi_registry it))
    | Err e => (Some (Err e), mkBytesIter (bi_bytes it) (bi_offset it) true (bi_registry it))
    | Panic => (Some Panic, it)
    end.

(** [ValidBytesIter::next]: an error is a panic. *)
Definition ValidBytesIter_next (it : BytesIter) : result ErrorImpl (option item) * BytesIter :=
  match BytesIter_next it with
  | (None, it) => (Ok None, it)
  | (Some (Ok x), it) => (Ok (Some x), it)
  | (Some _, it) => (Panic, it)
  end.

(** All items of a [ValidBytesIter].  Each one consumes a byte at least
    ([collect_items]), so that the number of bytes is enough fuel. *)
Fixpoint collect (fuel : nat) (it : BytesIter) : result ErrorImpl (list item) :=
  match fuel with
  | O => Panic
  | S fuel =>
      match ValidBytesIter_next it with
      | (Ok None, _) => Ok []
      | (Ok (Some x), it) => let? xs := collect fuel it in Ok (x :: xs)
      | (Err e, _) => Err e
      | (Panic, _) => Panic
      end
  end.

Definition split_once_slash (s : bytes) : option (bytes * bytes) :=
  match split_slash s with
  | (x, _ :: y) => Some (x, y)
  | (_, []) => None
  end.

(** [StrIter::next]: the prefix, the value and the string that remains. *)
Definition StrIter_next (reg : Registry) (string : bytes)
  : option (result ErrorImpl (bytes * bytes * bytes)) :=
  if is_empty string then None
  else
    let (prefix, value) := match split_once_slash string with
                           | Some ([], s) =>
                               match split_once_slash s with
                               | Some (p, r) => (p, r)
                               | None => (s, [])
                               end
                           | Some (p, s) => (p, s)
                           | None => (string, [])
                           end in
    Some (match get_by_prefix reg prefix with
          | Some codec => let? (val, rest) := split_str codec prefix value in Ok (prefix, val, rest)
          | None => Err (EUnregisteredPrefix prefix)
          end).

(** ** [MultiAddr] *)

Record MultiAddr := mkMultiAddr {
  dat : bytes;
  off : nat;
  reg : Registry
}.

Definition MultiAddr_new (r : Registry) : MultiAddr := mkMultiAddr [] 0 r.
Definition MultiAddr_default : MultiAddr := MultiAddr_new Registry_default.

(** [&self.dat[self.off..]] *)
Definition as_ref (m : MultiAddr) : result ErrorImpl bytes := slice_from (dat m) (off m).

(** The loop of [try_from_str]; the value is shorter than the string it was
    cut from, so that the length is enough fuel. *)
Fixpoint from_str_loop (fuel : nat) (r : Registry) (string b : bytes) : result ErrorImpl bytes :=
  match fuel with
  | O => Panic
  | S fuel =>
      match StrIter_next r string with
      | None => Ok b
      | Some next =>
          let? (pv, rest) := next in
          let (prefix, value) := pv : bytes * bytes in
          let? codec := ok_or (get_by_prefix r prefix) (EUnregisteredPrefix prefix) in
          let? b := transcode_str codec prefix value b in
          from_str_loop fuel r rest b
      end
  end.

Definition try_from_str (input : bytes) (r : Registry) : result ErrorImpl MultiAddr :=
  let? b := from_str_loop (S (length input)) r input [] in Ok (mkMultiAddr b 0 r).

(** The loop of [try_from_bytes]. *)
Fixpoint from_bytes_loop (fuel : nat) (it : BytesIter) : result ErrorImpl unit :=
  match fuel with
  | O => Panic
  | S fuel =>
      match BytesIter_next it with
      | (None, _) => Ok tt
      | (Some x, it) =>
          let? (oc, value) := x in
          let code := (oc : nat * Code).2 in
          let? codec := ok_or (get_by_code (bi_registry it) code) (EUnregistered code) in
          let? valid := is_valid_bytes codec code value in
          if negb valid then Err (EInvalidProto code) else from_bytes_loop fuel it
      end
  end.

Definition try_from_bytes (input : bytes) (r : Registry) : result ErrorImpl MultiAddr :=
  let? _ := from_bytes_loop (S (length input)) (BytesIter_with_registry input r) in
  Ok (mkMultiAddr input 0 r).

Definition MultiAddr_is_empty (m : MultiAddr) : result ErrorImpl bool :=
  let? b := as_ref m in Ok (is_empty b).
Definition MultiAddr_len (m : MultiAddr) : result ErrorImpl nat :=
  let? b := as_ref m in Ok (length b).

(** [PartialEq] *)
Definition MultiAddr_eq (a b : MultiAddr) : result ErrorImpl bool :=
  let? x := as_ref a in let? y := as_ref b in Ok (bool_decide (x = y)).

Definition MultiAddr_clone (m : MultiAddr) : result ErrorImpl MultiAddr :=
  if Nat.ltb 0 (off m) then
    let? d := slice_from (dat m) (off m) in Ok (mkMultiAddr d 0 (reg m))
  else Ok (mkMultiAddr (dat m) (off m) (reg m)).

(** [debug_assert!]: a panic in debug builds. *)
Definition debug_assert (b : bool) : result ErrorImpl unit := if b then Ok tt else Panic.

Definition push_back (p : Protocol) (v : proto_ty p) (m : MultiAddr) : result ErrorImpl MultiAddr :=
  match get_by_code (reg m) (CODE p) with
  | None => Err (EUnregistered (CODE p))
  | Some _ =>
      let? _ := debug_assert (bool_decide (is_Some (get_by_prefix (reg m) (PREFIX p)))) in
      Ok (mkMultiAddr (dat m ++ write_bytes p v) (off m) (reg m))
  end.

Definition push_back_value (p : ProtoValue) (m : MultiAddr) : result ErrorImpl MultiAddr :=
  match get_by_code (reg m) (pv_code p) with
  | Some codec => let? d := codec_write_bytes codec p (dat m) in Ok (mkMultiAddr d (off m) (reg m))
  | None => Err (EUnregistered (pv_code p))
  end.

(** The dropped prefix of [dat] is copied too, and [off] is kept. *)
Definition push_front (p : Protocol) (v : proto_ty p) (m : MultiAddr) : result ErrorImpl MultiAddr :=
  match get_by_code (reg m) (CODE p) with
  | None => Err (EUnregistered (CODE p))
  | Some _ =>
      let? _ := debug_assert (bool_decide (is_Some (get_by_prefix (reg m) (PREFIX p)))) in
      Ok (mkMultiAddr (write_bytes p v ++ dat m) (off m) (reg m))
  end.

Definition push_front_value (p : ProtoValue) (m : MultiAddr) : result ErrorImpl MultiAddr :=
  match get_by_code (reg m) (pv_code p) with
  | Some codec =>
      let? d := codec_write_bytes codec p [] in
      Ok (mkMultiAddr (d ++ dat m) (off m) (reg m))
  | None => Err (EUnregistered (pv_code p))
  end.

Definition iterator (m : MultiAddr) : result ErrorImpl BytesIter :=
  let? b := as_ref m in Ok (BytesIter_with_registry b (reg m)).

(** The items of the whole address: what a loop over an iterator, or
    [Iterator::last], goes through. *)
Definition MultiAddr_items (m : MultiAddr) : result ErrorImpl (list item) :=
  let? it := iterator m in collect (S (length (bi_bytes it))) it.

Definition item_value (x : item) : ProtoValue := mkProtoValue x.1.2 x.2.

(** [iter], collected.  The components of an address are valid, so that it
    makes no difference whether a loop over the iterator looks at all of
    them ([valid_iter]). *)
Definition MultiAddr_iter (m : MultiAddr) : result ErrorImpl (list ProtoValue) :=
  let? xs := MultiAddr_items m in Ok (map item_value xs).

Definition ends_with (l p : bytes) : bool :=
  Nat.leb (length p) (length l) && bool_decide (drop (length l - length p) l = p).

Definition pop_back (m : MultiAddr) : result ErrorImpl (option ProtoValue * MultiAddr) :=
  let? xs := MultiAddr_items m in
  match list.last xs with
  | Some (o, c, p) =>
      let? _ := debug_assert (ends_with (dat m) p) in
      let? dlen := MultiAddr_len m in
      let at_ := (off m + dlen - length p)%nat in
      if Nat.ltb (length (dat m)) at_ then Panic
      else
        let val := drop at_ (dat m) in
        let d := take at_ (dat m) in
        Ok (Some (mkProtoValue c val), mkMultiAddr (take (off m + o) d) (off m) (reg m))
  | None => Ok (None, m)
  end.

Definition pop_front (m : MultiAddr) : result ErrorImpl (option ProtoValue * MultiAddr) :=
  let? it := iterator m in
  let (r, it) := ValidBytesIter_next it in
  let? x := r in
  match x with
  | Some (_, c, p) =>
      let off' := (off m + bi_offset it)%nat in
      if Nat.ltb off' (length p) || Nat.ltb (length (dat m)) off' then Panic
      else
        let val := take (length p) (drop (off' - length p) (dat m)) in
        let? _ := debug_assert (bool_decide (val = p)) in
        Ok (Some (mkProtoValue c val), mkMultiAddr (dat m) off' (reg m))
  | None => Ok (None, m)
  end.

Definition drop_first (m : MultiAddr) : result ErrorImpl MultiAddr :=
  let? it := iterator m in
  let (r, it) := ValidBytesIter_next it in
  let? x := r in
  match x with
  | Some _ => Ok (mkMultiAddr (dat m) (off m + bi_offset it) (reg m))
  | None => Ok m
  end.

Definition drop_last (m : MultiAddr) : result ErrorImpl MultiAddr :=
  let? xs := MultiAddr_items m in
  match list.last xs with
  | Some (o, _, _) => Ok (mkMultiAddr (take (off m + o) (dat m)) (off m) (reg m))
  | None => Ok m
  end.

Definition MultiAddr_first (m : MultiAddr) : result ErrorImpl (option ProtoValue) :=
  let? it := iterator m in
  let? x := (ValidBytesIter_next it).1 in
  Ok (item_value <$> x).

Definition MultiAddr_last (m : MultiAddr) : result ErrorImpl (option ProtoValue) :=
  let? xs := MultiAddr_iter m in Ok (list.last xs).

Fixpoint try_extend (ps : list ProtoValue) (m : MultiAddr) : result ErrorImpl MultiAddr :=
  match ps with
  | [] => Ok m
  | p :: ps => let? m := push_back_value p m in try_extend ps m
  end.

Definition try_with (m : MultiAddr) (ps : list ProtoValue) : result ErrorImpl MultiAddr :=
  try_extend ps m.

(** [expect] on a result. *)
Definition expect {A} (r : result ErrorImpl A) : result ErrorImpl A :=
  match r with
  | Ok a => Ok a
  | _ => Panic
  end.

Definition MultiAddr_split (m : MultiAddr) (at_ : nat) : result ErrorImpl (MultiAddr * MultiAddr) :=
  let? xs := MultiAddr_iter m in
  let? a := expect (try_with MultiAddr_default (take at_ xs)) in
  let? b := expect (try_with MultiAddr_default (drop at_ xs)) in
  Ok (a, b).

Definition concat_mut (m other : MultiAddr) : result ErrorImpl MultiAddr :=
  let? xs := MultiAddr_iter other in try_extend xs m.
Definition MultiAddr_concat (m other : MultiAddr) : result ErrorImpl MultiAddr := concat_mut m other.

Inductive Match :=
| MatchVal (c : Code)
| MatchAny (cs : list Code).

Definition match_code (c : Match) (code : Code) : bool :=
  match c with
  | MatchVal c => code =? c
  | MatchAny cs => bool_decide (code ∈ cs)
  end.

(** The loop of [matches]: [n] is the number of codes not yet matched. *)
Fixpoint matches_loop (ps : list ProtoValue) (codes : list Match) (n : nat) : bool :=
  match ps, codes with
  | p :: ps, c :: codes =>
      if match_code c (pv_code p) then matches_loop ps codes (n - 1) else false
  | _, _ => Nat.eqb n 0
  end.

Definition MultiAddr_matches (m : MultiAddr) (start : nat) (codes : list Match) : result ErrorImpl bool :=
  let? xs := MultiAddr_iter m in Ok (matches_loop (drop start xs) codes (length codes)).

(** [Display]: an error of a codec other than a formatting one is ignored. *)
Fixpoint fmt_loop (r : Registry) (ps : list ProtoValue) (out : bytes) : result ErrorImpl bytes :=
  match ps with
  | [] => Ok out
  | p :: ps =>
      match get_by_code r (pv_code p) with
      | None => Panic
      | Some codec =>
          match transcode_bytes codec (pv_code p) (pv_data p) out with
          | Ok out => fmt_loop r ps out
          | Err _ => fmt_loop r ps out
          | Panic => Panic
          end
      end
  end.

Definition MultiAddr_fmt (m : MultiAddr) : result ErrorImpl bytes :=
  let? xs := MultiAddr_iter m in fmt_loop (reg m) xs [].

(** [cast::<P>().unwrap()] *)
Definition cast (p : Protocol) (v : ProtoValue) : result ErrorImpl (option (proto_ty p)) :=
  if negb (pv_code v =? CODE p) then Ok None
  else match read_bytes p (pv_data v) with
       | Ok x => Ok (Some x)
       | Err _ => Ok None
       | Panic => Panic
       end.

Definition cast_unwrap (p : Protocol) (v : ProtoValue) : result ErrorImpl (proto_ty p) :=
  let? o := cast p v in unwrap o.

(** The loop of [to_socket_addr] over the peekable iterator. *)
Fixpoint socket_loop (ps : list ProtoValue) : result ErrorImpl bytes :=
  match ps with
  | [] => Err (EMessage (str "No socket address found"))
  | p :: ps =>
      if pv_code p =? 4 then
        let? ip4 := cast_unwrap Ip4 p in
        let? q := unwrap (head ps) in
        let? port := cast_unwrap Tcp q in
        Ok (ip4_display ip4 ++ str ":" ++ to_dec port)
      else if pv_code p =? 41 then
        let? ip6 := cast_unwrap Ip6 p in
        let? q := unwrap (head ps) in
        let? port := cast_unwrap Tcp q in
        Ok (str "[" ++ ip6_display ip6 ++ str "]:" ++ to_dec port)
      else if pv_code p =? 56 then
        let? host := cast_unwrap DnsAddr p in
        match head ps with
        | Some q =>
            if pv_code q =? 6 then
              let? port := cast_unwrap Tcp q in Ok (host ++ str ":" ++ to_dec port)
            else socket_loop ps
        | None => socket_loop ps
        end
      else Err (EInvalidProto (pv_code p))
  end.

Definition to_socket_addr (m : MultiAddr) : result ErrorImpl bytes :=
  let? xs := MultiAddr_iter m in socket_loop xs.
End MultiAddr.
