(* ===== verification/MultiAddrSpec.v ===== *)
(** * Properties of multi-addresses

    A multi-address represents a list of components ([represents]); every
    operation acts on it as the corresponding operation on lists, iterating
    never panics, and both external forms are read back. *)

From Stdlib Require Import ZArith Lia.
From Stdlib Require Strings.Byte Strings.String.
From stdpp Require Import base gmap list numbers option countable.
From S2P Require Import Prelude.
From S2P Require Import RustStr.
From S2P Require Import IpAddr.
From S2P Require Import MultiAddr.

Local Open Scope Z_scope.

Lemma to_from_be_bytes_2 a b : to_be_bytes 2 (from_be_bytes 0 [a; b]) = [a; b].
Proof.
  pose proof (byte_val_range a). pose proof (byte_val_range b).
  change (to_be_bytes 2 (from_be_bytes 0 [a; b])) with
    [byte_of (Z.shiftr ((0 * 256 + byte_val a) * 256 + byte_val b) 8);
     byte_of (Z.shiftr ((0 * 256 + byte_val a) * 256 + byte_val b) 0)].
  rewrite Z.shiftr_0_r, Z.shiftr_div_pow2 by lia. change (2 ^ 8) with 256.
  f_equal; [|f_equal]; apply byte_val_inj; rewrite byte_val_of.
  - rewrite Z.div_add_l, (Z.div_small (byte_val b)) by lia. rewrite Z.mod_small; lia.
  - rewrite Z.add_comm, Z.mod_add by lia. apply Z.mod_small. lia.
Qed.

Section Spec.
Context `{VarintLaws}.

(** ** The default registry *)

Lemma registry_by_code c :
  get_by_code Registry_default c = (fun _ => StdCodec) <$> std_by_code c.
Proof.
  unfold get_by_code, Registry_default, std_by_code.
  cbn [fold_left register_protocol register reg_bytes std_protocols string_protocols app list_find].
  repeat match goal with
  | |- context [decide (CODE ?p = c)] => destruct (decide (CODE p = c)) as [<-|]; [reflexivity|]
  end.
  rewrite !lookup_insert_ne by done. reflexivity.
Qed.

Lemma registry_by_prefix s :
  get_by_prefix Registry_default s = (fun _ => StdCodec) <$> std_by_prefix s.
Proof.
  unfold get_by_prefix, Registry_default, std_by_prefix.
  cbn [fold_left register_protocol register reg_strings std_protocols string_protocols app list_find].
  repeat match goal with
  | |- context [decide (MultiAddr.PREFIX ?p = s)] =>
      destruct (decide (MultiAddr.PREFIX p = s)) as [<-|]; [reflexivity|]
  end.
  rewrite !lookup_insert_ne by done. reflexivity.
Qed.

(** ** Components *)

(** The bytes [raw] are a component with the value [v], whatever follows. *)
Definition is_comp (x : bytes * ProtoValue) : Prop :=
  x.1 <> [] /\
  (forall rest, next_item Registry_default (x.1 ++ rest) = Ok (pv_code x.2, pv_data x.2, rest)) /\
  Std_is_valid_bytes (pv_code x.2) (pv_data x.2) = Ok true /\
  exists pre, x.1 = pre ++ pv_data x.2.

Lemma split_fixed_local c n b v rest :
  split_fixed c n b = Ok (v, rest) ->
  b = v ++ rest /\ forall rest', split_fixed c n (v ++ rest') = Ok (v, rest').
Proof.
  unfold split_fixed. destruct (Nat.ltb_spec (length b) n) as [|Hl]; [done|].
  intros [= <- <-]. split; [by rewrite take_drop|]. intros rest'.
  assert (Hn : length (take n b) = n) by (rewrite length_take; lia).
  rewrite (proj2 (Nat.ltb_ge _ _)) by (rewrite length_app; lia).
  by rewrite take_app_length', drop_app_length' by done.
Qed.

Lemma std_split_local c b v rest :
  Std_split_bytes c b = Ok (v, rest) ->
  exists q, b = q ++ v ++ rest /\ forall rest', Std_split_bytes c (q ++ v ++ rest') = Ok (v, rest').
Proof.
  unfold Std_split_bytes. intros Hs.
  destruct (c =? 4); [exists []; cbn [app]; by apply split_fixed_local|].
  destruct (c =? 41); [exists []; cbn [app]; by apply split_fixed_local|].
  destruct (c =? 6); [exists []; cbn [app]; by apply split_fixed_local|].
  destruct (existsb _ string_protocols); [|done].
  destruct (decode_usize b) as [[len b']|] eqn:Ed; [|done].
  destruct (Z.ltb_spec (Z.of_nat (length b')) len) as [|Hl]; [done|]. injection Hs as <- <-.
  apply decode_usize_local in Ed as (q & -> & _ & Hq). exists q.
  split; [by rewrite take_drop|]. intros rest'. rewrite Hq.
  destruct (decide (0 <= len)) as [Hp|Hneg].
  - assert (Hn : length (take (Z.to_nat len) b') = Z.to_nat len) by (rewrite length_take; lia).
    rewrite (proj2 (Z.ltb_ge _ _)) by (rewrite length_app; lia).
    by rewrite take_app_length', drop_app_length' by done.
  - replace (Z.to_nat len) with 0%nat by lia. simpl.
    by rewrite (proj2 (Z.ltb_ge _ _)) by lia.
Qed.

Lemma next_item_local l c v rest :
  next_item Registry_default l = Ok (c, v, rest) ->
  exists raw, l = raw ++ rest /\ raw <> [] /\ (exists pre, raw = pre ++ v) /\
    forall rest', next_item Registry_default (raw ++ rest') = Ok (c, v, rest').
Proof.
  unfold next_item. destruct (decode_u32 l) as [[code b]|] eqn:Ed; [|done].
  rewrite registry_by_code. destruct (std_by_code code) as [p|] eqn:Ep; [|done]. simpl.
  destruct (Std_split_bytes code b) as [[v' rest']| |] eqn:Es; simpl; [|done..].
  intros [= <- <- <-]. apply decode_u32_local in Ed as (q & -> & Hne & Hq).
  apply std_split_local in Es as (q' & -> & Hq'). exists (q ++ q' ++ v').
  split; [by rewrite <- !app_assoc|]. split; [by intros [? _]%app_nil|].
  split; [exists (q ++ q'); by rewrite <- app_assoc|].
  intros r. rewrite <- !app_assoc, Hq, registry_by_code, Ep. simpl. by rewrite Hq'.
Qed.

(** A value the codec accepts, of a size the length prefix can hold. *)
Definition valid_value (p : ProtoValue) : Prop :=
  Std_is_valid_bytes (pv_code p) (pv_data p) = Ok true /\ Z.of_nat (length (pv_data p)) < 2 ^ 64.

Lemma std_by_code_cases c p :
  std_by_code c = Some p -> CODE p = c /\ p ∈ std_protocols.
Proof.
  unfold std_by_code. destruct (list_find _ _) as [[i x]|] eqn:E; [|done]. intros [= <-].
  apply list_find_Some in E as (Hi & Hc & _). split; [done|]. by eapply list_elem_of_lookup_2.
Qed.

Lemma encode_u32_nonempty c : 0 <= c < 2 ^ 32 -> encode_u32 c <> [].
Proof.
  intros Hc. pose proof (decode_encode_u32 c [] Hc) as Hd.
  apply decode_u32_local in Hd as (p & Hp & Hne & _). rewrite !app_nil_r in Hp. by rewrite Hp.
Qed.

(** A code, then a body from which the codec splits the value. *)
Lemma comp_of_parts c body d pre :
  0 <= c < 2 ^ 32 -> is_Some (std_by_code c) -> Std_is_valid_bytes c d = Ok true ->
  body = pre ++ d -> (forall rest, Std_split_bytes c (body ++ rest) = Ok (d, rest)) ->
  is_comp (encode_u32 c ++ body, mkProtoValue c d).
Proof.
  intros Hc [p Hp] Hv Hb Hs. split; [|split; [|split; [done|]]]; simpl.
  - intros [He _]%app_nil. by apply encode_u32_nonempty in He.
  - intros rest. unfold next_item. rewrite <- app_assoc, decode_encode_u32 by done.
    rewrite registry_by_code, Hp. simpl. by rewrite Hs.
  - exists (encode_u32 c ++ pre). by rewrite Hb, app_assoc.
Qed.

Lemma split_fixed_exact c n d rest :
  length d = n -> split_fixed c n (d ++ rest) = Ok (d, rest).
Proof.
  intros Hd. unfold split_fixed. rewrite (proj2 (Nat.ltb_ge _ _)) by (rewrite length_app; lia).
  by rewrite take_app_length', drop_app_length' by done.
Qed.

Lemma read_array_ok n d x : read_array n d = Ok x -> x = d /\ length d = n.
Proof. unfold read_array. destruct (Nat.eqb_spec (length d) n); [|done]. by intros [= ->]. Qed.

Lemma std_split_string c d rest :
  existsb (fun p => CODE p =? c) string_protocols = true -> Z.of_nat (length d) < 2 ^ 64 ->
  Std_split_bytes c ((encode_usize (Z.of_nat (length d)) ++ d) ++ rest) = Ok (d, rest).
Proof.
  intros Hc Hd. unfold Std_split_bytes.
  destruct (Z.eqb_spec c 4) as [->|]; [done|]. destruct (Z.eqb_spec c 41) as [->|]; [done|].
  destruct (Z.eqb_spec c 6) as [->|]; [done|]. rewrite Hc, <- app_assoc, decode_encode_usize by lia.
  rewrite (proj2 (Z.ltb_ge _ _)) by (rewrite length_app; lia).
  by rewrite Nat2Z.id, take_app_length, drop_app_length.
Qed.

Lemma string_protocol_spec p :
  p ∈ string_protocols -> exists c s, p = gen_str_proto c s /\ 0 <= c < 2 ^ 32 /\
    existsb (fun q => CODE q =? c) string_protocols = true.
Proof.
  unfold string_protocols. rewrite !elem_of_cons, elem_of_nil.
  intros [->|[->|[->|[->|[->|[->|[->|[]]]]]]]]; (eexists _, _; split; [reflexivity|]);
    (split; [lia|reflexivity]).
Qed.

Lemma std_protocols_cases p :
  p ∈ std_protocols -> p = Ip4 \/ p = Ip6 \/ p = Tcp \/ p ∈ string_protocols.
Proof. unfold std_protocols. rewrite elem_of_app, !elem_of_cons, elem_of_nil. naive_solver. Qed.

(** The bytes a protocol writes for a value it reads from [d]. *)
Lemma write_bytes_comp c p d v :
  std_by_code c = Some p -> Z.of_nat (length d) < 2 ^ 64 -> read_bytes p d = Ok v ->
  is_comp (write_bytes p v, mkProtoValue c d).
Proof.
  intros Hp Hlen Hr. pose proof (std_by_code_cases c p Hp) as [Hc Hin].
  assert (Hv : Std_is_valid_bytes c d = Ok true).
  { unfold Std_is_valid_bytes. by rewrite Hp, Hr. }
  assert (Hs : is_Some (std_by_code c)) by (by exists p).
  destruct (std_protocols_cases p Hin) as [->|[->|[->|Hstr]]]; simpl in Hc; subst c.
  - apply read_array_ok in Hr as [-> Hd]. apply (comp_of_parts _ _ _ []); try done;
      intros rest; by apply split_fixed_exact.
  - apply read_array_ok in Hr as [-> Hd]. apply (comp_of_parts _ _ _ []); try done;
      intros rest; by apply split_fixed_exact.
  - simpl in Hr. destruct (read_array 2 d) as [x| |] eqn:Ha; [|done..].
    apply read_array_ok in Ha as [-> Hd]. injection Hr as <-.
    destruct d as [|b0 [|b1 [|? ?]]]; try done.
    simpl write_bytes. rewrite to_from_be_bytes_2. apply (comp_of_parts _ _ _ []); try done;
      intros rest; by apply split_fixed_exact.
  - destruct (string_protocol_spec p Hstr) as (c & s & -> & Hrange & Hex).
    simpl in *. unfold from_utf8 in Hr.
    destruct (utf8_valid d); [|done]. injection Hr as <-.
    apply (comp_of_parts _ _ _ (encode_usize (Z.of_nat (length d)))); try done.
    intros rest. by apply std_split_string.
Qed.

(** What the codec writes for a valid value is a component with that value. *)
Lemma write_comp p :
  valid_value p ->
  exists raw, (forall buf, Std_write_bytes p buf = Ok (buf ++ raw)) /\ is_comp (raw, p).
Proof.
  destruct p as [c d]. intros [Hv Hlen]. simpl in *.
  unfold Std_is_valid_bytes in Hv. destruct (std_by_code c) as [p|] eqn:Ep; [|done].
  destruct (read_bytes p d) as [v| |] eqn:Er; [|done..].
  exists (write_bytes p v). split; [|by apply (write_bytes_comp c p d v)].
  intros buf. unfold Std_write_bytes. simpl. by rewrite Ep, Er.
Qed.

(** ** Iterating over a well-formed address *)

Definition well_formed (l : bytes) (cs : list (bytes * ProtoValue)) : Prop :=
  l = concat cs.*1 /\ Forall is_comp cs.

Fixpoint offsets (o : nat) (cs : list (bytes * ProtoValue)) : list item :=
  match cs with
  | [] => []
  | (raw, p) :: cs => (o, pv_code p, pv_data p) :: offsets (o + length raw) cs
  end.

Lemma iter_next_nil b : BytesIter_next (mkBytesIter b (length b) false Registry_default)
  = (None, mkBytesIter b (length b) false Registry_default).
Proof. unfold BytesIter_next. simpl. by rewrite Nat.leb_refl. Qed.

Lemma iter_next_cons pre raw p rest :
  is_comp (raw, p) ->
  BytesIter_next (mkBytesIter (pre ++ raw ++ rest) (length pre) false Registry_default) =
  (Some (Ok (length pre, pv_code p, pv_data p)),
   mkBytesIter (pre ++ raw ++ rest) (length pre + length raw) false Registry_default).
Proof.
  intros (Hne & Hn & _). unfold BytesIter_next. simpl in *.
  rewrite (proj2 (Nat.leb_gt _ _)); simpl.
  2:{ rewrite !length_app. destruct raw; simpl; [done|lia]. }
  rewrite drop_app_length, Hn. do 2 f_equal. rewrite !length_app. lia.
Qed.

Lemma collect_items pre cs fuel :
  Forall is_comp cs -> (length cs < fuel)%nat ->
  collect fuel (mkBytesIter (pre ++ concat cs.*1) (length pre) false Registry_default)
  = Ok (offsets (length pre) cs).
Proof.
  intros Hcs. revert pre fuel; induction Hcs as [|[raw p] cs Hc _ IH]; intros pre [|fuel] Hf;
    try (simpl in Hf; lia); cbn [collect].
  - unfold ValidBytesIter_next. simpl. rewrite app_nil_r, iter_next_nil. done.
  - unfold ValidBytesIter_next. cbn [fmap list_fmap concat fst].
    rewrite (iter_next_cons pre raw p) by done. rewrite app_assoc, <- length_app.
    rewrite IH by (simpl in Hf; lia). simpl. by rewrite length_app.
Qed.
Lemma comps_length cs : Forall is_comp cs -> (length cs <= length (concat cs.*1))%nat.
Proof.
  induction 1 as [|[raw p] cs (Hne & _) _ IH]; [simpl; lia|].
  change (concat ((raw, p) :: cs).*1) with (raw ++ concat cs.*1).
  rewrite length_app. destruct raw; [done|]. cbn [length]. lia.
Qed.

(** ** The list a multi-address represents *)

Definition comps_of (m : MultiAddr) (cs : list (bytes * ProtoValue)) : Prop :=
  reg m = Registry_default /\ (off m <= length (dat m))%nat /\
  well_formed (drop (off m) (dat m)) cs.

Definition represents (m : MultiAddr) (ps : list ProtoValue) : Prop :=
  exists cs, comps_of m cs /\ ps = cs.*2.

Lemma comps_iterator m cs :
  comps_of m cs ->
  iterator m = Ok (mkBytesIter (concat cs.*1) 0 false Registry_default).
Proof.
  intros (Hr & Ho & Hw & _). unfold iterator, as_ref. rewrite slice_from_ok by done. simpl.
  unfold BytesIter_with_registry. by rewrite Hr, Hw.
Qed.

Lemma comps_items m cs : comps_of m cs -> MultiAddr_items m = Ok (offsets 0 cs).
Proof.
  intros Hm. unfold MultiAddr_items. rewrite (comps_iterator m cs Hm). cbn [rbind bi_bytes].
  destruct Hm as (_ & _ & _ & Hcs).
  apply (collect_items [] cs); [done|]. apply comps_length in Hcs. lia.
Qed.

Lemma offsets_values o cs : map item_value (offsets o cs) = cs.*2.
Proof.
  revert o; induction cs as [|[raw [c d]] cs IH]; intros o; simpl; [done|]. by rewrite IH.
Qed.

Lemma comps_iter m cs : comps_of m cs -> MultiAddr_iter m = Ok cs.*2.
Proof.
  intros Hm. unfold MultiAddr_iter. rewrite (comps_items m cs Hm). simpl. by rewrite offsets_values.
Qed.

(** Iterating over an address yields its components and never panics. *)
Lemma valid_iter m ps : represents m ps -> MultiAddr_iter m = Ok ps.
Proof. intros (cs & Hm & ->). by apply comps_iter. Qed.

Lemma offsets_app o cs cs' :
  offsets o (cs ++ cs') = offsets o cs ++ offsets (o + length (concat cs.*1)) cs'.
Proof.
  revert o; induction cs as [|[raw p] cs IH]; intros o; [simpl; by rewrite Nat.add_0_r|].
  change (concat ((raw, p) :: cs).*1) with (raw ++ concat cs.*1). cbn [app offsets].
  rewrite IH, length_app. do 2 f_equal. f_equal. lia.
Qed.

Lemma new_comps : comps_of (MultiAddr_new Registry_default) [].
Proof. split; [done|]. split; [done|]. split; [done|]. constructor. Qed.

Lemma new_represents : represents MultiAddr_default [].
Proof. exists []. split; [apply new_comps|done]. Qed.

Lemma concat_snoc (cs : list (bytes * ProtoValue)) raw p :
  concat (cs ++ [(raw, p)]).*1 = concat cs.*1 ++ raw.
Proof. rewrite fmap_app, concat_app. simpl. by rewrite app_nil_r. Qed.

Lemma push_back_comps m cs p :
  comps_of m cs -> valid_value p ->
  exists raw, is_comp (raw, p) /\
    push_back_value p m = Ok (mkMultiAddr (dat m ++ raw) (off m) (reg m)) /\
    comps_of (mkMultiAddr (dat m ++ raw) (off m) (reg m)) (cs ++ [(raw, p)]).
Proof.
  intros (Hr & Ho & Hw & Hcs) Hp. destruct (write_comp p Hp) as (raw & Hraw & Hc).
  exists raw. split; [done|]. split.
  - unfold push_back_value. rewrite Hr, registry_by_code.
    destruct Hp as [Hv _]. unfold Std_is_valid_bytes in Hv.
    destruct (std_by_code (pv_code p)); [|done]. simpl. by rewrite Hraw.
  - split; [done|]. simpl. split; [rewrite length_app; lia|]. split.
    + rewrite concat_snoc, drop_app_le by done. by rewrite Hw.
    + apply Forall_app. split; [done|]. by constructor.
Qed.

Lemma push_front_comps m cs p :
  comps_of m cs -> valid_value p -> off m = 0%nat ->
  exists m', push_front_value p m = Ok m' /\ off m' = 0%nat /\
    exists raw, comps_of m' ((raw, p) :: cs).
Proof.
  intros (Hr & Ho & Hw & Hcs) Hp Hz. destruct (write_comp p Hp) as (raw & Hraw & Hc).
  exists (mkMultiAddr (raw ++ dat m) (off m) (reg m)). split; [|split; [done|]].
  - unfold push_front_value. rewrite Hr, registry_by_code.
    destruct Hp as [Hv _]. unfold Std_is_valid_bytes in Hv.
    destruct (std_by_code (pv_code p)); [|done]. simpl. by rewrite Hraw.
  - exists raw. split; [done|]. simpl. split; [lia|]. rewrite Hz in *. split.
    + change (raw ++ dat m = raw ++ concat cs.*1). f_equal. exact Hw.
    + by constructor.
Qed.

(** The next item of a non-empty address. *)
Lemma next_first raw p cs :
  is_comp (raw, p) ->
  ValidBytesIter_next (mkBytesIter (concat ((raw, p) :: cs).*1) 0 false Registry_default) =
  (Ok (Some (0%nat, pv_code p, pv_data p)),
   mkBytesIter (concat ((raw, p) :: cs).*1) (length raw) false Registry_default).
Proof.
  intros Hc. unfold ValidBytesIter_next.
  pose proof (iter_next_cons [] raw p (concat cs.*1) Hc) as Hn.
  cbn [app length Nat.add] in Hn.
  change (concat ((raw, p) :: cs).*1) with (raw ++ concat cs.*1). by rewrite Hn.
Qed.

Lemma next_none :
  ValidBytesIter_next (mkBytesIter [] 0 false Registry_default) =
  (Ok None, mkBytesIter [] 0 false Registry_default).
Proof. done. Qed.

Lemma drop_comps m raw p cs :
  comps_of m ((raw, p) :: cs) ->
  comps_of (mkMultiAddr (dat m) (off m + length raw) (reg m)) cs /\
  take (length raw) (drop (off m) (dat m)) = raw /\
  (off m + length raw <= length (dat m))%nat.
Proof.
  intros (Hr & Ho & Hw & [Hc Hcs]%list.Forall_cons).
  change (concat ((raw, p) :: cs).*1) with (raw ++ concat cs.*1) in Hw.
  assert (Hlen : (off m + length raw <= length (dat m))%nat).
  { apply (f_equal length) in Hw. rewrite length_drop, length_app in Hw. lia. }
  split; [|split; [|done]].
  - split; [done|]. split; [done|]. simpl. split; [|done].
    rewrite <- drop_drop, Hw. apply drop_app_length.
  - rewrite Hw. apply take_app_length.
Qed.

Lemma pop_front_comps m raw p cs :
  comps_of m ((raw, p) :: cs) ->
  exists m', pop_front m = Ok (Some p, m') /\
    m' = mkMultiAddr (dat m) (off m + length raw) (reg m) /\ comps_of m' cs.
Proof.
  intros Hm. pose proof (drop_comps m raw p cs Hm) as (Hm' & Ht & Hlen).
  exists (mkMultiAddr (dat m) (off m + length raw) (reg m)). split; [|done].
  unfold pop_front. rewrite (comps_iterator _ _ Hm). cbn [rbind].
  destruct Hm as (Hr & Ho & Hw & [Hc Hcs]%list.Forall_cons).
  rewrite next_first by done. cbn [rbind bi_offset].
  destruct Hc as (_ & _ & _ & pre & Hpre). simpl in Hpre.
  assert (Hpl : (length (pv_data p) <= length raw)%nat) by (rewrite Hpre, length_app; lia).
  rewrite (proj2 (Nat.ltb_ge _ _)) by lia. rewrite (proj2 (Nat.ltb_ge _ _)) by lia. cbn [orb].
  assert (Hval : take (length (pv_data p)) (drop (off m + length raw - length (pv_data p)) (dat m))
                 = pv_data p).
  { replace (off m + length raw - length (pv_data p))%nat with (off m + length pre)%nat
      by (rewrite Hpre, length_app; lia).
    rewrite <- drop_drop, Hw. change (concat ((raw, p) :: cs).*1) with (raw ++ concat cs.*1).
    rewrite Hpre, <- !app_assoc, drop_app_length.
    apply take_app_length. }
  rewrite Hval, bool_decide_true by done. simpl. by destruct p.
Qed.

Lemma drop_first_comps m raw p cs :
  comps_of m ((raw, p) :: cs) -> exists m', drop_first m = Ok m' /\ comps_of m' cs.
Proof.
  intros Hm. pose proof (drop_comps m raw p cs Hm) as (Hm' & _ & _).
  exists (mkMultiAddr (dat m) (off m + length raw) (reg m)). split; [|done].
  unfold drop_first. rewrite (comps_iterator _ _ Hm). cbn [rbind].
  destruct Hm as (_ & _ & _ & [Hc _]%list.Forall_cons). by rewrite next_first.
Qed.

Lemma empty_comps m : comps_of m [] -> iterator m = Ok (mkBytesIter [] 0 false Registry_default).
Proof. apply comps_iterator. Qed.

(** Truncating at the last component. *)
Lemma truncate_comps m cs raw p :
  comps_of m (cs ++ [(raw, p)]) ->
  comps_of (mkMultiAddr (take (off m + length (concat cs.*1)) (dat m)) (off m) (reg m)) cs /\
  length (dat m) = (off m + length (concat cs.*1) + length raw)%nat /\
  drop (off m + length (concat cs.*1)) (dat m) = raw.
Proof.
  intros (Hr & Ho & Hw & [Hcs _]%Forall_app). rewrite concat_snoc in Hw.
  assert (Hlen : length (dat m) = (off m + length (concat cs.*1) + length raw)%nat).
  { apply (f_equal length) in Hw. rewrite length_drop, length_app in Hw. lia. }
  split; [|split; [done|]].
  - split; [done|]. simpl. split; [rewrite length_take; lia|]. split; [|done].
    rewrite <- take_drop_commute, Hw. apply take_app_length.
  - by rewrite <- drop_drop, Hw, drop_app_length.
Qed.

Lemma last_offsets cs raw p :
  list.last (offsets 0 (cs ++ [(raw, p)])) =
  Some (length (concat cs.*1), pv_code p, pv_data p).
Proof. rewrite offsets_app. simpl. by rewrite last_snoc. Qed.

Lemma drop_last_comps m cs raw p :
  comps_of m (cs ++ [(raw, p)]) -> exists m', drop_last m = Ok m' /\ off m' = off m /\ comps_of m' cs.
Proof.
  intros Hm. destruct (truncate_comps m cs raw p Hm) as (Hm' & _ & _).
  eexists. split; [|split; [|exact Hm']]; [|done].
  unfold drop_last. rewrite (comps_items _ _ Hm). cbn [rbind]. by rewrite last_offsets.
Qed.

Lemma pop_back_comps m cs raw p :
  comps_of m (cs ++ [(raw, p)]) ->
  exists m', pop_back m = Ok (Some p, m') /\ off m' = off m /\ comps_of m' cs.
Proof.
  intros Hm. destruct (truncate_comps m cs raw p Hm) as (Hm' & Hlen & Hdrop).
  eexists. split; [|split; [|exact Hm']]; [|done].
  unfold pop_back. rewrite (comps_items _ _ Hm). cbn [rbind]. rewrite last_offsets.
  unfold MultiAddr_len, as_ref. rewrite slice_from_ok by lia. cbn [rbind].
  destruct Hm as (_ & Ho & _ & [_ [Hc _]%list.Forall_cons]%Forall_app).
  destruct Hc as (_ & _ & _ & pre & Hpre). simpl in Hpre.
  assert (Hpl : length raw = (length pre + length (pv_data p))%nat) by (by rewrite Hpre, length_app).
  rewrite length_drop.
  replace (off m + (length (dat m) - off m) - length (pv_data p))%nat
    with (off m + length (concat cs.*1) + length pre)%nat by lia.
  assert (Hd : drop (off m + length (concat cs.*1) + length pre) (dat m) = pv_data p).
  { by rewrite <- drop_drop, Hdrop, Hpre, drop_app_length. }
  unfold ends_with. rewrite (proj2 (Nat.leb_le _ _)) by lia.
  replace (length (dat m) - length (pv_data p))%nat
    with (off m + length (concat cs.*1) + length pre)%nat by lia.
  rewrite Hd, bool_decide_true by done. cbn [andb debug_assert rbind].
  rewrite (proj2 (Nat.ltb_ge _ _)) by lia. rewrite take_take.
  rewrite Nat.min_l by lia. by destruct p.
Qed.

Lemma clone_comps m cs :
  comps_of m cs -> exists m', MultiAddr_clone m = Ok m' /\ off m' = 0%nat /\ comps_of m' cs.
Proof.
  intros (Hr & Ho & Hw & Hcs). unfold MultiAddr_clone.
  destruct (Nat.ltb_spec 0 (off m)) as [Hp|Hp].
  - rewrite slice_from_ok by done. eexists. split; [done|]. split; [done|]. split; [done|].
    simpl. split; [lia|]. done.
  - eexists. split; [done|]. simpl. split; [lia|]. done.
Qed.

(** ** Sequences of operations *)

Inductive ma_op :=
| PushBack (p : ProtoValue)
| PushFront (p : ProtoValue)
| PopBack
| PopFront
| DropFirst
| DropLast
| CloneIt.

Definition run_op (op : ma_op) (m : MultiAddr)
  : result ErrorImpl (option ProtoValue * MultiAddr) :=
  match op with
  | PushBack p => let? m := push_back_value p m in Ok (None, m)
  | PushFront p => let? m := push_front_value p m in Ok (None, m)
  | PopBack => pop_back m
  | PopFront => pop_front m
  | DropFirst => let? m := drop_first m in Ok (None, m)
  | DropLast => let? m := drop_last m in Ok (None, m)
  | CloneIt => let? m := MultiAddr_clone m in Ok (None, m)
  end.

Definition spec_op (op : ma_op) (l : list ProtoValue) : option ProtoValue * list ProtoValue :=
  match op with
  | PushBack p => (None, l ++ [p])
  | PushFront p => (None, p :: l)
  | PopBack => (list.last l, take (length l - 1) l)
  | PopFront => (head l, tail l)
  | DropFirst => (None, tail l)
  | DropLast => (None, take (length l - 1) l)
  | CloneIt => (None, l)
  end.

(** An operation may be applied: pushed values are valid, and a component is
    pushed to the front only if none was removed there since the last
    [clone] ([fresh]). *)
Definition op_ok (fresh : bool) (op : ma_op) : Prop :=
  match op with
  | PushBack p => valid_value p
  | PushFront p => valid_value p /\ fresh = true
  | _ => True
  end.

Definition next_fresh (fresh : bool) (op : ma_op) : bool :=
  match op with
  | PopFront | DropFirst => false
  | CloneIt => true
  | _ => fresh
  end.

Lemma op_step fresh op m ps :
  represents m ps -> op_ok fresh op -> (fresh = true -> off m = 0%nat) ->
  exists m', run_op op m = Ok ((spec_op op ps).1, m') /\ represents m' (spec_op op ps).2 /\
    (next_fresh fresh op = true -> off m' = 0%nat).
Proof.
  intros (cs & Hm & ->) Hok Hf. destruct op as [p|p| | | | |]; simpl in Hok.
  - destruct (push_back_comps m cs p Hm Hok) as (raw & _ & Hr & Hm').
    simpl. rewrite Hr. eexists. split; [done|]. split; [|done].
    exists (cs ++ [(raw, p)]). split; [done|]. by rewrite fmap_app.
  - destruct Hok as [Hp Hfr].
    destruct (push_front_comps m cs p Hm Hp (Hf Hfr)) as (m' & Hr & Ho & raw & Hm').
    simpl. rewrite Hr. eexists. split; [done|]. split; [|done]. by exists ((raw, p) :: cs).
  - destruct (snoc_cases cs) as [->|(cs' & [raw p] & ->)].
    + simpl. unfold pop_back. rewrite (comps_items _ _ Hm). eexists. split; [done|].
      split; [by exists []|done].
    + destruct (pop_back_comps m cs' raw p Hm) as (m' & Hr & Ho & Hm'). simpl.
      rewrite Hr, fmap_app. simpl. rewrite last_snoc, length_app. simpl.
      rewrite Nat.add_sub, take_app_length. eexists. split; [done|].
      split; [by exists cs'|]. by rewrite Ho.
  - destruct cs as [|[raw p] cs].
    + simpl. unfold pop_front. rewrite (comps_iterator _ _ Hm). simpl. eexists. split; [done|].
      split; [by exists []|done].
    + destruct (pop_front_comps m raw p cs Hm) as (m' & Hr & _ & Hm'). simpl. rewrite Hr.
      eexists. split; [done|]. split; [by exists cs|done].
  - destruct cs as [|[raw p] cs].
    + simpl. unfold drop_first. rewrite (comps_iterator _ _ Hm). simpl. eexists. split; [done|].
      split; [by exists []|done].
    + destruct (drop_first_comps m raw p cs Hm) as (m' & Hr & Hm'). simpl. rewrite Hr.
      eexists. split; [done|]. split; [by exists cs|done].
  - destruct (snoc_cases cs) as [->|(cs' & [raw p] & ->)].
    + simpl. unfold drop_last. rewrite (comps_items _ _ Hm). eexists. split; [done|].
      split; [by exists []|done].
    + destruct (drop_last_comps m cs' raw p Hm) as (m' & Hr & Ho & Hm'). simpl.
      rewrite Hr, fmap_app, length_app. simpl. rewrite Nat.add_sub, take_app_length.
      eexists. split; [done|]. split; [by exists cs'|]. by rewrite Ho.
  - destruct (clone_comps m cs Hm) as (m' & Hr & Ho & Hm'). simpl. rewrite Hr.
    eexists. split; [done|]. split; [by exists cs|done].
Qed.

Fixpoint run_ops (ops : list ma_op) (m : MultiAddr)
  : result ErrorImpl (list (option ProtoValue) * MultiAddr) :=
  match ops with
  | [] => Ok ([], m)
  | op :: ops =>
      let? (o, m) := run_op op m in
      let? (os, m) := run_ops ops m in Ok (o :: os, m)
  end.

Fixpoint spec_ops (ops : list ma_op) (l : list ProtoValue)
  : list (option ProtoValue) * list ProtoValue :=
  match ops with
  | [] => ([], l)
  | op :: ops =>
      let (o, l) := spec_op op l in let (os, l) := spec_ops ops l in (o :: os, l)
  end.

Fixpoint ops_ok (fresh : bool) (ops : list ma_op) : Prop :=
  match ops with
  | [] => True
  | op :: ops => op_ok fresh op /\ ops_ok (next_fresh fresh op) ops
  end.

Lemma ops_steps fresh ops m ps :
  represents m ps -> ops_ok fresh ops -> (fresh = true -> off m = 0%nat) ->
  exists m', run_ops ops m = Ok ((spec_ops ops ps).1, m') /\ represents m' (spec_ops ops ps).2.
Proof.
  revert fresh m ps; induction ops as [|op ops IH]; intros fresh m ps Hm Hok Hf; simpl; [eauto|].
  destruct Hok as [Hop Hok].
  destruct (op_step fresh op m ps Hm Hop Hf) as (m1 & Hr & Hm1 & Hf1). rewrite Hr. simpl.
  destruct (IH _ m1 _ Hm1 Hok Hf1) as (m2 & Hr2 & Hm2). rewrite Hr2. simpl.
  exists m2. destruct (spec_op op ps) as [o l]. simpl in *.
  destruct (spec_ops ops l) as [os l']. by split.
Qed.

Lemma first_represents m ps : represents m ps -> MultiAddr_first m = Ok (head ps).
Proof.
  intros (cs & Hm & ->). unfold MultiAddr_first. rewrite (comps_iterator m cs Hm). cbn [rbind].
  destruct Hm as (_ & _ & _ & Hcs). destruct cs as [|[raw [c d]] cs]; [done|].
  apply list.Forall_cons in Hcs as [Hc _]. by rewrite (next_first raw _ cs Hc).
Qed.

Lemma last_represents m ps : represents m ps -> MultiAddr_last m = Ok (list.last ps).
Proof. intros Hm. unfold MultiAddr_last. by rewrite (valid_iter m ps Hm). Qed.

Lemma represents_valid m ps :
  represents m ps -> Forall (fun p => Std_is_valid_bytes (pv_code p) (pv_data p) = Ok true) ps.
Proof.
  intros (cs & (_ & _ & _ & Hcs) & ->). induction Hcs as [|x cs (_ & _ & Hv & _) _ IH]; by constructor.
Qed.

(** C39: a multi-address is a double-ended queue of protocol values.  Start
    from the empty address and apply any sequence of [push_back_value],
    [push_front_value], [pop_back], [pop_front], [drop_first], [drop_last] and
    [clone], where pushed values are valid and nothing is pushed to the front
    between a removal there and the next [clone].  No operation fails or
    panics, each pop returns the value that the same operation on a list of
    values returns, and at the end [iter], [first] and [last] show that list. *)
Theorem multiaddr_refines_deque ops :
  ops_ok true ops ->
  exists m, run_ops ops MultiAddr_default = Ok ((spec_ops ops []).1, m) /\
    MultiAddr_iter m = Ok (spec_ops ops []).2 /\
    MultiAddr_first m = Ok (head (spec_ops ops []).2) /\
    MultiAddr_last m = Ok (list.last (spec_ops ops []).2).
Proof.
  intros Hok. destruct (ops_steps true ops MultiAddr_default []) as (m & Hr & Hm); [|done|done|].
  - apply new_represents.
  - exists m. split; [done|]. split; [by apply valid_iter|].
    split; [by apply first_represents|by apply last_represents].
Qed.

(** ** Splitting and joining *)

Lemma extend_represents m ps qs :
  represents m ps -> Forall valid_value qs ->
  exists m', try_extend qs m = Ok m' /\ represents m' (ps ++ qs).
Proof.
  intros Hm Hqs. revert m ps Hm. induction Hqs as [|q qs Hq _ IH]; intros m ps Hm.
  { exists m. rewrite app_nil_r. eauto. }
  destruct (op_step false (PushBack q) m ps Hm Hq) as (m1 & Hr & Hm1 & _); [done|].
  simpl in Hr. apply rbind_ok in Hr as (m2 & Hr & [= ->]). simpl. rewrite Hr. simpl.
  destruct (IH m1 (ps ++ [q]) Hm1) as (m' & Hr' & Hm'). exists m'. by rewrite <-app_assoc in Hm'.
Qed.

(** Splitting an address at a position and joining the parts again. *)
Theorem split_concat_spec m ps k :
  represents m ps -> Forall valid_value ps ->
  exists a b ab, MultiAddr_split m k = Ok (a, b) /\
    MultiAddr_iter a = Ok (take k ps) /\ MultiAddr_iter b = Ok (drop k ps) /\
    MultiAddr_concat a b = Ok ab /\ MultiAddr_iter ab = Ok ps.
Proof.
  intros Hm Hv. pose proof new_represents as Hnew.
  rewrite <-(take_drop k ps) in Hv. apply Forall_app in Hv as [Ht Hd].
  destruct (extend_represents _ _ _ Hnew Ht) as (a & Ha & Hra).
  destruct (extend_represents _ _ _ Hnew Hd) as (b & Hb & Hrb).
  destruct (extend_represents _ _ _ Hra Hd) as (ab & Hab & Hrab).
  simpl in *. rewrite take_drop in Hrab. exists a, b, ab.
  unfold MultiAddr_split, MultiAddr_concat, concat_mut, try_with.
  rewrite (valid_iter _ _ Hm). cbn [rbind]. rewrite Ha, Hb. cbn [rbind expect].
  rewrite (valid_iter _ _ Hra), (valid_iter _ _ Hrb). cbn [rbind]. rewrite Hab.
  by rewrite (valid_iter _ _ Hrab).
Qed.

(** ** The text form *)

Definition no_slash (t : bytes) : Prop := Byte.x2f ∉ t.

(** The values whose text form names them: the value of a string protocol
    has no slash, and an IPv6 address is one whose text is read back. *)
Definition text_value (p : ProtoValue) : Prop :=
  valid_value p /\
  (pv_code p = 41 -> no_slash (ip6_display (pv_data p)) /\
                     ip6_from_str (ip6_display (pv_data p)) = Some (pv_data p)) /\
  (existsb (fun q => CODE q =? pv_code p) string_protocols = true -> no_slash (pv_data p)).

Definition slash_led (r : bytes) : Prop := r = [] \/ exists r', r = Byte.x2f :: r'.

Lemma split_slash_app t r : no_slash t -> slash_led r -> split_slash (t ++ r) = (t, r).
Proof.
  unfold no_slash. intros Ht Hr. induction t as [|b t IH].
  - destruct Hr as [->|[r' ->]]; done.
  - rewrite not_elem_of_cons in Ht. destruct Ht as [Hb Ht]. cbn [app split_slash].
    rewrite bool_decide_eq_false_2 by congruence. by rewrite (IH Ht).
Qed.

Lemma split_once_app t r : no_slash t -> split_once_slash (t ++ Byte.x2f :: r) = Some (t, r).
Proof.
  intros Ht. unfold split_once_slash. rewrite split_slash_app; [done..|]. right; eauto.
Qed.

Lemma str_iter_component prefix t r p :
  no_slash prefix -> no_slash t -> slash_led r -> std_by_prefix prefix = Some p ->
  StrIter_next Registry_default (write_component prefix t ++ r) = Some (Ok (prefix, t, r)).
Proof.
  intros Hp Ht Hr Hs. unfold StrIter_next, write_component.
  rewrite <-!app_assoc.
  change (str "/" ++ prefix ++ str "/" ++ t ++ r)
    with ([] ++ Byte.x2f :: (prefix ++ Byte.x2f :: t ++ r)).
  rewrite split_once_app by (unfold no_slash; set_solver). cbn [app is_empty].
  rewrite split_once_app by done. rewrite registry_by_prefix, Hs. simpl.
  unfold Std_split_str. by rewrite split_slash_app.
Qed.

Lemma digits_no_slash n : 0 <= n -> no_slash (to_dec n).
Proof.
  intros Hn. destruct (to_dec_digits n Hn) as (d & ds & -> & Hd). intros Hin.
  rewrite list.Forall_forall in Hd. specialize (Hd _ Hin). revert Hd. vm_compute. set_solver.
Qed.

Lemma no_slash_app a b : no_slash (a ++ b) <-> no_slash a /\ no_slash b.
Proof. unfold no_slash. rewrite elem_of_app. naive_solver. Qed.

Lemma ip4_no_slash a b c d : no_slash (ip4_display [a; b; c; d]).
Proof.
  unfold ip4_display. cbn [map join].
  pose proof (byte_val_range a). pose proof (byte_val_range b).
  pose proof (byte_val_range c). pose proof (byte_val_range d).
  assert (Hdot : no_slash (str ".")) by (unfold no_slash; vm_compute; set_solver).
  rewrite !no_slash_app. repeat split; try done; apply digits_no_slash; lia.
Qed.

Lemma std_prefix p : p ∈ std_protocols -> std_by_prefix (PREFIX p) = Some p /\ no_slash (PREFIX p).
Proof.
  intros Hp. apply std_protocols_cases in Hp. unfold string_protocols in Hp.
  rewrite !elem_of_cons, elem_of_nil in Hp. unfold no_slash.
  destruct Hp as [->|[->|[->|[->|[->|[->|[->|[->|[->|[->|[]]]]]]]]]]];
    (split; [reflexivity|apply (bool_decide_eq_true_1 (_ ∉ _)); vm_compute; reflexivity]).
Qed.

(** The text of a value: the prefix of its protocol and a text without a
    slash from which the protocol reads the value back. *)
Lemma text_of_value p :
  text_value p ->
  exists q v t, std_by_code (pv_code p) = Some q /\ read_bytes q (pv_data p) = Ok v /\
    write_str q v = write_component (PREFIX q) t /\ no_slash t /\ read_str q t = Ok v.
Proof.
  destruct p as [c d]. intros ([Hv _] & H6 & Hs). simpl in *.
  unfold Std_is_valid_bytes in Hv. destruct (std_by_code c) as [q|] eqn:Eq; [|done].
  destruct (read_bytes q d) as [v| |] eqn:Er; [|done..]. exists q, v.
  destruct (std_by_code_cases c q Eq) as [Hc Hin].
  destruct (std_protocols_cases q Hin) as [->|[->|[->|Hstr]]]; simpl in Hc; subst c.
  - simpl in *. destruct (read_array_ok _ _ _ Er) as [-> Hd].
    destruct d as [|b0 [|b1 [|b2 [|b3 [|? ?]]]]]; try done.
    exists (ip4_display [b0; b1; b2; b3]). repeat split; try done; [apply ip4_no_slash|].
    by rewrite ip4_roundtrip.
  - simpl in *. destruct (read_array_ok _ _ _ Er) as [-> Hd]. destruct (H6 eq_refl) as [Hn Hr].
    exists (ip6_display d). repeat split; try done. by rewrite Hr.
  - simpl in *. apply rbind_ok in Er as (x & Ex & [= <-]).
    destruct (read_array_ok _ _ _ Ex) as [-> Hd]. destruct d as [|b0 [|b1 [|? ?]]]; try done.
    pose proof (byte_val_range b0). pose proof (byte_val_range b1).
    assert (Hr : from_be_bytes 0 [b0; b1] = byte_val b0 * 256 + byte_val b1) by done.
    exists (to_dec (from_be_bytes 0 [b0; b1])). rewrite Ex, Hr.
    repeat split; try done; [apply digits_no_slash; lia|].
    by rewrite parse_uint_to_dec by lia.
  - destruct (string_protocol_spec q Hstr) as (c & s & -> & _ & Hex). simpl in *.
    unfold from_utf8 in *. destruct (utf8_valid d); [|done]. injection Er as <-.
    exists d. repeat split; auto.
Qed.

(** The texts of a list of values, with the bytes they are read back to. *)
Inductive texts : list ProtoValue -> bytes -> list (bytes * ProtoValue) -> Prop :=
| texts_nil : texts [] [] []
| texts_cons p ps q v t r cs :
    std_by_code (pv_code p) = Some q -> read_bytes q (pv_data p) = Ok v ->
    write_str q v = write_component (PREFIX q) t -> no_slash t -> read_str q t = Ok v ->
    is_comp (write_bytes q v, p) -> texts ps r cs ->
    texts (p :: ps) (write_component (PREFIX q) t ++ r) ((write_bytes q v, p) :: cs).

Lemma texts_exist ps : Forall text_value ps -> exists t cs, texts ps t cs.
Proof.
  induction 1 as [|p ps Hp _ (t & cs & IH)]; [exists [], []; constructor|].
  destruct (text_of_value p Hp) as (q & v & u & Hq & Hv & Hw & Hn & Hr).
  exists (write_component (PREFIX q) u ++ t), ((write_bytes q v, p) :: cs).
  econstructor; eauto. destruct p as [c d]. apply (write_bytes_comp c q d v); try done.
  by destruct Hp as ([_ Hlen] & _).
Qed.

Lemma texts_slash ps t cs : texts ps t cs -> slash_led t.
Proof. destruct 1; [by left|]. right. unfold write_component. rewrite <-app_assoc. by eexists. Qed.

Lemma texts_fmt ps t cs out : texts ps t cs -> fmt_loop Registry_default ps out = Ok (out ++ t).
Proof.
  intros Ht. revert out. induction Ht as [|p ps q v t r cs Hq Hv Hw Hn Hr Hc _ IH]; intros out; simpl.
  { by rewrite app_nil_r. }
  rewrite registry_by_code, Hq. simpl. unfold Std_transcode_bytes. rewrite Hq, Hv. simpl.
  by rewrite Hw, IH, <-app_assoc.
Qed.

Lemma texts_from_str ps t cs b fuel :
  texts ps t cs -> (length t < fuel)%nat ->
  from_str_loop fuel Registry_default t b = Ok (b ++ concat cs.*1).
Proof.
  intros Ht. revert b fuel. induction Ht as [|p ps q v t r cs Hq Hv Hw Hn Hr Hc Ht IH]; intros b fuel Hf.
  { destruct fuel; [lia|]. simpl. by rewrite app_nil_r. }
  destruct (std_by_code_cases _ _ Hq) as [_ Hin]. destruct (std_prefix q Hin) as [Hp Hns].
  destruct fuel as [|fuel]; [lia|]. cbn [from_str_loop].
  rewrite (str_iter_component _ _ _ q Hns Hn (texts_slash _ _ _ Ht) Hp). cbn [rbind].
  rewrite registry_by_prefix, Hp. cbn [fmap option_fmap option_map ok_or rbind].
  change (transcode_str StdCodec) with Std_transcode_str. unfold Std_transcode_str.
  rewrite Hp, Hr. cbn [rbind]. rewrite IH.
  - change (concat ((write_bytes q v, p) :: cs).*1) with (write_bytes q v ++ concat cs.*1).
    by rewrite <-app_assoc.
  - revert Hf. unfold write_component. rewrite !length_app. simpl. lia.
Qed.

Lemma texts_comps ps t cs : texts ps t cs -> Forall is_comp cs /\ cs.*2 = ps.
Proof. induction 1 as [|???????????? Hc _ [IH <-]]; [done|]. split; [by constructor|done]. Qed.

(** The text form of an address determines it.  If the components of [m]
    are valid, no string component has a slash in it and the IPv6 components
    are ones that [std::net] reads back, then [Display] prints [m], and
    [try_from_str] reads from that text an address with the same components. *)
Theorem text_roundtrip m ps :
  represents m ps -> Forall text_value ps ->
  exists t m', MultiAddr_fmt m = Ok t /\ try_from_str t Registry_default = Ok m' /\
    MultiAddr_iter m' = Ok ps.
Proof.
  intros Hm Hps. destruct (texts_exist ps Hps) as (t & cs & Ht).
  destruct (texts_comps ps t cs Ht) as [Hcs Hsnd].
  exists t, (mkMultiAddr (concat cs.*1) 0 Registry_default). repeat split.
  - unfold MultiAddr_fmt. rewrite (valid_iter m ps Hm). simpl.
    destruct Hm as (? & (-> & _) & _). by rewrite (texts_fmt ps t cs [] Ht).
  - unfold try_from_str. by rewrite (texts_from_str ps t cs [] _ Ht) by lia.
  - rewrite <-Hsnd. apply comps_iter. split; [done|]. split; [simpl; lia|]. by split.
Qed.

(** ** The binary form *)

Lemma next_item_comp r c v rest :
  next_item Registry_default r = Ok (c, v, rest) -> Std_is_valid_bytes c v = Ok true ->
  exists raw, r = raw ++ rest /\ is_comp (raw, mkProtoValue c v).
Proof.
  intros Hn Hv. destruct (next_item_local r c v rest Hn) as (raw & -> & Hne & Hpre & Hloc).
  exists raw. by repeat split.
Qed.

Lemma from_bytes_accepts pre cs fuel :
  Forall is_comp cs -> (length cs < fuel)%nat ->
  from_bytes_loop fuel (mkBytesIter (pre ++ concat cs.*1) (length pre) false Registry_default) = Ok tt.
Proof.
  intros Hcs. revert pre fuel. induction Hcs as [|[raw p] cs Hc _ IH]; intros pre fuel Hf.
  { destruct fuel; [simpl in Hf; lia|]. cbn [from_bytes_loop]. simpl concat. rewrite app_nil_r.
    by rewrite iter_next_nil. }
  destruct fuel as [|fuel]; [lia|]. cbn [from_bytes_loop].
  change (concat ((raw, p) :: cs).*1) with (raw ++ concat cs.*1).
  rewrite (iter_next_cons pre raw p _ Hc). cbn [rbind bi_registry].
  destruct Hc as (_ & _ & Hv & _). simpl in Hv.
  assert (Hs : is_Some (std_by_code (pv_code p))).
  { unfold Std_is_valid_bytes in Hv. destruct (std_by_code (pv_code p)); [eauto|done]. }
  destruct Hs as [q Hq]. simpl. rewrite registry_by_code, Hq. simpl. rewrite Hv. simpl.
  rewrite app_assoc, <-length_app. apply IH. simpl in Hf. lia.
Qed.

Lemma from_bytes_inv fuel pre r :
  from_bytes_loop fuel (mkBytesIter (pre ++ r) (length pre) false Registry_default) = Ok tt ->
  exists cs, well_formed r cs.
Proof.
  revert pre r. induction fuel as [|fuel IH]; intros pre r; [done|]. cbn [from_bytes_loop].
  unfold BytesIter_next. cbn [bi_bytes bi_offset bi_is_err bi_registry]. rewrite orb_false_r.
  destruct (Nat.leb_spec (length (pre ++ r)) (length pre)) as [Hl|Hl].
  { rewrite length_app in Hl. destruct r; [|simpl in Hl; lia]. intros _. by exists []. }
  rewrite drop_app_length. destruct (next_item _ r) as [[[c v] rest]| |] eqn:En; [|done..].
  cbn [rbind bi_registry snd fst]. intros Hok. apply rbind_ok in Hok as (codec & Hg & Hok).
  rewrite registry_by_code in Hg. destruct (std_by_code c) eqn:Ec; [|done]. injection Hg as <-.
  apply rbind_ok in Hok as ([|] & Hv & Hok); [|done].
  destruct (next_item_comp r c v rest En Hv) as (raw & -> & Hc).
  rewrite app_assoc in Hok. rewrite length_app, Nat.add_sub in Hok.
  destruct (IH _ _ Hok) as (cs & -> & Hcs). exists ((raw, mkProtoValue c v) :: cs).
  split; [done|by constructor].
Qed.

(** The binary form is checked exactly.  The bytes of an address are
    accepted by [try_from_bytes], which gives back its components.  An input
    that [try_from_bytes] accepts is kept as it is and is a sequence of
    components with valid values, so that iterating over it never panics. *)
Theorem try_from_bytes_exact :
  (forall m ps, represents m ps ->
    exists b m', as_ref m = Ok b /\ try_from_bytes b Registry_default = Ok m' /\
      MultiAddr_iter m' = Ok ps) /\
  (forall input m, try_from_bytes input Registry_default = Ok m ->
    as_ref m = Ok input /\
    exists ps, represents m ps /\ MultiAddr_iter m = Ok ps /\
      Forall (fun p => Std_is_valid_bytes (pv_code p) (pv_data p) = Ok true) ps).
Proof.
  unfold try_from_bytes. split.
  - intros m ps (cs & (_ & Ho & Hw & Hcs) & ->).
    exists (concat cs.*1), (mkMultiAddr (concat cs.*1) 0 Registry_default). split; [|split].
    + unfold as_ref. by rewrite slice_from_ok, Hw.
    + by rewrite (from_bytes_accepts [] cs) by (pose proof (comps_length cs Hcs); try done; lia).
    + apply comps_iter. split; [done|]. split; [simpl; lia|by split].
  - intros input m Hok. apply rbind_ok in Hok as ([] & Hl & [= <-]). split; [done|].
    destruct (from_bytes_inv _ [] input Hl) as (cs & Hw).
    assert (Hm : represents (mkMultiAddr input 0 Registry_default) cs.*2).
    { exists cs. split; [|done]. split; [done|]. split; [simpl; lia|done]. }
    exists cs.*2. split; [done|]. split; [by apply valid_iter|by eapply represents_valid].
Qed.

(** ** Pushing to the front after a removal there *)

Definition tcp_value (b0 b1 : byte) : ProtoValue := mkProtoValue 6 [b0; b1].

Lemma tcp_valid b0 b1 : valid_value (tcp_value b0 b1).
Proof. split; [reflexivity|simpl; lia]. Qed.

Lemma push_front_tcp m b0 b1 :
  reg m = Registry_default ->
  push_front_value (tcp_value b0 b1) m =
  Ok (mkMultiAddr ((encode_u32 6 ++ [b0; b1]) ++ dat m) (off m) (reg m)).
Proof.
  intros Hr. unfold push_front_value. rewrite Hr, registry_by_code.
  change (std_by_code (pv_code (tcp_value b0 b1))) with (Some Tcp).
  cbn [fmap option_fmap option_map codec_write_bytes StdCodec].
  unfold Std_write_bytes. change (std_by_code (pv_code (tcp_value b0 b1))) with (Some Tcp).
  cbn [read_bytes Tcp read_array pv_data tcp_value length Nat.eqb rbind write_bytes app].
  by rewrite to_from_be_bytes_2.
Qed.

Lemma tcp_comp b0 b1 : is_comp (encode_u32 6 ++ [b0; b1], tcp_value b0 b1).
Proof.
  rewrite <-(to_from_be_bytes_2 b0 b1).
  apply (write_bytes_comp 6 Tcp [b0; b1] (from_be_bytes 0 [b0; b1])); [done|simpl; lia|done].
Qed.

(** [push_front_value] (and [push_front]) copy the dropped bytes of the
    address behind the new component but keep the offset.  Push a TCP port to
    the front of an address, pop it, and push another port: the address
    starts with the popped port again, and the second one is not in it. *)
Theorem push_front_after_pop_front m ps a0 a1 b0 b1 :
  represents m ps -> off m = 0%nat ->
  exists m1 m2 m3,
    push_front_value (tcp_value a0 a1) m = Ok m1 /\
    pop_front m1 = Ok (Some (tcp_value a0 a1), m2) /\ MultiAddr_iter m2 = Ok ps /\
    push_front_value (tcp_value b0 b1) m2 = Ok m3 /\
    MultiAddr_iter m3 = Ok (tcp_value a0 a1 :: ps).
Proof.
  intros (cs & (Hr & Ho & Hw & Hcs) & ->) Hz. rewrite Hz in Hw.
  set (m1 := mkMultiAddr ((encode_u32 6 ++ [a0; a1]) ++ dat m) 0 (reg m)).
  assert (Hm1 : comps_of m1 ((encode_u32 6 ++ [a0; a1], tcp_value a0 a1) :: cs)).
  { split; [done|]. split; [simpl; lia|]. split.
    - change ((encode_u32 6 ++ [a0; a1]) ++ dat m = (encode_u32 6 ++ [a0; a1]) ++ concat cs.*1).
      f_equal. exact Hw.
    - constructor; [apply tcp_comp|done]. }
  destruct (pop_front_comps m1 _ _ _ Hm1) as (m2 & Hp & -> & Hm2).
  eexists m1, _, _. rewrite push_front_tcp by done. rewrite Hz. split; [done|].
  split; [exact Hp|]. split; [by apply comps_iter|].
  rewrite push_front_tcp by done. split; [done|].
  apply (comps_iter _ ((encode_u32 6 ++ [a0; a1], tcp_value a0 a1) :: cs)).
  destruct Hm1 as (Hr1 & Ho1 & Hw1). split; [done|]. cbn [dat off m1].
  rewrite !length_app. cbn [length Nat.add]. split; [lia|].
  replace (length (encode_u32 6) + 2)%nat with (length (encode_u32 6 ++ [b0; b1]))
    by (rewrite length_app; done).
  by rewrite drop_app_length.
Qed.

(** ** [to_socket_addr] *)

Definition is_ip (p : ProtoValue) : Prop := pv_code p = 4 \/ pv_code p = 41.

(** Whether the first component is a TCP port. *)
Definition tcp_led (ps : list ProtoValue) : bool :=
  match ps with
  | q :: _ => pv_code q =? 6
  | [] => false
  end.

Notation valid_bytes p := (Std_is_valid_bytes (pv_code p) (pv_data p) = Ok true) (only parsing).

(** [cast] to the protocol with the code of a valid value succeeds. *)
Lemma cast_valid p q :
  valid_bytes p -> std_by_code (pv_code p) = Some q -> exists v, cast_unwrap q p = Ok v.
Proof.
  intros Hv Hq. unfold Std_is_valid_bytes in Hv. rewrite Hq in Hv.
  destruct (std_by_code_cases _ _ Hq) as [Hc _].
  unfold cast_unwrap, cast. rewrite Hc, Z.eqb_refl. simpl.
  destruct (read_bytes q (pv_data p)) as [v| |]; [|done..]. by exists v.
Qed.

Lemma cast_other p q : pv_code p <> CODE q -> cast_unwrap q p = Panic.
Proof.
  intros Hc. unfold cast_unwrap, cast. by rewrite (proj2 (Z.eqb_neq _ _) Hc).
Qed.

(** The port after an IP address. *)
Lemma port_panics ps (k : Z -> result ErrorImpl bytes) :
  Forall (fun p => valid_bytes p) ps -> (forall n, k n <> Panic) ->
  rbind (unwrap (head ps)) (fun q => rbind (cast_unwrap Tcp q) k) = Panic <-> tcp_led ps = false.
Proof.
  intros Hv Hk. destruct Hv as [|q ps Hq _]; simpl; [done|].
  destruct (Z.eqb_spec (pv_code q) 6) as [E|E].
  - destruct (cast_valid q Tcp Hq) as (v & ->); [by rewrite E|]. simpl.
    split; [intros Hp; by destruct (Hk v)|done].
  - rewrite cast_other by done. done.
Qed.

(** After host names, an IP address that no TCP port follows. *)
Definition unpaired_ip (ps : list ProtoValue) : Prop :=
  exists ds p rest, ps = ds ++ p :: rest /\ Forall (fun d => pv_code d = 56) ds /\ is_ip p /\
    tcp_led rest = false.

Lemma unpaired_nil : ~ unpaired_ip [].
Proof. intros (ds & q & rest & E & _). by destruct ds. Qed.

Lemma unpaired_ip_cons p ps : is_ip p -> unpaired_ip (p :: ps) <-> tcp_led ps = false.
Proof.
  intros Hp. split.
  - intros (ds & q & rest & E & Hds & _ & Ht). destruct ds as [|d ds]; simplify_eq/=; [done|].
    apply list.Forall_cons in Hds as [Hd _]. destruct Hp; congruence.
  - intros Ht. exists [], p, ps. by repeat split.
Qed.

Lemma unpaired_dns_cons p ps : pv_code p = 56 -> unpaired_ip (p :: ps) <-> unpaired_ip ps.
Proof.
  intros Hp. split.
  - intros (ds & q & rest & E & Hds & Hq & Ht).
    destruct ds as [|d ds]; simplify_eq/=; [destruct Hq; congruence|].
    apply list.Forall_cons in Hds as [_ Hds]. by exists ds, q, rest.
  - intros (ds & q & rest & -> & Hds & Hq & Ht). exists (p :: ds), q, rest.
    repeat split; try done. by constructor.
Qed.

Lemma unpaired_other p ps : pv_code p <> 56 -> ~ is_ip p -> ~ unpaired_ip (p :: ps).
Proof.
  intros Hd Hi (ds & q & rest & E & Hds & Hq & _). destruct ds as [|d ds]; simplify_eq/=.
  by apply list.Forall_cons in Hds as [? _].
Qed.

Lemma socket_loop_panics ps :
  Forall (fun p => valid_bytes p) ps -> socket_loop ps = Panic <-> unpaired_ip ps.
Proof.
  induction 1 as [|p ps Hp Hps IH].
  { split; [done|]. by intros ?%unpaired_nil. }
  cbn [socket_loop]. destruct (Z.eqb_spec (pv_code p) 4) as [E4|E4].
  { destruct (cast_valid p Ip4 Hp) as (v & ->); [by rewrite E4|]. cbn [rbind].
    rewrite unpaired_ip_cons by (by left). by apply port_panics. }
  destruct (Z.eqb_spec (pv_code p) 41) as [E6|E6].
  { destruct (cast_valid p Ip6 Hp) as (v & ->); [by rewrite E6|]. cbn [rbind].
    rewrite unpaired_ip_cons by (by right). by apply port_panics. }
  destruct (Z.eqb_spec (pv_code p) 56) as [Ed|Ed].
  - rewrite unpaired_dns_cons by done.
    destruct (cast_valid p DnsAddr Hp) as (v & ->); [by rewrite Ed|]. cbn [rbind].
    destruct Hps as [|q ps Hq _]; [done|]. cbn [head].
    destruct (Z.eqb_spec (pv_code q) 6) as [Et|Et]; [|done].
    destruct (cast_valid q Tcp Hq) as (n & ->); [by rewrite Et|]. cbn [rbind].
    split; [done|]. intros Hu. exfalso. revert Hu.
    apply unpaired_other; [congruence|]. intros [?|?]; congruence.
  - split; [done|]. intros Hu. exfalso. revert Hu.
    apply unpaired_other; [done|]. by intros [?|?].
Qed.

(** The components of an address with a host name and a port. *)
Definition dns_value (host : bytes) : ProtoValue := mkProtoValue 56 host.

(** [to_socket_addr] prints the address and port of the first two
    components, a host name being kept as it is; and on an address of valid
    components it panics exactly when, possibly after some host names, there
    is an IP address that no TCP port follows. *)
Theorem to_socket_addr_outcomes m ps :
  represents m ps ->
  (to_socket_addr m = Panic <-> unpaired_ip ps) /\
  (forall host b0 b1 rest, ps = dns_value host :: tcp_value b0 b1 :: rest ->
    to_socket_addr m = Ok (host ++ str ":" ++ to_dec (byte_val b0 * 256 + byte_val b1))) /\
  (forall a b c d b0 b1 rest, ps = mkProtoValue 4 [a; b; c; d] :: tcp_value b0 b1 :: rest ->
    to_socket_addr m =
    Ok (ip4_display [a; b; c; d] ++ str ":" ++ to_dec (byte_val b0 * 256 + byte_val b1))).
Proof.
  intros Hm. pose proof (represents_valid m ps Hm) as Hv.
  unfold to_socket_addr. rewrite (valid_iter m ps Hm). cbn [rbind]. split; [|split].
  - by apply socket_loop_panics.
  - intros host b0 b1 rest ->. apply list.Forall_cons in Hv as [Hh _].
    cbn [pv_code dns_value pv_data] in Hh. unfold Std_is_valid_bytes in Hh.
    change (std_by_code 56) with (Some DnsAddr) in Hh. simpl in Hh.
    unfold socket_loop. simpl. unfold cast_unwrap, cast. simpl.
    unfold from_utf8 in *. by destruct (utf8_valid host).
  - intros a b c d b0 b1 rest ->. reflexivity.
Qed.
End Spec.

(** ** A fixed-width instance of the variable-length integers *)

Module FixedVarint.
Definition encode (n : Z) : bytes := to_be_bytes 8 n.
Definition decode (l : bytes) : option (Z * bytes) :=
  if Nat.ltb (length l) 8 then None else Some (from_be_bytes 0 (take 8 l), drop 8 l).

#[local] Instance fixed_varint : Varint := {|
  encode_u32 := encode; encode_usize := encode; decode_u32 := decode; decode_usize := decode
|}.

Lemma decode_encode n r : 0 <= n < 2 ^ 64 -> decode (encode n ++ r) = Some (n, r).
Proof.
  intros Hn. unfold decode, encode.
  pose proof (length_to_be_bytes 8 n) as Hl.
  rewrite (proj2 (Nat.ltb_ge _ _)) by (rewrite length_app, Hl; lia).
  rewrite take_app_length', drop_app_length' by done. by rewrite from_to_be_bytes.
Qed.

Lemma decode_local l n r :
  decode l = Some (n, r) ->
  exists p, l = p ++ r /\ p <> [] /\ forall r', decode (p ++ r') = Some (n, r').
Proof.
  unfold decode. destruct (Nat.ltb_spec (length l) 8) as [|Hl]; [done|]. intros [= <- <-].
  exists (take 8 l). split; [by rewrite take_drop|].
  assert (Ht : length (take 8 l) = 8%nat) by (rewrite length_take; lia).
  split; [by intros E; rewrite E in Ht|]. intros r'.
  rewrite (proj2 (Nat.ltb_ge _ _)) by (rewrite length_app, Ht; lia).
  by rewrite take_app_length', drop_app_length' by done.
Qed.

#[local] Instance fixed_laws : VarintLaws.
Proof.
  split; [|apply decode_encode|apply decode_local|apply decode_local].
  intros n r Hn. apply decode_encode. lia.
Qed.

Definition port_4000 : ProtoValue := tcp_value Byte.x0f Byte.xa0.
Definition worker_w : ProtoValue := mkProtoValue 102526 (str "w").
Definition host_h : ProtoValue := dns_value (str "localhost").

Lemma sample_valid p : In p [port_4000; worker_w; host_h] -> valid_value p.
Proof. intros [<-|[<-|[<-|[]]]]; (split; [vm_compute; reflexivity|simpl; lia]). Qed.

Lemma sample_represents : exists m,
  represents m [host_h; port_4000; worker_w] /\ off m = 0%nat.
Proof.
  pose proof new_represents as Hnew.
  destruct (extend_represents MultiAddr_default [] [host_h; port_4000; worker_w] Hnew) as (m & _ & Hm).
  { apply list.Forall_forall. intros p Hp. apply sample_valid. apply list_elem_of_In in Hp.
    simpl in *. tauto. }
  destruct Hm as (cs & Hm & E). destruct (clone_comps m cs Hm) as (m' & _ & Ho & Hm').
  exists m'. split; [by exists cs|done].
Qed.

Lemma multiaddr_refines_deque_witness : exists m,
  run_ops [PushBack port_4000; PushFront worker_w; PopFront; CloneIt; PushFront host_h; PopBack]
    MultiAddr_default = Ok ([None; None; Some worker_w; None; None; Some port_4000], m) /\
  MultiAddr_iter m = Ok [host_h].
Proof.
  destruct (multiaddr_refines_deque
    [PushBack port_4000; PushFront worker_w; PopFront; CloneIt; PushFront host_h; PopBack])
    as (m & Hr & Hi & _).
  - repeat split; try apply sample_valid; simpl; tauto.
  - exists m. split; [exact Hr|exact Hi].
Defined.

Lemma text_roundtrip_witness : exists m t m',
  MultiAddr_fmt m = Ok t /\ try_from_str t Registry_default = Ok m' /\
  MultiAddr_iter m' = Ok [host_h; port_4000; worker_w].
Proof.
  destruct sample_represents as (m & Hm & _). exists m.
  apply (text_roundtrip m [host_h; port_4000; worker_w] Hm).
  repeat constructor; try (vm_compute; done); try (simpl; lia); intros; try (by vm_compute in H);
    apply (bool_decide_eq_true_1 (_ ∉ _)); vm_compute; reflexivity.
Defined.

Lemma try_from_bytes_exact_witness : exists m b m',
  as_ref m = Ok b /\ try_from_bytes b Registry_default = Ok m' /\
  MultiAddr_iter m' = Ok [host_h; port_4000; worker_w].
Proof.
  destruct sample_represents as (m & Hm & _). exists m.
  exact (proj1 try_from_bytes_exact m _ Hm).
Defined.

Lemma push_front_after_pop_front_witness : exists m1 m2 m3,
  pop_front m1 = Ok (Some (tcp_value Byte.x00 Byte.x50), m2) /\
  MultiAddr_iter m2 = Ok [host_h; port_4000; worker_w] /\
  push_front_value (tcp_value Byte.x01 Byte.xbb) m2 = Ok m3 /\
  MultiAddr_iter m3 = Ok [tcp_value Byte.x00 Byte.x50; host_h; port_4000; worker_w].
Proof.
  destruct sample_represents as (m & Hm & Ho).
  destruct (push_front_after_pop_front m _ Byte.x00 Byte.x50 Byte.x01 Byte.xbb Hm Ho)
    as (m1 & m2 & m3 & _ & H2 & H3 & H4 & H5).
  exists m1, m2, m3. by repeat split.
Defined.

Lemma to_socket_addr_outcomes_witness : exists m,
  MultiAddr_iter m = Ok [host_h; port_4000; worker_w] /\ to_socket_addr m = Ok (str "localhost:4000").
Proof.
  destruct sample_represents as (m & Hm & _). exists m. split; [by apply valid_iter|].
  exact (proj1 (proj2 (to_socket_addr_outcomes m _ Hm)) _ _ _ _ eq_refl).
Defined.
End FixedVarint.
