(* ===== verification/Router.v ===== *)
(** * The router of a node: [ockam_node/src/router]

    The router owns the workers of a node: it maps addresses to mailbox
    senders, starts and stops workers and processors, and shuts the node down
    cluster by cluster.  It handles one [NodeMessage] at a time; the handlers
    are computations on the router and the list of what it did to the outside
    ([effect]).

    Channels and shared counters are numbers.  Sending fails if the receiver
    is gone ([is_open]); that a full channel makes the sender wait is not
    modelled. *)

From Stdlib Require Import ZArith Lia.
From Stdlib Require Strings.Byte Strings.String.
From stdpp Require Import base gmap fin_maps fin_map_dom list numbers option countable sorting.
From S2P Require Import Prelude RustStr Routing AccessControl FlowControl.

Notation chan := nat (only parsing).

(** ** [error.rs] *)

Inductive NodeReason := NodeReason_Unknown | NodeReason_Shutdown | NodeReason_Corrupt.
Inductive WorkerReason := WorkerReason_Shutdown | WorkerReason_Faulty | WorkerReason_Corrupt.
Inductive RouterReason := Duplicate | InvalidAddrType | EmptyAddressSet.

Inductive NodeError :=
| NodeError_Address (a : Address)
| NodeError_Recipient (r : Route)
| NodeError_Data
| NodeError_NodeState (r : NodeReason)
| NodeError_WorkerState (r : WorkerReason)
| NodeError_RouterState (r : RouterReason).

Inductive Kind := KNotFound | KAlreadyExists | KConflict | KInternal | KInvalid.

Record node_error := mkNodeError {
  ne_kind : Kind;
  ne_cause : option NodeError
}.

Definition not_found (e : NodeError) : node_error := mkNodeError KNotFound (Some e).
Definition already_exists (e : NodeError) : node_error := mkNodeError KAlreadyExists (Some e).
Definition conflict (e : NodeError) : node_error := mkNodeError KConflict (Some e).
Definition internal (e : NodeError) : node_error := mkNodeError KInternal (Some e).

(** [from_send_err], without the context it adds. *)
Definition from_send_err : node_error :=
  mkNodeError KInternal (Some (NodeError_NodeState NodeReason_Unknown)).

(** ** [messages.rs] *)

Inductive RouterReply :=
| ReplyOk
| ReplyWorkers (l : list Address)
| ReplySender (addr : Address) (sender : chan)
| ReplyState (b : bool).

Notation NodeReplyResult := (result node_error RouterReply).

Definition RouterReply_ok : NodeReplyResult := Ok ReplyOk.
Definition no_such_address (a : Address) : NodeReplyResult := Err (not_found (NodeError_Address a)).
Definition router_exists : NodeReplyResult :=
  Err (already_exists (NodeError_RouterState Duplicate)).
Definition node_rejected (r : NodeReason) : NodeReplyResult := Err (conflict (NodeError_NodeState r)).
Definition worker_rejected (r : WorkerReason) : NodeReplyResult :=
  Err (conflict (NodeError_WorkerState r)).

(** [RouterReply::take_sender] *)
Definition take_sender (r : RouterReply) : result node_error (Address * chan) :=
  match r with
  | ReplySender addr sender => Ok (addr, sender)
  | _ => Err (internal (NodeError_NodeState NodeReason_Unknown))
  end.

Inductive ShutdownType :=
| Graceful (seconds : Z)
| Immediate.

Record SenderPair := mkSenderPair {
  msgs : chan;
  ctrl : chan
}.

Inductive NodeMessage :=
| StartWorker (addrs : list Address) (senders : SenderPair) (detached : bool)
    (mailbox_count : nat) (reply : chan)
| ListWorkers (reply : chan)
| SetCluster (addr : Address) (label : bytes) (reply : chan)
| StopWorker (addr : Address) (detached : bool) (reply : chan)
| StartProcessor (addr : Address) (senders : SenderPair) (reply : chan)
| StopProcessor (addr : Address) (reply : chan)
| StopNode (t : ShutdownType) (reply : chan)
| AbortNode
| StopAck (addr : Address)
| SenderReq (addr : Address) (reply : chan)
| RegisterRouter (ty : TransportType) (addr : Address) (reply : chan)
| SetReady (addr : Address)
| CheckReady (addr : Address) (reply : chan).

(** ** [record.rs], [state.rs] *)

Record AddressMeta := mkAddressMeta {
  processor : bool;
  detached : bool
}.

Inductive AddressState := Running | Stopping | Faulty.

#[export] Instance AddressState_eq_dec : EqDecision AddressState.
Proof. solve_decision. Defined.

Inductive ReadyState :=
| Ready
| Initialising (waiting : list chan).

Record AddressRecord := mkAddressRecord {
  address_set : list Address;
  ar_sender : option chan;
  ctrl_tx : chan;
  ar_state : AddressState;
  ar_ready : ReadyState;
  ar_meta : AddressMeta;
  msg_count : option nat   (* [None]: a counter that nothing else refers to *)
}.

Record InternalMap := mkInternalMap {
  address_records_map : gmap Address AddressRecord;
  alias_map : gmap Address Address;
  cluster_order : list bytes;
  clusters : gmap bytes (gset Address);
  stopping : gset Address;
  flow_controls : FlowControls
}.

Inductive NodeState :=
| NodeRunning
| NodeStopping (reply : chan)
| NodeDead.

Record Router := mkRouter {
  r_sender : chan;
  r_state : NodeState;
  r_map : InternalMap;
  external : gmap TransportType Address;
  r_receiver : bool
}.

(** What the router does to the outside: a reply, the control signal
    [InterruptStop], an increment of a shared message counter, and the task
    that sends [AbortNode] after some seconds. *)
Inductive effect :=
| Reply (c : chan) (r : NodeReplyResult)
| InterruptStop (c : chan)
| CountMessage (count : nat)
| AbortAfter (seconds : Z).

Record rstate := mkRState {
  rs_router : Router;
  rs_out : list effect
}.

Notation rm A := (stm rstate node_error A).

(** Accessors of the state. *)
Definition get_map : rm InternalMap := fun s => (Ok (r_map (rs_router s)), s).

Definition set_map (m : InternalMap) (r : Router) : Router :=
  mkRouter (r_sender r) (r_state r) m (external r) (r_receiver r).
Definition set_state (st : NodeState) (r : Router) : Router :=
  mkRouter (r_sender r) st (r_map r) (external r) (r_receiver r).
Definition set_external (e : gmap TransportType Address) (r : Router) : Router :=
  mkRouter (r_sender r) (r_state r) (r_map r) e (r_receiver r).

Definition update (f : Router -> Router) : rm unit :=
  fun s => (Ok tt, mkRState (f (rs_router s)) (rs_out s)).
Definition update_map (f : InternalMap -> InternalMap) : rm unit :=
  update (fun r => set_map (f (r_map r)) r).
Definition emit (e : effect) : rm unit :=
  fun s => (Ok tt, mkRState (rs_router s) (rs_out s ++ [e])).

(** *** [AddressRecord] *)

Definition AddressRecord_new (address_set : list Address) (sender ctrl_tx : chan)
    (msg_count : option nat) (meta : AddressMeta) : AddressRecord :=
  mkAddressRecord address_set (Some sender) ctrl_tx Running (Initialising []) meta msg_count.

Definition drop_sender (rec : AddressRecord) : AddressRecord :=
  mkAddressRecord (address_set rec) None (ctrl_tx rec) (ar_state rec) (ar_ready rec)
    (ar_meta rec) (msg_count rec).

Definition with_state (st : AddressState) (rec : AddressRecord) : AddressRecord :=
  mkAddressRecord (address_set rec) (ar_sender rec) (ctrl_tx rec) st (ar_ready rec)
    (ar_meta rec) (msg_count rec).

Definition with_ready (rd : ReadyState) (rec : AddressRecord) : AddressRecord :=
  mkAddressRecord (address_set rec) (ar_sender rec) (ctrl_tx rec) (ar_state rec) rd
    (ar_meta rec) (msg_count rec).

Definition AddressRecord_check (rec : AddressRecord) : bool :=
  match ar_state rec, ar_sender rec with
  | Running, Some _ => true
  | _, _ => false
  end.

Definition AddressRecord_ready (reply : chan) (rec : AddressRecord) : bool * AddressRecord :=
  match ar_ready rec with
  | Ready => (true, rec)
  | Initialising vec => (false, with_ready (Initialising (vec ++ [reply])) rec)
  end.

Definition AddressRecord_set_ready (rec : AddressRecord) : list chan * AddressRecord :=
  (match ar_ready rec with
   | Initialising vec => vec
   | Ready => []
   end, with_ready Ready rec).

(** *** [InternalMap] *)

Definition InternalMap_new (fc : FlowControls) : InternalMap := mkInternalMap ∅ ∅ [] ∅ ∅ fc.

Definition set_records (recs : gmap Address AddressRecord) (m : InternalMap) : InternalMap :=
  mkInternalMap recs (alias_map m) (cluster_order m) (clusters m) (stopping m) (flow_controls m).
Definition set_aliases (al : gmap Address Address) (m : InternalMap) : InternalMap :=
  mkInternalMap (address_records_map m) al (cluster_order m) (clusters m) (stopping m)
    (flow_controls m).
Definition set_clusters (order : list bytes) (cl : gmap bytes (gset Address)) (m : InternalMap)
  : InternalMap :=
  mkInternalMap (address_records_map m) (alias_map m) order cl (stopping m) (flow_controls m).
Definition set_stopping (st : gset Address) (m : InternalMap) : InternalMap :=
  mkInternalMap (address_records_map m) (alias_map m) (cluster_order m) (clusters m) st
    (flow_controls m).
Definition set_flow_controls (fc : FlowControls) (m : InternalMap) : InternalMap :=
  mkInternalMap (address_records_map m) (alias_map m) (cluster_order m) (clusters m) (stopping m) fc.

Definition clear_address_records_map (m : InternalMap) : InternalMap := set_records ∅ m.

Definition get_address_record (p : Address) (m : InternalMap) : option AddressRecord :=
  address_records_map m !! p.

Definition insert_address_record (p : Address) (rec : AddressRecord) (m : InternalMap)
  : InternalMap := set_records (<[p := rec]> (address_records_map m)) m.

Definition remove_address_record (p : Address) (m : InternalMap)
  : option AddressRecord * InternalMap :=
  let m := set_flow_controls (cleanup_address p (flow_controls m)) m in
  (address_records_map m !! p, set_records (delete p (address_records_map m)) m).

Definition remove_alias (a : Address) (m : InternalMap) : InternalMap :=
  let m := set_flow_controls (cleanup_address a (flow_controls m)) m in
  set_aliases (delete a (alias_map m)) m.

Definition insert_alias (a p : Address) (m : InternalMap) : InternalMap :=
  set_aliases (<[a := p]> (alias_map m)) m.

Definition get_primary_address (a : Address) (m : InternalMap) : option Address :=
  alias_map m !! a.

(** [self.clusters.get_mut(&label).insert(addr)] *)
Definition cluster_insert (label : bytes) (cl : gmap bytes (gset Address)) (addr : Address)
  : gmap bytes (gset Address) := alter (fun set => {[addr]} ∪ set) label cl.

Definition set_cluster (label : bytes) (primary : Address) (m : InternalMap)
  : NodeReplyResult * InternalMap :=
  match address_records_map m !! primary with
  | None => (Err (not_found (NodeError_Address primary)), m)
  | Some rec =>
      let m := match clusters m !! label with
               | None => set_clusters (cluster_order m ++ [label]) (<[label := ∅]> (clusters m)) m
               | Some _ => m
               end in
      (RouterReply_ok,
       set_clusters (cluster_order m)
         (foldl (cluster_insert label) (clusters m) (address_set rec)) m)
  end.

Definition map_set_ready (addr : Address) (m : InternalMap)
  : result node_error (list chan) * InternalMap :=
  match address_records_map m !! addr with
  | None => (Err (not_found (NodeError_Address addr)), m)
  | Some rec =>
      let (waiting, rec) := AddressRecord_set_ready rec in
      (Ok waiting, set_records (<[addr := rec]> (address_records_map m)) m)
  end.

Definition get_ready (addr : Address) (reply : chan) (m : InternalMap) : bool * InternalMap :=
  match address_records_map m !! addr with
  | None => (false, m)
  | Some rec =>
      let (b, rec) := AddressRecord_ready reply rec in
      (b, set_records (<[addr := rec]> (address_records_map m)) m)
  end.

(** The order of the keys of a [BTreeMap<Address, _>]: [derive(Ord)]. *)
Definition Address_compare (a b : Address) : comparison :=
  match (byte_val (tt_code (a_tt a)) ?= byte_val (tt_code (a_tt b)))%Z with
  | Eq => bytes_compare (a_inner a) (a_inner b)
  | c => c
  end.
Definition Address_le (a b : Address) : Prop := Address_compare a b <> Gt.

#[export] Instance Address_le_dec : RelDecision Address_le.
Proof. intros a b. unfold Address_le. solve_decision. Defined.

(** [BTreeMap::keys] *)
Definition record_keys (m : InternalMap) : list Address :=
  merge_sort Address_le (elements (dom (address_records_map m))).

(** The next cluster in reverse order of creation: the primary addresses of
    its records. *)
Definition next_cluster (m : InternalMap) : option (list Address) * InternalMap :=
  match list.last (cluster_order m) with
  | None => (None, m)
  | Some name =>
      let m := set_clusters (take (length (cluster_order m) - 1) (cluster_order m)) (clusters m) m in
      match clusters m !! name with
      | None => (None, m)
      | Some addrs =>
          let m := set_clusters (cluster_order m) (delete name (clusters m)) m in
          (Some (filter (fun p => p ∈ addrs) (record_keys m)), m)
      end
  end.

Definition init_stop (addr : Address) (m : InternalMap) : InternalMap :=
  set_stopping ({[addr]} ∪ stopping m) m.

Definition cluster_done (m : InternalMap) : bool := bool_decide (stopping m = ∅).

Definition clustered (m : InternalMap) : gset Address := ⋃ (btree_iter (clusters m)).*2.

(** The primary addresses of the records in no cluster that are not detached. *)
Definition non_cluster_workers (m : InternalMap) : list Address :=
  filter (fun p => p ∉ clustered m /\
            detached ∘ ar_meta <$> address_records_map m !! p = Some false) (record_keys m).

Definition free_address (primary : Address) (m : InternalMap) : InternalMap :=
  let m := set_stopping (stopping m ∖ {[primary]}) m in
  let (record, m) := remove_address_record primary m in
  match record with
  | Some record =>
      set_aliases (foldl (fun al addr => delete addr al) (alias_map m) (address_set record)) m
  | None => m
  end.

(** ** The handlers *)

Section Handlers.
(** Whether the receiver of a channel still exists. *)
Variable is_open : chan -> bool.

(** [reply.send(r).await.map_err(..)?] *)
Definition send (c : chan) (r : NodeReplyResult) : rm unit :=
  if is_open c then emit (Reply c r)
  else serr (internal (NodeError_NodeState NodeReason_Unknown)).

(** [AddressRecord::stop] of the record with primary address [p]; the record
    keeps what was changed if it fails. *)
Definition AddressRecord_stop (rec : AddressRecord) : rm AddressRecord :=
  if processor (ar_meta rec) then
    if is_open (ctrl_tx rec) then
      emit (InterruptStop (ctrl_tx rec)) ;;! sret (with_state Stopping rec)
    else serr (internal (NodeError_NodeState NodeReason_Unknown))
  else sret (with_state Stopping (drop_sender rec)).

(** *** [mod.rs] *)

Definition Router_new (sender : chan) (fc : FlowControls) : Router :=
  mkRouter sender NodeRunning (InternalMap_new fc) ∅ true.

Definition Router_init (addr : Address) (senders : SenderPair) (r : Router) : Router :=
  let m := insert_address_record addr
             (AddressRecord_new [addr] (msgs senders) (ctrl senders) None
                (mkAddressMeta false true)) (r_map r) in
  set_map (insert_alias addr addr m) r.

Inductive RouteType :=
| Internal
| External (ty : TransportType).

Definition determine_type (next : Address) : RouteType :=
  if TransportType_is_local (a_tt next) then Internal else External (a_tt next).

Definition check_addr_not_exist (addr : Address) (reply : chan) : rm unit :=
  let! m := get_map in
  if bool_decide (is_Some (address_records_map m !! addr)) then
    let node := NodeError_Address addr in
    send reply (Err (already_exists node)) ;;!
    serr (already_exists node)
  else sret tt.

(** [self.state.running()], [self.state.stop_reply()] *)
Definition is_running (s : NodeState) : bool :=
  match s with NodeRunning => true | _ => false end.
Definition stop_reply (s : NodeState) : option chan :=
  match s with NodeStopping c => Some c | _ => None end.

Definition get_state : rm NodeState := fun s => (Ok (r_state (rs_router s)), s).

(** *** [start_worker.rs] *)

Definition reject (reply : chan) : rm unit := send reply (node_rejected NodeReason_Shutdown).

Definition start_worker (addrs : list Address) (senders : SenderPair) (detached : bool)
    (metrics : nat) (reply : chan) : rm unit :=
  match addrs with
  | [] => serr (internal (NodeError_RouterState EmptyAddressSet))
  | primary_addr :: _ =>
      check_addr_not_exist primary_addr reply ;;!
      let address_record := AddressRecord_new addrs (msgs senders) (ctrl senders) (Some metrics)
                              (mkAddressMeta false detached) in
      update_map (insert_address_record primary_addr address_record) ;;!
      update_map (fun m => foldl (fun m addr => insert_alias addr primary_addr m) m addrs) ;;!
      send reply RouterReply_ok
  end.

Definition start_worker_exec (addrs : list Address) (senders : SenderPair) (detached : bool)
    (metrics : nat) (reply : chan) : rm unit :=
  let! st := get_state in
  match st with
  | NodeRunning => start_worker addrs senders detached metrics reply
  | NodeStopping _ => reject reply
  | NodeDead => spanic
  end.

(** *** [stop_worker.rs] *)

Definition stop_worker_exec (addr : Address) (detached : bool) (reply : chan) : rm unit :=
  let! m := get_map in
  match get_primary_address addr m with
  | None => send reply (no_such_address addr)
  | Some primary_address =>
      match get_address_record primary_address m with
      | None => send reply (no_such_address addr)
      | Some record =>
          send reply RouterReply_ok ;;!
          if negb detached then update_map (insert_address_record primary_address (drop_sender record))
          else update_map (free_address primary_address)
      end
  end.

(** *** [start_processor.rs] *)

Definition start_processor (addr : Address) (senders : SenderPair) (reply : chan) : rm unit :=
  check_addr_not_exist addr reply ;;!
  let record := AddressRecord_new [addr] (msgs senders) (ctrl senders) None
                  (mkAddressMeta true false) in
  update_map (insert_address_record addr record) ;;!
  update_map (insert_alias addr addr) ;;!
  send reply RouterReply_ok.

Definition start_processor_exec (addr : Address) (senders : SenderPair) (reply : chan) : rm unit :=
  let! st := get_state in
  match st with
  | NodeRunning => start_processor addr senders reply
  | NodeStopping _ => reject reply
  | NodeDead => spanic
  end.

(** *** [stop_processor.rs] *)

Definition stop_processor_exec (main_addr : Address) (reply : chan) : rm unit :=
  let! m := get_map in
  let (record, m) := remove_address_record main_addr m in
  update_map (fun _ => m) ;;!
  match record with
  | None => send reply (no_such_address main_addr)
  | Some record =>
      update_map (remove_alias main_addr) ;;!
      let! _ := AddressRecord_stop record in
      send reply RouterReply_ok
  end.

(** *** [shutdown.rs] *)

(** One round of the loops over records: stop the record in place. *)
Definition stop_record (p : Address) : rm (option Address) :=
  let! m := get_map in
  match address_records_map m !! p with
  | None => sret None
  | Some rec =>
      let! rec' := AddressRecord_stop rec in
      update_map (insert_address_record p rec') ;;!
      sret (head (address_set rec'))
  end.

Fixpoint stop_records (ps : list Address) (addrs : list Address) : rm (list Address) :=
  match ps with
  | [] => sret addrs
  | p :: ps =>
      let! first_address := stop_record p in
      stop_records ps (addrs ++ option_list first_address)
  end.

Definition stop_next_cluster : rm bool :=
  let! m := get_map in
  let (vec, m) := next_cluster m in
  update_map (fun _ => m) ;;!
  match vec with
  | Some vec =>
      let! addrs := stop_records vec [] in
      update_map (fun m => foldl (fun m addr => init_stop addr m) m addrs) ;;!
      sret false
  | None => sret true
  end.

Definition shutdown_ack (addr : Address) : rm bool :=
  update_map (free_address addr) ;;!
  let! m := get_map in
  if negb (cluster_done m) then sret false else stop_next_cluster.

(** One round of the loop of [graceful]: a record without an address is
    skipped. *)
Definition graceful_stop (p : Address) : rm (option Address) :=
  let! m := get_map in
  match address_records_map m !! p with
  | None => sret None
  | Some rec =>
      match head (address_set rec) with
      | None => sret None
      | Some first_address =>
          let! rec' := AddressRecord_stop rec in
          update_map (insert_address_record p rec') ;;!
          sret (Some first_address)
      end
  end.

Fixpoint graceful_loop (ps : list Address) (cluster : list Address) : rm (list Address) :=
  match ps with
  | [] => sret cluster
  | p :: ps =>
      let! first_address := graceful_stop p in
      graceful_loop ps (cluster ++ option_list first_address)
  end.

Definition graceful (seconds : Z) (reply : chan) : rm bool :=
  update (set_state (NodeStopping reply)) ;;!
  let! m := get_map in
  let! cluster := graceful_loop (non_cluster_workers m) [] in
  match cluster with
  | [] => stop_next_cluster
  | _ =>
      update_map (fun m => foldl (fun m addr => init_stop addr m) m cluster) ;;!
      emit (AbortAfter seconds) ;;!
      sret false
  end.

Definition immediate (reply : chan) : rm unit :=
  update_map clear_address_records_map ;;!
  update (set_state NodeDead) ;;!
  send reply RouterReply_ok.

(** *** [utils.rs] *)

Definition resolve (addr : Address) (reply : chan) : rm unit :=
  let! m := get_map in
  match get_primary_address addr m with
  | None => send reply (no_such_address addr)
  | Some primary_address =>
      match get_address_record primary_address m with
      | Some record =>
          if AddressRecord_check record then
            match msg_count record with
            | Some count => emit (CountMessage count)
            | None => sret tt
            end ;;!
            let! sender := slift (unwrap (ar_sender record)) in
            send reply (Ok (ReplySender addr sender))
          else send reply (worker_rejected WorkerReason_Shutdown)
      | None => send reply (no_such_address addr)
      end
  end.

Definition router_addr (ty : TransportType) : rm Address :=
  fun s => (ok_or (external (rs_router s) !! ty) (internal (NodeError_NodeState NodeReason_Unknown)), s).

(** *** [handle_msg], [run] *)

Fixpoint send_all (waiting : list chan) : rm unit :=
  match waiting with
  | [] => sret tt
  | c :: waiting => send c RouterReply_ok ;;! send_all waiting
  end.

(** A finished shutdown: reply to whom asked for it and stop the loop. *)
Definition goodbye : rm bool :=
  let! st := get_state in
  match stop_reply st with
  | Some c => send c RouterReply_ok ;;! sret true
  | None => sret false
  end.

Definition handle_msg (msg : NodeMessage) : rm bool :=
  match msg with
  | RegisterRouter ty addr sender =>
      fun s =>
        (if bool_decide (is_Some (external (rs_router s) !! ty)) then
           send sender router_exists ;;! sret false
         else
           update (fun r => set_external (<[ty := addr]> (external r)) r) ;;!
           send sender RouterReply_ok ;;! sret false) s
  | StartWorker addrs senders detached mailbox_count reply =>
      start_worker_exec addrs senders detached mailbox_count reply ;;! sret false
  | StopWorker addr detached reply => stop_worker_exec addr detached reply ;;! sret false
  | StartProcessor addr senders reply => start_processor_exec addr senders reply ;;! sret false
  | StopProcessor addr reply => stop_processor_exec addr reply ;;! sret false
  | StopNode (Graceful timeout) reply =>
      let! finished := graceful timeout reply in
      if finished : bool then goodbye else sret false
  | StopNode Immediate reply => immediate reply ;;! sret true
  | AbortNode =>
      let! st := get_state in
      match stop_reply st with
      | Some sender =>
          send sender RouterReply_ok ;;!
          update_map clear_address_records_map ;;!
          sret true
      | None => sret false
      end
  | StopAck addr =>
      let! st := get_state in
      if is_running st then update_map (free_address addr) ;;! sret false
      else
        let! finished := shutdown_ack addr in
        if finished : bool then goodbye else sret false
  | ListWorkers sender =>
      let! m := get_map in
      send sender (Ok (ReplyWorkers (record_keys m))) ;;! sret false
  | SetCluster addr label reply =>
      let! m := get_map in
      let (msg, m) := set_cluster label addr m in
      update_map (fun _ => m) ;;! send reply msg ;;! sret false
  | SetReady addr =>
      let! m := get_map in
      let (r, m) := map_set_ready addr m in
      update_map (fun _ => m) ;;!
      match r with
      | Ok waiting => send_all waiting ;;! sret false
      | _ => sret false
      end
  | CheckReady addr reply =>
      let! m := get_map in
      let (ready, m) := get_ready addr reply m in
      update_map (fun _ => m) ;;!
      (if ready then send reply RouterReply_ok else sret tt) ;;! sret false
  | SenderReq addr reply =>
      match determine_type addr with
      | Internal => resolve addr reply ;;! sret false
      | External ty =>
          let! addr := router_addr ty in resolve addr reply ;;! sret false
      end
  end.
End Handlers.

(** The loop of [run_inner] on the messages that arrive, each with the state
    of the channels when it is handled.  An error of a handler is logged; the
    loop ends when a handler says so, and then the receiver is dropped. *)
Fixpoint run_inner (inbox : list ((chan -> bool) * NodeMessage)) (s : rstate)
  : result node_error unit * rstate :=
  if negb (r_receiver (rs_router s)) then
    (Err (internal (NodeError_NodeState NodeReason_Corrupt)), s)
  else
    match inbox with
    | [] => (Ok tt, s)
    | (is_open, msg) :: inbox =>
        match handle_msg is_open msg s with
        | (Ok true, s) =>
            let r := rs_router s in
            (Ok tt, mkRState (mkRouter (r_sender r) (r_state r) (r_map r) (external r) false)
                      (rs_out s))
        | (Panic, s) => (Panic, s)
        | (_, s) => run_inner inbox s
        end
    end.

(** [run]: an error after the shutdown is ignored. *)
Definition Router_run (inbox : list ((chan -> bool) * NodeMessage)) (s : rstate)
  : result node_error unit * rstate :=
  match run_inner inbox s with
  | (Err e, s) => if is_running (r_state (rs_router s)) then (Err e, s) else (Ok tt, s)
  | x => x
  end.
