(* ===== verification/RouterSpec.v ===== *)
(** * What the router guarantees

    The invariant of the address map, the router as a directory of workers,
    the phases of a graceful shutdown, and where the code falls short: aliases
    taken over, flow controls left behind, shutdowns that do not end. *)

From Stdlib Require Import ZArith Lia.
From Stdlib Require Strings.Byte Strings.String.
From stdpp Require Import base gmap fin_maps fin_map_dom list numbers option countable sorting.
From S2P Require Import Prelude RustStr Routing AccessControl FlowControl Router.

(** ** Running handlers *)

(** Unfold the computations on the state of the router. *)
Ltac run_unfold :=
  cbv beta iota delta [sbind emit sret serr spanic slift update_map update get_map get_state].
Ltac run_unfold_in H :=
  cbv beta iota delta [sbind emit sret serr spanic slift update_map update get_map get_state]
    in H.

Lemma update_run f s : update f s = (Ok tt, mkRState (f (rs_router s)) (rs_out s)).
Proof. done. Qed.

Lemma send_run is_open c r s :
  is_open c = true -> send is_open c r s = (Ok tt, mkRState (rs_router s) (rs_out s ++ [Reply c r])).
Proof. intros H. unfold send. by rewrite H. Qed.

Lemma send_closed is_open c r s :
  is_open c = false ->
  send is_open c r s = (Err (internal (NodeError_NodeState NodeReason_Unknown)), s).
Proof. intros H. unfold send. by rewrite H. Qed.

(** ** The invariant of the address map *)

(** Each alias leads to a record that has the address, except for those in
    [dangling]. *)
Record map_wf_but (dangling : Address -> Address -> Prop) (m : InternalMap) : Prop := {
  wf_head : forall p rec, address_records_map m !! p = Some rec -> head (address_set rec) = Some p;
  wf_alias_but : forall a p, alias_map m !! a = Some p ->
    dangling a p \/ exists rec, address_records_map m !! p = Some rec /\ a ∈ address_set rec;
  wf_processor : forall p rec, address_records_map m !! p = Some rec ->
    processor (ar_meta rec) = true -> address_set rec = [p];
  wf_order : NoDup (cluster_order m);
  wf_clusters : forall l, l ∈ cluster_order m <-> is_Some (clusters m !! l)
}.

(** Without exceptions, and whatever the aliases are. *)
Notation map_wf := (map_wf_but (fun _ _ => False)).
Notation map_shape := (map_wf_but (fun _ _ => True)).

Lemma wf_alias m a p :
  map_wf m -> alias_map m !! a = Some p ->
  exists rec, address_records_map m !! p = Some rec /\ a ∈ address_set rec.
Proof. intros Hwf Ha. by destruct (wf_alias_but _ _ Hwf a p Ha). Qed.

(** Every address of a worker leads to it. *)
Definition map_owned (m : InternalMap) : Prop :=
  forall p rec a, address_records_map m !! p = Some rec -> a ∈ address_set rec ->
    alias_map m !! a = Some p.

(** Only the records' own addresses, roles and keys matter to the invariant. *)
Definition same_shape (r1 r2 : AddressRecord) : Prop :=
  address_set r1 = address_set r2 /\ ar_meta r1 = ar_meta r2.

Lemma map_wf_update {D} m p rec rec' :
  map_wf_but D m -> address_records_map m !! p = Some rec -> same_shape rec rec' ->
  map_wf_but D (insert_address_record p rec' m).
Proof.
  intros [Hh Ha Hp Ho Hc] Hrec [Hs Hm]. split; simpl; try done.
  - intros q r. rewrite lookup_insert_Some. intros [[<- <-]|[_ Hq]]; [|eauto].
    rewrite <-Hs. eauto.
  - intros a q Hal. destruct (Ha a q Hal) as [|(r & Hr & Hin)]; [by left|right].
    destruct (decide (q = p)) as [->|Hne].
    + rewrite lookup_insert_eq. eexists. split; [done|]. rewrite <-Hs. by simplify_eq.
    + rewrite lookup_insert_ne by done. eauto.
  - intros q r. rewrite lookup_insert_Some. intros [[<- <-]|[_ Hq]] Hpr; [|eauto].
    rewrite <-Hs, <-Hm in *. eauto.
Qed.

Lemma map_owned_update m p rec rec' :
  map_owned m -> address_records_map m !! p = Some rec -> same_shape rec rec' ->
  map_owned (insert_address_record p rec' m).
Proof.
  intros Ho Hrec [Hs _] q r a. simpl. rewrite lookup_insert_Some.
  intros [[<- <-]|[_ Hq]] Hin; [|by eapply Ho]. rewrite <-Hs in Hin. by eapply Ho.
Qed.

(** Adding a record with the aliases of its addresses. *)
Definition add_record (p : Address) (rec : AddressRecord) (m : InternalMap) : InternalMap :=
  foldl (fun m addr => insert_alias addr p m) (insert_address_record p rec m) (address_set rec).

Lemma add_aliases m p addrs :
  foldl (fun m addr => insert_alias addr p m) m addrs
  = set_aliases (foldl (fun al addr => <[addr := p]> al) (alias_map m) addrs) m.
Proof. revert m; induction addrs as [|a l IH]; intros m; simpl; [by destruct m|]. by rewrite IH. Qed.

Lemma insert_aliases_lookup (al : gmap Address Address) p addrs a :
  foldl (fun al addr => <[addr := p]> al) al addrs !! a
  = if decide (a ∈ addrs) then Some p else al !! a.
Proof.
  revert al; induction addrs as [|x l IH]; intros al; cbn [foldl].
  - by rewrite decide_False by set_solver.
  - rewrite IH. destruct (decide (a ∈ l)); [by rewrite decide_True by set_solver|].
    destruct (decide (a = x)) as [->|Hne].
    + by rewrite lookup_insert_eq, decide_True by set_solver.
    + by rewrite lookup_insert_ne, decide_False by set_solver.
Qed.

Lemma delete_aliases_lookup (al : gmap Address Address) addrs a :
  foldl (fun al addr => delete addr al) al addrs !! a
  = if decide (a ∈ addrs) then None else al !! a.
Proof.
  revert al; induction addrs as [|x l IH]; intros al; cbn [foldl].
  - by rewrite decide_False by set_solver.
  - rewrite IH. destruct (decide (a ∈ l)); [by rewrite decide_True by set_solver|].
    destruct (decide (a = x)) as [->|Hne].
    + by rewrite lookup_delete_eq, decide_True by set_solver.
    + by rewrite lookup_delete_ne, decide_False by set_solver.
Qed.

Lemma map_wf_add {D} m p rec :
  map_wf_but D m -> address_records_map m !! p = None -> head (address_set rec) = Some p ->
  (processor (ar_meta rec) = true -> address_set rec = [p]) ->
  map_wf_but D (add_record p rec m).
Proof.
  intros [Hh Ha Hp Ho Hc] Hnone Hhead Hproc. unfold add_record. rewrite add_aliases.
  split; simpl; try done.
  - intros q r. rewrite lookup_insert_Some. intros [[<- <-]|[_ Hq]]; eauto.
  - intros a q. rewrite insert_aliases_lookup. case_decide as Hin.
    + intros [= <-]. right. rewrite lookup_insert_eq. eauto.
    + intros Hal. destruct (Ha a q Hal) as [|(r & Hr & Hr')]; [by left|right].
      rewrite lookup_insert_ne by congruence. eauto.
  - intros q r. rewrite lookup_insert_Some. intros [[<- <-]|[_ Hq]]; eauto.
Qed.

Lemma map_owned_add m p rec :
  map_owned m -> (forall a, a ∈ address_set rec -> alias_map m !! a = None) ->
  map_owned (add_record p rec m).
Proof.
  intros Ho Hfree q r a. unfold add_record. rewrite add_aliases. simpl.
  rewrite insert_aliases_lookup, lookup_insert_Some. intros [[<- <-]|[Hne Hq]] Hin.
  - by rewrite decide_True.
  - rewrite decide_False; [by eapply Ho|]. intros Hin'.
    specialize (Ho q r a Hq Hin). rewrite (Hfree a Hin') in Ho. done.
Qed.

Lemma free_address_records p m :
  address_records_map (free_address p m) = delete p (address_records_map m).
Proof. unfold free_address. simpl. by destruct (address_records_map m !! p). Qed.

Lemma free_address_alias p m a :
  alias_map (free_address p m) !! a =
  match address_records_map m !! p with
  | Some rec => if decide (a ∈ address_set rec) then None else alias_map m !! a
  | None => alias_map m !! a
  end.
Proof.
  unfold free_address. simpl. destruct (address_records_map m !! p); [|done].
  apply delete_aliases_lookup.
Qed.

Lemma free_address_rest p m :
  cluster_order (free_address p m) = cluster_order m /\
  clusters (free_address p m) = clusters m /\
  stopping (free_address p m) = stopping m ∖ {[p]} /\
  flow_controls (free_address p m) = cleanup_address p (flow_controls m).
Proof. unfold free_address. simpl. by destruct (address_records_map m !! p). Qed.

Lemma map_wf_free {D} p m : map_wf_but D m -> map_wf_but D (free_address p m).
Proof.
  intros [Hh Ha Hp Ho Hc]. destruct (free_address_rest p m) as (Eo & Ec & _).
  split; rewrite ?free_address_records, ?Eo, ?Ec; try done.
  - intros q r [_ Hq]%lookup_delete_Some. eauto.
  - intros a q. rewrite free_address_alias. destruct (address_records_map m !! p) as [rec|] eqn:Hrec.
    + case_decide as Hin; [done|]. intros Hal. destruct (Ha a q Hal) as [|(r & Hr & Hr')]; [by left|right].
      exists r. rewrite lookup_delete_ne; [done|]. intros ->. by simplify_eq.
    + intros Hal. destruct (Ha a q Hal) as [|(r & Hr & Hr')]; [by left|right]. exists r.
      rewrite lookup_delete_ne; [done|]. by intros ->; simplify_eq.
  - intros q r [_ Hq]%lookup_delete_Some. eauto.
Qed.

Lemma map_owned_free p m : map_owned m -> map_owned (free_address p m).
Proof.
  intros Ho q r a. rewrite free_address_records, free_address_alias.
  intros [Hne Hq]%lookup_delete_Some Hin. pose proof (Ho q r a Hq Hin) as Hal.
  destruct (address_records_map m !! p) as [rec|] eqn:Hrec; [|done].
  case_decide as Hin'; [|done]. pose proof (Ho p rec a Hrec Hin'). by simplify_eq.
Qed.

(** What [stop_processor] leaves of the map. *)
Definition without_processor (p : Address) (m : InternalMap) : InternalMap :=
  remove_alias p (remove_address_record p m).2.

Lemma map_wf_without_processor {D} p rec m :
  map_wf_but D m -> address_records_map m !! p = Some rec ->
  address_set rec = [p] \/ (forall b, D b p) ->
  map_wf_but D (without_processor p m).
Proof.
  intros [Hh Ha Hp Ho Hc] Hrec Hset. split; simpl; try done.
  - intros q r [_ Hq]%lookup_delete_Some. eauto.
  - intros a q [Hne Hal]%lookup_delete_Some. destruct (Ha a q Hal) as [|(r & Hr & Hin)]; [by left|].
    destruct (decide (q = p)) as [->|Hqp]; [|right; exists r; by rewrite lookup_delete_ne].
    destruct Hset as [Hset|]; [|by left]. simplify_eq. rewrite Hset in Hin. set_solver.
  - intros q r [_ Hq]%lookup_delete_Some. eauto.
Qed.

Lemma map_owned_without_processor p rec m :
  map_owned m -> address_records_map m !! p = Some rec -> address_set rec = [p] ->
  map_owned (without_processor p m).
Proof.
  intros Ho Hrec Hset q r a. simpl. intros [Hne Hq]%lookup_delete_Some Hin.
  pose proof (Ho q r a Hq Hin) as Hal. rewrite lookup_delete_ne; [done|]. intros <-.
  pose proof (Ho p rec p Hrec) as Hp. rewrite Hset in Hp. specialize (Hp ltac:(set_solver)).
  by simplify_eq.
Qed.

(** Removing the record of an address that has none changes nothing here. *)
Lemma remove_none p m :
  address_records_map m !! p = None ->
  (remove_address_record p m).2 = set_flow_controls (cleanup_address p (flow_controls m)) m.
Proof.
  intros Hn. unfold remove_address_record. simpl. rewrite delete_id by done. by destruct m.
Qed.

Lemma map_wf_flow_controls {D} fc m : map_wf_but D m -> map_wf_but D (set_flow_controls fc m).
Proof. by intros []. Qed.

Lemma set_cluster_lookup label primary m :
  let m' := (set_cluster label primary m).2 in
  address_records_map m' = address_records_map m /\ alias_map m' = alias_map m /\
  stopping m' = stopping m.
Proof.
  unfold set_cluster. destruct (address_records_map m !! primary); [|done].
  by destruct (clusters m !! label).
Qed.

Lemma foldl_alter_is_some (addrs : list Address) (label l : bytes) (cl : gmap bytes (gset Address)) :
  is_Some (foldl (cluster_insert label) cl addrs !! l) <-> is_Some (cl !! l).
Proof.
  revert cl; induction addrs as [|a addrs IH]; intros cl; simpl; [done|].
  rewrite IH. unfold cluster_insert. apply lookup_alter_is_Some.
Qed.

Lemma map_wf_set_cluster {D} label primary m : map_wf_but D m -> map_wf_but D (set_cluster label primary m).2.
Proof.
  intros [Hh Ha Hp Ho Hc]. destruct (set_cluster_lookup label primary m) as (Er & Ea & _).
  split; rewrite ?Er, ?Ea; try done.
  - unfold set_cluster. destruct (address_records_map m !! primary); [|done].
    destruct (clusters m !! label) eqn:El; [done|]. simpl.
    apply NoDup_app. split; [done|]. split; [|apply NoDup_singleton].
    intros x Hx. rewrite list_elem_of_singleton. intros ->.
    apply Hc in Hx as [? Hx]. congruence.
  - intros l. unfold set_cluster. destruct (address_records_map m !! primary); [|done].
    destruct (clusters m !! label) eqn:El; simpl.
    + by rewrite foldl_alter_is_some.
    + rewrite foldl_alter_is_some, elem_of_app, list_elem_of_singleton, lookup_insert_is_Some.
      rewrite Hc. destruct (decide (label = l)); naive_solver.
Qed.

(** ** Every handler keeps the invariant *)

Definition imap (s : rstate) : InternalMap := r_map (rs_router s).

Definition keeps {A} (P : InternalMap -> Prop) (c : rm A) : Prop :=
  forall s, P (imap s) -> P (imap (c s).2).

Lemma map_keeps_bind {A B} P (c : rm A) (k : A -> rm B) :
  keeps P c -> (forall a, keeps P (k a)) -> keeps P (sbind c k).
Proof.
  intros Hc Hk s Hs. specialize (Hc s Hs). unfold sbind.
  destruct (c s) as [[a|e|] s1]; simpl in *; [|done..]. by apply Hk.
Qed.

Lemma map_keeps_ret {A} P (a : A) : keeps P (sret a).
Proof. by intros s. Qed.

Lemma map_keeps_send P is_open c r : keeps P (send is_open c r).
Proof. intros s Hs. unfold send. by destruct (is_open c). Qed.

Lemma map_keeps_state {A} P (k : NodeState -> rm A) :
  (forall st, keeps P (k st)) -> keeps P (sbind get_state k).
Proof. intros Hk. apply map_keeps_bind; [by intros s|done]. Qed.

Lemma map_keeps_update_map P f : (forall m, P m -> P (f m)) -> keeps P (update_map f).
Proof. intros Hf s Hs. by apply Hf. Qed.

Create HintDb keeps.
#[export] Hint Resolve map_keeps_ret map_keeps_send map_keeps_bind map_keeps_state map_keeps_update_map : keeps.

Lemma stop_shape is_open rec s rec' s' :
  AddressRecord_stop is_open rec s = (Ok rec', s') -> same_shape rec rec' /\ imap s' = imap s.
Proof.
  unfold AddressRecord_stop. repeat case_match; run_unfold; intros; simplify_eq/=; by repeat split.
Qed.

Lemma stop_map is_open rec s : imap (AddressRecord_stop is_open rec s).2 = imap s.
Proof. unfold AddressRecord_stop. by repeat case_match. Qed.

(** A predicate that is kept when a record is replaced by one of the same shape. *)
Definition shape_closed (P : InternalMap -> Prop) : Prop :=
  forall m p rec rec', P m -> address_records_map m !! p = Some rec -> same_shape rec rec' ->
    P (insert_address_record p rec' m).

Lemma keeps_replace {A} P is_open p rec (k : rm A) :
  shape_closed P -> keeps P k ->
  forall s, P (imap s) -> address_records_map (imap s) !! p = Some rec ->
    P (imap (sbind (AddressRecord_stop is_open rec)
               (fun rec' => update_map (insert_address_record p rec') ;;! k) s).2).
Proof.
  intros HP Hk s Hs Hrec. unfold sbind.
  destruct (AddressRecord_stop is_open rec s) as [[rec'|e|] s1] eqn:E; simpl.
  - apply stop_shape in E as [Hsh Hm]. apply Hk. unfold imap in *. simpl. rewrite Hm. eauto.
  - pose proof (stop_map is_open rec s) as Hm. rewrite E in Hm. simpl in Hm. by rewrite Hm.
  - pose proof (stop_map is_open rec s) as Hm. rewrite E in Hm. simpl in Hm. by rewrite Hm.
Qed.

Lemma keeps_stop_record P is_open p : shape_closed P -> keeps P (stop_record is_open p).
Proof.
  intros HP s Hs. unfold stop_record. unfold sbind at 1. simpl.
  destruct (address_records_map _ !! p) as [rec|] eqn:Hrec; [|done].
  pose proof (keeps_replace (A := unit) P is_open p rec (sret tt) HP (map_keeps_ret P tt) s Hs Hrec) as Hk.
  revert Hk. unfold sbind. by destruct (AddressRecord_stop is_open rec s) as [[] ?].
Qed.

Lemma keeps_graceful_stop P is_open p : shape_closed P -> keeps P (graceful_stop is_open p).
Proof.
  intros HP s Hs. unfold graceful_stop. unfold sbind at 1. simpl.
  destruct (address_records_map _ !! p) as [rec|] eqn:Hrec; [|done].
  destruct (head (address_set rec)); [|done].
  pose proof (keeps_replace (A := unit) P is_open p rec (sret tt) HP (map_keeps_ret P tt) s Hs Hrec) as Hk.
  revert Hk. unfold sbind. by destruct (AddressRecord_stop is_open rec s) as [[] ?].
Qed.

Lemma keeps_stop_records P is_open ps l : shape_closed P -> keeps P (stop_records is_open ps l).
Proof.
  intros HP. revert l; induction ps as [|p ps IH]; intros l; simpl; [auto with keeps|].
  apply map_keeps_bind; [by apply keeps_stop_record|]. intros a. apply IH.
Qed.

Lemma keeps_graceful_loop P is_open ps l : shape_closed P -> keeps P (graceful_loop is_open ps l).
Proof.
  intros HP. revert l; induction ps as [|p ps IH]; intros l; simpl; [auto with keeps|].
  apply map_keeps_bind; [by apply keeps_graceful_stop|]. intros a. apply IH.
Qed.

Lemma map_wf_shape {D} : shape_closed (map_wf_but D).
Proof. intros m p rec rec'. apply map_wf_update. Qed.

Lemma last_order (l : list bytes) name :
  list.last l = Some name -> l = take (length l - 1) l ++ [name].
Proof.
  intros Hl. apply last_Some in Hl as [l' ->]. rewrite length_app. simpl.
  by rewrite Nat.add_sub, take_app_length.
Qed.

Lemma map_wf_next_cluster {D} m : map_wf_but D m -> map_wf_but D (next_cluster m).2.
Proof.
  intros [Hh Ha Hp Ho Hc]. unfold next_cluster.
  destruct (list.last (cluster_order m)) as [name|] eqn:El; [|done].
  pose proof (last_order _ _ El) as E. rewrite E in Ho. apply NoDup_app in Ho as (Hnd & Hdis & _).
  destruct (proj1 (Hc name)) as [addrs Haddrs]; [rewrite E; set_solver|].
  simpl. rewrite Haddrs. split; simpl; try done.
  intros l. specialize (Hc l). rewrite E, elem_of_app, list_elem_of_singleton in Hc.
  rewrite lookup_delete_is_Some. destruct (decide (l = name)) as [->|Hne].
  - split; [|naive_solver]. intros Hin. exfalso. apply (Hdis _ Hin). set_solver.
  - naive_solver.
Qed.

Lemma map_wf_stopping {D} st m : map_wf_but D m -> map_wf_but D (set_stopping st m).
Proof. by intros []. Qed.

Lemma init_stops addrs m :
  foldl (fun m addr => init_stop addr m) m addrs
  = set_stopping (foldl (fun st addr => {[addr]} ∪ st) (stopping m) addrs) m.
Proof. revert m; induction addrs as [|a l IH]; intros m; simpl; [by destruct m|]. by rewrite IH. Qed.

Lemma keeps_init_stops {D} addrs :
  keeps (map_wf_but D) (update_map (fun m => foldl (fun m addr => init_stop addr m) m addrs)).
Proof. apply map_keeps_update_map. intros m. rewrite init_stops. apply map_wf_stopping. Qed.

Lemma keeps_stop_next_cluster {D} is_open : keeps (map_wf_but D) (stop_next_cluster is_open).
Proof.
  intros s Hs. unfold stop_next_cluster. unfold sbind at 1, get_map.
  destruct (next_cluster (r_map (rs_router s))) as [vec m] eqn:E.
  assert (Hm : map_wf_but D m).
  { pose proof (map_wf_next_cluster _ Hs) as Hw. unfold imap in Hw. by rewrite E in Hw. }
  revert s Hs E. cut (keeps (map_wf_but D) (update_map (fun _ => m) ;;!
    match vec with
    | Some vec =>
        let! addrs := stop_records is_open vec [] in
        update_map (fun m0 => foldl (fun m1 addr => init_stop addr m1) m0 addrs) ;;! sret false
    | None => sret true
    end)); [intros Hk s Hs _; by apply Hk|].
  apply map_keeps_bind; [by apply map_keeps_update_map|]. intros _. destruct vec; [|auto with keeps].
  apply map_keeps_bind; [apply keeps_stop_records, map_wf_shape|]. intros addrs.
  apply map_keeps_bind; [apply keeps_init_stops|auto with keeps].
Qed.

(** A read of the map that is used before the map changes. *)
Lemma map_keeps_get {A} P (k : InternalMap -> rm A) :
  (forall s, P (imap s) -> P (imap (k (imap s) s).2)) -> keeps P (sbind get_map k).
Proof. intros Hk s Hs. apply (Hk s Hs). Qed.

Lemma keeps_update_get {A} P f (k : rm A) s :
  P (f (imap s)) -> keeps P k -> P (imap (sbind (update_map f) (fun _ => k) s).2).
Proof. intros Hf Hk. by apply Hk. Qed.

Lemma keeps_shutdown_ack {D} is_open a : keeps (map_wf_but D) (shutdown_ack is_open a).
Proof.
  apply map_keeps_bind; [apply map_keeps_update_map; intros m; apply map_wf_free|]. intros _.
  apply map_keeps_get. intros s Hs. destruct (negb _); [done|]. by apply keeps_stop_next_cluster.
Qed.

Lemma keeps_graceful {D} is_open t c : keeps (map_wf_but D) (graceful is_open t c).
Proof.
  apply map_keeps_bind; [by intros s|]. intros _.
  apply map_keeps_bind; [by intros s|]. intros m.
  apply map_keeps_bind; [apply keeps_graceful_loop, map_wf_shape|]. intros [|a l].
  - apply keeps_stop_next_cluster.
  - apply map_keeps_bind; [apply keeps_init_stops|]. intros _.
    apply map_keeps_bind; [by intros s|auto with keeps].
Qed.

Lemma keeps_goodbye P is_open : keeps P (goodbye is_open).
Proof. apply map_keeps_state. intros st. destruct (stop_reply st); eauto with keeps. Qed.

(** Starting a worker or a processor whose primary address is free. *)
Lemma keeps_start {D} is_open p rec reply :
  head (address_set rec) = Some p -> (processor (ar_meta rec) = true -> address_set rec = [p]) ->
  keeps (map_wf_but D) (check_addr_not_exist is_open p reply ;;!
    update_map (insert_address_record p rec) ;;!
    update_map (fun m => foldl (fun m addr => insert_alias addr p m) m (address_set rec)) ;;!
    send is_open reply RouterReply_ok).
Proof.
  intros Hhead Hproc s Hs. unfold check_addr_not_exist. run_unfold.
  case_bool_decide as Hex; [unfold send; by destruct (is_open reply)|].
  apply map_keeps_send. apply (map_wf_add (imap s) p rec); try done.
  by apply eq_None_not_Some.
Qed.

Lemma keeps_start_worker {D} is_open addrs senders det metrics reply :
  keeps (map_wf_but D) (start_worker_exec is_open addrs senders det metrics reply).
Proof.
  apply map_keeps_state. intros [|c|]; [|apply map_keeps_send|by intros s].
  destruct addrs as [|p addrs]; [by intros s|].
  exact (keeps_start is_open p (AddressRecord_new (p :: addrs) (msgs senders) (ctrl senders)
           (Some metrics) (mkAddressMeta false det)) reply eq_refl ltac:(done)).
Qed.

Lemma keeps_start_processor {D} is_open a senders reply :
  keeps (map_wf_but D) (start_processor_exec is_open a senders reply).
Proof.
  apply map_keeps_state. intros [|c|]; [|apply map_keeps_send|by intros s].
  exact (keeps_start is_open a (AddressRecord_new [a] (msgs senders) (ctrl senders)
           None (mkAddressMeta true false)) reply eq_refl ltac:(done)).
Qed.

Lemma drop_sender_shape rec : same_shape rec (drop_sender rec).
Proof. done. Qed.

Lemma keeps_stop_worker {D} is_open a det reply : keeps (map_wf_but D) (stop_worker_exec is_open a det reply).
Proof.
  apply map_keeps_get. intros s Hs. unfold get_primary_address, get_address_record.
  destruct (alias_map _ !! a) as [p|]; [|by apply map_keeps_send].
  destruct (address_records_map _ !! p) as [rec|] eqn:Hrec; [|by apply map_keeps_send].
  unfold sbind, send. destruct (is_open reply); [|done]. destruct det; simpl.
  - by apply map_wf_free.
  - by apply (map_wf_update _ _ rec).
Qed.

Lemma keeps_stop_processor {D} is_open a reply s :
  map_wf_but D (imap s) ->
  (forall rec, address_records_map (imap s) !! a = Some rec -> address_set rec = [a] \/ forall b, D b a) ->
  map_wf_but D (imap (stop_processor_exec is_open a reply s).2).
Proof.
  intros Hs Hok. unfold stop_processor_exec, sbind at 1, get_map. fold (imap s).
  destruct (address_records_map (imap s) !! a) as [rec|] eqn:Hrec.
  - assert (Hm : map_wf_but D (without_processor a (imap s)))
      by (apply (map_wf_without_processor a rec); auto).
    unfold remove_address_record. simpl. rewrite Hrec.
    unfold sbind, update_map, update. simpl.
    destruct (AddressRecord_stop _ _ _) as [[rec'|e|] s1] eqn:E;
      (pose proof (f_equal (fun x => imap x.2) E) as Em; simpl in Em; rewrite stop_map in Em);
      [apply map_keeps_send|simpl..]; by rewrite <-Em.
  - pose proof (remove_none a (imap s) Hrec) as Hn.
    unfold remove_address_record in *. simpl in *. rewrite Hrec.
    apply keeps_update_get; [|auto with keeps]. rewrite Hn. by apply map_wf_flow_controls.
Qed.

Lemma keeps_resolve P is_open a reply : keeps P (resolve is_open a reply).
Proof.
  apply map_keeps_get. intros s Hs. repeat case_match; try (by apply map_keeps_send); run_unfold;
    unfold unwrap; destruct (ar_sender _); try (by apply map_keeps_send); done.
Qed.

Lemma keeps_send_all P is_open l : keeps P (send_all is_open l).
Proof. induction l as [|c l IH]; simpl; auto with keeps. Qed.

Lemma keeps_ready {D} is_open a reply :
  keeps (map_wf_but D) (handle_msg is_open (SetReady a)) /\
  keeps (map_wf_but D) (handle_msg is_open (CheckReady a reply)).
Proof.
  split; apply map_keeps_get; intros s Hs.
  - unfold map_set_ready. destruct (address_records_map _ !! a) as [rec|] eqn:Hrec.
    + unfold AddressRecord_set_ready. cbv beta iota.
      apply keeps_update_get; [by apply (map_wf_update _ _ rec)|].
      apply map_keeps_bind; [|auto with keeps]. apply keeps_send_all.
    + by apply keeps_update_get; [|auto with keeps].
  - unfold get_ready. destruct (address_records_map _ !! a) as [rec|] eqn:Hrec.
    + destruct (AddressRecord_ready reply rec) as [b rec'] eqn:E.
      apply keeps_update_get; [|apply map_keeps_bind; [destruct b|]; auto with keeps].
      apply (map_wf_update _ _ rec); try done. revert E. unfold AddressRecord_ready.
      by destruct (ar_ready rec); intros; simplify_eq/=.
    + by apply keeps_update_get; [|apply map_keeps_bind; auto with keeps].
Qed.

Definition open_all (_ : chan) : bool := true.

(** What keeps the aliases in order: only workers with one address, as
    processors have, are stopped with [stop_processor], and there is no immediate
    shutdown, which clears the records. *)
Definition msg_ok (m : InternalMap) (msg : NodeMessage) : Prop :=
  match msg with
  | StopProcessor a _ =>
      forall rec, address_records_map m !! a = Some rec -> address_set rec = [a]
  | StopNode Immediate _ => False
  | _ => True
  end.

(** A message that leaves no alias outside of [D] dangling. *)
Definition msg_leaves (D : Address -> Address -> Prop) (m : InternalMap) (msg : NodeMessage) : Prop :=
  match msg with
  | StopProcessor a _ =>
      forall rec, address_records_map m !! a = Some rec -> address_set rec = [a] \/ forall b, D b a
  | StopNode Immediate _ => forall b p, D b p
  | _ => True
  end.

Lemma msg_ok_leaves m msg : msg_ok m msg -> msg_leaves (fun _ _ => False) m msg.
Proof. destruct msg as [| | | | | |[]| | | | | |]; cbn; try done. intros H rec Hr. left. auto. Qed.

Lemma all_leaves m msg : msg_leaves (fun _ _ => True) m msg.
Proof. destruct msg as [| | | | | |[]| | | | | |]; cbn; try done. intros rec _. by right. Qed.

Lemma map_wf_clear D m : (forall b p, D b p) -> map_wf_but D m -> map_wf_but D (clear_address_records_map m).
Proof.
  intros HD [Hh Ha Hp Ho Hc].
  split; cbn; [intros p rec; by rewrite lookup_empty | by left | intros p rec; by rewrite lookup_empty | done..].
Qed.

Lemma keeps_immediate D is_open c : (forall b p, D b p) -> keeps (map_wf_but D) (immediate is_open c).
Proof.
  intros HD. apply map_keeps_bind; [apply map_keeps_update_map; intros m; by apply map_wf_clear|]. intros _.
  apply map_keeps_bind; [by intros s|auto with keeps].
Qed.

Lemma handle_msg_wf_but {D} is_open msg s r s' :
  map_wf_but D (imap s) -> msg_leaves D (imap s) msg -> handle_msg is_open msg s = (r, s') -> r <> Ok true ->
  map_wf_but D (imap s').
Proof.
  intros Hs Hok Hr Hne.
  assert (Hkeep : forall c : rm bool, keeps (map_wf_but D) c -> c s = (r, s') -> map_wf_but D (imap s')).
  { intros c Hc Hcs. specialize (Hc s Hs). by rewrite Hcs in Hc. }
  destruct msg as [addrs senders det cnt reply|reply|a l reply|a det reply|a senders reply|a reply
    |[t|] reply| |a|a reply|ty a reply|a|a reply]; simpl in Hok; try done.
  - revert Hr. apply Hkeep. apply map_keeps_bind; [apply keeps_start_worker|auto with keeps].
  - revert Hr. apply Hkeep. apply map_keeps_bind; [by intros ?|auto with keeps].
  - revert Hr. apply Hkeep. apply map_keeps_get. intros s0 Hs0.
    pose proof (map_wf_set_cluster l a _ Hs0) as Hw.
    destruct (set_cluster l a (imap s0)) as [msg m]. by apply keeps_update_get; [|auto with keeps].
  - revert Hr. apply Hkeep. apply map_keeps_bind; [apply keeps_stop_worker|auto with keeps].
  - revert Hr. apply Hkeep. apply map_keeps_bind; [apply keeps_start_processor|auto with keeps].
  - pose proof (keeps_stop_processor is_open a reply s Hs Hok) as Hk. simpl in Hr.
    run_unfold_in Hr. destruct (stop_processor_exec _ _ _ s) as [[[]|e|] s1]; by simplify_eq/=.
  - revert Hr. apply Hkeep. apply map_keeps_bind; [apply keeps_graceful|].
    intros []; [apply keeps_goodbye|auto with keeps].
  - revert Hr. apply Hkeep. apply map_keeps_bind; [by apply keeps_immediate|auto with keeps].
  - simpl in Hr. run_unfold_in Hr. destruct (stop_reply _); [|by simplify_eq/=].
    unfold send in Hr. destruct (is_open _); by simplify_eq/=.
  - revert Hr. apply Hkeep. apply map_keeps_state. intros st. destruct (is_running st).
    + apply map_keeps_bind; [|auto with keeps]. apply map_keeps_update_map. intros m. apply map_wf_free.
    + apply map_keeps_bind; [apply keeps_shutdown_ack|]. intros []; [apply keeps_goodbye|auto with keeps].
  - revert Hr. apply Hkeep. simpl. destruct (determine_type a).
    + apply map_keeps_bind; [apply keeps_resolve|auto with keeps].
    + apply map_keeps_bind; [by intros ?|]. intros a'. apply map_keeps_bind; [apply keeps_resolve|auto with keeps].
  - revert Hr. apply Hkeep. intros s0 Hs0. simpl. case_bool_decide.
    + apply map_keeps_bind; auto with keeps.
    + revert s0 Hs0 H. intros s0 Hs0 _. unfold sbind at 1, update.
      apply (map_keeps_bind (map_wf_but D) (send is_open reply RouterReply_ok)); auto with keeps.
  - revert Hr. apply Hkeep. apply (keeps_ready is_open a 0).
  - revert Hr. apply Hkeep. apply (keeps_ready is_open a reply).
Qed.

Lemma handle_msg_wf is_open msg s r s' :
  map_wf (imap s) -> msg_ok (imap s) msg -> handle_msg is_open msg s = (r, s') -> r <> Ok true ->
  map_wf (imap s').
Proof. intros Hs Hok%msg_ok_leaves. by apply handle_msg_wf_but. Qed.

(** The router of a node that keeps running: it starts with the record of the
    application and handles messages. *)
Definition initial (c : chan) (fc : FlowControls) (addr : Address) (senders : SenderPair) : rstate :=
  mkRState (Router_init addr senders (Router_new c fc)) [].

(** [allowed]: which messages are considered; a reply may fail. *)
Inductive router_step (allowed : InternalMap -> NodeMessage -> Prop) : rstate -> rstate -> Prop :=
| RouterStep is_open msg s r s' :
    allowed (imap s) msg -> handle_msg is_open msg s = (r, s') -> r <> Ok true ->
    router_step allowed s s'.

Definition any_message (m : InternalMap) (msg : NodeMessage) : Prop := True.

Lemma empty_wf {D} fc : map_wf_but D (InternalMap_new fc).
Proof.
  split; simpl; try done; [constructor|].
  intros l. rewrite lookup_empty. split; [set_solver|by intros []].
Qed.

Lemma initial_wf {D} c fc addr senders : map_wf_but D (imap (initial c fc addr senders)).
Proof.
  by apply (map_wf_add (InternalMap_new fc) addr
    (AddressRecord_new [addr] (msgs senders) (ctrl senders) None (mkAddressMeta false true)) (empty_wf fc)).
Qed.

Lemma router_keeps D allowed c fc addr senders s :
  (forall m msg, allowed m msg -> msg_leaves D m msg) ->
  rtc (router_step allowed) (initial c fc addr senders) s -> map_wf_but D (imap s).
Proof.
  intros Hall Hr. assert (Hi := initial_wf (D := D) c fc addr senders).
  induction Hr as [s|s1 s2 s3 [is_open msg s r s' Hok Hm Hne] _ IH]; [done|].
  apply IH. eapply handle_msg_wf_but; eauto.
Qed.

(** C12: in every state a running router reaches, whatever messages it gets and
    whichever replies fail, each record sits under the first of its addresses,
    processors have one address, and the labels of the clusters are those of
    their order of creation, without duplicates ([map_shape]).  As long as only
    workers with one address are stopped with [stop_processor] and no immediate
    shutdown is asked for ([msg_ok]), each alias leads to a record that has the
    address as well ([map_wf]); without this it does not
    ([stop_processor_leaves_alias]). *)
Theorem router_invariant c fc addr senders s :
  (rtc (router_step any_message) (initial c fc addr senders) s -> map_shape (imap s)) /\
  (rtc (router_step msg_ok) (initial c fc addr senders) s -> map_wf (imap s)).
Proof.
  split; apply router_keeps; [intros m msg _; apply all_leaves | apply msg_ok_leaves].
Qed.

(** A worker with two addresses that is stopped with [stop_processor] leaves an
    alias that leads nowhere. *)
Theorem stop_processor_leaves_alias c fc addr senders w x (sw : SenderPair) (c1 c2 : chan) :
  w <> addr -> x <> w ->
  exists s, rtc (router_step any_message) (initial c fc addr senders) s /\
    alias_map (imap s) !! x = Some w /\ address_records_map (imap s) !! w = None.
Proof.
  intros Hw Hxw. set (s0 := initial c fc addr senders).
  set (rec := AddressRecord_new [w; x] (msgs sw) (ctrl sw) (Some 0) (mkAddressMeta false false)).
  set (s1 := mkRState (set_map (add_record w rec (imap s0)) (rs_router s0)) [Reply c1 RouterReply_ok]).
  assert (handle_msg open_all (StartWorker [w; x] sw false 0 c1) s0 = (Ok false, s1)) as E1.
  { unfold handle_msg, start_worker_exec, start_worker, check_addr_not_exist. run_unfold.
    cbn -[add_record]. rewrite bool_decide_false; [done|]. rewrite lookup_insert_ne, lookup_empty by done. by intros []. }
  set (s2 := (handle_msg open_all (StopProcessor w c2) s1).2).
  assert (address_records_map (imap s1) !! w = Some rec) as Hrec
    by (cbn; apply lookup_insert_eq).
  exists s2. split; [eapply rtc_l; [|eapply rtc_l; [|apply rtc_refl]]|].
  - by apply (RouterStep any_message open_all (StartWorker [w; x] sw false 0 c1) s0 (Ok false)).
  - apply (RouterStep any_message open_all (StopProcessor w c2) s1 _ s2 I (surjective_pairing _)).
    unfold handle_msg, stop_processor_exec, remove_address_record. run_unfold. cbn -[s1]. fold (imap s1).
    rewrite Hrec. done.
  - unfold s2, handle_msg, stop_processor_exec, remove_address_record. run_unfold. cbn -[s1]. fold (imap s1).
    rewrite Hrec. cbn -[s1]. rewrite lookup_delete_eq, lookup_delete_ne by done. split; [|done]. cbn.
    by rewrite lookup_insert_eq.
Qed.

(** ** The router as a directory of workers

    The specification has no aliases: an address belongs to the worker that
    was started with it. *)

Record Directory := mkDirectory {
  d_workers : gmap Address AddressRecord;
  d_external : gmap TransportType Address
}.

(** The worker with an address. *)
Definition owner (d : Directory) (a : Address) : option (Address * AddressRecord) :=
  head (filter (fun kv => a ∈ address_set kv.2) (map_to_list (d_workers d))).

Notation reply := (chan * NodeReplyResult)%type (only parsing).

Definition with_workers (d : Directory) (w : gmap Address AddressRecord) : Directory :=
  mkDirectory w (d_external d).

Definition dir_lookup (d : Directory) (a : Address) : NodeReplyResult :=
  match owner d a with
  | None => no_such_address a
  | Some (_, rec) =>
      match ar_state rec, ar_sender rec with
      | Running, Some sender => Ok (ReplySender a sender)
      | _, _ => worker_rejected WorkerReason_Shutdown
      end
  end.

Definition dir_start (p : Address) (rec : AddressRecord) (c : chan) (d : Directory)
  : list reply * Directory :=
  match d_workers d !! p with
  | Some _ => ([(c, Err (already_exists (NodeError_Address p)))], d)
  | None => ([(c, RouterReply_ok)], with_workers d (<[p := rec]> (d_workers d)))
  end.

Definition dir_step (msg : NodeMessage) (d : Directory) : list reply * Directory :=
  match msg with
  | StartWorker [] _ _ _ _ => ([], d)
  | StartWorker (p :: l) senders det count c =>
      dir_start p (AddressRecord_new (p :: l) (msgs senders) (ctrl senders) (Some count)
                     (mkAddressMeta false det)) c d
  | StartProcessor p senders c =>
      dir_start p (AddressRecord_new [p] (msgs senders) (ctrl senders) None
                     (mkAddressMeta true false)) c d
  | StopWorker a det c =>
      match owner d a with
      | None => ([(c, no_such_address a)], d)
      | Some (p, rec) =>
          ([(c, RouterReply_ok)],
           with_workers d (if det : bool then delete p (d_workers d)
                           else <[p := drop_sender rec]> (d_workers d)))
      end
  | StopProcessor p c =>
      match d_workers d !! p with
      | None => ([(c, no_such_address p)], d)
      | Some _ => ([(c, RouterReply_ok)], with_workers d (delete p (d_workers d)))
      end
  | StopAck p => ([], with_workers d (delete p (d_workers d)))
  | SenderReq a c =>
      match determine_type a with
      | Internal => ([(c, dir_lookup d a)], d)
      | External ty =>
          match d_external d !! ty with
          | Some a => ([(c, dir_lookup d a)], d)
          | None => ([], d)
          end
      end
  | ListWorkers c =>
      ([(c, Ok (ReplyWorkers (merge_sort Address_le (elements (dom (d_workers d))))))], d)
  | SetCluster a _ c =>
      ([(c, match d_workers d !! a with
            | Some _ => RouterReply_ok
            | None => Err (not_found (NodeError_Address a))
            end)], d)
  | SetReady a =>
      match d_workers d !! a with
      | Some rec =>
          (map (fun c => (c, RouterReply_ok)) (AddressRecord_set_ready rec).1,
           with_workers d (<[a := (AddressRecord_set_ready rec).2]> (d_workers d)))
      | None => ([], d)
      end
  | CheckReady a c =>
      match d_workers d !! a with
      | Some rec =>
          (if (AddressRecord_ready c rec).1 then [(c, RouterReply_ok)] else [],
           with_workers d (<[a := (AddressRecord_ready c rec).2]> (d_workers d)))
      | None => ([], d)
      end
  | RegisterRouter ty a c =>
      match d_external d !! ty with
      | Some _ => ([(c, router_exists)], d)
      | None => ([(c, RouterReply_ok)], mkDirectory (d_workers d) (<[ty := a]> (d_external d)))
      end
  | AbortNode | StopNode _ _ => ([], d)
  end.

(** What the documentation asks of the users of a running node: the addresses
    of a new worker are unused (or its first one is the primary address of a
    worker, and it is not started), and processors are stopped as such. *)
Definition dir_ok (d : Directory) (msg : NodeMessage) : Prop :=
  match msg with
  | StartWorker (p :: l) _ _ _ _ =>
      is_Some (d_workers d !! p) \/ forall a, a ∈ p :: l -> owner d a = None
  | StartProcessor p _ _ => is_Some (d_workers d !! p) \/ owner d p = None
  | StopProcessor p _ => forall rec, d_workers d !! p = Some rec -> address_set rec = [p]
  | StopNode _ _ => False
  | _ => True
  end.

Definition replies (out : list effect) : list reply :=
  omap (fun e => match e with Reply c r => Some (c, r) | _ => None end) out.

Record sim (s : rstate) (d : Directory) : Prop := {
  sim_running : r_state (rs_router s) = NodeRunning /\ r_receiver (rs_router s) = true;
  sim_workers : address_records_map (imap s) = d_workers d;
  sim_external : external (rs_router s) = d_external d;
  sim_wf : map_wf (imap s);
  sim_owned : map_owned (imap s)
}.

Lemma owner_some d a p rec :
  owner d a = Some (p, rec) -> d_workers d !! p = Some rec /\ a ∈ address_set rec.
Proof.
  unfold owner. intros Hh. apply head_Some_elem_of in Hh.
  apply list_elem_of_filter in Hh as [Hin Hm]. by apply elem_of_map_to_list in Hm.
Qed.

Lemma owner_none d a p rec :
  owner d a = None -> d_workers d !! p = Some rec -> a ∉ address_set rec.
Proof.
  unfold owner. intros Hh Hp Hin. apply head_None in Hh.
  assert (Hf : (p, rec) ∈ filter (fun kv : Address * AddressRecord => a ∈ address_set kv.2)
                        (map_to_list (d_workers d))).
  { apply list_elem_of_filter. split; [done|]. by apply elem_of_map_to_list. }
  rewrite Hh in Hf. set_solver.
Qed.

(** The alias map answers the question who owns an address. *)
Lemma sim_owner s d a :
  sim s d ->
  match owner d a with
  | Some (p, rec) => alias_map (imap s) !! a = Some p /\ d_workers d !! p = Some rec
  | None => alias_map (imap s) !! a = None
  end.
Proof.
  intros [_ Hw _ Hwf Hown]. destruct (owner d a) as [[p rec]|] eqn:E.
  - apply owner_some in E as [Hp Hin]. split; [|done]. apply (Hown p rec); [by rewrite Hw|done].
  - destruct (alias_map (imap s) !! a) as [p|] eqn:Ha; [|done].
    destruct (wf_alias _ a p Hwf Ha) as (rec & Hrec & Hin). rewrite Hw in Hrec.
    by apply (owner_none d a p rec) in E.
Qed.

Lemma replies_app out1 out2 : replies (out1 ++ out2) = replies out1 ++ replies out2.
Proof. apply omap_app. Qed.

Lemma sim_map s d m w out :
  sim s d -> address_records_map m = w -> map_wf m -> map_owned m ->
  sim (mkRState (set_map m (rs_router s)) out) (with_workers d w).
Proof. intros [H1 H2 H3 H4 H5] Hw Hwf Hown. by split. Qed.

Lemma sim_out s d out : sim s d -> sim (mkRState (rs_router s) out) d.
Proof. by intros []. Qed.

Lemma with_workers_id d : with_workers d (d_workers d) = d.
Proof. by destruct d. Qed.

(** The result of a handler against the specification. *)
Definition agrees (s : rstate) (x : result node_error bool * rstate) (y : list reply * Directory)
  : Prop :=
  x.1 <> Ok true /\ x.1 <> Panic /\ sim x.2 y.2 /\ replies (rs_out x.2) = replies (rs_out s) ++ y.1.

(** A handler that only replies. *)
Lemma agrees_reply s d c r :
  sim s d ->
  agrees s ((send open_all c r ;;! sret false) s) ([(c, r)], d).
Proof.
  intros Hs. split; [done|]. split; [done|]. split; [by apply sim_out|].
  simpl. by rewrite replies_app.
Qed.

(** A handler that does nothing. *)
Lemma agrees_none s d r : sim s d -> r <> Ok true -> r <> Panic -> agrees s (r, s) ([], d).
Proof. intros Hs H1 H2. do 3 (split; [done|]). simpl. by rewrite app_nil_r. Qed.

Lemma agrees_start s d p rec c :
  sim s d -> head (address_set rec) = Some p ->
  (processor (ar_meta rec) = true -> address_set rec = [p]) ->
  is_Some (d_workers d !! p) \/ (forall a, a ∈ address_set rec -> owner d a = None) ->
  agrees s (((check_addr_not_exist open_all p c ;;!
    update_map (insert_address_record p rec) ;;!
    update_map (fun m => foldl (fun m addr => insert_alias addr p m) m (address_set rec)) ;;!
    send open_all c RouterReply_ok) ;;! sret false) s) (dir_start p rec c d).
Proof.
  intros Hs Hhead Hproc Hok. unfold check_addr_not_exist, dir_start. run_unfold.
  fold (imap s). rewrite (sim_workers _ _ Hs). destruct (d_workers d !! p) as [old|] eqn:Hp.
  - rewrite bool_decide_true by eauto. simpl. split; [done|]. split; [done|].
    split; [by apply sim_out|]. simpl. by rewrite replies_app.
  - rewrite bool_decide_false by (by intros []). simpl. split; [done|]. split; [done|].
    split; [|simpl; by rewrite replies_app].
    destruct Hok as [[? ?]|Hfree]; [done|].
    apply (sim_map s d (add_record p rec (imap s))); [done|..].
    + unfold add_record. rewrite add_aliases. simpl. by rewrite (sim_workers _ _ Hs).
    + apply map_wf_add; try done; [apply Hs|]. by rewrite (sim_workers _ _ Hs).
    + apply map_owned_add; [apply Hs|]. intros a Ha. specialize (Hfree a Ha).
      pose proof (sim_owner s d a Hs) as Ho. by rewrite Hfree in Ho.
Qed.

Lemma agrees_resolve s d a c :
  sim s d -> agrees s ((resolve open_all a c ;;! sret false) s) ([(c, dir_lookup d a)], d).
Proof.
  intros Hs. pose proof (sim_owner s d a Hs) as Ho. unfold resolve, dir_lookup.
  run_unfold. fold (imap s). unfold get_primary_address, get_address_record.
  destruct (owner d a) as [[p rec]|].
  - destruct Ho as [-> Hp]. rewrite (sim_workers _ _ Hs), Hp. unfold AddressRecord_check.
    unfold agrees. destruct (ar_state rec), (ar_sender rec), (msg_count rec); simpl;
      (split; [done|]; split; [done|]; split; [by apply sim_out|];
       rewrite !replies_app; simpl; by rewrite ?app_nil_r).
  - rewrite Ho. split; [done|]. split; [done|]. split; [by apply sim_out|].
    simpl. by rewrite replies_app.
Qed.

Lemma agrees_stop_worker s d a det c :
  sim s d -> agrees s (handle_msg open_all (StopWorker a det c) s) (dir_step (StopWorker a det c) d).
Proof.
  intros Hs. pose proof (sim_owner s d a Hs) as Ho. simpl. unfold stop_worker_exec.
  run_unfold. fold (imap s). unfold get_primary_address, get_address_record.
  destruct (owner d a) as [[p rec]|].
  - destruct Ho as [-> Hp]. rewrite (sim_workers _ _ Hs), Hp. simpl.
    destruct det; (split; [done|]; split; [done|]; split; [|simpl; by rewrite replies_app]);
      apply (sim_map s d); try done.
    + rewrite free_address_records. f_equal. apply Hs.
    + apply map_wf_free, Hs.
    + apply map_owned_free, Hs.
    + simpl. f_equal. apply Hs.
    + apply (map_wf_update _ _ rec); [apply Hs|by rewrite <-(sim_workers _ _ Hs) in Hp|done].
    + apply (map_owned_update _ _ rec); [apply Hs|by rewrite <-(sim_workers _ _ Hs) in Hp|done].
  - rewrite Ho. split; [done|]. split; [done|]. split; [by apply sim_out|].
    simpl. by rewrite replies_app.
Qed.

Lemma agrees_stop_processor s d p c :
  sim s d -> dir_ok d (StopProcessor p c) ->
  agrees s (handle_msg open_all (StopProcessor p c) s) (dir_step (StopProcessor p c) d).
Proof.
  intros Hs Hok. simpl in Hok |- *. unfold stop_processor_exec, remove_address_record.
  run_unfold. fold (imap s). simpl. rewrite (sim_workers _ _ Hs).
  destruct (d_workers d !! p) as [rec|] eqn:Hp.
  - assert (Hrec : address_records_map (imap s) !! p = Some rec) by (by rewrite (sim_workers _ _ Hs)).
    specialize (Hok rec eq_refl).
    assert (Hsim : forall out, sim (mkRState (set_map (without_processor p (imap s)) (rs_router s)) out)
                     (with_workers d (delete p (d_workers d)))).
    { intros out. apply sim_map; [done|..].
      - simpl. by rewrite (sim_workers _ _ Hs).
      - apply (map_wf_without_processor p rec); [apply Hs|done|by left].
      - apply (map_owned_without_processor p rec); [apply Hs|done..]. }
    unfold without_processor, remove_address_record in Hsim. simpl in Hsim.
    rewrite (sim_workers _ _ Hs) in Hsim.
    unfold AddressRecord_stop. destruct (processor (ar_meta rec));
      (split; [done|]; split; [done|]; split; [apply Hsim|]); simpl; rewrite !replies_app; simpl;
      by rewrite ?app_nil_r.
  - split; [done|]. split; [done|]. simpl. split; [|by rewrite replies_app].
    rewrite <-(with_workers_id d). apply sim_map; [done|..].
    + simpl. by rewrite delete_id.
    + rewrite delete_id by done. destruct Hs as [_ <- _ Hwf _].
      exact (map_wf_flow_controls (cleanup_address p (flow_controls (imap s))) _ Hwf).
    + rewrite delete_id by done. destruct Hs as [_ <- _ _ Hown]. exact Hown.
Qed.

Lemma replies_acks l :
  replies (map (fun c => Reply c RouterReply_ok) l) = map (fun c => (c, RouterReply_ok)) l.
Proof. induction l as [|c l IH]; [done|]. simpl. by rewrite <-IH. Qed.

Lemma agrees_ready s d a c :
  sim s d ->
  agrees s (handle_msg open_all (SetReady a) s) (dir_step (SetReady a) d) /\
  agrees s (handle_msg open_all (CheckReady a c) s) (dir_step (CheckReady a c) d).
Proof.
  intros Hs. assert (Hrep : forall rec rec' out, d_workers d !! a = Some rec -> same_shape rec rec' ->
    sim (mkRState (set_map (insert_address_record a rec' (imap s)) (rs_router s)) out)
      (with_workers d (<[a := rec']> (d_workers d)))).
  { intros rec rec' out Ha Hsh. apply sim_map; [done|..].
    - simpl. by rewrite (sim_workers _ _ Hs).
    - apply (map_wf_update _ _ rec); [apply Hs|by rewrite (sim_workers _ _ Hs)|done].
    - apply (map_owned_update _ _ rec); [apply Hs|by rewrite (sim_workers _ _ Hs)|done]. }
  assert (Hsend : forall l s0, send_all open_all l s0 =
    (Ok tt, mkRState (rs_router s0) (rs_out s0 ++ map (fun c => Reply c RouterReply_ok) l))).
  { induction l as [|x l IH]; intros [r0 o0]; simpl; [by rewrite app_nil_r|].
    run_unfold. simpl. rewrite IH. simpl. by rewrite <-app_assoc. }
  split; simpl; run_unfold; unfold map_set_ready, get_ready; fold (imap s);
    rewrite (sim_workers _ _ Hs).
  - destruct (d_workers d !! a) as [rec|] eqn:Ha.
    + unfold AddressRecord_set_ready. rewrite Hsend. split; [done|]. split; [done|]. split.
      * rewrite <-(sim_workers _ _ Hs) in Hrep |- *. by apply (Hrep rec).
      * simpl. by rewrite replies_app, replies_acks.
    + split; [done|]. split; [done|]. split; [|simpl; by rewrite app_nil_r]. by destruct Hs.
  - destruct (d_workers d !! a) as [rec|] eqn:Ha.
    + destruct (AddressRecord_ready c rec) as [b rec'] eqn:E.
      assert (Hsh : same_shape rec rec').
      { revert E. unfold AddressRecord_ready. by destruct (ar_ready rec); intros; simplify_eq/=. }
      rewrite <-(sim_workers _ _ Hs) in Hrep |- *.
      destruct b; (split; [done|]; split; [done|]; split; [by apply (Hrep rec)|]); simpl;
        rewrite ?replies_app; simpl; by rewrite ?app_nil_r.
    + split; [done|]. split; [done|]. split; [|simpl; by rewrite app_nil_r]. by destruct Hs.
Qed.

Lemma agrees_cluster s d a l c :
  sim s d -> agrees s (handle_msg open_all (SetCluster a l c) s) (dir_step (SetCluster a l c) d).
Proof.
  intros Hs. simpl. run_unfold. fold (imap s).
  destruct (set_cluster_lookup l a (imap s)) as (Er & Ea & _).
  pose proof (map_wf_set_cluster l a (imap s) (sim_wf _ _ Hs)) as Hwf.
  assert (Hown : map_owned (set_cluster l a (imap s)).2).
  { intros p rec x. rewrite Er, Ea. apply (sim_owned _ _ Hs). }
  assert (Hreply : (set_cluster l a (imap s)).1 = match d_workers d !! a with
                   | Some _ => RouterReply_ok | None => Err (not_found (NodeError_Address a)) end).
  { unfold set_cluster. rewrite (sim_workers _ _ Hs). by destruct (d_workers d !! a). }
  destruct (set_cluster l a (imap s)) as [msg m]. simpl in *. subst msg.
  split; [done|]. split; [done|]. simpl. split; [|by rewrite replies_app].
  rewrite <-(with_workers_id d). apply sim_map; try done. by rewrite Er, (sim_workers _ _ Hs).
Qed.

Lemma agrees_register s d ty a c :
  sim s d ->
  agrees s (handle_msg open_all (RegisterRouter ty a c) s) (dir_step (RegisterRouter ty a c) d).
Proof.
  intros Hs. simpl. rewrite (sim_external _ _ Hs). destruct (d_external d !! ty) as [b|] eqn:E.
  - rewrite bool_decide_true by eauto. by apply agrees_reply.
  - rewrite bool_decide_false by (by intros []). run_unfold. simpl.
    split; [done|]. split; [done|]. simpl. split; [|by rewrite replies_app].
    destruct Hs as [H1 H2 H3 H4 H5]. split; try done. simpl. by rewrite H3.
Qed.

(** Every message a running node handles does what the specification says. *)
Lemma handle_msg_agrees s d msg :
  sim s d -> dir_ok d msg -> agrees s (handle_msg open_all msg s) (dir_step msg d).
Proof.
  intros Hs Hok.
  assert (Hrun : forall k : NodeState -> rm bool,
    sbind get_state k s = k NodeRunning s).
  { intros k. run_unfold. by rewrite (proj1 (sim_running _ _ Hs)). }
  destruct msg as [[|p l] senders det cnt c|c|a l c|a det c|p senders c|p c|t c| |p|a c|ty a c|a|a c];
    simpl in Hok; try done.
  - simpl. unfold start_worker_exec. run_unfold. rewrite (proj1 (sim_running _ _ Hs)). simpl.
    by apply agrees_none.
  - simpl. unfold start_worker_exec. unfold sbind at 1 2. unfold get_state.
    rewrite (proj1 (sim_running _ _ Hs)).
    exact (agrees_start s d p (AddressRecord_new (p :: l) (msgs senders) (ctrl senders)
             (Some cnt) (mkAddressMeta false det)) c Hs eq_refl ltac:(done) Hok).
  - simpl. unfold record_keys. unfold sbind at 1, get_map. fold (imap s).
    rewrite (sim_workers _ _ Hs). by apply agrees_reply.
  - by apply agrees_cluster.
  - by apply agrees_stop_worker.
  - simpl. unfold start_processor_exec. unfold sbind at 1 2. unfold get_state.
    rewrite (proj1 (sim_running _ _ Hs)).
    refine (agrees_start s d p (AddressRecord_new [p] (msgs senders) (ctrl senders)
             None (mkAddressMeta true false)) c Hs eq_refl ltac:(done) _).
    destruct Hok as [?|Hn]; [by left|]. right. simpl. intros a Ha. apply list_elem_of_singleton in Ha. by subst.
  - by apply agrees_stop_processor.
  - simpl. rewrite Hrun. by apply agrees_none.
  - simpl. rewrite Hrun. split; [done|]. split; [done|]. simpl. rewrite app_nil_r. split; [|done].
    apply (sim_map s d (free_address p (imap s))); [done|..].
    + rewrite free_address_records. f_equal. apply Hs.
    + apply map_wf_free, Hs.
    + apply map_owned_free, Hs.
  - simpl. destruct (determine_type a) as [|ty]; [by apply agrees_resolve|].
    unfold sbind at 1, router_addr. rewrite (sim_external _ _ Hs).
    destruct (d_external d !! ty); [by apply agrees_resolve|]. by apply agrees_none.
  - by apply agrees_register.
  - by apply (agrees_ready s d a 0).
  - by apply (agrees_ready s d a c).
Qed.

Fixpoint dir_run (msgs : list NodeMessage) (d : Directory) : list reply * Directory :=
  match msgs with
  | [] => ([], d)
  | msg :: msgs =>
      let (out, d) := dir_step msg d in
      let (outs, d) := dir_run msgs d in (out ++ outs, d)
  end.

Fixpoint dir_run_ok (msgs : list NodeMessage) (d : Directory) : Prop :=
  match msgs with
  | [] => True
  | msg :: msgs => dir_ok d msg /\ dir_run_ok msgs (dir_step msg d).2
  end.

Lemma run_agrees msgs s d :
  sim s d -> dir_run_ok msgs d ->
  exists s', run_inner (map (fun msg => (open_all, msg)) msgs) s = (Ok tt, s') /\
    sim s' (dir_run msgs d).2 /\ replies (rs_out s') = replies (rs_out s) ++ (dir_run msgs d).1.
Proof.
  revert s d. induction msgs as [|msg msgs IH]; intros s d Hs Hok; simpl;
    rewrite (proj2 (sim_running _ _ Hs)); simpl.
  { exists s. by rewrite app_nil_r. }
  destruct Hok as [Hmsg Hok].
  destruct (handle_msg_agrees s d msg Hs Hmsg) as (Ht & Hp & Hs1 & Hout).
  destruct (handle_msg open_all msg s) as [r s1], (dir_step msg d) as [out d1]. simpl in *.
  destruct (IH s1 d1 Hs1 Hok) as (s' & Hr & Hs' & Hout').
  destruct (dir_run msgs d1) as [outs d2]. simpl in *.
  exists s'. rewrite app_assoc, <-Hout. by destruct r as [[]| |].
Qed.

Definition initial_dir (addr : Address) (senders : SenderPair) : Directory :=
  mkDirectory {[addr := AddressRecord_new [addr] (msgs senders) (ctrl senders) None
                          (mkAddressMeta false true)]} ∅.

Lemma initial_sim c fc addr senders :
  sim (initial c fc addr senders) (initial_dir addr senders).
Proof.
  split; [done|done|done|apply initial_wf|].
  apply (map_owned_add (InternalMap_new fc) addr
           (AddressRecord_new [addr] (msgs senders) (ctrl senders) None (mkAddressMeta false true)));
    [by intros p rec a|done].
Qed.

(** C10: a running router is a directory of workers.  Start a router and let it
    handle any messages except for the shutdown, under three conditions: new
    workers use unused addresses, as the documentation of [start_worker] asks
    (or an address that is refused); only workers with one address are stopped
    with [stop_processor]; and whoever waits for a reply gets it, the channels
    are open ([dir_run_ok], [open_all]).  Its replies are those of
    the specification [dir_run], in which an address belongs to the worker
    that was started with it until that worker is stopped: in particular a
    request for the sender of an address gets the mailbox of the worker that
    has the address, and an error if there is none or it is stopping. *)
Theorem router_refines_directory c fc addr senders msgs :
  dir_run_ok msgs (initial_dir addr senders) ->
  exists s', run_inner (map (fun msg => (open_all, msg)) msgs) (initial c fc addr senders) = (Ok tt, s') /\
    replies (rs_out s') = (dir_run msgs (initial_dir addr senders)).1 /\
    address_records_map (imap s') = d_workers (dir_run msgs (initial_dir addr senders)).2.
Proof.
  intros Hok. destruct (run_agrees msgs _ _ (initial_sim c fc addr senders) Hok) as (s' & Hr & Hs & Ho).
  exists s'. split; [done|]. split; [done|apply Hs].
Qed.

(** ** Examples *)

Definition app_addr : Address := addr "app".
Definition app_senders : SenderPair := mkSenderPair 1 2.
Definition start_w : NodeMessage :=
  StartWorker [addr "w"; addr "x"] (mkSenderPair 3 4) false 9 5.

Definition started_w : rstate := (handle_msg open_all start_w (initial 0 FlowControls_new app_addr app_senders)).2.
Definition stopped_w : rstate := (handle_msg open_all (StopProcessor (addr "w") 6) started_w).2.

Lemma router_invariant_witness : map_wf (imap started_w) /\ map_shape (imap stopped_w).
Proof.
  split.
  - apply (router_invariant 0 FlowControls_new app_addr app_senders). apply rtc_once.
    apply (RouterStep msg_ok open_all start_w _
             (handle_msg open_all start_w (initial 0 FlowControls_new app_addr app_senders)).1);
      [exact I|apply surjective_pairing|].
    vm_compute. discriminate.
  - apply (router_invariant 0 FlowControls_new app_addr app_senders). eapply rtc_l; [|apply rtc_once].
    + apply (RouterStep any_message open_all start_w _
               (handle_msg open_all start_w (initial 0 FlowControls_new app_addr app_senders)).1 started_w);
        [exact I|apply surjective_pairing|].
      vm_compute. discriminate.
    + apply (RouterStep any_message open_all (StopProcessor (addr "w") 6) _
               (handle_msg open_all (StopProcessor (addr "w") 6) started_w).1);
        [exact I|apply surjective_pairing|].
      vm_compute. discriminate.
Defined.

Lemma router_refines_directory_witness : exists s',
  run_inner (map (fun msg => (open_all, msg))
    [start_w; SenderReq (addr "x") 6; StopWorker (addr "x") false 7; SenderReq (addr "w") 8;
     StopAck (addr "w"); SenderReq (addr "x") 9]) (initial 0 FlowControls_new app_addr app_senders)
  = (Ok tt, s') /\
  replies (rs_out s') =
    [(5, RouterReply_ok); (6, Ok (ReplySender (addr "x") 3)); (7, RouterReply_ok);
     (8, worker_rejected WorkerReason_Shutdown); (9, no_such_address (addr "x"))].
Proof.
  destruct (router_refines_directory 0 FlowControls_new app_addr app_senders
    [start_w; SenderReq (addr "x") 6; StopWorker (addr "x") false 7; SenderReq (addr "w") 8;
     StopAck (addr "w"); SenderReq (addr "x") 9]) as (s' & Hr & Ho & _).
  - split; [|by repeat split]. right. intros a Ha.
    apply elem_of_cons in Ha as [->|Ha]; [vm_compute; reflexivity|].
    apply list_elem_of_singleton in Ha as ->. vm_compute. reflexivity.
  - exists s'. split; [exact Hr|]. rewrite Ho. vm_compute. reflexivity.
Defined.
