(* ===== verification/RouterShutdown.v ===== *)
(** * Stopping workers and the node

    The phases of a graceful shutdown, and the places where stopping a worker
    or the node leaves something behind. *)

From Stdlib Require Import ZArith Lia.
From Stdlib Require Strings.Byte Strings.String.
From stdpp Require Import base gmap fin_maps fin_map_dom list numbers option countable sorting.
From S2P Require Import Prelude RustStr Routing AccessControl FlowControl Router RouterSpec.

(** ** Addresses of another worker *)

(** The answer of a router to a request for a sender. *)
Definition answer (s : rstate) (a : Address) : list reply :=
  replies (rs_out (handle_msg open_all (SenderReq a 0) (mkRState (rs_router s) [])).2).

Lemma answer_local s a p :
  TransportType_is_local (a_tt a) = true -> alias_map (imap s) !! a = p ->
  answer s a =
  [(0, match p ≫= fun p => address_records_map (imap s) !! p with
       | None => no_such_address a
       | Some rec =>
           match ar_state rec, ar_sender rec with
           | Running, Some sender => Ok (ReplySender a sender)
           | _, _ => worker_rejected WorkerReason_Shutdown
           end
       end)].
Proof.
  intros Hl Ha. unfold answer. simpl. unfold determine_type. rewrite Hl. unfold resolve.
  run_unfold. simpl. fold (imap s). unfold get_primary_address, get_address_record. rewrite Ha.
  destruct p as [p|]; simpl; [|done].
  destruct (address_records_map (imap s) !! p) as [rec|]; [|done]. unfold AddressRecord_check.
  by destruct (ar_state rec), (ar_sender rec), (msg_count rec).
Qed.

(** [start_worker] checks only the first address of a new worker.  Start a
    worker with a second address that a running worker already has: it is
    accepted, and messages for the address go to the new worker; when the new
    worker stops, the address leads nowhere although its first owner runs. *)
Theorem started_worker_takes_address s p rec a q senders det cnt c sender :
  r_state (rs_router s) = NodeRunning ->
  address_records_map (imap s) !! p = Some rec -> alias_map (imap s) !! a = Some p ->
  ar_state rec = Running -> ar_sender rec = Some sender ->
  address_records_map (imap s) !! q = None -> a <> q ->
  TransportType_is_local (a_tt a) = true ->
  exists s1 s2,
    answer s a = [(0, Ok (ReplySender a sender))] /\
    handle_msg open_all (StartWorker [q; a] senders det cnt c) s = (Ok false, s1) /\
    rs_out s1 = rs_out s ++ [Reply c RouterReply_ok] /\
    answer s1 a = [(0, Ok (ReplySender a (msgs senders)))] /\
    handle_msg open_all (StopAck q) s1 = (Ok false, s2) /\
    answer s2 a = [(0, no_such_address a)] /\
    address_records_map (imap s2) !! p = Some rec.
Proof.
  intros Hrun Hp Ha Hst Hse Hq Haq Hl.
  set (new := AddressRecord_new [q; a] (msgs senders) (ctrl senders) (Some cnt) (mkAddressMeta false det)).
  set (s1 := mkRState (set_map (add_record q new (imap s)) (rs_router s))
               (rs_out s ++ [Reply c RouterReply_ok])).
  set (s2 := mkRState (set_map (free_address q (imap s1)) (rs_router s1)) (rs_out s1)).
  assert (Hrec1 : address_records_map (imap s1) = <[q := new]> (address_records_map (imap s))).
  { change (imap s1) with (add_record q new (imap s)). unfold add_record. by rewrite add_aliases. }
  assert (Hal1 : forall x, alias_map (imap s1) !! x =
            if decide (x ∈ [q; a]) then Some q else alias_map (imap s) !! x).
  { intros x. change (imap s1) with (add_record q new (imap s)). unfold add_record.
    rewrite add_aliases. apply insert_aliases_lookup. }
  assert (Hrun1 : r_state (rs_router s1) = NodeRunning) by done.
  exists s1, s2. split_and!.
  - rewrite (answer_local s a (Some p) Hl Ha). cbn [mbind option_bind]. by rewrite Hp, Hst, Hse.
  - simpl. unfold start_worker_exec, start_worker, check_addr_not_exist. run_unfold.
    rewrite Hrun. fold (imap s). by rewrite Hq.
  - done.
  - rewrite (answer_local s1 a (Some q) Hl).
    + cbn [mbind option_bind]. by rewrite Hrec1, lookup_insert_eq.
    + by rewrite Hal1, decide_True by set_solver.
  - simpl. run_unfold. by rewrite Hrun1.
  - rewrite (answer_local s2 a None Hl); [done|]. change (imap s2) with (free_address q (imap s1)).
    rewrite free_address_alias, Hrec1, lookup_insert_eq. by rewrite decide_True by set_solver.
  - change (imap s2) with (free_address q (imap s1)).
    rewrite free_address_records, Hrec1, delete_insert_id; done.
Qed.

(** ** Flow controls of a stopped worker *)

Lemma mem_cleanup_address_other fc p id x :
  spawners fc !! p = None -> producers fc !! p = None -> x <> p ->
  mem fc id x -> mem (cleanup_address p fc) id x.
Proof.
  intros Hs Hp Hx Hm. unfold cleanup_address. rewrite mem_cleanup_consumer. split; [|done].
  unfold cleanup_spawner, cleanup_producer. rewrite Hs. by rewrite Hp.
Qed.

(** When a worker has stopped, the router frees its addresses but cleans
    up the flow controls of the first one only.  A second address of the
    worker that was a consumer of a flow control still is one, and a worker
    started at that address later inherits the right to get its messages. *)
Theorem freed_addresses_keep_flow_controls s p rec a id :
  map_wf (imap s) -> r_state (rs_router s) = NodeRunning ->
  address_records_map (imap s) !! p = Some rec -> a ∈ address_set rec -> a <> p ->
  spawners (flow_controls (imap s)) !! p = None -> producers (flow_controls (imap s)) !! p = None ->
  mem (flow_controls (imap s)) id a ->
  exists s', handle_msg open_all (StopAck p) s = (Ok false, s') /\
    address_records_map (imap s') !! p = None /\ alias_map (imap s') !! a = None /\
    mem (flow_controls (imap s')) id a.
Proof.
  intros Hwf Hrun Hp Ha Hap Hsp Hpr Hm.
  exists (mkRState (set_map (free_address p (imap s)) (rs_router s)) (rs_out s)).
  change (imap (mkRState (set_map (free_address p (imap s)) (rs_router s)) (rs_out s)))
    with (free_address p (imap s)).
  split; [simpl; run_unfold; by rewrite Hrun|].
  rewrite free_address_records, lookup_delete_eq, free_address_alias, Hp, decide_True by done.
  destruct (free_address_rest p (imap s)) as (_ & _ & _ & ->).
  repeat split; try done. by apply mem_cleanup_address_other.
Qed.

(** ** The immediate shutdown *)

(** A computation that changes neither the state of the node nor the receiver. *)
Definition stays {A} (c : rm A) : Prop :=
  forall s, r_state (rs_router (c s).2) = r_state (rs_router s) /\
    r_receiver (rs_router (c s).2) = r_receiver (rs_router s).

Lemma stays_bind {A B} (c : rm A) (k : A -> rm B) :
  stays c -> (forall a, stays (k a)) -> stays (sbind c k).
Proof.
  intros Hc Hk s. specialize (Hc s). unfold sbind. destruct (c s) as [[a|e|] s1]; [|done..].
  destruct (Hk a s1) as [-> ->]. done.
Qed.

Lemma stays_send is_open c r : stays (send is_open c r).
Proof. intros s. unfold send. by destruct (is_open c). Qed.

Lemma stays_stop is_open rec : stays (AddressRecord_stop is_open rec).
Proof. intros s. unfold AddressRecord_stop. by repeat case_match. Qed.

Lemma stays_pure {A} (r : result node_error A) : stays (slift r).
Proof. by intros s. Qed.

Lemma stays_ret {A} (a : A) : stays (sret a).
Proof. by intros s. Qed.
Lemma stays_err {A} e : stays (serr e : rm A).
Proof. by intros s. Qed.
Lemma stays_panic {A} : stays (spanic : rm A).
Proof. by intros s. Qed.
Lemma stays_get_map : stays get_map.
Proof. by intros s. Qed.
Lemma stays_get_state : stays get_state.
Proof. by intros s. Qed.
Lemma stays_update_map f : stays (update_map f).
Proof. by intros s. Qed.
Lemma stays_emit e : stays (emit e).
Proof. by intros s. Qed.
Lemma stays_router_addr ty : stays (router_addr ty).
Proof. by intros s. Qed.

Create HintDb stays.
#[export] Hint Resolve stays_bind stays_send stays_stop stays_pure stays_ret stays_err stays_panic
  stays_get_map stays_get_state stays_update_map stays_emit stays_router_addr : stays.

(** Walk through a handler. *)
Ltac stays_tac :=
  repeat first
    [ solve [auto with stays]
    | apply stays_bind; [|intros ?]
    | case_match ].

Lemma stays_stop_records is_open ps l : stays (stop_records is_open ps l).
Proof.
  revert l; induction ps as [|p ps IH]; intros l; simpl; [auto with stays|].
  apply stays_bind; [unfold stop_record; stays_tac|done].
Qed.

Lemma stays_send_all is_open l : stays (send_all is_open l).
Proof. induction l as [|c l IH]; simpl; auto with stays. Qed.

#[export] Hint Resolve stays_stop_records stays_send_all : stays.

Lemma stays_shutdown_ack is_open a : stays (shutdown_ack is_open a).
Proof. unfold shutdown_ack, stop_next_cluster. stays_tac. Qed.

#[export] Hint Resolve stays_shutdown_ack : stays.

Definition is_stop_node (msg : NodeMessage) : bool :=
  match msg with StopNode _ _ => true | _ => false end.

Lemma stays_handle_msg is_open msg : is_stop_node msg = false -> stays (handle_msg is_open msg).
Proof.
  intros Hm. destruct msg as [addrs senders det cnt c|c|a l c|a det c|p senders c|p c|t c| |p|a c|ty a c|a|a c];
    try done; cbn [handle_msg].
  - unfold start_worker_exec, start_worker, check_addr_not_exist, reject. stays_tac.
  - stays_tac.
  - stays_tac.
  - unfold stop_worker_exec. stays_tac.
  - unfold start_processor_exec, start_processor, check_addr_not_exist, reject. stays_tac.
  - unfold stop_processor_exec. stays_tac.
  - stays_tac.
  - unfold goodbye. stays_tac.
  - unfold resolve. stays_tac.
  - intros s. case_bool_decide.
    + apply stays_bind; auto with stays.
    + unfold send. run_unfold. by destruct (is_open c).
  - stays_tac.
  - stays_tac.
Qed.

(** A computation that does not end the loop. *)
Definition goes_on (c : rm bool) : Prop := forall s, (c s).1 <> Ok true.

Lemma goes_on_bind {A} (c : rm A) (k : A -> rm bool) :
  (forall a, goes_on (k a)) -> goes_on (sbind c k).
Proof. intros Hk s. unfold sbind. destruct (c s) as [[a|e|] s1]; [apply Hk|done..]. Qed.

Lemma goes_on_false : goes_on (sret false).
Proof. done. Qed.

Lemma goes_on_at c s : goes_on c -> (c s).1 <> Ok true.
Proof. auto. Qed.

Ltac goes_on_tac :=
  repeat first [ exact goes_on_false | apply goes_on_bind; intros ? | case_match ].

Lemma dead_goes_on is_open msg s :
  r_state (rs_router s) = NodeDead -> is_stop_node msg = false ->
  (handle_msg is_open msg s).1 <> Ok true.
Proof.
  intros Hd Hm.
  destruct msg as [addrs senders det cnt c|c|a l c|a det c|p senders c|p c|t c| |p|a c|ty a c|a|a c];
    try done; cbn [handle_msg]; try (apply goes_on_at; solve [goes_on_tac]).
  - run_unfold. by rewrite Hd.
  - unfold sbind at 1, get_state. rewrite Hd. cbn [is_running]. unfold sbind.
    destruct (shutdown_ack is_open p s) as [[[]|e|] s1] eqn:E; try done.
    destruct (stays_shutdown_ack is_open p s) as [Hst _]. rewrite E in Hst. simpl in Hst.
    unfold goodbye. run_unfold. by rewrite Hst, Hd.
Qed.

Lemma dead_runs_on inbox s :
  r_state (rs_router s) = NodeDead -> r_receiver (rs_router s) = true ->
  Forall (fun x => is_stop_node x.2 = false) inbox ->
  r_receiver (rs_router (run_inner inbox s).2) = true /\ (forall e, (run_inner inbox s).1 <> Err e).
Proof.
  intros Hd Hr Hin. revert s Hd Hr.
  induction Hin as [|[is_open msg] inbox Hm _ IH]; intros s Hd Hr; simpl; rewrite Hr; [done|]. simpl.
  pose proof (dead_goes_on is_open msg s Hd Hm) as Hne.
  destruct (stays_handle_msg is_open msg Hm s) as [Hst Hre].
  destruct (handle_msg is_open msg s) as [[[]|e|] s1]; simpl in *; try done;
    [apply IH; congruence..|]. split; [congruence|done].
Qed.

(** The immediate shutdown needs a listener.  [Context::stop_now] drops the
    receiver of the reply before it sends its request; the router then clears
    the records, but fails when it sends the reply, does not leave its loop,
    and from then on no message other than another request to stop the node
    makes it leave: the node never ends. *)
Theorem stop_now_does_not_stop is_open c s inbox :
  is_open c = false -> r_receiver (rs_router s) = true ->
  Forall (fun x => is_stop_node x.2 = false) inbox ->
  exists s1 e, handle_msg is_open (StopNode Immediate c) s = (Err e, s1) /\
    r_state (rs_router s1) = NodeDead /\ address_records_map (imap s1) = ∅ /\
    r_receiver (rs_router (run_inner ((is_open, StopNode Immediate c) :: inbox) s).2) = true.
Proof.
  intros Hc Hr Hin.
  set (s1 := mkRState (set_state NodeDead (set_map (clear_address_records_map (imap s)) (rs_router s)))
               (rs_out s)).
  assert (Hh : handle_msg is_open (StopNode Immediate c) s =
    (Err (internal (NodeError_NodeState NodeReason_Unknown)), s1)).
  { cbn [handle_msg]. unfold immediate, send. rewrite Hc. done. }
  exists s1, (internal (NodeError_NodeState NodeReason_Unknown)). split; [done|].
  split; [done|]. split; [done|]. cbn [run_inner]. rewrite Hr, Hh. simpl.
  by apply dead_runs_on.
Qed.

(** ** The graceful shutdown *)

(** A record after [stop]. *)
Definition stopped (rec : AddressRecord) : AddressRecord :=
  with_state Stopping (if processor (ar_meta rec) then rec else drop_sender rec).

Lemma stopped_shape rec : same_shape rec (stopped rec).
Proof. unfold stopped. by destruct (processor (ar_meta rec)). Qed.

Lemma stopped_idem rec : stopped (stopped rec) = stopped rec.
Proof. unfold stopped. destruct (processor (ar_meta rec)) eqn:E; simpl; by rewrite E. Qed.

Lemma stop_run rec s :
  exists out, AddressRecord_stop open_all rec s = (Ok (stopped rec), mkRState (rs_router s) out).
Proof.
  unfold AddressRecord_stop, stopped. destruct (processor (ar_meta rec)); [by eexists|].
  exists (rs_out s). by destruct s.
Qed.

(** The records of the addresses [ps] are stopped, nothing else changes. *)
Definition stops (ps : list Address) (s s' : rstate) : Prop :=
  exists recs, rs_router s' = set_map (set_records recs (imap s)) (rs_router s) /\
    forall q, recs !! q = (if decide (q ∈ ps) then stopped else id) <$> address_records_map (imap s) !! q.

Lemma stop_record_run s p :
  map_wf (imap s) -> is_Some (address_records_map (imap s) !! p) ->
  exists s', stop_record open_all p s = (Ok (Some p), s') /\
    graceful_stop open_all p s = (Ok (Some p), s') /\ stops [p] s s'.
Proof.
  intros Hwf [rec Hrec]. pose proof (wf_head _ _ Hwf p rec Hrec) as Hh.
  destruct (stop_run rec s) as [out Hstop].
  exists (mkRState (set_map (insert_address_record p (stopped rec) (imap s)) (rs_router s)) out).
  split; [|split].
  - unfold stop_record. unfold sbind at 1, get_map. fold (imap s). rewrite Hrec.
    unfold sbind at 1. rewrite Hstop. run_unfold.
    rewrite <-(proj1 (stopped_shape rec)), Hh. done.
  - unfold graceful_stop. unfold sbind at 1, get_map. fold (imap s). rewrite Hrec, Hh.
    unfold sbind at 1. rewrite Hstop. done.
  - exists (<[p := stopped rec]> (address_records_map (imap s))). split; [done|]. intros q.
    destruct (decide (q = p)) as [->|Hne].
    + rewrite lookup_insert_eq, Hrec, decide_True by set_solver. done.
    + rewrite lookup_insert_ne, decide_False by set_solver. by rewrite option_fmap_id.
Qed.

Lemma stops_facts ps s s' :
  stops ps s s' -> map_wf (imap s) ->
  map_wf (imap s') /\ dom (address_records_map (imap s')) = dom (address_records_map (imap s)) /\
  cluster_order (imap s') = cluster_order (imap s) /\ clusters (imap s') = clusters (imap s) /\
  stopping (imap s') = stopping (imap s) /\ r_state (rs_router s') = r_state (rs_router s) /\
  r_receiver (rs_router s') = r_receiver (rs_router s) /\
  forall q, address_records_map (imap s') !! q =
    (if decide (q ∈ ps) then stopped else id) <$> address_records_map (imap s) !! q.
Proof.
  intros (recs & Hr & Hlook) [Hh Ha Hp Ho Hc]. unfold imap at 1 2 4 6 8 10. rewrite Hr. simpl.
  assert (Hshape : forall q r, recs !! q = Some r ->
    exists r0, address_records_map (imap s) !! q = Some r0 /\ same_shape r0 r).
  { intros q r Hq. rewrite Hlook in Hq. destruct (address_records_map (imap s) !! q) as [r0|]; [|done].
    exists r0. split; [done|]. case_decide; simplify_eq/=; [apply stopped_shape|done]. }
  split_and!; try done.
  - split; simpl; try done.
    + intros q r Hq. destruct (Hshape q r Hq) as (r0 & Hr0 & <- & _). eauto.
    + intros a q Hal. destruct (Ha a q Hal) as [[]|(r0 & Hr0 & Hin)]. right. rewrite Hlook, Hr0. simpl.
      eexists. split; [done|]. case_decide; [|done]. by rewrite <-(proj1 (stopped_shape r0)).
    + intros q r Hq. destruct (Hshape q r Hq) as (r0 & Hr0 & <- & <-). eauto.
  - apply set_eq. intros q. rewrite !elem_of_dom, Hlook. by rewrite fmap_is_Some.
Qed.

Lemma stops_trans p ps s1 s2 s3 :
  stops [p] s1 s2 -> stops ps s2 s3 -> stops (p :: ps) s1 s3.
Proof.
  intros (r2 & E2 & H2) (r3 & E3 & H3). exists r3.
  assert (Em : imap s2 = set_records r2 (imap s1)) by (unfold imap at 1; by rewrite E2).
  rewrite Em in E3, H3. split; [rewrite E3, E2; done|]. intros q. rewrite H3. simpl. rewrite H2.
  destruct (address_records_map (imap s1) !! q) as [rec|]; [|done]. simpl. f_equal.
  repeat case_decide; try set_solver. by rewrite stopped_idem.
Qed.

Lemma stop_records_run ps l s :
  map_wf (imap s) -> (forall p, p ∈ ps -> is_Some (address_records_map (imap s) !! p)) ->
  exists s', stop_records open_all ps l s = (Ok (l ++ ps), s') /\
    graceful_loop open_all ps l s = (Ok (l ++ ps), s') /\ stops ps s s'.
Proof.
  revert l s. induction ps as [|p ps IH]; intros l s Hwf Hps; simpl.
  { exists s. rewrite app_nil_r. split; [done|]. split; [done|].
    exists (address_records_map (imap s)). split; [by destruct s as [[? ? []] ?]|].
    intros q. rewrite decide_False by set_solver. by rewrite option_fmap_id. }
  destruct (stop_record_run s p Hwf) as (s1 & Hr1 & Hg1 & Hs1); [apply Hps; set_solver|].
  destruct (stops_facts [p] s s1 Hs1 Hwf) as (Hwf1 & _ & _ & _ & _ & _ & _ & Hl1).
  destruct (IH (l ++ [p]) s1 Hwf1) as (s' & Hr & Hg & Hs').
  { intros q Hq. rewrite Hl1, fmap_is_Some. apply Hps. set_solver. }
  exists s'. unfold sbind. rewrite Hr1, Hg1. simpl. rewrite Hr, Hg, <-app_assoc.
  split; [done|]. split; [done|]. by eapply stops_trans.
Qed.

(** *** The phases of a shutdown *)

(** The workers of a cluster, and the clusters from the last one on. *)
Definition cluster_members (m : InternalMap) (l : bytes) : gset Address :=
  dom (address_records_map m) ∩ default ∅ (clusters m !! l).

Definition later_phases (m : InternalMap) : list (gset Address) :=
  map (cluster_members m) (reverse (cluster_order m)).

(** Phases are not empty and have no worker in common. *)
Fixpoint separate (l : list (gset Address)) : Prop :=
  match l with
  | [] => True
  | W :: l => W <> ∅ /\ Forall (fun T => W ## T) l /\ separate l
  end.

(** The router waits for the workers [W] to stop, all of which were told to,
    and those of the later phases were not. *)
Record shutting (s : rstate) (c : chan) (W : gset Address) (rest : list (gset Address)) : Prop := {
  sh_state : r_state (rs_router s) = NodeStopping c /\ r_receiver (rs_router s) = true;
  sh_wf : map_wf (imap s);
  sh_stopping : stopping (imap s) = W;
  sh_told : forall p, p ∈ W ->
    exists rec, address_records_map (imap s) !! p = Some rec /\ ar_state rec = Stopping;
  sh_rest : later_phases (imap s) = rest;
  sh_later : forall T p rec, T ∈ rest -> p ∈ T -> address_records_map (imap s) !! p = Some rec ->
    ar_state rec = Running
}.

Lemma init_stops_elem addrs (st : gset Address) p :
  p ∈ foldl (fun st addr => {[addr]} ∪ st) st addrs <-> p ∈ addrs \/ p ∈ st.
Proof. revert st; induction addrs as [|a l IH]; intros st; simpl; [set_solver|]. rewrite IH. set_solver. Qed.

Lemma record_keys_elem m p : p ∈ record_keys m <-> is_Some (address_records_map m !! p).
Proof.
  unfold record_keys. by rewrite merge_sort_Permutation, elem_of_elements, elem_of_dom.
Qed.

Lemma next_cluster_cons m T rest :
  map_wf m -> later_phases m = T :: rest ->
  exists vec m1, next_cluster m = (Some vec, m1) /\ (forall p, p ∈ vec <-> p ∈ T) /\
    address_records_map m1 = address_records_map m /\ stopping m1 = stopping m /\
    later_phases m1 = rest.
Proof.
  intros Hwf Hl. unfold later_phases in Hl.
  destruct (snoc_cases (cluster_order m)) as [E|(order & name & E)]; [by rewrite E in Hl|].
  rewrite E, reverse_snoc in Hl. injection Hl as HT Hrest.
  pose proof (wf_order _ _ Hwf) as Hnd. rewrite E in Hnd. apply NoDup_app in Hnd as (_ & Hnin & _).
  destruct (proj1 (wf_clusters _ _ Hwf name)) as [addrs Haddrs]; [rewrite E; set_solver|].
  unfold next_cluster. rewrite E, last_snoc, length_app. simpl.
  rewrite Nat.add_sub, take_app_length, Haddrs.
  eexists _, _. split; [done|]. split; [|split; [done|split; [done|]]].
  - intros p. rewrite list_elem_of_filter, record_keys_elem. simpl.
    rewrite <-HT. unfold cluster_members. rewrite Haddrs. simpl.
    rewrite elem_of_intersection, elem_of_dom. naive_solver.
  - unfold later_phases. simpl. rewrite <-Hrest. apply map_ext_in. intros l Hin.
    unfold cluster_members. simpl. rewrite lookup_delete_ne; [done|]. intros <-.
    apply (Hnin name); [|set_solver]. apply list_elem_of_In in Hin. rewrite elem_of_reverse in Hin. exact Hin.
Qed.

Lemma next_cluster_nil m : later_phases m = [] -> next_cluster m = (None, m).
Proof.
  unfold later_phases, next_cluster. intros Hl. apply map_eq_nil in Hl.
  apply (f_equal length) in Hl. rewrite length_reverse in Hl.
  apply length_zero_iff_nil in Hl. by rewrite Hl.
Qed.

(** The router turns to the next phase, or is done. *)
Lemma stop_next_cluster_run s c rest :
  r_state (rs_router s) = NodeStopping c /\ r_receiver (rs_router s) = true -> map_wf (imap s) ->
  stopping (imap s) = ∅ -> later_phases (imap s) = rest -> separate rest ->
  (forall T p rec, T ∈ rest -> p ∈ T -> address_records_map (imap s) !! p = Some rec ->
     ar_state rec = Running) ->
  match rest with
  | [] => stop_next_cluster open_all s = (Ok true, s)
  | T :: rest => exists s', stop_next_cluster open_all s = (Ok false, s') /\ shutting s' c T rest
  end.
Proof.
  intros Hst Hwf Hstop Hl Hsep Hrun.
  destruct rest as [|T rest]; unfold stop_next_cluster; unfold sbind at 1, get_map; fold (imap s).
  { rewrite (next_cluster_nil _ Hl). by destruct s as [[? ? []] ?]. }
  destruct (next_cluster_cons _ _ _ Hwf Hl) as (vec & m1 & Hn & Hvec & Hrec & Hst1 & Hl1).
  pose proof (map_wf_next_cluster _ Hwf) as Hwf1. rewrite Hn in Hwf1 |- *. simpl in Hwf1.
  set (s1 := mkRState (set_map m1 (rs_router s)) (rs_out s)).
  assert (HT : forall p, p ∈ T -> is_Some (address_records_map (imap s) !! p)).
  { intros p Hp. apply Hvec in Hp. pose proof (f_equal fst Hn) as Hf. revert Hf.
    unfold next_cluster. repeat case_match; simpl; try done. intros [= <-].
    apply list_elem_of_filter in Hp as [_ Hp]. by apply record_keys_elem in Hp. }
  destruct (stop_records_run vec [] s1 Hwf1) as (s2 & Hr2 & _ & Hs2).
  { intros p Hp. change (imap s1) with m1. rewrite Hrec. by apply HT, Hvec. }
  destruct (stops_facts vec s1 s2 Hs2 Hwf1) as (Hwf2 & Hdom & Ho & Hcl & Hstp & Hns & Hrcv & Hlk).
  unfold sbind at 1, update_map, update. cbv beta iota. fold (imap s). fold s1.
  unfold sbind at 1. rewrite Hr2. run_unfold. eexists. split; [done|].
  rewrite init_stops. split; simpl.
  - destruct Hst as [Hst Hrc]. by rewrite Hns, Hrcv.
  - by apply map_wf_stopping.
  - apply set_eq. intros p. rewrite init_stops_elem. change (r_map (rs_router s2)) with (imap s2).
    rewrite Hstp. change (stopping (imap s1)) with (stopping m1). rewrite Hst1, Hstop, Hvec. set_solver.
  - intros p Hp. change (r_map (rs_router s2)) with (imap s2). rewrite Hlk.
    change (imap s1) with m1. rewrite Hrec. destruct (HT p Hp) as [rec Hrec']. rewrite Hrec'.
    rewrite decide_True by (by apply Hvec). simpl. eexists. split; [done|].
    unfold stopped. by destruct (processor _).
  - rewrite <-Hl1. unfold later_phases, cluster_members. simpl.
    change (r_map (rs_router s2)) with (imap s2). rewrite Ho, Hcl, Hdom. done.
  - intros T' p rec HT' Hp. change (r_map (rs_router s2)) with (imap s2). rewrite Hlk.
    change (imap s1) with m1. rewrite Hrec. destruct Hsep as (_ & Hdis & _).
    rewrite list.Forall_forall in Hdis. specialize (Hdis T' HT').
    rewrite decide_False by (intros Hv; apply Hvec in Hv; set_solver). rewrite option_fmap_id.
    apply (Hrun T'); [set_solver|done].
Qed.

Lemma separate_tail W rest : separate (W :: rest) -> separate rest.
Proof. by intros (_ & _ & H). Qed.

(** A worker of the current phase has stopped. *)
Lemma ack_frees s c W rest a :
  shutting s c W rest -> separate (W :: rest) ->
  let s1 := mkRState (set_map (free_address a (imap s)) (rs_router s)) (rs_out s) in
  a ∈ W -> map_wf (imap s1) /\ stopping (imap s1) = W ∖ {[a]} /\ later_phases (imap s1) = rest /\
  (forall T p rec, T ∈ rest -> p ∈ T -> address_records_map (imap s1) !! p = Some rec ->
     ar_state rec = Running) /\
  (forall p, p ∈ W ∖ {[a]} ->
     exists rec, address_records_map (imap s1) !! p = Some rec /\ ar_state rec = Stopping).
Proof.
  intros [Hst Hwf Hstop Htold Hrest Hlater] (_ & Hdis & _) s1 Ha.
  change (imap s1) with (free_address a (imap s)).
  destruct (free_address_rest a (imap s)) as (Eo & Ec & Es & _).
  split; [by apply map_wf_free|]. split; [by rewrite Es, Hstop|]. split; [|split].
  - rewrite <-Hrest. unfold later_phases. rewrite Eo. apply map_ext_in. intros l Hl.
    unfold cluster_members. rewrite free_address_records, Ec, dom_delete_L.
    assert (HT : cluster_members (imap s) l ∈ rest).
    { rewrite <-Hrest. apply list_elem_of_In, in_map_iff. eauto. }
    rewrite list.Forall_forall in Hdis. specialize (Hdis _ HT). unfold cluster_members in Hdis.
    apply set_eq. intros p. rewrite !elem_of_intersection, elem_of_difference, elem_of_singleton.
    split; [naive_solver|]. intros [Hp Hc]. repeat split; try done. intros ->. set_solver.
  - intros T p rec HT Hp. rewrite free_address_records. intros [_ Hr]%lookup_delete_Some. eauto.
  - intros p [Hp Hne]%elem_of_difference. rewrite free_address_records, lookup_delete_ne by set_solver.
    eauto.
Qed.

Lemma ack_run s c W rest a :
  shutting s c W rest -> separate (W :: rest) -> a ∈ W ->
  if decide (W ∖ {[a]} = ∅) then
    match rest with
    | [] => exists s', handle_msg open_all (StopAck a) s = (Ok true, s') /\
        rs_out s' = rs_out s ++ [Reply c RouterReply_ok]
    | T :: rest => exists s', handle_msg open_all (StopAck a) s = (Ok false, s') /\ shutting s' c T rest
    end
  else exists s', handle_msg open_all (StopAck a) s = (Ok false, s') /\ shutting s' c (W ∖ {[a]}) rest.
Proof.
  intros Hsh Hsep Ha.
  destruct (ack_frees s c W rest a Hsh Hsep Ha) as (Hwf1 & Hstop1 & Hrest1 & Hlater1 & Htold1).
  set (s1 := mkRState (set_map (free_address a (imap s)) (rs_router s)) (rs_out s)) in *.
  destruct (sh_state _ _ _ _ Hsh) as [Hst Hrcv].
  assert (Hh : handle_msg open_all (StopAck a) s =
    (let! finished := (if negb (cluster_done (imap s1)) then sret false else stop_next_cluster open_all)
     in if finished : bool then goodbye open_all else sret false) s1).
  { cbn [handle_msg]. unfold sbind at 1, get_state. rewrite Hst. done. }
  rewrite Hh. unfold cluster_done. rewrite Hstop1. case_decide as HW.
  - rewrite bool_decide_true by done. cbn [negb]. rewrite HW in Hstop1.
    pose proof (stop_next_cluster_run s1 c rest (conj Hst Hrcv) Hwf1 Hstop1 Hrest1
                  (separate_tail _ _ Hsep) Hlater1) as Hn.
    destruct rest as [|T rest].
    + unfold sbind at 1. rewrite Hn. unfold goodbye. run_unfold.
      change (r_state (rs_router s1)) with (r_state (rs_router s)). rewrite Hst. simpl. by eexists.
    + destruct Hn as (s' & Hn & Hsh'). exists s'. unfold sbind at 1. by rewrite Hn.
  - rewrite bool_decide_false by done. cbn [negb]. exists s1. split; [done|]. by split.
Qed.

(** *** The whole shutdown *)

Definition acks (l : list Address) : list ((chan -> bool) * NodeMessage) :=
  map (fun a => (open_all, StopAck a)) l.

Lemma run_inner_app i1 i2 s s1 :
  run_inner i1 s = (Ok tt, s1) -> r_receiver (rs_router s1) = true ->
  run_inner (i1 ++ i2) s = run_inner i2 s1.
Proof.
  revert s. induction i1 as [|[is_open msg] i1 IH]; intros s Hr Hrc; simpl in *.
  { destruct (r_receiver (rs_router s)); by simplify_eq/=. }
  destruct (r_receiver (rs_router s)); [|done]. simpl in *.
  destruct (handle_msg is_open msg s) as [[[]|e|] s2]; simplify_eq/=; auto.
Qed.

(** Some, but not all, of the workers of a phase have stopped. *)
Lemma phase_prefix l1 l2 s c rest :
  shutting s c (list_to_set (l1 ++ l2)) rest -> separate (list_to_set (l1 ++ l2) :: rest) ->
  NoDup (l1 ++ l2) -> l2 <> [] ->
  exists s', run_inner (acks l1) s = (Ok tt, s') /\ shutting s' c (list_to_set l2) rest.
Proof.
  revert s. induction l1 as [|a l1 IH]; intros s Hsh Hsep Hnd Hne.
  { exists s. split; [|done]. simpl. by rewrite (proj2 (sh_state _ _ _ _ Hsh)). }
  cbn [app acks map run_inner] in *. rewrite list_to_set_cons in Hsh, Hsep. rewrite (proj2 (sh_state _ _ _ _ Hsh)). cbn [negb]. apply NoDup_cons in Hnd as [Hni Hnd].
  set (X := list_to_set (l1 ++ l2)) in *. assert (HX : ({[a]} ∪ X) ∖ {[a]} = X).
  { apply set_eq. intros p. unfold X. rewrite elem_of_difference, elem_of_union, elem_of_list_to_set.
    rewrite elem_of_singleton. naive_solver. }
  assert (HX0 : X <> ∅).
  { unfold X. destruct l2 as [|x l2]; [done|]. rewrite list_to_set_app_L. set_solver. }
  pose proof (ack_run s c _ rest a Hsh Hsep ltac:(set_solver)) as Hack. rewrite HX in Hack.
  rewrite decide_False in Hack by done. destruct Hack as (s1 & -> & Hsh1).
  apply IH; try done. destruct Hsep as (_ & Hdis & Hsep). split; [done|]. split; [|done].
  eapply Forall_impl; [exact Hdis|]. set_solver.
Qed.

Notation as_phases ls := (map (list_to_set (C := gset Address)) ls).

(** All workers of a phase have stopped. *)
Lemma phase_done l s c rest :
  shutting s c (list_to_set l) rest -> separate (list_to_set l :: rest) -> NoDup l ->
  match rest with
  | [] => exists s' out, run_inner (acks l) s = (Ok tt, s') /\ r_receiver (rs_router s') = false /\
      rs_out s' = out ++ [Reply c RouterReply_ok]
  | T :: rest => exists s', run_inner (acks l) s = (Ok tt, s') /\ shutting s' c T rest
  end.
Proof.
  intros Hsh Hsep Hnd. destruct (snoc_cases l) as [->|(l1 & a & ->)]; [by destruct Hsep as [? _]|].
  destruct (phase_prefix l1 [a] s c rest Hsh Hsep Hnd) as (s1 & Hr1 & Hsh1); [done|].
  pose proof (proj2 (sh_state _ _ _ _ Hsh1)) as Hrc1.
  assert (Hsep1 : separate (list_to_set [a] :: rest)).
  { destruct Hsep as (_ & Hdis & Hsep). split; [set_solver|]. split; [|done].
    eapply Forall_impl; [exact Hdis|]. rewrite list_to_set_app_L. set_solver. }
  pose proof (ack_run s1 c _ rest a Hsh1 Hsep1 ltac:(set_solver)) as Hack.
  rewrite decide_True in Hack by set_solver.
  assert (Hrun : run_inner (acks (l1 ++ [a])) s = run_inner (acks [a]) s1).
  { unfold acks. rewrite map_app. by apply run_inner_app. }
  rewrite Hrun. cbn [acks map run_inner]. rewrite Hrc1. cbn [negb].
  destruct rest as [|T rest]; destruct Hack as (s2 & -> & H2).
  - eexists _, _. split; [done|]. split; [done|]. exact H2.
  - exists s2. by rewrite (proj2 (sh_state _ _ _ _ H2)).
Qed.

Lemma phases_prefix ls1 l1 l2 ls2 s c l ls :
  l :: ls = ls1 ++ (l1 ++ l2) :: ls2 -> l2 <> [] ->
  shutting s c (list_to_set l) (as_phases ls) -> separate (as_phases (l :: ls)) ->
  Forall NoDup (l :: ls) ->
  exists s', run_inner (acks (concat ls1 ++ l1)) s = (Ok tt, s') /\
    shutting s' c (list_to_set l2) (as_phases ls2).
Proof.
  revert s l ls. induction ls1 as [|l0 ls1 IH]; intros s l ls E Hne Hsh Hsep Hnd.
  - injection E as -> ->. apply list.Forall_cons in Hnd as [Hnd _]. by apply phase_prefix.
  - injection E as -> ->. apply list.Forall_cons in Hnd as [Hnd0 Hnd].
    pose proof (phase_done l0 s c _ Hsh Hsep Hnd0) as Hd.
    destruct (ls1 ++ (l1 ++ l2) :: ls2) as [|l' ls'] eqn:E'; [by destruct ls1|].
    cbn [map] in Hd. destruct Hd as (s1 & Hr1 & Hsh1).
    destruct (IH s1 l' ls' eq_refl Hne Hsh1 (separate_tail _ _ Hsep) Hnd) as (s' & Hr' & Hsh').
    exists s'. split; [|done]. cbn [concat]. rewrite <-app_assoc. unfold acks. rewrite map_app.
    erewrite run_inner_app; [exact Hr'|exact Hr1|]. apply (sh_state _ _ _ _ Hsh1).
Qed.

Lemma phases_done s c l ls :
  shutting s c (list_to_set l) (as_phases ls) -> separate (as_phases (l :: ls)) ->
  Forall NoDup (l :: ls) ->
  exists s' out, run_inner (acks (concat (l :: ls))) s = (Ok tt, s') /\
    r_receiver (rs_router s') = false /\ rs_out s' = out ++ [Reply c RouterReply_ok].
Proof.
  intros Hsh Hsep Hnd. revert s l Hsh Hsep Hnd.
  induction ls as [|l' ls IH]; intros s l Hsh Hsep Hnd; apply list.Forall_cons in Hnd as [Hnd0 Hnd];
    pose proof (phase_done l s c _ Hsh Hsep Hnd0) as Hd; cbn [map] in Hd.
  - cbn [concat]. by rewrite app_nil_r.
  - destruct Hd as (s1 & Hr1 & Hsh1).
    destruct (IH s1 l' Hsh1 (separate_tail _ _ Hsep) Hnd) as (s' & out & Hr' & Hrc & Hout).
    exists s', out. split; [|done]. cbn [concat]. unfold acks. rewrite map_app.
    erewrite run_inner_app; [exact Hr'|exact Hr1|]. apply (sh_state _ _ _ _ Hsh1).
Qed.

(** The phases of a shutdown that starts now. *)
Definition phases (m : InternalMap) : list (gset Address) :=
  let W0 := list_to_set (non_cluster_workers m) in
  if decide (W0 = ∅) then later_phases m else W0 :: later_phases m.

(** No worker was told to stop yet. *)
Definition all_running (m : InternalMap) : Prop :=
  stopping m = ∅ /\ forall p rec, address_records_map m !! p = Some rec -> ar_state rec = Running.

Lemma graceful_starts s c t :
  r_state (rs_router s) = NodeRunning -> r_receiver (rs_router s) = true -> map_wf (imap s) ->
  all_running (imap s) -> separate (phases (imap s)) ->
  match phases (imap s) with
  | [] => exists s' out, handle_msg open_all (StopNode (Graceful t) c) s = (Ok true, s') /\
      rs_out s' = out ++ [Reply c RouterReply_ok]
  | W :: rest => exists s', handle_msg open_all (StopNode (Graceful t) c) s = (Ok false, s') /\
      shutting s' c W rest
  end.
Proof.
  intros Hst Hrc Hwf [Hs0 Hrun] Hsep.
  set (s0 := mkRState (set_state (NodeStopping c) (rs_router s)) (rs_out s)).
  assert (Hm0 : imap s0 = imap s) by done.
  assert (Hlive : forall p, p ∈ non_cluster_workers (imap s) ->
            is_Some (address_records_map (imap s) !! p)).
  { intros p Hp. apply list_elem_of_filter in Hp as [_ Hp]. by apply record_keys_elem in Hp. }
  destruct (stop_records_run (non_cluster_workers (imap s)) [] s0) as (s1 & _ & Hg & Hs1); [done..|].
  destruct (stops_facts _ s0 s1 Hs1 Hwf) as (Hwf1 & Hdom & Ho & Hcl & Hstp & Hns & Hrcv & Hlk).
  rewrite Hm0 in *.
  assert (Hh : handle_msg open_all (StopNode (Graceful t) c) s =
    (let! finished := match non_cluster_workers (imap s) with
       | [] => stop_next_cluster open_all
       | cluster => update_map (fun m => foldl (fun m addr => init_stop addr m) m cluster) ;;!
           emit (AbortAfter t) ;;! sret false
       end in if finished : bool then goodbye open_all else sret false) s1).
  { cbn [handle_msg]. unfold graceful. unfold sbind at 1 2 3 4, update, get_map. fold s0.
    change (r_map (rs_router s0)) with (imap s). cbv beta iota. rewrite Hg.
    by destruct (non_cluster_workers (imap s)). }
  assert (Hlater : later_phases (imap s1) = later_phases (imap s)).
  { unfold later_phases, cluster_members. by rewrite Ho, Hcl, Hdom. }
  rewrite Hh. unfold phases in *. case_decide as HW.
  - assert (E : non_cluster_workers (imap s) = []).
    { destruct (non_cluster_workers (imap s)); [done|set_solver]. }
    rewrite E in *. clear Hh.
    assert (Hrun1 : forall T p rec, T ∈ later_phases (imap s) -> p ∈ T ->
              address_records_map (imap s1) !! p = Some rec -> ar_state rec = Running).
    { intros T p rec _ _. rewrite Hlk, decide_False by set_solver. rewrite option_fmap_id. eauto. }
    pose proof (stop_next_cluster_run s1 c _ (conj Hns (eq_trans Hrcv Hrc)) Hwf1
                  (eq_trans Hstp Hs0) Hlater Hsep Hrun1) as Hn.
    destruct (later_phases (imap s)) as [|T rest].
    + unfold sbind at 1. rewrite Hn. unfold goodbye. run_unfold. rewrite Hns. simpl. by eexists _, _.
    + destruct Hn as (s' & Hn & Hsh'). exists s'. unfold sbind at 1. by rewrite Hn.
  - destruct (non_cluster_workers (imap s)) as [|a l] eqn:E; [set_solver|].
    eexists. split; [done|]. clear Hh.
    destruct Hsep as (_ & Hdis & _). rewrite list.Forall_forall in Hdis.
    unfold sbind, update_map, update, emit. rewrite init_stops. split; simpl.
    + by rewrite Hns, Hrcv.
    + by apply map_wf_stopping.
    + apply set_eq. intros p. change (r_map (rs_router s1)) with (imap s1).
      rewrite init_stops_elem, Hstp, Hs0. set_solver.
    + intros p Hp. change (r_map (rs_router s1)) with (imap s1). rewrite Hlk.
      rewrite decide_True by set_solver. destruct (Hlive p ltac:(set_solver)) as [rec ->]. simpl.
      eexists. split; [done|]. unfold stopped. by destruct (processor _).
    + exact Hlater.
    + intros T p rec HT Hp. change (r_map (rs_router s1)) with (imap s1). rewrite Hlk.
      specialize (Hdis T HT). rewrite decide_False by set_solver. rewrite option_fmap_id. eauto.
Qed.

(** C11: a graceful shutdown goes through its phases.  Let [ls] be the workers
    to stop: first those in no cluster (detached ones apart), then the
    clusters from the one created last to the one created first, each given
    in the order in which its workers acknowledge.  This is under the conditions
    that no cluster is empty and no worker is in two phases ([separate]; with an
    empty cluster the shutdown hangs, [graceful_shutdown_hangs]), that all
    workers are running when the shutdown is asked for, that channels are open
    and that only acknowledgements are handled from then on.  After the request and some of the
    acknowledgements the router waits for the rest of the current phase, whose
    workers were told to stop, and the workers of later phases were not.
    After the last acknowledgement the router leaves its loop with a reply to
    whom asked for the shutdown. *)
Theorem graceful_shutdown_phases s c t ls :
  r_state (rs_router s) = NodeRunning -> r_receiver (rs_router s) = true -> map_wf (imap s) ->
  all_running (imap s) -> phases (imap s) = as_phases ls -> separate (as_phases ls) ->
  Forall NoDup ls ->
  (forall ls1 l1 l2 ls2, ls = ls1 ++ (l1 ++ l2) :: ls2 -> l2 <> [] ->
     exists s', run_inner ((open_all, StopNode (Graceful t) c) :: acks (concat ls1 ++ l1)) s = (Ok tt, s') /\
       shutting s' c (list_to_set l2) (as_phases ls2)) /\
  (exists s' out, run_inner ((open_all, StopNode (Graceful t) c) :: acks (concat ls)) s = (Ok tt, s') /\
     r_receiver (rs_router s') = false /\ rs_out s' = out ++ [Reply c RouterReply_ok]).
Proof.
  intros Hst Hrc Hwf Hall Hph Hsep Hnd. rewrite <-Hph in Hsep.
  pose proof (graceful_starts s c t Hst Hrc Hwf Hall Hsep) as Hg.
  rewrite Hph in Hsep, Hg. cbn [run_inner]. rewrite Hrc. cbn [negb].
  destruct ls as [|l ls]; cbn [map] in Hg.
  - split; [by intros []|]. destruct Hg as (s' & out & -> & Hout). eexists _, out. by split.
  - destruct Hg as (s' & -> & Hsh). split.
    + intros ls1 l1 l2 ls2 E Hne. by eapply (phases_prefix ls1 l1 l2 ls2 s' c l ls).
    + by apply phases_done.
Qed.

(** A cluster without workers stops the shutdown.  A worker that stops
    leaves its cluster behind; if the cluster created last has no workers
    left and there are no workers outside of clusters, a graceful shutdown
    tells nobody to stop, waits for nobody, does not start its timeout and
    does not reply: nothing makes the router go on. *)
Theorem graceful_shutdown_hangs s c t rest :
  r_state (rs_router s) = NodeRunning -> map_wf (imap s) -> stopping (imap s) = ∅ ->
  non_cluster_workers (imap s) = [] -> later_phases (imap s) = ∅ :: rest ->
  exists s', handle_msg open_all (StopNode (Graceful t) c) s = (Ok false, s') /\
    rs_out s' = rs_out s /\ stopping (imap s') = ∅ /\
    address_records_map (imap s') = address_records_map (imap s).
Proof.
  intros Hst Hwf Hs0 Hnc Hl.
  destruct (next_cluster_cons _ _ _ Hwf Hl) as (vec & m1 & Hn & Hvec & Hrec & Hst1 & _).
  assert (vec = []) as ->.
  { destruct vec as [|x vec]; [done|]. exfalso. apply (not_elem_of_empty (C := gset Address) x), Hvec. set_solver. }
  exists (mkRState (set_map m1 (set_state (NodeStopping c) (rs_router s))) (rs_out s)).
  split; [|split; [done|split; [by rewrite <-Hs0|done]]].
  cbn [handle_msg]. unfold graceful, stop_next_cluster, imap in *. run_unfold. simpl.
  rewrite Hnc. simpl. by rewrite Hn.
Qed.
