(* ===== verification/RouterExamples.v ===== *)
(** * Concrete runs of the router

    The theorems on stopping workers and the node, applied to a small node. *)

From Stdlib Require Import ZArith Lia.
From Stdlib Require Strings.Byte Strings.String.
From stdpp Require Import base gmap fin_maps fin_map_dom list numbers option countable sorting.
From S2P Require Import Prelude RustStr Routing AccessControl FlowControl Router RouterSpec.
From S2P Require Import RouterShutdown.

(** The router of a node after some messages. *)
Definition after (ms : list NodeMessage) : rstate :=
  (run_inner (map (fun msg => (open_all, msg)) ms) (initial 0 FlowControls_new app_addr app_senders)).2.

Lemma after_sim ms :
  dir_run_ok ms (initial_dir app_addr app_senders) ->
  sim (after ms) (dir_run ms (initial_dir app_addr app_senders)).2.
Proof.
  intros Hok. unfold after.
  destruct (run_agrees ms _ _ (initial_sim 0 FlowControls_new app_addr app_senders) Hok) as (s' & -> & Hs & _).
  exact Hs.
Qed.

Lemma started_worker_takes_address_witness : exists s1 s2,
  answer (after [start_w]) (addr "x") = [(0, Ok (ReplySender (addr "x") 3))] /\
  answer s1 (addr "x") = [(0, Ok (ReplySender (addr "x") 10))] /\
  answer s2 (addr "x") = [(0, no_such_address (addr "x"))].
Proof.
  destruct (started_worker_takes_address (after [start_w]) (addr "w")
    (AddressRecord_new [addr "w"; addr "x"] 3 4 (Some 9) (mkAddressMeta false false))
    (addr "x") (addr "v") (mkSenderPair 10 11) false 12 13 3)
    as (s1 & s2 & H1 & _ & _ & H2 & _ & H3 & _);
    [vm_compute; reflexivity..|vm_compute; discriminate|vm_compute; reflexivity|].
  exists s1, s2. by split_and!.
Defined.

(** A flow control with the second address of the worker as a consumer. *)
Definition sample_flow : FlowControls := add_consumer (addr "x") sample_id FlowControls_new.

Definition flow_node : rstate :=
  (handle_msg open_all start_w (initial 0 sample_flow app_addr app_senders)).2.

Lemma flow_node_flow : flow_controls (imap flow_node) = sample_flow.
Proof. reflexivity. Qed.

Lemma flow_node_wf : map_wf (imap flow_node).
Proof.
  apply (handle_msg_wf open_all start_w (initial 0 sample_flow app_addr app_senders)
           (handle_msg open_all start_w (initial 0 sample_flow app_addr app_senders)).1);
    [apply initial_wf|exact I|apply surjective_pairing|vm_compute; discriminate].
Qed.

Lemma freed_addresses_keep_flow_controls_witness : exists s',
  handle_msg open_all (StopAck (addr "w")) flow_node = (Ok false, s') /\
  alias_map (imap s') !! addr "x" = None /\ mem (flow_controls (imap s')) sample_id (addr "x").
Proof.
  destruct (freed_addresses_keep_flow_controls flow_node (addr "w")
    (AddressRecord_new [addr "w"; addr "x"] 3 4 (Some 9) (mkAddressMeta false false))
    (addr "x") sample_id flow_node_wf) as (s' & H1 & _ & H2 & H3);
    [vm_compute; reflexivity|vm_compute; reflexivity|simpl; set_solver|vm_compute; discriminate
    |rewrite flow_node_flow; reflexivity|rewrite flow_node_flow; reflexivity| |].
  - rewrite flow_node_flow. apply mem_add_consumer. by right.
  - exists s'. by split_and!.
Defined.

Lemma stop_now_does_not_stop_witness :
  exists s1 e, handle_msg (fun _ => false) (StopNode Immediate 7) (after [start_w]) = (Err e, s1) /\
    r_receiver (rs_router (run_inner [(fun _ => false, StopNode Immediate 7);
      (open_all, StopAck (addr "w")); (open_all, SenderReq (addr "w") 8)] (after [start_w])).2) = true.
Proof.
  destruct (stop_now_does_not_stop (fun _ => false) 7 (after [start_w])
    [(open_all, StopAck (addr "w")); (open_all, SenderReq (addr "w") 8)]) as (s1 & e & H1 & _ & _ & H2);
    [reflexivity|vm_compute; reflexivity|by repeat constructor|].
  exists s1, e. split; [exact H1|exact H2].
Defined.

(** A worker outside of clusters, and two clusters of one worker each. *)
Definition clustered_node : list NodeMessage :=
  [StartWorker [addr "u"] (mkSenderPair 3 4) false 9 5;
   StartWorker [addr "a"] (mkSenderPair 6 7) false 9 5; SetCluster (addr "a") (str "first") 5;
   StartWorker [addr "b"] (mkSenderPair 8 9) false 9 5; SetCluster (addr "b") (str "second") 5].

Lemma start_ok a l senders det cnt c d :
  forallb (fun x => match owner d x with None => true | _ => false end) (a :: l) = true ->
  dir_ok d (StartWorker (a :: l) senders det cnt c).
Proof.
  intros Hf. right. rewrite forallb_forall in Hf. intros x Hx.
  apply list_elem_of_In, Hf in Hx. by destruct (owner d x).
Qed.

Lemma clustered_node_wf : map_wf (imap (after clustered_node)).
Proof.
  apply (sim_wf _ (dir_run clustered_node (initial_dir app_addr app_senders)).2), after_sim.
  cbn [clustered_node dir_run_ok]. split_and!; try exact I; apply start_ok; vm_compute; reflexivity.
Qed.

Lemma all_running_dec m :
  bool_decide (map_Forall (fun _ rec => ar_state rec = Running) (address_records_map m)) = true ->
  bool_decide (stopping m = ∅) = true -> all_running m.
Proof. intros Hr%bool_decide_eq_true Hs%bool_decide_eq_true. split; [done|exact Hr]. Qed.

Lemma graceful_shutdown_phases_witness : exists s' out,
  run_inner ((open_all, StopNode (Graceful 1) 20) :: acks [addr "u"; addr "b"; addr "a"])
    (after clustered_node) = (Ok tt, s') /\
  r_receiver (rs_router s') = false /\ rs_out s' = out ++ [Reply 20 RouterReply_ok].
Proof.
  apply (graceful_shutdown_phases (after clustered_node) 20 1 [[addr "u"]; [addr "b"]; [addr "a"]]).
  - vm_compute. reflexivity.
  - vm_compute. reflexivity.
  - exact clustered_node_wf.
  - apply all_running_dec; vm_compute; reflexivity.
  - apply (bool_decide_eq_true_1 (_ = _)). vm_compute. reflexivity.
  - split_and!; try exact I; try (repeat constructor); try (apply (bool_decide_eq_true_1 (_ <> _)));
      try (apply (bool_decide_eq_true_1 (_ ## _))); vm_compute; reflexivity.
  - repeat constructor; set_solver.
Defined.

(** A cluster whose only worker has stopped. *)
Definition left_cluster : list NodeMessage :=
  [StartWorker [addr "a"] (mkSenderPair 6 7) false 9 5; SetCluster (addr "a") (str "first") 5;
   StopWorker (addr "a") false 5; StopAck (addr "a")].

Lemma graceful_shutdown_hangs_witness : exists s',
  handle_msg open_all (StopNode (Graceful 1) 20) (after left_cluster) = (Ok false, s') /\
  rs_out s' = rs_out (after left_cluster) /\ stopping (imap s') = ∅.
Proof.
  destruct (graceful_shutdown_hangs (after left_cluster) 20 1 []) as (s' & H1 & H2 & H3 & _).
  - vm_compute. reflexivity.
  - apply (sim_wf _ (dir_run left_cluster (initial_dir app_addr app_senders)).2), after_sim.
    split; [apply start_ok; vm_compute; reflexivity|by repeat split].
  - apply (bool_decide_eq_true_1 (_ = _)). vm_compute. reflexivity.
  - vm_compute. reflexivity.
  - apply (bool_decide_eq_true_1 (_ = _)). vm_compute. reflexivity.
  - exists s'. by split_and!.
Defined.
