(* ===== verification/Node.v ===== *)
(** * Contexts, relays and tasks: [ockam_node/src/context], [ockam_node/src/relay]

    A node is a router and a set of tasks that share channels.  The code of a
    task is a program: a tree of calls to the runtime (channels, counters, new
    tasks) with their continuations.  The methods of [Context] are such
    programs, and so are the relays that run workers and processors.  The code
    of the workers themselves is a parameter: programs over the public methods
    of [Context] only.

    A node makes one step at a time: the router handles a message, a task makes
    one call, or a timer fires.  Which one is up to the scheduler, so the
    interleavings at the [await] points of the source are all there, and so are
    bounded channels, dropped receivers, and cancelled futures. *)

From Stdlib Require Import ZArith Lia.
From Stdlib Require Strings.Byte Strings.String.
From stdpp Require Import base gmap fin_maps fin_map_dom list numbers option countable.
From S2P Require Import Prelude RustStr Routing AccessControl FlowControl Router.

(** ** Programs

    [C X] are calls with a result of type [X], [D X] events a [select!] waits
    for besides its first branch. *)

Inductive prog (C D : Type -> Type) (A : Type) : Type :=
| PRet (a : A)
| PPanic
| PCall {X : Type} (c : C X) (k : X -> prog C D A)
| PLoop {X Y : Type} (x : X) (body : X -> prog C D (X + Y)) (k : Y -> prog C D A)
| PSelect {X Y : Type} (q : prog C D X) (d : D Y) (k : X + Y -> prog C D A).

Arguments PRet {C D A} a.
Arguments PPanic {C D A}.
Arguments PCall {C D A X} c k.
Arguments PLoop {C D A X Y} x body k.
Arguments PSelect {C D A X Y} q d k.

Fixpoint pbind {C D A B} (p : prog C D A) (f : A -> prog C D B) : prog C D B :=
  match p with
  | PRet a => f a
  | PPanic => PPanic
  | PCall c k => PCall c (fun x => pbind (k x) f)
  | PLoop x body k => PLoop x body (fun y => pbind (k y) f)
  | PSelect q d k => PSelect q d (fun r => pbind (k r) f)
  end.

Definition pcall {C D X} (c : C X) : prog C D X := PCall c PRet.

(** [loop { .. }]: [inl] goes on, [inr] leaves the loop. *)
Definition ploop {C D X Y} (x : X) (body : X -> prog C D (X + Y)) : prog C D Y :=
  PLoop x body PRet.

(** One round of a loop. *)
Definition unfold_loop {C D A X Y} (x : X) (body : X -> prog C D (X + Y)) (k : Y -> prog C D A)
  : prog C D A :=
  pbind (body x) (fun r => match r with
                           | inl x' => PLoop x' body k
                           | inr y => k y
                           end).

(** Errors are results of programs; [?] passes them on. *)
Inductive cerror :=
| CNode (e : node_error)
| CAccess (e : Error)
| CDecode
| CElapsed
| CTransport (k : Kind)
| CUser (code : nat).

Notation cresult A := (result cerror A).

Definition ptry {C D E A B} (p : prog C D (result E A)) (k : A -> prog C D (result E B))
  : prog C D (result E B) :=
  pbind p (fun r => match r with
                    | Ok a => k a
                    | Err e => PRet (Err e)
                    | Panic => PPanic
                    end).

Notation "'do' x '<-' p ';' k" := (pbind p (fun x => k))
  (at level 200, x pattern, p at level 100, k at level 200, right associativity) : rust_scope.
Notation "'do?' x '<-' p ';' k" := (ptry p (fun x => k))
  (at level 200, x pattern, p at level 100, k at level 200, right associativity) : rust_scope.

Definition plift {C D E A} (r : result E A) : prog C D (result E A) := PRet r.

(** ** Contexts

    Access control may depend on the flow controls, which the contexts of a
    node share: [now] is what it decides in their current state. *)

Record SharedMailbox := mkSharedMailbox {
  sm_address : Address;
  sm_incoming : FlowControls -> DynAccessControl;
  sm_outgoing : FlowControls -> DynAccessControl
}.

Record SharedMailboxes := mkSharedMailboxes {
  sm_main : SharedMailbox;
  sm_additional : list SharedMailbox
}.

Definition mailbox_now (fc : FlowControls) (m : SharedMailbox) : Mailbox :=
  mkMailbox (sm_address m) (sm_incoming m fc) (sm_outgoing m fc).
Definition now (fc : FlowControls) (m : SharedMailboxes) : Mailboxes :=
  mkMailboxes (mailbox_now fc (sm_main m)) (map (mailbox_now fc) (sm_additional m)).

Definition shared_addresses (m : SharedMailboxes) : list Address :=
  Mailboxes_addresses (now FlowControls_new m).

(** A context: its mailboxes, the receiver of its messages, its counter
    [mailbox_count] and whether it is detached ([async_drop_sender]).  The
    handle of the router and the shared flow controls are those of the node. *)
Record Context := mkContext {
  c_mailboxes : SharedMailboxes;
  c_receiver : chan;
  c_count : nat;
  c_detached : bool
}.

Definition ctx_address (ctx : Context) : Address :=
  Mailboxes_main_address (now FlowControls_new (c_mailboxes ctx)).
Definition ctx_addresses (ctx : Context) : list Address := shared_addresses (c_mailboxes ctx).

(** [Routed<M>]: messages of all types are values of one type [M]. *)
Record Routed (M : Type) := mkRouted {
  inner : M;
  msg_addr : Address;
  src_addr : Address;
  local_msg : LocalMessage
}.
Arguments mkRouted {M}.
Arguments inner {M}.
Arguments msg_addr {M}.
Arguments src_addr {M}.
Arguments local_msg {M}.

Inductive CtrlSignal := SigInterrupt | SigInterruptStop.

(** ** The calls of a task

    A task owns contexts, numbered from 0; the handles of the runtime that are
    not values of the source's safe interface (which context, which channel)
    come from calls. *)
Inductive call (W M : Type) : Type -> Type :=
| CtxGet (i : nat) : call W M (option Context)
| CtxAdd (ctx : Context) : call W M nat
| CtxDrop (i : nat) : call W M unit
| SmallChannel : call W M chan
| ReceiverDrop (c : chan) : call W M unit
| RouterSend (m : NodeMessage) : call W M bool
| ReplyRecv (c : chan) : call W M (option NodeReplyResult)
| MailSend (from : Context) (c : chan) (m : RelayMessage) : call W M bool
| SenderDrop (c : chan) : call W M unit
| MailRecv (ctx : Context) : call W M (option RelayMessage)
| CountSub (ctx : Context) : call W M unit
| ContextNew (m : SharedMailboxes) (detached : bool) : call W M (Context * SenderPair * chan)
| SpawnWorker (ctx : Context) (ctrl_rx : chan) (w : W) : call W M unit
| SpawnProcessor (ctx : Context) (ctrl_rx : chan) (w : W) : call W M unit
| FlowGet : call W M FlowControls
| FlowUpdate (f : FlowControls -> FlowControls) : call W M unit
| SelfGet : call W M W
| SelfSet (w : W) : call W M unit
| HandlerStart (ctx : Context) (m : RelayMessage) : call W M unit.

Arguments CtxGet {W M} i.
Arguments CtxAdd {W M} ctx.
Arguments CtxDrop {W M} i.
Arguments SmallChannel {W M}.
Arguments ReceiverDrop {W M} c.
Arguments RouterSend {W M} m.
Arguments ReplyRecv {W M} c.
Arguments MailSend {W M} from c m.
Arguments SenderDrop {W M} c.
Arguments MailRecv {W M} ctx.
Arguments CountSub {W M} ctx.
Arguments ContextNew {W M} m detached.
Arguments SpawnWorker {W M} ctx ctrl_rx w.
Arguments SpawnProcessor {W M} ctx ctrl_rx w.
Arguments FlowGet {W M}.
Arguments FlowUpdate {W M} f.
Arguments SelfGet {W M}.
Arguments SelfSet {W M} w.
Arguments HandlerStart {W M} ctx m.

(** What a [select!] waits for: a control signal ([None]: no sender is left),
    or a timeout. *)
Inductive event : Type -> Type :=
| EvCtrl (c : chan) : event (option CtrlSignal)
| EvTimeout : event unit.

Notation task_prog W M A := (prog (call W M) event A).
Notation ctx_prog W M A := (prog (call W M) event (cresult A)).

Definition unknown_state : cerror := CNode (internal (NodeError_NodeState NodeReason_Unknown)).
Definition origin_invalid : cerror := CNode (mkNodeError KInvalid None).

(** ** The methods of [Context] *)

Section Context_methods.
Context {W M : Type}.
Implicit Types ctx : Context.

(** [serde_bare::to_vec(&Uint(n))] *)
Variable bare_uint : Z -> bytes.

(** [self.sender.send(req).await.map_err(NodeError::from_send_err)?] *)
Definition router_send (m : NodeMessage) : ctx_prog W M unit :=
  do b <- pcall (RouterSend m);
  PRet (if b : bool then Ok tt else Err (CNode from_send_err)).

(** [rx.recv().await.ok_or_else(..)??] *)
Definition reply_recv (c : chan) : ctx_prog W M RouterReply :=
  do r <- pcall (ReplyRecv c);
  PRet match r with
       | Some (Ok reply) => Ok reply
       | Some (Err e) => Err (CNode e)
       | Some Panic => Panic
       | None => Err unknown_state
       end.

(** A request with a reply channel of its own, and the wait for the reply. *)
Definition router_request (m : chan -> NodeMessage) : ctx_prog W M RouterReply :=
  do c <- pcall SmallChannel;
  do? _ <- router_send (m c);
  reply_recv c.

Definition take_sender_c (r : RouterReply) : cresult (Address * chan) :=
  map_err CNode (take_sender r).

(** [RouterReply::take_workers], [RouterReply::is_ok] *)
Definition take_workers (r : RouterReply) : cresult (list Address) :=
  match r with
  | ReplyWorkers l => Ok l
  | _ => Err unknown_state
  end.
Definition reply_is_ok (r : RouterReply) : cresult unit :=
  match r with
  | ReplyOk => Ok tt
  | _ => Err unknown_state
  end.

(** *** send_message.rs *)

(** The end of [send_from_address_impl] and [forward_from_address]: the check
    of the outgoing access control and the send.  A message that is not
    authorized is dropped, with a warning only. *)
Definition send_authorized ctx (sender : chan) (relay_msg : RelayMessage) : ctx_prog W M unit :=
  do fc <- pcall FlowGet;
  match map_err CAccess (Mailboxes_is_outgoing_authorized (now fc (c_mailboxes ctx)) relay_msg) with
  | Ok false => do _ <- pcall (SenderDrop sender); PRet (Ok tt)
  | Ok true =>
      do sent <- pcall (MailSend ctx sender relay_msg);
      do _ <- pcall (SenderDrop sender);
      PRet (if sent : bool then Ok tt else Err (CNode from_send_err))
  | Err e => do _ <- pcall (SenderDrop sender); PRet (Err e)
  | Panic => PPanic
  end.

(** [payload]: the encoded message, [None] if encoding fails. *)
Definition send_from_address_impl ctx (route : Route) (payload : option bytes)
    (sending_address : Address) (local_info : list LocalInfo) : ctx_prog W M unit :=
  if negb (Mailboxes_contains (now FlowControls_new (c_mailboxes ctx)) sending_address) then
    PRet (Err origin_invalid)
  else
    do? next <- plift (map_err (CAccess ∘ RouteErr) (Route_next route));
    do? reply <- router_request (SenderReq next);
    do? x <- plift (take_sender_c reply);
    let (addr, sender) := x : Address * chan in
    match payload with
    | None =>
        do _ <- pcall (SenderDrop sender);
        PRet (Err (CNode (internal NodeError_Data)))
    | Some payload =>
        let transport_msg := TransportMessage_v1 route [sending_address] payload in
        let local_msg := mkLocalMessage transport_msg local_info in
        send_authorized ctx sender (mkRelayMessage sending_address addr local_msg)
    end.

Definition send_from_address ctx (route : Route) (payload : option bytes)
    (sending_address : Address) : ctx_prog W M unit :=
  send_from_address_impl ctx route payload sending_address [].

Definition ctx_send ctx (route : Route) (payload : option bytes) : ctx_prog W M unit :=
  send_from_address ctx route payload (ctx_address ctx).

Definition send_to_self ctx (from addr : Address) (payload : option bytes) : ctx_prog W M unit :=
  if Mailboxes_contains (now FlowControls_new (c_mailboxes ctx)) addr then
    send_from_address ctx [addr] payload from
  else PRet (Err unknown_state).

(** An invalid onward route panics. *)
Definition forward_from_address ctx (local_msg : LocalMessage) (sending_address : Address)
  : ctx_prog W M unit :=
  if negb (Mailboxes_contains (now FlowControls_new (c_mailboxes ctx)) sending_address) then
    PRet (Err origin_invalid)
  else
    match Route_next (onward_route (transport_message local_msg)) with
    | Ok next =>
        do? reply <- router_request (SenderReq next);
        do? x <- plift (take_sender_c reply);
        let (addr, sender) := x : Address * chan in
        send_authorized ctx sender (mkRelayMessage sending_address addr local_msg)
    | _ => PPanic
    end.

Definition ctx_forward ctx (local_msg : LocalMessage) : ctx_prog W M unit :=
  forward_from_address ctx local_msg (ctx_address ctx).

(** *** receive_message.rs *)

(** Messages that do not pass the incoming access control are dropped. *)
Definition receiver_next ctx : ctx_prog W M (option RelayMessage) :=
  ploop tt (fun _ =>
    do relay_msg <- pcall (MailRecv ctx);
    match relay_msg with
    | None => PRet (inr (Ok None))
    | Some relay_msg =>
        do _ <- pcall (CountSub ctx);
        do fc <- pcall FlowGet;
        match map_err CAccess (Mailboxes_is_incoming_authorized (now fc (c_mailboxes ctx)) relay_msg) with
        | Ok true => PRet (inr (Ok (Some relay_msg)))
        | Ok false => PRet (inl tt)
        | Err e => PRet (inr (Err e))
        | Panic => PPanic
        end
    end).

(** [parser::message]: a second try with the length in front. *)
Definition parser_message (decode : bytes -> option M) (vec : bytes) : cresult M :=
  match decode vec with
  | Some m => Ok m
  | None => ok_or (decode (bare_uint (Z.of_nat (length vec)) ++ vec)) CDecode
  end.

Definition next_from_mailbox ctx (decode : bytes -> option M) : ctx_prog W M (Routed M) :=
  ploop tt (fun _ =>
    do r <- receiver_next ctx;
    match r with
    | Ok (Some msg) =>
        let local_msg := rm_local_msg msg in
        match parser_message decode (payload (transport_message local_msg)) with
        | Ok m => PRet (inr (Ok (mkRouted m (rm_destination msg) (rm_source msg) local_msg)))
        | _ => PRet (inl tt)
        end
    | Ok None => PRet (inr (Err (CNode (not_found NodeError_Data))))
    | Err e => PRet (inr (Err e))
    | Panic => PPanic
    end).

Inductive MessageWait := WaitTimeout | WaitBlocking.

Definition receive_extended ctx (wait : MessageWait) (decode : bytes -> option M)
  : ctx_prog W M (Routed M) :=
  match wait with
  | WaitTimeout =>
      PSelect (next_from_mailbox ctx decode) EvTimeout
        (fun r => match r with
                  | inl r => PRet r
                  | inr _ => PRet (Err CElapsed)
                  end)
  | WaitBlocking => next_from_mailbox ctx decode
  end.

(** *** context_lifecycle.rs *)

(** The sender pair of the new context moves into the request. *)
Definition new_detached_impl ctx (mailboxes : SharedMailboxes) : ctx_prog W M nat :=
  do x <- pcall (ContextNew mailboxes true);
  let '(child, sender, _) := x : Context * SenderPair * chan in
  do i <- pcall (CtxAdd child);
  do c <- pcall SmallChannel;
  do b <- pcall (RouterSend (StartWorker (shared_addresses mailboxes) sender true (c_count ctx) c));
  if b : bool then
    do r <- reply_recv c;
    match r with
    | Ok _ => PRet (Ok i)
    | Err e => do _ <- pcall (CtxDrop i); PRet (Err e)
    | Panic => PPanic
    end
  else do _ <- pcall (CtxDrop i); PRet (Err origin_invalid).

(** [AsyncDrop::run], after the address of the dropped context has arrived. *)
Definition async_drop_run (addr : Address) : task_prog W M unit :=
  do c <- pcall SmallChannel;
  do _ <- pcall (RouterSend (StopWorker addr true c));
  do _ <- pcall (ReplyRecv c);
  PRet tt.

(** *** send_and_receive_extended *)

(** [fresh] is the random address of the temporary context; the context is
    dropped at the end. *)
Definition send_and_receive_extended ctx (fresh : Address) (route : Route) (payload : option bytes)
    (wait : MessageWait) (decode : bytes -> option M) : ctx_prog W M (Routed M) :=
  do? next <- plift (map_err (CAccess ∘ RouteErr) (Route_next route));
  let mailboxes := mkSharedMailboxes
    (mkSharedMailbox fresh (fun _ => dyn_incoming mkAllowAll)
       (fun _ => dyn_outgoing (mkAllowOnwardAddress next))) [] in
  do fc <- pcall FlowGet;
  do _ <- match find_flow_control_with_producer_address fc next with
          | Some info => pcall (FlowUpdate (add_consumer fresh (flow_control_id info)))
          | None => PRet tt
          end;
  do? i <- new_detached_impl ctx mailboxes;
  do child <- pcall (CtxGet i);
  match child with
  | None => PPanic
  | Some child =>
      do r <- ctx_send child route payload;
      match r with
      | Ok _ =>
          do r <- receive_extended child wait decode;
          do _ <- pcall (CtxDrop i);
          PRet r
      | Err e => do _ <- pcall (CtxDrop i); PRet (Err e)
      | Panic => PPanic
      end
  end.

(** *** worker_builder.rs, processor_builder.rs *)

(** The relay runs before the router has accepted the worker. *)
Definition worker_start ctx (mailboxes : SharedMailboxes) (worker : W) : ctx_prog W M unit :=
  do x <- pcall (ContextNew mailboxes false);
  let '(child, sender, ctrl_rx) := x : Context * SenderPair * chan in
  do _ <- pcall (SpawnWorker child ctrl_rx worker);
  do c <- pcall SmallChannel;
  do b <- pcall (RouterSend (StartWorker (shared_addresses mailboxes) sender false (c_count ctx) c));
  if b : bool then
    do? _ <- reply_recv c; PRet (Ok tt)
  else PRet (Err origin_invalid).

Definition processor_start ctx (mailboxes : SharedMailboxes) (proc : W) : ctx_prog W M unit :=
  do x <- pcall (ContextNew mailboxes false);
  let '(child, sender, ctrl_rx) := x : Context * SenderPair * chan in
  do _ <- pcall (SpawnProcessor child ctrl_rx proc);
  do c <- pcall SmallChannel;
  do b <- pcall (RouterSend (StartProcessor (ctx_address child) sender c));
  if b : bool then
    do? _ <- reply_recv c; PRet (Ok tt)
  else PRet (Err origin_invalid).

(** *** worker_lifecycle.rs *)

Definition main_mailboxes (a : Address) (incoming outgoing : FlowControls -> DynAccessControl)
  : SharedMailboxes := mkSharedMailboxes (mkSharedMailbox a incoming outgoing) [].

(** [WorkerBuilder::with_address] allows everything, [ProcessorBuilder]
    nothing; [with_incoming_access_control] and [with_outgoing_access_control]
    replace the defaults. *)
Definition ctx_start_worker ctx (a : Address) (worker : W) : ctx_prog W M unit :=
  worker_start ctx (main_mailboxes a (fun _ => dyn_incoming mkAllowAll)
                      (fun _ => dyn_outgoing mkAllowAll)) worker.
Definition start_worker_with_access_control ctx (a : Address) (worker : W)
    (incoming outgoing : FlowControls -> DynAccessControl) : ctx_prog W M unit :=
  worker_start ctx (main_mailboxes a incoming outgoing) worker.
Definition ctx_start_processor ctx (a : Address) (proc : W) : ctx_prog W M unit :=
  processor_start ctx (main_mailboxes a (fun _ => dyn_incoming mkDenyAll)
                         (fun _ => dyn_outgoing mkDenyAll)) proc.
Definition start_processor_with_access_control ctx (a : Address) (proc : W)
    (incoming outgoing : FlowControls -> DynAccessControl) : ctx_prog W M unit :=
  processor_start ctx (main_mailboxes a incoming outgoing) proc.

Inductive AddressType := AddressTypeWorker | AddressTypeProcessor.

Definition stop_address (addr : Address) (t : AddressType) : ctx_prog W M unit :=
  do? _ <- router_request (match t with
                           | AddressTypeWorker => StopWorker addr false
                           | AddressTypeProcessor => StopProcessor addr
                           end);
  PRet (Ok tt).

(** *** context.rs, register_router.rs, stop_env.rs *)

Definition ctx_set_cluster ctx (label : bytes) : ctx_prog W M unit :=
  do? r <- router_request (SetCluster (ctx_address ctx) label);
  plift (reply_is_ok r).

Definition ctx_list_workers : ctx_prog W M (list Address) :=
  do? r <- router_request ListWorkers;
  plift (take_workers r).

Definition send_stop_ack ctx : ctx_prog W M unit := router_send (StopAck (ctx_address ctx)).

Definition ctx_set_ready ctx : ctx_prog W M unit := router_send (SetReady (ctx_address ctx)).

Definition wait_for (addr : Address) : ctx_prog W M unit :=
  do? _ <- router_request (CheckReady addr);
  PRet (Ok tt).

Definition register_impl (type_ : TransportType) (addr : Address) : ctx_prog W M unit :=
  do? _ <- router_request (RegisterRouter type_ addr);
  PRet (Ok tt).

Definition stop_timeout (seconds : Z) : ctx_prog W M unit :=
  do? _ <- router_request (StopNode (Graceful seconds));
  PRet (Ok tt).

(** The receiver of the reply is dropped before the request is sent. *)
Definition stop_now : ctx_prog W M unit :=
  do c <- pcall SmallChannel;
  do _ <- pcall (ReceiverDrop c);
  do b <- pcall (RouterSend (StopNode Immediate c));
  PRet (if b : bool then Ok tt else Err origin_invalid).
End Context_methods.

(** *** transports.rs

    The registered transports, each with its [resolve_address]. *)
Fixpoint resolve_hops (transports : gmap TransportType (Address -> cresult Address))
    (resolved : RouteBuilder) (route : list Address) : cresult RouteBuilder :=
  match route with
  | [] => Ok resolved
  | address :: route =>
      if negb (Address_is_local address) then
        match transports !! a_tt address with
        | Some resolve_address =>
            let? resolved_address := resolve_address address in
            resolve_hops transports (RouteBuilder_append resolved_address resolved) route
        | None => Err (CTransport KNotFound)
        end
      else resolve_hops transports (RouteBuilder_append address resolved) route
  end.

Definition resolve_transport_route (transports : gmap TransportType (Address -> cresult Address))
    (route : Route) : cresult Route :=
  let number_of_transport_hops := length (List.filter (fun a => negb (Address_is_local a)) route) in
  if 1 <? number_of_transport_hops then Err (CTransport KInvalid)
  else if number_of_transport_hops =? 0 then Ok route
  else
    let? resolved := resolve_hops transports Route_new route in
    Ok (RouteBuilder_into resolved).

(** ** The code of workers

    The public methods of [Context], on a context the task owns. *)
Inductive api (W M : Type) : Type -> Type :=
| ASend (i : nat) (route : Route) (payload : option bytes) (from : Address)
    (info : list LocalInfo) : api W M (cresult unit)
| AForward (i : nat) (m : LocalMessage) (from : Address) : api W M (cresult unit)
| AReceive (i : nat) (wait : MessageWait) (decode : bytes -> option M)
    : api W M (cresult (Routed M))
| ASendReceive (i : nat) (fresh : Address) (route : Route) (payload : option bytes)
    (wait : MessageWait) (decode : bytes -> option M) : api W M (cresult (Routed M))
| AStartWorker (i : nat) (m : SharedMailboxes) (w : W) : api W M (cresult unit)
| AStartProcessor (i : nat) (m : SharedMailboxes) (w : W) : api W M (cresult unit)
| ANewDetached (i : nat) (m : SharedMailboxes) : api W M (cresult nat)
| ADropContext (i : nat) : api W M unit
| AStopAddress (a : Address) (t : AddressType) : api W M (cresult unit)
| ASetCluster (i : nat) (label : bytes) : api W M (cresult unit)
| AListWorkers : api W M (cresult (list Address))
| AWaitFor (a : Address) : api W M (cresult unit)
| ARegister (ty : TransportType) (a : Address) : api W M (cresult unit)
| AStop (seconds : Z) : api W M (cresult unit)
| AStopNow : api W M (cresult unit)
| AFlowControls : api W M FlowControls
| AFlowUpdate (f : FlowControls -> FlowControls) : api W M unit
| ASelf : api W M W
| ASetSelf (w : W) : api W M unit.

Arguments ASend {W M}.
Arguments AForward {W M}.
Arguments AReceive {W M}.
Arguments ASendReceive {W M}.
Arguments AStartWorker {W M}.
Arguments AStartProcessor {W M}.
Arguments ANewDetached {W M}.
Arguments ADropContext {W M}.
Arguments AStopAddress {W M}.
Arguments ASetCluster {W M}.
Arguments AListWorkers {W M}.
Arguments AWaitFor {W M}.
Arguments ARegister {W M}.
Arguments AStop {W M}.
Arguments AStopNow {W M}.
Arguments AFlowControls {W M}.
Arguments AFlowUpdate {W M}.
Arguments ASelf {W M}.
Arguments ASetSelf {W M}.

Inductive no_event : Type -> Type :=.

Notation user_prog W M A := (prog (api W M) no_event A).

(** The traits [Worker] and [Processor]: the message type is given by its
    decoding. *)
Record WorkerCode (W M : Type) := mkWorkerCode {
  w_decode : W -> bytes -> option M;
  w_initialize : user_prog W M (cresult unit);
  w_shutdown : user_prog W M (cresult unit);
  w_handle_message : Routed M -> user_prog W M (cresult unit);
  p_process : user_prog W M (cresult bool)
}.
Arguments mkWorkerCode {W M}.
Arguments w_decode {W M}.
Arguments w_initialize {W M}.
Arguments w_shutdown {W M}.
Arguments w_handle_message {W M}.
Arguments p_process {W M}.

Section Relay.
Context {W M : Type} (bare_uint : Z -> bytes) (code : WorkerCode W M).

(** Run a method on context [i] of the task. *)
Definition on_ctx {X} (i : nat) (f : Context -> task_prog W M X) : task_prog W M X :=
  do ctx <- pcall (CtxGet i);
  match ctx with
  | Some ctx => f ctx
  | None => PPanic
  end.

Definition run_api {X} (c : api W M X) : task_prog W M X :=
  match c in api _ _ X return task_prog W M X with
  | ASend i route payload from info =>
      on_ctx i (fun ctx => send_from_address_impl ctx route payload from info)
  | AForward i m from => on_ctx i (fun ctx => forward_from_address ctx m from)
  | AReceive i wait decode => on_ctx i (fun ctx => receive_extended bare_uint ctx wait decode)
  | ASendReceive i fresh route payload wait decode =>
      on_ctx i (fun ctx => send_and_receive_extended bare_uint ctx fresh route payload wait decode)
  | AStartWorker i m w => on_ctx i (fun ctx => worker_start ctx m w)
  | AStartProcessor i m w => on_ctx i (fun ctx => processor_start ctx m w)
  | ANewDetached i m => on_ctx i (fun ctx => new_detached_impl ctx m)
  | ADropContext i => pcall (CtxDrop i)
  | AStopAddress a t => stop_address a t
  | ASetCluster i label => on_ctx i (fun ctx => ctx_set_cluster ctx label)
  | AListWorkers => ctx_list_workers
  | AWaitFor a => wait_for a
  | ARegister ty a => register_impl ty a
  | AStop seconds => stop_timeout seconds
  | AStopNow => stop_now
  | AFlowControls => pcall FlowGet
  | AFlowUpdate f => pcall (FlowUpdate f)
  | ASelf => pcall SelfGet
  | ASetSelf w => pcall (SelfSet w)
  end.

Fixpoint run_user {A} (u : user_prog W M A) : task_prog W M A :=
  match u with
  | PRet a => PRet a
  | PPanic => PPanic
  | PCall c k => pbind (run_api c) (fun x => run_user (k x))
  | PLoop x body k => PLoop x (fun x => run_user (body x)) (fun y => run_user (k y))
  | PSelect q d k => match d with end
  end.

(** *** worker_relay.rs *)

Definition wrap_direct_message (w : W) (relay_msg : RelayMessage) : cresult (Routed M) :=
  let? msg := parser_message bare_uint (w_decode code w)
                (payload (transport_message (rm_local_msg relay_msg))) in
  Ok (mkRouted msg (rm_destination relay_msg) (rm_source relay_msg) (rm_local_msg relay_msg)).

Definition recv_message (ctx : Context) : ctx_prog W M bool :=
  do? relay_msg <- receiver_next ctx;
  match relay_msg with
  | None => PRet (Ok false)
  | Some relay_msg =>
      do w <- pcall SelfGet;
      do? routed <- plift (wrap_direct_message w relay_msg);
      do _ <- pcall (HandlerStart ctx relay_msg);
      do? _ <- run_user (w_handle_message code routed);
      PRet (Ok true)
  end.

(** The loop of [run]: errors are logged, a signal ends it; if no sender of
    signals is left the message that is being handled is cancelled. *)
Definition relay_loop (ctx : Context) (ctrl_rx : chan) : task_prog W M unit :=
  ploop tt (fun _ =>
    PSelect (recv_message ctx) (EvCtrl ctrl_rx)
      (fun r => match r with
                | inl (Ok true) => PRet (inl tt)
                | inl (Ok false) => PRet (inr tt)
                | inl (Err _) => PRet (inl tt)
                | inl Panic => PPanic
                | inr (Some _) => PRet (inr tt)
                | inr None => PRet (inl tt)
                end)).

(** Code of the worker whose error is only logged. *)
Definition logged {A} (u : user_prog W M (cresult A)) : task_prog W M unit :=
  do r <- run_user u;
  match r with
  | Panic => PPanic
  | _ => PRet tt
  end.

Definition relay_end (ctx : Context) : task_prog W M unit :=
  do _ <- logged (w_shutdown code);
  do _ <- send_stop_ack ctx;
  PRet tt.

Definition worker_run (ctx : Context) (ctrl_rx : chan) : task_prog W M unit :=
  do _ <- logged (w_initialize code);
  do _ <- ctx_set_ready ctx;
  do _ <- relay_loop ctx ctrl_rx;
  relay_end ctx.

(** *** processor_relay.rs *)

Definition process_loop : task_prog W M unit :=
  ploop tt (fun _ =>
    do r <- run_user (p_process code);
    match r with
    | Ok false => PRet (inr tt)
    | Ok true | Err _ => PRet (inl tt)
    | Panic => PPanic
    end).

Definition processor_run (ctx : Context) (ctrl_rx : chan) : task_prog W M unit :=
  do _ <- logged (w_initialize code);
  do _ <- ctx_set_ready ctx;
  do _ <- PSelect process_loop (EvCtrl ctrl_rx) (fun _ => PRet tt);
  relay_end ctx.
End Relay.

(** ** The state of a node *)

(** What a task has: the state of its worker, its contexts, the channels whose
    sender it holds, and the reply channels it has not read yet. *)
Record local (W : Type) := mkLocal {
  l_self : W;
  l_ctxs : list (option Context);
  l_held : list chan;
  l_replies : list chan
}.
Arguments mkLocal {W}.
Arguments l_self {W}.
Arguments l_ctxs {W}.
Arguments l_held {W}.
Arguments l_replies {W}.

Record task (W M : Type) := mkTask {
  t_local : local W;
  t_prog : task_prog W M unit
}.
Arguments mkTask {W M}.
Arguments t_local {W M}.
Arguments t_prog {W M}.

(** A record of what happened, for the statements about it. *)
Inductive log_event :=
| LContext (ctx : Context)
| LSent (from : Context) (c : chan) (m : RelayMessage)
| LReceived (c : chan) (m : RelayMessage)
| LHandled (ctx : Context) (m : RelayMessage)
| LCounted (n : nat)
| LChecked (fc : FlowControls).

Record node (W M : Type) := mkNode {
  n_router : Router;
  n_inbox : list NodeMessage;
  n_replies : gmap chan (list NodeReplyResult);
  n_ctrl : gmap chan (list CtrlSignal);
  n_mail : gmap chan (list RelayMessage);
  n_closed : gset chan;
  n_counts : gmap nat Z;
  n_timers : list Z;
  n_next : nat;
  n_tasks : gmap nat (task W M);
  n_log : list log_event
}.
Arguments mkNode {W M}.
Arguments n_router {W M}.
Arguments n_inbox {W M}.
Arguments n_replies {W M}.
Arguments n_ctrl {W M}.
Arguments n_mail {W M}.
Arguments n_closed {W M}.
Arguments n_counts {W M}.
Arguments n_timers {W M}.
Arguments n_next {W M}.
Arguments n_tasks {W M}.
Arguments n_log {W M}.

(** *** channel_types.rs: capacities *)
Definition message_capacity : nat := 16.
Definition router_capacity : nat := 64.
Definition small_capacity : nat := 1.

(** A counter is an [AtomicUsize]. *)
Definition usize_wrap (z : Z) : Z := (z mod 2 ^ 64)%Z.

Section Updates.
Context {W M : Type}.
Implicit Types n : node W M.

Definition with_router (r : Router) n : node W M :=
  mkNode r (n_inbox n) (n_replies n) (n_ctrl n) (n_mail n) (n_closed n) (n_counts n) (n_timers n)
    (n_next n) (n_tasks n) (n_log n).
Definition with_inbox (l : list NodeMessage) n : node W M :=
  mkNode (n_router n) l (n_replies n) (n_ctrl n) (n_mail n) (n_closed n) (n_counts n) (n_timers n)
    (n_next n) (n_tasks n) (n_log n).
Definition with_replies (r : gmap chan (list NodeReplyResult)) n : node W M :=
  mkNode (n_router n) (n_inbox n) r (n_ctrl n) (n_mail n) (n_closed n) (n_counts n) (n_timers n)
    (n_next n) (n_tasks n) (n_log n).
Definition with_ctrl (r : gmap chan (list CtrlSignal)) n : node W M :=
  mkNode (n_router n) (n_inbox n) (n_replies n) r (n_mail n) (n_closed n) (n_counts n) (n_timers n)
    (n_next n) (n_tasks n) (n_log n).
Definition with_mail (r : gmap chan (list RelayMessage)) n : node W M :=
  mkNode (n_router n) (n_inbox n) (n_replies n) (n_ctrl n) r (n_closed n) (n_counts n) (n_timers n)
    (n_next n) (n_tasks n) (n_log n).
Definition with_closed (r : gset chan) n : node W M :=
  mkNode (n_router n) (n_inbox n) (n_replies n) (n_ctrl n) (n_mail n) r (n_counts n) (n_timers n)
    (n_next n) (n_tasks n) (n_log n).
Definition with_counts (r : gmap nat Z) n : node W M :=
  mkNode (n_router n) (n_inbox n) (n_replies n) (n_ctrl n) (n_mail n) (n_closed n) r (n_timers n)
    (n_next n) (n_tasks n) (n_log n).
Definition with_timers (r : list Z) n : node W M :=
  mkNode (n_router n) (n_inbox n) (n_replies n) (n_ctrl n) (n_mail n) (n_closed n) (n_counts n) r
    (n_next n) (n_tasks n) (n_log n).
Definition with_tasks (r : gmap nat (task W M)) n : node W M :=
  mkNode (n_router n) (n_inbox n) (n_replies n) (n_ctrl n) (n_mail n) (n_closed n) (n_counts n)
    (n_timers n) (n_next n) r (n_log n).
Definition bump n : node W M :=
  mkNode (n_router n) (n_inbox n) (n_replies n) (n_ctrl n) (n_mail n) (n_closed n) (n_counts n)
    (n_timers n) (S (n_next n)) (n_tasks n) (n_log n).
Definition log (e : log_event) n : node W M :=
  mkNode (n_router n) (n_inbox n) (n_replies n) (n_ctrl n) (n_mail n) (n_closed n) (n_counts n)
    (n_timers n) (n_next n) (n_tasks n) (n_log n ++ [e]).

Definition is_open n (c : chan) : bool := bool_decide (c ∉ n_closed n).

(** *** Who holds a sender *)

Definition senders_of (m : NodeMessage) : list chan :=
  match m with
  | StartWorker _ s _ _ _ | StartProcessor _ s _ => [msgs s; ctrl s]
  | _ => []
  end.

Definition reply_of (m : NodeMessage) : option chan :=
  match m with
  | StartWorker _ _ _ _ c | ListWorkers c | SetCluster _ _ c | StopWorker _ _ c
  | StartProcessor _ _ c | StopProcessor _ c | StopNode _ c | SenderReq _ c
  | RegisterRouter _ _ c | CheckReady _ c => Some c
  | AbortNode | StopAck _ | SetReady _ => None
  end.

Definition record_senders (rec : AddressRecord) : list chan :=
  ctrl_tx rec :: option_list (ar_sender rec).

Definition reply_sender (r : NodeReplyResult) : list chan :=
  match r with
  | Ok (ReplySender _ c) => [c]
  | _ => []
  end.

(** All senders of mailboxes and control channels that exist. *)
Definition live_senders n : list chan :=
  (map_to_list (address_records_map (r_map (n_router n))) ≫= record_senders ∘ snd) ++
  (n_inbox n ≫= senders_of) ++
  (map_to_list (n_replies n) ≫= fun x => x.2 ≫= reply_sender) ++
  (map_to_list (n_tasks n) ≫= fun x => l_held (t_local x.2)).

Definition waiting_pollers (rec : AddressRecord) : list chan :=
  match ar_ready rec with
  | Initialising l => l
  | Ready => []
  end.

(** All senders of replies that exist. *)
Definition live_reply_senders n : list chan :=
  omap reply_of (n_inbox n) ++
  (map_to_list (address_records_map (r_map (n_router n))) ≫= waiting_pollers ∘ snd) ++
  option_list (stop_reply (r_state (n_router n))).

(** *** Sending to the router *)

(** [None]: the channel is full and the sender waits. *)
Definition inbox_push (m : NodeMessage) n : option (bool * node W M) :=
  if negb (r_receiver (n_router n)) then Some (false, n)
  else if decide (length (n_inbox n) < router_capacity) then
    Some (true, with_inbox (n_inbox n ++ [m]) n)
  else None.

(** *** The effects of a step of the router *)

Definition deliver (e : effect) n : option (node W M) :=
  match e with
  | Reply c r =>
      let q := default [] (n_replies n !! c) in
      if decide (length q < small_capacity) then
        Some (with_replies (<[c := q ++ [r]]> (n_replies n)) n)
      else None
  | InterruptStop c =>
      let q := default [] (n_ctrl n !! c) in
      if decide (length q < small_capacity) then
        Some (with_ctrl (<[c := q ++ [SigInterruptStop]]> (n_ctrl n)) n)
      else None
  | CountMessage k =>
      Some (log (LCounted k)
             (with_counts (<[k := usize_wrap (default 0 (n_counts n !! k) + 1)%Z]> (n_counts n)) n))
  | AbortAfter seconds => Some (with_timers (n_timers n ++ [seconds]) n)
  end.

Fixpoint deliver_all (es : list effect) n : option (node W M) :=
  match es with
  | [] => Some n
  | e :: es => n ← deliver e n; deliver_all es n
  end.

(** One message of the loop of [run_inner].  When the loop ends the receiver
    is dropped, and what is in the channel with it. *)
Definition router_step n : option (node W M) :=
  match n_inbox n with
  | msg :: inbox =>
      if r_receiver (n_router n) then
        let (r, s) := handle_msg (is_open n) msg (mkRState (n_router n) []) in
        let router := rs_router s in
        let n := with_inbox inbox n in
        n ← deliver_all (rs_out s) (with_router router n);
        match r with
        | Ok true | Panic =>
            Some (with_inbox []
                   (with_router (mkRouter (r_sender router) (r_state router) (r_map router)
                                   (external router) false) n))
        | _ => Some n
        end
      else None
  | [] => None
  end.

(** [AbortNode] of the timeout task. *)
Definition timer_step (i : nat) n : option (node W M) :=
  match n_timers n !! i with
  | Some _ =>
      '(_, n) ← inbox_push AbortNode n;
      Some (with_timers (delete i (n_timers n)) n)
  | None => None
  end.

(** *** Dropping a context

    The receiver is dropped; a detached context also starts its [AsyncDrop]
    task. *)
Definition close (c : chan) n : node W M := with_closed ({[c]} ∪ n_closed n) n.

Definition spawn (w : W) (ctxs : list (option Context)) (p : task_prog W M unit) n : node W M :=
  bump (with_tasks (<[n_next n := mkTask (mkLocal w ctxs [] []) p]> (n_tasks n)) n).

Definition drop_context (w : W) (ctx : Context) n : node W M :=
  let n := close (c_receiver ctx) n in
  if c_detached ctx then spawn w [] (async_drop_run (ctx_address ctx)) n else n.

(** The end of a task: what it has is dropped. *)
Definition drop_local (l : local W) n : node W M :=
  let n := foldl (fun n c => close c n) n (l_replies l) in
  foldl (fun n ctx => drop_context (l_self l) ctx n) n (omap id (l_ctxs l)).
End Updates.

(** ** Steps of a task *)

Section Steps.
Context {W M : Type} (bare_uint : Z -> bytes) (code : WorkerCode W M).
Implicit Types n : node W M.
Implicit Types l : local W.

Definition with_self (w : W) l : local W := mkLocal w (l_ctxs l) (l_held l) (l_replies l).
Definition with_ctxs (cs : list (option Context)) l : local W :=
  mkLocal (l_self l) cs (l_held l) (l_replies l).
Definition with_held (h : list chan) l : local W :=
  mkLocal (l_self l) (l_ctxs l) h (l_replies l).
Definition with_unread (r : list chan) l : local W :=
  mkLocal (l_self l) (l_ctxs l) (l_held l) r.

(** Remove one occurrence. *)
Fixpoint remove_one (c : chan) (h : list chan) : list chan :=
  match h with
  | [] => []
  | x :: h => if decide (x = c) then h else x :: remove_one c h
  end.

(** [n] and the other tasks hold a sender of [c]; [l] is the state of the task
    that asks, which [n] has not stored yet. *)
Definition has_sender l n (c : chan) : bool :=
  bool_decide (c ∈ live_senders n) || bool_decide (c ∈ l_held l).

(** A call; [None]: it waits. *)
Definition do_call {X} (c : call W M X) l n : option (X * local W * node W M) :=
  match c in call _ _ X return option (X * local W * node W M) with
  | CtxGet i => Some (mjoin (l_ctxs l !! i), l, n)
  | CtxAdd ctx => Some (length (l_ctxs l), with_ctxs (l_ctxs l ++ [Some ctx]) l, n)
  | CtxDrop i =>
      match mjoin (l_ctxs l !! i) with
      | Some ctx =>
          Some (tt, with_ctxs (<[i := None]> (l_ctxs l)) l, drop_context (l_self l) ctx n)
      | None => Some (tt, l, n)
      end
  | SmallChannel =>
      Some (n_next n, with_unread (n_next n :: l_replies l) l, bump n)
  | ReceiverDrop c => Some (tt, with_unread (remove_one c (l_replies l)) l, close c n)
  | RouterSend m =>
      '(b, n) ← inbox_push m n;
      Some (b, with_held (foldl (fun h c => remove_one c h) (l_held l) (senders_of m)) l, n)
  | ReplyRecv c =>
      match n_replies n !! c with
      | Some (r :: q) =>
          Some (Some r,
                with_held (reply_sender r ++ l_held l)
                  (with_unread (remove_one c (l_replies l)) l),
                close c (with_replies (<[c := q]> (n_replies n)) n))
      | _ =>
          if decide (c ∈ live_reply_senders n) then None
          else Some (None, with_unread (remove_one c (l_replies l)) l, close c n)
      end
  | MailSend from c m =>
      if is_open n c then
        let q := default [] (n_mail n !! c) in
        if decide (length q < message_capacity) then
          Some (true, l, log (LSent from c m) (with_mail (<[c := q ++ [m]]> (n_mail n)) n))
        else None
      else Some (false, l, n)
  | SenderDrop c => Some (tt, with_held (remove_one c (l_held l)) l, n)
  | MailRecv ctx =>
      match n_mail n !! c_receiver ctx with
      | Some (m :: q) =>
          Some (Some m, l, log (LReceived (c_receiver ctx) m)
                             (with_mail (<[c_receiver ctx := q]> (n_mail n)) n))
      | _ => if has_sender l n (c_receiver ctx) then None else Some (None, l, n)
      end
  | CountSub ctx =>
      let k := c_count ctx in
      Some (tt, l, with_counts (<[k := usize_wrap (default 0 (n_counts n !! k) - 1)%Z]> (n_counts n)) n)
  | ContextNew m detached =>
      let mail := n_next n in
      let ctrl := S mail in
      let ctx := mkContext m mail (S ctrl) detached in
      Some (ctx, mkSenderPair mail ctrl, ctrl, with_held (mail :: ctrl :: l_held l) l,
            log (LContext ctx) (with_counts (<[S ctrl := 0%Z]> (n_counts n)) (bump (bump (bump n)))))
  | SpawnWorker ctx ctrl_rx w =>
      Some (tt, l, spawn w [Some ctx] (worker_run bare_uint code ctx ctrl_rx) n)
  | SpawnProcessor ctx ctrl_rx w =>
      Some (tt, l, spawn w [Some ctx] (processor_run bare_uint code ctx ctrl_rx) n)
  | FlowGet =>
      let fc := flow_controls (r_map (n_router n)) in Some (fc, l, log (LChecked fc) n)
  | FlowUpdate f =>
      let m := r_map (n_router n) in
      Some (tt, l, with_router (set_map (set_flow_controls (f (flow_controls m)) m) (n_router n)) n)
  | SelfGet => Some (l_self l, l, n)
  | SelfSet w => Some (tt, with_self w l, n)
  | HandlerStart ctx m => Some (tt, l, log (LHandled ctx m) n)
  end.

(** The second branch of a [select!]: the first is cancelled.  With a control
    signal everything that the relay's first branch holds is dropped. *)
Definition cancel l n : local W * node W M :=
  (with_held [] (with_unread [] l), foldl (fun n c => close c n) n (l_replies l)).

Definition do_event {Y} (d : event Y) l n : option (Y * local W * node W M) :=
  match d in event Y return option (Y * local W * node W M) with
  | EvCtrl c =>
      match n_ctrl n !! c with
      | Some (s :: q) =>
          let (l, n) := cancel l (with_ctrl (<[c := q]> (n_ctrl n)) n) in Some (Some s, l, n)
      | _ =>
          if has_sender l n c then None
          else let (l, n) := cancel l n in Some (None, l, n)
      end
  | EvTimeout => Some (tt, l, n)
  end.

(** One step of a program.  [depth] says at which of the nested [select!]s the
    second branch is taken, if at any. *)
Fixpoint pstep {A} (depth : option nat) (p : task_prog W M A) l n
  : option (task_prog W M A * local W * node W M) :=
  match p with
  | PRet _ | PPanic => None
  | PCall c k => '(x, l, n) ← do_call c l n; Some (k x, l, n)
  | PLoop x body k => Some (unfold_loop x body k, l, n)
  | PSelect q d k =>
      match depth with
      | Some O => '(y, l, n) ← do_event d l n; Some (k (inr y), l, n)
      | _ =>
          match q with
          | PRet x => Some (k (inl x), l, n)
          | PPanic => Some (PPanic, l, n)
          | _ => '(q, l, n) ← pstep (pred <$> depth) q l n; Some (PSelect q d k, l, n)
          end
      end
  end.

(** A step of task [i]; a task that has returned or panicked ends.  While it
    runs the task is not among the tasks of the node. *)
Definition task_step (i : nat) (depth : option nat) n : option (node W M) :=
  match n_tasks n !! i with
  | None => None
  | Some t =>
      let n := with_tasks (delete i (n_tasks n)) n in
      match t_prog t with
      | PRet _ | PPanic => Some (drop_local (t_local t) n)
      | p =>
          '(p, l, n) ← pstep depth p (t_local t) n;
          Some (with_tasks (<[i := mkTask l p]> (n_tasks n)) n)
      end
  end.

Inductive choice :=
| RunRouter
| RunTask (i : nat) (depth : option nat)
| RunTimer (i : nat).

Definition node_step (ch : choice) n : option (node W M) :=
  match ch with
  | RunRouter => router_step n
  | RunTask i depth => task_step i depth n
  | RunTimer i => timer_step i n
  end.

Fixpoint run_node (sched : list choice) n : option (node W M) :=
  match sched with
  | [] => Some n
  | ch :: sched => n ← node_step ch n; run_node sched n
  end.

(** [NodeBuilder::build] and [Executor::execute]: the application runs with
    the context [app]. *)
Definition app_mailboxes : SharedMailboxes :=
  mkSharedMailboxes (mkSharedMailbox (addr "app") (fun _ => dyn_incoming mkAllowAll)
                       (fun _ => dyn_outgoing mkAllowAll)) [].
Definition app_context : Context := mkContext app_mailboxes 1 3 false.

Definition node_build (w : W) (main : user_prog W M unit) : node W M :=
  let router := Router_init (addr "app") (mkSenderPair 1 2)
                  (Router_new 0 FlowControls_new) in
  mkNode router [] ∅ ∅ ∅ ∅ {[3 := 0%Z]} [] 5
    {[4 := mkTask (mkLocal w [Some app_context] [] []) (run_user bare_uint main)]}
    [LContext app_context].
End Steps.
