(* ===== verification/NodeSpec.v ===== *)
(** * What a node guarantees to its workers

    Every step of a node keeps an invariant: what a task may still do is safe
    ([psafe]: it sends only what its context may send and handles only what was
    sent to its context and authorized there), and what waits in a mailbox was
    sent.  The first theorem is the guarantee of [Routed::src_addr], the others
    are about the order of messages and the capacity of channels. *)

From Stdlib Require Import ZArith Lia.
From Stdlib Require Strings.Byte Strings.String.
From stdpp Require Import base gmap fin_maps fin_map_dom list numbers option countable.
From S2P Require Import Prelude RustStr Routing AccessControl FlowControl Router Node.

Create HintDb psafe.

(** ** Programs that respect access control *)

(** [from] owns the source of [m], and its outgoing access control allowed [m]
    with the flow controls that the node had when it was checked. *)
Definition may_send (lg : list log_event) (from : Context) (m : RelayMessage) : Prop :=
  rm_source m ∈ ctx_addresses from /\
  exists fc, LChecked fc ∈ lg /\
    Mailboxes_is_outgoing_authorized (now fc (c_mailboxes from)) m = Ok true.

Definition may_handle (lg : list log_event) (ctx : Context) (m : RelayMessage) : Prop :=
  rm_destination m ∈ ctx_addresses ctx /\
  exists fc, LChecked fc ∈ lg /\
    Mailboxes_is_incoming_authorized (now fc (c_mailboxes ctx)) m = Ok true.

Definition known (lg : list log_event) (ctx : Context) : Prop := LContext ctx ∈ lg.
Definition was_sent (lg : list log_event) (c : chan) (m : RelayMessage) : Prop :=
  exists from, LSent from c m ∈ lg.

Section Safe.
Context {W M : Type}.
Implicit Types lg : list log_event.

(** What a call needs, and what its result tells. *)
Definition call_ok {X} lg (c : call W M X) : Prop :=
  match c with
  | MailSend from _ m => known lg from /\ may_send lg from m
  | HandlerStart ctx m => known lg ctx /\ may_handle lg ctx m /\ was_sent lg (c_receiver ctx) m
  | SpawnWorker ctx _ _ | SpawnProcessor ctx _ _ | CtxAdd ctx => known lg ctx
  | _ => True
  end.

Definition call_res {X} lg (c : call W M X) (x : X) : Prop :=
  match c in call _ _ X return X -> Prop with
  | CtxGet _ => fun o => forall ctx, o = Some ctx -> known lg ctx
  | MailRecv ctx => fun o => forall m, o = Some m -> was_sent lg (c_receiver ctx) m
  | ContextNew _ _ => fun x => known lg x.1.1
  | FlowGet => fun fc => LChecked fc ∈ lg
  | _ => fun _ => True
  end x.

Fixpoint psafe {A} (p : task_prog W M A) lg (Q : list log_event -> A -> Prop) : Prop :=
  match p with
  | PRet a => Q lg a
  | PPanic => True
  | PCall c k =>
      call_ok lg c /\ forall lg' x, lg `prefix_of` lg' -> call_res lg' c x -> psafe (k x) lg' Q
  | PLoop _ body k =>
      forall lg' x, lg `prefix_of` lg' ->
        psafe (body x) lg' (fun lg'' r => match r with
                                          | inl _ => True
                                          | inr y => psafe (k y) lg'' Q
                                          end)
  | PSelect q _ k =>
      psafe q lg (fun lg' x => psafe (k (inl x)) lg' Q) /\
      forall lg' y, lg `prefix_of` lg' -> psafe (k (inr y)) lg' Q
  end.

Definition mono {A} (Q : list log_event -> A -> Prop) : Prop :=
  forall lg lg' a, lg `prefix_of` lg' -> Q lg a -> Q lg' a.

Lemma known_mono lg lg' ctx : lg `prefix_of` lg' -> known lg ctx -> known lg' ctx.
Proof. intros [k ->] H. apply elem_of_app. by left. Qed.

Lemma was_sent_mono lg lg' c m : lg `prefix_of` lg' -> was_sent lg c m -> was_sent lg' c m.
Proof. intros [k ->] [from H]. exists from. apply elem_of_app. by left. Qed.

Lemma may_send_mono lg lg' from m : lg `prefix_of` lg' -> may_send lg from m -> may_send lg' from m.
Proof. intros [k ->] (Hs & fc & Hc & Ha). split; [done|]. exists fc. rewrite elem_of_app. auto. Qed.

Lemma may_handle_mono lg lg' ctx m :
  lg `prefix_of` lg' -> may_handle lg ctx m -> may_handle lg' ctx m.
Proof. intros [k ->] (Hs & fc & Hc & Ha). split; [done|]. exists fc. rewrite elem_of_app. auto. Qed.

Hint Resolve known_mono was_sent_mono may_send_mono may_handle_mono : core.

Lemma call_ok_mono {X} lg lg' (c : call W M X) :
  lg `prefix_of` lg' -> call_ok lg c -> call_ok lg' c.
Proof. destruct c; simpl; intros; destruct_and?; split_and?; eauto. Qed.

Lemma psafe_weaken {A} (p : task_prog W M A) : forall lg (Q Q' : list log_event -> A -> Prop),
  (forall lg' a, lg `prefix_of` lg' -> Q lg' a -> Q' lg' a) -> psafe p lg Q -> psafe p lg Q'.
Proof.
  induction p as [A a|A|A X c k IH|A X Y x body IHb k IHk|A X Y q IHq d k IHk];
    intros lg Q Q' HQ; simpl; auto.
  - intros [Hc Hk]. split; [done|]. intros lg' x Hl Hx.
    apply (IH x lg' Q); [|by apply Hk]. intros lg'' a Hl'. apply HQ. by etrans.
  - intros H lg' x' Hl. eapply IHb; [|by apply H]. intros lg'' [?|y] Hl' Hy; [done|].
    eapply IHk; [|done]. intros. apply HQ; [|done]. etrans; [exact Hl|]. by etrans.
  - intros [Hq Hk]. split.
    + eapply IHq; [|exact Hq]. intros lg' z Hl Hz. eapply IHk; [|exact Hz].
      intros. apply HQ; [|done]. by etrans.
    + intros lg' y Hl. eapply IHk; [|by apply Hk]. intros. apply HQ; [|done]. by etrans.
Qed.

Lemma psafe_mono {A} (p : task_prog W M A) : forall lg lg' (Q : list log_event -> A -> Prop),
  mono Q -> lg `prefix_of` lg' -> psafe p lg Q -> psafe p lg' Q.
Proof.
  induction p as [A a|A|A X c k IH|A X Y x body IHb k IHk|A X Y q IHq d k IHk];
    intros lg lg' Q HQ Hl; simpl; eauto.
  - intros [Hc Hk]. split; [by eapply call_ok_mono|]. intros lg'' x' Hl' Hx.
    apply Hk; [by etrans|done].
  - intros H lg'' x' Hl'. apply H. by etrans.
  - intros [Hq Hk]. split.
    + eapply IHq; [|done|done]. intros ?????. by eapply IHk.
    + intros lg'' y Hl'. apply Hk. by etrans.
Qed.

Lemma psafe_bind {A B} (p : task_prog W M A) (f : A -> task_prog W M B) : forall lg Q,
  psafe p lg (fun lg' a => psafe (f a) lg' Q) -> psafe (pbind p f) lg Q.
Proof.
  induction p as [A a|A|A X c k IH|A X Y x body IHb k IHk|A X Y q IHq d k IHk];
    intros lg Q; simpl; auto.
  - intros [Hc Hk]. split; auto.
  - intros H lg' x' Hl. eapply psafe_weaken; [|by apply H]. intros lg'' [?|y] _ Hy; auto.
  - intros [Hq Hk]. split; [|auto]. eapply psafe_weaken; [|done]. intros; simpl in *. auto.
Qed.

Lemma psafe_try {A B} (p : ctx_prog W M A) (f : A -> ctx_prog W M B) lg Q :
  psafe p lg (fun lg' r => match r with
                           | Ok a => psafe (f a) lg' Q
                           | Err e => Q lg' (Err e)
                           | Panic => True
                           end) ->
  psafe (ptry p f) lg Q.
Proof.
  intros H. apply psafe_bind. eapply psafe_weaken; [|done]. intros lg' [a|e|] _; auto.
Qed.

Lemma psafe_call {X} (c : call W M X) lg Q :
  call_ok lg c -> (forall lg' x, lg `prefix_of` lg' -> call_res lg' c x -> Q lg' x) ->
  psafe (pcall c) lg Q.
Proof. by split. Qed.

Lemma psafe_loop {X Y} (x : X) (body : X -> task_prog W M (X + Y)) lg Q :
  (forall lg' x, lg `prefix_of` lg' ->
     psafe (body x) lg' (fun lg'' r => match r with inl _ => True | inr y => Q lg'' y end)) ->
  psafe (ploop x body) lg Q.
Proof. intros H lg' x' Hl. by apply H. Qed.

Lemma psafe_ret {A} (a : A) lg (Q : list log_event -> A -> Prop) :
  Q lg a -> psafe (PRet a) lg Q.
Proof. done. Qed.
End Safe.

(** No claim about the result. *)
Definition any {A} (lg : list log_event) (a : A) : Prop := True.

Section Methods.
Context {W M : Type}.
Implicit Types lg : list log_event.
Implicit Types ctx : Context.

Lemma any_mono {A} : mono (@any A).
Proof. done. Qed.

Lemma psafe_any_bind {A B} (p : task_prog W M A) (f : A -> task_prog W M B) lg Q :
  psafe p lg any -> (forall lg' a, lg `prefix_of` lg' -> psafe (f a) lg' Q) ->
  psafe (pbind p f) lg Q.
Proof. intros Hp Hf. apply psafe_bind. eapply psafe_weaken; [|exact Hp]. auto. Qed.

Lemma psafe_any_try {A B} (p : ctx_prog W M A) (f : A -> ctx_prog W M B) lg :
  psafe p lg any -> (forall lg' a, lg `prefix_of` lg' -> psafe (f a) lg' any) ->
  psafe (ptry p f) lg any.
Proof.
  intros Hp Hf. apply psafe_try. eapply psafe_weaken; [|exact Hp].
  intros lg' [a|e|] Hl _; auto. done.
Qed.

Lemma psafe_any_loop {X Y} (x : X) (body : X -> task_prog W M (X + Y)) lg :
  (forall lg' x, lg `prefix_of` lg' -> psafe (body x) lg' any) -> psafe (ploop x body) lg any.
Proof.
  intros H. apply psafe_loop. intros lg' x' Hl. eapply psafe_weaken; [|by apply H].
  by intros lg'' [|].
Qed.

(** A call without an obligation. *)
Lemma psafe_call_bind {X B} (c : call W M X) (f : X -> task_prog W M B) lg Q :
  call_ok lg c ->
  (forall lg' x, lg `prefix_of` lg' -> call_res lg' c x -> psafe (f x) lg' Q) ->
  psafe (pbind (pcall c) f) lg Q.
Proof. by split. Qed.

Lemma now_addresses fc m : Mailboxes_addresses (now fc m) = shared_addresses m.
Proof.
  unfold shared_addresses, Mailboxes_addresses, Mailboxes_additional_addresses. simpl.
  by rewrite !map_map.
Qed.

Lemma contains_known_address ctx fc a :
  Mailboxes_contains (now fc (c_mailboxes ctx)) a = true -> a ∈ ctx_addresses ctx.
Proof. rewrite Mailboxes_contains_spec, now_addresses. done. Qed.

Lemma incoming_may_handle lg ctx fc m :
  LChecked fc ∈ lg -> Mailboxes_is_incoming_authorized (now fc (c_mailboxes ctx)) m = Ok true -> may_handle lg ctx m.
Proof.
  intros Hc H. split; [|by exists fc]. unfold Mailboxes_is_incoming_authorized in H.
  pose proof (find_mailbox_spec (now fc (c_mailboxes ctx)) (rm_destination m)) as Hf.
  destruct (Mailboxes_find_mailbox _ _) as [mb|] eqn:E; [|done].
  destruct Hf as [<- Hin]. unfold ctx_addresses. rewrite <- (now_addresses fc).
  unfold Mailboxes_addresses, Mailboxes_additional_addresses.
  apply elem_of_cons in Hin as [-> | Hin]; [by left|]. right. apply list_elem_of_fmap. eauto.
Qed.

(** Programs whose calls need nothing: one goal is left per program that the
    hints do not know. *)
Ltac psafe_go :=
  repeat (intros; first
    [ solve [eauto with psafe]
    | apply psafe_call_bind; [first [done | by eauto]|]
    | apply psafe_any_try; [solve [eauto with psafe]|]
    | apply psafe_any_bind; [solve [eauto with psafe]|]
    | apply psafe_call; [first [done | by eauto]|]
    | done
    | progress cbv zeta
    | case_match ]).

Lemma router_send_safe m lg : psafe (router_send (W := W) (M := M) m) lg any.
Proof. unfold router_send. psafe_go. Qed.
Lemma reply_recv_safe c lg : psafe (reply_recv (W := W) (M := M) c) lg any.
Proof. unfold reply_recv. psafe_go. Qed.
Lemma plift_safe {A} (r : cresult A) lg : psafe (plift (C := call W M) (D := event) r) lg any.
Proof. done. Qed.
#[local] Hint Resolve router_send_safe reply_recv_safe plift_safe : psafe.

Lemma router_request_safe m lg : psafe (router_request (W := W) (M := M) m) lg any.
Proof. unfold router_request. psafe_go. Qed.
#[local] Hint Resolve router_request_safe : psafe.

(** *** Sending *)

Lemma send_authorized_safe ctx sender m lg :
  known lg ctx -> rm_source m ∈ ctx_addresses ctx ->
  psafe (send_authorized (W := W) (M := M) ctx sender m) lg any.
Proof.
  intros Hk Hs. unfold send_authorized. apply psafe_call_bind; [done|]. intros lg' fc Hl Hc.
  destruct (Mailboxes_is_outgoing_authorized _ m) as [[]|e|] eqn:E; cbn [map_err].
  - apply psafe_call_bind; [|psafe_go]. simpl. split; [by eapply known_mono|].
    split; [done|]. by exists fc.
  - psafe_go.
  - psafe_go.
  - done.
Qed.

Lemma send_from_address_impl_safe ctx route payload a info lg :
  known lg ctx -> psafe (send_from_address_impl (W := W) (M := M) ctx route payload a info) lg any.
Proof.
  intros Hk. unfold send_from_address_impl. destruct (Mailboxes_contains _ a) eqn:E; [|done].
  apply contains_known_address in E. simpl.
  do 3 (apply psafe_any_try; [eauto with psafe|]; intros).
  destruct a2 as [addr sender]. destruct payload as [p|]; [|psafe_go].
  apply send_authorized_safe; [|done]. eauto using known_mono.
Qed.

Lemma forward_from_address_safe ctx m a lg :
  known lg ctx -> psafe (forward_from_address (W := W) (M := M) ctx m a) lg any.
Proof.
  intros Hk. unfold forward_from_address. destruct (Mailboxes_contains _ a) eqn:E; [|done].
  apply contains_known_address in E. simpl.
  destruct (Route_next _) as [next|e|]; [|done..].
  do 2 (apply psafe_any_try; [eauto with psafe|]; intros).
  destruct a1 as [addr sender].
  apply send_authorized_safe; [|done]. eauto using known_mono.
Qed.

(** *** Receiving *)

(** What [receiver_next] returns was sent to the context and passed its
    incoming access control. *)
Definition received_ok ctx lg (r : cresult (option RelayMessage)) : Prop :=
  forall m, r = Ok (Some m) -> was_sent lg (c_receiver ctx) m /\ may_handle lg ctx m.

Lemma receiver_next_safe ctx lg :
  psafe (receiver_next (W := W) (M := M) ctx) lg (received_ok ctx).
Proof.
  apply psafe_loop. intros lg1 _ _. apply psafe_call_bind; [done|].
  intros lg2 [m|] _ Hm; simpl in Hm; [|intros m; by intros [=]].
  apply psafe_call_bind; [done|]. intros lg3 _ Hl3 _.
  apply psafe_call_bind; [done|]. intros lg4 fc Hl4 Hc.
  destruct (Mailboxes_is_incoming_authorized _ m) as [[]|e|] eqn:E; cbn [map_err];
    [|done|intros m'; by intros [=]|done].
  intros m' [= <-]. split; [|by eapply incoming_may_handle].
  eapply was_sent_mono; [exact (transitivity Hl3 Hl4)|]. by apply Hm.
Qed.

Lemma receiver_next_any ctx lg : psafe (receiver_next (W := W) (M := M) ctx) lg any.
Proof. eapply psafe_weaken; [|apply receiver_next_safe]. done. Qed.
#[local] Hint Resolve receiver_next_any : psafe.

Variable bare_uint : Z -> bytes.

Lemma next_from_mailbox_safe ctx decode lg :
  psafe (next_from_mailbox (W := W) (M := M) bare_uint ctx decode) lg any.
Proof. apply psafe_any_loop. intros lg1 _ _. psafe_go. Qed.
#[local] Hint Resolve next_from_mailbox_safe : psafe.

Lemma receive_extended_safe ctx wait decode lg :
  psafe (receive_extended (W := W) (M := M) bare_uint ctx wait decode) lg any.
Proof.
  destruct wait; unfold receive_extended; [|eauto with psafe]. split; [|done].
  eapply psafe_weaken; [|apply next_from_mailbox_safe]. done.
Qed.

(** *** New contexts and tasks *)

Lemma new_detached_impl_safe ctx m lg :
  psafe (new_detached_impl (W := W) (M := M) ctx m) lg any.
Proof.
  unfold new_detached_impl. apply psafe_call_bind; [done|].
  intros lg1 [[child sender] ctrl] Hl Hk. simpl in Hk.
  apply psafe_call_bind; [done|]. psafe_go.
Qed.

Lemma async_drop_run_safe a lg : psafe (async_drop_run (W := W) (M := M) a) lg any.
Proof. unfold async_drop_run. psafe_go. Qed.

Lemma send_and_receive_safe ctx fresh route payload wait decode lg :
  psafe (send_and_receive_extended (W := W) (M := M) bare_uint ctx fresh route payload wait decode)
    lg any.
Proof.
  unfold send_and_receive_extended. apply psafe_any_try; [eauto with psafe|]. intros lg1 next _.
  apply psafe_call_bind; [done|]. intros lg2 fc _ _.
  apply psafe_any_bind; [case_match; psafe_go|]. intros lg3 _ _.
  apply psafe_any_try; [apply new_detached_impl_safe|]. intros lg4 i _.
  apply psafe_call_bind; [done|]. intros lg5 [child|] _ Hc; [|done].
  apply psafe_any_bind; [apply send_from_address_impl_safe; by apply Hc|].
  intros lg6 [[]|e|] _; [|psafe_go|done].
  apply psafe_any_bind; [apply receive_extended_safe|]. psafe_go.
Qed.

Lemma worker_start_safe ctx m w lg : psafe (worker_start (W := W) (M := M) ctx m w) lg any.
Proof.
  unfold worker_start. apply psafe_call_bind; [done|].
  intros lg1 [[child sender] ctrl] Hl Hk. simpl in Hk.
  apply psafe_call_bind; [done|]. psafe_go.
Qed.

Lemma processor_start_safe ctx m w lg : psafe (processor_start (W := W) (M := M) ctx m w) lg any.
Proof.
  unfold processor_start. apply psafe_call_bind; [done|].
  intros lg1 [[child sender] ctrl] Hl Hk. simpl in Hk.
  apply psafe_call_bind; [done|]. psafe_go.
Qed.

(** *** The code of workers *)

Lemma on_ctx_safe {X} i (f : Context -> task_prog W M X) lg :
  (forall lg' ctx, lg `prefix_of` lg' -> known lg' ctx -> psafe (f ctx) lg' any) ->
  psafe (on_ctx i f) lg any.
Proof.
  intros H. apply psafe_call_bind; [done|]. intros lg' [ctx|] Hl Hc; [|done].
  apply H; [done|]. by apply Hc.
Qed.

Lemma run_api_safe {X} (c : api W M X) lg : psafe (run_api bare_uint c) lg any.
Proof.
  destruct c; unfold run_api; try apply on_ctx_safe; intros;
    unfold stop_address, ctx_set_cluster, ctx_list_workers, wait_for, register_impl, stop_timeout,
      stop_now;
    solve [ psafe_go
          | by apply send_from_address_impl_safe
          | by apply forward_from_address_safe
          | apply receive_extended_safe
          | apply send_and_receive_safe
          | apply worker_start_safe
          | apply processor_start_safe
          | apply new_detached_impl_safe ].
Qed.

Lemma run_user_safe {A} (u : user_prog W M A) : forall lg, psafe (run_user bare_uint u) lg any.
Proof.
  induction u as [A a|A|A X c k IH|A X Y x body IHb k IHk|A X Y q IHq d k IHk]; intros lg; simpl.
  - done.
  - done.
  - apply psafe_any_bind; [apply run_api_safe|]. auto.
  - intros lg' x' _. eapply psafe_weaken; [|apply IHb]. intros lg'' [?|y] _ _; auto.
  - destruct d.
Qed.

(** *** Relays *)

Variable code : WorkerCode W M.

Lemma logged_safe {A} (u : user_prog W M (cresult A)) lg : psafe (logged bare_uint u) lg any.
Proof. unfold logged. apply psafe_any_bind; [apply run_user_safe|]. psafe_go. Qed.
#[local] Hint Resolve logged_safe run_user_safe : psafe.

Lemma recv_message_safe ctx lg :
  known lg ctx -> psafe (recv_message bare_uint code ctx) lg any.
Proof.
  intros Hk. unfold recv_message. apply psafe_try.
  eapply psafe_weaken; [|apply receiver_next_safe]. intros lg1 [[m|]|e|] Hl Hm; [|done..].
  destruct (Hm m eq_refl) as [Hs Hh].
  apply psafe_call_bind; [done|]. intros lg2 w Hl2 _.
  apply psafe_any_try; [eauto with psafe|]. intros lg3 routed Hl3.
  apply psafe_call_bind.
  - simpl. split_and!; [by eauto using known_mono|by eauto using may_handle_mono|].
    by eauto using was_sent_mono.
  - psafe_go.
Qed.

Lemma relay_loop_safe ctx ctrl lg :
  known lg ctx -> psafe (relay_loop bare_uint code ctx ctrl) lg any.
Proof.
  intros Hk. apply psafe_any_loop. intros lg1 _ Hl. split.
  - eapply psafe_weaken; [|apply recv_message_safe; by eapply known_mono].
    by intros lg2 [[]|e|].
  - by intros lg2 [|].
Qed.

Lemma worker_run_safe ctx ctrl lg :
  known lg ctx -> psafe (worker_run bare_uint code ctx ctrl) lg any.
Proof.
  intros Hk. unfold worker_run, ctx_set_ready, relay_end, send_stop_ack.
  do 2 (apply psafe_any_bind; [eauto with psafe|]; intros).
  apply psafe_any_bind; [|psafe_go]. apply relay_loop_safe. eauto using known_mono.
Qed.

Lemma processor_run_safe ctx ctrl lg : psafe (processor_run bare_uint code ctx ctrl) lg any.
Proof.
  unfold processor_run, ctx_set_ready, relay_end, send_stop_ack.
  do 2 (apply psafe_any_bind; [eauto with psafe|]; intros).
  apply psafe_any_bind; [|psafe_go]. split; [|done].
  eapply psafe_weaken; [|apply psafe_any_loop; intros lg2 _ _]; [done|].
  apply psafe_any_bind; [apply run_user_safe|]. psafe_go.
Qed.
End Methods.

(** ** The invariant of a node *)

Section Invariant.
Context {W M : Type} (bare_uint : Z -> bytes) (code : WorkerCode W M).
Implicit Types lg : list log_event.
Implicit Types n : node W M.
Implicit Types l : local W.

Definition event_ok lg (e : log_event) : Prop :=
  match e with
  | LSent from _ m => known lg from /\ may_send lg from m
  | LHandled ctx m => known lg ctx /\ may_handle lg ctx m /\ was_sent lg (c_receiver ctx) m
  | _ => True
  end.

Definition ctxs_ok lg l : Prop := forall ctx, Some ctx ∈ l_ctxs l -> known lg ctx.

Definition task_ok lg (t : task W M) : Prop :=
  psafe (t_prog t) lg any /\ ctxs_ok lg (t_local t).

Record node_ok n : Prop := mkNodeOk {
  ok_log : forall e, e ∈ n_log n -> event_ok (n_log n) e;
  ok_mail : forall c m, m ∈ default [] (n_mail n !! c) -> was_sent (n_log n) c m;
  ok_tasks : forall i t, n_tasks n !! i = Some t -> task_ok (n_log n) t
}.

Lemma event_ok_mono lg lg' e : lg `prefix_of` lg' -> event_ok lg e -> event_ok lg' e.
Proof.
  destruct e; simpl; intros; destruct_and?; split_and?;
    eauto using known_mono, was_sent_mono, may_send_mono, may_handle_mono.
Qed.

Lemma ctxs_ok_mono lg lg' l : lg `prefix_of` lg' -> ctxs_ok lg l -> ctxs_ok lg' l.
Proof. intros ? H ctx ?. eapply known_mono; eauto. Qed.

Lemma task_ok_mono lg lg' t : lg `prefix_of` lg' -> task_ok lg t -> task_ok lg' t.
Proof.
  intros Hl [Hp Hc]. split; [|by eapply ctxs_ok_mono]. by eapply psafe_mono; [apply any_mono|..].
Qed.

(** Steps that touch neither the log nor mailboxes nor tasks. *)
Lemma node_ok_same n n' :
  n_log n' = n_log n -> n_mail n' = n_mail n -> n_tasks n' = n_tasks n -> node_ok n -> node_ok n'.
Proof. intros El Em Et []. split; rewrite El, ?Em, ?Et; auto. Qed.

Lemma node_ok_log e n : event_ok (n_log n ++ [e]) e -> node_ok n -> node_ok (log e n).
Proof.
  intros He []. assert (Hl : n_log n `prefix_of` n_log n ++ [e]) by by exists [e].
  split; simpl.
  - intros e' [Hin | ->%list_elem_of_singleton]%elem_of_app; [|done].
    eapply event_ok_mono; eauto.
  - intros. eapply was_sent_mono; eauto.
  - intros. eapply task_ok_mono; eauto.
Qed.

Lemma node_ok_task i t n :
  task_ok (n_log n) t -> node_ok n -> node_ok (with_tasks (<[i := t]> (n_tasks n)) n).
Proof.
  intros Ht []. split; simpl; [auto..|]. intros j t' [[<- <-] | [_ ?]]%lookup_insert_Some; eauto.
Qed.

Lemma node_ok_spawn w ctxs p n :
  psafe p (n_log n) any -> (forall ctx, Some ctx ∈ ctxs -> known (n_log n) ctx) ->
  node_ok n -> node_ok (spawn w ctxs p n).
Proof.
  intros Hp Hc H.
  eapply (node_ok_task (n_next n) (mkTask (mkLocal w ctxs [] []) p)) in H; [|done].
  by eapply node_ok_same in H.
Qed.

Lemma drop_context_log w ctx n : n_log (drop_context w ctx n) = n_log n.
Proof. unfold drop_context. by destruct (c_detached ctx). Qed.

Lemma node_ok_drop w ctx n : node_ok n -> node_ok (drop_context w ctx n).
Proof.
  intros H. unfold drop_context. assert (node_ok (close (c_receiver ctx) n)) by by apply (node_ok_same n).
  destruct (c_detached ctx); [|done].
  apply node_ok_spawn; [apply async_drop_run_safe|set_solver|done].
Qed.

Lemma close_all_log cs n : n_log (foldl (fun n c => close c n) n cs) = n_log n.
Proof. revert n. induction cs; intros; simpl; [done|]. by rewrite IHcs. Qed.

Lemma close_all_ok cs n : node_ok n -> node_ok (foldl (fun n c => close c n) n cs).
Proof. revert n. induction cs; intros; simpl; [done|]. by apply IHcs, (node_ok_same n). Qed.

Lemma drop_local_ok l n : node_ok n -> node_ok (drop_local l n).
Proof.
  intros H. unfold drop_local. generalize (omap id (l_ctxs l)).
  apply (close_all_ok (l_replies l)) in H. revert H.
  generalize (foldl (fun n c => close c n) n (l_replies l)). intros n' H ctxs. revert n' H.
  induction ctxs; intros n' H; simpl; [done|]. by apply IHctxs, node_ok_drop.
Qed.

Lemma inbox_push_same m n b n' :
  inbox_push m n = Some (b, n') ->
  n_log n' = n_log n /\ n_mail n' = n_mail n /\ n_tasks n' = n_tasks n.
Proof. unfold inbox_push. intros. repeat case_match; by simplify_eq. Qed.

(** *** Calls *)

Lemma node_ok_send from c m n :
  known (n_log n) from -> may_send (n_log n) from m -> node_ok n ->
  node_ok (log (LSent from c m)
             (with_mail (<[c := default [] (n_mail n !! c) ++ [m]]> (n_mail n)) n)).
Proof.
  intros Hk Hm Hn. apply (node_ok_log (LSent from c m)) in Hn as [H1 H2 H3];
    [|by apply (event_ok_mono (n_log n) _ (LSent from c m)); [by eexists|]].
  split; simpl in *; [done| |done]. intros c' m'.
  destruct (decide (c = c')) as [<-|Hne]; [rewrite lookup_insert_eq|rewrite lookup_insert_ne by done; eauto].
  simpl. intros [? | ->%list_elem_of_singleton]%elem_of_app; [auto|].
  exists from. apply elem_of_app. right. by left.
Qed.

Lemma node_ok_recv c m q n :
  n_mail n !! c = Some (m :: q) -> node_ok n ->
  node_ok (log (LReceived c m) (with_mail (<[c := q]> (n_mail n)) n)).
Proof.
  intros Hq Hn. apply (node_ok_log (LReceived c m)) in Hn as [H1 H2 H3]; [|done].
  split; simpl in *; [done| |done]. intros c' m'.
  destruct (decide (c = c')) as [<-|Hne]; [rewrite lookup_insert_eq|rewrite lookup_insert_ne by done; eauto].
  simpl. intros Hin. apply H2. rewrite Hq. by right.
Qed.

(** A call that leaves the log, mailboxes, tasks and contexts as they are. *)
Lemma quiet_call_ok (P : Prop) l n l' n' :
  node_ok n -> ctxs_ok (n_log n) l -> P ->
  n_log n' = n_log n -> n_mail n' = n_mail n -> n_tasks n' = n_tasks n -> l_ctxs l' = l_ctxs l ->
  node_ok n' /\ n_log n `prefix_of` n_log n' /\ ctxs_ok (n_log n') l' /\ P.
Proof.
  intros Hn Hl HP El Em Et Ec. split_and!; [by eapply node_ok_same|by rewrite El| |done].
  unfold ctxs_ok. by rewrite El, Ec.
Qed.

Ltac quiet :=
  match goal with
  | |- node_ok ?n' /\ _ => eapply (quiet_call_ok _ _ _ _ n'); try done
  end.

Lemma do_call_ok {X} (c : call W M X) l n x l' n' :
  node_ok n -> ctxs_ok (n_log n) l -> call_ok (n_log n) c ->
  do_call bare_uint code c l n = Some (x, l', n') ->
  node_ok n' /\ n_log n `prefix_of` n_log n' /\ ctxs_ok (n_log n') l' /\ call_res (n_log n') c x.
Proof.
  intros Hn Hl Hc. destruct c; simpl; intros E; simpl in *.
  - simplify_eq. quiet. intros ctx Hx.
    destruct (l_ctxs l' !! i) as [o|] eqn:Ei; simpl in Hx; [|done]. subst.
    eapply Hl, list_elem_of_lookup_2, Ei.
  - simplify_eq. split_and!; try done.
    intros ctx' [?|H%list_elem_of_singleton]%elem_of_app; [auto|by simplify_eq].
  - destruct (mjoin _) as [ctx|]; simplify_eq; [|quiet].
    rewrite drop_context_log. split_and!; try done; [by apply node_ok_drop|].
    intros ctx' [j Hj]%list_elem_of_lookup. apply list_lookup_insert_Some in Hj.
    destruct Hj as [(_ & ? & _) | [_ Hj]]; [done|]. eapply Hl, list_elem_of_lookup_2, Hj.
  - simplify_eq. quiet.
  - simplify_eq. quiet.
  - destruct (inbox_push m n) as [[b n1]|] eqn:Ei; simplify_option_eq.
    apply inbox_push_same in Ei as (? & ? & ?). quiet.
  - repeat case_match; simplify_option_eq; quiet.
  - destruct (is_open n c); simplify_option_eq; [|quiet].
    destruct Hc. split_and!; try done; [by apply node_ok_send|by eexists|].
    eapply ctxs_ok_mono; [|done]. by eexists.
  - simplify_eq. quiet.
  - destruct (n_mail n !! c_receiver ctx) as [[|m q]|] eqn:Eq;
      [destruct (has_sender _ _ _); simplify_eq; quiet| |
       destruct (has_sender _ _ _); simplify_eq; quiet].
    simplify_eq.
    assert (Hp : n_log n `prefix_of` n_log n ++ [LReceived (c_receiver ctx) m]) by by eexists.
    split_and!; [by apply node_ok_recv|done|by eapply ctxs_ok_mono|].
    intros m' [= <-]. eapply was_sent_mono; [exact Hp|]. apply Hn. rewrite Eq. by left.
  - simplify_eq. quiet.
  - simplify_eq. assert (Hp : forall e, n_log n `prefix_of` n_log n ++ [e]) by by eexists.
    split_and!; [by apply node_ok_log, (node_ok_same n)|apply Hp|exact (ctxs_ok_mono _ _ _ (Hp _) Hl)|].
    apply elem_of_app. right. by left.
  - simplify_eq. split_and!; try done. apply node_ok_spawn; [by apply worker_run_safe| |done].
    intros ctx' [= ->]%list_elem_of_singleton. done.
  - simplify_eq. split_and!; try done. apply node_ok_spawn; [by apply processor_run_safe| |done].
    intros ctx' [= ->]%list_elem_of_singleton. done.
  - simplify_eq. assert (Hp : forall e, n_log n `prefix_of` n_log n ++ [e]) by by eexists.
    split_and!; [by apply node_ok_log|apply Hp|exact (ctxs_ok_mono _ _ _ (Hp _) Hl)|].
    apply elem_of_app. right. by left.
  - simplify_eq. quiet.
  - simplify_eq. quiet.
  - simplify_eq. quiet.
  - simplify_eq. assert (Hp : forall e, n_log n `prefix_of` n_log n ++ [e]) by by eexists.
    split_and!; [|apply Hp|exact (ctxs_ok_mono _ _ _ (Hp _) Hl)|done].
    apply node_ok_log; [|done]. apply (event_ok_mono (n_log n)); [apply Hp|done].
Qed.

Lemma cancel_ok l n l' n' :
  node_ok n -> cancel l n = (l', n') ->
  node_ok n' /\ n_log n' = n_log n /\ l_ctxs l' = l_ctxs l.
Proof. intros Hn [= <- <-]. rewrite close_all_log. auto using close_all_ok. Qed.

Lemma do_event_ok {Y} (d : event Y) l n y l' n' :
  node_ok n -> ctxs_ok (n_log n) l -> do_event d l n = Some (y, l', n') ->
  node_ok n' /\ n_log n' = n_log n /\ ctxs_ok (n_log n') l'.
Proof.
  intros Hn Hl. destruct d; simpl; [|by intros; simplify_eq].
  destruct (n_ctrl n !! c) as [[|s q]|] eqn:Eq.
  - case_match; [done|]. intros [= <- <- <-]. rewrite close_all_log. auto using close_all_ok.
  - intros [= <- <- <-]. rewrite close_all_log. split_and!; try done.
    by apply close_all_ok, (node_ok_same n).
  - case_match; [done|]. intros [= <- <- <-]. rewrite close_all_log. auto using close_all_ok.
Qed.

Lemma pstep_ok {A} (p : task_prog W M A) : forall depth l n Q p' l' n',
  mono Q -> node_ok n -> ctxs_ok (n_log n) l -> psafe p (n_log n) Q ->
  pstep bare_uint code depth p l n = Some (p', l', n') ->
  node_ok n' /\ n_log n `prefix_of` n_log n' /\ ctxs_ok (n_log n') l' /\ psafe p' (n_log n') Q.
Proof.
  induction p as [A a|A|A X c k IH|A X Y x body IHb k IHk|A X Y q IHq d k IHk];
    intros depth l n Q p' l' n' HQ Hn Hl Hp; simpl; intros E; try done.
  - destruct (do_call _ _ c l n) as [[[x l1] n1]|] eqn:Ec; simplify_option_eq.
    destruct Hp as [Hc Hk]. apply do_call_ok in Ec as (? & ? & ? & ?); [|done..]. auto.
  - simplify_eq. split_and!; try done. apply psafe_bind.
    eapply psafe_weaken; [|by apply Hp]. simpl. intros lg' [x'|y] Hl' Hr; [|done].
    simpl. intros lg'' x'' Hl''. apply Hp. by etrans.
  - destruct Hp as [Hq Hk].
    assert (Hev : forall d' : event Y,
      ('(y, l, n) ← do_event d' l n; Some (k (inr y), l, n)) = Some (p', l', n') ->
      node_ok n' /\ n_log n `prefix_of` n_log n' /\ ctxs_ok (n_log n') l' /\ psafe p' (n_log n') Q).
    { intros d' E'. destruct (do_event d' l n) as [[[y l1] n1]|] eqn:Ed; simplify_option_eq.
      apply do_event_ok in Ed as (? & E1 & ?); [|done..]. rewrite E1 in *. auto. }
    assert (Hst : forall depth',
      ('(q, l, n) ← pstep bare_uint code depth' q l n; Some (PSelect q d k, l, n))
        = Some (p', l', n') ->
      node_ok n' /\ n_log n `prefix_of` n_log n' /\ ctxs_ok (n_log n') l' /\ psafe p' (n_log n') Q).
    { intros depth' E'.
      destruct (pstep _ _ depth' q l n) as [[[q' l1] n1]|] eqn:Ed; simplify_option_eq.
      eapply IHq in Ed as (? & ? & ? & ?); [|..|exact Hq]; [| |done..].
      - split_and!; try done. intros lg' y Hl'. apply Hk. by etrans.
      - intros ?????. by eapply psafe_mono. }
    destruct depth as [[|depth]|]; [by eapply Hev|..]; destruct q; simplify_eq; eauto.
Qed.

(** *** Steps *)

Lemma deliver_ok e n n' :
  deliver e n = Some n' -> node_ok n -> node_ok n' /\ n_log n `prefix_of` n_log n'.
Proof.
  intros E Hn. destruct e; simplify_option_eq; cycle 2.
  { split; [|by exists [LCounted count]]. by apply node_ok_log, (node_ok_same n). }
  all: split; [by apply (node_ok_same n)|done].
Qed.

Lemma deliver_all_ok es n n' : deliver_all es n = Some n' -> node_ok n -> node_ok n'.
Proof.
  revert n. induction es as [|e es IH]; simpl; intros n E Hn; [by simplify_eq|].
  destruct (deliver e n) as [n1|] eqn:Ed; [|done].
  apply deliver_ok in Ed as [? _]; [|done]. by apply (IH n1).
Qed.

Lemma node_step_ok ch n n' : node_step bare_uint code ch n = Some n' -> node_ok n -> node_ok n'.
Proof.
  intros E Hn. destruct ch as [|i depth|i]; simpl in E.
  - unfold router_step in E. destruct (n_inbox n) as [|msg inbox]; [done|].
    destruct (r_receiver _); [|done]. destruct (handle_msg _ _ _) as [r s].
    destruct (deliver_all _ _) as [n1|] eqn:Ed; simplify_option_eq.
    apply deliver_all_ok in Ed; [|by apply (node_ok_same n)].
    repeat case_match; simplify_eq; try done; by apply (node_ok_same n1).
  - unfold task_step in E. destruct (n_tasks n !! i) as [t|] eqn:Et; [|done].
    destruct (ok_tasks _ Hn _ _ Et) as [Hp Hc].
    assert (Hn1 : node_ok (with_tasks (delete i (n_tasks n)) n)).
    { destruct Hn as [? ? Hts]. split; simpl; [done..|].
      intros j t' [_ ?]%lookup_delete_Some. eauto. }
    assert (Hst : ('(p, l, n) ← pstep bare_uint code depth (t_prog t) (t_local t)
                      (with_tasks (delete i (n_tasks n)) n);
                   Some (with_tasks (<[i := mkTask l p]> (n_tasks n)) n)) = Some n' -> node_ok n').
    { clear E. intros E. destruct (pstep _ _ _ _ _ _) as [[[p l] n1]|] eqn:Ep; simplify_option_eq.
      apply pstep_ok with (Q := any) in Ep as (? & ? & ? & ?); try done.
      by apply node_ok_task. }
    destruct (t_prog t); [| |by apply Hst..]; simplify_eq; by apply drop_local_ok.
  - unfold timer_step in E. destruct (n_timers n !! i); [|done].
    destruct (inbox_push _ n) as [[b n1]|] eqn:Ei; simplify_option_eq.
    apply inbox_push_same in Ei as (? & ? & ?). by apply (node_ok_same n).
Qed.

Lemma run_node_ok sched n n' : run_node bare_uint code sched n = Some n' -> node_ok n -> node_ok n'.
Proof.
  revert n. induction sched as [|ch sched IH]; simpl; intros n E Hn; [by simplify_eq|].
  destruct (node_step _ _ ch n) as [n1|] eqn:Es; simplify_option_eq.
  eapply IH; [done|]. by eapply node_step_ok.
Qed.

Lemma node_build_ok w main : node_ok (node_build bare_uint w main).
Proof.
  split; simpl.
  - intros e ->%list_elem_of_singleton. done.
  - intros c m. by rewrite lookup_empty, elem_of_nil.
  - intros i t [<- <-]%lookup_singleton_Some. split; [apply run_user_safe|].
    intros ctx [= ->]%list_elem_of_singleton. by left.
Qed.
End Invariant.

(** ** When access was checked *)

Section Checked.
Context {W M : Type} (bare_uint : Z -> bytes) (code : WorkerCode W M).
Implicit Types n : node W M.

(** The flow controls that the contexts of a node share. *)
Definition shared_flows n : FlowControls := flow_controls (r_map (n_router n)).

(** What is newly checked is checked against the current flow controls. *)
Definition checks_current n n' : Prop :=
  forall fc, LChecked fc ∈ n_log n' -> LChecked fc ∈ n_log n \/ fc = shared_flows n.

Lemma checks_same n n' : n_log n' = n_log n -> checks_current n n'.
Proof. intros E fc. rewrite E. auto. Qed.

Lemma checks_log e n n' :
  (forall fc, e = LChecked fc -> fc = shared_flows n) -> n_log n' = n_log n ++ [e] ->
  checks_current n n'.
Proof.
  intros He E fc. rewrite E. intros [?|<-%list_elem_of_singleton]%elem_of_app; [auto|].
  right. by apply He.
Qed.

Lemma do_call_checks {X} (c : call W M X) l n x l' n' :
  do_call bare_uint code c l n = Some (x, l', n') -> checks_current n n'.
Proof.
  destruct c; simpl; intros E;
    repeat first [ progress simplify_option_eq | case_match ];
    first
      [ by apply checks_same
      | by eapply checks_log; [|reflexivity]; intros fc [=]
      | by apply checks_same, drop_context_log
      | match goal with H : inbox_push _ _ = _ |- _ => apply inbox_push_same in H as (? & _ & _) end;
        by apply checks_same ].
Qed.

Lemma pstep_checks {A} (p : task_prog W M A) : forall depth l n p' l' n',
  pstep bare_uint code depth p l n = Some (p', l', n') -> checks_current n n'.
Proof.
  assert (forall Y (d : event Y) l n y l' n', do_event d l n = Some (y, l', n') -> checks_current n n').
  { intros Y d l n y l' n' E. apply checks_same. destruct d; simpl in E; [|by simplify_eq].
    repeat case_match; simplify_eq; by rewrite close_all_log. }
  induction p as [A a|A|A X c k IH|A X Y x body IHb k IHk|A X Y q IHq d k IHk];
    intros depth l n p' l' n' E; simpl in E; try done.
  - destruct (do_call _ _ c l n) as [[[x l1] n1]|] eqn:Ec; simplify_option_eq.
    by eapply do_call_checks.
  - simplify_eq. by apply checks_same.
  - assert (forall depth',
      ('(q, l, n) ← pstep bare_uint code depth' q l n; Some (PSelect q d k, l, n))
        = Some (p', l', n') -> checks_current n n').
    { intros depth' E'. destruct (pstep _ _ depth' q l n) as [[[q' l1] n1]|] eqn:Ed;
        simplify_option_eq. by eapply IHq. }
    assert (('(y, l, n) ← do_event d l n; Some (k (inr y), l, n)) = Some (p', l', n') ->
      checks_current n n').
    { intros E'. destruct (do_event d l n) as [[[y l1] n1]|] eqn:Ed; simplify_option_eq. eauto. }
    destruct depth as [[|depth]|]; [by auto|..]; destruct q; simplify_eq; eauto using checks_same.
Qed.

Lemma drop_local_log l n : n_log (drop_local l n) = n_log n.
Proof.
  unfold drop_local. rewrite <-(close_all_log (l_replies l) n).
  generalize (foldl (fun n c => close c n) n (l_replies l)). generalize (omap id (l_ctxs l)).
  intros ctxs. induction ctxs as [|ctx ctxs IH]; intros n'; simpl; [done|].
  by rewrite IH, drop_context_log.
Qed.

Lemma deliver_all_checked es n n' fc :
  deliver_all es n = Some n' -> LChecked fc ∈ n_log n' -> LChecked fc ∈ n_log n.
Proof.
  revert n. induction es as [|e es IH]; simpl; intros n E H; [by simplify_eq|].
  destruct (deliver e n) as [n1|] eqn:Ed; simplify_option_eq. apply (IH n1 E) in H.
  destruct e; simplify_option_eq; try done.
  apply elem_of_app in H as [?|H%list_elem_of_singleton]; [done | discriminate H].
Qed.

Lemma node_step_checks ch n n' :
  node_step bare_uint code ch n = Some n' -> checks_current n n'.
Proof.
  intros E. destruct ch as [|i depth|i]; simpl in E.
  - intros fc H. left. unfold router_step in E. destruct (n_inbox n) as [|msg inbox]; [done|].
    destruct (r_receiver _); [|done]. destruct (handle_msg _ _ _) as [r s].
    destruct (deliver_all _ _) as [n1|] eqn:Ed; simplify_option_eq.
    apply (deliver_all_checked _ _ _ fc) in Ed; [done|].
    repeat case_match; by simplify_eq.
  - unfold task_step in E. destruct (n_tasks n !! i) as [t|] eqn:Et; [|done].
    assert (Hst : ('(p, l, n) ← pstep bare_uint code depth (t_prog t) (t_local t)
                      (with_tasks (delete i (n_tasks n)) n);
                   Some (with_tasks (<[i := mkTask l p]> (n_tasks n)) n)) = Some n' ->
                  checks_current n n').
    { clear E. intros E. destruct (pstep _ _ _ _ _ _) as [[[p l] n1]|] eqn:Ep; simplify_option_eq.
      exact (pstep_checks _ _ _ _ _ _ _ Ep). }
    destruct (t_prog t); [| |by apply Hst..]; simplify_eq; apply checks_same; by rewrite drop_local_log.
  - unfold timer_step in E. destruct (n_timers n !! i); [|done].
    destruct (inbox_push _ n) as [[b n1]|] eqn:Ei; simplify_option_eq.
    apply inbox_push_same in Ei as (? & _ & _). by apply checks_same.
Qed.

(** Every check of a run was made with the flow controls that the node had at
    that point of the run. *)
Lemma run_node_checked sched n n' fc :
  run_node bare_uint code sched n = Some n' -> LChecked fc ∈ n_log n' ->
  LChecked fc ∈ n_log n \/
  exists before n1, before `prefix_of` sched /\ run_node bare_uint code before n = Some n1 /\
    fc = shared_flows n1.
Proof.
  revert n. induction sched as [|ch sched IH]; simpl; intros n E H; [simplify_eq; by left|].
  destruct (node_step _ _ ch n) as [n1|] eqn:Es; simplify_option_eq.
  destruct (IH n1 E H) as [H1 | (before & n2 & Hb & E2 & ->)].
  - apply (node_step_checks ch n n1 Es) in H1 as [?| ->]; [by left|]. right.
    exists [], n. split_and!; [apply prefix_nil | done | done].
  - right. exists (ch :: before), n2. split_and!; [by apply prefix_cons | | done].
    simpl. by rewrite Es.
Qed.

(** The node at some earlier point of a run. *)
Definition earlier w main sched n1 : Prop :=
  exists before, before `prefix_of` sched /\
    run_node bare_uint code before (node_build bare_uint w main) = Some n1.

Lemma checked_earlier w main sched n fc :
  run_node bare_uint code sched (node_build bare_uint w main) = Some n -> LChecked fc ∈ n_log n ->
  exists n1, earlier w main sched n1 /\ fc = shared_flows n1.
Proof.
  intros Hr Hfc. destruct (run_node_checked _ _ _ _ Hr Hfc) as [H | (b & n1 & Hb & E & ->)].
  - simpl in H. apply list_elem_of_singleton in H. discriminate H.
  - exists n1. split; [by exists b | done].
Qed.

(** What the log tells about a message that was handled. *)
Lemma handled_event w main sched n ctx m :
  run_node bare_uint code sched (node_build bare_uint w main) = Some n ->
  LHandled ctx m ∈ n_log n ->
  (known (n_log n) ctx /\ may_handle (n_log n) ctx m) /\
  exists from, known (n_log n) from /\ LSent from (c_receiver ctx) m ∈ n_log n /\
    may_send (n_log n) from m.
Proof.
  intros Hr Hh. apply run_node_ok in Hr; [|apply node_build_ok].
  destruct (ok_log _ Hr _ Hh) as (Hk & Ha & from & Hs).
  destruct (ok_log _ Hr _ Hs) as [Hkf Hsf]. split; [done|]. by exists from.
Qed.
End Checked.

(** C9: whatever the code of the application and its workers does and however
    its tasks are scheduled: a message that a worker handles was sent to it by
    a context that owns the source address of the message ([src_addr] is the
    true sender), the outgoing access control of that context allowed it, the
    destination is an address of the worker, and the incoming access control of
    the worker allowed it; both decided with the flow controls that the node
    had at some earlier point of the run. *)
Theorem handled_messages_are_authorized {W M} (bare_uint : Z -> bytes) (code : WorkerCode W M)
    (w : W) (main : user_prog W M unit) sched n ctx m :
  run_node bare_uint code sched (node_build bare_uint w main) = Some n ->
  LHandled ctx m ∈ n_log n ->
  let earlier n1 := earlier bare_uint code w main sched n1 in
  (exists from n1, LContext from ∈ n_log n /\ LSent from (c_receiver ctx) m ∈ n_log n /\
     rm_source m ∈ ctx_addresses from /\ earlier n1 /\
     Mailboxes_is_outgoing_authorized (now (shared_flows n1) (c_mailboxes from)) m = Ok true) /\
  (exists n1, LContext ctx ∈ n_log n /\ rm_destination m ∈ ctx_addresses ctx /\ earlier n1 /\
     Mailboxes_is_incoming_authorized (now (shared_flows n1) (c_mailboxes ctx)) m = Ok true).
Proof.
  intros Hr Hh before. destruct (handled_event _ _ _ _ _ _ _ _ Hr Hh) as (Hi & from & Ho).
  destruct Ho as (Hkf & Hs & Hsf & fc' & Hcf & Hf). destruct Hi as (Hk & Hd & fc & Hcd & Ha).
  destruct (checked_earlier _ _ _ _ _ _ _ Hr Hcf) as (n1 & He1 & ->).
  destruct (checked_earlier _ _ _ _ _ _ _ Hr Hcd) as (n2 & He2 & ->).
  split; [by exists from, n1 | by exists n2].
Qed.
