(* ===== verification/NodeSend.v ===== *)
(** * What sending does, and what a rejected worker does

    [solo] runs the program of one task with the router only: the scheduler
    gives the other tasks no turn.  Such runs are runs of the node
    ([solo_run]).  With them the outcome of [send_from_address_impl] is given
    on every branch, and what happens after the router has rejected a worker. *)

From Stdlib Require Import ZArith Lia FunctionalExtensionality.
From Stdlib Require Strings.Byte Strings.String.
From stdpp Require Import base gmap fin_maps fin_map_dom list numbers option countable.
From S2P Require Import Prelude RustStr Routing AccessControl FlowControl Router Node.

Section Solo.
Context {W M : Type} (bare_uint : Z -> bytes) (code : WorkerCode W M).
Implicit Types n : node W M.
Implicit Types l : local W.

(** [n] is the node without the task that runs. *)
Inductive solo {A} : task_prog W M A -> local W -> node W M ->
    task_prog W M A -> local W -> node W M -> Prop :=
| solo_end p l n : solo p l n p l n
| solo_task p l n p1 l1 n1 p2 l2 n2 :
    pstep bare_uint code None p l n = Some (p1, l1, n1) -> solo p1 l1 n1 p2 l2 n2 ->
    solo p l n p2 l2 n2
| solo_router p l n n1 p2 l2 n2 :
    router_step n = Some n1 -> solo p l n1 p2 l2 n2 -> solo p l n p2 l2 n2.

Lemma solo_trans {A} (p : task_prog W M A) l n p1 l1 n1 p2 l2 n2 :
  solo p l n p1 l1 n1 -> solo p1 l1 n1 p2 l2 n2 -> solo p l n p2 l2 n2.
Proof. induction 1; eauto using @solo. Qed.

Lemma pbind_assoc {C D A B E} (p : prog C D A) (f : A -> prog C D B) (g : B -> prog C D E) :
  pbind (pbind p f) g = pbind p (fun a => pbind (f a) g).
Proof.
  induction p; simpl; f_equal; try done; by apply functional_extensionality.
Qed.

Lemma pstep_bind {A B} (p : task_prog W M A) (f : A -> task_prog W M B) l n p1 l1 n1 :
  pstep bare_uint code None p l n = Some (p1, l1, n1) ->
  pstep bare_uint code None (pbind p f) l n = Some (pbind p1 f, l1, n1).
Proof.
  destruct p as [a| |X c k|X Y x body k|X Y q d k]; simpl; try done.
  - destruct (do_call _ _ c l n) as [[[x l2] n2]|]; intros; by simplify_option_eq.
  - intros [= <- <- <-]. unfold unfold_loop. rewrite pbind_assoc. do 4 f_equal.
    apply functional_extensionality. by intros [].
  - destruct q; intros E; simplify_eq; try done;
      destruct (pstep _ _ _ _ l n) as [[[q' l2] n2]|]; by simplify_option_eq.
Qed.

Lemma solo_bind {A B} (p : task_prog W M A) (f : A -> task_prog W M B) l n p1 l1 n1 :
  solo p l n p1 l1 n1 -> solo (pbind p f) l n (pbind p1 f) l1 n1.
Proof.
  induction 1; [apply solo_end|eapply solo_task; eauto using pstep_bind|by eapply solo_router].
Qed.

(** A program that returns, then what follows. *)
Lemma solo_then {A B} (p : task_prog W M A) (f : A -> task_prog W M B) l n a l1 n1 p2 l2 n2 :
  solo p l n (PRet a) l1 n1 -> solo (f a) l1 n1 p2 l2 n2 -> solo (pbind p f) l n p2 l2 n2.
Proof. intros H1 H2. apply (solo_bind _ f) in H1. by eapply solo_trans. Qed.

Lemma solo_try_ok {A B} (p : ctx_prog W M A) (f : A -> ctx_prog W M B) l n a l1 n1 p2 l2 n2 :
  solo p l n (PRet (Ok a)) l1 n1 -> solo (f a) l1 n1 p2 l2 n2 -> solo (ptry p f) l n p2 l2 n2.
Proof. intros. by eapply solo_then. Qed.

Lemma solo_try_err {A B} (p : ctx_prog W M A) (f : A -> ctx_prog W M B) l n e l1 n1 :
  solo p l n (PRet (Err e)) l1 n1 -> solo (ptry p f) l n (PRet (Err e)) l1 n1.
Proof. intros. eapply solo_then; [done|]. apply solo_end. Qed.

Lemma solo_call {X A} (c : call W M X) (k : X -> task_prog W M A) l n x l1 n1 p2 l2 n2 :
  do_call bare_uint code c l n = Some (x, l1, n1) -> solo (k x) l1 n1 p2 l2 n2 ->
  solo (PCall c k) l n p2 l2 n2.
Proof. intros Hc. apply solo_task. simpl. by rewrite Hc. Qed.

(** *** Solo runs are runs of the node *)

Definition insert_task (i : nat) l (p : task_prog W M unit) n : node W M :=
  with_tasks (<[i := mkTask l p]> (n_tasks n)) n.

Lemma deliver_tasks e n n' ts :
  deliver e n = Some n' -> deliver e (with_tasks ts n) = Some (with_tasks ts n').
Proof. destruct e; intros; simplify_option_eq; done. Qed.

Lemma deliver_same e n n' : deliver e n = Some n' -> n_tasks n' = n_tasks n /\ n_next n' = n_next n.
Proof. destruct e; intros; by simplify_option_eq. Qed.

Lemma deliver_all_tasks es n n' ts :
  deliver_all es n = Some n' -> deliver_all es (with_tasks ts n) = Some (with_tasks ts n').
Proof.
  revert n. induction es as [|e es IH]; simpl; intros n E; [by simplify_eq|].
  destruct (deliver e n) as [n1|] eqn:Ed; [|done]. erewrite deliver_tasks by done. simpl. auto.
Qed.

Lemma deliver_all_same es n n' :
  deliver_all es n = Some n' -> n_tasks n' = n_tasks n /\ n_next n' = n_next n.
Proof.
  revert n. induction es as [|e es IH]; simpl; intros n E; [by simplify_eq|].
  destruct (deliver e n) as [n1|] eqn:Ed; [|done]. apply deliver_same in Ed as [<- <-]. auto.
Qed.

Lemma router_step_tasks n n' ts :
  router_step n = Some n' -> router_step (with_tasks ts n) = Some (with_tasks ts n').
Proof.
  unfold router_step. simpl. destruct (n_inbox n) as [|msg inbox]; [done|].
  destruct (r_receiver _); [|done].
  change (is_open (with_tasks ts n)) with (is_open n).
  destruct (handle_msg _ _ _) as [r s].
  destruct (deliver_all _ _) as [n1|] eqn:Ed; [|done]. simpl.
  apply (deliver_all_tasks _ _ _ ts) in Ed.
  change (with_router (rs_router s) (with_inbox inbox (with_tasks ts n)))
    with (with_tasks ts (with_router (rs_router s) (with_inbox inbox n))).
  rewrite Ed. simpl. destruct r as [[]| |]; intros; by simplify_eq.
Qed.

Lemma router_step_same n n' :
  router_step n = Some n' -> n_tasks n' = n_tasks n /\ n_next n' = n_next n.
Proof.
  unfold router_step. destruct (n_inbox n) as [|msg inbox]; [done|].
  destruct (r_receiver _); [|done]. destruct (handle_msg _ _ _) as [r s].
  destruct (deliver_all _ _) as [n1|] eqn:Ed; [|done]. simpl.
  apply deliver_all_same in Ed. destruct r as [[]| |]; intros; by simplify_eq.
Qed.

Lemma drop_context_fresh w ctx n i :
  i < n_next n -> n_tasks n !! i = None ->
  i < n_next (drop_context w ctx n) /\ n_tasks (drop_context w ctx n) !! i = None.
Proof.
  intros Hi Hn. unfold drop_context. destruct (c_detached ctx); [|done]. simpl.
  rewrite lookup_insert_ne by lia. split; [lia|done].
Qed.

Lemma do_call_fresh {X} (c : call W M X) l n x l' n' i :
  do_call bare_uint code c l n = Some (x, l', n') -> i < n_next n -> n_tasks n !! i = None ->
  i < n_next n' /\ n_tasks n' !! i = None.
Proof.
  intros E Hi Hn. destruct c; simpl in E; unfold inbox_push in E;
    repeat (case_match || simplify_option_eq); simpl;
    try rewrite lookup_insert_ne by lia; try (split; [lia|done]);
    by apply drop_context_fresh.
Qed.

Lemma pstep_fresh {A} (p : task_prog W M A) : forall l n p' l' n' i,
  pstep bare_uint code None p l n = Some (p', l', n') -> i < n_next n -> n_tasks n !! i = None ->
  i < n_next n' /\ n_tasks n' !! i = None.
Proof.
  induction p as [A a|A|A X c k IH|A X Y x body IHb k IHk|A X Y q IHq d k IHk];
    intros l n p' l' n' i E Hi Hn; simpl in E; try done.
  - destruct (do_call _ _ c l n) as [[[x l1] n1]|] eqn:Ec; simplify_option_eq.
    by eapply do_call_fresh.
  - by simplify_eq.
  - assert (Hst : ('(q, l, n) ← pstep bare_uint code None q l n; Some (PSelect q d k, l, n))
                    = Some (p', l', n') -> i < n_next n' /\ n_tasks n' !! i = None).
    { intros E'. destruct (pstep _ _ None q l n) as [[[q' l1] n1]|] eqn:Ed; simplify_option_eq.
      by eapply IHq. }
    destruct q; simplify_eq; eauto.
Qed.

Lemma with_tasks_id n : with_tasks (n_tasks n) n = n.
Proof. by destruct n. Qed.

Lemma insert_task_step i l p n p' l' n' :
  n_tasks n !! i = None -> pstep bare_uint code None p l n = Some (p', l', n') ->
  task_step bare_uint code i None (insert_task i l p n) = Some (insert_task i l' p' n').
Proof.
  intros Hn Hp. unfold task_step. change (n_tasks (insert_task i l p n)) with (<[i := mkTask l p]> (n_tasks n)).
  rewrite lookup_insert_eq, delete_insert_id by done. cbn [t_prog t_local].
  change (with_tasks (n_tasks n) (insert_task i l p n)) with (with_tasks (n_tasks n) n).
  rewrite with_tasks_id. destruct p; [done|done|rewrite Hp; done..].
Qed.

(** A task that runs alone. *)
Lemma solo_run p l n p' l' n' i :
  solo p l n p' l' n' -> i < n_next n -> n_tasks n !! i = None ->
  exists sched, run_node bare_uint code sched (insert_task i l p n) = Some (insert_task i l' p' n').
Proof.
  induction 1 as [p l n|p l n p1 l1 n1 p2 l2 n2 Hs _ IH|p l n n1 p2 l2 n2 Hs _ IH]; intros Hi Hn.
  - by exists [].
  - destruct (pstep_fresh _ _ _ _ _ _ i Hs Hi Hn) as [Hi1 Hn1].
    destruct (IH Hi1 Hn1) as [sched Hr]. exists (RunTask i None :: sched). simpl.
    erewrite insert_task_step by done. done.
  - destruct (router_step_same _ _ Hs) as [Et En]. rewrite <- Et in Hn. rewrite <- En in Hi.
    destruct (IH Hi Hn) as [sched Hr]. exists (RunRouter :: sched). simpl.
    unfold insert_task at 1. erewrite router_step_tasks by done. simpl.
    unfold insert_task in Hr. by rewrite Et in Hr.
Qed.

(** ** Sending *)

(** The router waits, and the next channel is new. *)
Definition idle n : Prop :=
  n_inbox n = [] /\ r_receiver (n_router n) = true /\
  n_next n ∉ n_closed n /\ n_replies n !! n_next n = None /\
  map_Forall (fun _ rec => ar_sender rec <> Some (n_next n))
    (address_records_map (r_map (n_router n))).

(** What the router answers to a [SenderReq] for a local address. *)
Definition directory_entry (m : InternalMap) (a : Address) : result node_error chan :=
  match get_primary_address a m ≫= fun p => get_address_record p m with
  | None => Err (not_found (NodeError_Address a))
  | Some rec =>
      match ar_state rec, ar_sender rec with
      | Running, Some sender => Ok sender
      | _, _ => Err (conflict (NodeError_WorkerState WorkerReason_Shutdown))
      end
  end.

Definition entry_reply (a : Address) (r : result node_error chan) : NodeReplyResult :=
  let? sender := r in Ok (ReplySender a sender).

Lemma handle_sender_req is_open r a c :
  TransportType_is_local (a_tt a) = true -> is_open c = true ->
  exists counts, Forall (fun e => exists k, e = CountMessage k) counts /\
  handle_msg is_open (SenderReq a c) (mkRState r []) =
    (Ok false, mkRState r (counts ++ [Reply c (entry_reply a (directory_entry (r_map r) a))])).
Proof.
  intros Ha Hc. unfold handle_msg, determine_type. rewrite Ha.
  unfold directory_entry, resolve, get_map, sbind, AddressRecord_check, send. cbn [rs_router]. rewrite Hc.
  destruct (get_primary_address a (r_map r)) as [p|]; [|by exists []]. simpl.
  destruct (get_address_record p (r_map r)) as [rec|]; [|by exists []].
  destruct (ar_state rec), (ar_sender rec) as [s|]; try by exists [].
  destruct (msg_count rec) as [k|]; [exists [CountMessage k]|by exists []].
  split; [|done]. constructor; [by eexists|done].
Qed.

Lemma router_step_quiet n msg inbox s n1 :
  n_inbox n = msg :: inbox -> r_receiver (n_router n) = true ->
  handle_msg (is_open n) msg (mkRState (n_router n) []) = (Ok false, s) ->
  deliver_all (rs_out s) (with_router (rs_router s) (with_inbox inbox n)) = Some n1 ->
  router_step n = Some n1.
Proof. intros Hi Hr Hh Hd. unfold router_step. by rewrite Hi, Hr, Hh, Hd. Qed.

(** What a request leaves. *)
Definition answered n n2 : Prop :=
  n_router n2 = n_router n /\ n_mail n2 = n_mail n /\ n_inbox n2 = [] /\
  n_closed n2 = {[n_next n]} ∪ n_closed n /\ n_tasks n2 = n_tasks n.

Lemma deliver_counts counts n :
  Forall (fun e => exists k, e = CountMessage k) counts ->
  exists n2, (forall es, deliver_all (counts ++ es) n = deliver_all es n2) /\
    n_router n2 = n_router n /\ n_mail n2 = n_mail n /\ n_inbox n2 = n_inbox n /\
    n_closed n2 = n_closed n /\ n_tasks n2 = n_tasks n /\ n_replies n2 = n_replies n.
Proof.
  intros H. revert n. induction H as [|e es [k ->] _ IH]; intros n; [by exists n|].
  destruct (IH (log (LCounted k)
    (with_counts (<[k := usize_wrap (default 0%Z (n_counts n !! k) + 1)]> (n_counts n)) n)))
    as (n2 & Hd & ?).
  exists n2. simpl. split; [|done]. intros. apply Hd.
Qed.

Lemma sender_request_solo n l a :
  idle n -> TransportType_is_local (a_tt a) = true ->
  let r := entry_reply a (directory_entry (r_map (n_router n)) a) in
  exists n2, answered n n2 /\
    solo (router_request (SenderReq a)) l n
      (PRet (map_err CNode r)) (with_held (reply_sender r ++ l_held l) l) n2.
Proof.
  intros (Hin & Hrec & Hcl & Hrep & _) Ha r. set (c := n_next n) in *.
  set (n0 := with_inbox [SenderReq a c] (bump n)).
  destruct (handle_sender_req (is_open n0) (n_router n) a c)
    as (counts & Hcounts & Hh); [done|by apply bool_decide_eq_true_2|].
  destruct (deliver_counts counts (with_router (n_router n) (with_inbox [] n0)) Hcounts)
    as (n1 & Hd & Er & Em & Ei & Ec & Et & Erp).
  set (n2 := with_replies (<[c := [r]]> (n_replies n1)) n1).
  exists (close c (with_replies (<[c := []]> (n_replies n2)) n2)). split.
  { unfold answered. simpl in *. by rewrite Er, Em, Ei, Ec, Et. }
  eapply solo_call; [reflexivity|].
  eapply (solo_call _ _ _ _ true _ n0).
  { simpl. unfold inbox_push. simpl. rewrite Hrec, Hin. reflexivity. }
  eapply (solo_router _ _ _ n2).
  { eapply router_step_quiet; [reflexivity|done|exact Hh|]. cbn [rs_out rs_router]. rewrite Hd.
    simpl in *. rewrite Erp, Hrep. simpl. unfold n2. by rewrite Erp. }
  eapply solo_call; [simpl; rewrite lookup_insert_eq; reflexivity|].
  simpl. rewrite decide_True by done.
  destruct l. simpl. destruct r as [[]|e|]; apply solo_end.
Qed.

(** The outcome of [send_from_address_impl] when the router answers at once and
    the mailbox has room: the result, and the message that is put into a
    mailbox. *)
Inductive send_outcome n (ctx : Context) (route : Route) (payload : option bytes) (from : Address)
    (info : list LocalInfo) : cresult unit -> option (chan * RelayMessage) -> Prop :=
| send_not_owner :
    from ∉ ctx_addresses ctx ->
    send_outcome n ctx route payload from info (Err origin_invalid) None
| send_no_route :
    from ∈ ctx_addresses ctx -> route = [] ->
    send_outcome n ctx route payload from info (Err (CAccess (RouteErr IncompleteRoute))) None
| send_no_address a rest e :
    from ∈ ctx_addresses ctx -> route = a :: rest -> TransportType_is_local (a_tt a) = true ->
    directory_entry (r_map (n_router n)) a = Err e ->
    send_outcome n ctx route payload from info (Err (CNode e)) None
| send_no_encoding a rest sender :
    from ∈ ctx_addresses ctx -> route = a :: rest -> TransportType_is_local (a_tt a) = true ->
    directory_entry (r_map (n_router n)) a = Ok sender -> payload = None ->
    send_outcome n ctx route payload from info (Err (CNode (internal NodeError_Data))) None
| send_resolved a rest sender p m r d :
    from ∈ ctx_addresses ctx -> route = a :: rest -> TransportType_is_local (a_tt a) = true ->
    directory_entry (r_map (n_router n)) a = Ok sender -> payload = Some p ->
    m = mkRelayMessage from a (mkLocalMessage (TransportMessage_v1 route [from] p) info) ->
    match Mailboxes_is_outgoing_authorized
            (now (flow_controls (r_map (n_router n))) (c_mailboxes ctx)) m with
    | Ok true =>
        if decide (sender ∈ n_closed n) then r = Err (CNode from_send_err) /\ d = None
        else length (default [] (n_mail n !! sender)) < message_capacity /\
             r = Ok tt /\ d = Some (sender, m)
    | Ok false => r = Ok tt /\ d = None
    | Err e => r = Err (CAccess e) /\ d = None
    | Panic => False
    end ->
    send_outcome n ctx route payload from info r d.

Lemma directory_entry_old n a sender :
  idle n -> directory_entry (r_map (n_router n)) a = Ok sender -> sender <> n_next n.
Proof.
  intros (_ & _ & _ & _ & Hs) H ->. unfold directory_entry in H.
  destruct (get_primary_address a _) as [p|]; simpl in H; [|done].
  destruct (get_address_record p _) as [rec|] eqn:E; [|done].
  apply (Hs p rec E). by destruct (ar_state rec), (ar_sender rec); simplify_eq.
Qed.

(** What a delivery does to the mailboxes. *)
Definition deposit (d : option (chan * RelayMessage)) (mail : gmap chan (list RelayMessage))
  : gmap chan (list RelayMessage) :=
  match d with
  | Some (c, m) => <[c := default [] (mail !! c) ++ [m]]> mail
  | None => mail
  end.

Lemma drop_held sender l : with_held (remove_one sender (sender :: l_held l)) (with_held (sender :: l_held l) l) = l.
Proof. simpl. rewrite decide_True by done. by destruct l. Qed.

(** The end of a send, with the sender in hand. *)
Lemma send_authorized_solo ctx sender m l n r d :
  match Mailboxes_is_outgoing_authorized
          (now (flow_controls (r_map (n_router n))) (c_mailboxes ctx)) m with
  | Ok true =>
      if decide (sender ∈ n_closed n) then r = Err (CNode from_send_err) /\ d = None
      else length (default [] (n_mail n !! sender)) < message_capacity /\
           r = Ok tt /\ d = Some (sender, m)
  | Ok false => r = Ok tt /\ d = None
  | Err e => r = Err (CAccess e) /\ d = None
  | Panic => False
  end ->
  exists n2, solo (send_authorized ctx sender m) (with_held (sender :: l_held l) l) n (PRet r) l n2 /\
    n_router n2 = n_router n /\ n_mail n2 = deposit d (n_mail n).
Proof.
  intros H. unfold send_authorized. set (n1 := log (LChecked (flow_controls (r_map (n_router n)))) n).
  assert (Hdrop : forall (p : task_prog W M (cresult unit)) n2,
    solo (do _ <- pcall (SenderDrop sender); p) (with_held (sender :: l_held l) l) n2 p l n2).
  { intros p n2. eapply solo_call; [reflexivity|]. cbn [l_held with_held]. rewrite drop_held.
    apply solo_end. }
  assert (Hquiet : forall r', match map_err CAccess (Mailboxes_is_outgoing_authorized
        (now (flow_controls (r_map (n_router n))) (c_mailboxes ctx)) m) with
      | Ok true => False | Ok false => r' = Ok tt | Err e => r' = Err e | Panic => False end ->
    solo (send_authorized ctx sender m) (with_held (sender :: l_held l) l) n (PRet r') l n1).
  { intros r' Hr. eapply solo_call; [reflexivity|].
    destruct (Mailboxes_is_outgoing_authorized _ m) as [[]|e|]; simpl in Hr; subst; try done;
      apply Hdrop. }
  destruct (Mailboxes_is_outgoing_authorized _ m) as [[]|e|] eqn:E; try done.
  - case_decide as Hcl; destruct_and!; subst.
    + exists n1. split; [|done]. eapply solo_call; [reflexivity|]. rewrite E. simpl.
      eapply solo_call; [simpl; unfold is_open; simpl; rewrite bool_decide_eq_false_2 by tauto; reflexivity|].
      apply Hdrop.
    + exists (log (LSent ctx sender m)
                (with_mail (<[sender := default [] (n_mail n !! sender) ++ [m]]> (n_mail n)) n1)).
      split; [|done]. eapply solo_call; [reflexivity|]. rewrite E. simpl.
      eapply (solo_call _ _ _ _ true); [|apply Hdrop]. simpl. unfold is_open. simpl.
      rewrite bool_decide_eq_true_2, decide_True by done. reflexivity.
  - destruct H as [-> ->]. exists n1. split; [by apply Hquiet|done].
  - destruct H as [-> ->]. exists n1. split; [by apply Hquiet|done].
Qed.

Lemma send_solo ctx route payload from info l n r d :
  idle n -> send_outcome n ctx route payload from info r d ->
  exists n2, solo (send_from_address_impl ctx route payload from info) l n (PRet r) l n2 /\
    n_router n2 = n_router n /\ n_mail n2 = deposit d (n_mail n).
Proof.
  intros Hi Ho. unfold send_from_address_impl.
  assert (Hc : from ∈ ctx_addresses ctx ->
    Mailboxes_contains (now FlowControls_new (c_mailboxes ctx)) from = true)
    by by rewrite Mailboxes_contains_spec.
  assert (Hreq : forall a e, directory_entry (r_map (n_router n)) a = e ->
    TransportType_is_local (a_tt a) = true -> exists n2, answered n n2 /\
    solo (router_request (SenderReq a)) l n (PRet (map_err CNode (entry_reply a e)))
      (with_held (reply_sender (entry_reply a e) ++ l_held l) l) n2).
  { intros a e <- Ha. by apply sender_request_solo. }
  destruct Ho as [Hf|Hf ->|a rest e Hf -> Ha He|a rest sender Hf -> Ha He ->
                 |a rest sender p m r d Hf -> Ha He -> -> Hm].
  - exists n. split; [|done]. rewrite (proj2 (Mailboxes_contains_false _ _)); [apply solo_end|done].
  - exists n. split; [|done]. rewrite Hc by done. apply solo_end.
  - destruct (Hreq a _ He Ha) as (n2 & (Er & Em & _) & Hs). exists n2. split; [|done].
    rewrite Hc by done. eapply solo_try_ok; [apply solo_end|]. apply solo_try_err. by destruct l.
  - destruct (Hreq a _ He Ha) as (n2 & (Er & Em & _) & Hs). exists n2. split; [|done].
    rewrite Hc by done. eapply solo_try_ok; [apply solo_end|]. eapply solo_try_ok; [apply Hs|].
    eapply solo_call; [reflexivity|]. cbn [l_held with_held reply_sender entry_reply rbind app].
    rewrite drop_held. apply solo_end.
  - destruct (Hreq a _ He Ha) as (n2 & (Er & Em & _ & Ec & _) & Hs).
    pose proof (directory_entry_old _ _ _ Hi He) as Hne.
    destruct (send_authorized_solo ctx sender
      (mkRelayMessage from a (mkLocalMessage (TransportMessage_v1 (a :: rest) [from] p) info))
      l n2 r d) as (n3 & Hs3 & Er3 & Em3).
    { rewrite Er, Em. destruct (Mailboxes_is_outgoing_authorized _ _) as [[]| |]; try done.
      rewrite (decide_ext _ (sender ∈ n_closed n)); [done|]. rewrite Ec. set_solver. }
    exists n3. rewrite Er3, Em3, Er, Em. split; [|done].
    rewrite Hc by done. eapply solo_try_ok; [apply solo_end|]. eapply solo_try_ok; [apply Hs|].
    exact Hs3.
Qed.

(** ** A worker nobody can send to *)

Lemma free_address_removes p m : address_records_map (free_address p m) !! p = None.
Proof.
  unfold free_address, remove_address_record, set_stopping, set_records, set_flow_controls.
  cbn [address_records_map flow_controls alias_map cluster_order clusters stopping].
  destruct (address_records_map m !! p); apply lookup_delete_eq.
Qed.

(** The relay of a worker in its loop, and what follows. *)
Definition relay_running (ctx : Context) (ctrl_rx : chan) : task_prog W M unit :=
  do _ <- relay_loop bare_uint code ctx ctrl_rx; relay_end bare_uint code ctx.

(** A step of the first branch of a [select!]. *)
Lemma solo_select {A X Y} (q : task_prog W M X) (d : event Y) (k : X + Y -> task_prog W M A) l n q1 l1 n1 :
  solo q l n q1 l1 n1 -> solo (PSelect q d k) l n (PSelect q1 d k) l1 n1.
Proof.
  induction 1 as [q l n|q l n q1 l1 n1 q2 l2 n2 Hs _ IH|q l n n1 q2 l2 n2 Hs _ IH].
  - apply solo_end.
  - eapply solo_task; [|exact IH].
    change (pstep bare_uint code None (PSelect q d k) l n) with
      (match q with
       | PRet x => Some (k (inl x), l, n)
       | PPanic => Some (PPanic, l, n)
       | _ => '(q, l, n) ← pstep bare_uint code None q l n; Some (PSelect q d k, l, n)
       end).
    rewrite Hs. by destruct q.
  - by eapply solo_router.
Qed.

Lemma solo_select_ret {A X Y} (q : task_prog W M X) (d : event Y) (k : X + Y -> task_prog W M A) l n x l1 n1 :
  solo q l n (PRet x) l1 n1 -> solo (PSelect q d k) l n (k (inl x)) l1 n1.
Proof.
  intros Hq. eapply solo_trans; [by apply solo_select|]. eapply solo_task; [done|]. apply solo_end.
Qed.

Lemma solo_loop {A X Y} (x : X) (body : X -> task_prog W M (X + Y)) (k : Y -> task_prog W M A) l n y l1 n1 p2 l2 n2 :
  solo (body x) l n (PRet (inr y)) l1 n1 -> solo (k y) l1 n1 p2 l2 n2 ->
  solo (PLoop x body k) l n p2 l2 n2.
Proof.
  intros Hb Hk. eapply solo_task; [reflexivity|]. by eapply solo_then.
Qed.

Lemma relay_without_senders ctx ctrl_rx l n :
  w_shutdown code = PRet (Ok tt) ->
  default [] (n_mail n !! c_receiver ctx) = [] -> has_sender l n (c_receiver ctx) = false ->
  solo (relay_running ctx ctrl_rx) l n (do _ <- send_stop_ack ctx; PRet tt) l n.
Proof.
  intros Hsh Hm Hs. unfold relay_running. eapply solo_then.
  - eapply (solo_loop _ _ _ _ _ tt); [|apply solo_end].
    eapply solo_trans; [eapply (solo_select_ret _ _ _ _ _ (Ok false))|apply solo_end].
    eapply (solo_try_ok _ _ _ _ None); [|apply solo_end].
    eapply (solo_loop _ _ _ _ _ (Ok None)); [|apply solo_end].
    eapply (solo_call _ _ _ _ None); [|apply solo_end]. simpl.
    destruct (n_mail n !! c_receiver ctx) as [[|]|]; simpl in Hm; try done; by rewrite Hs.
  - unfold relay_end, logged. rewrite Hsh. apply solo_end.
Qed.
End Solo.

(** Sending from a context that does not own the sending address, along an
    empty route, to an address nobody has, or a message that cannot be encoded
    or that access control fails on is an error and delivers nothing; a message
    that is not authorized is dropped without an error; otherwise the message,
    with the sending address as its source and return route, is put at the end
    of the mailbox of the worker that has the next address. *)
Theorem send_outcomes {W M} (bare_uint : Z -> bytes) (code : WorkerCode W M) ctx route payload from
    info l (n : node W M) r d i (f : cresult unit -> task_prog W M unit) :
  idle n -> i < n_next n -> n_tasks n !! i = None ->
  send_outcome n ctx route payload from info r d ->
  exists sched n2,
    run_node bare_uint code sched
      (insert_task i l (pbind (send_from_address_impl ctx route payload from info) f) n) =
    Some (insert_task i l (f r) n2) /\
    n_router n2 = n_router n /\ n_mail n2 = deposit d (n_mail n).
Proof.
  intros Hi Hlt Hn Ho. destruct (send_solo bare_uint code _ _ _ _ _ l _ _ _ Hi Ho) as (n2 & Hs & He).
  apply (solo_bind _ _ _ f) in Hs. destruct (solo_run _ _ _ _ _ _ _ _ i Hs Hlt Hn) as [sched Hr].
  by exists sched, n2.
Qed.

(** Starting a worker at an address that is in use is an error, but the
    relay of the rejected worker runs already, finds that it has no senders and
    acknowledges its stop: the router takes this for a stop of the worker that
    has the address, and removes that one. *)
Theorem rejected_worker_removes_running_one {W M} (bare_uint : Z -> bytes) (code : WorkerCode W M)
    ctx ctrl_rx l (n : node W M) i rec :
  n_tasks n !! i = Some (mkTask l (relay_running bare_uint code ctx ctrl_rx)) -> i < n_next n ->
  w_shutdown code = PRet (Ok tt) ->
  default [] (n_mail n !! c_receiver ctx) = [] -> c_receiver ctx ∉ live_senders n ->
  n_inbox n = [] -> r_receiver (n_router n) = true -> r_state (n_router n) = NodeRunning ->
  address_records_map (r_map (n_router n)) !! ctx_address ctx = Some rec ->
  ar_sender rec <> Some (c_receiver ctx) ->
  exists sched n2, run_node bare_uint code sched n = Some n2 /\
    address_records_map (r_map (n_router n2)) !! ctx_address ctx = None.
Proof.
  intros Ht Hi Hsh Hm Hs Hin Hr Hst _ _. set (n0 := with_tasks (delete i (n_tasks n)) n).
  assert (En : insert_task i l (relay_running bare_uint code ctx ctrl_rx) n0 = n).
  { unfold insert_task, n0. simpl. rewrite insert_delete_id by done. by destruct n. }
  assert (Hs0 : has_sender l n0 (c_receiver ctx) = false).
  { unfold has_sender. apply orb_false_intro; apply bool_decide_eq_false_2; contradict Hs.
    - unfold live_senders in *. rewrite !elem_of_app in *. repeat (destruct Hs as [Hs|Hs]; [by auto|]).
      right. right. right. apply list_elem_of_bind in Hs as ([j t] & Hj & Hin').
      apply list_elem_of_bind. exists (j, t). split; [done|].
      apply elem_of_map_to_list in Hin'. simpl in Hin'. apply lookup_delete_Some in Hin' as [_ ?].
      by apply elem_of_map_to_list.
    - unfold live_senders. rewrite !elem_of_app. right. right. right.
      apply list_elem_of_bind. eexists (i, _). split; [|by apply elem_of_map_to_list]. done. }
  set (router := set_map (free_address (ctx_address ctx) (r_map (n_router n))) (n_router n)).
  assert (Hsolo : solo bare_uint code (relay_running bare_uint code ctx ctrl_rx) l n0 (PRet tt) l
                    (with_router router n0)).
  { eapply solo_trans; [by apply relay_without_senders|].
    eapply (solo_call _ _ _ _ _ _ true); [simpl; unfold inbox_push; simpl; rewrite Hr, Hin; reflexivity|].
    destruct l. eapply solo_router; [|apply solo_end].
    unfold router_step. simpl. rewrite Hr. unfold sbind, get_state. simpl. rewrite Hst. simpl.
    f_equal. destruct n. simpl in *. subst. reflexivity. }
  destruct (solo_run _ _ _ _ _ _ _ _ i Hsolo) as [sched Hrun]; [done|by apply lookup_delete_eq|].
  rewrite En in Hrun. exists sched. eexists. split; [exact Hrun|].
  apply free_address_removes.
Qed.

(** ** Transports *)

Lemma resolve_local_hops transports b route :
  Forall (fun a => Address_is_local a = true) route ->
  resolve_hops transports b route = Ok (mkRouteBuilder (rb_inner b ++ route) (write_back b)).
Proof.
  intros H. revert b. induction H as [|a route Ha _ IH]; intros b; simpl.
  - rewrite app_nil_r. by destruct b.
  - rewrite Ha. simpl. rewrite IH. simpl. by rewrite <- app_assoc.
Qed.

(** A route without transport hops is kept, the hop of a route with one is
    replaced by the worker that its transport gives for it (whose error is
    passed on; an unregistered transport is an error), and a route with more
    is refused. *)
Theorem resolve_transport_route_spec transports before a after :
  Forall (fun a => Address_is_local a = true) before ->
  (Forall (fun a => Address_is_local a = true) after ->
   resolve_transport_route transports (before ++ after) = Ok (before ++ after)) /\
  (Address_is_local a = false -> Forall (fun a => Address_is_local a = true) after ->
   resolve_transport_route transports (before ++ a :: after) =
     match transports !! a_tt a with
     | Some resolve_address =>
         let? a' := resolve_address a in Ok (before ++ a' :: after)
     | None => Err (CTransport KNotFound)
     end) /\
  (Address_is_local a = false -> Exists (fun a => Address_is_local a = false) after ->
   resolve_transport_route transports (before ++ a :: after) = Err (CTransport KInvalid)).
Proof.
  intros Hb. unfold resolve_transport_route.
  assert (Hf : forall l, Forall (fun a => Address_is_local a = true) l ->
    List.filter (fun a => negb (Address_is_local a)) l = []).
  { intros l Hl. induction Hl as [|x l Hx _ IH]; simpl; [done|]. by rewrite Hx. }
  split_and!.
  - intros Ha. by rewrite List.filter_app, !Hf.
  - intros Hl Ha. rewrite List.filter_app, Hf by done. simpl. rewrite Hl. simpl. rewrite Hf by done.
    simpl.
    assert (Hr : forall b, resolve_hops transports b (before ++ a :: after) =
      resolve_hops transports (mkRouteBuilder (rb_inner b ++ before) (write_back b)) (a :: after)).
    { clear - Hb. induction Hb as [|x before Hx _ IH]; intros b; simpl.
      - rewrite app_nil_r. by destruct b.
      - rewrite Hx. simpl. rewrite IH. simpl. by rewrite <- app_assoc. }
    rewrite Hr. cbn [resolve_hops]. rewrite Hl. simpl.
    destruct (transports !! a_tt a) as [f|]; [|done].
    destruct (f a) as [a'|e|]; [|done..]. simpl. rewrite resolve_local_hops by done. simpl.
    by rewrite <- app_assoc.
  - intros Hl He. rewrite List.filter_app, Hf by done. simpl. rewrite Hl. simpl.
    apply Exists_exists in He as (x & Hx & Hlx).
    assert (Hin : In x (List.filter (fun a => negb (Address_is_local a)) after)).
    { apply List.filter_In. split; [exact Hx|]. by rewrite Hlx. }
    destruct (List.filter _ after); [done|]. done.
Qed.
