(* ===== verification/NodeExamples.v ===== *)
(** * Runs of a node

    A small application on the model of [Node]: concrete runs, as instances of
    the theorems about nodes. *)

From Stdlib Require Import ZArith Lia.
From Stdlib Require Strings.Byte Strings.String.
From stdpp Require Import base gmap fin_maps fin_map_dom list numbers option countable.
From S2P Require Import Prelude RustStr Routing AccessControl FlowControl Router Node.
From S2P Require Import NodeSpec NodeSend.

(** Workers that accept any bytes and do nothing; what an application has seen
    is a list of booleans. *)
Definition seen : Type := list bool.

Definition passive : WorkerCode seen bytes :=
  mkWorkerCode (fun _ b => Some b) (PRet (Ok tt)) (PRet (Ok tt)) (fun _ => PRet (Ok tt))
    (PRet (Ok false)).

Definition open_mailboxes (a : Address) : SharedMailboxes :=
  mkSharedMailboxes (mkSharedMailbox a (fun _ => dyn_incoming mkAllowAll)
                       (fun _ => dyn_outgoing mkAllowAll)) [].

Definition no_prefix (n : Z) : bytes := [].

Definition note (r : cresult unit) : user_prog seen bytes unit :=
  do w <- pcall ASelf; pcall (ASetSelf (w ++ [is_ok r])).

(** Start a worker, and another one at the same address. *)
Definition start_twice : user_prog seen bytes unit :=
  do r <- pcall (AStartWorker 0 (open_mailboxes (addr "echo")) []);
  do _ <- note r;
  do r <- pcall (AStartWorker 0 (open_mailboxes (addr "echo")) []);
  note r.

(** Start a worker and send it a message. *)
Definition start_and_send : user_prog seen bytes unit :=
  do r <- pcall (AStartWorker 0 (open_mailboxes (addr "echo")) []);
  do _ <- note r;
  do r <- pcall (ASend 0 [addr "echo"] (Some (str "hello")) (addr "app") []);
  note r.

Notation run_app main sched :=
  (run_node no_prefix passive sched (node_build no_prefix [] main)).

Definition ran {A} (o : option A) : bool :=
  match o with
  | Some _ => true
  | None => false
  end.

(** [k] steps of a task. *)
Definition turns (i k : nat) : list choice := replicate k (RunTask i None).

(** The application starts a worker and sends; then the worker runs. *)
Definition send_schedule : list choice :=
  turns 4 5 ++ [RunRouter] ++ turns 4 6 ++ [RunRouter] ++ turns 4 6 ++
  turns 8 1 ++ [RunRouter] ++ turns 8 8.

(** The worker is rejected; then both relays start. *)
Definition reject_schedule : list choice :=
  turns 4 5 ++ [RunRouter] ++ turns 4 8 ++ [RunRouter] ++ turns 4 3 ++
  turns 8 1 ++ [RunRouter] ++ turns 13 1 ++ [RunRouter].

Definition echo_context : Context := mkContext (open_mailboxes (addr "echo")) 5 7 false.
Definition rejected_context : Context := mkContext (open_mailboxes (addr "echo")) 10 12 false.

Definition hello : RelayMessage :=
  mkRelayMessage (addr "app") (addr "echo")
    (mkLocalMessage (TransportMessage_v1 [addr "echo"] [addr "app"] (str "hello")) []).

(** The router counts a message on the counter of the context that started
    the worker, and the worker takes it off its own: after one message the
    [mailbox_count] of the worker has wrapped around to 2^64 - 1, and the one of
    the application, which has received nothing, is 1. *)
Theorem mailbox_count_wraps_around :
  exists n, run_app start_and_send send_schedule = Some n /\
    n_counts n !! c_count echo_context = Some (2 ^ 64 - 1)%Z /\
    n_counts n !! c_count app_context = Some 1%Z /\
    omap (fun e => match e with LReceived c m => Some (c, m) | _ => None end) (n_log n) =
      [(c_receiver echo_context, hello)].
Proof.
  assert (Hr : ran (run_app start_and_send send_schedule) = true) by (vm_compute; reflexivity).
  assert (H : (fun n => (n_counts n !! c_count echo_context, n_counts n !! c_count app_context,
      omap (fun e => match e with LReceived c m => Some (c, m) | _ => None end) (n_log n)))
      <$> run_app start_and_send send_schedule =
    Some (Some (2 ^ 64 - 1)%Z, Some 1%Z, [(c_receiver echo_context, hello)]))
    by (vm_compute; reflexivity).
  destruct (run_app start_and_send send_schedule) as [n|] eqn:E; [|discriminate Hr].
  exists n. split; [done|]. injection H as H1 H2 H3. split_and!; [exact H1|exact H2|exact H3].
Qed.

(** *** Witnesses *)

Lemma handled_messages_are_authorized_witness :
  exists n, run_app start_and_send send_schedule = Some n /\ LHandled echo_context hello ∈ n_log n /\
  let earlier n1 := earlier no_prefix passive [] start_and_send send_schedule n1 in
  (exists from n1, LContext from ∈ n_log n /\ LSent from 5 hello ∈ n_log n /\
     addr "app" ∈ ctx_addresses from /\ earlier n1 /\
     Mailboxes_is_outgoing_authorized (now (shared_flows n1) (c_mailboxes from)) hello = Ok true) /\
  (exists n1, LContext echo_context ∈ n_log n /\ addr "echo" ∈ ctx_addresses echo_context /\ earlier n1 /\
     Mailboxes_is_incoming_authorized (now (shared_flows n1) (c_mailboxes echo_context)) hello = Ok true).
Proof.
  assert (Hr : ran (run_app start_and_send send_schedule) = true) by (vm_compute; reflexivity).
  assert (H : (fun n => n_log n !! 7) <$> run_app start_and_send send_schedule =
    Some (Some (LHandled echo_context hello))) by (vm_compute; reflexivity).
  destruct (run_app start_and_send send_schedule) as [n|] eqn:E; [|discriminate Hr].
  injection H as H. pose proof (list_elem_of_lookup_2 _ _ _ H) as Hh.
  exists n. split; [done|]. split; [done|].
  exact (handled_messages_are_authorized no_prefix passive [] start_and_send send_schedule n
           echo_context hello E Hh).
Defined.

(** The application with its task waiting to send to itself. *)
Definition waiting_node : node seen bytes :=
  with_tasks ∅ (node_build no_prefix [] (PRet tt)).

Definition self_message : RelayMessage :=
  mkRelayMessage (addr "app") (addr "app")
    (mkLocalMessage (TransportMessage_v1 [addr "app"] [addr "app"] (str "x")) []).

Lemma send_outcomes_witness :
  idle waiting_node /\
  send_outcome waiting_node app_context [addr "app"] (Some (str "x")) (addr "app") [] (Ok tt)
    (Some (1, self_message)) /\
  exists sched n2,
    run_node no_prefix passive sched
      (insert_task 4 (mkLocal [] [] [] [])
         (pbind (send_from_address_impl app_context [addr "app"] (Some (str "x")) (addr "app") [])
            (fun _ => PRet tt)) waiting_node) =
    Some (insert_task 4 (mkLocal [] [] [] []) (PRet tt) n2) /\
    n_router n2 = n_router waiting_node /\
    n_mail n2 = deposit (Some (1, self_message)) (n_mail waiting_node).
Proof.
  assert (Hi : idle waiting_node).
  { split_and!; try done. apply (bool_decide_eq_true_1 _). vm_compute. reflexivity. }
  assert (Ho : send_outcome waiting_node app_context [addr "app"] (Some (str "x")) (addr "app") []
                 (Ok tt) (Some (1, self_message))).
  { eapply (send_resolved _ _ _ _ _ _ (addr "app") [] 1 (str "x")); try reflexivity; [by left|].
    rewrite decide_False by set_solver. split_and!; [vm_compute; lia|done..]. }
  split; [exact Hi|]. split; [exact Ho|].
  exact (send_outcomes no_prefix passive app_context [addr "app"] (Some (str "x")) (addr "app") []
           (mkLocal [] [] [] []) waiting_node (Ok tt) (Some (1, self_message)) 4 (fun _ => PRet tt)
           Hi ltac:(vm_compute; lia) (lookup_empty _) Ho).
Defined.

Definition rejected_task : task seen bytes :=
  mkTask (mkLocal [] [Some rejected_context] [] [])
    (relay_running no_prefix passive rejected_context 11).

Lemma rejected_worker_removes_running_one_witness :
  exists n, run_app start_twice reject_schedule = Some n /\
    l_self ∘ t_local <$> n_tasks n !! 4 = Some [true; false] /\
    ar_sender <$> address_records_map (r_map (n_router n)) !! addr "echo" = Some (Some 5) /\
    exists sched n2, run_node no_prefix passive sched n = Some n2 /\
      address_records_map (r_map (n_router n2)) !! addr "echo" = None.
Proof.
  assert (Hr : ran (run_app start_twice reject_schedule) = true) by (vm_compute; reflexivity).
  assert (Ht : (fun n => n_tasks n !! 13) <$> run_app start_twice reject_schedule =
    Some (Some rejected_task)) by (vm_compute; reflexivity).
  assert (H : (fun n => (l_self ∘ t_local <$> n_tasks n !! 4,
      ar_sender <$> address_records_map (r_map (n_router n)) !! addr "echo",
      (n_next n, default [] (n_mail n !! 10), bool_decide (10 ∈ live_senders n)),
      (n_inbox n, r_receiver (n_router n), r_state (n_router n))))
      <$> run_app start_twice reject_schedule =
    Some (Some [true; false], Some (Some 5), (15, [], false), ([], true, NodeRunning)))
    by (vm_compute; reflexivity).
  destruct (run_app start_twice reject_schedule) as [n|] eqn:E; [|discriminate Hr].
  injection Ht as Ht. injection H as H1 H2 H3 H4 H5 H6 H7 H8.
  exists n. split; [done|]. split; [exact H1|]. split; [exact H2|].
  apply fmap_Some in H2 as (rec & Hrec & Hs).
  refine (rejected_worker_removes_running_one no_prefix passive rejected_context 11
           (mkLocal [] [Some rejected_context] [] []) n 13 rec Ht _ eq_refl H4 _ H6 H7 H8 Hrec _).
  - rewrite H3. lia.
  - exact (bool_decide_eq_false_1 _ H5).
  - rewrite <- Hs. by intros [=].
Defined.
