(* ===== verification/Tcp.v ===== *)
(** * The TCP transport (ockam_transport_tcp/src/{options, workers, transport, registry})

    A connection is a worker that writes messages to a socket, each behind its
    length in two bytes, and a processor that reads them from it and forwards
    them.  The code of workers and processors is a program over the methods of
    [Context] and over sockets, the registry and random values ([tcall]).

    The BARE encoding of messages is a parameter, and so is the resolution of
    host names. *)

From Stdlib Require Import ZArith Lia.
From Stdlib Require Strings.Byte Strings.String.
From stdpp Require Import base gmap list numbers option countable.
From S2P Require Import Prelude RustStr Routing AccessControl FlowControl IpAddr Router Node.

(** ** Errors (ockam_transport_core/src/error.rs) *)

Inductive TransportError :=
| SendBadMessage
| RecvBadMessage
| BindFailed
| ConnectionDrop
| AlreadyConnected
| PeerNotFound
| PeerBusy
| UnknownRoute
| InvalidAddress
| Capacity
| Encoding
| Protocol
| GenericIo
| PortalInvalidState
| InvalidRouterResponseType.

(** [io::Error], by its kind. *)
Inductive io_error := ConnectionRefused | OtherIo.

Definition TransportError_from_io (e : io_error) : TransportError :=
  match e with
  | ConnectionRefused => PeerNotFound
  | OtherIo => GenericIo
  end.

(** Errors of a worker: of its context, of the transport, of a decoding. *)
Inductive terror :=
| TContext (e : cerror)
| TTransport (e : TransportError)
| TCodec.

Notation tresult A := (result terror A).

(** ** Socket addresses (transport/common.rs) *)

Inductive SocketAddr :=
| SocketV4 (ip : bytes) (port : Z)
| SocketV6 (ip : bytes) (scope_id port : Z).

Definition is_ipv4 (a : SocketAddr) : bool := match a with SocketV4 _ _ => true | _ => false end.
Definition is_ipv6 (a : SocketAddr) : bool := match a with SocketV6 _ _ _ => true | _ => false end.

(** [Parser::read_port], [Parser::read_scope_id] *)
Definition read_port (s : bytes) : option (Z * bytes) :=
  s ← read_char Byte.x3a s; read_number 10 (length s) true 65535 s.

Definition read_scope_id (s : bytes) : option (Z * bytes) :=
  s ← read_char Byte.x25 s; read_number 10 (length s) true (2 ^ 32 - 1) s.

Definition read_socket_addr_v4 (s : bytes) : option (SocketAddr * bytes) :=
  '(ip, s) ← read_ipv4_addr s;
  '(port, s) ← read_port s;
  Some (SocketV4 ip port, s).

Definition read_socket_addr_v6 (s : bytes) : option (SocketAddr * bytes) :=
  s ← read_char Byte.x5b s;
  '(groups, s) ← read_ipv6_addr s;
  let (scope_id, s) := default (0%Z, s) (read_scope_id s) in
  s ← read_char Byte.x5d s;
  '(port, s) ← read_port s;
  Some (SocketV6 (ip6_octets groups) scope_id port, s).

(** [s.parse::<SocketAddr>()] *)
Definition parse_socket_addr (s : bytes) : result TransportError SocketAddr :=
  match read_socket_addr_v4 s with
  | Some (a, []) => Ok a
  | Some _ => Err InvalidAddress
  | None =>
      match read_socket_addr_v6 s with
      | Some (a, []) => Ok a
      | _ => Err InvalidAddress
      end
  end.

(** [Iterator::find] consumes what it looks at. *)
Fixpoint iter_find {A} (p : A -> bool) (iter : list A) : option A * list A :=
  match iter with
  | [] => (None, [])
  | x :: iter => if p x then (Some x, iter) else iter_find p iter
  end.

(** [str::to_socket_addrs] *)
Class HostLookup := to_socket_addrs : bytes -> option (list SocketAddr).

Definition resolve_peer `{HostLookup} (peer : bytes) : result TransportError SocketAddr :=
  match parse_socket_addr peer with
  | Ok p => Ok p
  | _ =>
      match to_socket_addrs peer with
      | Some iter =>
          let (o, iter) := iter_find is_ipv4 iter in
          match o with
          | Some p => Ok p
          | None =>
              match (iter_find is_ipv6 iter).1 with
              | Some p => Ok p
              | None => Err InvalidAddress
              end
          end
      | None => Err InvalidAddress
      end
  end.

(** ** The registry (registry/common.rs, internal.rs) *)

Inductive TcpConnectionMode := Outgoing | Incoming.

Record TcpSenderInfo := mkTcpSenderInfo {
  si_address : Address;
  si_receiver_address : Address;
  si_socket_address : SocketAddr;
  si_mode : TcpConnectionMode;
  si_flow_control_id : FlowControlId
}.

Record TcpReceiverInfo := mkTcpReceiverInfo {
  ri_address : Address;
  ri_sender_address : Address;
  ri_socket_address : SocketAddr;
  ri_mode : TcpConnectionMode;
  ri_flow_control_id : FlowControlId
}.

Record TcpListenerInfo := mkTcpListenerInfo {
  ti_address : Address;
  ti_socket_address : SocketAddr;
  ti_flow_control_id : FlowControlId
}.

Record InternalRegistry := mkRegistry {
  portal_workers : list Address;
  portal_receiver_processors : list Address;
  inlet_listener_processors : list Address;
  outlet_listener_workers : list Address;
  listener_processors : list TcpListenerInfo;
  sender_workers : list TcpSenderInfo;
  receiver_processors : list TcpReceiverInfo
}.

Definition remove_address (a : Address) (l : list Address) : list Address := filter (.≠ a) l.

(** [add_*] pushes, [remove_*] retains what has another address. *)
Definition set_portal_workers (f : list Address -> list Address) (r : InternalRegistry) : InternalRegistry :=
  mkRegistry (f (portal_workers r)) (portal_receiver_processors r) (inlet_listener_processors r)
    (outlet_listener_workers r) (listener_processors r) (sender_workers r) (receiver_processors r).
Definition set_portal_receiver_processors (f : list Address -> list Address) (r : InternalRegistry)
  : InternalRegistry :=
  mkRegistry (portal_workers r) (f (portal_receiver_processors r)) (inlet_listener_processors r)
    (outlet_listener_workers r) (listener_processors r) (sender_workers r) (receiver_processors r).
Definition set_inlet_listener_processors (f : list Address -> list Address) (r : InternalRegistry)
  : InternalRegistry :=
  mkRegistry (portal_workers r) (portal_receiver_processors r) (f (inlet_listener_processors r))
    (outlet_listener_workers r) (listener_processors r) (sender_workers r) (receiver_processors r).
Definition set_outlet_listener_workers (f : list Address -> list Address) (r : InternalRegistry)
  : InternalRegistry :=
  mkRegistry (portal_workers r) (portal_receiver_processors r) (inlet_listener_processors r)
    (f (outlet_listener_workers r)) (listener_processors r) (sender_workers r) (receiver_processors r).
Definition set_listener_processors (f : list TcpListenerInfo -> list TcpListenerInfo)
    (r : InternalRegistry) : InternalRegistry :=
  mkRegistry (portal_workers r) (portal_receiver_processors r) (inlet_listener_processors r)
    (outlet_listener_workers r) (f (listener_processors r)) (sender_workers r) (receiver_processors r).
Definition set_sender_workers (f : list TcpSenderInfo -> list TcpSenderInfo) (r : InternalRegistry)
  : InternalRegistry :=
  mkRegistry (portal_workers r) (portal_receiver_processors r) (inlet_listener_processors r)
    (outlet_listener_workers r) (listener_processors r) (f (sender_workers r)) (receiver_processors r).
Definition set_receiver_processors (f : list TcpReceiverInfo -> list TcpReceiverInfo)
    (r : InternalRegistry) : InternalRegistry :=
  mkRegistry (portal_workers r) (portal_receiver_processors r) (inlet_listener_processors r)
    (outlet_listener_workers r) (listener_processors r) (sender_workers r) (f (receiver_processors r)).

Definition add_portal_worker (a : Address) := set_portal_workers (fun l => l ++ [a]).
Definition remove_portal_worker (a : Address) := set_portal_workers (remove_address a).
Definition add_portal_receiver_processor (a : Address) := set_portal_receiver_processors (fun l => l ++ [a]).
Definition remove_portal_receiver_processor (a : Address) := set_portal_receiver_processors (remove_address a).
Definition add_inlet_listener_processor (a : Address) := set_inlet_listener_processors (fun l => l ++ [a]).
Definition remove_inlet_listener_processor (a : Address) := set_inlet_listener_processors (remove_address a).
Definition add_outlet_listener_worker (a : Address) := set_outlet_listener_workers (fun l => l ++ [a]).
Definition remove_outlet_listener_worker (a : Address) := set_outlet_listener_workers (remove_address a).
Definition add_listener_processor (i : TcpListenerInfo) := set_listener_processors (fun l => l ++ [i]).
Definition remove_listener_processor (a : Address) :=
  set_listener_processors (filter (fun i => ti_address i <> a)).
Definition add_sender_worker (i : TcpSenderInfo) := set_sender_workers (fun l => l ++ [i]).
Definition remove_sender_worker (a : Address) := set_sender_workers (filter (fun i => si_address i <> a)).
Definition add_receiver_processor (i : TcpReceiverInfo) := set_receiver_processors (fun l => l ++ [i]).
Definition remove_receiver_processor (a : Address) :=
  set_receiver_processors (filter (fun i => ri_address i <> a)).

(** ** Options (options.rs) *)

(** [workers/addresses.rs] *)
Record Addresses := mkAddresses {
  sender_internal_address : Address;
  sender_address : Address;
  receiver_address : Address;
  receiver_internal_address : Address
}.

(** An access control that shares the flow controls of the node. *)
Notation SharedAccessControl := (FlowControls -> DynAccessControl).

Record TcpConnectionAccessControl := mkTcpAccessControl {
  sender_incoming_access_control : SharedAccessControl;
  receiver_outgoing_access_control : SharedAccessControl
}.

Definition tcp_access_control (id : FlowControlId) (spawner : option FlowControlId)
  : TcpConnectionAccessControl :=
  mkTcpAccessControl (fun _ => dyn_incoming mkAllowAll)
    (fun fc => dyn_outgoing (mkFlowControlAC fc id spawner)).

Record TcpConnectionOptions := mkTcpConnectionOptions {
  co_consumer : list FlowControlId;
  co_flow_control_id : FlowControlId
}.

Definition TcpConnectionOptions_as_consumer (id : FlowControlId) (self : TcpConnectionOptions)
  : TcpConnectionOptions :=
  mkTcpConnectionOptions (co_consumer self ++ [id]) (co_flow_control_id self).

Definition TcpConnectionOptions_setup_flow_control (self : TcpConnectionOptions)
    (addresses : Addresses) (fc : FlowControls) : FlowControls :=
  let fc := add_producer (receiver_address addresses) (co_flow_control_id self) None
              [sender_address addresses] fc in
  foldl (fun fc id => add_consumer (sender_address addresses) id fc) fc (co_consumer self).

Definition TcpConnectionOptions_create_access_control (self : TcpConnectionOptions)
  : TcpConnectionAccessControl := tcp_access_control (co_flow_control_id self) None.

Record TcpListenerOptions := mkTcpListenerOptions { lo_flow_control_id : FlowControlId }.

Definition setup_flow_control_for_listener (self : TcpListenerOptions) (address : Address)
  : FlowControls -> FlowControls := add_spawner address (lo_flow_control_id self).

(** [id] is the identifier generated for the connection. *)
Definition setup_flow_control_for_connection (self : TcpListenerOptions) (id : FlowControlId)
    (addresses : Addresses) : FlowControls -> FlowControls :=
  add_producer (receiver_address addresses) id (Some (lo_flow_control_id self))
    [sender_address addresses].

Definition TcpListenerOptions_create_access_control (self : TcpListenerOptions) (id : FlowControlId)
  : TcpConnectionAccessControl := tcp_access_control id (Some (lo_flow_control_id self)).

(** ** Portals: the data (portal/addresses.rs, portal_message.rs, options.rs) *)

Inductive PortalType := Inlet | Outlet.

Record PortalAddresses := mkPortalAddresses {
  pa_internal : Address;
  pa_remote : Address;
  pa_receiver : Address
}.

Inductive PortalMessage :=
| Ping
| Pong
| Disconnect
| Payload (b : bytes).

Inductive PortalInternalMessage := InternalDisconnect.

Definition MAX_PAYLOAD_SIZE : Z := 48 * 1024.

Record TcpOutletOptions := mkTcpOutletOptions {
  oo_consumer : list FlowControlId;
  oo_incoming_access_control : SharedAccessControl
}.

Record TcpInletOptions := mkTcpInletOptions { io_incoming_access_control : SharedAccessControl }.

Definition TcpInletOptions_setup_flow_control (addresses : PortalAddresses) (next : Address)
    (fc : FlowControls) : FlowControls :=
  match find_flow_control_with_producer_address fc next with
  | Some info => add_consumer (pa_remote addresses) (flow_control_id info) fc
  | None => fc
  end.

Definition setup_flow_control_for_outlet_listener (self : TcpOutletOptions) (address : Address)
    (fc : FlowControls) : FlowControls :=
  foldl (fun fc id => add_consumer address id fc) fc (oo_consumer self).

Definition setup_flow_control_for_outlet (addresses : PortalAddresses) (src_addr : Address)
    (fc : FlowControls) : FlowControls :=
  match get_flow_control_with_producer fc src_addr with
  | Some info => add_consumer (pa_remote addresses) (flow_control_id info) fc
  | None => fc
  end.

(** ** Workers and their programs *)

(** A connection, a listening socket: numbers of the operating system. *)
Notation socket := nat.

Record TcpSendWorker := mkTcpSendWorker {
  sw_write_half : socket;
  sw_socket_address : SocketAddr;
  sw_addresses : Addresses;
  sw_mode : TcpConnectionMode;
  sw_receiver_flow_control_id : FlowControlId;
  sw_rx_should_be_stopped : bool
}.

Record TcpRecvProcessor := mkTcpRecvProcessor {
  rp_read_half : socket;
  rp_socket_address : SocketAddr;
  rp_addresses : Addresses;
  rp_mode : TcpConnectionMode;
  rp_flow_control_id : FlowControlId
}.

Record TcpListenProcessor := mkTcpListenProcessor {
  lp_inner : socket;
  lp_socket_address : SocketAddr;
  lp_options : TcpListenerOptions
}.

(** The states of a portal worker. *)
Inductive State :=
| SendPing (ping_route : Route)
| SendPong (pong_route : Route)
| ReceivePong
| Initialized.

Record TcpPortalWorker := mkTcpPortalWorker {
  pw_state : State;
  pw_write_half : option socket;
  pw_read_half : option socket;
  pw_peer : SocketAddr;
  pw_addresses : PortalAddresses;
  pw_remote_route : option Route;
  pw_is_disconnecting : bool;
  pw_portal_type : PortalType
}.

Record TcpPortalRecvProcessor := mkTcpPortalRecvProcessor {
  pr_buf : bytes;
  pr_read_half : socket;
  pr_sender_address : Address;
  pr_onward_route : Route
}.

Record TcpInletListenProcessor := mkTcpInletListenProcessor {
  il_inner : socket;
  il_outlet_listener_route : Route;
  il_options : TcpInletOptions
}.

Record TcpOutletListenWorker := mkTcpOutletListenWorker {
  ol_peer : SocketAddr;
  ol_options : TcpOutletOptions
}.

Inductive tcp_worker :=
| WSend (w : TcpSendWorker)
| WRecv (w : TcpRecvProcessor)
| WListen (w : TcpListenProcessor)
| WPortal (w : TcpPortalWorker)
| WPortalRecv (w : TcpPortalRecvProcessor)
| WInlet (w : TcpInletListenProcessor)
| WOutlet (w : TcpOutletListenWorker).

(** Messages: [Any], or what an outlet listener decodes. *)
Inductive tcp_message :=
| AnyMessage
| APortalMessage (m : PortalMessage).

Notation tapi := (api tcp_worker tcp_message).

(** What the code of the transport calls: its context, the registry of the
    transport, random addresses and flow controls, sockets and the clock.
    [ReadExact] fails when the connection ends before all bytes are read;
    [ReadBuf] reads what is there, at most so many bytes, and no byte at the end
    of the connection. *)
Inductive tcall : Type -> Type :=
| Ctx {X} (c : tapi X) : tcall X
| SetSelf (w : tcp_worker) : tcall unit
| Registry (f : InternalRegistry -> InternalRegistry) : tcall unit
| RandomTagged (tag : bytes) : tcall Address
| GenerateFlowControlId : tcall FlowControlId
| Connect (peer : SocketAddr) : tcall (result io_error socket)
| SetKeepalive (s : socket) : tcall (result io_error unit)
| Bind (a : SocketAddr) : tcall (result io_error (socket * SocketAddr))
| Accept (s : socket) : tcall (result io_error (socket * SocketAddr))
| WriteAll (s : socket) (b : bytes) : tcall (result io_error unit)
| ReadExact (s : socket) (n : nat) : tcall (result io_error bytes)
| ReadBuf (s : socket) (max : Z) : tcall (result io_error bytes)
| Sleep (seconds : Z) : tcall unit.

Notation tprog A := (prog tcall no_event A).

(** A method of the own context (number 0), a socket operation with its error
    converted. *)
Definition ctx_call {X} (c : tapi (cresult X)) : tprog (tresult X) :=
  do r <- pcall (Ctx c); PRet (map_err TContext r).

Definition io_call {X} (c : tcall (result io_error X)) : tprog (tresult X) :=
  do r <- pcall c; PRet (map_err (TTransport ∘ TransportError_from_io) r).

Definition update_flow_controls (f : FlowControls -> FlowControls) : tprog unit :=
  pcall (Ctx (AFlowUpdate f)).

Definition transport_err {X} (e : TransportError) : tprog (tresult X) := PRet (Err (TTransport e)).

Definition route_result {X} (r : result RouteError X) : tresult X :=
  map_err (TContext ∘ CAccess ∘ RouteErr) r.

(** [ctx.stop_worker], [ctx.stop_processor] *)
Definition stop_worker (a : Address) : tprog (tresult unit) :=
  ctx_call (AStopAddress a AddressTypeWorker).
Definition stop_processor (a : Address) : tprog (tresult unit) :=
  ctx_call (AStopAddress a AddressTypeProcessor).

(** The encodings of messages. *)
Class TcpCodec := {
  encode_closed : option bytes;
  decode_closed : bytes -> bool;
  encode_portal : PortalMessage -> option bytes;
  decode_portal : bytes -> option PortalMessage;
  encode_internal : PortalInternalMessage -> option bytes;
  decode_internal : bytes -> option PortalInternalMessage
}.

Definition CLUSTER_NAME : bytes := str "_internals.transport.tcp".

Definition mode_display (mode : TcpConnectionMode) : bytes :=
  match mode with
  | Outgoing => str "outgoing"
  | Incoming => str "incoming"
  end.

Definition Addresses_generate (mode : TcpConnectionMode) : tprog Addresses :=
  do sender_address <- pcall (RandomTagged (str "TcpSendWorker_tx_addr_" ++ mode_display mode));
  do sender_internal_address <-
    pcall (RandomTagged (str "TcpSendWorker_int_addr_" ++ mode_display mode));
  do receiver_address <- pcall (RandomTagged (str "TcpRecvProcessor_" ++ mode_display mode));
  do receiver_internal_address <-
    pcall (RandomTagged (str "TcpRecvProcessor_int_addr_" ++ mode_display mode));
  PRet (mkAddresses sender_internal_address sender_address receiver_address
          receiver_internal_address).

Section Workers.
Context `{TransportCodec} `{TcpCodec} `{HostLookup}.

(** *** workers/sender.rs *)

(** The length is cast to 16 bits; the buffers are reversed to put it in front. *)
Definition prepare_message (msg : TransportMessage) : result TransportError bytes :=
  let? msg_buf := ok_or (encode_transport msg) SendBadMessage in
  let len := to_be_bytes 2 (Z.of_nat (length msg_buf) mod 2 ^ 16) in
  Ok (rev (rev msg_buf ++ rev len)).

Definition TcpSendWorker_start (write_half : socket) (addresses : Addresses)
    (socket_address : SocketAddr) (mode : TcpConnectionMode) (incoming : SharedAccessControl)
    (receiver_flow_control_id : FlowControlId) : tprog (tresult unit) :=
  let sender_worker := mkTcpSendWorker write_half socket_address addresses mode
                         receiver_flow_control_id true in
  let main_mailbox := mkSharedMailbox (sender_address addresses) incoming
                        (fun _ => dyn_outgoing mkDenyAll) in
  let internal_mailbox :=
    mkSharedMailbox (sender_internal_address addresses)
      (fun _ => dyn_incoming (mkAllowSourceAddress (receiver_internal_address addresses)))
      (fun _ => dyn_outgoing mkDenyAll) in
  ctx_call (AStartWorker 0 (mkSharedMailboxes main_mailbox [internal_mailbox]) (WSend sender_worker)).

Definition TcpSendWorker_stop (self : TcpSendWorker) : tprog (tresult unit) :=
  stop_worker (sender_address (sw_addresses self)).

Definition TcpSendWorker_connect (socket_address : SocketAddr) : tprog (tresult socket) :=
  do? connection <- io_call (Connect socket_address);
  do r <- pcall (SetKeepalive connection);
  match r with
  | Ok _ => PRet (Ok connection)
  | _ => PPanic
  end.

Definition TcpSendWorker_initialize (self : TcpSendWorker) : tprog (tresult unit) :=
  do? _ <- ctx_call (ASetCluster 0 CLUSTER_NAME);
  do _ <- pcall (Registry (add_sender_worker
    (mkTcpSenderInfo (sender_address (sw_addresses self)) (receiver_address (sw_addresses self))
       (sw_socket_address self) (sw_mode self) (sw_receiver_flow_control_id self))));
  PRet (Ok tt).

Definition TcpSendWorker_shutdown (self : TcpSendWorker) : tprog (tresult unit) :=
  do _ <- pcall (Registry (remove_sender_worker (sender_address (sw_addresses self))));
  if sw_rx_should_be_stopped self then
    do _ <- stop_processor (receiver_address (sw_addresses self));
    PRet (Ok tt)
  else PRet (Ok tt).

Definition TcpSendWorker_handle_message (self : TcpSendWorker) (msg : Routed tcp_message)
  : tprog (tresult unit) :=
  let transport := transport_message (local_msg msg) in
  if bool_decide (msg_addr msg = sender_internal_address (sw_addresses self)) then
    if decode_closed (payload transport) then
      let self := mkTcpSendWorker (sw_write_half self) (sw_socket_address self) (sw_addresses self)
                    (sw_mode self) (sw_receiver_flow_control_id self) false in
      do _ <- pcall (SetSelf (WSend self));
      TcpSendWorker_stop self
    else PRet (Err TCodec)
  else
    let (r, onward) := Route_step (onward_route transport) in
    do? _ <- plift (route_result r);
    do? buf <- plift (map_err TTransport (prepare_message
                        (mkTransportMessage (version transport) onward (return_route transport)
                           (payload transport))));
    do r <- pcall (WriteAll (sw_write_half self) buf);
    match r with
    | Ok _ => PRet (Ok tt)
    | _ => TcpSendWorker_stop self
    end.

(** *** workers/receiver.rs *)

(** The mailboxes of a receiver. *)
Definition receiver_mailboxes (addresses : Addresses) (outgoing : SharedAccessControl)
  : SharedMailboxes :=
  mkSharedMailboxes
    (mkSharedMailbox (receiver_address addresses) (fun _ => dyn_incoming mkDenyAll) outgoing)
    [mkSharedMailbox (receiver_internal_address addresses) (fun _ => dyn_incoming mkDenyAll)
       (fun _ => dyn_outgoing (mkAllowOnwardAddress (sender_internal_address addresses)))].

Definition TcpRecvProcessor_start (read_half : socket) (addresses : Addresses)
    (socket_address : SocketAddr) (mode : TcpConnectionMode) (id : FlowControlId)
    (outgoing : SharedAccessControl) : tprog (tresult unit) :=
  let receiver := mkTcpRecvProcessor read_half socket_address addresses mode id in
  ctx_call (AStartProcessor 0 (receiver_mailboxes addresses outgoing) (WRecv receiver)).

(** [own]: the address of the context. *)
Definition TcpRecvProcessor_initialize (own : Address) (self : TcpRecvProcessor)
  : tprog (tresult unit) :=
  do? _ <- ctx_call (ASetCluster 0 CLUSTER_NAME);
  do _ <- pcall (Registry (add_receiver_processor
    (mkTcpReceiverInfo own (sender_address (rp_addresses self)) (rp_socket_address self)
       (rp_mode self) (rp_flow_control_id self))));
  PRet (Ok tt).

Definition TcpRecvProcessor_shutdown (own : Address) : tprog (tresult unit) :=
  do _ <- pcall (Registry (remove_receiver_processor own)); PRet (Ok tt).

Definition TcpRecvProcessor_process (self : TcpRecvProcessor) : tprog (tresult bool) :=
  do r <- pcall (ReadExact (rp_read_half self) 2);
  match r with
  | Ok header =>
      let len := Z.to_nat (from_be_bytes 0 header) in
      do r <- pcall (ReadExact (rp_read_half self) len);
      match r with
      | Ok buf =>
          do? msg <- plift (ok_or (decode_transport buf) (TTransport RecvBadMessage));
          match Route_next (onward_route msg) with
          | Ok _ =>
              let msg := mkTransportMessage (version msg) (onward_route msg)
                           (RouteBuilder_into (RouteBuilder_prepend (sender_address (rp_addresses self))
                              (Route_modify (return_route msg))))
                           (payload msg) in
              do? _ <- ctx_call (AForward 0 (mkLocalMessage msg []) (receiver_address (rp_addresses self)));
              PRet (Ok true)
          | _ => PRet (Ok true)
          end
      | _ => PRet (Ok true)
      end
  | _ =>
      do? _ <- ctx_call (ASend 0 [sender_internal_address (rp_addresses self)] encode_closed
                           (receiver_internal_address (rp_addresses self)) []);
      PRet (Ok false)
  end.

(** *** workers/listener.rs *)

(** [ctx.start_processor]: a processor that sends and receives nothing. *)
Definition ctx_start_local_processor (a : Address) (w : tcp_worker) : tprog (tresult unit) :=
  ctx_call (AStartProcessor 0 (main_mailboxes a (fun _ => dyn_incoming mkDenyAll)
                                 (fun _ => dyn_outgoing mkDenyAll)) w).

Definition TcpListenProcessor_start (a : SocketAddr) (options : TcpListenerOptions)
  : tprog (tresult (SocketAddr * Address)) :=
  do? x <- io_call (Bind a);
  let (inner, saddr) := x : socket * SocketAddr in
  do address <- pcall (RandomTagged (str "TcpListenProcessor"));
  do _ <- update_flow_controls (setup_flow_control_for_listener options address);
  do? _ <- ctx_start_local_processor address (WListen (mkTcpListenProcessor inner saddr options));
  PRet (Ok (saddr, address)).

Definition TcpListenProcessor_initialize (own : Address) (self : TcpListenProcessor)
  : tprog (tresult unit) :=
  do? _ <- ctx_call (ASetCluster 0 CLUSTER_NAME);
  do _ <- pcall (Registry (add_listener_processor
    (mkTcpListenerInfo own (lp_socket_address self) (lo_flow_control_id (lp_options self)))));
  PRet (Ok tt).

Definition TcpListenProcessor_shutdown (own : Address) : tprog (tresult unit) :=
  do _ <- pcall (Registry (remove_listener_processor own)); PRet (Ok tt).

(** A sender and a receiver for a connection. *)
Definition start_pair (s : socket) (addresses : Addresses) (peer : SocketAddr)
    (mode : TcpConnectionMode) (id : FlowControlId) (access_control : TcpConnectionAccessControl)
  : tprog (tresult unit) :=
  do? _ <- TcpSendWorker_start s addresses peer mode
             (sender_incoming_access_control access_control) id;
  TcpRecvProcessor_start s addresses peer mode id (receiver_outgoing_access_control access_control).

Definition TcpListenProcessor_process (self : TcpListenProcessor) : tprog (tresult bool) :=
  do? x <- io_call (Accept (lp_inner self));
  let (stream, peer) := x : socket * SocketAddr in
  do addresses <- Addresses_generate Incoming;
  do id <- pcall GenerateFlowControlId;
  do _ <- update_flow_controls (setup_flow_control_for_connection (lp_options self) id addresses);
  let access_control := TcpListenerOptions_create_access_control (lp_options self) id in
  do? _ <- start_pair stream addresses peer Incoming id access_control;
  PRet (Ok true).

(** *** transport/{common, connection, listener, lifecycle}.rs *)

Record TcpConnection := mkTcpConnection {
  tc_sender_address : Address;
  tc_receiver_address : Address;
  tc_socket_address : SocketAddr;
  tc_mode : TcpConnectionMode;
  tc_flow_control_id : FlowControlId
}.

Record TcpListener := mkTcpListener {
  tl_processor_address : Address;
  tl_socket_address : SocketAddr;
  tl_flow_control_id : FlowControlId
}.

Definition TcpTransport_connect (peer : bytes) (options : TcpConnectionOptions)
  : tprog (tresult TcpConnection) :=
  do? socket <- plift (map_err TTransport (resolve_peer peer));
  do? stream <- TcpSendWorker_connect socket;
  do addresses <- Addresses_generate Outgoing;
  do _ <- update_flow_controls (TcpConnectionOptions_setup_flow_control options addresses);
  let id := co_flow_control_id options in
  let access_control := TcpConnectionOptions_create_access_control options in
  do? _ <- start_pair stream addresses socket Outgoing id access_control;
  PRet (Ok (mkTcpConnection (sender_address addresses) (receiver_address addresses) socket
              Outgoing id)).

Definition TcpTransport_disconnect (a : Address) : tprog (tresult unit) := stop_worker a.

Definition TcpTransport_listen (bind_addr : bytes) (options : TcpListenerOptions)
  : tprog (tresult TcpListener) :=
  do? bind_addr <- plift (map_err TTransport (parse_socket_addr bind_addr));
  do? x <- TcpListenProcessor_start bind_addr options;
  let (socket_addr, address) := x : SocketAddr * Address in
  PRet (Ok (mkTcpListener address socket_addr (lo_flow_control_id options))).

Definition TcpTransport_stop_listener (a : Address) : tprog (tresult unit) := stop_processor a.

Definition TCP : TransportType := mkTransportType Byte.x01.

Definition TcpTransport_resolve_address (address : Address) : tprog (tresult Address) :=
  if bool_decide (a_tt address = TCP) then
    do id <- pcall GenerateFlowControlId;
    do? c <- TcpTransport_connect (Address_address address) (mkTcpConnectionOptions [] id);
    PRet (Ok (tc_sender_address c))
  else PRet (Err (TContext (CTransport KNotFound))).
End Workers.
