(* ===== verification/Execution.v ===== *)
(** * Executions of the code of a worker

    What a program does to its surroundings is given by a relation [eff]: which
    answers a call can have in a state, and what the state is afterwards.  An
    execution may be cut at any call, since tasks are cancelled and connections
    wait for ever.  [ensures] is what has to be shown of a program for a property
    of all its executions; workers and processors run their handlers one after
    the other ([session], [processing]). *)

From stdpp Require Import base list option.
From S2P Require Import Prelude Node.

(** ** Attempts and their outcomes *)

(** What was tried, each with whether it succeeded. *)
Notation attempts A := (list (A * bool)).

Section Attempts.
Context {A : Type}.
Implicit Types l : attempts A.

Definition succeeded l : list A := (filter (fun a => a.2 = true) l).*1.

Definition no_failure l : Prop := Forall (fun a => a.2 = true) l.

Lemma succeeded_app l l' : succeeded (l ++ l') = succeeded l ++ succeeded l'.
Proof. unfold succeeded. by rewrite list.filter_app, fmap_app. Qed.

Lemma succeeded_sublist l : succeeded l `sublist_of` l.*1.
Proof.
  unfold succeeded. induction l as [|[a b] l IH]; [done|]. rewrite filter_cons. cbn [fst snd].
  destruct decide; cbn; [by apply sublist_skip | by apply sublist_cons].
Qed.

Lemma succeeded_sublist_of l (all : list A) : l.*1 `prefix_of` all -> succeeded l `sublist_of` all.
Proof.
  intros [k ->]. etrans; [apply succeeded_sublist|]. by apply sublist_inserts_r.
Qed.

Lemma succeeded_all l : no_failure l -> succeeded l = l.*1.
Proof.
  unfold succeeded. induction 1 as [|[a b] l Hb _ IH]; [done|]. cbn in Hb. subst b.
  rewrite filter_cons_True by done. cbn. by rewrite IH.
Qed.

Lemma all_succeed (l : list A) :
  no_failure (map (fun a => (a, true)) l) /\ succeeded (map (fun a => (a, true)) l) = l.
Proof.
  assert (no_failure (map (fun a => (a, true)) l)) as Hn by (by apply list.Forall_fmap, list.Forall_true).
  split; [done|]. rewrite (succeeded_all _ Hn). clear. induction l as [|a l IH]; cbn; by rewrite ?IH.
Qed.
End Attempts.

Section Execution.
Context {C D : Type -> Type} {G : Type} (eff : forall X, C X -> X -> G -> G -> Prop).
Arguments eff {X}.

(** [Some a]: the program has returned [a]. *)
Inductive execs {A} : prog C D A -> G -> option A -> G -> Prop :=
| execs_cut p g : execs p g None g
| execs_ret a g : execs (PRet a) g (Some a) g
| execs_call {X} (c : C X) k x g g1 r g2 :
    eff c x g g1 -> execs (k x) g1 r g2 -> execs (PCall c k) g r g2.

(** [I] holds all the time, [Q] of the result. *)
Fixpoint ensures {A} (p : prog C D A) (g : G) (I : G -> Prop) (Q : A -> G -> Prop) : Prop :=
  I g /\
  match p with
  | PRet a => Q a g
  | PPanic => True
  | PCall c k => forall x g1, eff c x g g1 -> ensures (k x) g1 I Q
  | PLoop _ _ _ | PSelect _ _ _ => False
  end.

Lemma ensures_sound {A} (p : prog C D A) g r g' I Q :
  execs p g r g' -> ensures p g I Q -> I g' /\ forall a, r = Some a -> Q a g'.
Proof.
  induction 1 as [p g|a g|X c k x g g1 r g2 He _ IH]; intros Hp.
  - split; [by destruct p; destruct Hp | done].
  - destruct Hp as [HI HQ]. split; [done|]. by intros ? [= <-].
  - apply IH. destruct Hp as [_ Hk]. by apply Hk.
Qed.

Lemma ensures_weaken {A} (p : prog C D A) g (I I' : G -> Prop) (Q Q' : A -> G -> Prop) :
  (forall g, I g -> I' g) -> (forall a g, Q a g -> Q' a g) -> ensures p g I Q -> ensures p g I' Q'.
Proof.
  intros HI HQ. revert g.
  induction p as [A a|A|A X c k IH|A X Y x body IHb k IHk|A X Y q IHq d k IHk];
    intros g; simpl; intros [H1 H2]; split; auto. intros x g1 He. eapply IH; eauto.
Qed.

Lemma ensures_inv {A} (p : prog C D A) g (I : G -> Prop) (Q : A -> G -> Prop) :
  ensures p g I Q -> ensures p g I (fun a g => I g /\ Q a g).
Proof.
  revert g. induction p as [A a|A|A X c k IH|A X Y x body IHb k IHk|A X Y q IHq d k IHk];
    intros g; simpl; intros [H1 H2]; split; auto.
Qed.

Lemma ensures_bind {A B} (p : prog C D A) (f : A -> prog C D B) g I Q :
  ensures p g I (fun a g => ensures (f a) g I Q) -> ensures (pbind p f) g I Q.
Proof.
  revert g. induction p as [A a|A|A X c k IH|A X Y x body IHb k IHk|A X Y q IHq d k IHk];
    intros g; simpl; intros [H1 H2]; auto.
Qed.

Lemma ensures_try {E A B} (p : prog C D (result E A)) (f : A -> prog C D (result E B)) g I Q :
  ensures p g I (fun r g => match r with
                            | Ok a => ensures (f a) g I Q
                            | Err e => I g /\ Q (Err e) g
                            | Panic => I g
                            end) ->
  ensures (ptry p f) g I Q.
Proof.
  intros H. apply ensures_bind. eapply ensures_weaken; [done| |exact H].
  by intros [a|e|] g' H'.
Qed.

Lemma ensures_ret {A} (a : A) g (I : G -> Prop) (Q : A -> G -> Prop) :
  I g -> Q a g -> ensures (PRet a) g I Q.
Proof. by split. Qed.

Lemma ensures_call {X} (c : C X) g (I : G -> Prop) (Q : X -> G -> Prop) :
  I g -> (forall x g1, eff c x g g1 -> I g1 /\ Q x g1) -> ensures (pcall c) g I Q.
Proof. intros HI H. split; [done|]. intros x g1 He. by apply H. Qed.

(** Executions of a sequence. *)
Lemma execs_bind {A B} (p : prog C D A) (f : A -> prog C D B) g a g1 r g2 :
  execs p g (Some a) g1 -> execs (f a) g1 r g2 -> execs (pbind p f) g r g2.
Proof.
  intros H. remember (Some a) as o eqn:Eo. revert Eo.
  induction H as [p g|a' g|X c k x g g' r' g'' He _ IH]; intros Eo H2; simplify_eq/=; [done|].
  econstructor; eauto.
Qed.

(** ** A worker *)

Section Session.
Context {Msg A : Type} (handle : Msg -> G -> prog C D A).

(** The messages whose handling has begun; the last one may be unfinished. *)
Inductive session : list Msg -> G -> G -> Prop :=
| session_nil g : session [] g g
| session_cut m g g1 : execs (handle m g) g None g1 -> session [m] g g1
| session_cons m a ms g g1 g2 :
    execs (handle m g) g (Some a) g1 -> session ms g1 g2 -> session (m :: ms) g g2.

(** Sessions in which all messages have been handled. *)
Inductive completes : list Msg -> G -> G -> Prop :=
| completes_nil g : completes [] g g
| completes_cons m a ms g g1 g2 :
    execs (handle m g) g (Some a) g1 -> completes ms g1 g2 -> completes (m :: ms) g g2.

Lemma completes_session ms g g' : completes ms g g' -> session ms g g'.
Proof. induction 1; econstructor; eauto. Qed.

Lemma completes_sound (P : Msg -> Prop) (I : list Msg -> G -> Prop) J ms g g' :
  (forall ms m g, P m -> I ms g -> ensures (handle m g) g (J (ms ++ [m])) (fun _ => I (ms ++ [m]))) ->
  Forall P ms -> forall done, completes ms g g' -> I done g -> I (done ++ ms) g'.
Proof.
  intros Hh HP done Hs. revert done.
  induction Hs as [g|m a ms g g1 g2 He _ IH]; intros done Hi; [by rewrite app_nil_r|].
  inversion HP as [|? ? Hm HP']; subst.
  destruct (ensures_sound _ _ _ _ _ _ He (Hh done m g Hm Hi)) as [_ HQ].
  specialize (IH HP' (done ++ [m]) (HQ a eq_refl)). by rewrite <-app_assoc in IH.
Qed.

(** [I ms]: between messages, after [ms]; [all] are the messages of the session. *)
Lemma session_sound_all (I J : list Msg -> G -> Prop) all ms g g' :
  (forall ms g, I ms g -> J ms g) ->
  (forall ms m rest g, all = ms ++ m :: rest -> I ms g ->
     ensures (handle m g) g (J (ms ++ [m])) (fun _ => I (ms ++ [m]))) ->
  forall done, all = done ++ ms -> session ms g g' -> I done g -> J (done ++ ms) g'.
Proof.
  intros HIJ Hh done Hall Hs. revert done Hall.
  induction Hs as [g|m g g1 He|m a ms g g1 g2 He _ IH]; intros done Hall Hi.
  - rewrite app_nil_r. auto.
  - by destruct (ensures_sound _ _ _ _ _ _ He (Hh done m [] g Hall Hi)).
  - destruct (ensures_sound _ _ _ _ _ _ He (Hh done m ms g Hall Hi)) as [_ HQ].
    rewrite (app_assoc done [m] ms : done ++ m :: ms = _) in *. by apply IH, (HQ a).
Qed.

Lemma completes_sound_all (I J : list Msg -> G -> Prop) all ms g g' :
  (forall ms m rest g, all = ms ++ m :: rest -> I ms g ->
     ensures (handle m g) g (J (ms ++ [m])) (fun _ => I (ms ++ [m]))) ->
  forall done, all = done ++ ms -> completes ms g g' -> I done g -> I (done ++ ms) g'.
Proof.
  intros Hh done Hall Hs. revert done Hall.
  induction Hs as [g|m a ms g g1 g2 He _ IH]; intros done Hall Hi; [by rewrite app_nil_r|].
  destruct (ensures_sound _ _ _ _ _ _ He (Hh done m ms g Hall Hi)) as [_ HQ].
  rewrite (app_assoc done [m] ms : done ++ m :: ms = _) in *. by apply IH, (HQ a).
Qed.

Lemma session_sound_for (P : Msg -> Prop) (I J : list Msg -> G -> Prop) ms g g' :
  (forall ms g, I ms g -> J ms g) ->
  (forall ms m g, P m -> I ms g -> ensures (handle m g) g (J (ms ++ [m])) (fun _ => I (ms ++ [m]))) ->
  Forall P ms -> forall done, session ms g g' -> I done g -> J (done ++ ms) g'.
Proof.
  intros HIJ Hh HP done Hs. revert done.
  induction Hs as [g|m g g1 He|m a ms g g1 g2 He _ IH]; intros done Hi.
  - rewrite app_nil_r. auto.
  - apply Forall_inv in HP. by destruct (ensures_sound _ _ _ _ _ _ He (Hh done m g HP Hi)).
  - inversion HP as [|? ? Hm HP']; subst.
    destruct (ensures_sound _ _ _ _ _ _ He (Hh done m g Hm Hi)) as [_ HQ].
    specialize (IH HP' (done ++ [m]) (HQ a eq_refl)). by rewrite <-app_assoc in IH.
Qed.

Lemma session_sound (I J : list Msg -> G -> Prop) ms g g' :
  (forall ms g, I ms g -> J ms g) ->
  (forall ms m g, I ms g -> ensures (handle m g) g (J (ms ++ [m])) (fun _ => I (ms ++ [m]))) ->
  forall done, session ms g g' -> I done g -> J (done ++ ms) g'.
Proof.
  intros HIJ Hh. apply (session_sound_for (fun _ => True)); auto. by apply Forall_forall.
Qed.
End Session.

(** Messages may be tagged. *)
Lemma session_map {Msg Tag A : Type} (handle : Msg -> G -> prog C D A) (f : Tag -> Msg) l g g' :
  session handle (map f l) g g' -> session (fun t => handle (f t)) l g g'.
Proof.
  revert g. induction l as [|t l IH]; intros g H; inversion H; subst; [constructor| |].
  - destruct l; [|done]. by apply session_cut.
  - eapply session_cons; eauto.
Qed.

Lemma completes_map {Msg Tag A : Type} (handle : Msg -> G -> prog C D A) (f : Tag -> Msg) l g g' :
  completes handle (map f l) g g' -> completes (fun t => handle (f t)) l g g'.
Proof.
  revert g. induction l as [|t l IH]; intros g H; inversion H; subst; [constructor|].
  eapply completes_cons; eauto.
Qed.

(** ** A processor *)

Section Processing.
Context {E : Type} (process : G -> prog C D (result E bool)).

(** The relay calls [process] until it answers [Ok false]; errors are logged. *)
Inductive processing : G -> G -> Prop :=
| processing_stop g : processing g g
| processing_cut g r g1 : execs (process g) g r g1 -> processing g g1
| processing_more g r g1 g2 :
    execs (process g) g (Some r) g1 -> r <> Ok false -> r <> Panic -> processing g1 g2 ->
    processing g g2.

Lemma processing_sound (I J : G -> Prop) g g' :
  (forall g, I g -> J g) ->
  (forall g, I g -> ensures (process g) g J (fun r g1 => r = Ok false \/ I g1)) ->
  processing g g' -> I g -> J g'.
Proof.
  intros HIJ Hp. induction 1 as [g|g r g1 He|g r g1 g2 He Hr Hr' _ IH]; intros Hi; [by auto|..].
  - by destruct (ensures_sound _ _ _ _ _ _ He (Hp g Hi)).
  - apply IH. destruct (ensures_sound _ _ _ _ _ _ He (Hp g Hi)) as [_ HQ].
    by destruct (HQ r eq_refl).
Qed.
End Processing.
End Execution.

Arguments execs_call {C D G eff A X} c k x.
