(* ===== verification/TcpSpec.v ===== *)
(** * What a TCP connection delivers

    The worker at one end handles messages, and writes; the processor at the
    other end reads what has arrived of it, and forwards.  Whatever is cut on
    the way, the processor tries to forward the first ones of the messages that
    were handled, in order and each once; those whose forwarding fails are lost
    ([connection_in_order], [failed_forward_loses_message]).  A message that does
    not fit the 16 bits of its length breaks this ([oversized_message_smuggles]).  What comes from a
    connection reaches only the consumers of its flow control
    ([tcp_input_reaches_consumers_only]). *)

From Stdlib Require Import ZArith Lia.
From Stdlib Require Strings.Byte Strings.String.
From stdpp Require Import base gmap list numbers option countable.
From S2P Require Import Prelude RustStr Routing AccessControl FlowControl IpAddr Router Node NodeSpec.
From S2P Require Import Tcp Execution.

Class TcpCodecLaws `{TcpCodec} : Prop := {
  portal_roundtrip : forall m b, encode_portal m = Some b -> decode_portal b = Some m
}.

(** ** The sending end *)

(** A worker, what it has written to its connection, and whether a write has
    failed; then all later ones fail.  A failed write may have written a part. *)
Record sender_view := mkSenderView {
  sv_self : TcpSendWorker;
  sv_written : bytes;
  sv_failed : bool
}.

Definition sender_eff (conn : socket) X (c : tcall X) : X -> sender_view -> sender_view -> Prop :=
  match c in tcall X return X -> sender_view -> sender_view -> Prop with
  | SetSelf (WSend w) => fun _ g g' => g' = mkSenderView w (sv_written g) (sv_failed g)
  | WriteAll s b =>
      if decide (s = conn) then fun r g g' =>
        match r with
        | Ok _ => sv_failed g = false /\
            g' = mkSenderView (sv_self g) (sv_written g ++ b) false
        | _ => exists part, part `prefix_of` b /\ (sv_failed g = true -> part = []) /\
            g' = mkSenderView (sv_self g) (sv_written g ++ part) true
        end
      else fun _ g g' => g' = g
  | _ => fun _ g g' => g' = g
  end.

(** ** The receiving end *)

(** What is still to be read from the connection, and what the processor has
    tried to forward, with whether that succeeded.  After a failed read nothing
    more is read. *)
Record receiver_view := mkReceiverView {
  rv_input : bytes;
  rv_tried : attempts LocalMessage
}.

(** What has been forwarded. *)
Notation rv_forwarded g := (succeeded (rv_tried g)).
Notation no_forward_failed g := (no_failure (rv_tried g)).

Definition receiver_eff (conn : socket) X (c : tcall X) : X -> receiver_view -> receiver_view -> Prop :=
  match c in tcall X return X -> receiver_view -> receiver_view -> Prop with
  | Ctx c =>
      match c in api _ _ X return X -> receiver_view -> receiver_view -> Prop with
      | AForward _ m _ => fun r g g' => g' = mkReceiverView (rv_input g) (rv_tried g ++ [(m, is_ok r)])
      | _ => fun _ g g' => g' = g
      end
  | ReadExact s n =>
      if decide (s = conn) then fun r g g' =>
        match r with
        | Ok b => length b = n /\ rv_input g = b ++ rv_input g' /\ rv_tried g' = rv_tried g
        | _ => g' = mkReceiverView [] (rv_tried g)
        end
      else fun _ g g' => g' = g
  | _ => fun _ g g' => g' = g
  end.

Section Tcp.
Context `{TransportCodec} `{TcpCodec} {TL : TransportCodecLaws}.

(** The message that a worker puts on the wire for [msg], without its own
    address. *)
Definition on_wire (addresses : Addresses) (msg : Routed tcp_message) : option TransportMessage :=
  if decide (msg_addr msg = sender_internal_address addresses) then None
  else
    let t := transport_message (local_msg msg) in
    match onward_route t with
    | [] => None
    | _ :: onward =>
        let t := mkTransportMessage (version t) onward (return_route t) (payload t) in
        match encode_transport t with
        | Some _ => Some t
        | None => None
        end
    end.

Definition frame (t : TransportMessage) : bytes :=
  match prepare_message t with
  | Ok b => b
  | _ => []
  end.

Definition wire (ts : list TransportMessage) : bytes := concat (map frame ts).

Lemma prepare_message_ok t e :
  encode_transport t = Some e ->
  prepare_message t = Ok (to_be_bytes 2 (Z.of_nat (length e) mod 2 ^ 16) ++ e).
Proof. intros E. unfold prepare_message. rewrite E. cbn [ok_or rbind]. by rewrite <-rev_app_distr, rev_involutive. Qed.

Lemma prepare_message_none t : encode_transport t = None -> prepare_message t = Err SendBadMessage.
Proof. intros E. unfold prepare_message. by rewrite E. Qed.

Lemma wire_app ts ts' : wire (ts ++ ts') = wire ts ++ wire ts'.
Proof. unfold wire. by rewrite map_app, concat_app. Qed.

Lemma wire_omap_snoc f (ms : list (Routed tcp_message)) m :
  wire (omap f (ms ++ [m])) = wire (omap f ms) ++ match f m with Some t => frame t | None => [] end.
Proof.
  rewrite omap_app, wire_app. cbn. f_equal. destruct (f m); [|done]. unfold wire. cbn. by rewrite app_nil_r.
Qed.

(** Handling a message either leaves the connection alone or writes the frame. *)
Lemma handle_cases w msg :
  match on_wire (sw_addresses w) msg with
  | Some t =>
      TcpSendWorker_handle_message w msg =
        (do r <- pcall (WriteAll (sw_write_half w) (frame t));
         match r with Ok _ => PRet (Ok tt) | _ => TcpSendWorker_stop w end)
  | None =>
      (exists e, TcpSendWorker_handle_message w msg = PRet (Err e)) \/
      exists w', sw_addresses w' = sw_addresses w /\ sw_write_half w' = sw_write_half w /\
        TcpSendWorker_handle_message w msg =
          (do _ <- pcall (SetSelf (WSend w')); TcpSendWorker_stop w')
  end.
Proof.
  unfold on_wire, TcpSendWorker_handle_message. case_decide as Ha.
  { rewrite bool_decide_eq_true_2 by done. destruct (decode_closed _); [right | left; by eexists].
    eexists (mkTcpSendWorker _ _ _ _ _ _). split_and!; [| |reflexivity]; done. }
  rewrite bool_decide_eq_false_2 by done.
  destruct (onward_route (transport_message (local_msg msg))) as [|a onward]; [left; by eexists|].
  cbn [Route_step]. destruct (encode_transport _) as [e|] eqn:Ee.
  - unfold frame. rewrite (prepare_message_ok _ _ Ee). done.
  - rewrite (prepare_message_none _ Ee). left. by eexists.
Qed.

Section Sender.
Context (addresses : Addresses) (conn : socket).

Notation sent ms := (omap (on_wire addresses) ms).

(** What holds after the messages [ms]. *)
Definition sender_ok (ms : list (Routed tcp_message)) (g : sender_view) : Prop :=
  sw_addresses (sv_self g) = addresses /\ sw_write_half (sv_self g) = conn /\
  (sv_failed g = false -> sv_written g = wire (sent ms)) /\
  sv_written g `prefix_of` wire (sent ms).

Definition writes_prefix (ms : list (Routed tcp_message)) (g : sender_view) : Prop :=
  sv_written g `prefix_of` wire (sent ms).

(** A stop, and everything else that leaves the view as it is. *)
Lemma stop_ensures w g I Q :
  I g -> (forall r, Q r g) -> ensures (sender_eff conn) (TcpSendWorker_stop w) g I Q.
Proof. intros HI HQ. split; [done|]. intros x g1 ->. split; [done|]. apply HQ. Qed.

Lemma handle_ensures ms m g :
  sender_ok ms g ->
  ensures (sender_eff conn) (TcpSendWorker_handle_message (sv_self g) m) g
    (writes_prefix (ms ++ [m])) (fun _ => sender_ok (ms ++ [m])).
Proof.
  intros (Ha & Hc & Hw & Hp). pose proof (handle_cases (sv_self g) m) as Hm. rewrite Ha in Hm.
  assert (sv_written g `prefix_of` wire (sent (ms ++ [m]))) as Hp'.
  { rewrite wire_omap_snoc. by apply prefix_app_r. }
  destruct (on_wire addresses m) as [t|] eqn:Et.
  - assert (wire (sent (ms ++ [m])) = wire (sent ms) ++ frame t) as Ew
      by (rewrite wire_omap_snoc; by rewrite Et).
    rewrite Hm. split; [done|]. intros r g1. rewrite Hc. cbn. rewrite decide_True by done.
    destruct r as [[]|e|].
    + intros [Hf ->]. unfold writes_prefix, sender_ok. cbn. rewrite Ew, (Hw Hf).
      split; [done|]. split_and!; [exact Ha | exact Hc | done | done].
    + intros (part & Hpart & Hfailed & ->).
      assert (sv_written g ++ part `prefix_of` wire (sent (ms ++ [m]))) as Hpp.
      { destruct (sv_failed g); [by rewrite Hfailed, app_nil_r|].
        rewrite Ew, (Hw eq_refl). by apply prefix_app. }
      apply stop_ensures; [done|]. intros _. by split_and!.
    + intros (part & Hpart & Hfailed & ->).
      assert (sv_written g ++ part `prefix_of` wire (sent (ms ++ [m]))) as Hpp.
      { destruct (sv_failed g); [by rewrite Hfailed, app_nil_r|].
        rewrite Ew, (Hw eq_refl). by apply prefix_app. }
      apply stop_ensures; [done|]. intros _. by split_and!.
  - assert (wire (sent (ms ++ [m])) = wire (sent ms)) as Ew
      by (rewrite wire_omap_snoc, Et; by rewrite app_nil_r).
    destruct Hm as [[e ->] | (w' & Ea & Ec & ->)].
    + split; [done|]. split_and!; [exact Ha | exact Hc | by rewrite Ew | done].
    + split; [done|]. intros x g1 ->. apply stop_ensures; [done|]. intros _.
      split_and!; cbn; [congruence | congruence | by rewrite Ew | done].
Qed.

Lemma session_writes ms self g :
  sw_addresses self = addresses -> sw_write_half self = conn ->
  session (sender_eff conn) (fun m g => TcpSendWorker_handle_message (sv_self g) m) ms
    (mkSenderView self [] false) g ->
  sv_written g `prefix_of` wire (sent ms).
Proof.
  intros Ha Hc Hs. apply (session_sound _ _ sender_ok writes_prefix ms _ g) with (done := []) in Hs.
  - done.
  - intros ? ? Hi. apply Hi.
  - apply handle_ensures.
  - by split_and!.
Qed.

(** While no write fails everything is written. *)
Lemma session_all ms g :
  sw_addresses (sv_self g) = addresses -> sw_write_half (sv_self g) = conn -> sv_failed g = false ->
  exists g', session (sender_eff conn) (fun m g => TcpSendWorker_handle_message (sv_self g) m) ms g g' /\
    sv_written g' = sv_written g ++ wire (sent ms).
Proof.
  revert g. induction ms as [|m ms IH]; intros g Ha Hc Hf.
  { exists g. split; [constructor|]. cbn. by rewrite app_nil_r. }
  assert (exists a g1, execs (sender_eff conn) (TcpSendWorker_handle_message (sv_self g) m) g (Some a) g1 /\
    sw_addresses (sv_self g1) = addresses /\ sw_write_half (sv_self g1) = conn /\ sv_failed g1 = false /\
    sv_written g1 = sv_written g ++ match on_wire addresses m with Some t => frame t | None => [] end)
    as (a & g1 & He & Ha1 & Hc1 & Hf1 & Hw1).
  { pose proof (handle_cases (sv_self g) m) as Hm. rewrite Ha in Hm.
    destruct (on_wire addresses m) as [t|].
    - rewrite Hm. eexists _, (mkSenderView (sv_self g) (sv_written g ++ frame t) false). split.
      + eapply (execs_call _ _ (Ok tt)); [|apply execs_ret]. cbn. by rewrite decide_True.
      + done.
    - rewrite app_nil_r. destruct Hm as [[e ->] | (w' & Ea & Ec & ->)].
      + eexists _, g. split; [apply execs_ret | done].
      + eexists _, (mkSenderView w' (sv_written g) (sv_failed g)). split.
        * eapply (execs_call _ _ tt); [reflexivity|]. eapply (execs_call _ _ (Ok tt)); [reflexivity|].
          apply execs_ret.
        * cbn. split_and!; congruence. }
  destruct (IH g1 Ha1 Hc1 Hf1) as (g' & Hs & Hw). exists g'. split; [by econstructor|].
  rewrite Hw, Hw1, <-app_assoc. f_equal. cbn. by destruct (on_wire addresses m).
Qed.
End Sender.

(** ** What the receiving end does *)

(** How a message on the wire arrives: the return route leads through the worker
    of the connection; a message without a route is a heartbeat. *)
Definition arrive (a : Address) (t : TransportMessage) : option LocalMessage :=
  match onward_route t with
  | [] => None
  | _ => Some (mkLocalMessage (mkTransportMessage (version t) (onward_route t)
                                 (a :: return_route t) (payload t)) [])
  end.

(** An encoding whose length fits 16 bits. *)
Definition fits (t : TransportMessage) : Prop :=
  exists e, encode_transport t = Some e /\ (Z.of_nat (length e) < 2 ^ 16)%Z.

Lemma frame_fits t : fits t -> exists e, encode_transport t = Some e /\
  frame t = to_be_bytes 2 (Z.of_nat (length e)) ++ e /\
  Z.to_nat (from_be_bytes 0 (to_be_bytes 2 (Z.of_nat (length e)))) = length e.
Proof.
  intros (e & E & Hl). exists e. unfold frame. rewrite (prepare_message_ok _ _ E).
  rewrite Z.mod_small by lia. split_and!; [done..|]. rewrite from_to_be_bytes by lia. lia.
Qed.

(** Reading from the front of what is left. *)
Lemma prefix_split {X} (a b r l : list X) :
  a ++ b `prefix_of` r ++ l -> length a = length r -> a = r /\ b `prefix_of` l.
Proof.
  intros [k Hk] Hl. rewrite <-app_assoc in Hk.
  apply app_inj_1 in Hk as [-> Hk]; [|done]. split; [done|]. exists k. done.
Qed.

Section Receiver.
Context (self : TcpRecvProcessor).

Notation conn := (rp_read_half self).
Notation arrived ts := (omap (arrive (sender_address (rp_addresses self))) ts).

Definition forwards_prefix (ts : list TransportMessage) (g : receiver_view) : Prop :=
  (rv_tried g).*1 `prefix_of` arrived ts.

Definition receiver_ok (ts : list TransportMessage) (g : receiver_view) : Prop :=
  exists ts1 ts2, ts = ts1 ++ ts2 /\ rv_input g `prefix_of` wire ts2 /\ (rv_tried g).*1 = arrived ts1.

Lemma receiver_ok_prefix ts g : receiver_ok ts g -> forwards_prefix ts g.
Proof. intros (ts1 & ts2 & -> & _ & E). unfold forwards_prefix. rewrite E, omap_app. by exists (arrived ts2). Qed.

(** Nothing more to read. *)
Lemma receiver_ok_lost ts g : receiver_ok ts g -> receiver_ok ts (mkReceiverView [] (rv_tried g)).
Proof. intros (ts1 & ts2 & -> & _ & E). exists ts1, ts2. split_and!; [done | apply prefix_nil | done]. Qed.

(** Not in reach of the connection and not a forward: no effect. *)
Lemma process_ensures ts g :
  Forall fits ts -> receiver_ok ts g ->
  ensures (receiver_eff conn) (TcpRecvProcessor_process self) g (forwards_prefix ts)
    (fun r g1 => r = Ok false \/ receiver_ok ts g1).
Proof.
  intros Hfit Hok. pose proof (receiver_ok_prefix _ _ Hok) as Hpre.
  assert (forall r : result io_error bytes, (forall b, r <> Ok b) ->
    forall g1, receiver_eff conn _ (ReadExact conn 2) r g g1 -> g1 = mkReceiverView [] (rv_tried g)) as Hlost.
  { intros r Hr g1. cbn. rewrite decide_True by done. destruct r; [by destruct (Hr a)|done..]. }
  assert (ensures (receiver_eff conn)
    (do? _ <- ctx_call (ASend 0 [sender_internal_address (rp_addresses self)] encode_closed
                          (receiver_internal_address (rp_addresses self)) []); PRet (Ok false))
    (mkReceiverView [] (rv_tried g)) (forwards_prefix ts)
    (fun r g1 => r = Ok false \/ receiver_ok ts g1)) as Hclosed.
  { split; [done|]. intros x g1 ->. destruct x; cbn; auto using receiver_ok_lost. }
  split; [done|]. intros r g1 He. destruct r as [header|e|];
    [|apply Hlost in He as ->; [exact Hclosed | done]..].
  cbn in He. rewrite decide_True in He by done. destruct He as (Hh & Hin & Ef). clear Hlost Hclosed.
  split; [unfold forwards_prefix; by rewrite Ef|].
  destruct Hok as (ts1 & ts2 & -> & Hp & Efw). destruct ts2 as [|t ts2].
  { rewrite Hin in Hp. apply prefix_nil_inv in Hp. by destruct header. }
  apply Forall_app in Hfit as [_ Hfit]. apply list.Forall_cons in Hfit as [Ht _].
  destruct (frame_fits t Ht) as (e & Ee & Eframe & Elen).
  change (wire (t :: ts2)) with (frame t ++ wire ts2) in Hp. rewrite Eframe, <-app_assoc, Hin in Hp.
  apply prefix_split in Hp as [-> Hp]; [|by rewrite Hh, length_to_be_bytes]. rewrite Elen.
  intros r g2. cbn. rewrite decide_True by done. destruct r as [buf|e'|].
  2,3: intros ->; split; [unfold forwards_prefix; cbn; by rewrite Ef|]; right;
    exists ts1, (t :: ts2); cbn; split_and!; [done | apply prefix_nil | congruence].
  intros (Hb & Hin2 & Ef2). rewrite Hin2 in Hp. apply prefix_split in Hp as [-> Hp]; [|done].
  rewrite (transport_roundtrip _ _ Ee). cbn [ok_or plift ptry pbind].
  assert ((rv_tried g2).*1 = arrived ts1) as E2 by congruence.
  assert (forwards_prefix (ts1 ++ t :: ts2) g2) as Hpre2 by (unfold forwards_prefix; rewrite Ef2, Ef; exact Hpre).
  destruct (onward_route t) as [|a onward] eqn:Eo; cbn [Route_next head ok_or].
  - split; [done|]. right. exists (ts1 ++ [t]), ts2. rewrite <-app_assoc, omap_app. cbn.
    unfold arrive at 2. rewrite Eo, app_nil_r. done.
  - split; [done|]. intros x g3 ->.
    assert (receiver_ok (ts1 ++ t :: ts2) (mkReceiverView (rv_input g2) (rv_tried g2 ++
      [(mkLocalMessage (mkTransportMessage (version t) (a :: onward)
          (sender_address (rp_addresses self) :: return_route t) (payload t)) [], is_ok x)]))) as Hok3.
    { exists (ts1 ++ [t]), ts2. rewrite <-app_assoc, omap_app. cbn [rv_input rv_tried].
      rewrite fmap_app, E2. cbn. unfold arrive at 3. by rewrite Eo. }
    destruct x; cbn; (split; [by apply receiver_ok_prefix|]); auto.
Qed.

Lemma processing_forwards ts input g :
  Forall fits ts -> input `prefix_of` wire ts ->
  processing (receiver_eff conn) (fun _ => TcpRecvProcessor_process self) (mkReceiverView input []) g ->
  (rv_tried g).*1 `prefix_of` arrived ts.
Proof.
  intros Hf Hp Hr. apply (processing_sound _ _ (receiver_ok ts) (forwards_prefix ts)) in Hr.
  - done.
  - apply receiver_ok_prefix.
  - intros g0 Hg. by apply process_ensures.
  - exists [], ts. done.
Qed.

(** What is done with the bytes of a frame. *)
Definition on_buffer (buf : bytes) : tprog (tresult bool) :=
  do? msg <- plift (ok_or (decode_transport buf) (TTransport RecvBadMessage));
  match Route_next (onward_route msg) with
  | Ok _ =>
      let msg := mkTransportMessage (version msg) (onward_route msg)
                   (sender_address (rp_addresses self) :: return_route msg) (payload msg) in
      do? _ <- ctx_call (AForward 0 (mkLocalMessage msg []) (receiver_address (rp_addresses self)));
      PRet (Ok true)
  | _ => PRet (Ok true)
  end.

Lemma process_reads e rest fw r g :
  (Z.of_nat (length e) < 2 ^ 16)%Z ->
  execs (receiver_eff conn) (on_buffer e) (mkReceiverView rest fw) r g ->
  execs (receiver_eff conn) (TcpRecvProcessor_process self)
    (mkReceiverView (to_be_bytes 2 (Z.of_nat (length e)) ++ e ++ rest) fw) r g.
Proof.
  intros Hl Hx.
  eapply (execs_call _ _ (Ok (to_be_bytes 2 (Z.of_nat (length e)))) _ (mkReceiverView (e ++ rest) fw)).
  { cbn. rewrite decide_True by done. by rewrite length_to_be_bytes. }
  cbv beta iota. rewrite from_to_be_bytes, Z.mul_0_l, Z.add_0_l, Nat2Z.id by lia.
  eapply (execs_call _ _ (Ok e) _ (mkReceiverView rest fw)); [cbn; by rewrite decide_True | exact Hx].
Qed.

(** One frame is one round. *)
Lemma process_frame t rest fw :
  fits t -> exists r, r <> Ok false /\ r <> Panic /\
  execs (receiver_eff conn) (TcpRecvProcessor_process self) (mkReceiverView (frame t ++ rest) fw) (Some r)
    (mkReceiverView rest (fw ++ map (fun m => (m, true)) (arrived [t]))).
Proof.
  intros Ht. destruct (frame_fits t Ht) as (e & Ee & Eframe & Elen). exists (Ok true).
  split; [done|]. split; [done|]. rewrite Eframe, <-app_assoc. apply process_reads.
  { destruct Ht as (e' & Ee' & Hl). by assert (e = e') as -> by congruence. }
  unfold on_buffer. rewrite (transport_roundtrip _ _ Ee). cbn [ok_or plift ptry pbind].
  destruct (onward_route t) as [|a onward] eqn:Eo; cbn [Route_next head ok_or].
  - cbn. unfold arrive. rewrite Eo, app_nil_r. apply execs_ret.
  - eapply (execs_call _ _ (Ok tt)); [reflexivity|]. cbn. unfold arrive. rewrite Eo. apply execs_ret.
Qed.

(** So is one that does not decode, or to something else. *)
Lemma process_any_frame e rest fw :
  (Z.of_nat (length e) < 2 ^ 16)%Z -> exists r fw', r <> Ok false /\ r <> Panic /\
  execs (receiver_eff conn) (TcpRecvProcessor_process self)
    (mkReceiverView (to_be_bytes 2 (Z.of_nat (length e)) ++ e ++ rest) fw) (Some r)
    (mkReceiverView rest (fw ++ fw')).
Proof.
  intros Hl. assert (exists r fw', r <> Ok false /\ r <> Panic /\
    execs (receiver_eff conn) (on_buffer e) (mkReceiverView rest fw) (Some r)
      (mkReceiverView rest (fw ++ fw'))) as (r & fw' & Hr & Hr' & Hx).
  { unfold on_buffer. destruct (decode_transport e) as [m|].
    - destruct (onward_route m) as [|a onward] eqn:Eo.
      + exists (Ok true), []. split_and!; [done..|]. cbn. rewrite Eo, app_nil_r. apply execs_ret.
      + eexists (Ok true), [_]. split_and!; [done..|]. cbn. rewrite Eo.
        eapply (execs_call _ _ (Ok tt)); [reflexivity|]. apply execs_ret.
    - exists (Err (TTransport RecvBadMessage)), []. split_and!; [done..|].
      rewrite app_nil_r. apply execs_ret. }
  exists r, fw'. split_and!; [done..|]. by apply process_reads.
Qed.

Lemma processing_all ts fw :
  Forall fits ts -> exists g,
  processing (receiver_eff conn) (fun _ => TcpRecvProcessor_process self) (mkReceiverView (wire ts) fw) g /\
  rv_tried g = fw ++ map (fun m => (m, true)) (arrived ts).
Proof.
  intros Hf. revert fw. induction Hf as [|t ts Ht _ IH]; intros fw.
  { eexists. split; [constructor|]. cbn. by rewrite app_nil_r. }
  destruct (process_frame t (wire ts) fw Ht) as (r & Hr & Hr' & He).
  destruct (IH (fw ++ map (fun m => (m, true)) (arrived [t]))) as (g & Hg & Efw). exists g. split.
  - eapply processing_more; [exact He | done..].
  - by rewrite Efw, <-app_assoc, <-map_app, <-omap_app.
Qed.
End Receiver.

(** C26: a TCP connection keeps messages and their order.  One end handles
    messages whose encodings fit the 16 bits of a length, the other forwards what
    arrives.  Whatever part of the bytes arrives and wherever either end is
    stopped or its connection fails, the processor tries to forward the first
    ones of those handled, in order and each once (each without the address of
    the sending worker, its return route through the receiving end, heartbeats
    left out).  What it has forwarded are these without those whose forwarding
    failed: the first ones of those handled if no forwarding failed, and all of
    them if nothing fails and everything arrives. *)
Theorem connection_in_order (sender : TcpSendWorker) (receiver : TcpRecvProcessor)
    (ms : list (Routed tcp_message)) :
  let ts := omap (on_wire (sw_addresses sender)) ms in
  let delivered := omap (arrive (sender_address (rp_addresses receiver))) ts in
  let sending := session (sender_eff (sw_write_half sender))
    (fun m g => TcpSendWorker_handle_message (sv_self g) m) ms (mkSenderView sender [] false) in
  let receiving input := processing (receiver_eff (rp_read_half receiver))
    (fun _ => TcpRecvProcessor_process receiver) (mkReceiverView input []) in
  Forall fits ts ->
  (forall gs input gr, sending gs -> input `prefix_of` sv_written gs -> receiving input gr ->
     (rv_tried gr).*1 `prefix_of` delivered /\ rv_forwarded gr `sublist_of` delivered /\
     (no_forward_failed gr -> rv_forwarded gr `prefix_of` delivered)) /\
  (exists gs gr, sending gs /\ receiving (sv_written gs) gr /\
     no_forward_failed gr /\ rv_forwarded gr = delivered).
Proof.
  intros ts delivered sending receiving Hf. split.
  - intros gs input gr Hs Hi Hr.
    pose proof (session_writes (sw_addresses sender) (sw_write_half sender) ms sender gs eq_refl eq_refl Hs).
    assert ((rv_tried gr).*1 `prefix_of` delivered) as Hp
      by (apply (processing_forwards receiver ts input gr Hf); [by etrans | exact Hr]).
    split_and!; [done | by apply succeeded_sublist_of | intros Hn; by rewrite (succeeded_all _ Hn)].
  - destruct (session_all (sw_addresses sender) (sw_write_half sender) ms (mkSenderView sender [] false)
                eq_refl eq_refl eq_refl) as (gs & Hs & Ew). cbn in Ew.
    destruct (processing_all receiver ts [] Hf) as (gr & Hr & Efw).
    exists gs, gr. split; [done|]. rewrite Ew. split; [done|]. cbn in Efw. rewrite Efw. apply all_succeed.
Qed.

(** A message that the processor cannot forward is logged and forgotten, and
    the ones after it are forwarded. *)
Theorem failed_forward_loses_message (receiver : TcpRecvProcessor) (t t' : TransportMessage)
    (m m' : LocalMessage) (e0 : cerror) :
  let a := arrive (sender_address (rp_addresses receiver)) in
  fits t -> fits t' -> a t = Some m -> a t' = Some m' ->
  exists g, processing (receiver_eff (rp_read_half receiver)) (fun _ => TcpRecvProcessor_process receiver)
              (mkReceiverView (wire [t; t']) []) g /\ rv_forwarded g = [m'].
Proof.
  intros a Ht Ht' Ha Ha'. destruct (process_frame receiver t' [] [(m, false)] Ht') as (r & Hr & Hp & Hx).
  destruct (frame_fits t Ht) as (e & Ee & Eframe & _). unfold wire. cbn [map concat].
  exists (mkReceiverView [] [(m, false); (m', true)]). split; [|done].
  eapply (processing_more _ _ _ (Err (TContext e0))); [|done..|].
  - rewrite Eframe, <-app_assoc. apply process_reads.
    { destruct Ht as (e' & Ee' & Hl). by assert (e = e') as -> by congruence. }
    unfold on_buffer. rewrite (transport_roundtrip _ _ Ee). cbn [ok_or plift ptry pbind].
    unfold a, arrive in Ha. destruct (onward_route t) as [|next onward] eqn:Eo; [done|].
    cbn [Route_next head ok_or]. injection Ha as <-.
    eapply (execs_call _ _ (Err e0)); [reflexivity|]. apply execs_ret.
  - cbn in Hx. fold a in Hx. rewrite Ha' in Hx. eapply processing_more; [exact Hx | done..|constructor].
Qed.

(** The length of a message is cut to 16 bits without a check.  The receiver
    of a message that is longer takes the bytes after the cut as the next frame:
    if they read as a frame, it forwards a message [t'] that nobody has sent,
    from inside of the payload of [t]. *)
Theorem oversized_message_smuggles (receiver : TcpRecvProcessor) (t t' : TransportMessage)
    (e1 e2 : bytes) (m' : LocalMessage) :
  let e := e1 ++ frame t' ++ e2 in
  encode_transport t = Some e -> (Z.of_nat (length e) mod 2 ^ 16 = Z.of_nat (length e1))%Z ->
  fits t' -> arrive (sender_address (rp_addresses receiver)) t' = Some m' ->
  exists g, processing (receiver_eff (rp_read_half receiver)) (fun _ => TcpRecvProcessor_process receiver)
              (mkReceiverView (frame t) []) g /\ m' ∈ rv_forwarded g.
Proof.
  intros e Ee Hmod Ht Hm. unfold frame at 1. rewrite (prepare_message_ok _ _ Ee), Hmod.
  assert (Z.of_nat (length e1) < 2 ^ 16)%Z as Hl by (rewrite <-Hmod; by apply Z.mod_pos_bound).
  destruct (process_any_frame receiver e1 (frame t' ++ e2) [] Hl) as (r1 & fw & Hr1 & Hp1 & Hx1).
  destruct (process_frame receiver t' e2 fw Ht) as (r2 & Hr2 & Hp2 & Hx2).
  exists (mkReceiverView e2 (fw ++ [(m', true)])).
  split; [|cbn [rv_tried]; rewrite succeeded_app; apply elem_of_app; right; by left].
  eapply processing_more; [exact Hx1 | done | done|]. cbn [app].
  eapply processing_more; [|done|done|constructor].
  cbn in Hx2. rewrite Hm in Hx2. exact Hx2.
Qed.
End Tcp.

(** ** Host names *)

Lemma iter_find_none {A} (p : A -> bool) l : (iter_find p l).1 = None -> (iter_find p l).2 = [].
Proof. induction l as [|x l IH]; cbn; [done|]. by destruct (p x). Qed.

Lemma iter_find_find {A} (p : A -> bool) l : (iter_find p l).1 = List.find p l.
Proof. induction l as [|x l IH]; cbn; [done|]. by destruct (p x). Qed.

(** A peer is the address its text denotes, or else the first IPv4 address
    its name has.  A name that has IPv6 addresses only is refused: the search
    for them looks at an iterator that the search for IPv4 has used up. *)
Theorem resolve_peer_outcomes `{HostLookup} (peer : bytes) :
  resolve_peer peer =
    match parse_socket_addr peer with
    | Ok p => Ok p
    | _ => match to_socket_addrs peer with
           | Some l => ok_or (List.find is_ipv4 l) InvalidAddress
           | None => Err InvalidAddress
           end
    end.
Proof.
  unfold resolve_peer. destruct (parse_socket_addr peer); [done|..];
    (destruct (to_socket_addrs peer) as [l|]; [|done]);
    pose proof (iter_find_find is_ipv4 l) as Ef; pose proof (iter_find_none is_ipv4 l) as En;
    (destruct (iter_find is_ipv4 l) as [[p|] rest]; cbn in Ef, En; rewrite <-Ef; [done|]);
    by rewrite En.
Qed.

(** ** Who is reached from outside *)

(** The outgoing access control of a receiver, for the messages it forwards. *)
Lemma receiver_outgoing fc addresses id spawner m :
  Mailboxes_is_outgoing_authorized
    (now fc (receiver_mailboxes addresses
               (receiver_outgoing_access_control (tcp_access_control id spawner)))) m = Ok true ->
  rm_source m = receiver_address addresses ->
  exists next, Route_next (RelayMessage_onward_route m) = Ok next /\
    (mem fc id next \/ exists s, spawner = Some s /\ mem fc s next).
Proof.
  intros H Hs. unfold Mailboxes_is_outgoing_authorized, Mailboxes_find_mailbox in H.
  rewrite Hs, decide_True in H by done.
  change (FlowControlOutgoing_is_authorized (mkFlowControlAC fc id spawner) m = Ok true) in H.
  unfold FlowControlOutgoing_is_authorized, is_consumer in H.
  destruct (Route_next (RelayMessage_onward_route m)) as [next|e|]; [|done..].
  exists next. split; [done|]. cbn in H. unfold mem.
  case_bool_decide as E1; [by left|]. right. destruct spawner as [s|]; [|done].
  exists s. split; [done|]. by case_bool_decide.
Qed.

(** C25: a message that came from a TCP connection and that a worker handles was
    on its way to a consumer of the flow control of the connection, or of the
    listener that accepted it, as these were at some point of the run.  This
    holds for every application and whatever bytes arrive, if the address of the
    receiver belongs to a receiver that was started with these identifiers. *)
Theorem tcp_input_reaches_consumers_only {W M} (bare_uint : Z -> bytes) (code : WorkerCode W M)
    (w : W) (main : user_prog W M unit) sched n ctx m (addresses : Addresses) (id : FlowControlId)
    (spawner : option FlowControlId) :
  run_node bare_uint code sched (node_build bare_uint w main) = Some n ->
  LHandled ctx m ∈ n_log n -> rm_source m = receiver_address addresses ->
  (forall from, LContext from ∈ n_log n -> receiver_address addresses ∈ ctx_addresses from ->
     c_mailboxes from =
       receiver_mailboxes addresses (receiver_outgoing_access_control (tcp_access_control id spawner))) ->
  exists n1 next, earlier bare_uint code w main sched n1 /\
    Route_next (RelayMessage_onward_route m) = Ok next /\
    (mem (shared_flows n1) id next \/ exists s, spawner = Some s /\ mem (shared_flows n1) s next).
Proof.
  intros Hr Hh Hs Hown. destruct (handled_event _ _ _ _ _ _ _ _ Hr Hh) as (_ & from & Hk & _ & Ho).
  destruct Ho as (Hsrc & fc & Hc & Ha). rewrite Hs in Hsrc. rewrite (Hown from Hk Hsrc) in Ha.
  destruct (checked_earlier _ _ _ _ _ _ _ Hr Hc) as (n1 & He & ->).
  destruct (receiver_outgoing _ _ _ _ _ Ha Hs) as (next & Hn & Hm). by exists n1, next.
Qed.
