(* ===== verification/Portal.v ===== *)
(** * TCP portals (ockam_transport_tcp/src/portal, transport/portals.rs)

    An inlet accepts a TCP connection and an outlet makes one; between them the
    bytes of the two connections travel as messages.  At each end a
    [TcpPortalWorker] writes what arrives from the other end to its connection,
    and a [TcpPortalRecvProcessor] reads the connection and forwards. *)

From Stdlib Require Import ZArith Lia.
From Stdlib Require Strings.Byte Strings.String.
From stdpp Require Import base gmap list numbers option countable.
From S2P Require Import Prelude RustStr Routing AccessControl FlowControl Router Node Tcp.

Inductive DisconnectionReason := FailedTx | FailedRx | Remote.

(** [slice::chunks] *)
Fixpoint chunks_go (fuel n : nat) (l : bytes) : list bytes :=
  match fuel with
  | O => []
  | S fuel => match l with
              | [] => []
              | _ => take n l :: chunks_go fuel n (drop n l)
              end
  end.

Definition chunks (n : Z) (l : bytes) : list bytes := chunks_go (length l) (Z.to_nat n) l.

Section Portal.
Context `{TcpCodec} `{HostLookup}.

Definition PortalType_str (t : PortalType) : bytes :=
  match t with
  | Inlet => str "inlet"
  | Outlet => str "outlet"
  end.

Definition PortalAddresses_generate (t : PortalType) : tprog PortalAddresses :=
  let type_name := PortalType_str t in
  do internal <- pcall (RandomTagged (str "TcpPortalWorker." ++ type_name ++ str ".internal"));
  do remote <- pcall (RandomTagged (str "TcpPortalWorker." ++ type_name ++ str ".remote"));
  do receiver <- pcall (RandomTagged (str "TcpPortalRecvProcessor." ++ type_name));
  PRet (mkPortalAddresses internal remote receiver).

(** ** portal_worker.rs *)

Definition with_state (s : State) (w : TcpPortalWorker) : TcpPortalWorker :=
  mkTcpPortalWorker s (pw_write_half w) (pw_read_half w) (pw_peer w) (pw_addresses w)
    (pw_remote_route w) (pw_is_disconnecting w) (pw_portal_type w).
Definition with_halves (tx rx : option socket) (w : TcpPortalWorker) : TcpPortalWorker :=
  mkTcpPortalWorker (pw_state w) tx rx (pw_peer w) (pw_addresses w)
    (pw_remote_route w) (pw_is_disconnecting w) (pw_portal_type w).
Definition with_remote_route (r : option Route) (w : TcpPortalWorker) : TcpPortalWorker :=
  mkTcpPortalWorker (pw_state w) (pw_write_half w) (pw_read_half w) (pw_peer w) (pw_addresses w)
    r (pw_is_disconnecting w) (pw_portal_type w).
Definition set_disconnecting (w : TcpPortalWorker) : TcpPortalWorker :=
  mkTcpPortalWorker (pw_state w) (pw_write_half w) (pw_read_half w) (pw_peer w) (pw_addresses w)
    (pw_remote_route w) true (pw_portal_type w).

(** [&mut self]: the worker as it is left is stored, and returned. *)
Definition store (w : TcpPortalWorker) : tprog TcpPortalWorker :=
  do _ <- pcall (SetSelf (WPortal w)); PRet w.

Definition TcpPortalWorker_start (peer : SocketAddr) (state : State) (stream : option socket)
    (addresses : PortalAddresses) (portal_type : PortalType) (access_control : SharedAccessControl)
  : tprog (tresult unit) :=
  let worker := mkTcpPortalWorker state stream stream peer addresses None false portal_type in
  let internal_mailbox :=
    mkSharedMailbox (pa_internal addresses)
      (fun _ => dyn_incoming (mkAllowSourceAddress (pa_receiver addresses)))
      (fun _ => dyn_outgoing mkDenyAll) in
  let remote_mailbox :=
    mkSharedMailbox (pa_remote addresses) access_control (fun _ => dyn_outgoing mkAllowAll) in
  ctx_call (AStartWorker 0 (mkSharedMailboxes internal_mailbox [remote_mailbox]) (WPortal worker)).

Definition start_new_inlet (stream : socket) (peer : SocketAddr) (ping_route : Route)
    (addresses : PortalAddresses) (access_control : SharedAccessControl) : tprog (tresult unit) :=
  TcpPortalWorker_start peer (SendPing ping_route) (Some stream) addresses Inlet access_control.

Definition start_new_outlet (peer : SocketAddr) (pong_route : Route)
    (addresses : PortalAddresses) (access_control : SharedAccessControl) : tprog (tresult unit) :=
  TcpPortalWorker_start peer (SendPong pong_route) None addresses Outlet access_control.

Definition TcpPortalRecvProcessor_new (read_half : socket) (sender_address : Address)
    (onward_route : Route) : TcpPortalRecvProcessor :=
  mkTcpPortalRecvProcessor [] read_half sender_address onward_route.

Definition start_receiver (self : TcpPortalWorker) (onward_route : Route)
  : tprog (tresult TcpPortalWorker) :=
  match pw_read_half self with
  | Some rx =>
      do self <- store (with_halves (pw_write_half self) None self);
      do? next_hop <- plift (route_result (Route_next onward_route));
      let receiver := TcpPortalRecvProcessor_new rx (pa_internal (pw_addresses self)) onward_route in
      do? _ <- ctx_call (AStartProcessor 0
        (main_mailboxes (pa_receiver (pw_addresses self)) (fun _ => dyn_incoming mkDenyAll)
           (fun _ => dyn_outgoing (mkAllowOnwardAddresses [next_hop; pa_internal (pw_addresses self)])))
        (WPortalRecv receiver));
      PRet (Ok self)
  | None => transport_err PortalInvalidState
  end.

Definition notify_remote_about_disconnection (self : TcpPortalWorker)
  : tprog (tresult TcpPortalWorker) :=
  match pw_remote_route self with
  | Some remote_route =>
      do self <- store (with_remote_route None self);
      do? _ <- ctx_call (ASend 0 remote_route (encode_portal Disconnect)
                           (pa_remote (pw_addresses self)) []);
      do _ <- pcall (Sleep 1);
      PRet (Ok self)
  | None =>
      do _ <- pcall (Sleep 1);
      PRet (Ok self)
  end.

Definition stop_receiver (self : TcpPortalWorker) : tprog (tresult unit) :=
  do _ <- pcall (Sleep 1);
  do _ <- stop_processor (pa_receiver (pw_addresses self));
  PRet (Ok tt).

Definition start_disconnection (self : TcpPortalWorker) (reason : DisconnectionReason)
  : tprog (tresult unit) :=
  do self <- store (set_disconnecting self);
  do? self <- match reason with
              | FailedTx => notify_remote_about_disconnection self
              | FailedRx =>
                  do? self <- notify_remote_about_disconnection self;
                  do? _ <- stop_receiver self;
                  PRet (Ok self)
              | Remote =>
                  do? _ <- stop_receiver self;
                  PRet (Ok self)
              end;
  stop_worker (pa_internal (pw_addresses self)).

Definition handle_send_ping (self : TcpPortalWorker) (ping_route : Route) : tprog (tresult State) :=
  do? _ <- ctx_call (ASend 0 ping_route (encode_portal Ping) (pa_remote (pw_addresses self)) []);
  PRet (Ok ReceivePong).

Definition handle_send_pong (self : TcpPortalWorker) (pong_route : Route)
  : tprog (tresult (TcpPortalWorker * State)) :=
  do? _ <- ctx_call (ASend 0 pong_route (encode_portal Pong) (pa_remote (pw_addresses self)) []);
  do? self <- match pw_write_half self with
              | None =>
                  do? stream <- io_call (Connect (pw_peer self));
                  do self <- store (with_halves (Some stream) (Some stream) self);
                  start_receiver self pong_route
              | Some _ => PRet (Ok self)
              end;
  do self <- store (with_remote_route (Some pong_route) self);
  PRet (Ok (self, Initialized)).

Definition TcpPortalWorker_initialize (self : TcpPortalWorker) : tprog (tresult unit) :=
  do? self <- match pw_state self with
              | SendPing ping_route =>
                  do? state <- handle_send_ping self ping_route;
                  do self <- store (with_state state self);
                  PRet (Ok self)
              | SendPong pong_route =>
                  do? x <- handle_send_pong self pong_route;
                  let (self, state) := x : TcpPortalWorker * State in
                  do self <- store (with_state state self);
                  PRet (Ok self)
              | ReceivePong | Initialized => transport_err PortalInvalidState
              end;
  do _ <- pcall (Registry (add_portal_worker (pa_remote (pw_addresses self))));
  PRet (Ok tt).

Definition TcpPortalWorker_shutdown (self : TcpPortalWorker) : tprog (tresult unit) :=
  do _ <- pcall (Registry (remove_portal_worker (pa_remote (pw_addresses self)))); PRet (Ok tt).

Definition handle_remote (self : TcpPortalWorker) (m : PortalMessage) : tprog (tresult unit) :=
  match m with
  | Payload payload =>
      match pw_write_half self with
      | Some tx =>
          do r <- pcall (WriteAll tx payload);
          match r with
          | Ok _ => PRet (Ok tt)
          | _ => start_disconnection self FailedTx
          end
      | None => transport_err PortalInvalidState
      end
  | Disconnect => start_disconnection self Remote
  | Ping | Pong => transport_err Protocol
  end.

Definition TcpPortalWorker_handle_message (self : TcpPortalWorker) (msg : Routed tcp_message)
  : tprog (tresult unit) :=
  let transport := transport_message (local_msg msg) in
  if pw_is_disconnecting self then PRet (Ok tt)
  else
    let (r, onward_route) := Route_step (onward_route transport) in
    do? recipient <- plift (route_result r);
    let return_route := return_route transport in
    if is_ok (Route_next onward_route) then transport_err UnknownRoute
    else
      let internal := bool_decide (recipient = pa_internal (pw_addresses self)) in
      match pw_state self with
      | ReceivePong =>
          if internal then transport_err PortalInvalidState
          else
            do? m <- plift (ok_or (decode_portal (payload transport)) TCodec);
            match m with
            | Pong =>
                do? self <- start_receiver self return_route;
                do self <- store (with_remote_route (Some return_route) self);
                do _ <- store (with_state Initialized self);
                PRet (Ok tt)
            | _ => transport_err Protocol
            end
      | Initialized =>
          if internal then
            do? m <- plift (ok_or (decode_internal (payload transport)) TCodec);
            match m with
            | InternalDisconnect => start_disconnection self FailedRx
            end
          else
            do? m <- plift (ok_or (decode_portal (payload transport)) TCodec);
            handle_remote self m
      | SendPing _ | SendPong _ => transport_err PortalInvalidState
      end.

(** ** portal_receiver.rs *)

Definition TcpPortalRecvProcessor_initialize (own : Address) : tprog (tresult unit) :=
  do _ <- pcall (Registry (add_portal_receiver_processor own)); PRet (Ok tt).

Definition TcpPortalRecvProcessor_shutdown (own : Address) : tprog (tresult unit) :=
  do _ <- pcall (Registry (remove_portal_receiver_processor own)); PRet (Ok tt).

(** A message of the receiver to the other end; [own] is the address of its
    context. *)
Definition forward_portal (own : Address) (self : TcpPortalRecvProcessor) (m : PortalMessage)
  : tprog (tresult unit) :=
  do? data <- plift (ok_or (encode_portal m) TCodec);
  let msg := TransportMessage_v1 (pr_onward_route self) [pr_sender_address self] data in
  ctx_call (AForward 0 (mkLocalMessage msg []) own).

Fixpoint forward_chunks (own : Address) (self : TcpPortalRecvProcessor) (l : list bytes)
  : tprog (tresult unit) :=
  match l with
  | [] => PRet (Ok tt)
  | chunk :: l =>
      do? _ <- forward_portal own self (Payload chunk);
      forward_chunks own self l
  end.

(** The buffer is cleared before it is filled again. *)
Definition TcpPortalRecvProcessor_process (own : Address) (self : TcpPortalRecvProcessor)
  : tprog (tresult bool) :=
  do r <- pcall (ReadBuf (pr_read_half self) MAX_PAYLOAD_SIZE);
  match r with
  | Ok buf =>
      let self := mkTcpPortalRecvProcessor buf (pr_read_half self) (pr_sender_address self)
                    (pr_onward_route self) in
      do _ <- pcall (SetSelf (WPortalRecv self));
      match buf with
      | [] =>
          do _ <- ctx_call (ASend 0 [pr_sender_address self] (encode_internal InternalDisconnect) own []);
          do? _ <- forward_portal own self Disconnect;
          PRet (Ok false)
      | _ =>
          do? _ <- forward_chunks own self (chunks MAX_PAYLOAD_SIZE buf);
          PRet (Ok true)
      end
  | _ => PRet (Ok false)
  end.

(** ** inlet_listener.rs, outlet_listener.rs *)

Definition TcpInletListenProcessor_start (outlet_listener_route : Route) (a : SocketAddr)
    (options : TcpInletOptions) : tprog (tresult (SocketAddr * Address)) :=
  do processor_address <- pcall (RandomTagged (str "TcpInletListenProcessor"));
  do? x <- io_call (Bind a);
  let (inner, socket_addr) := x : socket * SocketAddr in
  do? _ <- ctx_start_local_processor processor_address
             (WInlet (mkTcpInletListenProcessor inner outlet_listener_route options));
  PRet (Ok (socket_addr, processor_address)).

Definition TcpInletListenProcessor_initialize (own : Address) : tprog (tresult unit) :=
  do _ <- pcall (Registry (add_inlet_listener_processor own)); PRet (Ok tt).

Definition TcpInletListenProcessor_shutdown (own : Address) : tprog (tresult unit) :=
  do _ <- pcall (Registry (remove_inlet_listener_processor own)); PRet (Ok tt).

Definition TcpInletListenProcessor_process (self : TcpInletListenProcessor) : tprog (tresult bool) :=
  do addresses <- PortalAddresses_generate Inlet;
  do? next <- plift (route_result (Route_next (il_outlet_listener_route self)));
  do _ <- update_flow_controls (TcpInletOptions_setup_flow_control addresses next);
  do? x <- io_call (Accept (il_inner self));
  let (stream, peer) := x : socket * SocketAddr in
  do? _ <- start_new_inlet stream peer (il_outlet_listener_route self) addresses
             (io_incoming_access_control (il_options self));
  PRet (Ok true).

Definition TcpOutletListenWorker_start (address : Address) (peer : SocketAddr)
    (options : TcpOutletOptions) : tprog (tresult unit) :=
  do _ <- update_flow_controls (setup_flow_control_for_outlet_listener options address);
  ctx_call (AStartWorker 0
    (main_mailboxes address (oo_incoming_access_control options) (fun _ => dyn_outgoing mkDenyAll))
    (WOutlet (mkTcpOutletListenWorker peer options))).

Definition TcpOutletListenWorker_initialize (own : Address) : tprog (tresult unit) :=
  do _ <- pcall (Registry (add_outlet_listener_worker own)); PRet (Ok tt).

Definition TcpOutletListenWorker_shutdown (own : Address) : tprog (tresult unit) :=
  do _ <- pcall (Registry (remove_outlet_listener_worker own)); PRet (Ok tt).

Definition TcpOutletListenWorker_handle_message (self : TcpOutletListenWorker)
    (msg : Routed tcp_message) : tprog (tresult unit) :=
  let return_route := return_route (transport_message (local_msg msg)) in
  match inner msg with
  | APortalMessage Ping =>
      do addresses <- PortalAddresses_generate Outlet;
      do _ <- update_flow_controls (setup_flow_control_for_outlet addresses (src_addr msg));
      start_new_outlet (ol_peer self) return_route addresses
        (oo_incoming_access_control (ol_options self))
  | _ => transport_err Protocol
  end.

(** ** transport/portals.rs *)

Definition TcpTransport_create_inlet (bind_addr : bytes) (outlet_route : Route)
    (options : TcpInletOptions) : tprog (tresult (SocketAddr * Address)) :=
  do? socket_addr <- plift (map_err TTransport (parse_socket_addr bind_addr));
  TcpInletListenProcessor_start outlet_route socket_addr options.

Definition TcpTransport_stop_inlet (a : Address) : tprog (tresult unit) := stop_processor a.

Definition TcpTransport_create_outlet (address : Address) (peer : bytes) (options : TcpOutletOptions)
  : tprog (tresult unit) :=
  do? peer_addr <- plift (map_err TTransport (resolve_peer peer));
  TcpOutletListenWorker_start address peer_addr options.

Definition TcpTransport_stop_outlet (a : Address) : tprog (tresult unit) := stop_worker a.
End Portal.
