(* ===== verification/PortalSpec.v ===== *)
(** * What a portal delivers

    A processor reads the connection at one end and forwards what it reads; the
    worker at the other end writes what arrives.  The payloads arrive in the
    order in which they were forwarded (this is what mailboxes, connections and
    secure channels in between do).  Then the bytes that come out are bytes that
    went in, in their order, and the first ones of them if no forwarding failed
    ([portal_in_order]); otherwise there are holes ([failed_forward_leaves_gap]). *)

From Stdlib Require Import ZArith Lia.
From Stdlib Require Strings.Byte Strings.String.
From stdpp Require Import base gmap list numbers option countable.
From S2P Require Import Prelude RustStr Routing AccessControl FlowControl Router Node.
From S2P Require Import Tcp Execution TcpSpec Portal.

Class PortalCodecLaws `{TcpCodec} : Prop := {
  portal_encodes : forall m, is_Some (encode_portal m)
}.

Lemma chunks_go_concat fuel n l :
  0 < n -> length l <= fuel -> concat (chunks_go fuel n l) = l.
Proof.
  intros Hn. revert l. induction fuel as [|fuel IH]; intros l Hl; cbn.
  - by destruct l; [|cbn in Hl; lia].
  - destruct l as [|x l]; [done|]. cbn [concat].
    rewrite IH; [by rewrite take_drop|]. rewrite length_drop. cbn [length] in *. lia.
Qed.

Lemma chunks_concat n l : (0 < n)%Z -> concat (chunks n l) = l.
Proof. intros. apply chunks_go_concat; lia. Qed.

Section Portal.
Context `{TcpCodec} {TL : TcpCodecLaws} {PL : PortalCodecLaws}.

(** The bytes in a message between the two ends. *)
Definition payload_of (data : bytes) : option bytes :=
  match decode_portal data with
  | Some (Payload b) => Some b
  | _ => None
  end.

(** ** Reading *)

(** What was read from the connection, and what the processor tried to forward,
    with whether that succeeded. *)
Record reader_view := mkReaderView {
  rd_read : bytes;
  rd_tried : attempts LocalMessage
}.

Definition rd_forwarded (g : reader_view) : list LocalMessage := succeeded (rd_tried g).

Definition reader_eff (conn : socket) X (c : tcall X) : X -> reader_view -> reader_view -> Prop :=
  match c in tcall X return X -> reader_view -> reader_view -> Prop with
  | Ctx c =>
      match c in api _ _ X return X -> reader_view -> reader_view -> Prop with
      | AForward _ m _ => fun r g g' => g' = mkReaderView (rd_read g) (rd_tried g ++ [(m, is_ok r)])
      | _ => fun _ g g' => g' = g
      end
  | ReadBuf s max =>
      if decide (s = conn) then fun r g g' =>
        match r with
        | Ok b => (Z.of_nat (length b) <= max)%Z /\ g' = mkReaderView (rd_read g ++ b) (rd_tried g)
        | _ => g' = g
        end
      else fun _ g g' => g' = g
  | _ => fun _ g g' => g' = g
  end.

(** The payloads among the forwarded messages. *)
Definition payloads (l : list LocalMessage) : list bytes :=
  omap (fun m => payload_of (payload (transport_message m))) l.

Definition carried_bytes (g : reader_view) : bytes := concat (payloads (rd_forwarded g)).

Lemma carried_snoc b l m r :
  carried_bytes (mkReaderView b (l ++ [(m, r)])) =
  carried_bytes (mkReaderView b l) ++
    (if r then default [] (payload_of (payload (transport_message m))) else []).
Proof.
  unfold carried_bytes, rd_forwarded, payloads. cbn [rd_tried]. rewrite succeeded_app, omap_app, concat_app.
  f_equal. destruct r; [|done]. change (succeeded [(m, true)]) with [m]. cbn [omap list_omap].
  destruct (payload_of _); cbn; by rewrite ?app_nil_r.
Qed.

(** Of what was read, the part [rest] is not yet forwarded. *)
Definition reads_up_to (rest : bytes) (g : reader_view) : Prop :=
  exists pre, rd_read g = pre ++ rest /\ carried_bytes g `sublist_of` pre /\
    (no_failure (rd_tried g) -> carried_bytes g = pre).

Definition reads_some (g : reader_view) : Prop := exists rest, reads_up_to rest g.

(** After a failure nothing more needs to be forwarded. *)
Lemma reads_failed rest m g :
  reads_up_to rest g -> reads_up_to [] (mkReaderView (rd_read g) (rd_tried g ++ [(m, false)])).
Proof.
  intros (pre & E & Hs & _). exists (pre ++ rest). cbn [rd_read rd_tried]. rewrite E, app_nil_r.
  split; [done|]. rewrite carried_snoc, app_nil_r. split; [by apply sublist_inserts_r|].
  intros Hn. apply Forall_app in Hn as [_ Hn]. by apply list.Forall_cons in Hn as [? _].
Qed.

Lemma reads_forwarded b rest m g :
  reads_up_to (b ++ rest) g -> default [] (payload_of (payload (transport_message m))) = b ->
  reads_up_to rest (mkReaderView (rd_read g) (rd_tried g ++ [(m, true)])).
Proof.
  intros (pre & E & Hs & Hp) Hb. exists (pre ++ b). cbn [rd_read rd_tried]. rewrite E, app_assoc.
  split; [done|]. rewrite carried_snoc, Hb. split; [by apply sublist_app|].
  intros Hn. apply Forall_app in Hn as [Hn _]. by rewrite <-(Hp Hn).
Qed.

(** A message with the bytes [b] to the other end. *)
Lemma chunk_forward_ensures conn own self m b rest g Q :
  reads_up_to (b ++ rest) g -> default [] (payload_of (default [] (encode_portal m))) = b ->
  (forall r g', reads_up_to (if is_ok r then rest else []) g' -> Q r g') ->
  ensures (reader_eff conn) (forward_portal own self m) g reads_some Q.
Proof.
  intros Hg Hb HQ. unfold forward_portal. destruct (portal_encodes m) as [data E]. rewrite E in *.
  split; [by eexists|]. intros r g1 ->. cbn [is_ok].
  assert (reads_up_to (if is_ok r then rest else [])
    (mkReaderView (rd_read g) (rd_tried g ++
       [(mkLocalMessage (TransportMessage_v1 (pr_onward_route self) [pr_sender_address self] data) [], is_ok r)])))
    as Hg'.
  { destruct (is_ok r) eqn:Er; [by eapply reads_forwarded | by eapply reads_failed]. }
  destruct r as [[]|e|]; cbn in *; (split; [by eexists | by apply HQ]).
Qed.

(** The chunks [l] are still to be forwarded. *)
Lemma chunks_ensures conn own self l g :
  reads_up_to (concat l) g ->
  ensures (reader_eff conn) (forward_chunks own self l) g reads_some (fun _ => reads_up_to []).
Proof.
  revert g. induction l as [|chunk l IH]; intros g Hg; cbn [forward_chunks].
  - split; [by eexists | done].
  - apply ensures_try, (chunk_forward_ensures conn own self (Payload chunk) chunk (concat l)); [done| |].
    { destruct (portal_encodes (Payload chunk)) as [data E]. rewrite E. cbn.
      unfold payload_of. by rewrite (portal_roundtrip _ _ E). }
    intros [[]|e|] g' Hg'; [by apply IH | by split; [eexists|] | by eexists].
Qed.

Lemma reader_ensures own self g :
  reads_up_to [] g ->
  ensures (reader_eff (pr_read_half self)) (TcpPortalRecvProcessor_process own self) g reads_some
    (fun r g => r = Ok false \/ reads_up_to [] g).
Proof.
  intros Hg. split; [by eexists|]. intros r g1. cbn.
  rewrite decide_True by done. destruct r as [buf|e|].
  2,3: intros ->; split; [by eexists | by left].
  intros [_ ->]. assert (reads_up_to buf (mkReaderView (rd_read g ++ buf) (rd_tried g))) as Hb.
  { destruct Hg as (pre & E & Hs & Hp). exists pre. cbn [rd_read]. by rewrite E, app_nil_r. }
  split; [by eexists|]. intros [] g2 ->. destruct buf as [|x buf].
  - split; [by eexists|]. intros y g3 ->. cbn [pbind].
    apply ensures_try, (chunk_forward_ensures _ own self Disconnect [] []); [done| |].
    { destruct (portal_encodes Disconnect) as [data E]. rewrite E. cbn.
      unfold payload_of. by rewrite (portal_roundtrip _ _ E). }
    intros [[]|e|] g' Hg'; [split; [by eexists | by left] | split; [by eexists | by right] | by eexists].
  - apply ensures_try. eapply ensures_weaken; [done| |apply chunks_ensures; by rewrite chunks_concat].
    intros [[]|e|] g' Hg'; [apply ensures_ret|split|]; (by eexists) || by right.
Qed.

Lemma reader_forwards own self g :
  processing (reader_eff (pr_read_half self)) (fun _ => TcpPortalRecvProcessor_process own self)
    (mkReaderView [] []) g ->
  carried_bytes g `sublist_of` rd_read g /\
  (no_failure (rd_tried g) -> carried_bytes g `prefix_of` rd_read g).
Proof.
  intros Hr. apply (processing_sound _ _ (reads_up_to []) reads_some) in Hr.
  - destruct Hr as (rest & pre & -> & Hs & Hp). split; [by apply sublist_inserts_r|].
    intros Hn. rewrite (Hp Hn). by eexists.
  - intros g0 Hg. by eexists.
  - intros g0. apply reader_ensures.
  - by exists [].
Qed.

(** ** Writing *)

Record writer_view := mkWriterView {
  wv_self : TcpPortalWorker;
  wv_written : bytes;
  wv_failed : bool
}.

Definition writer_eff (conn : socket) X (c : tcall X) : X -> writer_view -> writer_view -> Prop :=
  match c in tcall X return X -> writer_view -> writer_view -> Prop with
  | SetSelf (WPortal w) => fun _ g g' => g' = mkWriterView w (wv_written g) (wv_failed g)
  | WriteAll s b =>
      if decide (s = conn) then fun r g g' =>
        match r with
        | Ok _ => wv_failed g = false /\ g' = mkWriterView (wv_self g) (wv_written g ++ b) false
        | _ => exists part, part `prefix_of` b /\ (wv_failed g = true -> part = []) /\
            g' = mkWriterView (wv_self g) (wv_written g ++ part) true
        end
      else fun _ g g' => g' = g
  | _ => fun _ g g' => g' = g
  end.

Section Writer.
Context (addresses : PortalAddresses) (conn : socket).

(** The bytes that a message brings for the connection. *)
Definition brings (msg : Routed tcp_message) : option bytes :=
  let t := transport_message (local_msg msg) in
  match onward_route t with
  | [recipient] => if decide (recipient = pa_internal addresses) then None else payload_of (payload t)
  | _ => None
  end.

Definition brought (ms : list (Routed tcp_message)) : bytes := concat (omap brings ms).

Lemma brought_snoc ms m : brought (ms ++ [m]) = brought ms ++ default [] (brings m).
Proof.
  unfold brought. rewrite omap_app, concat_app. f_equal. cbn. destruct (brings m); cbn; by rewrite ?app_nil_r.
Qed.

(** A worker whose connection is open. *)
Definition connected (w : TcpPortalWorker) : Prop :=
  pw_state w = Initialized /\ pw_write_half w = Some conn /\ pw_addresses w = addresses.

Definition writer_ok (ms : list (Routed tcp_message)) (g : writer_view) : Prop :=
  connected (wv_self g) /\
  (wv_failed g = false -> pw_is_disconnecting (wv_self g) = false -> wv_written g = brought ms) /\
  wv_written g `prefix_of` brought ms.

Definition writes_first (ms : list (Routed tcp_message)) (g : writer_view) : Prop :=
  wv_written g `prefix_of` brought ms.

(** Calls that leave the view as it is, and a worker that is stored. *)
Lemma ctx_call_ensures {X} (c : tapi (cresult X)) g (I : writer_view -> Prop) Q :
  I g -> (forall r, Q r g) -> ensures (writer_eff conn) (ctx_call c) g I Q.
Proof. intros HI HQ. split; [done|]. intros x g1 ->. by apply ensures_ret. Qed.

Lemma sleep_ensures n g (I : writer_view -> Prop) Q :
  I g -> Q tt g -> ensures (D := no_event) (writer_eff conn) (pcall (Sleep n)) g I Q.
Proof. intros HI HQ. apply ensures_call; [done|]. by intros [] g1 ->. Qed.

Lemma store_ensures w g (I : writer_view -> Prop) (Q : TcpPortalWorker -> writer_view -> Prop) :
  I g -> (let g' := mkWriterView w (wv_written g) (wv_failed g) in I g' /\ Q w g') ->
  ensures (writer_eff conn) (store w) g I Q.
Proof. intros HI [H1 H2]. split; [done|]. intros [] g1 ->. by apply ensures_ret. Qed.

(** A worker that is disconnecting: it writes no more. *)
Definition leaving (ms : list (Routed tcp_message)) (w : TcpPortalWorker) (g : writer_view) : Prop :=
  connected w /\ pw_is_disconnecting w = true /\ wv_self g = w /\ writes_first ms g.

Lemma leaving_ok ms w g : leaving ms w g -> writer_ok ms g.
Proof. intros (Hc & Hd & <- & Hp). split_and!; [done| |done]. congruence. Qed.

Lemma notify_ensures w ms g :
  leaving ms w g ->
  ensures (writer_eff conn) (notify_remote_about_disconnection w) g (writes_first ms)
    (fun r g => match r with Ok w => leaving ms w g | _ => writer_ok ms g end).
Proof.
  intros Hl. pose proof Hl as (Hc & Hd & Hs & Hp). unfold notify_remote_about_disconnection.
  destruct (pw_remote_route w) as [route|].
  - apply ensures_bind, store_ensures; [done|]. intros g'.
    assert (leaving ms (with_remote_route None w) g') as Hl' by done. split; [done|].
    apply ensures_try, ctx_call_ensures; [done|]. intros [[]|e|]; [|split; [done | by eapply leaving_ok] | done].
    apply ensures_bind, sleep_ensures; [done|]. by apply ensures_ret.
  - apply ensures_bind, sleep_ensures; [done|]. by apply ensures_ret.
Qed.

Lemma stop_receiver_ensures w ms g :
  leaving ms w g ->
  ensures (writer_eff conn) (do? _ <- stop_receiver w; PRet (Ok w)) g (writes_first ms)
    (fun r g => match r with Ok w => leaving ms w g | _ => writer_ok ms g end).
Proof.
  intros Hl. assert (writes_first ms g) as Hp by apply Hl.
  apply ensures_try, ensures_bind, sleep_ensures; [done|].
  apply ensures_bind, ctx_call_ensures; [done|]. intros _. by apply ensures_ret, ensures_ret.
Qed.

(** A disconnection writes nothing, and from then on the worker does not. *)
Lemma disconnection_ensures w reason ms g :
  connected w -> writes_first ms g ->
  ensures (writer_eff conn) (start_disconnection w reason) g (writes_first ms) (fun _ => writer_ok ms).
Proof.
  intros Hw Hp. unfold start_disconnection. apply ensures_bind, store_ensures; [done|]. intros g'.
  split; [done|]. assert (leaving ms (set_disconnecting w) g') as Hl by done.
  assert (forall g (r : tresult TcpPortalWorker), match r with Ok w => leaving ms w g | _ => writer_ok ms g end ->
    match r with
    | Ok w => ensures (writer_eff conn) (stop_worker (pa_internal (pw_addresses w))) g (writes_first ms)
                (fun _ => writer_ok ms)
    | Err e => writes_first ms g /\ writer_ok ms g
    | Panic => writes_first ms g
    end) as Hstop.
  { intros g0 [w0|e|] H0; [|split; [apply H0 | done] | apply H0].
    apply ctx_call_ensures; [apply H0|]. intros _. by eapply leaving_ok. }
  apply ensures_try. destruct reason.
  - eapply ensures_weaken; [done| |by apply notify_ensures]. intros r g0. apply Hstop.
  - apply ensures_try. eapply ensures_weaken; [done| |by apply notify_ensures].
    intros [w0|e|] g0 H0; [|by split; [apply H0 | apply (Hstop g0 (Err e))] | apply H0].
    eapply ensures_weaken; [done| |by apply stop_receiver_ensures]. intros r g1. apply Hstop.
  - eapply ensures_weaken; [done| |by apply stop_receiver_ensures]. intros r g1. apply Hstop.
Qed.

Lemma remote_ensures w ms m t b g :
  wv_self g = w -> writer_ok ms g -> pw_is_disconnecting w = false ->
  brings m = payload_of t -> decode_portal t = Some b ->
  ensures (writer_eff conn) (handle_remote w b) g (writes_first (ms ++ [m]))
    (fun _ => writer_ok (ms ++ [m])).
Proof.
  intros Es (Hc & Hall & Hp) Hd Hb Et. unfold payload_of in Hb. rewrite Et in Hb.
  assert (writes_first (ms ++ [m]) g) as Hp'.
  { unfold writes_first. rewrite brought_snoc. by apply prefix_app_r. }
  assert (brings m = None -> writer_ok (ms ++ [m]) g) as Hsame.
  { intros Hn. assert (brought (ms ++ [m]) = brought ms) as E
      by (rewrite brought_snoc, Hn; apply app_nil_r).
    split_and!; [done | by rewrite E | done]. }
  rewrite Es in Hc, Hall. destruct b as [| | |payload]; cbn [handle_remote].
  1,2: apply ensures_ret; auto.
  { by apply disconnection_ensures. }
  assert (brought (ms ++ [m]) = brought ms ++ payload) as Eb by (rewrite brought_snoc, Hb; done).
  destruct Hc as (Hst & Htx & Ha). rewrite Htx. split; [done|]. intros r g1. cbn [writer_eff].
  rewrite decide_True by done. destruct r as [[]|e|].
  { intros [Hf ->]. rewrite (Hall Hf Hd). apply ensures_ret; unfold writes_first, writer_ok; cbn.
    - by rewrite Eb.
    - rewrite Eb, Es. by split_and!. }
  all: intros (part & Hpart & Hfailed & ->); apply disconnection_ensures; [done|];
    unfold writes_first; cbn; destruct (wv_failed g); [by rewrite Hfailed, app_nil_r|];
    rewrite Eb, (Hall eq_refl Hd); by apply prefix_app.
Qed.

Lemma worker_ensures ms m g :
  writer_ok ms g ->
  ensures (writer_eff conn) (TcpPortalWorker_handle_message (wv_self g) m) g (writes_first (ms ++ [m]))
    (fun _ => writer_ok (ms ++ [m])).
Proof.
  intros Hok. pose proof Hok as ((Hst & Htx & Ha) & Hall & Hp).
  assert (writes_first (ms ++ [m]) g) as Hp'.
  { unfold writes_first. rewrite brought_snoc. by apply prefix_app_r. }
  assert (brings m = None \/ pw_is_disconnecting (wv_self g) = true -> writer_ok (ms ++ [m]) g) as Hsame.
  { intros Hn. split_and!; [done| |done]. intros Hf Hd. rewrite brought_snoc.
    destruct Hn as [-> | ?]; [rewrite app_nil_r; auto | congruence]. }
  unfold TcpPortalWorker_handle_message.
  destruct (pw_is_disconnecting (wv_self g)) eqn:Hd; [apply ensures_ret; auto|].
  unfold brings in Hsame. set (t := transport_message (local_msg m)) in *.
  destruct (onward_route t) as [|recipient [|]] eqn:Eo; cbn [Route_step]; [apply ensures_ret; auto| |
    apply ensures_ret; auto].
  cbn [route_result map_err plift ptry pbind Route_next head ok_or is_ok]. rewrite Hst, Ha.
  case_decide as Hr.
  { rewrite bool_decide_eq_true_2 by done.
    destruct (decode_internal (payload t)) as [[]|]; [|apply ensures_ret; auto].
    by apply disconnection_ensures. }
  rewrite bool_decide_eq_false_2 by done.
  destruct (decode_portal (payload t)) as [b|] eqn:Eb; cbn [ok_or plift ptry pbind].
  - eapply (remote_ensures _ ms m (payload t)); try done.
    unfold brings. fold t. rewrite Eo. by rewrite decide_False.
  - apply ensures_ret; [done|]. apply Hsame. left. unfold payload_of. by rewrite Eb.
Qed.

Lemma worker_writes ms self g :
  connected self ->
  session (writer_eff conn) (fun m g => TcpPortalWorker_handle_message (wv_self g) m) ms
    (mkWriterView self [] false) g ->
  wv_written g `prefix_of` brought ms.
Proof.
  intros Hc Hs. apply (session_sound _ _ writer_ok writes_first ms _ g) with (done := []) in Hs.
  - done.
  - intros ? ? Hi. apply Hi.
  - apply worker_ensures.
  - by split_and!.
Qed.

(** While no write fails and the messages are payloads all are written. *)
Lemma worker_all ms g :
  connected (wv_self g) -> pw_is_disconnecting (wv_self g) = false -> wv_failed g = false ->
  Forall (fun m => is_Some (brings m)) ms ->
  exists g', session (writer_eff conn) (fun m g => TcpPortalWorker_handle_message (wv_self g) m) ms g g' /\
    wv_written g' = wv_written g ++ brought ms.
Proof.
  intros Hc Hd Hf Hms. revert g Hc Hd Hf. induction Hms as [|m ms [b Hb] _ IH]; intros g Hc Hd Hf.
  { exists g. split; [constructor|]. cbn. by rewrite app_nil_r. }
  destruct (IH (mkWriterView (wv_self g) (wv_written g ++ b) false)) as (g' & Hs & Ew); [done..|].
  exists g'. split.
  - eapply (session_cons _ _ _ (Ok tt)); [|exact Hs]. unfold TcpPortalWorker_handle_message.
    rewrite Hd. unfold brings in Hb. set (t := transport_message (local_msg m)) in *.
    destruct (onward_route t) as [|recipient [|]]; [done| |done]. destruct Hc as (Hst & Htx & Ha).
    case_decide as Hr; [done|]. cbn [Route_step route_result map_err plift ptry pbind Route_next head ok_or is_ok].
    rewrite Hst, Ha, bool_decide_eq_false_2 by done. unfold payload_of in Hb.
    destruct (decode_portal (payload t)) as [[| | |b']|]; [done..| |done]. injection Hb as ->.
    cbn [ok_or plift ptry pbind handle_remote]. rewrite Htx.
    eapply (execs_call _ _ (Ok tt)); [cbn; rewrite decide_True by done; done|]. apply execs_ret.
  - rewrite Ew. cbn [wv_written]. unfold brought. cbn [omap list_omap]. rewrite Hb. cbn [concat].
    by rewrite app_assoc.
Qed.
End Writer.

Lemma concat_sublist {X} (l l' : list (list X)) :
  l `sublist_of` l' -> concat l `sublist_of` concat l'.
Proof.
  induction 1 as [|x l l' _ IH|x l l' _ IH]; cbn; [done | by apply sublist_app | by apply sublist_inserts_l].
Qed.

(** C27: a portal carries a stream of bytes.  At one end a processor reads a
    connection and forwards, at the other a worker with an open connection
    writes what arrives.  However reads are split into messages, wherever either
    end stops, loses its connection or is told to disconnect, and whatever fails
    to be forwarded: if payloads arrive in the order in which they were
    forwarded, possibly with some lost, then what is written are bytes that were
    read, in their order; and if no forwarding failed and no payload is lost
    before one that arrives, it is the beginning of what was read.  All payloads
    that arrive are written if nothing happens to the writing end. *)
Theorem portal_in_order (own : Address) (reader : TcpPortalRecvProcessor) (worker : TcpPortalWorker)
    (conn : socket) (gr : reader_view) (ms : list (Routed tcp_message)) :
  let writing := session (writer_eff conn)
    (fun m g => TcpPortalWorker_handle_message (wv_self g) m) ms (mkWriterView worker [] false) in
  let arriving := omap (brings (pw_addresses worker)) ms in
  processing (reader_eff (pr_read_half reader)) (fun _ => TcpPortalRecvProcessor_process own reader)
    (mkReaderView [] []) gr ->
  pw_state worker = Initialized -> pw_write_half worker = Some conn ->
  (forall gw, writing gw ->
     (arriving `sublist_of` payloads (rd_forwarded gr) -> wv_written gw `sublist_of` rd_read gr) /\
     (arriving `prefix_of` payloads (rd_forwarded gr) -> no_failure (rd_tried gr) ->
      wv_written gw `prefix_of` rd_read gr)) /\
  (pw_is_disconnecting worker = false -> Forall (fun m => is_Some (brings (pw_addresses worker) m)) ms ->
   exists gw, writing gw /\ wv_written gw = concat arriving).
Proof.
  intros writing arriving Hr Hst Htx. assert (connected (pw_addresses worker) conn worker) as Hc by done.
  apply reader_forwards in Hr as [Hs Hp]. split.
  - intros gw Hw. apply (worker_writes _ _ _ _ _ Hc) in Hw. split.
    + intros Ha. etrans; [|exact Hs]. etrans; [|by apply concat_sublist].
      destruct Hw as [k Hk]. unfold brought in Hk. fold arriving in Hk. rewrite Hk. by apply sublist_inserts_r.
    + intros [k Hk] Hn. etrans; [exact Hw|]. etrans; [|apply (Hp Hn)].
      unfold carried_bytes. rewrite Hk, concat_app. by eexists.
  - intros Hd Hall. destruct (worker_all _ _ ms (mkWriterView worker [] false) Hc Hd eq_refl Hall) as (gw & Hw & E).
    by exists gw.
Qed.

Lemma chunks_one n b : b <> [] -> (Z.of_nat (length b) <= n)%Z -> chunks n b = [b].
Proof.
  intros Hb Hl. unfold chunks. destruct b as [|x b]; [done|]. cbn [length chunks_go].
  rewrite take_ge, drop_ge by (cbn [length] in *; lia). by destruct (length b).
Qed.

(** One round with the answer [r] of forwarding. *)
Lemma reader_round own self b (r : cresult unit) g :
  b <> [] -> (Z.of_nat (length b) <= MAX_PAYLOAD_SIZE)%Z -> r <> Panic ->
  exists m data, encode_portal (Payload b) = Some data /\ payload (transport_message m) = data /\
  execs (reader_eff (pr_read_half self)) (TcpPortalRecvProcessor_process own self) g
    (Some (match r with Ok _ => Ok true | Err e => Err (TContext e) | Panic => Panic end))
    (mkReaderView (rd_read g ++ b) (rd_tried g ++ [(m, is_ok r)])).
Proof.
  intros Hb Hl Hr. destruct (portal_encodes (Payload b)) as [data E].
  set (m := mkLocalMessage (TransportMessage_v1 (pr_onward_route self) [pr_sender_address self] data) []).
  exists m, data. split_and!; [done..|].
  eapply (execs_call _ _ (Ok b) _ (mkReaderView (rd_read g ++ b) (rd_tried g))).
  { cbn [reader_eff]. by rewrite decide_True. }
  eapply (execs_call _ _ tt); [reflexivity|]. destruct b as [|x b]; [done|]. cbv beta iota.
  rewrite chunks_one by done. cbn [forward_chunks]. unfold forward_portal. rewrite E.
  cbn [ok_or plift ptry pbind].
  eapply (execs_call _ _ r); [reflexivity|]. by destruct r as [[]|e|]; [apply execs_ret..|].
Qed.

(** When forwarding what was read fails, the error is logged and the
    processor goes on with what it reads next: the other end gets a stream with
    a hole in it. *)
Theorem failed_forward_leaves_gap (own : Address) (reader : TcpPortalRecvProcessor) (b1 b2 : bytes)
    (e : cerror) :
  b1 <> [] -> b2 <> [] -> (Z.of_nat (length b1) <= MAX_PAYLOAD_SIZE)%Z ->
  (Z.of_nat (length b2) <= MAX_PAYLOAD_SIZE)%Z ->
  exists g, processing (reader_eff (pr_read_half reader))
              (fun _ => TcpPortalRecvProcessor_process own reader) (mkReaderView [] []) g /\
    rd_read g = b1 ++ b2 /\ payloads (rd_forwarded g) = [b2].
Proof.
  intros H1 H2 L1 L2.
  destruct (reader_round own reader b1 (Err e) (mkReaderView [] []) H1 L1 ltac:(done)) as (m1 & d1 & _ & _ & X1).
  destruct (reader_round own reader b2 (Ok tt) (mkReaderView b1 [(m1, false)]) H2 L2 ltac:(done)) as (m2 & d2 & E2 & Em & X2).
  eexists. split.
  - eapply processing_more; [exact X1 | done | done|]. cbn [app rd_read rd_tried].
    eapply processing_more; [exact X2 | done | done | constructor].
  - split; [done|]. unfold rd_forwarded. cbn [rd_tried app is_ok].
    change (succeeded [(m1, false); (m2, true)]) with [m2].
    cbn. unfold payload_of. by rewrite Em, (portal_roundtrip _ _ E2).
Qed.
End Portal.
