(* ===== verification/TcpExamples.v ===== *)
(** * Concrete TCP connections and portals

    Encodings of messages, and the theorems on connections and portals applied to
    small cases. *)

From Stdlib Require Import ZArith Lia.
From Stdlib Require Strings.Byte Strings.String.
From stdpp Require Import base gmap list numbers option countable.
From S2P Require Import Prelude RustStr Routing AccessControl FlowControl Attributes.
From S2P Require Import Router Node NodeSpec NodeExamples Tcp Execution TcpSpec Portal PortalSpec.

(** ** Encodings

    The length of the routes in unary, then the routes, then the payload as it
    is. *)

Fixpoint unary (b : bytes) : nat * bytes :=
  match b with
  | x :: b => if bool_decide (x = Byte.x01) then let (n, r) := unary b in (S n, r) else (0, b)
  | [] => (0, [])
  end.

Lemma unary_replicate n b : unary (replicate n Byte.x01 ++ Byte.x00 :: b) = (n, b).
Proof. induction n as [|n IH]; [done|]. cbn [replicate app unary]. by rewrite IH. Qed.

Definition header_bytes (t : TransportMessage) : bytes :=
  positive_bits (encode (version t, map (fun a => (tt_code (a_tt a), a_inner a)) (onward_route t),
                         map (fun a => (tt_code (a_tt a), a_inner a)) (return_route t))).

Definition toy_address (p : byte * bytes) : Address := mkAddress (mkTransportType p.1) p.2.

Definition toy_encode_transport (t : TransportMessage) : bytes :=
  let h := header_bytes t in replicate (length h) Byte.x01 ++ Byte.x00 :: h ++ payload t.

Definition toy_decode_transport (b : bytes) : option TransportMessage :=
  let (n, b) := unary b in
  (fun '(v, o, r) => mkTransportMessage v (map toy_address o) (map toy_address r) (drop n b))
    <$> decode (bits_positive (take n b)).

#[export] Instance toy_transport_codec : TransportCodec := {|
  encode_transport t := Some (toy_encode_transport t);
  decode_transport := toy_decode_transport
|}.

#[export] Instance toy_tcp_codec : TcpCodec := {|
  encode_closed := Some [Byte.x00];
  decode_closed b := bool_decide (b = [Byte.x00]);
  encode_portal m := Some (match m with
                           | Ping => [Byte.x00]
                           | Pong => [Byte.x01]
                           | Disconnect => [Byte.x02]
                           | Payload b => Byte.x03 :: b
                           end);
  decode_portal b := match b with
                     | [Byte.x00] => Some Ping
                     | [Byte.x01] => Some Pong
                     | [Byte.x02] => Some Disconnect
                     | Byte.x03 :: b => Some (Payload b)
                     | _ => None
                     end;
  encode_internal _ := Some [Byte.x00];
  decode_internal b := if bool_decide (b = [Byte.x00]) then Some InternalDisconnect else None
|}.

Lemma toy_addresses l : map toy_address (map (fun a => (tt_code (a_tt a), a_inner a)) l) = l.
Proof. induction l as [|[[c] i] l IH]; [done|]. cbn. by rewrite IH. Qed.

#[export] Instance toy_transport_codec_laws : TransportCodecLaws.
Proof.
  split. intros t b [= <-]. cbn. unfold toy_decode_transport, toy_encode_transport.
  rewrite unary_replicate, take_app_length, drop_app_length. unfold header_bytes.
  rewrite bits_positive_bits, decode_encode. cbn. rewrite !toy_addresses. by destruct t.
Qed.

#[export] Instance toy_tcp_codec_laws : TcpCodecLaws.
Proof. split. by intros [| | |p] b [= <-]. Qed.

#[export] Instance toy_portal_codec_laws : PortalCodecLaws.
Proof. split. intros m. by eexists. Qed.

(** ** A connection *)

Definition ends : Addresses := mkAddresses (addr "s_int") (addr "s") (addr "r") (addr "r_int").

Definition sample_peer : SocketAddr := SocketV4 [Byte.x7f; Byte.x00; Byte.x00; Byte.x01] 4000.

Definition sample_sender : TcpSendWorker :=
  mkTcpSendWorker 7 sample_peer ends Outgoing sample_id true.
Definition sample_receiver : TcpRecvProcessor :=
  mkTcpRecvProcessor 8 sample_peer ends Incoming sample_id.

Definition sample_routed (onward : Route) (p : bytes) : Routed tcp_message :=
  mkRouted AnyMessage (addr "s") (addr "app")
    (mkLocalMessage (TransportMessage_v1 onward [addr "app"] p) []).

Lemma toy_fits t : (Z.of_nat (length (toy_encode_transport t)) <? 2 ^ 16)%Z = true -> fits t.
Proof. intros Hl. eexists. split; [reflexivity|]. by apply Z.ltb_lt in Hl. Qed.

Lemma connection_in_order_witness :
  let ms := [sample_routed [addr "s"; addr "echo"] (str "one"); sample_routed [addr "s"] (str "beat");
             sample_routed [addr "s"; addr "echo"] (str "two")] in
  exists gs gr,
    session (sender_eff 7) (fun m g => TcpSendWorker_handle_message (sv_self g) m) ms
      (mkSenderView sample_sender [] false) gs /\
    processing (receiver_eff 8) (fun _ => TcpRecvProcessor_process sample_receiver)
      (mkReceiverView (sv_written gs) []) gr /\
    rv_forwarded gr =
      map (fun p => mkLocalMessage (TransportMessage_v1 [addr "echo"] [addr "s"; addr "app"] p) [])
        [str "one"; str "two"].
Proof.
  intros ms. destruct (connection_in_order sample_sender sample_receiver ms) as [_ (gs & gr & Hs & Hr & _ & E)].
  - repeat constructor; apply toy_fits; vm_compute; reflexivity.
  - exists gs, gr. split; [exact Hs|]. split; [exact Hr | exact E].
Defined.

(** The message that is hidden in the payload of a longer one. *)
Definition hidden : TransportMessage := TransportMessage_v1 [addr "echo"] [addr "liar"] (str "surprise").

Definition padding : bytes := replicate (Z.to_nat 65536 - length (frame hidden)) Byte.x00.

Definition carrier : TransportMessage :=
  TransportMessage_v1 [addr "echo"] [addr "app"] (frame hidden ++ padding).

Lemma toy_encode_payload t b1 b2 :
  payload t = b1 ++ b2 ->
  encode_transport t =
    Some ((replicate (length (header_bytes t)) Byte.x01 ++ Byte.x00 :: header_bytes t) ++ b1 ++ b2).
Proof. intros E. cbn. unfold toy_encode_transport. by rewrite <-app_assoc, E. Qed.

Lemma carrier_payload : payload carrier = frame hidden ++ padding.
Proof. reflexivity. Qed.

Definition carrier_head : bytes :=
  replicate (length (header_bytes carrier)) Byte.x01 ++ Byte.x00 :: header_bytes carrier.

Lemma carrier_wraps :
  (Z.of_nat (length (carrier_head ++ frame hidden ++ padding)) mod 2 ^ 16 =
   Z.of_nat (length carrier_head))%Z.
Proof. apply Z.eqb_eq. vm_compute. reflexivity. Qed.

Lemma oversized_message_smuggles_witness :
  exists g, processing (receiver_eff 8) (fun _ => TcpRecvProcessor_process sample_receiver)
              (mkReceiverView (frame carrier) []) g /\
    mkLocalMessage (TransportMessage_v1 [addr "echo"] [addr "s"; addr "liar"] (str "surprise")) []
      ∈ rv_forwarded g.
Proof.
  refine (oversized_message_smuggles sample_receiver carrier hidden carrier_head padding _
           (toy_encode_payload carrier _ _ carrier_payload) carrier_wraps _ _).
  - apply toy_fits. vm_compute. reflexivity.
  - reflexivity.
Defined.

(** ** A node with a connection

    A worker that is a consumer, and a receiver that forwards one message to it. *)

Definition from_outside : LocalMessage :=
  mkLocalMessage (TransportMessage_v1 [addr "echo"] [addr "s"; addr "peer"] (str "hi")) [].

Definition forwarding : WorkerCode seen bytes :=
  mkWorkerCode (fun _ b => Some b) (PRet (Ok tt)) (PRet (Ok tt)) (fun _ => PRet (Ok tt))
    (do _ <- pcall (AForward 0 from_outside (addr "r")); PRet (Ok false)).

Definition receiver_boxes : SharedMailboxes :=
  receiver_mailboxes ends (receiver_outgoing_access_control (tcp_access_control sample_id None)).

Definition start_connection : user_prog seen bytes unit :=
  do _ <- pcall (AStartWorker 0 (open_mailboxes (addr "echo")) []);
  do _ <- pcall (AFlowUpdate (fun fc => add_consumer (addr "echo") sample_id fc));
  do _ <- pcall (AStartProcessor 0 receiver_boxes []);
  PRet tt.

Definition connection_schedule : list choice :=
  turns 4 5 ++ [RunRouter] ++ turns 4 7 ++ [RunRouter] ++ turns 4 2 ++ turns 8 1 ++ [RunRouter] ++
  turns 8 2 ++ turns 13 1 ++ [RunRouter] ++ turns 13 4 ++ [RunRouter] ++ turns 13 3 ++ turns 8 8.

Definition node_context (e : log_event) : option Context :=
  match e with LContext c => Some c | _ => None end.

Lemma context_logged (n : node seen bytes) from :
  LContext from ∈ n_log n -> from ∈ omap node_context (n_log n).
Proof. intros Hf. apply list_elem_of_omap. by exists (LContext from). Qed.

Lemma tcp_input_reaches_consumers_only_witness :
  exists n m, run_node no_prefix forwarding connection_schedule
              (node_build no_prefix [] start_connection) = Some n /\
    LHandled echo_context m ∈ n_log n /\ rm_source m = addr "r" /\
    exists n1 next, earlier no_prefix forwarding [] start_connection connection_schedule n1 /\
      Route_next (RelayMessage_onward_route m) = Ok next /\
      (mem (shared_flows n1) sample_id next \/ exists s, None = Some s /\ mem (shared_flows n1) s next).
Proof.
  set (r := run_node no_prefix forwarding connection_schedule
              (node_build no_prefix [] start_connection)).
  set (m := mkRelayMessage (addr "r") (addr "echo") from_outside).
  assert (Hr : ran r = true) by (vm_compute; reflexivity).
  assert (Hh : (fun n => n_log n !! 8) <$> r = Some (Some (LHandled echo_context m)))
    by (vm_compute; reflexivity).
  assert (Hc : (fun n => omap node_context (n_log n)) <$> r =
    Some [app_context; echo_context; mkContext receiver_boxes 10 12 false])
    by (vm_cast_no_check (eq_refl (Some [app_context; echo_context; mkContext receiver_boxes 10 12 false]))).
  destruct r as [n|] eqn:E; [|discriminate Hr]. injection Hh as Hh. injection Hc as Hc.
  exists n, m. split; [done|]. split; [exact (list_elem_of_lookup_2 _ _ _ Hh)|]. split; [done|].
  apply (tcp_input_reaches_consumers_only no_prefix forwarding [] start_connection connection_schedule n
           echo_context m ends sample_id None E (list_elem_of_lookup_2 _ _ _ Hh) eq_refl).
  intros from Hf Ha. pose proof (context_logged n from Hf) as Hi. rewrite Hc in Hi.
  apply elem_of_cons in Hi as [Hi|[Hi|[Hi|Hi%elem_of_nil]%elem_of_cons]%elem_of_cons];
    [subst from..|destruct Hi].
  - change (addr "r" ∈ [addr "app"]) in Ha. apply list_elem_of_singleton in Ha. discriminate Ha.
  - change (addr "r" ∈ [addr "echo"]) in Ha. apply list_elem_of_singleton in Ha. discriminate Ha.
  - reflexivity.
Defined.

(** ** A portal *)

Definition portal_reader : TcpPortalRecvProcessor :=
  mkTcpPortalRecvProcessor [] 5 (addr "inlet") [addr "outlet"].

Definition portal_writer : TcpPortalWorker :=
  mkTcpPortalWorker Initialized (Some 6) None sample_peer
    (mkPortalAddresses (addr "out_int") (addr "outlet") (addr "out_recv")) (Some [addr "inlet"]) false Outlet.

(** A payload on its way to the outlet. *)
Definition portal_routed (b : bytes) : Routed tcp_message :=
  mkRouted AnyMessage (addr "outlet") (addr "inlet")
    (mkLocalMessage (TransportMessage_v1 [addr "outlet"] [addr "inlet"] (Byte.x03 :: b)) []).

Lemma portal_in_order_witness :
  let ms := [portal_routed (str "GET /"); portal_routed (str "a.txt")] in
  exists gr gw,
    processing (reader_eff 5) (fun _ => TcpPortalRecvProcessor_process (addr "own") portal_reader)
      (mkReaderView [] []) gr /\ rd_read gr = str "GET /a.txt" /\
    session (writer_eff 6) (fun m g => TcpPortalWorker_handle_message (wv_self g) m) ms
      (mkWriterView portal_writer [] false) gw /\ wv_written gw = str "GET /a.txt" /\
    wv_written gw `prefix_of` rd_read gr.
Proof.
  intros ms.
  destruct (reader_round (addr "own") portal_reader (str "GET /") (Ok tt) (mkReaderView [] []))
    as (m1 & d1 & E1 & Em1 & X1); [done | vm_compute; discriminate | done|].
  destruct (reader_round (addr "own") portal_reader (str "a.txt") (Ok tt)
              (mkReaderView (str "GET /") [(m1, true)]))
    as (m2 & d2 & E2 & Em2 & X2); [done | vm_compute; discriminate | done|].
  assert (processing (reader_eff 5)
            (fun _ => TcpPortalRecvProcessor_process (addr "own") portal_reader) (mkReaderView [] [])
            (mkReaderView (str "GET /a.txt") [(m1, true); (m2, true)])) as Hr.
  { eapply processing_more; [exact X1 | done | done|].
    eapply processing_more; [exact X2 | done | done | constructor]. }
  destruct (portal_in_order (addr "own") portal_reader portal_writer 6 _ ms Hr) as [Hp Hw]; [done..|].
  destruct Hw as (gw & Hs & Ew); [done | repeat constructor; by eexists|].
  exists (mkReaderView (str "GET /a.txt") [(m1, true); (m2, true)]), gw.
  split_and!; [exact Hr | done | exact Hs | rewrite Ew; vm_compute; reflexivity|].
  apply (proj2 (Hp gw Hs)); [|repeat constructor].
  injection E1 as <-. injection E2 as <-. unfold payloads, rd_forwarded, succeeded.
  cbn [rd_tried filter list_filter snd fmap list_fmap fst omap list_omap].
  rewrite !decide_True by done. cbn [fmap list_fmap fst omap list_omap].
  rewrite Em1, Em2. exists []. vm_compute. reflexivity.
Defined.

Lemma failed_forward_leaves_gap_witness :
  exists g, processing (reader_eff 5)
              (fun _ => TcpPortalRecvProcessor_process (addr "own") portal_reader) (mkReaderView [] []) g /\
    rd_read g = str "rm -r ./tmp" /\ payloads (rd_forwarded g) = [str "/tmp"].
Proof.
  apply (failed_forward_leaves_gap (addr "own") portal_reader (str "rm -r .") (str "/tmp")
           unknown_state).
  all: first [done | vm_compute; discriminate].
Defined.
