(* ===== verification/ChannelWorkers.v ===== *)
(** * The workers of secure channels
    (ockam_identity/src/secure_channel/{addresses, api, options, registry, encryptor_worker,
    decryptor, listener}.rs, handshake/handshake_worker.rs, secure_channels/)

    A channel has two workers at either end.  The handshake worker runs the
    state machine of [StateMachine] and then decrypts; the encryptor worker, which
    it starts at the end of the handshake, encrypts and sends.  Their handlers are
    programs that call the context of the worker, the vault, the registry of
    channels and the identities of the node. *)

From Stdlib Require Import ZArith Lia.
From Stdlib Require Strings.Byte Strings.String.
From stdpp Require Import base gmap list numbers option countable.
From S2P Require Import Prelude RustStr Routing AccessControl FlowControl Attributes.
From S2P Require Import KeyTracker Vault Handshake SecureChannel Credentials StateMachine Router Node.

(** ** Addresses, registry, options *)

Record ChannelAddresses := mkChannelAddresses {
  decryptor_internal : Address;
  decryptor_remote : Address;
  decryptor_api : Address;
  encryptor : Address;
  encryptor_api : Address
}.

Definition Role_str (r : Role) : bytes :=
  match r with
  | Initiator => str "initiator"
  | Responder => str "responder"
  end.

Record SecureChannelRegistryEntry := mkRegistryEntry {
  re_encryptor_messaging_address : Address;
  re_encryptor_api_address : Address;
  re_decryptor_messaging_address : Address;
  re_decryptor_api_address : Address;
  re_is_initiator : bool;
  re_my_id : IdentityIdentifier;
  re_their_id : IdentityIdentifier;
  re_their_decryptor_address : Address
}.

(** The encryptor address is the key. *)
Notation SecureChannelRegistry := (gmap Address SecureChannelRegistryEntry).

Inductive channel_error :=
| EncryptionFailed (e : ChannelError)
| HandshakeFailed (e : HandshakeError)
| IdentitiesFailed (code : nat)
| ContextFailed (e : cerror)
| BadMessage
| UnknownChannelMsgDestination
| DuplicateSecureChannel
| NoRemoteRoute
| CallbackClosed
| CallbackTimeout.

(** The new entry is stored in any case. *)
Definition register_channel (info : SecureChannelRegistryEntry) (registry : SecureChannelRegistry)
  : result channel_error unit * SecureChannelRegistry :=
  let key := re_encryptor_messaging_address info in
  (if registry !! key then Err DuplicateSecureChannel else Ok tt, <[key := info]> registry).

Definition unregister_channel (encryptor_address : Address) (registry : SecureChannelRegistry)
  : option SecureChannelRegistryEntry * SecureChannelRegistry :=
  (registry !! encryptor_address, delete encryptor_address registry).

Definition get_channel_by_encryptor_address (encryptor_address : Address)
    (registry : SecureChannelRegistry) : option SecureChannelRegistryEntry :=
  registry !! encryptor_address.

Definition DEFAULT_TIMEOUT : Z := 120.

(** The encodings of the messages to the workers: vectors of bytes, and the
    requests and answers of the API addresses. *)
Class ChannelCodec := {
  encode_vec : bytes -> option bytes;
  decode_vec : bytes -> option bytes;
  decode_EncryptionRequest : bytes -> option bytes;
  encode_EncryptionResponse : result ChannelError bytes -> option bytes;
  decode_DecryptionRequest : bytes -> option bytes;
  encode_DecryptionResponse : result ChannelError bytes -> option bytes
}.

Section Channels.
Context {C : Crypto} `{TransportCodec} `{ChannelCodec} `{InfoCodec}.
(** A trust policy and a trust context, which the code of the workers passes on. *)
Context {Policy TrustContext : Type}.

Record SecureChannelOptions := mkSecureChannelOptions {
  sc_flow_control_id : FlowControlId;
  sc_trust_policy : Policy;
  sc_trust_context : option TrustContext;
  sc_credentials : list Credential;
  sc_timeout : Z
}.

Definition SecureChannelOptions_setup_flow_control (self : SecureChannelOptions)
    (addresses : ChannelAddresses) (next : Address) (fc : FlowControls) : FlowControls :=
  let fc := match find_flow_control_with_producer_address fc next with
            | Some info => add_consumer (decryptor_remote addresses) (flow_control_id info) fc
            | None => fc
            end in
  add_producer (decryptor_internal addresses) (sc_flow_control_id self) None [encryptor addresses] fc.

(** [SecureChannelAccessControl]: the outgoing access control of the decryptor *)
Definition SecureChannelOptions_create_access_control (self : SecureChannelOptions)
  : FlowControls -> DynAccessControl :=
  fun fc => dyn_outgoing (mkFlowControlAC fc (sc_flow_control_id self) None).

Record SecureChannelListenerOptions := mkSecureChannelListenerOptions {
  sl_consumer : list FlowControlId;
  sl_flow_control_id : FlowControlId;
  sl_trust_policy : Policy;
  sl_trust_context : option TrustContext;
  sl_credentials : list Credential
}.

Definition setup_flow_control_for_channel_listener (self : SecureChannelListenerOptions) (address : Address)
    (fc : FlowControls) : FlowControls :=
  add_spawner address (sl_flow_control_id self)
    (foldl (fun fc id => add_consumer address id fc) fc (sl_consumer self)).

Definition setup_flow_control_for_channel (self : SecureChannelListenerOptions)
    (flow_control_id : FlowControlId) (addresses : ChannelAddresses) (src_addr : Address)
    (fc : FlowControls) : FlowControls :=
  let fc := match get_flow_control_with_producer fc src_addr with
            | Some info => add_consumer (decryptor_remote addresses) (FlowControl.flow_control_id info) fc
            | None => fc
            end in
  add_producer (decryptor_internal addresses) flow_control_id (Some (sl_flow_control_id self))
    [encryptor addresses] fc.

Definition SecureChannelListenerOptions_create_access_control (self : SecureChannelListenerOptions)
    (flow_control_id : FlowControlId) : FlowControls -> DynAccessControl :=
  fun fc => dyn_outgoing (mkFlowControlAC fc flow_control_id (Some (sl_flow_control_id self))).

(** ** Workers *)

Record EncryptorWorker := mkEncryptorWorker {
  ew_role : bytes;
  ew_addresses : ChannelAddresses;
  ew_remote_route : Route;
  ew_encryptor : Encryptor
}.

Record DecryptorHandler := mkDecryptorHandler {
  dh_role : bytes;
  dh_addresses : ChannelAddresses;
  dh_their_identity_id : IdentityIdentifier;
  dh_decryptor : Decryptor
}.

(** The policy and the trust context are those of the state machine. *)
Record HandshakeWorker := mkHandshakeWorker {
  hw_callback_sender : option nat;
  hw_state_machine : Machine;
  hw_trust_policy : Policy;
  hw_trust_context : option TrustContext;
  hw_identifier : IdentityIdentifier;
  hw_addresses : ChannelAddresses;
  hw_role : Role;
  hw_remote_route : option Route;
  hw_decryptor_handler : option DecryptorHandler
}.

Record IdentityChannelListener := mkIdentityChannelListener {
  cl_identifier : IdentityIdentifier;
  cl_options : SecureChannelListenerOptions
}.

Inductive channel_worker :=
| WEncryptor (w : EncryptorWorker)
| WHandshake (w : HandshakeWorker)
| WListener (w : IdentityChannelListener).

(** All of them take messages of any type. *)
Notation channel_message := unit.
Notation capi := (api channel_worker channel_message).

(** What the workers call: their context, the vault (an encryption or a
    decryption is one step of it), the state machine, the identities, the
    registry, random addresses and one-shot callbacks. *)
Inductive ccall : Type -> Type :=
| CCtx {X} (c : capi X) : ccall X
| CSetSelf (w : channel_worker) : ccall unit
| CRandomTagged (tag : bytes) : ccall Address
| CGenerateFlowControlId : ccall FlowControlId
| OnVault {X} (m : Vault -> X * Vault) : ccall X
| NewStateMachine (role : Role) (id : IdentityIdentifier) (credentials : list Credential)
    (policy : Policy) (trust_context : option TrustContext) : ccall (result channel_error Machine)
| OnEvent (role : Role) (policy : Policy) (trust_context : option TrustContext) (event : Event)
    (m : Machine) : ccall (result HandshakeError Action * Machine)
| AuthorityCredential (trust_context : TrustContext) (id : IdentityIdentifier)
    : ccall (result channel_error Credential)
| ChannelRegistry {X} (f : SecureChannelRegistry -> X * SecureChannelRegistry) : ccall X
| NewCallback : ccall nat
| SendCallback (c : nat) : ccall (result channel_error unit)
| WaitCallback (c : nat) (timeout : option Z) : ccall (result channel_error unit).

Notation cprog A := (prog ccall no_event A).
Notation chresult A := (result channel_error A).

Definition in_ctx {X} (c : capi (cresult X)) : cprog (chresult X) :=
  do r <- pcall (CCtx c); PRet (map_err ContextFailed r).

Definition update_flow (f : FlowControls -> FlowControls) : cprog unit := pcall (CCtx (AFlowUpdate f)).

Definition route_ok {X} (r : result RouteError X) : chresult X :=
  map_err (ContextFailed ∘ CAccess ∘ RouteErr) r.

Definition ChannelAddresses_generate (role : Role) : cprog ChannelAddresses :=
  let tag s := str "SecureChannel." ++ Role_str role ++ s in
  do decryptor_internal <- pcall (CRandomTagged (tag (str ".decryptor.internal")));
  do decryptor_remote <- pcall (CRandomTagged (tag (str ".decryptor.remote")));
  do decryptor_api <- pcall (CRandomTagged (tag (str ".decryptor.api")));
  do encryptor <- pcall (CRandomTagged (tag (str ".encryptor")));
  do encryptor_api <- pcall (CRandomTagged (tag (str ".encryptor.api")));
  PRet (mkChannelAddresses decryptor_internal decryptor_remote decryptor_api encryptor encryptor_api).

(** *** encryptor_worker.rs *)

Definition with_encryptor (e : Encryptor) (self : EncryptorWorker) : EncryptorWorker :=
  mkEncryptorWorker (ew_role self) (ew_addresses self) (ew_remote_route self) e.

(** [self.encryptor.encrypt]; the encryptor has changed also when it fails. *)
Definition ew_encrypt (self : EncryptorWorker) (payload : bytes) : cprog (result ChannelError bytes) :=
  do x <- pcall (OnVault (fun v => let '(r, (e, v)) := Encryptor_encrypt payload (ew_encryptor self, v) in
                                   ((r, e), v)));
  do _ <- pcall (CSetSelf (WEncryptor (with_encryptor x.2 self)));
  PRet x.1.

Definition handle_encrypt_api (self : EncryptorWorker) (msg : Routed channel_message)
  : cprog (chresult unit) :=
  let transport := transport_message (local_msg msg) in
  do? request <- plift (ok_or (decode_EncryptionRequest (payload transport)) BadMessage);
  do encrypted_payload <- ew_encrypt self request;
  match encrypted_payload with
  | Panic => PPanic
  | response =>
      in_ctx (ASend 0 (return_route transport) (encode_EncryptionResponse response)
                (encryptor_api (ew_addresses self)) [])
  end.

Definition handle_encrypt (self : EncryptorWorker) (msg : Routed channel_message)
  : cprog (chresult unit) :=
  let transport := transport_message (local_msg msg) in
  let onward_route := (Route_step (onward_route transport)).2 in
  let msg := TransportMessage_v1 onward_route (return_route transport) (payload transport) in
  do? data <- plift (ok_or (encode_transport msg) BadMessage);
  do r <- ew_encrypt self data;
  do? encrypted_payload <- plift (map_err EncryptionFailed r);
  in_ctx (ASend 0 (ew_remote_route self) (encode_vec encrypted_payload)
            (encryptor (ew_addresses self)) []).

Definition EncryptorWorker_handle_message (self : EncryptorWorker) (msg : Routed channel_message)
  : cprog (chresult unit) :=
  if decide (msg_addr msg = encryptor (ew_addresses self)) then handle_encrypt self msg
  else if decide (msg_addr msg = encryptor_api (ew_addresses self)) then handle_encrypt_api self msg
  else PRet (Err UnknownChannelMsgDestination).

Definition stop_worker (a : Address) : cprog (chresult unit) := in_ctx (AStopAddress a AddressTypeWorker).

Definition EncryptorWorker_shutdown (self : EncryptorWorker) : cprog (chresult unit) :=
  do _ <- stop_worker (decryptor_internal (ew_addresses self));
  do r <- pcall (OnVault (fun v => let '(r, (_, v)) := Encryptor_shutdown (ew_encryptor self, v) in (r, v)));
  plift (map_err EncryptionFailed r).

(** *** decryptor.rs *)

Definition DecryptorHandler_new (role : bytes) (addresses : ChannelAddresses) (key : KeyId)
    (their_identity_id : IdentityIdentifier) : DecryptorHandler :=
  mkDecryptorHandler role addresses their_identity_id (Decryptor_new key).

Definition with_decryptor (d : Decryptor) (h : DecryptorHandler) (self : HandshakeWorker)
  : HandshakeWorker :=
  mkHandshakeWorker (hw_callback_sender self) (hw_state_machine self) (hw_trust_policy self)
    (hw_trust_context self) (hw_identifier self) (hw_addresses self) (hw_role self)
    (hw_remote_route self)
    (Some (mkDecryptorHandler (dh_role h) (dh_addresses h) (dh_their_identity_id h) d)).

(** [self.decryptor.decrypt] of the handler [h] of the worker [self] *)
Definition dh_decrypt (self : HandshakeWorker) (h : DecryptorHandler) (payload : bytes)
  : cprog (result ChannelError bytes) :=
  do x <- pcall (OnVault (fun v => let '(r, (d, v)) := Decryptor_decrypt payload (dh_decryptor h, v) in
                                   ((r, d), v)));
  do _ <- pcall (CSetSelf (WHandshake (with_decryptor x.2 h self)));
  PRet x.1.

Definition handle_decrypt_api (self : HandshakeWorker) (h : DecryptorHandler)
    (msg : Routed channel_message) : cprog (chresult unit) :=
  let transport := transport_message (local_msg msg) in
  do? request <- plift (ok_or (decode_DecryptionRequest (payload transport)) BadMessage);
  do decrypted_payload <- dh_decrypt self h request;
  match decrypted_payload with
  | Panic => PPanic
  | response =>
      in_ctx (ASend 0 (return_route transport) (encode_DecryptionResponse response)
                (decryptor_api (dh_addresses h)) [])
  end.

(** An error of forwarding is logged. *)
Definition handle_decrypt (self : HandshakeWorker) (h : DecryptorHandler)
    (msg : Routed channel_message) : cprog (chresult unit) :=
  do? data <- plift (ok_or (decode_vec (payload (transport_message (local_msg msg)))) BadMessage);
  do r <- dh_decrypt self h data;
  do? decrypted_payload <- plift (map_err EncryptionFailed r);
  do? transport <- plift (ok_or (decode_transport decrypted_payload) BadMessage);
  let transport :=
    mkTransportMessage (version transport) (onward_route transport)
      (RouteBuilder_into (RouteBuilder_prepend (encryptor (dh_addresses h))
                            (Route_modify (return_route transport))))
      (payload transport) in
  let msg := mkLocalMessage transport (mark [] (dh_their_identity_id h)) in
  do r <- pcall (CCtx (AForward 0 msg (decryptor_internal (dh_addresses h))));
  match r with
  | Panic => PPanic
  | _ => PRet (Ok tt)
  end.

Definition DecryptorHandler_shutdown (h : DecryptorHandler) : cprog (chresult unit) :=
  do r <- pcall (OnVault (fun v => let '(r, (_, v)) := Decryptor_shutdown (dh_decryptor h, v) in (r, v)));
  plift (map_err EncryptionFailed r).

(** *** handshake/handshake_worker.rs *)

Definition with_machine (m : Machine) (self : HandshakeWorker) : HandshakeWorker :=
  mkHandshakeWorker (hw_callback_sender self) m (hw_trust_policy self) (hw_trust_context self)
    (hw_identifier self) (hw_addresses self) (hw_role self) (hw_remote_route self)
    (hw_decryptor_handler self).

Definition with_route (r : Route) (self : HandshakeWorker) : HandshakeWorker :=
  mkHandshakeWorker (hw_callback_sender self) (hw_state_machine self) (hw_trust_policy self)
    (hw_trust_context self) (hw_identifier self) (hw_addresses self) (hw_role self) (Some r)
    (hw_decryptor_handler self).

Definition with_handler (callback : option nat) (h : DecryptorHandler) (self : HandshakeWorker)
  : HandshakeWorker :=
  mkHandshakeWorker callback (hw_state_machine self) (hw_trust_policy self) (hw_trust_context self)
    (hw_identifier self) (hw_addresses self) (hw_role self) (hw_remote_route self) (Some h).

Definition store_worker (self : HandshakeWorker) : cprog HandshakeWorker :=
  do _ <- pcall (CSetSelf (WHandshake self)); PRet self.

(** [self.state_machine.on_event(event)] *)
Definition on_event_of (self : HandshakeWorker) (event : Event)
  : cprog (result HandshakeError Action * HandshakeWorker) :=
  do x <- pcall (OnEvent (hw_role self) (hw_trust_policy self) (hw_trust_context self) event
                   (hw_state_machine self));
  do self <- store_worker (with_machine x.2 self);
  PRet (x.1, self).

Definition remote_route (self : HandshakeWorker) : chresult Route :=
  ok_or (hw_remote_route self) NoRemoteRoute.

Definition send_handshake (self : HandshakeWorker) (message : bytes) : cprog (chresult unit) :=
  do? route <- plift (remote_route self);
  in_ctx (ASend 0 route (encode_vec message) (decryptor_remote (hw_addresses self)) []).

Definition HandshakeWorker_initialize (self : HandshakeWorker) : cprog (chresult unit) :=
  do x <- on_event_of self Initialize;
  do? action <- plift (map_err HandshakeFailed x.1);
  match action with
  | SendMessage message => send_handshake x.2 message
  | NoAction => PRet (Ok tt)
  end.

Definition HandshakeWorker_create_mailboxes (addresses : ChannelAddresses)
    (decryptor_outgoing_access_control : FlowControls -> DynAccessControl) : SharedMailboxes :=
  mkSharedMailboxes
    (mkSharedMailbox (decryptor_remote addresses) (fun _ => dyn_incoming mkAllowAll)
       (fun _ => dyn_outgoing mkAllowAll))
    [mkSharedMailbox (decryptor_internal addresses) (fun _ => dyn_incoming mkDenyAll)
       decryptor_outgoing_access_control;
     mkSharedMailbox (decryptor_api addresses) (fun _ => dyn_incoming mkAllowAll)
       (fun _ => dyn_outgoing mkAllowAll)].

Definition encryptor_mailboxes (addresses : ChannelAddresses) (next_hop : Address) : SharedMailboxes :=
  mkSharedMailboxes
    (mkSharedMailbox (encryptor addresses) (fun _ => dyn_incoming mkAllowAll)
       (fun _ => dyn_outgoing (mkAllowOnwardAddress next_hop)))
    [mkSharedMailbox (encryptor_api addresses) (fun _ => dyn_incoming mkAllowAll)
       (fun _ => dyn_outgoing mkAllowAll)].

Definition HandshakeWorker_finalize (self : HandshakeWorker) (results : HandshakeResults)
  : cprog (chresult DecryptorHandler) :=
  let addresses := hw_addresses self in
  let decryptor := DecryptorHandler_new (Role_str (hw_role self)) addresses
                     (decryption_key (handshake_keys results)) (their_identifier results) in
  do? route <- plift (remote_route self);
  let encryptor_worker := mkEncryptorWorker (Role_str (hw_role self)) addresses route
                            (Encryptor_new (encryption_key (handshake_keys results)) 0) in
  do? next_hop <- plift (route_ok (Route_next route));
  do? _ <- in_ctx (AStartWorker 0 (encryptor_mailboxes addresses next_hop) (WEncryptor encryptor_worker));
  match list.last route with
  | None => PPanic
  | Some their_decryptor_address =>
      do r <- pcall (ChannelRegistry (register_channel
        (mkRegistryEntry (encryptor addresses) (encryptor_api addresses) (decryptor_remote addresses)
           (decryptor_api addresses) (is_initiator (hw_role self)) (hw_identifier self)
           (their_identifier results) their_decryptor_address)));
      do? _ <- plift r;
      PRet (Ok decryptor)
  end.

(** The end of a step of the handshake: the channel, when the machine is done. *)
Definition finish_handshake (self : HandshakeWorker) : cprog (chresult unit) :=
  match get_handshake_results (hw_state_machine self) with
  | Some final_state =>
      do? h <- HandshakeWorker_finalize self final_state;
      do _ <- store_worker (with_handler None h self);
      match hw_callback_sender self with
      | Some callback_sender => pcall (SendCallback callback_sender)
      | None => PRet (Ok tt)
      end
  | None => PRet (Ok tt)
  end.

Definition HandshakeWorker_handle_message (self : HandshakeWorker) (msg : Routed channel_message)
  : cprog (chresult unit) :=
  match hw_decryptor_handler self with
  | Some h =>
      if decide (msg_addr msg = decryptor_remote (hw_addresses self)) then handle_decrypt self h msg
      else if decide (msg_addr msg = decryptor_api (hw_addresses self)) then handle_decrypt_api self h msg
      else PRet (Err UnknownChannelMsgDestination)
  | None =>
      let transport := transport_message (local_msg msg) in
      do? message <- plift (ok_or (decode_vec (payload transport)) BadMessage);
      do x <- on_event_of self (ReceivedMessage message);
      do? action <- plift (map_err HandshakeFailed x.1);
      match action with
      | SendMessage message =>
          do self <- store_worker (with_route (return_route transport) x.2);
          do? _ <- send_handshake self message;
          finish_handshake self
      | NoAction => finish_handshake x.2
      end
  end.

Definition HandshakeWorker_shutdown (self : HandshakeWorker) : cprog (chresult unit) :=
  do _ <- stop_worker (encryptor (hw_addresses self));
  do _ <- pcall (ChannelRegistry (unregister_channel (encryptor (hw_addresses self))));
  match hw_decryptor_handler self with
  | Some h => DecryptorHandler_shutdown h
  | None => PRet (Ok tt)
  end.

Definition HandshakeWorker_create (addresses : ChannelAddresses) (identifier : IdentityIdentifier)
    (trust_policy : Policy) (decryptor_outgoing_access_control : FlowControls -> DynAccessControl)
    (credentials : list Credential) (trust_context : option TrustContext)
    (remote_route : option Route) (timeout : option Z) (role : Role) : cprog (chresult unit) :=
  do r <- pcall (NewStateMachine role identifier credentials trust_policy trust_context);
  do? state_machine <- plift r;
  do callback <- (if is_initiator role then do c <- pcall NewCallback; PRet (Some c) else PRet None);
  let worker := mkHandshakeWorker callback state_machine trust_policy trust_context identifier
                  addresses role remote_route None in
  do? _ <- in_ctx (AStartWorker 0
             (HandshakeWorker_create_mailboxes addresses decryptor_outgoing_access_control)
             (WHandshake worker));
  match callback with
  | Some callback_waiter => pcall (WaitCallback callback_waiter timeout)
  | None => PRet (Ok tt)
  end.

(** *** listener.rs *)

Definition IdentityChannelListener_create (identifier : IdentityIdentifier) (address : Address)
    (options : SecureChannelListenerOptions) : cprog (chresult unit) :=
  do _ <- update_flow (setup_flow_control_for_channel_listener options address);
  in_ctx (AStartWorker 0 (main_mailboxes address (fun _ => dyn_incoming mkAllowAll)
                            (fun _ => dyn_outgoing mkAllowAll))
            (WListener (mkIdentityChannelListener identifier options))).

Definition get_credentials (self : IdentityChannelListener) : cprog (chresult (list Credential)) :=
  match sl_credentials (cl_options self) with
  | [] =>
      match sl_trust_context (cl_options self) with
      | Some trust_context =>
          do r <- pcall (AuthorityCredential trust_context (cl_identifier self));
          do? c <- plift r;
          PRet (Ok [c])
      | None => PRet (Ok [])
      end
  | credentials => PRet (Ok credentials)
  end.

(** [own]: the address of the listener *)
Definition IdentityChannelListener_handle_message (own : Address) (self : IdentityChannelListener)
    (message : Routed channel_message) : cprog (chresult unit) :=
  do addresses <- ChannelAddresses_generate Responder;
  do flow_control_id <- pcall CGenerateFlowControlId;
  do _ <- update_flow (setup_flow_control_for_channel (cl_options self) flow_control_id addresses
                         (src_addr message));
  let access_control := SecureChannelListenerOptions_create_access_control (cl_options self) flow_control_id in
  do? credentials <- get_credentials self;
  do? _ <- HandshakeWorker_create addresses (cl_identifier self) (sl_trust_policy (cl_options self))
             access_control credentials (sl_trust_context (cl_options self)) None None Responder;
  let t := transport_message (local_msg message) in
  let t := mkTransportMessage (version t)
             (RouteBuilder_into (RouteBuilder_replace (decryptor_remote addresses)
                                   (Route_modify (onward_route t))))
             (return_route t) (payload t) in
  in_ctx (AForward 0 (mkLocalMessage t (local_info (local_msg message))) own).

(** *** secure_channels/secure_channels.rs *)

Record SecureChannelListener := mkSecureChannelListener {
  scl_address : Address;
  scl_flow_control_id : FlowControlId
}.

Record SecureChannel := mkSecureChannel {
  sch_encryptor_address : Address;
  sch_encryptor_api_address : Address;
  sch_flow_control_id : FlowControlId
}.

Definition create_secure_channel_listener (identifier : IdentityIdentifier) (address : Address)
    (options : SecureChannelListenerOptions) : cprog (chresult SecureChannelListener) :=
  do? _ <- IdentityChannelListener_create identifier address options;
  PRet (Ok (mkSecureChannelListener address (sl_flow_control_id options))).

Definition create_secure_channel (identifier : IdentityIdentifier) (route : Route)
    (options : SecureChannelOptions) : cprog (chresult SecureChannel) :=
  do addresses <- ChannelAddresses_generate Initiator;
  do? next <- plift (route_ok (Route_next route));
  do _ <- update_flow (SecureChannelOptions_setup_flow_control options addresses next);
  let access_control := SecureChannelOptions_create_access_control options in
  do? _ <- HandshakeWorker_create addresses identifier (sc_trust_policy options) access_control
             (sc_credentials options) (sc_trust_context options) (Some route)
             (Some (sc_timeout options)) Initiator;
  PRet (Ok (mkSecureChannel (encryptor addresses) (encryptor_api addresses)
              (sc_flow_control_id options))).

Definition stop_secure_channel (channel : Address) : cprog (chresult unit) := stop_worker channel.
End Channels.
