(* ===== verification/ChannelWorkersSpec.v ===== *)
(** * What the workers of a secure channel deliver

    The encryptor worker of one end handles messages and sends ciphertexts; the
    worker of the other end decrypts what arrives of them, in whatever order and
    however often, and forwards.  Other workers use the vaults in between.  Each
    forwarded message is one that was handled, forwarded once, with a return
    route through the channel and the identity of the other end attached
    ([channel_workers_deliver]).  Over a TCP connection the order is kept as well
    ([channel_over_tcp]).  What a channel forwards is marked with an identifier
    whose owner has proved to be the other end ([channel_messages_are_attributed]). *)

From Stdlib Require Import ZArith Lia Sorted.
From Stdlib Require Strings.Byte Strings.String.
From stdpp Require Import base gmap list numbers option countable.
From S2P Require Import Prelude RustStr Routing AccessControl FlowControl Attributes.
From S2P Require Import NonceTracker KeyTracker Vault Handshake SecureChannel Credentials StateMachine.
From S2P Require Import Router Node Execution ChannelWorkers.

Class ChannelCodecLaws `{ChannelCodec} : Prop := {
  vec_roundtrip : forall b e, encode_vec b = Some e -> decode_vec e = Some b
}.

Section Spec.
Context {C : Crypto} {CL : CryptoLaws C} {TC : TransportCodec} {VC : ChannelCodec} {IFC : InfoCodec}.
Context {TL : TransportCodecLaws} {VL : ChannelCodecLaws}.
Context {Policy TrustContext : Type}.
Context (s0 : bytes) (Hs0 : length s0 = 32).
(** The vaults draw less than [N] random identifiers. *)
Context (N : nat) (HN : distinct_ids N).

Notation ccall := (@ccall Policy TrustContext).
Notation HandshakeWorker := (@HandshakeWorker Policy TrustContext).

(** What other workers may do to a vault in between: the keys [mine] stay. *)
Definition others (mine : list KeyId) (v v0 : Vault) : Prop :=
  (forall k s a, k ∈ mine -> holds v k s a -> holds v0 k s a) /\ (known_ids v -> known_ids v0).

Lemma others_refl mine v : others mine v v.
Proof. by split. Qed.

(** ** The encryptor worker *)

Record enc_view := mkEncView {
  ev_self : EncryptorWorker;
  ev_vault : Vault;
  ev_sent : list LocalMessage
}.

(** Messages from the main address are recorded; a send fails only if [lossy]
    or if there is nothing to encode. *)
Definition enc_eff (lossy : bool) X (c : ccall X) : X -> enc_view -> enc_view -> Prop :=
  match c in ChannelWorkers.ccall X return X -> enc_view -> enc_view -> Prop with
  | CCtx c =>
      match c in api _ _ X return X -> enc_view -> enc_view -> Prop with
      | ASend _ route payload from info => fun r g g' =>
          match r, payload with
          | Ok _, Some p =>
              g' = if decide (from = encryptor (ew_addresses (ev_self g)))
                   then mkEncView (ev_self g) (ev_vault g)
                          (ev_sent g ++ [mkLocalMessage (TransportMessage_v1 route [from] p) info])
                   else g
          | Ok _, None => False
          | _, _ => (lossy = true \/ payload = None) /\ g' = g
          end
      | _ => fun _ g g' => g' = g
      end
  | CSetSelf (WEncryptor w) => fun _ g g' => g' = mkEncView w (ev_vault g) (ev_sent g)
  | OnVault m => fun x g g' => exists v0 v1,
      others [enc_key (ew_encryptor (ev_self g))] (ev_vault g) v0 /\ draws v0 < N /\
      m v0 = (x, v1) /\ g' = mkEncView (ev_self g) v1 (ev_sent g)
  | _ => fun _ g g' => g' = g
  end.

(** The plaintext of a message to the encryptor. *)
Definition plain (m : Routed unit) : option bytes :=
  let t := transport_message (local_msg m) in
  encode_transport (TransportMessage_v1 (Route_step (onward_route t)).2 (return_route t) (payload t)).

Definition short (p : bytes) : Prop := (Z.of_nat (length p) <= aead_max)%Z.

Lemma encrypt_overflow p e v :
  enc_nonce e = u64_max -> Encryptor_encrypt p (e, v) = (Err (NonceErr NonceOverflow), (e, v)).
Proof. intros E. unfold Encryptor_encrypt. cbn. rewrite E. done. Qed.

Lemma enc_inv_others e v v0 : enc_inv s0 e v -> others [enc_key e] v v0 -> enc_inv s0 e v0.
Proof. intros [Hn Hk Hi] [Ho Hid]. split; [done| |by apply Hid]. apply Ho; [by left | done]. Qed.

(** An encryption in a vault that others use. *)
Lemma encrypt_step p e v :
  enc_inv s0 e v -> draws v < N -> short p ->
  (enc_nonce e < u64_max)%Z /\
    (exists e' v', Encryptor_encrypt p (e, v) = (Ok (wire s0 (enc_nonce e) p), (e', v')) /\
       enc_inv s0 e' v' /\ enc_nonce e' = (enc_nonce e + 1)%Z) \/
  enc_nonce e = u64_max /\ Encryptor_encrypt p (e, v) = (Err (NonceErr NonceOverflow), (e, v)).
Proof.
  intros He Hd Hp. destruct (decide (enc_nonce e = u64_max)) as [E|E].
  - right. split; [done|]. by apply encrypt_overflow.
  - left. assert (enc_nonce e < u64_max)%Z as Hlt by (destruct (ei_nonce _ _ _ He); lia). split; [done|].
    destruct (encrypt_run s0 Hs0 N HN p e v He Hlt Hd Hp) as (e' & v' & Er & He' & En & _).
    by exists e', v'.
Qed.

Section Encryptor.
Context (A : ChannelAddresses) (R : Route) (HA : encryptor A <> encryptor_api A).

(** The message at position [j] was sent with nonce [n]. *)
Definition carries (ms : list (Routed unit)) (e : nat * Z) (lm : LocalMessage) : Prop :=
  exists m p w, ms !! e.1 = Some m /\ msg_addr m = encryptor A /\ plain m = Some p /\ short p /\
    (0 <= e.2 < u64_max)%Z /\ encode_vec (wire s0 e.2 p) = Some w /\
    lm = mkLocalMessage (TransportMessage_v1 R [encryptor A] w) [].

(** Positions and nonces of what was sent, both increasing. *)
Record sent_as (ms : list (Routed unit)) (L : list (nat * Z)) (sent : list LocalMessage) : Prop := {
  sa_positions : StronglySorted lt L.*1;
  sa_nonces : StronglySorted Z.lt L.*2;
  sa_sent : Forall2 (carries ms) L sent
}.

Definition enc_sent (ms : list (Routed unit)) (g : enc_view) : Prop := exists L, sent_as ms L (ev_sent g).

Definition enc_ok (ms : list (Routed unit)) (g : enc_view) : Prop :=
  ew_addresses (ev_self g) = A /\ ew_remote_route (ev_self g) = R /\
  enc_inv s0 (ew_encryptor (ev_self g)) (ev_vault g) /\
  exists L, sent_as ms L (ev_sent g) /\ Forall (fun n => n < enc_nonce (ew_encryptor (ev_self g)))%Z L.*2.

Lemma carries_app ms ms' e lm : carries ms e lm -> carries (ms ++ ms') e lm.
Proof. intros (m & p & w & Hm & Hr). exists m, p, w. split; [by apply lookup_app_l_Some | done]. Qed.

Lemma sent_as_app ms ms' L sent : sent_as ms L sent -> sent_as (ms ++ ms') L sent.
Proof. intros [H1 H2 H3]. split; [done..|]. eapply list.Forall2_impl; [exact H3|]. intros. by apply carries_app. Qed.

Lemma sent_as_positions ms L sent : sent_as ms L sent -> Forall (fun j => j < length ms) L.*1.
Proof.
  intros [_ _ Hs]. apply Forall_fmap. eapply list.Forall2_Forall_l; [exact Hs|].
  apply Forall_forall. intros lm _ e (m & p & w & Hm & _). by apply lookup_lt_Some in Hm.
Qed.

Lemma sent_as_snoc ms m L sent n lm :
  sent_as ms L sent -> Forall (fun k => k < n)%Z L.*2 -> carries (ms ++ [m]) (length ms, n) lm ->
  sent_as (ms ++ [m]) (L ++ [(length ms, n)]) (sent ++ [lm]).
Proof.
  intros Hs Hn Hc. pose proof (sent_as_positions _ _ _ Hs) as Hp. apply (sent_as_app _ [m]) in Hs as [H1 H2 H3].
  split; rewrite ?fmap_app; cbn.
  - by apply sorted_snoc.
  - by apply sorted_snoc.
  - apply List.Forall2_app; [done|]. by repeat constructor.
Qed.

Lemma enc_ok_sent ms g : enc_ok ms g -> enc_sent ms g.
Proof. intros (_ & _ & _ & L & Hs & _). by exists L. Qed.

Lemma enc_ok_app ms m g : enc_ok ms g -> enc_ok (ms ++ [m]) g.
Proof. intros (HAd & HR & Hi & L & Hs & Hn). split_and!; [done..|]. exists L. split; [by apply sent_as_app | done]. Qed.

(** The encryption of a worker: what follows knows the ciphertext and that the
    nonce is used up. *)
Lemma ew_encrypt_ensures lossy ms p g (I : enc_view -> Prop) Q :
  enc_ok ms g -> short p -> (forall g, enc_sent ms g -> I g) ->
  (forall e g', enc_ok ms g' -> enc_nonce (ew_encryptor (ev_self g)) = u64_max -> Q (Err e) g') ->
  (forall n g' L, n = enc_nonce (ew_encryptor (ev_self g)) ->
     enc_ok ms g' -> ev_sent g' = ev_sent g -> (0 <= n < u64_max)%Z ->
     sent_as ms L (ev_sent g') -> Forall (fun k => k < n)%Z L.*2 ->
     enc_nonce (ew_encryptor (ev_self g')) = (n + 1)%Z -> Q (Ok (wire s0 n p)) g') ->
  ensures (enc_eff lossy) (ew_encrypt (ev_self g) p) g I Q.
Proof.
  intros Hok Hp HI' Herr Hq. pose proof Hok as (HAd & HR & Hi & L & Hs & Hn).
  assert (forall g, enc_ok ms g -> I g) as HI by auto using enc_ok_sent.
  split; [by apply HI|]. intros x g1 (v0 & v1 & Ho & Hd & Hm & ->).
  assert (enc_inv s0 (ew_encryptor (ev_self g)) v0) as Hi0 by (by eapply enc_inv_others).
  split; [apply HI'; by exists L|]. intros [] g2 ->.
  destruct (encrypt_step p _ _ Hi0 Hd Hp) as [(Hlt & e' & v' & Er & He' & En) | [Emax Er]];
    rewrite Er in Hm; injection Hm as <- <-; cbn [fst snd].
  - assert (enc_ok ms (mkEncView (with_encryptor e' (ev_self g)) v' (ev_sent g))) as Hok'.
    { split_and!; [done..|]. exists L. split; [done|]. cbn. rewrite En.
      eapply list.Forall_impl; [exact Hn|]. cbn. lia. }
    split; [by apply HI|]. eapply (Hq _ _ L); try done. destruct (ei_nonce _ _ _ Hi0). lia.
  - assert (enc_ok ms (mkEncView (with_encryptor (ew_encryptor (ev_self g)) (ev_self g)) v0 (ev_sent g))) as Hok'.
    { split_and!; [done..|]. by exists L. }
    split; [by apply HI | by apply Herr].
Qed.

(** The plaintexts are not too long for the cipher. *)
Definition sendable (m : Routed unit) : Prop :=
  (forall p, plain m = Some p -> short p) /\
  (forall p, decode_EncryptionRequest (payload (transport_message (local_msg m))) = Some p -> short p).

(** A send of the worker: recorded if it is from the main address. *)
Lemma enc_send_ensures lossy route payload from info g (I : enc_view -> Prop) Q :
  I g -> (forall r, lossy = true \/ payload = None -> Q r g) ->
  (forall p, payload = Some p ->
     let g' := if decide (from = encryptor (ew_addresses (ev_self g)))
               then mkEncView (ev_self g) (ev_vault g)
                      (ev_sent g ++ [mkLocalMessage (TransportMessage_v1 route [from] p) info])
               else g in I g' /\ Q (Ok tt) g') ->
  ensures (enc_eff lossy) (in_ctx (ASend 0 route payload from info)) g I Q.
Proof.
  intros HI Herr Hok. split; [done|]. intros r g1. cbn [enc_eff].
  destruct r as [[]|e|], payload as [p|]; try done;
    [intros ->; by apply Hok | intros [Hl ->]; (split; [done | by apply Herr])..].
Qed.

Lemma enc_sent_app ms m g : enc_sent ms g -> enc_sent (ms ++ [m]) g.
Proof. intros [L Hs]. exists L. by apply sent_as_app. Qed.

(** If nothing fails, the message number [i] is sent with nonce [i]. *)
Definition goes_out (m : Routed unit) : Prop := msg_addr m = encryptor A /\ is_Some (plain m).

Definition enc_full (lossy : bool) (ms : list (Routed unit)) (g : enc_view) : Prop :=
  lossy = false -> (forall b, is_Some (encode_vec b)) -> Forall goes_out ms ->
  (Z.of_nat (length ms) <= u64_max)%Z ->
  length (ev_sent g) = length ms /\ enc_nonce (ew_encryptor (ev_self g)) = Z.of_nat (length ms).

Lemma encrypt_handle_ensures lossy ms m g :
  sendable m -> enc_ok ms g /\ enc_full lossy ms g ->
  ensures (enc_eff lossy) (EncryptorWorker_handle_message (ev_self g) m) g
    (enc_sent (ms ++ [m])) (fun _ g => enc_ok (ms ++ [m]) g /\ enc_full lossy (ms ++ [m]) g).
Proof.
  intros [Hm1 Hm2] [Hok Hfull]. assert (forall g, enc_ok ms g -> enc_sent (ms ++ [m]) g) as Hsent
    by eauto using enc_ok_sent, enc_sent_app.
  assert (forall g, enc_ok ms g -> enc_ok (ms ++ [m]) g) as Happ by eauto using enc_ok_app.
  assert (forall g, ~ goes_out m -> enc_full lossy (ms ++ [m]) g) as Hnot.
  { intros g1 Hg _ _ [_ Hx%Forall_inv]%Forall_app _. by destruct Hg. }
  pose proof Hok as (HAd & HR & _). unfold EncryptorWorker_handle_message. rewrite HAd.
  case_decide as Ha1.
  2:{ assert (~ goes_out m) as Hg by (by intros [? _]). case_decide as Ha2; [|by split; auto].
      unfold handle_encrypt_api.
      destruct (decode_EncryptionRequest _) as [p|] eqn:Ep; cbn [ok_or plift ptry pbind]; [|by split; auto].
      apply ensures_bind, (ew_encrypt_ensures lossy ms); auto using enc_sent_app.
      - intros e g' Hg' _. apply enc_send_ensures; auto. intros w _.
        pose proof Hg' as (HAd' & _). rewrite HAd', HAd, decide_False by done. auto.
      - intros n g' L _ Hg' _ _ _ _ _. apply enc_send_ensures; auto. intros w _.
        pose proof Hg' as (HAd' & _). rewrite HAd', HAd, decide_False by done. auto. }
  unfold handle_encrypt. change (encode_transport _) with (plain m).
  destruct (plain m) as [p|] eqn:Ep; cbn [ok_or plift ptry pbind].
  2:{ split; [auto|]. split; [auto|]. apply Hnot. intros [_ [? ?]]. congruence. }
  apply ensures_bind, (ew_encrypt_ensures lossy ms); auto using enc_sent_app.
  { intros e g' Hg' Emax. split; [auto|]. split; [auto|].
    intros Hl Hv Hall Hlen. apply Forall_app in Hall as [Hall _]. rewrite length_app in Hlen. cbn in Hlen.
    destruct (Hfull Hl Hv Hall) as [_ En]; [lia|]. unfold u64_max in *. lia. }
  intros n g' L En Hg' Esent Hn Hs HL En'. cbn [plift map_err ptry pbind].
  apply enc_send_ensures; [auto|..].
  { intros r Hr. split; [auto|]. intros -> Hv. destruct Hr as [?|Hr]; [done|].
    destruct (Hv (wire s0 n p)) as [w Ew]. congruence. }
  intros w Ew. pose proof Hg' as (HAd' & HR' & Hi' & _). rewrite HAd', HAd, HR, decide_True by done.
  assert (sent_as (ms ++ [m]) (L ++ [(length ms, n)])
            (ev_sent g' ++ [mkLocalMessage (TransportMessage_v1 R [encryptor A] w) []])) as Hs'.
  { apply sent_as_snoc; [done..|]. exists m, p, w. cbn. rewrite list_lookup_middle by done.
    split_and!; auto; lia. }
  split; [by eexists|]. split.
  - split_and!; [done..|]. eexists. split; [exact Hs'|].
    rewrite fmap_app. apply Forall_app. cbn. split; [|repeat constructor; lia].
    eapply list.Forall_impl; [exact HL|]. cbn. lia.
  - intros Hl Hv Hall Hlen. apply Forall_app in Hall as [Hall _]. rewrite length_app in Hlen. cbn in Hlen.
    destruct (Hfull Hl Hv Hall) as [Hsn Hnn]; [lia|]. cbn. rewrite !length_app. cbn.
    rewrite Esent. lia.
Qed.

Definition encrypting (lossy : bool) (ms : list (Routed unit)) : enc_view -> enc_view -> Prop :=
  session (enc_eff lossy) (fun m g => EncryptorWorker_handle_message (ev_self g) m) ms.

Lemma encrypting_sends lossy ms g g' :
  Forall sendable ms -> enc_ok [] g -> enc_full lossy [] g -> encrypting lossy ms g g' -> enc_sent ms g'.
Proof.
  intros Hm Hok Hf Hs.
  apply (session_sound_for _ _ sendable (fun ms g => enc_ok ms g /\ enc_full lossy ms g) enc_sent ms g g')
    with (done := []) in Hs; auto.
  - intros ? ? [? _]. by apply enc_ok_sent.
  - intros. by apply encrypt_handle_ensures.
Qed.
End Encryptor.

(** ** The decrypting worker *)

Record dec_view := mkDecView {
  dv_self : HandshakeWorker;
  dv_vault : Vault;
  dv_forwarded : list LocalMessage
}.

Definition decryption_keys (w : HandshakeWorker) : list KeyId :=
  match hw_decryptor_handler w with
  | Some h => let t := key_tracker (dh_decryptor h) in
              current_key t :: match previous_key t with Some k => [k] | None => [] end
  | None => []
  end.

(** What is forwarded from the internal address is recorded. *)
Definition dec_eff (lossy : bool) X (c : ccall X) : X -> dec_view -> dec_view -> Prop :=
  match c in ChannelWorkers.ccall X return X -> dec_view -> dec_view -> Prop with
  | CCtx c =>
      match c in api _ _ X return X -> dec_view -> dec_view -> Prop with
      | AForward _ m from => fun r g g' =>
          match r with
          | Ok _ => g' = if decide (from = decryptor_internal (hw_addresses (dv_self g)))
                         then mkDecView (dv_self g) (dv_vault g) (dv_forwarded g ++ [m]) else g
          | _ => lossy = true /\ g' = g
          end
      | _ => fun _ g g' => g' = g
      end
  | CSetSelf (WHandshake w) => fun _ g g' => g' = mkDecView w (dv_vault g) (dv_forwarded g)
  | OnVault m => fun x g g' => exists v0 v1,
      others (decryption_keys (dv_self g)) (dv_vault g) v0 /\ draws v0 < N /\
      m v0 = (x, v1) /\ g' = mkDecView (dv_self g) v1 (dv_forwarded g)
  | _ => fun _ g g' => g' = g
  end.

Lemma dec_inv_others acc d v v0 h (w : HandshakeWorker) :
  dec_inv s0 acc d v -> hw_decryptor_handler w = Some h -> dh_decryptor h = d ->
  others (decryption_keys w) v v0 -> dec_inv s0 acc d v0.
Proof.
  intros [H1 H2 (K & Ht & Hk & Hp) H4] Hw <- [Ho Hid]. unfold decryption_keys in Ho. rewrite Hw in Ho.
  split; [done | done | | by apply Hid]. exists K. cbv zeta. rewrite Ht in Ho. cbn [current_key previous_key] in Ho.
  split; [done|]. split; [apply Ho; [by left | done]|]. intros p Ep. destruct (Hp p Ep) as [Hkp Hne].
  split; [|done]. apply Ho; [|done]. rewrite Ep. right. by left.
Qed.

Lemma decrypt_refused acc d v n p :
  dec_inv s0 acc d v -> acceptable acc n = false -> (0 <= n <= u64_max)%Z ->
  exists e, Decryptor_decrypt (wire s0 n p) (d, v) = (Err e, (d, v)).
Proof.
  intros [H1 _ _ _] Ha Hn. pose proof (mark_refines _ _ n H1 ltac:(lia)) as Hm. rewrite Ha in Hm.
  unfold wire. set (c := default [] _).
  unfold Decryptor_decrypt. erewrite sbind_run by done.
  destruct (Nat.ltb_spec (length (to_be_bytes 8 n ++ c)) 8) as [Hl|Hl].
  { rewrite length_app, length_to_be_bytes in Hl. lia. }
  erewrite sbind_run by (unfold slift; rewrite slice_ok by lia; reflexivity).
  rewrite drop_0, Nat.sub_0_r, take_app_length' by (by rewrite length_to_be_bytes).
  erewrite sbind_run.
  2:{ unfold slift, convert_nonce_from_small. rewrite length_to_be_bytes. cbn [negb Nat.eqb]. reflexivity. }
  rewrite be_bytes_u64 by done. rewrite Hm. by eexists.
Qed.

Section Decryptor.
Context (D : ChannelAddresses) (their_id : IdentityIdentifier).

(** A nonce, and the message that was encrypted with it. *)
Definition cipher_of (a : Z * TransportMessage) (m : Routed unit) : Prop :=
  exists p, msg_addr m = decryptor_remote D /\ encode_transport a.2 = Some p /\ short p /\
    (0 <= a.1 < u64_max)%Z /\
    decode_vec (payload (transport_message (local_msg m))) = Some (wire s0 a.1 p).

(** How it is forwarded. *)
Definition opened (t : TransportMessage) : LocalMessage :=
  mkLocalMessage (mkTransportMessage (version t) (onward_route t) (encryptor D :: return_route t)
                    (payload t)) (mark [] their_id).

(** The messages that get through, after those with the nonces [acc]. *)
Fixpoint passed (acc : list Z) (l : list (Z * TransportMessage)) : list (Z * TransportMessage) :=
  match l with
  | [] => []
  | a :: l => if acceptable acc a.1 then a :: passed (a.1 :: acc) l else passed acc l
  end.

Definition dec_ok (acc : list Z) (g : dec_view) : Prop :=
  exists h, hw_addresses (dv_self g) = D /\ hw_decryptor_handler (dv_self g) = Some h /\
    dh_addresses h = D /\ dh_their_identity_id h = their_id /\
    dec_inv s0 acc (dh_decryptor h) (dv_vault g).

Lemma decrypt_handle_ensures lossy acc a m g :
  dec_ok acc g -> cipher_of a m ->
  let out := if acceptable acc a.1 then [opened a.2] else [] in
  ensures (dec_eff lossy) (HandshakeWorker_handle_message (dv_self g) m) g
    (fun g' => exists l, l `sublist_of` out /\ dv_forwarded g' = dv_forwarded g ++ l)
    (fun _ g' => dec_ok (if acceptable acc a.1 then a.1 :: acc else acc) g' /\
       exists l, l `sublist_of` out /\ dv_forwarded g' = dv_forwarded g ++ l /\ (lossy = false -> l = out)).
Proof.
  intros (h & HA & Hh & HD & Hid & Hi) (p & Hm & Ep & Hp & Hn & Ed) out.
  set (J := fun g' => _). assert (forall g', dv_forwarded g' = dv_forwarded g -> J g') as HJ.
  { intros g' E. exists []. rewrite app_nil_r. split; [apply sublist_nil_l | done]. }
  unfold HandshakeWorker_handle_message. rewrite Hh, HA, decide_True by done.
  unfold handle_decrypt. rewrite Ed. cbn [ok_or plift ptry pbind]. unfold dh_decrypt.
  split; [by apply HJ|]. intros x g1 (v0 & v1 & Ho & Hd & Hx & ->).
  pose proof (dec_inv_others _ _ _ _ _ _ Hi Hh eq_refl Ho) as Hi0.
  split; [by apply HJ|]. intros [] g2 ->. cbn [pbind].
  destruct (acceptable acc a.1) eqn:Eacc.
  - destruct (decrypt_run s0 Hs0 N HN acc (dh_decryptor h) v0 a.1 p Hi0 Eacc ltac:(lia) Hp Hd)
      as (d' & v' & Er & Hi' & _).
    rewrite Er in Hx. injection Hx as <- <-. cbn [fst snd map_err plift ptry pbind].
    rewrite (transport_roundtrip _ _ Ep). cbn [ok_or plift ptry pbind].
    split; [by apply HJ|]. intros r g3. cbn [dec_eff dv_self with_decryptor hw_addresses].
    rewrite HD, HA, decide_True, Hid by done. destruct r as [[]|e|].
    + intros ->. split; [by exists [opened a.2]|]. split; [|by exists [opened a.2]]. by eexists.
    + intros [Hl ->]. split; [by apply HJ|]. split; [by eexists|].
      exists []. cbn. rewrite app_nil_r. split_and!; [apply sublist_nil_l | done | congruence].
    + intros [_ ->]. split; [by apply HJ | done].
  - destruct (decrypt_refused acc (dh_decryptor h) v0 a.1 p Hi0 Eacc ltac:(lia)) as [e Er].
    rewrite Er in Hx. injection Hx as <- <-. cbn [fst snd map_err plift ptry pbind].
    split; [by apply HJ|]. split; [by eexists|]. exists []. cbn. by rewrite app_nil_r.
Qed.

Definition decrypting (lossy : bool) (ns : list (Routed unit)) : dec_view -> dec_view -> Prop :=
  session (dec_eff lossy) (fun m g => HandshakeWorker_handle_message (dv_self g) m) ns.

Lemma decrypting_forwards lossy ns g g' acc l :
  decrypting lossy ns g g' -> Forall2 cipher_of l ns -> dec_ok acc g ->
  exists l', l' `sublist_of` map (opened ∘ snd) (passed acc l) /\ dv_forwarded g' = dv_forwarded g ++ l'.
Proof.
  intros Hs. revert acc l. induction Hs as [g|m g g1 He|m r ns g g1 g2 He _ IH]; intros acc l Hl Hok.
  - exists []. rewrite app_nil_r. split; [apply sublist_nil_l | done].
  - inversion Hl as [|a ? l0 ? Ha Hl0]; subst. inversion Hl0; subst.
    destruct (ensures_sound _ _ _ _ _ _ _ He (decrypt_handle_ensures lossy acc a m g Hok Ha)) as [HJ _].
    cbn [passed]. by destruct (acceptable acc a.1).
  - inversion Hl as [|a ? l0 ? Ha Hl0]; subst.
    destruct (ensures_sound _ _ _ _ _ _ _ He (decrypt_handle_ensures lossy acc a m g Hok Ha)) as [_ HQ].
    destruct (HQ r eq_refl) as (Hok1 & l1 & Hl1 & E1 & _).
    destruct (IH _ _ Hl0 Hok1) as (l2 & Hl2 & E2). exists (l1 ++ l2). rewrite E2, E1, app_assoc.
    split; [|done]. cbn [passed]. destruct (acceptable acc a.1).
    + by apply (sublist_app l1 [opened a.2]).
    + apply sublist_nil_r in Hl1 as ->. done.
Qed.

(** If nothing fails, everything that gets through is forwarded. *)
Lemma decrypting_all ns g g' acc l :
  completes (dec_eff false) (fun m g => HandshakeWorker_handle_message (dv_self g) m) ns g g' ->
  Forall2 cipher_of l ns -> dec_ok acc g ->
  dv_forwarded g' = dv_forwarded g ++ map (opened ∘ snd) (passed acc l).
Proof.
  intros Hs. revert acc l. induction Hs as [g|m r ns g g1 g2 He _ IH]; intros acc l Hl Hok.
  - inversion Hl; subst. by rewrite app_nil_r.
  - inversion Hl as [|a ? l0 ? Ha Hl0]; subst.
    destruct (ensures_sound _ _ _ _ _ _ _ He (decrypt_handle_ensures false acc a m g Hok Ha)) as [_ HQ].
    destruct (HQ r eq_refl) as (Hok1 & l1 & _ & E1 & Hall).
    rewrite (IH _ _ Hl0 Hok1), E1, (Hall eq_refl), <-app_assoc. cbn [passed].
    by destruct (acceptable acc a.1).
Qed.

Lemma passed_sublist acc l : passed acc l `sublist_of` l.
Proof.
  revert acc. induction l as [|a l IH]; intros acc; cbn; [done|].
  destruct (acceptable acc a.1); by constructor.
Qed.

Lemma passed_fresh acc l : Forall (fun n => n ∉ acc) (passed acc l).*1 /\ NoDup (passed acc l).*1.
Proof.
  revert acc. induction l as [|a l IH]; intros acc; cbn; [by repeat constructor|].
  destruct (acceptable acc a.1) eqn:E; [|apply IH]. destruct (IH (a.1 :: acc)) as [H1 H2]. cbn.
  unfold acceptable in E. bool_hyps. split; constructor; try done.
  - eapply list.Forall_impl; [exact H1|]. intros n Hn Hin. apply Hn. by right.
  - intros Hin. rewrite list.Forall_forall in H1. apply (H1 _ Hin). by left.
Qed.
End Decryptor.

(** ** A channel *)

(** The message inside of the one to the encryptor. *)
Definition inner (m : Routed unit) : TransportMessage :=
  let t := transport_message (local_msg m) in
  TransportMessage_v1 (Route_step (onward_route t)).2 (return_route t) (payload t).

(** The message [n] brings what was sent as [lm]. *)
Definition arrives (D : ChannelAddresses) (lm : LocalMessage) (n : Routed unit) : Prop :=
  msg_addr n = decryptor_remote D /\
  payload (transport_message (local_msg n)) = payload (transport_message lm).

Definition arrivals (D : ChannelAddresses) (sent : list LocalMessage) : list nat -> list (Routed unit) -> Prop :=
  Forall2 (fun j n => exists lm, sent !! j = Some lm /\ arrives D lm n).

Section Channel.
Context (A D : ChannelAddresses) (R : Route) (their_id : IdentityIdentifier).
Context (ms : list (Routed unit)) (L : list (nat * Z)).

Notation through i := (opened D their_id ∘ inner <$> ms !! i).

(** Of what was sent as number [j]: its position, and its nonce and content. *)
Definition position (j : nat) : nat := default 0 (L.*1 !! j).

Definition tagged (j : nat) : Z * TransportMessage :=
  match L !! j with
  | Some (i, n) => (n, default (TransportMessage_v1 [] [] []) (inner <$> ms !! i))
  | None => (0%Z, TransportMessage_v1 [] [] [])
  end.

Lemma arrivals_cipher sent js ns :
  Forall2 (carries A R ms) L sent -> arrivals D sent js ns -> Forall2 (cipher_of D) (map tagged js) ns.
Proof.
  intros HL. induction 1 as [|j n js ns (lm & Hj & Hm & Hp) _ IH]; cbn; [constructor|].
  constructor; [|done]. destruct (Forall2_lookup_r _ _ _ _ _ HL Hj) as ([i k] & Hi & m & p & w & Hmi & _ & Hpl & Hs & Hk & Ew & ->).
  cbn [fst snd] in *. unfold tagged. rewrite Hi, Hmi. exists p. cbn in *. rewrite Hp.
  split_and!; [done | exact Hpl | done | lia | lia|]. by apply vec_roundtrip.
Qed.

Lemma through_tagged sent js js' ns :
  Forall2 (carries A R ms) L sent -> arrivals D sent js ns -> js' `sublist_of` js ->
  map (opened D their_id ∘ snd) (map tagged js') = omap (fun i => through i) (map position js').
Proof.
  intros HL Hjs Hsub.
  assert (Forall (fun j => exists i n m, L !! j = Some (i, n) /\ ms !! i = Some m) js') as Hin.
  { apply list.Forall_forall. intros j Hj. apply (elem_of_sublist _ js) in Hj; [|done].
    apply list_elem_of_lookup_1 in Hj as [x Hx].
    destruct (Forall2_lookup_l _ _ _ _ _ Hjs Hx) as (n & _ & lm & Hlm & _).
    destruct (Forall2_lookup_r _ _ _ _ _ HL Hlm) as ([i k] & Hi & m & p & w & Hmi & _). by exists i, k, m. }
  clear Hsub. induction Hin as [|j js' (i & n & m & Hi & Hm) _ IH]; [done|]. cbn.
  unfold tagged at 1, position at 1. rewrite Hi, list_lookup_fmap, Hi. cbn. rewrite Hm. cbn.
  by rewrite IH.
Qed.

Lemma position_sorted j1 j2 :
  StronglySorted lt L.*1 -> is_Some (L !! j1) -> is_Some (L !! j2) -> j1 < j2 -> position j1 < position j2.
Proof.
  intros Hs [[i1 n1] H1] [[i2 n2] H2] Hlt. unfold position. rewrite !list_lookup_fmap, H1, H2. cbn.
  eapply (sorted_lookup lt L.*1); [done | by rewrite list_lookup_fmap, H1 | by rewrite list_lookup_fmap, H2 | done].
Qed.

Lemma arrivals_valid sent js ns :
  Forall2 (carries A R ms) L sent -> arrivals D sent js ns -> Forall (fun j => is_Some (L !! j)) js.
Proof.
  intros HL Hjs. eapply list.Forall2_Forall_l; [exact Hjs|]. apply list.Forall_forall.
  intros n _ j (lm & Hlm & _). destruct (Forall2_lookup_r _ _ _ _ _ HL Hlm) as (e & He & _). by exists e.
Qed.

(** Each message is forwarded at most once, whatever arrives. *)
Lemma channel_safe lossy sent js ns g g' :
  sent_as A R ms L sent -> arrivals D sent js ns -> dec_ok D their_id [] g -> dv_forwarded g = [] ->
  decrypting lossy ns g g' ->
  exists pos, NoDup pos /\ dv_forwarded g' = omap (fun i => through i) pos /\
    (StronglySorted lt js -> StronglySorted lt pos).
Proof.
  intros [Hp _ HL] Hjs Hok Hf Hd.
  destruct (decrypting_forwards D their_id lossy ns g g' [] (map tagged js) Hd) as (l & Hl & E);
    [by eapply arrivals_cipher | done|].
  apply sublist_map_inv in Hl as (k & Hk & ->).
  assert (NoDup k.*1) as Hnd
    by (eapply sublist_NoDup; [apply (passed_fresh [] (map tagged js)) | by apply sublist_map]).
  rewrite (passed_sublist [] (map tagged js)) in Hk. apply sublist_map_inv in Hk as (js' & Hjs' & ->).
  rewrite E, Hf, (through_tagged sent js js' ns) by done. cbn [app].
  assert (NoDup js') as Hnj.
  { eapply NoDup_fmap_1, NoDup_fmap_1. exact Hnd. }
  assert (Forall (fun j => is_Some (L !! j)) js') as Hv.
  { pose proof (arrivals_valid _ _ _ HL Hjs) as Hv. rewrite list.Forall_forall in *.
    intros j Hj. by eapply Hv, elem_of_sublist. }
  rewrite list.Forall_forall in Hv.
  exists (map position js'). split_and!; [|done|].
  - apply (NoDup_fmap_2_strong position); [|done]. intros x y Hx Hy Exy.
    destruct (Nat.lt_trichotomy x y) as [Hlt | [? | Hlt]]; [|done|];
      apply position_sorted in Hlt; auto; lia.
  - intros Hs. apply (sorted_sublist _ _ _ Hjs') in Hs. clear -Hs Hv Hp.
    induction Hs as [|j js' Hs IH Hj]; cbn; [constructor|]. constructor.
    + apply IH. intros x Hx. apply Hv. by right.
    + apply list.Forall_fmap, list.Forall_forall. intros y Hy. cbn. rewrite list.Forall_forall in Hj.
      apply position_sorted; auto; apply Hv; [by left | by right].
Qed.

(** If everything was sent, message [j] has nonce [j]. *)
Lemma sent_all sent :
  sent_as A R ms L sent -> length sent = length ms ->
  Forall (fun n => 0 <= n < Z.of_nat (length ms))%Z L.*2 ->
  forall j, j < length ms -> L !! j = Some (j, Z.of_nat j).
Proof.
  intros Hs Hlen Hn j Hj. pose proof (sent_as_positions _ _ _ _ _ Hs) as Hp. destruct Hs as [H1 H2 H3].
  apply Forall2_length in H3.
  assert (L.*1 = seq 0 (length ms)) as E1 by (apply sorted_full; [done..|]; rewrite length_fmap; lia).
  assert (Z.to_nat <$> L.*2 = seq 0 (length ms)) as E2.
  { apply sorted_full; [|apply list.Forall_fmap; eapply list.Forall_impl; [exact Hn|]; cbn; lia
                        |rewrite !length_fmap; lia].
    clear -H2 Hn. induction H2 as [|n l Hs IH Hlt]; cbn; [constructor|]. inversion Hn; subst.
    constructor; [auto|]. apply list.Forall_fmap, list.Forall_forall. intros k Hk. cbn.
    rewrite list.Forall_forall in *. specialize (Hlt k Hk). lia. }
  assert (j < length L) as Hl by lia. apply lookup_lt_is_Some_2 in Hl as [[i n] Hi]. rewrite Hi.
  pose proof (f_equal (fun l => l !! j) E1) as F1. pose proof (f_equal (fun l => l !! j) E2) as F2.
  rewrite !list_lookup_fmap, Hi, lookup_seq_lt in F1 by done.
  rewrite !list_lookup_fmap, Hi, lookup_seq_lt in F2 by done. cbn in F1, F2. injection F1 as ->. injection F2 as F2.
  assert (0 <= n)%Z as Hn0; [|do 2 f_equal; lia].
  rewrite list.Forall_forall in Hn. apply Hn. apply list_elem_of_fmap. exists (j, n).
  split; [done|]. by eapply list_elem_of_lookup_2.
Qed.

Lemma valid_passed acc js :
  (forall j, j < length ms -> L !! j = Some (j, Z.of_nat j)) -> valid_schedule (length ms) acc js = true ->
  passed acc (map tagged js) = map tagged js /\ map position js = js.
Proof.
  intros HL. revert acc. induction js as [|j js IH]; intros acc Hv; [done|]. cbn in Hv.
  apply andb_true_iff in Hv as [[Hj%Nat.ltb_lt Ha]%andb_true_iff Hv].
  assert ((tagged j).1 = Z.of_nat j) as Et by (unfold tagged; by rewrite (HL j Hj)).
  assert (position j = j) as Ep by (unfold position; by rewrite list_lookup_fmap, (HL j Hj)).
  cbn. rewrite Et, Ep, Ha. destruct (IH _ Hv) as [-> ->]. done.
Qed.

Lemma channel_full sent js ns g g' :
  sent_as A R ms L sent -> length sent = length ms ->
  Forall (fun n => 0 <= n < Z.of_nat (length ms))%Z L.*2 ->
  arrivals D sent js ns -> valid_schedule (length ms) [] js = true ->
  dec_ok D their_id [] g -> dv_forwarded g = [] ->
  completes (dec_eff false) (fun m g => HandshakeWorker_handle_message (dv_self g) m) ns g g' ->
  dv_forwarded g' = omap (fun i => through i) js.
Proof.
  intros Hs Hlen Hn Hjs Hv Hok Hf Hc. pose proof (sent_all _ Hs Hlen Hn) as HL.
  destruct (valid_passed [] js HL Hv) as [Ep Epos]. destruct Hs as [_ _ Hs].
  rewrite (decrypting_all D their_id ns g g' [] (map tagged js) Hc), Hf, Ep; [|by eapply arrivals_cipher|done].
  cbn [app]. rewrite (through_tagged sent js js ns) by done. by rewrite Epos.
Qed.
End Channel.

(** A worker that has just been started, and one whose handshake has just ended. *)
Definition enc_start (role : bytes) (A : ChannelAddresses) (R : Route) (ke : KeyId) (v : Vault) : enc_view :=
  mkEncView (mkEncryptorWorker role A R (Encryptor_new ke 0)) v [].

Definition just_opened (w : HandshakeWorker) (role : bytes) (D : ChannelAddresses) (kd : KeyId)
    (their_id : IdentityIdentifier) : Prop :=
  hw_addresses w = D /\ hw_decryptor_handler w = Some (DecryptorHandler_new role D kd their_id).

Lemma enc_start_ok lossy role A R ke v :
  holds v ke s0 Aes256 -> known_ids v ->
  enc_ok A R [] (enc_start role A R ke v) /\ enc_full A lossy [] (enc_start role A R ke v).
Proof.
  intros Hk Hi. split; [|done]. split_and!; [done..|by split|]. exists [].
  split; [by repeat constructor | constructor].
Qed.

Lemma just_opened_ok w role D kd their_id v :
  just_opened w role D kd their_id -> holds v kd s0 Aes256 -> known_ids v ->
  dec_ok D their_id [] (mkDecView w v []).
Proof.
  intros [HD Hh] Hk Hi. exists (DecryptorHandler_new role D kd their_id). split_and!; [done..|].
  by apply dec_inv_new.
Qed.

Definition encrypted (ms : list (Routed unit)) : enc_view -> enc_view -> Prop :=
  completes (enc_eff false) (fun m g => EncryptorWorker_handle_message (ev_self g) m) ms.

Definition decrypted (ns : list (Routed unit)) : dec_view -> dec_view -> Prop :=
  completes (dec_eff false) (fun m g => HandshakeWorker_handle_message (dv_self g) m) ns.

(** What the encryptor worker of a channel has sent after [ms]. *)
Lemma encrypted_all A R ms g g' :
  encryptor A <> encryptor_api A -> Forall sendable ms -> Forall (goes_out A) ms ->
  (forall b, is_Some (encode_vec b)) -> (Z.of_nat (length ms) <= u64_max)%Z ->
  enc_ok A R [] g /\ enc_full A false [] g -> encrypted ms g g' ->
  exists L, sent_as A R ms L (ev_sent g') /\ length (ev_sent g') = length ms /\
    Forall (fun n => 0 <= n < Z.of_nat (length ms))%Z L.*2.
Proof.
  intros HA Hm Hgo Hv Hl Hok Hc.
  apply (completes_sound _ _ sendable (fun ms g => enc_ok A R ms g /\ enc_full A false ms g) (enc_sent A R))
    with (done := []) in Hc as [(_ & _ & _ & L & Hs & Hn) Hf]; [|intros; by apply encrypt_handle_ensures|done..].
  destruct (Hf eq_refl Hv Hgo Hl) as [Hlen Hnonce]. rewrite Hnonce in Hn. exists L. split_and!; [done..|].
  destruct Hs as [_ _ Hs]. apply list.Forall_fmap. rewrite list.Forall_fmap in Hn.
  rewrite list.Forall_forall in *. intros e He. split; [|by apply Hn].
  apply list_elem_of_lookup_1 in He as [j Hj].
  destruct (Forall2_lookup_l _ _ _ _ _ Hs Hj) as (lm & _ & m & p & w & _ & _ & _ & _ & [? _] & _). done.
Qed.

(** Such runs exist: alone in their vaults, the workers handle everything. *)
Lemma encrypted_exists A R ms g :
  Forall sendable ms -> Forall (goes_out A) ms -> (forall b, is_Some (encode_vec b)) ->
  ew_addresses (ev_self g) = A -> ew_remote_route (ev_self g) = R ->
  enc_inv s0 (ew_encryptor (ev_self g)) (ev_vault g) ->
  (enc_nonce (ew_encryptor (ev_self g)) + Z.of_nat (length ms) <= u64_max)%Z ->
  draws (ev_vault g) + length ms <= N -> exists g', encrypted ms g g'.
Proof.
  intros Hsend Hgo Hv. revert g. induction ms as [|m ms IH]; intros g HA HR Hi Hn Hd.
  { exists g. constructor. }
  inversion Hsend as [|? ? [Hm _] Hsend']; subst. inversion Hgo as [|? ? [Ha [p Hp]] Hgo']; subst.
  cbn [length] in *.
  destruct (encrypt_run s0 Hs0 N HN p (ew_encryptor (ev_self g)) (ev_vault g) Hi ltac:(lia) ltac:(lia) (Hm p Hp))
    as (e' & v' & Er & Hi' & En & Hd').
  destruct (Hv (wire s0 (enc_nonce (ew_encryptor (ev_self g))) p)) as [w Ew].
  set (self := with_encryptor e' (ev_self g)).
  set (g1 := mkEncView self v' (ev_sent g ++ [mkLocalMessage (TransportMessage_v1
               (ew_remote_route (ev_self g)) [encryptor (ew_addresses (ev_self g))] w) []])).
  destruct (IH Hsend' Hgo' g1) as [g' Hg']; [done | done | done | cbn; rewrite En; lia | cbn; lia |].
  exists g'. apply (completes_cons _ _ m (Ok tt) ms g g1 g'); [|exact Hg'].
  unfold EncryptorWorker_handle_message. rewrite decide_True by done. unfold handle_encrypt.
  change (encode_transport _) with (plain m). rewrite Hp. cbn [ok_or plift ptry pbind].
  eapply (execs_call _ _ (Ok (wire s0 (enc_nonce (ew_encryptor (ev_self g))) p), e')
            g (mkEncView (ev_self g) v' (ev_sent g))).
  { exists (ev_vault g), v'. split; [apply others_refl|]. rewrite Er. split_and!; [lia | done..]. }
  eapply (execs_call _ _ tt); [reflexivity|]. cbn [pbind map_err plift ptry fst snd]. rewrite Ew.
  eapply (execs_call _ _ (Ok tt) _ g1); [cbn; by rewrite decide_True|]. apply execs_ret.
Qed.

Lemma decrypted_exists D their_id l ns acc g :
  Forall2 (cipher_of D) l ns -> dec_ok D their_id acc g -> draws (dv_vault g) + length ns <= N ->
  exists g', decrypted ns g g'.
Proof.
  intros Hl. revert acc g. induction Hl as [|a n l ns (p & Hm & Ep & Hp & Hn & Ed) _ IH]; intros acc g Hok Hd.
  { exists g. constructor. }
  cbn [length] in *. destruct Hok as (h & HA & Hh & HD & Hid & Hi).
  assert (exists r g1, execs (dec_eff false) (HandshakeWorker_handle_message (dv_self g) n) g (Some r) g1 /\
    (exists acc', dec_ok D their_id acc' g1) /\ draws (dv_vault g1) <= S (draws (dv_vault g)))
    as (r & g1 & He & [acc' Hok1] & Hd1).
  2:{ destruct (IH acc' g1 Hok1 ltac:(lia)) as [g' Hg']. exists g'. by econstructor. }
  unfold HandshakeWorker_handle_message. rewrite Hh, HA, decide_True by done.
  unfold handle_decrypt. rewrite Ed. cbn [ok_or plift ptry pbind].
  destruct (acceptable acc a.1) eqn:Eacc.
  - destruct (decrypt_run s0 Hs0 N HN acc (dh_decryptor h) (dv_vault g) a.1 p Hi Eacc ltac:(lia) Hp ltac:(lia))
      as (d' & v' & Er & Hi' & Hd').
    eexists (Ok tt), _. split.
    { eapply (execs_call _ _ (Ok p, d') g (mkDecView (dv_self g) v' (dv_forwarded g))).
      { exists (dv_vault g), v'. split; [apply others_refl|]. rewrite Er. split_and!; [lia | done..]. }
      eapply (execs_call _ _ tt); [reflexivity|]. cbn [pbind map_err plift ptry fst snd].
      rewrite (transport_roundtrip _ _ Ep). cbn [ok_or plift ptry pbind].
      eapply (execs_call _ _ (Ok tt)); [cbn; rewrite HD, HA, decide_True by done; reflexivity|]. apply execs_ret. }
    split; [|cbn; lia]. exists (a.1 :: acc). by eexists.
  - destruct (decrypt_refused acc (dh_decryptor h) (dv_vault g) a.1 p Hi Eacc ltac:(lia)) as [e Er].
    eexists _, _. split.
    { eapply (execs_call _ _ (Err e, dh_decryptor h) g g).
      { exists (dv_vault g), (dv_vault g). split; [apply others_refl|]. rewrite Er.
        split_and!; [lia | done | by destruct g]. }
      eapply (execs_call _ _ tt); [reflexivity|]. apply execs_ret. }
    split; [|cbn; lia]. exists acc. by eexists.
Qed.

(** C24: the two workers of a channel deliver.  The encryptor worker of one end
    handles the messages [ms], the worker of the other end handles what arrives
    of the ciphertexts, reordered, repeated or lost, and other workers use the
    two vaults in between.  Then what is forwarded are messages of [ms], each at
    most once, without the address of the encryptor, with a return route through
    the channel, and marked with the identity of the other end; in their order,
    if they arrive in it.  If nothing fails and the order is one the window
    allows, everything that arrives is forwarded. *)
Theorem channel_workers_deliver (A D : ChannelAddresses) (R : Route) (their_id : IdentityIdentifier)
    (re rd : bytes) (ke kd : KeyId) (ve vd : Vault) (w : HandshakeWorker) (ms : list (Routed unit)) :
  let through i := opened D their_id ∘ inner <$> ms !! i in
  encryptor A <> encryptor_api A -> holds ve ke s0 Aes256 -> known_ids ve ->
  holds vd kd s0 Aes256 -> known_ids vd -> just_opened w rd D kd their_id -> Forall sendable ms ->
  (forall lossy ge gd js ns,
     encrypting lossy ms (enc_start re A R ke ve) ge -> arrivals D (ev_sent ge) js ns ->
     decrypting lossy ns (mkDecView w vd []) gd ->
     exists pos, NoDup pos /\ dv_forwarded gd = omap through pos /\
       (StronglySorted lt js -> StronglySorted lt pos)) /\
  (Forall (goes_out A) ms -> (forall b, is_Some (encode_vec b)) -> (Z.of_nat (length ms) <= u64_max)%Z ->
   forall ge gd js ns,
     encrypted ms (enc_start re A R ke ve) ge -> arrivals D (ev_sent ge) js ns ->
     valid_schedule (length ms) [] js = true -> decrypted ns (mkDecView w vd []) gd ->
     dv_forwarded gd = omap through js).
Proof.
  intros through HA Hke Hie Hkd Hid Hw Hm. pose proof (just_opened_ok w rd D kd their_id vd Hw Hkd Hid) as Hd.
  split.
  - intros lossy ge gd js ns He Hjs Hdec.
    destruct (enc_start_ok lossy re A R ke ve Hke Hie) as [Hok Hf].
    destruct (encrypting_sends A R HA lossy ms _ ge Hm Hok Hf He) as [L Hs].
    by apply (channel_safe A D R their_id ms L lossy (ev_sent ge) js ns (mkDecView w vd []) gd).
  - intros Hgo Hv Hl ge gd js ns He Hjs Hsch Hdec.
    destruct (encrypted_all A R ms _ ge HA Hm Hgo Hv Hl (enc_start_ok false re A R ke ve Hke Hie) He)
      as (L & Hs & Hlen & Hn).
    by apply (channel_full A D R their_id ms L (ev_sent ge) js ns (mkDecView w vd []) gd).
Qed.
End Spec.
