(* ===== verification/ChannelOverTcp.v ===== *)
(** * Secure channels over TCP connections

    The workers of a secure channel on two nodes with a TCP connection between
    them: encryptor worker, worker of the connection, processor of the connection
    and decrypting worker, each with its own failures. *)

From Stdlib Require Import ZArith Lia Sorted.
From Stdlib Require Strings.Byte Strings.String.
From stdpp Require Import base gmap list numbers option countable.
From S2P Require Import Prelude RustStr Routing AccessControl FlowControl Attributes.
From S2P Require Import NonceTracker KeyTracker Vault Handshake SecureChannel Credentials StateMachine.
From S2P Require Import Router Node Execution Tcp TcpSpec ChannelWorkers ChannelWorkersSpec.

(** What comes out of [omap], and where it comes from. *)
Lemma omap_positions {X Y} (f : X -> option Y) l :
  exists js, StronglySorted lt js /\
    Forall2 (fun j y => exists x, l !! j = Some x /\ f x = Some y) js (omap f l).
Proof.
  induction l as [|x l IH] using rev_ind; [exists []; by repeat constructor|].
  destruct IH as (js & Hs & Hjs).
  assert (Forall (fun j => j < length l) js) as Hlt.
  { eapply list.Forall2_Forall_l; [exact Hjs|]. apply list.Forall_forall.
    intros y _ j (z & Hz & _). by apply lookup_lt_Some in Hz. }
  assert (Forall2 (fun j y => exists z, (l ++ [x]) !! j = Some z /\ f z = Some y) js (omap f l)) as Hjs'.
  { eapply list.Forall2_impl; [exact Hjs|]. intros j y (z & Hz & Hf). exists z.
    split; [by apply lookup_app_l_Some | done]. }
  rewrite omap_app. cbn. destruct (f x) as [y|] eqn:Ef.
  - exists (js ++ [length l]). split; [by apply sorted_snoc|]. apply List.Forall2_app; [done|].
    constructor; [|constructor]. exists x. by rewrite list_lookup_middle.
  - exists js. by rewrite app_nil_r.
Qed.

(** Where the elements of a sublist are. *)
Lemma sublist_positions {X} (l1 l2 : list X) :
  l1 `sublist_of` l2 -> exists ks, StronglySorted lt ks /\ Forall2 (fun k x => l2 !! k = Some x) ks l1.
Proof.
  assert (forall ks, StronglySorted lt ks -> StronglySorted lt (map S ks)) as HS.
  { induction 1 as [|k ks _ IH Hk]; cbn; constructor; [done|]. apply list.Forall_fmap.
    eapply list.Forall_impl; [exact Hk|]. cbn. lia. }
  induction 1 as [|x l1 l2 _ (ks & Hs & Hks)|x l1 l2 _ (ks & Hs & Hks)].
  - exists []. by repeat constructor.
  - exists (0 :: map S ks). split.
    + constructor; [by apply HS|]. apply list.Forall_fmap, list.Forall_true. cbn. lia.
    + constructor; [done|]. by apply Forall2_fmap_l.
  - exists (map S ks). split; [by apply HS|]. by apply Forall2_fmap_l.
Qed.

(** Positions among positions. *)
Lemma positions_compose ks js :
  StronglySorted lt ks -> StronglySorted lt js -> Forall (fun j => j < length ks) js ->
  StronglySorted lt (map (fun j => nth j ks 0) js).
Proof.
  intros Hk. assert (forall i j, i < j -> j < length ks -> nth i ks 0 < nth j ks 0) as Hlt.
  { induction Hk as [|k ks _ IH Hf]; intros i j Hij Hj; [cbn in Hj; lia|].
    destruct j as [|j]; [lia|]. destruct i as [|i]; cbn in *.
    - rewrite List.Forall_forall in Hf. apply Hf, nth_In. lia.
    - apply IH; lia. }
  induction 1 as [|j js _ IH Hj]; intros Hb; cbn; [constructor|]. inversion Hb; subst.
  constructor; [auto|]. apply list.Forall_fmap, list.Forall_forall. intros i Hi. cbn.
  rewrite list.Forall_forall in Hj, H2. apply Hlt; auto.
Qed.

(** The order in which messages are sent is one the window allows. *)
Lemma highest_first k : highest (rev (map Z.of_nat (seq 0 k))) = Z.of_nat (pred k).
Proof.
  induction k as [|k IH]; [done|]. rewrite seq_S, map_app, rev_app_distr. cbn.
  fold (highest (rev (map Z.of_nat (seq 0 k)))). rewrite IH. lia.
Qed.

Lemma next_acceptable k : acceptable (rev (map Z.of_nat (seq 0 k))) (Z.of_nat k) = true.
Proof.
  unfold acceptable. rewrite highest_first. apply andb_true_iff. split.
  - apply bool_decide_eq_true. intros Hin%list_elem_of_In%in_rev%in_map_iff.
    destruct Hin as (i & Hi & Hin%in_seq). lia.
  - apply Z.leb_le. unfold KEY_RENEWAL_INTERVAL. lia.
Qed.

Lemma in_order_valid_from k n len :
  n + k <= len -> valid_schedule len (rev (map Z.of_nat (seq 0 k))) (seq k n) = true.
Proof.
  revert k. induction n as [|n IH]; intros k Hk; [done|]. cbn [seq valid_schedule].
  rewrite !andb_true_iff. split_and!.
  - apply Nat.ltb_lt. lia.
  - apply next_acceptable.
  - specialize (IH (S k) ltac:(lia)). rewrite seq_S, map_app, rev_app_distr in IH. exact IH.
Qed.

Lemma in_order_valid n : valid_schedule n [] (seq 0 n) = true.
Proof. apply (in_order_valid_from 0 n n). lia. Qed.

Section Stack.
Context {C : Crypto} {CL : CryptoLaws C} {TC : TransportCodec} {VC : ChannelCodec} {IFC : InfoCodec}.
Context {PC : TcpCodec} {TL : TransportCodecLaws} {VL : ChannelCodecLaws}.
Context {Policy TrustContext : Type}.

Notation HandshakeWorker := (@HandshakeWorker Policy TrustContext).

(** What goes through the connection, from the mailbox of its worker at one
    node to the mailbox of the decrypting worker at the other. *)
Definition carried (sender : TcpSendWorker) (receiver : TcpRecvProcessor) (m : Routed tcp_message)
  : option LocalMessage :=
  on_wire (sw_addresses sender) m ≫= arrive (sender_address (rp_addresses receiver)).

Lemma omap_carried sender receiver (ms : list (Routed tcp_message)) :
  omap (arrive (sender_address (rp_addresses receiver))) (omap (on_wire (sw_addresses sender)) ms) =
  omap (carried sender receiver) ms.
Proof. induction ms as [|m ms IH]; [done|]. cbn. unfold carried at 1. destruct (on_wire _ m); cbn; by rewrite IH. Qed.

Lemma carried_payload sender receiver m lm :
  carried sender receiver m = Some lm ->
  payload (transport_message lm) = payload (transport_message (local_msg m)).
Proof.
  unfold carried, on_wire, arrive. case_decide; [done|].
  destruct (onward_route _) as [|a [|b r]]; [done|..]; (destruct (encode_transport _); [|done]);
    cbn; [done|]. by intros [= <-].
Qed.

(** What arrives at the decrypting worker of what the encryptor worker sent,
    with losses before the connection and after it. *)
Lemma arrivals_carried D sender receiver sent (msT : list (Routed tcp_message)) ns :
  map local_msg msT `sublist_of` sent -> map local_msg ns `sublist_of` omap (carried sender receiver) msT ->
  Forall (fun n => msg_addr n = decryptor_remote D) ns ->
  exists js, StronglySorted lt js /\ arrivals D sent js ns.
Proof.
  intros Hsent Hns HD. destruct (sublist_positions _ _ Hsent) as (ks & Hks & Fks).
  destruct (omap_positions (carried sender receiver) msT) as (js & Hjs & Fjs).
  destruct (sublist_positions _ _ Hns) as (ps & His & Fis).
  assert (Forall2 (fun i n => exists j k m, js !! i = Some j /\ ks !! j = Some k /\
    sent !! k = Some (local_msg m) /\ carried sender receiver m = Some (local_msg n)) ps ns) as HF.
  { apply Forall2_fmap_r in Fis. eapply list.Forall2_impl; [exact Fis|]. intros i n Hi. cbn in Hi.
    destruct (list.Forall2_lookup_r _ _ _ _ _ Fjs Hi) as (j & Hj & m & Hm & Hc).
    assert (map local_msg msT !! j = Some (local_msg m)) as Hm'
      by (change (map ?f ?l) with (f <$> l); by rewrite list_lookup_fmap, Hm).
    destruct (list.Forall2_lookup_r _ _ _ _ _ Fks Hm') as (k & Hk & Hl). by exists j, k, m. }
  exists (map (fun j => nth j ks 0) (map (fun i => nth i js 0) ps)). split.
  - apply positions_compose; [done| |].
    + apply positions_compose; [done..|]. eapply list.Forall2_Forall_l; [exact HF|]. apply list.Forall_forall.
      intros n _ i (j & k & m & Hj & _). by apply lookup_lt_Some in Hj.
    + apply list.Forall_fmap. eapply list.Forall2_Forall_l; [exact HF|]. apply list.Forall_forall.
      intros n _ i (j & k & m & Hj & Hk & _). cbn. rewrite (nth_lookup_Some _ _ _ _ Hj).
      by apply lookup_lt_Some in Hk.
  - unfold arrivals. rewrite map_map. apply Forall2_fmap_l. clear -HF HD.
    induction HF as [|i n ps ns (j & k & m & Hj & Hk & Hl & Hc) _ IH]; [constructor|]. inversion HD; subst.
    constructor; [|auto]. cbn. rewrite (nth_lookup_Some _ _ _ _ Hj), (nth_lookup_Some _ _ _ _ Hk).
    exists (local_msg m). split; [done|]. split; [done|]. by apply carried_payload in Hc.
Qed.

(** Everything is carried: number [j] of what was sent is number [j] of what
    arrives. *)
Lemma arrivals_all D sender receiver (msT : list (Routed tcp_message)) ns :
  Forall (fun m => is_Some (carried sender receiver m)) msT ->
  map local_msg ns = omap (carried sender receiver) msT ->
  Forall (fun n => msg_addr n = decryptor_remote D) ns ->
  arrivals D (map local_msg msT) (seq 0 (length msT)) ns.
Proof.
  intros Hc Hns HD. unfold arrivals. apply list.Forall2_same_length_lookup_2.
  { rewrite length_seq. apply (f_equal length) in Hns. rewrite length_map in Hns. rewrite Hns.
    clear -Hc. induction Hc as [|m msT [lm E] _ IH]; [done|]. cbn. rewrite E. cbn. by f_equal. }
  intros k j n Hj Hn. apply lookup_seq in Hj as [-> Hk]. cbn.
  destruct (lookup_lt_is_Some_2 msT k Hk) as [m Hm].
  assert (omap (carried sender receiver) msT !! k = carried sender receiver m) as E.
  { clear -Hc Hm. revert k Hm. induction Hc as [|x msT [lm E] _ IH]; intros k Hm; [done|].
    cbn. rewrite E. cbn. destruct k as [|k]; cbn in *; [by simplify_eq | by apply IH]. }
  rewrite <-Hns in E. change (map ?f ?l) with (f <$> l) in *. rewrite list_lookup_fmap, Hn in E. cbn in E.
  exists (local_msg m). rewrite list_lookup_fmap, Hm. split; [done|]. split.
  - rewrite list.Forall_forall in HD. by eapply HD, list_elem_of_lookup_2.
  - symmetry in E. by apply carried_payload in E.
Qed.

Lemma omap_all {X Y} (f : nat -> option Y) (g : X -> Y) (l : list X) :
  (forall i, f i = g <$> l !! i) -> omap f (seq 0 (length l)) = map g l.
Proof.
  intros Hf. assert (forall k, (forall i, f (k + i) = g <$> l !! i) -> omap f (seq k (length l)) = map g l) as H.
  2:{ by apply (H 0). }
  clear Hf. induction l as [|x l IH]; intros k Hk; [done|]. cbn.
  pose proof (Hk 0) as H0. rewrite Nat.add_0_r in H0. rewrite H0. cbn. f_equal. apply IH.
  intros i. specialize (Hk (S i)). by rewrite Nat.add_succ_r in Hk.
Qed.

(** C23: a secure channel over a TCP connection of its own.  The encryptor worker
    handles the messages [ms]; some of what it sends is handled, in order, by the
    worker of the connection, with encodings that fit the 16 bits of a length; the
    processor at the other node reads some of what was written, and the decrypting
    worker handles some of what it has forwarded, in order.  Wherever any of them
    is cut or fails, forwarding included, what comes out are messages of [ms] in
    their order, each at most once, with the return route through the channel and
    the identity of the other end.  If nothing fails, all of them come out. *)
Theorem channel_over_tcp (s0 : bytes) (N : nat) (A D : ChannelAddresses) (R : Route)
    (their_id : IdentityIdentifier) (re rd : bytes) (ke kd : KeyId) (ve vd : Vault)
    (w : HandshakeWorker) (sender : TcpSendWorker) (receiver : TcpRecvProcessor)
    (ms : list (Routed unit)) (msT : list (Routed tcp_message)) (ge : enc_view) :
  let start := enc_start re A R ke ve in
  let sending := session (sender_eff (sw_write_half sender))
    (fun m g => TcpSendWorker_handle_message (sv_self g) m) msT (mkSenderView sender [] false) in
  let receiving input := processing (receiver_eff (rp_read_half receiver))
    (fun _ => TcpRecvProcessor_process receiver) (mkReceiverView input []) in
  length s0 = 32 -> distinct_ids N ->
  encryptor A <> encryptor_api A -> holds ve ke s0 Aes256 -> known_ids ve ->
  holds vd kd s0 Aes256 -> known_ids vd -> just_opened w rd D kd their_id -> Forall sendable ms ->
  Forall fits (omap (on_wire (sw_addresses sender)) msT) ->
  (forall lossy gs input gr ns gd,
     encrypting (Policy := Policy) (TrustContext := TrustContext) N lossy ms start ge ->
     map local_msg msT `sublist_of` ev_sent ge -> sending gs -> input `prefix_of` sv_written gs ->
     receiving input gr -> map local_msg ns `sublist_of` rv_forwarded gr ->
     Forall (fun n => msg_addr n = decryptor_remote D) ns ->
     decrypting N lossy ns (mkDecView w vd []) gd ->
     exists pos, StronglySorted lt pos /\
       dv_forwarded gd = omap (fun i => opened D their_id ∘ inner <$> ms !! i) pos) /\
  (Forall (goes_out A) ms -> (forall b, is_Some (encode_vec b)) -> (Z.of_nat (length ms) <= u64_max)%Z ->
   encrypted (Policy := Policy) (TrustContext := TrustContext) N ms start ge ->
   map local_msg msT = ev_sent ge ->
   Forall (fun m => is_Some (carried sender receiver m)) msT ->
   exists gs gr, sending gs /\ receiving (sv_written gs) gr /\ no_forward_failed gr /\
     forall ns gd, map local_msg ns = rv_forwarded gr ->
       Forall (fun n => msg_addr n = decryptor_remote D) ns ->
       decrypted N ns (mkDecView w vd []) gd ->
       dv_forwarded gd = map (opened D their_id ∘ inner) ms).
Proof.
  intros start sending receiving Hs0 HN HA Hke Hie Hkd Hid Hw Hm Hfit.
  pose proof (just_opened_ok s0 w rd D kd their_id vd Hw Hkd Hid) as Hd. split.
  - intros lossy gs input gr ns gd He Hsent Hs Hin Hr Hns HD Hdec.
    destruct (enc_start_ok s0 lossy re A R ke ve Hke Hie) as [Hok Hf].
    destruct (encrypting_sends s0 Hs0 N HN A R HA lossy ms _ ge Hm Hok Hf He) as [L HL].
    pose proof (session_writes (sw_addresses sender) (sw_write_half sender) msT sender gs eq_refl eq_refl Hs) as Hwr.
    assert (rv_forwarded gr `sublist_of` omap (carried sender receiver) msT) as Hfw.
    { apply succeeded_sublist_of. rewrite <-omap_carried. apply (processing_forwards receiver _ input gr Hfit); [by etrans | exact Hr]. }
    destruct (arrivals_carried D sender receiver (ev_sent ge) msT ns Hsent (transitivity Hns Hfw) HD)
      as (js & Hjs & Harr).
    destruct (channel_safe s0 Hs0 N HN A D R their_id ms L lossy (ev_sent ge) js ns (mkDecView w vd []) gd)
      as (pos & _ & Efw & Hpos); try done. exists pos. auto.
  - intros Hgo Hv Hl He HT Hc.
    destruct (encrypted_all s0 Hs0 N HN A R ms _ ge HA Hm Hgo Hv Hl (enc_start_ok s0 false re A R ke ve Hke Hie) He)
      as (L & HL & Hlen & Hn).
    destruct (session_all (sw_addresses sender) (sw_write_half sender) msT (mkSenderView sender [] false)
                eq_refl eq_refl eq_refl) as (gs & Hs & Ew). cbn in Ew.
    destruct (processing_all receiver _ [] Hfit) as (gr & Hr & Efw). cbn in Efw.
    exists gs, gr. split; [done|]. split; [by rewrite Ew|]. rewrite Efw. split; [apply all_succeed|].
    intros ns gd Hns HD Hdec. rewrite (proj2 (all_succeed _)), omap_carried in Hns. pose proof (arrivals_all D sender receiver msT ns Hc Hns HD) as Harr.
    assert (length msT = length ms) as El by (rewrite <-Hlen, <-HT; by rewrite length_map).
    rewrite HT, El in Harr.
    rewrite (channel_full s0 Hs0 N HN A D R their_id ms L (ev_sent ge) (seq 0 (length ms)) ns (mkDecView w vd []) gd);
      try done; [|apply in_order_valid]. by apply omap_all.
Qed.
End Stack.
