(* ===== verification/ChannelIdentity.v ===== *)
(** * Whose messages a secure channel forwards

    Whatever messages the worker of a channel receives, and in whatever order,
    what it forwards into its node is marked with an identifier whose owner took
    part in the handshake: it has proved possession of the keys of its identity,
    and the trust policy accepted it. *)

From Stdlib Require Import ZArith Lia.
From Stdlib Require Strings.Byte Strings.String.
From stdpp Require Import base gmap list numbers option countable.
From S2P Require Import Prelude RustStr Routing AccessControl FlowControl Attributes.
From S2P Require Import KeyTracker Vault Handshake SecureChannel StateMachine.
From S2P Require Import Identities IdentitySpec IdentityKeys Credentials CredentialSpec PeerIdentity.
From S2P Require Import Router Node Execution ChannelWorkers.

Section Identity.
Context {C : Crypto} `{IC : IdentityCodec} `{CC : CredentialCodec} `{PC : PayloadCodec}.
Context {TC : TransportCodec} {VC : ChannelCodec} {IFC : InfoCodec}.
Context {S : Type} `{St : Storage S} `{EC : EntryCodec}.
Context {A : Type} `{TP : TrustPolicy A}.
Context {CL : CryptoLaws C} {SG : SignatureLaws C} {IL : IdentityCodecLaws}.
Context {PL : PayloadCodecLaws} {SL : StorageLaws S}.

(** trust_context.rs *)
Record TrustContext := mkTrustContext {
  tc_id : bytes;
  tc_authority : option (AuthorityService (S := S))
}.

Notation HandshakeWorker := (@HandshakeWorker A TrustContext).
Notation ccall := (@ccall A TrustContext).

Record id_view := mkIdView {
  iv_self : HandshakeWorker;
  iv_forwarded : list (Address * LocalMessage)
}.

(** The vault and the storage of identities are arbitrary at every call. *)
Definition id_eff X (c : ccall X) : X -> id_view -> id_view -> Prop :=
  match c in ChannelWorkers.ccall X return X -> id_view -> id_view -> Prop with
  | CCtx c =>
      match c in api _ _ X return X -> id_view -> id_view -> Prop with
      | AForward _ m from => fun _ g g' => g' = mkIdView (iv_self g) (iv_forwarded g ++ [(from, m)])
      | _ => fun _ g g' => g' = g
      end
  | CSetSelf (WHandshake w) => fun _ g g' => g' = mkIdView w (iv_forwarded g)
  | OnVault m => fun x g g' => g' = g /\ exists v v', m v = (x, v')
  | OnEvent role policy trust_context event m => fun x g g' =>
      g' = g /\ exists st now v v',
        on_event (P := peer_identities st now policy (trust_context ≫= tc_authority)) role event (m, v) =
          (x.1, (x.2, v'))
  | _ => fun _ g g' => g' = g
  end.

(** The results of a machine, if it has any, are about a proved identity. *)
Definition machine_proved (policy : A) (x : Machine) : Prop :=
  forall res, get_handshake_results x = Some res ->
  exists st static, hs_rs (m_handshake x) = Some static /\ proved_identity st policy static (their_identifier res).

Lemma on_event_ready {P : PeerIdentities} role ev x v keys :
  hs_status (m_handshake x) = Handshake.Ready keys -> (on_event role ev (x, v)).2 = (x, v).
Proof.
  intros H. destruct role; unfold on_event, initiator_on_event, responder_on_event;
    erewrite sbind_run by done; rewrite H; done.
Qed.

Lemma on_event_proved st now policy authority role ev x v r x' v' :
  on_event (P := peer_identities st now policy authority) role ev (x, v) = (r, (x', v')) ->
  machine_proved policy x -> machine_proved policy x'.
Proof.
  intros E Hx. destruct (hs_status (m_handshake x)) as [| | | |keys] eqn:Es.
  5:{ apply (on_event_ready (P := peer_identities st now policy authority) role ev x v) in Es.
      rewrite E in Es. by injection Es as -> _. }
  all: assert (authenticated (P := peer_identities st now policy authority) x) as Ha
         by (apply not_ready_authenticated; congruence);
    assert (authenticated (P := peer_identities st now policy authority) x') as Ha'
         by (destruct role; unfold on_event in E; [eapply initiator_step | eapply responder_step]; eauto);
    intros res Hr; unfold get_handshake_results, get_handshake_keys in Hr;
    (destruct (m_their_identifier x') as [i|] eqn:Ei; [|done]);
    (destruct (hs_status (m_handshake x')) eqn:Es'; try done); injection Hr as <-;
    destruct (Ha' _ Es') as (peer & identity & rs & Hrs & Hv & Hi);
    exists st, rs; (split; [done|]); rewrite Ei in Hi; injection Hi as ->; by apply vouched_proves in Hv.
Qed.

(** What is forwarded comes from the internal address, goes back through the
    channel, and is marked with the identity of the handshake, proved for the
    static key of the handshake. *)
Definition attributed (addresses : ChannelAddresses) (policy : A) (x : Machine)
    (f : Address * LocalMessage) : Prop :=
  f.1 = decryptor_internal addresses /\
  (exists rest, return_route (transport_message f.2) = encryptor addresses :: rest) /\
  exists res st static, get_handshake_results x = Some res /\ hs_rs (m_handshake x) = Some static /\
    local_info f.2 = mark [] (their_identifier res) /\
    proved_identity st policy static (their_identifier res).

Definition worker_proved (addresses : ChannelAddresses) (policy : A) (w : HandshakeWorker) : Prop :=
  hw_addresses w = addresses /\ hw_trust_policy w = policy /\ machine_proved policy (hw_state_machine w) /\
  (forall h, hw_decryptor_handler w = Some h ->
     dh_addresses h = addresses /\ exists res, get_handshake_results (hw_state_machine w) = Some res /\
       dh_their_identity_id h = their_identifier res).

Section Worker.
Context (addresses : ChannelAddresses) (policy : A).

Definition id_safe (g : id_view) : Prop :=
  Forall (attributed addresses policy (hw_state_machine (iv_self g))) (iv_forwarded g).
Definition id_ok (g : id_view) : Prop :=
  worker_proved addresses policy (iv_self g) /\ id_safe g /\
  (hw_decryptor_handler (iv_self g) = None -> iv_forwarded g = []).

(** Calls that leave the view alone. *)
Lemma id_same_ensures {X} (c : ccall X) g (Q : X -> id_view -> Prop) :
  (forall r g', id_eff _ c r g g' -> g' = g) -> id_safe g -> (forall r, Q r g) ->
  ensures (D := no_event) id_eff (pcall c) g id_safe Q.
Proof. intros Hc Hg HQ. split; [done|]. intros r g' E. rewrite (Hc _ _ E). by split. Qed.

Lemma id_ctx_ensures {X} (c : api channel_worker unit (cresult X)) g (Q : result channel_error X -> id_view -> Prop) :
  (forall r g', id_eff _ (CCtx c) r g g' -> g' = g) -> id_safe g -> (forall r, Q r g) ->
  ensures id_eff (in_ctx c) g id_safe Q.
Proof. intros Hc Hg HQ. split; [done|]. intros r g' E. rewrite (Hc _ _ E). by split. Qed.

Lemma send_handshake_ensures w m g Q :
  id_safe g -> (forall r, Q r g) -> ensures id_eff (send_handshake w m) g id_safe Q.
Proof.
  intros Hg HQ. unfold send_handshake. destruct (remote_route w) as [route|e|]; [|by split..].
  apply id_ctx_ensures; [by intros ? ? ->|done..].
Qed.

Lemma finalize_ensures w res g :
  id_safe g ->
  ensures id_eff (HandshakeWorker_finalize w res) g id_safe
    (fun r g' => g' = g /\ forall h, r = Ok h ->
       dh_addresses h = hw_addresses w /\ dh_their_identity_id h = their_identifier res).
Proof.
  intros Hg. unfold HandshakeWorker_finalize. destruct (remote_route w) as [route|e|]; [|by split..].
  cbn [plift ptry pbind]. destruct (Route_next route) as [next|e|]; [|by split..].
  cbn [route_ok map_err plift ptry pbind]. apply ensures_try, id_ctx_ensures; [by intros ? ? ->|done|].
  intros [[]|e|]; [|by split..|done]. destruct (list.last route) as [their|]; [|done].
  apply ensures_bind, id_same_ensures; [by intros ? ? ->|done|]. intros [[]|e|]; [|by split..].
  split; [done|]. split; [done|]. by intros h [= <-].
Qed.

Lemma finish_ensures w g :
  id_ok g -> iv_forwarded g = [] -> worker_proved addresses policy w ->
  ensures id_eff (finish_handshake w) g id_safe (fun _ => id_ok).
Proof.
  intros (Hw0 & Hg & Hf) Hnil (HA & HP & Hm & _). unfold finish_handshake.
  destruct (get_handshake_results (hw_state_machine w)) as [res|] eqn:Er; [|by split].
  apply ensures_try. eapply ensures_weaken; [done| |by apply finalize_ensures].
  intros r g' [-> Hh]. destruct r as [h|e|]; [|by split..|done].
  destruct (Hh h eq_refl) as [Ha Hi]. split; [done|]. intros [] g1 ->.
  assert (id_ok (mkIdView (with_handler None h w) (iv_forwarded g))) as Hok.
  { split; [|unfold id_safe; cbn [iv_forwarded]; rewrite Hnil; by split; [constructor|]].
    split_and!; [done..|]. cbn. intros h' [= <-]. split; [congruence|]. by exists res. }
  cbn [pbind]. destruct (hw_callback_sender w); [|by split; [apply Hok|]].
  apply id_same_ensures; [by intros ? ? ->|apply Hok|done].
Qed.

(** The decryption, with whatever answer: the handler keeps its identity. *)
Lemma dh_decrypt_ensures w h p g (Q : result ChannelError bytes -> id_view -> Prop) :
  id_ok g -> hw_decryptor_handler (iv_self g) = Some h -> w = iv_self g ->
  (forall r g', id_ok g' -> hw_state_machine (iv_self g') = hw_state_machine w ->
     is_Some (hw_decryptor_handler (iv_self g')) -> Q r g') ->
  ensures id_eff (dh_decrypt w h p) g id_safe Q.
Proof.
  intros Hg Hh -> HQ. split; [apply Hg|]. intros x g1 [-> _]. split; [apply Hg|]. intros [] g2 ->.
  assert (id_ok (mkIdView (with_decryptor x.2 h (iv_self g)) (iv_forwarded g))) as Hok.
  { destruct Hg as ((HA & HP & Hm & Hd) & Hs & Hf). split; [|by split].
    split_and!; [done..|]. cbn. intros h' [= <-]. exact (Hd h Hh). }
  split; [apply Hok | by apply HQ].
Qed.

Lemma handle_decrypt_ensures h m g :
  id_ok g -> hw_decryptor_handler (iv_self g) = Some h ->
  ensures id_eff (handle_decrypt (iv_self g) h m) g id_safe (fun _ => id_ok).
Proof.
  intros Hg Hh. unfold handle_decrypt. destruct (decode_vec _) as [data|]; [|by split; [apply Hg|]].
  cbn [ok_or plift ptry pbind]. apply ensures_bind, dh_decrypt_ensures; [done..|].
  intros r g' Hg' Hx Hh'. destruct r as [p|e|]; [|by split; [apply Hg'|]..]. cbn [map_err plift ptry pbind].
  destruct (decode_transport p) as [t|]; [|by split; [apply Hg'|]]. cbn [ok_or plift ptry pbind].
  split; [apply Hg'|]. intros r g1 ->. set (g2 := mkIdView _ _).
  assert (id_ok g2) as Hok.
  { destruct Hg as ((_ & _ & Hm & Hd) & _ & _). destruct (Hd h Hh) as (Ha & res & Hres & Hid).
    destruct (Hm res Hres) as (st & static & Hst & Hp).
    split; [apply Hg'|]. split; [|intros E; cbn in E; rewrite E in Hh'; by destruct Hh'].
    apply Forall_app. split; [apply Hg'|]. constructor; [|done]. cbn [iv_self g2]. rewrite Hx.
    split; [by rewrite <-Ha|]. split; [eexists; cbn; by rewrite Ha|].
    exists res, st, static. split_and!; try done. by rewrite <-Hid. }
  destruct r as [[]|e|]; (split; [apply Hok | done]).
Qed.

(** A step of the handshake. *)
Lemma handshake_ensures m g :
  id_ok g -> hw_decryptor_handler (iv_self g) = None ->
  ensures id_eff (HandshakeWorker_handle_message (iv_self g) m) g id_safe (fun _ => id_ok).
Proof.
  intros (Hw & Hs & Hf) Eh. pose proof (Hf Eh) as Hnil. unfold HandshakeWorker_handle_message. rewrite Eh.
  destruct (decode_vec _) as [data|]; [|by split; [|split]]. cbn [ok_or plift ptry pbind].
  unfold on_event_of. split; [done|]. intros x g1 [-> (st & now & v & v' & Ev)].
  split; [done|]. intros [] g2 ->. cbn [pbind].
  destruct Hw as (HA & HP & Hm & _). rewrite HP in Ev. pose proof (on_event_proved _ _ _ _ _ _ _ _ _ _ _ Ev Hm) as Hm'.
  assert (worker_proved addresses policy (with_machine x.2 (iv_self g))) as Hw1.
  { split_and!; [done..|]. cbn. rewrite Eh. done. }
  set (g1 := mkIdView _ _).
  assert (id_ok g1) as Hg1 by (split; [done | split; [unfold id_safe; cbn; by rewrite Hnil | done]]).
  destruct x as [[action|e|] x]; cbn [fst snd map_err plift ptry pbind];
    [|by split; [apply Hg1|]..]. destruct action as [|message]; [by apply finish_ensures|].
  split; [apply Hg1|]. intros [] g2 ->. set (g2 := mkIdView _ _).
  assert (id_ok g2) as Hg2.
  { split; [|split; [apply Hg1 | done]]. split_and!; [done..|]. cbn. rewrite Eh. done. }
  apply ensures_try, send_handshake_ensures; [apply Hg2|]. intros [[]|e|]; [|by split; [apply Hg2|]|apply Hg2].
  apply finish_ensures; [done | done | apply Hg2].
Qed.

Lemma id_handle_ensures m g :
  id_ok g ->
  ensures id_eff (HandshakeWorker_handle_message (iv_self g) m) g id_safe (fun _ => id_ok).
Proof.
  intros Hg. destruct (hw_decryptor_handler (iv_self g)) as [h|] eqn:Eh; [|by apply handshake_ensures].
  pose proof Hg as (Hw & Hs & _). unfold HandshakeWorker_handle_message. rewrite Eh.
  case_decide; [by apply handle_decrypt_ensures|]. case_decide; [|by split].
  unfold handle_decrypt_api. destruct (decode_DecryptionRequest _) as [p|]; [|by split].
  cbn [ok_or plift ptry pbind]. apply ensures_bind, dh_decrypt_ensures; [done..|].
  intros r g' Hg' _ _. destruct r as [b|e|]; [..|by split; [apply Hg'|]];
    (apply id_ctx_ensures; [by intros ? ? ->|apply Hg'|done]).
Qed.
End Worker.

(** C22: whatever messages the worker of a secure channel handles, from its start
    on, everything that it forwards into the node is marked with the identifier
    that the handshake of this channel has reported; its owner has proved the
    identity with a signature over the static key of the peer in this handshake,
    and the trust policy of the worker accepts it; the message comes from the internal address of
    the channel, and its return route leads back through the channel.  The vault,
    the stored identities and the time may change between any two steps. *)
Theorem channel_messages_are_attributed (w : HandshakeWorker) (ms : list (Routed unit)) (g : id_view)
    (from : Address) (lm : LocalMessage) :
  hw_decryptor_handler w = None -> get_handshake_results (hw_state_machine w) = None ->
  session id_eff (fun m g => HandshakeWorker_handle_message (iv_self g) m) ms (mkIdView w []) g ->
  (from, lm) ∈ iv_forwarded g ->
  from = decryptor_internal (hw_addresses w) /\
  (exists rest, return_route (transport_message lm) = encryptor (hw_addresses w) :: rest) /\
  let x := hw_state_machine (iv_self g) in
  exists res st static, get_handshake_results x = Some res /\ hs_rs (m_handshake x) = Some static /\
    local_info lm = mark [] (their_identifier res) /\
    proved_identity st (hw_trust_policy w) static (their_identifier res).
Proof.
  intros Hh Hr Hs Hin.
  apply (session_sound _ _ (fun _ => id_ok (hw_addresses w) (hw_trust_policy w))
           (fun _ => id_safe (hw_addresses w) (hw_trust_policy w))) with (done := []) in Hs.
  - unfold id_safe in Hs. rewrite list.Forall_forall in Hs. apply (Hs _ Hin).
  - by intros _ ? (_ & ? & _).
  - intros _ m g0 Hg. by apply id_handle_ensures.
  - split; [|by split; [constructor|]]. split_and!; [done..| |]; [intros res Hres | intros h Hx]; cbn in *; congruence.
Qed.
End Identity.
