(* ===== verification/ChannelExamples.v ===== *)
(** * Concrete secure channels

    Workers of channels between small nodes, and the theorems on them applied. *)

From Stdlib Require Import ZArith Lia Sorted.
From Stdlib Require Strings.Byte Strings.String.
From stdpp Require Import base gmap list numbers option countable.
From S2P Require Import Prelude RustStr Routing AccessControl FlowControl Attributes.
From S2P Require Import NonceTracker KeyTracker Vault ToyCrypto Handshake SecureChannel StateMachine.
From S2P Require Import Identities IdentitySpec IdentityKeys Credentials CredentialSpec PeerIdentity.
From S2P Require Import IdentityExamples Router Node Execution Tcp TcpSpec TcpExamples.
From S2P Require Import ChannelWorkers ChannelWorkersSpec ChannelOverTcp ChannelIdentity.

#[export] Instance toy_channel_codec : ChannelCodec := {|
  encode_vec := Some;
  decode_vec := Some;
  decode_EncryptionRequest := Some;
  encode_EncryptionResponse r := Some (default [] (res_ok r));
  decode_DecryptionRequest := Some;
  encode_DecryptionResponse r := Some (default [] (res_ok r))
|}.

#[export] Instance toy_channel_codec_laws : ChannelCodecLaws.
Proof. split. by intros b e [= <-]. Qed.

(** The two ends of a channel; its messages go through the connection with the
    worker [s]. *)
Definition near : ChannelAddresses :=
  mkChannelAddresses (addr "n_int") (addr "n_rem") (addr "n_api") (addr "n_enc") (addr "n_enc_api").
Definition far : ChannelAddresses :=
  mkChannelAddresses (addr "f_int") (addr "f_rem") (addr "f_api") (addr "f_enc") (addr "f_enc_api").

Definition far_worker : @HandshakeWorker unit unit :=
  mkHandshakeWorker None (new_machine false [] [] []) tt None (str "P_far") far Responder
    (Some [addr "f_s"; addr "n_rem"])
    (Some (DecryptorHandler_new (str "responder") far sample_key (str "P_near"))).

Definition app_message (p : bytes) : Routed unit :=
  mkRouted tt (addr "n_enc") (addr "app")
    (mkLocalMessage (TransportMessage_v1 [addr "n_enc"; addr "echo"] [addr "app"] p) []).

Definition app_messages : list (Routed unit) := [app_message (str "one"); app_message (str "two")].

Definition echo_message (p : bytes) : LocalMessage :=
  mkLocalMessage (TransportMessage_v1 [addr "echo"] [addr "f_enc"; addr "app"] p)
    (mark [] (str "P_near")).

Lemma app_messages_sendable : Forall sendable app_messages.
Proof.
  repeat constructor; (intros p [= <-]; apply Z.leb_le; vm_compute; reflexivity).
Qed.

Lemma app_messages_go_out : Forall (goes_out near) app_messages.
Proof. repeat constructor; by eexists. Qed.

Lemma far_opened : just_opened far_worker (str "responder") far sample_key (str "P_near").
Proof. by split. Qed.

Lemma ids64 : distinct_ids 64.
Proof. apply toy_distinct_ids. lia. Qed.

Definition near_start : enc_view := enc_start (str "initiator") near [addr "s"; addr "f_rem"] sample_key sample_vault.

Definition near_route : Route := [addr "s"; addr "f_rem"].

(** What the encryptor worker sends for these messages. *)
Lemma near_sends :
  exists ge L lm1 lm2, encrypted (Policy := unit) (TrustContext := unit) 64 app_messages near_start ge /\
    ev_sent ge = [lm1; lm2] /\ sent_as sample_secret near near_route app_messages L (ev_sent ge).
Proof.
  pose proof (enc_start_ok sample_secret false (str "initiator") near near_route sample_key sample_vault
                holds_sample known_sample) as Hok.
  destruct (encrypted_exists (Policy := unit) (TrustContext := unit) sample_secret eq_refl 64 ids64 near
              near_route app_messages near_start) as [ge He].
  - apply app_messages_sendable.
  - apply app_messages_go_out.
  - by eexists.
  - done.
  - done.
  - apply Hok.
  - vm_compute. congruence.
  - vm_compute. lia.
  - destruct (encrypted_all (Policy := unit) (TrustContext := unit) sample_secret eq_refl 64 ids64 near near_route app_messages near_start ge)
      as (L & HL & Hlen & _); [done | apply app_messages_sendable | apply app_messages_go_out | by eexists
        | vm_compute; congruence | apply Hok | exact He|].
    destruct (ev_sent ge) as [|lm1 [|lm2 [|]]] eqn:E; try done. exists ge, L, lm1, lm2.
    rewrite E. done.
Qed.

Definition deliver (lm : LocalMessage) : Routed unit := mkRouted tt (addr "f_rem") (addr "r") lm.

Lemma channel_workers_deliver_witness :
  exists ge gd ns,
    encrypted (Policy := unit) (TrustContext := unit) 64 app_messages near_start ge /\
    arrivals far (ev_sent ge) [1; 0] ns /\ decrypted 64 ns (mkDecView far_worker sample_vault []) gd /\
    dv_forwarded gd = [echo_message (str "two"); echo_message (str "one")].
Proof.
  destruct near_sends as (ge & L & lm1 & lm2 & He & Esent & HL).
  assert (arrivals far (ev_sent ge) [1; 0] [deliver lm2; deliver lm1]) as Harr.
  { rewrite Esent. repeat constructor; eexists; done. }
  destruct (decrypted_exists (Policy := unit) (TrustContext := unit) sample_secret eq_refl 64 ids64 far
              (str "P_near") (map (tagged app_messages L) [1; 0]) [deliver lm2; deliver lm1] []
              (mkDecView far_worker sample_vault [])) as [gd Hd].
  - eapply (arrivals_cipher sample_secret eq_refl); [apply HL | exact Harr].
  - by apply (just_opened_ok sample_secret far_worker (str "responder") far sample_key (str "P_near")
                sample_vault far_opened holds_sample known_sample).
  - vm_compute. lia.
  - exists ge, gd, [deliver lm2; deliver lm1]. split; [exact He|]. split; [exact Harr|]. split; [exact Hd|].
    destruct (channel_workers_deliver (Policy := unit) (TrustContext := unit) sample_secret eq_refl 64 ids64
                near far near_route (str "P_near") (str "initiator") (str "responder") sample_key sample_key
                sample_vault sample_vault far_worker app_messages) as [_ H];
      [done | apply holds_sample | apply known_sample | apply holds_sample | apply known_sample
      | apply far_opened | apply app_messages_sendable|].
    rewrite (H app_messages_go_out ltac:(by eexists) ltac:(vm_compute; congruence) ge gd [1; 0]
               [deliver lm2; deliver lm1] He Harr eq_refl Hd). reflexivity.
Defined.

(** ** The channel over a connection *)

Lemma length_wire n p :
  short p -> length (SecureChannel.wire sample_secret n p) = 24 + length p.
Proof.
  intros Hp. unfold SecureChannel.wire.
  destruct (aes256_roundtrip (chain sample_secret (interval n)) (convert_nonce_from_u64 n).2 [] p)
    as (c & -> & Hl & _); [by apply length_chain | apply length_nonce12 | exact Hp|].
  rewrite length_app, length_to_be_bytes. change (default [] (Some c)) with c. rewrite Hl. lia.
Qed.

Definition over (lm : LocalMessage) : Routed tcp_message := mkRouted AnyMessage (addr "s") (addr "n_enc") lm.

(** What the encryptor sent is short, and leads to the other end. *)
Lemma sent_on_wire L sent :
  sent_as sample_secret near near_route app_messages L sent ->
  Forall (fun lm => exists t, on_wire (sw_addresses sample_sender) (over lm) = Some t /\ fits t /\
            onward_route t = [addr "f_rem"]) sent.
Proof.
  intros [_ _ Hs]. eapply list.Forall2_Forall_r; [exact Hs|]. apply list.Forall_forall.
  intros [i n] _ lm (m & p & w & Hm & _ & Hp & Hsh & _ & [= <-] & ->). eexists.
  split; [reflexivity|]. split; [|reflexivity]. apply toy_fits. unfold toy_encode_transport.
  assert (Z.of_nat (length p) <= 16000)%Z as Hl.
  { assert (m ∈ app_messages) as Hin by by eapply list_elem_of_lookup_2.
    apply elem_of_cons in Hin as [->|Hin]; [|apply list_elem_of_singleton in Hin as ->];
      injection Hp as <-; apply Z.leb_le; vm_compute; reflexivity. }
  apply Z.ltb_lt. rewrite !length_app, length_replicate. cbn [length].
  change (payload _) with (SecureChannel.wire sample_secret n p). rewrite length_app, length_wire by done.
  change (header_bytes _) with (header_bytes (TransportMessage_v1 [addr "f_rem"] [addr "n_enc"] [])).
  assert (Z.of_nat (length (header_bytes (TransportMessage_v1 [addr "f_rem"] [addr "n_enc"] []))) <= 16000)%Z
    by (apply Z.leb_le; vm_compute; reflexivity).
  lia.
Qed.

Lemma length_omap {A B} (f : A -> option B) l : length (omap f l) <= length l.
Proof. induction l as [|x l IH]; cbn; [done|]. destruct (f x); cbn; lia. Qed.

Lemma channel_over_tcp_witness :
  exists ge gs gr ns gd,
    encrypted (Policy := unit) (TrustContext := unit) 64 app_messages near_start ge /\
    session (sender_eff 7) (fun m g => TcpSendWorker_handle_message (sv_self g) m) (map over (ev_sent ge))
      (mkSenderView sample_sender [] false) gs /\
    processing (receiver_eff 8) (fun _ => TcpRecvProcessor_process sample_receiver)
      (mkReceiverView (sv_written gs) []) gr /\
    ns = map deliver (rv_forwarded gr) /\
    decrypted 64 ns (mkDecView far_worker sample_vault []) gd /\
    dv_forwarded gd = [echo_message (str "one"); echo_message (str "two")].
Proof.
  destruct near_sends as (ge & L & lm1 & lm2 & He & Esent & HL).
  pose proof (sent_on_wire _ _ HL) as Hw.
  assert (Forall fits (omap (on_wire (sw_addresses sample_sender)) (map over (ev_sent ge)))) as Hfit.
  { clear -Hw. induction Hw as [|lm l (t & E & Hf & _) _ IH]; [constructor|]. cbn [map omap list_omap].
    rewrite E. by constructor. }
  assert (map local_msg (map over (ev_sent ge)) = ev_sent ge) as Eover.
  { rewrite map_map. apply map_id. }
  destruct (channel_over_tcp (Policy := unit) (TrustContext := unit) sample_secret 64 near far near_route
              (str "P_near") (str "initiator") (str "responder") sample_key sample_key sample_vault
              sample_vault far_worker sample_sender sample_receiver app_messages (map over (ev_sent ge)) ge
              eq_refl ids64 ltac:(done) holds_sample known_sample holds_sample known_sample far_opened
              app_messages_sendable Hfit) as [_ H].
  destruct (H app_messages_go_out ltac:(by eexists) ltac:(vm_compute; congruence) He Eover)
    as (gs & gr & Hs & Hr & Hnf & Hall).
  { apply List.Forall_map. eapply list.Forall_impl; [exact Hw|]. intros lm (t & E & _ & Ht).
    unfold carried. rewrite E. cbn. unfold arrive. rewrite Ht. by eexists. }
  assert (rv_forwarded gr `sublist_of` omap (carried sample_sender sample_receiver) (map over (ev_sent ge))) as Hp.
  { apply succeeded_sublist_of. rewrite <-omap_carried. apply (processing_forwards sample_receiver _ (sv_written gs) gr Hfit); [|exact Hr].
    apply (session_writes (sw_addresses sample_sender) (sw_write_half sample_sender) _ sample_sender gs eq_refl
             eq_refl Hs). }
  assert (map local_msg (map deliver (rv_forwarded gr)) = rv_forwarded gr) as Edel.
  { rewrite map_map. apply map_id. }
  assert (Forall (fun n => msg_addr n = decryptor_remote far) (map deliver (rv_forwarded gr))) as Hto.
  { apply List.Forall_map. by apply list.Forall_true. }
  destruct (arrivals_carried far sample_sender sample_receiver (ev_sent ge) (map over (ev_sent ge))
              (map deliver (rv_forwarded gr))) as (js & _ & Harr);
    [by rewrite Eover | by rewrite Edel | exact Hto|].
  destruct (decrypted_exists (Policy := unit) (TrustContext := unit) sample_secret eq_refl 64 ids64 far
              (str "P_near") (map (tagged app_messages L) js) (map deliver (rv_forwarded gr)) []
              (mkDecView far_worker sample_vault [])) as [gd Hd].
  - eapply (arrivals_cipher sample_secret eq_refl); [apply HL | exact Harr].
  - by apply (just_opened_ok sample_secret far_worker (str "responder") far sample_key (str "P_near")
                sample_vault far_opened holds_sample known_sample).
  - apply sublist_length in Hp. rewrite length_map. etrans; [apply Nat.add_le_mono_l, Hp|].
    etrans; [apply Nat.add_le_mono_l, (length_omap _ (map over (ev_sent ge)))|].
    rewrite length_map, Esent. apply Nat.leb_le. vm_compute. reflexivity.
  - exists ge, gs, gr, (map deliver (rv_forwarded gr)), gd. split_and!; [exact He | exact Hs | exact Hr | done | exact Hd|].
    rewrite (Hall _ _ Edel Hto Hd). reflexivity.
Defined.

(** ** A channel whose handshake has run *)

(** What the initiator of a session that completed did with the last event. *)
Lemma session_last_step {C : Crypto} (Pi Pr : PeerIdentities) I R xi vi R' :
  handshake_session Pi Pr I R = Ok ((xi, vi), R') ->
  exists x1 v1 m2 m3, get_handshake_results x1 = None /\
    initiator_on_event (P := Pi) (ReceivedMessage m2) (x1, v1) = (Ok (SendMessage m3), (xi, vi)).
Proof.
  unfold handshake_session, run. cbn [run_events on_event].
  destruct (initiator_on_event Initialize I) as [[[|m1]| |] I1]; cbn; try done;
    destruct (responder_on_event Initialize R) as [[?| |] R1]; cbn; try done.
  destruct (responder_on_event (ReceivedMessage m1) R1) as [[[|m2]| |] R2]; cbn; try done.
  destruct (initiator_on_event (ReceivedMessage m2) I1) as [[[|m3]| |] I2] eqn:E; cbn; try done.
  destruct (responder_on_event (ReceivedMessage m3) R2) as [[?| |] R3]; cbn; try done.
  intros [= -> <-]. destruct I1 as [x1 v1]. exists x1, v1, m2, m3. split; [|exact E].
  destruct (get_handshake_results x1) eqn:Eres; [|done].
  unfold get_handshake_results, get_handshake_keys in Eres. destruct (m_their_identifier x1); [|done].
  unfold initiator_on_event in E. erewrite sbind_run in E by done.
  destruct (hs_status (m_handshake x1)); done.
Qed.

Lemma opened_last_step :
  exists x1 v1 m2 m3 xi vi a b K,
    get_handshake_results x1 = None /\
    on_event (P := peer_view) Initiator (ReceivedMessage m2) (x1, v1) = (Ok (SendMessage m3), (xi, vi)) /\
    get_handshake_results xi = Some (mkHandshakeResults (mkHandshakeKeys a b) node_id) /\
    length K = 32 /\ holds vi b K Aes256 /\ known_ids vi /\ draws vi < 1000.
Proof.
  destruct (ready_side 1000 _ _ _ _ _ _ _ (empty_vault, (∅ : InMemoryStorage)) (Some 1000%Z)
              mkTrustEveryone None false node_ready opened_ok
              ltac:(vm_compute; lia) opened_size opened_welcome) as (payload & Em & _ & Hside).
  destruct (session_run peer_view peer_view 1000 (toy_distinct_ids 1000 ltac:(lia)) false false
              _ _ _ _ _ _ _ _ _ _ _ _ _ _ Hside Hside)
    as (xi & vi & xr & vr & a & b & c & d & K1 & K2 & E & Hi & _ & HK & _ & _ & _ & Hb & _ & Hk & _ & Hd & _).
  apply session_last_step in E as (x1 & v1 & m2 & m3 & Hn & E).
  exists x1, v1, m2, m3, xi, vi, a, b, K1. split_and!; [done..|]. rewrite Hd. vm_compute. lia.
Qed.

Definition near_worker (x : Machine) : @HandshakeWorker TrustEveryonePolicy (TrustContext (S := InMemoryStorage)) :=
  mkHandshakeWorker None x mkTrustEveryone None (str "P_near") near Initiator
    (Some [addr "s"; addr "listener"]) None.

Definition reply (p : bytes) : Routed unit :=
  mkRouted tt (addr "n_rem") (addr "s")
    (mkLocalMessage (TransportMessage_v1 [addr "n_rem"] [addr "s"; addr "f_rem"] p) []).

Definition greeting : TransportMessage := TransportMessage_v1 [addr "app"] [addr "echo"] (str "hi").

(** The worker finishes the handshake, and stores the handler of the channel. *)
Lemma near_opens x1 v1 m2 m3 xi vi a b :
  on_event (P := peer_view) Initiator (ReceivedMessage m2) (x1, v1) = (Ok (SendMessage m3), (xi, vi)) ->
  get_handshake_results xi = Some (mkHandshakeResults (mkHandshakeKeys a b) node_id) ->
  exists r g,
    execs id_eff (HandshakeWorker_handle_message (near_worker x1) (reply m2)) (mkIdView (near_worker x1) [])
      (Some r) g /\ iv_forwarded g = [] /\ hw_addresses (iv_self g) = near /\
    hw_decryptor_handler (iv_self g) =
      Some (DecryptorHandler_new (str "initiator") near b node_id).
Proof.
  intros E Hres. eexists _, _. split.
  - cbn [HandshakeWorker_handle_message near_worker hw_decryptor_handler].
    eapply (execs_call _ _ (Ok (SendMessage m3), xi)).
    { split; [reflexivity|]. exists (empty_vault, ∅), (Some 1000%Z), v1, vi. exact E. }
    eapply (execs_call _ _ tt); [reflexivity|]. cbn [fst snd].
    eapply (execs_call _ _ tt); [reflexivity|].
    eapply (execs_call _ _ (Ok tt)); [reflexivity|].
    cbn [map_err ptry pbind plift]. unfold finish_handshake. cbn [hw_state_machine with_route with_machine].
    rewrite Hres.
    eapply (execs_call _ _ (Ok tt)); [reflexivity|].
    eapply (execs_call _ _ (Ok tt)); [reflexivity|].
    eapply (execs_call _ _ tt); [reflexivity|]. apply execs_ret.
  - done.
Qed.

Lemma channel_messages_are_attributed_witness :
  exists x ms g lm,
    session id_eff (fun m g => HandshakeWorker_handle_message (iv_self g) m) ms (mkIdView (near_worker x) []) g /\
    (addr "n_int", lm) ∈ iv_forwarded g /\
    exists res st static, get_handshake_results (hw_state_machine (iv_self g)) = Some res /\
      hs_rs (m_handshake (hw_state_machine (iv_self g))) = Some static /\
      local_info lm = mark [] (their_identifier res) /\
      proved_identity st mkTrustEveryone static (their_identifier res).
Proof.
  destruct opened_last_step as (x1 & v1 & m2 & m3 & xi & vi & a & b & K & Hx1 & E & Hres & HK & Hb & Hk & Hd).
  destruct (near_opens x1 v1 m2 m3 xi vi a b E Hres) as (r & g1 & He1 & Hf1 & Ha1 & Hh1).
  destruct (decrypt_run K HK 1000 (toy_distinct_ids 1000 ltac:(lia)) [] (Decryptor_new b) vi 0
              (toy_encode_transport greeting)) as (d' & v' & Er & _ & _);
    [by apply dec_inv_new | done | done | vm_compute; congruence | done|].
  assert (exists g2 lm, execs id_eff
     (HandshakeWorker_handle_message (iv_self g1) (reply (SecureChannel.wire K 0 (toy_encode_transport greeting))))
     g1 (Some (Ok tt)) g2 /\ (addr "n_int", lm) ∈ iv_forwarded g2) as (g2 & lm & He2 & Hlm).
  { eexists _, _. split.
    - unfold HandshakeWorker_handle_message. rewrite Hh1, Ha1.
      eapply (execs_call _ _ (Ok (toy_encode_transport greeting), d')).
      { split; [reflexivity|]. exists vi, v'. exact (f_equal (fun '(r, (d, v)) => ((r, d), v)) Er). }
      eapply (execs_call _ _ tt); [reflexivity|].
      cbn [pbind map_err plift ptry fst snd].
      rewrite (transport_roundtrip (TransportCodecLaws := toy_transport_codec_laws) greeting (toy_encode_transport greeting) eq_refl). cbn [ok_or plift ptry pbind].
      eapply (execs_call _ _ (Ok tt)); [reflexivity|]. apply execs_ret.
    - cbn [iv_forwarded]. rewrite Hf1. apply list_elem_of_singleton. reflexivity. }
  set (ms := [reply m2; reply (SecureChannel.wire K 0 (toy_encode_transport greeting))]).
  assert (session id_eff (fun m g => HandshakeWorker_handle_message (iv_self g) m) ms
            (mkIdView (near_worker x1) []) g2) as Hs.
  { eapply session_cons; [exact He1|]. eapply session_cons; [exact He2 | constructor]. }
  exists x1, ms, g2, lm. split; [exact Hs|]. split; [exact Hlm|].
  destruct (channel_messages_are_attributed (A := TrustEveryonePolicy) (near_worker x1) ms g2 (addr "n_int") lm eq_refl Hx1 Hs Hlm)
    as (_ & _ & H). exact H.
Defined.
