(* ===== verification/Pipes.v ===== *)
(** * Pipes and channels (ockam/src/{pipe, channel, protocols, delay.rs})

    A pipe is a sender and a receiver.  The sender numbers the messages it is
    given and packs them; the receiver unpacks and forwards them.  Both run hooks
    on each message: [ReceiverOrdering] forwards in the order of the numbers,
    [SenderConfirm] and [ReceiverConfirm] acknowledge messages and send again
    what has not been acknowledged.  A channel joins two pipes.

    The encodings are a parameter ([PipeCodec]); builds have no overflow checks,
    so that counters wrap around. *)

From Stdlib Require Import ZArith Lia.
From Stdlib Require Strings.Byte Strings.String.
From stdpp Require Import base gmap list numbers option countable.
From S2P Require Import Prelude RustStr Routing AccessControl FlowControl Router Node.

(** ** What workers of this crate call

    Their context, the generator of addresses, and tasks that send a message
    after a while. *)

(** error.rs; [NodeFailed] are the errors of other crates. *)
Inductive ockam_error :=
| BareError
| NoSuchProtocol
| InvalidParameter
| SystemAddressNotBound
| SystemInvalidConfiguration
| UnknownForwarderDestinationAddress
| UnknownForwarderNextHopAddress
| InvalidHubResponse
| NodeFailed (e : cerror).

Notation oresult A := (result ockam_error A).

Section Calls.
Context {W : Type}.

Inductive ocall : Type -> Type :=
| OCtx {X} (c : api W unit X) : ocall X
| OSetSelf (w : W) : ocall unit
| ORandomLocal : ocall Address
| ORandomTagged (tag : bytes) : ocall Address
| OSpawnDelayed (ctx : nat) (seconds : Z) (route : Route) (payload : option bytes) : ocall unit.

Definition in_node {X} (c : api W unit (cresult X)) : prog ocall no_event (oresult X) :=
  do r <- pcall (OCtx c); PRet (map_err NodeFailed r).

Definition of_route {X} (r : result RouteError X) : oresult X := map_err (NodeFailed ∘ CAccess ∘ RouteErr) r.

(** [ctx.send]: from the address of the worker. *)
Definition self_send (own : Address) (route : Route) (payload : option bytes)
  : prog ocall no_event (oresult unit) :=
  in_node (ASend 0 route payload own []).

Definition self_forward (own : Address) (m : LocalMessage) : prog ocall no_event (oresult unit) :=
  in_node (AForward 0 m own).

(** [DelayedEvent::new(ctx, route, msg).await?.with_seconds(s).spawn()] (delay.rs) *)
Definition delayed_event (route : Route) (payload : option bytes) (seconds : Z)
  : prog ocall no_event (oresult unit) :=
  do? next <- plift (of_route (Route_next route));
  do child <- pcall (ORandomTagged (str "DelayedEvent.child"));
  do? ctx <- in_node (ANewDetached 0 (main_mailboxes child (fun _ => dyn_incoming mkDenyAll)
                                        (fun _ => dyn_outgoing (mkAllowOnwardAddress next))));
  do _ <- pcall (OSpawnDelayed ctx seconds route payload);
  PRet (Ok tt).
End Calls.
Arguments ocall : clear implicits.

Notation oprog W A := (prog (ocall W) no_event A).

(** A worker that anyone may send to and that may send to anyone. *)
Definition allow_all_mailboxes (main : Address) (more : list Address) : SharedMailboxes :=
  let mailbox a := mkSharedMailbox a (fun _ => dyn_incoming mkAllowAll) (fun _ => dyn_outgoing mkAllowAll) in
  mkSharedMailboxes (mailbox main) (map mailbox more).

(** ** monotonic.rs *)

Definition u64_add (a b : Z) : Z := ((a + b) mod 2 ^ 64)%Z.

(** The counter before, and after. *)
Definition Monotonic_next (inner : Z) : Z * Z := (inner, u64_add inner 1).

(** ** protocols/pipe *)

Record PipeMessage := mkPipeMessage {
  pm_index : Z;
  pm_data : bytes
}.

Inductive InternalCmd :=
| Resend (idx : Z)
| Ack (idx : Z)
| InitHandshake
| HandshakeCmd (route_to_sender : Route)
| InitSender.

(** protocols/channel *)
Record ChannelCreationHandshake := mkChannelCreationHandshake {
  ch_channel_addr : Address;
  ch_tx_addr : Address;
  ch_tx_int_addr : Address;
  ch_rx_addr : Address;
  ch_rx_int_addr : Address
}.

Class PipeCodec := {
  encode_pipe : PipeMessage -> option bytes;
  decode_pipe : bytes -> option PipeMessage;
  encode_cmd : InternalCmd -> option bytes;
  decode_cmd : bytes -> option InternalCmd;
  encode_creation : ChannelCreationHandshake -> option bytes;
  decode_creation : bytes -> option ChannelCreationHandshake
}.

(** [process_journal], here and in the ordering of pipe systems.  Each call but
    the last one removes a message: [fuel] is their number. *)
Fixpoint walk_journal {A B} (unpack : A -> oresult B) (fuel : nat) (send_stack : list B) (curr : Z)
    (j : gmap Z A) : oresult (list B) * (Z * gmap Z A) :=
  let curr := u64_add curr 1 in
  match fuel, j !! curr with
  | S fuel, Some msg =>
      let j := delete curr j in
      match unpack msg with
      | Ok m => walk_journal unpack fuel (send_stack ++ [m]) curr j
      | Err e => (Err e, (curr, j))
      | Panic => (Panic, (curr, j))
      end
  | _, _ => (Ok send_stack, (curr, j))
  end.

Section Pipes.
Context {TC : TransportCodec} {PC : PipeCodec}.

Definition PipeMessage_from_transport (index : Z) (msg : TransportMessage) : oresult PipeMessage :=
  let? data := ok_or (encode_transport msg) BareError in
  Ok (mkPipeMessage index data).

Definition PipeMessage_to_transport (self : PipeMessage) : oresult TransportMessage :=
  ok_or (decode_transport (pm_data self)) BareError.

Definition InternalCmd_from_transport (msg : TransportMessage) : oresult InternalCmd :=
  ok_or (decode_cmd (payload msg)) BareError.

Definition unpack_pipe_message (pipe_msg : PipeMessage) : oresult LocalMessage :=
  let? nested := PipeMessage_to_transport pipe_msg in
  Ok (mkLocalMessage nested []).

(** ** Hooks (pipe/behavior) *)

Record ReceiverOrdering := mkReceiverOrdering {
  ro_journal : gmap Z PipeMessage;
  ro_current : Z
}.

Definition ReceiverOrdering_new : ReceiverOrdering := mkReceiverOrdering ∅ 0.

(** The hooks of the crate. *)
Inductive hook :=
| HReceiverOrdering (o : ReceiverOrdering)
| HSenderConfirm (on_route : gmap Z PipeMessage)
| HReceiverConfirm
| HHandshakeInit (sent : bool).

Notation PipeBehavior := (list hook).

Inductive PipeModifier := PNone | PDrop.

(** *** Workers *)

Inductive PeerRoute :=
| Peer (p : Route)
| Listener (l : Route).

Record PipeSender := mkPipeSender {
  ps_index : Z;
  ps_out_buf : list PipeMessage;
  ps_peer : option PeerRoute;
  ps_int_addr : Address;
  ps_hooks : PipeBehavior
}.

Record PipeReceiver := mkPipeReceiver {
  pr_hooks : PipeBehavior;
  pr_int_addr : Address
}.

Inductive WorkerStage := Stage1 | Stage2 | Finalised.

Record ChannelWorker := mkChannelWorker {
  cw_stage : WorkerStage;
  cw_listener : option Route;
  cw_tx_addr : Address;
  cw_rx_addr : Address;
  cw_self_addrs : Address * Address;
  cw_peer_addr : Address;
  cw_peer_routes : option ((Route * Route) * (Route * Route));
  cw_tx_hooks : PipeBehavior;
  cw_rx_hooks : PipeBehavior
}.

Inductive pipe_worker :=
| WPipeSender (w : PipeSender)
| WPipeReceiver (w : PipeReceiver)
| WPipeListener (hooks : PipeBehavior)
| WChannel (w : ChannelWorker)
| WChannelListener (tx_hooks rx_hooks : PipeBehavior).

Notation pprog A := (oprog pipe_worker A).

(** *** behavior/ordering.rs *)

Inductive IndexState := Low | High | Next.

Definition compare_index (self : ReceiverOrdering) (index : Z) : IndexState :=
  let next := u64_add (ro_current self) 1 in
  if (next <? index)%Z then High
  else if (index <? next)%Z then Low
  else Next.

Definition enqueue (index : Z) (msg : PipeMessage) (self : ReceiverOrdering)
  : oresult PipeModifier * ReceiverOrdering :=
  (Ok PDrop, mkReceiverOrdering (<[index := msg]> (ro_journal self)) (ro_current self)).

Definition process_journal : nat -> list LocalMessage -> Z -> gmap Z PipeMessage ->
    oresult (list LocalMessage) * (Z * gmap Z PipeMessage) := walk_journal unpack_pipe_message.

(** [for msg in send_stack { ctx.forward(msg).await?; }] *)
Fixpoint forward_all (own : Address) (l : list LocalMessage) : pprog (oresult unit) :=
  match l with
  | [] => PRet (Ok tt)
  | m :: l => do? _ <- self_forward own m; forward_all own l
  end.

Definition ReceiverOrdering_forward (own : Address) (msg : PipeMessage) (self : ReceiverOrdering)
  : pprog (oresult PipeModifier * ReceiverOrdering) :=
  match unpack_pipe_message msg with
  | Ok curr =>
      do r <- self_forward own curr;
      match r with
      | Ok _ =>
          let '(r, (current, journal)) :=
            process_journal (size (ro_journal self)) [] (ro_current self) (ro_journal self) in
          let self := mkReceiverOrdering journal current in
          match r with
          | Ok send_stack =>
              do r <- forward_all own send_stack;
              PRet (let? _ := r in Ok PDrop, self)
          | Err e => PRet (Err e, self)
          | Panic => PPanic
          end
      | Err e => PRet (Err e, self)
      | Panic => PPanic
      end
  | Err e => PRet (Err e, self)
  | Panic => PPanic
  end.

Definition ReceiverOrdering_on_external (own : Address) (msg : PipeMessage) (self : ReceiverOrdering)
  : pprog (oresult PipeModifier * ReceiverOrdering) :=
  let index := pm_index msg in
  match compare_index self index with
  | Low => PRet (Ok PDrop, self)
  | High => PRet (enqueue index msg self)
  | Next => ReceiverOrdering_forward own msg self
  end.

(** *** behavior/resend.rs *)

Definition SenderConfirm_on_external (this : Address) (msg : PipeMessage) (on_route : gmap Z PipeMessage)
  : pprog (oresult PipeModifier * gmap Z PipeMessage) :=
  let on_route := <[pm_index msg := msg]> on_route in
  do r <- delayed_event [this] (encode_cmd (Resend (pm_index msg))) 5;
  PRet (let? _ := r in Ok PNone, on_route).

Definition SenderConfirm_on_internal (own this : Address) (peer : Route) (msg : InternalCmd)
    (on_route : gmap Z PipeMessage) : pprog (oresult unit * gmap Z PipeMessage) :=
  match msg with
  | Resend idx =>
      match on_route !! idx with
      | Some msg =>
          do x <- SenderConfirm_on_external this msg (delete idx on_route);
          match x.1 with
          | Ok _ => do r <- self_send own peer (encode_pipe msg); PRet (r, x.2)
          | Err e => PRet (Err e, x.2)
          | Panic => PPanic
          end
      | None => PRet (Ok tt, on_route)
      end
  | Ack idx => PRet (Ok tt, delete idx on_route)
  | _ => PRet (Ok tt, on_route)
  end.

Definition ReceiverConfirm_on_external (own : Address) (sender : Route) (msg : PipeMessage)
  : pprog (oresult PipeModifier) :=
  do r <- self_send own sender (encode_cmd (Ack (pm_index msg)));
  PRet (let? _ := r in Ok PNone).

(** *** behavior/handshake.rs *)

Definition HandshakeInit_on_internal (own : Address) (msg : InternalCmd) (sent : bool)
  : pprog (oresult unit * bool) :=
  match msg, sent with
  | HandshakeCmd route_to_sender, false =>
      do r <- self_send own route_to_sender (encode_cmd InitSender);
      match r with
      | Ok _ => PRet (Ok tt, true)
      | Err e => PRet (Err e, sent)
      | Panic => PPanic
      end
  | _, _ => PRet (Ok tt, sent)
  end.

(** *** behavior/mod.rs *)

Definition on_external (own this : Address) (peer : Route) (msg : PipeMessage) (h : hook)
  : pprog (oresult PipeModifier * hook) :=
  match h with
  | HReceiverOrdering o => do x <- ReceiverOrdering_on_external own msg o; PRet (x.1, HReceiverOrdering x.2)
  | HSenderConfirm j => do x <- SenderConfirm_on_external this msg j; PRet (x.1, HSenderConfirm x.2)
  | HReceiverConfirm => do r <- ReceiverConfirm_on_external own peer msg; PRet (r, h)
  | HHandshakeInit _ => PRet (Ok PNone, h)
  end.

Definition on_internal (own this : Address) (peer : Route) (msg : InternalCmd) (h : hook)
  : pprog (oresult unit * hook) :=
  match h with
  | HSenderConfirm j => do x <- SenderConfirm_on_internal own this peer msg j; PRet (x.1, HSenderConfirm x.2)
  | HHandshakeInit b => do x <- HandshakeInit_on_internal own msg b; PRet (x.1, HHandshakeInit x.2)
  | HReceiverOrdering _ | HReceiverConfirm => PRet (Ok tt, h)
  end.

(** The loops stop at the first error; the hooks before it have changed. *)
Fixpoint run_hooks {X} (run : hook -> pprog (oresult X * hook)) (hooks : PipeBehavior)
  : pprog (oresult (list X) * PipeBehavior) :=
  match hooks with
  | [] => PRet (Ok [], [])
  | h :: hooks =>
      do x <- run h;
      match x.1 with
      | Ok a =>
          do y <- run_hooks run hooks;
          PRet (let? l := y.1 in Ok (a :: l), x.2 :: y.2)
      | Err e => PRet (Err e, x.2 :: hooks)
      | Panic => PPanic
      end
  end.

Definition modify (acc m : PipeModifier) : PipeModifier :=
  match acc, m with
  | PNone, PNone => PNone
  | _, PDrop => PDrop
  | PDrop, _ => PDrop
  end.

Definition external_all (own this : Address) (peer : Route) (msg : PipeMessage) (self : PipeBehavior)
  : pprog (oresult PipeModifier * PipeBehavior) :=
  do x <- run_hooks (on_external own this peer msg) self;
  PRet (let? acc := x.1 in Ok (foldl modify PNone acc), x.2).

Definition internal_all (own this : Address) (peer : Route) (msg : InternalCmd) (self : PipeBehavior)
  : pprog (oresult unit * PipeBehavior) :=
  do x <- run_hooks (on_internal own this peer msg) self;
  PRet (let? _ := x.1 in Ok tt, x.2).

Definition attach (t : hook) (self : PipeBehavior) : PipeBehavior := self ++ [t].

(** ** The sender (pipe/sender.rs) *)

Definition PIPE_CLUSTER_NAME : bytes := str "_internal.pipe".

Definition with_hooks (hooks : PipeBehavior) (self : PipeSender) : PipeSender :=
  mkPipeSender (ps_index self) (ps_out_buf self) (ps_peer self) (ps_int_addr self) hooks.

Definition store_sender (self : PipeSender) : pprog PipeSender :=
  do _ <- pcall (OSetSelf (WPipeSender self)); PRet self.

Definition PipeSender_initialize (self : PipeSender) : pprog (oresult unit) :=
  do? _ <- in_node (ASetCluster 0 PIPE_CLUSTER_NAME);
  match ps_peer self with
  | Some (Listener route) => in_node (ASend 0 route (encode_cmd InitHandshake) (ps_int_addr self) [])
  | _ => PRet (Ok tt)
  end.

Definition start_pipe_worker (i : nat) (addr int_addr : Address) (w : pipe_worker) : pprog (oresult unit) :=
  in_node (AStartWorker i (allow_all_mailboxes addr [int_addr]) w).

Definition PipeSender_create (peer : Route) (addr int_addr : Address) (hooks : PipeBehavior)
  : pprog (oresult unit) :=
  start_pipe_worker 0 addr int_addr (WPipeSender (mkPipeSender 1 [] (Some (Peer peer)) int_addr hooks)).

Definition PipeSender_uninitialized (addr int_addr : Address) (listener : option Route)
    (hooks : PipeBehavior) : pprog (oresult unit) :=
  start_pipe_worker 0 addr int_addr
    (WPipeSender (mkPipeSender 1 [] (Listener <$> listener) int_addr hooks)).

(** The hooks have changed also when an error comes out. *)
Definition send_pipe_msg (own : Address) (self : PipeSender) (peer : Route) (msg : PipeMessage)
  : pprog (oresult unit * PipeSender) :=
  do x <- external_all own (ps_int_addr self) peer msg (ps_hooks self);
  do self <- store_sender (with_hooks x.2 self);
  match x.1 with
  | Ok PDrop => PRet (Ok tt, self)
  | Ok PNone => do r <- in_node (ASend 0 peer (encode_pipe msg) (ps_int_addr self) []); PRet (r, self)
  | Err e => PRet (Err e, self)
  | Panic => PPanic
  end.

(** [for msg in core::mem::take(&mut self.out_buf) { send_pipe_msg(..).await?; }] *)
Fixpoint flush (own : Address) (self : PipeSender) (peer : Route) (l : list PipeMessage)
  : pprog (oresult unit) :=
  match l with
  | [] => PRet (Ok tt)
  | msg :: l =>
      do x <- send_pipe_msg own self peer msg;
      do? _ <- plift x.1;
      flush own x.2 peer l
  end.

Definition PipeSender_handle_internal (own : Address) (self : PipeSender) (msg : Routed unit)
  : pprog (oresult unit) :=
  let trans := transport_message (local_msg msg) in
  do? internal_cmd <- plift (InternalCmd_from_transport trans);
  match ps_peer self with
  | Some (Peer peer) =>
      do x <- internal_all own (ps_int_addr self) peer internal_cmd (ps_hooks self);
      do _ <- store_sender (with_hooks x.2 self);
      plift x.1
  | _ =>
      match internal_cmd with
      | InitSender =>
          let peer := return_route trans in
          do self' <- store_sender
            (mkPipeSender (ps_index self) [] (Some (Peer peer)) (ps_int_addr self) (ps_hooks self));
          flush own self' peer (ps_out_buf self)
      | _ => PRet (Ok tt)
      end
  end.

Definition PipeSender_handle_external (own : Address) (self : PipeSender) (msg : Routed unit)
  : pprog (oresult unit) :=
  let t := transport_message (local_msg msg) in
  let t := mkTransportMessage (version t)
             (RouteBuilder_drop (RouteBuilder_pop_front (Route_modify (onward_route t))) (onward_route t))
             (return_route t) (payload t) in
  let (index, next) := Monotonic_next (ps_index self) in
  do self <- store_sender
    (mkPipeSender next (ps_out_buf self) (ps_peer self) (ps_int_addr self) (ps_hooks self));
  do? pipe_msg <- plift (PipeMessage_from_transport index t);
  match ps_peer self with
  | Some (Peer peer) => do x <- send_pipe_msg own self peer pipe_msg; plift x.1
  | _ =>
      do _ <- store_sender (mkPipeSender (ps_index self) (ps_out_buf self ++ [pipe_msg]) (ps_peer self)
                              (ps_int_addr self) (ps_hooks self));
      PRet (Ok tt)
  end.

Definition PipeSender_handle_message (own : Address) (self : PipeSender) (msg : Routed unit)
  : pprog (oresult unit) :=
  if decide (msg_addr msg = ps_int_addr self) then PipeSender_handle_internal own self msg
  else PipeSender_handle_external own self msg.

(** ** The receiver (pipe/receiver.rs) *)

Definition store_receiver (self : PipeReceiver) : pprog unit := pcall (OSetSelf (WPipeReceiver self)).

Definition PipeReceiver_initialize : pprog (oresult unit) := in_node (ASetCluster 0 PIPE_CLUSTER_NAME).

Definition PipeReceiver_create (addr int_addr : Address) (hooks : PipeBehavior) : pprog (oresult unit) :=
  start_pipe_worker 0 addr int_addr (WPipeReceiver (mkPipeReceiver hooks int_addr)).

Definition PipeReceiver_handle_external (own : Address) (self : PipeReceiver) (msg : Routed unit)
  : pprog (oresult unit) :=
  let t := transport_message (local_msg msg) in
  do? pipe_msg <- plift (ok_or (decode_pipe (payload t)) BareError);
  do x <- external_all own own (return_route t) pipe_msg (pr_hooks self);
  do _ <- store_receiver (mkPipeReceiver x.2 (pr_int_addr self));
  match x.1 with
  | Ok PDrop => PRet (Ok tt)
  | Err _ => PRet (Ok tt)
  | Ok PNone =>
      do? msg <- plift (unpack_pipe_message pipe_msg);
      self_forward own msg
  | Panic => PPanic
  end.

Definition PipeReceiver_handle_internal (own : Address) (self : PipeReceiver) (msg : Routed unit)
  : pprog (oresult unit) :=
  let trans := transport_message (local_msg msg) in
  do? internal_cmd <- plift (InternalCmd_from_transport trans);
  do x <- internal_all own (pr_int_addr self) (return_route trans) internal_cmd (pr_hooks self);
  do _ <- store_receiver (mkPipeReceiver x.2 (pr_int_addr self));
  plift x.1.

Definition PipeReceiver_handle_message (own : Address) (self : PipeReceiver) (msg : Routed unit)
  : pprog (oresult unit) :=
  if decide (msg_addr msg = pr_int_addr self) then PipeReceiver_handle_internal own self msg
  else PipeReceiver_handle_external own self msg.

(** ** The listener (pipe/listener.rs) and the functions of pipe/mod.rs *)

Definition PipeListener_initialize : pprog (oresult unit) := in_node (ASetCluster 0 PIPE_CLUSTER_NAME).

Definition PipeListener_handle_message (own : Address) (hooks : PipeBehavior) (msg : Routed InternalCmd)
  : pprog (oresult unit) :=
  let route_to_sender := return_route (transport_message (local_msg msg)) in
  match inner msg with
  | InitHandshake =>
      do recv_addr <- pcall ORandomLocal;
      do int_addr <- pcall ORandomLocal;
      do? _ <- PipeReceiver_create recv_addr int_addr (attach (HHandshakeInit false) hooks);
      self_send own [int_addr] (encode_cmd (HandshakeCmd route_to_sender))
  | _ => PRet (Ok tt)
  end.

Definition PipeListener_create_with_behavior (addr : Address) (hooks : PipeBehavior) : pprog (oresult unit) :=
  in_node (AStartWorker 0 (allow_all_mailboxes addr []) (WPipeListener hooks)).

Definition connect_static_with_behavior (recv : Route) (hooks : PipeBehavior) : pprog (oresult Address) :=
  do addr <- pcall ORandomLocal;
  do int_addr <- pcall ORandomLocal;
  do? _ <- PipeSender_create recv addr int_addr hooks;
  PRet (Ok addr).

Definition connect_dynamic (listener : Route) : pprog (oresult Address) :=
  do addr <- pcall ORandomLocal;
  do int_addr <- pcall ORandomLocal;
  do? _ <- PipeSender_uninitialized addr int_addr (Some listener) [];
  PRet (Ok addr).

Definition receiver_with_behavior (addr : Address) (b : PipeBehavior) : pprog (oresult unit) :=
  do int_addr <- pcall ORandomLocal;
  PipeReceiver_create addr int_addr b.

Definition listen_with_behavior (hooks : PipeBehavior) : pprog (oresult Address) :=
  do addr <- pcall ORandomLocal;
  do? _ <- PipeListener_create_with_behavior addr hooks;
  PRet (Ok addr).

(** ** Channels (channel) *)

Definition CHANNEL_CLUSTER_NAME : bytes := str "ockam.channel".

Definition stage2 (peer_tx_route peer_rx_route : Route * Route) (int_addr peer_addr : Address)
    (tx_hooks rx_hooks : PipeBehavior) : pprog (oresult unit) :=
  do pub_addr <- pcall ORandomLocal;
  do tx_addr <- pcall ORandomLocal;
  do rx_addr <- pcall ORandomLocal;
  start_pipe_worker 0 int_addr pub_addr
    (WChannel (mkChannelWorker Stage2 None tx_addr rx_addr (pub_addr, int_addr) peer_addr
                 (Some (peer_tx_route, peer_rx_route)) tx_hooks rx_hooks)).

(** Called with the context [ctx] of the builder. *)
Definition stage1 (ctx : nat) (pub_addr : Address) (listener : Route) (tx_hooks rx_hooks : PipeBehavior)
  : pprog (oresult unit) :=
  do int_addr <- pcall ORandomLocal;
  do peer_addr <- pcall ORandomLocal;
  do rx_addr <- pcall ORandomLocal;
  do tx_addr <- pcall ORandomLocal;
  start_pipe_worker ctx int_addr pub_addr
    (WChannel (mkChannelWorker Stage1 (Some listener) tx_addr rx_addr (pub_addr, int_addr) peer_addr
                 None tx_hooks rx_hooks)).

Definition finalised (self : ChannelWorker) : ChannelWorker :=
  mkChannelWorker Finalised (cw_listener self) (cw_tx_addr self) (cw_rx_addr self) (cw_self_addrs self)
    (cw_peer_addr self) (cw_peer_routes self) (cw_tx_hooks self) (cw_rx_hooks self).

Definition init_stage1 (self : ChannelWorker) : pprog (oresult unit) :=
  do rx_int <- pcall ORandomLocal;
  do? _ <- PipeReceiver_create (cw_rx_addr self) rx_int (cw_rx_hooks self);
  do tx_int <- pcall ORandomLocal;
  do? _ <- PipeSender_uninitialized (cw_tx_addr self) tx_int None (cw_tx_hooks self);
  do? listener <- plift (unwrap (cw_listener self));
  do? _ <- in_node (ASend 0 listener
             (encode_creation (mkChannelCreationHandshake (cw_peer_addr self) (cw_tx_addr self) tx_int
                                 (cw_rx_addr self) rx_int))
             (cw_self_addrs self).2 []);
  do _ <- pcall (OSetSelf (WChannel (finalised self)));
  PRet (Ok tt).

Definition init_stage2 (own : Address) (self : ChannelWorker) : pprog (oresult unit) :=
  do? routes <- plift (unwrap (cw_peer_routes self));
  let '(route_to_sender, route_to_receiver) := routes in
  do rx_int_addr <- pcall ORandomLocal;
  do? _ <- PipeReceiver_create (cw_rx_addr self) rx_int_addr (attach (HHandshakeInit false) (cw_rx_hooks self));
  do tx_int_addr <- pcall ORandomLocal;
  do? _ <- PipeSender_create route_to_receiver.1 (cw_tx_addr self) tx_int_addr (cw_tx_hooks self);
  do? _ <- self_send own [rx_int_addr] (encode_cmd (HandshakeCmd route_to_sender.2));
  do _ <- pcall (OSetSelf (WChannel (finalised self)));
  PRet (Ok tt).

Definition ChannelWorker_initialize (own : Address) (self : ChannelWorker) : pprog (oresult unit) :=
  do? _ <- in_node (ASetCluster 0 CHANNEL_CLUSTER_NAME);
  match cw_stage self with
  | Stage1 => init_stage1 self
  | Stage2 => init_stage2 own self
  | Finalised => PPanic
  end.

(** The routes of a message that comes to the public or to the internal address. *)
Definition channel_routes (self : ChannelWorker) (addr : Address) (trans : TransportMessage)
  : TransportMessage :=
  if decide (addr = (cw_self_addrs self).1) then
    mkTransportMessage (version trans)
      (RouteBuilder_drop
         (RouteBuilder_prepend (cw_tx_addr self)
            (RouteBuilder_prepend (cw_peer_addr self) (RouteBuilder_pop_front (Route_modify (onward_route trans)))))
         (onward_route trans))
      (return_route trans) (payload trans)
  else if decide (addr = (cw_self_addrs self).2) then
    mkTransportMessage (version trans)
      (RouteBuilder_drop (RouteBuilder_pop_front (Route_modify (onward_route trans))) (onward_route trans))
      (RouteBuilder_drop (RouteBuilder_prepend (cw_self_addrs self).1 (Route_modify (return_route trans)))
         (return_route trans))
      (payload trans)
  else trans.

(** [ctx.forward(..).await.unwrap()] *)
Definition ChannelWorker_handle_message (own : Address) (self : ChannelWorker) (msg : Routed unit)
  : pprog (oresult unit) :=
  let trans := channel_routes self (msg_addr msg) (transport_message (local_msg msg)) in
  do r <- self_forward own (mkLocalMessage trans []);
  match r with
  | Ok _ => PRet (Ok tt)
  | _ => PPanic
  end.

Definition ChannelListener_initialize : pprog (oresult unit) := in_node (ASetCluster 0 CHANNEL_CLUSTER_NAME).

Definition ChannelListener_handle_message (tx_hooks rx_hooks : PipeBehavior)
    (msg : Routed ChannelCreationHandshake) : pprog (oresult unit) :=
  let h := inner msg in
  let back := return_route (transport_message (local_msg msg)) in
  do? peer_channel_addr <- plift (of_route (Route_recipient back));
  let base := RouteBuilder_into (RouteBuilder_pop_back (Route_modify back)) in
  let to a := RouteBuilder_into (RouteBuilder_append a (Route_modify base)) in
  stage2 (to (ch_tx_addr h), to (ch_tx_int_addr h)) (to (ch_rx_addr h), to (ch_rx_int_addr h))
    (ch_channel_addr h) peer_channel_addr tx_hooks rx_hooks.

Record ChannelBuilder := mkChannelBuilder {
  cb_ctx : nat;
  cb_tx_hooks : PipeBehavior;
  cb_rx_hooks : PipeBehavior
}.

Definition ChannelBuilder_new : pprog (oresult ChannelBuilder) :=
  do addr <- pcall ORandomLocal;
  do? ctx <- in_node (ANewDetached 0 (main_mailboxes addr (fun _ => dyn_incoming mkDenyAll)
                                        (fun _ => dyn_outgoing mkDenyAll)));
  PRet (Ok (mkChannelBuilder ctx [] [])).

Definition attach_tx_behavior (bev : hook) (self : ChannelBuilder) : ChannelBuilder :=
  mkChannelBuilder (cb_ctx self) (cb_tx_hooks self ++ [bev]) (cb_rx_hooks self).

Definition attach_rx_behavior (bev : hook) (self : ChannelBuilder) : ChannelBuilder :=
  mkChannelBuilder (cb_ctx self) (cb_tx_hooks self) (cb_rx_hooks self ++ [bev]).

(** The hooks of the builder are not passed on. *)
Definition ChannelBuilder_connect (listener : Route) (self : ChannelBuilder) : pprog (oresult Address) :=
  do tx <- pcall ORandomLocal;
  do? _ <- stage1 (cb_ctx self) tx listener [] [];
  PRet (Ok tx).

Definition create_channel_listener (addr : Address) (self : ChannelBuilder) : pprog (oresult unit) :=
  in_node (AStartWorker (cb_ctx self) (allow_all_mailboxes addr [])
             (WChannelListener (cb_tx_hooks self) (cb_rx_hooks self))).
End Pipes.

Notation PipeBehavior := (list hook).
