(* ===== verification/PipeSpec.v ===== *)
(** * What pipes deliver

    An ordered pipe forwards messages in the order in which they were sent, and
    all of them when they arrive in that order ([ordered_pipe_keeps_order]).  The
    code does not do more: a message that overtakes another one stops the pipe
    ([overtaken_message_stops_pipe]), and a message that is sent again makes the
    receiver acknowledge it to the wrong address, which stops the pipe too
    ([stray_acknowledgement_stops_pipe]).  Channels lead replies back
    ([channel_replies_return]). *)

From Stdlib Require Import ZArith Lia Sorted.
From stdpp Require Import base gmap list numbers option countable.
From S2P Require Import Prelude RustStr Routing AccessControl FlowControl Router Node Execution Pipes.

#[local] Open Scope Z_scope.

Lemma u64_succ (x : Z) : 0 <= x < 2 ^ 64 - 1 -> u64_add x 1 = x + 1.
Proof. intros H. apply Z.mod_small. lia. Qed.

(** ** The journal *)

(** The walk takes what follows without a gap, and stops one after it. *)
Lemma walk_journal_spec {A B} (unpack : A -> oresult B) (R : Z -> B -> Prop) M fuel stack c (j : gmap Z A) :
  (size j <= fuel)%nat -> 0 <= c < M - 1 -> M <= 2 ^ 64 ->
  (forall i a, j !! i = Some a -> i < M - 1 /\ exists b, unpack a = Ok b /\ R i b) ->
  exists bs j', let n := Z.of_nat (length bs) in
    walk_journal unpack fuel stack c j = (Ok (stack ++ bs), (c + 1 + n, j')) /\
    Forall2 R (seqZ (c + 1) n) bs /\ c + 1 + n < M /\
    j' !! (c + 1 + n) = None /\
    forall i, j' !! i = if decide (c < i <= c + n) then None else j !! i.
Proof.
  revert stack c j. induction fuel as [|fuel IH]; intros stack c j Hf Hc HM Hj.
  - assert (j = ∅) as -> by (apply map_size_empty_inv; lia). exists [], ∅. cbn.
    rewrite u64_succ by lia. rewrite app_nil_r, Z.add_0_r. split_and!; [done|constructor|lia|done|].
    intros i. case_decide; [lia | done].
  - cbn [walk_journal]. rewrite u64_succ by lia. destruct (j !! (c + 1)) as [a|] eqn:Ea.
    + destruct (Hj _ _ Ea) as (Hb & b & -> & HR).
      destruct (IH (stack ++ [b]) (c + 1) (delete (c + 1) j)) as (bs & j' & -> & HF & Hlt & Hend & Hl).
      * rewrite map_size_delete, Ea. lia.
      * lia.
      * lia.
      * intros i a' Hi. apply lookup_delete_Some in Hi as [_ Hi]. eauto.
      * exists (b :: bs), j'. cbn [length]. rewrite <-app_assoc. split_and!.
        -- f_equal. f_equal. lia.
        -- rewrite seqZ_cons by lia. constructor; [done|].
           replace (Z.succ (c + 1)) with (c + 1 + 1) by lia.
           replace (Z.pred (Z.of_nat (S (length bs)))) with (Z.of_nat (length bs)) by lia. done.
        -- lia.
        -- by replace (c + 1 + Z.of_nat (S (length bs))) with (c + 1 + 1 + Z.of_nat (length bs)) by lia.
        -- intros i. rewrite Hl. destruct (decide (i = c + 1)) as [->|Hne].
           { rewrite lookup_delete_eq. destruct (decide _), (decide _); try lia; done. }
           rewrite lookup_delete_ne by done. destruct (decide _), (decide _); try lia; done.
    + exists [], j. cbn. rewrite app_nil_r, Z.add_0_r. split_and!; [done|constructor|lia|done|].
      intros i. case_decide; [lia | done].
Qed.

Class PipeCodecLaws `{PipeCodec} : Prop := {
  pipe_roundtrip : forall p b, encode_pipe p = Some b -> decode_pipe b = Some p;
  cmd_roundtrip : forall c b, encode_cmd c = Some b -> decode_cmd b = Some c
}.

Section Spec.
Context {TC : TransportCodec} {PC : PipeCodec}.

(** ** The messages of a pipe

    Number [i] belongs to the [i]-th message that was given to the sender. *)

Definition numbered (ms : list TransportMessage) (i : Z) (m : LocalMessage) : Prop :=
  1 <= i /\ exists t, ms !! Z.to_nat (i - 1) = Some t /\ m = mkLocalMessage t [].

(** A pipe message that a sender has made. *)
Definition made (ms : list TransportMessage) (p : PipeMessage) : Prop :=
  pm_index p < 2 ^ 64 - 2 /\ exists m, unpack_pipe_message p = Ok m /\ numbered ms (pm_index p) m.

Lemma numbered_ext ms ms' i m : numbered ms i m -> numbered (ms ++ ms') i m.
Proof. intros (H1 & t & Ht & ->). split; [done|]. exists t. split; [by apply lookup_app_l_Some | done]. Qed.

Lemma made_ext ms ms' p : made ms p -> made (ms ++ ms') p.
Proof. intros (H1 & m & Hm & Hn). split; [done|]. exists m. split; [done | by apply numbered_ext]. Qed.

(** ** The receiver *)

Record recv_view := mkRecvView {
  rc_self : PipeReceiver;
  rc_forwarded : list LocalMessage;
  (** what it has sent: acknowledgements and the like *)
  rc_sent : list (Route * option bytes * Address)
}.

(** Calls may fail if [lossy]; a message without a route is never forwarded. *)
Definition recv_eff (lossy : bool) X (c : ocall pipe_worker X) : X -> recv_view -> recv_view -> Prop :=
  match c in ocall _ X return X -> recv_view -> recv_view -> Prop with
  | OCtx c =>
      match c in api _ _ X return X -> recv_view -> recv_view -> Prop with
      | AForward _ m _ => fun r g g' =>
          (r = Ok tt -> onward_route (transport_message m) <> []) /\
          (lossy = false -> onward_route (transport_message m) <> [] -> r = Ok tt) /\
          g' = mkRecvView (rc_self g)
                 (match r with Ok _ => rc_forwarded g ++ [m] | _ => rc_forwarded g end) (rc_sent g)
      | ASend _ route payload from _ => fun r g g' =>
          (lossy = false -> is_Some payload -> r = Ok tt) /\
          g' = mkRecvView (rc_self g) (rc_forwarded g)
                 (match r with Ok _ => rc_sent g ++ [(route, payload, from)] | _ => rc_sent g end)
      | _ => fun _ g g' => g' = g
      end
  | OSetSelf (WPipeReceiver w) => fun _ g g' => g' = mkRecvView w (rc_forwarded g) (rc_sent g)
  | _ => fun _ g g' => g' = g
  end.

(** Hooks that do not touch the messages. *)
Definition neutral (h : hook) : Prop := h = HReceiverConfirm \/ exists b, h = HHandshakeInit b.

(** An ordering among such hooks, on the way of handling [done]. *)
Definition orders (o : ReceiverOrdering) (hooks : PipeBehavior) : Prop :=
  exists pre post, hooks = pre ++ HReceiverOrdering o :: post /\ Forall neutral pre /\ Forall neutral post.

(** *** Calls that leave the messages alone *)

Definition same (g g' : recv_view) : Prop := rc_self g' = rc_self g /\ rc_forwarded g' = rc_forwarded g.

#[local] Instance same_preorder : PreOrder same.
Proof. split; [by split|]. intros ??? [? ?] [? ?]. split; congruence. Qed.

Lemma send_same lossy own route payload g :
  ensures (recv_eff lossy) (self_send own route payload) g (same g) (fun r g' => same g g' /\
    (lossy = false -> is_Some payload -> r = Ok tt)).
Proof.
  apply ensures_bind, ensures_call; [done|]. intros r g' [Hr ->]. split; [by split|].
  apply ensures_ret; [by split|]. split; [by split|]. intros Hl Hp. by rewrite (Hr Hl Hp).
Qed.

Lemma neutral_external lossy own this peer msg h g :
  neutral h ->
  ensures (recv_eff lossy) (on_external own this peer msg h) g (same g)
    (fun x g' => same g g' /\ x.2 = h /\ (forall a, x.1 = Ok a -> a = PNone) /\
       (lossy = false -> (forall c, is_Some (encode_cmd c)) -> x.1 = Ok PNone)).
Proof.
  intros [->|[b ->]]; cbn [on_external].
  - apply ensures_bind. unfold ReceiverConfirm_on_external. apply ensures_bind.
    eapply ensures_weaken; [done| |apply (send_same lossy)]. intros r g' [Hs Hr].
    apply ensures_ret; [done|]. apply ensures_ret; [done|]. split_and!; [done..| |].
    + intros a Ha. by destruct r; simplify_eq/=.
    + intros Hl Hc. by rewrite (Hr Hl (Hc _)).
  - apply ensures_ret; [done|]. split_and!; [done..| |done]. by intros a [= <-].
Qed.

(** *** The ordering *)

(** What has been forwarded is in the order of the numbers. *)
Definition forwarded_in_order (ms : list TransportMessage) (l : list LocalMessage) : Prop :=
  exists idx, StronglySorted Z.le idx /\ Forall2 (numbered ms) idx l.

Record ordering_ok (ms : list TransportMessage) (o : ReceiverOrdering) (l : list LocalMessage) : Prop := {
  oo_current : 0 <= ro_current o < 2 ^ 64 - 1;
  oo_journal : forall i p, ro_journal o !! i = Some p -> made ms p /\ pm_index p = i /\ ro_current o < i;
  oo_forwarded : exists idx, StronglySorted Z.le idx /\ Forall2 (numbered ms) idx l /\
    Forall (fun i => i <= ro_current o) idx
}.

Lemma ordering_in_order ms o l : ordering_ok ms o l -> forwarded_in_order ms l.
Proof. intros [_ _ (idx & Hs & HF & _)]. by exists idx. Qed.

Lemma sorted_app (l1 l2 : list Z) c :
  StronglySorted Z.le l1 -> StronglySorted Z.le l2 -> Forall (fun i => i <= c) l1 -> Forall (fun i => c <= i) l2 ->
  StronglySorted Z.le (l1 ++ l2).
Proof.
  intros H1 H2 Hl Hr. induction H1 as [|x l1 H1 IH Hx]; [done|]. cbn. apply list.Forall_cons in Hl as [Hxc Hl].
  constructor; [by apply IH|]. apply list.Forall_app. split; [done|].
  eapply list.Forall_impl; [exact Hr|]. cbn. lia.
Qed.

Lemma sorted_seqZ a n : StronglySorted Z.le (seqZ a n).
Proof.
  destruct (Z.le_gt_cases 0 n) as [Hn|Hn]; [|rewrite seqZ_nil by lia; constructor].
  revert a. pattern n. apply natlike_ind; [constructor| |done]. intros x Hx IH a.
  rewrite seqZ_cons by lia. rewrite Z.pred_succ. constructor; [apply IH|].
  apply list.Forall_forall. intros i Hi. apply elem_of_seqZ in Hi. lia.
Qed.

(** More of the same journal: [bs] are the messages after number [c]. *)
Lemma in_order_more ms idx l c b bs l1 :
  StronglySorted Z.le idx -> Forall2 (numbered ms) idx l -> Forall (fun i => i <= c) idx ->
  numbered ms (c + 1) b -> Forall2 (numbered ms) (seqZ (c + 1) (Z.of_nat (length bs))) bs ->
  l1 `prefix_of` b :: bs ->
  exists idx', StronglySorted Z.le idx' /\ Forall2 (numbered ms) idx' (l ++ l1) /\
    Forall (fun i => i <= c + 1 + Z.of_nat (length bs)) idx'.
Proof.
  intros Hs HF Hc Hb Hbs [l2 E].
  assert (Forall2 (numbered ms) ((c + 1) :: seqZ (c + 1) (Z.of_nat (length bs))) (l1 ++ l2)) as HF2
    by (rewrite <-E; by constructor).
  apply Forall2_app_inv_r in HF2 as (i1 & i2 & H1 & _ & Ei).
  assert (StronglySorted Z.le (i1 ++ i2)) as Hsi.
  { rewrite <-Ei. constructor; [apply sorted_seqZ|]. apply list.Forall_forall. intros i Hi.
    apply elem_of_seqZ in Hi. lia. }
  assert (Forall (fun i => c <= i <= c + 1 + Z.of_nat (length bs)) (i1 ++ i2)) as Hb2.
  { rewrite <-Ei. constructor; [lia|]. apply list.Forall_forall. intros i Hi.
    apply elem_of_seqZ in Hi. lia. }
  apply list.Forall_app in Hb2 as [Hb2 _]. exists (idx ++ i1). split_and!.
  - apply (sorted_app _ _ c); [done| |done|].
    + eapply sorted_sublist, Hsi. by apply sublist_inserts_r.
    + eapply list.Forall_impl; [exact Hb2|]. cbn. lia.
  - by apply List.Forall2_app.
  - apply list.Forall_app. split; (eapply list.Forall_impl; [eassumption|]); cbn; lia.
Qed.

Definition forwards_some (l : list LocalMessage) (g g' : recv_view) : Prop :=
  rc_self g' = rc_self g /\ exists l1, l1 `prefix_of` l /\ rc_forwarded g' = rc_forwarded g ++ l1.

Lemma forwards_none l g : forwards_some l g g.
Proof. split; [done|]. exists []. split; [apply prefix_nil | by rewrite app_nil_r]. Qed.

Lemma forwards_more m l g g1 g2 :
  rc_self g1 = rc_self g -> rc_forwarded g1 = rc_forwarded g ++ [m] -> forwards_some l g1 g2 ->
  forwards_some (m :: l) g g2.
Proof.
  intros Hs Hf [Hs2 (l1 & Hp & Hf2)]. split; [congruence|]. exists (m :: l1).
  split; [by apply prefix_cons|]. by rewrite Hf2, Hf, <-app_assoc.
Qed.

Lemma forward_ensures lossy own m g (I : recv_view -> Prop) Q :
  I g ->
  (forall g', rc_self g' = rc_self g -> rc_forwarded g' = rc_forwarded g ++ [m] ->
     onward_route (transport_message m) <> [] -> I g' /\ Q (Ok tt) g') ->
  (lossy = true \/ onward_route (transport_message m) = [] -> forall e, Q (Err e) g) ->
  (lossy = true \/ onward_route (transport_message m) = [] -> Q Panic g) ->
  ensures (recv_eff lossy) (self_forward own m) g I Q.
Proof.
  intros HI Hok Herr Hp. apply ensures_bind, ensures_call; [done|]. intros r g' (Hr0 & Hr & ->).
  assert (r <> Ok tt -> lossy = true \/ onward_route (transport_message m) = []) as Hl.
  { intros Hne. destruct lossy; [by left|]. right. destruct (onward_route (transport_message m)); [done|].
    exfalso. by apply Hne, Hr. }
  destruct r as [[]|e|]; cbn.
  - destruct (Hok (mkRecvView (rc_self g) (rc_forwarded g ++ [m]) (rc_sent g)) eq_refl eq_refl (Hr0 eq_refl)).
    by repeat split.
  - assert (mkRecvView (rc_self g) (rc_forwarded g) (rc_sent g) = g) as -> by by destruct g.
    split; [done|]. split; [done|]. apply Herr, Hl. done.
  - assert (mkRecvView (rc_self g) (rc_forwarded g) (rc_sent g) = g) as -> by by destruct g.
    split; [done|]. split; [done|]. apply Hp, Hl. done.
Qed.

Lemma forward_all_ensures lossy own l g :
  ensures (recv_eff lossy) (forward_all own l) g (forwards_some l g) (fun _ => forwards_some l g).
Proof.
  revert g. induction l as [|m l IH]; intros g; cbn [forward_all].
  { apply ensures_ret; apply forwards_none. }
  apply ensures_try, forward_ensures; [apply forwards_none| |by split; apply forwards_none
                                       |intros _; apply forwards_none].
  intros g' Hs Hf _. split.
  - split; [done|]. exists [m]. split; [|done]. apply prefix_cons, prefix_nil.
  - eapply ensures_weaken; [| |apply IH]; cbn; intros; by eapply forwards_more.
Qed.

(** Hooks never forward what they were not given: whatever happens, the order
    is kept. *)
Lemma ordering_ensures lossy ms own msg o g :
  ordering_ok ms o (rc_forwarded g) -> made ms msg ->
  ensures (recv_eff lossy) (ReceiverOrdering_on_external own msg o) g
    (fun g' => rc_self g' = rc_self g /\ forwarded_in_order ms (rc_forwarded g'))
    (fun x g' => rc_self g' = rc_self g /\ ordering_ok ms x.2 (rc_forwarded g') /\ x.1 <> Ok PNone).
Proof.
  intros Hok Hm. pose proof (ordering_in_order _ _ _ Hok) as Hio.
  pose proof Hok as [Hc Hj (idx & Hs & HF & Hle)]. pose proof Hm as (Hlt & m & Hu & Hn).
  unfold ReceiverOrdering_on_external, compare_index.
  assert (1 <= pm_index msg) as Hpos by apply Hn.
  rewrite u64_succ by lia.
  destruct (Z.ltb_spec (ro_current o + 1) (pm_index msg)); [|destruct (Z.ltb_spec (pm_index msg) (ro_current o + 1))].
  - apply ensures_ret; [done|]. split_and!; [done| |done]. split; [done| |by exists idx].
    intros i p. cbn. rewrite lookup_insert_Some. intros [[<- <-] | [_ Hi]]; [|by apply Hj].
    split_and!; [done..|lia].
  - by apply ensures_ret.
  - assert (pm_index msg = ro_current o + 1) as Ei by lia. unfold ReceiverOrdering_forward. rewrite Hu.
    apply ensures_bind, forward_ensures; [done| |intros _ e; by apply ensures_ret|done].
    intros g1 Hs1 Hf1 _.
    destruct (walk_journal_spec unpack_pipe_message (numbered ms) (2 ^ 64 - 1) (size (ro_journal o)) []
                (ro_current o) (ro_journal o)) as (bs & j' & Ew & HR & Hlt' & Hend & Hl'); [lia..| |].
    { intros i a Ha. destruct (Hj i a Ha) as ((H1 & b & H2 & H3) & <- & _). split; [lia|]. by exists b. }
    rewrite Ei in Hn.
    assert (forall l1 g2, l1 `prefix_of` m :: bs -> rc_forwarded g2 = rc_forwarded g ++ l1 ->
      forwarded_in_order ms (rc_forwarded g2) /\
      ordering_ok ms (mkReceiverOrdering j' (ro_current o + 1 + Z.of_nat (length bs))) (rc_forwarded g2)) as Hafter.
    { intros l1 g2 Hp ->.
      destruct (in_order_more ms idx _ (ro_current o) m bs l1 Hs HF Hle Hn HR Hp) as (idx' & H1 & H2 & H3).
      split; [by exists idx'|]. split; cbn; [lia| |by exists idx'].
      intros i p Hi. assert (i <> ro_current o + 1 + Z.of_nat (length bs)) by (intros ->; congruence).
      rewrite Hl' in Hi. case_decide as Hd; [done|]. destruct (Hj i p Hi) as (? & ? & ?).
      split_and!; [done..|]. lia. }
    destruct (Hafter [m] g1) as [Hio1 _]; [apply prefix_cons, prefix_nil | done |].
    split; [done|]. unfold process_journal. rewrite Ew. cbn [app].
    apply ensures_bind. eapply ensures_weaken; [| |apply (forward_all_ensures lossy)]; cbn.
    + intros g2 Hf2. apply (forwards_more m _ g) in Hf2 as [Hs2 (l1 & Hp & Hf2)]; [|done..].
      split; [done|]. by apply (Hafter l1).
    + intros r g2 Hf2. apply (forwards_more m _ g) in Hf2 as [Hs2 (l1 & Hp & Hf2)]; [|done..].
      destruct (Hafter l1 g2 Hp Hf2) as [Hio2 Hok2].
      split; [done|]. split_and!; [done..|]. by destruct r.
Qed.

Definition nonempty (m : LocalMessage) : Prop := onward_route (transport_message m) <> [].

(** Without failures: an old number is dropped, a later one kept, and the next
    one forwarded, if it has not been kept before. *)
Definition ordering_step (o : ReceiverOrdering) (l : list LocalMessage) (msg : PipeMessage) (m : LocalMessage)
    (o' : ReceiverOrdering) (l' : list LocalMessage) : Prop :=
  let i := pm_index msg in
  let c := ro_current o in
  (i <= c -> o' = o /\ l' = l) /\
  (c + 1 < i -> o' = mkReceiverOrdering (<[i := msg]> (ro_journal o)) c /\ l' = l) /\
  (i = c + 1 -> ro_journal o !! i = None -> o' = mkReceiverOrdering (ro_journal o) i /\ l' = l ++ [m]).

Lemma ordering_exact own msg o g m :
  0 <= ro_current o < 2 ^ 64 - 1 -> unpack_pipe_message msg = Ok m ->
  (pm_index msg = ro_current o + 1 -> nonempty m) ->
  ensures (recv_eff false) (ReceiverOrdering_on_external own msg o) g (fun g' => rc_self g' = rc_self g)
    (fun x g' => rc_self g' = rc_self g /\ ordering_step o (rc_forwarded g) msg m x.2 (rc_forwarded g') /\
       x.1 <> Ok PNone).
Proof.
  intros Hc Hu Hne. unfold ReceiverOrdering_on_external, compare_index. rewrite u64_succ by done.
  destruct (Z.ltb_spec (ro_current o + 1) (pm_index msg)); [|destruct (Z.ltb_spec (pm_index msg) (ro_current o + 1))].
  - apply ensures_ret; [done|]. split_and!; [done| |done]. split_and!; intros; try lia; done.
  - apply ensures_ret; [done|]. split_and!; [done| |done]. split_and!; intros; try lia; done.
  - assert (pm_index msg = ro_current o + 1) as Ei by lia. unfold ReceiverOrdering_forward. rewrite Hu.
    apply ensures_bind, forward_ensures; [done| |by intros [|?%Hne]..].
    intros g1 Hs1 Hf1 _. split; [done|]. unfold process_journal.
    destruct (walk_journal _ _ _ _ _) as [r [c' j']] eqn:Ew.
    assert (ro_journal o !! pm_index msg = None -> r = Ok [] /\ c' = pm_index msg /\ j' = ro_journal o) as Hstop.
    { rewrite Ei. intros Hj. destruct (size (ro_journal o)); cbn [walk_journal] in Ew; rewrite u64_succ in Ew by done;
        rewrite ?Hj in Ew; by injection Ew as <- <- <-. }
    destruct r as [bs|e|].
    + apply ensures_bind. eapply ensures_weaken; [| |apply (forward_all_ensures false)]; cbn.
      { intros g2 [Hs2 _]. congruence. }
      intros r g2 [Hs2 (l1 & Hp & Hf2)]. split; [congruence|]. split_and!; [congruence| |by destruct r].
      split_and!; intros; try lia. destruct Hstop as (Eb & -> & ->); [done|].
      injection Eb as ->. apply prefix_nil_inv in Hp as ->. by rewrite Hf2, Hf1, app_nil_r.
    + apply ensures_ret; [done|]. split_and!; [done| |done]. split_and!; intros; try lia.
      by destruct Hstop as (Eb & _).
    + done.
Qed.

(** A message without a route is never forwarded, nor the counter increased. *)
Lemma ordering_blocked lossy own msg o g m :
  0 <= ro_current o < 2 ^ 64 - 1 -> unpack_pipe_message msg = Ok m -> onward_route (transport_message m) = [] ->
  pm_index msg = ro_current o + 1 ->
  ensures (recv_eff lossy) (ReceiverOrdering_on_external own msg o) g (fun g' => rc_self g' = rc_self g)
    (fun x g' => rc_self g' = rc_self g /\ (x.2 = o /\ rc_forwarded g' = rc_forwarded g) /\ x.1 <> Ok PNone).
Proof.
  intros Hc Hu Hm Ei. unfold ReceiverOrdering_on_external, compare_index. rewrite u64_succ, Ei, Z.ltb_irrefl by done.
  unfold ReceiverOrdering_forward. rewrite Hu.
  apply ensures_bind, forward_ensures; [done|done|intros _ e; by apply ensures_ret|done].
Qed.

(** *** All hooks *)

Lemma fold_drop acc : PDrop ∈ acc -> forall a, foldl modify a acc = PDrop.
Proof.
  assert (forall acc, foldl modify PDrop acc = PDrop) as Hd by (induction acc0 as [|[] ? IH]; [done|exact IH..]).
  intros Hin. induction acc as [|y acc IH]; intros a; [by apply not_elem_of_nil in Hin|].
  apply elem_of_cons in Hin as [<-|Hin]; [|by apply IH]. by destruct a; apply Hd.
Qed.

Section Hooks.
Context (lossy : bool) (own this : Address) (peer : Route) (msg : PipeMessage) (o : ReceiverOrdering).
Context (g0 : recv_view) (I : recv_view -> Prop) (Q : ReceiverOrdering -> list LocalMessage -> Prop).
Context (I_same : forall g g', I g -> same g g' -> I g') (I_start : I g0).
(** The ordering is not reached if a hook before it fails. *)
Context (not_reached : (lossy = false -> (forall c, is_Some (encode_cmd c)) -> False) -> Q o (rc_forwarded g0)).
Context (reached : forall g, same g0 g ->
  ensures (recv_eff lossy) (ReceiverOrdering_on_external own msg o) g I
    (fun x g' => rc_self g' = rc_self g0 /\ Q x.2 (rc_forwarded g') /\ x.1 <> Ok PNone)).

Definition through (pre post : PipeBehavior) (x : oresult (list PipeModifier) * PipeBehavior) (g : recv_view) : Prop :=
  rc_self g = rc_self g0 /\ (forall acc, x.1 = Ok acc -> PDrop ∈ acc) /\
  exists o', x.2 = pre ++ HReceiverOrdering o' :: post /\ Q o' (rc_forwarded g).

Lemma run_neutral hs g :
  Forall neutral hs -> I g ->
  ensures (recv_eff lossy) (run_hooks (on_external own this peer msg) hs) g I (fun x g' => same g g' /\ x.2 = hs).
Proof.
  intros Hn. revert g. induction Hn as [|h hs Hh _ IH]; intros g Hg; cbn [run_hooks].
  { by apply ensures_ret. }
  apply ensures_bind. eapply ensures_weaken; [| |apply neutral_external, Hh].
  { intros g' Hs. by eapply I_same. }
  intros [r h'] g1 (Hs & Eh & _). cbn in Eh |- *. subst h'. assert (I g1) as H1 by by eapply I_same.
  destruct r; [|by apply ensures_ret|done]. apply ensures_bind. eapply ensures_weaken; [done| |by apply IH].
  cbn. intros [r2 hs'] g2 [Hs2 ->]. split; [by eapply I_same|]. cbn. split; [by transitivity g1 | done].
Qed.

Lemma run_ordering post g :
  Forall neutral post -> same g0 g ->
  ensures (recv_eff lossy) (run_hooks (on_external own this peer msg) (HReceiverOrdering o :: post)) g I (through [] post).
Proof.
  intros Hpost Hs0. cbn [run_hooks on_external].
  apply ensures_bind, ensures_bind. eapply ensures_weaken; [done| |by apply ensures_inv, reached].
  intros [r o'] g1 (H1 & Hs & HQ & Hr). cbn [fst snd] in *.
  apply ensures_ret; [done|]. cbn [fst snd].
  destruct r as [a|e|]; [|apply ensures_ret; [done|]; split_and!; [done..|by eexists]|done].
  apply ensures_bind. eapply ensures_weaken; [done| |by apply run_neutral].
  intros [r2 hs'] g2 [Hs2 E2]. cbn in E2. subst hs'. apply ensures_ret; [by eapply I_same|].
  split_and!; [destruct Hs2; congruence| |].
  - cbn. destruct r2; cbn; [|done..]. intros acc [= <-]. destruct a; [done|]. by left.
  - eexists. split; [done|]. destruct Hs2 as [_ ->]. done.
Qed.

Lemma run_all pre post g :
  Forall neutral pre -> Forall neutral post -> same g0 g ->
  ensures (recv_eff lossy) (run_hooks (on_external own this peer msg) (pre ++ HReceiverOrdering o :: post)) g I
    (through pre post).
Proof.
  intros Hpre Hpost. revert g. induction Hpre as [|h pre Hh _ IH]; intros g Hg; [by apply run_ordering|].
  cbn [app run_hooks]. apply ensures_bind. eapply ensures_weaken; [| |apply (neutral_external lossy), Hh].
  { intros g' Hs. eapply I_same; [done|]. by transitivity g. }
  intros [r h'] g1 (Hs & Eh & Hr & Hfree). cbn [fst snd] in *. subst h'.
  assert (same g0 g1) as H01 by by transitivity g. assert (I g1) as H1 by by eapply I_same.
  destruct r as [a|e|]; [| |done].
  - apply ensures_bind. eapply ensures_weaken; [done| |by apply ensures_inv, IH].
    intros [r2 hs'] g2 (HI & Hs2 & Hacc & o' & E2 & HQ). cbn in E2, Hacc. subst hs'.
    apply ensures_ret; [done|]. split_and!; [done| |by eexists].
    cbn. destruct r2 as [acc|?|]; cbn; [|done..]. intros ? [= <-]. right. by apply Hacc.
  - apply ensures_ret; [done|]. split_and!; [by destruct H01 | done|]. exists o. split; [done|].
    destruct H01 as [_ ->]. apply not_reached. intros Hl Hc. discriminate (Hfree Hl Hc).
Qed.

Lemma external_all_ensures hooks :
  orders o hooks ->
  ensures (recv_eff lossy) (external_all own this peer msg hooks) g0 I
    (fun x g => rc_self g = rc_self g0 /\ x.1 <> Ok PNone /\
       exists o', orders o' x.2 /\ Q o' (rc_forwarded g)).
Proof.
  intros (pre & post & -> & Hpre & Hpost). apply ensures_bind.
  eapply ensures_weaken; [done| |by apply ensures_inv, run_all].
  intros [r hs] g (HI & Hs & Hacc & o' & E & HQ). cbn in E, Hacc. subst hs. apply ensures_ret; [done|].
  split_and!; [done| |].
  - cbn. destruct r as [acc|?|]; cbn; [|done..]. by rewrite (fold_drop acc (Hacc acc eq_refl)).
  - exists o'. split; [by exists pre, post | done].
Qed.
End Hooks.

(** *** Handling a message *)

(** An internal message, or one that brings the pipe message with a number. *)
Definition brings (ms : list TransportMessage) (int_addr : Address) (n : Routed unit) (j : option Z) : Prop :=
  match j with
  | None => msg_addr n = int_addr
  | Some i => msg_addr n <> int_addr /\
      exists p, decode_pipe (payload (transport_message (local_msg n))) = Some p /\ pm_index p = i /\ made ms p
  end.

(** Internal messages change nothing but the hooks of handshakes. *)
Definition kept (h h' : hook) : Prop := h = h' \/ neutral h /\ neutral h'.

Lemma kept_neutral k k' : Forall neutral k -> Forall2 kept k k' -> Forall neutral k'.
Proof.
  intros Hk. induction 1 as [|x y k k' Hxy _ IH]; [constructor|].
  inversion Hk; subst. constructor; [|by apply IH]. by destruct Hxy as [<-|[_ ?]].
Qed.

Section Internal.
Context (lossy : bool) (own this : Address) (peer : Route) (msg : InternalCmd) (o : ReceiverOrdering).
Context (g : recv_view) (I : recv_view -> Prop) (HI : forall g', same g g' -> I g').

Lemma internal_one h g1 :
  neutral h \/ h = HReceiverOrdering o -> same g g1 ->
  ensures (recv_eff lossy) (on_internal own this peer msg h) g1 I (fun x g' => same g g' /\ kept h x.2).
Proof.
  intros Hh Hg. assert (I g1) as H1 by auto. unfold kept.
  destruct Hh as [[->|[b ->]]| ->]; cbn [on_internal]; [by apply ensures_ret; auto| |by apply ensures_ret; auto].
  apply ensures_bind. unfold HandshakeInit_on_internal.
  destruct msg as [| | |route|]; try (apply ensures_ret; [done|]; by apply ensures_ret; auto).
  destruct b; [apply ensures_ret; [done|]; by apply ensures_ret; auto|].
  apply ensures_bind. eapply ensures_weaken; [| |apply (send_same lossy)].
  { intros g' Hs. apply HI. by transitivity g1. }
  intros r g' [Hs _]. assert (same g g') as Hs' by by transitivity g1. assert (I g') as H' by auto.
  destruct r; [| |by split]; (apply ensures_ret; [done|]; apply ensures_ret; [done|]);
    (split; [done|]); right; split; right; by eexists.
Qed.

Lemma internal_run hs g1 :
  Forall (fun h => neutral h \/ h = HReceiverOrdering o) hs -> same g g1 ->
  ensures (recv_eff lossy) (run_hooks (on_internal own this peer msg) hs) g1 I
    (fun x g' => same g g' /\ Forall2 kept hs x.2).
Proof.
  intros Hhs. revert g1. induction Hhs as [|h hs Hh _ IH]; intros g1 Hg; cbn [run_hooks].
  { apply ensures_ret; [by apply HI|]. split; [done | constructor]. }
  apply ensures_bind. eapply ensures_weaken; [by intros|  |by apply internal_one].
  intros [r h'] g2 [Hs Hh']. assert (I g2) as H2 by auto. cbn [fst snd] in *. destruct r; [| |by split].
  - apply ensures_bind. eapply ensures_weaken; [by intros| |by apply IH].
    intros [r2 hs'] g3 [Hs3 HF]. apply ensures_ret; [by apply HI|]. split; [done|]. by constructor.
  - apply ensures_ret; [done|]. split; [done|]. constructor; [done|].
    clear. induction hs; constructor; auto. by left.
Qed.

Lemma internal_ordering hooks :
  orders o hooks ->
  ensures (recv_eff lossy) (internal_all own this peer msg hooks) g I (fun x g' => same g g' /\ orders o x.2).
Proof.
  intros (pre & post & -> & Hpre & Hpost). apply ensures_bind.
  eapply ensures_weaken; [by intros| |apply internal_run; [|done]].
  - intros [r hs] g' [Hs HF]. apply ensures_ret; [by apply HI|]. split; [done|]. cbn in *.
    apply Forall2_app_inv_l in HF as (pre' & l & H1 & H2 & ->).
    apply Forall2_cons_inv_l in H2 as (h & post' & Hh & H2 & ->).
    destruct Hh as [<-|[[?|[? ?]] _]]; [|done..]. exists pre', post'. eauto using kept_neutral.
  - apply list.Forall_app. split; [|constructor; [by right|]];
      (eapply list.Forall_impl; [eassumption|]); auto.
Qed.
End Internal.

(** The hooks after a message, and what they ensure of the ordering. *)
Lemma recv_handle_ensures lossy ms own int_addr n j o g (I : recv_view -> Prop) (Q : recv_view -> Prop)
    (P : ReceiverOrdering -> list LocalMessage -> Prop) :
  (forall g g', I g -> rc_forwarded g' = rc_forwarded g -> I g') -> I g ->
  brings ms int_addr n j -> pr_int_addr (rc_self g) = int_addr -> orders o (pr_hooks (rc_self g)) ->
  (j = None \/ (lossy = false -> (forall c, is_Some (encode_cmd c)) -> False) -> P o (rc_forwarded g)) ->
  (forall p g1, j = Some (pm_index p) -> made ms p -> same g g1 ->
     ensures (recv_eff lossy) (ReceiverOrdering_on_external own p o) g1 (fun g' => rc_self g' = rc_self g /\ I g')
       (fun x g' => rc_self g' = rc_self g /\ P x.2 (rc_forwarded g') /\ x.1 <> Ok PNone)) ->
  (forall g' o', pr_int_addr (rc_self g') = int_addr -> orders o' (pr_hooks (rc_self g')) ->
     P o' (rc_forwarded g') -> Q g') ->
  ensures (recv_eff lossy) (PipeReceiver_handle_message own (rc_self g) n) g I (fun _ => Q).
Proof.
  intros HI Hg Hb Hint Ho Hskip Hstep HQ. unfold PipeReceiver_handle_message. rewrite Hint.
  destruct j as [i|].
  - destruct Hb as [Hne (p & Hd & Ei & Hm)]. rewrite decide_False by done.
    unfold PipeReceiver_handle_external. rewrite Hd. cbn [ok_or plift ptry pbind].
    apply ensures_bind. eapply ensures_weaken; [| |apply ensures_inv, (external_all_ensures lossy own own _ p o g
      (fun g' => rc_self g' = rc_self g /\ I g') P)].
    + by intros g' [_ ?].
    + intros [r hs] g1 ([_ HI1] & Hs & Hr & o' & Ho' & HP). cbn [fst snd] in *.
      apply ensures_bind, ensures_call; [done|]. intros [] g2 ->. split; [by eapply HI|].
      assert (Q (mkRecvView (mkPipeReceiver hs int_addr) (rc_forwarded g1) (rc_sent g1))) as H2
        by by eapply HQ.
      rewrite <-Hint in H2. destruct r as [[|]|e|]; [done|..]; (apply ensures_ret || split); try done; by eapply HI.
    + intros g1 g2 [Hs H1] [Hs2 Hf]. split; [congruence|]. by eapply HI.
    + done.
    + intros Hf. apply Hskip. by right.
    + intros g1 Hs. apply Hstep; [by rewrite Ei | done | done].
    + done.
  - rewrite decide_True by done. unfold PipeReceiver_handle_internal.
    destruct (InternalCmd_from_transport _) as [cmd|e|]; cbn [plift ptry pbind].
    + apply ensures_bind. eapply ensures_weaken; [by intros| |eapply (internal_ordering lossy own _ _ cmd o g I); [|done]].
      * intros [r hs] g1 [[Hs Hf] Ho1]. assert (I g1) as H1 by by eapply HI.
        apply ensures_bind, ensures_call; [done|]. intros [] g2 ->. split; [by eapply HI|].
        assert (Q (mkRecvView (mkPipeReceiver hs int_addr) (rc_forwarded g1) (rc_sent g1))) as H2.
        { eapply (HQ _ o); [done..|]. cbn. rewrite Hf. apply Hskip. by left. }
        rewrite <-Hint in H2. destruct r as [|e|]; [apply ensures_ret|apply ensures_ret|split]; try done; by eapply HI.
      * intros g' [_ Hf]. by eapply HI.
    + apply ensures_ret; [done|]. eapply HQ; [done..|]. apply Hskip. by left.
    + split; done.
Qed.

(** ** The sender *)

Notation sent_message := (Route * option bytes * Address)%type.

Record send_view := mkSendView {
  sn_self : PipeSender;
  sn_sent : list sent_message
}.

Definition send_eff (lossy : bool) X (c : ocall pipe_worker X) : X -> send_view -> send_view -> Prop :=
  match c in ocall _ X return X -> send_view -> send_view -> Prop with
  | OCtx c =>
      match c in api _ _ X return X -> send_view -> send_view -> Prop with
      | ASend _ route payload from _ => fun r g g' =>
          (payload = None -> r <> Ok tt) /\ (lossy = false -> is_Some payload -> r = Ok tt) /\
          g' = mkSendView (sn_self g)
                 (match r with Ok _ => sn_sent g ++ [(route, payload, from)] | _ => sn_sent g end)
      | _ => fun _ g g' => g' = g
      end
  | OSetSelf (WPipeSender w) => fun _ g g' => g' = mkSendView w (sn_sent g)
  | _ => fun _ g g' => g' = g
  end.

(** What a message to the sender asks to be transported. *)
Definition given (int_addr : Address) (m : Routed unit) : option TransportMessage :=
  if decide (msg_addr m = int_addr) then None
  else
    let t := transport_message (local_msg m) in
    Some (mkTransportMessage (version t) (tail (onward_route t)) (return_route t) (payload t)).

Definition is_pipe_message (ms : list TransportMessage) (x : sent_message) : Prop :=
  exists p e, x.1.2 = Some e /\ encode_pipe p = Some e /\ made ms p.

Definition sender_hook (ms : list TransportMessage) (h : hook) : Prop :=
  exists j, h = HSenderConfirm j /\ forall i p, j !! i = Some p -> made ms p.

Record sender_ok (ms : list TransportMessage) (int_addr : Address) (g : send_view) : Prop := {
  so_int : ps_int_addr (sn_self g) = int_addr;
  so_index : ps_index (sn_self g) = Z.of_nat (length ms) + 1;
  so_buf : Forall (made ms) (ps_out_buf (sn_self g));
  so_hooks : Forall (sender_hook ms) (ps_hooks (sn_self g));
  so_sent : Forall (is_pipe_message ms) (sn_sent g)
}.

Definition sent_ok (ms : list TransportMessage) (g : send_view) : Prop := Forall (is_pipe_message ms) (sn_sent g).

Lemma is_pipe_message_ext ms ms' x : is_pipe_message ms x -> is_pipe_message (ms ++ ms') x.
Proof. intros (p & e & H1 & H2 & H3). exists p, e. eauto using made_ext. Qed.

Lemma sender_hook_ext ms ms' h : sender_hook ms h -> sender_hook (ms ++ ms') h.
Proof. intros (j & -> & Hj). exists j. eauto using made_ext. Qed.

(** A send of a pipe message. *)
Lemma pipe_send_ensures lossy ms own route p from info g (Q : oresult unit -> send_view -> Prop) :
  own = 0%nat -> made ms p -> sent_ok ms g ->
  (forall r g', sn_self g' = sn_self g -> sent_ok ms g' -> Q r g') ->
  ensures (send_eff lossy) (in_node (ASend own route (encode_pipe p) from info)) g (sent_ok ms) Q.
Proof.
  intros -> Hp Hg HQ. apply ensures_bind, ensures_call; [done|]. intros r g' (Hn & _ & ->).
  assert (sent_ok ms (mkSendView (sn_self g)
    match r with Ok _ => sn_sent g ++ [(route, encode_pipe p, from)] | _ => sn_sent g end)) as H1.
  { destruct r as [[]|e|]; [|done..]. apply list.Forall_app. split; [done|]. constructor; [|constructor].
    destruct (encode_pipe p) as [e|] eqn:E; [|by destruct (Hn eq_refl)]. by exists p, e. }
  split; [done|]. apply ensures_ret; [done|]. by apply HQ.
Qed.

Lemma confirm_external_ensures lossy ms this p j g :
  made ms p -> sent_ok ms g -> (forall i p, j !! i = Some p -> made ms p) ->
  ensures (send_eff lossy) (SenderConfirm_on_external this p j) g (sent_ok ms)
    (fun x g' => g' = g /\ x.2 = <[pm_index p := p]> j /\ x.1 <> Ok PDrop).
Proof.
  intros Hp Hg Hj. apply ensures_bind. unfold delayed_event. cbn.
  split; [done|]. intros a g1 ->. split; [done|]. intros r g1 ->.
  destruct r as [c|e|]; cbn; [|by repeat (split; [done|])|done].
  split; [done|]. intros [] g1 ->. by repeat (split; [done|]).
Qed.

(** The hooks of the sender keep numbered messages, and send them again. *)
Section SenderHooks.
Context (lossy : bool) (ms : list TransportMessage) (own this : Address) (peer : Route).

Definition hooks_kept (g : send_view) (hs : PipeBehavior) (g' : send_view) : Prop :=
  sn_self g' = sn_self g /\ sent_ok ms g' /\ Forall (sender_hook ms) hs.

Lemma run_sender_hooks {X} (run : hook -> oprog pipe_worker (oresult X * hook)) hs g :
  (forall h g, sender_hook ms h -> sent_ok ms g ->
     ensures (send_eff lossy) (run h) g (sent_ok ms) (fun x g' => hooks_kept g [x.2] g')) ->
  Forall (sender_hook ms) hs -> sent_ok ms g ->
  ensures (send_eff lossy) (run_hooks run hs) g (sent_ok ms) (fun x g' => hooks_kept g x.2 g').
Proof.
  intros Hrun Hhs. revert g. induction Hhs as [|h hs Hh Hhs IH]; intros g Hg; cbn [run_hooks].
  { apply ensures_ret; [done|]. by split_and!. }
  apply ensures_bind. eapply ensures_weaken; [by intros| |by apply Hrun].
  intros [r h'] g1 (Hs & H1 & Hh'). inversion Hh' as [|? ? Hh1]; subst. cbn [fst snd] in *.
  destruct r as [a|e|]; [| |by split].
  - apply ensures_bind. eapply ensures_weaken; [by intros| |by apply IH].
    intros [r2 hs'] g2 (Hs2 & H2 & Hhs'). apply ensures_ret; [done|].
    split_and!; [cbn; congruence | done | by constructor].
  - apply ensures_ret; [done|]. split_and!; [done..|by constructor].
Qed.

Lemma insert_kept (j : gmap Z PipeMessage) p :
  made ms p -> (forall i p, j !! i = Some p -> made ms p) -> sender_hook ms (HSenderConfirm (<[pm_index p := p]> j)).
Proof.
  intros Hp Hj. eexists. split; [done|]. intros i q. rewrite lookup_insert_Some. intros [[_ <-]|[_ Hi]]; eauto.
Qed.

Lemma delete_kept (j : gmap Z PipeMessage) i :
  (forall i p, j !! i = Some p -> made ms p) -> forall i' p, delete i j !! i' = Some p -> made ms p.
Proof. intros Hj i' q Hi. apply lookup_delete_Some in Hi as [_ Hi]. eauto. Qed.

Lemma sender_external hs p g :
  made ms p -> Forall (sender_hook ms) hs -> sent_ok ms g ->
  ensures (send_eff lossy) (external_all own this peer p hs) g (sent_ok ms) (fun x g' => hooks_kept g x.2 g').
Proof.
  intros Hp Hhs Hg. apply ensures_bind. eapply ensures_weaken; [by intros| |apply run_sender_hooks; [|done..]].
  - intros [r hs'] g' H. by apply ensures_ret; [apply H|].
  - clear hs g Hhs Hg. intros h g (j & -> & Hj) Hg. cbn [on_external]. apply ensures_bind.
    eapply ensures_weaken; [by intros| |by apply (confirm_external_ensures lossy ms)].
    intros [r j'] g' (-> & E & _). cbn in E. subst j'. apply ensures_ret; [done|].
    split_and!; [done..|]. constructor; [|constructor]. by apply insert_kept.
Qed.

Lemma sender_internal hs cmd g :
  Forall (sender_hook ms) hs -> sent_ok ms g ->
  ensures (send_eff lossy) (internal_all own this peer cmd hs) g (sent_ok ms) (fun x g' => hooks_kept g x.2 g').
Proof.
  intros Hhs Hg. apply ensures_bind. eapply ensures_weaken; [by intros| |apply run_sender_hooks; [|done..]].
  - intros [r hs'] g' H. by apply ensures_ret; [apply H|].
  - clear hs g Hhs Hg. intros h g (j & -> & Hj) Hg. cbn [on_internal]. apply ensures_bind.
    assert (forall j', (forall i p, j' !! i = Some p -> made ms p) -> hooks_kept g [HSenderConfirm j'] g) as Hsame.
    { intros j' Hj'. split_and!; [done..|]. constructor; [by exists j' | constructor]. }
    destruct cmd as [i|i| |r|]; cbn [SenderConfirm_on_internal];
      try (apply ensures_ret; [done|]; apply ensures_ret; [done|]; apply Hsame; by eauto using delete_kept).
    destruct (j !! i) as [p|] eqn:Ei; [|apply ensures_ret; [done|]; apply ensures_ret; [done|]; by apply Hsame].
    pose proof (Hj _ _ Ei) as Hp. apply ensures_bind.
    eapply ensures_weaken; [by intros| |apply (confirm_external_ensures lossy ms); [done..|by apply delete_kept]].
    intros [r j'] g' (-> & E & _). cbn in E. subst j'. cbn [fst snd].
    pose proof (insert_kept (delete i j) p Hp (delete_kept j i Hj)) as Hk.
    destruct r as [a|e|]; [| |by split].
    + apply ensures_bind, pipe_send_ensures; [done..|]. intros r g' Hs Hg'. apply ensures_ret; [done|].
      apply ensures_ret; [done|]. split_and!; [done..|]. by constructor.
    + apply ensures_ret; [done|]. apply ensures_ret; [done|]. split_and!; [done..|]. by constructor.
Qed.
End SenderHooks.

Section Sender.
Context {TL : TransportCodecLaws} {PL : PipeCodecLaws}.

Lemma made_new ms t d :
  encode_transport t = Some d -> (Z.of_nat (length ms) < 2 ^ 64 - 3) ->
  made (ms ++ [t]) (mkPipeMessage (Z.of_nat (length ms) + 1) d).
Proof.
  intros E Hl. split; [cbn; lia|]. exists (mkLocalMessage t []). split.
  - unfold unpack_pipe_message, PipeMessage_to_transport. cbn. by rewrite (transport_roundtrip _ _ E).
  - cbn. split; [lia|]. exists t. split; [|done]. replace (Z.to_nat _) with (length ms) by lia.
    by rewrite list_lookup_middle.
Qed.

Lemma send_pipe_msg_ensures lossy ms own self peer p g (Q : oresult unit * PipeSender -> send_view -> Prop) :
  made ms p -> Forall (sender_hook ms) (ps_hooks self) -> sent_ok ms g ->
  (forall r hs g', Forall (sender_hook ms) hs -> sent_ok ms g' -> sn_self g' = with_hooks hs self ->
     Q (r, with_hooks hs self) g') ->
  ensures (send_eff lossy) (send_pipe_msg own self peer p) g (sent_ok ms) Q.
Proof.
  intros Hp Hh Hg HQ. apply ensures_bind. eapply ensures_weaken; [by intros| |by apply sender_external].
  intros [r hs] g1 (Hs & H1 & Hhs). cbn [fst snd] in *. apply ensures_bind, ensures_bind, ensures_call; [done|].
  intros [] g2 ->. split; [done|]. apply ensures_ret; [done|].
  destruct r as [[|]|e|]; [|by apply ensures_ret; [|apply HQ]..|by split].
  apply ensures_bind, pipe_send_ensures; [done..|]. intros r g' Hs' Hg'. apply ensures_ret; [done|]. by apply HQ.
Qed.

Lemma flush_ensures lossy ms own self peer l g (Q : oresult unit -> send_view -> Prop) :
  Forall (made ms) l -> Forall (sender_hook ms) (ps_hooks self) -> sent_ok ms g -> sn_self g = self ->
  (forall r hs g', Forall (sender_hook ms) hs -> sent_ok ms g' -> sn_self g' = with_hooks hs self -> Q r g') ->
  ensures (send_eff lossy) (flush own self peer l) g (sent_ok ms) Q.
Proof.
  intros Hl. revert self g. induction Hl as [|p l Hp _ IH]; intros self g Hh Hg Es HQ; cbn [flush].
  { apply ensures_ret; [done|]. eapply HQ; [done..|]. rewrite Es. by destruct self. }
  apply ensures_bind, send_pipe_msg_ensures; [done..|]. intros r hs g' Hhs Hg' Es'. cbn [fst snd].
  destruct r as [[]|e|]; cbn [plift ptry pbind]; [|apply ensures_ret; [done|]; by eapply HQ|by split].
  apply IH; [done..|]. intros r hs' g2 H1 H2 H3. eapply HQ; [done..|]. by rewrite H3.
Qed.

Definition given_more (int_addr : Address) (ms : list TransportMessage) (m : Routed unit) : list TransportMessage :=
  ms ++ option_list (given int_addr m).

(** What the handlers leave of the sender. *)
Lemma sender_ok_after ms int_addr index buf peer hs g' :
  sn_self g' = mkPipeSender index buf peer int_addr hs -> index = Z.of_nat (length ms) + 1 ->
  Forall (made ms) buf -> Forall (sender_hook ms) hs -> sent_ok ms g' -> sender_ok ms int_addr g'.
Proof. intros Hs Hx Hb Hh Hg. split; rewrite ?Hs; done. Qed.

Lemma init_sender_ensures lossy own int_addr ms peer g self :
  sender_ok ms int_addr g -> self = sn_self g ->
  ensures (send_eff lossy)
    (do self' <- store_sender (mkPipeSender (ps_index self) [] (Some (Peer peer)) (ps_int_addr self) (ps_hooks self));
     flush own self' peer (ps_out_buf self)) g (sent_ok ms) (fun _ => sender_ok ms int_addr).
Proof.
  intros [Hi Hx Hb Hh Hg] ->. apply ensures_bind, ensures_bind, ensures_call; [done|]. intros [] g1 ->.
  split; [done|]. apply ensures_ret; [done|]. apply flush_ensures; [done..|]. intros r hs g' Hhs Hg' Es.
  rewrite Hi in Es. by eapply (sender_ok_after _ _ _ _ _ _ _ Es).
Qed.

Lemma sender_internal_ensures lossy own int_addr ms m g :
  sender_ok ms int_addr g ->
  ensures (send_eff lossy) (PipeSender_handle_internal own (sn_self g) m) g (sent_ok ms)
    (fun _ => sender_ok ms int_addr).
Proof.
  intros Hok. pose proof Hok as [Hi Hx Hb Hh Hg]. unfold PipeSender_handle_internal.
  destruct (InternalCmd_from_transport _) as [cmd|e|]; cbn [plift ptry pbind]; [|by apply ensures_ret|by split].
  destruct (ps_peer (sn_self g)) as [[peer|l]|] eqn:Ep.
  2,3: destruct cmd; try (by apply ensures_ret); by apply init_sender_ensures.
  apply ensures_bind. eapply ensures_weaken; [by intros| |by apply sender_internal].
  intros [r hs] g1 (Hs & H1 & Hhs). cbn [fst snd] in *. apply ensures_bind, ensures_bind, ensures_call; [done|].
  intros [] g2 ->. split; [done|]. apply ensures_ret; [done|].
  destruct r; [apply ensures_ret|apply ensures_ret|split]; done.
Qed.

Lemma sender_external_ensures lossy own int_addr ms m t g :
  sender_ok ms int_addr g -> Z.of_nat (length ms) < 2 ^ 64 - 3 -> given int_addr m = Some t ->
  ensures (send_eff lossy) (PipeSender_handle_external own (sn_self g) m) g (sent_ok (ms ++ [t]))
    (fun _ => sender_ok (ms ++ [t]) int_addr).
Proof.
  intros [Hi Hx Hb Hh Hg] Hl Hm. unfold given in Hm. case_decide; [done|]. injection Hm as Et.
  assert (Forall (sender_hook (ms ++ [t])) (ps_hooks (sn_self g))) as Hh'
    by (eapply list.Forall_impl; [exact Hh|]; intros; by apply sender_hook_ext).
  assert (Forall (made (ms ++ [t])) (ps_out_buf (sn_self g))) as Hb'
    by (eapply list.Forall_impl; [exact Hb|]; intros; by apply made_ext).
  assert (sent_ok (ms ++ [t]) g) as Hg' by (eapply list.Forall_impl; [exact Hg|]; intros; by apply is_pipe_message_ext).
  assert (u64_add (ps_index (sn_self g)) 1 = Z.of_nat (length (ms ++ [t])) + 1) as Hx'.
  { rewrite Hx, u64_succ by lia. rewrite length_app. cbn. lia. }
  unfold PipeSender_handle_external, Monotonic_next. cbv zeta.
  change (mkTransportMessage _ _ _ _) with (mkTransportMessage (version (transport_message (local_msg m)))
    (tail (onward_route (transport_message (local_msg m)))) (return_route (transport_message (local_msg m)))
    (payload (transport_message (local_msg m)))). rewrite Et.
  apply ensures_bind, ensures_bind, ensures_call; [done|]. intros [] g1 ->. split; [done|]. apply ensures_ret; [done|].
  unfold PipeMessage_from_transport. destruct (encode_transport t) as [d|] eqn:Ed; cbn [ok_or plift ptry pbind].
  2:{ apply ensures_ret; [done|]. rewrite Hi. by eapply sender_ok_after. }
  pose proof (made_new ms t d Ed Hl) as Hnew. rewrite <-Hx in Hnew. cbn [ps_peer].
  destruct (ps_peer (sn_self g)) as [[peer|l]|].
  2,3: (apply ensures_bind, ensures_bind, ensures_call; [done|]; intros [] g1 ->; split; [done|];
        apply ensures_ret; [done|]; apply ensures_ret; [done|];
        rewrite Hi; eapply sender_ok_after;
        [reflexivity | exact Hx' | apply list.Forall_app; split; [done | by constructor] | done..]).
  apply ensures_bind, send_pipe_msg_ensures; [done..|]. intros r hs g' Hhs Hg1 Es. rewrite Hi in Es.
  destruct r as [[]|e|]; [apply ensures_ret|apply ensures_ret|split]; try done; by eapply (sender_ok_after _ _ _ _ _ _ _ Es).
Qed.

Lemma sender_handle_ensures lossy own int_addr ms m g :
  sender_ok ms int_addr g -> Z.of_nat (length ms) < 2 ^ 64 - 3 ->
  ensures (send_eff lossy) (PipeSender_handle_message own (sn_self g) m) g (sent_ok (given_more int_addr ms m))
    (fun _ => sender_ok (given_more int_addr ms m) int_addr).
Proof.
  intros Hok Hl. unfold PipeSender_handle_message, given_more. destruct (given int_addr m) as [t|] eqn:Em.
  - rewrite (so_int _ _ _ Hok), decide_False; [by apply sender_external_ensures|].
    unfold given in Em. by case_decide.
  - cbn [option_list]. rewrite app_nil_r, (so_int _ _ _ Hok), decide_True; [by apply sender_internal_ensures|].
    unfold given in Em. by case_decide.
Qed.

(** *** Without hooks and without failures, all messages are sent in order *)

Definition packed (ms : list TransportMessage) : list PipeMessage :=
  imap (fun k t => mkPipeMessage (Z.of_nat k + 1) (default [] (encode_transport t))) ms.

Definition payloads (g : send_view) : list (option bytes) := map (fun x => x.1.2) (sn_sent g).

Record sender_exact (ms : list TransportMessage) (int_addr : Address) (g : send_view) : Prop := {
  se_int : ps_int_addr (sn_self g) = int_addr;
  se_index : ps_index (sn_self g) = Z.of_nat (length ms) + 1;
  se_hooks : ps_hooks (sn_self g) = [];
  se_sent : match ps_peer (sn_self g) with
            | Some (Peer _) => payloads g = map encode_pipe (packed ms)
            | _ => payloads g = [] /\ ps_out_buf (sn_self g) = packed ms
            end
}.

Context (pipe_total : forall p, is_Some (encode_pipe p)) (transport_total : forall t, is_Some (encode_transport t)).

Lemma packed_snoc ms t :
  packed (ms ++ [t]) = packed ms ++ [mkPipeMessage (Z.of_nat (length ms) + 1) (default [] (encode_transport t))].
Proof. unfold packed. rewrite imap_app. cbn. by rewrite Nat.add_0_r. Qed.

Lemma send_exact own self peer p g (Q : oresult unit * PipeSender -> send_view -> Prop) :
  ps_hooks self = [] ->
  (forall g', payloads g' = payloads g ++ [encode_pipe p] -> sn_self g' = self -> Q (Ok tt, self) g') ->
  ensures (send_eff false) (send_pipe_msg own self peer p) g (fun _ => True) Q.
Proof.
  intros Hh HQ. unfold send_pipe_msg. rewrite Hh. assert (with_hooks [] self = self) as Ew by (rewrite <-Hh; by destruct self).
  cbn. rewrite Ew. split; [done|]. intros [] g1 ->. split; [done|]. intros r g1 (_ & Hr & ->).
  rewrite (Hr eq_refl (pipe_total p)). split; [done|]. apply HQ; [|done]. unfold payloads. cbn. by rewrite map_app.
Qed.

Lemma flush_exact own self peer l g (Q : oresult unit -> send_view -> Prop) :
  ps_hooks self = [] -> sn_self g = self ->
  (forall g', payloads g' = payloads g ++ map encode_pipe l -> sn_self g' = self -> Q (Ok tt) g') ->
  ensures (send_eff false) (flush own self peer l) g (fun _ => True) Q.
Proof.
  intros Hh. revert g. induction l as [|p l IH]; intros g Es HQ; cbn [flush].
  { apply ensures_ret; [done|]. apply HQ; [by rewrite app_nil_r | done]. }
  apply ensures_bind, send_exact; [done|]. intros g' Hp Es'. cbn [fst snd plift ptry pbind].
  apply IH; [done|]. intros g2 Hp2 Es2. apply HQ; [|done]. by rewrite Hp2, Hp, <-app_assoc.
Qed.

Lemma sender_exact_ensures own int_addr ms m g :
  sender_exact ms int_addr g -> Z.of_nat (length ms) < 2 ^ 64 - 3 ->
  ensures (send_eff false) (PipeSender_handle_message own (sn_self g) m) g (fun _ => True)
    (fun _ => sender_exact (given_more int_addr ms m) int_addr).
Proof.
  intros [Hi Hx Hh Hs] Hl. unfold PipeSender_handle_message, given_more, given. rewrite Hi. case_decide as Ha.
  - cbn [option_list]. rewrite app_nil_r. unfold PipeSender_handle_internal.
    destruct (InternalCmd_from_transport _) as [cmd|e|]; cbn [plift ptry pbind]; [|by apply ensures_ret|by split].
    destruct (ps_peer (sn_self g)) as [[peer|l]|] eqn:Ep; rewrite ?Hh.
    2,3: destruct Hs as [Hs Hbuf]; destruct cmd; try (apply ensures_ret; [done|]; split; rewrite ?Ep; done);
      apply ensures_bind, ensures_bind, ensures_call; [done|]; intros [] g1 ->; split; [done|];
      apply ensures_ret; [done|]; apply flush_exact; [done..|]; intros g' Hp Es;
      split; rewrite ?Es; try done; cbn; rewrite Hp, <-Hbuf; unfold payloads in *; cbn; by rewrite Hs.
    cbn. split; [done|]. intros [] g1 ->. split; [done|]. split; cbn; rewrite ?Ep; done.
  - cbn [option_list]. unfold PipeSender_handle_external, Monotonic_next. cbv zeta.
    set (t := mkTransportMessage _ (RouteBuilder_drop _ _) _ _).
    change (mkTransportMessage _ (tail _) _ _) with t.
    apply ensures_bind, ensures_bind, ensures_call; [done|]. intros [] g1 ->. split; [done|]. apply ensures_ret; [done|].
    unfold PipeMessage_from_transport. destruct (transport_total t) as [d Ed]. rewrite Ed.
    cbn [ok_or plift ptry pbind ps_peer].
    assert (u64_add (ps_index (sn_self g)) 1 = Z.of_nat (length (ms ++ [t])) + 1) as Hx'.
    { rewrite Hx, u64_succ by lia. rewrite length_app. cbn. lia. }
    pose proof (packed_snoc ms t) as Hpk. rewrite Ed, <-Hx in Hpk. cbn [default] in Hpk.
    destruct (ps_peer (sn_self g)) as [[peer|l]|] eqn:Ep.
    2,3: destruct Hs as [Hs Hbuf]; apply ensures_bind, ensures_bind, ensures_call; [done|]; intros [] g1 ->;
      split; [done|]; apply ensures_ret; [done|]; apply ensures_ret; [done|]; split; cbn; try done;
      rewrite Hpk, Hbuf; done.
    apply ensures_bind, send_exact; [done|]. intros g' Hp Es. apply ensures_ret; [done|].
    split; rewrite ?Es; cbn; try done. rewrite Hp, Hpk. unfold payloads in *. cbn. by rewrite Hs, map_app.
Qed.
End Sender.

(** ** A pipe *)

(** How far the ordering comes: each message counts that arrives right after the
    one before it has been forwarded. *)
Definition chain (c : nat) (ks : list nat) : nat := foldl (fun c k => if (k =? c)%nat then S c else c) c ks.

(** No message overtakes another one; messages may be repeated. *)
Fixpoint steady (c : nat) (ks : list nat) : Prop :=
  match ks with
  | [] => True
  | k :: ks => (k <= c)%nat /\ steady (Nat.max c (S k)) ks
  end.

Definition unpacked (t : TransportMessage) : LocalMessage := mkLocalMessage t [].

Definition next_free (o : ReceiverOrdering) (ks : list nat) : Prop :=
  (NoDup ks /\ forall k, k ∈ ks -> ro_journal o !! (Z.of_nat k + 1) = None) \/
  (ro_journal o = ∅ /\ steady (Z.to_nat (ro_current o)) ks).

(** The receiver has forwarded the first messages, up to its counter. *)
Record recv_exact (ms : list TransportMessage) (int_addr : Address) (c : nat) (ks : list nat) (g : recv_view) : Prop := {
  re_int : pr_int_addr (rc_self g) = int_addr;
  re_forwarded : rc_forwarded g = map unpacked (take c ms);
  re_bound : (c <= length ms)%nat;
  re_ordering : exists o, orders o (pr_hooks (rc_self g)) /\ ro_current o = Z.of_nat c /\ next_free o ks
}.

Lemma next_free_cons o k ks : next_free o (k :: ks) -> k = Z.to_nat (ro_current o) -> 0 <= ro_current o ->
  ro_journal o !! (ro_current o + 1) = None.
Proof.
  intros [[_ H]|[-> _]] -> Hc; [|apply lookup_empty]. specialize (H _ (list_elem_of_here _ _)).
  by rewrite Z2Nat.id in H.
Qed.

(** One message changes the state as [chain] says. *)
Lemma step_exact ms o l p m o' l' k ks c :
  ordering_step o l p m o' l' -> pm_index p = Z.of_nat k + 1 -> numbered ms (pm_index p) m ->
  ro_current o = Z.of_nat c -> next_free o (k :: ks) -> l = map unpacked (take c ms) -> (c <= length ms)%nat ->
  let c' := if (k =? c)%nat then S c else c in
  ro_current o' = Z.of_nat c' /\ next_free o' ks /\ l' = map unpacked (take c' ms) /\ (c' <= length ms)%nat.
Proof.
  intros (Hlow & Hhigh & Hnext) Ei (_ & t & Ht & ->) Hc Hfree -> Hcm. rewrite Ei in *.
  replace (Z.to_nat _) with k in Ht by lia.
  assert (Hnd : forall j, (j = ro_journal o \/ exists q, j = <[Z.of_nat k + 1 := q]> (ro_journal o)) ->
    NoDup (k :: ks) -> (forall k', k' ∈ k :: ks -> ro_journal o !! (Z.of_nat k' + 1) = None) ->
    NoDup ks /\ forall k', k' ∈ ks -> j !! (Z.of_nat k' + 1) = None).
  { intros j Hj Hn Hf. apply list.NoDup_cons in Hn as [Hk Hn]. split; [done|]. intros k' Hk'.
    assert (ro_journal o !! (Z.of_nat k' + 1) = None) as H by (apply Hf; by right).
    destruct Hj as [->|[q ->]]; [done|]. rewrite lookup_insert_ne; [done|].
    intros Heq. assert (k' = k) as -> by lia. done. }
  destruct (Nat.eqb_spec k c) as [->|Hne].
  - destruct Hnext as [-> ->]; [lia| |].
    { rewrite <-Hc. eapply next_free_cons; [exact Hfree | lia..]. }
    pose proof (lookup_lt_Some _ _ _ Ht). cbn [ro_current]. split_and!; [lia| | |lia].
    + destruct Hfree as [[Hn Hf]|[Hj Hs]]; [left | right].
      * cbn [ro_journal]. apply Hnd; auto.
      * split; [done|]. cbn [ro_current ro_journal] in *. destruct Hs as [_ Hs].
        rewrite Hc, Nat2Z.id in Hs. replace (Z.to_nat _) with (S c) by lia.
        by rewrite Nat.max_r in Hs by lia.
    + by rewrite (take_S_r _ _ _ Ht), map_app.
  - destruct (decide (Z.of_nat k + 1 <= ro_current o)) as [Hlt|Hgt].
    + destruct Hlow as [-> ->]; [done|]. split_and!; [done| |done..].
      destruct Hfree as [[Hn Hf]|[Hj Hs]]; [left; apply Hnd; auto | right]. split; [done|].
      destruct Hs as [_ Hs]. by rewrite Nat.max_l in Hs by lia.
    + destruct Hhigh as [-> ->]; [lia|]. cbn [ro_current]. split_and!; [done| |done..].
      destruct Hfree as [[Hn Hf]|[Hj [Hs _]]]; [left|lia]. cbn [ro_journal]. apply Hnd; eauto.
Qed.

Definition index_of (k : nat) : Z := Z.of_nat k + 1.

Section Pipe.
Context {TL : TransportCodecLaws} {PL : PipeCodecLaws}.

Lemma recv_exact_step ms own int_addr n k c ks g :
  (forall cmd, is_Some (encode_cmd cmd)) -> Forall (fun t => onward_route t <> []) ms ->
  Z.of_nat (length ms) < 2 ^ 64 - 3 -> brings ms int_addr n (index_of <$> k) ->
  recv_exact ms int_addr c (option_list k ++ ks) g ->
  ensures (recv_eff false) (PipeReceiver_handle_message own (rc_self g) n) g (fun _ => True)
    (fun _ g' => recv_exact ms int_addr (chain c (option_list k)) ks g').
Proof.
  intros Hcmd Hne Hlen Hb [Hint Hf Hc (o & Ho & Hcur & Hfree)].
  set (P o' l := match k with
                 | None => o' = o /\ l = rc_forwarded g
                 | Some k => exists p m, pm_index p = index_of k /\ numbered ms (index_of k) m /\
                     ordering_step o (rc_forwarded g) p m o' l
                 end).
  apply (recv_handle_ensures false ms own int_addr n (index_of <$> k) o g _ _ P); [done|done|done|done|done| | |].
  - intros [Hk|Hk]; [|by destruct (Hk eq_refl Hcmd)].
    destruct k; [discriminate | by split].
  - intros p g1 Hk (Hlt & m & Hu & Hn) [Hs1 Hf1]. destruct k as [k|]; [|done]. injection Hk as Hk.
    assert (nonempty m) as Hm.
    { destruct Hn as (_ & t & Ht & ->). rewrite list.Forall_forall in Hne. eapply Hne, list_elem_of_lookup_2, Ht. }
    rewrite <-Hs1. eapply ensures_weaken; [| |apply (ordering_exact own p o g1 m); [lia | done..]].
    { intros g' H. split; [exact H | done]. }
    intros x g' (Hs' & Hstep & Hx). split_and!; [done| |done]. exists p, m. rewrite Hf1 in Hstep.
    rewrite Hk. done.
  - intros g' o' Hint' Ho' HP. destruct k as [k|]; cbn [option_list chain foldl app] in *.
    + destruct HP as (p & m & Hi & Hn & Hstep). rewrite <-Hi in Hn.
      destruct (step_exact ms o _ p m o' _ k ks c Hstep Hi Hn Hcur Hfree Hf Hc) as (H1 & H2 & H3 & H4).
      split; [done..|]. by exists o'.
    + destruct HP as [-> HP]. split; [done | by rewrite HP | done|]. by exists o.
Qed.

Lemma recv_run_exact ms own int_addr l c g g' :
  (forall cmd, is_Some (encode_cmd cmd)) -> Forall (fun t => onward_route t <> []) ms ->
  Z.of_nat (length ms) < 2 ^ 64 - 3 -> Forall (fun p => brings ms int_addr p.1 (index_of <$> p.2)) l ->
  recv_exact ms int_addr c (omap snd l) g ->
  completes (recv_eff false) (fun p g => PipeReceiver_handle_message own (rc_self g) p.1) l g g' ->
  rc_forwarded g' = map unpacked (take (chain c (omap snd l)) ms).
Proof.
  intros Hcmd Hne Hlen Hb Hx Hcomp. revert c Hx.
  induction Hcomp as [g|[n k] a l g g1 g2 He _ IH]; intros c Hx; [by apply Hx|].
  inversion Hb as [|? ? Hn Hb']; subst. cbn [fst snd] in *.
  assert (omap snd ((n, k) :: l) = option_list k ++ omap snd l) as E by by destruct k.
  rewrite E in *. destruct (ensures_sound _ _ _ _ _ _ _ He (recv_exact_step ms own int_addr n k c _ g Hcmd Hne Hlen Hn Hx))
    as [_ H1].
  rewrite (IH Hb' _ (H1 a eq_refl)). f_equal. f_equal. unfold chain. by rewrite foldl_app.
Qed.

(** What arrives of what was sent: [None] for a message to the internal address. *)
Definition delivered (sent : list sent_message) (int_addr : Address) (n : Routed unit) (k : option nat) : Prop :=
  match k with
  | None => msg_addr n = int_addr
  | Some k => msg_addr n <> int_addr /\
      exists x, sent !! k = Some x /\ x.1.2 = Some (payload (transport_message (local_msg n)))
  end.

Definition fresh_sender (self : PipeSender) : Prop :=
  ps_index self = 1 /\ ps_out_buf self = [] /\ Forall (fun h => h = HSenderConfirm ∅) (ps_hooks self).

Definition fresh_receiver (self : PipeReceiver) : Prop := orders ReceiverOrdering_new (pr_hooks self).

Lemma fresh_sender_ok self : fresh_sender self -> sender_ok [] (ps_int_addr self) (mkSendView self []).
Proof.
  intros (Hx & Hb & Hh). split; cbn; [done..|by rewrite Hb| |constructor].
  eapply list.Forall_impl; [exact Hh|]. intros h ->. exists ∅. split; [done|]. by intros i p Hi%lookup_empty_Some.
Qed.

Lemma fresh_ordering_ok ms : ordering_ok ms ReceiverOrdering_new [].
Proof.
  split; cbn; [lia| |].
  - by intros i p Hi%lookup_empty_Some.
  - exists []. by repeat constructor.
Qed.

(** All messages that are given to the sender. *)
Definition all_given (int_addr : Address) (msgs : list (Routed unit)) : list TransportMessage :=
  omap (given int_addr) msgs.

Lemma given_more_all int_addr msgs m :
  given_more int_addr (all_given int_addr msgs) m = all_given int_addr (msgs ++ [m]).
Proof.
  unfold given_more, all_given. rewrite omap_app. cbn. by destruct (given int_addr m).
Qed.

Lemma all_given_length int_addr msgs : (length (all_given int_addr msgs) <= length msgs)%nat.
Proof. induction msgs as [|m msgs IH]; cbn; [done|]. destruct (given int_addr m); cbn; unfold all_given in IH; lia. Qed.

(** Everything that a sender sends is a pipe message of its. *)
Lemma session_sends lossy own self msgs g :
  fresh_sender self -> Z.of_nat (length msgs) < 2 ^ 64 - 3 ->
  session (send_eff lossy) (fun m g => PipeSender_handle_message own (sn_self g) m) msgs (mkSendView self []) g ->
  sent_ok (all_given (ps_int_addr self) msgs) g.
Proof.
  intros Hf Hl Hs. set (a := ps_int_addr self).
  apply (session_sound_all _ _ (fun ms g => sender_ok (all_given a ms) a g) (fun ms g => sent_ok (all_given a ms) g)
           msgs) with (done := []) in Hs; [done| | |done|by apply fresh_sender_ok].
  - by intros ms g0 [].
  - intros ms m rest g0 E Hok. rewrite <-given_more_all. apply sender_handle_ensures; [done|].
    pose proof (all_given_length a ms). rewrite E, length_app in Hl. cbn in Hl. lia.
Qed.

Lemma fresh_sender_exact self :
  fresh_sender self -> ps_hooks self = [] -> sender_exact [] (ps_int_addr self) (mkSendView self []).
Proof. intros (Hx & Hb & _) Hh. split; cbn; [done..|]. destruct (ps_peer self) as [[|]|]; done. Qed.

Lemma completes_sends own self msgs g :
  (forall p, is_Some (encode_pipe p)) -> (forall t, is_Some (encode_transport t)) ->
  fresh_sender self -> ps_hooks self = [] -> Z.of_nat (length msgs) < 2 ^ 64 - 3 ->
  completes (send_eff false) (fun m g => PipeSender_handle_message own (sn_self g) m) msgs (mkSendView self []) g ->
  sender_exact (all_given (ps_int_addr self) msgs) (ps_int_addr self) g.
Proof.
  intros Hp Ht Hf Hh Hl Hs. set (a := ps_int_addr self).
  apply (completes_sound_all _ _ (fun ms g => sender_exact (all_given a ms) a g) (fun _ _ => True)
           msgs) with (done := []) in Hs; [done| |done|by apply fresh_sender_exact].
  intros ms m rest g0 E Hok. rewrite <-given_more_all. apply sender_exact_ensures; [done..|].
  pose proof (all_given_length a ms). rewrite E, length_app in Hl. cbn in Hl. lia.
Qed.

(** What arrives brings the messages of the sender. *)
Lemma delivered_brings ms sent int_addr n k :
  Forall (is_pipe_message ms) sent -> delivered sent int_addr n k -> exists j, brings ms int_addr n j.
Proof.
  intros Hs. destruct k as [k|]; [|by exists None]. intros (Hne & x & Hk & Hp).
  rewrite list.Forall_forall in Hs. destruct (Hs x) as (p & e & H1 & H2 & H3); [by eapply list_elem_of_lookup_2|].
  exists (Some (pm_index p)). split; [done|]. exists p. split; [|done]. apply pipe_roundtrip. congruence.
Qed.

Lemma packed_lookup ms k p :
  packed ms !! k = Some p -> pm_index p = index_of k /\ exists t, ms !! k = Some t /\ pm_data p = default [] (encode_transport t).
Proof.
  unfold packed. rewrite list_lookup_imap. destruct (ms !! k) as [t|]; [|done]. intros [= <-]. by eauto.
Qed.

Lemma delivered_exact ms g int_addr send_addr n k :
  (forall t, is_Some (encode_transport t)) -> Z.of_nat (length ms) < 2 ^ 64 - 3 ->
  sender_exact ms send_addr g -> delivered (sn_sent g) int_addr n k -> brings ms int_addr n (index_of <$> k).
Proof.
  intros Ht Hl [_ _ _ Hs]. destruct k as [k|]; [|done]. intros (Hne & x & Hk & Hp). split; [done|].
  assert (payloads g = map encode_pipe (packed ms)) as Hpay.
  { destruct (ps_peer (sn_self g)) as [[|]|]; [done|..]; destruct Hs as [Hs _]; unfold payloads in Hs;
      destruct (sn_sent g); done. }
  assert (map encode_pipe (packed ms) !! k = Some x.1.2) as Hl2.
  { rewrite <-Hpay. etrans; [apply list_lookup_fmap|]. by rewrite Hk. }
  rewrite (list_lookup_fmap encode_pipe (packed ms) k : map encode_pipe (packed ms) !! k = _) in Hl2.
  destruct (packed ms !! k) as [p|] eqn:Ep; [|done]. injection Hl2 as Hl2.
  apply packed_lookup in Ep as (Hi & t & Hk' & Hd). destruct (Ht t) as [d Ed]. rewrite Ed in Hd. cbn in Hd.
  pose proof (lookup_lt_Some _ _ _ Hk') as Hlt. exists p. split_and!; [|done|].
  - apply pipe_roundtrip. congruence.
  - split; [unfold index_of in Hi; lia|]. exists (mkLocalMessage t []). split.
    + unfold unpack_pipe_message, PipeMessage_to_transport. by rewrite Hd, (transport_roundtrip _ _ Ed).
    + rewrite Hi. split; [unfold index_of; lia|]. exists t. split; [|done].
      by replace (Z.to_nat (index_of k - 1)) with k by (unfold index_of; lia).
Qed.

(** Whatever arrives, a session of the receiver keeps the order. *)
Lemma session_in_order lossy ms own self ns js g :
  fresh_receiver self -> Forall2 (brings ms (pr_int_addr self)) ns js ->
  session (recv_eff lossy) (fun n g => PipeReceiver_handle_message own (rc_self g) n) ns (mkRecvView self [] []) g ->
  forwarded_in_order ms (rc_forwarded g).
Proof.
  intros Hf Hb Hs. set (a := pr_int_addr self) in *.
  apply (session_sound_for _ _ (fun n => exists j, brings ms a n j)
    (fun _ g => pr_int_addr (rc_self g) = a /\ exists o, orders o (pr_hooks (rc_self g)) /\ ordering_ok ms o (rc_forwarded g))
    (fun _ g => forwarded_in_order ms (rc_forwarded g))) with (done := []) in Hs; [done|..].
  - intros _ g0 (_ & o & _ & Ho). by eapply ordering_in_order.
  - intros _ n g0 [j Hj] (Hi & o & Ho & Hok).
    apply (recv_handle_ensures lossy ms own a n j o g0 _ _ (ordering_ok ms)); try done.
    + intros g1 g2 H1 E. by rewrite E.
    + by eapply ordering_in_order.
    + intros p g1 _ Hm [Hs1 Hf1]. rewrite <-Hs1. apply ordering_ensures; [by rewrite Hf1 | done].
    + intros g' o' H1 H2 H3. split; [done|]. by exists o'.
  - eapply list.Forall2_Forall_l; [exact Hb|]. apply list.Forall_forall. eauto.
  - split; [done|]. exists ReceiverOrdering_new. split; [done | apply fresh_ordering_ok].
Qed.

Lemma zip_tags {X Y} (R : X -> option Y -> Prop) ns ks :
  Forall2 R ns ks -> ns = map fst (zip ns ks) /\ omap snd (zip ns ks) = omap id ks.
Proof.
  induction 1 as [|n k ns ks _ _ [IH1 IH2]]; [done|]. cbn. split; [by f_equal|].
  change (omap snd (zip_with pair ns ks)) with (omap snd (zip ns ks)). by rewrite IH2.
Qed.

Lemma pipe_exact own own' sender receiver msgs gs ns ks gr :
  let ms := all_given (ps_int_addr sender) msgs in
  fresh_sender sender -> fresh_receiver receiver -> Z.of_nat (length msgs) < 2 ^ 64 - 3 -> ps_hooks sender = [] ->
  (forall p, is_Some (encode_pipe p)) -> (forall t, is_Some (encode_transport t)) ->
  (forall cmd, is_Some (encode_cmd cmd)) -> Forall (fun t => onward_route t <> []) ms ->
  completes (send_eff false) (fun m g => PipeSender_handle_message own (sn_self g) m) msgs (mkSendView sender []) gs ->
  Forall2 (delivered (sn_sent gs) (pr_int_addr receiver)) ns ks -> NoDup (omap id ks) \/ steady 0 (omap id ks) ->
  completes (recv_eff false) (fun n g => PipeReceiver_handle_message own' (rc_self g) n) ns (mkRecvView receiver [] []) gr ->
  rc_forwarded gr = map unpacked (take (chain 0 (omap id ks)) ms).
Proof.
  intros ms Hs Hr Hl Hh Hp Ht Hc Hne Hsend Hd Hks Hrecv.
  pose proof (completes_sends own sender msgs gs Hp Ht Hs Hh Hl Hsend) as Hx. fold ms in Hx.
  assert (Z.of_nat (length ms) < 2 ^ 64 - 3) as Hlm by (pose proof (all_given_length (ps_int_addr sender) msgs); unfold ms; lia).
  assert (ns = map fst (zip ns ks) /\ omap snd (zip ns ks) = omap id ks) as [En Ek] by by eapply zip_tags.
  rewrite En in Hrecv. apply completes_map in Hrecv. rewrite <-Ek.
  eapply (recv_run_exact ms own' (pr_int_addr receiver)); [done..| | |exact Hrecv].
  - clear -Hd Hx Ht Hlm TL PL. induction Hd as [|n k ns ks Hd _ IH]; constructor; [|done]. by eapply delivered_exact.
  - split; [done..|lia|]. exists ReceiverOrdering_new. split_and!; [done..|]. rewrite Ek.
    destruct Hks as [Hks|Hks]; [left | right; by split]. split; [done|]. intros k _. apply lookup_empty.
Qed.

Lemma chain_steady ks c : steady c ks -> chain c ks = Nat.max c (list_max (map S ks)).
Proof.
  revert c. induction ks as [|k ks IH]; intros c; cbn [steady chain foldl map list_max fold_right]; [lia|].
  intros [Hk Hs]. change (foldl _ _ ks) with (chain (if (k =? c)%nat then S c else c) ks).
  assert ((if (k =? c)%nat then S c else c) = Nat.max c (S k)) as -> by (destruct (Nat.eqb_spec k c); lia).
  rewrite IH by done. unfold list_max. lia.
Qed.

Lemma chain_le ks c : (c <= chain c ks)%nat.
Proof.
  revert c. induction ks as [|k ks IH]; intros c; [done|]. unfold chain. cbn [foldl].
  change (foldl _ ?x ks) with (chain x ks). etrans; [|apply IH]. destruct (k =? c)%nat; lia.
Qed.

(** The counter does not pass what does not arrive. *)
Lemma chain_stops ks c k : (c <= k)%nat -> k ∉ ks -> (chain c ks <= k)%nat.
Proof.
  revert c. induction ks as [|k' ks IH]; intros c Hc Hk; [done|]. apply not_elem_of_cons in Hk as [Hne Hk].
  unfold chain. cbn [foldl]. change (foldl _ ?x ks) with (chain x ks). apply IH; [|done].
  destruct (Nat.eqb_spec k' c); lia.
Qed.

Lemma chain_app ks1 ks2 c : chain c (ks1 ++ ks2) = chain (chain c ks1) ks2.
Proof. apply foldl_app. Qed.

Lemma chain_overtaken ks1 ks2 k :
  NoDup (ks1 ++ S k :: ks2) -> k ∉ ks1 -> (chain 0 (ks1 ++ S k :: ks2) <= S k)%nat.
Proof.
  intros Hn Hk. rewrite chain_app. pose proof (chain_stops ks1 0 k ltac:(lia) Hk) as H1.
  unfold chain at 1. cbn [foldl]. change (foldl _ ?x ks2) with (chain x ks2).
  assert ((S k =? chain 0 ks1)%nat = false) as -> by (apply Nat.eqb_neq; lia).
  apply chain_stops; [lia|]. apply list.NoDup_app in Hn as (_ & _ & Hn). by apply list.NoDup_cons in Hn as [? _].
Qed.

(** C28: an ordered pipe keeps the order.  A sender is given the messages [msgs],
    some of which may be internal commands; the receiver handles what arrives of
    what was sent, in any order, repeated or lost.  Whatever fails or is cut,
    what is forwarded are messages that were given to the sender, in the order in
    which they were given.  If nothing fails and no message overtakes another
    one, everything up to the last message that arrives is forwarded, once. *)
Theorem ordered_pipe_keeps_order (own own' : Address) (sender : PipeSender) (receiver : PipeReceiver)
    (msgs : list (Routed unit)) (gs : send_view) (ns : list (Routed unit)) (ks : list (option nat)) (gr : recv_view) :
  let ms := all_given (ps_int_addr sender) msgs in
  let sending m g := PipeSender_handle_message own (sn_self g) m in
  let receiving n g := PipeReceiver_handle_message own' (rc_self g) n in
  fresh_sender sender -> fresh_receiver receiver -> Z.of_nat (length msgs) < 2 ^ 64 - 3 ->
  Forall2 (delivered (sn_sent gs) (pr_int_addr receiver)) ns ks ->
  (forall lossy, session (send_eff lossy) sending msgs (mkSendView sender []) gs ->
     session (recv_eff lossy) receiving ns (mkRecvView receiver [] []) gr ->
     forwarded_in_order ms (rc_forwarded gr)) /\
  (ps_hooks sender = [] -> (forall p, is_Some (encode_pipe p)) -> (forall t, is_Some (encode_transport t)) ->
   (forall cmd, is_Some (encode_cmd cmd)) -> Forall (fun t => onward_route t <> []) ms -> steady 0 (omap id ks) ->
   completes (send_eff false) sending msgs (mkSendView sender []) gs ->
   completes (recv_eff false) receiving ns (mkRecvView receiver [] []) gr ->
   rc_forwarded gr = map unpacked (take (list_max (map S (omap id ks))) ms)).
Proof.
  intros ms sending receiving Hs Hr Hl Hd. split.
  - intros lossy Hsend Hrecv. pose proof (session_sends lossy own sender msgs gs Hs Hl Hsend) as Hok.
    assert (exists js, Forall2 (brings ms (pr_int_addr receiver)) ns js) as [js Hjs].
    { clear -Hd Hok PL. induction Hd as [|n k ns ks Hd _ [js IH]]; [by exists []|].
      destruct (delivered_brings _ _ _ _ _ Hok Hd) as [j Hj]. exists (j :: js). by constructor. }
    by eapply session_in_order.
  - intros Hh Hp Ht Hc Hne Hst Hsend Hrecv. rewrite (pipe_exact own own' sender receiver msgs gs ns ks gr); auto.
    rewrite chain_steady by done. done.
Qed.

(** A message that overtakes another one stops an ordered pipe.  If no
    message arrives twice and message [S k] arrives before message [k], then
    nothing after message [k] is ever forwarded, although everything is sent and
    nothing fails: the messages in the journal are never taken out, since the walk
    begins at the message that has just been forwarded. *)
Theorem overtaken_message_stops_pipe (own own' : Address) (sender : PipeSender) (receiver : PipeReceiver)
    (msgs : list (Routed unit)) (gs : send_view) (ns : list (Routed unit)) (ks : list (option nat)) (gr : recv_view)
    (k : nat) (before after : list nat) :
  let ms := all_given (ps_int_addr sender) msgs in
  fresh_sender sender -> fresh_receiver receiver -> Z.of_nat (length msgs) < 2 ^ 64 - 3 -> ps_hooks sender = [] ->
  (forall p, is_Some (encode_pipe p)) -> (forall t, is_Some (encode_transport t)) ->
  (forall cmd, is_Some (encode_cmd cmd)) -> Forall (fun t => onward_route t <> []) ms ->
  completes (send_eff false) (fun m g => PipeSender_handle_message own (sn_self g) m) msgs (mkSendView sender []) gs ->
  Forall2 (delivered (sn_sent gs) (pr_int_addr receiver)) ns ks ->
  omap id ks = before ++ S k :: after -> NoDup (omap id ks) -> k ∉ before ->
  completes (recv_eff false) (fun n g => PipeReceiver_handle_message own' (rc_self g) n) ns (mkRecvView receiver [] []) gr ->
  rc_forwarded gr `prefix_of` map unpacked (take (S k) ms).
Proof.
  intros ms Hs Hr Hl Hh Hp Ht Hc Hne Hsend Hd Eks Hn Hk Hrecv.
  rewrite (pipe_exact own own' sender receiver msgs gs ns ks gr); auto. fold ms.
  rewrite Eks in *. pose proof (chain_overtaken before after k Hn Hk) as Hle.
  exists (map unpacked (take (S k - chain 0 (before ++ S k :: after)) (drop (chain 0 (before ++ S k :: after)) ms))).
  rewrite <-map_app. f_equal. rewrite <-(take_drop (chain 0 (before ++ S k :: after)) (take (S k) ms)).
  rewrite take_take, Nat.min_l by done. f_equal. by rewrite skipn_firstn_comm.
Qed.

(** *** A message without a route *)

Definition stuck_at (ms : list TransportMessage) (k : nat) (ks : list nat) (o : ReceiverOrdering)
    (l : list LocalMessage) : Prop :=
  exists c, ro_current o = Z.of_nat c /\ (c <= k)%nat /\ l = map unpacked (take c ms) /\
    (c = k \/ ro_journal o = ∅ /\ steady c ks).

Lemma stuck_step ms o l p t o' l' j k ks :
  ordering_step o l p (mkLocalMessage t []) o' l' -> pm_index p = index_of j -> ms !! j = Some t ->
  ~ (j = k /\ ro_current o = Z.of_nat k) -> stuck_at ms k (j :: ks) o l -> stuck_at ms k ks o' l'.
Proof.
  intros (Hlow & Hhigh & Hnext) Ei Ht Hjk (c & Hcur & Hck & -> & Hor). rewrite Ei, Hcur in *. unfold index_of in *.
  destruct (Nat.lt_trichotomy j c) as [Hlt|[->|Hgt]].
  - destruct Hlow as [-> ->]; [lia|]. exists c. split_and!; [done..|].
    destruct Hor as [?|[? [_ Hst]]]; [by left|]. right. by rewrite Nat.max_l in Hst by lia.
  - destruct Hor as [->|[HJ [_ Hst]]]; [by destruct Hjk|]. destruct Hnext as [-> ->]; [done|by rewrite HJ|].
    exists (S c). cbn [ro_current ro_journal]. split_and!; [lia| |by rewrite (take_S_r _ _ _ Ht), map_app|].
    + destruct (decide (c = k)) as [->|]; [by destruct Hjk | lia].
    + right. split; [done|]. by rewrite Nat.max_r in Hst by lia.
  - destruct Hhigh as [-> ->]; [lia|]. exists c. split_and!; [done..|].
    destruct Hor as [?|[? [? _]]]; [by left | lia].
Qed.

Section Stuck.
Context (ms : list TransportMessage) (own int_addr : Address) (k : nat) (t : TransportMessage).
Context (cmd_total : forall cmd, is_Some (encode_cmd cmd)) (bounded : Z.of_nat (length ms) < 2 ^ 64 - 3).
Context (at_k : ms !! k = Some t) (no_route : onward_route t = []).
Context (routes : Forall (fun t => onward_route t <> []) (take k ms)).

Lemma ordering_stuck p j ks o g :
  index_of j = pm_index p -> made ms p -> stuck_at ms k (j :: ks) o (rc_forwarded g) ->
  ensures (recv_eff false) (ReceiverOrdering_on_external own p o) g (fun g' => rc_self g' = rc_self g /\ True)
    (fun x g' => rc_self g' = rc_self g /\ stuck_at ms k ks x.2 (rc_forwarded g') /\ x.1 <> Ok PNone).
Proof.
  intros Hj (Hlt & m & Hu & _ & tj & Htj & ->) Hst. pose proof (lookup_lt_Some _ _ _ at_k).
  rewrite <-Hj in Htj. replace (Z.to_nat (index_of j - 1)) with j in Htj by (unfold index_of; lia).
  pose proof Hst as (c & Hcur & Hck & Hf & _).
  destruct (decide (j = k /\ ro_current o = Z.of_nat k)) as [[-> Hk]|Hjk].
  - rewrite at_k in Htj. injection Htj as <-.
    eapply ensures_weaken; [| |apply (ordering_blocked false own p o g (mkLocalMessage t [])); [lia | done..|]].
    + intros g' H'. by split.
    + intros x g' (Hs' & [-> ->] & Hx). split_and!; [done| |done]. exists c. split_and!; [done..|]. left. lia.
    + by rewrite <-Hj, Hk.
  - eapply ensures_weaken; [| |apply (ordering_exact own p o g (mkLocalMessage tj [])); [lia | done|]].
    + intros g' H'. by split.
    + intros x g' (Hs' & Hstep & Hx). split_and!; [done| |done]. by eapply stuck_step.
    + rewrite <-Hj, Hcur. unfold index_of. intros E. assert (j = c) as -> by lia.
      rewrite list.Forall_forall in routes. apply routes. eapply (list_elem_of_lookup_2 _ c).
      rewrite lookup_take_lt; [done|]. destruct (decide (c = k)); [by subst; destruct Hjk | lia].
Qed.

(** The counter has come to the message [k], or nothing has overtaken so far. *)
Definition recv_stuck (ks : list nat) (g : recv_view) : Prop :=
  pr_int_addr (rc_self g) = int_addr /\
  exists o, orders o (pr_hooks (rc_self g)) /\ stuck_at ms k ks o (rc_forwarded g).

Lemma recv_stuck_step n j ks g :
  brings ms int_addr n (index_of <$> j) -> recv_stuck (option_list j ++ ks) g ->
  ensures (recv_eff false) (PipeReceiver_handle_message own (rc_self g) n) g (fun _ => True) (fun _ => recv_stuck ks).
Proof.
  intros Hb (Hint & o & Ho & Hst).
  apply (recv_handle_ensures false ms own int_addr n (index_of <$> j) o g _ _ (stuck_at ms k ks)); try done.
  - intros [Hj|Hj]; [|by destruct (Hj eq_refl cmd_total)]. destruct j; [discriminate | done].
  - intros p g1 Hj Hm [Hs1 Hf1]. destruct j as [j|]; [|done]. injection Hj as Hj. rewrite <-Hs1.
    apply (ordering_stuck p j); [done..|]. by rewrite Hf1.
  - intros g' o' Hint' Ho' H'. split; [done|]. by exists o'.
Qed.

Lemma recv_run_stuck l g g' :
  Forall (fun p => brings ms int_addr p.1 (index_of <$> p.2)) l -> recv_stuck (omap snd l) g ->
  completes (recv_eff false) (fun p g => PipeReceiver_handle_message own (rc_self g) p.1) l g g' -> recv_stuck [] g'.
Proof.
  intros Hb Hx Hcomp. revert Hx. induction Hcomp as [g|[n j] a l g g1 g2 He _ IH]; intros Hx; [done|].
  inversion Hb as [|? ? Hn Hb']; subst. cbn [fst snd] in *. apply IH; [done|].
  assert (omap snd ((n, j) :: l) = option_list j ++ omap snd l) as E by by destruct j. rewrite E in Hx.
  destruct (ensures_sound _ _ _ _ _ _ _ He (recv_stuck_step n j _ g Hn Hx)) as [_ H1]. by apply (H1 a).
Qed.
End Stuck.

(** The number of the message that arrives; [None] for one to the internal address. *)
Definition delivered_number (sent : list sent_message) (int_addr : Address) (n : Routed unit) (j : option nat) : Prop :=
  match j with
  | None => msg_addr n = int_addr
  | Some j => msg_addr n <> int_addr /\
      exists x p, x ∈ sent /\ x.1.2 = Some (payload (transport_message (local_msg n))) /\
        encode_pipe p = x.1.2 /\ pm_index p = index_of j
  end.

Lemma delivered_number_brings ms sent int_addr n j :
  (forall p q b, encode_pipe p = Some b -> encode_pipe q = Some b -> p = q) ->
  Forall (is_pipe_message ms) sent -> delivered_number sent int_addr n j -> brings ms int_addr n (index_of <$> j).
Proof.
  intros Hinj Hs. destruct j as [j|]; [|done]. intros (Hne & x & p & Hx & Hp & Ep & Hi). split; [done|].
  rewrite list.Forall_forall in Hs. destruct (Hs x Hx) as (q & e & H1 & H2 & H3).
  assert (p = q) as -> by (eapply Hinj; [by rewrite Ep | congruence]).
  exists q. split; [|by split]. apply pipe_roundtrip. congruence.
Qed.

Lemma encode_pipe_inj p q b : encode_pipe p = Some b -> encode_pipe q = Some b -> p = q.
Proof. intros Hp%pipe_roundtrip Hq%pipe_roundtrip. congruence. Qed.

(** A message is sent again from the public address of the sender. *)
Lemma resend_from own int_addr g peer on_route i p n g' :
  ps_int_addr (sn_self g) = int_addr -> ps_peer (sn_self g) = Some (Peer peer) ->
  ps_hooks (sn_self g) = [HSenderConfirm on_route] -> on_route !! i = Some p -> is_Some (encode_pipe p) ->
  msg_addr n = int_addr -> decode_cmd (payload (transport_message (local_msg n))) = Some (Resend i) ->
  execs (send_eff false) (PipeSender_handle_message own (sn_self g) n) g (Some (Ok tt)) g' ->
  sn_sent g' = sn_sent g ++ [(peer, encode_pipe p, own)].
Proof.
  intros Hi Hp Hh Hj He Hn Hd Hex.
  assert (ensures (send_eff false) (PipeSender_handle_message own (sn_self g) n) g (fun _ => True)
    (fun r g' => r = Ok tt -> sn_sent g' = sn_sent g ++ [(peer, encode_pipe p, own)])) as Hens.
  2:{ destruct (ensures_sound _ _ _ _ _ _ _ Hex Hens) as [_ H]. by apply (H (Ok tt)). }
  unfold PipeSender_handle_message. rewrite Hi, Hn, decide_True by done.
  unfold PipeSender_handle_internal, InternalCmd_from_transport. rewrite Hd, Hp, Hh.
  cbn -[delayed_event]. rewrite Hj. unfold SenderConfirm_on_external. rewrite Hi. cbn.
  split; [done|]. intros a g1 ->. split; [done|]. intros r g1 ->.
  destruct r as [c|e|]; cbn; [|split; [done|]; intros [] g1 ->; by split|done].
  split; [done|]. intros [] g1 ->. split; [done|]. intros r g1 (_ & Hr & ->). rewrite (Hr eq_refl He). cbn.
  split; [done|]. intros [] g1 ->. by split.
Qed.

(** An acknowledgement that comes to the wrong address stops an ordered
    pipe.  A message that is sent again is sent from the public address of the
    sender, so that the receiver sends its acknowledgement there.  There it is
    taken for a message of the user, and becomes a pipe message without a route;
    the receiver can never forward it, and nothing that is given to the sender
    afterwards is ever forwarded, even if nothing fails and nothing overtakes. *)
Theorem stray_acknowledgement_stops_pipe (own own' : Address) (sender : PipeSender) (receiver : PipeReceiver) :
  (forall g peer on_route i p n g', ps_int_addr (sn_self g) = ps_int_addr sender ->
     ps_peer (sn_self g) = Some (Peer peer) -> ps_hooks (sn_self g) = [HSenderConfirm on_route] ->
     on_route !! i = Some p -> is_Some (encode_pipe p) -> msg_addr n = ps_int_addr sender ->
     decode_cmd (payload (transport_message (local_msg n))) = Some (Resend i) ->
     execs (send_eff false) (PipeSender_handle_message own (sn_self g) n) g (Some (Ok tt)) g' ->
     sn_sent g' = sn_sent g ++ [(peer, encode_pipe p, own)]) /\
  (forall before ack after lossy gs ns js gr,
     fresh_sender sender -> fresh_receiver receiver -> Z.of_nat (length (before ++ ack :: after)) < 2 ^ 64 - 3 ->
     (forall cmd, is_Some (encode_cmd cmd)) ->
     Forall (fun t => onward_route t <> []) (all_given (ps_int_addr sender) before) ->
     own <> ps_int_addr sender -> msg_addr ack = own -> onward_route (transport_message (local_msg ack)) = [own] ->
     session (send_eff lossy) (fun m g => PipeSender_handle_message own (sn_self g) m) (before ++ ack :: after)
       (mkSendView sender []) gs ->
     Forall2 (delivered_number (sn_sent gs) (pr_int_addr receiver)) ns js -> steady 0 (omap id js) ->
     completes (recv_eff false) (fun n g => PipeReceiver_handle_message own' (rc_self g) n) ns
       (mkRecvView receiver [] []) gr ->
     rc_forwarded gr `prefix_of` map unpacked (all_given (ps_int_addr sender) before)).
Proof.
  split; [intros; by eapply resend_from|].
  intros before ack after lossy gs ns js gr Hs Hr Hl Hc Hne Hown Hack Hroute Hsend Hd Hst Hrecv.
  pose proof (session_sends lossy own sender _ gs Hs Hl Hsend) as Hok.
  set (a := ps_int_addr sender) in *. set (ms := all_given a (before ++ ack :: after)) in *.
  assert (exists t, onward_route t = [] /\ ms = all_given a before ++ t :: all_given a after) as (t & Ht & Ems).
  { unfold ms, all_given. rewrite omap_app. cbn. unfold given at 2. rewrite decide_False by congruence.
    eexists. split; [|reflexivity]. cbn. by rewrite Hroute. }
  assert (Z.of_nat (length ms) < 2 ^ 64 - 3) as Hlm by (pose proof (all_given_length a (before ++ ack :: after)); unfold ms; lia).
  assert (ns = map fst (zip ns js) /\ omap snd (zip ns js) = omap id js) as [En Ek] by by eapply zip_tags.
  rewrite En in Hrecv. apply completes_map in Hrecv.
  assert (recv_stuck ms (pr_int_addr receiver) (length (all_given a before)) [] gr) as (_ & o & _ & c & _ & Hc2 & -> & _).
  { eapply (recv_run_stuck ms own' _ _ t); [done|done| |done| | | |exact Hrecv].
    - rewrite Ems. by apply list_lookup_middle.
    - rewrite Ems, take_app_length. done.
    - clear -Hd Hok PL. induction Hd as [|n k ns ks Hd _ IH]; constructor; [|done].
      by eapply delivered_number_brings, Hd; [apply encode_pipe_inj|].
    - split; [done|]. exists ReceiverOrdering_new. split; [done|]. exists 0%nat. split_and!; [done|lia|done|].
      right. by rewrite Ek. }
  rewrite Ems. rewrite take_app_le by done. exists (map unpacked (drop c (all_given a before))).
  by rewrite <-map_app, take_drop.
Qed.
End Pipe.

(** ** Channels *)

(** The worker [w'] is the other end of the channel of [w]. *)
Definition joined (w w' : ChannelWorker) : Prop :=
  cw_peer_addr w = (cw_self_addrs w').2 /\ cw_peer_addr w' = (cw_self_addrs w).2 /\
  (cw_self_addrs w).1 <> (cw_self_addrs w).2 /\ (cw_self_addrs w').1 <> (cw_self_addrs w').2.

(** What becomes of a message to the public address of [w]: its routes there, the
    pipe, which takes its own address off, and its routes at the other end. *)
Definition through_channel (w w' : ChannelWorker) (t : TransportMessage) : TransportMessage :=
  let out := channel_routes w (cw_self_addrs w).1 t in
  let piped := mkTransportMessage (version out) (tail (onward_route out)) (return_route out) (payload out) in
  channel_routes w' (default (cw_tx_addr w) (head (onward_route piped))) piped.

(** Workers that a program starts. *)
Definition start_eff X (c : ocall pipe_worker X) : X -> list pipe_worker -> list pipe_worker -> Prop :=
  match c in ocall _ X return X -> list pipe_worker -> list pipe_worker -> Prop with
  | OCtx c =>
      match c in api _ _ X return X -> list pipe_worker -> list pipe_worker -> Prop with
      | AStartWorker _ _ w => fun _ g g' => g' = g ++ [w]
      | _ => fun _ g g' => g' = g
      end
  | _ => fun _ g g' => g' = g
  end.

(** Channels lead replies back: the listener starts a worker whose addresses are
    joined with those of the worker that asked for it; a message through the
    channel arrives with the rest of its route, and a return route along which a
    reply gets back to the sender. *)
Theorem channel_replies_return (w : ChannelWorker) :
  (forall tx_hooks rx_hooks msg hops tx_int rx_int g r g',
     inner msg = mkChannelCreationHandshake (cw_peer_addr w) (cw_tx_addr w) tx_int (cw_rx_addr w) rx_int ->
     return_route (transport_message (local_msg msg)) = hops ++ [(cw_self_addrs w).2] ->
     (cw_self_addrs w).1 <> (cw_self_addrs w).2 ->
     execs (fun X c x g g' => start_eff X c x g g' /\
              match c in ocall _ X return X -> Prop with
              | ORandomLocal => fun a => a <> cw_peer_addr w
              | _ => fun _ => True
              end x)
       (ChannelListener_handle_message tx_hooks rx_hooks msg) g (Some r) g' ->
     exists w', g' = g ++ [WChannel w'] /\ joined w w') /\
  (forall w' t rest, joined w w' -> onward_route t = (cw_self_addrs w).1 :: rest ->
     through_channel w w' t =
       mkTransportMessage (version t) rest ((cw_self_addrs w').1 :: return_route t) (payload t) /\
     forall t', onward_route t' = return_route (through_channel w w' t) ->
       through_channel w' w t' =
         mkTransportMessage (version t') (return_route t) ((cw_self_addrs w).1 :: return_route t') (payload t')).
Proof.
  assert (forall w1 w2 t rest, joined w1 w2 -> onward_route t = (cw_self_addrs w1).1 :: rest ->
    through_channel w1 w2 t =
      mkTransportMessage (version t) rest ((cw_self_addrs w2).1 :: return_route t) (payload t)) as Hth.
  { intros w1 w2 t rest (Hp & _ & H1 & H2) Hr. unfold through_channel.
    assert (channel_routes w1 (cw_self_addrs w1).1 t = mkTransportMessage (version t)
      (cw_tx_addr w1 :: cw_peer_addr w1 :: rest) (return_route t) (payload t)) as ->.
    { unfold channel_routes. rewrite decide_True by done. by rewrite Hr. }
    cbn. unfold channel_routes. rewrite decide_False, decide_True by congruence. done. }
  split.
  - intros tx rx msg hops tx_int rx_int g r g' Hi Hr Hne Hex.
    apply (ensures_sound _ _ _ _ _ (fun _ => True) (fun _ g' => exists w', g' = g ++ [WChannel w'] /\ joined w w')) in Hex
      as [_ H]; [by apply (H r)|].
    unfold ChannelListener_handle_message. rewrite Hr. unfold Route_recipient. rewrite last_snoc. cbn.
    split; [done|]. intros pub g1 [-> Hpub]. split; [done|]. intros tx_addr g1 [-> _]. split; [done|].
    intros rx_addr g1 [-> _]. split; [done|]. intros x g1 [-> _]. split; [done|].
    eexists. split; [reflexivity|]. rewrite Hi. unfold joined. cbn. split_and!; done.
  - intros w' t rest Hj Hr. split; [by apply Hth|]. intros t' Ht'. rewrite (Hth w w' t rest Hj Hr) in Ht'.
    cbn in Ht'. apply Hth; [|done]. destruct Hj as (? & ? & ? & ?). by split_and!.
Qed.
End Spec.
