(* ===== verification/Pipe2.v ===== *)
(** * Worker systems and pipes made of them (ockam/src/{metadata.rs, system, pipe2})

    A worker system is a worker with several addresses, each with a handler; a
    handler sends what it has handled to the next one.  The pipes of [pipe2] are
    such systems: ordering and delivery on the side of the sender and on that of
    the receiver, built by [PipeBuilder]. *)

From Stdlib Require Import ZArith Lia.
From Stdlib Require Strings.Byte Strings.String.
From stdpp Require Import base gmap list numbers option countable.
From S2P Require Import Prelude RustStr Routing AccessControl FlowControl Router Node Pipes.

(** ** metadata.rs *)

Notation Metadata := (gmap bytes bytes).

Record OckamMessage := mkOckamMessage {
  om_data : bytes;
  om_scope : list bytes;
  om_generic : option Metadata
}.

(** Encodings of this crate's messages; the number of a message is one too. *)
Class SystemCodec := {
  encode_ockam : OckamMessage -> option bytes;
  decode_ockam : bytes -> option OckamMessage;
  encode_address : Address -> option bytes;
  decode_address : bytes -> option Address;
  encode_route : Route -> option bytes;
  decode_route : bytes -> option Route;
  encode_index : Z -> option bytes;
  decode_index : bytes -> option Z
}.

Section Systems.
Context {TC : TransportCodec} {SC : SystemCodec}.

Definition bare {X} (o : option X) : oresult X := ok_or o BareError.

(** [OckamMessage::new]; the encoding of [Any] is empty. *)
Definition OckamMessage_new (encoded : option bytes) : oresult OckamMessage :=
  let? data := bare encoded in
  Ok (mkOckamMessage data [] None).

Definition any_encoded : option bytes := Some [].

Definition OckamMessage_from_any {M} (msg : Routed M) : oresult OckamMessage :=
  bare (decode_ockam (payload (transport_message (local_msg msg)))).

Definition OckamMessage_wrap (prev : OckamMessage) : oresult OckamMessage :=
  let? data := bare (encode_ockam (mkOckamMessage (om_data prev) (om_scope prev) None)) in
  Ok (mkOckamMessage data [] (om_generic prev)).

Definition OckamMessage_into_routed (self : OckamMessage) (msg_addr src_addr : Address)
    (onward_route return_route : Route) : oresult (Routed OckamMessage) :=
  let? p := bare (encode_ockam self) in
  Ok (mkRouted self msg_addr src_addr (mkLocalMessage (TransportMessage_v1 onward_route return_route p) [])).

Definition scope_data (meta : bytes) (self : OckamMessage) : OckamMessage :=
  mkOckamMessage (om_data self) (om_scope self ++ [meta]) (om_generic self).

Definition generic_data (key val : bytes) (self : OckamMessage) : OckamMessage :=
  mkOckamMessage (om_data self) (om_scope self) (Some (<[key := val]> (default ∅ (om_generic self)))).

Definition OckamMessage_peel (self : OckamMessage) : oresult OckamMessage :=
  let? peeled := bare (decode_ockam (om_data self)) in
  Ok (mkOckamMessage (om_data peeled) (om_scope peeled) (om_generic self)).

(** [self.data::<TransportMessage>()] *)
Definition OckamMessage_transport (self : OckamMessage) : oresult TransportMessage :=
  bare (decode_transport (om_data self)).

(** ** Handlers (system/hooks) *)

Inductive system_handler :=
| SenderConfirm (next : option Address) (journal : gmap Address OckamMessage)
| ReceiverConfirm (next : option Address)
| ReceiverOrdering2 (journal : gmap Z OckamMessage) (current : Z) (next : option Address)
| SenderOrdering (index : Z) (next : option Address).

(** [impl Clone for SenderOrdering] starts again; the others are copied. *)
Definition handler_clone (h : system_handler) : system_handler :=
  match h with
  | SenderOrdering _ _ => SenderOrdering 1 None
  | _ => h
  end.

Notation handler_routes := (gmap bytes Address).

(** [initialize]: the route [default] is taken. *)
Definition handler_initialize (routes : handler_routes) (h : system_handler) : oresult system_handler :=
  let? next := ok_or (routes !! str "default") SystemInvalidConfiguration in
  Ok match h with
     | SenderConfirm _ journal => SenderConfirm (Some next) journal
     | ReceiverConfirm _ => ReceiverConfirm (Some next)
     | ReceiverOrdering2 journal current _ => ReceiverOrdering2 journal current (Some next)
     | SenderOrdering index _ => SenderOrdering index (Some next)
     end.

(** *** system/mod.rs and pipe2: the workers *)

Record WorkerSystem := mkWorkerSystem {
  ws_map : gmap Address system_handler;
  ws_entry : option Address
}.

Record HandlerData := mkHandlerData {
  hd_addr : Address;
  hd_inner : system_handler;
  hd_routes : handler_routes
}.

(** The handlers in the order of their names, as in the [BTreeMap]. *)
Record SystemBuilder := mkSystemBuilder {
  sb_inner : list (bytes * HandlerData);
  sb_entry : option Address
}.

Inductive PeerRoute2 :=
| Peer2 (p : Route)
| Listener2 (l : Route) (addr : Address).

Record PipeSender2 := mkPipeSender2 {
  ps2_system : WorkerSystem;
  ps2_out_buf : list OckamMessage;
  ps2_peer : option PeerRoute2;
  ps2_api_addr : Address;
  ps2_fin_addr : Address
}.

Record PipeReceiver2 := mkPipeReceiver2 {
  pr2_system : WorkerSystem;
  pr2_fin_addr : Address;
  pr2_init_addr : option Address
}.

Inductive system_worker :=
| WSender2 (w : PipeSender2)
| WReceiver2 (w : PipeReceiver2)
| WListener2 (system : SystemBuilder).

Notation sprog A := (oprog system_worker A).

(** *** hooks/delivery.rs *)

Definition PIPE_TYPE : bytes := str "ockam.pipe.type".
Definition PIPE_ACK : bytes := str "ockam.pipe.ack".
Definition PIPE_ACK_ID : bytes := str "ockam.pipe.ack_id".
Definition RESEND_NOTIFY : bytes := str "ockam.pipe.resend_notify".

(** The event that checks whether a message has been acknowledged. *)
Definition notification : oresult OckamMessage :=
  let? m := OckamMessage_new any_encoded in
  Ok (generic_data PIPE_TYPE RESEND_NOTIFY m).

Definition send_ockam (own : Address) (to : Address) (m : OckamMessage) : sprog (oresult unit) :=
  self_send own [to] (encode_ockam m).

(** [data.get("ockam.pipe.type")] *)
Definition message_type (m : OckamMessage) : option bytes := om_generic m ≫= fun d => d !! PIPE_TYPE.

(** [?] in a handler, which has the state [h] then. *)
Definition stry {X} (p : sprog (oresult X)) (h : system_handler)
    (k : X -> sprog (oresult unit * system_handler)) : sprog (oresult unit * system_handler) :=
  do r <- p;
  match r with
  | Ok a => k a
  | Err e => PRet (Err e, h)
  | Panic => PPanic
  end.

Definition SenderConfirm_handle_message (own self_addr : Address) (next : option Address)
    (journal : gmap Address OckamMessage) (msg : OckamMessage) : sprog (oresult unit * system_handler) :=
  let h j := SenderConfirm next j in
  match message_type msg with
  | None =>
      do ack_id <- pcall ORandomLocal;
      stry (plift (OckamMessage_wrap msg)) (h journal) (fun outer_msg =>
      stry (plift (bare (encode_address ack_id))) (h journal) (fun id =>
      stry (plift (bare (encode_address self_addr))) (h journal) (fun addr =>
      let outer_msg := scope_data addr (scope_data id outer_msg) in
      let journal := <[ack_id := outer_msg]> journal in
      stry (plift notification) (h journal) (fun event =>
      stry (delayed_event [self_addr] (encode_ockam event) 5) (h journal) (fun _ =>
      stry (plift (unwrap next)) (h journal) (fun to =>
      do r <- send_ockam own to outer_msg; PRet (r, h journal)))))))
  | Some ty =>
      if negb (bool_decide (is_Some (from_utf8 ty))) then PPanic
      else if bool_decide (ty = PIPE_ACK) then
        match om_scope msg !! 0%nat ≫= decode_address with
        | Some ack_id => PRet (Ok (), h (delete ack_id journal))
        | None => PPanic
        end
      else if bool_decide (ty = RESEND_NOTIFY) then
        match (om_generic msg ≫= fun d => d !! PIPE_ACK_ID) ≫= decode_address with
        | Some ack_id =>
            match journal !! ack_id with
            | Some m =>
                stry (plift (unwrap next)) (h (delete ack_id journal)) (fun to =>
                do r <- send_ockam own to m; PRet (r, h (delete ack_id journal)))
            | None => PRet (Ok (), h journal)
            end
        | None => PPanic
        end
      else PRet (Ok (), h journal)
  end.

Definition addr_from_scope (idx : nat) (scope : list bytes) : oresult Address :=
  let? v := ok_or (scope !! idx) InvalidParameter in
  bare (decode_address v).

Definition ReceiverConfirm_handle_message (own : Address) (next : option Address) (back : Route)
    (inner : OckamMessage) : sprog (oresult unit * system_handler) :=
  let h := ReceiverConfirm next in
  stry (plift (addr_from_scope 0 (om_scope inner))) h (fun ack_id =>
  stry (plift (addr_from_scope 1 (om_scope inner))) h (fun ack_addr =>
  stry (plift (OckamMessage_new any_encoded)) h (fun ack =>
  stry (plift (bare (encode_address ack_id))) h (fun id =>
  let ack := generic_data PIPE_TYPE PIPE_ACK (scope_data id ack) in
  let route := RouteBuilder_into (RouteBuilder_append ack_addr (RouteBuilder_pop_back (Route_modify back))) in
  stry (self_send own route (encode_ockam ack)) h (fun _ =>
  stry (plift (unwrap next)) h (fun to =>
  stry (plift (OckamMessage_peel inner)) h (fun peeled =>
  do r <- send_ockam own to peeled; PRet (r, h)))))))).

(** *** hooks/ordering.rs *)

Definition compare_index2 (current index : Z) : IndexState :=
  let next := u64_add current 1 in
  if (next <? index)%Z then High
  else if (index <? next)%Z then Low
  else Next.

Definition process_journal2 : nat -> list OckamMessage -> Z -> gmap Z OckamMessage ->
    oresult (list OckamMessage) * (Z * gmap Z OckamMessage) := walk_journal Ok.

(** [for msg in send_stack { ctx.send(next_addr.clone(), msg).await?; }] *)
Fixpoint send_stack_all (own to : Address) (l : list OckamMessage) : sprog (oresult unit) :=
  match l with
  | [] => PRet (Ok tt)
  | m :: l => do? _ <- send_ockam own to m; send_stack_all own to l
  end.

Definition ReceiverOrdering_forward2 (own : Address) (journal : gmap Z OckamMessage) (current : Z)
    (next : option Address) (msg : OckamMessage) : sprog (oresult unit * system_handler) :=
  let h := ReceiverOrdering2 journal current next in
  stry (plift (unwrap next)) h (fun next_addr =>
  stry (send_ockam own next_addr msg) h (fun _ =>
  let '(r, (current, journal)) := process_journal2 (size journal) [] current journal in
  let h := ReceiverOrdering2 journal current next in
  stry (plift r) h (fun send_stack =>
  do r <- send_stack_all own next_addr send_stack; PRet (r, h)))).

Definition ReceiverOrdering_handle_message2 (own : Address) (journal : gmap Z OckamMessage) (current : Z)
    (next : option Address) (msg : OckamMessage) : sprog (oresult unit * system_handler) :=
  let h := ReceiverOrdering2 journal current next in
  stry (plift (ok_or (om_scope msg !! 0%nat) InvalidParameter)) h (fun idx =>
  stry (plift (bare (decode_index idx))) h (fun index =>
  stry (plift (OckamMessage_peel msg)) h (fun inner =>
  match compare_index2 current index with
  | Low => PRet (Ok (), h)
  | High => PRet (Ok (), ReceiverOrdering2 (<[index := inner]> journal) current next)
  | Next => ReceiverOrdering_forward2 own journal current next inner
  end))).

Definition SenderOrdering_handle_message (own : Address) (index : Z) (next : option Address)
    (inner_msg : OckamMessage) : sprog (oresult unit * system_handler) :=
  let (i, index) := Monotonic_next index in
  let h := SenderOrdering index next in
  stry (plift (OckamMessage_wrap inner_msg)) h (fun outer_msg =>
  stry (plift (bare (encode_index i))) h (fun idx =>
  stry (plift (unwrap next)) h (fun to =>
  do r <- send_ockam own to (scope_data idx outer_msg); PRet (r, h)))).

(** [SystemHandler::handle_message] *)
Definition handle_with (own self_addr : Address) (msg : Routed OckamMessage) (h : system_handler)
  : sprog (oresult unit * system_handler) :=
  match h with
  | SenderConfirm next journal => SenderConfirm_handle_message own self_addr next journal (inner msg)
  | ReceiverConfirm next =>
      ReceiverConfirm_handle_message own next (return_route (transport_message (local_msg msg))) (inner msg)
  | ReceiverOrdering2 journal current next => ReceiverOrdering_handle_message2 own journal current next (inner msg)
  | SenderOrdering index next => SenderOrdering_handle_message own index next (inner msg)
  end.

(** ** system/mod.rs *)

Definition WorkerSystem_default : WorkerSystem := mkWorkerSystem ∅ None.

Definition WorkerSystem_is_empty (self : WorkerSystem) : bool := bool_decide (ws_map self = ∅).

(** In some order. *)
Definition WorkerSystem_addresses (self : WorkerSystem) : list Address := (map_to_list (ws_map self)).*1.

Definition attach_boxed (addr : Address) (handler : system_handler) (self : WorkerSystem) : WorkerSystem :=
  mkWorkerSystem (<[addr := handler]> (ws_map self)) (ws_entry self).

Definition WorkerSystem_set_entry (addr : Address) (self : WorkerSystem) : WorkerSystem :=
  mkWorkerSystem (ws_map self) (Some addr).

(** The handler at [addr] handles the message. *)
Definition handle_at (own addr : Address) (msg : Routed OckamMessage) (self : WorkerSystem)
  : sprog (oresult unit * WorkerSystem) :=
  match ws_map self !! addr with
  | Some h =>
      do x <- handle_with own addr msg h;
      PRet (x.1, mkWorkerSystem (<[addr := x.2]> (ws_map self)) (ws_entry self))
  | None => PRet (Err SystemAddressNotBound, self)
  end.

Definition dispatch_entry (own : Address) (msg : Routed OckamMessage) (self : WorkerSystem)
  : sprog (oresult unit * WorkerSystem) :=
  match ws_entry self with
  | Some entry => handle_at own entry msg self
  | None => PRet (Err SystemAddressNotBound, self)
  end.

Definition WorkerSystem_handle_message (own : Address) (msg : Routed OckamMessage) (self : WorkerSystem)
  : sprog (oresult unit * WorkerSystem) :=
  handle_at own (msg_addr msg) msg self.

(** ** system/builder.rs *)

(** Insertion into the [BTreeMap]: names are kept in order. *)
Fixpoint insert_handler (id : bytes) (d : HandlerData) (l : list (bytes * HandlerData))
  : list (bytes * HandlerData) :=
  match l with
  | [] => [(id, d)]
  | (id', d') :: l' =>
      match bytes_compare id id' with
      | Lt => (id, d) :: l
      | Eq => (id, d) :: l'
      | Gt => (id', d') :: insert_handler id d l'
      end
  end.

Definition SystemBuilder_new : SystemBuilder := mkSystemBuilder [] None.

(** [add(..)] with its routes, when the [HandlerBuilder] is dropped: without a
    route it panics. *)
Definition SystemBuilder_add (addr : Address) (id : bytes) (handler : system_handler) (routes : handler_routes)
    (self : SystemBuilder) : result unit SystemBuilder :=
  if bool_decide (routes = ∅) then Panic
  else Ok (mkSystemBuilder (insert_handler id (mkHandlerData addr handler routes) (sb_inner self)) (sb_entry self)).

Fixpoint find_handler (id : bytes) (l : list (bytes * HandlerData)) : option HandlerData :=
  match l with
  | [] => None
  | (id', d) :: l => if decide (id = id') then Some d else find_handler id l
  end.

Definition SystemBuilder_get_addr (id : bytes) (self : SystemBuilder) : option Address :=
  hd_addr <$> find_handler id (sb_inner self).

Definition SystemBuilder_set_entry (addr : Address) (self : SystemBuilder) : SystemBuilder :=
  mkSystemBuilder (sb_inner self) (Some addr).

Definition SystemBuilder_clone (self : SystemBuilder) : SystemBuilder :=
  mkSystemBuilder
    (map (fun p => (p.1, mkHandlerData (hd_addr p.2) (handler_clone (hd_inner p.2)) (hd_routes p.2))) (sb_inner self))
    (sb_entry self).

(** The table of new addresses: one is drawn for each handler. *)
Fixpoint new_addresses (l : list (bytes * HandlerData)) : sprog (gmap Address Address) :=
  match l with
  | [] => PRet ∅
  | p :: l =>
      do a <- pcall ORandomLocal;
      do addrs <- new_addresses l;
      PRet (match addrs !! hd_addr p.2 with
            | Some _ => addrs
            | None => <[hd_addr p.2 := a]> addrs
            end)
  end.

Definition readdress_with (addrs : gmap Address Address) (fin_addr : Address) (self : SystemBuilder) : SystemBuilder :=
  let get_addr prev := default fin_addr (addrs !! prev) in
  mkSystemBuilder
    (map (fun p => (p.1, mkHandlerData (get_addr (hd_addr p.2)) (hd_inner p.2) (get_addr <$> hd_routes p.2)))
       (sb_inner self))
    (sb_entry self ≫= fun entry => addrs !! entry).

Definition readdress (fin_addr : Address) (self : SystemBuilder) : sprog SystemBuilder :=
  do addrs <- new_addresses (sb_inner self);
  PRet (readdress_with addrs fin_addr self).

Fixpoint attach_all (l : list (bytes * HandlerData)) (system : WorkerSystem) : oresult WorkerSystem :=
  match l with
  | [] => Ok system
  | p :: l =>
      let? inner := handler_initialize (hd_routes p.2) (hd_inner p.2) in
      attach_all l (attach_boxed (hd_addr p.2) inner system)
  end.

Definition finalise (self : SystemBuilder) : oresult WorkerSystem :=
  let system := match sb_entry self with
                | Some addr => WorkerSystem_set_entry addr WorkerSystem_default
                | None => WorkerSystem_default
                end in
  attach_all (sb_inner self) system.

(** ** pipe2/sender.rs *)

Definition PIPE2_CLUSTER_NAME : bytes := str "_internal.pipe2".

Definition PipeSender2_initialize (self : PipeSender2) : sprog (oresult unit) :=
  do? _ <- in_node (ASetCluster 0 PIPE2_CLUSTER_NAME);
  match ps2_peer self with
  | Some (Listener2 route addr) =>
      do? m <- plift (OckamMessage_new any_encoded);
      in_node (ASend 0 route (encode_ockam m) addr [])
  | _ => PRet (Ok tt)
  end.

Definition store_sender2 (self : PipeSender2) : sprog PipeSender2 :=
  do _ <- pcall (OSetSelf (WSender2 self)); PRet self.

Definition with_system (system : WorkerSystem) (self : PipeSender2) : PipeSender2 :=
  mkPipeSender2 system (ps2_out_buf self) (ps2_peer self) (ps2_api_addr self) (ps2_fin_addr self).

Definition handle_fin_msg (own : Address) (self : PipeSender2) (msg : OckamMessage) : sprog (oresult unit) :=
  match ps2_peer self with
  | Some (Peer2 peer) => self_send own peer (encode_ockam msg)
  | _ =>
      do _ <- store_sender2 (mkPipeSender2 (ps2_system self) (ps2_out_buf self ++ [msg]) (ps2_peer self)
                               (ps2_api_addr self) (ps2_fin_addr self));
      PRet (Ok tt)
  end.

(** The system has changed also when an error comes out. *)
Definition in_system (self : PipeSender2) (p : sprog (oresult unit * WorkerSystem)) : sprog (oresult unit) :=
  do x <- p;
  do _ <- store_sender2 (with_system x.2 self);
  plift x.1.

Definition handle_api_msg (own : Address) (self : PipeSender2) (msg : Routed unit) : sprog (oresult unit) :=
  let t := transport_message (local_msg msg) in
  let inner := mkTransportMessage (version t)
                 (RouteBuilder_drop (RouteBuilder_pop_front (Route_modify (onward_route t))) (onward_route t))
                 (return_route t) (payload t) in
  do? ockam_msg <- plift (OckamMessage_new (encode_transport inner));
  if WorkerSystem_is_empty (ps2_system self) then handle_fin_msg own self ockam_msg
  else
    do? routed <- plift (OckamMessage_into_routed ockam_msg (msg_addr msg) (src_addr msg) (onward_route t) (return_route t));
    in_system self (dispatch_entry own routed (ps2_system self)).

(** [for msg in out_buf { ctx.send(return_route.clone(), msg).await?; }] *)
Fixpoint flush2 (own : Address) (peer : Route) (l : list OckamMessage) : sprog (oresult unit) :=
  match l with
  | [] => PRet (Ok tt)
  | m :: l => do? _ <- self_send own peer (encode_ockam m); flush2 own peer l
  end.

(** [msg.cast()?] *)
Definition cast_ockam (msg : Routed unit) : oresult (Routed OckamMessage) :=
  let? m := OckamMessage_from_any msg in
  Ok (mkRouted m (msg_addr msg) (src_addr msg) (local_msg msg)).

Definition PipeSender2_handle_message (own : Address) (self : PipeSender2) (msg : Routed unit) : sprog (oresult unit) :=
  let others :=
    if decide (msg_addr msg = ps2_api_addr self) then handle_api_msg own self msg
    else if decide (msg_addr msg = ps2_fin_addr self) then
      do? m <- plift (OckamMessage_from_any msg);
      handle_fin_msg own self m
    else
      do? m <- plift (cast_ockam msg);
      in_system self (WorkerSystem_handle_message own m (ps2_system self)) in
  match ps2_peer self with
  | Some (Listener2 _ addr) =>
      if decide (msg_addr msg = addr) then
        let peer := return_route (transport_message (local_msg msg)) in
        do _ <- store_sender2 (mkPipeSender2 (ps2_system self) [] (Some (Peer2 peer)) (ps2_api_addr self)
                                 (ps2_fin_addr self));
        flush2 own peer (ps2_out_buf self)
      else others
  | _ => others
  end.

(** ** pipe2/receiver.rs *)

Definition PipeReceiver2_initialize : sprog (oresult unit) := in_node (ASetCluster 0 PIPE2_CLUSTER_NAME).

(** [ctx.forward(LocalMessage::new(msg.body().data()?, vec![]))] *)
Definition forward_inner (own : Address) (m : OckamMessage) : sprog (oresult unit) :=
  do? inner <- plift (OckamMessage_transport m);
  self_forward own (mkLocalMessage inner []).

Definition in_system_of (self : PipeReceiver2) (p : sprog (oresult unit * WorkerSystem)) : sprog (oresult unit) :=
  do x <- p;
  do _ <- pcall (OSetSelf (WReceiver2 (mkPipeReceiver2 x.2 (pr2_fin_addr self) (pr2_init_addr self))));
  plift x.1.

Definition PipeReceiver2_handle_message (own : Address) (self : PipeReceiver2) (msg : Routed OckamMessage)
  : sprog (oresult unit) :=
  if decide (Some (msg_addr msg) = pr2_init_addr self) then
    do? data <- plift (ok_or (om_scope (inner msg) !! 0%nat) InvalidParameter);
    do? peer_route <- plift (bare (decode_route data));
    do? m <- plift (OckamMessage_new any_encoded);
    self_send own peer_route (encode_ockam m)
  else if decide (msg_addr msg = pr2_fin_addr self) then forward_inner own (inner msg)
  else if WorkerSystem_is_empty (pr2_system self) then forward_inner own (inner msg)
  else if decide (msg_addr msg = own) then in_system_of self (dispatch_entry own msg (pr2_system self))
  else in_system_of self (WorkerSystem_handle_message own msg (pr2_system self)).

(** ** pipe2/listener.rs *)

Definition PipeListener2_handle_message (own : Address) (builder : SystemBuilder) (msg : Routed OckamMessage)
  : sprog (oresult unit) :=
  do init_addr <- pcall ORandomLocal;
  do fin_addr <- pcall ORandomLocal;
  do sys_builder <- readdress fin_addr (SystemBuilder_clone builder);
  do? system <- plift (finalise sys_builder);
  do main <- pcall ORandomLocal;
  do? _ <- in_node (AStartWorker 0
             (allow_all_mailboxes main (init_addr :: fin_addr :: WorkerSystem_addresses system))
             (WReceiver2 (mkPipeReceiver2 system fin_addr (Some init_addr))));
  do? m <- plift (OckamMessage_new any_encoded);
  do? back <- plift (bare (encode_route (return_route (transport_message (local_msg msg)))));
  self_send own [init_addr] (encode_ockam (scope_data back m)).

(** ** pipe2/mod.rs *)

Inductive Mode := Static | Dynamic.

(** Its hooks are a set of [Ordering] and [Delivery]. *)
Record PipeBuilder := mkPipeBuilder {
  pb_ordering : bool;
  pb_delivery : bool;
  pb_mode : Mode;
  pb_peer : option Route;
  pb_recv : option Address;
  pb_tx_fin : Address;
  pb_rx_fin : Address
}.

Record BuilderResult := mkBuilderResult {
  br_tx : option Address;
  br_rx : option Address
}.

Definition PipeBuilder_new (mode : Mode) : sprog PipeBuilder :=
  do tx_fin <- pcall ORandomLocal;
  do rx_fin <- pcall ORandomLocal;
  PRet (mkPipeBuilder false false mode None None tx_fin rx_fin).

Definition default_route (a : Address) : handler_routes := {[str "default" := a]}.

Definition ORDERING : bytes := str "ordering".
Definition DELIVERY : bytes := str "delivery".

(** The systems, given the four addresses. *)
Definition systems_at (self : PipeBuilder) (ord_tx_addr ord_rx_addr ack_tx_addr ack_rx_addr : Address)
  : result unit (SystemBuilder * SystemBuilder) :=
  let? (send_hooks, recv_hooks) :=
    (if pb_ordering self then
       let? s := SystemBuilder_add ord_tx_addr ORDERING (SenderOrdering 1 None)
                   (default_route (if pb_delivery self then ack_tx_addr else pb_tx_fin self)) SystemBuilder_new in
       let? r := SystemBuilder_add ord_rx_addr ORDERING (ReceiverOrdering2 ∅ 0 None)
                   (default_route (pb_rx_fin self)) SystemBuilder_new in
       Ok (s, r)
     else Ok (SystemBuilder_new, SystemBuilder_new)) in
  let? (send_hooks, recv_hooks) :=
    (if pb_delivery self then
       let? s := SystemBuilder_add ack_tx_addr DELIVERY (SenderConfirm None ∅)
                   (default_route (pb_tx_fin self)) send_hooks in
       let? r := SystemBuilder_add ack_rx_addr DELIVERY (ReceiverConfirm None)
                   (default_route (if pb_ordering self then ord_rx_addr else pb_rx_fin self)) recv_hooks in
       Ok (s, r)
     else Ok (send_hooks, recv_hooks)) in
  let send_hooks :=
    match SystemBuilder_get_addr ORDERING send_hooks, SystemBuilder_get_addr DELIVERY send_hooks with
    | Some ord, _ => SystemBuilder_set_entry ord send_hooks
    | None, Some ack => SystemBuilder_set_entry ack send_hooks
    | None, None => send_hooks
    end in
  let recv_hooks :=
    match SystemBuilder_get_addr ORDERING recv_hooks, SystemBuilder_get_addr DELIVERY recv_hooks with
    | _, Some ack => SystemBuilder_set_entry ack recv_hooks
    | Some ord, None => SystemBuilder_set_entry ord recv_hooks
    | None, None => recv_hooks
    end in
  Ok (send_hooks, recv_hooks).

Definition build_systems (self : PipeBuilder) : sprog (SystemBuilder * SystemBuilder) :=
  do ord_tx_addr <- pcall ORandomLocal;
  do ord_rx_addr <- pcall ORandomLocal;
  do ack_tx_addr <- pcall ORandomLocal;
  do ack_rx_addr <- pcall ORandomLocal;
  match systems_at self ord_tx_addr ord_rx_addr ack_tx_addr ack_rx_addr with
  | Ok s => PRet s
  | _ => PPanic
  end.

Definition build_fixed (self : PipeBuilder) (tx_sys rx_sys : SystemBuilder) : sprog (oresult BuilderResult) :=
  do? tx_sys <- plift (finalise tx_sys);
  do? rx_sys <- plift (finalise rx_sys);
  do? tx_addr <- match pb_peer self with
                 | Some peer =>
                     do addr <- pcall ORandomLocal;
                     do? _ <- in_node (AStartWorker 0
                                (allow_all_mailboxes addr (pb_tx_fin self :: WorkerSystem_addresses tx_sys))
                                (WSender2 (mkPipeSender2 tx_sys [] (Some (Peer2 peer)) addr (pb_tx_fin self))));
                     PRet (Ok (Some addr))
                 | None => PRet (Ok None)
                 end;
  do? rx_addr <- match pb_recv self with
                 | Some addr =>
                     do? _ <- in_node (AStartWorker 0
                                (allow_all_mailboxes addr (pb_rx_fin self :: WorkerSystem_addresses rx_sys))
                                (WReceiver2 (mkPipeReceiver2 rx_sys (pb_rx_fin self) None)));
                     PRet (Ok (Some addr))
                 | None => PRet (Ok None)
                 end;
  PRet (Ok (mkBuilderResult tx_addr rx_addr)).

Definition build_dynamic (self : PipeBuilder) (tx_sys rx_sys : SystemBuilder) : sprog (oresult BuilderResult) :=
  do? tx_addr <- match pb_peer self with
                 | Some peer =>
                     do? tx_sys <- plift (finalise tx_sys);
                     do addr <- pcall ORandomLocal;
                     do init_addr <- pcall ORandomLocal;
                     do? _ <- in_node (AStartWorker 0
                                (allow_all_mailboxes addr
                                   (init_addr :: pb_tx_fin self :: WorkerSystem_addresses tx_sys))
                                (WSender2 (mkPipeSender2 tx_sys [] (Some (Listener2 peer init_addr)) addr
                                             (pb_tx_fin self))));
                     PRet (Ok (Some addr))
                 | None => PRet (Ok None)
                 end;
  do? rx_addr <- match pb_recv self with
                 | Some addr =>
                     do? _ <- in_node (AStartWorker 0 (allow_all_mailboxes addr []) (WListener2 rx_sys));
                     PRet (Ok (Some addr))
                 | None => PRet (Ok None)
                 end;
  PRet (Ok (mkBuilderResult tx_addr rx_addr)).

Definition PipeBuilder_build (self : PipeBuilder) : sprog (oresult BuilderResult) :=
  do systems <- build_systems self;
  match pb_mode self with
  | Static => build_fixed self systems.1 systems.2
  | Dynamic => build_dynamic self systems.1 systems.2
  end.
End Systems.
