(* ===== verification/Pipe2Spec.v ===== *)
(** * What pipe systems do

    The systems that [PipeBuilder] makes lead every message through their
    handlers to the end ([pipe_systems_are_wired]), and the layers that a handler
    puts around a message are the ones that the other end takes off
    ([peel_wrap]).  The delivery handler does not work: the event that it
    schedules for every message makes the sender panic
    ([delivery_notification_panics]). *)

From Stdlib Require Import ZArith Lia.
From Stdlib Require Strings.Byte Strings.String.
From stdpp Require Import base gmap list numbers option countable.
From S2P Require Import Prelude RustStr Routing AccessControl FlowControl Router Node Execution Pipes PipeSpec Pipe2.

Class SystemCodecLaws `{SystemCodec} : Prop := {
  ockam_roundtrip : forall m b, encode_ockam m = Some b -> decode_ockam b = Some m;
  address_roundtrip : forall a b, encode_address a = Some b -> decode_address b = Some a;
  index_roundtrip : forall i b, encode_index i = Some b -> decode_index b = Some i
}.

Section Spec.
Context {TC : TransportCodec} {SC : SystemCodec} {SL : SystemCodecLaws}.

(** ** Layers *)

(** Scopes are of one layer, the generic part goes through. *)
Lemma peel_wrap m outer (l : list bytes) :
  OckamMessage_wrap m = Ok outer -> OckamMessage_peel (foldr scope_data outer l) = Ok m.
Proof.
  unfold OckamMessage_wrap, bare. destruct (encode_ockam _) as [b|] eqn:E; [|done]. intros [= <-].
  assert (forall o, om_data (foldr scope_data o l) = om_data o /\ om_generic (foldr scope_data o l) = om_generic o) as H.
  { intros o. induction l as [|x l [IH1 IH2]]; [done|]. by cbn. }
  unfold OckamMessage_peel, bare. destruct (H (mkOckamMessage b [] (om_generic m))) as [-> ->]. cbn.
  rewrite (ockam_roundtrip _ _ E). by destruct m.
Qed.

(** ** Wiring *)

Inductive handler_kind := KSenderOrdering | KSenderConfirm | KReceiverConfirm | KReceiverOrdering.

Definition kind_of (h : system_handler) : handler_kind * option Address :=
  match h with
  | SenderConfirm next _ => (KSenderConfirm, next)
  | ReceiverConfirm next => (KReceiverConfirm, next)
  | ReceiverOrdering2 _ _ next => (KReceiverOrdering, next)
  | SenderOrdering _ next => (KSenderOrdering, next)
  end.

(** The handlers on the way from [a], and where it ends. *)
Fixpoint path (fuel : nat) (a : Address) (system : WorkerSystem) : list handler_kind * option Address :=
  match fuel, ws_map system !! a with
  | S fuel, Some h =>
      match (kind_of h).2 with
      | Some next => let p := path fuel next system in ((kind_of h).1 :: p.1, p.2)
      | None => ([(kind_of h).1], None)
      end
  | _, None => ([], Some a)
  | O, Some _ => ([], None)
  end.

(** From the entry point; an empty system is skipped. *)
Definition system_path (system : WorkerSystem) (fin : Address) : list handler_kind * option Address :=
  match ws_entry system with
  | Some entry => path 3 entry system
  | None => if WorkerSystem_is_empty system then ([], Some fin) else ([], None)
  end.

Definition sender_kinds (b : PipeBuilder) : list handler_kind :=
  (if pb_ordering b then [KSenderOrdering] else []) ++ (if pb_delivery b then [KSenderConfirm] else []).
Definition receiver_kinds (b : PipeBuilder) : list handler_kind :=
  (if pb_delivery b then [KReceiverConfirm] else []) ++ (if pb_ordering b then [KReceiverOrdering] else []).

Lemma path_step n a system h next :
  ws_map system !! a = Some h -> (kind_of h).2 = Some next ->
  path (S n) a system = ((kind_of h).1 :: (path n next system).1, (path n next system).2).
Proof. intros Ha Hn. cbn. by rewrite Ha, Hn. Qed.

Lemma path_end n a system : ws_map system !! a = None -> path n a system = ([], Some a).
Proof. intros Ha. destruct n; cbn; by rewrite Ha. Qed.

Lemma default_route_lookup a : default_route a !! str "default" = Some a.
Proof. apply lookup_singleton_eq. Qed.

Lemma default_route_ne a : default_route a <> ∅.
Proof. unfold default_route. apply insert_non_empty. Qed.

Lemma add_ok addr id h a self :
  SystemBuilder_add addr id h (default_route a) self =
    Ok (mkSystemBuilder (insert_handler id (mkHandlerData addr h (default_route a)) (sb_inner self)) (sb_entry self)).
Proof. unfold SystemBuilder_add. rewrite bool_decide_eq_false_2; [done | apply default_route_ne]. Qed.

Lemma names_compare : bytes_compare DELIVERY ORDERING = Lt.
Proof. reflexivity. Qed.

Lemma systems_at_eq b ot rt at_ rt_ack :
  exists s r, systems_at b ot rt at_ rt_ack = Ok (s, r) /\
  s = mkSystemBuilder
    ((if pb_delivery b then [(DELIVERY, mkHandlerData at_ (SenderConfirm None ∅) (default_route (pb_tx_fin b)))] else []) ++
     (if pb_ordering b then [(ORDERING, mkHandlerData ot (SenderOrdering 1 None)
        (default_route (if pb_delivery b then at_ else pb_tx_fin b)))] else []))
    (if pb_ordering b then Some ot else if pb_delivery b then Some at_ else None) /\
  r = mkSystemBuilder
    ((if pb_delivery b then [(DELIVERY, mkHandlerData rt_ack (ReceiverConfirm None)
        (default_route (if pb_ordering b then rt else pb_rx_fin b)))] else []) ++
     (if pb_ordering b then [(ORDERING, mkHandlerData rt (ReceiverOrdering2 ∅ 0 None) (default_route (pb_rx_fin b)))] else []))
    (if pb_delivery b then Some rt_ack else if pb_ordering b then Some rt else None).
Proof.
  eexists _, _. split; [|split; reflexivity]. unfold systems_at.
  destruct (pb_ordering b), (pb_delivery b); rewrite ?add_ok; reflexivity.
Qed.

Lemma default_route_fmap (f : Address -> Address) a : f <$> default_route a = default_route (f a).
Proof. apply map_fmap_singleton. Qed.

(** One handler, or one after the other. *)
Lemma wired_one id a h fin :
  a <> fin ->
  exists S, finalise (mkSystemBuilder [(id, mkHandlerData a h (default_route fin))] (Some a)) = Ok S /\
    system_path S fin = ([(kind_of h).1], Some fin).
Proof.
  intros Hne. unfold finalise, attach_all, handler_initialize. cbn [sb_inner hd_routes hd_inner snd].
  rewrite default_route_lookup. cbn [ok_or]. eexists. split; [reflexivity|]. 
  match goal with |- system_path ?S _ = _ => change (system_path S fin) with (path 3 a S) end.
  erewrite path_step; [|apply lookup_insert_eq|by destruct h]. rewrite path_end; [by destruct h|].
  cbn. by rewrite lookup_insert_ne.
Qed.

Lemma wired_two id1 id2 a1 a2 h1 h2 fin (first : bool) :
  a1 <> a2 -> a1 <> fin -> a2 <> fin ->
  let d1 := (id1, mkHandlerData a1 h1 (default_route a2)) in
  let d2 := (id2, mkHandlerData a2 h2 (default_route fin)) in
  exists S, finalise (mkSystemBuilder (if first then [d1; d2] else [d2; d1]) (Some a1)) = Ok S /\
    system_path S fin = ([(kind_of h1).1; (kind_of h2).1], Some fin).
Proof.
  intros Hne H1 H2. destruct first; cbv zeta; unfold finalise, attach_all, handler_initialize;
    cbn [sb_inner hd_routes hd_inner snd]; rewrite !default_route_lookup; cbn [ok_or];
    (eexists; split; [reflexivity|]); 
    match goal with |- system_path ?S _ = _ => change (system_path S fin) with (path 3 a1 S) end;
    (erewrite path_step; [|cbn [ws_map attach_boxed hd_addr]; by simplify_map_eq|by destruct h1]);
    (erewrite path_step; [|cbn [ws_map attach_boxed hd_addr]; by simplify_map_eq|by destruct h2]);
    (rewrite path_end; [by destruct h1, h2|]); cbn [ws_map attach_boxed hd_addr]; by simplify_map_eq.
Qed.

(** For every choice of ordering and delivery, the systems that a builder
    makes can be initialized, and lead from their entry through all the handlers
    to the last address: ordering before delivery at the sender, delivery before
    ordering at the receiver.  So do the copies that a listener makes with new
    addresses for each sender. *)
Theorem pipe_systems_are_wired (b : PipeBuilder) (ord_tx ord_rx ack_tx ack_rx : Address) :
  NoDup [ord_tx; ack_tx; pb_tx_fin b] -> NoDup [ord_rx; ack_rx; pb_rx_fin b] ->
  exists tx rx, systems_at b ord_tx ord_rx ack_tx ack_rx = Ok (tx, rx) /\
    (exists S, finalise tx = Ok S /\ system_path S (pb_tx_fin b) = (sender_kinds b, Some (pb_tx_fin b))) /\
    (exists R, finalise rx = Ok R /\ system_path R (pb_rx_fin b) = (receiver_kinds b, Some (pb_rx_fin b))) /\
    (forall addrs ord ack fin, addrs !! ord_rx = Some ord -> addrs !! ack_rx = Some ack ->
       addrs !! pb_rx_fin b = None -> NoDup [ord; ack; fin] ->
       exists R, finalise (readdress_with addrs fin (SystemBuilder_clone rx)) = Ok R /\
         system_path R fin = (receiver_kinds b, Some fin)).
Proof.
  intros Htx Hrx. destruct (systems_at_eq b ord_tx ord_rx ack_tx ack_rx) as (tx & rx & E & -> & ->).
  eexists _, _. split; [exact E|]. clear E.
  assert (forall x y z : Address, NoDup [x; y; z] -> x <> y /\ x <> z /\ y <> z) as Hnd.
  { intros x y z H. inversion H as [|? ? H1 H2]; subst. inversion H2 as [|? ? H3 _]; subst.
    split_and!; intros ->; [apply H1 | apply H1 | apply H3]; set_solver. }
  apply Hnd in Htx as (H1 & H2 & H3). apply Hnd in Hrx as (H4 & H5 & H6). unfold sender_kinds, receiver_kinds.
  split; [|split].
  - destruct (pb_ordering b), (pb_delivery b); cbn [app].
    + apply (wired_two ORDERING DELIVERY ord_tx ack_tx (SenderOrdering 1 None) (SenderConfirm None ∅) _ false); done.
    + by apply (wired_one ORDERING ord_tx (SenderOrdering 1 None)).
    + by apply (wired_one DELIVERY ack_tx (SenderConfirm None ∅)).
    + by eexists.
  - destruct (pb_ordering b), (pb_delivery b); cbn [app].
    + apply (wired_two DELIVERY ORDERING ack_rx ord_rx (ReceiverConfirm None) (ReceiverOrdering2 ∅ 0 None) _ true); done.
    + by apply (wired_one ORDERING ord_rx (ReceiverOrdering2 ∅ 0 None)).
    + by apply (wired_one DELIVERY ack_rx (ReceiverConfirm None)).
    + by eexists.
  - intros addrs ord ack fin Ho Ha Hf Hn. apply Hnd in Hn as (H7 & H8 & H9). unfold readdress_with, SystemBuilder_clone.
    destruct (pb_ordering b), (pb_delivery b); cbn [app map sb_inner sb_entry hd_addr hd_inner hd_routes handler_clone fst snd];
      rewrite ?default_route_fmap, ?Hf; cbn [default option_bind mbind]; rewrite ?Ho, ?Ha; cbn [default].
    + apply (wired_two DELIVERY ORDERING ack ord (ReceiverConfirm None) (ReceiverOrdering2 ∅ 0 None) _ true); done.
    + by apply (wired_one ORDERING ord (ReceiverOrdering2 ∅ 0 None)).
    + by apply (wired_one DELIVERY ack (ReceiverConfirm None)).
    + by eexists.
Qed.

(** ** Ordering *)

(** Messages to the next handler. *)
Definition out_eff X (c : ocall system_worker X) : X -> list (Route * option bytes) -> list (Route * option bytes) -> Prop :=
  match c in ocall _ X return X -> list (Route * option bytes) -> list (Route * option bytes) -> Prop with
  | OCtx c =>
      match c in api _ _ X return X -> list (Route * option bytes) -> list (Route * option bytes) -> Prop with
      | ASend _ route p _ _ => fun r g g' => r = Ok tt /\ g' = g ++ [(route, p)]
      | _ => fun _ g g' => g' = g
      end
  | _ => fun _ g g' => g' = g
  end.

(** Without failures the ordering of a system takes the same steps as that of a
    pipe: what has been kept in the journal stays there when the message before
    it has been forwarded. *)
Lemma ordering2_step own journal current next msg idx i peeled g x g' :
  (0 <= current < 2 ^ 64 - 1)%Z -> om_scope msg !! 0%nat = Some idx -> decode_index idx = Some i ->
  OckamMessage_peel msg = Ok peeled ->
  execs out_eff (ReceiverOrdering_handle_message2 own journal current (Some next) msg) g (Some x) g' ->
  ((i <= current)%Z -> x.2 = ReceiverOrdering2 journal current (Some next) /\ g' = g) /\
  ((current + 1 < i)%Z -> x.2 = ReceiverOrdering2 (<[i := peeled]> journal) current (Some next) /\ g' = g) /\
  (i = current + 1 -> journal !! i = None ->
   x.2 = ReceiverOrdering2 journal i (Some next) /\ g' = g ++ [([next], encode_ockam peeled)])%Z.
Proof.
  intros Hc Hs Hd Hp Hex.
  set (Q := fun (x : oresult unit * system_handler) g' =>
    ((i <= current)%Z -> x.2 = ReceiverOrdering2 journal current (Some next) /\ g' = g) /\
    ((current + 1 < i)%Z -> x.2 = ReceiverOrdering2 (<[i := peeled]> journal) current (Some next) /\ g' = g) /\
    (i = current + 1 -> journal !! i = None ->
     x.2 = ReceiverOrdering2 journal i (Some next) /\ g' = g ++ [([next], encode_ockam peeled)])%Z).
  assert (ensures out_eff (ReceiverOrdering_handle_message2 own journal current (Some next) msg) g (fun _ => True) Q) as Hens.
  2:{ destruct (ensures_sound _ _ _ _ _ _ _ Hex Hens) as [_ H]. by apply H. }
  unfold ReceiverOrdering_handle_message2. rewrite Hs, Hp. cbn. rewrite Hd. cbn.
  unfold compare_index2. rewrite u64_succ by done.
  destruct (Z.ltb_spec (current + 1) i); [|destruct (Z.ltb_spec i (current + 1))].
  1,2: apply ensures_ret; [done|]; split_and!; intros; try lia; done.
  assert (i = current + 1)%Z as Ei by lia. unfold ReceiverOrdering_forward2. cbn. split; [done|].
  intros r g1 [-> ->]. cbn. unfold process_journal2.
  destruct (walk_journal _ _ _ _ _) as [r [c' j']] eqn:Ew.
  assert (journal !! i = None -> r = Ok [] /\ c' = i /\ j' = journal) as Hstop.
  { rewrite Ei. intros Hj. destruct (size journal); cbn [walk_journal] in Ew; rewrite u64_succ in Ew by done;
      rewrite ?Hj in Ew; by injection Ew as <- <- <-. }
  assert (forall r' h g2, (journal !! i = None -> h = ReceiverOrdering2 journal i (Some next) /\
    g2 = g ++ [([next], encode_ockam peeled)]) -> Q (r', h) g2) as HQ.
  { intros r' h g2 Hh. split_and!; intros; try lia. by apply Hh. }
  destruct r as [l|e|]; cbn; [| |done].
  - assert (forall l g1, ensures (D := no_event) out_eff (send_stack_all own next l) g1 (fun _ => True)
      (fun _ g2 => exists l', g2 = g1 ++ l' /\ (l = [] -> l' = []))) as Hall.
    { clear. induction l as [|m l IH]; intros g1; cbn.
      - split; [done|]. exists []. by rewrite app_nil_r.
      - split; [done|]. intros r g2 [-> ->]. eapply ensures_weaken; [by intros| |apply IH].
        intros _ g3 (l' & -> & _). exists (([next], encode_ockam m) :: l'). split; [by rewrite <-app_assoc | done]. }
    apply ensures_bind. eapply ensures_weaken; [by intros| |apply Hall].
    intros r g2 (l' & -> & Hl'). split; [done|]. apply HQ. intros Hj. destruct (Hstop Hj) as ([= ->] & -> & ->).
    split; [done|]. rewrite Hl' by done. by rewrite app_nil_r.
  - split; [done|]. apply HQ. intros Hj. by destruct (Hstop Hj) as (? & _).
Qed.

(** ** Delivery *)

(** Events that have been scheduled. *)
Notation event := (Z * Route * option bytes)%type.

Definition event_eff X (c : ocall system_worker X) : X -> list event -> list event -> Prop :=
  match c in ocall _ X return X -> list event -> list event -> Prop with
  | OSpawnDelayed _ seconds route p => fun _ g g' => g' = g ++ [(seconds, route, p)]
  | _ => fun _ g g' => g' = g
  end.

Definition the_notification : OckamMessage := generic_data PIPE_TYPE RESEND_NOTIFY (mkOckamMessage [] [] None).

(** The delivery handler makes its sender panic.  Whenever it has handled a
    message of a user, it has scheduled an event for its own address; when the
    event comes, five seconds later, the sender panics, whatever has been
    acknowledged meanwhile: the event does not carry the identifier that its
    handler unwraps. *)
Theorem delivery_notification_panics (own addr : Address) (self : PipeSender2) (next : option Address)
    (journal : gmap Address OckamMessage) :
  (forall msg h g g', message_type msg = None ->
     execs event_eff (SenderConfirm_handle_message own addr next journal msg) g (Some (Ok tt, h)) g' ->
     g' = g ++ [(5%Z, [addr], encode_ockam the_notification)]) /\
  (forall msg, ws_map (ps2_system self) !! addr = Some (SenderConfirm next journal) ->
     addr <> ps2_api_addr self -> addr <> ps2_fin_addr self ->
     (forall l a, ps2_peer self = Some (Listener2 l a) -> addr <> a) -> msg_addr msg = addr ->
     Some (payload (transport_message (local_msg msg))) = encode_ockam the_notification ->
     PipeSender2_handle_message own self msg = PPanic).
Proof.
  split.
  - intros msg h g g' Hm Hex.
    apply (ensures_sound _ _ _ _ _ (fun _ => True)
      (fun x g' => x.1 = Ok tt -> g' = g ++ [(5%Z, [addr], encode_ockam the_notification)])) in Hex as [_ H]; [by apply (H (Ok tt, h))|].
    unfold SenderConfirm_handle_message. rewrite Hm. cbn. split; [done|]. intros id g1 ->.
    destruct (OckamMessage_wrap msg) as [outer|e|]; cbn; [|by split|by split].
    destruct (bare (encode_address id)) as [i|e|]; cbn; [|by split|by split].
    destruct (bare (encode_address addr)) as [a|e|]; cbn; [|by split|by split].
    split; [done|]. intros child g1 ->. split; [done|]. intros r g1 ->.
    destruct r as [c|e|]; cbn; [|by split|by split]. split; [done|]. intros [] g1 ->. cbn.
    destruct next as [to|]; cbn; [|by split]. split; [done|]. intros r g1 ->. by split.
  - intros msg Hs Hapi Hfin Hl Ha Hp. unfold PipeSender2_handle_message.
    assert (cast_ockam msg = Ok (mkRouted the_notification (msg_addr msg) (src_addr msg) (local_msg msg))) as Hcast.
    { unfold cast_ockam, OckamMessage_from_any, bare. by rewrite (ockam_roundtrip _ _ (eq_sym Hp)). }
    assert (forall A (x y : A), (match ps2_peer self with
      | Some (Listener2 _ a) => if decide (msg_addr msg = a) then x else y | _ => y end) = y) as Hy.
    { intros A x y. destruct (ps2_peer self) as [[?|l a]|] eqn:E; [done| |done]. rewrite decide_False; [done|].
      rewrite Ha. by eapply Hl. }
    rewrite Hy, Ha, decide_False, decide_False by done. rewrite Hcast. cbn [plift ptry pbind].
    unfold in_system, WorkerSystem_handle_message, handle_at. cbn [msg_addr]. rewrite Ha, Hs. reflexivity.
Qed.
End Spec.
