(* ===== verification/PipeExamples.v ===== *)
(** * Concrete pipes

    Encodings, runs of small pipes, and the theorems on them applied. *)

From Stdlib Require Import ZArith Lia Sorted.
From Stdlib Require Strings.Byte Strings.String.
From stdpp Require Import base gmap list numbers option countable.
From S2P Require Import Prelude RustStr Routing AccessControl FlowControl Attributes Router Node.
From S2P Require Import Execution TcpExamples Pipes PipeSpec Pipe2 Pipe2Spec.

(** ** Encodings *)

Definition toy_pairs (r : Route) : list (byte * bytes) := map (fun a => (tt_code (a_tt a), a_inner a)) r.

Definition cmd_parts (c : InternalCmd) : nat * Z * list (byte * bytes) :=
  match c with
  | Resend i => (0, i, [])
  | Ack i => (1, i, [])
  | InitHandshake => (2, 0%Z, [])
  | HandshakeCmd r => (3, 0%Z, toy_pairs r)
  | InitSender => (4, 0%Z, [])
  end.

Definition cmd_of_parts (p : nat * Z * list (byte * bytes)) : option InternalCmd :=
  match p with
  | (0, i, _) => Some (Resend i)
  | (1, i, _) => Some (Ack i)
  | (2, _, _) => Some InitHandshake
  | (3, _, r) => Some (HandshakeCmd (map toy_address r))
  | (4, _, _) => Some InitSender
  | _ => None
  end.

#[export] Instance toy_pipe_codec : PipeCodec := {|
  encode_pipe p := Some (positive_bits (encode (pm_index p, pm_data p)));
  decode_pipe b := (fun x => mkPipeMessage x.1 x.2) <$> decode (bits_positive b);
  encode_cmd c := Some (positive_bits (encode (cmd_parts c)));
  decode_cmd b := decode (bits_positive b) ≫= cmd_of_parts;
  encode_creation h := Some (positive_bits (encode
    (toy_pairs [ch_channel_addr h; ch_tx_addr h; ch_tx_int_addr h; ch_rx_addr h; ch_rx_int_addr h])));
  decode_creation b :=
    match map toy_address <$> decode (bits_positive b) with
    | Some [a; t; ti; r; ri] => Some (mkChannelCreationHandshake a t ti r ri)
    | _ => None
    end
|}.

#[export] Instance toy_pipe_codec_laws : PipeCodecLaws.
Proof.
  split.
  - intros [i d] b [= <-]. cbn. by rewrite bits_positive_bits, decode_encode.
  - intros c b [= <-]. cbn. rewrite bits_positive_bits, decode_encode. destruct c; cbn; [done..| |done].
    by rewrite toy_addresses.
Qed.

#[export] Instance toy_system_codec : SystemCodec := {|
  encode_ockam m := Some (positive_bits (encode (om_data m, om_scope m, om_generic m)));
  decode_ockam b := (fun x => mkOckamMessage x.1.1 x.1.2 x.2) <$> decode (bits_positive b);
  encode_address a := Some (positive_bits (encode a));
  decode_address b := decode (bits_positive b);
  encode_route r := Some (positive_bits (encode r));
  decode_route b := decode (bits_positive b);
  encode_index i := Some (positive_bits (encode i));
  decode_index b := decode (bits_positive b)
|}.

#[export] Instance toy_system_codec_laws : SystemCodecLaws.
Proof.
  split.
  - intros [d s g] b [= <-]. cbn. by rewrite bits_positive_bits, decode_encode.
  - intros a b [= <-]. cbn. by rewrite bits_positive_bits, decode_encode.
  - intros i b [= <-]. cbn. by rewrite bits_positive_bits, decode_encode.
Qed.

#[local] Open Scope Z_scope.

(** ** Steps of a sender without hooks, and of an ordered receiver *)

Section Steps.
Context (own int_addr : Address).

Lemma sends peer i sent m :
  msg_addr m <> int_addr ->
  exists t, given int_addr m = Some t /\
  execs (send_eff false) (PipeSender_handle_message own (mkPipeSender i [] (Some (Peer peer)) int_addr []) m)
    (mkSendView (mkPipeSender i [] (Some (Peer peer)) int_addr []) sent) (Some (Ok tt))
    (mkSendView (mkPipeSender (u64_add i 1) [] (Some (Peer peer)) int_addr [])
       (sent ++ [(peer, encode_pipe (mkPipeMessage i (toy_encode_transport t)), int_addr)])).
Proof.
  intros Ha. unfold given. rewrite decide_False by done. eexists. split; [reflexivity|].
  unfold PipeSender_handle_message. cbn [ps_int_addr]. rewrite decide_False by done.
  unfold PipeSender_handle_external. cbn -[u64_add toy_encode_transport].
  eapply (execs_call _ _ tt); [reflexivity|]. cbn -[u64_add toy_encode_transport].
  eapply (execs_call _ _ tt); [reflexivity|].
  eapply (execs_call _ _ (Ok tt)); [split_and!; try done|]. apply execs_ret.
Qed.

Notation receiver o := (mkPipeReceiver [HReceiverOrdering o] int_addr).

Lemma receives o n p m fwd sent :
  msg_addr n <> int_addr -> decode_pipe (payload (transport_message (local_msg n))) = Some p ->
  unpack_pipe_message p = Ok m -> nonempty m -> 0 <= ro_current o < 2 ^ 64 - 1 ->
  (pm_index p = ro_current o + 1 -> ro_journal o !! (ro_current o + 1) = None) ->
  let i := pm_index p in
  let c := ro_current o in
  execs (recv_eff false) (PipeReceiver_handle_message own (receiver o) n) (mkRecvView (receiver o) fwd sent) (Some (Ok tt))
    (if c + 1 <? i then mkRecvView (receiver (mkReceiverOrdering (<[i := p]> (ro_journal o)) c)) fwd sent
     else if i <? c + 1 then mkRecvView (receiver o) fwd sent
     else mkRecvView (receiver (mkReceiverOrdering (ro_journal o) (c + 1))) (fwd ++ [m]) sent).
Proof.
  intros Ha Hd Hu Hm Hc Hj i c. unfold PipeReceiver_handle_message. cbn [pr_int_addr]. rewrite decide_False by done.
  unfold PipeReceiver_handle_external. rewrite Hd. cbn [ok_or plift ptry pbind].
  unfold external_all. cbn [pr_hooks run_hooks on_external]. unfold ReceiverOrdering_on_external, compare_index.
  rewrite u64_succ by done. fold i c. destruct (Z.ltb_spec (c + 1) i); [|destruct (Z.ltb_spec i (c + 1))].
  - eapply (execs_call _ _ tt); [reflexivity|]. apply execs_ret.
  - eapply (execs_call _ _ tt); [|apply execs_ret]. destruct o. reflexivity.
  - assert (i = c + 1) as Ei by lia. unfold ReceiverOrdering_forward. rewrite Hu. cbn [pbind].
    eapply (execs_call _ _ (Ok tt)); [split_and!; [by intros|done|reflexivity]|]. cbn [map_err].
    unfold process_journal. destruct (walk_journal _ _ _ _ _) as [r [c' j']] eqn:Ew.
    assert (r = Ok [] /\ c' = c + 1 /\ j' = ro_journal o) as (-> & -> & ->).
    { specialize (Hj Ei). destruct (size (ro_journal o)); cbn [walk_journal] in Ew; rewrite u64_succ in Ew by done;
        rewrite ?Hj in Ew; by injection Ew as <- <- <-. }
    cbn. eapply (execs_call _ _ tt); [reflexivity|]. apply execs_ret.
Qed.

(** A message without a route, when its turn has come. *)
Lemma refuses o n p m fwd sent :
  msg_addr n <> int_addr -> decode_pipe (payload (transport_message (local_msg n))) = Some p ->
  unpack_pipe_message p = Ok m -> onward_route (transport_message m) = [] -> 0 <= ro_current o < 2 ^ 64 - 1 ->
  pm_index p = ro_current o + 1 ->
  execs (recv_eff false) (PipeReceiver_handle_message own (receiver o) n) (mkRecvView (receiver o) fwd sent) (Some (Ok tt))
    (mkRecvView (receiver o) fwd sent).
Proof.
  intros Ha Hd Hu Hm Hc Ei. unfold PipeReceiver_handle_message. cbn [pr_int_addr]. rewrite decide_False by done.
  unfold PipeReceiver_handle_external. rewrite Hd. cbn [ok_or plift ptry pbind].
  unfold external_all. cbn [pr_hooks run_hooks on_external]. unfold ReceiverOrdering_on_external, compare_index.
  rewrite u64_succ, Ei, Z.ltb_irrefl by done. unfold ReceiverOrdering_forward. rewrite Hu. cbn [pbind].
  eapply (execs_call _ _ (Err (CAccess (RouteErr IncompleteRoute)))); [split_and!; [done | by intros | reflexivity]|].
  cbn. eapply (execs_call _ _ tt); [reflexivity|]. apply execs_ret.
Qed.
End Steps.

(** ** A pipe with three messages *)

Definition tx_worker : PipeSender := mkPipeSender 1 [] (Some (Peer [addr "rx"])) (addr "tx_int") [].
Definition rx_worker : PipeReceiver := mkPipeReceiver [HReceiverOrdering ReceiverOrdering_new] (addr "rx_int").

Definition user_message (p : bytes) : Routed unit :=
  mkRouted tt (addr "tx") (addr "user")
    (mkLocalMessage (TransportMessage_v1 [addr "tx"; addr "app"] [addr "user"] p) []).

Definition piped (p : bytes) : TransportMessage := TransportMessage_v1 [addr "app"] [addr "user"] p.

Definition user_messages : list (Routed unit) := map user_message [str "a"; str "b"; str "c"].

Definition pipe_message (i : Z) (p : bytes) : PipeMessage := mkPipeMessage i (toy_encode_transport (piped p)).

(** The pipe messages, as they arrive. *)
Definition arrival (i : Z) (p : bytes) : Routed unit :=
  mkRouted tt (addr "rx") (addr "tx_int")
    (mkLocalMessage (TransportMessage_v1 [addr "rx"] [addr "tx_int"] (default [] (encode_pipe (pipe_message i p)))) []).

Definition all_sent : list (Route * option bytes * Address) :=
  [([addr "rx"], encode_pipe (pipe_message 1 (str "a")), addr "tx_int");
   ([addr "rx"], encode_pipe (pipe_message 2 (str "b")), addr "tx_int");
   ([addr "rx"], encode_pipe (pipe_message 3 (str "c")), addr "tx_int")].

Definition tx_after : send_view :=
  mkSendView (mkPipeSender 4 [] (Some (Peer [addr "rx"])) (addr "tx_int") []) all_sent.

Lemma tx_sends_all :
  completes (send_eff false) (fun m g => PipeSender_handle_message (addr "tx") (sn_self g) m) user_messages
    (mkSendView tx_worker []) tx_after.
Proof.
  eapply completes_cons.
  { destruct (sends (addr "tx") (addr "tx_int") [addr "rx"] 1 [] (user_message (str "a"))) as (t & [= <-] & He); [done|].
    exact He. }
  eapply completes_cons.
  { destruct (sends (addr "tx") (addr "tx_int") [addr "rx"] 2 [([addr "rx"], encode_pipe (pipe_message 1 (str "a")), addr "tx_int")]
      (user_message (str "b"))) as (t & [= <-] & He); [done|]. exact He. }
  eapply completes_cons; [|constructor].
  destruct (sends (addr "tx") (addr "tx_int") [addr "rx"] 3 (take 2 all_sent)
      (user_message (str "c"))) as (t & [= <-] & He); [done|]. exact He.
Qed.

Lemma arrival_decodes i p : decode_pipe (payload (transport_message (local_msg (arrival i p)))) = Some (pipe_message i p).
Proof. by apply pipe_roundtrip. Qed.

Lemma arrival_unpacks i p : unpack_pipe_message (pipe_message i p) = Ok (unpacked (piped p)).
Proof. unfold unpack_pipe_message, PipeMessage_to_transport. by rewrite (transport_roundtrip (piped p)). Qed.

(** One arrival at the receiver. *)
Lemma arrives i p o fwd sent :
  0 <= ro_current o < 2 ^ 64 - 1 -> (i = ro_current o + 1 -> ro_journal o !! (ro_current o + 1) = None) ->
  let c := ro_current o in
  execs (recv_eff false) (PipeReceiver_handle_message (addr "rx") (mkPipeReceiver [HReceiverOrdering o] (addr "rx_int")) (arrival i p))
    (mkRecvView (mkPipeReceiver [HReceiverOrdering o] (addr "rx_int")) fwd sent) (Some (Ok tt))
    (if c + 1 <? i then mkRecvView (mkPipeReceiver [HReceiverOrdering (mkReceiverOrdering (<[i := pipe_message i p]> (ro_journal o)) c)] (addr "rx_int")) fwd sent
     else if i <? c + 1 then mkRecvView (mkPipeReceiver [HReceiverOrdering o] (addr "rx_int")) fwd sent
     else mkRecvView (mkPipeReceiver [HReceiverOrdering (mkReceiverOrdering (ro_journal o) (c + 1))] (addr "rx_int")) (fwd ++ [unpacked (piped p)]) sent).
Proof.
  intros Hc Hj. apply (receives (addr "rx") (addr "rx_int") o (arrival i p) (pipe_message i p));
    [done | apply arrival_decodes | apply arrival_unpacks | done..].
Qed.

Lemma ordered_pipe_keeps_order_witness :
  exists gr,
    completes (recv_eff false) (fun n g => PipeReceiver_handle_message (addr "rx") (rc_self g) n)
      [arrival 1 (str "a"); arrival 2 (str "b"); arrival 1 (str "a"); arrival 3 (str "c")]
      (mkRecvView rx_worker [] []) gr /\
    rc_forwarded gr = map unpacked [piped (str "a"); piped (str "b"); piped (str "c")].
Proof.
  assert (exists gr, completes (recv_eff false) (fun n g => PipeReceiver_handle_message (addr "rx") (rc_self g) n)
      [arrival 1 (str "a"); arrival 2 (str "b"); arrival 1 (str "a"); arrival 3 (str "c")]
      (mkRecvView rx_worker [] []) gr) as [gr Hgr].
  { eexists. eapply completes_cons; [apply (arrives 1 (str "a") ReceiverOrdering_new); done|].
    eapply completes_cons; [apply (arrives 2 (str "b") (mkReceiverOrdering ∅ 1)); done|].
    eapply completes_cons; [apply (arrives 1 (str "a") (mkReceiverOrdering ∅ 2)); done|].
    eapply completes_cons; [apply (arrives 3 (str "c") (mkReceiverOrdering ∅ 2)); done|]. constructor. }
  exists gr. split; [exact Hgr|].
  destruct (ordered_pipe_keeps_order (addr "tx") (addr "rx") tx_worker rx_worker user_messages tx_after
              [arrival 1 (str "a"); arrival 2 (str "b"); arrival 1 (str "a"); arrival 3 (str "c")]
              [Some 0%nat; Some 1%nat; Some 0%nat; Some 2%nat] gr) as [_ H].
  - by repeat constructor.
  - by exists [], [].
  - done.
  - repeat (apply List.Forall2_cons; [split; [done | by eexists]|]). apply List.Forall2_nil.
  - apply H; [done | by eexists | by eexists | by eexists | by repeat constructor | cbn; lia | apply tx_sends_all | exact Hgr].
Defined.

(** Message 3 arrives before message 2. *)
Lemma overtaken_message_stops_pipe_witness :
  exists gr,
    completes (recv_eff false) (fun n g => PipeReceiver_handle_message (addr "rx") (rc_self g) n)
      [arrival 1 (str "a"); arrival 3 (str "c"); arrival 2 (str "b")] (mkRecvView rx_worker [] []) gr /\
    rc_forwarded gr `prefix_of` map unpacked [piped (str "a"); piped (str "b")].
Proof.
  assert (exists gr, completes (recv_eff false) (fun n g => PipeReceiver_handle_message (addr "rx") (rc_self g) n)
      [arrival 1 (str "a"); arrival 3 (str "c"); arrival 2 (str "b")] (mkRecvView rx_worker [] []) gr) as [gr Hgr].
  { eexists. eapply completes_cons; [apply (arrives 1 (str "a") ReceiverOrdering_new); done|].
    eapply completes_cons; [apply (arrives 3 (str "c") (mkReceiverOrdering ∅ 1)); done|].
    eapply completes_cons; [apply (arrives 2 (str "b") (mkReceiverOrdering (<[3 := pipe_message 3 (str "c")]> ∅) 1)); [done | by intros; simplify_map_eq]|].
    constructor. }
  exists gr. split; [exact Hgr|].
  apply (overtaken_message_stops_pipe (addr "tx") (addr "rx") tx_worker rx_worker user_messages tx_after
           [arrival 1 (str "a"); arrival 3 (str "c"); arrival 2 (str "b")] [Some 0%nat; Some 2%nat; Some 1%nat] gr
           1 [0%nat] [1%nat]).
  - by repeat constructor.
  - by exists [], [].
  - done.
  - done.
  - by eexists.
  - by eexists.
  - by eexists.
  - by repeat constructor.
  - apply tx_sends_all.
  - repeat (apply List.Forall2_cons; [split; [done | by eexists]|]). apply List.Forall2_nil.
  - reflexivity.
  - by apply (bool_decide_unpack _).
  - by apply (bool_decide_unpack _).
  - exact Hgr.
Defined.

(** ** A stray acknowledgement between two messages *)

Definition stray : Routed unit :=
  mkRouted tt (addr "tx") (addr "rx_int")
    (mkLocalMessage (TransportMessage_v1 [addr "tx"] [addr "rx_int"] (default [] (encode_cmd (Ack 1)))) []).

Definition stray_pipe : PipeMessage :=
  mkPipeMessage 2 (toy_encode_transport (TransportMessage_v1 [] [addr "rx_int"] (default [] (encode_cmd (Ack 1))))).

Definition stray_arrival : Routed unit :=
  mkRouted tt (addr "rx") (addr "tx_int")
    (mkLocalMessage (TransportMessage_v1 [addr "rx"] [addr "tx_int"] (default [] (encode_pipe stray_pipe))) []).

Definition with_stray : list (Route * option bytes * Address) :=
  [([addr "rx"], encode_pipe (pipe_message 1 (str "a")), addr "tx_int");
   ([addr "rx"], encode_pipe stray_pipe, addr "tx_int");
   ([addr "rx"], encode_pipe (pipe_message 3 (str "b")), addr "tx_int")].

Definition tx_stray : send_view :=
  mkSendView (mkPipeSender 4 [] (Some (Peer [addr "rx"])) (addr "tx_int") []) with_stray.

Lemma tx_sends_stray :
  completes (send_eff false) (fun m g => PipeSender_handle_message (addr "tx") (sn_self g) m)
    [user_message (str "a"); stray; user_message (str "b")] (mkSendView tx_worker []) tx_stray.
Proof.
  eapply completes_cons.
  { destruct (sends (addr "tx") (addr "tx_int") [addr "rx"] 1 [] (user_message (str "a"))) as (t & [= <-] & He); [done|].
    exact He. }
  eapply completes_cons.
  { destruct (sends (addr "tx") (addr "tx_int") [addr "rx"] 2 (take 1 with_stray) stray) as (t & [= <-] & He); [done|].
    exact He. }
  eapply completes_cons; [|constructor].
  destruct (sends (addr "tx") (addr "tx_int") [addr "rx"] 3 (take 2 with_stray) (user_message (str "b")))
    as (t & [= <-] & He); [done|]. exact He.
Qed.

Lemma stray_delivered k i p n :
  msg_addr n = addr "rx" -> with_stray !! k = Some ([addr "rx"], encode_pipe p, addr "tx_int") ->
  encode_pipe p = Some (payload (transport_message (local_msg n))) -> pm_index p = index_of i ->
  delivered_number with_stray (addr "rx_int") n (Some i).
Proof.
  intros Ha Hk Hn Hi. split; [by rewrite Ha|]. eexists _, p. by split; [apply list_elem_of_lookup_2 in Hk; exact Hk|].
Qed.

Lemma stray_refused fwd sent :
  execs (recv_eff false)
    (PipeReceiver_handle_message (addr "rx") (mkPipeReceiver [HReceiverOrdering (mkReceiverOrdering ∅ 1)] (addr "rx_int")) stray_arrival)
    (mkRecvView (mkPipeReceiver [HReceiverOrdering (mkReceiverOrdering ∅ 1)] (addr "rx_int")) fwd sent) (Some (Ok tt))
    (mkRecvView (mkPipeReceiver [HReceiverOrdering (mkReceiverOrdering ∅ 1)] (addr "rx_int")) fwd sent).
Proof.
  eapply (refuses (addr "rx") (addr "rx_int") _ stray_arrival stray_pipe).
  - done.
  - by apply pipe_roundtrip.
  - unfold unpack_pipe_message, PipeMessage_to_transport. by erewrite transport_roundtrip by reflexivity.
  - done.
  - done.
  - done.
Qed.

Lemma stray_acknowledgement_stops_pipe_witness :
  exists gr,
    completes (recv_eff false) (fun n g => PipeReceiver_handle_message (addr "rx") (rc_self g) n)
      [arrival 1 (str "a"); stray_arrival; arrival 3 (str "b")] (mkRecvView rx_worker [] []) gr /\
    rc_forwarded gr `prefix_of` map unpacked [piped (str "a")].
Proof.
  assert (exists gr, completes (recv_eff false) (fun n g => PipeReceiver_handle_message (addr "rx") (rc_self g) n)
      [arrival 1 (str "a"); stray_arrival; arrival 3 (str "b")] (mkRecvView rx_worker [] []) gr) as [gr Hgr].
  { eexists. eapply completes_cons; [apply (arrives 1 (str "a") ReceiverOrdering_new); done|].
    eapply completes_cons; [apply stray_refused|].
    eapply completes_cons; [apply (arrives 3 (str "b") (mkReceiverOrdering ∅ 1)); done|]. constructor. }
  exists gr. split; [exact Hgr|].
  destruct (stray_acknowledgement_stops_pipe (addr "tx") (addr "rx") tx_worker rx_worker) as [_ H].
  apply (H [user_message (str "a")] stray [user_message (str "b")] false tx_stray
           [arrival 1 (str "a"); stray_arrival; arrival 3 (str "b")] [Some 0%nat; Some 1%nat; Some 2%nat] gr).
  - by repeat constructor.
  - by exists [], [].
  - done.
  - by eexists.
  - by repeat constructor.
  - done.
  - done.
  - done.
  - apply completes_session, tx_sends_stray.
  - apply List.Forall2_cons; [by apply (stray_delivered 0 0 (pipe_message 1 (str "a")))|].
    apply List.Forall2_cons; [by apply (stray_delivered 1 1 stray_pipe)|].
    apply List.Forall2_cons; [by apply (stray_delivered 2 2 (pipe_message 3 (str "b")))|].
    apply List.Forall2_nil.
  - by cbn; lia.
  - exact Hgr.
Defined.

(** ** Systems *)

Definition both : PipeBuilder := mkPipeBuilder true true Static None None (addr "tx_fin") (addr "rx_fin").

Lemma pipe_systems_are_wired_witness :
  exists tx rx, systems_at both (addr "ord_tx") (addr "ord_rx") (addr "ack_tx") (addr "ack_rx") = Ok (tx, rx) /\
    exists S, finalise tx = Ok S /\ system_path S (addr "tx_fin") = (sender_kinds both, Some (addr "tx_fin")).
Proof.
  destruct (pipe_systems_are_wired both (addr "ord_tx") (addr "ord_rx") (addr "ack_tx") (addr "ack_rx"))
    as (tx & rx & E & HS & _ & _); [by apply (bool_decide_unpack _)..|].
  exists tx, rx. split; [exact E | exact HS].
Defined.

Definition confirming : PipeSender2 :=
  mkPipeSender2 (attach_boxed (addr "ack") (SenderConfirm (Some (addr "fin")) ∅) WorkerSystem_default) []
    (Some (Peer2 [addr "rx"])) (addr "api") (addr "fin").

Lemma delivery_notification_panics_witness :
  PipeSender2_handle_message (addr "tx") confirming
    (mkRouted tt (addr "ack") (addr "ack")
       (mkLocalMessage (TransportMessage_v1 [addr "ack"] [] (default [] (encode_ockam the_notification))) [])) = PPanic.
Proof.
  destruct (delivery_notification_panics (addr "tx") (addr "ack") confirming (Some (addr "fin")) ∅) as [_ H].
  apply H; by vm_compute.
Defined.
