(* ===== verification/Forwarding.v ===== *)
(** * Forwarding (ockam/src/{forwarding_service, remote}, ockam_node/src/delayed.rs)

    A worker on a node that others cannot reach registers at a forwarding service
    of a node that they can reach.  [RemoteForwarder] sends the registration; the
    service starts a [Forwarder], which answers and then forwards what it is sent
    along the route of the registration.  Flow controls are set up on both sides.

    The BARE encodings of the messages are a parameter ([ForwardCodec]). *)

From Stdlib Require Import ZArith Lia.
From Stdlib Require Strings.Byte Strings.String.
From stdpp Require Import base gmap list numbers option countable.
From S2P Require Import Prelude RustStr Routing AccessControl FlowControl Router Node Pipes.

Notation SharedControl := (FlowControls -> DynAccessControl).

(** ** What is used of [str] *)

Definition text_ends_with (s p : bytes) : bool :=
  (length p <=? length s)%nat && bool_decide (drop (length s - length p) s = p).

Definition strip_text_prefix (p s : bytes) : option bytes :=
  if bool_decide (take (length p) s = p) then Some (drop (length p) s) else None.

(** ** The data *)

(** [DelayedEvent] of ockam_node: the address of its context, and the task that
    waits, which a new schedule or the end of the handle aborts. *)
Record DelayedEvent := mkDelayedEvent {
  de_address : Address;
  de_destination : Address;
  de_msg : option bytes;
  de_abort_handle : option nat
}.

Record ForwardingServiceOptions := mkForwardingServiceOptions {
  service_incoming_access_control : SharedControl;
  forwarders_incoming_access_control : SharedControl;
  consumer_service : list FlowControlId;
  consumer_forwarder : list FlowControlId
}.

Record Forwarder := mkForwarder {
  fw_forward_route : Route;
  fw_payload : option bytes
}.

Inductive ForwardType := FStatic | FEphemeral | FStaticWithoutHeartbeats.

(** remote/addresses.rs *)
Record ForwarderAddresses := mkForwarderAddresses {
  main_remote : Address;
  main_internal : Address;
  heartbeat_address : Address;
  completion_callback : Address
}.

Record RemoteForwarderInfo := mkRemoteForwarderInfo {
  ri_forwarding_route : Route;
  ri_remote_address : bytes;
  ri_worker_address : Address;
  ri_flow_control_id : option FlowControlId
}.

Record RemoteForwarder := mkRemoteForwarder {
  rf_addresses : ForwarderAddresses;
  rf_completion_msg_sent : bool;
  rf_registration_route : Route;
  rf_registration_payload : bytes;
  rf_flow_control_id : option FlowControlId;
  rf_heartbeat : option DelayedEvent;
  rf_heartbeat_interval : Z
}.

Inductive forward_worker :=
| WForwardingService (options : ForwardingServiceOptions)
| WForwarder (f : Forwarder)
| WRemoteForwarder (r : RemoteForwarder).

Class ForwardCodec := {
  encode_text : bytes -> option bytes;
  encode_vec : bytes -> option bytes;
  decode_vec : bytes -> option bytes;
  encode_info : RemoteForwarderInfo -> option bytes;
  decode_info : bytes -> option RemoteForwarderInfo
}.

(** ** What the workers call *)

Inductive fcall : Type -> Type :=
| FCtx {X} (c : api forward_worker RemoteForwarderInfo X) : fcall X
| FSetSelf (w : forward_worker) : fcall unit
| FRandomTagged (tag : bytes) : fcall Address
(** a task that sends a message from a context after a while; and its abortion *)
| FSpawn (ctx : Address) (seconds : Z) (to : Address) (payload : option bytes) : fcall nat
| FAbort (handle : nat) : fcall unit.

Notation fprog A := (prog fcall no_event A).

Definition fctx {X} (c : api forward_worker RemoteForwarderInfo (cresult X)) : fprog (oresult X) :=
  do r <- pcall (FCtx c); PRet (map_err NodeFailed r).

(** A context that is dropped when the function returns. *)
Definition dropping {X} (ctx : nat) (p : fprog (oresult X)) : fprog (oresult X) :=
  do r <- p; do _ <- pcall (FCtx (ADropContext ctx)); PRet r.

Section Forwarding.
Context `{FC : ForwardCodec}.

(** ** ockam_node/src/delayed.rs *)

Definition DelayedEvent_create (destination_addr : Address) (msg : option bytes) : fprog (oresult DelayedEvent) :=
  do a <- pcall (FRandomTagged (str "DelayedEvent.create"));
  do? _ <- fctx (ANewDetached 0 (main_mailboxes a (fun _ => dyn_incoming mkDenyAll)
                                   (fun _ => dyn_outgoing (mkAllowOnwardAddress destination_addr))));
  PRet (Ok (mkDelayedEvent a destination_addr msg None)).

Definition DelayedEvent_cancel (self : DelayedEvent) : fprog DelayedEvent :=
  match de_abort_handle self with
  | Some handle =>
      do _ <- pcall (FAbort handle);
      PRet (mkDelayedEvent (de_address self) (de_destination self) (de_msg self) None)
  | None => PRet self
  end.

Definition DelayedEvent_schedule (self : DelayedEvent) (duration : Z) : fprog DelayedEvent :=
  do self <- DelayedEvent_cancel self;
  do handle <- pcall (FSpawn (de_address self) duration (de_destination self) (de_msg self));
  PRet (mkDelayedEvent (de_address self) (de_destination self) (de_msg self) (Some handle)).

(** ** forwarding_service/options.rs *)

Definition ForwardingServiceOptions_new : ForwardingServiceOptions :=
  mkForwardingServiceOptions (fun _ => dyn_incoming mkAllowAll) (fun _ => dyn_incoming mkAllowAll) [] [].

Definition service_as_consumer (id : FlowControlId) (self : ForwardingServiceOptions) : ForwardingServiceOptions :=
  mkForwardingServiceOptions (service_incoming_access_control self) (forwarders_incoming_access_control self)
    (consumer_service self ++ [id]) (consumer_forwarder self).

Definition forwarder_as_consumer (id : FlowControlId) (self : ForwardingServiceOptions) : ForwardingServiceOptions :=
  mkForwardingServiceOptions (service_incoming_access_control self) (forwarders_incoming_access_control self)
    (consumer_service self) (consumer_forwarder self ++ [id]).

Definition with_service_incoming_access_control (ac : SharedControl) (self : ForwardingServiceOptions)
  : ForwardingServiceOptions :=
  mkForwardingServiceOptions ac (forwarders_incoming_access_control self)
    (consumer_service self) (consumer_forwarder self).

Definition with_forwarders_incoming_access_control (ac : SharedControl) (self : ForwardingServiceOptions)
  : ForwardingServiceOptions :=
  mkForwardingServiceOptions (service_incoming_access_control self) ac
    (consumer_service self) (consumer_forwarder self).

Definition setup_flow_control_for_forwarding_service (self : ForwardingServiceOptions) (address : Address)
    (flow_controls : FlowControls) : FlowControls :=
  foldl (fun fc id => add_consumer address id fc) flow_controls (consumer_service self).

Definition setup_flow_control_for_forwarder (self : ForwardingServiceOptions) (address : Address)
    (flow_controls : FlowControls) : FlowControls :=
  foldl (fun fc id => add_consumer address id fc) flow_controls (consumer_forwarder self).

(** ** forwarding_service/forwarder.rs *)

Definition Forwarder_outgoing (forward_route : Route) : oresult SharedControl :=
  if (Route_len forward_route =? 1)%nat then Ok (fun _ => dyn_outgoing mkAllowAll)
  else
    let? next_hop := of_route (Route_next forward_route) in
    Ok (fun _ => dyn_outgoing (mkAllowOnwardAddress next_hop)).

Definition Forwarder_create (address : Address) (forward_route : Route) (registration_payload : bytes)
    (incoming_access_control : SharedControl) : fprog (oresult unit) :=
  do? outgoing_access_control <- plift (Forwarder_outgoing forward_route);
  fctx (AStartWorker 0 (main_mailboxes address incoming_access_control outgoing_access_control)
          (WForwarder (mkForwarder forward_route (Some registration_payload)))).

Definition Forwarder_initialize (own : Address) (self : Forwarder) : fprog (oresult unit) :=
  match fw_payload self with
  | None => PPanic
  | Some payload =>
      do _ <- pcall (FSetSelf (WForwarder (mkForwarder (fw_forward_route self) None)));
      let msg := TransportMessage_v1 (fw_forward_route self) [own] payload in
      do? _ <- fctx (AForward 0 (mkLocalMessage msg []) own);
      let route := fw_forward_route self in
      let route := RouteBuilder_drop (RouteBuilder_pop_back (Route_modify route)) route in
      do _ <- pcall (FSetSelf (WForwarder (mkForwarder route None)));
      PRet (Ok tt)
  end.

(** If [via] is a producer, [a] becomes a consumer of its flow control. *)
Definition join_flow (via a : Address) : fprog unit :=
  do fc <- pcall (FCtx AFlowControls);
  match find_flow_control_with_producer_address fc via with
  | Some info => pcall (FCtx (AFlowUpdate (add_consumer a (flow_control_id info))))
  | None => PRet tt
  end.

Definition Forwarder_handle_message (own : Address) (self : Forwarder) (msg : Routed unit) : fprog (oresult unit) :=
  let t := transport_message (local_msg msg) in
  do? onward <- plift (let '(r, route) := Route_step (onward_route t) in let? _ := of_route r in Ok route);
  let onward := RouteBuilder_drop (RouteBuilder_prepend_route (fw_forward_route self) (Route_modify onward)) onward in
  do? next_hop <- plift (of_route (Route_next onward));
  do? prev_hop <- plift (of_route (Route_next (return_route t)));
  do _ <- join_flow next_hop prev_hop;
  do _ <- join_flow prev_hop next_hop;
  fctx (AForward 0 (mkLocalMessage (mkTransportMessage (version t) onward (return_route t) (payload t))
                      (local_info (local_msg msg))) own).

(** ** forwarding_service/forwarding_service.rs *)

Definition ForwardingService_create (address : Address) (options : ForwardingServiceOptions) : fprog (oresult unit) :=
  do _ <- pcall (FCtx (AFlowUpdate (setup_flow_control_for_forwarding_service options address)));
  fctx (AStartWorker 0
          (main_mailboxes address (service_incoming_access_control options) (fun _ => dyn_outgoing mkDenyAll))
          (WForwardingService options)).

(** The address that a registration asks for: the first byte is taken for the
    length.  [Panic]: the text is no address. *)
Definition registration_address (payload : bytes) (random_address : Address) : oresult Address :=
  match payload with
  | [] => Ok random_address
  | _ :: address =>
      match from_utf8 address with
      | Some v =>
          if bool_decide (v = str "register") then Ok random_address
          else map_err (fun _ => BareError) (Address_from_string v)
      | None => Ok random_address
      end
  end.

Definition ForwardingService_handle_message (options : ForwardingServiceOptions) (msg : Routed unit)
  : fprog (oresult unit) :=
  let t := transport_message (local_msg msg) in
  let forward_route := return_route t in
  do random_address <- pcall (FRandomTagged (str "Forwarder.service"));
  do? address <- plift (registration_address (payload t) random_address);
  do _ <- pcall (FCtx (AFlowUpdate (setup_flow_control_for_forwarder options address)));
  Forwarder_create address forward_route (payload t) (forwarders_incoming_access_control options).

(** ** remote/addresses.rs, remote/options.rs *)

Definition ForwardType_str (self : ForwardType) : bytes :=
  match self with
  | FStatic => str "static"
  | FEphemeral => str "ephemeral"
  | FStaticWithoutHeartbeats => str "static_w/o_heartbeats"
  end.

Definition ForwarderAddresses_generate (ftype : ForwardType) : fprog ForwarderAddresses :=
  let tag s := str "RemoteForwarder." ++ ForwardType_str ftype ++ s in
  do main_remote <- pcall (FRandomTagged (tag (str ".main_remote")));
  do main_internal <- pcall (FRandomTagged (tag (str ".main_internal")));
  do heartbeat <- pcall (FRandomTagged (tag (str ".heartbeat")));
  do completion_callback <- pcall (FRandomTagged (tag (str ".child")));
  PRet (mkForwarderAddresses main_remote main_internal heartbeat completion_callback).

Definition RemoteForwarderOptions_setup_flow_control (addresses : ForwarderAddresses) (next : Address)
  : fprog (option FlowControlId) :=
  do fc <- pcall (FCtx AFlowControls);
  match find_flow_control_with_producer_address fc next with
  | Some info =>
      let id := flow_control_id info in
      do _ <- pcall (FCtx (AFlowUpdate (add_consumer (main_remote addresses) id)));
      do _ <- pcall (FCtx (AFlowUpdate (add_producer (main_internal addresses) id None [])));
      PRet (Some id)
  | None => PRet None
  end.

Definition RemoteForwarderOptions_create_access_control (id : option FlowControlId) : SharedControl :=
  match id with
  | Some id => fun fc => dyn_outgoing (mkFlowControlAC fc id None)
  | None => fun _ => dyn_outgoing mkAllowAll
  end.

(** ** remote/lifecycle.rs *)

Definition RemoteForwarder_mailboxes (addresses : ForwarderAddresses) (heartbeat_source : option Address)
    (outgoing_access_control : SharedControl) : SharedMailboxes :=
  mkSharedMailboxes
    (mkSharedMailbox (main_internal addresses) (fun _ => dyn_incoming mkDenyAll) outgoing_access_control)
    (mkSharedMailbox (main_remote addresses) (fun _ => dyn_incoming mkAllowAll) (fun _ => dyn_outgoing mkAllowAll) ::
     match heartbeat_source with
     | Some a => [mkSharedMailbox (heartbeat_address addresses) (fun _ => dyn_incoming (mkAllowSourceAddress a))
                    (fun _ => dyn_outgoing mkDenyAll)]
     | None => []
     end).

Definition callback_mailboxes (addresses : ForwarderAddresses) : SharedMailboxes :=
  main_mailboxes (completion_callback addresses)
    (fun _ => dyn_incoming (mkAllowSourceAddress (main_remote addresses))) (fun _ => dyn_outgoing mkDenyAll).

(** What the three constructors have in common, from the set up of the flow
    controls to the answer. *)
Definition start_remote_forwarder (callback : nat) (addresses : ForwarderAddresses) (registration_route : Route)
    (registration_payload : bytes) (heartbeat : option DelayedEvent) (interval : Z)
  : fprog (oresult RemoteForwarderInfo) :=
  do? next <- plift (of_route (Route_next registration_route));
  do id <- RemoteForwarderOptions_setup_flow_control addresses next;
  do? _ <- fctx (AStartWorker 0
             (RemoteForwarder_mailboxes addresses (de_address <$> heartbeat)
                (RemoteForwarderOptions_create_access_control id))
             (WRemoteForwarder (mkRemoteForwarder addresses false registration_route registration_payload id
                                  heartbeat interval)));
  do? resp <- fctx (AReceive callback WaitTimeout decode_info);
  PRet (Ok (inner resp)).

Definition RemoteForwarder_create_static (hub_route : Route) (alias : bytes) : fprog (oresult RemoteForwarderInfo) :=
  do addresses <- ForwarderAddresses_generate FStatic;
  do? child_ctx <- fctx (ANewDetached 0 (callback_mailboxes addresses));
  dropping child_ctx
    (let registration_route := hub_route ++ [mkAddress LOCAL (str "static_forwarding_service")] in
     do? heartbeat <- DelayedEvent_create (heartbeat_address addresses) (encode_vec []);
     start_remote_forwarder child_ctx addresses registration_route alias (Some heartbeat) 5).

Definition RemoteForwarder_create (hub_route : Route) : fprog (oresult RemoteForwarderInfo) :=
  do addresses <- ForwarderAddresses_generate FEphemeral;
  do? callback_ctx <- fctx (ANewDetached 0 (callback_mailboxes addresses));
  dropping callback_ctx
    (start_remote_forwarder callback_ctx addresses (hub_route ++ [mkAddress LOCAL (str "forwarding_service")])
       (str "register") None 10).

Definition RemoteForwarder_create_static_without_heartbeats (hub_route : Route) (alias : bytes)
  : fprog (oresult RemoteForwarderInfo) :=
  do addresses <- ForwarderAddresses_generate FStaticWithoutHeartbeats;
  do? callback_ctx <- fctx (ANewDetached 0 (callback_mailboxes addresses));
  dropping callback_ctx
    (start_remote_forwarder callback_ctx addresses (hub_route ++ [mkAddress LOCAL (str "forwarding_service")])
       alias None 10).

(** ** remote/worker.rs *)

Definition register (self : RemoteForwarder) : fprog (oresult unit) :=
  fctx (ASend 0 (rf_registration_route self) (encode_text (rf_registration_payload self))
          (main_remote (rf_addresses self)) []).

Definition RemoteForwarder_initialize (self : RemoteForwarder) : fprog (oresult unit) := register self.

Definition with_completion (b : bool) (heartbeat : option DelayedEvent) (self : RemoteForwarder) : RemoteForwarder :=
  mkRemoteForwarder (rf_addresses self) b (rf_registration_route self) (rf_registration_payload self)
    (rf_flow_control_id self) heartbeat (rf_heartbeat_interval self).

(** [if let Some(heartbeat) = &mut self.heartbeat { heartbeat.schedule(..).await? }] *)
Definition beat (self : RemoteForwarder) : fprog (oresult unit) :=
  match rf_heartbeat self with
  | Some h =>
      do h <- DelayedEvent_schedule h (rf_heartbeat_interval self);
      do _ <- pcall (FSetSelf (WRemoteForwarder (with_completion (rf_completion_msg_sent self) (Some h) self)));
      PRet (Ok tt)
  | None => PRet (Ok tt)
  end.

(** The answer of the service; [return_route] leads to it. *)
Definition handle_service_message (self : RemoteForwarder) (return_route : Route) (body : bytes)
  : fprog (oresult unit) :=
  do? p <- plift (ok_or (decode_vec body) InvalidHubResponse);
  do? p <- plift (ok_or (from_utf8 p) InvalidHubResponse);
  if negb (text_ends_with p (rf_registration_payload self)) then PRet (Err InvalidHubResponse)
  else
    do? self <-
      (if rf_completion_msg_sent self then PRet (Ok self)
       else
         do? recipient <- plift (of_route (Route_recipient return_route));
         do? address <- plift (ok_or (strip_text_prefix (str "0#") (Address_display recipient)) InvalidHubResponse);
         do? _ <- fctx (ASend 0 [completion_callback (rf_addresses self)]
                    (encode_info (mkRemoteForwarderInfo return_route address (main_remote (rf_addresses self))
                                    (rf_flow_control_id self)))
                    (main_remote (rf_addresses self)) []);
         let self := with_completion true (rf_heartbeat self) self in
         do _ <- pcall (FSetSelf (WRemoteForwarder self));
         PRet (Ok self));
    beat self.

Definition RemoteForwarder_handle_message (self : RemoteForwarder) (msg : Routed unit) : fprog (oresult unit) :=
  if decide (msg_addr msg = heartbeat_address (rf_addresses self)) then
    do? _ <- register self;
    beat self
  else if decide (msg_addr msg = main_remote (rf_addresses self)) then
    let t := transport_message (local_msg msg) in
    do? onward <- plift (let '(r, route) := Route_step (onward_route t) in let? _ := of_route r in Ok route);
    match Route_next onward with
    | Err _ => handle_service_message self (return_route t) (payload t)
    | Ok next =>
        if decide (next = main_remote (rf_addresses self)) then PRet (Err UnknownForwarderNextHopAddress)
        else
          do? _ <- fctx (AForward 0 (mkLocalMessage (mkTransportMessage (version t) onward (return_route t) (payload t))
                                      (local_info (local_msg msg)))
                           (main_internal (rf_addresses self)));
          beat self
    | Panic => PPanic
    end
  else PRet (Err UnknownForwarderDestinationAddress).

End Forwarding.
