(* ===== verification/ForwardingSpec.v ===== *)
(** * What forwarders do

    What a forwarder forwards and to whom, which flow controls it joins, how a
    registration comes back to who asked for it, and what a registration opens. *)

From Stdlib Require Import ZArith Lia.
From Stdlib Require Strings.Byte Strings.String.
From stdpp Require Import base gmap list numbers option countable.
From S2P Require Import Prelude RustStr Routing AccessControl FlowControl Router Node Execution Pipes Forwarding.

(** ** What is seen of a worker

    Its state, the flow controls of its node, and what it has tried to forward,
    to send and to start.  Nobody else changes the flow controls meanwhile. *)

Record fview := mkFView {
  fv_self : forward_worker;
  fv_flow : FlowControls;
  fv_forwarded : list (LocalMessage * Address);
  fv_sent : list (Route * option bytes * Address);
  fv_started : list (SharedMailboxes * forward_worker)
}.

Definition feff X (c : fcall X) : X -> fview -> fview -> Prop :=
  match c in fcall X return X -> fview -> fview -> Prop with
  | FCtx c =>
      match c in api _ _ X return X -> fview -> fview -> Prop with
      | AForward _ m from => fun _ g g' =>
          g' = mkFView (fv_self g) (fv_flow g) (fv_forwarded g ++ [(m, from)]) (fv_sent g) (fv_started g)
      | ASend _ route payload from _ => fun _ g g' =>
          g' = mkFView (fv_self g) (fv_flow g) (fv_forwarded g) (fv_sent g ++ [(route, payload, from)]) (fv_started g)
      | AStartWorker _ m w => fun _ g g' =>
          g' = mkFView (fv_self g) (fv_flow g) (fv_forwarded g) (fv_sent g) (fv_started g ++ [(m, w)])
      | AFlowControls => fun fc g g' => fc = fv_flow g /\ g' = g
      | AFlowUpdate f => fun _ g g' =>
          g' = mkFView (fv_self g) (f (fv_flow g)) (fv_forwarded g) (fv_sent g) (fv_started g)
      | _ => fun _ g g' => g' = g
      end
  | FSetSelf w => fun _ g g' => g' = mkFView w (fv_flow g) (fv_forwarded g) (fv_sent g) (fv_started g)
  | _ => fun _ g g' => g' = g
  end.

(** Known behaviour of BARE: a text is its bytes after their number, which is one
    byte below 128. *)
Class ForwardCodecLaws `{ForwardCodec} : Prop := {
  text_layout s : (Z.of_nat (length s) < 128)%Z -> encode_text s = Some (byte_of (Z.of_nat (length s)) :: s);
  text_as_vec s b : encode_text s = Some b -> decode_vec b = Some s
}.

Section Spec.
Context `{FC : ForwardCodec}.

(** ** Flow controls *)

Lemma add_consumer_producers a id fc :
  producers (add_consumer a id fc) = producers fc /\
  producers_additional_addresses (add_consumer a id fc) = producers_additional_addresses fc.
Proof. done. Qed.

Lemma find_add_consumer a id fc x :
  find_flow_control_with_producer_address (add_consumer a id fc) x = find_flow_control_with_producer_address fc x.
Proof. done. Qed.

Lemma mem_add_consumers a ids fc id x :
  mem (foldl (fun fc id => add_consumer a id fc) fc ids) id x <-> mem fc id x \/ (id ∈ ids /\ x = a).
Proof.
  revert fc. induction ids as [|i ids IH]; intros fc; cbn [foldl]; [set_solver|].
  rewrite IH, mem_add_consumer. set_solver.
Qed.

(** The flow control that a producer belongs to. *)
Definition flow_of (fc : FlowControls) (a : Address) : option FlowControlId :=
  flow_control_id <$> find_flow_control_with_producer_address fc a.

Definition join (via a : Address) (fc : FlowControls) : FlowControls :=
  match flow_of fc via with
  | Some id => add_consumer a id fc
  | None => fc
  end.

Lemma flow_of_join via a fc x : flow_of (join via a fc) x = flow_of fc x.
Proof. unfold join. destruct (flow_of fc via); done. Qed.

Lemma mem_join via a fc id x : mem (join via a fc) id x <-> mem fc id x \/ (flow_of fc via = Some id /\ x = a).
Proof. unfold join. destruct (flow_of fc via) as [i|]; rewrite ?mem_add_consumer; naive_solver. Qed.

(** ** The forwarder *)

(** What a forwarder makes of a message. *)
Definition relayed (route : Route) (m : Routed unit) : option LocalMessage :=
  let t := transport_message (local_msg m) in
  match onward_route t, return_route t with
  | _ :: rest, _ :: _ =>
      if bool_decide (route ++ rest = []) then None
      else Some (mkLocalMessage (mkTransportMessage (version t) (route ++ rest) (return_route t) (payload t))
                   (local_info (local_msg m)))
  | _, _ => None
  end.

Definition hops (l : LocalMessage) : option (Address * Address) :=
  match onward_route (transport_message l), return_route (transport_message l) with
  | next :: _, prev :: _ => Some (next, prev)
  | _, _ => None
  end.

(** The flow controls after a message has gone through. *)
Definition joined (l : LocalMessage) (fc : FlowControls) : FlowControls :=
  match hops l with
  | Some (next, prev) => join prev next (join next prev fc)
  | None => fc
  end.

Definition forwarder_handle (own : Address) (m : Routed unit) (g : fview) : fprog (oresult unit) :=
  match fv_self g with
  | WForwarder f => Forwarder_handle_message own f m
  | _ => PPanic
  end.

Lemma prepend_route route rest :
  RouteBuilder_drop (RouteBuilder_prepend_route route (Route_modify rest)) rest = route ++ rest.
Proof.
  unfold RouteBuilder_drop, RouteBuilder_prepend_route. cbn. rewrite <-(rev_involutive route) at 2.
  generalize (rev route). intros l. revert rest.
  induction l as [|a l IH]; intros rest; cbn; [done|]. by rewrite IH, <-app_assoc.
Qed.

Lemma ensures_join_flow via a g (I : fview -> Prop) (Q : unit -> fview -> Prop) :
  let g' := mkFView (fv_self g) (join via a (fv_flow g)) (fv_forwarded g) (fv_sent g) (fv_started g) in
  I g -> I g' -> Q tt g' -> ensures feff (join_flow via a) g I Q.
Proof.
  intros g' Hg Hg' HQ. unfold join_flow, g', join, flow_of in *. cbn. split; [done|]. intros fc g1 [-> ->].
  destruct (find_flow_control_with_producer_address _ _) as [info|]; cbn in *.
  - split; [done|]. intros [] g1 ->. by split.
  - destruct g. by split.
Qed.

(** The invariant of a forwarder, after the messages [ms]. *)
Record forwards (own : Address) (route : Route) (fc : FlowControls) (first : list (LocalMessage * Address))
    (ls : list LocalMessage) (g : fview) : Prop := {
  fs_self : fv_self g = WForwarder (mkForwarder route None);
  fs_out : fv_forwarded g = first ++ map (fun l => (l, own)) ls;
  fs_flow : fv_flow g = foldl (fun fc l => joined l fc) fc ls
}.

(** While it handles a message: the flow controls may have been joined before it
    is forwarded. *)
Definition forwards_most (own : Address) (route : Route) (fc : FlowControls) (first : list (LocalMessage * Address))
    (ls : list LocalMessage) (g : fview) : Prop :=
  fv_forwarded g `prefix_of` first ++ map (fun l => (l, own)) ls /\
  (forall id x, mem (fv_flow g) id x -> mem (foldl (fun fc l => joined l fc) fc ls) id x).

Lemma forwards_forwards_most own route fc first ls g :
  forwards own route fc first ls g -> forwards_most own route fc first ls g.
Proof. intros [_ H1 H2]. split; [by rewrite H1|]. intros id x. by rewrite H2. Qed.

Lemma forwarder_step own route fc first ls m g :
  forwards own route fc first ls g ->
  ensures feff (forwarder_handle own m g) g
    (forwards_most own route fc first (ls ++ option_list (relayed route m)))
    (fun _ => forwards own route fc first (ls ++ option_list (relayed route m))).
Proof.
  intros Hg. pose proof (forwards_forwards_most _ _ _ _ _ _ Hg) as [Hp Hm]. destruct Hg as [Hs Ho Hf].
  unfold forwarder_handle. rewrite Hs. unfold Forwarder_handle_message, relayed.
  destruct m as [u ma sa [t li]]. cbn [local_msg transport_message local_info].
  assert (forwards_most own route fc first (ls ++ []) g /\ forwards own route fc first (ls ++ []) g) as [Hsame Hsame'].
  { rewrite app_nil_r. split; [by split|by split]. }
  destruct (onward_route t) as [|a rest]; [by split|].
  cbn [Route_step of_route map_err rbind plift ptry pbind]. rewrite prepend_route. cbn [fw_forward_route].
  destruct (route ++ rest) as [|next more] eqn:Er.
  { rewrite (bool_decide_true ([] = [])) by done. destruct (return_route t); by split. }
  rewrite (bool_decide_false (next :: more = [])) by done.
  cbn [Route_next head ok_or of_route map_err plift ptry pbind].
  destruct (return_route t) as [|prev back] eqn:Eb; [by split|].
  cbn [Route_next head ok_or of_route map_err plift ptry pbind option_list].
  set (l := mkLocalMessage _ li).
  assert (foldl (fun fc l => joined l fc) fc (ls ++ [l]) = join prev next (join next prev (fv_flow g))) as Efc.
  { rewrite foldl_app, <-Hf. cbn. unfold joined, hops. cbn. by rewrite ?Eb. }
  assert (forall fl, (forall id x, mem fl id x -> mem (join prev next (join next prev (fv_flow g))) id x) ->
    forwards_most own route fc first (ls ++ [l]) (mkFView (fv_self g) fl (fv_forwarded g) (fv_sent g) (fv_started g))) as Hmost.
  { intros fl Hfl. split; cbn.
    - rewrite Ho, map_app, app_assoc. by apply prefix_app_r.
    - by rewrite Efc. }
  apply ensures_bind, ensures_join_flow.
  { destruct g. apply (Hmost fv_flow0). intros id x Hx. rewrite !mem_join. tauto. }
  { apply Hmost. intros id x Hx. rewrite mem_join. tauto. }
  apply ensures_bind, ensures_join_flow; cbn [fv_self fv_flow fv_forwarded fv_sent fv_started].
  { apply Hmost. intros id x Hx. rewrite mem_join. tauto. }
  { by apply Hmost. }
  cbn. split; [by apply Hmost|]. intros r g1 ->. split.
  - split; cbn; [by rewrite Ho, map_app, <-app_assoc|]. intros id x. by rewrite Efc.
  - split; cbn; [done|by rewrite Ho, map_app, <-app_assoc|by rewrite Efc].
Qed.

Definition all_relayed (route : Route) (ms : list (Routed unit)) : list LocalMessage := omap (relayed route) ms.

Lemma all_relayed_snoc route ms m : all_relayed route (ms ++ [m]) = all_relayed route ms ++ option_list (relayed route m).
Proof. unfold all_relayed. rewrite omap_app. cbn. by destruct (relayed route m). Qed.

(** Before any message. *)
Lemma initialized own route p g g1 :
  fv_self g = WForwarder (mkForwarder route (Some p)) ->
  execs feff (Forwarder_initialize own (mkForwarder route (Some p))) g (Some (Ok tt)) g1 ->
  let reply := mkLocalMessage (TransportMessage_v1 route [own] p) [] in
  forwards own (removelast route) (fv_flow g) (fv_forwarded g ++ [(reply, own)]) [] g1.
Proof.
  intros Hs Hex reply.
  enough (ensures feff (Forwarder_initialize own (mkForwarder route (Some p))) g (fun _ => True)
    (fun r g' => r = Ok tt -> forwards own (removelast route) (fv_flow g) (fv_forwarded g ++ [(reply, own)]) [] g')) as Hen
    by (destruct (ensures_sound _ _ _ _ _ _ _ Hex Hen) as [_ HQ]; by eapply HQ).
  unfold Forwarder_initialize. cbn. split; [done|]. intros [] g2 ->. split; [done|]. intros r g2 ->.
  destruct r as [[]|e|]; cbn; [|by split|by split]. split; [done|]. intros [] g2 ->. split; [done|]. intros _.
  split; cbn; [done|by rewrite app_nil_r|done].
Qed.

Lemma mem_joined l fc id x :
  mem (joined l fc) id x -> mem fc id x \/
    exists next prev, hops l = Some (next, prev) /\
      ((flow_of fc next = Some id /\ x = prev) \/ (flow_of fc prev = Some id /\ x = next)).
Proof.
  unfold joined. destruct (hops l) as [[next prev]|]; [|by left].
  rewrite !mem_join, flow_of_join. intros [[H|H]|H]; [by left|right..]; exists next, prev; tauto.
Qed.

Lemma flow_of_joined l fc x : flow_of (joined l fc) x = flow_of fc x.
Proof. unfold joined. destruct (hops l) as [[next prev]|]; [|done]. by rewrite !flow_of_join. Qed.

Lemma mem_joined_all ls fc id x :
  mem (foldl (fun fc l => joined l fc) fc ls) id x -> mem fc id x \/
    exists l next prev, l ∈ ls /\ hops l = Some (next, prev) /\
      ((flow_of fc next = Some id /\ x = prev) \/ (flow_of fc prev = Some id /\ x = next)).
Proof.
  revert fc. induction ls as [|l ls IH]; intros fc; cbn; [by left|]. intros [H|H]%IH.
  - apply mem_joined in H as [H|(next & prev & H)]; [by left|right]. exists l, next, prev. set_solver.
  - right. destruct H as (l' & next & prev & Hl & Hh & H). exists l', next, prev.
    rewrite !flow_of_joined in H. set_solver.
Qed.

Lemma relayed_hops route m l :
  relayed route m = Some l -> exists next prev, hops l = Some (next, prev) /\
    head (route ++ tail (onward_route (transport_message (local_msg m)))) = Some next /\
    head (return_route (transport_message (local_msg m))) = Some prev.
Proof.
  unfold relayed, hops. destruct m as [u ma sa [t li]]. cbn [local_msg transport_message].
  destruct (onward_route t) as [|a rest]; [done|]. destruct (return_route t) as [|prev back] eqn:Eb; [done|].
  case_bool_decide as E; [done|]. intros [= <-]. cbn. rewrite ?Eb. destruct (route ++ rest) as [|next more]; [done|]. by eexists _, _.
Qed.

(** The first hop of what is relayed, when the registration has come over more
    than one hop. *)
Lemma relayed_first route m l first :
  (2 <= length route)%nat -> head route = Some first -> relayed (removelast route) m = Some l ->
  Route_next (onward_route (transport_message l)) = Ok first.
Proof.
  intros Hl Hh Hr. destruct (relayed_hops _ _ _ Hr) as (next & prev & Hhops & Hnext & _).
  destruct route as [|a [|b route]]; cbn in Hl; [lia..|]. cbn in Hh. injection Hh as <-.
  cbn in Hnext. injection Hnext as <-. unfold hops in Hhops. unfold Route_next.
  destruct (onward_route (transport_message l)); [done|]. destruct (return_route _); by simplify_eq/=.
Qed.

(** C32: a forwarder relays along the route of its registration, and nowhere
    else.  Once it has answered the registration, it forwards the messages it is
    sent, in order, each with the route of the registration (without the last
    hop) in place of the address of the forwarder; all of them, if nothing cuts
    it.  If the registration came over more than one hop, every one of them goes
    to the first hop, which its access control allows, and the only new consumers
    are the previous hop of a message, for the flow control of that first hop, and
    the first hop, for the flow control of a previous hop. *)
Theorem forwarder_relays_along_registration (own : Address) (route : Route) (p : bytes) (ms : list (Routed unit))
    (g g1 g' : fview) :
  fv_self g = WForwarder (mkForwarder route (Some p)) ->
  execs feff (Forwarder_initialize own (mkForwarder route (Some p))) g (Some (Ok tt)) g1 ->
  session feff (forwarder_handle own) ms g1 g' ->
  let reply := mkLocalMessage (TransportMessage_v1 route [own] p) [] in
  let out := map (fun l => (l, own)) (reply :: all_relayed (removelast route) ms) in
  fv_forwarded g' `prefix_of` fv_forwarded g ++ out /\
  (completes feff (forwarder_handle own) ms g1 g' -> fv_forwarded g' = fv_forwarded g ++ out) /\
  (forall first, (2 <= length route)%nat -> head route = Some first ->
     (forall l, l ∈ all_relayed (removelast route) ms ->
        exists ac, Forwarder_outgoing route = Ok ac /\
          forall fc source destination, ac fc (mkRelayMessage source destination l) = Ok true) /\
     (forall id x, mem (fv_flow g') id x -> mem (fv_flow g) id x \/
        exists m prev, m ∈ ms /\ head (return_route (transport_message (local_msg m))) = Some prev /\
          ((flow_of (fv_flow g) first = Some id /\ x = prev) \/ (flow_of (fv_flow g) prev = Some id /\ x = first)))).
Proof.
  intros Hs Hinit Hrun reply out. pose proof (initialized _ _ _ _ _ Hs Hinit) as H1. fold reply in H1.
  set (first' := fv_forwarded g ++ [(reply, own)]) in *. set (route' := removelast route) in *.
  pose (I ms := forwards own route' (fv_flow g) first' (all_relayed route' ms)).
  pose (J ms := forwards_most own route' (fv_flow g) first' (all_relayed route' ms)).
  assert (forall ms m g, I ms g -> ensures feff (forwarder_handle own m g) g (J (ms ++ [m])) (fun _ => I (ms ++ [m]))) as Hstep.
  { intros ms0 m g0 HI. unfold I, J. rewrite all_relayed_snoc. by apply forwarder_step. }
  assert (fv_forwarded g ++ out = first' ++ map (fun l => (l, own)) (all_relayed route' ms)) as Eout
    by (unfold first', out; cbn; by rewrite <-app_assoc).
  assert (J ms g') as [Hp Hf].
  { apply (session_sound feff (forwarder_handle own) I J ms g1 g') with (done := []); [|done|done|done].
    intros. by apply forwards_forwards_most. }
  split_and!; [by rewrite Eout| |].
  - intros Hc. rewrite Eout.
    assert (I ms g') as [_ -> _]; [|done].
    apply (completes_sound feff (forwarder_handle own) (fun _ => True) I J ms g1 g') with (done := []); auto. by apply list.Forall_forall.
  - intros first Hlen Hhead. split.
    + intros l Hl. apply list_elem_of_omap in Hl as (m & _ & Hr). unfold Forwarder_outgoing, Route_len.
      assert ((length route =? 1)%nat = false) as -> by (apply Nat.eqb_neq; lia).
      unfold Route_next at 1. rewrite Hhead. eexists. split; [reflexivity|]. intros fc source destination.
      cbn. unfold RelayMessage_onward_route. cbn. rewrite (relayed_first route m l first) by done.
      cbn. rewrite decide_False by (intros Hne; by apply Hne). done.
    + intros id x [Hm|(l & next & prev & Hl & Hh & Hm)]%Hf%mem_joined_all; [by left|right].
      apply list_elem_of_omap in Hl as (m & Hin & Hr). pose proof (relayed_first route m l first Hlen Hhead Hr) as Hn.
      destruct (relayed_hops _ _ _ Hr) as (next' & prev' & Hh' & _ & Hback). rewrite Hh in Hh'. injection Hh' as <- <-.
      assert (next = first) as ->.
      { unfold hops in Hh. unfold Route_next in Hn. destruct (onward_route (transport_message l)); [done|].
        destruct (return_route (transport_message l)); by simplify_eq/=. }
      by exists m, prev.
Qed.

(** A forwarder that was registered from its own node has no route left: it sends
    a message wherever the sender of the message likes, and may do so. *)
Theorem local_registration_is_open (a own victim : Address) (rest : Route) (m : Routed unit) :
  onward_route (transport_message (local_msg m)) = own :: victim :: rest ->
  return_route (transport_message (local_msg m)) <> [] ->
  (exists l, relayed (removelast [a]) m = Some l /\ onward_route (transport_message l) = victim :: rest) /\
  exists ac, Forwarder_outgoing [a] = Ok ac /\ forall fc message, ac fc message = Ok true.
Proof.
  intros Ho Hr. split; [|by eexists]. unfold relayed. rewrite Ho. destruct (return_route _) as [|b back]; [done|].
  cbn. by eexists.
Qed.

(** ** The service *)

Lemma registration_address_text b name random :
  utf8_valid name = true -> name <> str "register" ->
  registration_address (b :: name) random = map_err (fun _ => BareError) (Address_from_string name).
Proof. intros Hu Hn. unfold registration_address, from_utf8. rewrite Hu. by rewrite bool_decide_false. Qed.

(** What the service does with a registration. *)
Lemma service_ensures options msg g b name victim :
  payload (transport_message (local_msg msg)) = b :: name -> utf8_valid name = true -> name <> str "register" ->
  Address_from_string name = Ok victim ->
  let route := return_route (transport_message (local_msg msg)) in
  ensures feff (ForwardingService_handle_message options msg) g (fun _ => True) (fun _ g' =>
    fv_flow g' = setup_flow_control_for_forwarder options victim (fv_flow g) /\
    (route <> [] -> exists ac, Forwarder_outgoing route = Ok ac /\
      fv_started g' = fv_started g ++
        [(main_mailboxes victim (forwarders_incoming_access_control options) ac,
          WForwarder (mkForwarder route (Some (b :: name))))])).
Proof.
  intros Hp Hu Hn Ha route. unfold ForwardingService_handle_message. rewrite Hp. cbn -[registration_address]. split; [done|]. intros random g1 ->.
  rewrite registration_address_text by done. rewrite Ha. cbn. split; [done|]. intros [] g1 ->.
  fold route. unfold Forwarder_create. destruct (Forwarder_outgoing route) as [ac|e|] eqn:Eac; cbn.
  - split; [done|]. intros r g1 ->. split; [done|]. split; [done|]. intros _. by exists ac.
  - split; [done|]. split; [done|]. intros Hr. unfold Forwarder_outgoing in Eac.
    destruct (Route_len route =? 1)%nat; [done|]. by destruct route.
  - split; [done|]. unfold Forwarder_outgoing in Eac. destruct (Route_len route =? 1)%nat; [done|]. by destruct route.
Qed.

(** A registration opens any worker to those who may reach the forwarders.
    The service makes the address that a registration asks for a consumer before
    it tries to start a forwarder there.  So whoever can register may name any
    worker of the node: whatever comes of the start, which fails if the worker
    exists, the worker is afterwards a consumer of each flow control of the
    forwarders, and everything that comes from its producers is let through. *)
Theorem registration_opens_any_worker (options : ForwardingServiceOptions) (msg : Routed unit) (b : byte) (name : bytes)
    (victim : Address) (id : FlowControlId) (r : oresult unit) (g g' : fview) :
  id ∈ consumer_forwarder options ->
  payload (transport_message (local_msg msg)) = b :: name -> utf8_valid name = true -> name <> str "register" ->
  Address_from_string name = Ok victim ->
  execs feff (ForwardingService_handle_message options msg) g (Some r) g' ->
  mem (fv_flow g') id victim /\
  forall spawner m, Route_next (RelayMessage_onward_route m) = Ok victim ->
    FlowControlOutgoing_is_authorized (mkFlowControlAC (fv_flow g') id spawner) m = Ok true.
Proof.
  intros Hid Hp Hu Hn Ha Hex.
  destruct (ensures_sound _ _ _ _ _ _ _ Hex (service_ensures options msg g b name victim Hp Hu Hn Ha)) as [_ HQ].
  destruct (HQ r eq_refl) as [Hf _].
  assert (mem (fv_flow g') id victim) as Hm.
  { rewrite Hf. apply mem_add_consumers. by right. }
  split; [done|]. intros spawner m Hnext. unfold FlowControlOutgoing_is_authorized. rewrite Hnext. cbn.
  unfold is_consumer. cbn. by rewrite bool_decide_true.
Qed.

(** ** The remote forwarder *)

Lemma text_ends_with_refl s : text_ends_with s s = true.
Proof. unfold text_ends_with. rewrite Nat.leb_refl, Nat.sub_diag. cbn. by rewrite bool_decide_true. Qed.

Lemma display_local name :
  utf8_valid name = true -> strip_text_prefix (str "0#") (Address_display (mkAddress LOCAL name)) = Some name.
Proof.
  intros Hu. unfold Address_display, from_utf8. cbn [a_inner a_tt]. rewrite Hu. cbn [default].
  change (TransportType_display LOCAL ++ str "#" ++ name) with (Byte.x30 :: Byte.x23 :: name).
  unfold strip_text_prefix. cbn. done.
Qed.

Lemma beat_ensures self g I (Q : oresult unit -> fview -> Prop) :
  (forall h, I (mkFView (WRemoteForwarder (with_completion (rf_completion_msg_sent self) h self))
                  (fv_flow g) (fv_forwarded g) (fv_sent g) (fv_started g))) -> I g ->
  (forall h, Q (Ok tt) (mkFView (WRemoteForwarder (with_completion (rf_completion_msg_sent self) h self))
                  (fv_flow g) (fv_forwarded g) (fv_sent g) (fv_started g))) ->
  fv_self g = WRemoteForwarder self ->
  ensures feff (beat self) g I Q.
Proof.
  intros HI Hg HQ Hs. unfold beat. destruct (rf_heartbeat self) as [h|] eqn:Eh.
  - unfold DelayedEvent_schedule, DelayedEvent_cancel. destruct (de_abort_handle h); cbn.
    + split; [done|]. intros [] g1 ->. split; [done|]. intros x g1 ->. split; [done|]. intros [] g1 ->. by split.
    + split; [done|]. intros x g1 ->. split; [done|]. intros [] g1 ->. by split.
  - split; [done|]. specialize (HQ None). destruct g. cbn in *. subst. by destruct self; cbn in *; subst.
Qed.

(** The answer to its registration. *)
Lemma answer_ensures `{!ForwardCodecLaws} self msg name body g :
  fv_self g = WRemoteForwarder self -> rf_completion_msg_sent self = false -> rf_registration_payload self = name ->
  utf8_valid name = true -> encode_text name = Some body ->
  msg_addr msg = main_remote (rf_addresses self) -> main_remote (rf_addresses self) <> heartbeat_address (rf_addresses self) ->
  let t := transport_message (local_msg msg) in
  onward_route t = [main_remote (rf_addresses self)] -> payload t = body ->
  list.last (return_route t) = Some (mkAddress LOCAL name) ->
  ensures feff (RemoteForwarder_handle_message self msg) g (fun _ => True) (fun r g' => r = Ok tt ->
    fv_sent g' = fv_sent g ++
      [([completion_callback (rf_addresses self)],
        encode_info (mkRemoteForwarderInfo (return_route t) name (main_remote (rf_addresses self)) (rf_flow_control_id self)),
        main_remote (rf_addresses self))] /\
    exists h, fv_self g' = WRemoteForwarder (with_completion true h self)).
Proof.
  intros Hs Hc Hn Hu Hb Ha Hne t Ho Hp Hl. unfold RemoteForwarder_handle_message.
  rewrite decide_False by congruence. rewrite decide_True by done. fold t. rewrite Ho. cbn [Route_step of_route map_err rbind plift ptry pbind Route_next head ok_or].
  unfold handle_service_message. rewrite Hp, (text_as_vec _ _ Hb). cbn [ok_or plift ptry pbind].
  unfold from_utf8. rewrite Hu. cbn [ok_or plift ptry pbind]. rewrite Hn, text_ends_with_refl, Hc. cbn [negb].
  unfold Route_recipient. rewrite Hl. cbn [ok_or of_route map_err plift ptry pbind].
  rewrite display_local by done. cbn. split; [done|]. intros r g1 ->.
  destruct r as [[]|e|]; cbn; [|by split|by split]. split; [done|]. intros [] g1 ->.
  apply (beat_ensures (with_completion true (rf_heartbeat self) self)); cbn; [done..| |done].
  intros h _. split; [done|]. by exists h.
Qed.

Lemma no_sep_address name : Byte.x23 ∉ name -> Address_from_string name = Ok (mkAddress LOCAL name).
Proof. intros H. unfold Address_from_string. by rewrite Address_from_str_local. Qed.

(** A registration comes back.  A remote forwarder registers a name of less
    than 128 bytes; the service starts a forwarder under that name which leads to
    where the registration came from; the forwarder answers with the name; and the
    remote forwarder that gets this answer reports the name as its address, with
    the route on which the answer came. *)
Theorem registration_comes_back `{!ForwardCodecLaws} (self : RemoteForwarder) (name : bytes) :
  rf_registration_payload self = name -> utf8_valid name = true -> Byte.x23 ∉ name -> name <> str "register" ->
  (Z.of_nat (length name) < 128)%Z -> rf_completion_msg_sent self = false ->
  main_remote (rf_addresses self) <> heartbeat_address (rf_addresses self) ->
  let own := mkAddress LOCAL name in
  exists body, encode_text name = Some body /\
  (forall r g g', execs feff (RemoteForwarder_initialize self) g (Some r) g' ->
     fv_sent g' = fv_sent g ++ [(rf_registration_route self, Some body, main_remote (rf_addresses self))]) /\
  (forall options msg r g g', payload (transport_message (local_msg msg)) = body ->
     return_route (transport_message (local_msg msg)) <> [] ->
     execs feff (ForwardingService_handle_message options msg) g (Some r) g' ->
     exists ac, fv_started g' = fv_started g ++
       [(main_mailboxes own (forwarders_incoming_access_control options) ac,
         WForwarder (mkForwarder (return_route (transport_message (local_msg msg))) (Some body)))]) /\
  (forall route g g', fv_self g = WForwarder (mkForwarder route (Some body)) ->
     execs feff (Forwarder_initialize own (mkForwarder route (Some body))) g (Some (Ok tt)) g' ->
     fv_forwarded g' = fv_forwarded g ++ [(mkLocalMessage (TransportMessage_v1 route [own] body) [], own)]) /\
  (forall msg g g', let t := transport_message (local_msg msg) in
     fv_self g = WRemoteForwarder self -> msg_addr msg = main_remote (rf_addresses self) ->
     onward_route t = [main_remote (rf_addresses self)] -> payload t = body -> list.last (return_route t) = Some own ->
     execs feff (RemoteForwarder_handle_message self msg) g (Some (Ok tt)) g' ->
     fv_sent g' = fv_sent g ++
       [([completion_callback (rf_addresses self)],
         encode_info (mkRemoteForwarderInfo (return_route t) name (main_remote (rf_addresses self)) (rf_flow_control_id self)),
         main_remote (rf_addresses self))]).
Proof.
  intros Hn Hu Hsep Hreg Hlen Hc Hne own. pose proof (no_sep_address name Hsep) as Haddr.
  pose proof (text_layout name Hlen) as Hb. eexists. split; [exact Hb|]. split_and!.
  - intros r g g' Hex. enough (ensures feff (RemoteForwarder_initialize self) g (fun _ => True) (fun _ g' =>
      fv_sent g' = fv_sent g ++ [(rf_registration_route self, Some (byte_of (Z.of_nat (length name)) :: name), main_remote (rf_addresses self))])) as Hen
      by (destruct (ensures_sound _ _ _ _ _ _ _ Hex Hen) as [_ HQ]; by eapply HQ).
    unfold RemoteForwarder_initialize, register. rewrite Hn, Hb. cbn. split; [done|]. intros x g1 ->. by split.
  - intros options msg r g g' Hp Hr Hex.
    destruct (ensures_sound _ _ _ _ _ _ _ Hex (service_ensures options msg g _ name own Hp Hu Hreg Haddr)) as [_ HQ].
    destruct (HQ r eq_refl) as [_ Hst]. destruct (Hst Hr) as (ac & _ & Est). by exists ac.
  - intros route g g' Hs Hex. destruct (initialized _ _ _ _ _ Hs Hex) as [_ Ho _]. by rewrite Ho, app_nil_r.
  - intros msg g g' t Hs Ha Ho Hp Hl Hex.
    destruct (ensures_sound _ _ _ _ _ _ _ Hex (answer_ensures self msg name _ g Hs Hc Hn Hu Hb Ha Hne Ho Hp Hl)) as [_ HQ].
    by destruct (HQ _ eq_refl eq_refl) as [Hsent _].
Qed.

(** *** Its sessions *)

(** What a remote forwarder passes on of a message. *)
Definition passed (a : ForwarderAddresses) (m : Routed unit) : option LocalMessage :=
  let t := transport_message (local_msg m) in
  if decide (msg_addr m = heartbeat_address a) then None
  else if decide (msg_addr m = main_remote a) then
    match onward_route t with
    | _ :: next :: rest =>
        if decide (next = main_remote a) then None
        else Some (mkLocalMessage (mkTransportMessage (version t) (next :: rest) (return_route t) (payload t))
                     (local_info (local_msg m)))
    | _ => None
    end
  else None.

Definition remote_handle (m : Routed unit) (g : fview) : fprog (oresult unit) :=
  match fv_self g with
  | WRemoteForwarder self => RemoteForwarder_handle_message self m
  | _ => PPanic
  end.

Record passes (self : RemoteForwarder) (first : list (LocalMessage * Address)) (ls : list LocalMessage) (g : fview) : Prop := {
  pa_self : exists c h, fv_self g = WRemoteForwarder (with_completion c h self);
  pa_out : fv_forwarded g = first ++ map (fun l => (l, main_internal (rf_addresses self))) ls
}.

Definition passes_most (self : RemoteForwarder) first ls (g : fview) : Prop :=
  fv_forwarded g `prefix_of` first ++ map (fun l => (l, main_internal (rf_addresses self))) ls.

Lemma passes_passes_most self first ls g : passes self first ls g -> passes_most self first ls g.
Proof. intros [_ H]. unfold passes_most. by rewrite H. Qed.

Lemma with_completion_twice b h b' h' self :
  with_completion b h (with_completion b' h' self) = with_completion b h self.
Proof. done. Qed.

Lemma passes_beat self c h first ls g :
  fv_self g = WRemoteForwarder (with_completion c h self) -> passes self first ls g ->
  ensures feff (beat (with_completion c h self)) g (passes_most self first ls) (fun _ => passes self first ls).
Proof.
  intros Hs [H1 H2]. apply beat_ensures; try done.
  - intros h'. by apply passes_passes_most; split; [eexists _, _|].
  - by apply passes_passes_most.
  - intros h'. by split; [eexists _, _|].
Qed.

(** Nothing is passed on here. *)
Lemma passes_service self c h first ls g route body :
  fv_self g = WRemoteForwarder (with_completion c h self) -> passes self first ls g ->
  ensures feff (handle_service_message (with_completion c h self) route body) g
    (passes_most self first ls) (fun _ => passes self first ls).
Proof.
  intros Hs Hg. pose proof (passes_passes_most _ _ _ _ Hg) as Hm.
  unfold handle_service_message. destruct (decode_vec body) as [p|]; [|by split]. cbn [ok_or plift ptry pbind].
  destruct (from_utf8 p) as [p'|]; [|by split]. cbn [ok_or plift ptry pbind].
  destruct (text_ends_with _ _); cbn [negb]; [|by split].
  cbn [rf_completion_msg_sent with_completion]. destruct c; [by apply (passes_beat self true h)|].
  destruct (of_route (Route_recipient route)) as [a|e|]; cbn [plift ptry pbind]; [|by split|by split].
  destruct (ok_or _ _) as [x|e|]; cbn [plift ptry pbind]; [|by split|by split].
  cbn. split; [done|]. intros r g1 ->. destruct Hg as [H1 H2].
  destruct r as [[]|e|]; cbn; [|by split; [|split]|by split]. split; [done|]. intros [] g1 ->.
  apply (passes_beat self true h); [done|]. by split; [eexists _, _|].
Qed.

Lemma passes_step self first ls m g :
  passes self first ls g ->
  ensures feff (remote_handle m g) g (passes_most self first (ls ++ option_list (passed (rf_addresses self) m)))
    (fun _ => passes self first (ls ++ option_list (passed (rf_addresses self) m))).
Proof.
  intros Hg. pose proof Hg as [(c & h & Hs) Ho]. unfold remote_handle, passed. rewrite Hs.
  unfold RemoteForwarder_handle_message. cbn [rf_addresses with_completion].
  case_decide as Eh; [|case_decide as Er]; cbn [option_list]; rewrite ?app_nil_r.
  - apply ensures_try. unfold register. cbn. split; [by apply passes_passes_most|]. intros r g1 ->.
    assert (forall x, passes self first ls (mkFView (fv_self g) (fv_flow g) (fv_forwarded g) x (fv_started g))) as Hp
      by (intros x; by split; [eexists _, _|]).
    destruct r as [[]|e|]; cbn; (split; [by apply passes_passes_most|]).
    + by apply (passes_beat self c h).
    + by split; [apply passes_passes_most|].
    + by apply passes_passes_most.
  - destruct m as [u ma sa [t li]]. cbn [local_msg transport_message local_info].
    destruct (onward_route t) as [|a [|next rest]]; cbn [Route_step of_route map_err rbind plift ptry pbind Route_next head ok_or option_list];
      rewrite ?app_nil_r.
    + split; [by apply passes_passes_most|done].
    + by apply passes_service.
    + case_decide as En; cbn [option_list]; rewrite ?app_nil_r; [by split; [apply passes_passes_most|]|].
      apply ensures_try. cbn. split.
      { unfold passes_most. rewrite Ho, map_app, app_assoc. by apply prefix_app_r. }
      intros r g1 ->. set (g1 := mkFView _ _ _ _ _).
      assert (forall l, passes self first (ls ++ [l]) (mkFView (fv_self g) (fv_flow g)
        (fv_forwarded g ++ [(l, main_internal (rf_addresses self))]) (fv_sent g) (fv_started g))) as Hpass.
      { intros l. split; [by eexists _, _|]. cbn. by rewrite Ho, map_app, <-app_assoc. }
      destruct r as [[]|e|]; cbn.
      * split; [by apply passes_passes_most|]. by apply (passes_beat self c h).
      * by split; [apply passes_passes_most|split; [apply passes_passes_most|]].
      * split; [by apply passes_passes_most|]. by apply passes_passes_most.
  - split; [by apply passes_passes_most|done].
Qed.

Definition all_passed (a : ForwarderAddresses) (ms : list (Routed unit)) : list LocalMessage := omap (passed a) ms.

Lemma all_passed_snoc a ms m : all_passed a (ms ++ [m]) = all_passed a ms ++ option_list (passed a m).
Proof. unfold all_passed. rewrite omap_app. cbn. by destruct (passed a m). Qed.

(** A remote forwarder reaches the consumers of its flow control only.  It is
    started with the flow control of the producer over which it registers.  In any
    session it tries to pass on the messages that come to its remote address and
    have somewhere to go, in order, without that address, all from its internal
    address; and the mailboxes it was started with let such a message out only if
    its next hop is, at that time, a consumer of that flow control. *)
Theorem remote_forwarder_reaches_consumers_only (callback : nat) (addresses : ForwarderAddresses) (route : Route)
    (registration : bytes) (heartbeat : option DelayedEvent) (interval : Z) (next : Address) (id : FlowControlId)
    (r : oresult RemoteForwarderInfo) (g g1 : fview) :
  head route = Some next -> flow_of (fv_flow g) next = Some id ->
  execs feff (start_remote_forwarder callback addresses route registration heartbeat interval) g (Some r) g1 ->
  let self := mkRemoteForwarder addresses false route registration (Some id) heartbeat interval in
  mem (fv_flow g1) id (main_remote addresses) /\ flow_of (fv_flow g1) (main_internal addresses) = Some id /\
  exists mailboxes, fv_started g1 = fv_started g ++ [(mailboxes, WRemoteForwarder self)] /\
  forall ms g2 g', fv_self g2 = WRemoteForwarder self -> session feff remote_handle ms g2 g' ->
    fv_forwarded g' `prefix_of` fv_forwarded g2 ++ map (fun l => (l, main_internal addresses)) (all_passed addresses ms) /\
    forall l fc destination, l ∈ all_passed addresses ms ->
      Mailboxes_is_outgoing_authorized (now fc mailboxes) (mkRelayMessage (main_internal addresses) destination l) = Ok true ->
      exists hop, Route_next (onward_route (transport_message l)) = Ok hop /\ mem fc id hop.
Proof.
  intros Hn Hid Hex self.
  set (mailboxes := RemoteForwarder_mailboxes addresses (de_address <$> heartbeat)
                      (RemoteForwarderOptions_create_access_control (Some id))).
  assert (fv_started g1 = fv_started g ++ [(mailboxes, WRemoteForwarder self)] /\
          fv_flow g1 = add_producer (main_internal addresses) id None [] (add_consumer (main_remote addresses) id (fv_flow g)))
    as [Hst Hfl].
  { enough (ensures feff (start_remote_forwarder callback addresses route registration heartbeat interval) g (fun _ => True)
      (fun _ g1 => fv_started g1 = fv_started g ++ [(mailboxes, WRemoteForwarder self)] /\
         fv_flow g1 = add_producer (main_internal addresses) id None [] (add_consumer (main_remote addresses) id (fv_flow g)))) as Hen
      by (destruct (ensures_sound _ _ _ _ _ _ _ Hex Hen) as [_ HQ]; by eapply HQ).
    unfold start_remote_forwarder, Route_next. rewrite Hn. cbn. split; [done|]. intros fc g2 [-> ->].
    unfold flow_of in Hid. destruct (find_flow_control_with_producer_address _ _) as [info|]; [|done].
    cbn in Hid. injection Hid as Hid. cbn. split; [done|]. intros [] g2 ->. split; [done|]. intros [] g2 ->.
    split; [done|]. intros x g2 ->. rewrite Hid.
    destruct x as [[]|e|]; cbn; [|by split|by split]. split; [done|]. intros x g2 ->. destruct x; by split. }
  split_and!.
  - rewrite Hfl. change (mem (add_consumer (main_remote addresses) id (fv_flow g)) id (main_remote addresses)).
    apply mem_add_consumer. by right.
  - rewrite Hfl. unfold flow_of, find_flow_control_with_producer_address. cbn. by simplify_map_eq.
  - exists mailboxes. split; [done|]. intros ms g2 g' Hs Hrun. split.
    + pose (I ms := passes self (fv_forwarded g2) (all_passed addresses ms)).
      pose (J ms := passes_most self (fv_forwarded g2) (all_passed addresses ms)).
      change (J ms g'). apply (session_sound feff remote_handle I J ms g2 g') with (done := []); [| |done|].
      * intros. by apply passes_passes_most.
      * intros ms0 m g0 HI. unfold I, J. rewrite all_passed_snoc. by apply (passes_step self).
      * split; [|cbn; by rewrite app_nil_r]. exists false, heartbeat. by rewrite Hs.
    + intros l fc destination Hl. unfold Mailboxes_is_outgoing_authorized, Mailboxes_find_mailbox. cbn.
      rewrite decide_True by done. unfold dyn_outgoing, outgoing_is_authorized, FlowControl_outgoing, FlowControlOutgoing_is_authorized.
      unfold RelayMessage_onward_route. cbn. destruct (Route_next _) as [hop|e|]; cbn; [|done|done].
      unfold is_consumer. cbn. case_bool_decide as Hc; [|done]. intros _. by exists hop.
Qed.
End Spec.
