(* ===== verification/ForwardingExamples.v ===== *)
(** * Concrete forwarders

    An encoding, and runs of forwarders to which the theorems are applied. *)

From Stdlib Require Import ZArith Lia.
From Stdlib Require Strings.Byte Strings.String.
From stdpp Require Import base gmap list numbers option countable.
From S2P Require Import Prelude RustStr Routing AccessControl FlowControl Router Node Execution Pipes.
From S2P Require Import Forwarding ForwardingSpec.

Definition local (s : bytes) : Address := mkAddress LOCAL s.

(** Texts of less than 128 bytes. *)
#[export] Instance toy_forward_codec : ForwardCodec := {|
  encode_text s := if (Z.of_nat (length s) <? 128)%Z then Some (byte_of (Z.of_nat (length s)) :: s) else None;
  encode_vec s := if (Z.of_nat (length s) <? 128)%Z then Some (byte_of (Z.of_nat (length s)) :: s) else None;
  decode_vec b := match b with _ :: s => Some s | [] => None end;
  encode_info _ := Some [];
  decode_info _ := None
|}.

#[export] Instance toy_forward_codec_laws : ForwardCodecLaws.
Proof.
  split.
  - intros s Hs. cbn. by apply Z.ltb_lt in Hs as ->.
  - intros s b. cbn. destruct (_ <? _)%Z; [|done]. by intros [= <-].
Qed.

Definition message (to : Address) (onward back : Route) (p : bytes) : Routed unit :=
  mkRouted tt to (local (str "someone")) (mkLocalMessage (TransportMessage_v1 onward back p) []).

(** ** A forwarder *)

Definition route : Route := [local (str "tcp"); local (str "client")].
Definition body : bytes := Byte.x05 :: str "alias".
Definition registered : fview := mkFView (WForwarder (mkForwarder route (Some body))) FlowControls_new [] [] [].
Definition hello : Routed unit :=
  message (local (str "alias")) [local (str "alias"); local (str "echo")] [local (str "tcp2")] (str "hello").

Lemma forwarder_relays_along_registration_witness :
  exists g', completes feff (forwarder_handle (local (str "alias"))) [hello]
      (mkFView (WForwarder (mkForwarder [local (str "tcp")] None)) FlowControls_new
         [(mkLocalMessage (TransportMessage_v1 route [local (str "alias")] body) [], local (str "alias"))] [] []) g' /\
    map (onward_route ∘ transport_message ∘ fst) (fv_forwarded g') = [route; [local (str "tcp"); local (str "echo")]].
Proof.
  set (g1 := mkFView _ _ _ _ _).
  assert (execs feff (Forwarder_initialize (local (str "alias")) (mkForwarder route (Some body))) registered (Some (Ok tt)) g1) as Hi.
  { eapply (execs_call _ _ tt); [reflexivity|]. eapply (execs_call _ _ (Ok tt)); [reflexivity|].
    eapply (execs_call _ _ tt); [reflexivity|]. apply execs_ret. }
  assert (exists g', completes feff (forwarder_handle (local (str "alias"))) [hello] g1 g') as [g' Hc].
  { eexists. eapply completes_cons; [|constructor].
    eapply (execs_call _ _ FlowControls_new); [split; reflexivity|].
    eapply (execs_call _ _ FlowControls_new); [split; reflexivity|].
    eapply (execs_call _ _ (Ok tt)); [reflexivity|]. apply execs_ret. }
  exists g'. split; [exact Hc|].
  destruct (forwarder_relays_along_registration (local (str "alias")) route body [hello] registered g1 g' eq_refl Hi
              (completes_session _ _ _ _ _ Hc)) as (_ & H & _).
  rewrite (H Hc). reflexivity.
Defined.

(** ** A registration *)

Definition shared : FlowControlId := mkFlowControlId (str "listener").
Definition service : ForwardingServiceOptions := forwarder_as_consumer shared ForwardingServiceOptions_new.

Lemma registration_opens_any_worker_witness :
  exists g', execs feff (ForwardingService_handle_message service
      (message (local (str "forwarding_service")) [local (str "forwarding_service")] route (Byte.x05 :: str "admin")))
      registered (Some (Err (NodeFailed (CAccess (RouteErr IncompleteRoute))))) g' /\ mem (fv_flow g') shared (local (str "admin")).
Proof.
  assert (exists g', execs feff (ForwardingService_handle_message service
      (message (local (str "forwarding_service")) [local (str "forwarding_service")] route (Byte.x05 :: str "admin")))
      registered (Some (Err (NodeFailed (CAccess (RouteErr IncompleteRoute))))) g') as [g' Hex].
  { eexists. eapply (execs_call _ _ (local (str "random"))); [reflexivity|]. eapply (execs_call _ _ tt); [reflexivity|].
    eapply (execs_call _ _ (Err (CAccess (RouteErr IncompleteRoute)))); [reflexivity|]. apply execs_ret. }
  exists g'. split; [exact Hex|].
  refine (proj1 (registration_opens_any_worker service
            (message (local (str "forwarding_service")) [local (str "forwarding_service")] route (Byte.x05 :: str "admin"))
            Byte.x05 (str "admin") (local (str "admin")) shared _ registered g' _ _ _ _ _ Hex)); [by left | done..].
Defined.

Definition addresses : ForwarderAddresses :=
  mkForwarderAddresses (local (str "remote")) (local (str "internal")) (local (str "heartbeat")) (local (str "callback")).

Definition client : RemoteForwarder :=
  mkRemoteForwarder addresses false [local (str "tcp"); local (str "forwarding_service")] (str "alias") None None 10.

Lemma registration_comes_back_witness :
  encode_text (str "alias") = Some body /\
  forall r g g', execs feff (RemoteForwarder_initialize client) g (Some r) g' ->
    fv_sent g' = fv_sent g ++ [([local (str "tcp"); local (str "forwarding_service")], Some body, local (str "remote"))].
Proof.
  destruct (registration_comes_back client (str "alias")) as (b & Hb & H & _);
    [done | done | by apply (bool_decide_unpack _) | done | done | done | done |].
  split; [reflexivity|]. injection Hb as <-. exact H.
Defined.

(** ** A remote forwarder over a connection *)

Definition connected : fview :=
  mkFView (WForwarder (mkForwarder [] None))
    (add_producer (local (str "tcp")) shared None [] FlowControls_new) [] [] [].

Lemma remote_forwarder_reaches_consumers_only_witness :
  exists g1, execs feff (start_remote_forwarder 1 addresses [local (str "tcp"); local (str "forwarding_service")]
      (str "alias") None 10) connected (Some (Err (NodeFailed (CAccess (RouteErr IncompleteRoute))))) g1 /\
    mem (fv_flow g1) shared (local (str "remote")).
Proof.
  assert (exists g1, execs feff (start_remote_forwarder 1 addresses [local (str "tcp"); local (str "forwarding_service")]
      (str "alias") None 10) connected (Some (Err (NodeFailed (CAccess (RouteErr IncompleteRoute))))) g1) as [g1 Hex].
  { eexists. eapply (execs_call _ _ (fv_flow connected)); [split; reflexivity|].
    eapply (execs_call _ _ tt); [reflexivity|]. eapply (execs_call _ _ tt); [reflexivity|].
    eapply (execs_call _ _ (Ok tt)); [reflexivity|].
    eapply (execs_call _ _ (Err (CAccess (RouteErr IncompleteRoute)))); [reflexivity|]. apply execs_ret. }
  exists g1. split; [exact Hex|].
  refine (proj1 (remote_forwarder_reaches_consumers_only 1 addresses [local (str "tcp"); local (str "forwarding_service")]
            (str "alias") None 10 (local (str "tcp")) shared _ connected g1 eq_refl _ Hex)). by vm_compute.
Defined.
