(* ===== verification/Api.v ===== *)
(** * Requests and responses (ockam_core/src/api.rs, ockam_node/src/{api, rpc_client}.rs)

    Services of a node are asked by a request header with an optional body, and
    answer with a response header and an optional body, one after the other in
    CBOR.  The encoding of a type is an instance of [Cbor]; a decoder is the bytes
    it has not read yet. *)

From Stdlib Require Import ZArith Lia.
From Stdlib Require Strings.Byte Strings.String.
From stdpp Require Import base gmap list numbers option countable.
From S2P Require Import Prelude RustStr Routing AccessControl FlowControl Attributes Router Node.

(** ** CBOR *)

Class Cbor (T : Type) := {
  cbor_encode : T -> option bytes;
  cbor_decode : bytes -> option (T * bytes)
}.

(** An item is read back from the front of what follows it. *)
Class CborLaws (T : Type) `{Cbor T} : Prop := {
  cbor_roundtrip (x : T) b rest : cbor_encode x = Some b -> cbor_decode (b ++ rest) = Some (x, rest)
}.

(** ** The data *)

Inductive Method := Get | Post | Put | Delete | Patch.

#[export] Instance Method_eq_dec : EqDecision Method.
Proof. solve_decision. Defined.

Inductive ApiStatus :=
| StatusOk | BadRequest | Unauthorized | Forbidden | NotFound | Conflict | MethodNotAllowed
| InternalServerError | NotImplemented.

#[export] Instance ApiStatus_eq_dec : EqDecision ApiStatus.
Proof. solve_decision. Defined.

Definition Method_display (self : Method) : bytes :=
  match self with
  | Get => str "GET"
  | Post => str "POST"
  | Put => str "PUT"
  | Delete => str "DELETE"
  | Patch => str "PATCH"
  end.

Definition ApiStatus_display (self : ApiStatus) : bytes :=
  match self with
  | StatusOk => str "200 Ok"
  | BadRequest => str "400 BadRequest"
  | Unauthorized => str "401 Unauthorized"
  | Forbidden => str "403 Forbidden"
  | NotFound => str "404 NotFound"
  | Conflict => str "409 Conflict"
  | MethodNotAllowed => str "405 MethodNotAllowed"
  | InternalServerError => str "500 InternalServerError"
  | NotImplemented => str "501 NotImplemented"
  end.

(** A 32-bit number; [random] is [rand::random::<u32>()]. *)
Definition Id_fresh (random : Z) : Z := Z.min (2 ^ 32 - 1) (random + 1).

Record Request := mkRequest {
  rq_id : Z;
  rq_path : bytes;
  rq_method : option Method;
  rq_has_body : bool
}.

Record Response := mkResponse {
  rs_id : Z;
  rs_re : Z;
  rs_status : option ApiStatus;
  rs_has_body : bool
}.

Inductive ApiError := mkApiError
  (ae_path : option bytes) (ae_method : option Method) (ae_message : option bytes) (ae_cause : option ApiError).

Definition ae_message (e : ApiError) : option bytes := let 'mkApiError _ _ m _ := e in m.

(** Errors of [ockam_core], as far as these functions make them. *)
Inductive rpc_error :=
| RpcDecode
| RpcEncode
| RpcNoBody
| RpcBody
| RpcMessage (msg : bytes)
| RpcContext (e : cerror).

Notation rresult A := (result rpc_error A).

(** ** Path segments *)

(** [str::splitn(n, '/')] *)
Fixpoint splitn_go (n : nat) (cur s : bytes) : list bytes :=
  match s with
  | [] => [cur]
  | c :: s =>
      if bool_decide (c = Byte.x2f) && (1 <? n)%nat then cur :: splitn_go (n - 1) [] s
      else splitn_go n (cur ++ [c]) s
  end.

Definition splitn (n : nat) (s : bytes) : list bytes :=
  match n with
  | O => []
  | _ => splitn_go n [] s
  end.

(** [str::trim_start_matches('/')] *)
Fixpoint trim_slashes (s : bytes) : bytes :=
  match s with
  | Byte.x2f :: s => trim_slashes s
  | _ => s
  end.

Definition Segments_parse (n : nat) (s : bytes) : list bytes :=
  match s with
  | Byte.x2f :: _ => splitn n (trim_slashes s)
  | _ => splitn n s
  end.

(** ** Requests *)

Record RequestBuilder (T : Type) := mkRequestBuilder { qb_header : Request; qb_body : option T }.
Arguments mkRequestBuilder {T}.
Arguments qb_header {T}.
Arguments qb_body {T}.

(** [id] is fresh. *)
Definition Request_new (id : Z) (method : Method) (path : bytes) (has_body : bool) : Request :=
  mkRequest id path (Some method) has_body.

Definition Request_builder (id : Z) (method : Method) (path : bytes) : RequestBuilder unit :=
  mkRequestBuilder (Request_new id method path false) None.

Definition Request_get (id : Z) (path : bytes) : RequestBuilder unit := Request_builder id Get path.
Definition Request_post (id : Z) (path : bytes) : RequestBuilder unit := Request_builder id Post path.
Definition Request_put (id : Z) (path : bytes) : RequestBuilder unit := Request_builder id Put path.
Definition Request_delete (id : Z) (path : bytes) : RequestBuilder unit := Request_builder id Delete path.
Definition Request_patch (id : Z) (path : bytes) : RequestBuilder unit := Request_builder id Patch path.

Definition RequestBuilder_body {T} (b : T) (self : RequestBuilder unit) : RequestBuilder T :=
  let h := qb_header self in
  mkRequestBuilder (mkRequest (rq_id h) (rq_path h) (rq_method h) true) (Some b).

Definition path_segments (n : nat) (self : Request) : list bytes := Segments_parse n (rq_path self).

(** ** Responses *)

Record ResponseBuilder (T : Type) := mkResponseBuilder { sb_header : Response; sb_body : option T }.
Arguments mkResponseBuilder {T}.
Arguments sb_header {T}.
Arguments sb_body {T}.

Definition Response_new (id re : Z) (status : ApiStatus) (has_body : bool) : Response :=
  mkResponse id re (Some status) has_body.

Definition Response_builder (id re : Z) (status : ApiStatus) : ResponseBuilder unit :=
  mkResponseBuilder (Response_new id re status false) None.

Definition Response_ok (id re : Z) : ResponseBuilder unit := Response_builder id re StatusOk.
Definition Response_bad_request (id re : Z) : ResponseBuilder unit := Response_builder id re BadRequest.
Definition Response_not_found (id re : Z) : ResponseBuilder unit := Response_builder id re NotFound.
Definition Response_not_implemented (id re : Z) : ResponseBuilder unit := Response_builder id re NotImplemented.
Definition Response_unauthorized (id re : Z) : ResponseBuilder unit := Response_builder id re Unauthorized.
Definition Response_forbidden (id re : Z) : ResponseBuilder unit := Response_builder id re Forbidden.
Definition Response_internal_error (id re : Z) : ResponseBuilder unit := Response_builder id re InternalServerError.

Definition ResponseBuilder_body {T} (b : T) (self : ResponseBuilder unit) : ResponseBuilder T :=
  let h := sb_header self in
  mkResponseBuilder (mkResponse (rs_id h) (rs_re h) (rs_status h) true) (Some b).

Definition ApiError_new (path : bytes) : ApiError := mkApiError (Some path) None None None.
Definition ApiError_with_method (m : Method) (self : ApiError) : ApiError :=
  let 'mkApiError p _ msg c := self in mkApiError p (Some m) msg c.
Definition ApiError_with_message (msg : bytes) (self : ApiError) : ApiError :=
  let 'mkApiError p m _ c := self in mkApiError p m (Some msg) c.

(** [if let Some(m) = r.method() { e = e.with_method(m) }] *)
Definition error_for (r : Request) (m : bytes) : ApiError :=
  let e := ApiError_with_message m (ApiError_new (rq_path r)) in
  match rq_method r with
  | Some m => ApiError_with_method m e
  | None => e
  end.

Definition forbidden (id : Z) (r : Request) (m : bytes) : ResponseBuilder ApiError :=
  ResponseBuilder_body (error_for r m) (Response_builder id (rq_id r) Forbidden).

Definition bad_request (id : Z) (r : Request) (msg : bytes) : ResponseBuilder ApiError :=
  ResponseBuilder_body (error_for r msg) (Response_bad_request id (rq_id r)).

Definition internal_error (id : Z) (r : Request) (msg : bytes) : ResponseBuilder ApiError :=
  ResponseBuilder_body (error_for r msg) (Response_internal_error id (rq_id r)).

Definition unknown_path (id : Z) (r : Request) : ResponseBuilder ApiError := bad_request id r (str "unknown path").

Definition invalid_method (id : Z) (r : Request) : ResponseBuilder ApiError :=
  match rq_method r with
  | Some m =>
      ResponseBuilder_body (ApiError_with_method m (ApiError_new (rq_path r)))
        (Response_builder id (rq_id r) MethodNotAllowed)
  | None =>
      ResponseBuilder_body (ApiError_with_message (str "unknown method") (ApiError_new (rq_path r)))
        (Response_not_implemented id (rq_id r))
  end.

Section Codec.
Context `{Cbor Request} `{Cbor Response} `{Cbor ApiError}.

(** [encode]: the header, then the body. *)
Definition encode_parts {A B} `{Cbor A} `{Cbor B} (header : A) (body : option B) : rresult bytes :=
  let? h := ok_or (cbor_encode header) RpcEncode in
  match body with
  | Some b => let? b := ok_or (cbor_encode b) RpcEncode in Ok (h ++ b)
  | None => Ok h
  end.

Definition RequestBuilder_to_vec {T} `{Cbor T} (self : RequestBuilder T) : rresult bytes :=
  encode_parts (qb_header self) (qb_body self).

Definition ResponseBuilder_to_vec {T} `{Cbor T} (self : ResponseBuilder T) : rresult bytes :=
  encode_parts (sb_header self) (sb_body self).

Definition decode_next {T} `{Cbor T} (dec : bytes) : rresult (T * bytes) := ok_or (cbor_decode dec) RpcDecode.

Definition Response_is_ok (self : Response) : bool := bool_decide (rs_status self = Some StatusOk).

(** [next_is_string] is [matches!(dec.datatype(), Ok(Type::String))]. *)
Context `{Cbor bytes} (next_is_string : bytes -> bool).

Definition message_text (m : option bytes) : bytes :=
  match m with
  | Some msg => str "Message: " ++ msg
  | None => []
  end.

Definition parse_err_msg (response : Response) (dec : bytes) : bytes :=
  match rs_status response with
  | Some status =>
      if rs_has_body response then
        let err :=
          if next_is_string dec then message_text (fst <$> (cbor_decode dec : option (bytes * bytes)))
          else message_text ((cbor_decode dec : option (ApiError * bytes)) ≫= ae_message ∘ fst) in
        str "An error occurred while processing the request. Status code: " ++ ApiStatus_display status ++ str ". " ++ err
      else str "An error occurred while processing the request. Status code: " ++ ApiStatus_display status
  | None => str "No status code found in response"
  end.

Definition parse_response_body {T} `{Cbor T} (b : bytes) : rresult T :=
  let? (response, decoder) := decode_next (T := Response) b in
  if Response_is_ok response then
    if rs_has_body response then
      match cbor_decode decoder with
      | Some (t, _) => Ok t
      | None => Err RpcBody
      end
    else Err RpcNoBody
  else Err (RpcMessage (parse_err_msg response decoder)).

(** [error]: the answer of a service that has failed. *)
Definition response_error (label : bytes) (res : Response) (dec : bytes) : rpc_error :=
  if rs_has_body res then
    match (cbor_decode dec : option (ApiError * bytes)) with
    | Some (e, _) => RpcMessage (default label (ae_message e))
    | None => RpcDecode
    end
  else RpcMessage label.

Definition api_is_ok (label buf : bytes) : rresult unit :=
  let? (res, d) := decode_next (T := Response) buf in
  if bool_decide (rs_status res = Some StatusOk) then Ok tt else Err (response_error label res d).

Definition decode_option {T} `{Cbor T} (label buf : bytes) : rresult (option T) :=
  let? (res, d) := decode_next (T := Response) buf in
  match rs_status res with
  | Some StatusOk => let? (t, _) := decode_next (T := T) d in Ok (Some t)
  | Some NotFound => Ok None
  | _ => Err (response_error label res d)
  end.

(** ** Asking a service

    [ask] sends a request and waits for the bytes of the answer: it is
    [send_and_receive_extended] of the context of the client. *)

Inductive rcall : Type -> Type :=
| RAsk (route : Route) (request : bytes) : rcall (cresult bytes)
| RAskWithInfo (route : Route) (request : bytes) : rcall (cresult (bytes * list LocalInfo)).

Notation rprog A := (prog rcall no_event A).

Definition ask (route : Route) (request : bytes) : rprog (rresult bytes) :=
  do r <- pcall (RAsk route request); PRet (map_err RpcContext r).

(** ockam_node/src/api.rs *)
Definition request {T} `{Cbor T} (route : Route) (req : RequestBuilder T) : rprog (rresult bytes) :=
  do? buf <- plift (RequestBuilder_to_vec req);
  ask route buf.

Definition request_with_local_info {T} `{Cbor T} (route : Route) (req : RequestBuilder T)
  : rprog (rresult (bytes * list LocalInfo)) :=
  do? buf <- plift (RequestBuilder_to_vec req);
  do r <- pcall (RAskWithInfo route buf); PRet (map_err RpcContext r).

(** What a client makes of an answer. *)
Definition client_result {R} `{Cbor R} (answer : bytes) : rresult R :=
  let? (resp, d) := decode_next (T := Response) answer in
  if bool_decide (rs_status resp = Some StatusOk) then let? (r, _) := decode_next (T := R) d in Ok r
  else Err (response_error (str "request") resp d).

Definition client_done (answer : bytes) : rresult unit :=
  let? (resp, d) := decode_next (T := Response) answer in
  if bool_decide (rs_status resp = Some StatusOk) then Ok tt
  else Err (response_error (str "request") resp d).

Definition RpcClient_request {T R} `{Cbor T} `{Cbor R} (route : Route) (req : RequestBuilder T) : rprog (rresult R) :=
  do? buf <- plift (RequestBuilder_to_vec req);
  do? answer <- ask route buf;
  plift (client_result answer).

Definition RpcClient_request_no_resp_body {T} `{Cbor T} (route : Route) (req : RequestBuilder T) : rprog (rresult unit) :=
  do? buf <- plift (RequestBuilder_to_vec req);
  do? answer <- ask route buf;
  plift (client_done answer).
End Codec.
Notation rprog A := (prog rcall no_event A).

(** * Properties *)

(** Fresh identifiers are not the default one, whatever the random number. *)
Lemma Id_fresh_nonzero random : (0 <= random < 2 ^ 32 -> 0 < Id_fresh random < 2 ^ 32)%Z.
Proof. unfold Id_fresh. lia. Qed.

(** ** Paths *)

Lemma join_more (sep x : bytes) l : l <> [] -> join sep (x :: l) = x ++ sep ++ join sep l.
Proof. by destruct l. Qed.

Lemma splitn_go_nonempty n cur s : splitn_go n cur s <> [].
Proof. revert n cur. induction s as [|c s IH]; intros n cur; cbn; [done|]. by case_match. Qed.

Lemma splitn_go_join n cur s : join (str "/") (splitn_go n cur s) = cur ++ s.
Proof.
  revert n cur. induction s as [|c s IH]; intros n cur; cbn [splitn_go]; [by rewrite app_nil_r|].
  destruct (bool_decide (c = Byte.x2f) && (1 <? n)%nat) eqn:E.
  - apply andb_prop in E as [->%bool_decide_eq_true _].
    by rewrite join_more, IH by apply splitn_go_nonempty.
  - rewrite IH. by rewrite <-app_assoc.
Qed.

Lemma splitn_go_length n cur s : (1 <= n)%nat -> (length (splitn_go n cur s) <= n)%nat.
Proof.
  revert n cur. induction s as [|c s IH]; intros n cur Hn; cbn [splitn_go]; [cbn; lia|].
  destruct (bool_decide (c = Byte.x2f) && (1 <? n)%nat) eqn:E; [|by apply IH].
  apply andb_prop in E as [_ E%Nat.ltb_lt]. cbn. specialize (IH (n - 1)%nat [] ltac:(lia)). lia.
Qed.

(** Every piece but the last one is free of separators, and so is the last one
    unless all [n] pieces are used. *)
Lemma splitn_go_pieces n cur s p i :
  Byte.x2f ∉ cur -> splitn_go n cur s !! i = Some p -> (S i < n)%nat -> Byte.x2f ∉ p.
Proof.
  revert n cur i. induction s as [|c s IH]; intros n cur i Hc; cbn [splitn_go].
  { destruct i; [|done]. by intros [= <-]. }
  destruct (bool_decide (c = Byte.x2f) && (1 <? n)%nat) eqn:E.
  - destruct i as [|i]; cbn; [by intros [= <-]|]. intros Hi Hn. eapply (IH (n - 1)%nat []); [set_solver|exact Hi|lia].
  - intros Hi Hn. eapply IH; [|exact Hi|done]. apply andb_false_iff in E as [E%bool_decide_eq_false|E%Nat.ltb_ge]; [|lia].
    set_solver.
Qed.

(** Paths with fewer segments than asked for are split at every separator, and
    nothing is lost. *)
Lemma segments_spec n s :
  (1 <= n)%nat ->
  join (str "/") (Segments_parse n s) = (if starts_with (str "/") s then trim_slashes s else s) /\
  (length (Segments_parse n s) <= n)%nat /\
  forall p i, Segments_parse n s !! i = Some p -> (S i < n)%nat -> Byte.x2f ∉ p.
Proof.
  intros Hn. assert (forall t, splitn n t = splitn_go n [] t) as Hsp by (intros t; by destruct n; [lia|]).
  assert (Segments_parse n s = splitn_go n [] (if starts_with (str "/") s then trim_slashes s else s)) as ->.
  { rewrite <-Hsp. destruct s as [|c s]; [done|]. cbn. rewrite andb_true_r. unfold Segments_parse.
    destruct (decide (c = Byte.x2f)) as [->|Hc]; [by rewrite bool_decide_true|].
    rewrite bool_decide_false by congruence. by destruct c. }
  split_and!; [by rewrite splitn_go_join|by apply splitn_go_length|].
  intros p i Hp Hi. eapply splitn_go_pieces; [|exact Hp|exact Hi]. set_solver.
Qed.

(** ** Requests and responses come back *)

Section Roundtrip.
Context `{CQ : Cbor Request} `{CR : Cbor Response} `{CE : Cbor ApiError} `{CB : Cbor bytes}
  {LQ : CborLaws Request} {LR : CborLaws Response} {LE : CborLaws ApiError}.

Lemma encode_parts_roundtrip {A B} `{CA : Cbor A} `{CB' : Cbor B} {LA : CborLaws A} {LB : CborLaws B} (h : A) (b : B) buf :
  encode_parts h (Some b) = Ok buf ->
  exists d, cbor_decode buf = Some (h, d) /\ cbor_decode d = Some (b, []).
Proof.
  unfold encode_parts. destruct (cbor_encode h) as [eh|] eqn:Eh; [|done]. cbn.
  destruct (cbor_encode b) as [eb|] eqn:Eb; [|done]. cbn. intros [= <-]. exists eb.
  split; [by apply cbor_roundtrip|]. rewrite <-(app_nil_r eb). by apply cbor_roundtrip.
Qed.

Lemma encode_header_roundtrip {A B} `{CA : Cbor A} `{CB' : Cbor B} {LA : CborLaws A} (h : A) buf :
  encode_parts (B := B) h None = Ok buf -> cbor_decode buf = Some (h, []).
Proof.
  unfold encode_parts. destruct (cbor_encode h) as [eh|] eqn:Eh; [|done]. cbn. intros [= <-].
  rewrite <-(app_nil_r eh). by apply cbor_roundtrip.
Qed.

(** What is asked and answered comes back.  A service reads from an encoded
    request its header and then its body; and for a client that reads the encoded
    answer, a body with the status Ok is the result, and any error of the service
    is an error with its message. *)
Theorem request_response_roundtrip {T} `{CT : Cbor T} {LT : CborLaws T} (next_is_string : bytes -> bool) :
  (forall id method path (b : T) buf,
     RequestBuilder_to_vec (RequestBuilder_body b (Request_builder id method path)) = Ok buf ->
     exists d, cbor_decode buf = Some (mkRequest id path (Some method) true, d) /\ cbor_decode d = Some (b, [])) /\
  (forall id re (b : T) buf, ResponseBuilder_to_vec (ResponseBuilder_body b (Response_ok id re)) = Ok buf ->
     client_result buf = Ok b /\ parse_response_body next_is_string buf = Ok b /\ client_done buf = Ok tt /\
     forall label, decode_option label buf = Ok (Some b)) /\
  (forall id r msg make buf, make ∈ [forbidden; bad_request; internal_error] ->
     ResponseBuilder_to_vec (make id r msg) = Ok buf ->
     client_result (R := T) buf = Err (RpcMessage msg) /\ client_done buf = Err (RpcMessage msg) /\
     forall label, api_is_ok label buf = Err (RpcMessage msg)).
Proof.
  split_and!.
  - intros id method path b buf Hb. by apply encode_parts_roundtrip in Hb.
  - intros id re b buf Hb. apply encode_parts_roundtrip in Hb as (d & Hh & Hd). cbn in Hh.
    unfold client_result, client_done, parse_response_body, decode_option, decode_next. rewrite Hh. cbn. rewrite Hd. done.
  - intros id r msg make buf Hm Hb.
    assert (exists st m, make id r msg = mkResponseBuilder (mkResponse id (rq_id r) (Some st) true) (Some (mkApiError (Some (rq_path r)) m (Some msg) None)) /\
      st <> StatusOk) as (st & m & E & Hst).
    { assert (make = forbidden \/ make = bad_request \/ make = internal_error) as [->|[->| ->]] by set_solver;
        unfold forbidden, bad_request, internal_error, error_for; destruct (rq_method r); by eexists _, _. }
    rewrite E in Hb. apply encode_parts_roundtrip in Hb as (d & Hh & Hd). cbn in Hh.
    unfold client_result, client_done, api_is_ok, decode_next, response_error. rewrite Hh. cbn.
    rewrite (bool_decide_false (Some st = Some StatusOk)) by congruence. cbn in Hd. rewrite Hd. done.
Qed.
End Roundtrip.
