(* ===== verification/Interleaving.v ===== *)
(** * Programs that run at the same time

    Several programs share a state and take turns, one call at a time.  [safe] is
    what has to be shown of one of them, for any interference of the others that
    keeps the invariant and lets the state only grow; [interleaved_invariant] says
    that this is enough. *)

From stdpp Require Import base list option relations.
From S2P Require Import Prelude Node.

Section Interleaving.
Context {C D : Type -> Type} {G : Type} (run : forall X, C X -> X -> G -> G -> Prop).
Arguments run {X}.
Context (I : G -> Prop) (grows : G -> G -> Prop) `{!PreOrder grows}.

(** [Q] is to hold of the result, and of what the state grows to. *)
Fixpoint safe {A} (p : prog C D A) (g : G) (Q : A -> G -> Prop) : Prop :=
  match p with
  | PRet a => forall g', grows g g' -> I g' -> Q a g'
  | PPanic => True
  | PCall c k => forall g0 x g1, grows g g0 -> I g0 -> run c x g0 g1 -> I g1 /\ grows g0 g1 /\ safe (k x) g1 Q
  | PLoop _ _ _ | PSelect _ _ _ => False
  end.

Lemma safe_grows {A} (p : prog C D A) g g' Q : grows g g' -> safe p g Q -> safe p g' Q.
Proof.
  destruct p; cbn; [|done| |done|done].
  - intros Hg H g0 H0. apply H. by etrans.
  - intros Hg H g0 x g1 H0. apply H. by etrans.
Qed.

Lemma safe_weaken {A} (p : prog C D A) g (Q Q' : A -> G -> Prop) :
  (forall a g', grows g g' -> Q a g' -> Q' a g') -> safe p g Q -> safe p g Q'.
Proof.
  revert g. induction p as [A a|A|A X c k IH|A X Y x body IHb k IHk|A X Y q IHq d k IHk]; intros g HQ; cbn; [|done| |done|done].
  - intros H g' Hg HI. by apply HQ, H.
  - intros H g0 x g1 H0 HI Hr. destruct (H g0 x g1 H0 HI Hr) as (? & ? & Hs). split_and!; [done..|].
    eapply IH; [|exact Hs]. intros a g' Hg. apply HQ. etrans; [exact H0|]. by etrans.
Qed.

Lemma safe_bind {A B} (p : prog C D A) (f : A -> prog C D B) g Q :
  safe p g (fun a g => safe (f a) g Q) -> I g -> safe (pbind p f) g Q.
Proof.
  revert g. induction p as [A a|A|A X c k IH|A X Y x body IHb k IHk|A X Y q IHq d k IHk]; intros g; cbn; [|done| |done|done].
  - intros H HI. by apply H.
  - intros H _ g0 x g1 H0 HI Hr. destruct (H g0 x g1 H0 HI Hr) as (HI' & Hg & Hs). split_and!; [done..|]. by apply IH.
Qed.

Lemma safe_try {E A B} (p : prog C D (result E A)) (f : A -> prog C D (result E B)) g Q :
  safe p g (fun r g => match r with
                       | Ok a => safe (f a) g Q
                       | Err e => forall g', grows g g' -> I g' -> Q (Err e) g'
                       | Panic => True
                       end) ->
  I g -> safe (ptry p f) g Q.
Proof.
  intros H HI. apply safe_bind; [|done]. eapply safe_weaken; [|exact H]. by intros [a|e|] g' _ H'.
Qed.

Lemma safe_call {X} (c : C X) g (Q : X -> G -> Prop) :
  (forall g0 x g1, grows g g0 -> I g0 -> run c x g0 g1 -> I g1 /\ grows g0 g1 /\
     forall g2, grows g1 g2 -> I g2 -> Q x g2) -> safe (pcall c) g Q.
Proof. done. Qed.

(** ** The system *)

Context {A : Type} (spawn : G -> prog C D A -> G -> Prop).

(** One of the programs makes a call, or another one begins. *)
Inductive sstep : list (prog C D A) * G -> list (prog C D A) * G -> Prop :=
| sstep_call {X} l1 l2 (c : C X) k x g g' :
    run c x g g' -> sstep (l1 ++ PCall c k :: l2, g) (l1 ++ k x :: l2, g')
| sstep_spawn l p g g' : spawn g p g' -> sstep (l, g) (l ++ [p], g').

Lemma interleaved_invariant g st :
  (forall g p g', I g -> spawn g p g' -> I g' /\ grows g g' /\ safe p g' (fun _ _ => True)) ->
  rtc sstep ([], g) st -> I g -> I st.2 /\ grows g st.2.
Proof.
  intros Hsp Hs HI.
  enough (I st.2 /\ grows g st.2 /\ Forall (fun p => safe p st.2 (fun _ _ => True)) st.1) by tauto.
  revert Hs HI. intros Hs. remember ([], g) as st0 eqn:E0.
  assert (I st0.2 -> I st0.2 /\ grows g st0.2 /\ Forall (fun p => safe p st0.2 (fun _ _ => True)) st0.1) as H0
    by (subst; cbn; intros; by split_and!).
  replace g with st0.2 at 1 by (by subst). clear E0. intros HI. specialize (H0 HI). clear HI.
  induction Hs as [st0|st0 st1 st2 Hstep Hs IH]; [done|]. apply IH. destruct H0 as (HI & Hg & Hall). clear IH Hs.
  destruct Hstep as [X l1 l2 c k x g1 g2 Hr|l p g1 g2 Hp]; cbn in *.
  - apply list.Forall_app in Hall as [H1 [Hc H2]%list.Forall_cons]. cbn in Hc.
    destruct (Hc g1 x g2 ltac:(reflexivity) HI Hr) as (HI' & Hg' & Hk). split_and!; [done|by etrans|].
    assert (forall l, Forall (fun p : prog C D A => safe p g1 (fun _ _ => True)) l ->
      Forall (fun p : prog C D A => safe p g2 (fun _ _ => True)) l) as Hmove
      by (intros l Hl; eapply list.Forall_impl; [exact Hl|]; intros p; by apply safe_grows).
    apply list.Forall_app. split; [by apply Hmove|]. apply list.Forall_cons. split; [done|by apply Hmove].
  - destruct (Hsp g1 p g2 HI Hp) as (HI' & Hg' & Hk). split_and!; [done|by etrans|].
    apply list.Forall_app. split; [|by apply list.Forall_singleton].
    eapply list.Forall_impl; [exact Hall|]. intros q. by apply safe_grows.
Qed.
End Interleaving.
