(* ===== verification/Authority.v ===== *)
(** * The authority of a trust context (ockam_api/src/{authenticator, bootstrapped_identities_store.rs,
      nodes/authority_node, okta}, ockam_identity/src/credentials)

    An authority keeps attributes of identities and issues credentials for them.
    Its workers are asked over secure channels: the direct authenticator adds and
    removes members, the token issuer makes one-time codes, the token acceptor
    takes them in exchange for membership, the Okta service stores what Okta says of
    the bearer of a token, the credential issuer signs what is known of a member.
    Some identities are trusted from the start; an access
    control lets only enrollers reach the first two workers, and members the last;
    everybody reaches the other two.

    Encodings are instances of [Cbor]; the cache of tokens (crate [lru]) is an
    instance of [LruCache]; the text of an error is [show_error]. *)

From Stdlib Require Import ZArith Lia.
From Stdlib Require Strings.Byte Strings.String.
From stdpp Require Import base gmap list numbers option countable.
From S2P Require Import Prelude RustStr Routing AccessControl FlowControl Vault Attributes Identities Credentials.
From S2P Require Import AbacExpr AbacEval AbacPolicy Router Node Api.

(** ** What is used of other crates *)

Class LruCache (L K V : Type) := {
  lru_new : nat -> L;
  lru_put : K -> V -> L -> L;
  lru_pop : K -> L -> option V * L
}.

(** ** The data *)

(** A code of 32 bytes. *)
Record OneTimeCode := mkOneTimeCode { otc_code : bytes }.

(** [Instant] and [Duration] in nanoseconds. *)
Record Token := mkToken {
  tk_attrs : gmap bytes bytes;
  tk_generated_by : IdentityIdentifier;
  tk_time : Z;
  tk_max_token_duration : Z
}.

Definition from_secs (s : Z) : Z := s * 1000000000.
Definition duration_secs (d : Z) : Z := d / 1000000000.
Definition MAX_TOKEN_DURATION : Z := from_secs 600.

(** authenticator/direct/types.rs *)
Record AddMember := mkAddMember { am_member : IdentityIdentifier; am_attributes : gmap bytes bytes }.
Record CreateToken := mkCreateToken { ct_attributes : gmap bytes bytes; ct_token_duration_secs : option Z }.

Definition CreateToken_token_duration (self : CreateToken) : option Z := from_secs <$> ct_token_duration_secs self.

(** bootstrapped_identities_store.rs *)
Inductive PreTrustedIdentities :=
| Fixed (identities : gmap IdentityIdentifier AttributesEntry)
| ReloadFrom (path : bytes).

(** The configuration of the Okta service. *)
Record OktaConfiguration := mkOktaConfiguration {
  ok_address : bytes;
  ok_tenant_base_url : bytes;
  ok_certificate : bytes;
  ok_attributes : list bytes
}.

(** The configuration, but for the paths of its files and the address of the TCP
    listener. *)
Record Configuration := mkConfiguration {
  cf_identifier : IdentityIdentifier;
  cf_project_identifier : bytes;
  cf_trust_context_identifier : bytes;
  cf_secure_channel_listener_name : option bytes;
  cf_authenticator_name : option bytes;
  cf_trusted_identities : PreTrustedIdentities;
  cf_no_direct_authentication : bool;
  cf_no_token_enrollment : bool;
  cf_okta : option OktaConfiguration
}.

Record TrustedIdentity := mkTrustedIdentity { ti_identifier : IdentityIdentifier; ti_attributes : gmap bytes bytes }.

(** [now] is what [Timestamp::now()] returns. *)
Definition TrustedIdentity_attributes_entry (now : option Z) (self : TrustedIdentity) (project : bytes)
    (authority : IdentityIdentifier) : result IdError AttributesEntry :=
  let map := ti_attributes self in
  let map := <[str "project_id" := project]> map in
  let map := <[str "trust_context_id" := project]> map in
  let? now := unwrap now in
  Ok (mkAttributesEntry map now None (Some authority)).

Inductive EnrollerCheck := EnrollerOnly | AnyMember.

#[export] Instance EnrollerCheck_eq_dec : EqDecision EnrollerCheck.
Proof. solve_decision. Defined.

(** okta/mod.rs *)
Record OktaServer := mkOktaServer {
  os_project : bytes;
  os_tenant_base_url : bytes;
  os_certificate : bytes;
  os_attributes : list bytes
}.

(** cloud/enroll.rs *)
Inductive TokenType := TokenBearer.
Record AuthenticateOidcToken := mkAuthenticateOidcToken { oidc_token_type : TokenType; oidc_access_token : bytes }.

(** A value of a JSON document: a string, or something else. *)
Inductive json_value := JString (s : bytes) | JOther.

(** What comes of asking Okta for the information on a user ([reqwest]): there is no
    client for the certificate, no answer, an answer of another status than OK, one
    that is no document, or a document. *)
Inductive userinfo :=
| NoClient
| NoAnswer
| OtherStatus
| NoDocument
| UserDocument (doc : gmap bytes json_value).

Inductive auth_worker :=
| WDirectAuthenticator (trust_context : bytes)
| WTokenIssuer (trust_context : bytes)
| WTokenAcceptor (trust_context : bytes)
| WCredentialsIssuer (issuer : CredentialsIssuer)
| WOkta (server : OktaServer)
| WLegacyApiConverter.

(** The access control of a worker. *)
Inductive incoming_control :=
| IncomingAbac (a : AbacAccessControl)
| IncomingAllowAll.

Inductive auth_error :=
| AStoreErr (e : Error)
| AIdentityErr (e : IdError)
| ARpcErr (e : rpc_error)
| ACtxErr (e : cerror)
| ARouteErr (e : RouteError)
| ALockErr
| AApiErr.

Notation auresult A := (result auth_error A).

Section Authority.
Context {C : Crypto} `{IdentityCodec} `{CredentialCodec} {S : Type} `{Storage S} `{EntryCodec} `{InfoCodec}.

Record CredentialsServerWorker := mkCredentialsServerWorker {
  cw_trust_context : option (AuthorityService (S := S));
  cw_identifier : IdentityIdentifier;
  cw_present_back : bool
}.

(** ** What the workers call

    Operations on the shared repository and on the cache of tokens, each under its
    lock; clocks and random numbers; the context. *)

Notation auth_state := ((Vault * S) * option CachedCredential)%type.

Inductive acall : Type -> Type :=
| OnStore {X} (op : stm S Error X) : acall (result Error X)
| OnIdentities {X} (op : stm auth_state IdError X) : acall (result IdError X)
(** [None]: the lock is poisoned *)
| TokenPut (code : bytes) (t : Token) : acall (option unit)
| TokenPop (code : bytes) : acall (option (option Token))
| Clock : acall (option Z)
| InstantNow : acall Z
| RandomCode : acall bytes
| RandomId : acall Z
| ReadTrusted (path : bytes) : acall (result Error (gmap IdentityIdentifier (gmap bytes bytes)))
| SendTo (route : Route) (payload : bytes) : acall (cresult unit)
| ForwardTo (m : LocalMessage) : acall (cresult unit)
| SleepMillis (ms : Z) : acall unit
| StartAt (address : Address) (incoming : incoming_control) (w : auth_worker) : acall (cresult unit)
| AskPeer (route : Route) (payload : bytes) : acall (cresult (bytes * list LocalInfo))
| FlowAdd (consumer : Address) (id : FlowControlId) : acall unit
(** whether a certificate can be read *)
| ReadPem (certificate : bytes) : acall bool
| GetUserInfo (url certificate authorization : bytes) : acall userinfo
(** no effect: where an access control has let a message in *)
| Note (a : AbacAccessControl) (from : IdentityIdentifier) (entry : option AttributesEntry) : acall unit.

Notation aprog A := (prog acall no_event A).

Definition store {X} (op : stm S Error X) : aprog (auresult X) :=
  do r <- pcall (OnStore op); PRet (map_err AStoreErr r).

Definition rpc {X} (r : rresult X) : aprog (auresult X) := PRet (map_err ARpcErr r).

(** [Timestamp::now().unwrap()] *)
Definition timestamp_now : aprog (auresult Z) :=
  do t <- pcall Clock; PRet (unwrap t).

(** ** bootstrapped_identities_store.rs *)

Definition trusted_entry (now : Z) (raw : gmap bytes bytes) : AttributesEntry := mkAttributesEntry raw now None None.

Fixpoint parse_entries (l : list (IdentityIdentifier * gmap bytes bytes))
  : aprog (auresult (gmap IdentityIdentifier AttributesEntry)) :=
  match l with
  | [] => PRet (Ok ∅)
  | (id, raw) :: l =>
      do? now <- timestamp_now;
      do? m <- parse_entries l;
      PRet (Ok (<[id := trusted_entry now raw]> m))
  end.

Definition parse_from_disk (path : bytes) : aprog (auresult (gmap IdentityIdentifier AttributesEntry)) :=
  do r <- pcall (ReadTrusted path);
  match r with
  | Ok raw => parse_entries (map_to_list raw)
  | Err e => PRet (Err (AStoreErr e))
  | Panic => PPanic
  end.

Definition get_trusted_identities (self : PreTrustedIdentities)
  : aprog (auresult (gmap IdentityIdentifier AttributesEntry)) :=
  match self with
  | Fixed identities => PRet (Ok identities)
  | ReloadFrom path => parse_from_disk path
  end.

Definition PreTrusted_get_attributes (self : PreTrustedIdentities) (id : IdentityIdentifier)
  : aprog (auresult (option AttributesEntry)) :=
  do? m <- get_trusted_identities self; PRet (Ok (m !! id)).

Definition PreTrusted_list (self : PreTrustedIdentities)
  : aprog (auresult (list (IdentityIdentifier * AttributesEntry))) :=
  do? m <- get_trusted_identities self; PRet (Ok (map_to_list m)).

Context (boot : PreTrustedIdentities).

Definition Boot_get_attributes (id : IdentityIdentifier) : aprog (auresult (option AttributesEntry)) :=
  do? x <- PreTrusted_get_attributes boot id;
  match x with
  | None => do now <- pcall Clock; store (get_attributes now id)
  | Some x => PRet (Ok (Some x))
  end.

Definition Boot_list : aprog (auresult (list (IdentityIdentifier * AttributesEntry))) :=
  do now <- pcall Clock;
  do? l <- store (list_attributes now);
  do? l2 <- PreTrusted_list boot;
  PRet (Ok (l ++ l2)).

Definition Boot_put_attributes (sender : IdentityIdentifier) (entry : AttributesEntry) : aprog (auresult unit) :=
  do? x <- PreTrusted_get_attributes boot sender;
  match x with
  | None => store (put_attributes sender entry)
  | Some _ => PRet (Ok tt)
  end.

Definition Boot_put_attribute_value (subject name value : bytes) : aprog (auresult unit) :=
  do now <- pcall Clock; store (put_attribute_value now subject name value).

Definition Boot_delete (id : IdentityIdentifier) : aprog (auresult unit) := store (delete_attributes id).

(** ** Answering *)

Context `{Cbor Request} `{Cbor Response} `{Cbor ApiError} `{Cbor AddMember} `{Cbor CreateToken} `{Cbor OneTimeCode}
  `{Cbor Credential} `{Cbor (list IdentityIdentifier)} `{Cbor (gmap IdentityIdentifier AttributesEntry)} `{Cbor unit} `{Cbor bytes}
  `{Cbor AuthenticateOidcToken}.
Context (show_error : auth_error -> bytes).

Definition send_answer (m : Routed bytes) (res : bytes) : aprog (auresult unit) :=
  do r <- pcall (SendTo (return_route (transport_message (local_msg m))) res); PRet (map_err ACtxErr r).

Definition to_vec {T} `{Cbor T} (b : ResponseBuilder T) : aprog (auresult bytes) := rpc (ResponseBuilder_to_vec b).

Definition answer_ok (req : Request) : aprog (auresult bytes) :=
  do id <- pcall RandomId; to_vec (Response_ok id (rq_id req)).

Definition answer_body {T} `{Cbor T} (req : Request) (body : T) : aprog (auresult bytes) :=
  do id <- pcall RandomId; to_vec (ResponseBuilder_body body (Response_ok id (rq_id req))).

Definition answer_forbidden (req : Request) (msg : bytes) : aprog (auresult bytes) :=
  do id <- pcall RandomId; to_vec (forbidden id req msg).

Definition answer_internal_error (req : Request) (msg : bytes) : aprog (auresult bytes) :=
  do id <- pcall RandomId; to_vec (internal_error id req msg).

Definition answer_unknown_path (req : Request) : aprog (auresult bytes) :=
  do id <- pcall RandomId; to_vec (unknown_path id req).

Definition answer_invalid_method (req : Request) : aprog (auresult bytes) :=
  do id <- pcall RandomId; to_vec (invalid_method id req).

Definition decode_request (m : Routed bytes) : aprog (auresult (Request * bytes)) := rpc (decode_next (inner m)).

Definition secure_channel_required (m : Routed bytes) : aprog (auresult unit) :=
  do? (req, _) <- decode_request m;
  do? res <- answer_forbidden req (str "secure channel required");
  send_answer m res.

(** A worker that answers those who come over a secure channel. *)
Definition over_secure_channel (m : Routed bytes)
    (answer : IdentityIdentifier -> Request -> bytes -> aprog (auresult bytes)) : aprog (auresult unit) :=
  match find_info (local_msg m) with
  | Ok from =>
      do? (req, dec) <- decode_request m;
      do? res <- answer from req dec;
      send_answer m res
  | Err _ => secure_channel_required m
  | Panic => PPanic
  end.

(** ** The direct authenticator *)

(** The attributes of a member, with those of the trust context in place of
    others of the same name. *)
Definition in_trust_context (trust_context : bytes) (attributes : gmap bytes bytes) : gmap bytes bytes :=
  <[TRUST_CONTEXT_ID := trust_context]> (<[LEGACY_ID := trust_context]> attributes).

Definition add_member (trust_context : bytes) (enroller id : IdentityIdentifier) (attributes : gmap bytes bytes)
  : aprog (auresult unit) :=
  do? now <- timestamp_now;
  Boot_put_attributes id
    (mkAttributesEntry (in_trust_context trust_context attributes) now None (Some enroller)).

(** [collect] into a map: the last entry for a key wins. *)
Definition list_members (enroller : IdentityIdentifier) : aprog (auresult (gmap IdentityIdentifier AttributesEntry)) :=
  do? all <- Boot_list;
  PRet (Ok (foldl (fun m '(id, e) => <[id := e]> m) ∅
              (filter (fun x => attested_by x.2 = Some enroller) all))).

Definition delete_member (from : IdentityIdentifier) (req : Request) (id : bytes) : aprog (auresult bytes) :=
  do? identifier <- PRet (map_err AStoreErr (IdentityIdentifier_try_from id));
  do? entry <- Boot_get_attributes identifier;
  match entry with
  | Some entry =>
      if decide (attested_by entry = Some from) then
        do? _ <- Boot_delete identifier;
        answer_ok req
      else answer_forbidden req (str "not attested by current enroller")
  | None => answer_ok req
  end.

Definition DirectAuthenticator_answer (trust_context : bytes) (from : IdentityIdentifier) (req : Request) (dec : bytes)
  : aprog (auresult bytes) :=
  let add :=
    do? (add, _) <- rpc (decode_next (T := AddMember) dec);
    do? _ <- add_member trust_context from (am_member add) (am_attributes add);
    answer_ok req in
  let members := do? entries <- list_members from; answer_body req entries in
  match rq_method req, path_segments 5 req with
  | Some Post, [a] =>
      if decide (a = [] \/ a = str "members") then add else answer_unknown_path req
  | Some Get, [a] =>
      if decide (a = str "member_ids") then
        do? entries <- list_members from;
        answer_body req ((map_to_list entries).*1 : list IdentityIdentifier)
      else if decide (a = [] \/ a = str "members") then members
      else answer_unknown_path req
  | Some Delete, [id] => delete_member from req id
  | Some Delete, [a; id] => if decide (a = str "members") then delete_member from req id else answer_unknown_path req
  | _, _ => answer_unknown_path req
  end.

Definition DirectAuthenticator_handle_message (trust_context : bytes) (m : Routed bytes) : aprog (auresult unit) :=
  over_secure_channel m (DirectAuthenticator_answer trust_context).

(** ** The tokens *)

Definition issue_token (enroller : IdentityIdentifier) (attributes : gmap bytes bytes) (token_duration : option Z)
  : aprog (auresult OneTimeCode) :=
  do code <- pcall RandomCode;
  let otc := mkOneTimeCode code in
  do time <- pcall InstantNow;
  do r <- pcall (TokenPut (otc_code otc) (mkToken attributes enroller time (default MAX_TOKEN_DURATION token_duration)));
  PRet (match r with Some _ => Ok otc | None => Err ALockErr end).

Definition TokenIssuer_answer (from : IdentityIdentifier) (req : Request) (dec : bytes) : aprog (auresult bytes) :=
  match rq_method req with
  | Some Post =>
      if decide (rq_path req = str "/" \/ rq_path req = str "/tokens") then
        do? (att, _) <- rpc (decode_next (T := CreateToken) dec);
        do r <- issue_token from (ct_attributes att) (CreateToken_token_duration att);
        match r with
        | Ok otc => answer_body req otc
        | Err e => answer_internal_error req (show_error e)
        | Panic => PPanic
        end
      else answer_unknown_path req
  | _ => answer_unknown_path req
  end.

Definition TokenIssuer_handle_message (m : Routed bytes) : aprog (auresult unit) :=
  over_secure_channel m TokenIssuer_answer.

(** What the acceptor makes of a code; [inr]: the token. *)
Definition take_token (otc : OneTimeCode) : aprog ((auth_error + bytes) + Token) :=
  do r <- pcall (TokenPop (otc_code otc));
  match r with
  | Some (Some tkn) =>
      do now <- pcall InstantNow;
      if (tk_max_token_duration tkn <? now - tk_time tkn)%Z then PRet (inl (inr (str "expired token")))
      else PRet (inr tkn)
  | Some None => PRet (inl (inr (str "unknown token")))
  | None => PRet (inl (inl ALockErr))
  end.

Definition TokenAcceptor_answer (trust_context : bytes) (from : IdentityIdentifier) (req : Request) (dec : bytes)
  : aprog (auresult bytes) :=
  match rq_method req with
  | Some Post =>
      if decide (rq_path req = str "/" \/ rq_path req = str "/credential") then
        do? (otc, _) <- rpc (decode_next (T := OneTimeCode) dec);
        do token <- take_token otc;
        match token with
        | inr tkn =>
            do? now <- timestamp_now;
            do? _ <- Boot_put_attributes from
              (mkAttributesEntry (in_trust_context trust_context (tk_attrs tkn)) now None (Some (tk_generated_by tkn)));
            answer_ok req
        | inl (inr msg) => answer_forbidden req msg
        | inl (inl _) => answer_internal_error req (str "Failed to get read lock on tokens table")
        end
      else answer_unknown_path req
  | _ => answer_unknown_path req
  end.

Definition TokenAcceptor_handle_message (trust_context : bytes) (m : Routed bytes) : aprog (auresult unit) :=
  over_secure_channel m (TokenAcceptor_answer trust_context).

(** ** The Okta service (okta/mod.rs) *)

(** What is kept of a document: the configured attributes that are strings. *)
Definition custom_attributes (attributes : list bytes) (doc : gmap bytes json_value) : gmap bytes bytes :=
  foldl (fun m a => match doc !! a with Some (JString v) => <[a := v]> m | _ => m end) ∅ attributes.

Definition OktaServer_new (project tenant_base_url certificate : bytes) (attributes : list bytes)
  : aprog (auresult OktaServer) :=
  do readable <- pcall (ReadPem certificate);
  PRet (match readable with
        | true => Ok (mkOktaServer project tenant_base_url certificate attributes)
        | false => Err AApiErr
        end).

Definition check_token (self : OktaServer) (token : bytes) : aprog (auresult (option (gmap bytes bytes))) :=
  do res <- pcall (GetUserInfo (os_tenant_base_url self ++ str "/v1/userinfo") (os_certificate self)
                     (str "Bearer " ++ token));
  PRet (match res with
        | NoClient | NoDocument => Err AApiErr
        | UserDocument doc => Ok (Some (custom_attributes (os_attributes self) doc))
        | OtherStatus | NoAnswer => Ok None
        end).

Definition Okta_on_request (self : OktaServer) (from : IdentityIdentifier) (req : Request) (dec : bytes)
  : aprog (auresult bytes) :=
  match rq_method req with
  | Some Post =>
      if decide (path_segments 2 req = [str "v0"; str "enroll"]) then
        do? (token, _) <- rpc (decode_next (T := AuthenticateOidcToken) dec);
        do? found <- check_token self (oidc_access_token token);
        match found with
        | Some attributes =>
            do? now <- timestamp_now;
            do? _ <- Boot_put_attributes from
              (mkAttributesEntry (in_trust_context (os_project self) attributes) now None None);
            answer_ok req
        | None => answer_forbidden req (str "Forbidden")
        end
      else answer_unknown_path req
  | _ => answer_invalid_method req
  end.

Definition Okta_handle_message (self : OktaServer) (m : Routed bytes) : aprog (auresult unit) :=
  over_secure_channel m (Okta_on_request self).

(** ** The credential issuer (ockam_identity/src/credentials/credentials_issuer.rs)

    [issue_credential] over the repository of the authority. *)

Definition issue_credential (self : CredentialsIssuer) (from : IdentityIdentifier)
  : aprog (auresult (option Credential)) :=
  do? o <- Boot_get_attributes from;
  match o with
  | Some entry =>
      let crd := foldl (fun crd '(a, v) => with_attribute a v crd)
                   (with_schema PROJECT_MEMBER_SCHEMA (CredentialBuilder_new from (ci_issuer self)))
                   (btree_iter (attrs entry)) in
      let crd := with_attribute LEGACY_ID (ci_trust_context self) crd in
      let crd := with_attribute TRUST_CONTEXT_ID (ci_trust_context self) crd in
      do now <- pcall Clock;
      do? data <- PRet (map_err AIdentityErr (build now crd));
      do r <- pcall (OnIdentities (on_identities (Credentials_issue_credential (ci_issuer self) data)));
      do? c <- PRet (map_err AIdentityErr r);
      PRet (Ok (Some c))
  | None => PRet (Ok None)
  end.

Definition CredentialsIssuer_answer (self : CredentialsIssuer) (from : IdentityIdentifier) (req : Request) (dec : bytes)
  : aprog (auresult bytes) :=
  match rq_method req with
  | Some Post =>
      if decide (rq_path req = str "/" \/ rq_path req = str "/credential") then
        do r <- issue_credential self from;
        match r with
        | Ok (Some crd) => answer_body req crd
        | Ok None => answer_forbidden req (str "unauthorized member")
        | Err error => answer_internal_error req (show_error error)
        | Panic => PPanic
        end
      else answer_unknown_path req
  | _ => answer_unknown_path req
  end.

Definition CredentialsIssuer_handle_message (self : CredentialsIssuer) (m : Routed bytes) : aprog (auresult unit) :=
  over_secure_channel m (CredentialsIssuer_answer self).

(** ** The converter for old clients (authenticator/direct.rs) *)

Definition forward_to (m : LocalMessage) : aprog (auresult unit) :=
  do r <- pcall (ForwardTo m); PRet (map_err ACtxErr r).

Definition local_address (s : bytes) : Address := mkAddress LOCAL s.

Definition append_hop (a : bytes) (t : TransportMessage) : TransportMessage :=
  mkTransportMessage (version t)
    (RouteBuilder_drop (RouteBuilder_append (local_address a) (Route_modify (onward_route t))) (onward_route t))
    (return_route t) (payload t).

Definition on_transport (f : TransportMessage -> TransportMessage) (m : LocalMessage) : LocalMessage :=
  mkLocalMessage (f (transport_message m)) (local_info m).

Definition LegacyApiConverter_handle_message (own : Address) (msg : Routed bytes) : aprog (auresult unit) :=
  let body := inner msg in
  let second_msg := local_msg msg in
  do? message <- PRet (let t := transport_message (local_msg msg) in
                       let '(r, onward) := Route_step (onward_route t) in
                       let? _ := map_err ARouteErr r in
                       Ok (mkLocalMessage (mkTransportMessage (version t) onward (return_route t) (payload t))
                             (local_info (local_msg msg))));
  match (cbor_decode body : option (Request * bytes)) with
  | Some (req, _) =>
      match rq_method req with
      | Some Post =>
          if decide (rq_path req = str "/tokens") then
            forward_to (on_transport (append_hop (str "enrollment_token_issuer")) message)
          else if decide (rq_path req = str "/members") then
            forward_to (on_transport (append_hop (str "direct_authenticator")) message)
          else if decide (rq_path req = str "/credential") then
            if rq_has_body req then
              let t := append_hop (str "enrollment_token_acceptor") (transport_message message) in
              let t := mkTransportMessage (version t) (onward_route t)
                         (RouteBuilder_drop (RouteBuilder_prepend own (Route_modify (return_route t))) (return_route t))
                         (payload t) in
              do? _ <- forward_to (mkLocalMessage t (local_info message));
              do _ <- pcall (SleepMillis 2000);
              do id <- pcall RandomId;
              do? body <- rpc (RequestBuilder_to_vec (Request_post id (str "/credential")));
              let t := append_hop (str "credential_issuer") (transport_message second_msg) in
              let t := mkTransportMessage (version t) (onward_route t) (return_route t) body in
              do? _ <- forward_to (mkLocalMessage t (local_info second_msg));
              PRet (Ok tt)
            else forward_to (on_transport (append_hop (str "credential_issuer")) message)
          else PRet (Ok tt)
      | _ => PRet (Ok tt)
      end
  | None => PRet (Ok tt)
  end.

(** ** Presented credentials (ockam_identity/src/credentials/credentials_server_worker.rs) *)

Definition identities {X} (op : stm auth_state IdError X) : aprog (auresult X) :=
  do r <- pcall (OnIdentities op); PRet (map_err AIdentityErr r).

Definition answer_bad_request (req : Request) (path msg : bytes) : aprog (auresult bytes) :=
  do id <- pcall RandomId;
  to_vec (ResponseBuilder_body (ApiError_with_message msg (ApiError_new path)) (Response_bad_request id (rq_id req))).

Definition answer_text (status : ApiStatus) (req : Request) (text : bytes) : aprog (auresult bytes) :=
  do id <- pcall RandomId; to_vec (ResponseBuilder_body text (Response_builder id (rq_id req) status)).

(** [receive_presented_credential] for the authorities of the trust context. *)
Definition receive_presented (self : CredentialsServerWorker) (sender : IdentityIdentifier) (credential : Credential)
  : aprog (auresult (auresult unit)) :=
  do? authorities <- identities (on_identities (TrustContext_authorities (cw_trust_context self)));
  do now <- pcall Clock;
  do now' <- pcall Clock;
  do r <- pcall (OnIdentities (on_identities (Credentials_receive_presented_credential now now' sender authorities credential)));
  PRet (match r with Panic => Panic | _ => Ok (map_err AIdentityErr r) end).

Definition CredentialsServerWorker_handle_request (self : CredentialsServerWorker) (req : Request)
    (sender : IdentityIdentifier) (dec : bytes) : aprog (auresult bytes) :=
  match rq_method req with
  | None => answer_text BadRequest req (str "Invalid method")
  | Some method =>
      match method, path_segments 5 req with
      | Post, [a; b] =>
          if decide (a = str "actions" /\ b = str "present") then
            do? (credential, _) <- rpc (decode_next (T := Credential) dec);
            do? res <- receive_presented self sender credential;
            match res with
            | Ok _ => answer_ok req
            | Err err => answer_bad_request req (rq_path req) (show_error err)
            | Panic => PPanic
            end
          else if decide (a = str "actions" /\ b = str "present_mutual") then
            do? (credential, _) <- rpc (decode_next (T := Credential) dec);
            do? res <- receive_presented self sender credential;
            match res with
            | Err err => answer_bad_request req (rq_path req) (show_error err)
            | Ok _ =>
                do? authority <- PRet (ok_or (cw_trust_context self) (AIdentityErr UnknownAuthority));
                do now <- pcall Clock;
                do now' <- pcall Clock;
                do r <- pcall (OnIdentities (AuthorityService_credential now now' authority (cw_identifier self)));
                match r with
                | Ok p => if cw_present_back self then answer_body req p else answer_ok req
                | Err _ => answer_ok req
                | Panic => PPanic
                end
            | Panic => PPanic
            end
          else answer_text BadRequest req (str "Invalid endpoint: " ++ rq_path req)
      | _, _ => answer_text BadRequest req (str "Invalid endpoint: " ++ rq_path req)
      end
  end.

Definition CredentialsServerWorker_handle_message (self : CredentialsServerWorker) (msg : Routed bytes)
  : aprog (auresult unit) :=
  match (cbor_decode (inner msg) : option (Request * bytes)) with
  | None => PRet (Ok tt)
  | Some (req, dec) =>
      do? sender <- PRet (map_err AStoreErr (find_info (local_msg msg)));
      do r <- CredentialsServerWorker_handle_request self req sender dec;
      do? r <- (match r with
                | Ok r => PRet (Ok r)
                | Err err => answer_text InternalServerError req (show_error err)
                | Panic => PPanic
                end);
      send_answer msg r
  end.

(** ** Presenting a credential (ockam_identity/src/credentials/credentials_server.rs)

    The identifiers of requests are arguments. *)

Definition presentation_failed : rpc_error := RpcMessage (str "credential presentation failed").

Definition present_credential (id : Z) (route : Route) (credential : Credential) : prog rcall no_event (rresult unit) :=
  do? buf <- request route (RequestBuilder_body credential (Request_post id (str "actions/present")));
  do? (res, _) <- plift (decode_next (T := Response) buf);
  PRet (if bool_decide (rs_status res = Some StatusOk) then Ok tt else Err presentation_failed).

Definition present_credential_mutual (id : Z) (route : Route) (authorities : list Identity) (credential : Credential)
  : aprog (auresult unit) :=
  do? buf <- rpc (RequestBuilder_to_vec (RequestBuilder_body credential (Request_post id (str "actions/present_mutual"))));
  do r <- pcall (AskPeer route buf);
  do? (buf, infos) <- PRet (map_err ACtxErr r);
  do? their_id <- PRet (map_err AStoreErr (find_info_from_list infos));
  do? (res, dec) <- rpc (decode_next (T := Response) buf);
  do? _ <- PRet (match rs_status res with
                 | Some StatusOk => Ok tt
                 | Some s => Err (ARpcErr (RpcMessage (str "credential presentation failed: " ++ ApiStatus_display s)))
                 | None => Err (ARpcErr presentation_failed)
                 end);
  do? (credential, _) <- rpc (decode_next (T := Credential) dec);
  do now <- pcall Clock;
  do now' <- pcall Clock;
  do? _ <- identities (on_identities (Credentials_receive_presented_credential now now' their_id authorities credential));
  PRet (Ok tt).

(** ** The clients of an authority *)

Definition CredentialsIssuerClient_credential (id : Z) (route : Route) : prog rcall no_event (rresult Credential) :=
  RpcClient_request route (Request_post id (str "/")).

Definition DirectAuthenticatorClient_add_member (id : Z) (route : Route) (member : IdentityIdentifier)
    (attributes : gmap bytes bytes) : prog rcall no_event (rresult unit) :=
  RpcClient_request_no_resp_body route (RequestBuilder_body (mkAddMember member attributes) (Request_post id (str "/"))).

Definition DirectAuthenticatorClient_list_member_ids (id : Z) (route : Route)
  : prog rcall no_event (rresult (list IdentityIdentifier)) :=
  RpcClient_request route (Request_get id (str "/member_ids")).

Definition DirectAuthenticatorClient_list_members (id : Z) (route : Route)
  : prog rcall no_event (rresult (gmap IdentityIdentifier AttributesEntry)) :=
  RpcClient_request route (Request_get id (str "/")).

Definition DirectAuthenticatorClient_delete_member (id : Z) (route : Route) (member : IdentityIdentifier)
  : prog rcall no_event (rresult unit) :=
  RpcClient_request_no_resp_body route (Request_delete id (str "/" ++ member)).

Definition TokenIssuerClient_create_token (id : Z) (route : Route) (attributes : gmap bytes bytes) (duration : option Z)
  : prog rcall no_event (rresult OneTimeCode) :=
  RpcClient_request route
    (RequestBuilder_body (mkCreateToken attributes (duration_secs <$> duration)) (Request_post id (str "/"))).

Definition TokenAcceptorClient_present_token (id : Z) (route : Route) (c : OneTimeCode) : prog rcall no_event (rresult unit) :=
  RpcClient_request_no_resp_body route (RequestBuilder_body c (Request_post id (str "/"))).

(** ** The authority node (nodes/authority_node/{authority, configuration}.rs) *)

Definition same_value (a b : bytes) : Expr := expr_eq [EIdent a; EIdent b].

Definition authority_rule (enroller_check : EnrollerCheck) : Expr :=
  if decide (enroller_check = EnrollerOnly) then
    expr_and [same_value (str "resource.project_id") (str "subject.project_id");
              same_value (str "resource.trust_context_id") (str "subject.trust_context_id");
              expr_eq [EIdent (str "subject.ockam-role"); EStr (str "enroller")]]
  else
    expr_and [same_value (str "resource.project_id") (str "subject.project_id");
              same_value (str "resource.trust_context_id") (str "subject.trust_context_id")].

Definition create_abac_policy (configuration : Configuration) (address : bytes) (enroller_check : EnrollerCheck)
  : AbacAccessControl :=
  let env := Env_new in
  let env := Env_put (str "resource.id") (EStr address) env in
  let env := Env_put (str "action.id") (EStr (str "handle_message")) env in
  let env := Env_put (str "resource.project_id") (EStr (cf_project_identifier configuration)) env in
  let env := Env_put (str "resource.trust_context_id") (EStr (cf_trust_context_identifier configuration)) env in
  mkAbac (authority_rule enroller_check) env.

(** [AbacAccessControl::is_authorized] over the repository of the authority;
    [None]: the evaluation needs more than [fuel] iterations. *)
Definition abac_authorized (fuel : nat) (self : AbacAccessControl) (from : IdentityIdentifier)
  : aprog (auresult (option bool * option AttributesEntry)) :=
  do? attributes <- Boot_get_attributes from;
  match eval fuel (abac_expression self) (subject_environment (abac_environment self) attributes from) with
  | Some (Ok (EBool b)) => PRet (Ok (Some b, attributes))
  | Some (Ok _) => PRet (Ok (Some false, attributes))
  | Some (Err _) => PRet (Ok (Some false, attributes))
  | Some Panic => PPanic
  | None => PRet (Ok (None, attributes))
  end.

Definition worker_address (name : bytes) : aprog (auresult Address) :=
  match Address_from_string name with Ok a => PRet (Ok a) | _ => PPanic end.

Definition start_at (name : bytes) (incoming : incoming_control) (w : auth_worker) : aprog (auresult unit) :=
  do? a <- worker_address name;
  do r <- pcall (StartAt a incoming w);
  PRet (map_err ACtxErr r).

Definition Authority_start (configuration : Configuration) (address : bytes) (enroller_check : EnrollerCheck)
    (worker : auth_worker) : aprog (auresult unit) :=
  start_at address (IncomingAbac (create_abac_policy configuration address enroller_check)) worker.

Definition add_consumer_named (name : bytes) (id : FlowControlId) : aprog (auresult unit) :=
  do? a <- worker_address name;
  do _ <- pcall (FlowAdd a id);
  PRet (Ok tt).

Definition start_direct_authenticator (id : FlowControlId) (configuration : Configuration) : aprog (auresult unit) :=
  if cf_no_direct_authentication configuration then PRet (Ok tt)
  else
    let name := default (str "direct_authenticator") (cf_authenticator_name configuration) in
    do? _ <- add_consumer_named name id;
    Authority_start configuration name EnrollerOnly (WDirectAuthenticator (cf_trust_context_identifier configuration)).

Definition start_enrollment_services (id : FlowControlId) (configuration : Configuration) : aprog (auresult unit) :=
  if cf_no_token_enrollment configuration then PRet (Ok tt)
  else
    let trust_context := cf_trust_context_identifier configuration in
    let issuer_address := str "enrollment_token_issuer" in
    do? _ <- add_consumer_named issuer_address id;
    do? _ <- Authority_start configuration issuer_address EnrollerOnly (WTokenIssuer trust_context);
    let acceptor_address := str "enrollment_token_acceptor" in
    do? _ <- add_consumer_named acceptor_address id;
    start_at acceptor_address IncomingAllowAll (WTokenAcceptor trust_context).

Definition start_credential_issuer (id : FlowControlId) (configuration : Configuration) : aprog (auresult unit) :=
  let address := str "credential_issuer" in
  do? _ <- add_consumer_named address id;
  Authority_start configuration address AnyMember
    (WCredentialsIssuer (mkIssuer (cf_identifier configuration) (cf_trust_context_identifier configuration))).

Definition start_okta (id : FlowControlId) (configuration : Configuration) : aprog (auresult unit) :=
  match cf_okta configuration with
  | Some okta =>
      do? okta_worker <- OktaServer_new (cf_project_identifier configuration) (ok_tenant_base_url okta)
        (ok_certificate okta) (ok_attributes okta);
      do? _ <- add_consumer_named (ok_address okta) id;
      start_at (ok_address okta) IncomingAllowAll (WOkta okta_worker)
  | None => PRet (Ok tt)
  end.

(** What a worker does with a message that has been let in. *)
Definition auth_handle (own : Address) (w : auth_worker) (m : Routed bytes) : aprog (auresult unit) :=
  match w with
  | WDirectAuthenticator tc => DirectAuthenticator_handle_message tc m
  | WTokenIssuer _ => TokenIssuer_handle_message m
  | WTokenAcceptor tc => TokenAcceptor_handle_message tc m
  | WCredentialsIssuer i => CredentialsIssuer_handle_message i m
  | WOkta server => Okta_handle_message server m
  | WLegacyApiConverter => LegacyApiConverter_handle_message own m
  end.

(** The relay of a worker: its access control, then the worker.  [Note] is where
    the message has been let in by the policy of the authority. *)
Definition auth_relay (fuel : nat) (incoming : incoming_control) (own : Address) (w : auth_worker)
    (m : Routed bytes) : aprog (auresult unit) :=
  match incoming with
  | IncomingAllowAll => auth_handle own w m
  | IncomingAbac a =>
      match find_info (local_msg m) with
      | Ok from =>
          do? (b, attributes) <- abac_authorized fuel a from;
          if decide (b = Some true) then
            do _ <- pcall (Note a from attributes);
            auth_handle own w m
          else PRet (Ok tt)
      | Err _ => PRet (Ok tt)
      | Panic => PPanic
      end
  end.
End Authority.
