(* ===== verification/AuthoritySpec.v ===== *)
(** * What an authority promises

    [authority_policy_decides]: whom the access control of a worker lets in.
    [members_are_vouched_for]: however the messages to its workers are interleaved,
    whatever an authority holds about an identity was put there by an enroller, who
    in turn is one by the configuration or by the word of another enroller, or by the
    Okta service, which has it from Okta.
    [tokens_are_taken_once]: a one-time code makes no more members than tokens were
    issued for it, and only tokens that enrollers asked for. *)

From Stdlib Require Import ZArith Lia.
From Stdlib Require Strings.Byte Strings.String.
From stdpp Require Import base gmap list numbers option countable relations.
From S2P Require Import Prelude RustStr Routing AccessControl FlowControl Vault Attributes Identities IdentitySpec Credentials.
From S2P Require Import AbacExpr AbacEval AbacPolicy Router Node Api Authority Interleaving.

(** ** Deciding expressions *)

Lemma holds_by env e n r : denote n env e = Some r -> holds_in env e <-> r = inr (EBool true).
Proof.
  intros Hn. split; [|intros ->; by exists n]. intros [m Hm].
  apply (denote_mono n (Nat.max n m) env e ltac:(lia)) in Hn.
  apply (denote_mono m (Nat.max n m) env e ltac:(lia)) in Hm. rewrite Hn in Hm. by injection Hm.
Qed.

Lemma chain_true msg ev x xs :
  eval_chain false msg ev x xs = oret (EBool true) <-> Forall (fun y => ev y = oret (EBool true)) (x :: xs).
Proof.
  revert x. induction xs as [|y ys IH]; intros x; cbn [eval_chain].
  - by rewrite list.Forall_singleton.
  - rewrite list.Forall_cons, <-IH. unfold obind, oret.
    destruct (ev x) as [[e|[| | |[]| | |]]|]; naive_solver.
Qed.

Lemma and_holds env x xs : holds_in env (expr_and (x :: xs)) <-> Forall (holds_in env) (x :: xs).
Proof.
  unfold holds_in at 1. split.
  - intros [[|n] Hn]; [done|]. cbn [denote expr_and with_op] in Hn.
    change (builtin_of (str "and")) with (Some BAnd) in Hn. cbn [apply_builtin] in Hn.
    apply chain_true in Hn. eapply list.Forall_impl; [exact Hn|]. intros y Hy. by exists n.
  - intros Hall. assert (exists n, Forall (fun y => denote n env y = oret (EBool true)) (x :: xs)) as [n Hn].
    { induction Hall as [|y l [m Hm] _ [n IH]]; [by exists 0|]. exists (Nat.max m n). constructor.
      - by apply (denote_mono m (Nat.max m n) env y ltac:(lia)).
      - eapply list.Forall_impl; [exact IH|]. intros z Hz. by apply (denote_mono n (Nat.max m n) env z ltac:(lia)). }
    exists (S n). cbn [denote expr_and with_op]. change (builtin_of (str "and")) with (Some BAnd).
    cbn [apply_builtin]. by apply chain_true.
Qed.

Lemma same_value_holds env a b x :
  env !! a = Some (EStr x) -> (forall e, env !! b = Some e -> exists s, e = EStr s) ->
  holds_in env (same_value a b) <-> env !! b = Some (EStr x).
Proof.
  intros Ha Hb.
  assert (denote 3 env (same_value a b) =
    match env !! b with
    | Some (EStr s) => oret (EBool (bool_decide (x = s)))
    | Some _ => None
    | None => oerr (Unbound b)
    end) as Hd.
  { unfold same_value, expr_eq, with_op. cbn [denote]. change (builtin_of (str "=")) with (Some BEq).
    unfold apply_builtin, predicate. cbn [eval_all]. unfold Env_get. rewrite Ha. cbn.
    destruct (env !! b) as [e|] eqn:Eb; [|done]. destruct (Hb e eq_refl) as [s ->]. cbn.
    rewrite equals_ref_spec. cbn. by case_bool_decide. }
  destruct (env !! b) as [e|] eqn:Eb.
  - destruct (Hb e eq_refl) as [s ->]. rewrite (holds_by _ _ _ _ Hd).
    split; [intros [= ->%bool_decide_eq_true]|intros [= ->]; rewrite bool_decide_true]; done.
  - rewrite (holds_by _ _ _ _ Hd). done.
Qed.

(** ** The policy of an authority *)

(** What an entry must say of an identity that is let in. *)
Definition entry_allows (cf : Configuration) (check : EnrollerCheck) (e : AttributesEntry) : Prop :=
  attrs e !! LEGACY_ID = Some (cf_project_identifier cf) /\
  attrs e !! TRUST_CONTEXT_ID = Some (cf_trust_context_identifier cf) /\
  (check = EnrollerOnly -> attrs e !! str "ockam-role" = Some (str "enroller")).

Lemma subject_value env o id key :
  is_subject key = false -> env !! key = None -> env !! (str "subject." ++ key) = None -> key <> str "identifier" ->
  subject_environment env o id !! (str "subject." ++ key) = EStr <$> (((attrs <$> o) ≫= lookup key) ≫= from_utf8).
Proof.
  intros Hs Hk Hk' Hne. destruct o as [e|]; cbn [fmap option_fmap option_map mbind option_bind].
  - rewrite subject_environment_lookup by done. destruct (attrs e !! key) as [v|]; [|done]. cbn.
    by destruct (from_utf8 v).
  - unfold subject_environment, Env_put. rewrite lookup_insert_ne; [done|].
    change (str "subject.identifier") with (str "subject." ++ str "identifier").
    intros Heq. apply app_inv_head in Heq. by symmetry in Heq.
Qed.

Section Policy.
Context (cf : Configuration) (name : bytes) (check : EnrollerCheck).
Context (Hproject : utf8_valid (cf_project_identifier cf) = true).
Context (Htrust : utf8_valid (cf_trust_context_identifier cf) = true).

Notation policy := (create_abac_policy cf name check).

Lemma policy_lookup o id key v :
  key ∈ [LEGACY_ID; TRUST_CONTEXT_ID; str "ockam-role"] -> utf8_valid v = true ->
  let env := subject_environment (abac_environment policy) o id in
  (forall e, env !! (str "subject." ++ key) = Some e -> exists s, e = EStr s) /\
  (env !! (str "subject." ++ key) = Some (EStr v) <-> exists e, o = Some e /\ attrs e !! key = Some v).
Proof.
  intros Hkey Hv env.
  assert (env !! (str "subject." ++ key) = EStr <$> (((attrs <$> o) ≫= lookup key) ≫= from_utf8)) as ->.
  { apply list_elem_of_In in Hkey. cbn in Hkey. by destruct Hkey as [<-|[<-|[<-|[]]]]; apply subject_value. }
  split; [intros e (s & _ & ->)%fmap_Some; by exists s|].
  destruct o as [e|]; cbn; [|split; [done|by intros (? & ? & _)]].
  destruct (attrs e !! key) as [w|] eqn:Ek; cbn; [|split; [done|intros (? & [= <-] & ?); congruence]].
  unfold from_utf8. destruct (utf8_valid w) eqn:Ew; cbn.
  - split; [intros [= ->]; by exists e|intros (? & [= <-] & ?); congruence].
  - split; [done|intros (? & [= <-] & ?); congruence].
Qed.

Lemma policy_resource o id :
  let env := subject_environment (abac_environment policy) o id in
  env !! str "resource.project_id" = Some (EStr (cf_project_identifier cf)) /\
  env !! str "resource.trust_context_id" = Some (EStr (cf_trust_context_identifier cf)).
Proof.
  intros env. destruct (subject_environment_spec (abac_environment policy) o id) as (_ & Hother & _).
  unfold env. rewrite !Hother by done. by split.
Qed.

Lemma policy_holds o id :
  holds_in (subject_environment (abac_environment policy) o id) (abac_expression policy) <->
  exists e, o = Some e /\ entry_allows cf check e.
Proof.
  set (env := subject_environment (abac_environment policy) o id).
  destruct (policy_resource o id) as [Hp Ht]. fold env in Hp, Ht.
  destruct (policy_lookup o id LEGACY_ID _ ltac:(set_solver) Hproject) as [S1 L1].
  destruct (policy_lookup o id TRUST_CONTEXT_ID _ ltac:(set_solver) Htrust) as [S2 L2].
  destruct (policy_lookup o id (str "ockam-role") (str "enroller") ltac:(set_solver) eq_refl) as [S3 L3].
  fold env in S1, L1, S2, L2, S3, L3.
  pose proof (same_value_holds env (str "resource.project_id") (str "subject." ++ LEGACY_ID) _ Hp S1) as E1.
  pose proof (same_value_holds env (str "resource.trust_context_id") (str "subject." ++ TRUST_CONTEXT_ID) _ Ht S2) as E2.
  pose proof (eq_policy_holds env (str "subject." ++ str "ockam-role") (str "enroller") S3) as E3.
  unfold entry_allows. cbn [create_abac_policy abac_expression]. unfold authority_rule.
  destruct (decide (check = EnrollerOnly)) as [->|Hc].
  - rewrite and_holds, !list.Forall_cons, list.Forall_nil.
    change (str "subject.project_id") with (str "subject." ++ LEGACY_ID).
    change (str "subject.trust_context_id") with (str "subject." ++ TRUST_CONTEXT_ID).
    unfold expr_eq at 1, with_op. change (str "subject.ockam-role") with (str "subject." ++ str "ockam-role").
    rewrite E1, E2, E3, L1, L2, L3. naive_solver.
  - rewrite and_holds, !list.Forall_cons, list.Forall_nil.
    change (str "subject.project_id") with (str "subject." ++ LEGACY_ID).
    change (str "subject.trust_context_id") with (str "subject." ++ TRUST_CONTEXT_ID).
    rewrite E1, E2, L1, L2. naive_solver.
Qed.
End Policy.

Lemma policy_ranked cf name check o id :
  ranked (fun _ => 0) (subject_environment (abac_environment (create_abac_policy cf name check)) o id).
Proof.
  apply ranked_subject. cbn [create_abac_policy abac_environment]. unfold Env_put, Env_new.
  do 4 apply ranked_put. intros k e i Hk. by rewrite lookup_empty in Hk.
Qed.

(** Whom the access control of a worker of an authority lets in.  The evaluation
    of the policy ends, and says yes exactly if the attributes the authority has
    for the sender carry the project and the trust context of its configuration and,
    at a worker for enrollers, the role of an enroller: no other attribute a member
    has been given, whatever its name, makes a difference.  A member that has been
    enrolled carries the trust context under both names, and so passes the check for
    members only if the configuration has one identifier for both. *)
Theorem authority_policy_decides cf name check o id :
  utf8_valid (cf_project_identifier cf) = true -> utf8_valid (cf_trust_context_identifier cf) = true ->
  let policy := create_abac_policy cf name check in
  let outcome fuel := eval fuel (abac_expression policy) (subject_environment (abac_environment policy) o id) in
  (exists fuel r, outcome fuel = Some r /\ r <> Panic) /\
  (forall fuel r, outcome fuel = Some r -> r = Ok (EBool true) <-> exists e, o = Some e /\ entry_allows cf check e) /\
  (forall attributes now enroller,
     entry_allows cf AnyMember
       (mkAttributesEntry (in_trust_context (cf_trust_context_identifier cf) attributes) now None enroller) <->
     cf_project_identifier cf = cf_trust_context_identifier cf).
Proof.
  intros Hp Ht policy outcome. split_and!.
  - destruct (eval_decides _ _ (abac_expression policy) (policy_ranked cf name check o id)) as (n & r & Hr & Hnp & _).
    by exists n, r.
  - intros fuel r Hr. pose proof (policy_holds cf name check Hp Ht o id) as Hh. fold policy in Hh. rewrite <-Hh.
    apply eval_denote in Hr as (v & Hv & ->). rewrite (holds_by _ _ _ _ Hv).
    destruct v; cbn; naive_solver.
  - intros attributes now enroller. unfold entry_allows, in_trust_context. cbn [attrs].
    rewrite lookup_insert_ne, !lookup_insert_eq by done.
    split; [by intros ([= ->] & _)|intros ->; by split_and!].
Qed.

(** ** The cache of tokens *)

(** What is used of [lru::LruCache]: what is put is found unless it was evicted,
    what is popped is gone. *)
Class LruLaws (L K V : Type) `{LruCache L K V} := {
  lru_contents : L -> K -> option V;
  lru_new_law : forall n k, lru_contents (lru_new n) k = None;
  lru_put_law : forall k v l, lru_contents (lru_put k v l) k = Some v /\
    forall k', k' <> k -> lru_contents (lru_put k v l) k' = None \/ lru_contents (lru_put k v l) k' = lru_contents l k';
  lru_pop_law : forall k l, (lru_pop k l).1 = lru_contents l k /\ lru_contents (lru_pop k l).2 k = None /\
    forall k', k' <> k -> lru_contents (lru_pop k l).2 k' = lru_contents l k'
}.

(** Listing the keys of a storage does not change it. *)
Class StorageKeysLaws (S : Type) `{StorageLaws S} : Prop := {
  keys_law : forall ns s r s', storage_keys ns s = (r, s') -> contents s' = contents s
}.

(** ** The system *)

Section System.
Context {C : Crypto} `{IdentityCodec} `{CredentialCodec} {S : Type} `{Storage S} `{EntryCodec} `{InfoCodec}.
Context `{!StorageLaws S} `{!StorageKeysLaws S} `{!EntryCodecLaws}.
Context {L : Type} `{LruCache L bytes Token} `{!LruLaws L bytes Token}.
Context `{Cbor Request} `{Cbor Response} `{Cbor ApiError} `{Cbor AddMember} `{Cbor CreateToken} `{Cbor OneTimeCode}
  `{Cbor Credential} `{Cbor (list IdentityIdentifier)} `{Cbor (gmap IdentityIdentifier AttributesEntry)} `{Cbor unit}
  `{Cbor AuthenticateOidcToken}.
Context (show_error : auth_error -> bytes).
Context (cf : Configuration) (trusted : gmap IdentityIdentifier AttributesEntry).
Context (Htrusted : cf_trusted_identities cf = Fixed trusted).
Context (Hproject : utf8_valid (cf_project_identifier cf) = true).
Context (Htrust : utf8_valid (cf_trust_context_identifier cf) = true).

Notation aprog A := (prog (acall (S := S)) no_event A).

(** The state the workers share, and what has happened: the tokens that were
    issued and taken, whom access controls let in, the workers that were started,
    the documents Okta answered with. *)
Record world := mkWorld {
  w_identities : (Vault * S) * option CachedCredential;
  w_tokens : L;
  w_issued : list (bytes * Token);
  w_taken : list (bytes * Token);
  w_let_in : list (AbacAccessControl * IdentityIdentifier * option AttributesEntry);
  w_started : list (Address * incoming_control * auth_worker);
  w_documents : list (gmap bytes json_value)
}.

Definition w_store (g : world) : S := (w_identities g).1.2.

Definition with_identities g i := mkWorld i (w_tokens g) (w_issued g) (w_taken g) (w_let_in g) (w_started g) (w_documents g).
Definition with_store (g : world) (s : S) : world :=
  with_identities g (((w_identities g).1.1, s), (w_identities g).2).

(** What a call may answer, and what it does. *)
Definition arun {X} (c : acall (S := S) X) : X -> world -> world -> Prop :=
  match c in acall X return X -> world -> world -> Prop with
  | OnStore op => fun x g g' => exists s', op (w_store g) = (x, s') /\ g' = with_store g s'
  | OnIdentities op => fun x g g' => exists i, op (w_identities g) = (x, i) /\ g' = with_identities g i
  | TokenPut code t => fun x g g' =>
      x = None /\ g' = g \/
      x = Some tt /\ g' = mkWorld (w_identities g) (lru_put code t (w_tokens g)) ((code, t) :: w_issued g)
                          (w_taken g) (w_let_in g) (w_started g) (w_documents g)
  | TokenPop code => fun x g g' =>
      x = None /\ g' = g \/
      exists o l, lru_pop code (w_tokens g) = (o, l) /\ x = Some o /\
        g' = mkWorld (w_identities g) l (w_issued g)
               (match o with Some t => (code, t) :: w_taken g | None => w_taken g end) (w_let_in g) (w_started g)
               (w_documents g)
  | StartAt a incoming w => fun x g g' =>
      g' = mkWorld (w_identities g) (w_tokens g) (w_issued g) (w_taken g) (w_let_in g) ((a, incoming, w) :: w_started g)
             (w_documents g)
  | Note a from e => fun x g g' =>
      g' = mkWorld (w_identities g) (w_tokens g) (w_issued g) (w_taken g) ((a, from, e) :: w_let_in g) (w_started g)
             (w_documents g)
  | GetUserInfo _ _ _ => fun x g g' =>
      g' = mkWorld (w_identities g) (w_tokens g) (w_issued g) (w_taken g) (w_let_in g) (w_started g)
             (match x with UserDocument doc => doc :: w_documents g | _ => w_documents g end)
  | Clock | InstantNow | RandomCode | RandomId | ReadTrusted _ | SendTo _ _ | ForwardTo _ | SleepMillis _ | AskPeer _ _ | FlowAdd _ _ | ReadPem _ =>
      fun x g g' => g' = g
  end.

(** The workers of an authority are started; a message arrives at one of them; the
    rest of the node changes what is stored, but no attributes (the secure channels
    of an authority have no trust context: they store identities, and refuse
    credentials). *)
Inductive aspawn : world -> aprog (auresult unit) -> world -> Prop :=
| spawn_direct g id : aspawn g (start_direct_authenticator id cf) g
| spawn_enrollment g id : aspawn g (start_enrollment_services id cf) g
| spawn_issuer g id : aspawn g (start_credential_issuer id cf) g
| spawn_okta g id : aspawn g (start_okta id cf) g
| spawn_message g fuel a incoming w m :
    (a, incoming, w) ∈ w_started g ->
    aspawn g (auth_relay (cf_trusted_identities cf) show_error fuel incoming a w m) g
| spawn_rest g i :
    contents i.1.2 ATTRIBUTES_KEY = contents (w_store g) ATTRIBUTES_KEY -> aspawn g (PRet (Ok tt)) (with_identities g i).

Definition initial (g : world) : Prop :=
  (forall id, contents (w_store g) ATTRIBUTES_KEY id = None) /\ (forall c, lru_contents (w_tokens g) c = None) /\
  w_issued g = [] /\ w_taken g = [] /\ w_let_in g = [] /\ w_started g = [] /\
  w_documents g = [].

(** ** The invariant *)

(** An entry of the Okta service: nobody attested it, and its attributes are the
    configured ones of a document Okta answered with. *)
Definition by_okta (g : world) (e : AttributesEntry) : Prop :=
  attested_by e = None /\
  exists okta doc, cf_okta cf = Some okta /\ doc ∈ w_documents g /\
    attrs e = in_trust_context (cf_project_identifier cf) (custom_attributes (ok_attributes okta) doc).

(** An enroller by the configuration, by the word of another one, or by that of Okta. *)
Inductive vouched (g : world) : IdentityIdentifier -> Prop :=
| vouched_root x e : trusted !! x = Some e -> entry_allows cf EnrollerOnly e -> vouched g x
| vouched_link x e y a :
    (a, x, Some e) ∈ w_let_in g -> entry_allows cf EnrollerOnly e -> attested_by e = Some y -> vouched g y -> vouched g x
| vouched_okta x e a :
    (a, x, Some e) ∈ w_let_in g -> entry_allows cf EnrollerOnly e -> by_okta g e -> vouched g x.

(** An entry somebody attested who is an enroller. *)
Definition enrolled (g : world) (e : AttributesEntry) : Prop :=
  attrs e !! LEGACY_ID = Some (cf_trust_context_identifier cf) /\
  attrs e !! TRUST_CONTEXT_ID = Some (cf_trust_context_identifier cf) /\
  exists x, attested_by e = Some x /\ vouched g x.

Definition member_entry (g : world) (e : AttributesEntry) : Prop :=
  expires e = None /\ (enrolled g e \/ by_okta g e).

Definition for_enrollers (w : auth_worker) : bool :=
  match w with WDirectAuthenticator _ | WTokenIssuer _ => true | _ => false end.

Definition service_ok (x : Address * incoming_control * auth_worker) : Prop :=
  let '(_, incoming, w) := x in
  (for_enrollers w = true -> exists name, incoming = IncomingAbac (create_abac_policy cf name EnrollerOnly)) /\
  match w with
  | WDirectAuthenticator tc | WTokenAcceptor tc => tc = cf_trust_context_identifier cf
  | WOkta server => exists okta, cf_okta cf = Some okta /\
      os_project server = cf_project_identifier cf /\ os_attributes server = ok_attributes okta
  | _ => True
  end.

Definition uses (c : bytes) (l : list (bytes * Token)) : nat := length (filter (fun x => x.1 = c) l).

Definition kept (l : L) (c : bytes) : nat := match lru_contents l c with Some _ => 1 | None => 0 end.

Record authority_inv (g : world) : Prop := {
  inv_members : forall id v, contents (w_store g) ATTRIBUTES_KEY id = Some v ->
    exists e, decode_entry v = Some e /\ member_entry g e;
  inv_tokens : forall c t, lru_contents (w_tokens g) c = Some t -> (c, t) ∈ w_issued g;
  inv_issued : forall c t, (c, t) ∈ w_issued g -> vouched g (tk_generated_by t);
  inv_taken : w_taken g ⊆ w_issued g;
  inv_once : forall c, uses c (w_taken g) + kept (w_tokens g) c <= uses c (w_issued g);
  inv_started : Forall service_ok (w_started g)
}.

Definition grows (g g' : world) : Prop := w_let_in g ⊆ w_let_in g' /\ w_documents g ⊆ w_documents g'.

#[local] Instance grows_preorder : PreOrder grows.
Proof. split; [intros g; unfold grows; set_solver|intros g1 g2 g3; unfold grows; set_solver]. Qed.

Lemma by_okta_grows g g' e : grows g g' -> by_okta g e -> by_okta g' e.
Proof. intros [_ Hg] (? & okta & doc & ? & ? & ?). split; [done|]. exists okta, doc. split_and!; [done|by apply Hg|done]. Qed.

Lemma vouched_grows g g' x : grows g g' -> vouched g x -> vouched g' x.
Proof.
  intros Hg. induction 1 as [x e He Ha|x e y a Hin Ha Hy Hv IH|x e a Hin Ha Ho]; [by eapply vouched_root|..].
  - eapply vouched_link; [|done..]. by apply Hg.
  - eapply vouched_okta; [|done|by eapply by_okta_grows]. by apply Hg.
Qed.

Lemma member_grows g g' e : grows g g' -> member_entry g e -> member_entry g' e.
Proof.
  intros Hg [Hx [(? & ? & x & ? & ?)|Ho]]; (split; [done|]); [left|right; by eapply by_okta_grows].
  split_and!; [done..|]. exists x. split; [done|]. by eapply vouched_grows.
Qed.

(** ** What is stored *)

(** Nothing new is stored. *)
Definition shrinks (s s' : S) : Prop :=
  forall id v, contents s' ATTRIBUTES_KEY id = Some v -> contents s ATTRIBUTES_KEY id = Some v.

#[local] Instance shrinks_refl : Reflexive shrinks.
Proof. by intros s id v. Qed.

Lemma get_attributes_stored now id s r s' :
  get_attributes now id s = (r, s') -> shrinks s s' /\
  forall e, r = Ok (Some e) -> exists v, contents s ATTRIBUTES_KEY id = Some v /\ decode_entry v = Some e.
Proof.
  unfold get_attributes. intros Hg.
  apply sbind_inv in Hg as [(a & s1 & Hg & Hk)|[(e & Hg & ->)|[Hg ->]]];
    apply get_law in Hg as (Hc & _ & Ho); unfold shrinks; rewrite <-Hc; [|by split..].
  specialize (Ho a eq_refl). rewrite <-Hc in Ho. destruct a as [v|]; [|by injection Hk as <- <-].
  destruct (decode_entry v) as [e|] eqn:Ev; [|by injection Hk as <- <-].
  destruct now as [now|]; [|by injection Hk as <- <-]. cbn -[ATTRIBUTES_KEY] in Hk.
  unfold sbind, slift, sret in Hk.
  destruct (expires e) as [x|]; [destruct (x <=? now)%Z|];
    [|injection Hk as <- <-; split; [done|]; intros e' [= <-]; by exists v..].
  destruct (storage_del id ATTRIBUTES_KEY s1) as [r1 s2] eqn:Ed. apply del_law in Ed as (_ & Hok & Hno).
  assert (s' = s2 /\ forall e, r <> Ok (Some e)) as [-> Hr] by (destruct r1; cbn in Hk; by simplify_eq).
  split; [|by intros e' []%Hr]. intros id' v'. destruct r1 as [[]|e1|]; [|by rewrite Hno..].
  rewrite Hok by done. by case_bool_decide.
Qed.

Lemma list_stored now s r s' : list_attributes now s = (r, s') -> shrinks s s'.
Proof.
  unfold list_attributes. intros Hl.
  assert (forall ids l s r s', list_loop now ids l s = (r, s') -> shrinks s s') as Hloop.
  { intros ids. induction ids as [|id ids IH]; intros l s1 r1 s1' Hk; [unfold list_loop, sret in Hk; by injection Hk as <- <-|].
    cbn [list_loop] in Hk. destruct (IdentityIdentifier_try_from id) as [i|e|];
      [erewrite sbind_run in Hk by reflexivity|by injection Hk as <- <-..].
    apply sbind_inv in Hk as [(o & s3 & Hg & Hk)|[(e & Hg & ->)|[Hg ->]]];
      apply get_attributes_stored in Hg as [Hs _]; [|done..].
    intros id' v Hv. apply Hs. destruct o; by eapply IH. }
  apply sbind_inv in Hl as [(a & s2 & Ha & Hk)|[(e & Ha & ->)|[Ha ->]]]; apply keys_law in Ha; unfold shrinks;
    rewrite <-Ha; [by eapply Hloop|done..].
Qed.

Lemma put_stored id e s r s' :
  put_attributes id e s = (r, s') -> forall id' v, contents s' ATTRIBUTES_KEY id' = Some v ->
    contents s ATTRIBUTES_KEY id' = Some v \/ v = encode_entry e.
Proof.
  unfold put_attributes, sbind. destruct (storage_set _ _ _ s) as [r1 s1] eqn:E. apply set_law in E as (_ & Hok & Hno).
  destruct r1 as [[]|e1|]; cbn; intros [= <- <-] id' v; [|rewrite Hno by done; by left..].
  rewrite Hok by done. case_bool_decide; [intros [= <-]; by right|by left].
Qed.

Lemma delete_stored id s r s' : delete_attributes id s = (r, s') -> shrinks s s'.
Proof.
  intros E. apply del_law in E as (_ & Hok & Hno). intros id' v. destruct r as [[]|e1|]; [|by rewrite Hno..].
  rewrite Hok by done. by case_bool_decide.
Qed.

(** An operation on identities that changes nothing of what is stored. *)
Definition reads {X} (m : stm (Vault * S) IdError X) : Prop :=
  forall st r st', m st = (r, st') -> contents st'.2 = contents st.2.

Lemma reads_bind {X Y} (m : stm (Vault * S) IdError X) (f : X -> stm (Vault * S) IdError Y) :
  reads m -> (forall x, reads (f x)) -> reads (sbind m f).
Proof.
  intros Hm Hf st r st' Hk. apply sbind_inv in Hk as [(x & st1 & Ha & Hb)|[(e & Ha & ->)|[Ha ->]]].
  - apply Hm in Ha. apply Hf in Hb. by rewrite Hb.
  - by apply Hm in Ha.
  - by apply Hm in Ha.
Qed.

Lemma reads_lift {X} (r : result IdError X) : reads (slift r).
Proof. by intros st r' st' [= _ <-]. Qed.

Lemma reads_vault {X} (m : stm Vault VaultError X) : reads (in_vault m).
Proof. intros [v s] r st'. unfold in_vault. destruct (m v) as [r1 v1]. by intros [= _ <-]. Qed.

Lemma reads_issue issuer data : reads (Credentials_issue_credential issuer data).
Proof.
  assert (forall id, reads (get_identity id)) as Hget.
  { intros id. apply reads_bind; [|intros [i|]; apply reads_lift].
    intros [v s] r [v' s'] Hr. by apply retrieve_run in Hr as (_ & ? & _). }
  unfold Credentials_issue_credential, create_signature, get_secret_key, get_root_secret_key, get_labelled_key,
    get_secret_key_from_change.
  repeat first [apply Hget | apply reads_bind; [|intros ?] | apply reads_lift | apply reads_vault | by intros ? ? ? [= _ <-]].
Qed.

(** ** What the workers keep *)

Notation keeps p g Q := (safe (@arun) authority_inv grows p g Q).

Lemma inv_identities g i :
  authority_inv g ->
  (forall id v, contents i.1.2 ATTRIBUTES_KEY id = Some v ->
     contents (w_store g) ATTRIBUTES_KEY id = Some v \/ exists e, decode_entry v = Some e /\ member_entry g e) ->
  authority_inv (with_identities g i).
Proof.
  intros [Hm Ht Hi Htk Ho Hs] Hc. assert (grows g (with_identities g i)) as Hg by (by unfold grows).
  split; [|done|intros c t Hin; eapply vouched_grows; [exact Hg|by eapply Hi]|done..].
  intros id v Hv. destruct (Hc id v Hv) as [Hv'|(e & He & Hme)].
  - destruct (Hm id v Hv') as (e & He & Hme). exists e. split; [done|]. by eapply member_grows.
  - exists e. split; [done|]. by eapply member_grows.
Qed.

Lemma keeps_store {X} (op : stm S Error X) g (Q : auresult X -> world -> Prop) :
  (forall s r s', op s = (r, s') -> forall id v, contents s' ATTRIBUTES_KEY id = Some v ->
     contents s ATTRIBUTES_KEY id = Some v \/ exists e, decode_entry v = Some e /\ member_entry g e) ->
  (forall g0 r s', authority_inv g0 -> op (w_store g0) = (r, s') ->
     forall g2, grows g0 g2 -> authority_inv g2 -> Q (map_err AStoreErr r) g2) ->
  keeps (store op) g Q.
Proof.
  intros Hop HQ. cbn. intros g0 x g1 Hg HI (s' & Hx & ->).
  split_and!; [|by unfold grows|intros g2 Hg2 HI2; exact (HQ g0 x s' HI Hx g2 Hg2 HI2)].
  apply inv_identities; [done|]. intros id v Hv. destruct (Hop _ _ _ Hx id v Hv) as [?|(e & ? & ?)]; [by left|right].
  exists e. split; [done|]. by eapply member_grows.
Qed.

Lemma keeps_get now id g :
  keeps (store (get_attributes now id)) g (fun r g => forall e, r = Ok (Some e) -> member_entry g e).
Proof.
  apply keeps_store.
  - intros s r s' Hg id' v Hv. left. by apply (proj1 (get_attributes_stored _ _ _ _ _ Hg)).
  - intros g0 r s' HI Hr g2 Hg HI2 e He. apply get_attributes_stored in Hr as [_ Hr].
    destruct r as [o|e'|]; cbn in He; simplify_eq. destruct (Hr e eq_refl) as (v & Hv & Hd).
    destruct (inv_members _ HI _ _ Hv) as (e' & He' & Hm). rewrite Hd in He'. simplify_eq. by eapply member_grows.
Qed.

(** A program of which nothing has to be known. *)
Definition quiet {A} (p : aprog A) : Prop := forall g, authority_inv g -> keeps p g (fun _ _ => True).

Lemma quiet_ret {A} (a : A) : quiet (PRet a : aprog A).
Proof. done. Qed.

Lemma quiet_panic {A} : quiet (PPanic : aprog A).
Proof. done. Qed.

Lemma quiet_idle {X A} (c : acall (S := S) X) (k : X -> aprog A) :
  (forall x g g', arun c x g g' -> g' = g) -> (forall x, quiet (k x)) -> quiet (PCall c k).
Proof. intros Hc Hk g _ g0 x g1 Hg HI ->%Hc. split_and!; [done..|]. by apply Hk. Qed.

(** The state a program ends in satisfies the invariant. *)
Lemma keeps_inv {A} (p : aprog A) g (Q : A -> world -> Prop) :
  keeps p g Q -> keeps p g (fun a g => authority_inv g /\ Q a g).
Proof.
  revert g. induction p as [A a|A|A X c k IH|A X Y x body IHb k IHk|A X Y q IHq d k IHk]; intros g; cbn; try done.
  - intros HQ g' Hg HI. split; [done|]. by apply HQ.
  - intros Hk g0 x g1 Hg HI Hr. destruct (Hk g0 x g1 Hg HI Hr) as (? & ? & ?). split_and!; [done..|]. by apply IH.
Qed.

Lemma keeps_then {A B} (p : aprog A) (f : A -> aprog B) g Q Q' :
  authority_inv g -> keeps p g Q -> (forall a g', grows g g' -> authority_inv g' -> Q a g' -> keeps (f a) g' Q') ->
  keeps (pbind p f) g Q'.
Proof.
  intros HI Hp Hf. apply safe_bind; [apply _| |done].
  eapply safe_weaken; [apply _| |exact (keeps_inv p g Q Hp)]. cbn. intros a g' Hg [HI' HQ]. by apply Hf.
Qed.

Lemma try_ok {X Y} (a : X) (f : X -> aprog (auresult Y)) : ptry (PRet (Ok a)) f = f a.
Proof. done. Qed.

Lemma keeps_try {X Y} (p : aprog (auresult X)) (f : X -> aprog (auresult Y)) g Q :
  authority_inv g -> keeps p g Q ->
  (forall a g', grows g g' -> authority_inv g' -> Q (Ok a) g' -> keeps (f a) g' (fun _ _ => True)) ->
  keeps (ptry p f) g (fun _ _ => True).
Proof. intros HI Hp Hf. eapply keeps_then; [done|exact Hp|]. intros [a|e|] g' Hg HI' HQ; [by apply Hf|done..]. Qed.

Lemma quiet_bind {A B} (p : aprog A) (f : A -> aprog B) : quiet p -> (forall a, quiet (f a)) -> quiet (pbind p f).
Proof. intros Hp Hf g HI. eapply keeps_then; [done|by apply Hp|]. intros a g' _ HI' _. by apply Hf. Qed.

Notation boot := (cf_trusted_identities cf).

Lemma boot_get id g :
  authority_inv g ->
  keeps (Boot_get_attributes boot id) g
    (fun r g => forall e, r = Ok (Some e) -> trusted !! id = Some e \/ member_entry g e).
Proof.
  intros HI. rewrite Htrusted. unfold Boot_get_attributes, PreTrusted_get_attributes. cbn -[store get_attributes].
  destruct (trusted !! id) as [e|]; cbn -[store get_attributes].
  - intros g' _ _ e' [= <-]. by left.
  - intros g0 now g1 Hg HI0 ->. split_and!; [done..|].
    eapply safe_weaken; [apply _| |apply keeps_get]. cbn. intros r g' _ Hr e He. right. by apply Hr.
Qed.

Lemma boot_put id e g :
  authority_inv g -> member_entry g e -> keeps (Boot_put_attributes boot id e) g (fun _ _ => True).
Proof.
  intros HI He. rewrite Htrusted. unfold Boot_put_attributes, PreTrusted_get_attributes. cbn -[store put_attributes].
  destruct (trusted !! id) as [e'|]; [done|]. apply keeps_store; [|done].
  intros s r s' Hp id' v Hv. destruct (put_stored _ _ _ _ _ Hp _ _ Hv) as [?| ->]; [by left|right].
  exists e. by rewrite decode_encode_entry.
Qed.

Lemma quiet_delete id : quiet (Boot_delete id).
Proof. intros g _. apply keeps_store; [|done]. intros s r s' Hd id' v Hv. left. by apply (delete_stored _ _ _ _ Hd). Qed.

Lemma quiet_boot_get id : quiet (Boot_get_attributes boot id).
Proof. intros g HI. eapply safe_weaken; [apply _| |by apply boot_get]. done. Qed.

Lemma quiet_list_store now : quiet (store (list_attributes now)).
Proof. intros g _. apply keeps_store; [|done]. intros s r s' Hd id' v Hv. left. by apply (list_stored _ _ _ _ Hd). Qed.

Lemma quiet_try {X Y} (p : aprog (auresult X)) (f : X -> aprog (auresult Y)) :
  quiet p -> (forall a, quiet (f a)) -> quiet (ptry p f).
Proof. intros Hp Hf. apply quiet_bind; [done|]. intros [a|e|]; [apply Hf|apply quiet_ret|apply quiet_panic]. Qed.

Lemma quiet_issue issuer data : quiet (pcall (OnIdentities (on_identities (Credentials_issue_credential issuer data)))).
Proof.
  intros g _ g0 x g1 Hg HI (i & Hx & ->). split_and!; [|by unfold grows|done].
  apply inv_identities; [done|]. intros id v Hv. left. revert Hx. unfold on_identities, w_store.
  destruct (w_identities g0) as [st cache]. destruct (Credentials_issue_credential issuer data st) as [r st'] eqn:E.
  intros [= _ <-]. apply reads_issue in E. cbn in Hv |- *. by rewrite <-E.
Qed.

(** Programs that only read, answer or forward. *)
Ltac quieten :=
  repeat (intros; cbn beta iota zeta;
    first [ apply quiet_ret | apply quiet_panic | assumption | apply quiet_issue | apply quiet_boot_get | apply quiet_delete
          | apply quiet_list_store
          | apply quiet_idle; [by intros|]
          | apply quiet_bind; [|intros ?] | apply quiet_try; [|intros ?] | case_match ]).

Lemma quiet_answers req msg : quiet (answer_ok req) /\ quiet (answer_forbidden req msg) /\
  quiet (answer_internal_error req msg) /\ quiet (answer_unknown_path req).
Proof. split_and!; unfold answer_ok, answer_forbidden, answer_internal_error, answer_unknown_path, to_vec, rpc, pcall; quieten. Qed.

Lemma quiet_body {T} `{Cbor T} req (body : T) : quiet (answer_body req body).
Proof. unfold answer_body, to_vec, rpc, pcall. quieten. Qed.

(** Of the answer to a message over a secure channel something is known of its
    sender. *)
Lemma keeps_over m answer g :
  authority_inv g ->
  (forall from req dec g', find_info (local_msg m) = Ok from -> grows g g' -> authority_inv g' ->
     keeps (answer from req dec : aprog (auresult bytes)) g' (fun _ _ => True)) ->
  keeps (over_secure_channel m answer) g (fun _ _ => True).
Proof.
  assert (forall res, quiet (send_answer m res)) as Hsend by (intros; unfold send_answer, pcall; quieten).
  intros HI Ha. unfold over_secure_channel. destruct (find_info (local_msg m)) as [from|e|] eqn:Ef; [| |done].
  - unfold decode_request, rpc. destruct (map_err ARpcErr (decode_next (inner m))) as [[req dec]|e|]; [|done..].
    rewrite try_ok. eapply keeps_try; [done|by apply Ha|]. intros res g' _ HI' _. by apply Hsend.
  - apply quiet_try; [unfold decode_request, rpc; quieten|intros [req dec]|done].
    apply quiet_try; [|exact Hsend]. apply (quiet_answers req (str "secure channel required")).
Qed.

Lemma enrolled_member g from attributes now :
  vouched g from ->
  member_entry g (mkAttributesEntry (in_trust_context (cf_trust_context_identifier cf) attributes) now None (Some from)).
Proof.
  intros Hf. split; [done|]. left. unfold enrolled, in_trust_context. cbn [attrs attested_by].
  rewrite lookup_insert_ne, !lookup_insert_eq by done. split_and!; [done..|]. by exists from.
Qed.

Lemma keeps_add_member from id attributes g :
  authority_inv g -> vouched g from ->
  keeps (add_member boot (cf_trust_context_identifier cf) from id attributes) g (fun _ _ => True).
Proof.
  intros HI Hf. unfold add_member, timestamp_now. cbn -[Boot_put_attributes].
  intros g0 t g1 Hg HI0 ->. split_and!; [done..|]. destruct t as [t|]; cbn -[Boot_put_attributes]; [|done].
  apply boot_put; [done|]. apply enrolled_member. by eapply vouched_grows.
Qed.

Lemma quiet_members from : quiet (list_members boot from).
Proof.
  unfold list_members, Boot_list, PreTrusted_list. rewrite Htrusted. cbn [get_trusted_identities].
  unfold pcall. quieten.
Qed.

Lemma quiet_delete_member from req id : quiet (delete_member boot from req id).
Proof.
  destruct (quiet_answers req (str "not attested by current enroller")) as (Hok & Hf & _).
  unfold delete_member. quieten.
Qed.

Lemma direct_keeps from req dec g :
  authority_inv g -> vouched g from ->
  keeps (DirectAuthenticator_answer boot (cf_trust_context_identifier cf) from req dec) g (fun _ _ => True).
Proof.
  intros HI Hf. destruct (quiet_answers req []) as (Hok & _ & _ & Hu).
  pose proof (fun T (HT : Cbor T) => quiet_body (T := T) req) as Hbody.
  assert (forall p : aprog (auresult bytes), quiet p -> keeps p g (fun _ _ => True)) as Hq by (intros p Hp; by apply Hp).
  unfold DirectAuthenticator_answer.
  assert (keeps (do? (add, _) <- rpc (decode_next (T := AddMember) dec);
                 do? _ <- add_member boot (cf_trust_context_identifier cf) from (am_member add) (am_attributes add);
                 answer_ok req) g (fun _ _ => True)) as Hadd.
  { unfold rpc. destruct (map_err ARpcErr (decode_next dec)) as [[add rest]|e|]; [|done..].
    rewrite try_ok. eapply keeps_try; [done|by apply keeps_add_member|]. intros u g' _ HI' _. by apply Hok. }
  destruct (rq_method req) as [[]|]; [..|by apply Hq];
    destruct (path_segments 5 req) as [|a [|b [|c l]]]; try (by apply Hq);
    repeat case_decide; try done; apply Hq;
    first [apply quiet_delete_member | apply quiet_try; [apply quiet_members|intros ?; apply quiet_body] | done].
Qed.

Lemma uses_cons c c' t l : uses c ((c', t) :: l) = (if bool_decide (c' = c) then 1 else 0) + uses c l.
Proof. unfold uses. rewrite filter_cons. cbn. case_bool_decide; [by rewrite decide_True|by rewrite decide_False]. Qed.

Lemma inv_put g code t :
  authority_inv g -> vouched g (tk_generated_by t) ->
  authority_inv (mkWorld (w_identities g) (lru_put code t (w_tokens g)) ((code, t) :: w_issued g)
    (w_taken g) (w_let_in g) (w_started g) (w_documents g)).
Proof.
  intros [Hm Ht Hi Htk Ho Hs] Hv. set (g' := mkWorld _ _ _ _ _ _ _). assert (grows g g') as Hg by (by unfold grows).
  destruct (lru_put_law code t (w_tokens g)) as [Hput Hother]. split; cbn -[uses kept].
  - intros id v Hc. destruct (Hm id v Hc) as (e & ? & ?). exists e. split; [done|]. by eapply member_grows.
  - intros c t' Hc. destruct (decide (c = code)) as [->|Hne].
    + rewrite Hput in Hc. injection Hc as <-. left.
    + right. apply Ht. by destruct (Hother c Hne) as [E|E]; rewrite E in Hc.
  - intros c t' [[= -> ->]|Hin]%elem_of_cons; eapply vouched_grows; [exact Hg|done|exact Hg|by eapply Hi].
  - set_solver.
  - intros c. rewrite uses_cons. specialize (Ho c). unfold kept in *. case_bool_decide as Hc.
    + subst c. rewrite Hput. lia.
    + destruct (Hother c) as [E|E]; [done| |]; rewrite E; lia.
  - done.
Qed.

Lemma inv_pop g code o l :
  authority_inv g -> lru_pop code (w_tokens g) = (o, l) ->
  authority_inv (mkWorld (w_identities g) l (w_issued g)
    (match o with Some t => (code, t) :: w_taken g | None => w_taken g end) (w_let_in g) (w_started g) (w_documents g)) /\
  forall t, o = Some t -> vouched g (tk_generated_by t).
Proof.
  intros [Hm Ht Hi Htk Ho Hs] E. pose proof (lru_pop_law code (w_tokens g)) as (Hpop & Hgone & Hother).
  rewrite E in Hpop, Hgone, Hother. cbn in Hpop, Hgone, Hother.
  set (g' := mkWorld _ _ _ _ _ _ _). assert (grows g g') as Hg by (by unfold grows).
  assert (forall t, o = Some t -> (code, t) ∈ w_issued g) as Hin by (intros t ->; by apply Ht).
  split; [|intros t Hot; by eapply Hi, Hin]. split; cbn -[uses kept].
  - intros id v Hc. destruct (Hm id v Hc) as (e & ? & ?). exists e. split; [done|]. by eapply member_grows.
  - intros c t' Hc. destruct (decide (c = code)) as [->|Hne]; [by rewrite Hgone in Hc|]. rewrite Hother in Hc by done. by apply Ht.
  - intros c t' Hc. eapply vouched_grows; [exact Hg|by eapply Hi].
  - destruct o as [t|]; [|done]. intros x [->|Hx]%elem_of_cons; [by apply Hin|by apply Htk].
  - intros c. specialize (Ho c). unfold kept in *. destruct (decide (c = code)) as [->|Hne].
    + rewrite Hgone. rewrite <-Hpop in Ho. destruct o; [rewrite uses_cons, bool_decide_true by done|]; lia.
    + rewrite Hother by done. destruct o; [rewrite uses_cons, bool_decide_false by done|]; lia.
  - done.
Qed.

Lemma token_issuer_keeps from req dec g :
  authority_inv g -> vouched g from -> keeps (TokenIssuer_answer show_error from req dec) g (fun _ _ => True).
Proof.
  intros HI Hf. destruct (quiet_answers req []) as (_ & _ & _ & Hu). unfold TokenIssuer_answer.
  destruct (rq_method req) as [[]|]; try (by apply Hu). case_decide; [|by apply Hu]. unfold rpc.
  destruct (map_err ARpcErr (decode_next dec)) as [[att rest]|e|]; [|done..]. rewrite try_ok.
  eapply (keeps_then _ _ _ (fun _ _ => True)); [done| |].
  - cbn. intros g0 code g1 Hg HI0 ->. split_and!; [done..|]. intros g1 time g2 Hg1 HI1 ->. split_and!; [done..|].
    intros g2 r g3 Hg2 HI2 [[-> ->]|[-> ->]]; (split_and!; [|by unfold grows|done]); [done|].
    apply inv_put; [done|]. cbn. eapply vouched_grows; [|exact Hf]. etrans; [exact Hg|]. by etrans.
  - intros [otc|e|] g' _ HI' _; [by apply quiet_body|by apply (quiet_answers req (show_error e))|done].
Qed.

Lemma take_token_keeps otc g :
  authority_inv g ->
  keeps (take_token otc) g (fun r g => forall t, r = inr t -> vouched g (tk_generated_by t)).
Proof.
  intros HI. cbn. intros g0 r g1 Hg HI0 [[-> ->]|(o & l & Hp & -> & ->)]; [by split_and!|].
  destruct (inv_pop _ _ _ _ HI0 Hp) as [HI1 Hv]. split_and!; [done|by unfold grows|].
  destruct o as [t|]; cbn; [|done]. intros g2 now g3 Hg2 HI2 ->. split_and!; [done..|].
  destruct (_ <? _)%Z; cbn; [done|]. intros g3 Hg3 HI3 t' [= <-].
  eapply (vouched_grows g0); [|by apply Hv]. etrans; [exact Hg2|exact Hg3].
Qed.

Lemma token_acceptor_keeps from req dec g :
  authority_inv g ->
  keeps (TokenAcceptor_answer boot (cf_trust_context_identifier cf) from req dec) g (fun _ _ => True).
Proof.
  intros HI. destruct (quiet_answers req []) as (Hok & _ & _ & Hu). unfold TokenAcceptor_answer.
  destruct (rq_method req) as [[]|]; try (by apply Hu). case_decide; [|by apply Hu]. unfold rpc.
  destruct (map_err ARpcErr (decode_next dec)) as [[otc rest]|e|]; [|done..]. rewrite try_ok.
  eapply keeps_then; [done|by apply take_token_keeps|]. intros [[e|msg]|t] g1 Hg1 HI1 Hv.
  - by apply (quiet_answers req).
  - by apply (quiet_answers req msg).
  - specialize (Hv t eq_refl). unfold timestamp_now. cbn -[Boot_put_attributes answer_ok].
    intros g2 now g3 Hg2 HI2 ->. split_and!; [done..|].
    destruct now as [now|]; cbn -[Boot_put_attributes answer_ok]; [|done].
    eapply (keeps_try _ _ _ (fun _ _ => True)); [done| |intros u g' _ HI' _; by apply Hok].
    apply boot_put; [done|]. apply enrolled_member. by eapply vouched_grows.
Qed.

Lemma credentials_issuer_quiet self from req dec : quiet (CredentialsIssuer_answer boot show_error self from req dec).
Proof.
  destruct (quiet_answers req (str "unauthorized member")) as (_ & Hf & _ & Hu).
  assert (quiet (issue_credential boot self from)) as Hissue.
  { unfold issue_credential. apply quiet_try; [apply quiet_boot_get|]. intros [entry|]; [|apply quiet_ret]. unfold pcall at 1.
    quieten. }
  unfold CredentialsIssuer_answer. destruct (rq_method req) as [[]|]; try done. case_decide; [|done].
  apply quiet_bind; [done|]. intros [[crd|]|e|];
    [apply quiet_body|done|apply (quiet_answers req (show_error e))|apply quiet_panic].
Qed.

Lemma inv_document g doc :
  authority_inv g -> authority_inv (mkWorld (w_identities g) (w_tokens g) (w_issued g) (w_taken g)
    (w_let_in g) (w_started g) (doc :: w_documents g)).
Proof.
  intros [Hm Ht Hi Htk Ho Hs]. set (g' := mkWorld _ _ _ _ _ _ _).
  assert (grows g g') as Hg by (unfold grows, g'; cbn; set_solver). split; cbn -[uses kept]; try done.
  - intros id v Hc. destruct (Hm id v Hc) as (e & ? & ?). exists e. split; [done|]. by eapply member_grows.
  - intros c t Hin. eapply vouched_grows; [exact Hg|by eapply Hi].
Qed.

(** What the Okta service keeps of a token is what Okta has answered. *)
Lemma check_token_keeps server token g :
  authority_inv g ->
  keeps (check_token server token) g (fun r g => forall attributes, r = Ok (Some attributes) ->
    exists doc, doc ∈ w_documents g /\ attributes = custom_attributes (os_attributes server) doc).
Proof.
  intros HI. cbn. intros g0 res g1 Hg HI0 ->. destruct res as [| | | |doc]; cbn; destruct g0 as [i t iss tk li st docs];
    cbn; (split_and!; [first [done|by apply (inv_document _ doc HI0)]|unfold grows; cbn; set_solver|]); try done.
  intros g2 [_ Hg2] HI2 attributes [= <-]. exists doc. split; [apply Hg2; cbn; set_solver|done].
Qed.

Lemma okta_keeps server okta from req dec g :
  authority_inv g -> cf_okta cf = Some okta -> os_project server = cf_project_identifier cf ->
  os_attributes server = ok_attributes okta ->
  keeps (Okta_on_request boot server from req dec) g (fun _ _ => True).
Proof.
  intros HI Hokta Hp Ha. destruct (quiet_answers req (str "Forbidden")) as (Hok & Hf & _ & Hu). unfold Okta_on_request.
  assert (quiet (answer_invalid_method req)) as Hi by (unfold answer_invalid_method, to_vec, rpc, pcall; quieten).
  destruct (rq_method req) as [[]|]; try (by apply Hi). case_decide; [|by apply Hu]. unfold rpc.
  destruct (map_err ARpcErr (decode_next dec)) as [[token rest]|e|]; [|done..]. rewrite try_ok.
  eapply keeps_try; [done|by apply check_token_keeps|]. intros [attributes|] g1 Hg1 HI1 Hdoc; [|by apply Hf].
  destruct (Hdoc attributes eq_refl) as (doc & Hin & ->). unfold timestamp_now. cbn -[Boot_put_attributes answer_ok].
  intros g2 now g3 Hg2 HI2 ->. split_and!; [done..|]. destruct now as [now|]; cbn -[Boot_put_attributes answer_ok]; [|done].
  eapply (keeps_try _ _ _ (fun _ _ => True)); [done| |intros u g' _ HI' _; by apply Hok].
  apply boot_put; [done|]. split; [done|]. right. split; [done|]. exists okta, doc. rewrite Hp, Ha.
  split_and!; [done|by apply Hg2|done].
Qed.

Lemma converter_quiet own m : quiet (LegacyApiConverter_handle_message own m).
Proof.
  assert (forall l, quiet (forward_to l)) as Hf by (intros l; unfold forward_to, pcall; quieten).
  unfold LegacyApiConverter_handle_message. apply quiet_try; [apply quiet_ret|]. intros message.
  destruct (cbor_decode (inner m)) as [[req rest]|]; [|apply quiet_ret].
  destruct (rq_method req) as [[]|]; try apply quiet_ret. repeat case_decide; try apply Hf; [|apply quiet_ret].
  destruct (rq_has_body req); [|apply Hf]. apply quiet_try; [apply Hf|intros _]. unfold pcall, rpc.
  apply quiet_idle; [by intros|]. intros _. apply quiet_idle; [by intros|]. intros id.
  apply quiet_try; [apply quiet_ret|intros body]. apply quiet_try; [apply Hf|intros _; apply quiet_ret].
Qed.

(** A message that has been let in. *)
Lemma handle_keeps own incoming w m g :
  authority_inv g -> service_ok (own, incoming, w) ->
  (for_enrollers w = true -> forall from, find_info (local_msg m) = Ok from -> vouched g from) ->
  keeps (auth_handle boot show_error own w m) g (fun _ _ => True).
Proof.
  intros HI [_ Htc] Hfrom. destruct w as [tc|tc|tc|i|server|]; cbn [auth_handle]; [subst tc| |subst tc| | |].
  - apply keeps_over; [done|]. intros from req dec g' Ef Hg HI'. apply direct_keeps; [done|].
    eapply vouched_grows; [exact Hg|]. by apply Hfrom.
  - apply keeps_over; [done|]. intros from req dec g' Ef Hg HI'. apply token_issuer_keeps; [done|].
    eapply vouched_grows; [exact Hg|]. by apply Hfrom.
  - apply keeps_over; [done|]. intros from req dec g' Ef Hg HI'. by apply token_acceptor_keeps.
  - apply keeps_over; [done|]. intros from req dec g' Ef Hg HI'. by apply credentials_issuer_quiet.
  - apply keeps_over; [done|]. intros from req dec g' Ef Hg HI'. destruct Htc as (okta & ? & ? & ?).
    by eapply okta_keeps.
  - by apply converter_quiet.
Qed.

Lemma inv_note g a from o :
  authority_inv g -> authority_inv (mkWorld (w_identities g) (w_tokens g) (w_issued g) (w_taken g)
    ((a, from, o) :: w_let_in g) (w_started g) (w_documents g)).
Proof.
  intros [Hm Ht Hi Htk Ho Hs]. set (g' := mkWorld _ _ _ _ _ _ _).
  assert (grows g g') as Hg by (unfold grows, g'; cbn; set_solver). split; cbn -[uses kept]; try done.
  - intros id v Hc. destruct (Hm id v Hc) as (e & ? & ?). exists e. split; [done|]. by eapply member_grows.
  - intros c t Hin. eapply vouched_grows; [exact Hg|by eapply Hi].
Qed.

(** Whom the policy for enrollers lets in is one, by the configuration or by the
    word of the one who attested the entry. *)
Lemma let_in_vouched g name from o fuel :
  (forall e, o = Some e -> trusted !! from = Some e \/ member_entry g e) ->
  let a := create_abac_policy cf name EnrollerOnly in
  eval fuel (abac_expression a) (subject_environment (abac_environment a) o from) = Some (Ok (EBool true)) ->
  (a, from, o) ∈ w_let_in g -> vouched g from.
Proof.
  intros Ho a He Hin. apply eval_denote in He as (v & Hv & Hr). destruct v as [e|v]; [done|]. injection Hr as <-.
  apply holds_by in Hv. destruct Hv as [_ Hv]. specialize (Hv eq_refl).
  apply (policy_holds cf name EnrollerOnly Hproject Htrust) in Hv as (e & -> & Ha).
  destruct (Ho e eq_refl) as [Hr|[_ [(_ & _ & x & Hx & Hvx)|Hok]]];
    [by eapply vouched_root|by eapply vouched_link|by eapply vouched_okta].
Qed.

Lemma authorized_keeps fuel a from g :
  authority_inv g ->
  keeps (abac_authorized boot fuel a from) g (fun r g => forall o, r = Ok (Some true, o) ->
    eval fuel (abac_expression a) (subject_environment (abac_environment a) o from) = Some (Ok (EBool true)) /\
    forall e, o = Some e -> trusted !! from = Some e \/ member_entry g e).
Proof.
  intros HI. unfold abac_authorized. eapply keeps_then; [done|by apply boot_get|].
  intros [o|e|] g' _ _ Ho; cbn; [|done..].
  destruct (eval fuel _ _) as [[[| | |b| | |]|e|]|] eqn:E; cbn; try done;
    intros g2 Hg HI2 o' [= ]; subst; split; [done|].
  intros e ->. destruct (Ho e eq_refl) as [?|?]; [by left|right]. by eapply member_grows.
Qed.

Lemma relay_keeps fuel incoming own w m g :
  authority_inv g -> service_ok (own, incoming, w) ->
  keeps (auth_relay boot show_error fuel incoming own w m) g (fun _ _ => True).
Proof.
  intros HI Hs. destruct incoming as [a|]; cbn [auth_relay].
  2:{ eapply handle_keeps; [done|exact Hs|]. intros Hw. destruct Hs as [Hs _]. by destruct (Hs Hw). }
  destruct (find_info (local_msg m)) as [from|e|] eqn:Ef; [|done..].
  eapply keeps_try; [done|by apply authorized_keeps|]. cbn beta. intros [b o] g1 Hg1 HI1 Hb.
  case_decide as Htrue; [|done]. subst b. destruct (Hb o eq_refl) as [He Ho]. clear Hb.
  cbn -[auth_handle]. intros g2 [] g3 Hg2 HI2 ->. split_and!; [by apply inv_note|unfold grows; cbn; set_solver|].
  eapply handle_keeps; [by apply inv_note|exact Hs|]. intros Hw from' [= <-]%(eq_trans (eq_sym Ef)).
  destruct Hs as [Hs _]. destruct (Hs Hw) as [name [= ->]].
  eapply let_in_vouched; [|exact He|cbn; left].
  intros e Heq. destruct (Ho e Heq) as [?|?]; [by left|right]. eapply member_grows; [|done].
  etrans; [exact Hg2|]. unfold grows. cbn. set_solver.
Qed.

(** ** Starting the workers *)

Lemma quiet_start name incoming w :
  (forall a, service_ok (a, incoming, w)) -> quiet (start_at name incoming w : aprog (auresult unit)).
Proof.
  intros Hw. unfold start_at, worker_address. destruct (Address_from_string name) as [a|e|]; [|done..].
  intros g _. cbn. intros g0 x g1 Hg [Hm Ht Hi Htk Ho Hs] ->. set (g' := mkWorld _ _ _ _ _ _ _).
  assert (grows g0 g') as Hg' by (by unfold grows). split_and!; [|done..]. split; cbn -[uses kept]; try done.
  - intros id v Hc. destruct (Hm id v Hc) as (e & ? & ?). exists e. split; [done|]. by eapply member_grows.
  - intros c t Hin. eapply vouched_grows; [exact Hg'|by eapply Hi].
  - constructor; [apply Hw|done].
Qed.

Lemma quiet_consumer name id : quiet (add_consumer_named name id : aprog (auresult unit)).
Proof. unfold add_consumer_named, worker_address, pcall. quieten. Qed.

Lemma spawned_keeps g p g' :
  authority_inv g -> aspawn g p g' -> authority_inv g' /\ grows g g' /\ keeps p g' (fun _ _ => True).
Proof.
  intros HI Hsp. assert (forall p : aprog (auresult unit), quiet p ->
    authority_inv g /\ grows g g /\ keeps p g (fun _ _ => True)) as Hq by (intros q Hq; split_and!; [done..|by apply Hq]).
  destruct Hsp as [g id|g id|g id|g id|g fuel a incoming w m Hin|g i Hi].
  - apply Hq. unfold start_direct_authenticator. case_match; [done|].
    apply quiet_try; [apply quiet_consumer|intros _]. apply quiet_start. intros a. split; [by eexists|done].
  - apply Hq. unfold start_enrollment_services. case_match; [done|].
    apply quiet_try; [apply quiet_consumer|intros _].
    apply quiet_try; [apply quiet_start; intros a; split; [by eexists|done]|intros _].
    apply quiet_try; [apply quiet_consumer|intros _]. apply quiet_start. done.
  - apply Hq. apply quiet_try; [apply quiet_consumer|intros _]. apply quiet_start. done.
  - apply Hq. unfold start_okta. destruct (cf_okta cf) as [okta|] eqn:Eo; [|done].
    apply quiet_idle; [by intros|]. intros [|]; [|apply quiet_ret].
    apply quiet_try; [apply quiet_consumer|intros _]. apply quiet_start. intros a. split; [done|]. by exists okta.
  - split_and!; [done..|]. apply relay_keeps; [done|].
    pose proof (inv_started _ HI) as Hs. rewrite list.Forall_forall in Hs. by apply Hs.
  - split_and!; [|by unfold grows|done]. apply inv_identities; [done|]. intros id v Hv. left. by rewrite <-Hi.
Qed.

Lemma authority_invariant g0 st :
  initial g0 -> rtc (sstep (@arun) aspawn) ([], g0) st -> authority_inv st.2.
Proof.
  intros (Hstore & Htok & E1 & E2 & E3 & E4 & _) Hrun.
  eapply (interleaved_invariant (@arun) authority_inv grows aspawn g0 st); [exact spawned_keeps|exact Hrun|].
  split; rewrite ?E1, ?E2, ?E4.
  - intros id v. by rewrite Hstore.
  - intros c t. by rewrite Htok.
  - by intros c t []%elem_of_nil.
  - done.
  - intros c. unfold kept. by rewrite Htok.
  - done.
Qed.

Lemma custom_attributes_lookup names doc k v :
  custom_attributes names doc !! k = Some v -> k ∈ names /\ doc !! k = Some (JString v).
Proof.
  unfold custom_attributes. revert k v. induction names as [|a names IH] using rev_ind; intros k v; [done|].
  rewrite foldl_app. cbn. destruct (doc !! a) as [[s|]|] eqn:Ea; try (intros [??]%IH; split; [set_solver|done]).
  destruct (decide (a = k)) as [->|Hne].
  - rewrite lookup_insert_eq. intros [= <-]. split; [set_solver|done].
  - rewrite lookup_insert_ne by done. intros [??]%IH. split; [set_solver|done].
Qed.

(** Okta makes nobody an enroller unless the role is among its attributes. *)
Lemma okta_without_role g e okta :
  cf_okta cf = Some okta -> str "ockam-role" ∉ ok_attributes okta -> by_okta g e -> ~ entry_allows cf EnrollerOnly e.
Proof.
  intros Ho Hrole (_ & okta' & doc & Ho' & _ & Ha) (_ & _ & Hr). specialize (Hr eq_refl). simplify_eq.
  rewrite Ha in Hr. unfold in_trust_context in Hr. rewrite !lookup_insert_ne in Hr by done.
  by apply custom_attributes_lookup in Hr as [? _].
Qed.

(** C18: what an authority comes to hold, if its trusted identities are given in its
    configuration (and not read from a file that may change) and it starts with an
    empty store of attributes, which nothing but its workers writes to.  However the
    messages to its workers are interleaved, whoever sends them and whatever they
    hold: a stored entry does not expire, and
    - it carries the trust context under both names and was attested by an enroller,
      that is by an identity the configuration trusts with the role of an enroller,
      or by one that was let in as an enroller on the word of another enroller or of
      Okta, and so on; or
    - it is one of the Okta service, if that is configured: nobody attested it, and
      it holds the project under both names and, for the rest, the configured
      attributes of a document Okta answered with.
    If the configuration has no enroller and the role is not among the attributes
    of Okta, no token is ever issued and whoever is a member is so by the word of
    Okta; without the Okta service, nobody is. *)
Theorem members_are_vouched_for g0 st :
  initial g0 -> rtc (sstep (@arun) aspawn) ([], g0) st ->
  (forall id v, contents (w_store st.2) ATTRIBUTES_KEY id = Some v ->
     exists e, decode_entry v = Some e /\ expires e = None /\
       ((exists x, attrs e !! LEGACY_ID = Some (cf_trust_context_identifier cf) /\
           attrs e !! TRUST_CONTEXT_ID = Some (cf_trust_context_identifier cf) /\
           attested_by e = Some x /\ vouched st.2 x) \/
        by_okta st.2 e)) /\
  ((forall x e, trusted !! x = Some e -> ~ entry_allows cf EnrollerOnly e) ->
   (forall okta, cf_okta cf = Some okta -> str "ockam-role" ∉ ok_attributes okta) ->
   w_issued st.2 = [] /\
   (forall id v, contents (w_store st.2) ATTRIBUTES_KEY id = Some v ->
      exists e, decode_entry v = Some e /\ by_okta st.2 e) /\
   (cf_okta cf = None -> forall id, contents (w_store st.2) ATTRIBUTES_KEY id = None)).
Proof.
  intros Hinit Hrun. pose proof (authority_invariant g0 st Hinit Hrun) as HI. split.
  - intros id v Hv. destruct (inv_members _ HI _ _ Hv) as (e & He & Hx & Hm). exists e. split_and!; [done..|].
    destruct Hm as [(? & ? & x & ? & ?)|Ho]; [left; by exists x|by right].
  - intros Hnone Hrole. assert (forall x, ~ vouched st.2 x) as Hno.
    { intros x. induction 1 as [| |x e a _ Ha Ho]; [by eapply Hnone|done|]. pose proof Ho as (_ & okta & _ & Hok & _).
      by eapply okta_without_role; [|by apply Hrole|exact Ho|]. }
    assert (forall id v, contents (w_store st.2) ATTRIBUTES_KEY id = Some v ->
      exists e, decode_entry v = Some e /\ by_okta st.2 e) as Hst.
    { intros id v Hv. destruct (inv_members _ HI _ _ Hv) as (e & He & _ & [(_ & _ & x & _ & Hvx)|Ho]);
        [by destruct (Hno x)|by exists e]. }
    split_and!; [|done|].
    + destruct (w_issued st.2) as [|[c t] l] eqn:El; [done|].
      destruct (Hno (tk_generated_by t)). apply (inv_issued _ HI c). rewrite El. left.
    + intros Hokta id. destruct (contents _ _ id) as [v|] eqn:Ev; [|done].
      destruct (Hst id v Ev) as (e & _ & _ & okta & _ & Hok & _). congruence.
Qed.

(** C19: one-time codes.  In every interleaving, a code has been exchanged for a token
    at most as often as a token was put under it (once, if no two random codes
    are equal), what it was exchanged for is a token that was issued under that
    very code, and who asked for the token is an enroller, by the configuration, by
    the word of another enroller or, where the Okta service is configured, by that
    of Okta. *)
Theorem tokens_are_taken_once g0 st :
  initial g0 -> rtc (sstep (@arun) aspawn) ([], g0) st ->
  (forall c, uses c (w_taken st.2) <= uses c (w_issued st.2)) /\
  (forall c t, (c, t) ∈ w_taken st.2 -> (c, t) ∈ w_issued st.2 /\ vouched st.2 (tk_generated_by t)).
Proof.
  intros Hinit Hrun. pose proof (authority_invariant g0 st Hinit Hrun) as HI. split.
  - intros c. pose proof (inv_once _ HI c). lia.
  - intros c t Hin%(inv_taken _ HI). split; [done|]. by apply (inv_issued _ HI c).
Qed.
End System.
