(* ===== verification/AuthorityExamples.v ===== *)
(** * A concrete authority

    Encodings, a cache of tokens, and a run in which an enroller adds a member and
    has a token issued that somebody takes, and somebody enrolls with Okta; the theorems on requests and on
    authorities are applied to them. *)

From Stdlib Require Import ZArith Lia.
From Stdlib Require Strings.Byte Strings.String.
From stdpp Require Import base gmap list numbers option countable relations.
From S2P Require Import Prelude RustStr Routing AccessControl FlowControl Vault ToyCrypto Attributes Identities Credentials.
From S2P Require Import IdentityExamples AbacExpr AbacEval AbacPolicy Router Node Execution Api Authority Interleaving AuthoritySpec.

(** ** Requests *)

(** An encoding of a single value. *)
Definition one_item {T} `{EqDecision T} (x0 : T) (b0 : Byte.byte) : Cbor T := {|
  cbor_encode x := if decide (x = x0) then Some [b0] else None;
  cbor_decode b := match b with
                   | c :: rest => if decide (c = b0) then Some (x0, rest) else None
                   | [] => None
                   end
|}.

Lemma one_item_laws {T} `{EqDecision T} (x0 : T) b0 : CborLaws T (H := one_item x0 b0).
Proof.
  split. intros x b rest. cbn. destruct (decide (x = x0)) as [->|]; [|done]. intros [= <-]. cbn.
  by rewrite decide_True.
Qed.

#[export] Instance Request_eq_dec : EqDecision Request.
Proof. solve_decision. Defined.
#[export] Instance Response_eq_dec : EqDecision Response.
Proof. solve_decision. Defined.

(** No value is encoded. *)
Definition no_item {T} : Cbor T := {| cbor_encode _ := None; cbor_decode _ := None |}.

Lemma no_item_laws {T} : CborLaws T (H := no_item).
Proof. done. Qed.

Definition sample_get : Request := mkRequest 7 (str "/x") (Some Post) true.

Lemma request_response_roundtrip_witness :
  exists buf,
    @ResponseBuilder_to_vec (one_item (mkResponse 1 7 (Some StatusOk) true) Byte.x01) bytes
      (one_item (str "hi") Byte.x02) (ResponseBuilder_body (str "hi") (Response_ok 1 7)) = Ok buf /\
    @client_result (one_item (mkResponse 1 7 (Some StatusOk) true) Byte.x01)
      no_item bytes (one_item (str "hi") Byte.x02) buf = Ok (str "hi").
Proof.
  eexists. split; [reflexivity|].
  destruct (@request_response_roundtrip (one_item sample_get Byte.x00)
    (one_item (mkResponse 1 7 (Some StatusOk) true) Byte.x01) no_item
    (one_item (str "hi") Byte.x02)
    (one_item_laws _ _) (one_item_laws _ _) no_item_laws bytes (one_item (str "hi") Byte.x02) (one_item_laws _ _)
    (fun _ => true)) as (_ & H & _).
  destruct (H 1%Z 7%Z (str "hi") _ eq_refl) as [Hr _]. exact Hr.
Defined.

(** ** The cache: the most recent first, of bounded length *)

Fixpoint assoc (k : bytes) (l : list (bytes * Token)) : option Token :=
  match l with
  | [] => None
  | (k', t) :: l => if decide (k' = k) then Some t else assoc k l
  end.

Definition others (k : bytes) (l : list (bytes * Token)) : list (bytes * Token) := filter (fun x => x.1 <> k) l.

Lemma assoc_others_same k l : assoc k (others k l) = None.
Proof.
  unfold others. induction l as [|[k' t] l IH]; [done|]. rewrite filter_cons. case_decide as Hd; [|done].
  cbn in *. by rewrite decide_False.
Qed.

Lemma assoc_others k k' l : k' <> k -> assoc k' (others k l) = assoc k' l.
Proof.
  intros Hne. unfold others. induction l as [|[k2 t] l IH]; [done|]. rewrite filter_cons. cbn.
  case_decide as Hd; cbn; [by rewrite IH|]. subst k2. by rewrite decide_False.
Qed.

Lemma assoc_take n k l : assoc k (take n l) = None \/ assoc k (take n l) = assoc k l.
Proof.
  revert n. induction l as [|[k' t] l IH]; intros [|n]; cbn; auto. case_decide; [by right|apply IH].
Qed.

Definition TokenCache : Type := nat * list (bytes * Token).

#[export] Instance toy_cache : LruCache TokenCache bytes Token := {|
  lru_new n := (n, []);
  lru_put k t '(n, l) := (n, (k, t) :: take (n - 1) (others k l));
  lru_pop k '(n, l) := (assoc k l, (n, others k l))
|}.

#[export] Instance toy_cache_laws : LruLaws TokenCache bytes Token.
Proof.
  refine {| lru_contents := fun c k => assoc k c.2 |}.
  - done.
  - intros k t [n l]. cbn. rewrite decide_True by done. split; [done|]. intros k' Hne.
    rewrite decide_False by done. rewrite <-(assoc_others k k' l) by done. apply assoc_take.
  - intros k [n l]. cbn. split_and!; [done|apply assoc_others_same|]. intros k' Hne. by apply assoc_others.
Defined.

#[export] Instance toy_keys_laws : StorageKeysLaws InMemoryStorage.
Proof. split. by intros ns s r s' [= _ <-]. Qed.

(** ** The authority *)

Definition enroller : IdentityIdentifier := str "Pe".
Definition enroller_entry : AttributesEntry :=
  mkAttributesEntry (<[str "ockam-role" := str "enroller"]> (in_trust_context (str "p") ∅)) 0 None None.
Definition the_trusted : gmap IdentityIdentifier AttributesEntry := <[enroller := enroller_entry]> ∅.
Definition the_okta : OktaConfiguration :=
  mkOktaConfiguration (str "okta") (str "https://tenant") (str "certificate") [str "email"].
Definition the_configuration : Configuration :=
  mkConfiguration (str "Pa") (str "p") (str "p") None None (Fixed the_trusted) false false (Some the_okta).

(** Every request is a post, of nothing to the root and of something to the Okta
    service, with fixed bodies. *)
Definition constant {T} (x : T) : Cbor T := {| cbor_encode _ := Some []; cbor_decode b := Some (x, b) |}.
#[local] Instance toy_request : Cbor Request := {|
  cbor_encode _ := Some [];
  cbor_decode b := Some (mkRequest 1 (match b with [] => str "/" | _ => str "v0/enroll" end) (Some Post) true, b)
|}.
#[local] Instance toy_response : Cbor Response := constant (mkResponse 1 1 (Some StatusOk) false).
#[local] Instance toy_api_error : Cbor ApiError := no_item.
#[local] Instance toy_add : Cbor AddMember := constant (mkAddMember (str "Pm") ∅).
#[local] Instance toy_create : Cbor CreateToken := constant (mkCreateToken ∅ None).
#[local] Instance toy_code : Cbor OneTimeCode := constant (mkOneTimeCode (str "code")).
#[local] Instance toy_credential : Cbor Credential := no_item.
#[local] Instance toy_ids : Cbor (list IdentityIdentifier) := no_item.
#[local] Instance toy_members : Cbor (gmap IdentityIdentifier AttributesEntry) := no_item.
#[local] Instance toy_unit : Cbor unit := no_item.
#[local] Instance toy_oidc : Cbor AuthenticateOidcToken := constant (mkAuthenticateOidcToken TokenBearer (str "t")).

Definition message_from (id : IdentityIdentifier) : Routed bytes :=
  mkRouted [] (mkAddress LOCAL []) (mkAddress LOCAL []) (mkLocalMessage (mkTransportMessage Byte.x01 [] [] []) [to_local_info id]).

Definition the_start : world (S := InMemoryStorage) (L := TokenCache) :=
  mkWorld ((empty_vault, ∅), None) (lru_new 128) [] [] [] [] [].

Notation step := (sstep (@arun InMemoryStorage TokenCache toy_cache)
                    (aspawn (fun _ => []) the_configuration)).

(** A program that begins runs for as long as one likes. *)
Lemma execs_in_system (p : prog acall no_event (auresult unit)) g r g' l :
  execs (@arun InMemoryStorage TokenCache toy_cache) p g r g' -> exists q, rtc step (l ++ [p], g) (l ++ [q], g').
Proof.
  induction 1 as [p g|a g|X c k x g g1 r g2 Hc _ [q Hq]]; [by exists p|by exists (PRet a)|].
  exists q. eapply rtc_l; [|exact Hq]. by apply (sstep_call _ _ l []).
Qed.

Notation run_of := (execs (@arun InMemoryStorage TokenCache toy_cache)).
Notation relayed own incoming w m :=
  (auth_relay (cf_trusted_identities the_configuration) (fun _ => []) 100 incoming own w m).

Lemma begins g p r g' l :
  aspawn (fun _ => []) the_configuration g p g -> run_of p g r g' -> exists l', rtc step (l, g) (l', g').
Proof.
  intros Hs Hp. destruct (execs_in_system p g r g' l Hp) as [q Hq]. exists (l ++ [q]).
  eapply rtc_l; [|exact Hq]. by apply sstep_spawn.
Qed.

Definition policy_at (name : bytes) : AbacAccessControl := create_abac_policy the_configuration name EnrollerOnly.

(** The enroller is let in. *)
Lemma enroller_let_in name own w k :
  name ∈ [str "direct_authenticator"; str "enrollment_token_issuer"] ->
  auth_handle (cf_trusted_identities the_configuration) (fun _ => []) own w (message_from enroller) = k ->
  relayed own (IncomingAbac (policy_at name)) w (message_from enroller) =
  PCall (Note (policy_at name) enroller (Some enroller_entry)) (fun _ => k).
Proof.
  intros Hname <-. unfold auth_relay.
  assert (find_info (local_msg (message_from enroller)) = Ok enroller) as -> by (vm_compute; reflexivity).
  unfold abac_authorized.
  assert (Boot_get_attributes (S := InMemoryStorage) (cf_trusted_identities the_configuration) enroller = PRet (Ok (Some enroller_entry))) as ->.
  { unfold Boot_get_attributes, PreTrusted_get_attributes, the_configuration, the_trusted. cbn [cf_trusted_identities get_trusted_identities].
    cbn [ptry pbind]. by rewrite lookup_insert_eq. }
  cbn [ptry pbind].
  assert (eval 100 (abac_expression (policy_at name))
    (subject_environment (abac_environment (policy_at name)) (Some enroller_entry) enroller) = Some (Ok (EBool true))) as ->.
  { assert (name = str "direct_authenticator" \/ name = str "enrollment_token_issuer") as [->| ->] by set_solver; vm_compute; reflexivity. }
  reflexivity.
Qed.

Definition direct_service : Address * incoming_control * auth_worker :=
  (mkAddress LOCAL (str "direct_authenticator"), IncomingAbac (policy_at (str "direct_authenticator")), WDirectAuthenticator (str "p")).
Definition issuer_service : Address * incoming_control * auth_worker :=
  (mkAddress LOCAL (str "enrollment_token_issuer"), IncomingAbac (policy_at (str "enrollment_token_issuer")), WTokenIssuer (str "p")).
Definition acceptor_service : Address * incoming_control * auth_worker :=
  (mkAddress LOCAL (str "enrollment_token_acceptor"), IncomingAllowAll, WTokenAcceptor (str "p")).

Definition the_server : OktaServer := mkOktaServer (str "p") (str "https://tenant") (str "certificate") [str "email"].
Definition okta_service : Address * incoming_control * auth_worker :=
  (mkAddress LOCAL (str "okta"), IncomingAllowAll, WOkta the_server).

Definition services_started : world (S := InMemoryStorage) (L := TokenCache) :=
  mkWorld (w_identities the_start) (lru_new 128) [] [] []
    [okta_service; acceptor_service; issuer_service; direct_service] [].

Lemma services_start : exists l, rtc step ([], the_start) (l, services_started).
Proof.
  set (g1 := mkWorld (S := InMemoryStorage) (L := TokenCache) (w_identities the_start) (lru_new 128) [] [] [] [direct_service] []).
  set (g2 := mkWorld (S := InMemoryStorage) (L := TokenCache) (w_identities the_start) (lru_new 128) [] [] []
               [acceptor_service; issuer_service; direct_service] []).
  destruct (begins the_start (start_direct_authenticator (mkFlowControlId (str "fc")) the_configuration) (Some (Ok tt)) g1 []) as [l1 H1].
  { constructor. }
  { eapply (execs_call _ _ tt); [reflexivity|]. eapply (execs_call _ _ (Ok tt)); [reflexivity|]. apply execs_ret. }
  destruct (begins g1 (start_enrollment_services (mkFlowControlId (str "fc")) the_configuration) (Some (Ok tt)) g2 l1) as [l2 H2].
  { constructor. }
  { eapply (execs_call _ _ tt); [reflexivity|]. eapply (execs_call _ _ (Ok tt)); [reflexivity|].
    eapply (execs_call _ _ tt); [reflexivity|]. eapply (execs_call _ _ (Ok tt)); [reflexivity|]. apply execs_ret. }
  destruct (begins g2 (start_okta (mkFlowControlId (str "fc")) the_configuration) (Some (Ok tt)) services_started l2) as [l3 H3].
  { constructor. }
  { eapply (execs_call _ _ true); [reflexivity|]. eapply (execs_call _ _ tt); [reflexivity|].
    eapply (execs_call _ _ (Ok tt)); [reflexivity|]. apply execs_ret. }
  exists l3. etrans; [exact H1|]. by etrans.
Qed.

Lemma sender_of id : id ∈ [enroller; str "Pn"] -> find_info (local_msg (message_from id)) = Ok id.
Proof. intros Hid. assert (id = enroller \/ id = str "Pn") as [->| ->] by set_solver; vm_compute; reflexivity. Qed.

Lemma put_member id e : id ∈ [str "Pm"; str "Pn"; str "Po"] ->
  Boot_put_attributes (S := InMemoryStorage) (cf_trusted_identities the_configuration) id e = store (put_attributes id e).
Proof.
  intros Hid. unfold Boot_put_attributes, PreTrusted_get_attributes, the_configuration, the_trusted.
  cbn [cf_trusted_identities get_trusted_identities ptry pbind].
  rewrite lookup_insert_ne, lookup_empty; [done|].
  assert (id = str "Pm" \/ id = str "Pn" \/ id = str "Po") as [->|[->| ->]] by set_solver; done.
Qed.

Definition member_of (e : bytes) : AttributesEntry := mkAttributesEntry (in_trust_context (str "p") ∅) 5 None (Some e).

Lemma put_succeeds (id : IdentityIdentifier) (e : AttributesEntry) (s : InMemoryStorage) : put_attributes id e s = (Ok tt, (put_attributes id e s).2).
Proof. unfold put_attributes, sbind. cbn [storage_set in_memory_storage]. unfold InMemory_set. by destruct (s !! ATTRIBUTES_KEY). Qed.

Lemma member_added g :
  exists g', run_of (relayed (mkAddress LOCAL (str "direct_authenticator")) (IncomingAbac (policy_at (str "direct_authenticator")))
                       (WDirectAuthenticator (str "p")) (message_from enroller)) g None g' /\
    w_store g' = (put_attributes (str "Pm") (member_of enroller) (w_store g)).2 /\
    w_tokens g' = w_tokens g /\ w_issued g' = w_issued g /\ w_taken g' = w_taken g /\ w_started g' = w_started g.
Proof.
  erewrite enroller_let_in; [|set_solver|reflexivity]. eexists. split.
  - eapply (execs_call _ _ tt); [reflexivity|]. cbn [auth_handle]. unfold DirectAuthenticator_handle_message, over_secure_channel.
    rewrite sender_of by set_solver. unfold DirectAuthenticator_answer, add_member.
    cbn -[Boot_put_attributes in_trust_context]. 
    eapply (execs_call _ _ (Some 5%Z)); [reflexivity|]. cbn -[Boot_put_attributes in_trust_context].
    rewrite put_member by set_solver.
    eapply (execs_call _ _ (Ok tt)); [|apply execs_cut]. eexists. split; [apply put_succeeds|reflexivity].
  - done.
Qed.

Definition the_token : Token := mkToken ∅ enroller 7 MAX_TOKEN_DURATION.

Lemma token_issued g :
  exists g', run_of (relayed (mkAddress LOCAL (str "enrollment_token_issuer")) (IncomingAbac (policy_at (str "enrollment_token_issuer")))
                       (WTokenIssuer (str "p")) (message_from enroller)) g None g' /\
    w_store g' = w_store g /\ w_tokens g' = lru_put (str "code") the_token (w_tokens g) /\
    w_issued g' = (str "code", the_token) :: w_issued g /\ w_taken g' = w_taken g /\ w_started g' = w_started g.
Proof.
  erewrite enroller_let_in; [|set_solver|reflexivity]. eexists. split.
  - eapply (execs_call _ _ tt); [reflexivity|]. cbn [auth_handle]. unfold TokenIssuer_handle_message, over_secure_channel.
    rewrite sender_of by set_solver. unfold TokenIssuer_answer, issue_token. cbn -[lru_put].
    eapply (execs_call _ _ (str "code")); [reflexivity|]. eapply (execs_call _ _ 7%Z); [reflexivity|].
    eapply (execs_call _ _ (Some tt)); [|apply execs_cut]. right. split; reflexivity.
  - done.
Qed.

Lemma token_accepted (g : world (S := InMemoryStorage) (L := TokenCache)) :
  lru_contents (w_tokens g) (str "code") = Some the_token ->
  exists g', run_of (relayed (mkAddress LOCAL (str "enrollment_token_acceptor")) IncomingAllowAll
                       (WTokenAcceptor (str "p")) (message_from (str "Pn"))) g None g' /\
    w_store g' = (put_attributes (str "Pn") (member_of enroller) (w_store g)).2 /\
    w_issued g' = w_issued g /\ w_taken g' = (str "code", the_token) :: w_taken g /\ w_started g' = w_started g.
Proof.
  intros Hcode. cbn [auth_relay auth_handle]. unfold TokenAcceptor_handle_message, over_secure_channel.
  rewrite sender_of by set_solver. unfold TokenAcceptor_answer. eexists. split.
  - cbn -[Boot_put_attributes in_trust_context lru_pop].
    eapply (execs_call _ _ (Some (Some the_token))).
    { right. exists (Some the_token), (lru_pop (str "code") (w_tokens g)).2.
      split_and!; [|reflexivity..]. rewrite (surjective_pairing (lru_pop _ _)). f_equal. etrans; [apply (lru_pop_law (str "code") (w_tokens g))|exact Hcode]. }
    eapply (execs_call _ _ 8%Z); [reflexivity|]. cbn -[Boot_put_attributes in_trust_context lru_pop].
    eapply (execs_call _ _ (Some 5%Z)); [reflexivity|]. cbn -[Boot_put_attributes in_trust_context lru_pop].
    rewrite put_member by set_solver.
    eapply (execs_call _ _ (Ok tt)); [|apply execs_cut]. eexists. split; [apply put_succeeds|reflexivity].
  - done.
Qed.

Definition enroll_message : Routed bytes :=
  mkRouted [Byte.x00] (mkAddress LOCAL []) (mkAddress LOCAL [])
    (mkLocalMessage (mkTransportMessage Byte.x01 [] [] []) [to_local_info (str "Po")]).

Definition the_document : gmap bytes json_value := {[ str "email" := JString (str "o@x"); str "age" := JOther ]}.
Definition okta_entry : AttributesEntry :=
  mkAttributesEntry (in_trust_context (str "p") {[ str "email" := str "o@x" ]}) 6 None None.

Lemma kept_of_document : custom_attributes (os_attributes the_server) the_document = {[ str "email" := str "o@x" ]}.
Proof.
  unfold custom_attributes, the_server, the_document. cbn [foldl os_attributes]. by rewrite lookup_insert_eq.
Qed.

Lemma okta_enrolls (g : world (S := InMemoryStorage) (L := TokenCache)) :
  exists g', run_of (relayed (mkAddress LOCAL (str "okta")) IncomingAllowAll (WOkta the_server) enroll_message) g None g' /\
    w_store g' = (put_attributes (str "Po") okta_entry (w_store g)).2 /\
    w_issued g' = w_issued g /\ w_taken g' = w_taken g.
Proof.
  cbn [auth_relay auth_handle]. unfold Okta_handle_message, over_secure_channel.
  assert (find_info (local_msg enroll_message) = Ok (str "Po")) as -> by (vm_compute; reflexivity).
  unfold Okta_on_request. eexists. split.
  - cbn -[Boot_put_attributes in_trust_context decide check_token]. rewrite decide_True by reflexivity.
    cbn -[Boot_put_attributes in_trust_context custom_attributes the_server the_document].
    eapply (execs_call _ _ (UserDocument the_document)); [reflexivity|].
    cbn -[Boot_put_attributes in_trust_context custom_attributes the_server the_document].
    eapply (execs_call _ _ (Some 6%Z)); [reflexivity|]. cbn -[Boot_put_attributes in_trust_context custom_attributes the_server the_document].
    rewrite put_member by set_solver.
    rewrite kept_of_document.
    eapply (execs_call _ _ (Ok tt)); [|apply execs_cut]. eexists. split; [apply put_succeeds|reflexivity].
  - done.
Qed.

Lemma contents_put (id : IdentityIdentifier) (e : AttributesEntry) (s : InMemoryStorage) (id' : IdentityIdentifier) :
  contents (put_attributes id e s).2 ATTRIBUTES_KEY id' =
  if bool_decide (id' = id) then Some (encode_entry e) else contents s ATTRIBUTES_KEY id'.
Proof.
  pose proof (put_succeeds id e s) as Hp. unfold put_attributes, sbind in *.
  destruct (storage_set id ATTRIBUTES_KEY (encode_entry e) s) as [r s'] eqn:E.
  destruct (set_law _ _ _ _ _ _ E) as (_ & Hok & _). destruct r as [[]|er|]; [|done..]. cbn [snd].
  rewrite Hok by done. repeat case_bool_decide; naive_solver.
Qed.

Lemma message_begins g own incoming w m g' l :
  (own, incoming, w) ∈ w_started g -> run_of (relayed own incoming w m) g None g' -> exists l', rtc step (l, g) (l', g').
Proof. intros Hin. apply begins. by apply spawn_message. Qed.

Lemma sample_run :
  exists l g, rtc step ([], the_start) (l, g) /\
    contents (w_store g) ATTRIBUTES_KEY (str "Pm") = Some (encode_entry (member_of enroller)) /\
    contents (w_store g) ATTRIBUTES_KEY (str "Po") = Some (encode_entry okta_entry) /\
    w_issued g = [(str "code", the_token)] /\ w_taken g = [(str "code", the_token)].
Proof.
  destruct services_start as [l0 H0].
  destruct (member_added services_started) as (g1 & R1 & S1 & T1 & I1 & K1 & W1).
  destruct (message_begins services_started _ _ _ _ g1 l0 ltac:(right; right; right; left) R1) as [l1 H1].
  destruct (token_issued g1) as (g2 & R2 & S2 & T2 & I2 & K2 & W2).
  destruct (message_begins g1 _ _ _ _ g2 l1 ltac:(rewrite W1; right; right; left) R2) as [l2 H2].
  destruct (token_accepted g2) as (g3 & R3 & S3 & I3 & K3 & W3); [rewrite T2, T1; reflexivity|].
  destruct (message_begins g2 _ _ _ _ g3 l2 ltac:(rewrite W2, W1; right; left) R3) as [l3 H3].
  destruct (okta_enrolls g3) as (g4 & R4 & S4 & I4 & K4).
  destruct (message_begins g3 _ _ _ _ g4 l3 ltac:(rewrite W3, W2, W1; left) R4) as [l4 H4].
  exists l4, g4. split_and!.
  - etrans; [exact H0|]. etrans; [exact H1|]. etrans; [exact H2|]. by etrans.
  - by rewrite S4, contents_put, bool_decide_false, S3, contents_put, bool_decide_false, S2, S1, contents_put,
      bool_decide_true.
  - by rewrite S4, contents_put, bool_decide_true.
  - by rewrite I4, I3, I2, I1.
  - by rewrite K4, K3, K2, K1.
Qed.

Lemma sample_initial : initial the_start.
Proof. by split_and!. Qed.

Lemma members_are_vouched_for_witness :
  exists l g, rtc step ([], the_start) (l, g) /\
    contents (w_store g) ATTRIBUTES_KEY (str "Pm") = Some (encode_entry (member_of enroller)) /\
    vouched the_configuration the_trusted g enroller /\
    contents (w_store g) ATTRIBUTES_KEY (str "Po") = Some (encode_entry okta_entry) /\
    by_okta the_configuration g okta_entry.
Proof.
  destruct sample_run as (l & g & Hrun & Hm & Ho & _). exists l, g.
  destruct (members_are_vouched_for (fun _ => []) the_configuration the_trusted eq_refl eq_refl eq_refl the_start (l, g)
              sample_initial Hrun) as [H _].
  split_and!; [exact Hrun|exact Hm| |exact Ho|].
  - destruct (H _ _ Hm) as (e & He & _ & [(x & _ & _ & Hx & Hv)|[Hx _]]); rewrite decode_encode_entry in He;
      injection He as <-; [|done]. injection Hx as <-. exact Hv.
  - destruct (H _ _ Ho) as (e & He & _ & [(x & _ & _ & Hx & _)|Hx]); rewrite decode_encode_entry in He;
      injection He as <-; [done|]. exact Hx.
Defined.

Lemma tokens_are_taken_once_witness :
  exists l g, rtc step ([], the_start) (l, g) /\ uses (str "code") (w_taken g) = 1 /\
    vouched the_configuration the_trusted g (tk_generated_by the_token).
Proof.
  destruct sample_run as (l & g & Hrun & _ & _ & _ & Ht). exists l, g. split; [exact Hrun|].
  split; [rewrite Ht; vm_compute; reflexivity|].
  destruct (tokens_are_taken_once (fun _ => []) the_configuration the_trusted eq_refl eq_refl eq_refl the_start (l, g)
              sample_initial Hrun) as [_ H].
  apply (H (str "code") the_token). cbn [snd]. rewrite Ht. left.
Defined.

Lemma authority_policy_decides_witness :
  entry_allows the_configuration EnrollerOnly enroller_entry /\
  eval 100 (abac_expression (policy_at (str "x")))
    (subject_environment (abac_environment (policy_at (str "x"))) (Some enroller_entry) enroller) = Some (Ok (EBool true)).
Proof.
  assert (eval 100 (abac_expression (policy_at (str "x")))
    (subject_environment (abac_environment (policy_at (str "x"))) (Some enroller_entry) enroller) = Some (Ok (EBool true))) as He
    by (vm_compute; reflexivity).
  split; [|exact He].
  destruct (authority_policy_decides the_configuration (str "x") EnrollerOnly (Some enroller_entry) enroller eq_refl eq_refl)
    as (_ & H & _).
  destruct (proj1 (H 100 _ He) eq_refl) as (e & [= <-] & Ha). exact Ha.
Defined.
