(* ===== verification/IdentityV2.v ===== *)
(** * The second version of identities (ockam_identity/src/v2)

    An identity is a history of changes, each with a new primary key, signed by
    itself and by the key before it.  Purpose keys are attested by the primary key,
    and credentials are signed by purpose keys.  Functions whose names are those of
    the first version have the suffix [_v2].

    The encodings are instances of [Cbor]; what [now()] returns is an argument. *)

From Stdlib Require Import ZArith Lia.
From Stdlib Require Strings.Byte Strings.String.
From stdpp Require Import base gmap list numbers option countable.
From S2P Require Import Prelude RustStr Routing AccessControl KeyTracker Vault Attributes Identities Credentials Api.

(** ** Errors (error.rs) *)

Inductive IdentityErrorV2 :=
| V2InvalidKeyType
| V2EmptyIdentity
| V2IdentityVerificationFailed
| V2PurposeKeyAttestationVerificationFailed
| V2CredentialVerificationFailed
| V2UnknownTimestamp
| V2UnknownAuthority
| V2UnknownCredentialVersion
| V2UnknownIdentityVersion
(** errors of other crates *)
| V2NotFound
| V2Vault (e : VaultError)
| V2Storage (e : Error)
| V2Cbor.

Notation result2 A := (result IdentityErrorV2 A).

(** ** Models (models/) *)

Definition CHANGE_HASH_LEN : nat := 20.

(** [Identifier] and [ChangeHash]: 20 bytes *)
Notation Identifier := bytes (only parsing).
Notation ChangeHash := bytes (only parsing).

Record VersionedData := mkVersionedData { vd_version : Z; vd_data : bytes }.

(** [ChangeSignature], [PurposeKeyAttestationSignature], [CredentialSignature] *)
Inductive SignatureV2 :=
| Ed25519Signature (s : bytes)
| P256ECDSASignature (s : bytes).

(** [PrimaryPublicKey], [CredentialSigningKey] *)
Inductive SigningKeyV2 :=
| Ed25519PublicKey (k : bytes)
| P256ECDSAPublicKey (k : bytes).

Record Change := mkChange {
  ch_data : bytes;
  ch_signature : SignatureV2;
  ch_previous_signature : option SignatureV2
}.

Record ChangeData := mkChangeData {
  cg_previous_change : option ChangeHash;
  cg_primary_public_key : SigningKeyV2;
  cg_revoke_all_purpose_keys : bool;
  cg_created_at : Z;
  cg_expires_at : Z
}.

Notation ChangeHistory := (list Change).

Inductive PurposePublicKey :=
| SecureChannelStaticKey (k : bytes)
| CredentialSigningKey (k : SigningKeyV2).

Record PurposeKeyAttestation := mkAttestation { pa_data : bytes; pa_signature : SignatureV2 }.

Record PurposeKeyAttestationData := mkAttestationData {
  pd_subject : Identifier;
  pd_subject_latest_change_hash : ChangeHash;
  pd_public_key : PurposePublicKey;
  pd_created_at : Z;
  pd_expires_at : Z
}.

Record AttributesV2 := mkAttributesV2 { at_schema : Z; at_map : gmap bytes bytes }.

Record CredentialV2 := mkCredentialV2 { c2_data : bytes; c2_signature : SignatureV2 }.

Record CredentialDataV2 := mkCredentialDataV2 {
  c2_subject : option Identifier;
  c2_subject_latest_change_hash : option ChangeHash;
  c2_subject_attributes : AttributesV2;
  c2_created_at : Z;
  c2_expires_at : Z
}.

Record CredentialAndPurposeKey := mkCredentialAndPurposeKey {
  cp_credential : CredentialV2;
  cp_purpose_key_attestation : PurposeKeyAttestation
}.

Record CredentialAndPurposeKeyData := mkCredentialAndPurposeKeyData {
  cpd_credential_data : CredentialDataV2;
  cpd_purpose_key_data : PurposeKeyAttestationData
}.

Inductive Purpose := PSecureChannel | PCredentials.

#[export] Instance Purpose_eq_dec : EqDecision Purpose.
Proof. solve_decision. Defined.

(** [From<PrimaryPublicKey> for PublicKey] and [From<CredentialSigningKey>] *)
Definition signing_key (k : SigningKeyV2) : PublicKey :=
  match k with
  | Ed25519PublicKey k => mkPublicKey k TEd25519
  | P256ECDSAPublicKey k => mkPublicKey k TNistP256
  end.

(** [TryFrom<PublicKey>]: the slice panics on a key that is too short. *)
Definition signing_key_try_from (pk : PublicKey) : result2 SigningKeyV2 :=
  match stype pk with
  | TEd25519 => let? d := slice (pk_data pk) 0 32 in Ok (Ed25519PublicKey d)
  | TNistP256 => let? d := slice (pk_data pk) 0 64 in Ok (P256ECDSAPublicKey d)
  | _ => Err V2InvalidKeyType
  end.

Definition x25519_try_from (pk : PublicKey) : result2 bytes :=
  match stype pk with
  | TX25519 => slice (pk_data pk) 0 32
  | _ => Err V2InvalidKeyType
  end.

(** [try_into().unwrap()] of a slice to an array *)
Definition array_unwrap (n : nat) (s : bytes) : result2 bytes := if decide (length s = n) then Ok s else Panic.

(** [value.try_into().unwrap()] *)
Definition unwrap_ok {A} (r : result2 A) : result2 A := match r with Ok a => Ok a | _ => Panic end.

(** ** Identities (identity/) *)

Record VerifiedChange := mkVerifiedChange {
  vc_change_hash : ChangeHash;
  vc_primary_public_key : PublicKey;
  vc_revoke_all_purpose_keys : bool
}.

Record IdentityV2 := mkIdentityV2 {
  i2_identifier : Identifier;
  i2_changes : list VerifiedChange;
  i2_change_history : ChangeHistory
}.

Section V2.
Context {C : Crypto} `{Cbor VersionedData} `{Cbor ChangeData} `{Cbor ChangeHistory} `{Cbor PurposeKeyAttestationData}
  `{Cbor PurposeKeyAttestation} `{Cbor CredentialDataV2} `{Cbor AttributesEntry}.

(** [minicbor::decode] does not look at what follows the item. *)
Definition cbor_from {T} `{Cbor T} (b : bytes) : result2 T := ok_or (fst <$> cbor_decode b) V2Cbor.
Definition cbor_to {T} `{Cbor T} (x : T) : result2 bytes := ok_or (cbor_encode x) V2Cbor.

Definition latest_change_hash (self : IdentityV2) : result2 ChangeHash :=
  ok_or (vc_change_hash <$> list.last (i2_changes self)) V2EmptyIdentity.

Definition get_public_key_v2 (self : IdentityV2) : result2 PublicKey :=
  ok_or (vc_primary_public_key <$> list.last (i2_changes self)) V2EmptyIdentity.

Definition compute_change_hash_from_data (data : bytes) : ChangeHash := take CHANGE_HASH_LEN (sha256_digest data).

Record ChangeDetails := mkDetails { cdt_version : Z; cdt_hash : ChangeHash; cdt_data : ChangeData }.

Definition get_change_details (change : Change) : result2 ChangeDetails :=
  let change_hash := compute_change_hash_from_data (ch_data change) in
  let? versioned_data := cbor_from (T := VersionedData) (ch_data change) in
  if negb (vd_version versioned_data =? 1)%Z then Err V2UnknownIdentityVersion
  else
    let? change_data := cbor_from (T := ChangeData) (vd_data versioned_data) in
    Ok (mkDetails (vd_version versioned_data) change_hash change_data).

(** The link to the change before it. *)
Definition check_link (previous : option ChangeDetails) (change : ChangeDetails) : result2 unit :=
  match previous with
  | Some p =>
      if (cdt_version change <? cdt_version p)%Z then Err V2IdentityVerificationFailed
      else match cg_previous_change (cdt_data change) with
           | Some h => if negb (bool_decide (cdt_hash p = h)) then Err V2IdentityVerificationFailed else Ok tt
           | None => Ok tt
           end
  | None =>
      if bool_decide (is_Some (cg_previous_change (cdt_data change))) then Err V2IdentityVerificationFailed else Ok tt
  end.

(** The loop over the new changes. *)
Fixpoint check_changes (previous : option ChangeDetails) (changes : ChangeHistory) : result2 (list VerifiedChange) :=
  match changes with
  | [] => Ok []
  | change :: changes =>
      let? d := get_change_details change in
      let? _ := check_link previous d in
      let v := mkVerifiedChange (cdt_hash d) (signing_key (cg_primary_public_key (cdt_data d)))
                 (cg_revoke_all_purpose_keys (cdt_data d)) in
      let? vs := check_changes (Some d) changes in
      Ok (v :: vs)
  end.

Definition check_consistency_v2 (existing new_changes : ChangeHistory) : result2 (list VerifiedChange) :=
  let? previous := match list.last existing with
                   | Some c => let? d := get_change_details c in Ok (Some d)
                   | None => Ok None
                   end in
  check_changes previous new_changes.

Definition check_entire_consistency_v2 (changes : ChangeHistory) : result2 (list VerifiedChange) :=
  check_consistency_v2 [] changes.

Definition verify_change_signature (public_key : PublicKey) (hash : bytes) (signature : SignatureV2) : result2 bool :=
  let? signature := match signature with
                    | Ed25519Signature s =>
                        if negb (bool_decide (stype public_key = TEd25519)) then Err V2IdentityVerificationFailed else Ok s
                    | P256ECDSASignature s =>
                        if negb (bool_decide (stype public_key = TNistP256)) then Err V2IdentityVerificationFailed else Ok s
                    end in
  map_err V2Vault (verify public_key hash signature).

Definition verify_change_v2 (existing : list VerifiedChange) (new_change : Change) : result2 unit :=
  let hash := sha256_digest (ch_data new_change) in
  let? versioned_data := cbor_from (T := VersionedData) (ch_data new_change) in
  if negb (vd_version versioned_data =? 1)%Z then Err V2UnknownIdentityVersion
  else
    let? change_data := cbor_from (T := ChangeData) (vd_data versioned_data) in
    let? _ := match list.last existing with
              | Some l =>
                  match ch_previous_signature new_change with
                  | Some s =>
                      let? b := verify_change_signature (vc_primary_public_key l) hash s in
                      if negb b then Err V2IdentityVerificationFailed else Ok tt
                  | None => Err V2IdentityVerificationFailed
                  end
              | None => Ok tt
              end in
    let? b := verify_change_signature (signing_key (cg_primary_public_key change_data)) hash (ch_signature new_change) in
    if negb b then Err V2IdentityVerificationFailed else Ok tt.

(** The loop over the indices: [done] are the changes before. *)
Fixpoint verify_from (done todo : list VerifiedChange) (changes : ChangeHistory) : result2 unit :=
  match todo, changes with
  | v :: todo, change :: changes =>
      let? _ := verify_change_v2 done change in
      verify_from (done ++ [v]) todo changes
  | _, _ => Ok tt
  end.

Definition verify_all_existing_changes_v2 (to_be_verified : list VerifiedChange) (changes : ChangeHistory) : result2 unit :=
  if negb (length to_be_verified =? length changes)%nat then Err V2IdentityVerificationFailed
  else verify_from [] to_be_verified changes.

Definition import_from_change_history (expected : option Identifier) (h : ChangeHistory) : result2 IdentityV2 :=
  let? verified := check_entire_consistency_v2 h in
  let? _ := verify_all_existing_changes_v2 verified h in
  let? identifier := ok_or (vc_change_hash <$> head verified) V2IdentityVerificationFailed in
  let? _ := match expected with
            | Some e => if negb (bool_decide (identifier = e)) then Err V2IdentityVerificationFailed else Ok tt
            | None => Ok tt
            end in
  Ok (mkIdentityV2 identifier verified h).

Definition Identity_import_v2 (expected : option Identifier) (data : bytes) : result2 IdentityV2 :=
  let? h := cbor_from (T := ChangeHistory) data in
  import_from_change_history expected h.

Definition Identity_export_v2 (self : IdentityV2) : result2 bytes := cbor_to (i2_change_history self).

Definition add_change_v2 (self : IdentityV2) (change : Change) : result2 IdentityV2 :=
  import_from_change_history None (i2_change_history self ++ [change]).

(** The loop over the pairs. *)
Fixpoint same_hashes (a b : list VerifiedChange) : bool :=
  match a, b with
  | x :: a, y :: b => bool_decide (vc_change_hash x = vc_change_hash y) && same_hashes a b
  | _, _ => true
  end.

Definition compare_v2 (self known : IdentityV2) : IdentityHistoryComparison :=
  if negb (same_hashes (i2_changes self) (i2_changes known)) then Identities.Conflict
  else match Nat.compare (length (i2_changes self)) (length (i2_changes known)) with
       | Lt => Older
       | Eq => Equal
       | Gt => Newer
       end.

(** ** The repositories (identities/storage, purpose_keys/storage)

    The state: the vault, the storage of identities, the storage of purpose keys. *)

Context {S P : Type} `{Storage S} `{Storage P}.

Notation m2 := (stm (Vault * (S * P)) IdentityErrorV2).

Definition on_vault {A} (m : stm Vault VaultError A) : m2 A :=
  fun '(v, st) => let (r, v') := m v in (map_err V2Vault r, (v', st)).
Definition on_identities_v2 {A} (m : stm S Error A) : m2 A :=
  fun '(v, (s, p)) => let (r, s') := m s in (map_err V2Storage r, (v, (s', p))).
Definition on_purpose_keys {A} (m : stm P Error A) : m2 A :=
  fun '(v, (s, p)) => let (r, p') := m p in (map_err V2Storage r, (v, (s, p'))).

(** [Identifier]'s [Display] *)
Definition Identifier_to_string (id : Identifier) : bytes := str "I" ++ hex_encode id.

Definition update_identity_v2 (identifier : Identifier) (h : ChangeHistory) : m2 unit :=
  let! data := slift (cbor_to h) in
  on_identities_v2 (storage_set (Identifier_to_string identifier) (str "CHANGE_HISTORY") data).

Definition retrieve_identity_v2 (identifier : Identifier) : m2 (option ChangeHistory) :=
  let! o := on_identities_v2 (storage_get (Identifier_to_string identifier) (str "CHANGE_HISTORY")) in
  match o with
  | Some data => let! h := slift (cbor_from (T := ChangeHistory) data) in sret (Some h)
  | None => sret None
  end.

Definition get_identity_v2 (identifier : Identifier) : m2 ChangeHistory :=
  let! o := retrieve_identity_v2 identifier in
  match o with
  | Some h => sret h
  | None => serr V2NotFound
  end.

Definition get_attributes_v2 (now : option Z) (id : Identifier) : m2 (option AttributesEntry) :=
  let! o := on_identities_v2 (storage_get (Identifier_to_string id) (str "ATTRIBUTES")) in
  match o with
  | None => sret None
  | Some e =>
      let! entry := slift (cbor_from (T := AttributesEntry) e) in
      let! now := slift (ok_or now V2UnknownTimestamp) in
      match expires entry with
      | Some exp =>
          if (exp <=? now)%Z then
            let! _ := on_identities_v2 (storage_del (Identifier_to_string id) (str "ATTRIBUTES")) in sret None
          else sret (Some entry)
      | None => sret (Some entry)
      end
  end.

Definition put_attributes_v2 (sender : Identifier) (entry : AttributesEntry) : m2 unit :=
  let! data := slift (cbor_to entry) in
  let! _ := on_identities_v2 (storage_set (Identifier_to_string sender) (str "ATTRIBUTES") data) in
  sret tt.

Definition put_attribute_value_v2 (now now' : option Z) (subject : Identifier) (name value : bytes) : m2 unit :=
  let! o := get_attributes_v2 now subject in
  let attributes := match o with Some entry => attrs entry | None => ∅ end in
  let attributes := <[name := value]> attributes in
  let! t := slift (ok_or now' V2UnknownTimestamp) in
  put_attributes_v2 subject (mkAttributesEntry attributes t None (Some subject)).

Definition delete_v2 (identity : Identifier) : m2 unit :=
  on_identities_v2 (storage_del (Identifier_to_string identity) (str "ATTRIBUTES")).

Definition purpose_key_name (purpose : Purpose) : bytes :=
  match purpose with PSecureChannel => str "SC_PK" | PCredentials => str "C_PK" end.

Definition set_purpose_key (subject : Identifier) (purpose : Purpose) (a : PurposeKeyAttestation) : m2 unit :=
  let! data := slift (cbor_to a) in
  on_purpose_keys (storage_set (Identifier_to_string subject) (purpose_key_name purpose) data).

Definition delete_purpose_key (subject : Identifier) (purpose : Purpose) : m2 unit :=
  on_purpose_keys (storage_del (Identifier_to_string subject) (purpose_key_name purpose)).

Definition retrieve_purpose_key (identifier : Identifier) (purpose : Purpose) : m2 (option PurposeKeyAttestation) :=
  let! o := on_purpose_keys (storage_get (Identifier_to_string identifier) (purpose_key_name purpose)) in
  match o with
  | Some data => let! a := slift (cbor_from (T := PurposeKeyAttestation) data) in sret (Some a)
  | None => sret None
  end.

Definition get_purpose_key (identifier : Identifier) (purpose : Purpose) : m2 PurposeKeyAttestation :=
  let! o := retrieve_purpose_key identifier purpose in
  match o with
  | Some a => sret a
  | None => serr V2NotFound
  end.

(** ** Keys (identities/identity_keys.rs, identities_creation.rs) *)

Definition generate_key_if_needed_v2 (secret : option KeyId) : m2 KeyId :=
  match secret with
  | Some s => sret s
  | None => on_vault (create_persistent_secret Ed25519)
  end.

Definition ten_years : Z := 10 * 365 * 24 * 60 * 60.

(** [Ed25519Signature(signature.as_ref().try_into().unwrap())] of a signature by the vault *)
Definition sign_ed25519 (key : KeyId) (hash : bytes) : m2 SignatureV2 :=
  let! s := on_vault (sign key hash) in
  let! s := slift (array_unwrap 64 s) in
  sret (Ed25519Signature s).

Definition make_change (now : option Z) (secret : option KeyId) (previous : option (ChangeHash * KeyId)) : m2 Change :=
  let! secret_key := generate_key_if_needed_v2 secret in
  let! public_key := on_vault (get_public_key secret_key) in
  let! public_key := slift (array_unwrap 32 (pk_data public_key)) in
  let! created_at := slift (ok_or now V2UnknownTimestamp) in
  let expires_at := add_seconds created_at ten_years in
  let change_data := mkChangeData (fst <$> previous) (Ed25519PublicKey public_key) false created_at expires_at in
  let! change_data := slift (cbor_to change_data) in
  let! versioned_data := slift (cbor_to (mkVersionedData 1 change_data)) in
  let hash := sha256_digest versioned_data in
  let! self_signature := sign_ed25519 secret_key hash in
  let! previous_signature :=
    match snd <$> previous with
    | Some previous_key => let! s := sign_ed25519 previous_key hash in sret (Some s)
    | None => sret None
    end in
  sret (mkChange versioned_data self_signature previous_signature).

Definition create_initial_key_v2 (now : option Z) (key_id : option KeyId) : m2 IdentityV2 :=
  let! change := make_change now key_id None in
  slift (import_from_change_history None [change]).

Definition get_secret_key_v2 (identity : IdentityV2) : m2 KeyId :=
  match list.last (i2_changes identity) with
  | Some l => on_vault (get_key_id (vc_primary_public_key l))
  | None => serr V2EmptyIdentity
  end.

Definition rotate_key_v2 (now : option Z) (identity : IdentityV2) : m2 IdentityV2 :=
  match list.last (i2_changes identity) with
  | None => serr V2EmptyIdentity
  | Some last_change =>
      let! last_secret_key := get_secret_key_v2 identity in
      let! change := make_change now None (Some (vc_change_hash last_change, last_secret_key)) in
      slift (add_change_v2 identity change)
  end.

Definition make_and_persist_identity_v2 (now : option Z) (key_id : option KeyId) : m2 IdentityV2 :=
  let! identity := create_initial_key_v2 now key_id in
  let! _ := update_identity_v2 (i2_identifier identity) (i2_change_history identity) in
  sret identity.

Definition create_identity_v2 (now : option Z) : m2 IdentityV2 := make_and_persist_identity_v2 now None.

(** ** Purpose keys (purpose_keys/purpose_keys.rs, purpose_key/purpose_key.rs) *)

Record PurposeKey := mkPurposeKey {
  pk_subject : Identifier;
  pk_key_id : KeyId;
  pk_stype : SecretType;
  pk_purpose : Purpose;
  pk_attestation_data : PurposeKeyAttestationData;
  pk_attestation : PurposeKeyAttestation
}.

Definition five_years : Z := 5 * 365 * 24 * 60 * 60.

Definition create_purpose_key (now : option Z) (identifier : Identifier) (purpose : Purpose) : m2 PurposeKey :=
  let! h := get_identity_v2 identifier in
  let! identity := slift (import_from_change_history (Some identifier) h) in
  let secret_attributes := match purpose with PSecureChannel => X25519 | PCredentials => Ed25519 end in
  let! secret_key := on_vault (create_ephemeral_secret secret_attributes) in
  let! public_key := on_vault (get_public_key secret_key) in
  let! public_key :=
    match purpose with
    | PSecureChannel => let! k := slift (unwrap_ok (x25519_try_from public_key)) in sret (SecureChannelStaticKey k)
    | PCredentials => let! k := slift (unwrap_ok (signing_key_try_from public_key)) in sret (CredentialSigningKey k)
    end in
  let! created_at := slift (ok_or now V2UnknownTimestamp) in
  let expires_at := add_seconds created_at five_years in
  let! latest := slift (latest_change_hash identity) in
  let data := mkAttestationData (i2_identifier identity) latest public_key created_at expires_at in
  let! binary := slift (cbor_to data) in
  let! versioned_data := slift (cbor_to (mkVersionedData 1 binary)) in
  let hash := sha256_digest versioned_data in
  let! signing_key := get_secret_key_v2 identity in
  let! signature := sign_ed25519 signing_key hash in
  let attestation := mkAttestation versioned_data signature in
  let! _ := set_purpose_key identifier purpose attestation in
  sret (mkPurposeKey identifier secret_key TEd25519 purpose data attestation).

Definition verify_purpose_key_attestation (now : option Z) (attestation : PurposeKeyAttestation)
  : m2 PurposeKeyAttestationData :=
  let hash := sha256_digest (pa_data attestation) in
  let! versioned_data := slift (cbor_from (T := VersionedData) (pa_data attestation)) in
  if negb (vd_version versioned_data =? 1)%Z then serr V2PurposeKeyAttestationVerificationFailed
  else
    let! data := slift (cbor_from (T := PurposeKeyAttestationData) (vd_data versioned_data)) in
    let! h := get_identity_v2 (pd_subject data) in
    let! identity := slift (import_from_change_history (Some (pd_subject data)) h) in
    let! public_key := slift (get_public_key_v2 identity) in
    let! signature := match pa_signature attestation with
                      | Ed25519Signature s => sret s
                      | P256ECDSASignature _ => serr V2PurposeKeyAttestationVerificationFailed
                      end in
    let! b := slift (map_err V2Vault (verify public_key hash signature)) in
    if negb b then serr V2PurposeKeyAttestationVerificationFailed
    else
      let! now := slift (ok_or now V2UnknownTimestamp) in
      if (now <? pd_created_at data)%Z then serr V2PurposeKeyAttestationVerificationFailed
      else if (pd_expires_at data <? now)%Z then serr V2PurposeKeyAttestationVerificationFailed
      else sret data.

Definition import_purpose_key (now : option Z) (attestation : PurposeKeyAttestation) : m2 PurposeKey :=
  let! data := verify_purpose_key_attestation now attestation in
  let '(purpose, public_key) :=
    match pd_public_key data with
    | SecureChannelStaticKey k => (PSecureChannel, mkPublicKey k TX25519)
    | CredentialSigningKey k => (PCredentials, signing_key k)
    end in
  let! key_id := on_vault (get_key_id public_key) in
  sret (mkPurposeKey (pd_subject data) key_id TEd25519 purpose data attestation).

(** ** Credentials (credentials/credentials.rs) *)

(** [now1]: for the attestation, [now2]: for the credential *)
Definition verify_credential_v2 (now1 now2 : option Z) (subject : Identifier) (authorities : list Identifier)
    (cp : CredentialAndPurposeKey) : m2 CredentialAndPurposeKeyData :=
  let! purpose_key_data := verify_purpose_key_attestation now1 (cp_purpose_key_attestation cp) in
  if negb (bool_decide (pd_subject purpose_key_data ∈ authorities)) then serr V2UnknownAuthority
  else
    let! public_key := match pd_public_key purpose_key_data with
                       | SecureChannelStaticKey _ => serr V2InvalidKeyType
                       | CredentialSigningKey k => sret (signing_key k)
                       end in
    let hash := sha256_digest (c2_data (cp_credential cp)) in
    let! signature := match c2_signature (cp_credential cp) with
                      | Ed25519Signature s => sret s
                      | P256ECDSASignature _ => serr V2InvalidKeyType
                      end in
    let! b := slift (map_err V2Vault (verify public_key hash signature)) in
    if negb b then serr V2CredentialVerificationFailed
    else
      let! versioned_data := slift (cbor_from (T := VersionedData) (c2_data (cp_credential cp))) in
      if negb (vd_version versioned_data =? 1)%Z then serr V2UnknownCredentialVersion
      else
        let! data := slift (cbor_from (T := CredentialDataV2) (vd_data versioned_data)) in
        if negb (bool_decide (c2_subject data = Some subject)) then serr V2CredentialVerificationFailed
        else if (c2_created_at data <? pd_created_at purpose_key_data)%Z then serr V2CredentialVerificationFailed
        else if (pd_expires_at purpose_key_data <? c2_expires_at data)%Z then serr V2CredentialVerificationFailed
        else
          let! now := slift (ok_or now2 V2UnknownTimestamp) in
          if (now <? c2_created_at data)%Z then serr V2CredentialVerificationFailed
          else if (c2_expires_at data <? now)%Z then serr V2CredentialVerificationFailed
          else sret (mkCredentialAndPurposeKeyData data purpose_key_data).

(** [ttl] in nanoseconds *)
Definition issue_credential_v2 (now1 now2 : option Z) (issuer subject : Identifier) (attributes : AttributesV2) (ttl : Z)
  : m2 CredentialAndPurposeKey :=
  let! a := get_purpose_key issuer PCredentials in
  let! key := import_purpose_key now1 a in
  let! h := get_identity_v2 subject in
  let! subject_identity := slift (import_from_change_history (Some subject) h) in
  let! created_at := slift (ok_or now2 V2UnknownTimestamp) in
  let expires_at := add_seconds created_at (ttl / nanos) in
  let! latest := slift (latest_change_hash subject_identity) in
  let data := mkCredentialDataV2 (Some subject) (Some latest) attributes created_at expires_at in
  let! data := slift (cbor_to data) in
  let! versioned_data := slift (cbor_to (mkVersionedData 1 data)) in
  let hash := sha256_digest versioned_data in
  if negb (bool_decide (pk_purpose key = PCredentials)) then serr V2InvalidKeyType
  else if negb (bool_decide (pk_stype key = TEd25519)) then serr V2InvalidKeyType
  else
    let! signature := sign_ed25519 (pk_key_id key) hash in
    sret (mkCredentialAndPurposeKey (mkCredentialV2 versioned_data signature) (pk_attestation key)).

Definition receive_presented_credential_v2 (now1 now2 now3 : option Z) (subject : Identifier)
    (authorities : list Identifier) (cp : CredentialAndPurposeKey) : m2 unit :=
  let! d := verify_credential_v2 now1 now2 subject authorities cp in
  let! added := slift (ok_or now3 V2UnknownTimestamp) in
  let! _ := put_attributes_v2 subject
    (mkAttributesEntry (at_map (c2_subject_attributes (cpd_credential_data d))) added
       (Some (c2_expires_at (cpd_credential_data d))) (Some (pd_subject (cpd_purpose_key_data d)))) in
  sret tt.

(** ** The issuer (credentials/credentials_issuer.rs) *)

Record CredentialsIssuerV2 := mkIssuerV2 { is_issuer : Identifier; is_subject_attributes : AttributesV2 }.

Definition CredentialsIssuerV2_new (issuer : Identifier) (trust_context : bytes) : CredentialsIssuerV2 :=
  mkIssuerV2 issuer (mkAttributesV2 1 {[str "trust_context_id" := trust_context]}).

Definition CredentialsIssuerV2_issue_credential (now now1 now2 : option Z) (self : CredentialsIssuerV2)
    (subject : Identifier) : m2 (option CredentialAndPurposeKey) :=
  let! o := get_attributes_v2 now subject in
  match o with
  | None => sret None
  | Some entry =>
      let a := is_subject_attributes self in
      let a := mkAttributesV2 (at_schema a) (attrs entry ∪ at_map a) in
      let! c := issue_credential_v2 now1 now2 subject (is_issuer self) a MAX_CREDENTIAL_VALIDITY in
      sret (Some c)
  end.
End V2.
