(* ===== verification/IdentityV2Spec.v ===== *)
(** * What the second version of identities promises

    [import_v2_exact]: which histories are accepted.  [keys_v2]: identities that are
    created and whose keys are rotated are accepted by everybody.
    [purpose_keys_v2], [credentials_v2_end_to_end], [credential_v2_is_attested]: purpose
    keys and credentials.  [issuer_v2_swaps_arguments], [unlinked_change_accepted]: where
    the code departs from what it means to do. *)

From Stdlib Require Import ZArith Lia.
From Stdlib Require Strings.Byte Strings.String.
From stdpp Require Import base gmap list numbers option countable.
From S2P Require Import Prelude RustStr Routing AccessControl KeyTracker Vault Attributes Identities IdentitySpec IdentityKeys.
From S2P Require Import Credentials Api IdentityV2.

Section Histories.
Context {C : Crypto} `{Cbor VersionedData} `{Cbor ChangeData}.

Definition change_key (d : ChangeDetails) : PublicKey := signing_key (cg_primary_public_key (cdt_data d)).

Definition verified (d : ChangeDetails) : VerifiedChange :=
  mkVerifiedChange (cdt_hash d) (change_key d) (cg_revoke_all_purpose_keys (cdt_data d)).

(** The signature is one of the data of the change, by the key. *)
Definition signed_by (k : PublicKey) (c : Change) (s : SignatureV2) : Prop :=
  verify_change_signature k (sha256_digest (ch_data c)) s = Ok true.

(** A valid history with the details of its changes: the first change is signed by
    its own key, every other one by its own key and by the one before it, and names
    the hash of the change before it, or no hash. *)
Inductive valid_v2 : list Change -> list ChangeDetails -> Prop :=
| valid_first c d :
    get_change_details c = Ok d -> cg_previous_change (cdt_data d) = None ->
    signed_by (change_key d) c (ch_signature c) -> valid_v2 [c] [d]
| valid_next h ds p c d s :
    valid_v2 h (ds ++ [p]) -> get_change_details c = Ok d ->
    (cg_previous_change (cdt_data d) = None \/ cg_previous_change (cdt_data d) = Some (cdt_hash p)) ->
    signed_by (change_key d) c (ch_signature c) -> ch_previous_signature c = Some s ->
    signed_by (change_key p) c s -> valid_v2 (h ++ [c]) ((ds ++ [p]) ++ [d]).

(** ** The two passes *)

Definition details_before (previous : option ChangeDetails) (h : list Change) : option ChangeDetails :=
  match list.last h with
  | Some c => res_ok (get_change_details c)
  | None => previous
  end.

Lemma check_snoc previous h c vs :
  check_changes previous (h ++ [c]) = Ok vs <->
  exists vs0 d, check_changes previous h = Ok vs0 /\ get_change_details c = Ok d /\
    check_link (details_before previous h) d = Ok tt /\ vs = vs0 ++ [verified d].
Proof.
  revert previous vs. induction h as [|c0 h IH]; intros previous vs; cbn [app check_changes].
  - unfold details_before. cbn [list.last].
    destruct (get_change_details c) as [d|e|]; cbn [rbind]; [|split; [done|by intros (? & ? & _ & ? & _)]..].
    destruct (check_link previous d) as [[]|e|] eqn:El; cbn [rbind];
      [|split; [done|intros (? & ? & _ & [= <-] & ? & _); congruence]..].
    split; [intros [= <-]; by exists [], d|]. intros (vs0 & d' & [= <-] & [= <-] & _ & ->). done.
  - destruct (get_change_details c0) as [d0|e|] eqn:E0; cbn [rbind]; [|split; [done|by intros (? & ? & ? & _)]..].
    destruct (check_link previous d0) as [[]|e|]; cbn [rbind]; [|split; [done|by intros (? & ? & ? & _)]..].
    assert (details_before previous (c0 :: h) = details_before (Some d0) h) as ->.
    { unfold details_before. destruct h as [|c1 h]; [cbn [list.last]; by rewrite E0|].
      rewrite last_cons_cons. destruct (list.last (c1 :: h)) eqn:El; [done|by apply last_None in El]. }
    split.
    + intros Hk. destruct (check_changes (Some d0) (h ++ [c])) as [vs1|e|] eqn:E; [|done..]. cbn in Hk. injection Hk as <-.
      apply IH in E as (vs0 & d & Hv & Hd & Hl & ->). exists (verified d0 :: vs0), d. by rewrite Hv.
    + intros (vs0 & d & Hv & Hd & Hl & ->). destruct (check_changes (Some d0) h) as [vs1|e|] eqn:E; [|done..].
      cbn in Hv. injection Hv as <-.
      assert (check_changes (Some d0) (h ++ [c]) = Ok (vs1 ++ [verified d])) as ->; [|done].
      apply IH. by exists vs1, d.
Qed.

Lemma check_length previous h vs : check_changes previous h = Ok vs -> length vs = length h.
Proof.
  revert previous vs. induction h as [|c h IH]; intros previous vs; cbn; [by intros [= <-]|].
  destruct (get_change_details c) as [d|e|]; cbn; [|done..]. destruct (check_link previous d); cbn; [|done..].
  destruct (check_changes (Some d) h) as [vs1|e|] eqn:E; cbn; [|done..]. intros [= <-]. cbn. f_equal. by eapply IH.
Qed.

Lemma verify_snoc done vs v h c :
  length vs = length h ->
  verify_from done (vs ++ [v]) (h ++ [c]) = Ok tt <->
  verify_from done vs h = Ok tt /\ verify_change_v2 (done ++ vs) c = Ok tt.
Proof.
  revert done h. induction vs as [|v0 vs IH]; intros done h Hlen; destruct h as [|c0 h]; try discriminate Hlen; cbn.
  - rewrite app_nil_r. destruct (verify_change_v2 done c) as [[]|e|]; cbn; by split; [|intros [_ ?]].
  - destruct (verify_change_v2 done c0) as [[]|e|]; cbn; [|by split; [|intros [? _]]..].
    rewrite IH by (by injection Hlen). by rewrite <-app_assoc.
Qed.

Lemma details_version c d : get_change_details c = Ok d -> cdt_version d = 1%Z.
Proof.
  unfold get_change_details. destruct (cbor_from (ch_data c)) as [vd|e|]; cbn [rbind]; [|done..].
  destruct (vd_version vd =? 1)%Z eqn:E; cbn [negb]; [|done]. apply Z.eqb_eq in E.
  destruct (cbor_from (vd_data vd)) as [cd|e|]; cbn [rbind]; [|done..]. by intros [= <-].
Qed.

Lemma link_first d : check_link None d = Ok tt <-> cg_previous_change (cdt_data d) = None.
Proof.
  unfold check_link. destruct (cg_previous_change (cdt_data d)) as [x|].
  - by rewrite bool_decide_true by eauto.
  - by rewrite bool_decide_false by (by intros []).
Qed.

Lemma link_next p d :
  cdt_version p = 1%Z -> cdt_version d = 1%Z ->
  check_link (Some p) d = Ok tt <->
  cg_previous_change (cdt_data d) = None \/ cg_previous_change (cdt_data d) = Some (cdt_hash p).
Proof.
  intros Hp Hd. unfold check_link. rewrite Hp, Hd. cbn. destruct (cg_previous_change (cdt_data d)) as [x|].
  - case_bool_decide as Hx; cbn; split; [intros _; right; congruence|done|done|intros [?|[= ?]]; congruence].
  - split; [by left|done].
Qed.

Lemma verify_change_spec existing c d :
  get_change_details c = Ok d ->
  verify_change_v2 existing c = Ok tt <->
  signed_by (change_key d) c (ch_signature c) /\
  match list.last existing with
  | Some l => exists s, ch_previous_signature c = Some s /\ signed_by (vc_primary_public_key l) c s
  | None => True
  end.
Proof.
  unfold get_change_details, verify_change_v2, signed_by.
  destruct (cbor_from (ch_data c)) as [vd|e|]; cbn [rbind]; [|done..].
  destruct (negb (vd_version vd =? 1)%Z); [done|].
  destruct (cbor_from (vd_data vd)) as [cd|e|]; cbn [rbind]; [|done..]. intros [= <-]. unfold change_key. cbn [cdt_data].
  set (own := verify_change_signature (signing_key (cg_primary_public_key cd)) _ _).
  assert ((let? b := own in if negb b then Err V2IdentityVerificationFailed else Ok tt) = Ok tt <-> own = Ok true) as Hown
    by (destruct own as [[]|e|]; by split).
  destruct (list.last existing) as [l|]; cbn [rbind]; [|by rewrite Hown; split; [|intros []]].
  destruct (ch_previous_signature c) as [s|]; cbn [rbind]; [|split; [done|by intros [_ (? & ? & _)]]].
  destruct (verify_change_signature (vc_primary_public_key l) _ s) as [[]|e|] eqn:Es; cbn [rbind negb];
    [rewrite Hown; split; [by eauto|by intros []]|split; [done|intros [_ (? & [= <-] & ?)]; congruence]..].
Qed.

Lemma valid_nonempty h ds : valid_v2 h ds -> exists h' c ds' d, h = h' ++ [c] /\ ds = ds' ++ [d] /\ get_change_details c = Ok d.
Proof.
  destruct 1 as [c d Hd|h ds p c d s _ Hd]; [by exists [], c, [], d|]. by exists h, c, (ds ++ [p]), d.
Qed.

(** Both passes accept the valid histories. *)
Lemma passes_valid h vs :
  h <> [] ->
  check_changes None h = Ok vs /\ verify_from [] vs h = Ok tt <-> exists ds, valid_v2 h ds /\ vs = map verified ds.
Proof.
  revert vs. induction h as [|c h IH] using rev_ind; [done|]. intros vs _. destruct (decide (h = [])) as [->|Hne].
  - split.
    + intros [(vs0 & d & [= <-] & Hd & Hl & ->)%(check_snoc None []) Hv]. apply link_first in Hl.
      cbn [app] in *. exists [d]. split; [|done]. apply (verify_snoc [] [] _ [] c eq_refl) in Hv as [_ Hv].
      apply (verify_change_spec _ _ d Hd) in Hv as [Hs _]. by constructor.
    + intros (ds & Hval & ->). inversion Hval as [c' d Hd Hp Hs E1 E2|h ds' p c' d s Hval' _ _ _ _ _ E1 E2]; subst.
      * split; [apply (check_snoc None [])|apply (verify_snoc [] [] _ [] c eq_refl)].
        { exists [], d. split_and!; [done..| |done]. by apply link_first. }
        split; [done|]. by apply (verify_change_spec _ _ d Hd).
      * destruct h; [by apply valid_nonempty in Hval' as ([] & ? & ? & ? & ? & _)|].
        by destruct h.
  - split.
    + intros [(vs0 & d & Hc & Hd & Hl & ->)%check_snoc Hv].
      apply verify_snoc in Hv as [Hv Hvc]; [|by eapply check_length]. cbn [app] in Hvc.
      destruct (proj1 (IH vs0 Hne) (conj Hc Hv)) as (ds & Hval & ->).
      destruct (valid_nonempty _ _ Hval) as (h' & c' & ds' & p & -> & -> & Hp).
      unfold details_before in Hl. rewrite last_snoc, Hp in Hl. cbn [res_ok] in Hl.
      apply link_next in Hl; [|by eapply details_version..].
      apply (verify_change_spec _ _ d Hd) in Hvc as [Hown Hprev]. rewrite map_app in Hprev. cbn [map] in Hprev. rewrite last_snoc in Hprev.
      destruct Hprev as (s & Hs & Hsig). exists ((ds' ++ [p]) ++ [d]). rewrite !map_app. split; [|done].
      by eapply valid_next.
    + intros (ds & Hval & ->). inversion Hval as [c' d Hd Hp Hs E1 E2|h0 ds' p c' d s Hval' Hd Hl Hown Hps Hsig E1 E2]; subst.
      { by destruct h as [|? []]. }
      apply app_inj_tail in E1 as [-> ->]. rewrite (map_app verified _ [d]).
      destruct (proj2 (IH (map verified (ds' ++ [p])) Hne)) as [Hc Hv]; [by eauto|].
      destruct (valid_nonempty _ _ Hval') as (h' & c' & ds2 & p2 & -> & [-> ->]%app_inj_tail & Hp).
      split.
      * apply check_snoc. exists (map verified (ds2 ++ [p2])), d. split_and!; [done..| |done].
        unfold details_before. rewrite last_snoc, Hp. cbn [res_ok]. apply link_next; [by eapply details_version..|done].
      * apply verify_snoc; [by eapply check_length|]. split; [done|]. cbn [app].
        apply (verify_change_spec _ _ d Hd). split; [done|]. rewrite map_app. cbn [map]. rewrite last_snoc. by exists s.
Qed.

Lemma import_v2_shape expected h i :
  import_from_change_history expected h = Ok i <->
  exists d ds, valid_v2 h (d :: ds) /\ (expected = None \/ expected = Some (cdt_hash d)) /\
    i = mkIdentityV2 (cdt_hash d) (map verified (d :: ds)) h.
Proof.
  unfold import_from_change_history, check_entire_consistency_v2, check_consistency_v2, verify_all_existing_changes_v2.
  cbn [list.last rbind]. split.
  - destruct (check_changes None h) as [vs|e|] eqn:Ec; cbn [rbind]; [|done..]. pose proof (check_length _ _ _ Ec) as Hlen.
    rewrite (proj2 (Nat.eqb_eq _ _) Hlen). cbn [negb].
    destruct (verify_from [] vs h) as [[]|e|] eqn:Ev; cbn [rbind]; [|done..].
    destruct (decide (h = [])) as [->|Hne]; [by injection Ec as <-|].
    destruct (proj1 (passes_valid h vs Hne) (conj Ec Ev)) as (ds & Hval & ->). destruct ds as [|d ds]; [by apply valid_nonempty in Hval as (? & ? & [] & ? & _ & ? & _)|].
    cbn [head map fmap option_fmap option_map ok_or rbind vc_change_hash verified]. intros Hi. exists d, ds. split; [done|].
    destruct expected as [e|]; [|by injection Hi as <-; split; [left|]].
    case_bool_decide as He; cbn in Hi; [|done]. injection Hi as <-. split; [right; by f_equal|done].
  - intros (d & ds & Hval & He & ->).
    assert (h <> []) as Hne by (intros ->; by apply valid_nonempty in Hval as ([] & ? & ? & ? & ? & _)).
    destruct (proj2 (passes_valid h (map verified (d :: ds)) Hne)) as [Hc Hv]; [by eauto|].
    rewrite Hc. cbn [rbind]. rewrite (proj2 (Nat.eqb_eq _ _) (check_length _ _ _ Hc)). cbn [negb]. rewrite Hv. cbn.
    destruct He as [-> | ->]; [done|]. by rewrite bool_decide_true.
Qed.
(** C15: which histories the second version accepts.  A history is imported exactly if
    it is not empty and each change, in version 1, names the change before it by its
    hash or names none, is signed by its own key and by the key before it, the first
    one naming no change; its identifier, the hash of the first change, is the
    expected one; and the identity lists the keys in order. *)
Theorem import_v2_exact expected h i :
  import_from_change_history expected h = Ok i <->
  exists d ds, valid_v2 h (d :: ds) /\ (expected = None \/ expected = Some (cdt_hash d)) /\
    i = mkIdentityV2 (cdt_hash d) (map verified (d :: ds)) h.
Proof. apply import_v2_shape. Qed.
End Histories.

(** ** Encodings

    The data that Rust can represent: integers of their width, arrays of their length. *)

Definition u64 (z : Z) : Prop := (0 <= z < 2 ^ 64)%Z.

Class Ranged (T : Type) := in_range : T -> Prop.

Definition key_in_range (k : SigningKeyV2) : Prop :=
  match k with Ed25519PublicKey k => length k = 32 | P256ECDSAPublicKey k => length k = 64 end.

#[export] Instance ranged_versioned : Ranged VersionedData := fun x => (0 <= vd_version x < 256)%Z.
#[export] Instance ranged_change : Ranged ChangeData := fun x =>
  (forall h, cg_previous_change x = Some h -> length h = CHANGE_HASH_LEN) /\ key_in_range (cg_primary_public_key x) /\
  u64 (cg_created_at x) /\ u64 (cg_expires_at x).
#[export] Instance ranged_attestation_data : Ranged PurposeKeyAttestationData := fun x =>
  length (pd_subject x) = CHANGE_HASH_LEN /\ length (pd_subject_latest_change_hash x) = CHANGE_HASH_LEN /\
  match pd_public_key x with SecureChannelStaticKey k => length k = 32 | CredentialSigningKey k => key_in_range k end /\
  u64 (pd_created_at x) /\ u64 (pd_expires_at x).
#[export] Instance ranged_attestation : Ranged PurposeKeyAttestation := fun x =>
  match pa_signature x with Ed25519Signature s | P256ECDSASignature s => length s = 64 end.
#[export] Instance ranged_credential : Ranged CredentialDataV2 := fun x =>
  (forall i, c2_subject x = Some i -> length i = CHANGE_HASH_LEN) /\
  (forall h, c2_subject_latest_change_hash x = Some h -> length h = CHANGE_HASH_LEN) /\
  u64 (at_schema (c2_subject_attributes x)) /\ u64 (c2_created_at x) /\ u64 (c2_expires_at x).

(** Writing such data to memory does not fail. *)
Class CborTotal (T : Type) `{Cbor T} `{Ranged T} : Prop := { cbor_total (x : T) : in_range x -> is_Some (cbor_encode x) }.

Lemma add_seconds_u64 t n : u64 t -> (0 <= n)%Z -> u64 (add_seconds t n).
Proof. unfold u64, add_seconds. lia. Qed.

Section Codec.
Context {T : Type} `{Cbor T} `{!CborLaws T}.

Lemma from_encoded (x : T) b : cbor_to x = Ok b -> cbor_from b = Ok x.
Proof.
  unfold cbor_to, cbor_from. destruct (cbor_encode x) as [b'|] eqn:E; [|done]. cbn. intros [= <-].
  rewrite <-(app_nil_r b'). by rewrite (cbor_roundtrip _ _ _ E).
Qed.

Lemma to_encoded `{Ranged T} `{!CborTotal T} (x : T) : in_range x -> exists b, cbor_to x = Ok b /\ cbor_from b = Ok x.
Proof.
  intros Hx. destruct (cbor_total x Hx) as [b E]. exists b. assert (cbor_to x = Ok b) as Hb by (unfold cbor_to; by rewrite E).
  split; [done|]. by apply from_encoded.
Qed.
End Codec.

Lemma encodes {T} `{Cbor T} `{Ranged T} `{!CborTotal T} (x : T) : in_range x -> exists b, cbor_to x = Ok b.
Proof. intros Hx. destruct (cbor_total x Hx) as [b E]. exists b. unfold cbor_to. by rewrite E. Qed.

Notation key_id pk := (compute_key_id_for_public_key pk).

Section Keys.
Context {C : Crypto} {CL : CryptoLaws C} {SG : SignatureLaws C}.
Context `{Cbor VersionedData} `{Cbor ChangeData} `{Cbor (list Change)}.
Context `{!CborLaws VersionedData} `{!CborLaws ChangeData} `{!CborTotal VersionedData} `{!CborTotal ChangeData}.
Context {S P : Type} `{Storage S} `{Storage P}.

Implicit Types (v : Vault) (st : S * P).

(** The vault can sign for the latest key of an identity that everybody accepts. *)
Definition managed_v2 v (i : IdentityV2) : Prop :=
  import_from_change_history None (i2_change_history i) = Ok i /\
  exists pk, get_public_key_v2 i = Ok pk /\ owns v pk /\ stype pk = TEd25519.

Lemma signature_length pk hash s : stype pk = TEd25519 -> verify pk hash s = Ok true -> length s = 64.
Proof.
  unfold verify. intros ->. destruct (length s =? 64)%nat eqn:E; [by apply Nat.eqb_eq in E|]. by rewrite orb_true_r.
Qed.

Lemma sign_ed25519_run v st pk hash :
  owns v pk -> stype pk = TEd25519 ->
  exists s, sign_ed25519 (key_id pk) hash (v, st) = (Ok (Ed25519Signature s), (v, st)) /\ verify pk hash s = Ok true.
Proof.
  intros Ho Ht. destruct (owns_sign v pk hash Ho) as (s & Es & Hv). exists s. split; [|done].
  unfold sign_ed25519. erewrite sbind_run by (unfold on_vault; rewrite Es; reflexivity).
  erewrite sbind_run; [done|]. unfold slift, array_unwrap. rewrite decide_True; [done|].
  by eapply signature_length.
Qed.

Lemma signed_ed25519 pk c s :
  stype pk = TEd25519 -> verify pk (sha256_digest (ch_data c)) s = Ok true -> signed_by pk c (Ed25519Signature s).
Proof. intros Ht Hv. unfold signed_by, verify_change_signature. rewrite bool_decide_true by done. cbn [negb rbind]. by rewrite Hv. Qed.

Lemma hash_length c d : get_change_details c = Ok d -> length (cdt_hash d) = CHANGE_HASH_LEN.
Proof.
  unfold get_change_details. intros Hd. inv_ok Hd. destruct (negb _); [done|]. inv_ok Hd. injection Hd as <-.
  cbn [cdt_hash]. unfold compute_change_hash_from_data. rewrite length_take, sha256_length. done.
Qed.

Lemma import_lengths expected h i :
  import_from_change_history expected h = Ok i ->
  length (i2_identifier i) = CHANGE_HASH_LEN /\ forall l, latest_change_hash i = Ok l -> length l = CHANGE_HASH_LEN.
Proof.
  intros (d & ds & Hval & _ & ->)%import_v2_shape.
  assert (Forall (fun x => length (cdt_hash x) = CHANGE_HASH_LEN) (d :: ds)) as Hall.
  { remember (d :: ds) as l eqn:El. clear El. induction Hval; [repeat constructor; by eapply hash_length|].
    apply Forall_app. split; [done|]. repeat constructor. by eapply hash_length. }
  split; [by apply list.Forall_cons in Hall as [? _]|]. intros l. unfold latest_change_hash. cbn [i2_changes].
  rewrite fmap_last. destruct (list.last (d :: ds)) as [x|] eqn:Ex; [|done]. cbn. intros [= <-].
  apply last_Some_elem_of in Ex. by eapply list.Forall_forall in Hall.
Qed.

Lemma make_change_run v st t previous :
  fresh_key v -> u64 t ->
  match previous with
  | Some (h, k) => length h = CHANGE_HASH_LEN /\ exists pk, k = key_id pk /\ owns v pk /\ stype pk = TEd25519
  | None => True
  end ->
  exists c d, make_change (Some t) None previous (v, st) = (Ok c, (with_next_key v, st)) /\
    get_change_details c = Ok d /\ cg_previous_change (cdt_data d) = fst <$> previous /\ change_key d = next_key v /\
    signed_by (next_key v) c (ch_signature c) /\
    forall pk, snd <$> previous = Some (key_id pk) -> owns v pk -> stype pk = TEd25519 ->
      exists s, ch_previous_signature c = Some s /\ signed_by pk c s.
Proof.
  intros Hf Hnow Hprev. pose proof (owns_next v Hf) as Hown. unfold make_change.
  set (cd := mkChangeData (fst <$> previous) (Ed25519PublicKey (pk_data (next_key v))) false t (add_seconds t ten_years)).
  destruct (to_encoded cd) as (b1 & E1 & D1).
  { split_and!; [intros h E; destruct previous as [[]|]; [by injection E as <-; apply Hprev|done]| |done|by apply add_seconds_u64].
    apply ed25519_public_length. }
  destruct (to_encoded (mkVersionedData 1 b1)) as (b2 & E2 & D2); [by split|].
  destruct (sign_ed25519_run (with_next_key v) st (next_key v) (sha256_digest b2) Hown eq_refl) as (s1 & Es1 & Hs1).
  erewrite sbind_run by (unfold generate_key_if_needed_v2, on_vault; rewrite create_persistent_run; reflexivity).
  erewrite sbind_run.
  2:{ unfold on_vault. rewrite get_public_key_run. destruct Hown as (stored & -> & -> & _). reflexivity. }
  erewrite sbind_run.
  2:{ unfold slift, array_unwrap. rewrite decide_True by (cbn; apply ed25519_public_length). reflexivity. }
  erewrite sbind_run by reflexivity. fold cd. erewrite sbind_run by (unfold slift; rewrite E1; reflexivity).
  erewrite sbind_run by (unfold slift; rewrite E2; reflexivity). erewrite sbind_run by exact Es1.
  set (c0 := mkChange b2 (Ed25519Signature s1)).
  assert (forall ps, get_change_details (c0 ps) = Ok (mkDetails 1 (compute_change_hash_from_data b2) cd)) as Hd.
  { intros ps. unfold get_change_details, c0. cbn [ch_data]. rewrite D2. cbn [rbind vd_version vd_data].
    change (negb (1 =? 1)%Z) with false. cbv iota. by rewrite D1. }
  assert (forall ps, signed_by (next_key v) (c0 ps) (Ed25519Signature s1)) as Hself
    by (intros ps; by apply signed_ed25519).
  destruct previous as [[h k]|]; cbn [fmap option_fmap option_map snd].
  - destruct Hprev as (_ & pk & -> & Hpk & Ht).
    destruct (sign_ed25519_run (with_next_key v) st pk (sha256_digest b2) (owns_with_next _ _ Hf Hpk) Ht) as (s2 & Es2 & Hs2).
    erewrite sbind_run by (erewrite sbind_run by exact Es2; reflexivity).
    exists (c0 (Some (Ed25519Signature s2))), (mkDetails 1 (compute_change_hash_from_data b2) cd).
    split_and!; [done..|]. intros pk' [= Hk] Hpk' Ht'. exists (Ed25519Signature s2). split; [done|].
    apply signed_ed25519; [done|]. cbn [ch_data c0].
    destruct Hpk as (st1 & Hl1 & Hc1 & _). destruct Hpk' as (st2 & Hl2 & Hc2 & _). rewrite <-Hk, Hl1 in Hl2.
    injection Hl2 as <-. rewrite Hc1 in Hc2. injection Hc2 as <-. done.
  - erewrite sbind_run by reflexivity. exists (c0 None), (mkDetails 1 (compute_change_hash_from_data b2) cd).
    split_and!; [done..|]. by intros pk [=].
Qed.

Lemma import_shape expected h i :
  import_from_change_history expected h = Ok i ->
  exists d0 ds0 ds p, d0 :: ds0 = ds ++ [p] /\ valid_v2 h (ds ++ [p]) /\
    i = mkIdentityV2 (cdt_hash d0) (map verified (ds ++ [p])) h /\
    get_public_key_v2 i = Ok (change_key p) /\ latest_change_hash i = Ok (cdt_hash p).
Proof.
  intros (d & ds & Hval & _ & ->)%import_v2_shape.
  destruct (valid_nonempty _ _ Hval) as (h' & c' & ds' & p & -> & Eds & Hp). exists d, ds, ds', p. rewrite <-Eds.
  split_and!; try done; unfold get_public_key_v2, latest_change_hash; cbn [i2_changes];
    rewrite Eds, map_app; cbn [map]; by rewrite last_snoc.
Qed.

(** The identity after a change that follows it. *)
Lemma import_next h i c d p s :
  import_from_change_history None h = Ok i -> latest_change_hash i = Ok p ->
  get_change_details c = Ok d ->
  (cg_previous_change (cdt_data d) = None \/ cg_previous_change (cdt_data d) = Some p) ->
  signed_by (change_key d) c (ch_signature c) -> ch_previous_signature c = Some s ->
  (forall pk, get_public_key_v2 i = Ok pk -> signed_by pk c s) ->
  forall expected, expected = None \/ expected = Some (i2_identifier i) ->
  import_from_change_history expected (h ++ [c]) =
    Ok (mkIdentityV2 (i2_identifier i) (i2_changes i ++ [verified d]) (h ++ [c])).
Proof.
  intros (d0 & ds0 & ds & q & Eds & Hval & -> & Hk & Hl)%import_shape Hp Hd Hlink Hown Hps Hsig expected He.
  rewrite Hl in Hp. injection Hp as <-. apply import_v2_shape. exists d0, (ds0 ++ [d]). split_and!.
  - change (d0 :: ds0 ++ [d]) with ((d0 :: ds0) ++ [d]). rewrite Eds. eapply valid_next; try done. by apply Hsig.
  - done.
  - cbn [i2_identifier i2_changes]. f_equal. change (d0 :: ds0 ++ [d]) with ((d0 :: ds0) ++ [d]). by rewrite Eds, (map_app verified _ [d]).
Qed.

Lemma compare_longer i x h' : compare_v2 (mkIdentityV2 (i2_identifier i) (i2_changes i ++ [x]) h') i = Newer.
Proof.
  unfold compare_v2. cbn [i2_changes]. assert (same_hashes (i2_changes i ++ [x]) (i2_changes i) = true) as ->.
  { induction (i2_changes i) as [|y l IH]; [done|]. cbn. by rewrite bool_decide_true, IH. }
  cbn [negb]. rewrite length_app. cbn [length]. by rewrite (proj2 (Nat.compare_gt_iff _ _)) by lia.
Qed.

(** Keys of the second version.  With a working clock and a vault that generates
    new keys, an identity that is created is one that everybody accepts, under the
    identifier it has and no other; rotating its key gives a newer identity with the
    same identifier, which everybody accepts who expects that identifier, and the
    vault can sign for its latest key. *)
Theorem keys_v2 v st t :
  fresh_key v -> u64 t ->
  (exists i, create_initial_key_v2 (Some t) None (v, st) = (Ok i, (with_next_key v, st)) /\
     managed_v2 (with_next_key v) i /\ get_public_key_v2 i = Ok (next_key v) /\
     forall expected, import_from_change_history (Some expected) (i2_change_history i) = Ok i <-> expected = i2_identifier i) /\
  (forall i, managed_v2 v i ->
     exists i', rotate_key_v2 (Some t) i (v, st) = (Ok i', (with_next_key v, st)) /\
       managed_v2 (with_next_key v) i' /\ i2_identifier i' = i2_identifier i /\ compare_v2 i' i = Newer /\
       get_public_key_v2 i' = Ok (next_key v) /\
       import_from_change_history (Some (i2_identifier i)) (i2_change_history i') = Ok i').
Proof.
  intros Hf Hnow. pose proof (owns_next v Hf) as Hown. split.
  - destruct (make_change_run v st t None Hf Hnow I) as (c & d & Hm & Hd & Hprev & Hk & Hsig & _).
    assert (valid_v2 [c] [d]) as Hval by (constructor; [done..|by rewrite Hk]).
    assert (forall e, e = None \/ e = Some (cdt_hash d) ->
      import_from_change_history e [c] = Ok (mkIdentityV2 (cdt_hash d) [verified d] [c])) as Himp
      by (intros e He; apply import_v2_shape; by exists d, []).
    exists (mkIdentityV2 (cdt_hash d) [verified d] [c]). unfold create_initial_key_v2.
    erewrite sbind_run by exact Hm. unfold slift. rewrite Himp by (by left).
    assert (get_public_key_v2 (mkIdentityV2 (cdt_hash d) [verified d] [c]) = Ok (next_key v)) as Hpk
      by (unfold get_public_key_v2; cbn; by rewrite Hk).
    split_and!; [done| |done|].
    + split; [apply Himp; by left|]. by exists (next_key v).
    + intros e. cbn [i2_change_history i2_identifier]. split; [|intros ->; apply Himp; by right].
      intros (d' & ds' & _ & [[=]|[= ->]] & [= -> _])%import_v2_shape. done.
  - intros i [Hi (pk & Hpk & Hopk & Ht)]. destruct (import_shape _ _ _ Hi) as (d0 & ds0 & ds & p & _ & _ & Ei & Hk & Hl).
    rewrite Hpk in Hk. injection Hk as ->.
    assert (list.last (i2_changes i) = Some (verified p)) as Hlast
      by (rewrite Ei; cbn [i2_changes]; rewrite map_app; cbn [map]; by rewrite last_snoc).
    destruct (make_change_run v st t (Some (cdt_hash p, key_id (change_key p))) Hf Hnow) as (c & d & Hm & Hd & Hprev & Hkd & Hsig & Hps).
    { split; [|by exists (change_key p)]. by apply (import_lengths _ _ _ Hi). }
    destruct (Hps (change_key p) eq_refl Hopk Ht) as (s & Es & Hs).
    assert (forall e, e = None \/ e = Some (i2_identifier i) -> import_from_change_history e (i2_change_history i ++ [c]) =
      Ok (mkIdentityV2 (i2_identifier i) (i2_changes i ++ [verified d]) (i2_change_history i ++ [c]))) as Himp.
    { eapply import_next; [done..| |by rewrite Hkd|exact Es|].
      - right. by rewrite Hprev.
      - intros pk. rewrite Hpk. by intros [= <-]. }
    eexists. unfold rotate_key_v2. rewrite Hlast. unfold get_secret_key_v2. rewrite Hlast.
    erewrite sbind_run by reflexivity. cbn [vc_change_hash verified]. erewrite sbind_run by exact Hm.
    unfold slift, add_change_v2. rewrite Himp by (by left).
    assert (get_public_key_v2 (mkIdentityV2 (i2_identifier i) (i2_changes i ++ [verified d]) (i2_change_history i ++ [c])) = Ok (next_key v)) as Hpk'
      by (unfold get_public_key_v2; cbn [i2_changes]; rewrite last_snoc; cbn; by rewrite Hkd).
    split_and!; [done| |done|apply compare_longer|done|apply Himp; by right].
    split; [apply Himp; by left|]. by exists (next_key v).
Qed.

(** A change that names no change before it follows any.  The documentation of the
    field says that it is mandatory except in the first change, but a later change
    without it is accepted: if it was accepted after one history, it is accepted after
    every history with the same latest key, of whatever identity, and its key
    becomes the key of that identity. *)
Theorem unlinked_change_accepted i1 i2 c d pk j :
  import_from_change_history None (i2_change_history i1) = Ok i1 ->
  import_from_change_history None (i2_change_history i2) = Ok i2 ->
  get_public_key_v2 i1 = Ok pk -> get_public_key_v2 i2 = Ok pk ->
  get_change_details c = Ok d -> cg_previous_change (cdt_data d) = None ->
  add_change_v2 i1 c = Ok j ->
  exists j', add_change_v2 i2 c = Ok j' /\ i2_identifier j' = i2_identifier i2 /\ get_public_key_v2 j' = Ok (change_key d).
Proof.
  intros H1' H2' Hk1 Hk2 Hd Hnone (d0 & ds0 & Hval & _ & _)%import_v2_shape.
  destruct (import_shape _ _ _ H1') as (d1 & ds1 & dsx & p1 & _ & Hval1 & _ & Hk1' & _).
  destruct (import_shape _ _ _ H2') as (d2 & ds2 & dsy & p2 & _ & Hval2 & _ & Hk2' & Hl2).
  assert (signed_by (change_key d) c (ch_signature c) /\ exists s, ch_previous_signature c = Some s /\ signed_by pk c s)
    as (Hown & s & Hs & Hsig).
  { destruct (valid_nonempty _ _ Hval1) as (h' & c' & ds' & q & Eh & Eds & Hq). apply app_inj_tail in Eds as [-> ->].
    inversion Hval as [c0 d0' _ _ _ E|h0 ds3 p c0 d0' s Hv3 Hd3 _ Ho Hps Hsg E].
    { rewrite Eh in E. by destruct h' as [|? []]. }
    apply app_inj_tail in E as [-> ->]. rewrite Hd in Hd3. injection Hd3 as <-.
    destruct (valid_nonempty _ _ Hv3) as (h2 & c2 & ds2' & q2 & Eh2 & Eds2 & Hq2). apply app_inj_tail in Eds2 as [-> ->].
    rewrite Eh in Eh2. apply app_inj_tail in Eh2 as [-> ->]. rewrite Hq in Hq2. injection Hq2 as <-.
    rewrite Hk1 in Hk1'. injection Hk1' as ->. split; [done|]. by exists s. }
  eexists. split.
  - unfold add_change_v2. eapply import_next; [exact H2'|exact Hl2|exact Hd|by left|done|exact Hs| |by left].
    intros pk'. rewrite Hk2. by intros [= <-].
  - split; [done|]. unfold get_public_key_v2. cbn [i2_changes]. by rewrite last_snoc.
Qed.
End Keys.

(** ** Purpose keys *)

Section PurposeKeys.
Context {C : Crypto} {CL : CryptoLaws C} {SG : SignatureLaws C}.
Context `{Cbor VersionedData} `{Cbor ChangeData} `{Cbor (list Change)} `{Cbor PurposeKeyAttestationData} `{Cbor PurposeKeyAttestation}.
Context `{!CborLaws VersionedData} `{!CborLaws PurposeKeyAttestationData}.
Context `{!CborTotal VersionedData} `{!CborTotal PurposeKeyAttestationData} `{!CborTotal PurposeKeyAttestation}.
Context {S P : Type} `{Storage S} `{Storage P}.

Implicit Types (v : Vault) (st : S * P).

(** The key the vault generates next for a purpose. *)
Definition next_purpose_key (purpose : Purpose) v : PublicKey :=
  let s := rand_bytes (draws v) 32 in
  match purpose with
  | PSecureChannel => mkPublicKey (x25519_public s) TX25519
  | PCredentials => mkPublicKey (ed25519_public s) TEd25519
  end.

Definition purpose_secret (purpose : Purpose) v : StoredSecret :=
  mkStoredSecret (rand_bytes (draws v) 32) (match purpose with PSecureChannel => X25519 | PCredentials => Ed25519 end).

Definition with_purpose_key (purpose : Purpose) v : Vault :=
  mkVault (<[key_id (next_purpose_key purpose v) := purpose_secret purpose v]> (ephemeral_secrets v)) (storage v)
    (Datatypes.S (draws v)).

Definition fresh_purpose_key (purpose : Purpose) v : Prop := secret_at v (key_id (next_purpose_key purpose v)) = None.

Lemma create_ephemeral_run purpose v :
  create_ephemeral_secret (match purpose with PSecureChannel => X25519 | PCredentials => Ed25519 end) v =
  (Ok (key_id (next_purpose_key purpose v)), with_purpose_key purpose v).
Proof.
  unfold create_ephemeral_secret, import_ephemeral_secret, compute_key_id, StoredSecret_create.
  destruct purpose; cbn [secret_type create_secret_from_attributes attributes_length];
    (erewrite sbind_run by reflexivity); cbn [secret_type];
    (erewrite sbind_run by (erewrite sbind_run; [reflexivity|unfold slift; rewrite array_32_run by apply rand_length; reflexivity]));
    unfold slift; rewrite rand_length; reflexivity.
Qed.

Lemma purpose_public_key purpose v st :
  on_vault (get_public_key (key_id (next_purpose_key purpose v))) (with_purpose_key purpose v, st) =
  (Ok (next_purpose_key purpose v), (with_purpose_key purpose v, st)).
Proof.
  unfold on_vault. rewrite get_public_key_run. unfold secret_at, with_purpose_key. cbn [ephemeral_secrets].
  rewrite lookup_insert_eq. unfold compute_public_key_from_secret, purpose_secret.
  destruct purpose; cbn [attributes secret secret_type]; rewrite array_32_run by apply rand_length; reflexivity.
Qed.

Lemma owns_purpose v : owns (with_purpose_key PCredentials v) (next_purpose_key PCredentials v).
Proof.
  exists (purpose_secret PCredentials v). unfold secret_at, with_purpose_key. cbn [ephemeral_secrets].
  rewrite lookup_insert_eq. unfold compute_public_key_from_secret, sign_with_secret, purpose_secret.
  cbn [attributes secret secret_type]. rewrite array_32_run by apply rand_length. split_and!; [done..|]. intros d. eauto.
Qed.

Lemma owns_with_purpose purpose v pk : fresh_purpose_key purpose v -> owns v pk -> owns (with_purpose_key purpose v) pk.
Proof.
  intros Hf (stored & Hs & Hpk). exists stored. split; [|done]. unfold fresh_purpose_key in Hf.
  assert (key_id (next_purpose_key purpose v) <> key_id pk) as Hne by (intros E; rewrite E, Hs in Hf; done).
  unfold secret_at, with_purpose_key in *. cbn [ephemeral_secrets storage]. by rewrite lookup_insert_ne.
Qed.

Definition purpose_public (purpose : Purpose) v : PurposePublicKey :=
  match purpose with
  | PSecureChannel => SecureChannelStaticKey (pk_data (next_purpose_key purpose v))
  | PCredentials => CredentialSigningKey (Ed25519PublicKey (pk_data (next_purpose_key purpose v)))
  end.

Lemma purpose_key_converted purpose v (w : Vault * (S * P)) :
  match purpose with
  | PSecureChannel => let! k := slift (unwrap_ok (x25519_try_from (next_purpose_key purpose v))) in sret (SecureChannelStaticKey k)
  | PCredentials => let! k := slift (unwrap_ok (signing_key_try_from (next_purpose_key purpose v))) in sret (CredentialSigningKey k)
  end w = (Ok (purpose_public purpose v), w).
Proof.
  assert (forall b : bytes, length b = 32 -> slice (E := IdentityErrorV2) b 0 32 = Ok b) as Hsl.
  { intros b Hb. rewrite slice_ok by lia. rewrite drop_0, take_ge by (cbn; lia). done. }
  unfold sbind, slift, x25519_try_from, signing_key_try_from.
  destruct purpose; cbn [next_purpose_key stype pk_data];
    rewrite Hsl by (apply x25519_public_length || apply ed25519_public_length); reflexivity.
Qed.

(** Whether an attestation is accepted where the history of its subject is known. *)
Lemma attestation_verified a b d h i pk s now (w : Vault * (S * P)) :
  pa_data a = b -> pa_signature a = Ed25519Signature s -> cbor_from b = Ok (mkVersionedData 1 d) ->
  forall data, cbor_from d = Ok data ->
  get_identity_v2 (pd_subject data) w = (Ok h, w) -> import_from_change_history (Some (pd_subject data)) h = Ok i ->
  get_public_key_v2 i = Ok pk -> verify pk (sha256_digest b) s = Ok true ->
  verify_purpose_key_attestation (Some now) a w =
    (if decide (pd_created_at data <= now <= pd_expires_at data)%Z then Ok data
     else Err V2PurposeKeyAttestationVerificationFailed, w).
Proof.
  intros Ea Es Db data Dd Hget Himp Hpk Hv. unfold verify_purpose_key_attestation. rewrite Ea.
  erewrite sbind_run by (unfold slift; rewrite Db; reflexivity). cbn [vd_version vd_data].
  change (negb (1 =? 1)%Z) with false. cbv iota.
  erewrite sbind_run by (unfold slift; rewrite Dd; reflexivity). erewrite sbind_run by exact Hget.
  erewrite sbind_run by (unfold slift; rewrite Himp; reflexivity). erewrite sbind_run by (unfold slift; rewrite Hpk; reflexivity).
  rewrite Es. erewrite sbind_run by reflexivity. erewrite sbind_run by (unfold slift; rewrite Hv; reflexivity).
  cbn [negb]. erewrite sbind_run by reflexivity.
  destruct (now <? pd_created_at data)%Z eqn:E1; [apply Z.ltb_lt in E1; rewrite decide_False by lia; done|].
  destruct (pd_expires_at data <? now)%Z eqn:E2; [apply Z.ltb_lt in E2; rewrite decide_False by lia; done|].
  apply Z.ltb_ge in E1, E2. by rewrite decide_True by lia.
Qed.

(** The attestation is accepted wherever the history of its subject is known, for as
    long as it says. *)
Definition attested (id : bytes) (h : list Change) (a : PurposeKeyAttestation) (pd : PurposeKeyAttestationData) : Prop :=
  pd_subject pd = id /\
  forall (w : Vault * (S * P)) now, get_identity_v2 id w = (Ok h, w) ->
    verify_purpose_key_attestation (Some now) a w =
    (if decide (pd_created_at pd <= now <= pd_expires_at pd)%Z then Ok pd
     else Err V2PurposeKeyAttestationVerificationFailed, w).

Context `{!StorageLaws P}.

(** Purpose keys.  If the vault can sign for the latest key of a known identity,
    creating a purpose key fails only with an error of the storage; otherwise the
    key is the one the vault generated, it is stored under the identity and the
    purpose, and its attestation is accepted for five years from then on, wherever
    the identity is known with that history. *)
Theorem purpose_keys_v2 purpose v st t id h i pk r w :
  get_identity_v2 id (v, st) = (Ok h, (v, st)) -> import_from_change_history (Some id) h = Ok i ->
  get_public_key_v2 i = Ok pk -> owns v pk -> stype pk = TEd25519 -> fresh_purpose_key purpose v -> u64 t ->
  create_purpose_key (Some t) id purpose (v, st) = (r, w) ->
  w.1 = with_purpose_key purpose v /\
  ((exists e, r = Err (V2Storage e)) \/
   exists key data, r = Ok key /\ cbor_to (pk_attestation key) = Ok data /\
     contents w.2.2 (purpose_key_name purpose) (Identifier_to_string id) = Some data /\
     pk_key_id key = key_id (next_purpose_key purpose v) /\
     pd_public_key (pk_attestation_data key) = purpose_public purpose v /\
     pd_created_at (pk_attestation_data key) = t /\
     pd_expires_at (pk_attestation_data key) = add_seconds t five_years /\
     attested id h (pk_attestation key) (pk_attestation_data key)).
Proof.
  intros Hget Himp Hpk Hown Ht Hf Hnow Hcreate.
  assert (i2_identifier i = id) as Hid
    by (apply import_v2_shape in Himp as (d & ds & _ & [[=]|[= ->]] & ->); done).
  destruct (import_shape _ _ _ Himp) as (d0 & ds0 & ds & p & _ & _ & Ei & Hk & Hl). rewrite Hpk in Hk. injection Hk as Ek.
  set (pd := mkAttestationData id (cdt_hash p) (purpose_public purpose v) t (add_seconds t five_years)).
  destruct (to_encoded pd) as (b1 & E1 & D1).
  { destruct (import_lengths _ _ _ Himp) as [L1 L2]. rewrite Hid in L1.
    split_and!; [done|by apply L2| |done|by apply add_seconds_u64].
    destruct purpose; [apply x25519_public_length|apply ed25519_public_length]. }
  destruct (to_encoded (mkVersionedData 1 b1)) as (b2 & E2 & D2); [by split|].
  destruct (sign_ed25519_run (with_purpose_key purpose v) st pk (sha256_digest b2) (owns_with_purpose _ _ _ Hf Hown) Ht)
    as (s & Es & Hs).
  destruct (encodes (mkAttestation b2 (Ed25519Signature s))) as [b3 E3]; [by eapply signature_length|].
  unfold create_purpose_key in Hcreate. erewrite sbind_run in Hcreate by exact Hget.
  erewrite sbind_run in Hcreate by (unfold slift; rewrite Himp; reflexivity).
  erewrite sbind_run in Hcreate by (unfold on_vault; rewrite create_ephemeral_run; reflexivity).
  erewrite sbind_run in Hcreate by apply purpose_public_key.
  erewrite (sbind_run _ _ _ (purpose_public purpose v)) in Hcreate by (apply purpose_key_converted).
  erewrite sbind_run in Hcreate by reflexivity.
  erewrite sbind_run in Hcreate by (unfold slift; rewrite Hl; reflexivity). rewrite Hid in Hcreate. fold pd in Hcreate.
  erewrite sbind_run in Hcreate by (unfold slift; rewrite E1; reflexivity).
  erewrite sbind_run in Hcreate by (unfold slift; rewrite E2; reflexivity).
  erewrite sbind_run in Hcreate.
  2:{ unfold get_secret_key_v2. rewrite Ei. cbn [i2_changes]. rewrite map_app. cbn [map]. rewrite last_snoc. reflexivity. }
  cbn [vc_primary_public_key verified] in Hcreate. rewrite <-Ek in Hcreate.
  erewrite sbind_run in Hcreate by exact Es. unfold set_purpose_key in Hcreate.
  destruct st as [s0 p0]. destruct (storage_set (Identifier_to_string id) (purpose_key_name purpose) b3 p0) as [r0 p1] eqn:Eset.
  apply set_law in Eset as Hset. destruct Hset as (Hnp & Hok & Hno).
  unfold sbind at 1 in Hcreate. erewrite sbind_run in Hcreate by (unfold slift; rewrite E3; reflexivity).
  unfold on_purpose_keys in Hcreate. rewrite Eset in Hcreate.
  destruct r0 as [[]|e|]; cbn in Hcreate; [|injection Hcreate as <- <-; split; [done|left; by eexists]|done].
  injection Hcreate as <- <-. split; [done|]. right. eexists _, b3. split; [done|]. cbn [pk_attestation pk_attestation_data].
  split_and!; try done.
  - cbn [snd]. rewrite Hok by done. by rewrite bool_decide_true.
  - split; [done|]. intros w now Hgw. eapply (attestation_verified (mkAttestation b2 (Ed25519Signature s)) b2 b1 h i pk s now w eq_refl eq_refl D2 pd D1); done.
Qed.
End PurposeKeys.

(** ** Credentials *)

Section CredentialsOfV2.
Context {C : Crypto} {CL : CryptoLaws C} {SG : SignatureLaws C}.
Context `{Cbor VersionedData} `{Cbor ChangeData} `{Cbor (list Change)} `{Cbor PurposeKeyAttestationData}
  `{Cbor PurposeKeyAttestation} `{Cbor CredentialDataV2} `{Cbor AttributesEntry}.
Context {S P : Type} `{Storage S} `{Storage P}.

Implicit Types (st : S * P) (w : Vault * (S * P)).

(** What an accepted attestation shows. *)
Lemma attestation_inv now a w pd w' :
  verify_purpose_key_attestation now a w = (Ok pd, w') ->
  exists h i pk s t b, get_identity_v2 (pd_subject pd) w = (Ok h, w') /\
    import_from_change_history (Some (pd_subject pd)) h = Ok i /\ get_public_key_v2 i = Ok pk /\
    cbor_from (pa_data a) = Ok (mkVersionedData 1 b) /\ cbor_from b = Ok pd /\
    pa_signature a = Ed25519Signature s /\ verify pk (sha256_digest (pa_data a)) s = Ok true /\
    now = Some t /\ (pd_created_at pd <= t <= pd_expires_at pd)%Z.
Proof.
  unfold verify_purpose_key_attestation. rewrite sbind_ok. intros ([n b] & w1 & E1 & E). apply slift_inv in E1 as [E1 ->].
  cbn [vd_version vd_data] in E. destruct (n =? 1)%Z eqn:En; [apply Z.eqb_eq in En as ->|done]. cbn [negb] in E.
  apply sbind_ok in E as (d & w1 & E2 & E). apply slift_inv in E2 as [E2 ->].
  apply sbind_ok in E as (h & w1 & Hget & E).
  apply sbind_ok in E as (i & w2 & E3 & E). apply slift_inv in E3 as [E3 ->].
  apply sbind_ok in E as (pk & w2 & E4 & E). apply slift_inv in E4 as [E4 ->].
  apply sbind_ok in E as (s & w2 & Es & E). destruct (pa_signature a) as [s0|] eqn:Ea; [|done]. injection Es as -> <-.
  apply sbind_ok in E as (b0 & w2 & Ev & E). apply slift_inv in Ev as [Ev ->].
  destruct b0; [|done]. cbn [negb] in E. apply sbind_ok in E as (t & w2 & Et & E). apply slift_inv in Et as [Et ->].
  destruct (t <? pd_created_at d)%Z eqn:B1; [done|]. destruct (pd_expires_at d <? t)%Z eqn:B2; [done|].
  injection E as -> <-. apply Z.ltb_ge in B1, B2. destruct now; [injection Et as ->|done].
  destruct (verify pk _ s) eqn:Ev'; [|done..]. injection Ev as ->. exists h, i, pk, s, t, b. split_and!; done || lia.
Qed.

(** A credential [cp] for [subject] in the window of times, signed by a credential key
    that the attestation [pd] gives. *)
Record vouched (subject : bytes) (cp : CredentialAndPurposeKey) (now : Z) (pd : PurposeKeyAttestationData)
    (d : CredentialDataV2) : Prop := {
  vouched_signed : exists k s, pd_public_key pd = CredentialSigningKey k /\
    c2_signature (cp_credential cp) = Ed25519Signature s /\
    verify (signing_key k) (sha256_digest (c2_data (cp_credential cp))) s = Ok true;
  vouched_data : exists b, cbor_from (c2_data (cp_credential cp)) = Ok (mkVersionedData 1 b) /\ cbor_from b = Ok d;
  vouched_subject : c2_subject d = Some subject;
  vouched_within : (pd_created_at pd <= c2_created_at d /\ c2_expires_at d <= pd_expires_at pd)%Z;
  vouched_now : (c2_created_at d <= now <= c2_expires_at d)%Z
}.

(** Once its attestation is accepted, a credential is accepted exactly if it is
    vouched for and its authority is one of those asked for. *)
Lemma credential_accepted now1 now subject authorities cp w w1 pd :
  verify_purpose_key_attestation now1 (cp_purpose_key_attestation cp) w = (Ok pd, w1) ->
  forall d w', verify_credential_v2 now1 (Some now) subject authorities cp w = (Ok d, w') <->
    cpd_purpose_key_data d = pd /\ w' = w1 /\ pd_subject pd ∈ authorities /\
    vouched subject cp now pd (cpd_credential_data d).
Proof.
  intros Ha d w'. unfold verify_credential_v2. erewrite sbind_run by exact Ha. split.
  - case_bool_decide as Hin; [|done]. cbn [negb]. rewrite sbind_ok. intros (pk & w2 & Ek & E).
    destruct (pd_public_key pd) as [|k] eqn:Ep; [done|]. injection Ek as <- <-.
    apply sbind_ok in E as (s & w2 & Es & E). destruct (c2_signature _) as [s0|] eqn:Ec; [|done]. injection Es as -> <-.
    apply sbind_ok in E as (b & w2 & Ev & E). apply slift_inv in Ev as [Ev ->]. destruct b; [|done]. cbn [negb] in E.
    apply sbind_ok in E as ([n b] & w2 & E1 & E). apply slift_inv in E1 as [E1 ->]. cbn [vd_version vd_data] in E.
    destruct (n =? 1)%Z eqn:En; [apply Z.eqb_eq in En as ->|done]. cbn [negb] in E.
    apply sbind_ok in E as (cd & w2 & E2 & E). apply slift_inv in E2 as [E2 ->].
    case_bool_decide as Hs; [|done]. cbn [negb] in E.
    destruct (_ <? pd_created_at pd)%Z eqn:B1; [done|]. destruct (pd_expires_at pd <? _)%Z eqn:B2; [done|].
    erewrite sbind_run in E by reflexivity. destruct (now <? _)%Z eqn:B3; [done|]. destruct (_ <? now)%Z eqn:B4; [done|].
    injection E as <- <-. apply Z.ltb_ge in B1, B2, B3, B4. destruct (verify _ _ s) eqn:Ev'; [|done..]. injection Ev as ->.
    cbn [cpd_purpose_key_data cpd_credential_data]. split_and!; [done..|]. split; [by eauto|by eauto|done|lia|lia].
  - destruct d as [cd pd']. cbn [cpd_purpose_key_data cpd_credential_data].
    intros (-> & -> & Hin & [(k & s & Ek & Es & Ev) (b & E1 & E2) Hs [W1 W2] [W3 W4]]).
    rewrite bool_decide_true by done. cbn [negb]. rewrite Ek. erewrite sbind_run by reflexivity. rewrite Es.
    erewrite sbind_run by reflexivity. erewrite sbind_run by (unfold slift; rewrite Ev; reflexivity). cbn [negb].
    erewrite sbind_run by (unfold slift; rewrite E1; reflexivity). cbn [vd_version vd_data]. change (negb (1 =? 1)%Z) with false.
    cbv iota. erewrite sbind_run by (unfold slift; rewrite E2; reflexivity). rewrite (bool_decide_true _ Hs). cbn [negb].
    apply Z.ltb_ge in W1, W2, W3, W4. rewrite W1, W2. erewrite sbind_run by reflexivity. by rewrite W3, W4.
Qed.

(** *** What is kept *)

Context `{!StorageLaws S}.

(** [m] leaves the repository of identities as it is. *)
Definition reads_v2 {A} (m : stm (Vault * (S * P)) IdentityErrorV2 A) : Prop :=
  forall w r w', m w = (r, w') -> contents w'.2.1 = contents w.2.1.

Lemma reads_v2_bind {A B} (m : stm (Vault * (S * P)) IdentityErrorV2 A) (k : A -> stm (Vault * (S * P)) IdentityErrorV2 B) :
  reads_v2 m -> (forall a, reads_v2 (k a)) -> reads_v2 (sbind m k).
Proof.
  intros Hm Hk w r w' E. apply sbind_inv in E as [(a & w1 & E1 & E)|[(e & E & _)|[E _]]]; [|by eapply Hm..].
  rewrite (Hk _ _ _ _ E). by eapply Hm.
Qed.

Lemma reads_v2_lift {A} (x : result IdentityErrorV2 A) : reads_v2 (slift x).
Proof. intros w r w' E. by apply slift_inv in E as [_ ->]. Qed.

Lemma reads_v2_ret {A} (x : A) : reads_v2 (sret x).
Proof. by intros w r w' [= _ <-]. Qed.

Lemma reads_v2_err {A} (e : IdentityErrorV2) : reads_v2 (A := A) (serr e).
Proof. by intros w r w' [= _ <-]. Qed.

Lemma reads_get_identity id : reads_v2 (get_identity_v2 id).
Proof.
  unfold get_identity_v2, retrieve_identity_v2. repeat apply reads_v2_bind.
  - intros [v [s p]] r w' E. unfold on_identities_v2 in E. destruct (storage_get _ _ s) as [r0 s'] eqn:Eg.
    apply get_law in Eg as [Hc _]. by injection E as _ <-.
  - intros [d|]; [apply reads_v2_bind; [apply reads_v2_lift|intros; apply reads_v2_ret]|apply reads_v2_ret].
  - intros [h|]; [apply reads_v2_ret|apply reads_v2_err].
Qed.

Ltac reads_v2 := repeat first
  [apply reads_get_identity|apply reads_v2_lift|apply reads_v2_ret|apply reads_v2_err|apply reads_v2_bind; [|intros]|case_match].

Lemma reads_attestation now a : reads_v2 (verify_purpose_key_attestation now a).
Proof. unfold verify_purpose_key_attestation. reads_v2. Qed.

Lemma reads_credential now1 now2 subject authorities cp : reads_v2 (verify_credential_v2 now1 now2 subject authorities cp).
Proof. unfold verify_credential_v2. apply reads_v2_bind; [apply reads_attestation|intros]. reads_v2. Qed.

Lemma get_identity_known id w h w' :
  get_identity_v2 id w = (Ok h, w') ->
  exists b, contents w.2.1 (str "CHANGE_HISTORY") (Identifier_to_string id) = Some b /\ cbor_from b = Ok h.
Proof.
  unfold get_identity_v2, retrieve_identity_v2. rewrite !sbind_ok. intros (o & w1 & E & E1).
  apply sbind_ok in E as (o' & w2 & Eg & E). destruct w as [v [s p]]. unfold on_identities_v2 in Eg.
  destruct (storage_get _ _ s) as [r0 s'] eqn:Es. apply get_law in Es as (_ & _ & Hr).
  destruct r0 as [o0|e|]; [|done..]. injection Eg as -> <-. cbn [snd fst].
  rewrite <-(Hr _ eq_refl). destruct o' as [b|]; [|injection E as <- <-; done].
  apply sbind_ok in E as (h' & w3 & E & E'). apply slift_inv in E as [E ->]. injection E' as <- <-. injection E1 as -> <-. eauto.
Qed.

Lemma put_attributes_v2_run id e w r w' :
  put_attributes_v2 id e w = (r, w') ->
  (r <> Ok tt /\ contents w'.2.1 = contents w.2.1) \/
  (r = Ok tt /\ exists data, cbor_to e = Ok data /\ forall ns id', contents w'.2.1 ns id' =
     if bool_decide (ns = str "ATTRIBUTES" /\ id' = Identifier_to_string id) then Some data else contents w.2.1 ns id').
Proof.
  unfold put_attributes_v2. intros E. apply sbind_inv in E as [(data & w1 & E1 & E)|[(x & E & ->)|[E ->]]];
    [|apply slift_inv in E as [_ ->]; by left..].
  apply slift_inv in E1 as [E1 ->]. destruct w as [v [s p]].
  unfold sbind, on_identities_v2 in E. destruct (storage_set _ _ data s) as [r0 s'] eqn:Es.
  apply set_law in Es as (_ & Hok & Hno). destruct r0 as [[]|x|]; cbn in E; injection E as <- <-.
  - right. eauto 10.
  - left. split; [done|]. by apply Hno.
  - left. split; [done|]. by apply Hno.
Qed.

(** C16: presented credentials, second version.  Whatever is presented, the attributes of
    its subject are stored only if a purpose key signed them for that subject, for a
    time that has begun, has not passed and lies in that of the purpose key; that key
    was attested, with the latest key of a history that is valid and that the node knows,
    by one of the authorities asked for; and then they are stored as coming from that
    authority, until the credential expires.  Otherwise nothing is stored. *)
Theorem credential_v2_is_attested now1 now2 now3 subject authorities cp w r w' :
  receive_presented_credential_v2 (Some now1) (Some now2) now3 subject authorities cp w = (r, w') ->
  (r <> Ok tt /\ contents w'.2.1 = contents w.2.1) \/
  (r = Ok tt /\ exists d pd hb h d0 ds p s added data,
    vouched subject cp now2 pd d /\ pd_subject pd ∈ authorities /\
    contents w.2.1 (str "CHANGE_HISTORY") (Identifier_to_string (pd_subject pd)) = Some hb /\ cbor_from hb = Ok h /\
    valid_v2 h (d0 :: ds) /\ cdt_hash d0 = pd_subject pd /\ list.last (d0 :: ds) = Some p /\
    pa_signature (cp_purpose_key_attestation cp) = Ed25519Signature s /\
    verify (change_key p) (sha256_digest (pa_data (cp_purpose_key_attestation cp))) s = Ok true /\
    (exists b, cbor_from (pa_data (cp_purpose_key_attestation cp)) = Ok (mkVersionedData 1 b) /\ cbor_from b = Ok pd) /\
    (pd_created_at pd <= now1 <= pd_expires_at pd)%Z /\
    cbor_to (mkAttributesEntry (at_map (c2_subject_attributes d)) added (Some (c2_expires_at d)) (Some (pd_subject pd))) =
      Ok data /\
    forall ns id, contents w'.2.1 ns id =
      if bool_decide (ns = str "ATTRIBUTES" /\ id = Identifier_to_string subject) then Some data else contents w.2.1 ns id).
Proof.
  unfold receive_presented_credential_v2. intros E.
  apply sbind_inv in E as [(d & w1 & E1 & E)|[(x & E & ->)|[E ->]]]; [|left; by apply reads_credential in E..].
  pose proof (reads_credential _ _ _ _ _ _ _ _ E1) as Hw1.
  apply sbind_inv in E as [(added & w2 & E2 & E)|[(x & E & ->)|[E ->]]];
    [|apply slift_inv in E as [_ ->]; by left..].
  apply slift_inv in E2 as [_ ->].
  assert (exists rp, put_attributes_v2 subject (mkAttributesEntry (at_map (c2_subject_attributes (cpd_credential_data d))) added
      (Some (c2_expires_at (cpd_credential_data d))) (Some (pd_subject (cpd_purpose_key_data d)))) w1 = (rp, w') /\ r = rp) as (rp & Ep & ->).
  { apply sbind_inv in E as [([] & w2 & E2 & E)|[(x & E & ->)|[E ->]]]; [|by eauto..]. injection E as <- <-. eauto. }
  apply put_attributes_v2_run in Ep as [[Hr Hc]|(-> & data & Hd & Hc)]; rewrite Hw1 in Hc; [by left|right; split; [done|]].
  unfold verify_credential_v2 in E1. pose proof E1 as E0. apply sbind_ok in E1 as (pd & w2 & Ha & _).
  apply (credential_accepted _ _ _ _ _ _ _ _ Ha) in E0 as (Epd & -> & Hin & Hv). rewrite Epd in Hd.
  apply attestation_inv in Ha as (h & i & pk & s & t & b & Hget & Himp & Hpk & Eb & Ed & Es & Hver & [= <-] & Ht).
  apply get_identity_known in Hget as (hb & Hhb & Eh).
  apply import_v2_shape in Himp as (d0 & ds & Hval & Hid & ->).
  destruct (valid_nonempty _ _ Hval) as (h' & c & ds' & p & _ & Eds & _).
  assert (pk = change_key p) as ->.
  { unfold get_public_key_v2 in Hpk. cbn [i2_changes] in Hpk. rewrite Eds, map_app in Hpk. cbn [map] in Hpk.
    rewrite last_snoc in Hpk. by injection Hpk. }
  assert (cdt_hash d0 = pd_subject pd) as Hid' by (destruct Hid as [|[= ->]]; done).
  destruct Ht. exists (cpd_credential_data d), pd, hb, h, d0, ds, p, s, added, data. split_and!; try done.
  - by rewrite Eds, last_snoc.
  - eauto.
Qed.

(** *** Issuing *)

Context `{!CborLaws VersionedData} `{!CborLaws CredentialDataV2} `{!CborTotal VersionedData} `{!CborTotal CredentialDataV2}.

(** C17: credentials, second version, end to end.  Let an issuer have a credential key in
    its vault, attested at the time.  Then it can issue a credential for every identity
    it knows, and whoever knows the issuer with that history accepts it exactly for
    that subject, for authorities among which the issuer is, from then on and until
    it expires, if it does not outlive the attestation. *)
Theorem credentials_v2_end_to_end v st t (issuer subject : Identifier) attributes ttl a pd k h hs i :
  get_purpose_key issuer PCredentials (v, st) = (Ok a, (v, st)) -> get_identity_v2 issuer (v, st) = (Ok h, (v, st)) ->
  attested (S := S) (P := P) issuer h a pd -> (pd_created_at pd <= t <= pd_expires_at pd)%Z ->
  pd_public_key pd = CredentialSigningKey (Ed25519PublicKey k) -> owns v (mkPublicKey k TEd25519) ->
  get_identity_v2 subject (v, st) = (Ok hs, (v, st)) -> import_from_change_history (Some subject) hs = Ok i ->
  u64 t -> u64 (at_schema attributes) -> (0 <= ttl)%Z ->
  exists cp d, issue_credential_v2 (Some t) (Some t) issuer subject attributes ttl (v, st) = (Ok cp, (v, st)) /\
    c2_subject_attributes d = attributes /\ c2_created_at d = t /\ c2_expires_at d = add_seconds t (ttl / nanos) /\
    forall (w : Vault * (S * P)) now who authorities d' w', get_identity_v2 issuer w = (Ok h, w) ->
      verify_credential_v2 (Some now) (Some now) who authorities cp w = (Ok d', w') <->
      w' = w /\ d' = mkCredentialAndPurposeKeyData d pd /\ issuer ∈ authorities /\ who = subject /\
      (t <= now <= add_seconds t (ttl / nanos) /\ add_seconds t (ttl / nanos) <= pd_expires_at pd)%Z.
Proof.
  intros Hkey Hget [Hsub Hatt] Ht Hpub Hown Hgs Himp Hnow Hschema Httl.
  assert (exists l, latest_change_hash i = Ok l) as [l Hl]
    by (destruct (import_shape _ _ _ Himp) as (d0 & ds0 & ds & p & _ & _ & _ & _ & Hl); eauto).
  set (d := mkCredentialDataV2 (Some subject) (Some l) attributes t (add_seconds t (ttl / nanos))).
  destruct (to_encoded d) as (b1 & E1 & D1).
  { destruct (import_lengths _ _ _ Himp) as [L1 L2].
    assert (i2_identifier i = subject) as Hid by (apply import_v2_shape in Himp as (? & ? & _ & [[=]|[= ->]] & ->); done).
    split_and!; [intros x [= <-]; congruence|intros x [= <-]; by apply L2|done|done|apply add_seconds_u64; [done|]].
    by apply Z.div_pos. }
  destruct (to_encoded (mkVersionedData 1 b1)) as (b2 & E2 & D2); [by split|].
  destruct (sign_ed25519_run v st _ (sha256_digest b2) Hown eq_refl) as (s & Es & Hs).
  set (cp := mkCredentialAndPurposeKey (mkCredentialV2 b2 (Ed25519Signature s)) a).
  assert (import_purpose_key (Some t) a (v, st) =
    (Ok (mkPurposeKey issuer (key_id (mkPublicKey k TEd25519)) TEd25519 PCredentials pd a), (v, st))) as Hi.
  { unfold import_purpose_key. erewrite sbind_run by (rewrite (Hatt _ t Hget), decide_True by done; reflexivity).
    rewrite Hpub, <-Hsub. cbn [signing_key]. reflexivity. }
  exists cp, d. split_and!; [|done..|].
  - unfold issue_credential_v2. erewrite sbind_run by exact Hkey. erewrite sbind_run by exact Hi.
    erewrite sbind_run by exact Hgs. erewrite sbind_run by (unfold slift; rewrite Himp; reflexivity).
    erewrite sbind_run by reflexivity. erewrite sbind_run by (unfold slift; rewrite Hl; reflexivity). fold d.
    erewrite sbind_run by (unfold slift; rewrite E1; reflexivity).
    erewrite sbind_run by (unfold slift; rewrite E2; reflexivity). cbn [pk_purpose pk_stype pk_key_id pk_attestation].
    rewrite !bool_decide_true by done. cbn [negb]. by erewrite sbind_run by exact Es.
  - intros w now who authorities d' w' Hgw. pose proof (Hatt w now Hgw) as Hv. split.
    + intros Ev. pose proof Ev as Ev0. unfold verify_credential_v2 in Ev0. apply sbind_ok in Ev0 as (pd' & w1 & Ha & _).
      pose proof Ha as Ha'. cbn [cp cp_purpose_key_attestation] in Ha'. rewrite Hv in Ha'.
      destruct (decide _) as [Hn|]; [|done]. injection Ha' as <- <-.
      apply (credential_accepted _ _ _ _ _ _ _ _ Ha) in Ev as (Epd & -> & Hin & [_ (b & F1 & F2) Hw [W1 W2] [W3 W4]]).
      cbn [cp cp_credential c2_data] in F1. rewrite D2 in F1. injection F1 as <-. rewrite D1 in F2. injection F2 as F2.
      destruct d' as [cd pd']. cbn [cpd_purpose_key_data cpd_credential_data] in *. subst cd pd'. cbn in Hw, W1, W2, W3, W4.
      injection Hw as ->. rewrite Hsub in Hin. split_and!; done.
    + intros (-> & -> & Hin & -> & [W1 W2] & W3). rewrite decide_True in Hv by lia.
      apply (credential_accepted (Some now) now subject authorities cp w w pd Hv). cbn [cpd_purpose_key_data cpd_credential_data].
      rewrite Hsub. split_and!; [done..|]. split.
      * exists (Ed25519PublicKey k), s. done.
      * eauto.
      * done.
      * cbn. lia.
      * cbn. lia.
Qed.

Context `{!StorageLaws P}.

(** A credential that was issued names the subject it was issued for, and was issued
    with a credential key of the issuer. *)
Lemma issued_credential now1 now2 issuer subject attributes ttl w cp w' :
  issue_credential_v2 now1 now2 issuer subject attributes ttl w = (Ok cp, w') ->
  contents w.2.2 (purpose_key_name PCredentials) (Identifier_to_string issuer) <> None /\
  exists b d, cbor_from (c2_data (cp_credential cp)) = Ok (mkVersionedData 1 b) /\ cbor_from b = Ok d /\ c2_subject d = Some subject.
Proof.
  unfold issue_credential_v2. rewrite sbind_ok. intros (a & w1 & Ha & E). split.
  - unfold get_purpose_key, retrieve_purpose_key in Ha. apply sbind_ok in Ha as (o & w2 & Ho & Ha).
    apply sbind_ok in Ho as (o' & w3 & Hg & Ho). destruct w as [v [s p]]. unfold on_purpose_keys in Hg.
    destruct (storage_get _ _ p) as [r0 p'] eqn:Eg. apply get_law in Eg as (_ & _ & Hr). destruct r0 as [o0|e|]; [|done..].
    injection Hg as -> <-. cbn [snd]. rewrite <-(Hr _ eq_refl). destruct o'; [done|]. injection Ho as <- <-. done.
  - clear Ha. apply sbind_ok in E as (key & w2 & _ & E). apply sbind_ok in E as (h & w3 & _ & E).
    apply sbind_ok in E as (i & w4 & _ & E). apply sbind_ok in E as (t & w5 & _ & E). apply sbind_ok in E as (l & w6 & _ & E).
    apply sbind_ok in E as (b1 & w7 & E1 & E). apply sbind_ok in E as (b2 & w8 & E2 & E).
    apply slift_inv in E1 as [E1 _], E2 as [E2 _]. apply from_encoded in E1, E2.
    destruct (negb _); [done|]. destruct (negb _); [done|]. apply sbind_ok in E as (s & w9 & _ & E). injection E as <- <-.
    eexists b1, _. cbn [cp_credential c2_data]. eauto.
Qed.

Lemma on_identities_keeps {A} (m : stm S Error A) w r w' : on_identities_v2 m w = (r, w') -> w'.2.2 = w.2.2.
Proof. destruct w as [v [s p]]. unfold on_identities_v2. destruct (m s). by intros [= _ <-]. Qed.

Lemma attributes_keep_purpose_keys now id w o w' : get_attributes_v2 now id w = (Ok o, w') -> w'.2.2 = w.2.2.
Proof.
  unfold get_attributes_v2. rewrite sbind_ok. intros (o' & w2 & Hg & E). apply on_identities_keeps in Hg. rewrite <-Hg.
  destruct o' as [e|]; [|by injection E as _ <-].
  apply sbind_ok in E as (entry & w4 & E1 & E). apply slift_inv in E1 as [_ ->].
  apply sbind_ok in E as (t & w4 & E1 & E). apply slift_inv in E1 as [_ ->].
  destruct (expires entry) as [exp|]; [|by injection E as _ <-].
  destruct (exp <=? t)%Z; [|by injection E as _ <-].
  apply sbind_ok in E as (u & w4 & E1 & E). apply on_identities_keeps in E1. by injection E as _ <-.
Qed.

(** The issuer of the second version asks for credentials the wrong way round: what
    its worker issues for a member was signed with a purpose key of that member, which
    the issuer must have stored, and names the issuer as the subject.  So no one,
    whichever authorities it trusts, accepts it for the member. *)
Theorem issuer_v2_swaps_arguments now now1 now2 self (member : Identifier) w cp w' :
  CredentialsIssuerV2_issue_credential now now1 now2 self member w = (Ok (Some cp), w') ->
  contents w.2.2 (purpose_key_name PCredentials) (Identifier_to_string member) <> None /\
  forall t1 t2 who authorities (w2 : Vault * (S * P)) d w3,
    verify_credential_v2 t1 (Some t2) who authorities cp w2 = (Ok d, w3) -> who = is_issuer self.
Proof.
  unfold CredentialsIssuerV2_issue_credential. rewrite sbind_ok. intros (o & w1 & Ho & E).
  apply attributes_keep_purpose_keys in Ho as Hw1.
  destruct o as [entry|]; [|done]. apply sbind_ok in E as (c & w2 & E & E'). injection E' as -> _.
  apply issued_credential in E as [Hc (b & d & F1 & F2 & F3)]. rewrite Hw1 in Hc. split; [done|].
  intros t1 t2 who authorities x dd y Ev. pose proof Ev as Ev0. unfold verify_credential_v2 in Ev0.
  apply sbind_ok in Ev0 as (pd & w4 & Ha & _).
  apply (credential_accepted _ _ _ _ _ _ _ _ Ha) in Ev.
  destruct Ev as (_ & _ & _ & Ev). destruct Ev as [_ (b' & G1 & G2) Hs _ _].
  rewrite F1 in G1. injection G1 as <-. rewrite F2 in G2. injection G2 as G2. rewrite <-G2, F3 in Hs. by injection Hs.
Qed.
End CredentialsOfV2.
