(* ===== verification/IdentityV2Examples.v ===== *)
(** * Small nodes with identities of the second version

    [Wire]: encodings built from parts, as instances of [Cbor] with its laws.  Then an
    authority and a member in one node, where the theorems of [IdentityV2Spec] apply. *)

From Stdlib Require Import ZArith Lia.
From Stdlib Require Strings.Byte Strings.String.
From stdpp Require Import base gmap list numbers option countable.
From S2P Require Import Prelude RustStr Routing AccessControl KeyTracker Vault ToyCrypto Attributes Identities IdentityKeys.
From S2P Require Import Credentials IdentityExamples Api IdentityV2 IdentityV2Spec.

(** ** Encodings *)

Class Wire (T : Type) := {
  wire_put : T -> bytes;
  wire_get : bytes -> option (T * bytes);
  wire_get_put : forall x rest, wire_get (wire_put x ++ rest) = Some (x, rest)
}.

#[export] Instance wire_byte : Wire Byte.byte := {|
  wire_put b := [b];
  wire_get l := match l with b :: r => Some (b, r) | [] => None end;
  wire_get_put _ _ := eq_refl
|}.

#[export] Program Instance wire_prod {A B} `{Wire A} `{Wire B} : Wire (A * B) := {|
  wire_put x := wire_put x.1 ++ wire_put x.2;
  wire_get l := '(a, l) ← wire_get l; '(b, l) ← wire_get l; Some ((a, b), l)
|}.
Next Obligation. intros A B ?? [a b] rest. cbn. rewrite <-app_assoc, wire_get_put. cbn. by rewrite wire_get_put. Qed.

Definition get_sum {A B} `{Wire A} `{Wire B} (l : bytes) : option ((A + B) * bytes) :=
  match l with
  | Byte.x00 :: l => '(a, l) ← wire_get l; Some (inl a, l)
  | Byte.x01 :: l => '(b, l) ← wire_get l; Some (inr b, l)
  | _ => None
  end.

#[export] Program Instance wire_sum {A B} `{Wire A} `{Wire B} : Wire (A + B) := {|
  wire_put x := match x with inl a => Byte.x00 :: wire_put a | inr b => Byte.x01 :: wire_put b end;
  wire_get := get_sum
|}.
Next Obligation. intros A B ?? [a|b] rest; cbn; by rewrite wire_get_put. Qed.

(** A list is the number of its elements, then these. *)
Fixpoint get_count (l : bytes) : option (nat * bytes) :=
  match l with
  | Byte.x01 :: l => '(n, l) ← get_count l; Some (Datatypes.S n, l)
  | Byte.x00 :: l => Some (0, l)
  | _ => None
  end.

Fixpoint get_items {A} `{Wire A} (n : nat) (l : bytes) : option (list A * bytes) :=
  match n with
  | 0 => Some ([], l)
  | Datatypes.S n => '(a, l) ← wire_get l; '(x, l) ← get_items n l; Some (a :: x, l)
  end.

Lemma get_count_put n l : get_count (replicate n Byte.x01 ++ Byte.x00 :: l) = Some (n, l).
Proof. induction n as [|n IH]; [done|]. cbn. by rewrite IH. Qed.

Lemma get_items_put {A} `{Wire A} (x : list A) l : get_items (length x) ((x ≫= wire_put) ++ l) = Some (x, l).
Proof. revert l. induction x as [|a x IH]; intros l; [done|]. cbn. rewrite <-app_assoc, wire_get_put. cbn. by rewrite IH. Qed.

#[export] Program Instance wire_list {A} `{Wire A} : Wire (list A) := {|
  wire_put x := replicate (length x) Byte.x01 ++ Byte.x00 :: (x ≫= wire_put);
  wire_get l := '(n, l) ← get_count l; get_items n l
|}.
Next Obligation. intros A ? x rest. cbn. rewrite <-app_assoc. cbn. rewrite get_count_put. apply get_items_put. Qed.

(** An encoding through another type. *)
Program Definition wire_via {A B} `{Wire B} (f : A -> B) (g : B -> A) (Hgf : forall a, g (f a) = a) : Wire A := {|
  wire_put x := wire_put (f x);
  wire_get l := '(b, l) ← wire_get l; Some (g b, l)
|}.
Next Obligation. intros A B ? f g Hgf x rest. cbn. rewrite wire_get_put. cbn. by rewrite Hgf. Qed.

#[export] Instance wire_bool : Wire bool :=
  wire_via (fun b : bool => if b then Byte.x01 else Byte.x00) (fun b => match b with Byte.x00 => false | _ => true end)
    ltac:(by intros []).
#[export] Instance wire_option {A} `{Wire A} : Wire (option A) :=
  wire_via (fun o : option A => match o with None => inl Byte.x00 | Some a => inr a end)
    (fun x => match x with inl _ => None | inr a => Some a end) ltac:(by intros []).
#[export] Instance wire_positive : Wire positive := wire_via positive_bits bits_positive bits_positive_bits.
#[export] Instance wire_Z : Wire Z :=
  wire_via (fun z => match z with Z0 => None | Zpos p => Some (false, p) | Zneg p => Some (true, p) end)
    (fun o => match o with None => Z0 | Some (false, p) => Zpos p | Some (true, p) => Zneg p end) ltac:(by intros []).
#[export] Instance wire_map : Wire (gmap bytes bytes) :=
  wire_via (B := list (bytes * bytes)) (fun m : gmap bytes bytes => map_to_list m) (fun l => list_to_map l)
    (fun m => list_to_map_to_list m).

#[export] Instance wire_cbor {T} `{Wire T} : Cbor T := {|
  cbor_encode x := Some (wire_put x);
  cbor_decode := wire_get
|}.
#[export] Instance wire_cbor_laws {T} `{Wire T} : CborLaws T.
Proof. split. intros x b rest [= <-]. apply wire_get_put. Qed.
#[export] Instance wire_cbor_total {T} `{Wire T} `{Ranged T} : CborTotal T.
Proof. split. by eexists. Qed.

#[export] Instance wire_versioned : Wire VersionedData :=
  wire_via (fun x => (vd_version x, vd_data x)) (fun '(a, b) => mkVersionedData a b) ltac:(by intros []).
#[export] Instance wire_signature : Wire SignatureV2 :=
  wire_via (fun x => match x with Ed25519Signature s => inl s | P256ECDSASignature s => inr s end)
    (fun x => match x with inl s => Ed25519Signature s | inr s => P256ECDSASignature s end) ltac:(by intros []).
#[export] Instance wire_signing_key : Wire SigningKeyV2 :=
  wire_via (fun x => match x with Ed25519PublicKey s => inl s | P256ECDSAPublicKey s => inr s end)
    (fun x => match x with inl s => Ed25519PublicKey s | inr s => P256ECDSAPublicKey s end) ltac:(by intros []).
#[export] Instance wire_change : Wire Change :=
  wire_via (fun x => (ch_data x, ch_signature x, ch_previous_signature x)) (fun '(a, b, c) => mkChange a b c) ltac:(by intros []).
#[export] Instance wire_change_data : Wire ChangeData :=
  wire_via (fun x => (cg_previous_change x, cg_revoke_all_purpose_keys x, cg_expires_at x, cg_primary_public_key x, cg_created_at x))
    (fun '(a, b, c, d, e) => mkChangeData a d b e c) ltac:(by intros []).
#[export] Instance wire_purpose_key : Wire PurposePublicKey :=
  wire_via (fun x => match x with SecureChannelStaticKey k => inl k | CredentialSigningKey k => inr k end)
    (fun x => match x with inl k => SecureChannelStaticKey k | inr k => CredentialSigningKey k end) ltac:(by intros []).
#[export] Instance wire_attestation : Wire PurposeKeyAttestation :=
  wire_via (fun x => (pa_data x, pa_signature x)) (fun '(a, b) => mkAttestation a b) ltac:(by intros []).
#[export] Instance wire_attestation_data : Wire PurposeKeyAttestationData :=
  wire_via (fun x => (pd_subject x, pd_subject_latest_change_hash x, pd_created_at x, pd_expires_at x, pd_public_key x))
    (fun '(a, b, c, d, e) => mkAttestationData a b e c d) ltac:(by intros []).
#[export] Instance wire_credential_data : Wire CredentialDataV2 :=
  wire_via (fun x => (c2_subject x, c2_subject_latest_change_hash x, at_schema (c2_subject_attributes x),
                      at_map (c2_subject_attributes x), c2_created_at x, c2_expires_at x))
    (fun '(a, b, c, d, e, f) => mkCredentialDataV2 a b (mkAttributesV2 c d) e f) ltac:(by intros [?? [] ??]).
#[export] Instance wire_entry : Wire AttributesEntry :=
  wire_via (fun x => (attrs x, added x, expires x, attested_by x)) (fun '(a, b, c, d) => mkAttributesEntry a b c d)
    ltac:(by intros []).

(** ** A node *)

Notation node_world := (Vault * (InMemoryStorage * InMemoryStorage))%type.

Definition made {A} (d : A) (x : result IdentityErrorV2 A * node_world) : A := match x.1 with Ok a => a | _ => d end.

Definition nobody : IdentityV2 := mkIdentityV2 [] [] [].

Definition node0 : node_world := (empty_vault, (∅, ∅)).
Definition node1 : result IdentityErrorV2 IdentityV2 * node_world := create_identity_v2 (Some 1%Z) node0.
Definition node2 : result IdentityErrorV2 IdentityV2 * node_world := create_identity_v2 (Some 2%Z) node1.2.
Definition the_authority : IdentityV2 := made nobody node1.
Definition the_member : IdentityV2 := made nobody node2.

Definition no_key : PurposeKey :=
  mkPurposeKey [] [] TEd25519 PCredentials (mkAttestationData [] [] (SecureChannelStaticKey []) 0 0) (mkAttestation [] (Ed25519Signature [])).
Definition node3 : result IdentityErrorV2 PurposeKey * node_world :=
  create_purpose_key (Some 3%Z) (i2_identifier the_authority) PCredentials node2.2.
Definition the_purpose_key : PurposeKey := made no_key node3.

(** Keys of the node: those of the authority, of the member, and of credentials. *)
Ltac owned := eexists; split; [vm_compute; reflexivity|split; [vm_compute; reflexivity|intros d; eexists; reflexivity]].

(** Reading the storage of the node leaves the node as it is. *)
Lemma identity_read (id : bytes) (w : node_world) h : (get_identity_v2 id w).1 = Ok h -> get_identity_v2 id w = (Ok h, w).
Proof.
  destruct w as [v [s p]]. unfold get_identity_v2, retrieve_identity_v2, sbind, on_identities_v2, slift, serr, sret.
  cbn [storage_get in_memory_storage]. unfold InMemory_get. repeat case_match; cbn; naive_solver.
Qed.

Lemma purpose_key_read (id : bytes) (purpose : Purpose) (w : node_world) a :
  (get_purpose_key id purpose w).1 = Ok a -> get_purpose_key id purpose w = (Ok a, w).
Proof.
  destruct w as [v [s p]]. unfold get_purpose_key, retrieve_purpose_key, sbind, on_purpose_keys, slift, serr, sret.
  cbn [storage_get in_memory_storage]. unfold InMemory_get. repeat case_match; cbn; naive_solver.
Qed.

Lemma keys_v2_witness :
  exists i i' : IdentityV2, create_initial_key_v2 (Some 1%Z) None node0 = (Ok i, (with_next_key empty_vault, node0.2)) /\
    rotate_key_v2 (Some 2%Z) i (with_next_key empty_vault, node0.2) = (Ok i', (with_next_key (with_next_key empty_vault), node0.2)) /\
    compare_v2 i' i = Newer.
Proof.
  assert (fresh_key empty_vault) as F1 by (vm_compute; reflexivity).
  assert (fresh_key (with_next_key empty_vault)) as F2 by (vm_compute; reflexivity).
  destruct (proj1 (keys_v2 (C := toy_crypto) empty_vault (∅ : InMemoryStorage, ∅ : InMemoryStorage) 1 F1 ltac:(done))) as (i & Ei & Hm & _).
  destruct (proj2 (keys_v2 (C := toy_crypto) (with_next_key empty_vault) (∅ : InMemoryStorage, ∅ : InMemoryStorage) 2 F2 ltac:(done)) i Hm)
    as (i' & Ei' & _ & _ & Hc & _).
  exists i, i'. split; [exact Ei|]. split; [exact Ei'|exact Hc].
Defined.

(** Two identities with the key of the authority, created at different times, and a
    change that follows either. *)
Definition created_at_v2 (t : Z) : IdentityV2 :=
  made nobody (create_initial_key_v2 (Some t) (Some (key_id (next_key empty_vault))) node1.2).
Definition the_data : bytes := wire_put (mkVersionedData 1
  (wire_put (mkChangeData None (Ed25519PublicKey (pk_data (next_key node1.2.1))) false 7 8))).
Definition signature_of (pk : PublicKey) : SignatureV2 := Ed25519Signature (pk_data pk ++ pad 32 (sha256_digest the_data)).
Definition the_change : Change :=
  mkChange the_data (signature_of (next_key node1.2.1)) (Some (signature_of (next_key empty_vault))).

Lemma unlinked_change_accepted_witness :
  i2_identifier (created_at_v2 1) <> i2_identifier (created_at_v2 2) /\
  exists j', add_change_v2 (created_at_v2 2) the_change = Ok j' /\ i2_identifier j' = i2_identifier (created_at_v2 2) /\
    get_public_key_v2 j' = Ok (next_key node1.2.1).
Proof.
  split; [vm_compute; discriminate|].
  assert (exists d, get_change_details the_change = Ok d /\ cg_previous_change (cdt_data d) = None /\
    change_key d = next_key node1.2.1) as (d & Ed & Ep & Ek) by (eexists; split; [vm_compute; reflexivity|split; vm_compute; reflexivity]).
  assert (exists j, add_change_v2 (created_at_v2 1) the_change = Ok j) as [j Ej] by (eexists; vm_compute; reflexivity).
  rewrite <-Ek. refine (unlinked_change_accepted (created_at_v2 1) (created_at_v2 2) the_change d (next_key empty_vault) j _ _ _ _ Ed Ep Ej);
    vm_compute; reflexivity.
Defined.

Lemma purpose_keys_v2_witness :
  exists data, cbor_to (pk_attestation the_purpose_key) = Ok data /\
    contents node3.2.2.2 (purpose_key_name PCredentials) (Identifier_to_string (i2_identifier the_authority)) = Some data /\
    attested (S := InMemoryStorage) (P := InMemoryStorage) (i2_identifier the_authority) (i2_change_history the_authority)
      (pk_attestation the_purpose_key) (pk_attestation_data the_purpose_key).
Proof.
  destruct (purpose_keys_v2 (C := toy_crypto) PCredentials node2.2.1 node2.2.2 3 (i2_identifier the_authority)
    (i2_change_history the_authority) the_authority (next_key empty_vault) node3.1 node3.2) as [_ [(e & E)|(key & data & E & H)]].
  - apply identity_read. vm_compute. reflexivity.
  - vm_compute. reflexivity.
  - vm_compute. reflexivity.
  - owned.
  - reflexivity.
  - vm_compute. reflexivity.
  - done.
  - rewrite <-surjective_pairing. exact (surjective_pairing node3).
  - vm_compute in E. discriminate E.
  - assert (key = the_purpose_key) as -> by (unfold the_purpose_key, made; by rewrite E).
    destruct H as (H1 & H2 & _ & _ & _ & _ & H3).
    exists data. split; [exact H1|]. split; [exact H2|exact H3].
Defined.

Lemma authority_attested :
  attested (S := InMemoryStorage) (P := InMemoryStorage) (i2_identifier the_authority) (i2_change_history the_authority)
      (pk_attestation the_purpose_key) (pk_attestation_data the_purpose_key).
Proof.
  split; [reflexivity|]. intros w now Hw.
  destruct (pa_signature (pk_attestation the_purpose_key)) as [s|s] eqn:Es; [|by vm_compute in Es].
  assert (exists b, cbor_from (pa_data (pk_attestation the_purpose_key)) = Ok (mkVersionedData 1 b) /\
    cbor_from b = Ok (pk_attestation_data the_purpose_key)) as (b & E1 & E2) by (eexists; split; vm_compute; reflexivity).
  apply (attestation_verified _ _ b (i2_change_history the_authority) the_authority (next_key empty_vault) s now w eq_refl Es E1 _ E2 Hw).
  - vm_compute. reflexivity.
  - vm_compute. reflexivity.
  - vm_compute in Es. injection Es as <-. vm_compute. reflexivity.
Qed.

Definition the_attributes : AttributesV2 := mkAttributesV2 1 {[str "role" := str "member"]}.

(** One hour, in nanoseconds. *)
Definition an_hour : Z := 3600 * nanos.

Definition no_credential : CredentialAndPurposeKey :=
  mkCredentialAndPurposeKey (mkCredentialV2 [] (Ed25519Signature [])) (mkAttestation [] (Ed25519Signature [])).
Definition the_credential : CredentialAndPurposeKey :=
  made no_credential (issue_credential_v2 (Some 5%Z) (Some 5%Z) (i2_identifier the_authority) (i2_identifier the_member)
    the_attributes an_hour node3.2).

Lemma credentials_v2_end_to_end_witness :
  exists cp, issue_credential_v2 (Some 5%Z) (Some 5%Z) (i2_identifier the_authority) (i2_identifier the_member)
      the_attributes an_hour node3.2 = (Ok cp, node3.2) /\
    exists d, verify_credential_v2 (Some 6%Z) (Some 6%Z) (i2_identifier the_member) [i2_identifier the_authority] cp node3.2 =
      (Ok d, node3.2).
Proof.
  destruct (credentials_v2_end_to_end (C := toy_crypto) node3.2.1 node3.2.2 5 (i2_identifier the_authority) (i2_identifier the_member)
    the_attributes an_hour (pk_attestation the_purpose_key) (pk_attestation_data the_purpose_key)
    (pk_data (next_purpose_key PCredentials node2.2.1)) (i2_change_history the_authority) (i2_change_history the_member) the_member)
    as (cp & d & Ei & _ & _ & _ & Hv).
  - apply purpose_key_read. vm_compute. reflexivity.
  - apply identity_read. vm_compute. reflexivity.
  - apply authority_attested.
  - vm_compute. split; discriminate.
  - vm_compute. reflexivity.
  - owned.
  - apply identity_read. vm_compute. reflexivity.
  - vm_compute. reflexivity.
  - done.
  - done.
  - done.
  - rewrite <-surjective_pairing in Ei. exists cp. split; [exact Ei|].
    eexists. apply Hv; [apply identity_read; vm_compute; reflexivity|].
    split; [reflexivity|]. split; [reflexivity|]. split; [apply list_elem_of_here|]. split; [reflexivity|].
    split; [split|]; vm_compute; discriminate.
Defined.

(** The member presents its credential. *)
Definition presented : result IdentityErrorV2 unit * node_world :=
  receive_presented_credential_v2 (Some 6%Z) (Some 6%Z) (Some 6%Z) (i2_identifier the_member) [i2_identifier the_authority]
    the_credential node3.2.

Lemma credential_v2_is_attested_witness :
  exists pd d, vouched (i2_identifier the_member) the_credential 6 pd d /\ pd_subject pd = i2_identifier the_authority.
Proof.
  destruct (credential_v2_is_attested (C := toy_crypto) 6 6 (Some 6%Z) (i2_identifier the_member) [i2_identifier the_authority]
    the_credential node3.2 presented.1 presented.2) as [[H _]|(_ & d & pd & hb & h & d0 & ds & p & s & a & data & Hv & Hin & _)].
  - exact (surjective_pairing presented).
  - exfalso. apply H. vm_compute. reflexivity.
  - exists pd, d. split; [exact Hv|]. apply list_elem_of_singleton in Hin. exact Hin.
Defined.

(** The node also has a purpose key and attributes of the member. *)
Definition node4 : result IdentityErrorV2 PurposeKey * node_world :=
  create_purpose_key (Some 4%Z) (i2_identifier the_member) PCredentials node3.2.
Definition node5 : node_world :=
  (put_attributes_v2 (i2_identifier the_member) (mkAttributesEntry (at_map the_attributes) 4 None None) node4.2).2.
Definition the_issuer : CredentialsIssuerV2 := CredentialsIssuerV2_new (i2_identifier the_authority) (str "project").
Definition issued : result IdentityErrorV2 (option CredentialAndPurposeKey) * node_world :=
  CredentialsIssuerV2_issue_credential (Some 5%Z) (Some 5%Z) (Some 5%Z) the_issuer (i2_identifier the_member) node5.

Lemma issuer_v2_swaps_arguments_witness :
  exists cp, issued.1 = Ok (Some cp) /\
  forall t1 t2 authorities (w : node_world) d w',
    verify_credential_v2 t1 (Some t2) (i2_identifier the_member) authorities cp w <> (Ok d, w').
Proof.
  assert (exists cp, issued.1 = Ok (Some cp)) as [cp Ecp] by (eexists; vm_compute; reflexivity).
  exists cp. split; [exact Ecp|]. intros t1 t2 authorities w d w' Ev.
  assert (issued = (Ok (Some cp), issued.2)) as Ei by (rewrite <-Ecp; apply surjective_pairing).
  destruct (issuer_v2_swaps_arguments (C := toy_crypto) (Some 5%Z) (Some 5%Z) (Some 5%Z) the_issuer (i2_identifier the_member) node5 cp issued.2 Ei) as [_ Hv].
  apply Hv in Ev. vm_compute in Ev. discriminate Ev.
Defined.
