(* ===== verification/Streams.v ===== *)
(** * Streams (ockam/src/{stream, protocols/stream})

    A stream is kept by a service elsewhere.  A producer packs the messages it is
    given and pushes them; a consumer asks for the index up to which it has read,
    then pulls what follows every so often, passes it on, and saves the index.

    The encodings are a parameter ([StreamCodec]); builds have no overflow checks,
    so that counters wrap around. *)

From Stdlib Require Import ZArith Lia.
From Stdlib Require Strings.Byte Strings.String.
From stdpp Require Import base gmap list numbers option countable.
From S2P Require Import Prelude RustStr Routing AccessControl FlowControl Router Node Pipes.

(** ** protocols/stream *)

Record CreateStreamRequest := mkCreateStreamRequest { cs_stream_name : option bytes }.

Record PushRequest := mkPushRequest {
  pu_request_id : Z;
  pu_data : bytes
}.

Record PullRequest := mkPullRequest {
  pl_request_id : Z;
  pl_index : Z;
  pl_limit : Z
}.

Inductive IndexRequest :=
| IndexGet (client_id stream_name : bytes)
| IndexSave (client_id stream_name : bytes) (index : Z).

Record InitResponse := mkInitResponse { ir_stream_name : bytes }.

Inductive StreamStatus := StreamOk | StreamError.

Record PushConfirm := mkPushConfirm {
  pc_request_id : Z;
  pc_status : StreamStatus;
  pc_index : Z
}.

Record StreamMessage := mkStreamMessage {
  sm_index : Z;
  sm_data : bytes
}.

Record PullResponse := mkPullResponse {
  pr_request_id : Z;
  pr_messages : list StreamMessage
}.

Record IndexResponse := mkIndexResponse {
  ix_client_id : bytes;
  ix_stream_name : bytes;
  ix_index : option Z
}.

Inductive StreamResponse :=
| RInit (r : InitResponse)
| RPushConfirm (r : PushConfirm)
| RPullResponse (r : PullResponse)
| RIndex (r : IndexResponse).

(** protocols/mod.rs *)
Record ProtocolPayload := mkProtocolPayload {
  pp_protocol : bytes;
  pp_data : bytes
}.

(** stream/cmd.rs *)
Inductive StreamWorkerCmd := CmdFetch | CmdPull (num : Z).

(** BARE *)
Class StreamCodec := {
  encode_payload : ProtocolPayload -> option bytes;
  decode_payload : bytes -> option ProtocolPayload;
  encode_create : CreateStreamRequest -> option bytes;
  decode_create : bytes -> option CreateStreamRequest;
  encode_push : PushRequest -> option bytes;
  decode_push : bytes -> option PushRequest;
  encode_pull : PullRequest -> option bytes;
  decode_pull : bytes -> option PullRequest;
  encode_index : IndexRequest -> option bytes;
  decode_index : bytes -> option IndexRequest;
  encode_init : InitResponse -> option bytes;
  decode_init : bytes -> option InitResponse;
  encode_confirm : PushConfirm -> option bytes;
  decode_confirm : bytes -> option PushConfirm;
  encode_pulled : PullResponse -> option bytes;
  decode_pulled : bytes -> option PullResponse;
  encode_indexed : IndexResponse -> option bytes;
  decode_indexed : bytes -> option IndexResponse;
  encode_stream_message : StreamMessage -> option bytes;
  decode_stream_message : bytes -> option StreamMessage;
  encode_stream_cmd : StreamWorkerCmd -> option bytes;
  decode_stream_cmd : bytes -> option StreamWorkerCmd
}.

Section Protocol.
Context `{StreamCodec}.

(** [ProtocolPayload::new]: data that cannot be encoded panics. *)
Definition ProtocolPayload_new (protocol : bytes) (d : option bytes) : oresult ProtocolPayload :=
  match d with
  | Some data => Ok (mkProtocolPayload protocol data)
  | None => Panic
  end.

Definition CreateStreamRequest_new (s : option bytes) : oresult ProtocolPayload :=
  ProtocolPayload_new (str "stream_create") (encode_create (mkCreateStreamRequest s)).

Definition PushRequest_new (request_id : Z) (data : bytes) : oresult ProtocolPayload :=
  ProtocolPayload_new (str "stream_push") (encode_push (mkPushRequest request_id data)).

Definition PullRequest_new (request_id index limit : Z) : oresult ProtocolPayload :=
  ProtocolPayload_new (str "stream_pull") (encode_pull (mkPullRequest request_id index limit)).

Definition IndexRequest_get (stream_name client_id : bytes) : oresult ProtocolPayload :=
  ProtocolPayload_new (str "stream_index") (encode_index (IndexGet client_id stream_name)).

Definition IndexRequest_save (stream_name client_id : bytes) (index : Z) : oresult ProtocolPayload :=
  ProtocolPayload_new (str "stream_index") (encode_index (IndexSave client_id stream_name index)).

Definition Response_check_id (id : bytes) : bool :=
  bool_decide (id ∈ [str "stream_create"; str "stream_push"; str "stream_pull"; str "stream_index"]).

Definition StreamResponse_parse (pp : ProtocolPayload) : oresult StreamResponse :=
  let d := pp_data pp in
  if bool_decide (pp_protocol pp = str "stream_create") then let? r := ok_or (decode_init d) BareError in Ok (RInit r)
  else if bool_decide (pp_protocol pp = str "stream_push") then let? r := ok_or (decode_confirm d) BareError in Ok (RPushConfirm r)
  else if bool_decide (pp_protocol pp = str "stream_pull") then let? r := ok_or (decode_pulled d) BareError in Ok (RPullResponse r)
  else if bool_decide (pp_protocol pp = str "stream_index") then let? r := ok_or (decode_indexed d) BareError in Ok (RIndex r)
  else Err NoSuchProtocol.

Definition StreamWorkerCmd_fetch : oresult ProtocolPayload :=
  ProtocolPayload_new (str "internal.stream.fetch") (encode_stream_cmd CmdFetch).

Definition StreamWorkerCmd_pull (num : Z) : oresult ProtocolPayload :=
  ProtocolPayload_new (str "internal.stream.pull") (encode_stream_cmd (CmdPull num)).

Definition StreamWorkerCmd_check_id (id : bytes) : bool :=
  bool_decide (id ∈ [str "internal.stream.fetch"; str "internal.stream.pull"]).

Definition StreamWorkerCmd_parse (pp : ProtocolPayload) : oresult StreamWorkerCmd :=
  ok_or (decode_stream_cmd (pp_data pp)) BareError.
End Protocol.

(** ** The workers *)

Record StreamProducer := mkStreamProducer {
  sp_sender_name : bytes;
  sp_route : Route;
  sp_stream_service : bytes;
  sp_outbox : list ProtocolPayload;
  sp_ids : Z;
  sp_init : bool
}.

(** [interval] in milliseconds *)
Record StreamConsumer := mkStreamConsumer {
  sc_client_id : bytes;
  sc_service_route : Route;
  sc_index_route : Route;
  sc_sender_address : option Address;
  sc_receiver_name : bytes;
  sc_interval : Z;
  sc_receiver_rx : Address;
  sc_idx : Z;
  sc_ids : Z
}.

Inductive stream_worker :=
| WProducer (w : StreamProducer)
| WConsumer (w : StreamConsumer).

(** What they call: their context, the generator of addresses and names, and tasks that
    send a message after a while. *)
Inductive scall : Type -> Type :=
| SCtx {X} (c : api stream_worker StreamMessage X) : scall X
| SSetSelf (w : stream_worker) : scall unit
| SRandom (ty : TransportType) : scall Address
| SRandomLocal : scall Address
| SRandomTagged (tag : bytes) : scall Address
| SRandomClientId : scall bytes
| SSpawnDelayed (ctx : nat) (millis : Z) (route : Route) (payload : option bytes) : scall unit.

Notation sprog A := (prog scall no_event A).

Definition sctx {X} (c : api stream_worker StreamMessage (cresult X)) : sprog (oresult X) :=
  do r <- pcall (SCtx c); PRet (map_err NodeFailed r).

(** [From<String> for Address] *)
Definition named (s : bytes) : oresult Address :=
  match Address_from_string s with Ok a => Ok a | _ => Panic end.

Section Workers.
Context {TC : TransportCodec} `{StreamCodec}.

Definition stream_send (own : Address) (route : Route) (pp : ProtocolPayload) : sprog (oresult unit) :=
  sctx (ASend 0 route (encode_payload pp) own []).

(** *** producer.rs *)

Definition StreamProducer_new (sender_name : bytes) (route : Route) (stream_service : bytes) : StreamProducer :=
  mkStreamProducer sender_name route stream_service [] 0 false.

Definition store_producer (w : StreamProducer) : sprog unit := pcall (SSetSelf (WProducer w)).

Definition StreamProducer_initialize (own : Address) (self : StreamProducer) : sprog (oresult unit) :=
  do? service <- plift (named (sp_stream_service self));
  do? request <- plift (CreateStreamRequest_new (Some (sp_sender_name self)));
  stream_send own (RouteBuilder_into (RouteBuilder_append service (Route_modify (sp_route self)))) request.

(** [for trans in outbox { ctx.send(route, trans).await?; }] *)
Fixpoint flush_outbox (own : Address) (route : Route) (l : list ProtocolPayload) : sprog (oresult unit) :=
  match l with
  | [] => PRet (Ok tt)
  | trans :: l => do? _ <- stream_send own route trans; flush_outbox own route l
  end.

Definition producer_handle_response (own : Address) (w : StreamProducer) (return_route : Route) (response : StreamResponse)
  : sprog (oresult unit) :=
  match response with
  | RInit _ =>
      do _ <- store_producer (mkStreamProducer (sp_sender_name w) return_route (sp_stream_service w) [] (sp_ids w) true);
      flush_outbox own return_route (sp_outbox w)
  | RPushConfirm _ => PRet (Ok tt)
  | _ => PRet (Err NoSuchProtocol)
  end.

(** A message for the stream: it is pushed, or queued until the stream is known. *)
Definition producer_push (own : Address) (self : StreamProducer) (trans : TransportMessage) : sprog (oresult unit) :=
  let (a, onward) := Route_step (onward_route trans) in
  do? _ <- plift (of_route a);
  let trans := mkTransportMessage (version trans) onward (return_route trans) (payload trans) in
  let (id, ids) := Monotonic_next (sp_ids self) in
  let counted outbox := mkStreamProducer (sp_sender_name self) (sp_route self) (sp_stream_service self) outbox ids (sp_init self) in
  do _ <- store_producer (counted (sp_outbox self));
  do? data <- plift (ok_or (encode_transport trans) BareError);
  do? proto_msg <- plift (PushRequest_new id data);
  if sp_init self then
    do? _ <- stream_send own (sp_route self) proto_msg;
    PRet (Ok tt)
  else
    do _ <- store_producer (counted (sp_outbox self ++ [proto_msg]));
    PRet (Ok tt).

Definition StreamProducer_handle_message (own : Address) (self : StreamProducer) (msg : Routed unit) : sprog (oresult unit) :=
  let trans := transport_message (local_msg msg) in
  match decode_payload (payload trans) with
  | Some pp =>
      if Response_check_id (pp_protocol pp) then
        do? response <- plift (StreamResponse_parse pp);
        producer_handle_response own self (return_route trans) response
      else producer_push own self trans
  | None => producer_push own self trans
  end.

(** *** consumer.rs *)

Definition StreamConsumer_new (client_id : bytes) (route : Route) (sender_address : option Address) (receiver_name : bytes)
    (interval : Z) (_forwarding_address : option Address) (receiver_rx : Address) (stream_service index_service : bytes)
  : oresult StreamConsumer :=
  let? s := named stream_service in
  let? i := named index_service in
  Ok (mkStreamConsumer client_id (RouteBuilder_into (RouteBuilder_append s (Route_modify route)))
        (RouteBuilder_into (RouteBuilder_append i (Route_modify route))) sender_address receiver_name interval receiver_rx 0 0).

Definition store_consumer (w : StreamConsumer) : sprog unit := pcall (SSetSelf (WConsumer w)).

Definition StreamConsumer_initialize (own : Address) (self : StreamConsumer) : sprog (oresult unit) :=
  do? request <- plift (CreateStreamRequest_new (Some (sc_receiver_name self)));
  do? _ <- stream_send own (sc_service_route self) request;
  PRet (Ok tt).

(** [DelayedEvent::new(ctx, ctx.address().into(), StreamWorkerCmd::fetch()).await?
    .with_duration(interval).spawn()] *)
Definition fetch_interval (own : Address) (interval : Z) : sprog (oresult unit) :=
  do? fetch <- plift StreamWorkerCmd_fetch;
  do? next <- plift (of_route (Route_next [own]));
  do child <- pcall (SRandomTagged (str "DelayedEvent.child"));
  do? ctx <- sctx (ANewDetached 0 (main_mailboxes child (fun _ => dyn_incoming mkDenyAll)
                                     (fun _ => dyn_outgoing (mkAllowOnwardAddress next))));
  do _ <- pcall (SSpawnDelayed ctx interval [own] (encode_payload fetch));
  PRet (Ok tt).

Definition with_service_route (r : Route) (w : StreamConsumer) : StreamConsumer :=
  mkStreamConsumer (sc_client_id w) r (sc_index_route w) (sc_sender_address w) (sc_receiver_name w) (sc_interval w)
    (sc_receiver_rx w) (sc_idx w) (sc_ids w).
Definition with_index (r : Route) (i : Z) (w : StreamConsumer) : StreamConsumer :=
  mkStreamConsumer (sc_client_id w) (sc_service_route w) r (sc_sender_address w) (sc_receiver_name w) (sc_interval w)
    (sc_receiver_rx w) i (sc_ids w).
Definition with_ids (i : Z) (w : StreamConsumer) : StreamConsumer :=
  mkStreamConsumer (sc_client_id w) (sc_service_route w) (sc_index_route w) (sc_sender_address w) (sc_receiver_name w)
    (sc_interval w) (sc_receiver_rx w) (sc_idx w) i.

(** A message of the stream goes on its way, or to the receiver if it has none. *)
Definition pass_on (own : Address) (w : StreamConsumer) (msg : StreamMessage) : sprog unit :=
  match decode_transport (sm_data msg) with
  | None => PRet tt
  | Some trans =>
      let trans := match sc_sender_address w with
                   | Some addr => mkTransportMessage (version trans) (onward_route trans)
                       (RouteBuilder_drop (RouteBuilder_prepend addr (Route_modify (return_route trans))) (return_route trans))
                       (payload trans)
                   | None => trans
                   end in
      do _ <- match Route_next (onward_route trans) with
              | Ok _ => sctx (AForward 0 (mkLocalMessage trans []) own)
              | _ => sctx (ASend 0 [sc_receiver_rx w] (encode_stream_message msg) own [])
              end;
      PRet tt
  end.

Fixpoint pass_on_all (own : Address) (w : StreamConsumer) (l : list StreamMessage) : sprog unit :=
  match l with
  | [] => PRet tt
  | msg :: l => do _ <- pass_on own w msg; pass_on_all own w l
  end.

(** The index is a 64-bit number; the addition wraps around, as in a build for release. *)
Definition consumer_handle_response (own : Address) (w : StreamConsumer) (return_route : Route) (response : StreamResponse)
  : sprog (oresult unit) :=
  match response with
  | RInit r =>
      if bool_decide (sc_receiver_name w = ir_stream_name r) then
        let w := with_service_route return_route w in
        do _ <- store_consumer w;
        do? request <- plift (IndexRequest_get (ir_stream_name r) (sc_client_id w));
        stream_send own (sc_index_route w) request
      else PPanic
  | RIndex r =>
      let index := default 0%Z (ix_index r) in
      do _ <- store_consumer (with_index return_route index w);
      do r <- fetch_interval own 10;
      match r with
      | Ok _ => PRet (Ok tt)
      | _ => PPanic
      end
  | RPullResponse r =>
      let last_idx := sc_idx w in
      let idx := match list.last (pr_messages r) with
                 | Some msg => u64_add (sm_index msg) 1
                 | None => sc_idx w
                 end in
      let w := with_index (sc_index_route w) idx w in
      do _ <- store_consumer w;
      do _ <- pass_on_all own w (pr_messages r);
      do? _ <- (if negb (last_idx =? sc_idx w)%Z then
                  do? request <- plift (IndexRequest_save (sc_receiver_name w) (sc_client_id w) (sc_idx w));
                  stream_send own (sc_index_route w) request
                else PRet (Ok tt));
      do r <- fetch_interval own (sc_interval w);
      match r with
      | Panic => PPanic
      | _ => PRet (Ok tt)
      end
  | RPushConfirm _ => PRet (Err NoSuchProtocol)
  end.

Definition handle_cmd (own : Address) (w : StreamConsumer) (cmd : StreamWorkerCmd) : sprog (oresult unit) :=
  match cmd with
  | CmdFetch =>
      let (request_id, ids) := Monotonic_next (sc_ids w) in
      do _ <- store_consumer (with_ids ids w);
      do? request <- plift (PullRequest_new request_id (sc_idx w) 8);
      do? _ <- stream_send own (sc_service_route w) request;
      PRet (Ok tt)
  | CmdPull _ => PRet (Err NoSuchProtocol)
  end.

Definition StreamConsumer_handle_message (own : Address) (self : StreamConsumer) (msg : Routed unit) : sprog (oresult unit) :=
  let trans := transport_message (local_msg msg) in
  do? pp <- plift (ok_or (decode_payload (payload trans)) BareError);
  if Response_check_id (pp_protocol pp) then
    do? response <- plift (StreamResponse_parse pp);
    do? _ <- consumer_handle_response own self (return_route trans) response;
    PRet (Ok tt)
  else if StreamWorkerCmd_check_id (pp_protocol pp) then
    do? cmd <- plift (StreamWorkerCmd_parse pp);
    do? _ <- handle_cmd own self cmd;
    PRet (Ok tt)
  else PRet (Ok tt).

(** ** Controllers (stream/mod.rs) *)

Definition STREAM : TransportType := mkTransportType Byte.x10.

(** [ctx]: which context of the worker *)
Record StreamController := mkStreamController {
  st_ctx : nat;
  st_interval : Z;
  st_forwarding_address : option Address;
  st_stream_service : bytes;
  st_index_service : bytes;
  st_client_id : option bytes
}.

Definition Stream_new : sprog (oresult StreamController) :=
  do a <- pcall (SRandom STREAM);
  do? ctx <- sctx (ANewDetached 0 (main_mailboxes a (fun _ => dyn_incoming mkDenyAll) (fun _ => dyn_outgoing mkDenyAll)));
  PRet (Ok (mkStreamController ctx 250 None (str "stream") (str "stream_index") None)).

Definition Stream_with_interval (d : Z) (s : StreamController) : StreamController :=
  mkStreamController (st_ctx s) d (st_forwarding_address s) (st_stream_service s) (st_index_service s) (st_client_id s).
Definition Stream_stream_service (x : bytes) (s : StreamController) : StreamController :=
  mkStreamController (st_ctx s) (st_interval s) (st_forwarding_address s) x (st_index_service s) (st_client_id s).
Definition Stream_index_service (x : bytes) (s : StreamController) : StreamController :=
  mkStreamController (st_ctx s) (st_interval s) (st_forwarding_address s) (st_stream_service s) x (st_client_id s).
Definition Stream_client_id (x : bytes) (s : StreamController) : StreamController :=
  mkStreamController (st_ctx s) (st_interval s) (st_forwarding_address s) (st_stream_service s) (st_index_service s) (Some x).
Definition Stream_with_recipient (a : Address) (s : StreamController) : StreamController :=
  mkStreamController (st_ctx s) (st_interval s) (Some a) (st_stream_service s) (st_index_service s) (st_client_id s).

(** The address of the sender; the context and the address of the receiver. *)
Definition Stream_connect (self : StreamController) (route : Route) (sender_name receiver_name : bytes)
  : sprog (oresult (Address * (nat * Address))) :=
  do receiver_address <- pcall SRandomLocal;
  do sender_address <- pcall SRandomLocal;
  do receiver_rx <- pcall SRandomLocal;
  do client_id <- match st_client_id self with
                  | Some c => PRet c
                  | None => pcall SRandomClientId
                  end;
  do? consumer <- plift (StreamConsumer_new client_id route (Some sender_address) receiver_name (st_interval self)
                           (st_forwarding_address self) receiver_rx (st_stream_service self) (st_index_service self));
  do? _ <- sctx (AStartWorker (st_ctx self) (allow_all_mailboxes receiver_address []) (WConsumer consumer));
  do? _ <- sctx (AStartWorker (st_ctx self) (allow_all_mailboxes sender_address [])
                   (WProducer (StreamProducer_new sender_name route (st_stream_service self))));
  do? ctx <- sctx (ANewDetached (st_ctx self) (main_mailboxes receiver_rx (fun _ => dyn_incoming mkAllowAll)
                                                 (fun _ => dyn_outgoing mkDenyAll)));
  PRet (Ok (sender_address, (ctx, receiver_address))).

Definition ReceiverAddress_next {T} (decode : bytes -> option T) (ctx : nat) : sprog (oresult (Routed T)) :=
  do? routed <- sctx (AReceive ctx WaitBlocking decode_stream_message);
  match decode_transport (sm_data (inner routed)) with
  | None => PPanic
  | Some transport =>
      do? t <- plift (ok_or (decode (payload transport)) BareError);
      PRet (Ok (mkRouted t (msg_addr routed) (src_addr routed) (local_msg routed)))
  end.
End Workers.
