(* ===== verification/StreamService.v ===== *)
(** * The stream services (implementations/elixir/ockam/ockam/lib/ockam/stream)

    The workers that keep streams and the indices of their readers, with their storage
    in memory.  A worker that raises an exception is a [Panic].  Streams have one partition:
    the partitioned variants of the protocols are left out. *)

From Stdlib Require Import ZArith Lia.
From Stdlib Require Strings.Byte Strings.String.
From stdpp Require Import base gmap list list_numbers numbers option countable.
From S2P Require Import Prelude RustStr Routing AccessControl FlowControl Router Node Pipes Streams.

(** ** storage/internal.ex *)

Record StreamStorage := mkStreamStorage {
  ss_latest : Z;
  ss_earliest : Z;
  ss_entries : gmap Z StreamMessage
}.

Definition init_partition : StreamStorage := mkStreamStorage (-1) 0 ∅.

Definition save (data : bytes) (storage : StreamStorage) : Z * StreamStorage :=
  let next := (ss_latest storage + 1)%Z in
  (next, mkStreamStorage next (ss_earliest storage) (<[next := mkStreamMessage next data]> (ss_entries storage))).

Definition fetch (index limit : Z) (storage : StreamStorage) : list StreamMessage :=
  let start_from := Z.max index (ss_earliest storage) in
  omap (fun i => ss_entries storage !! i) (seqZ start_from limit).

(** ** index/storage/internal.ex

    The shard of a client and a stream has the entry for them only: together they are
    this map. *)

Definition get_index (client_id stream_name : bytes) (state : gmap (bytes * bytes) Z) : option Z :=
  state !! (client_id, stream_name).

Definition save_index (client_id stream_name : bytes) (index : Z) (state : gmap (bytes * bytes) Z)
  : gmap (bytes * bytes) Z :=
  let new := match state !! (client_id, stream_name) with
             | Some previous => Z.max previous index
             | None => index
             end in
  <[(client_id, stream_name) := new]> state.

(** ** The workers *)

Record StreamState := mkStreamState {
  se_stream_name : bytes;
  se_storage : StreamStorage
}.

Section Service.
Context `{StreamCodec} (error_payload : bytes -> option bytes).

(** [encode_payload]: raises if the data has no encoding. *)
Definition encoded {E} (protocol : bytes) (data : option bytes) : result E bytes :=
  match data with
  | Some d => match encode_payload (mkProtocolPayload protocol d) with
              | Some b => Ok b
              | None => Panic
              end
  | None => Panic
  end.

Definition encode_error {E} (reason : bytes) : result E bytes :=
  match error_payload reason with Some b => Ok b | None => Panic end.

(** The requests of a server: [decode_payload] with its protocol mapping. *)
Inductive StreamRequest :=
| QCreate (r : CreateStreamRequest)
| QPush (r : PushRequest)
| QPull (r : PullRequest).

Definition stream_decode_payload (payload : bytes) : option StreamRequest :=
  pp ← decode_payload payload;
  if bool_decide (pp_protocol pp = str "stream_create") then QCreate <$> decode_create (pp_data pp)
  else if bool_decide (pp_protocol pp = str "stream_push") then QPush <$> decode_push (pp_data pp)
  else if bool_decide (pp_protocol pp = str "stream_pull") then QPull <$> decode_pull (pp_data pp)
  else None.

(** workers/stream.ex: the reply, and the state afterwards.  There is no clause for a
    request to create a stream. *)
Definition Stream_handle_message (payload : bytes) (state : StreamState) : result unit (bytes * StreamState) :=
  match stream_decode_payload payload with
  | Some (QPush r) =>
      let (index, storage) := save (pu_data r) (se_storage state) in
      let? reply := encoded (str "stream_push") (encode_confirm (mkPushConfirm (pu_request_id r) StreamOk index)) in
      Ok (reply, mkStreamState (se_stream_name state) storage)
  | Some (QPull r) =>
      let messages := fetch (pl_index r) (pl_limit r) (se_storage state) in
      let? reply := encoded (str "stream_pull") (encode_pulled (mkPullResponse (pl_request_id r) messages)) in
      Ok (reply, state)
  | Some (QCreate _) => Panic
  | None => let? reply := encode_error (str "Invalid request") in Ok (reply, state)
  end.

Definition reply_init (stream_name : bytes) : result unit bytes :=
  encoded (str "stream_create") (encode_init (mkInitResponse stream_name)).

(** workers/service.ex, with one partition; the streams by their names.  [generated] is
    the name of a stream without one. *)
Definition Service_handle_message (generated payload : bytes) (streams : gmap bytes StreamState)
  : result unit (bytes * gmap bytes StreamState) :=
  match stream_decode_payload payload with
  | Some (QCreate r) =>
      let name := default generated (cs_stream_name r) in
      if bool_decide (name = []) then let? reply := encode_error (str "Invalid request") in Ok (reply, streams)
      else
        let? reply := reply_init name in
        match streams !! name with
        | Some _ => Ok (reply, streams)
        | None => Ok (reply, <[name := mkStreamState name init_partition]> streams)
        end
  | _ => let? reply := encode_error (str "Invalid request") in Ok (reply, streams)
  end.

Definition index_decode_payload (payload : bytes) : option IndexRequest :=
  pp ← decode_payload payload;
  if bool_decide (pp_protocol pp = str "stream_index") then decode_index (pp_data pp) else None.

(** index/service.ex and index/shard.ex *)
Definition Index_handle_message (payload : bytes) (state : gmap (bytes * bytes) Z)
  : result unit (option bytes * gmap (bytes * bytes) Z) :=
  match index_decode_payload payload with
  | Some (IndexSave client_id stream_name index) => Ok (None, save_index client_id stream_name index state)
  | Some (IndexGet client_id stream_name) =>
      let? reply := encoded (str "stream_index")
        (encode_indexed (mkIndexResponse client_id stream_name (get_index client_id stream_name state))) in
      Ok (Some reply, state)
  | None => Ok (None, state)
  end.
End Service.
