(* ===== verification/StreamSpec.v ===== *)
(** * What streams promise

    A consumer, the services of the stream and the network between them are one system
    ([sys_step]).  [stream_in_order]: the consumer tries to pass on what is in the stream,
    in order, without gaps or repetitions, from where it had read to, and a consumer that
    takes over begins before everything that was not tried, wherever the first one
    stopped.  What cannot be passed on is dropped ([failed_messages_are_dropped]). *)

From Stdlib Require Import ZArith Lia.
From Stdlib Require Strings.Byte Strings.String.
From stdpp Require Import base gmap list list_numbers numbers option countable.
From S2P Require Import Prelude RustStr Routing AccessControl FlowControl Router Node Execution Pipes Streams StreamService.

(** What is encoded is read back, by either implementation. *)
Class StreamCodecLaws `{StreamCodec} : Prop := {
  payload_read x b : encode_payload x = Some b -> decode_payload b = Some x;
  create_read x b : encode_create x = Some b -> decode_create b = Some x;
  push_read x b : encode_push x = Some b -> decode_push b = Some x;
  pull_read x b : encode_pull x = Some b -> decode_pull b = Some x;
  index_read x b : encode_index x = Some b -> decode_index b = Some x;
  init_read x b : encode_init x = Some b -> decode_init b = Some x;
  pulled_read x b : encode_pulled x = Some b -> decode_pulled b = Some x;
  indexed_read x b : encode_indexed x = Some b -> decode_indexed b = Some x;
  stream_cmd_read x b : encode_stream_cmd x = Some b -> decode_stream_cmd b = Some x
}.

(** Numbers of 64 bits can be written, and so can what is made of them. *)
Definition in_u64 (z : Z) : Prop := (0 <= z < 2 ^ 64)%Z.

Class StreamCodecTotal `{StreamCodec} : Prop := {
  payload_total x : is_Some (encode_payload x);
  create_total n : is_Some (encode_create (mkCreateStreamRequest n));
  init_total n : is_Some (encode_init (mkInitResponse n));
  get_total c n : is_Some (encode_index (IndexGet c n));
  save_total c n i : in_u64 i -> is_Some (encode_index (IndexSave c n i));
  indexed_total c n o : (forall i, o = Some i -> in_u64 i) -> is_Some (encode_indexed (mkIndexResponse c n o));
  pull_total id i n : in_u64 id -> in_u64 i -> in_u64 n -> is_Some (encode_pull (mkPullRequest id i n));
  pulled_total id ms : in_u64 id -> Forall (fun m => in_u64 (sm_index m)) ms -> is_Some (encode_pulled (mkPullResponse id ms));
  fetch_total : is_Some (encode_stream_cmd CmdFetch)
}.

(** ** The storage *)

(** What the storage has: the numbers from 0 on. *)
Definition stored (s : StreamStorage) : Prop :=
  ss_earliest s = 0%Z /\ (-1 <= ss_latest s)%Z /\
  forall i, (0 <= i <= ss_latest s)%Z <-> is_Some (ss_entries s !! i).

Definition numbered (s : StreamStorage) : Prop := forall i m, ss_entries s !! i = Some m -> sm_index m = i.

Lemma init_stored : stored init_partition /\ numbered init_partition.
Proof.
  split; [split_and!; [done|done|]|by intros i m; cbn [init_partition ss_entries]; rewrite lookup_empty].
  intros i. cbn [init_partition ss_entries ss_latest]. rewrite lookup_empty. split; [lia|by intros []].
Qed.

Lemma save_stored d s : stored s -> numbered s -> stored (save d s).2 /\ numbered (save d s).2.
Proof.
  intros (H1 & H2 & H3) Hn. split.
  - split_and!; cbn; [done|lia|]. intros i. destruct (decide (i = ss_latest s + 1)%Z) as [->|Hne].
    + rewrite lookup_insert_eq. split; [eauto|lia].
    + rewrite lookup_insert_ne by done. rewrite <-H3. lia.
  - intros i m. cbn. destruct (decide (i = ss_latest s + 1)%Z) as [->|Hne].
    + rewrite lookup_insert_eq. by intros [= <-].
    + rewrite lookup_insert_ne by done. apply Hn.
Qed.

(** The entries from [a] up to [b]. *)
Definition entries (s : StreamStorage) (a b : Z) : list StreamMessage := omap (fun i => ss_entries s !! i) (seqZ a (b - a)).

Lemma entries_nil s a : entries s a a = [].
Proof. unfold entries. by rewrite Z.sub_diag. Qed.

Lemma entries_app s a b c : (a <= b <= c)%Z -> entries s a c = entries s a b ++ entries s b c.
Proof.
  intros Hb. unfold entries. replace (c - a)%Z with ((b - a) + (c - b))%Z by lia.
  rewrite seqZ_app by lia. rewrite omap_app. by replace (a + (b - a))%Z with b by lia.
Qed.

(** Entries that are there do not change. *)
Lemma entries_save d s a b : stored s -> (b <= ss_latest s + 1)%Z -> entries (save d s).2 a b = entries s a b.
Proof.
  intros Hs Hb. unfold entries. apply list_omap_ext. apply Forall_Forall2_diag, list.Forall_forall. intros i Hi.
  apply elem_of_seqZ in Hi. cbn. by rewrite lookup_insert_ne by lia.
Qed.

Lemma fetch_entries s i limit : stored s -> (0 <= i)%Z -> (0 <= limit)%Z ->
  fetch i limit s = entries s i (Z.max i (Z.min (i + limit) (ss_latest s + 1))).
Proof.
  intros (He & Hl & Hs) Hi Hlim. unfold fetch. rewrite He, Z.max_l by lia. unfold entries.
  set (n := (Z.max i (Z.min (i + limit) (ss_latest s + 1)) - i)%Z).
  replace limit with (n + (limit - n))%Z at 1 by lia. rewrite seqZ_app by lia. rewrite omap_app.
  rewrite <-(app_nil_r (omap _ (seqZ i n))) at 2. f_equal.
  assert (forall l : list Z, (forall j, j ∈ l -> ss_entries s !! j = None) -> omap (fun i => ss_entries s !! i) l = []) as Hnone.
  { induction l as [|j l IH]; intros Hj; [done|]. cbn. rewrite (Hj j) by (by left). apply IH. intros j' Hj'. apply Hj. by right. }
  apply Hnone. intros j Hj. apply elem_of_seqZ in Hj. apply eq_None_not_Some. rewrite <-Hs. unfold n in Hj. lia.
Qed.

Lemma entries_length s a b : stored s -> (0 <= a)%Z -> (a <= b <= ss_latest s + 1)%Z -> length (entries s a b) = Z.to_nat (b - a).
Proof.
  intros (_ & _ & Hs) Ha Hb. unfold entries. rewrite <-(length_seqZ a (b - a)).
  assert (forall l : list Z, (forall j, j ∈ l -> is_Some (ss_entries s !! j)) ->
    length (omap (fun i => ss_entries s !! i) l) = length l) as Hsome.
  { induction l as [|j l IH]; intros Hj; [done|]. cbn. destruct (Hj j) as [x ->]; [by left|]. cbn. f_equal.
    apply IH. intros j' Hj'. apply Hj. by right. }
  apply Hsome. intros j Hj. apply elem_of_seqZ in Hj. apply Hs. lia.
Qed.

(** The last one has the last number. *)
Lemma entries_last s a b : stored s -> numbered s -> (0 <= a)%Z -> (a <= b <= ss_latest s + 1)%Z ->
  (a = b /\ list.last (entries s a b) = None) \/ (a < b)%Z /\ exists m, list.last (entries s a b) = Some m /\ sm_index m = (b - 1)%Z.
Proof.
  intros Hs Hn Ha Hb. destruct (decide (a = b)) as [->|Hne]; [left; by rewrite entries_nil|right]. split; [lia|].
  rewrite (entries_app s a (b - 1) b) by lia. destruct Hs as (_ & _ & Hs). destruct (proj1 (Hs (b - 1)%Z)) as [m Hm]; [lia|].
  assert (entries s (b - 1) b = [m]) as ->.
  { unfold entries. replace (b - (b - 1))%Z with 1%Z by lia. rewrite seqZ_cons by lia. cbn [omap list_omap]. by rewrite Hm. }
  rewrite last_snoc. eauto.
Qed.

(** ** The consumer *)

(** What it passes on: along the route of the message, or to the receiver. *)
Inductive passed :=
| PForward (m : LocalMessage)
| PReceiver (payload : option bytes).

(** What is seen of a consumer: its state, what it has tried to pass on with whether
    that succeeded, the requests it has sent, and its delayed events. *)
Record cview := mkCView {
  cv_self : StreamConsumer;
  cv_tried : attempts passed;
  cv_wire : list bytes;
  cv_timers : list (option bytes)
}.

Definition cv_out (v : cview) : list passed := (cv_tried v).*1.

Section Spec.
Context {TC : TransportCodec} `{SC : StreamCodec} {SL : StreamCodecLaws}.

(** The consumer [own] of the stream [name]; [rx] is the address of its receiver. *)
Context (own rx : Address) (client name : bytes) (sender : option Address).

Definition seff X (c : scall X) : X -> cview -> cview -> Prop :=
  match c in scall X return X -> cview -> cview -> Prop with
  | SCtx c =>
      match c in api _ _ X return X -> cview -> cview -> Prop with
      | ASend _ route payload _ _ => fun x g g' =>
          if bool_decide (route = [rx]) then
            g' = mkCView (cv_self g) (cv_tried g ++ [(PReceiver payload, is_ok x)]) (cv_wire g) (cv_timers g)
          else match x with
               | Ok _ => exists b, payload = Some b /\ g' = mkCView (cv_self g) (cv_tried g) (cv_wire g ++ [b]) (cv_timers g)
               | _ => g' = g
               end
      | AForward _ m _ => fun x g g' =>
          g' = mkCView (cv_self g) (cv_tried g ++ [(PForward m, is_ok x)]) (cv_wire g) (cv_timers g)
      | _ => fun _ g g' => g' = g
      end
  | SSetSelf (WConsumer w) => fun _ g g' => g' = mkCView w (cv_tried g) (cv_wire g) (cv_timers g)
  | SSpawnDelayed _ _ _ payload => fun _ g g' =>
      g' = mkCView (cv_self g) (cv_tried g) (cv_wire g) (cv_timers g ++ [payload])
  | _ => fun _ g g' => g' = g
  end.

(** What passing on a message amounts to; one that cannot be decoded is skipped. *)
Definition deliver1 (m : StreamMessage) : list passed :=
  match decode_transport (sm_data m) with
  | None => []
  | Some t =>
      let back := match sender with Some a => a :: return_route t | None => return_route t end in
      match onward_route t with
      | [] => [PReceiver (encode_stream_message m)]
      | _ => [PForward (mkLocalMessage (mkTransportMessage (version t) (onward_route t) back (payload t)) [])]
      end
  end.

Definition deliver (l : list StreamMessage) : list passed := l ≫= deliver1.

Lemma deliver_app l k : deliver (l ++ k) = deliver l ++ deliver k.
Proof. apply bind_app. Qed.

(** The parts of its state that stay. *)
Definition ours (w : StreamConsumer) : Prop :=
  sc_client_id w = client /\ sc_receiver_name w = name /\ sc_sender_address w = sender /\ sc_receiver_rx w = rx /\
  sc_service_route w <> [rx] /\ sc_index_route w <> [rx].

(** [t] has been tried as well. *)
Definition and_tried (t : attempts passed) (g : cview) : cview :=
  mkCView (cv_self g) (cv_tried g ++ t) (cv_wire g) (cv_timers g).

Lemma and_tried_nil g : and_tried [] g = g.
Proof. unfold and_tried. rewrite app_nil_r. by destruct g. Qed.

Lemma and_tried_app t t' g : and_tried t' (and_tried t g) = and_tried (t ++ t') g.
Proof. unfold and_tried. cbn. by rewrite app_assoc. Qed.

Lemma and_tried_out t g : cv_out (and_tried t g) = cv_out g ++ t.*1.
Proof. apply fmap_app. Qed.

Lemma pass_on_step w m g (I : cview -> Prop) (Q : unit -> cview -> Prop) :
  ours w -> I g -> (forall t, t.*1 = deliver1 m -> I (and_tried t g) /\ Q tt (and_tried t g)) ->
  ensures seff (pass_on own w m) g I Q.
Proof.
  intros (_ & _ & Hs & Hr & _) Hg Ht. unfold pass_on, deliver1 in *.
  destruct (decode_transport (sm_data m)) as [t|].
  2:{ destruct (Ht [] eq_refl) as [_ HQ]. rewrite and_tried_nil in HQ. by split. }
  rewrite Hs, Hr. unfold Route_modify, RouteBuilder_prepend, RouteBuilder_drop. cbn [rb_inner write_back].
  set (t' := match sender with Some addr => _ | None => t end).
  assert (t' = mkTransportMessage (version t) (onward_route t) (match sender with Some a => a :: return_route t | None => return_route t end)
    (payload t)) as -> by (unfold t'; by destruct sender, t).
  cbn [onward_route]. destruct (onward_route t) as [|a l]; cbn.
  - split; [done|]. intros x g1. rewrite bool_decide_true by done. intros ->. by apply (Ht [(_, _)]).
  - split; [done|]. intros x g1 ->. by apply (Ht [(_, _)]).
Qed.

Lemma pass_on_all_step w l g (I : cview -> Prop) (Q : unit -> cview -> Prop) :
  ours w ->
  (forall n t, t.*1 = deliver (take n l) -> I (and_tried t g)) ->
  (forall t, t.*1 = deliver l -> Q tt (and_tried t g)) ->
  ensures seff (pass_on_all own w l) g I Q.
Proof.
  intros Hw. revert g. induction l as [|m l IH]; intros g HI HQ; cbn [pass_on_all].
  - specialize (HI 0 [] eq_refl). specialize (HQ [] eq_refl). rewrite and_tried_nil in *. by split.
  - pose proof (HI 0 [] eq_refl) as H0. rewrite and_tried_nil in H0.
    apply ensures_bind, pass_on_step; [done|done|]. intros t Ht.
    split; [apply (HI 1); rewrite Ht; cbn; by rewrite app_nil_r|]. apply IH.
    + intros n t' Ht'. rewrite and_tried_app. apply (HI (S n)). by rewrite fmap_app, Ht, Ht'.
    + intros t' Ht'. rewrite and_tried_app. apply HQ. by rewrite fmap_app, Ht, Ht'.
Qed.

(** A delayed event to fetch more. *)
Definition fetch_payload (o : option bytes) : Prop :=
  exists f, StreamWorkerCmd_fetch = Ok f /\ o = encode_payload f.

Lemma fetch_interval_step d g (I : cview -> Prop) (Q : oresult unit -> cview -> Prop) :
  (forall o, fetch_payload o -> let g' := mkCView (cv_self g) (cv_tried g) (cv_wire g) (cv_timers g ++ [o]) in I g' /\ Q (Ok tt) g') ->
  I g -> (forall r, Q r g) -> ensures seff (fetch_interval own d) g I Q.
Proof.
  intros Ho Hg HQ. unfold fetch_interval. destruct StreamWorkerCmd_fetch as [f|e|] eqn:Ef; [|by split..].
  cbn. split; [done|]. intros a g1 ->. split; [done|]. intros r g1 ->. destruct r as [ctx|e|]; cbn; [|by split..].
  split; [done|]. intros [] g1 ->. apply Ho. by exists f.
Qed.

Lemma send_step route pp g (I : cview -> Prop) (Q : oresult unit -> cview -> Prop) :
  route <> [rx] ->
  (forall b, encode_payload pp = Some b ->
     let g' := mkCView (cv_self g) (cv_tried g) (cv_wire g ++ [b]) (cv_timers g) in I g' /\ Q (Ok tt) g') ->
  I g -> (forall r, r <> Ok tt -> Q r g) -> ensures seff (stream_send own route pp) g I Q.
Proof.
  intros Hr Hb Hg HQ. cbn. split; [done|]. intros x g1. rewrite bool_decide_false by done.
  destruct x as [[]|e|]; [intros (b & E & ->)|intros ->..]; [|by split; [|apply HQ]..]. by apply Hb.
Qed.

(** ** Requests and replies *)

Inductive wtoken :=
| WCreate
| WGet
| WSave (v : Z)
| WPull (index limit : Z).

(** The requests of this consumer. *)
Definition wire_token (p : bytes) : option wtoken :=
  match stream_decode_payload p with
  | Some (QCreate r) => if bool_decide (cs_stream_name r = Some name) then Some WCreate else None
  | Some (QPull r) => Some (WPull (pl_index r) (pl_limit r))
  | Some (QPush _) => None
  | None =>
      match index_decode_payload p with
      | Some (IndexGet c n) => if bool_decide (c = client /\ n = name) then Some WGet else None
      | Some (IndexSave c n v) => if bool_decide (c = client /\ n = name) then Some (WSave v) else None
      | None => None
      end
  end.

Definition net_reply (p : bytes) : option StreamResponse :=
  pp ← decode_payload p;
  if Response_check_id (pp_protocol pp) then
    match StreamResponse_parse pp with Ok r => Some r | _ => None end
  else None.

Lemma request_read {E} protocol d pp b :
  ProtocolPayload_new protocol d = Ok pp -> encode_payload pp = Some b ->
  exists x, d = Some x /\ decode_payload b = Some (mkProtocolPayload protocol x) /\ encoded (E := E) protocol d = Ok b.
Proof.
  unfold ProtocolPayload_new, encoded. destruct d as [x|]; [|done]. intros [= <-] Hb. exists x. rewrite Hb.
  split_and!; [done|by apply payload_read|done].
Qed.

Lemma create_token pp b :
  CreateStreamRequest_new (Some name) = Ok pp -> encode_payload pp = Some b -> wire_token b = Some WCreate.
Proof.
  intros H1 H2. destruct (request_read (E := unit) _ _ _ _ H1 H2) as (x & Ex & Hd & _). apply create_read in Ex.
  unfold wire_token, stream_decode_payload. rewrite Hd. cbn [mbind option_bind pp_protocol pp_data].
  rewrite bool_decide_true by done. rewrite Ex. cbn. by rewrite bool_decide_true.
Qed.

Lemma pull_token id i n pp b :
  PullRequest_new id i n = Ok pp -> encode_payload pp = Some b -> wire_token b = Some (WPull i n).
Proof.
  intros H1 H2. destruct (request_read (E := unit) _ _ _ _ H1 H2) as (x & Ex & Hd & _). apply pull_read in Ex.
  unfold wire_token, stream_decode_payload. rewrite Hd. cbn [mbind option_bind pp_protocol pp_data].
  by rewrite !bool_decide_false, bool_decide_true, Ex by done.
Qed.

Lemma index_token (q : IndexRequest) pp b :
  ProtocolPayload_new (str "stream_index") (encode_index q) = Ok pp -> encode_payload pp = Some b ->
  stream_decode_payload b = None /\ index_decode_payload b = Some q.
Proof.
  intros H1 H2. destruct (request_read (E := unit) _ _ _ _ H1 H2) as (x & Ex & Hd & _). apply index_read in Ex.
  unfold stream_decode_payload, index_decode_payload. rewrite Hd. cbn [mbind option_bind pp_protocol pp_data].
  by rewrite !bool_decide_false, bool_decide_true, Ex by done.
Qed.

Lemma get_token pp b :
  IndexRequest_get name client = Ok pp -> encode_payload pp = Some b -> wire_token b = Some WGet.
Proof.
  intros H1 H2. destruct (index_token _ _ _ H1 H2) as [E1 E2]. unfold wire_token. rewrite E1, E2. by rewrite bool_decide_true.
Qed.

Lemma save_token v pp b :
  IndexRequest_save name client v = Ok pp -> encode_payload pp = Some b -> wire_token b = Some (WSave v).
Proof.
  intros H1 H2. destruct (index_token _ _ _ H1 H2) as [E1 E2]. unfold wire_token. rewrite E1, E2. by rewrite bool_decide_true.
Qed.

(** ** What the consumer does with a message *)

Lemma handle_reply w msg r :
  net_reply (payload (transport_message (local_msg msg))) = Some r ->
  StreamConsumer_handle_message own w msg =
    (do? _ <- consumer_handle_response own w (return_route (transport_message (local_msg msg))) r; PRet (Ok tt)).
Proof.
  unfold net_reply, StreamConsumer_handle_message. destruct (decode_payload _) as [pp|]; [|done]. cbn.
  destruct (Response_check_id _); [|done]. by destruct (StreamResponse_parse pp); intros [= <-].
Qed.

Lemma handle_fetch w msg b f :
  StreamWorkerCmd_fetch = Ok f -> encode_payload f = Some b -> payload (transport_message (local_msg msg)) = b ->
  StreamConsumer_handle_message own w msg = (do? _ <- handle_cmd own w CmdFetch; PRet (Ok tt)).
Proof.
  intros H1 H2 Hp. destruct (request_read (E := unit) _ _ _ _ H1 H2) as (x & Ex & Hd & _). apply stream_cmd_read in Ex.
  unfold StreamConsumer_handle_message. rewrite Hp, Hd. cbn [ok_or plift ptry pbind pp_protocol].
  unfold Response_check_id, StreamWorkerCmd_check_id. rewrite bool_decide_false, bool_decide_true by (cbn; set_solver || compute_done).
  unfold StreamWorkerCmd_parse. cbn [pp_data]. by rewrite Ex.
Qed.

Lemma ensures_done {A} (p : sprog (oresult A)) g I (Q : cview -> Prop) :
  ensures seff p g I (fun _ => Q) -> ensures seff (do? _ <- p; PRet (Ok tt)) g I (fun _ => Q).
Proof.
  intros H. apply ensures_try. eapply ensures_weaken; [done| |apply ensures_inv, H]. by intros [a|e|] g' [H1 H2].
Qed.

Definition put_self (w : StreamConsumer) (g : cview) : cview := mkCView w (cv_tried g) (cv_wire g) (cv_timers g).

Lemma init_handled w rr r g (I Q : cview -> Prop) :
  ours w -> let g1 := put_self (with_service_route rr w) g in
  I g -> I g1 -> Q g1 ->
  (forall b, wire_token b = Some WGet ->
     let g2 := mkCView (cv_self g1) (cv_tried g1) (cv_wire g1 ++ [b]) (cv_timers g1) in I g2 /\ Q g2) ->
  ensures seff (consumer_handle_response own w rr (RInit r)) g I (fun _ => Q).
Proof.
  intros (H1 & H2 & _ & _ & _ & H6) g1 Hg Hg1 HQ Hb. unfold consumer_handle_response.
  destruct (bool_decide (sc_receiver_name w = ir_stream_name r)) eqn:En; [apply bool_decide_eq_true in En|by split].
  cbn. split; [done|]. intros [] g' ->. rewrite <-En, H1, H2.
  destruct (IndexRequest_get name client) as [pp|e|] eqn:Er; [|by split..].
  apply (send_step (sc_index_route w)); [done| |done|done]. intros b Eb. apply Hb. by eapply get_token.
Qed.

Lemma index_handled w rr r g (I Q : cview -> Prop) :
  let g1 := put_self (with_index rr (default 0%Z (ix_index r)) w) g in
  I g -> I g1 -> Q g1 ->
  (forall o, fetch_payload o -> let g2 := mkCView (cv_self g1) (cv_tried g1) (cv_wire g1) (cv_timers g1 ++ [o]) in I g2 /\ Q g2) ->
  ensures seff (consumer_handle_response own w rr (RIndex r)) g I (fun _ => Q).
Proof.
  intros g1 Hg Hg1 HQ Ho. unfold consumer_handle_response. apply ensures_bind. cbn. split; [done|]. intros [] g' ->. fold (put_self (with_index rr (default 0%Z (ix_index r)) w) g). fold g1. split; [done|].
  apply ensures_bind, fetch_interval_step; [|done|].
  - intros o Hf. destruct (Ho o Hf). split; [done|]. by split.
  - intros [[]|e|]; by split.
Qed.

Lemma pulled_handled w rr r g (I Q : cview -> Prop) :
  ours w ->
  let idx := match list.last (pr_messages r) with Some m => u64_add (sm_index m) 1 | None => sc_idx w end in
  let w' := with_index (sc_index_route w) idx w in
  I g ->
  (forall n t, t.*1 = deliver (take n (pr_messages r)) -> I (and_tried t (put_self w' g))) ->
  (forall t wire timers, t.*1 = deliver (pr_messages r) ->
     (wire = cv_wire g \/ exists b, wire = cv_wire g ++ [b] /\ wire_token b = Some (WSave idx)) ->
     (timers = cv_timers g \/ exists o, timers = cv_timers g ++ [o] /\ fetch_payload o) ->
     let g2 := mkCView w' (cv_tried g ++ t) wire timers in I g2 /\ Q g2) ->
  ensures seff (consumer_handle_response own w rr (RPullResponse r)) g I (fun _ => Q).
Proof.
  intros Hw idx w' Hg HI HQ. unfold consumer_handle_response. fold idx. fold w'. cbn. split; [done|]. intros [] g' ->.
  assert (ours w') as Hw' by exact Hw. destruct Hw as (H1 & H2 & _ & _ & _ & H6).
  apply ensures_bind, pass_on_all_step; [done|exact HI|]. intros t Htr. specialize (HQ t). unfold and_tried.
  cbn [cv_self cv_tried cv_wire cv_timers]. apply ensures_try.
  assert (forall wire, (wire = cv_wire g \/ exists b, wire = cv_wire g ++ [b] /\ wire_token b = Some (WSave idx)) ->
    ensures seff (do r <- fetch_interval own (sc_interval w); match r with Panic => PPanic | _ => PRet (Ok tt) end)
      (mkCView w' (cv_tried g ++ t) wire (cv_timers g)) I (fun _ : oresult unit => Q)) as Hfetch.
  { intros wire Hwire. destruct (HQ wire (cv_timers g) Htr Hwire (or_introl eq_refl)) as [Hi Hq].
    apply ensures_bind, fetch_interval_step; [|done|intros [[]|e|]; by split].
    intros o Ho. destruct (HQ wire (cv_timers g ++ [o]) Htr Hwire (or_intror (ex_intro _ o (conj eq_refl Ho)))). split; [done|by split]. }
  destruct (HQ (cv_wire g) (cv_timers g) Htr (or_introl eq_refl) (or_introl eq_refl)) as [Hi Hq].
  destruct (negb _).
  - change (sc_receiver_name w') with (sc_receiver_name w). change (sc_client_id w') with (sc_client_id w). rewrite H1, H2.
    change (sc_idx w') with idx. destruct (IndexRequest_save name client idx) as [pp|e|] eqn:Es; [|by split..].
    apply send_step; [done| |done|].
    + intros b Hb. assert (wire_token b = Some (WSave idx)) as Hsv by (by eapply save_token).
      assert (cv_wire g ++ [b] = cv_wire g \/ exists b0, cv_wire g ++ [b] = cv_wire g ++ [b0] /\ wire_token b0 = Some (WSave idx)) as Hor by eauto.
      destruct (HQ _ (cv_timers g) Htr Hor (or_introl eq_refl)). split; [done|]. by apply Hfetch.
    + intros [[]|e|] Hne; [done|by split|done].
  - split; [done|]. by apply Hfetch; left.
Qed.

Lemma fetch_handled w g (I Q : cview -> Prop) :
  ours w -> let g1 := put_self (with_ids (Monotonic_next (sc_ids w)).2 w) g in
  I g -> I g1 -> Q g1 ->
  (forall b, wire_token b = Some (WPull (sc_idx w) 8) ->
     let g2 := mkCView (cv_self g1) (cv_tried g1) (cv_wire g1 ++ [b]) (cv_timers g1) in I g2 /\ Q g2) ->
  ensures seff (handle_cmd own w CmdFetch) g I (fun _ => Q).
Proof.
  intros (_ & _ & _ & _ & H5 & _) g1 Hg Hg1 HQ Hb. unfold handle_cmd, Monotonic_next in *. apply ensures_bind.
  split; [done|]. intros [] g' ->. split; [done|].
  destruct (PullRequest_new (sc_ids w) (sc_idx w) 8) as [pp|e|] eqn:Er; [|by split..]. cbn [plift ptry pbind].
  apply ensures_done, send_step; [done| |done|done]. intros b Eb. apply Hb. by eapply pull_token.
Qed.

(** ** The system

    The consumer, the services, and what is on the way between them: requests
    ([cv_wire]), replies ([y_net]) and delayed events.  The network may lose and
    reorder what it carries; requests reach the worker they are for.  A handler may
    be cut, after which the consumer is gone. *)

Context (error_payload : bytes -> option bytes).

Record sys := mkSys {
  y_view : cview;
  y_alive : bool;
  y_net : list bytes;
  y_streams : gmap bytes StreamState;
  y_index : gmap (bytes * bytes) Z
}.

Definition with_wire (l : list bytes) (v : cview) : cview := mkCView (cv_self v) (cv_tried v) l (cv_timers v).
Definition with_timers (l : list (option bytes)) (v : cview) : cview := mkCView (cv_self v) (cv_tried v) (cv_wire v) l.

Definition payload_of (msg : Routed unit) : bytes := payload (transport_message (local_msg msg)).

(** [Some] result: the handler has come to its end. *)
Definition ended {A} (r : option A) : bool := match r with Some _ => true | None => false end.

Inductive sys_step : sys -> sys -> Prop :=
| step_timer v net streams index l1 p l2 msg r g' :
    cv_timers v = l1 ++ Some p :: l2 -> payload_of msg = p ->
    execs seff (StreamConsumer_handle_message own (cv_self v) msg) (with_timers (l1 ++ l2) v) r g' ->
    sys_step (mkSys v true net streams index) (mkSys g' (ended r) net streams index)
| step_reply v streams index l1 p l2 msg r g' :
    payload_of msg = p -> return_route (transport_message (local_msg msg)) <> [rx] ->
    execs seff (StreamConsumer_handle_message own (cv_self v) msg) v r g' ->
    sys_step (mkSys v true (l1 ++ p :: l2) streams index) (mkSys g' (ended r) (l1 ++ l2) streams index)
| step_create v a net streams index w1 p w2 q generated reply streams' :
    cv_wire v = w1 ++ p :: w2 -> stream_decode_payload p = Some (QCreate q) ->
    Service_handle_message error_payload generated p streams = Ok (reply, streams') ->
    sys_step (mkSys v a net streams index) (mkSys (with_wire (w1 ++ w2) v) a (net ++ [reply]) streams' index)
| step_pull v a net streams index w1 p w2 q st reply st' :
    cv_wire v = w1 ++ p :: w2 -> stream_decode_payload p = Some (QPull q) -> streams !! name = Some st ->
    Stream_handle_message error_payload p st = Ok (reply, st') ->
    sys_step (mkSys v a net streams index) (mkSys (with_wire (w1 ++ w2) v) a (net ++ [reply]) (<[name := st']> streams) index)
| step_index v a net streams index w1 p w2 reply index' :
    cv_wire v = w1 ++ p :: w2 -> stream_decode_payload p = None ->
    Index_handle_message p index = Ok (reply, index') ->
    sys_step (mkSys v a net streams index) (mkSys (with_wire (w1 ++ w2) v) a (net ++ option_list reply) streams index')
| step_push v a net streams index p q st reply st' :
    stream_decode_payload p = Some (QPush q) -> streams !! name = Some st ->
    Stream_handle_message error_payload p st = Ok (reply, st') -> (ss_latest (se_storage st') + 1 < 2 ^ 64)%Z ->
    sys_step (mkSys v a net streams index) (mkSys v a net (<[name := st']> streams) index)
| step_lose_request v a net streams index w1 p w2 :
    cv_wire v = w1 ++ p :: w2 ->
    sys_step (mkSys v a net streams index) (mkSys (with_wire (w1 ++ w2) v) a net streams index)
| step_lose_reply v a l1 p l2 streams index :
    sys_step (mkSys v a (l1 ++ p :: l2) streams index) (mkSys v a (l1 ++ l2) streams index)
| step_lose_timer v a net streams index l1 o l2 :
    cv_timers v = l1 ++ o :: l2 ->
    sys_step (mkSys v a net streams index) (mkSys (with_timers (l1 ++ l2) v) a net streams index).

(** ** The invariant *)

(** The stream, and where the consumer began to read it. *)
Definition storage_of (streams : gmap bytes StreamState) : StreamStorage :=
  default init_partition (se_storage <$> streams !! name).

Context (i0 : option Z).

Definition start : Z := default 0%Z i0.

Definition in_stream (s : StreamStorage) (n : Z) : Prop := (start <= n)%Z /\ (n = start \/ n <= ss_latest s + 1)%Z.

Definition kept (s : StreamStorage) : Prop := stored s /\ numbered s /\ (ss_latest s + 1 < 2 ^ 64)%Z.

(** What comes before [n] has been tried. *)
Definition passed_to (s : StreamStorage) (out : list passed) (n : Z) : Prop :=
  in_stream s n /\ deliver (entries s start n) `prefix_of` out.

(** Whatever happens: what was tried is a part of the stream, and what is saved or about
    to be saved has been tried. *)
Record safe (v : cview) (s : StreamStorage) (index : gmap (bytes * bytes) Z) : Prop := {
  safe_kept : kept s;
  safe_out : exists n, in_stream s n /\ cv_out v `prefix_of` deliver (entries s start n);
  safe_wire : Forall (fun p => exists t, wire_token p = Some t /\ forall i, t = WSave i -> passed_to s (cv_out v) i) (cv_wire v);
  safe_index : index !! (client, name) = i0 \/ exists n, index !! (client, name) = Some n /\ passed_to s (cv_out v) n
}.

(** Before the index is known. *)
Definition starting (v : cview) (net : list bytes) (index : gmap (bytes * bytes) Z) : Prop :=
  cv_out v = [] /\ cv_timers v = [] /\ index !! (client, name) = i0 /\
  Forall (fun p => wire_token p = Some WCreate \/ wire_token p = Some WGet) (cv_wire v) /\
  Forall (fun p => exists r, net_reply p = Some r /\
                     match r with RInit _ => True | RIndex x => ix_index x = i0 | _ => False end) net.

(** Afterwards. *)
Definition running (v : cview) (net : list bytes) (s : StreamStorage) : Prop :=
  let idx := sc_idx (cv_self v) in
  in_stream s idx /\ cv_out v = deliver (entries s start idx) /\
  Forall (fun p => (exists i, wire_token p = Some (WSave i)) \/ wire_token p = Some (WPull idx 8)) (cv_wire v) /\
  Forall (fun p => exists r n, net_reply p = Some (RPullResponse r) /\ in_stream s n /\ (idx <= n)%Z /\
                     pr_messages r = entries s idx n) net /\
  Forall fetch_payload (cv_timers v).

(** The requests that are answered. *)
Definition weight (p : bytes) : nat := match wire_token p with Some (WSave _) => 0 | _ => 1 end.

Definition tokens (v : cview) (net : list bytes) : nat := sum_list_with weight (cv_wire v) + length net + length (cv_timers v).

Definition inv (y : sys) : Prop :=
  let s := storage_of (y_streams y) in
  safe (y_view y) s (y_index y) /\
  (y_alive y = true ->
   ours (cv_self (y_view y)) /\ tokens (y_view y) (y_net y) <= 1 /\
   (starting (y_view y) (y_net y) (y_index y) \/ running (y_view y) (y_net y) s)).

(** *** The consumer keeps it *)

Definition live (g : cview) (s : StreamStorage) (index : gmap (bytes * bytes) Z) : Prop :=
  ours (cv_self g) /\ tokens g [] <= 1 /\ (starting g [] index \/ running g [] s).

(** Nothing is on the way but indices to be saved. *)
Definition quiet (v : cview) : Prop := sum_list_with weight (cv_wire v) = 0 /\ cv_timers v = [].

(** [safe] does not look at the state of the consumer and at its delayed events, and a
    request that saves nothing does not matter. *)
Lemma safe_same v v' s index :
  cv_out v' = cv_out v -> cv_wire v' = cv_wire v -> safe v s index -> safe v' s index.
Proof. intros E1 E2 [H1 H2 H3 H4]. split; rewrite ?E1, ?E2; done. Qed.

Lemma safe_request v v' s index b t :
  cv_out v' = cv_out v -> cv_wire v' = cv_wire v ++ [b] -> wire_token b = Some t ->
  (forall i, t = WSave i -> passed_to s (cv_out v) i) -> safe v s index -> safe v' s index.
Proof.
  intros E1 E2 Ht Hs [H1 H2 H3 H4]. split; rewrite ?E1, ?E2; try done. apply Forall_app. split; [done|].
  apply Forall_singleton. eauto.
Qed.

Lemma weight_app l k : sum_list_with weight (l ++ k) = sum_list_with weight l + sum_list_with weight k.
Proof. apply sum_list_with_app. Qed.

Lemma weight_one b t : wire_token b = Some t -> (forall i, t <> WSave i) -> sum_list_with weight [b] = 1.
Proof. intros E Hn. cbn. unfold weight. rewrite E. destruct t; try done. by destruct (Hn v). Qed.

Lemma fetch_live v s index msg p :
  quiet v -> safe v s index -> ours (cv_self v) -> running v [] s ->
  fetch_payload (Some p) -> payload_of msg = p ->
  ensures seff (StreamConsumer_handle_message own (cv_self v) msg) v (fun g => safe g s index)
    (fun _ g => safe g s index /\ live g s index).
Proof.
  intros [Hq Ht] Hsafe Hours (Hin & Hout & Hwire & _ & _) (f & Hf & Eb) Hp.
  rewrite (handle_fetch _ _ _ _ Hf (eq_sym Eb) Hp). apply ensures_done.
  apply (fetch_handled (cv_self v) v); [done|done|by apply (safe_same v)| |].
  - split; [by apply (safe_same v)|]. split; [done|]. unfold tokens. cbn. split; [rewrite Hq, Ht; cbn; lia|].
    right. split_and!; try done. cbn. by rewrite Ht.
  - intros b Eb'. assert (safe (mkCView (with_ids (Monotonic_next (sc_ids (cv_self v))).2 (cv_self v)) (cv_tried v)
      (cv_wire v ++ [b]) (cv_timers v)) s index) as Hs by (by eapply (safe_request v)).
    split; [exact Hs|]. split; [exact Hs|]. split; [done|]. unfold tokens. cbn [put_self cv_wire cv_timers length cv_self cv_tried].
    rewrite weight_app, Hq, Ht, (weight_one _ _ Eb') by done. cbn. split; [lia|].
    right. split_and!; cbn; rewrite ?Ht; try done. apply Forall_app. split; [done|]. apply Forall_singleton. by right.
Qed.

(** In the beginning there is nothing to be saved. *)
Lemma starting_quiet v net index : quiet v -> starting v net index -> cv_wire v = [].
Proof.
  intros [Hq _] (_ & _ & _ & Hw & _). destruct (cv_wire v) as [|p l]; [done|]. cbn in Hq. apply list.Forall_cons in Hw as [Hp _].
  unfold weight in Hq. destruct Hp as [E|E]; rewrite E in Hq; lia.
Qed.

Lemma init_live v s index rr r :
  quiet v -> safe v s index -> ours (cv_self v) -> rr <> [rx] -> starting v [] index ->
  ensures seff (consumer_handle_response own (cv_self v) rr (RInit r)) v (fun g => safe g s index)
    (fun _ g => safe g s index /\ live g s index).
Proof.
  intros Hquiet Hsafe Hours Hrr Hst. pose proof (starting_quiet _ _ _ Hquiet Hst) as Hw0. destruct Hquiet as [Hq Ht].
  destruct Hst as (Ho & _ & Hi & Hw & _).
  assert (ours (with_service_route rr (cv_self v))) as Hours' by (destruct Hours as (H1 & H2 & H3 & H4 & H5 & H6); by split_and!).
  apply init_handled; [done|done|by apply (safe_same v)| |].
  - split; [by apply (safe_same v)|]. split; [done|]. unfold tokens. cbn. split; [rewrite Hq, Ht; cbn; lia|]. left. by split_and!.
  - intros b Eb. assert (safe (mkCView (with_service_route rr (cv_self v)) (cv_tried v) (cv_wire v ++ [b]) (cv_timers v)) s index) as Hs
      by (by eapply (safe_request v)).
    split; [exact Hs|]. split; [exact Hs|]. split; [done|]. unfold tokens. cbn [put_self cv_wire cv_timers length cv_self cv_tried].
    rewrite weight_app, Hq, Ht, (weight_one _ _ Eb) by done. cbn. split; [lia|]. left. split_and!; cbn; try done.
    rewrite Hw0. apply Forall_singleton. by right.
Qed.

Lemma index_live v s index rr r :
  quiet v -> safe v s index -> ours (cv_self v) -> rr <> [rx] -> starting v [] index -> ix_index r = i0 ->
  ensures seff (consumer_handle_response own (cv_self v) rr (RIndex r)) v (fun g => safe g s index)
    (fun _ g => safe g s index /\ live g s index).
Proof.
  intros Hquiet Hsafe Hours Hrr Hst Er. pose proof (starting_quiet _ _ _ Hquiet Hst) as Hw0. destruct Hquiet as [Hq Ht].
  destruct Hst as (Ho & _ & Hi & _ & _).
  assert (ours (with_index rr start (cv_self v))) as Hours' by (destruct Hours as (H1 & H2 & H3 & H4 & H5 & H6); by split_and!).
  assert (in_stream s start) as Hin by (split; [lia|by left]).
  assert (forall l, Forall fetch_payload l -> running (mkCView (with_index rr start (cv_self v)) (cv_tried v) (cv_wire v) l) [] s) as Hrun.
  { intros l Hl. split_and!; cbn; try done; [fold (cv_out v); by rewrite Ho, entries_nil|by rewrite Hw0]. }
  apply index_handled; rewrite ?Er; fold start.
  - done.
  - by apply (safe_same v).
  - split; [by apply (safe_same v)|]. split; [done|]. unfold tokens. cbn. split; [rewrite Hq, Ht; cbn; lia|].
    right. apply Hrun. by rewrite Ht.
  - intros o Hof. assert (safe (mkCView (with_index rr start (cv_self v)) (cv_tried v) (cv_wire v) (cv_timers v ++ [o])) s index) as Hs
      by (by apply (safe_same v)).
    split; [exact Hs|]. split; [exact Hs|]. split; [done|]. unfold tokens. cbn. split; [rewrite Hq, Ht; cbn; lia|].
    right. apply Hrun. rewrite Ht. by apply Forall_singleton.
Qed.

Lemma passed_longer s out out' i : out `prefix_of` out' -> passed_to s out i -> passed_to s out' i.
Proof. intros Ho [H1 H2]. split; [done|]. by etrans. Qed.

Lemma safe_longer v v' s index n :
  cv_wire v' = cv_wire v -> cv_out v `prefix_of` cv_out v' -> in_stream s n -> cv_out v' `prefix_of` deliver (entries s start n) ->
  safe v s index -> safe v' s index.
Proof.
  intros Ew Ho Hn Hd [H1 H2 H3 H4]. split; [done|by exists n| |].
  - rewrite Ew. eapply list.Forall_impl; [exact H3|]. intros p (t & Et & Hp). exists t. split; [done|]. intros i Hi.
    by eapply passed_longer; [|apply Hp].
  - destruct H4 as [|(k & Hk & Hp)]; [by left|]. right. exists k. split; [done|]. by eapply passed_longer.
Qed.

Hypothesis start_positive : (0 <= start)%Z.

(** The index after the messages up to [n]. *)
Lemma next_index s idx n :
  kept s -> in_stream s idx -> in_stream s n -> (idx <= n)%Z ->
  match list.last (entries s idx n) with Some m => u64_add (sm_index m) 1 | None => idx end = n.
Proof.
  intros (Hst & Hnum & Hfit) [Hi _] [Hn1 Hn2] Hle. destruct (decide (idx = n)) as [->|Hne]; [by rewrite entries_nil|].
  destruct (entries_last s idx n) as [[-> _]|(_ & m & -> & ->)]; try done; try lia.
  unfold u64_add. rewrite Z.mod_small; lia.
Qed.

Lemma pulled_live v s index rr r n :
  quiet v -> safe v s index -> ours (cv_self v) -> running v [] s ->
  in_stream s n -> (sc_idx (cv_self v) <= n)%Z -> pr_messages r = entries s (sc_idx (cv_self v)) n ->
  ensures seff (consumer_handle_response own (cv_self v) rr (RPullResponse r)) v (fun g => safe g s index)
    (fun _ g => safe g s index /\ live g s index).
Proof.
  intros [Hq Ht] Hsafe Hours (Hin & Hout & Hwire & _ & _) Hn Hle Hms.
  assert (kept s) as Hkept by (by destruct Hsafe).
  set (w' := with_index (sc_index_route (cv_self v)) n (cv_self v)).
  assert (ours w') as Hours' by exact Hours.
  assert (cv_out v ++ deliver (pr_messages r) = deliver (entries s start n)) as Hall.
  { rewrite Hout, Hms, <-deliver_app, <-entries_app; [done|]. split; [apply Hin|done]. }
  assert (forall t wire timers, t.*1 = deliver (pr_messages r) ->
    cv_out (mkCView w' (cv_tried v ++ t) wire timers) = deliver (entries s start n)) as Hall'.
  { intros t wire timers Htr. rewrite <-Hall, <-Htr. apply fmap_app. }
  assert (forall t, t.*1 = deliver (pr_messages r) ->
    safe (mkCView w' (cv_tried v ++ t) (cv_wire v) []) s index) as Hend.
  { intros t Htr. apply (safe_longer v _ s index n); try done; [|by rewrite Hall'].
    rewrite Hall', <-Hall by done. by apply prefix_app_r. }
  assert (match list.last (pr_messages r) with Some m => u64_add (sm_index m) 1 | None => sc_idx (cv_self v) end = n) as Hnext
    by (rewrite Hms; by apply next_index).
  apply pulled_handled; [done|done|rewrite Hnext; fold w'..].
  - intros k t Htr. apply (safe_longer v _ s index n); try done; rewrite and_tried_out; [by apply prefix_app_r|].
    rewrite <-Hall, Htr. exists (deliver (drop k (pr_messages r))). by rewrite <-app_assoc, <-deliver_app, take_drop.
  - intros t wire timers Htr Hw Htm. specialize (Hend t Htr).
    assert (safe (mkCView w' (cv_tried v ++ t) wire timers) s index) as Hs.
    { destruct Hw as [->|(b & -> & Eb)]; [by eapply safe_same; [..|exact Hend]|].
      eapply safe_request; [..|exact Hend]; [done|done|exact Eb|]. intros i [= <-]. split; [done|]. by rewrite Hall'. }
    split; [exact Hs|]. split; [exact Hs|]. split; [done|]. unfold tokens. cbn [cv_wire cv_timers cv_self cv_tried length].
    assert (sum_list_with weight wire = 0) as ->.
    { destruct Hw as [->|(b & -> & Eb)]; [done|]. rewrite weight_app, Hq. cbn. unfold weight. by rewrite Eb. }
    split; [destruct Htm as [->|(o & -> & _)]; rewrite Ht; cbn; lia|]. right. split_and!; cbn.
    + apply Hn.
    + by apply (Hall' t wire timers).
    + assert (Forall (fun p => exists i, wire_token p = Some (WSave i)) (cv_wire v)) as Hsv.
      { clear -Hq Hwire. induction (cv_wire v) as [|p l IH]; [constructor|]. cbn in Hq. apply list.Forall_cons in Hwire as [Hp Hl].
        constructor; [|apply IH; [lia|done]]. destruct Hp as [|E]; [done|]. unfold weight in Hq. rewrite E in Hq. lia. }
      destruct Hw as [->|(b & -> & Eb)]; [|apply Forall_app; split; [|apply Forall_singleton; eauto]];
        (eapply list.Forall_impl; [exact Hsv|]; by left).
    + constructor.
    + destruct Htm as [->|(o & -> & Ho)]; rewrite Ht; [constructor|by apply Forall_singleton].
Qed.

(** *** The services keep it *)

Lemma in_stream_grows s s' n : (ss_latest s <= ss_latest s')%Z -> in_stream s n -> in_stream s' n.
Proof. intros Hl [H1 H2]. split; [done|]. destruct H2 as [|H2]; [by left|right; lia]. Qed.

Lemma entries_grow d s a n : kept s -> in_stream s n -> (start <= a <= n)%Z -> entries (save d s).2 a n = entries s a n.
Proof.
  intros (Hs & _ & _) [H1 H2] Ha. destruct H2 as [->|H2]; [|by apply entries_save].
  assert (a = start) as -> by lia. by rewrite !entries_nil.
Qed.

Lemma passed_grows d s out n : kept s -> passed_to s out n -> passed_to (save d s).2 out n.
Proof.
  intros Hk [Hn Hp]. split; [eapply in_stream_grows; [|done]; cbn; lia|]. rewrite entries_grow; try done. destruct Hn. lia.
Qed.

Lemma stream_safe_grows d v s index : (ss_latest s + 2 < 2 ^ 64)%Z -> safe v s index -> safe v (save d s).2 index.
Proof.
  intros Hl [Hk (n & Hn & Ho) H3 H4]. split.
  - destruct Hk as (K1 & K2 & K3). destruct (save_stored d s K1 K2). split_and!; try done. cbn. lia.
  - exists n. split; [eapply in_stream_grows; [|done]; cbn; lia|]. rewrite entries_grow; try done. destruct Hn. lia.
  - eapply list.Forall_impl; [exact H3|]. intros p (t & Et & Hp). exists t. split; [done|]. intros i Hi. by apply passed_grows, Hp.
  - destruct H4 as [|(k & Ek & Hp)]; [by left|]. right. exists k. split; [done|]. by apply passed_grows.
Qed.

Lemma running_grows d v net s : kept s -> running v net s -> running v net (save d s).2.
Proof.
  intros Hk (Hin & Ho & Hw & Hnet & Ht). destruct Hin as [Hi1 Hi2].
  split_and!; try done; [eapply in_stream_grows; [|done]; cbn; lia| |].
  - by rewrite entries_grow by (done || lia).
  - eapply list.Forall_impl; [exact Hnet|]. intros p (r & n & Er & Hn & Hle & Hms). exists r, n. split_and!; try done.
    + eapply in_stream_grows; [|done]. cbn. lia.
    + rewrite Hms. symmetry. apply entries_grow; try done.
Qed.

Lemma reply_read {E} protocol d (b : bytes) :
  encoded (E := E) protocol d = Ok b -> exists x, d = Some x /\ decode_payload b = Some (mkProtocolPayload protocol x).
Proof.
  unfold encoded. destruct d as [x|]; [|done]. destruct (encode_payload _) eqn:Eb; [|done]. intros [= <-].
  exists x. split; [done|]. by apply payload_read.
Qed.

Lemma init_reply b : reply_init name = Ok b -> net_reply b = Some (RInit (mkInitResponse name)).
Proof.
  intros (x & Ex & Hd)%reply_read. apply init_read in Ex. unfold net_reply. rewrite Hd. cbn [mbind option_bind pp_protocol].
  unfold Response_check_id. rewrite bool_decide_true by (cbn; set_solver). unfold StreamResponse_parse. cbn [pp_protocol pp_data].
  rewrite bool_decide_true by done. by rewrite Ex.
Qed.

Lemma pulled_reply {E} r b :
  encoded (E := E) (str "stream_pull") (encode_pulled r) = Ok b -> net_reply b = Some (RPullResponse r).
Proof.
  intros (x & Ex & Hd)%reply_read. apply pulled_read in Ex. unfold net_reply. rewrite Hd. cbn [mbind option_bind pp_protocol].
  unfold Response_check_id. rewrite bool_decide_true by (cbn; set_solver). unfold StreamResponse_parse. cbn [pp_protocol pp_data].
  by rewrite !bool_decide_false, bool_decide_true, Ex by done.
Qed.

Lemma index_reply {E} r b :
  encoded (E := E) (str "stream_index") (encode_indexed r) = Ok b -> net_reply b = Some (RIndex r).
Proof.
  intros (x & Ex & Hd)%reply_read. apply indexed_read in Ex. unfold net_reply. rewrite Hd. cbn [mbind option_bind pp_protocol].
  unfold Response_check_id. rewrite bool_decide_true by (cbn; set_solver). unfold StreamResponse_parse. cbn [pp_protocol pp_data].
  by rewrite !bool_decide_false, bool_decide_true, Ex by done.
Qed.

(** A request leaves the wire. *)
Lemma safe_taken v s index w1 p w2 : cv_wire v = w1 ++ p :: w2 -> safe v s index -> safe (with_wire (w1 ++ w2) v) s index.
Proof.
  intros Ew [H1 H2 H3 H4]. split; try done. cbn. rewrite Ew in H3. apply Forall_app in H3 as [? [_ ?]%list.Forall_cons].
  by apply Forall_app.
Qed.

Lemma tokens_taken v net w1 p w2 : cv_wire v = w1 ++ p :: w2 -> tokens v net = weight p + tokens (with_wire (w1 ++ w2) v) net.
Proof. intros Ew. unfold tokens. rewrite Ew. cbn. rewrite !weight_app. cbn. lia. Qed.

Lemma starting_taken v net index w1 p w2 :
  cv_wire v = w1 ++ p :: w2 -> starting v net index -> starting (with_wire (w1 ++ w2) v) net index.
Proof.
  intros Ew (H1 & H2 & H3 & H4 & H5). split_and!; try done. cbn. rewrite Ew in H4. apply Forall_app in H4 as [? [_ ?]%list.Forall_cons].
  by apply Forall_app.
Qed.

Lemma running_taken v net s w1 p w2 :
  cv_wire v = w1 ++ p :: w2 -> running v net s -> running (with_wire (w1 ++ w2) v) net s.
Proof.
  intros Ew (H1 & H2 & H3 & H4 & H5). split_and!; try done. cbn. rewrite Ew in H3. apply Forall_app in H3 as [? [_ ?]%list.Forall_cons].
  by apply Forall_app.
Qed.

(** *** Every step keeps it *)

Hypothesis named_stream : name <> [].

Lemma consumer_start {A} v (prog : sprog (oresult A)) streams index r g' :
  ensures seff prog v (fun g => safe g (storage_of streams) index)
    (fun _ g => safe g (storage_of streams) index /\ live g (storage_of streams) index) ->
  execs seff prog v r g' -> inv (mkSys g' (ended r) [] streams index).
Proof.
  intros He Hx. destruct (ensures_sound _ _ _ _ _ _ _ Hx He) as [HI HQ]. split; cbn [y_view y_streams y_index y_alive y_net]; [done|].
  destruct r as [a|]; [intros _|done]. by destruct (HQ a eq_refl).
Qed.

Lemma timer_inv v net streams index l1 p l2 msg r g' :
  cv_timers v = l1 ++ Some p :: l2 -> payload_of msg = p ->
  execs seff (StreamConsumer_handle_message own (cv_self v) msg) (with_timers (l1 ++ l2) v) r g' ->
  inv (mkSys v true net streams index) -> inv (mkSys g' (ended r) net streams index).
Proof.
  intros Et Hp Hx [Hsafe Hl]. destruct (Hl eq_refl) as (Hours & Htok & Hph). clear Hl.
  cbn [y_view y_streams y_index y_alive y_net] in *. unfold tokens in Htok. rewrite Et, length_app in Htok. cbn in Htok.
  assert (l1 = [] /\ l2 = [] /\ net = [] /\ sum_list_with weight (cv_wire v) = 0) as (-> & -> & -> & Hq)
    by (destruct l1, l2, net; cbn in Htok; split_and!; done || lia).
  destruct Hph as [(_ & E & _)|Hrun]; [by rewrite Et in E|]. destruct Hrun as (R1 & R2 & R3 & R4 & R5).
  eapply consumer_start; [|exact Hx]. apply (fetch_live (with_timers [] v) _ _ _ p); try done.
  - by apply (safe_same v).
  - rewrite Et in R5. by apply list.Forall_cons in R5 as [? _].
Qed.

Lemma reply_inv v streams index l1 p l2 msg r g' :
  payload_of msg = p -> return_route (transport_message (local_msg msg)) <> [rx] ->
  execs seff (StreamConsumer_handle_message own (cv_self v) msg) v r g' ->
  inv (mkSys v true (l1 ++ p :: l2) streams index) -> inv (mkSys g' (ended r) (l1 ++ l2) streams index).
Proof.
  intros Hp Hrr Hx [Hsafe Hl]. destruct (Hl eq_refl) as (Hours & Htok & Hph). clear Hl.
  cbn [y_view y_streams y_index y_alive y_net] in *. unfold tokens in Htok. rewrite length_app in Htok. cbn in Htok.
  assert (l1 = [] /\ l2 = [] /\ cv_timers v = [] /\ sum_list_with weight (cv_wire v) = 0) as (-> & -> & Ht & Hq)
    by (destruct l1, l2, (cv_timers v); cbn in Htok; split_and!; done || lia).
  eapply consumer_start; [|exact Hx]. cbn [app] in Hph.
  destruct Hph as [(S1 & S2 & S3 & S4 & S5)|(R1 & R2 & R3 & R4 & R5)].
  - apply list.Forall_cons in S5 as [(rep & Er & Hrep) _]. rewrite <-Hp in Er. rewrite (handle_reply _ _ _ Er). apply ensures_done.
    assert (starting v [] index) as Hst by (by refine (conj S1 (conj S2 (conj S3 (conj S4 _)))); constructor).
    destruct rep as [x|x|x|x]; [by apply init_live|done|done|by apply index_live].
  - apply list.Forall_cons in R4 as [(x & n & Er & Hn & Hle & Hms) _]. rewrite <-Hp in Er. rewrite (handle_reply _ _ _ Er).
    apply ensures_done. by apply (pulled_live v _ _ _ _ n).
Qed.

Lemma create_inv v a net streams index w1 p w2 q generated reply streams' :
  cv_wire v = w1 ++ p :: w2 -> stream_decode_payload p = Some (QCreate q) ->
  Service_handle_message error_payload generated p streams = Ok (reply, streams') ->
  inv (mkSys v a net streams index) -> inv (mkSys (with_wire (w1 ++ w2) v) a (net ++ [reply]) streams' index).
Proof.
  intros Ew Ep Hs [Hsafe Hl]. cbn [y_view y_streams y_index y_alive y_net] in *.
  assert (cs_stream_name q = Some name /\ wire_token p = Some WCreate) as [Eq Etok].
  { destruct Hsafe as [_ _ Hw _]. rewrite Ew in Hw. apply Forall_app in Hw as [_ [(t & Et & _) _]%list.Forall_cons].
    unfold wire_token in *. rewrite Ep in *. case_bool_decide; done. }
  unfold Service_handle_message in Hs. rewrite Ep, Eq in Hs. cbn [default from_option id] in Hs. rewrite bool_decide_false in Hs by done.
  inv_ok Hs. assert (reply = a0 /\ storage_of streams' = storage_of streams) as [-> Est].
  { destruct (streams !! name) eqn:Elk; injection Hs as -> <-; split; try done. unfold storage_of. by rewrite lookup_insert_eq, Elk. }
  split; cbn [y_view y_streams y_index y_alive y_net]; rewrite Est; [by eapply safe_taken|].
  intros Ha. destruct (Hl Ha) as (Hours & Htok & Hph). rewrite (tokens_taken _ _ _ _ _ Ew) in Htok.
  split; [done|]. unfold weight in Htok. rewrite Etok in Htok. unfold tokens in *. rewrite length_app. cbn [length].
  split; [lia|]. destruct Hph as [Hst|(_ & _ & Hw & _)].
  - left. destruct (starting_taken _ _ _ _ _ _ Ew Hst) as (S1 & S2 & S3 & S4 & S5). split_and!; try done.
    apply Forall_app. split; [done|]. apply Forall_singleton. eexists. split; [by apply init_reply|done].
  - rewrite Ew in Hw. apply Forall_app in Hw as [_ [[[i E1]|E1] _]%list.Forall_cons]; by rewrite Etok in E1.
Qed.

Lemma storage_insert st streams : storage_of (<[name := st]> streams) = se_storage st.
Proof. unfold storage_of. by rewrite lookup_insert_eq. Qed.

Lemma storage_at st streams : streams !! name = Some st -> storage_of streams = se_storage st.
Proof. unfold storage_of. by intros ->. Qed.

Lemma pull_inv v a net streams index w1 p w2 q st reply st' :
  cv_wire v = w1 ++ p :: w2 -> stream_decode_payload p = Some (QPull q) -> streams !! name = Some st ->
  Stream_handle_message error_payload p st = Ok (reply, st') ->
  inv (mkSys v a net streams index) ->
  inv (mkSys (with_wire (w1 ++ w2) v) a (net ++ [reply]) (<[name := st']> streams) index).
Proof.
  intros Ew Ep Est Hs [Hsafe Hl]. cbn [y_view y_streams y_index y_alive y_net] in *.
  assert (wire_token p = Some (WPull (pl_index q) (pl_limit q))) as Etok by (unfold wire_token; by rewrite Ep).
  unfold Stream_handle_message in Hs. rewrite Ep in Hs. inv_ok Hs. injection Hs as <- <-. apply pulled_reply in E.
  rewrite (storage_at st) in * by done.
  split; cbn [y_view y_streams y_index y_alive y_net]; rewrite storage_insert; [by eapply safe_taken|].
  intros Ha. destruct (Hl Ha) as (Hours & Htok & Hph). rewrite (tokens_taken _ _ _ _ _ Ew) in Htok.
  split; [done|]. unfold weight in Htok. rewrite Etok in Htok. unfold tokens in *. rewrite length_app. cbn [length].
  split; [lia|]. right. destruct Hph as [(_ & _ & _ & Hw & _)|Hrun].
  { rewrite Ew in Hw. apply Forall_app in Hw as [_ [[E1|E1] _]%list.Forall_cons]; by rewrite Etok in E1. }
  destruct (running_taken _ _ _ _ _ _ Ew Hrun) as (R1 & R2 & R3 & R4 & R5).
  destruct Hrun as (_ & _ & Hw & _). rewrite Ew in Hw. apply Forall_app in Hw as [_ [[[i E1]|E1] _]%list.Forall_cons];
    rewrite Etok in E1; [done|]. injection E1 as E1 E2.
  refine (conj R1 (conj R2 (conj R3 (conj _ R5)))). apply Forall_app. split; [done|]. apply Forall_singleton.
  destruct Hsafe as [(K1 & _ & _) _ _ _]. cbn in R1. destruct R1 as [Ri1 Ri2]. eexists _, _. split; [exact E|]. cbn [pr_messages].
  rewrite fetch_entries, E1, E2 by (done || lia). cbn. split; [|split; [|done]]; [|lia].
  split; [lia|]. destruct (decide (Z.max (sc_idx (cv_self v)) (Z.min (sc_idx (cv_self v) + 8) (ss_latest (se_storage st) + 1)) = sc_idx (cv_self v)))
    as [->|]; [done|right; lia].
Qed.

Lemma saved_index v s index i :
  safe v s index -> passed_to s (cv_out v) i -> safe v s (save_index client name i index).
Proof.
  intros [H1 H2 H3 H4] Hi. split; try done. right. unfold save_index. rewrite lookup_insert_eq.
  assert (forall n, passed_to s (cv_out v) n -> exists m, Some (Z.max n i) = Some m /\ passed_to s (cv_out v) m) as Hmax.
  { intros n Hn. exists (Z.max n i). split; [done|]. by destruct (Z.max_spec n i) as [[_ ->]|[_ ->]]. }
  destruct H4 as [E|(n & E & Hn)]; rewrite E; [|by apply Hmax].
  destruct i0 as [x|] eqn:E0; [|by exists i]. apply Hmax. assert (x = start) as -> by (unfold start; by rewrite E0).
  split; [split; [lia|by left]|]. rewrite entries_nil. apply prefix_nil.
Qed.

Lemma index_inv v a net streams index w1 p w2 reply index' :
  cv_wire v = w1 ++ p :: w2 -> stream_decode_payload p = None ->
  Index_handle_message p index = Ok (reply, index') ->
  inv (mkSys v a net streams index) -> inv (mkSys (with_wire (w1 ++ w2) v) a (net ++ option_list reply) streams index').
Proof.
  intros Ew Ep Hi [Hsafe Hl]. cbn [y_view y_streams y_index y_alive y_net] in *.
  assert (exists t, wire_token p = Some t /\ forall i, t = WSave i -> passed_to (storage_of streams) (cv_out v) i) as (t & Et & Ht).
  { destruct Hsafe as [_ _ Hw _]. rewrite Ew in Hw. by apply Forall_app in Hw as [_ [? _]%list.Forall_cons]. }
  pose proof (safe_taken _ _ _ _ _ _ Ew Hsafe) as Hsafe'.
  unfold wire_token in Et. rewrite Ep in Et. unfold Index_handle_message in Hi.
  destruct (index_decode_payload p) as [[c n|c n i]|] eqn:Ei; [| |done]; case_bool_decide as Hcn; try done;
    destruct Hcn as [-> ->]; injection Et as <-.
  - inv_ok Hi. injection Hi as <- <-. apply index_reply in E. change (option_list (Some a0)) with [a0].
    assert (wire_token p = Some WGet) as Etok by (unfold wire_token; rewrite Ep, Ei; by rewrite bool_decide_true).
    split; cbn [y_view y_streams y_index y_alive y_net]; [done|].
    intros Ha. destruct (Hl Ha) as (Hours & Htok & Hph). rewrite (tokens_taken _ _ _ _ _ Ew) in Htok.
    split; [done|]. unfold weight in Htok. rewrite Etok in Htok. unfold tokens in *. rewrite length_app. cbn [length].
    split; [lia|]. destruct Hph as [Hst|(_ & _ & Hw & _)].
    + left. destruct (starting_taken _ _ _ _ _ _ Ew Hst) as (S1 & S2 & S3 & S4 & S5).
      refine (conj S1 (conj S2 (conj S3 (conj S4 _)))). apply Forall_app. split; [done|]. apply Forall_singleton.
      eexists. split; [exact E|]. done.
    + rewrite Ew in Hw. apply Forall_app in Hw as [_ [[[i E1]|E1] _]%list.Forall_cons]; by rewrite Etok in E1.
  - injection Hi as <- <-. rewrite app_nil_r.
    assert (wire_token p = Some (WSave i)) as Etok by (unfold wire_token; rewrite Ep, Ei; by rewrite bool_decide_true).
    split; cbn [y_view y_streams y_index y_alive y_net]; [by apply saved_index; [|apply Ht]|].
    intros Ha. destruct (Hl Ha) as (Hours & Htok & Hph). rewrite (tokens_taken _ _ _ _ _ Ew) in Htok.
    split; [done|]. split; [lia|]. destruct Hph as [(_ & _ & _ & Hw & _)|Hrun]; [|right; by eapply running_taken].
    rewrite Ew in Hw. apply Forall_app in Hw as [_ [[E1|E1] _]%list.Forall_cons]; by rewrite Etok in E1.
Qed.

Lemma push_inv v a net streams index p q st reply st' :
  stream_decode_payload p = Some (QPush q) -> streams !! name = Some st ->
  Stream_handle_message error_payload p st = Ok (reply, st') -> (ss_latest (se_storage st') + 1 < 2 ^ 64)%Z ->
  inv (mkSys v a net streams index) -> inv (mkSys v a net (<[name := st']> streams) index).
Proof.
  intros Ep Est Hs Hfit [Hsafe Hl]. cbn [y_view y_streams y_index y_alive y_net] in *.
  rewrite (storage_at st) in * by done. unfold Stream_handle_message in Hs. rewrite Ep in Hs.
  destruct (save (pu_data q) (se_storage st)) as [i s'] eqn:Esv. inv_ok Hs. injection Hs as _ <-. cbn [se_storage] in Hfit.
  assert (s' = (save (pu_data q) (se_storage st)).2) as -> by (by rewrite Esv).
  split; cbn [y_view y_streams y_index y_alive y_net]; rewrite storage_insert; cbn [se_storage].
  - apply stream_safe_grows; [cbn in Hfit; lia|done].
  - intros Ha. destruct (Hl Ha) as (Hours & Htok & Hph). split; [done|]. split; [done|].
    destruct Hph as [|Hrun]; [by left|right]. apply running_grows; [by destruct Hsafe|done].
Qed.

Lemma step_inv y y' : sys_step y y' -> inv y -> inv y'.
Proof.
  destruct 1; intros Hi.
  - by eapply timer_inv.
  - by eapply reply_inv.
  - by eapply create_inv.
  - by eapply pull_inv.
  - by eapply index_inv.
  - by eapply push_inv.
  - destruct Hi as [Hsafe Hl]. cbn [y_view y_streams y_index y_alive y_net] in *. split; [by eapply safe_taken|].
    intros Ha. destruct (Hl Ha) as (Hours & Htok & Hph). split; [done|].
    rewrite (tokens_taken _ _ _ _ _ H) in Htok. split; [cbn [y_view y_net]; lia|].
    destruct Hph; [left; by eapply starting_taken|right; by eapply running_taken].
  - destruct Hi as [Hsafe Hl]. cbn [y_view y_streams y_index y_alive y_net] in *. split; [done|].
    intros Ha. destruct (Hl Ha) as (Hours & Htok & Hph). split; [done|]. cbn [y_view y_net y_streams y_index]. unfold tokens in *.
    rewrite length_app in Htok |- *. cbn in Htok. split; [lia|]. destruct Hph as [(S1 & S2 & S3 & S4 & S5)|(R1 & R2 & R3 & R4 & R5)]; [left|right].
    + refine (conj S1 (conj S2 (conj S3 (conj S4 _)))). apply Forall_app in S5 as [? [_ ?]%list.Forall_cons]. by apply Forall_app.
    + refine (conj R1 (conj R2 (conj R3 (conj _ R5)))). apply Forall_app in R4 as [? [_ ?]%list.Forall_cons]. by apply Forall_app.
  - destruct Hi as [Hsafe Hl]. cbn [y_view y_streams y_index y_alive y_net] in *. split; [by apply (safe_same v)|].
    intros Ha. destruct (Hl Ha) as (Hours & Htok & Hph). split; [done|]. unfold tokens in *. cbn. rewrite H, length_app in Htok.
    rewrite length_app. cbn in Htok. split; [lia|].
    destruct Hph as [(_ & S2 & _)|(R1 & R2 & R3 & R4 & R5)]; [rewrite H in S2; by destruct l1|right].
    refine (conj R1 (conj R2 (conj R3 (conj R4 _)))). cbn. rewrite H in R5. apply Forall_app in R5 as [? [_ ?]%list.Forall_cons].
    by apply Forall_app.
Qed.

Lemma run_inv y y' : rtc sys_step y y' -> inv y -> inv y'.
Proof. induction 1 as [|y1 y2 y3 Hs _ IH]; [done|]. intros Hi. by eapply IH, step_inv. Qed.

(** A consumer that has been started. *)
Definition started (streams : gmap bytes StreamState) (index : gmap (bytes * bytes) Z) (y : sys) : Prop :=
  exists c r g, ours c /\ execs seff (StreamConsumer_initialize own c) (mkCView c [] [] []) r g /\
    y = mkSys g (ended r) [] streams index.

Lemma started_inv streams index y :
  kept (storage_of streams) -> index !! (client, name) = i0 -> started streams index y -> inv y.
Proof.
  intros Hk Hi (c & r & g & Hc & Hx & ->).
  assert (in_stream (storage_of streams) start) as Hin by (split; [lia|by left]).
  assert (safe (mkCView c [] [] []) (storage_of streams) index) as Hs.
  { split; [done| |constructor|by left]. exists start. split; [done|apply prefix_nil]. }
  assert (live (mkCView c [] [] []) (storage_of streams) index) as Hl
    by (split; [done|]; split; [cbn; lia|]; left; split_and!; done || constructor).
  eapply (consumer_start (mkCView c [] [] [])); [|exact Hx]. unfold StreamConsumer_initialize.
  assert (sc_receiver_name c = name) as -> by apply Hc.
  destruct (CreateStreamRequest_new (Some name)) as [pp|e|] eqn:Ec; [|by split..]. cbn [plift ptry pbind].
  apply ensures_done, send_step; [apply Hc| |done|done]. intros b Eb. pose proof (create_token _ _ Ec Eb) as Et.
  assert (safe (mkCView c [] [b] []) (storage_of streams) index) as Hs'
    by (by eapply (safe_request (mkCView c [] [] []))).
  split; [exact Hs'|]. split; [exact Hs'|]. split; [done|]. unfold tokens. cbn [cv_wire cv_timers cv_self cv_tried length app].
  rewrite (weight_one _ _ Et) by done. split; [lia|]. left. split_and!; try done.
  apply Forall_singleton. by left.
Qed.

(** C29: streams, end to end.  A consumer of a stream, the services that keep it in memory and
    a network that loses and reorders, but does not repeat: whatever is pushed meanwhile,
    whichever calls fail, and wherever the consumer stops, what it has tried to pass on are
    the first messages of the stream from the index that was saved for it, in order,
    without a gap and each once, except for those that cannot be decoded; while it runs
    these are exactly the ones before its index; and the index that is saved never goes
    beyond what was tried.  A message that fails to be passed on is dropped; so what was
    passed on is in the order of the stream, and if nothing failed it has no gap and the
    consumer that takes over skips nothing. *)
Theorem stream_in_order streams index y0 y :
  kept (storage_of streams) -> index !! (client, name) = i0 -> started streams index y0 -> rtc sys_step y0 y ->
  let s := storage_of (y_streams y) in
  let tried := (cv_tried (y_view y)).*1 in
  let passed_on := succeeded (cv_tried (y_view y)) in
  let untroubled := no_failure (cv_tried (y_view y)) in
  (exists n, in_stream s n /\ tried `prefix_of` deliver (entries s start n) /\
     passed_on `sublist_of` deliver (entries s start n) /\
     (untroubled -> passed_on `prefix_of` deliver (entries s start n))) /\
  (y_alive y = true -> tried = [] \/
     in_stream s (sc_idx (cv_self (y_view y))) /\ tried = deliver (entries s start (sc_idx (cv_self (y_view y))))) /\
  (y_index y !! (client, name) = i0 \/
   exists n, y_index y !! (client, name) = Some n /\ in_stream s n /\ deliver (entries s start n) `prefix_of` tried /\
     (untroubled -> deliver (entries s start n) `prefix_of` passed_on)).
Proof.
  intros Hk Hi Hst Hrun s tried passed_on untroubled.
  destruct (run_inv _ _ Hrun (started_inv _ _ _ Hk Hi Hst)) as [[_ (n & Hn & H2) _ H4] Hl].
  assert (untroubled -> passed_on = tried) as Hun by apply succeeded_all.
  split; [|split].
  - exists n. split_and!; [done|done|by apply succeeded_sublist_of|]. intros Hu. by rewrite (Hun Hu).
  - intros Ha. destruct (Hl Ha) as (_ & _ & [Hs|Hr]); [left; apply Hs|right]. split; apply Hr.
  - destruct H4 as [|(k & Hk' & Hk1 & Hk2)]; [by left|right]. exists k. split_and!; [done..|].
    intros Hu. by rewrite (Hun Hu).
Qed.

(** *** A lost answer *)

Lemma stalled_step y y' :
  sys_step y y' -> tokens (y_view y) (y_net y) = 0 ->
  tokens (y_view y') (y_net y') = 0 /\ cv_tried (y_view y') = cv_tried (y_view y) /\ cv_self (y_view y') = cv_self (y_view y).
Proof.
  assert (forall v net w1 p w2, cv_wire v = w1 ++ p :: w2 -> tokens v net = 0 ->
    weight p = 0 /\ tokens (with_wire (w1 ++ w2) v) net = 0) as Hw.
  { intros v net w1 p w2 Ew Ht. rewrite (tokens_taken _ _ _ _ _ Ew) in Ht. lia. }
  assert (forall p, weight p = 0 -> exists i, wire_token p = Some (WSave i)) as Hsave.
  { intros p. unfold weight. destruct (wire_token p) as [[]|]; try done. eauto. }
  destruct 1; cbn [y_view y_net]; intros Ht; try done.
  - unfold tokens in Ht. rewrite H, length_app in Ht. cbn in Ht. lia.
  - unfold tokens in Ht. rewrite length_app in Ht. cbn in Ht. lia.
  - destruct (Hw _ _ _ _ _ H Ht) as [[i Ei]%Hsave _]. unfold wire_token in Ei. rewrite H0 in Ei. case_bool_decide; done.
  - destruct (Hw _ _ _ _ _ H Ht) as [[i Ei]%Hsave _]. unfold wire_token in Ei. by rewrite H0 in Ei.
  - destruct (Hw _ _ _ _ _ H Ht) as [[i Ei]%Hsave Ht']. unfold wire_token in Ei. rewrite H0 in Ei. unfold Index_handle_message in H1.
    destruct (index_decode_payload p) as [[]|]; [by case_bool_decide| |done]. injection H1 as <- <-. by rewrite app_nil_r.
  - by destruct (Hw _ _ _ _ _ H Ht) as [_ ?].
  - unfold tokens in Ht. rewrite length_app in Ht. cbn in Ht. lia.
  - unfold tokens in Ht. rewrite H, length_app in Ht. cbn in Ht. lia.
Qed.

(** C37: one lost message stops a stream.  While a consumer runs there is one thing it waits
    for: its delayed event, its request or the reply.  If the network loses it, then the
    consumer never asks again, and whatever is pushed is not passed on. *)
Theorem lost_reply_stops_stream streams index y0 v l1 p l2 st ix y :
  kept (storage_of streams) -> index !! (client, name) = i0 -> started streams index y0 ->
  rtc sys_step y0 (mkSys v true (l1 ++ p :: l2) st ix) -> rtc sys_step (mkSys v true (l1 ++ l2) st ix) y ->
  cv_tried (y_view y) = cv_tried v /\ cv_self (y_view y) = cv_self v.
Proof.
  intros Hk Hi Hst Hrun Hrest. destruct (run_inv _ _ Hrun (started_inv _ _ _ Hk Hi Hst)) as [_ Hl].
  destruct (Hl eq_refl) as (_ & Htok & _). cbn [y_view y_net] in Htok.
  assert (tokens v (l1 ++ l2) = 0) as Ht by (unfold tokens in *; rewrite length_app in Htok |- *; cbn in Htok; lia).
  assert (forall a b, rtc sys_step a b -> tokens (y_view a) (y_net a) = 0 ->
    cv_tried (y_view b) = cv_tried (y_view a) /\ cv_self (y_view b) = cv_self (y_view a)) as Hstall.
  { induction 1 as [|a b c Hs _ IH]; [done|]. intros Ha. destruct (stalled_step _ _ Hs Ha) as (Hb & E1 & E2).
    rewrite <-E1, <-E2. by apply IH. }
  by apply (Hstall _ _ Hrest).
Qed.

(** ** When nothing is lost *)

Section Progress.
Context {ST : StreamCodecTotal}.

Lemma request_total protocol d : is_Some d -> exists pp b, ProtocolPayload_new protocol d = Ok pp /\ encode_payload pp = Some b.
Proof. intros [x ->]. destruct (payload_total (mkProtocolPayload protocol x)) as [b Eb]. by exists (mkProtocolPayload protocol x), b. Qed.

Lemma reply_total {E} protocol d : is_Some d -> exists b, encoded (E := E) protocol d = Ok b.
Proof. intros [x ->]. destruct (payload_total (mkProtocolPayload protocol x)) as [b Eb]. exists b. unfold encoded. by rewrite Eb. Qed.

Lemma send_runs route pp b g :
  route <> [rx] -> encode_payload pp = Some b ->
  execs seff (stream_send own route pp) g (Some (Ok tt)) (mkCView (cv_self g) (cv_tried g) (cv_wire g ++ [b]) (cv_timers g)).
Proof.
  intros Hr Hb. eapply execs_call with (x := (Ok tt)); [|constructor]. cbn. rewrite bool_decide_false by done. by exists b.
Qed.

(** Everything with the same outcome. *)
Definition all_with (ok : bool) (l : list passed) : attempts passed := map (fun p => (p, ok)) l.

Lemma all_with_app ok l k : all_with ok (l ++ k) = all_with ok l ++ all_with ok k.
Proof. apply map_app. Qed.

Lemma pass_on_all_runs ok (e : cerror) w l g :
  ours w -> execs seff (pass_on_all own w l) g (Some tt) (and_tried (all_with ok (deliver l)) g).
Proof.
  intros Hw. set (x := if ok then Ok tt else Err e : cresult unit).
  assert (is_ok x = ok) as Hx by (unfold x; by destruct ok).
  revert g. induction l as [|m l IH]; intros g; cbn [pass_on_all].
  { cbn. rewrite and_tried_nil. constructor. }
  change (deliver (m :: l)) with (deliver1 m ++ deliver l). rewrite all_with_app, <-and_tried_app.
  eapply execs_bind with (a := tt); [|apply IH].
  destruct Hw as (_ & _ & Hs & Hr & _). unfold pass_on, deliver1.
  destruct (decode_transport (sm_data m)) as [t|]; [|rewrite and_tried_nil; constructor].
  rewrite Hs, Hr. unfold Route_modify, RouteBuilder_prepend, RouteBuilder_drop. cbn [rb_inner write_back].
  set (t' := match sender with Some addr => _ | None => t end).
  assert (t' = mkTransportMessage (version t) (onward_route t) (match sender with Some a => a :: return_route t | None => return_route t end)
    (payload t)) as -> by (unfold t'; by destruct sender, t).
  cbn [onward_route]. destruct (onward_route t) as [|a l']; cbn [Route_next head ok_or].
  - eapply execs_call with (x := x); [|constructor]. cbn. by rewrite bool_decide_true, Hx by done.
  - eapply execs_call with (x := x); [|constructor]. cbn. by rewrite Hx.
Qed.

Lemma fetch_interval_runs d g :
  exists p, fetch_payload (Some p) /\
    execs seff (fetch_interval own d) g (Some (Ok tt)) (mkCView (cv_self g) (cv_tried g) (cv_wire g) (cv_timers g ++ [Some p])).
Proof.
  destruct (request_total (str "internal.stream.fetch") _ fetch_total) as (pp & b & E1 & E2). exists b.
  split; [exists pp; split; [exact E1|by rewrite E2]|]. unfold fetch_interval, StreamWorkerCmd_fetch. rewrite E1. cbn [plift ptry pbind].
  eapply execs_call with (x := own); [done|]. eapply execs_call with (x := (Ok 0)); [done|].
  eapply execs_call with (x := tt); [done|]. rewrite E2. constructor.
Qed.

(** Messages that carry a payload, and how they are answered. *)
Context (back : Route) (back_service : back <> [rx]).

Definition message (p : bytes) : Routed unit :=
  mkRouted tt own own (mkLocalMessage (TransportMessage_v1 [own] back p) []).

Lemma execs_try {A B} (p : sprog (oresult A)) (f : A -> sprog (oresult B)) g a g1 r g2 :
  execs seff p g (Some (Ok a)) g1 -> execs seff (f a) g1 r g2 -> execs seff (do? x <- p; f x) g r g2.
Proof. intros H1 H2. by eapply execs_bind; [exact H1|]. Qed.

Lemma fetch_runs v p :
  ours (cv_self v) -> in_u64 (sc_ids (cv_self v)) -> in_u64 (sc_idx (cv_self v)) -> fetch_payload (Some p) ->
  exists b id, in_u64 id /\ encode_pull (mkPullRequest id (sc_idx (cv_self v)) 8) <> None /\
    stream_decode_payload b = Some (QPull (mkPullRequest id (sc_idx (cv_self v)) 8)) /\
    execs seff (StreamConsumer_handle_message own (cv_self v) (message p)) v (Some (Ok tt))
      (mkCView (with_ids (u64_add (sc_ids (cv_self v)) 1) (cv_self v)) (cv_tried v) (cv_wire v ++ [b]) (cv_timers v)).
Proof.
  intros Hw Hid Hidx (f & Hf & Ef).
  destruct (request_total (str "stream_pull") _ (pull_total (sc_ids (cv_self v)) (sc_idx (cv_self v)) 8 Hid Hidx ltac:(done))) as (pp & b & E1 & E2).
  exists b, (sc_ids (cv_self v)). split; [done|].
  destruct (request_read (E := unit) _ _ _ _ E1 E2) as (x & Ex & Hd & _). split; [by rewrite Ex|]. apply pull_read in Ex.
  split.
  - unfold stream_decode_payload. rewrite Hd. cbn [mbind option_bind pp_protocol pp_data].
    by rewrite !bool_decide_false, bool_decide_true, Ex by done.
  - rewrite (handle_fetch _ (message p) p f Hf (eq_sym Ef) eq_refl). eapply execs_try; [|constructor].
    unfold handle_cmd, Monotonic_next. eapply execs_bind with (a := tt); [eapply execs_call with (x := tt); [done|constructor]|].
    unfold PullRequest_new. rewrite E1. cbn [plift ptry pbind]. eapply execs_try; [|constructor].
    apply (send_runs _ _ b (put_self (with_ids (u64_add (sc_ids (cv_self v)) 1) (cv_self v)) v)); [apply Hw|done].
Qed.

Lemma pulled_runs ok (e : cerror) v p r n :
  ours (cv_self v) -> net_reply p = Some (RPullResponse r) -> in_u64 n ->
  match list.last (pr_messages r) with Some m => u64_add (sm_index m) 1 | None => sc_idx (cv_self v) end = n ->
  exists p' wire, fetch_payload (Some p') /\
    (n <> sc_idx (cv_self v) -> exists b, wire = cv_wire v ++ [b] /\ wire_token b = Some (WSave n)) /\
    execs seff (StreamConsumer_handle_message own (cv_self v) (message p)) v (Some (Ok tt))
      (mkCView (with_index (sc_index_route (cv_self v)) n (cv_self v)) (cv_tried v ++ all_with ok (deliver (pr_messages r))) wire
         (cv_timers v ++ [Some p'])).
Proof.
  intros Hw Hp Hn Hnext. set (w' := with_index (sc_index_route (cv_self v)) n (cv_self v)).
  set (tried := cv_tried v ++ all_with ok (deliver (pr_messages r))).
  set (g1 := mkCView w' tried (cv_wire v) (cv_timers v)).
  assert (ours w') as Hw' by exact Hw.
  assert (exists wire, execs seff (if negb (sc_idx (cv_self v) =? n)%Z then
      do? request <- plift (IndexRequest_save (sc_receiver_name w') (sc_client_id w') n); stream_send own (sc_index_route w') request
      else PRet (Ok tt)) g1 (Some (Ok tt)) (mkCView w' tried wire (cv_timers v)) /\
    (n <> sc_idx (cv_self v) -> exists b, wire = cv_wire v ++ [b] /\ wire_token b = Some (WSave n))) as (wire & Hsave & Hwire).
  { destruct (Z.eqb_spec (sc_idx (cv_self v)) n) as [E|_]; cbn [negb]; [exists (cv_wire v); split; [constructor|congruence]|].
    assert (sc_client_id w' = client /\ sc_receiver_name w' = name) as [-> ->] by (split; apply Hw').
    destruct (request_total (str "stream_index") _ (save_total client name n Hn)) as (pp & b & E1 & E2).
    exists (cv_wire v ++ [b]). split; [|intros _; exists b; split; [done|by eapply save_token]].
    unfold IndexRequest_save. rewrite E1. cbn [plift ptry pbind]. apply (send_runs _ _ b g1); [apply Hw'|done]. }
  destruct (fetch_interval_runs (sc_interval w') (mkCView w' tried wire (cv_timers v))) as (p' & Hp' & Hfetch).
  exists p', wire. split; [done|]. split; [done|]. rewrite (handle_reply _ (message p) _ Hp). eapply execs_try; [|constructor].
  unfold consumer_handle_response. rewrite Hnext. fold w'.
  eapply execs_bind with (a := tt); [eapply execs_call with (x := tt); [done|constructor]|].
  eapply execs_bind with (a := tt); [apply (pass_on_all_runs ok e w' _ (put_self w' v) Hw')|].
  eapply execs_try; [exact Hsave|]. eapply execs_bind; [exact Hfetch|]. constructor.
Qed.

(** Messages that fail to be passed on are logged and forgotten: the consumer asks for the
    index after them to be saved, and goes on. *)
Theorem failed_messages_are_dropped (e : cerror) v p r n :
  ours (cv_self v) -> net_reply p = Some (RPullResponse r) -> in_u64 n -> n <> sc_idx (cv_self v) ->
  match list.last (pr_messages r) with Some m => u64_add (sm_index m) 1 | None => sc_idx (cv_self v) end = n ->
  exists g b, execs seff (StreamConsumer_handle_message own (cv_self v) (message p)) v (Some (Ok tt)) g /\
    succeeded (cv_tried g) = succeeded (cv_tried v) /\ sc_idx (cv_self g) = n /\
    cv_wire g = cv_wire v ++ [b] /\ wire_token b = Some (WSave n).
Proof.
  intros Hw Hp Hn Hne Hnext. destruct (pulled_runs false e v p r n Hw Hp Hn Hnext) as (p' & wire & _ & Hwire & Hx).
  destruct (Hwire Hne) as (b & -> & Hb). eexists _, b. split; [exact Hx|]. split_and!; try done.
  cbn [cv_tried]. rewrite succeeded_app. assert (forall l, succeeded (all_with false l) = []) as ->; [|apply app_nil_r].
  induction l as [|x l IH]; [done|]. exact IH.
Qed.

Lemma init_runs v p :
  ours (cv_self v) -> net_reply p = Some (RInit (mkInitResponse name)) ->
  exists b, stream_decode_payload b = None /\ index_decode_payload b = Some (IndexGet client name) /\
    execs seff (StreamConsumer_handle_message own (cv_self v) (message p)) v (Some (Ok tt))
      (mkCView (with_service_route back (cv_self v)) (cv_tried v) (cv_wire v ++ [b]) (cv_timers v)).
Proof.
  intros Hw Hp. destruct (request_total (str "stream_index") _ (get_total client name)) as (pp & b & E1 & E2).
  destruct (index_token _ _ _ E1 E2) as [D1 D2]. exists b. split; [done|]. split; [done|].
  rewrite (handle_reply _ (message p) _ Hp). eapply execs_try; [|constructor]. unfold consumer_handle_response. cbn [ir_stream_name].
  destruct Hw as (H1 & H2 & _ & _ & _ & H6). rewrite bool_decide_true by done.
  eapply execs_bind with (a := tt); [eapply execs_call with (x := tt); [done|constructor]|].
  change (sc_client_id (with_service_route _ (cv_self v))) with (sc_client_id (cv_self v)). rewrite H1. unfold IndexRequest_get. rewrite E1.
  cbn [plift ptry pbind]. by apply (send_runs _ _ b (put_self (with_service_route back (cv_self v)) v)).
Qed.

Lemma index_runs v p r :
  ours (cv_self v) -> net_reply p = Some (RIndex r) -> ix_index r = i0 ->
  exists p', fetch_payload (Some p') /\
    execs seff (StreamConsumer_handle_message own (cv_self v) (message p)) v (Some (Ok tt))
      (mkCView (with_index back start (cv_self v)) (cv_tried v) (cv_wire v) (cv_timers v ++ [Some p'])).
Proof.
  intros Hw Hp Hr. destruct (fetch_interval_runs 10 (put_self (with_index back start (cv_self v)) v)) as (p' & Hp' & Hfetch).
  exists p'. split; [done|]. rewrite (handle_reply _ (message p) _ Hp). eapply execs_try; [|constructor].
  unfold consumer_handle_response. rewrite Hr. fold start.
  eapply execs_bind with (a := tt); [eapply execs_call with (x := tt); [done|constructor]|].
  eapply execs_bind; [exact Hfetch|]. constructor.
Qed.

(** A consumer that waits for its delayed event. *)
Definition waiting (y : sys) : Prop :=
  inv y /\ y_alive y = true /\ y_net y = [] /\ in_u64 (sc_ids (cv_self (y_view y))) /\ in_u64 (sc_idx (cv_self (y_view y))) /\
  exists p, cv_timers (y_view y) = [Some p].

Lemma u64_add_range a b : in_u64 (u64_add a b).
Proof. unfold u64_add. apply Z.mod_pos_bound. lia. Qed.

(** One round: what follows is passed on, eight messages at most. *)
Lemma round y st :
  waiting y -> y_streams y !! name = Some st ->
  let idx := sc_idx (cv_self (y_view y)) in
  exists y', rtc sys_step y y' /\ waiting y' /\ y_streams y' = y_streams y /\
    sc_idx (cv_self (y_view y')) = Z.max idx (Z.min (idx + 8) (ss_latest (se_storage st) + 1)) /\
    exists l, cv_tried (y_view y') = cv_tried (y_view y) ++ all_with true l.
Proof.
  destruct y as [v al net streams index]. intros (Hinv & Hal & Hnet & Hids & Hidx & p & Ht) Hst idx. cbn in Hal, Hnet, Hids, Hidx, Ht, Hst. subst al net.
  pose proof Hinv as [[(K1 & K2 & K3) _ _ _] Hl]. destruct (Hl eq_refl) as (Hours & Htok & Hph).
  cbn [y_view y_net y_streams y_index] in Hours, Htok, Hph, K1, K2, K3, idx.
  rewrite (storage_at st) in * by done.
  destruct Hph as [(_ & E & _)|(Hin & _ & _ & _ & Hf)]; [by rewrite Ht in E|]. rewrite Ht in Hf. apply list.Forall_cons in Hf as [Hf _].
  set (v1 := with_timers [] v).
  destruct (fetch_runs v1 p) as (b & id & Hid & _ & Hb & Hx); [exact Hours|exact Hids|exact Hidx|exact Hf|].
  change (sc_idx (cv_self v1)) with idx in Hb.
  set (n := Z.max idx (Z.min (idx + 8) (ss_latest (se_storage st) + 1))).
  destruct Hin as [Hi1 Hi2]. fold idx in Hi1, Hi2.
  assert (in_u64 n) as Hn by (unfold in_u64 in *; fold idx in Hidx; unfold n; lia).
  assert (fetch idx 8 (se_storage st) = entries (se_storage st) idx n) as Hms by (apply fetch_entries; done || lia).
  destruct (reply_total (E := unit) (str "stream_pull") (encode_pulled (mkPullResponse id (entries (se_storage st) idx n)))) as [reply Er].
  { apply pulled_total; [done|]. apply list.Forall_forall. intros m (i & Hm & Hi)%list_elem_of_omap. apply K2 in Hi as ->.
    apply elem_of_seqZ in Hm. unfold in_u64 in *. lia. }
  set (v2 := mkCView (with_ids (u64_add (sc_ids (cv_self v1)) 1) (cv_self v1)) (cv_tried v1) (cv_wire v1) (cv_timers v1)).
  destruct (pulled_runs true unknown_state v2 reply (mkPullResponse id (entries (se_storage st) idx n)) n) as (p' & wire & Hp' & _ & Hx2).
  { exact Hours. } { by eapply pulled_reply. } { done. }
  { change (sc_idx (cv_self v2)) with idx. cbn [pr_messages]. apply next_index; [by split_and!|by split| |unfold n; lia]. split; [unfold n; lia|].
    unfold n. destruct (decide (Z.max idx (Z.min (idx + 8) (ss_latest (se_storage st) + 1)) = idx)) as [->|]; [done|right; lia]. }
  set (v3 := mkCView _ _ wire _) in Hx2.
  assert (rtc sys_step (mkSys v true [] streams index) (mkSys v3 true [] streams index)) as Hrun.
  { eapply rtc_l; [eapply (step_timer v [] streams index [] p [] (message p)); [exact Ht|done|exact Hx]|].
    eapply rtc_l; [eapply (step_pull _ true [] streams index (cv_wire v1) b []); [done|exact Hb|exact Hst|]|].
    { unfold Stream_handle_message. rewrite Hb. cbn [pl_index pl_limit pl_request_id]. rewrite Hms, Er. done. }
    rewrite insert_id by done. cbn [app]. eapply rtc_l; [|apply rtc_refl]. unfold with_wire. cbn [cv_self cv_tried cv_timers]. rewrite app_nil_r.
    apply (step_reply v2 streams index [] reply [] (message reply) (Some (Ok tt))); [done|done|exact Hx2]. }
  exists (mkSys v3 true [] streams index). split; [exact Hrun|]. split; [|split_and!; [done|done|by eexists]].
  split; [by eapply run_inv|]. split_and!; try done; [apply u64_add_range|]. by exists p'.
Qed.
(** A consumer that waits for its delayed event, and nothing is on the way. *)
Definition idle (y : sys) : Prop :=
  y_alive y = true /\ y_net y = [] /\ in_u64 (sc_ids (cv_self (y_view y))) /\ exists p, cv_timers (y_view y) = [Some p].

Lemma created_reply pp b streams :
  CreateStreamRequest_new (Some name) = Ok pp -> encode_payload pp = Some b ->
  exists q reply streams', stream_decode_payload b = Some (QCreate q) /\
    Service_handle_message error_payload [] b streams = Ok (reply, streams') /\
    net_reply reply = Some (RInit (mkInitResponse name)) /\ is_Some (streams' !! name) /\
    storage_of streams' = storage_of streams.
Proof.
  intros H1 H2. destruct (request_read (E := unit) _ _ _ _ H1 H2) as (x & Ex & Hd & _). apply create_read in Ex.
  assert (stream_decode_payload b = Some (QCreate (mkCreateStreamRequest (Some name)))) as Hb.
  { unfold stream_decode_payload. rewrite Hd. cbn [mbind option_bind pp_protocol pp_data]. by rewrite bool_decide_true, Ex by done. }
  destruct (reply_total (E := unit) (str "stream_create") _ (init_total name)) as [reply Er].
  exists (mkCreateStreamRequest (Some name)), reply. unfold Service_handle_message. rewrite Hb. cbn [cs_stream_name default from_option id].
  rewrite bool_decide_false by done. unfold reply_init. rewrite Er. cbn [rbind].
  destruct (streams !! name) eqn:Elk; eexists; (split_and!; [done|done|by apply init_reply| |]).
  - by rewrite Elk.
  - done.
  - by rewrite lookup_insert_eq.
  - unfold storage_of. by rewrite lookup_insert_eq, Elk.
Qed.

(** The first request, and its answer. *)
Lemma asks streams index c :
  ours c ->
  exists b reply streams', started streams index (mkSys (mkCView c [] [b] []) true [] streams index) /\
    rtc sys_step (mkSys (mkCView c [] [b] []) true [] streams index) (mkSys (mkCView c [] [] []) true [reply] streams' index) /\
    net_reply reply = Some (RInit (mkInitResponse name)) /\ is_Some (streams' !! name) /\ storage_of streams' = storage_of streams.
Proof.
  intros Hc. destruct (request_total (str "stream_create") _ (create_total (Some name))) as (pp & b & E1 & E2).
  destruct (created_reply pp b streams E1 E2) as (q & reply & streams' & Hq & Hh & Hr & Hn).
  exists b, reply, streams'. split; [|split; [|done]].
  - exists c, (Some (Ok tt)), (mkCView c [] [b] []). split; [done|]. split; [|done]. unfold StreamConsumer_initialize, CreateStreamRequest_new.
    destruct Hc as (_ & -> & _ & _ & H5 & _). rewrite E1. cbn [plift ptry pbind]. eapply execs_try; [|constructor].
    by apply (send_runs _ _ b (mkCView c [] [] [])).
  - eapply rtc_l; [by eapply (step_create (mkCView c [] [b] []) true [] streams index [] b [])|apply rtc_refl].
Qed.

Lemma stream_begins streams index c :
  ours c -> in_u64 (sc_ids c) -> in_u64 start -> index !! (client, name) = i0 ->
  exists y0 y, started streams index y0 /\ rtc sys_step y0 y /\ idle y /\ is_Some (y_streams y !! name) /\
    storage_of (y_streams y) = storage_of streams.
Proof.
  intros Hc Hids Hs Hi. destruct (asks streams index c Hc) as (b & reply & streams' & H0 & R0 & Hr & Hn).
  destruct (init_runs (mkCView c [] [] []) reply Hc Hr) as (b2 & D1 & D2 & Hx2).
  destruct (reply_total (E := unit) (str "stream_index") _
    (indexed_total client name i0 ltac:(intros i E; unfold start in Hs; by rewrite E in Hs))) as [reply2 Er2].
  set (c2 := with_service_route back c).
  destruct (index_runs (mkCView c2 [] [] []) reply2 (mkIndexResponse client name i0)) as (p' & Hp' & Hx3).
  { destruct Hc as (H1 & H2 & H3 & H4 & H5 & H6). by split_and!. } { by eapply index_reply. } { done. }
  eexists _, (mkSys (mkCView (with_index back start c2) [] [] [Some p']) true [] streams' index).
  split; [exact H0|]. split; [|split; [split_and!; [done|done|done|by exists p']|exact Hn]].
  etrans; [exact R0|]. eapply rtc_l; [by eapply (step_reply _ streams' index [] reply [] (message reply))|]. cbn [app ended].
  eapply rtc_l; [eapply (step_index _ true [] streams' index [] b2 []); [done|done|]|].
  { unfold Index_handle_message. rewrite D2. unfold get_index. rewrite Hi, Er2. done. }
  cbn [app option_list]. eapply rtc_l; [|apply rtc_refl].
  by apply (step_reply (mkCView c2 [] [] []) streams' index [] reply2 [] (message reply2) (Some (Ok tt))).
Qed.

Lemma stream_stays y y' : rtc sys_step y y' -> is_Some (y_streams y !! name) -> is_Some (y_streams y' !! name).
Proof.
  induction 1 as [|a b c Hab _ IH]; [done|]. intros Ha. apply IH. destruct Hab; try done; cbn in *; rewrite ?lookup_insert_eq; try done.
  unfold Service_handle_message in *. rewrite H0 in H1. case_bool_decide; inv_ok H1; [by injection H1 as <- <-|].
  destruct (streams !! _) eqn:Elk in H1; injection H1 as <- <-; [done|]. by apply lookup_insert_is_Some'; right.
Qed.

(** Round after round the consumer comes to the end of the stream. *)
Lemma catches_up k y st :
  waiting y -> y_streams y !! name = Some st -> (ss_latest (se_storage st) + 1 - sc_idx (cv_self (y_view y)) <= Z.of_nat k)%Z ->
  exists y', rtc sys_step y y' /\ waiting y' /\ y_streams y' = y_streams y /\
    sc_idx (cv_self (y_view y')) = Z.max (sc_idx (cv_self (y_view y))) (ss_latest (se_storage st) + 1) /\
    exists l, cv_tried (y_view y') = cv_tried (y_view y) ++ all_with true l.
Proof.
  revert y. induction k as [|k IH]; intros y Hw Hst Hk.
  { exists y. split_and!; [done|done|done|lia|]. exists []. by rewrite app_nil_r. }
  destruct (round y st Hw Hst) as (y1 & R1 & W1 & S1 & I1 & l1 & T1).
  destruct (IH y1 W1) as (y2 & R2 & W2 & S2 & I2 & l2 & T2).
  { by rewrite S1. } { lia. }
  exists y2. split; [by etrans|]. split; [done|]. split_and!; [congruence|lia|].
  exists (l1 ++ l2). by rewrite T2, T1, all_with_app, app_assoc.
Qed.

Lemma idle_catches_up y :
  inv y -> idle y -> is_Some (y_streams y !! name) -> in_u64 start ->
  exists y', rtc sys_step y y' /\ idle y' /\ y_streams y' = y_streams y /\
    let s := storage_of (y_streams y) in
    cv_out (y_view y') = deliver (entries s start (Z.max start (ss_latest s + 1))) /\
    exists l, cv_tried (y_view y') = cv_tried (y_view y) ++ all_with true l.
Proof.
  intros Hinv (A & N & U & T) [st Hst] Hs.
  assert (in_stream (se_storage st) (sc_idx (cv_self (y_view y))) /\ kept (se_storage st)) as [Hin Hkept].
  { destruct Hinv as [[Hkept _ _ _] Hl]. rewrite (storage_at st) in * by done. split; [|done].
    destruct (Hl A) as (_ & _ & [(_ & E & _)|[Hin _]]); [|done]. destruct T as [p Ep]. by rewrite Ep in E. }
  assert (waiting y) as Hw.
  { split_and!; try done. destruct Hin as [? Hin], Hkept as (_ & _ & ?). unfold in_u64 in *. lia. }
  destruct (catches_up (Z.to_nat (ss_latest (se_storage st) + 1 - sc_idx (cv_self (y_view y)))) y st Hw Hst ltac:(lia))
    as (y' & R' & (Hinv' & A' & N' & U' & _ & T') & S' & Hidx & Htr).
  exists y'. split; [done|]. split; [by split_and!|]. split; [done|]. intros s. split; [|done]. destruct Hinv' as [_ Hl'].
  destruct (Hl' A') as (_ & _ & [(_ & E & _)|(_ & Hout & _)]); [destruct T' as [p Ep]; by rewrite Ep in E|].
  rewrite Hout, S'. fold s. f_equal. f_equal. unfold s. rewrite (storage_at st) by done. destruct Hin. lia.
Qed.

(** C30: streams catch up.  A consumer that is started comes to wait for its delayed event, in
    a run without losses; and whenever it does so later, whatever was pushed and whichever
    way it came there, it can go on, by its own events and the replies of the services,
    until it has tried to pass on the whole stream from the index it began with, and
    everything that it tries on the way is passed on. *)
Theorem stream_catches_up streams index c :
  kept (storage_of streams) -> index !! (client, name) = i0 -> in_u64 start -> ours c -> in_u64 (sc_ids c) ->
  exists y0 y1, started streams index y0 /\ rtc sys_step y0 y1 /\ idle y1 /\
    forall y, rtc sys_step y1 y -> idle y ->
    exists y', rtc sys_step y y' /\ idle y' /\ y_streams y' = y_streams y /\
      let s := storage_of (y_streams y) in
      (cv_tried (y_view y')).*1 = deliver (entries s start (Z.max start (ss_latest s + 1))) /\
      exists l, cv_tried (y_view y') = cv_tried (y_view y) ++ all_with true l.
Proof.
  intros Hk Hi Hs Hc Hids. destruct (stream_begins streams index c Hc Hids Hs Hi) as (y0 & y1 & H0 & R1 & I1 & N1 & _).
  exists y0, y1. split; [done|]. split; [done|]. split; [done|]. intros y R Hy.
  apply idle_catches_up; [|done|by eapply stream_stays|done].
  exact (run_inv _ _ R (run_inv _ _ R1 (started_inv _ _ _ Hk Hi H0))).
Qed.
End Progress.
End Spec.
