(* ===== verification/ProducerSpec.v ===== *)
(** * What the producers of streams promise

    A producer numbers the messages it is given, keeps them until the stream is known, and
    pushes them in order ([producer_pushes_in_order]) to where the last answer to its
    request came from, whoever sent it. *)

From Stdlib Require Import ZArith Lia.
From stdpp Require Import base list option.
From S2P Require Import Prelude RustStr Routing AccessControl FlowControl Router Node Execution Pipes Streams.

(** What is seen of a producer: its state, and what it has pushed where. *)
Record pview := mkPView {
  pv_self : StreamProducer;
  pv_sent : list (Route * bytes)
}.

Section Producer.
Context {TC : TransportCodec} `{SC : StreamCodec}.
Context (own : Address).

(** Calls may fail, unless [perfect]. *)
Definition peff (perfect : bool) X (c : scall X) : X -> pview -> pview -> Prop :=
  match c in scall X return X -> pview -> pview -> Prop with
  | SCtx c =>
      match c in api _ _ X return X -> pview -> pview -> Prop with
      | ASend _ route payload _ _ => fun x g g' =>
          match x with
          | Ok _ => exists b, payload = Some b /\ g' = mkPView (pv_self g) (pv_sent g ++ [(route, b)])
          | _ => g' = g /\ (perfect = true -> payload = None)
          end
      | _ => fun _ g g' => g' = g
      end
  | SSetSelf (WProducer w) => fun _ g g' => g' = mkPView w (pv_sent g)
  | _ => fun _ g g' => g' = g
  end.

(** The answer that a message is taken for. *)
Definition answer (m : Routed unit) : option (oresult StreamResponse) :=
  pp ← decode_payload (payload (transport_message (local_msg m)));
  if Response_check_id (pp_protocol pp) then Some (StreamResponse_parse pp) else None.

(** The push for a message: the address of the producer is dropped from its route. *)
Definition push_of (id : Z) (m : Routed unit) : option ProtocolPayload :=
  let t := transport_message (local_msg m) in
  data ← encode_transport (mkTransportMessage (version t) (tail (onward_route t)) (return_route t) (payload t));
  d ← encode_push (mkPushRequest id data);
  Some (mkProtocolPayload (str "stream_push") d).

(** The pushes for the messages that are none of the answers, numbered. *)
Fixpoint pushes (id : Z) (ms : list (Routed unit)) : list ProtocolPayload :=
  match ms with
  | [] => []
  | m :: ms =>
      match answer m, onward_route (transport_message (local_msg m)) with
      | None, _ :: _ => option_list (push_of id m) ++ pushes (u64_add id 1) ms
      | _, _ => pushes id ms
      end
  end.

Fixpoint next_id (id : Z) (ms : list (Routed unit)) : Z :=
  match ms with
  | [] => id
  | m :: ms =>
      match answer m, onward_route (transport_message (local_msg m)) with
      | None, _ :: _ => next_id (u64_add id 1) ms
      | _, _ => next_id id ms
      end
  end.

Lemma pushes_app id ms m : pushes id (ms ++ [m]) = pushes id ms ++ pushes (next_id id ms) [m].
Proof.
  revert id. induction ms as [|x ms IH]; intros id; [done|]. cbn [app pushes next_id].
  destruct (answer x); [by rewrite IH|]. destruct (onward_route _); by rewrite IH, ?app_assoc.
Qed.

Lemma next_id_app id ms m : next_id id (ms ++ [m]) = next_id (next_id id ms) [m].
Proof.
  revert id. induction ms as [|x ms IH]; intros id; [done|]. cbn [app next_id].
  destruct (answer x); [by rewrite IH|]. destruct (onward_route _); by rewrite IH.
Qed.

Definition wrote (pp : ProtocolPayload) (sent : Route * bytes) : Prop := encode_payload pp = Some (sent.2).

(** Nothing fails. *)
Definition flawless (perfect : bool) : Prop := perfect = true /\ forall pp, is_Some (encode_payload pp).

Definition is_init (m : Routed unit) : bool := match answer m with Some (Ok (RInit _)) => true | _ => false end.

Definition back_of (m : Routed unit) : Route := return_route (transport_message (local_msg m)).

Definition from_answer (ms : list (Routed unit)) (route : Route) : Prop := exists m, m ∈ ms /\ is_init m = true /\ route = back_of m.

Lemma from_answer_app ms ms' route : from_answer ms route -> from_answer (ms ++ ms') route.
Proof. intros (m & Hm & H). exists m. split; [|done]. apply elem_of_app. by left. Qed.

(** What has been pushed is a part of what was to be pushed, in order. *)
Record pushed (ms : list (Routed unit)) (g : pview) : Prop := {
  pushed_part : exists sent, Forall2 wrote sent (pv_sent g) /\ sent `sublist_of` pushes 0 ms;
  pushed_to : Forall (fun rb => from_answer ms rb.1) (pv_sent g)
}.

(** Between messages. *)
Record producing (perfect : bool) (ms : list (Routed unit)) (g : pview) : Prop := {
  prod_ids : sp_ids (pv_self g) = next_id 0 ms;
  prod_init : sp_init (pv_self g) = existsb is_init ms;
  prod_route : sp_init (pv_self g) = true -> from_answer ms (sp_route (pv_self g)) /\ sp_outbox (pv_self g) = [];
  prod_to : Forall (fun rb => from_answer ms rb.1) (pv_sent g);
  prod_sent : exists sent, Forall2 wrote sent (pv_sent g) /\ (sent ++ sp_outbox (pv_self g)) `sublist_of` pushes 0 ms /\
    (flawless perfect -> sent ++ sp_outbox (pv_self g) = pushes 0 ms)
}.

Lemma producing_pushed perfect ms g : producing perfect ms g -> pushed ms g.
Proof.
  intros [_ _ _ Ht (sent & H1 & H2 & _)]. split; [|done]. exists sent. split; [done|]. etrans; [|exact H2]. by apply sublist_inserts_r.
Qed.

Lemma send_push perfect route pp g (I : pview -> Prop) (Q : oresult unit -> pview -> Prop) :
  (forall b, encode_payload pp = Some b -> let g' := mkPView (pv_self g) (pv_sent g ++ [(route, b)]) in I g' /\ Q (Ok tt) g') ->
  I g -> (~ flawless perfect -> forall r, r <> Ok tt -> Q r g) -> ensures (peff perfect) (stream_send own route pp) g I Q.
Proof.
  intros Hb Hg HQ. cbn. split; [done|]. intros x g1. destruct x as [[]|e|].
  - intros (b & E & ->). by apply Hb.
  - intros [-> Hp]. split; [done|]. apply HQ; [|done]. intros [Hq Ht]. destruct (Ht pp) as [b Eb]. by rewrite Hp in Eb.
  - intros [-> Hp]. split; [done|]. apply HQ; [|done]. intros [Hq Ht]. destruct (Ht pp) as [b Eb]. by rewrite Hp in Eb.
Qed.

Lemma flush_pushes perfect route l g (I : pview -> Prop) (Q : oresult unit -> pview -> Prop) :
  (forall k bs, k `prefix_of` l -> Forall2 wrote k bs -> Forall (fun rb => rb.1 = route) bs ->
     let g' := mkPView (pv_self g) (pv_sent g ++ bs) in I g' /\ ((flawless perfect -> k = l) -> forall r, Q r g')) ->
  ensures (peff perfect) (flush_outbox own route l) g I Q.
Proof.
  revert g. induction l as [|pp l IH]; intros g H; cbn [flush_outbox].
  all: destruct (H [] [] (prefix_nil _) (Forall2_nil _) (Forall_nil _)) as [H1 H2]; rewrite app_nil_r in H1, H2;
    replace (mkPView (pv_self g) (pv_sent g)) with g in H1, H2 by (by destruct g).
  - split; [done|]. by apply H2.
  - apply ensures_try, send_push; [|done|].
    + intros b Eb g'. assert (ensures (peff perfect) (flush_outbox own route l) g' I Q) as Hl.
      { apply IH. intros k bs Hk Hw Hr. destruct (H (pp :: k) ((route, b) :: bs)) as [H3 H4].
        { by apply prefix_cons. } { by constructor. } { by constructor. }
        cbn [pv_self pv_sent g']. rewrite <-app_assoc. split; [done|]. intros Hf. apply H4. intros Hp. f_equal. auto. }
      split; [|exact Hl]. destruct l; apply Hl.
    + intros Hn r Hr. destruct r as [[]|e|]; [done| |done]. split; [done|]. apply H2. by intros ?.
Qed.

Lemma handle_answer w m r :
  answer m = Some r ->
  StreamProducer_handle_message own w m = (do? response <- plift r; producer_handle_response own w (back_of m) response).
Proof.
  unfold answer, StreamProducer_handle_message. destruct (decode_payload _) as [pp|]; [|done]. cbn.
  destruct (Response_check_id _); [|done]. by intros [= <-].
Qed.

Lemma handle_push w m :
  answer m = None -> StreamProducer_handle_message own w m = producer_push own w (transport_message (local_msg m)).
Proof.
  unfold answer, StreamProducer_handle_message. destruct (decode_payload _) as [pp|]; [|done]. cbn. by destruct (Response_check_id _).
Qed.

Lemma from_answers_app ms ms' (l : list (Route * bytes)) :
  Forall (fun rb => from_answer ms rb.1) l -> Forall (fun rb => from_answer (ms ++ ms') rb.1) l.
Proof. intros H. eapply list.Forall_impl; [exact H|]. intros rb. apply from_answer_app. Qed.

(** A message that is not pushed. *)
Lemma producing_skip perfect ms m g w :
  pushes (next_id 0 ms) [m] = [] -> sp_ids w = next_id 0 (ms ++ [m]) -> is_init m = false ->
  sp_init w = sp_init (pv_self g) -> sp_route w = sp_route (pv_self g) -> sp_outbox w = sp_outbox (pv_self g) ->
  producing perfect ms g -> producing perfect (ms ++ [m]) (mkPView w (pv_sent g)).
Proof.
  intros E1 E2 E3 Ei Er Eo [H1 H2 H3 H4 H5]. split; cbn [pv_self pv_sent]; rewrite ?Ei, ?Er, ?Eo; [done| | | |].
  - by rewrite existsb_app, H2; cbn; rewrite E3, !orb_false_r.
  - intros Hi. destruct (H3 Hi) as [H6 H7]. split; [by apply from_answer_app|done].
  - by apply from_answers_app.
  - rewrite pushes_app, E1, app_nil_r. exact H5.
Qed.

(** A message that is queued, and one that is sent. *)
Lemma producing_queued perfect ms m g w pp :
  pushes (next_id 0 ms) [m] = [pp] -> sp_ids w = next_id 0 (ms ++ [m]) -> is_init m = false ->
  sp_init (pv_self g) = false -> sp_init w = false -> sp_outbox w = sp_outbox (pv_self g) ++ [pp] ->
  producing perfect ms g -> producing perfect (ms ++ [m]) (mkPView w (pv_sent g)).
Proof.
  intros E1 E2 E3 Ei Ew Eo [H1 H2 H3 H4 (sent & S1 & S2 & S3)]. split; cbn [pv_self pv_sent]; rewrite ?Ew, ?Eo; [done| |done| |].
  - by rewrite existsb_app, <-H2, Ei; cbn; rewrite E3.
  - by apply from_answers_app.
  - exists sent. rewrite pushes_app, E1, app_assoc. split; [done|]. split; [by apply sublist_app|].
    intros Hf. by rewrite (S3 Hf).
Qed.

Lemma producing_sent perfect ms m g w pp b :
  pushes (next_id 0 ms) [m] = [pp] -> sp_ids w = next_id 0 (ms ++ [m]) -> is_init m = false -> encode_payload pp = Some b ->
  sp_init (pv_self g) = true -> sp_init w = true -> sp_route w = sp_route (pv_self g) -> sp_outbox w = sp_outbox (pv_self g) ->
  producing perfect ms g -> producing perfect (ms ++ [m]) (mkPView w (pv_sent g ++ [(sp_route (pv_self g), b)])).
Proof.
  intros E1 E2 E3 Eb Ei Ew Er Eo [H1 H2 H3 H4 (sent & S1 & S2 & S3)]. destruct (H3 Ei) as [H6 H7].
  rewrite H7, app_nil_r in S2, S3. split; cbn [pv_self pv_sent]; rewrite ?Ew, ?Er, ?Eo, ?H7; [done| | | |].
  - by rewrite existsb_app, <-H2, Ei.
  - intros _. split; [by apply from_answer_app|done].
  - apply Forall_app. split; [by apply from_answers_app|]. apply Forall_singleton. by apply from_answer_app.
  - exists (sent ++ [pp]). rewrite app_nil_r, pushes_app, E1. split; [apply Forall2_app; [done|by repeat constructor]|].
    split; [by apply sublist_app|]. intros Hf. by rewrite (S3 Hf).
Qed.

(** A message that should have been sent. *)
Lemma producing_failed perfect ms m g w pp :
  pushes (next_id 0 ms) [m] = [pp] -> sp_ids w = next_id 0 (ms ++ [m]) -> is_init m = false -> ~ flawless perfect ->
  sp_init w = sp_init (pv_self g) -> sp_route w = sp_route (pv_self g) -> sp_outbox w = sp_outbox (pv_self g) ->
  producing perfect ms g -> producing perfect (ms ++ [m]) (mkPView w (pv_sent g)).
Proof.
  intros E1 E2 E3 Hn Ei Er Eo [H1 H2 H3 H4 (sent & S1 & S2 & S3)]. split; cbn [pv_self pv_sent]; rewrite ?Ei, ?Er, ?Eo; [done| | | |].
  - by rewrite existsb_app, H2; cbn; rewrite E3, !orb_false_r.
  - intros Hi. destruct (H3 Hi) as [H6 H7]. split; [by apply from_answer_app|done].
  - by apply from_answers_app.
  - exists sent. rewrite pushes_app. split; [done|]. split; [by apply sublist_inserts_r|done].
Qed.

Lemma not_pushed ms m g w :
  pushed ms g -> pv_sent g = pv_sent w -> pushed (ms ++ [m]) w.
Proof.
  intros [(sent & S1 & S2) H2] E. split; rewrite <-E; [|by apply from_answers_app].
  exists sent. split; [done|]. rewrite pushes_app. by apply sublist_inserts_r.
Qed.

Lemma init_step perfect ms m g r :
  answer m = Some (Ok (RInit r)) -> producing perfect ms g ->
  ensures (peff perfect) (producer_handle_response own (pv_self g) (back_of m) (RInit r)) g (pushed (ms ++ [m]))
    (fun _ => producing perfect (ms ++ [m])).
Proof.
  intros Ha Hp. pose proof (producing_pushed _ _ _ Hp) as Hpu. destruct Hp as [H1 H2 H3 H4 (sent & S1 & S2 & S3)].
  assert (is_init m = true) as Hi by (unfold is_init; by rewrite Ha).
  assert (from_answer (ms ++ [m]) (back_of m)) as Hf.
  { exists m. split_and!; [|done|done]. apply elem_of_app. right. by left. }
  assert (pushes (next_id 0 ms) [m] = []) as Em by (cbn; by rewrite Ha).
  cbn [producer_handle_response]. apply ensures_bind. apply ensures_call; [by eapply not_pushed|]. intros [] g1 ->.
  split; [by eapply not_pushed|]. apply flush_pushes. intros k bs Hk Hw Hr. cbn [pv_self pv_sent].
  assert (Forall (fun rb => from_answer (ms ++ [m]) rb.1) (pv_sent g ++ bs)) as Hto.
  { apply Forall_app. split; [by apply from_answers_app|]. eapply list.Forall_impl; [exact Hr|]. by intros rb ->. }
  assert (sent ++ k `sublist_of` pushes 0 (ms ++ [m])) as Hsub.
  { rewrite pushes_app, Em, app_nil_r. etrans; [|exact S2]. apply sublist_app; [done|]. destruct Hk as [k' ->]. by apply sublist_inserts_r. }
  split; [split; [|done]; exists (sent ++ k); split; [by apply Forall2_app|done]|].
  intros Hall _. split; cbn [pv_self pv_sent sp_ids sp_init sp_route sp_outbox]; [| |done|done|].
  - by rewrite next_id_app; cbn; rewrite Ha.
  - by rewrite existsb_app; cbn; rewrite Hi, orb_true_r.
  - exists (sent ++ k). rewrite app_nil_r. split; [by apply Forall2_app|]. split; [done|]. intros Hfl.
    by rewrite pushes_app, Em, app_nil_r, (Hall Hfl), (S3 Hfl).
Qed.

Lemma push_step perfect ms m g :
  answer m = None -> producing perfect ms g ->
  ensures (peff perfect) (producer_push own (pv_self g) (transport_message (local_msg m))) g (pushed (ms ++ [m]))
    (fun _ => producing perfect (ms ++ [m])).
Proof.
  intros Ha Hp. pose proof (producing_pushed _ _ _ Hp) as Hpu.
  assert (is_init m = false) as Hi by (unfold is_init; by rewrite Ha).
  assert (forall w, pushed (ms ++ [m]) (mkPView w (pv_sent g))) as Hpu' by (intros w; by eapply not_pushed).
  unfold producer_push. destruct (onward_route _) as [|a onward] eqn:Er; cbn [Route_step of_route map_err plift ptry pbind].
  { split; [by eapply not_pushed|]. destruct g as [w l]. apply (producing_skip _ _ _ (mkPView w l) w); try done.
    - cbn. by rewrite Ha, Er.
    - rewrite next_id_app. cbn. rewrite Ha, Er. apply Hp. }
  assert (next_id 0 (ms ++ [m]) = u64_add (sp_ids (pv_self g)) 1) as En.
  { rewrite next_id_app. cbn. rewrite Ha, Er. f_equal. symmetry. apply Hp. }
  assert (pushes (next_id 0 ms) [m] = option_list (push_of (sp_ids (pv_self g)) m)) as Em.
  { cbn [pushes]. rewrite Ha, Er, app_nil_r. do 2 f_equal. symmetry. apply Hp. }
  unfold push_of in Em. rewrite Er in Em. cbn [tail] in Em. unfold Monotonic_next, PushRequest_new, ProtocolPayload_new.
  apply ensures_bind, ensures_call; [by eapply not_pushed|]. intros [] g1 ->. split; [done|].
  destruct (encode_transport _) as [data|]; cbn [mbind option_bind] in Em; cbn [ok_or plift ptry pbind].
  2:{ split; [done|]. by apply producing_skip. }
  destruct (encode_push _) as [d|]; cbn [mbind option_bind] in Em; cbn [plift ptry pbind]; [|by split].
  destruct (sp_init (pv_self g)) eqn:Ei.
  - apply ensures_try, send_push; [|done|].
    + intros b Eb g'. assert (producing perfect (ms ++ [m]) g') as Hg'.
      { by eapply (producing_sent perfect ms m g). }
      split; [by eapply producing_pushed|]. split; [by eapply producing_pushed|done].
    + intros Hn r Hr. destruct r as [[]|e|]; [done| |done]. split; [done|]. eapply producing_failed; done || by rewrite Ei.
  - cbn. split; [done|]. intros [] g1 ->. split; [done|]. by eapply (producing_queued perfect ms m g).
Qed.

Lemma producer_step perfect ms m g :
  producing perfect ms g ->
  ensures (peff perfect) (StreamProducer_handle_message own (pv_self g) m) g (pushed (ms ++ [m])) (fun _ => producing perfect (ms ++ [m])).
Proof.
  intros Hp. destruct (answer m) as [r|] eqn:Ha; [|rewrite handle_push by done; by apply push_step].
  rewrite (handle_answer _ _ r) by done. assert (pushed (ms ++ [m]) g) as Hpu by (eapply not_pushed; [by eapply producing_pushed|done]).
  assert (is_init m = false -> producing perfect (ms ++ [m]) g) as Hskip.
  { intros Hi. destruct g as [w l]. apply (producing_skip _ _ _ (mkPView w l) w); try done.
    - cbn. by rewrite Ha.
    - rewrite next_id_app. cbn. rewrite Ha. apply Hp. }
  unfold is_init in Hskip. rewrite Ha in Hskip.
  destruct r as [[]|e|]; cbn [plift ptry pbind]; [by apply init_step| | | | |]; cbn; auto.
Qed.

(** C31: the messages given to a producer are pushed in order.  Those that come before the
    stream is known wait for it.  Whatever fails, what has been pushed are some of the
    messages it was given, numbered one by one, in order and each once, and each went to
    where an answer to its request came from; when nothing fails and there was such an
    answer, all of them have been pushed, and before it none is lost. *)
Theorem producer_pushes_in_order perfect n route service ms g :
  let start := mkPView (StreamProducer_new n route service) [] in
  let handle := fun m g => StreamProducer_handle_message own (pv_self g) m in
  session (peff perfect) handle ms start g ->
  (exists sent, Forall2 wrote sent (pv_sent g) /\ sent `sublist_of` pushes 0 ms) /\
  Forall (fun rb => from_answer ms rb.1) (pv_sent g) /\
  (flawless perfect -> completes (peff perfect) handle ms start g ->
   if existsb is_init ms then Forall2 wrote (pushes 0 ms) (pv_sent g)
   else pv_sent g = [] /\ sp_outbox (pv_self g) = pushes 0 ms).
Proof.
  intros start handle Hs.
  assert (producing perfect [] start) as H0 by (split; try done; exists []; split_and!; done || constructor).
  split; [|split].
  1, 2: apply (session_sound (peff perfect) handle (producing perfect) pushed ms start g (producing_pushed perfect)
    (producer_step perfect) [] Hs H0).
  intros Hf Hc.
  destruct (completes_sound (peff perfect) handle (fun _ => True) (producing perfect) pushed ms start g (fun ms m g _ => producer_step perfect ms m g)
    (proj2 (list.Forall_forall _ _) (fun _ _ => I)) [] Hc H0) as [_ Hi Hr Ht (sent & S1 & _ & S3)]. cbn [app] in *.
  rewrite <-Hi. destruct (sp_init (pv_self g)) eqn:E.
  - destruct (Hr eq_refl) as [_ Ho]. rewrite Ho, app_nil_r in S3. by rewrite <-(S3 Hf).
  - assert (pv_sent g = []) as Hnil.
    { destruct (pv_sent g) as [|rb l]; [done|]. apply list.Forall_cons in Ht as [(m & Hm & Him & _) _].
      assert (existsb is_init ms = true) as Ex by (apply existsb_exists; exists m; split; [by apply list_elem_of_In|done]). congruence. }
    split; [done|]. rewrite Hnil in S1. apply Forall2_nil_inv_r in S1 as ->. by apply S3.
Qed.
End Producer.
