(* ===== verification/StreamExamples.v ===== *)
(** * A small stream

    Encodings of the messages of streams, a stream with two messages, its consumer and a
    producer, to which the theorems of [StreamSpec] and [ProducerSpec] apply. *)

From Stdlib Require Import ZArith Lia.
From Stdlib Require Strings.Byte Strings.String.
From stdpp Require Import base gmap list numbers option countable.
From S2P Require Import Prelude RustStr Routing AccessControl FlowControl Router Node TcpExamples IdentityV2Examples Execution.
From S2P Require Import Pipes Streams StreamService StreamSpec ProducerSpec.

(** ** Encodings *)

Definition wire_decode {T} `{Wire T} (b : bytes) : option T :=
  match wire_get b with Some (x, []) => Some x | _ => None end.

Lemma wire_decode_put {T} `{Wire T} (x : T) : wire_decode (wire_put x) = Some x.
Proof. unfold wire_decode. pose proof (wire_get_put x []) as E. rewrite app_nil_r in E. by rewrite E. Qed.

Lemma wire_read {T} `{Wire T} (x : T) b : Some (wire_put x) = Some b -> wire_decode b = Some x.
Proof. intros [= <-]. apply wire_decode_put. Qed.

#[export] Instance wire_payload : Wire ProtocolPayload :=
  wire_via (fun x => (pp_protocol x, pp_data x)) (fun '(a, b) => mkProtocolPayload a b) ltac:(by intros []).
#[export] Instance wire_create : Wire CreateStreamRequest :=
  wire_via cs_stream_name mkCreateStreamRequest ltac:(by intros []).
#[export] Instance wire_push : Wire PushRequest :=
  wire_via (fun x => (pu_request_id x, pu_data x)) (fun '(a, b) => mkPushRequest a b) ltac:(by intros []).
#[export] Instance wire_pull : Wire PullRequest :=
  wire_via (fun x => (pl_request_id x, pl_index x, pl_limit x)) (fun '(a, b, c) => mkPullRequest a b c) ltac:(by intros []).
#[export] Instance wire_index : Wire IndexRequest :=
  wire_via (fun x => match x with IndexGet a b => inl (a, b) | IndexSave a b c => inr (a, b, c) end)
    (fun x => match x with inl (a, b) => IndexGet a b | inr (a, b, c) => IndexSave a b c end) ltac:(by intros []).
#[export] Instance wire_init : Wire InitResponse := wire_via ir_stream_name mkInitResponse ltac:(by intros []).
#[export] Instance wire_confirm : Wire PushConfirm :=
  wire_via (fun x => (pc_request_id x, match pc_status x with StreamOk => true | StreamError => false end, pc_index x))
    (fun '(a, b, c) => mkPushConfirm a (if b : bool then StreamOk else StreamError) c) ltac:(by intros [? [] ?]).
#[export] Instance wire_stream_message : Wire StreamMessage :=
  wire_via (fun x => (sm_index x, sm_data x)) (fun '(a, b) => mkStreamMessage a b) ltac:(by intros []).
#[export] Instance wire_pulled : Wire PullResponse :=
  wire_via (fun x => (pr_request_id x, pr_messages x)) (fun '(a, b) => mkPullResponse a b) ltac:(by intros []).
#[export] Instance wire_indexed : Wire IndexResponse :=
  wire_via (fun x => (ix_client_id x, ix_stream_name x, ix_index x)) (fun '(a, b, c) => mkIndexResponse a b c) ltac:(by intros []).
#[export] Instance wire_stream_cmd : Wire StreamWorkerCmd :=
  wire_via (fun x => match x with CmdFetch => None | CmdPull n => Some n end)
    (fun o => match o with None => CmdFetch | Some n => CmdPull n end) ltac:(by intros []).

#[export] Instance toy_stream_codec : StreamCodec := {|
  encode_payload x := Some (wire_put x); decode_payload := wire_decode;
  encode_create x := Some (wire_put x); decode_create := wire_decode;
  encode_push x := Some (wire_put x); decode_push := wire_decode;
  encode_pull x := Some (wire_put x); decode_pull := wire_decode;
  encode_index x := Some (wire_put x); decode_index := wire_decode;
  encode_init x := Some (wire_put x); decode_init := wire_decode;
  encode_confirm x := Some (wire_put x); decode_confirm := wire_decode;
  encode_pulled x := Some (wire_put x); decode_pulled := wire_decode;
  encode_indexed x := Some (wire_put x); decode_indexed := wire_decode;
  encode_stream_message x := Some (wire_put x); decode_stream_message := wire_decode;
  encode_stream_cmd x := Some (wire_put x); decode_stream_cmd := wire_decode
|}.

#[export] Instance toy_stream_laws : StreamCodecLaws.
Proof. split; intros x b; exact (wire_read x b). Qed.
#[export] Instance toy_stream_total : StreamCodecTotal.
Proof. split; by eexists. Qed.

(** ** A consumer *)

Definition local (s : bytes) : Address := mkAddress (mkTransportType Byte.x00) s.

Definition own_address : Address := local (str "consumer").
Definition rx_address : Address := local (str "rx").
Definition the_client : bytes := str "client".
Definition the_name : bytes := str "stream-a".

(** A message in the stream, for [app] on the other side. *)
Definition to_app (payload : bytes) : bytes := default [] (encode_transport (TransportMessage_v1 [local (str "app")] [] payload)).

Definition the_consumer : StreamConsumer :=
  mkStreamConsumer the_client [local (str "stream")] [local (str "stream_index")] None the_name 250 rx_address 0 0.

Definition the_storage : StreamStorage := (save (to_app (str "two")) (save (to_app (str "one")) init_partition).2).2.
Definition the_streams : gmap bytes StreamState := {[ the_name := mkStreamState the_name the_storage ]}.

Definition no_error (reason : bytes) : option bytes := None.

Notation the_step := (sys_step own_address rx_address the_name no_error).
Notation the_start := (started own_address rx_address the_client the_name None the_streams ∅).

Lemma the_kept : kept (storage_of the_name the_streams).
Proof.
  unfold storage_of, the_streams. rewrite lookup_singleton_eq. cbn [fmap option_fmap option_map default from_option se_storage].
  destruct init_stored as [H1 H2]. destruct (save_stored (to_app (str "one")) _ H1 H2) as [H3 H4].
  destruct (save_stored (to_app (str "two")) _ H3 H4) as [H5 H6]. split_and!; try done.
Qed.

Lemma the_consumer_ours : ours rx_address the_client the_name None the_consumer.
Proof. split_and!; done. Qed.

Definition service_route : Route := [local (str "stream-worker")].

(** A run that comes to the end of the stream. *)
Lemma the_run :
  exists y0 y, the_start y0 /\ rtc the_step y0 y /\ cv_out (y_view y) = deliver None (entries (storage_of the_name the_streams) 0 2).
Proof.
  assert (the_name <> []) as Hn by done. assert (in_u64 (start None)) as Hs by done. assert (0 <= start None)%Z as Hp by done.
  assert (service_route <> [rx_address]) as Hb by done.
  destruct (stream_begins own_address rx_address the_client the_name None no_error None Hp Hn service_route Hb
    the_streams ∅ the_consumer the_consumer_ours ltac:(done) Hs ltac:(done)) as (y0 & y1 & H0 & R1 & I1 & N1 & S1).
  assert (inv rx_address the_client the_name None None y1) as Hinv.
  { eapply (run_inv own_address); [exact Hp|exact Hn|exact R1|]. 
    eapply (started_inv own_address); [exact the_kept|apply lookup_empty|exact H0]. }
  destruct (idle_catches_up own_address rx_address the_client the_name None no_error None Hp Hn service_route Hb y1 Hinv I1 N1 Hs)
    as (y & R & _ & _ & Hout & _).
  exists y0, y. split; [done|]. split; [by etrans|]. cbn zeta in Hout. rewrite S1 in Hout. exact Hout.
Qed.

(** Both messages have been tried, in order. *)
Lemma stream_in_order_witness :
  exists y0 y, the_start y0 /\ rtc the_step y0 y /\ cv_out (y_view y) = deliver None (entries (storage_of the_name the_streams) 0 2) /\
    exists n, in_stream None (storage_of the_name (y_streams y)) n /\
      let all := deliver None (entries (storage_of the_name (y_streams y)) 0 n) in
      cv_out (y_view y) `prefix_of` all /\ succeeded (cv_tried (y_view y)) `sublist_of` all /\
      (no_failure (cv_tried (y_view y)) -> succeeded (cv_tried (y_view y)) `prefix_of` all).
Proof.
  destruct the_run as (y0 & y & H0 & R & Hout). exists y0, y. split; [done|]. split; [done|]. split; [done|].
  refine (proj1 (stream_in_order own_address rx_address the_client the_name None no_error None _ _ the_streams ∅ y0 y _ _ H0 R));
    [done|done|exact the_kept|done].
Defined.

(** Without the answer to its first request nothing is ever passed on. *)
Lemma lost_reply_stops_stream_witness :
  exists y0 v p st ix, the_start y0 /\ rtc the_step y0 (mkSys v true ([] ++ p :: []) st ix) /\
    forall y, rtc the_step (mkSys v true ([] ++ []) st ix) y -> cv_tried (y_view y) = [].
Proof.
  destruct (asks own_address rx_address the_client the_name None no_error None ltac:(done) ltac:(done) the_streams ∅ the_consumer
    the_consumer_ours) as (b & reply & streams' & H0 & R & _).
  exists (mkSys (mkCView the_consumer [] [b] []) true [] the_streams ∅), (mkCView the_consumer [] [] []), reply, streams', ∅.
  split; [exact H0|]. split; [exact R|]. intros y Hy.
  refine (proj1 (lost_reply_stops_stream own_address rx_address the_client the_name None no_error None _ _ the_streams ∅ _
    (mkCView the_consumer [] [] []) [] reply [] streams' ∅ y _ _ H0 R Hy)); [done|done|exact the_kept|done].
Defined.

Lemma stream_catches_up_witness :
  exists y0 y1, the_start y0 /\ rtc the_step y0 y1 /\ idle y1 /\
    exists y', rtc the_step y1 y' /\
      let s := storage_of the_name (y_streams y1) in
      cv_out (y_view y') = deliver None (entries s 0 (Z.max 0 (ss_latest s + 1))) /\
      exists l, cv_tried (y_view y') = cv_tried (y_view y1) ++ all_with true l.
Proof.
  destruct (stream_catches_up own_address rx_address the_client the_name None no_error None ltac:(done) ltac:(done) service_route ltac:(done)
    the_streams ∅ the_consumer the_kept ltac:(done) ltac:(done) the_consumer_ours ltac:(done)) as (y0 & y1 & H0 & R & Hi & H).
  exists y0, y1. split; [exact H0|]. split; [exact R|]. split; [exact Hi|].
  destruct (H y1 (rtc_refl _ _) Hi) as (y' & R' & _ & _ & Hout). exists y'. split; [exact R'|exact Hout].
Defined.

(** ** A producer

    It is given a message before the answer of the service, and one afterwards. *)

Definition given (payload : bytes) : Routed unit :=
  mkRouted tt own_address own_address (mkLocalMessage (TransportMessage_v1 [own_address; local (str "app")] service_route payload) []).

Definition the_answer : Routed unit :=
  given (wire_put (mkProtocolPayload (str "stream_create") (wire_put (mkInitResponse the_name)))).

Definition the_messages : list (Routed unit) := [given (str "one"); the_answer; given (str "two")].

Notation producer_handle := (fun m g => StreamProducer_handle_message own_address (pv_self g) m).
Notation the_producer := (mkPView (StreamProducer_new the_name [] (str "stream")) []).

Lemma toy_flawless : flawless true.
Proof. split; [done|]. by eexists. Qed.

Lemma producer_completes : exists g, completes (peff true) producer_handle the_messages the_producer g.
Proof.
  eexists. eapply completes_cons.
  { rewrite handle_push by (vm_compute; reflexivity). eapply execs_call with (x := tt); [reflexivity|].
    eapply execs_call with (x := tt); [reflexivity|]. apply execs_ret. }
  eapply completes_cons.
  { erewrite handle_answer by (vm_compute; reflexivity). eapply execs_call with (x := tt); [reflexivity|].
    eapply execs_call with (x := Ok tt); [by eexists|]. apply execs_ret. }
  eapply completes_cons; [|apply completes_nil].
  rewrite handle_push by (vm_compute; reflexivity). eapply execs_call with (x := tt); [reflexivity|].
  eapply execs_call with (x := Ok tt); [by eexists|]. apply execs_ret.
Qed.

(** Both have been pushed. *)
Lemma producer_pushes_in_order_witness :
  exists g, completes (peff true) producer_handle the_messages the_producer g /\ length (pushes 0 the_messages) = 2 /\
    Forall2 wrote (pushes 0 the_messages) (pv_sent g).
Proof.
  destruct producer_completes as [g Hg]. exists g. split; [exact Hg|]. split; [vm_compute; reflexivity|].
  exact (proj2 (proj2 (producer_pushes_in_order own_address true the_name [] (str "stream") the_messages g (completes_session _ _ _ _ _ Hg)))
    toy_flawless Hg).
Defined.
