(* ===== verification/AbacElixir.v ===== *)
(** * Policies in Elixir (implementations/elixir/ockam/ockam_abac/lib)

    Attribute rules as the services of the orchestrator match them: their validation, and
    their evaluation on a request.  [rules_agree] compares them with the evaluator of
    ockam_abac in Rust. *)

From Stdlib Require Import ZArith Lia Floats.SpecFloat.
From Stdlib Require Strings.Byte Strings.String.
From stdpp Require Import base gmap list numbers option.
From S2P Require Import Prelude RustStr AbacExpr AbacEval.

(** ** Terms

    Values are strings, numbers and booleans; an attribute may be a list too.  Floats are
    finite in Elixir. *)

Inductive attribute_source := SourceResource | SourceAction | SourceSubject.

Definition rule_key : Type := attribute_source * bytes.

Inductive rule_value :=
| XStr (s : bytes)
| XInt (i : Z)
| XFloat (f : spec_float)
| XBool (b : bool).

Inductive attribute :=
| AVal (v : rule_value)
| AList (l : list attribute).

(** What stands beside the name of an operation. *)
Inductive operand :=
| OKey (k : rule_key)
| OTerm (a : attribute).

Inductive filter_op := FEq | FLt | FGt | FNeq.

Inductive rule :=
| RBool (b : bool)
| RFilter (op : filter_op) (one other : operand)
| RMember (element list : operand)
| RExists (key : operand)
| RNot (r : rule)
| RAnd (rules : list rule)
| ROr (rules : list rule)
| RIf (condition true_rule false_rule : rule).

Record AbacRequest := mkAbacRequest {
  rq_action_attributes : gmap bytes attribute;
  rq_resource_attributes : gmap bytes attribute;
  rq_subject_attributes : gmap bytes attribute
}.

(** *** The order of terms

    Numbers, then atoms (the booleans), then lists, then binaries.  Integers and floats
    are compared by what they are worth. *)

Definition float_int_compare (f : spec_float) (i : Z) : comparison :=
  match f with
  | S754_zero _ | S754_nan => (0 ?= i)%Z
  | S754_infinity s => if s then Lt else Gt
  | S754_finite s m e =>
      let m := if s then Zneg m else Zpos m in
      if (0 <=? e)%Z then (m * 2 ^ e ?= i)%Z else (m ?= i * 2 ^ (- e))%Z
  end.

Definition value_rank (v : rule_value) : nat :=
  match v with XInt _ | XFloat _ => 0 | XBool _ => 1 | XStr _ => 3 end.

Definition value_compare (a b : rule_value) : comparison :=
  match a, b with
  | XInt a, XInt b => (a ?= b)%Z
  | XFloat a, XFloat b => default Eq (SFcompare a b)
  | XFloat a, XInt b => float_int_compare a b
  | XInt a, XFloat b => CompOpp (float_int_compare b a)
  | XBool a, XBool b => bool_compare a b
  | XStr a, XStr b => bytes_compare a b
  | a, b => Nat.compare (value_rank a) (value_rank b)
  end.

Fixpoint term_compare (a b : attribute) : comparison :=
  match a, b with
  | AVal a, AVal b => value_compare a b
  | AVal a, AList _ => Nat.compare (value_rank a) 2
  | AList _, AVal b => Nat.compare 2 (value_rank b)
  | AList xs, AList ys =>
      (fix lists xs ys := match xs, ys with
                          | [], [] => Eq
                          | [], _ :: _ => Lt
                          | _ :: _, [] => Gt
                          | x :: xs, y :: ys => match term_compare x y with Eq => lists xs ys | c => c end
                          end) xs ys
  end.

(** [===], of [Enum.member?] *)
Definition value_same (a b : rule_value) : bool :=
  match a, b with
  | XInt a, XInt b => (a =? b)%Z
  | XFloat a, XFloat b => SFeqb a b
  | XBool a, XBool b => Bool.eqb a b
  | XStr a, XStr b => bool_decide (a = b)
  | _, _ => false
  end.

Fixpoint term_same (a b : attribute) : bool :=
  match a, b with
  | AVal a, AVal b => value_same a b
  | AList xs, AList ys =>
      (fix lists xs ys := match xs, ys with
                          | [], [] => true
                          | x :: xs, y :: ys => term_same x y && lists xs ys
                          | _, _ => false
                          end) xs ys
  | _, _ => false
  end.

(** ** Matching (attribute_rules.ex)

    A function without a clause for its arguments is a [Panic]. *)

Definition fetch_attribute (request : AbacRequest) (k : rule_key) : option attribute :=
  match k.1 with
  | SourceResource => rq_resource_attributes request
  | SourceAction => rq_action_attributes request
  | SourceSubject => rq_subject_attributes request
  end !! k.2.

Definition compare_terms (op : filter_op) (val1 val2 : attribute) : bool :=
  match op with
  | FEq => bool_decide (term_compare val1 val2 = Eq)
  | FNeq => negb (bool_decide (term_compare val1 val2 = Eq))
  | FGt => bool_decide (term_compare val1 val2 = Gt)
  | FLt => bool_decide (term_compare val1 val2 = Lt)
  end.

Definition member_element (o : operand) (request : AbacRequest) : result unit (option attribute) :=
  match o with
  | OKey k => Ok (fetch_attribute request k)
  | OTerm (AVal v) => Ok (Some (AVal v))
  | OTerm (AList _) => Panic
  end.

Definition member_list (o : operand) (request : AbacRequest) : result unit (option (list attribute)) :=
  match o with
  | OKey k => Ok (match fetch_attribute request k with Some (AList l) => Some l | _ => None end)
  | OTerm (AList l) => Ok (Some l)
  | OTerm (AVal _) => Panic
  end.

(** [Enum.all?] and [Enum.any?] *)
Definition enum_all (f : rule -> result unit bool) : list rule -> result unit bool :=
  fix all l := match l with
               | [] => Ok true
               | r :: l => let? b := f r in if b then all l else Ok false
               end.

Definition enum_any (f : rule -> result unit bool) : list rule -> result unit bool :=
  fix any l := match l with
               | [] => Ok false
               | r :: l => let? b := f r in if b then Ok true else any l
               end.

Fixpoint match_rule (r : rule) (request : AbacRequest) : result unit bool :=
  match r with
  | RFilter op (OKey k) (OTerm (AVal v)) =>
      Ok (match fetch_attribute request k with
          | Some a => compare_terms op a (AVal v)
          | None => false
          end)
  | RFilter op (OKey k1) (OKey k2) =>
      Ok (match fetch_attribute request k1, fetch_attribute request k2 with
          | Some val1, Some val2 => compare_terms op val1 val2
          | _, _ => false
          end)
  | RMember element list =>
      let? e := member_element element request in
      match e with
      | None => Ok false
      | Some e =>
          let? l := member_list list request in
          Ok (match l with Some l => existsb (term_same e) l | None => false end)
      end
  | RExists (OKey k) => Ok (match fetch_attribute request k with Some _ => true | None => false end)
  | RNot r => let? b := match_rule r request in Ok (negb b)
  | RAnd rules => enum_all (fun r => match_rule r request) rules
  | ROr rules => enum_any (fun r => match_rule r request) rules
  | RIf condition true_rule false_rule =>
      let? b := match_rule condition request in
      if b then match_rule true_rule request else match_rule false_rule request
  | RBool b => Ok b
  | _ => Ok false
  end.

Inductive rule_error :=
| InvalidRule (r : rule)
| InvalidListElements (r : rule)
| InternalRulesInvalid (errors : list rule_error).

Definition is_value (o : attribute) : bool := match o with AVal _ => true | AList _ => false end.

Definition key_or_value (o : operand) : bool := match o with OKey _ => true | OTerm a => is_value a end.

Definition validate_list (l : list attribute) (r : rule) : result rule_error unit :=
  if forallb is_value l then Ok tt else Err (InvalidListElements r).

(** [validate_inner_rules], on what [validate] says of the rules *)
Definition inner_rules (results : list (result rule_error unit)) : result rule_error unit :=
  match omap (fun r => match r with Err e => Some e | _ => None end) results with
  | [] => Ok tt
  | errors => Err (InternalRulesInvalid errors)
  end.

Fixpoint validate (r : rule) : result rule_error unit :=
  match r with
  | RBool _ => Ok tt
  | RFilter _ (OKey _) o => if key_or_value o then Ok tt else Err (InvalidRule r)
  | RExists (OKey _) => Ok tt
  | RMember o (OKey _) => if key_or_value o then Ok tt else Err (InvalidRule r)
  | RMember o (OTerm (AList l)) => if key_or_value o then validate_list l r else Err (InvalidRule r)
  | RAnd rules | ROr rules =>
      match rules with
      | _ :: _ :: _ => inner_rules (map validate rules)
      | _ => Err (InvalidRule r)
      end
  | RNot r => validate r
  | RIf condition true_rule false_rule => inner_rules [validate condition; validate true_rule; validate false_rule]
  | _ => Err (InvalidRule r)
  end.

(** [AttributeRule.new]: a rule is its definition, when that is valid. *)
Definition AttributeRule_new (rule_def : rule) : result rule_error rule :=
  let? _ := validate rule_def in Ok rule_def.

(** ** The same policy in Rust *)

Definition source_text (s : attribute_source) : bytes :=
  match s with
  | SourceResource => str "resource"
  | SourceAction => str "action"
  | SourceSubject => str "subject"
  end.

Definition key_text (k : rule_key) : bytes := source_text k.1 ++ str "." ++ k.2.

Definition op_text (op : filter_op) : bytes :=
  match op with FEq => str "=" | FNeq => str "!=" | FGt => str ">" | FLt => str "<" end.

Definition value_expr (v : rule_value) : Expr :=
  match v with XStr s => EStr s | XInt i => EInt i | XFloat f => EFloat f | XBool b => EBool b end.

Fixpoint attribute_expr (a : attribute) : Expr :=
  match a with AVal v => value_expr v | AList l => ESeq (map attribute_expr l) end.

Definition operand_expr (o : operand) : Expr :=
  match o with OKey k => EIdent (key_text k) | OTerm a => attribute_expr a end.

Definition call (op : bytes) (xs : list Expr) : Expr := EList (EIdent op :: xs).

Fixpoint rule_expr (r : rule) : Expr :=
  match r with
  | RBool b => EBool b
  | RFilter op a b => call (op_text op) [operand_expr a; operand_expr b]
  | RMember a b => call (str "member?") [operand_expr a; operand_expr b]
  | RExists a => call (str "exists?") [operand_expr a]
  | RNot r => call (str "not") [rule_expr r]
  | RAnd l => call (str "and") (map rule_expr l)
  | ROr l => call (str "or") (map rule_expr l)
  | RIf c t f => call (str "if") [rule_expr c; rule_expr t; rule_expr f]
  end.

(** ** Facts on terms *)

Lemma rule_ind' (P : rule -> Prop) :
  (forall b, P (RBool b)) -> (forall op a b, P (RFilter op a b)) -> (forall a b, P (RMember a b)) -> (forall a, P (RExists a)) ->
  (forall r, P r -> P (RNot r)) -> (forall l, Forall P l -> P (RAnd l)) -> (forall l, Forall P l -> P (ROr l)) ->
  (forall c t f, P c -> P t -> P f -> P (RIf c t f)) -> forall r, P r.
Proof.
  intros H1 H2 H3 H4 H5 H6 H7 H8. fix IH 1. intros [b|op a b|a b|a|r|l|l|c t f]; [apply H1|apply H2|apply H3|apply H4|apply H5, IH| | |apply H8; apply IH].
  - apply H6. induction l as [|x l IHl]; constructor; [apply IH|apply IHl].
  - apply H7. induction l as [|x l IHl]; constructor; [apply IH|apply IHl].
Qed.

Lemma attribute_ind' (P : attribute -> Prop) :
  (forall v, P (AVal v)) -> (forall l, Forall P l -> P (AList l)) -> forall a, P a.
Proof.
  intros H1 H2. fix IH 1. intros [v|l]; [apply H1|]. apply H2. induction l as [|x l IHl]; constructor; [apply IH|apply IHl].
Qed.

Definition float_ok (f : spec_float) : bool := match f with S754_nan => false | _ => true end.

Definition value_ok (v : rule_value) : bool := match v with XFloat f => float_ok f | _ => true end.

Fixpoint term_ok (a : attribute) : bool := match a with AVal v => value_ok v | AList l => forallb term_ok l end.

Definition operand_ok (o : operand) : bool := match o with OKey _ => true | OTerm a => term_ok a end.

Fixpoint rule_ok (r : rule) : bool :=
  match r with
  | RFilter _ a b | RMember a b => operand_ok a && operand_ok b
  | RNot r => rule_ok r
  | RAnd l | ROr l => forallb rule_ok l
  | RIf c t f => rule_ok c && rule_ok t && rule_ok f
  | _ => true
  end.

Lemma float_compare_some a b : float_ok a = true -> float_ok b = true -> exists c, SFcompare a b = Some c.
Proof. destruct a as [[]|[]| |[]], b as [[]|[]| |[]]; cbn; try done; eauto; intros _ _; repeat case_match; eauto. Qed.

Lemma value_equals a b c :
  value_ok a = true -> value_ok b = true -> equals_ref (value_expr a) (value_expr b) = Ok c ->
  c = bool_decide (value_compare a b = Eq) /\ value_same a b = c.
Proof.
  destruct a as [a|a|a|a], b as [b|b|b|b]; cbn; intros Ha Hb; try done; intros [= <-].
  - split; [|done]. apply bool_decide_ext. by rewrite bytes_compare_eq.
  - split; [|done]. case_bool_decide as E; [by apply Z.compare_eq, Z.eqb_eq in E|]. apply Z.eqb_neq. intros ->. by rewrite Z.compare_refl in E.
  - destruct (float_compare_some a b Ha Hb) as [c Ec]. unfold SFeqb. rewrite Ec. by destruct c.
  - by destruct a, b.
Qed.

Lemma term_equals a b c :
  term_ok a = true -> term_ok b = true -> equals_ref (attribute_expr a) (attribute_expr b) = Ok c ->
  c = bool_decide (term_compare a b = Eq) /\ term_same a b = c.
Proof.
  revert b c. induction a as [v|l IH] using attribute_ind'; intros [w|k] c Ha Hb.
  - apply value_equals; done.
  - by destruct v.
  - by destruct w.
  - cbn [attribute_expr equals_ref]. rewrite !length_map. cbn [term_ok] in Ha, Hb. cbn [term_compare term_same].
    set (cmp := fix lists xs ys := match xs, ys with [], [] => Eq | [], _ :: _ => Lt | _ :: _, [] => Gt
      | x :: xs, y :: ys => match term_compare x y with Eq => lists xs ys | c => c end end).
    set (same := fix lists xs ys := match xs, ys with [], [] => true | x :: xs, y :: ys => term_same x y && lists xs ys | _, _ => false end).
    revert k c Hb. induction IH as [|x l Hx _ IHl]; intros [|y k] c Hb; cbn; try (by intros [= <-]).
    cbn in Ha, Hb. apply andb_true_iff in Ha as [Hax Hal], Hb as [Hby Hbk]. specialize (IHl Hal k).
    destruct (equals_ref (attribute_expr x) (attribute_expr y)) as [d| |] eqn:Exy; cbn [rbind].
    + destruct (Hx y d Hax Hby Exy) as [-> Hs]. rewrite Hs. destruct (Nat.eqb (length l) (length k)) eqn:El.
      * case_bool_decide as E; [rewrite E; intros H; by apply IHl|]. intros [= <-]. split; [|done].
        rewrite bool_decide_false; [done|]. by destruct (term_compare x y).
      * intros [= <-]. destruct (IHl false) as [Hf Hg]; [done|done|]. rewrite Hg, andb_false_r. split; [|done].
        rewrite bool_decide_false; [done|]. symmetry in Hf. apply bool_decide_eq_false in Hf. by destruct (term_compare x y).
    + destruct (Nat.eqb (length l) (length k)) eqn:El; [done|]. intros [= <-]. destruct (IHl false) as [Hf Hg]; [done|done|].
      rewrite Hg, andb_false_r. split; [|done]. rewrite bool_decide_false; [done|].
      symmetry in Hf. apply bool_decide_eq_false in Hf. by destruct (term_compare x y).
    + destruct (Nat.eqb (length l) (length k)) eqn:El; [done|]. intros [= <-]. destruct (IHl false) as [Hf Hg]; [done|done|].
      rewrite Hg, andb_false_r. split; [|done]. rewrite bool_decide_false; [done|].
      symmetry in Hf. apply bool_decide_eq_false in Hf. by destruct (term_compare x y).
Qed.

Lemma value_orders a b o :
  value_ok a = true -> value_ok b = true -> compare_ref (value_expr a) (value_expr b) = Ok o -> o = Some (value_compare a b).
Proof.
  destruct a as [a|a|a|a], b as [b|b|b|b]; cbn; intros Ha Hb; try done; intros [= <-]; try done.
  by destruct (float_compare_some a b Ha Hb) as [c ->].
Qed.

(** ** Both evaluators *)

Lemma validate_returns r : validate r <> Panic.
Proof.
  induction r as [b|op [] b|a [k|[]]|[]|r IH|l _|l _|c t f _ _ _] using rule_ind'; cbn; unfold validate_list, inner_rules;
    try done; repeat case_match; done.
Qed.

Lemma inner_valid l : inner_rules (map validate l) = Ok tt -> Forall (fun r => validate r = Ok tt) l.
Proof.
  unfold inner_rules. destruct (omap _ _) eqn:E; [|done]. intros _. induction l as [|r l IH]; [constructor|].
  cbn in E. pose proof (validate_returns r). destruct (validate r) as [[]|e|] eqn:Er; try done. constructor; [done|]. by apply IH.
Qed.

Section Agreement.
Context (q : AbacRequest) (env : Env).

(** The environment has the attributes of the request. *)
Hypothesis same_attributes : forall k, env !! key_text k = attribute_expr <$> fetch_attribute q k.
Hypothesis floats_ok : forall k a, fetch_attribute q k = Some a -> term_ok a = true.

Definition resolve_operand (o : operand) : option attribute :=
  match o with OKey k => fetch_attribute q k | OTerm a => Some a end.

(** What a policy computes to in Rust. *)
Definition computes (e v : Expr) : Prop := exists n, denote n env e = oret v.

Lemma computes_unique e v n r : computes e v -> denote n env e = Some r -> r = inr v.
Proof.
  intros [m Hm] Hn. apply (denote_mono m (Nat.max m n) env e ltac:(lia)) in Hm. apply (denote_mono n (Nat.max m n) env e ltac:(lia)) in Hn.
  rewrite Hm in Hn. by injection Hn.
Qed.

Lemma all_computes es vs : Forall2 computes es vs -> exists n, eval_all (denote n env) es = oret vs.
Proof.
  induction 1 as [|e v es vs [n Hn] _ [m Hm]]; [by exists 0|]. exists (Nat.max n m). cbn.
  rewrite (denote_mono n _ env e (Nat.le_max_l n m) _ Hn). cbn.
  by rewrite (all_refines _ (denote (Nat.max n m) env) (fun x => denote_mono m _ env x (Nat.le_max_r n m)) es _ Hm).
Qed.

Lemma attribute_computes a : computes (attribute_expr a) (attribute_expr a).
Proof.
  induction a as [v|l IH] using attribute_ind'; [by exists 1; destruct v|].
  destruct (all_computes (map attribute_expr l) (map attribute_expr l)) as [n Hn].
  { induction IH as [|a l Ha _ IHl]; constructor; done. }
  exists (S n). cbn. by rewrite Hn.
Qed.

Lemma operand_computes o a : resolve_operand o = Some a -> computes (operand_expr o) (attribute_expr a).
Proof.
  destruct o as [k|b]; cbn; [|intros [= ->]; apply attribute_computes]. intros Hk. destruct (attribute_computes a) as [n Hn].
  exists (S n). cbn. unfold Env_get. by rewrite same_attributes, Hk.
Qed.

(** If it computes to a value, then the attribute is there. *)
Lemma operand_value o n v : denote n env (operand_expr o) = Some (inr v) -> exists a, resolve_operand o = Some a /\ v = attribute_expr a.
Proof.
  intros Hn. destruct (resolve_operand o) as [a|] eqn:Eo.
  - exists a. split; [done|]. by injection (computes_unique _ _ _ _ (operand_computes o a Eo) Hn).
  - destruct o as [k|a]; [|done]. destruct n as [|n]; [done|]. cbn in *. unfold Env_get in Hn. by rewrite same_attributes, Eo in Hn.
Qed.

Lemma operand_term_ok o a : operand_ok o = true -> resolve_operand o = Some a -> term_ok a = true.
Proof. destruct o as [k|b]; cbn; [by eauto|by intros ? [= ->]]. Qed.

(** Lists are not put into order: Rust looks at their lengths first, Elixir does not. *)
Definition scalar_operand (o : operand) : bool := match resolve_operand o with Some (AList _) => false | _ => true end.

Fixpoint scalars_ordered (r : rule) : bool :=
  match r with
  | RFilter (FLt | FGt) a b => scalar_operand a && scalar_operand b
  | RNot r => scalars_ordered r
  | RAnd l | ROr l => forallb scalars_ordered l
  | RIf c t f => scalars_ordered c && scalars_ordered t && scalars_ordered f
  | _ => true
  end.

Definition op_builtin (op : filter_op) : builtin := match op with FEq => BEq | FNeq => BNe | FGt => BGt | FLt => BLt end.

Lemma builtin_op op : builtin_of (op_text op) = Some (op_builtin op).
Proof. by destruct op. Qed.

(** The comparison of two values, where Rust has one. *)
Definition rust_filter (op : filter_op) (x y : Expr) : result EvalError bool :=
  match op with
  | FEq => Expr_equals x y
  | FNeq => let? b := Expr_equals x y in Ok (negb b)
  | FGt => greater_than x y
  | FLt => less_than x y
  end.

Lemma rust_filter_agrees op a b c :
  term_ok a = true -> term_ok b = true -> (op = FLt \/ op = FGt -> is_value a = true /\ is_value b = true) ->
  rust_filter op (attribute_expr a) (attribute_expr b) = Ok c -> c = compare_terms op a b.
Proof.
  intros Ha Hb Hs. assert (forall o, is_value a = true /\ is_value b = true ->
    Expr_compare (attribute_expr a) (attribute_expr b) = Ok o -> o = Some (term_compare a b)) as Ho.
  { destruct a as [a|], b as [b|]; cbn [is_value]; intros o [? ?]; try done. rewrite compare_ref_spec. by apply value_orders. }
  destruct op; cbn; unfold less_than, greater_than.
  - rewrite equals_ref_spec. intros H. by destruct (term_equals a b c Ha Hb H).
  - destruct (Expr_compare _ _) as [o| |] eqn:E; cbn; try done. intros [= <-]. rewrite (Ho o (Hs (or_introl eq_refl)) eq_refl).
    apply bool_decide_ext. split; [by intros [= ->]|by intros ->].
  - destruct (Expr_compare _ _) as [o| |] eqn:E; cbn; try done. intros [= <-]. rewrite (Ho o (Hs (or_intror eq_refl)) eq_refl).
    apply bool_decide_ext. split; [by intros [= ->]|by intros ->].
  - rewrite equals_ref_spec. destruct (equals_ref _ _) as [d| |] eqn:E; cbn; try done. intros [= <-].
    by destruct (term_equals a b d Ha Hb E) as [-> _].
Qed.

Lemma filter_outcome op ev x y :
  apply_builtin env ev (op_builtin op) [x; y] =
    (let^ v := ev x in let^ w := ev y in let^ b := lift (rust_filter op v w) in oret (EBool b)).
Proof.
  destruct op; cbn; unfold predicate; cbn; destruct (ev x) as [[]|]; cbn; try done; destruct (ev y) as [[]|]; cbn; try done.
  all: try (by destruct (Expr_equals _ _) as [[]| |]).
  all: by destruct (less_than _ _) as [[]| |] || destruct (greater_than _ _) as [[]| |].
Qed.

Definition agrees (r : rule) : Prop :=
  forall n v, denote n env (rule_expr r) = Some (inr v) -> exists b, match_rule r q = Ok b /\ v = EBool b.

Lemma and_agrees n msg r l v :
  agrees r -> Forall agrees l -> eval_chain false msg (denote n env) (rule_expr r) (map rule_expr l) = Some (inr v) ->
  exists b, enum_all (fun r => match_rule r q) (r :: l) = Ok b /\ v = EBool b.
Proof.
  intros Hr Hl. revert r Hr. induction Hl as [|r' l Hr' _ IH]; intros r Hr; cbn [map eval_chain].
  - intros (b & Hb & ->)%Hr. exists b. cbn. rewrite Hb. by destruct b.
  - destruct (denote n env (rule_expr r)) as [[|w]|] eqn:Er; cbn [obind]; try done.
    apply Hr in Er as (b & Hb & ->). cbn [enum_all]. rewrite Hb. cbn [rbind]. destruct b; cbn [Bool.eqb].
    + by apply IH.
    + intros [= <-]. by exists false.
Qed.

Lemma or_agrees n msg r l v :
  agrees r -> Forall agrees l -> eval_chain true msg (denote n env) (rule_expr r) (map rule_expr l) = Some (inr v) ->
  exists b, enum_any (fun r => match_rule r q) (r :: l) = Ok b /\ v = EBool b.
Proof.
  intros Hr Hl. revert r Hr. induction Hl as [|r' l Hr' _ IH]; intros r Hr; cbn [map eval_chain].
  - intros (b & Hb & ->)%Hr. exists b. cbn. rewrite Hb. by destruct b.
  - destruct (denote n env (rule_expr r)) as [[|w]|] eqn:Er; cbn [obind]; try done.
    apply Hr in Er as (b & Hb & ->). cbn [enum_any]. rewrite Hb. cbn [rbind]. destruct b; cbn [Bool.eqb].
    + intros [= <-]. by exists true.
    + by apply IH.
Qed.

Lemma filter_agrees op a b :
  validate (RFilter op a b) = Ok tt -> rule_ok (RFilter op a b) = true -> scalars_ordered (RFilter op a b) = true -> agrees (RFilter op a b).
Proof.
  intros Hv Hok Hs [|n] v; [done|]. cbn [rule_expr call denote]. rewrite builtin_op, filter_outcome.
  destruct (denote n env (operand_expr a)) as [[|x]|] eqn:Ea; cbn [obind]; try done.
  destruct (denote n env (operand_expr b)) as [[|y]|] eqn:Eb; cbn [obind]; try done.
  apply operand_value in Ea as (x' & Ea & ->). apply operand_value in Eb as (y' & Eb & ->).
  destruct (rust_filter _ _ _) as [c| |] eqn:Ef; cbn; try done. intros [= <-]. exists c. split; [|done].
  cbn in Hok. apply andb_true_iff in Hok as [Ha Hb]. apply rust_filter_agrees in Ef as ->.
  - destruct a as [k|]; [|done]. destruct b as [k'|[w|]]; [| |done]; cbn in Ea, Eb |- *; rewrite Ea; [by rewrite Eb|]. by injection Eb as <-.
  - exact (operand_term_ok _ _ Ha Ea).
  - exact (operand_term_ok _ _ Hb Eb).
  - intros Hop. cbn in Hs. unfold scalar_operand in Hs. rewrite Ea, Eb in Hs. destruct Hop as [-> | ->]; by destruct x', y'.
Qed.

Lemma member_agrees a b : validate (RMember a b) = Ok tt -> rule_ok (RMember a b) = true -> agrees (RMember a b).
Proof.
  intros Hv Hok [|n] v; [done|]. cbn [rule_expr call denote]. change (builtin_of (str "member?")) with (Some BMember).
  cbn [apply_builtin]. destruct (denote n env (operand_expr a)) as [[|x]|] eqn:Ea; cbn [obind]; try done.
  destruct (denote n env (operand_expr b)) as [[|y]|] eqn:Eb; cbn [obind]; try done.
  apply operand_value in Ea as (x' & Ea & ->). apply operand_value in Eb as (y' & Eb & ->).
  cbn in Hok. apply andb_true_iff in Hok as [Ha Hb]. 
  apply (operand_term_ok _ _ Ha) in Ea as Hx. apply (operand_term_ok _ _ Hb) in Eb as Hl.
  destruct y' as [w|l]; [by destruct w|]. cbn [attribute_expr]. destruct (member_loop _ _) as [c| |] eqn:Em; cbn; try done.
  intros [= <-]. exists c. split; [|done].
  assert (member_element a q = Ok (Some x')) as ->.
  { destruct a as [k|[w|]]; cbn in Ea |- *; [by rewrite Ea|by injection Ea as <-|]. by destruct b as [|[]]. }
  assert (member_list b q = Ok (Some l)) as ->.
  { destruct b as [k|a']; cbn in Eb |- *; [by rewrite Eb|]. by injection Eb as ->. }
  cbn. f_equal. clear Eb. cbn [term_ok] in Hl. clear Hb. revert Hl Em. induction l as [|y l IH]; cbn; [by intros _ [= <-]|].
  intros [Hy Hl']%andb_true_iff. rewrite equals_ref_spec. destruct (equals_ref _ _) as [d| |] eqn:Ed; cbn; try done.
  apply term_equals in Ed as [_ ->]; [|done|done]. destruct d; cbn; [by intros [= <-]|]. by apply IH.
Qed.

Lemma rule_agrees r : validate r = Ok tt -> rule_ok r = true -> scalars_ordered r = true -> agrees r.
Proof.
  assert (forall l : list rule, Forall (fun r => validate r = Ok tt -> rule_ok r = true -> scalars_ordered r = true -> agrees r) l ->
    inner_rules (map validate l) = Ok tt -> forallb rule_ok l = true -> forallb scalars_ordered l = true -> Forall agrees l) as Hlist.
  { intros l Hl Hv%inner_valid Ho Hs. induction l as [|x l IHl]; [constructor|]. cbn in Ho, Hs.
    apply andb_true_iff in Ho as [? ?], Hs as [? ?]. apply list.Forall_cons in Hl as [? ?], Hv as [? ?]. constructor; auto. }
  induction r as [b|op a b|a b|a|r IH|l IH|l IH|c t f IHc IHt IHf] using rule_ind'; intros Hv Ho Hs.
  - intros [|n] v; [done|]. intros [= <-]. by exists b.
  - by apply filter_agrees.
  - by apply member_agrees.
  - destruct a as [k|]; [|done]. intros [|n] v; [done|]. cbn [rule_expr call denote operand_expr].
    change (builtin_of (str "exists?")) with (Some BExists). cbn [apply_builtin eval_exists]. unfold Env_contains.
    rewrite same_attributes. cbn [match_rule]. destruct (fetch_attribute q k); cbn; intros [= <-]; eauto.
  - intros [|n] v; [done|]. cbn [rule_expr call denote]. change (builtin_of (str "not")) with (Some BNot). cbn [apply_builtin].
    destruct (denote n env (rule_expr r)) as [[|w]|] eqn:Er; cbn [obind]; try done.
    apply (IH Hv Ho Hs) in Er as (b & Hb & ->). intros [= <-]. exists (negb b). cbn. by rewrite Hb.
  - intros [|n] v; [done|]. destruct l as [|r [|r' l]]; [done|done|]. apply Hlist in IH; [|done..].
    apply list.Forall_cons in IH as [Hr Hl]. by apply and_agrees.
  - intros [|n] v; [done|]. destruct l as [|r [|r' l]]; [done|done|]. apply Hlist in IH; [|done..].
    apply list.Forall_cons in IH as [Hr Hl]. by apply or_agrees.
  - assert (Forall agrees [c; t; f]) as Hl.
    { apply Hlist; [by repeat constructor|done|cbn in *; by rewrite andb_true_r, andb_assoc..]. }
    apply list.Forall_cons in Hl as [Hc [Ht [Hf _]%list.Forall_cons]%list.Forall_cons].
    intros [|n] v; [done|]. cbn [rule_expr call denote]. change (builtin_of (str "if")) with (Some BIf). cbn [apply_builtin].
    destruct (denote n env (rule_expr c)) as [[|w]|] eqn:Ec; cbn [obind]; try done. apply Hc in Ec as (b & Hb & ->).
    cbn [match_rule]. rewrite Hb. cbn [rbind]. destruct b; [apply Ht|apply Hf].
Qed.

(** Rules match or not. *)
Lemma valid_matches r : validate r = Ok tt -> exists b, match_rule r q = Ok b.
Proof.
  induction r as [b|op a b|a b|a|r IH|l IH|l IH|c t f IHc IHt IHf] using rule_ind'; intros Hv; cbn [match_rule].
  - eauto.
  - destruct a as [k|]; [|eauto]. destruct b as [k'|[w|]]; eauto.
  - destruct b as [k|[w|l]]; [|by destruct a|]; (destruct a as [k'|[w|]]; [|cbn; eauto|done]); cbn; destruct (fetch_attribute q k'); cbn; eauto.
  - destruct a; eauto.
  - destruct (IH Hv) as [b ->]. cbn. eauto.
  - destruct l as [|r [|r' l]]; [done|done|]. apply inner_valid in Hv. revert IH Hv. generalize (r :: r' :: l). clear.
    intros l IH Hv. induction l as [|r l IHl]; [cbn; eauto|]. apply list.Forall_cons in IH as [Hr Hl], Hv as [Hvr Hvl].
    destruct (Hr Hvr) as [b Hb]. cbn. rewrite Hb. cbn. destruct b; [by apply IHl|eauto].
  - destruct l as [|r [|r' l]]; [done|done|]. apply inner_valid in Hv. revert IH Hv. generalize (r :: r' :: l). clear.
    intros l IH Hv. induction l as [|r l IHl]; [cbn; eauto|]. apply list.Forall_cons in IH as [Hr Hl], Hv as [Hvr Hvl].
    destruct (Hr Hvr) as [b Hb]. cbn. rewrite Hb. cbn. destruct b; [eauto|by apply IHl].
  - apply (inner_valid [c; t; f]) in Hv as [Hc [Ht [Hf _]%list.Forall_cons]%list.Forall_cons]%list.Forall_cons.
    destruct (IHc Hc) as [[] ->]; cbn; auto.
Qed.

(** *** Rules that are decided in Rust too *)

Definition same_kind (a b : rule_value) : bool :=
  match a, b with
  | XStr _, XStr _ | XInt _, XInt _ | XFloat _, XFloat _ | XBool _, XBool _ => true
  | _, _ => false
  end.

(** The attributes are there, and have the types of what they are compared with. *)
Fixpoint well_typed (r : rule) : bool :=
  match r with
  | RFilter _ a b =>
      match resolve_operand a, resolve_operand b with
      | Some (AVal x), Some (AVal y) => same_kind x y
      | _, _ => false
      end
  | RMember a b =>
      match resolve_operand a, resolve_operand b with
      | Some (AVal x), Some (AList l) => forallb (fun y => match y with AVal y => same_kind x y | AList _ => false end) l
      | _, _ => false
      end
  | RNot r => well_typed r
  | RAnd l | ROr l => forallb well_typed l
  | RIf c t f => well_typed c && well_typed t && well_typed f
  | _ => true
  end.

Lemma kind_equals x y : same_kind x y = true -> exists b, Expr_equals (value_expr x) (value_expr y) = Ok b.
Proof. rewrite equals_ref_spec. destruct x, y; cbn; try done; eauto. Qed.

Lemma kind_compares x y : same_kind x y = true -> exists o, Expr_compare (value_expr x) (value_expr y) = Ok o.
Proof. rewrite compare_ref_spec. destruct x, y; cbn; try done; eauto. Qed.

Lemma kind_filter op x y : same_kind x y = true -> exists b, rust_filter op (value_expr x) (value_expr y) = Ok b.
Proof.
  intros Hk. destruct (kind_equals x y Hk) as [b Hb], (kind_compares x y Hk) as [o Ho].
  destruct op; cbn; unfold less_than, greater_than; rewrite ?Hb, ?Ho; cbn; eauto.
Qed.

Definition decided (r : rule) : Prop := exists b, computes (rule_expr r) (EBool b).

Lemma mono_computes e v n m : denote n env e = oret v -> n <= m -> denote m env e = oret v.
Proof. intros Hn Hm. by apply (denote_mono n m env e Hm). Qed.

Lemma chain_decided stop msg r l :
  decided r -> Forall decided l -> exists n b, eval_chain stop msg (denote n env) (rule_expr r) (map rule_expr l) = oret (EBool b).
Proof.
  intros Hr Hl. revert r Hr. induction Hl as [|r' l Hr' _ IH]; intros r [b [n Hn]]; cbn [map eval_chain].
  - by exists n, b.
  - destruct (Bool.eqb b stop) eqn:Eb; [exists n, stop; rewrite Hn; cbn; by rewrite Eb|].
    destruct (IH r' Hr') as (m & c & Hm). exists (Nat.max n m), c. rewrite (mono_computes _ _ _ _ Hn) by lia. cbn. rewrite Eb.
    apply (chain_refines (denote m env) (denote (Nat.max n m) env)); [|done]. intros x. apply denote_mono. lia.
Qed.

Lemma filter_decided op a b : well_typed (RFilter op a b) = true -> decided (RFilter op a b).
Proof.
  cbn. destruct (resolve_operand a) as [[x|]|] eqn:Ea; try done. destruct (resolve_operand b) as [[y|]|] eqn:Eb; try done. intros Hk.
  destruct (kind_filter op x y Hk) as [c Hc].
  destruct (operand_computes a _ Ea) as [n Hn], (operand_computes b _ Eb) as [m Hm]. exists c, (S (Nat.max n m)).
  cbn [rule_expr call denote]. rewrite builtin_op, filter_outcome.
  rewrite (mono_computes _ _ _ _ Hn), (mono_computes _ _ _ _ Hm) by lia. cbn [oret obind attribute_expr]. by rewrite Hc.
Qed.

Lemma member_decided a b : well_typed (RMember a b) = true -> decided (RMember a b).
Proof.
  cbn. destruct (resolve_operand a) as [[x|]|] eqn:Ea; try done. destruct (resolve_operand b) as [[|l]|] eqn:Eb; try done. intros Hk.
  assert (exists c, member_loop (value_expr x) (map attribute_expr l) = Ok c) as [c Hc].
  { revert Hk. clear. induction l as [|[y|] l IH]; cbn; [eauto| |done]. intros [Hy Hl]%andb_true_iff.
    destruct (kind_equals x y Hy) as [[] ->]; cbn; [eauto|by apply IH]. }
  destruct (operand_computes a _ Ea) as [n Hn], (operand_computes b _ Eb) as [m Hm]. exists c, (S (Nat.max n m)).
  cbn [rule_expr call denote]. change (builtin_of (str "member?")) with (Some BMember). cbn [apply_builtin].
  rewrite (mono_computes _ _ _ _ Hn), (mono_computes _ _ _ _ Hm) by lia. cbn [oret obind attribute_expr]. by rewrite Hc.
Qed.

Lemma typed_decided r : validate r = Ok tt -> well_typed r = true -> decided r.
Proof.
  assert (forall l : list rule, Forall (fun r => validate r = Ok tt -> well_typed r = true -> decided r) l ->
    inner_rules (map validate l) = Ok tt -> forallb well_typed l = true -> Forall decided l) as Hlist.
  { intros l Hl Hv%inner_valid Ht. induction l as [|x l IHl]; [constructor|]. cbn in Ht.
    apply andb_true_iff in Ht as [? ?]. apply list.Forall_cons in Hl as [? ?], Hv as [? ?]. constructor; auto. }
  induction r as [b|op a b|a b|a|r IH|l IH|l IH|c t f IHc IHt IHf] using rule_ind'; intros Hv Ht.
  - by exists b, 1.
  - by apply filter_decided.
  - by apply member_decided.
  - destruct a as [k|]; [|done]. exists (match fetch_attribute q k with Some _ => true | None => false end), 1.
    cbn [rule_expr call denote operand_expr]. change (builtin_of (str "exists?")) with (Some BExists).
    cbn [apply_builtin eval_exists]. unfold Env_contains. rewrite same_attributes. by destruct (fetch_attribute q k).
  - destruct (IH Hv Ht) as [b [n Hn]]. exists (negb b), (S n). cbn [rule_expr call denote].
    change (builtin_of (str "not")) with (Some BNot). cbn [apply_builtin]. by rewrite Hn.
  - destruct l as [|r [|r' l]]; [done|done|]. apply Hlist in IH; [|done..]. apply list.Forall_cons in IH as [Hr Hl].
    destruct (chain_decided false (str "'and' expects boolean arguments") r _ Hr Hl) as (n & b & Hn). by exists b, (S n).
  - destruct l as [|r [|r' l]]; [done|done|]. apply Hlist in IH; [|done..]. apply list.Forall_cons in IH as [Hr Hl].
    destruct (chain_decided true (str "'or' expects boolean arguments") r _ Hr Hl) as (n & b & Hn). by exists b, (S n).
  - assert (Forall decided [c; t; f]) as Hl.
    { apply Hlist; [by repeat constructor|done|cbn in *; by rewrite andb_true_r, andb_assoc]. }
    apply list.Forall_cons in Hl as [[bc [n Hn]] [[bt [n1 H1]] [[bf [n2 H2]] _]%list.Forall_cons]%list.Forall_cons].
    exists (if bc then bt else bf), (S (Nat.max n (Nat.max n1 n2))). cbn [rule_expr call denote].
    change (builtin_of (str "if")) with (Some BIf). cbn [apply_builtin]. rewrite (mono_computes _ _ _ _ Hn) by lia. cbn [oret obind].
    destruct bc; [apply (mono_computes _ _ _ _ H1)|apply (mono_computes _ _ _ _ H2)]; lia.
Qed.

(** C35: the two implementations of policies agree on rules that do not put lists into order
    with [<] or [>] ([scalars_ordered]) and whose floats, like those of the attributes, are
    numbers, not NaN ([rule_ok], [floats_ok]).  If such a rule is valid it matches or not in Elixir,
    without an exception.  Evaluated in Rust on the same attributes, the same policy never
    has another value; and it has a value whenever the attributes that the rule mentions
    are there, with the types of what they are compared with.  On lists they do not agree
    ([ordered_lists_differ]). *)
Theorem rules_agree r :
  validate r = Ok tt -> rule_ok r = true -> scalars_ordered r = true ->
  exists b, match_rule r q = Ok b /\
    (forall n v, eval n (rule_expr r) env = Some (Ok v) -> v = EBool b) /\
    (well_typed r = true -> exists n, eval n (rule_expr r) env = Some (Ok (EBool b))).
Proof.
  intros Hv Ho Hs. destruct (valid_matches r Hv) as [b Hb]. exists b. split; [done|].
  assert (forall n v, denote n env (rule_expr r) = Some (inr v) -> v = EBool b) as Hd.
  { intros n v (b' & Hb' & ->)%(rule_agrees r Hv Ho Hs). rewrite Hb in Hb'. by injection Hb' as ->. }
  split.
  - intros n v He. apply eval_denote in He as ([|w] & Hn & Er); [done|]. injection Er as ->. by apply (Hd n).
  - intros Ht. destruct (typed_decided r Hv Ht) as [b' [n Hn]]. pose proof (Hd n _ Hn) as [= ->].
    destruct (denote_eval env n _ _ Hn) as [k Hk]. by exists k.
Qed.

(** They differ on attributes that are missing: Elixir takes a comparison for false, so
    its negation allows, where Rust stops with an error and denies. *)
Theorem missing_attribute_differs k v :
  fetch_attribute q k = None ->
  let r := RNot (RFilter FEq (OKey k) (OTerm (AVal v))) in
  validate r = Ok tt /\ match_rule r q = Ok true /\
  (exists n, eval n (rule_expr r) env = Some (Err (Unbound (key_text k)))) /\
  forall n w, eval n (rule_expr r) env <> Some (Ok w).
Proof.
  intros Hk r. assert (denote 2 env (rule_expr (RFilter FEq (OKey k) (OTerm (AVal v)))) = Some (inl (Unbound (key_text k)))) as H2.
  { cbn [rule_expr call]. change (denote 2 env (call (op_text FEq) ?xs)) with (apply_builtin env (denote 1 env) (op_builtin FEq) xs).
    rewrite filter_outcome. cbn [denote operand_expr]. unfold Env_get. by rewrite same_attributes, Hk. }
  assert (denote 3 env (rule_expr r) = Some (inl (Unbound (key_text k)))) as Hd.
  { change (denote 3 env (rule_expr r)) with (apply_builtin env (denote 2 env) BNot [rule_expr (RFilter FEq (OKey k) (OTerm (AVal v)))]).
    cbn [apply_builtin]. by rewrite H2. }
  split; [done|]. split; [cbn [r match_rule]; by rewrite Hk|]. destruct (denote_eval env _ _ _ Hd) as [n Hn].
  split; [by exists n|]. intros m w Hm. apply eval_denote in Hm as (x & Hx & Ew).
  apply (denote_mono 3 (Nat.max 3 m) env _ ltac:(lia)) in Hd. apply (denote_mono m (Nat.max 3 m) env _ ltac:(lia)) in Hx.
  rewrite Hd in Hx. injection Hx as <-. done.
Qed.

(** They differ on the order of lists: Elixir compares the elements, and Rust the lengths
    first. *)
Theorem ordered_lists_differ k k' :
  fetch_attribute q k = Some (AList [AVal (XInt 2)]) ->
  fetch_attribute q k' = Some (AList [AVal (XInt 1); AVal (XInt 1)]) ->
  let r := RFilter FGt (OKey k) (OKey k') in
  validate r = Ok tt /\ match_rule r q = Ok true /\
  exists n, eval n (rule_expr r) env = Some (Ok (EBool false)).
Proof.
  intros Hk Hk' r. split; [done|]. split; [cbn [r match_rule]; by rewrite Hk, Hk'|].
  destruct (operand_computes (OKey k) _ Hk) as [n Hn]. destruct (operand_computes (OKey k') _ Hk') as [n' Hn'].
  assert (denote (S (Nat.max n n')) env (rule_expr r) = Some (inr (EBool false))) as Hd.
  { cbn [rule_expr call r denote]. rewrite builtin_op, filter_outcome.
    rewrite (mono_computes _ _ _ _ Hn), (mono_computes _ _ _ _ Hn') by lia. reflexivity. }
  destruct (denote_eval env _ _ _ Hd) as [m Hm]. by exists m.
Qed.
End Agreement.
