(* ===== verification/AbacGrammar.v ===== *)
(** * The text of attribute rules (implementations/elixir/ockam/ockam_abac)

    The grammar of rules (priv/attribute_rule_grammar.peg) as the parser that is generated
    from it, and the formatter (lib/attribute_rules/formatter.ex).  [rule_text_roundtrip]:
    what is printed is read back. *)

From Stdlib Require Import ZArith Lia Floats.SpecFloat.
From Stdlib Require Strings.Byte Strings.String.
From stdpp Require Import base gmap list numbers option.
From S2P Require Import Prelude RustStr AbacExpr AbacEval AbacElixir.

(** ** Parsers

    A parser answers with what it read and the rest, or fails ([Err]), or raises an
    exception ([Panic]).  Choices are ordered, repetitions are greedy.  The input is a
    valid string: taking a character of several bytes one byte at a time makes no
    difference, since none of its bytes is a quote or a backslash. *)

Definition parser (A : Type) : Type := bytes -> result unit (A * bytes).

Fixpoint p_string (s : bytes) (i : bytes) : result unit bytes :=
  match s, i with
  | [], i => Ok i
  | c :: s, d :: i => if bool_decide (c = d) then p_string s i else Err tt
  | _ :: _, [] => Err tt
  end.

Definition p_choose {A} (p q : parser A) : parser A := fun i =>
  match p i with Err _ => q i | r => r end.

(** [p_scan]; every repetition takes something, so that the length of the input is enough. *)
Fixpoint p_scan {A} (n : nat) (p : parser A) (i : bytes) : result unit (list A * bytes) :=
  match n with
  | O => Ok ([], i)
  | S n =>
      match p i with
      | Ok (a, i) => let? (l, i) := p_scan n p i in Ok (a :: l, i)
      | Err _ => Ok ([], i)
      | Panic => Panic
      end
  end.

Definition p_zero_or_more {A} (p : parser A) : parser (list A) := fun i => p_scan (length i) p i.

Definition p_one_or_more {A} (p : parser A) : parser (list A) := fun i =>
  let? (l, i) := p_zero_or_more p i in
  match l with [] => Err tt | _ => Ok (l, i) end.

Definition p_charclass (class : byte -> bool) : parser byte := fun i =>
  match i with
  | c :: i => if class c then Ok (c, i) else Err tt
  | [] => Err tt
  end.

(** [keep x p]: what [p] reads stands for [x]. *)
Definition keep {A} (x : A) (p : bytes -> result unit bytes) : parser A := fun i => let? i := p i in Ok (x, i).

(** ** The grammar *)

Definition is_space (c : byte) : bool := bool_decide (c ∈ [Byte.x20; Byte.x09; Byte.x0a; Byte.x0d]).

(** [space*] *)
Fixpoint spaces (i : bytes) : bytes :=
  match i with
  | c :: r => if is_space c then spaces r else i
  | [] => []
  end.

Definition spaced_string (s : bytes) (i : bytes) : result unit bytes := let? i := p_string s i in Ok (spaces i).

Definition open : bytes -> result unit bytes := spaced_string (str "(").
Definition close : bytes -> result unit bytes := spaced_string (str ")").
Definition list_open : bytes -> result unit bytes := spaced_string (str "[").
Definition list_close : bytes -> result unit bytes := spaced_string (str "]").

Definition name_char (c : byte) : bool :=
  let v := byte_val c in
  ((97 <=? v) && (v <=? 122) || (48 <=? v) && (v <=? 57) || (v =? 95))%Z.

Definition attribute_type : parser attribute_source :=
  p_choose (keep SourceAction (p_string (str "action")))
    (p_choose (keep SourceSubject (p_string (str "subject"))) (keep SourceResource (p_string (str "resource")))).

Definition p_attribute : parser rule_key := fun i =>
  let? (ty, i) := attribute_type i in
  let? i := p_string (str ".") i in
  let? (name, i) := p_one_or_more (p_charclass name_char) i in
  Ok ((ty, name), spaces i).

Definition quote : byte := Byte.x22.
Definition backslash : byte := Byte.x5c.

(** [chars:] of a string, with its escapes as they are written *)
Fixpoint string_chars (i : bytes) : bytes * bytes :=
  match i with
  | [] => ([], [])
  | c :: r =>
      if bool_decide (c = quote) then ([], i)
      else match r with
           | d :: r' =>
               if bool_decide (c = backslash) && (bool_decide (d = backslash) || bool_decide (d = quote))
               then let (s, t) := string_chars r' in (c :: d :: s, t)
               else let (s, t) := string_chars r in (c :: s, t)
           | [] => ([c], [])
           end
  end.

Definition p_string_value : parser rule_value := fun i =>
  let? i := p_string [quote] i in
  let (s, i) := string_chars i in
  let? i := p_string [quote] i in
  Ok (XStr s, i).

Definition p_true : bytes -> result unit bytes := spaced_string (str "true").
Definition p_false : bytes -> result unit bytes := spaced_string (str "false").
Definition p_boolean : parser bool := p_choose (keep true p_true) (keep false p_false).

Definition is_digit (c : byte) : bool := (48 <=? byte_val c)%Z && (byte_val c <=? 57)%Z.
Definition is_non_zero_digit (c : byte) : bool := (49 <=? byte_val c)%Z && (byte_val c <=? 57)%Z.

Definition p_optional (p : parser bytes) : parser bytes := p_choose p (fun i => Ok ([], i)).

Definition p_digits : parser bytes := p_one_or_more (p_charclass is_digit).

(** ['-'? (non_zero_digit digit+) / digit] *)
Definition p_int : parser bytes :=
  p_choose
    (fun i => let? (sign, i) := p_optional (keep (str "-") (p_string (str "-"))) i in
              let? (d, i) := p_charclass is_non_zero_digit i in
              let? (ds, i) := p_digits i in
              Ok (sign ++ d :: ds, i))
    (fun i => let? (d, i) := p_charclass is_digit i in Ok ([d], i)).

Definition p_frac : parser bytes := fun i =>
  let? i := p_string (str ".") i in let? (ds, i) := p_digits i in Ok (str "." ++ ds, i).

Definition p_exp : parser bytes := fun i =>
  let? (e, i) := p_charclass (fun c => bool_decide (c ∈ str "eE")) i in
  let? (sign, i) := p_optional (p_choose (keep (str "+") (p_string (str "+"))) (keep (str "-") (p_string (str "-")))) i in
  let? (ds, i) := p_digits i in
  Ok (e :: sign ++ ds, i).

(** [list_to_integer], of the digits and the sign that [p_int] reads *)
Definition digits_integer (l : bytes) : Z := fold_left (fun acc c => acc * 10 + default 0 (digit_val c))%Z l 0%Z.

Definition list_to_integer (l : bytes) : Z :=
  match p_string (str "-") l with
  | Ok l => (- digits_integer l)%Z
  | _ => digits_integer l
  end.

Section Grammar.
(** [list_to_float], which raises an exception if the number is too large; and [to_string] of
    a float *)
Context (list_to_float : bytes -> option spec_float) (float_text : spec_float -> bytes).

Definition p_number : parser rule_value := fun i =>
  let? (int, i) := p_int i in
  let? (frac, i) := p_optional p_frac i in
  let? (exp, i) := p_optional p_exp i in
  let float l := match list_to_float l with Some f => Ok (XFloat f, i) | None => Panic end in
  match frac, exp with
  | [], [] => Ok (XInt (list_to_integer int), i)
  | frac, [] => float (int ++ frac)
  | [], exp => float (int ++ str ".0" ++ exp)
  | frac, exp => float (int ++ frac ++ exp)
  end.

Definition p_value : parser rule_value := fun i =>
  let? (v, i) := p_choose p_string_value (p_choose (fun i => let? (b, i) := p_boolean i in Ok (XBool b, i)) p_number) i in
  Ok (v, spaces i).

Definition p_value_list : parser (list rule_value) := fun i =>
  let? i := list_open i in
  let? (l, i) := p_zero_or_more p_value i in
  let? i := list_close i in
  Ok (l, i).

Definition as_key : parser operand := fun i => let? (k, i) := p_attribute i in Ok (OKey k, i).
Definition as_value : parser operand := fun i => let? (v, i) := p_value i in Ok (OTerm (AVal v), i).
Definition as_list : parser operand := fun i => let? (l, i) := p_value_list i in Ok (OTerm (AList (map AVal l)), i).

Definition p_filter : parser filter_op := fun i =>
  let? (op, i) := p_choose (keep FEq (p_string (str "=")))
                     (p_choose (keep FLt (p_string (str "<")))
                        (p_choose (keep FGt (p_string (str ">"))) (keep FNeq (p_string (str "!="))))) i in
  Ok (op, spaces i).

Definition filter_rule : parser rule := fun i =>
  let? i := open i in
  let? (op, i) := p_filter i in
  let? (k, i) := as_key i in
  let? (o, i) := p_choose as_key as_value i in
  let? i := close i in
  Ok (RFilter op k o, i).

Definition member_rule : parser rule := fun i =>
  let? i := open i in
  let? (_, i) := p_choose (keep tt (p_string (str "member?"))) (keep tt (p_string (str "in"))) i in
  let? (e, i) := p_choose as_key as_value (spaces i) in
  let? (l, i) := p_choose as_key as_list i in
  let? i := close i in
  Ok (RMember e l, i).

Definition exists_rule : parser rule := fun i =>
  let? i := open i in
  let? i := spaced_string (str "exists?") i in
  let? (k, i) := as_key i in
  let? i := close i in
  Ok (RExists k, i).

Definition logical_op : parser (list rule -> rule) :=
  p_choose (keep RAnd (spaced_string (str "and"))) (keep ROr (spaced_string (str "or"))).

(** The rules inside are read by [rule]. *)
Definition combination_rule (rule : parser rule) : parser AbacElixir.rule := fun i =>
  let? i := open i in
  let? (comb, i) := logical_op i in
  let? (r, i) := rule i in
  let? (rs, i) := p_one_or_more rule i in
  let? i := close i in
  Ok (comb (r :: rs), i).

Definition not_rule (rule : parser rule) : parser AbacElixir.rule := fun i =>
  let? i := open i in
  let? i := spaced_string (str "not") i in
  let? (r, i) := rule i in
  let? i := close i in
  Ok (RNot r, i).

Definition if_rule (rule : parser rule) : parser AbacElixir.rule := fun i =>
  let? i := open i in
  let? i := spaced_string (str "if") i in
  let? (c, i) := rule i in
  let? (t, i) := rule i in
  let? (f, i) := rule i in
  let? i := close i in
  Ok (RIf c t f, i).

Definition logical_rule (rule : parser rule) : parser AbacElixir.rule :=
  p_choose (combination_rule rule) (p_choose (not_rule rule) (if_rule rule)).

Definition rule_body (rule : parser rule) : parser AbacElixir.rule := fun i =>
  let? (r, i) := p_choose filter_rule (p_choose member_rule (p_choose exists_rule (p_choose (logical_rule rule)
                    (fun i => let? (b, i) := p_boolean i in Ok (RBool b, i))))) (spaces i) in
  Ok (r, spaces i).

(** A rule inside of another one comes after an opening parenthesis. *)
Fixpoint p_rule (fuel : nat) : parser rule :=
  match fuel with
  | O => fun _ => Err tt
  | S fuel => rule_body (p_rule fuel)
  end.

Inductive parse_error :=
| CannotParseRule (s : bytes)
| NotARule
| Invalid (e : rule_error).

(** [AttributeRule.parse]: what is left over, or a comment, is not a valid rule. *)
Definition AttributeRule_parse (s : bytes) : result parse_error rule :=
  match p_rule (S (length s)) s with
  | Ok (r, []) => match AttributeRule_new r with Ok r => Ok r | Err e => Err (Invalid e) | Panic => Panic end
  | Ok (_, _ :: _) => Err NotARule
  | Err _ => match p_string (str ";;") s with Ok _ => Err NotARule | _ => Err (CannotParseRule s) end
  | Panic => Panic
  end.

(** ** The formatter *)

Definition int_text (i : Z) : bytes :=
  let n := Z.abs i in
  (if (i <? 0)%Z then str "-" else []) ++ dec_go (Z.to_nat (Z.log2 n)) n [].

Definition bool_text (b : bool) : bytes := if b then str "true" else str "false".

(** [Enum.map_join(list, " ", ..)] *)
Fixpoint join (l : list bytes) : bytes :=
  match l with
  | [] => []
  | [x] => x
  | x :: l => x ++ str " " ++ join l
  end.

Definition format_value (v : rule_value) : bytes :=
  match v with
  | XInt i => int_text i
  | XFloat f => float_text f
  | XStr s => [quote] ++ s ++ [quote]
  | XBool b => bool_text b
  end.

Fixpoint format_term (a : attribute) : bytes :=
  match a with
  | AVal v => format_value v
  | AList l => str "[" ++ join (map format_term l) ++ str "]"
  end.

Definition format_arg (o : operand) : bytes :=
  match o with
  | OKey k => key_text k
  | OTerm a => format_term a
  end.

Fixpoint format (r : rule) : bytes :=
  match r with
  | RBool b => bool_text b
  | RFilter op one other => str "(" ++ op_text op ++ str " " ++ format_arg one ++ str " " ++ format_arg other ++ str ")"
  | RMember one other => str "(" ++ str "member?" ++ str " " ++ format_arg one ++ str " " ++ format_arg other ++ str ")"
  | RExists key => str "(exists? " ++ format_arg key ++ str ")"
  | RAnd rules => str "(" ++ str "and" ++ str " " ++ join (map format rules) ++ str ")"
  | ROr rules => str "(" ++ str "or" ++ str " " ++ join (map format rules) ++ str ")"
  | RNot r => str "(not " ++ format r ++ str ")"
  | RIf condition true_rule false_rule =>
      str "(if " ++ format condition ++ str " " ++ format true_rule ++ str " " ++ format false_rule ++ str ")"
  end.
End Grammar.

(** ** Parsers take from their input *)

Definition shrinks {A} (p : parser A) : Prop := forall i a j, p i = Ok (a, j) -> length j <= length i.

Lemma p_string_length s i j : p_string s i = Ok j -> length i = length s + length j.
Proof.
  revert i. induction s as [|c s IH]; intros [|d i]; cbn; try (by intros [= <-]); try done.
  case_bool_decide; [|done]. intros H1%IH. lia.
Qed.

Lemma spaces_length i : length (spaces i) <= length i.
Proof. induction i as [|c i IH]; cbn; [done|]. destruct (is_space c); cbn; lia. Qed.

Lemma spaced_length s i j : spaced_string s i = Ok j -> length j + length s <= length i.
Proof.
  unfold spaced_string. intros H. inv_ok H. injection H as <-. apply p_string_length in E. pose proof (spaces_length a). lia.
Qed.

Lemma choose_shrinks {A} (p q : parser A) : shrinks p -> shrinks q -> shrinks (p_choose p q).
Proof. intros Hp Hq i a j. unfold p_choose. destruct (p i) as [[b k]| |] eqn:E; [intros [= -> ->]; by eapply Hp|apply Hq|done]. Qed.

Lemma keep_shrinks {A} (x : A) p : (forall i j, p i = Ok j -> length j <= length i) -> shrinks (keep x p).
Proof. intros Hp i a j H. unfold keep in H. inv_ok H. injection H as <- <-. by apply Hp. Qed.

Lemma string_shrinks {A} (x : A) s : shrinks (keep x (p_string s)).
Proof. apply keep_shrinks. intros i j H%p_string_length. lia. Qed.

Lemma spaced_shrinks {A} (x : A) s : shrinks (keep x (spaced_string s)).
Proof. apply keep_shrinks. intros i j H%spaced_length. lia. Qed.

Lemma class_shrinks f : shrinks (p_charclass f).
Proof. intros [|c i] a j; cbn; [done|]. destruct (f c); [|done]. intros [= <- <-]. lia. Qed.

Lemma scan_length {A} n (p : parser A) i l j : shrinks p -> p_scan n p i = Ok (l, j) -> length j <= length i.
Proof.
  intros Hp. revert i l. induction n as [|n IH]; intros i l; cbn; [intros [= <- <-]; lia|].
  destruct (p i) as [[a k]|e|] eqn:Ei; [|intros [= <- <-]; lia|done]. intros H. inv_ok H. destruct a0 as [l' j']. injection H as <- <-.
  apply Hp in Ei. apply IH in E. lia.
Qed.

Lemma many_shrinks {A} (p : parser A) : shrinks p -> shrinks (p_zero_or_more p).
Proof. intros Hp i a j. by apply scan_length. Qed.

Lemma many1_shrinks {A} (p : parser A) : shrinks p -> shrinks (p_one_or_more p).
Proof.
  intros Hp i a j H. unfold p_one_or_more in H. inv_ok H. destruct a0 as [l k]. apply (many_shrinks p Hp) in E.
  destruct l; [done|]. by injection H as <- <-.
Qed.

Create HintDb grammar.
#[export] Hint Resolve choose_shrinks string_shrinks spaced_shrinks class_shrinks many_shrinks many1_shrinks : grammar.

(** Takes a hypothesis on the result of a parser apart, and collects what its parts take. *)
Ltac parts :=
  repeat match goal with
  | H : rbind _ _ = Ok _ |- _ => inv_ok H; cbn beta in H
  | a : (_ * _)%type |- _ => destruct a; cbn beta iota in *
  | H : Ok _ = Ok _ |- _ => injection H as; subst
  | H : p_string _ _ = Ok _ |- _ => apply p_string_length in H
  | H : spaced_string _ _ = Ok _ |- _ => apply spaced_length in H
  end.

Ltac shorten :=
  repeat match goal with
  | H : ?p _ = Ok (_, _) |- _ => let S := fresh in assert (shrinks p) as S by auto 12 with grammar; apply S in H; clear S
  end;
  repeat match goal with
  | |- context [spaces ?x] => pose proof (spaces_length x); generalize dependent (spaces x); intros
  | H : context [spaces ?x] |- _ => pose proof (spaces_length x); generalize dependent (spaces x); intros
  end;
  cbn [length] in *; try lia.

Tactic Notation "takes" constr(p) :=
  let i := fresh "i" in let a := fresh "a" in let j := fresh "j" in let H := fresh "H" in
  intros i a j H; unfold p in H; parts; shorten.

Lemma type_shrinks : shrinks attribute_type.
Proof. unfold attribute_type. auto 8 with grammar. Qed.
#[export] Hint Resolve type_shrinks : grammar.

Lemma attribute_shrinks : shrinks p_attribute.
Proof. takes p_attribute. Qed.

Lemma chars_length i : length (string_chars i).2 <= length i.
Proof.
  assert (forall n i, length i <= n -> length (string_chars i).2 <= length i) as H.
  { clear i. induction n as [|n IH]; intros [|c i] Hn; cbn in Hn; try (cbn; lia). cbn [string_chars].
    destruct (bool_decide (c = quote)); [done|]. destruct i as [|d i]; [cbn; lia|]. destruct (_ && _).
    - specialize (IH i). destruct (string_chars i). cbn in *. lia.
    - specialize (IH (d :: i)). destruct (string_chars (d :: i)). cbn in *. lia. }
  by apply (H (length i)).
Qed.

Lemma string_value_shrinks : shrinks p_string_value.
Proof.
  intros i a j H. unfold p_string_value in H. inv_ok H. pose proof (chars_length a0). destruct (string_chars a0) as [s t].
  parts. cbn in *. lia.
Qed.

Lemma boolean_shrinks : shrinks p_boolean.
Proof. unfold p_boolean. apply choose_shrinks; apply spaced_shrinks. Qed.
#[export] Hint Resolve attribute_shrinks string_value_shrinks boolean_shrinks : grammar.

Lemma optional_shrinks p : shrinks p -> shrinks (p_optional p).
Proof. intros Hp. apply choose_shrinks; [done|]. by intros i a j [= <- <-]. Qed.
#[export] Hint Resolve optional_shrinks : grammar.

Lemma digits_shrinks : shrinks p_digits.
Proof. unfold p_digits. auto with grammar. Qed.
#[export] Hint Resolve digits_shrinks : grammar.

Lemma int_shrinks : shrinks p_int.
Proof. apply choose_shrinks; intros i a j H; parts; shorten. Qed.

Lemma frac_shrinks : shrinks p_frac.
Proof. takes p_frac. Qed.

Lemma exp_shrinks : shrinks p_exp.
Proof. takes p_exp. Qed.
#[export] Hint Resolve int_shrinks frac_shrinks exp_shrinks : grammar.

Section Shrinking.
Context (list_to_float : bytes -> option spec_float).

Lemma number_shrinks : shrinks (p_number list_to_float).
Proof.
  intros i a j H. unfold p_number in H. parts.
  assert (l4 = j) as -> by (revert H; repeat case_match; by intros [= <- <-]). clear H. shorten.
Qed.
#[local] Hint Resolve number_shrinks : grammar.

Lemma bool_value_shrinks {A} (f : bool -> A) : shrinks (fun i => let? (b, i) := p_boolean i in Ok (f b, i)).
Proof. intros i a j H. parts. shorten. Qed.
#[local] Hint Resolve bool_value_shrinks : grammar.

Lemma value_shrinks : shrinks (p_value list_to_float).
Proof. takes @p_value. Qed.
#[local] Hint Resolve value_shrinks : grammar.

Lemma value_list_shrinks : shrinks (p_value_list list_to_float).
Proof. takes @p_value_list. unfold list_open, list_close in *. parts. shorten. Qed.
#[local] Hint Resolve value_list_shrinks : grammar.

Lemma key_shrinks : shrinks as_key.
Proof. takes as_key. Qed.

Lemma as_value_shrinks : shrinks (as_value list_to_float).
Proof. takes @as_value. Qed.

Lemma as_list_shrinks : shrinks (as_list list_to_float).
Proof. takes @as_list. Qed.

Lemma filter_shrinks : shrinks p_filter.
Proof. takes p_filter. Qed.

Lemma logical_op_shrinks : shrinks logical_op.
Proof. unfold logical_op. auto with grammar. Qed.
#[local] Hint Resolve key_shrinks as_value_shrinks as_list_shrinks filter_shrinks logical_op_shrinks : grammar.

Lemma filter_rule_shrinks : shrinks (filter_rule list_to_float).
Proof. unfold filter_rule, open, close. intros i a j H. parts. shorten. Qed.

Lemma member_rule_shrinks : shrinks (member_rule list_to_float).
Proof. unfold member_rule, open, close. intros i a j H. parts. shorten. Qed.

Lemma exists_rule_shrinks : shrinks exists_rule.
Proof. unfold exists_rule, open, close. intros i a j H. parts. shorten. Qed.
#[local] Hint Resolve filter_rule_shrinks member_rule_shrinks exists_rule_shrinks : grammar.

Lemma logical_rule_shrinks (f : parser rule) : shrinks f -> shrinks (logical_rule f).
Proof.
  intros Hf. unfold logical_rule, combination_rule, not_rule, if_rule, open, close.
  apply choose_shrinks; [|apply choose_shrinks]; intros i a j H; parts; shorten.
Qed.
#[local] Hint Resolve logical_rule_shrinks : grammar.

Lemma rule_shrinks n : shrinks (p_rule list_to_float n).
Proof. induction n as [|n IH]; [done|]. intros i a j H. cbn [p_rule] in H. unfold rule_body in H. parts. shorten. Qed.

(** *** The fuel of [p_rule] is enough *)

Lemma open_length i j : open i = Ok j -> length j < length i.
Proof. intros H%spaced_length. change (length (str "(")) with 1 in H. lia. Qed.

Lemma scan_ext {A} n (f g : parser A) i :
  shrinks f -> (forall j, length j <= length i -> f j = g j) -> p_scan n f i = p_scan n g i.
Proof.
  intros Hf. revert i. induction n as [|n IH]; intros i He; [done|]. cbn. rewrite <-He by done.
  destruct (f i) as [[a j]| |] eqn:Ei; [|done..]. apply Hf in Ei. rewrite (IH j); [done|]. intros k Hk. apply He. lia.
Qed.

Lemma logical_ext (f g : parser rule) i :
  shrinks f -> (forall j, length j < length i -> f j = g j) -> logical_rule f i = logical_rule g i.
Proof.
  intros Hf He. unfold logical_rule, p_choose.
  assert (combination_rule f i = combination_rule g i) as ->.
  { unfold combination_rule. destruct (open i) as [i1| |] eqn:E1; [|done..]. apply open_length in E1. cbn [rbind].
    destruct (logical_op i1) as [[c i2]| |] eqn:E2; [|done..]. apply logical_op_shrinks in E2. cbn [rbind]. rewrite <-He by lia.
    destruct (f i2) as [[r i3]| |] eqn:E3; [|done..]. apply Hf in E3. cbn [rbind]. unfold p_one_or_more, p_zero_or_more.
    rewrite (scan_ext _ f g i3 Hf); [done|]. intros j Hj. apply He. lia. }
  assert (not_rule f i = not_rule g i) as ->.
  { unfold not_rule. destruct (open i) as [i1| |] eqn:E1; [|done..]. apply open_length in E1. cbn [rbind].
    destruct (spaced_string (str "not") i1) as [i2| |] eqn:E2; [|done..]. apply spaced_length in E2. cbn [rbind]. by rewrite <-He by lia. }
  assert (if_rule f i = if_rule g i) as ->; [|done].
  unfold if_rule. destruct (open i) as [i1| |] eqn:E1; [|done..]. apply open_length in E1. cbn [rbind].
  destruct (spaced_string (str "if") i1) as [i2| |] eqn:E2; [|done..]. apply spaced_length in E2. cbn [rbind]. rewrite <-He by lia.
  destruct (f i2) as [[r i3]| |] eqn:E3; [|done..]. apply Hf in E3. cbn [rbind]. rewrite <-He by lia.
  destruct (f i3) as [[r' i4]| |] eqn:E4; [|done..]. apply Hf in E4. cbn [rbind]. by rewrite <-He by lia.
Qed.

(** More steps than the input has bytes change nothing. *)
Lemma rule_fuel n m i : length i < n -> length i < m -> p_rule list_to_float n i = p_rule list_to_float m i.
Proof.
  revert m i. induction n as [|n IH]; intros m i Hn Hm; [lia|]. destruct m as [|m]; [lia|]. cbn [p_rule]. unfold rule_body, p_choose.
  rewrite (logical_ext (p_rule list_to_float n) (p_rule list_to_float m)); [done|apply rule_shrinks|].
  pose proof (spaces_length i). intros j Hj. apply IH; lia.
Qed.
End Shrinking.

(** ** What is printed is read back *)

(** What comes after an item. *)
Definition delimited (rest : bytes) : bool := match rest with [] => true | c :: _ => bool_decide (c ∈ str " )]") end.

Definition starts (t : bytes) : bool := match t with [] => false | c :: _ => negb (is_space c) end.

Lemma delimited_not f rest :
  delimited rest = true -> forallb (fun c => negb (f c)) (str " )]") = true -> match rest with c :: _ => f c = false | [] => True end.
Proof.
  destruct rest as [|c r]; [done|]. cbn. intros H%bool_decide_eq_true Hf. rewrite !elem_of_cons, elem_of_nil in H.
  rewrite !andb_true_iff, !negb_true_iff in Hf. destruct H as [->|[->|[->|[]]]]; apply Hf.
Qed.

Lemma spaces_starts t rest : starts t = true -> spaces (t ++ rest) = t ++ rest.
Proof. destruct t as [|c t]; [done|]. cbn. by destruct (is_space c). Qed.

Lemma spaces_idem i : spaces (spaces i) = spaces i.
Proof. induction i as [|c i IH]; [done|]. cbn. destruct (is_space c) eqn:E; [done|]. cbn. by rewrite E. Qed.

Lemma p_string_app s i : p_string s (s ++ i) = Ok i.
Proof. induction s as [|c s IH]; [done|]. cbn. by rewrite bool_decide_true. Qed.

Lemma spaced_app s t rest : starts t = true -> spaced_string s (s ++ t ++ rest) = Ok (t ++ rest).
Proof. intros Ht. unfold spaced_string. rewrite p_string_app. cbn. by rewrite spaces_starts. Qed.

Lemma scan_class f n l rest :
  forallb f l = true -> match rest with c :: _ => f c = false | [] => True end -> length l <= n ->
  p_scan n (p_charclass f) (l ++ rest) = Ok (l, rest).
Proof.
  revert n. induction l as [|c l IH]; intros n Hl Hr Hn.
  - destruct n as [|n]; [done|]. destruct rest as [|c r]; [done|]. cbn. by rewrite Hr.
  - destruct n as [|n]; cbn in Hn; [lia|]. cbn in Hl. apply andb_true_iff in Hl as [Hc Hl]. cbn. rewrite Hc. cbn.
    by rewrite IH by (done || lia).
Qed.

Lemma many1_class f l rest :
  forallb f l = true -> l <> [] -> match rest with c :: _ => f c = false | [] => True end ->
  p_one_or_more (p_charclass f) (l ++ rest) = Ok (l, rest).
Proof.
  intros Hl Hn Hr. unfold p_one_or_more, p_zero_or_more. rewrite scan_class by (done || rewrite length_app; lia). by destruct l.
Qed.

(** *** Attributes and strings *)

Definition name_ok (name : bytes) : bool := match name with [] => false | _ => forallb name_char name end.

Lemma attribute_read k rest : name_ok k.2 = true -> delimited rest = true -> p_attribute (key_text k ++ rest) = Ok (k, spaces rest).
Proof.
  destruct k as [s name]. cbn [snd]. intros Hn Hd. unfold key_text. cbn [fst snd]. rewrite <-!app_assoc. unfold p_attribute.
  assert (attribute_type (source_text s ++ str "." ++ name ++ rest) = Ok (s, str "." ++ name ++ rest)) as -> by (by destruct s).
  cbn [rbind]. rewrite p_string_app. cbn [rbind]. rewrite many1_class; [done|by destruct name|by destruct name|].
  by apply delimited_not.
Qed.

(** The quotes of a string are escaped, and it does not end within an escape. *)
Fixpoint string_ok (s : bytes) : bool :=
  match s with
  | [] => true
  | c :: r =>
      if bool_decide (c = quote) then false
      else match r with
           | d :: r' =>
               if bool_decide (c = backslash) && (bool_decide (d = backslash) || bool_decide (d = quote)) then string_ok r'
               else string_ok r
           | [] => negb (bool_decide (c = backslash))
           end
  end.

Lemma string_read s rest : string_ok s = true -> string_chars (s ++ quote :: rest) = (s, quote :: rest).
Proof.
  assert (forall n s, length s <= n -> string_ok s = true -> string_chars (s ++ quote :: rest) = (s, quote :: rest)) as H.
  { clear s. induction n as [|n IH]; intros [|c s] Hn Hs; cbn in Hn; try lia; try (cbn; by rewrite bool_decide_true).
    cbn [string_ok] in Hs. cbn [app string_chars]. destruct (bool_decide (c = quote)); [done|]. destruct s as [|d s].
    - cbn [app]. apply negb_true_iff in Hs. rewrite Hs. cbn [andb string_chars]. by rewrite bool_decide_true.
    - cbn [app]. destruct (_ && _).
      + rewrite IH; [done|cbn in Hn; lia|done].
      + change (d :: s ++ quote :: rest) with ((d :: s) ++ quote :: rest). rewrite IH; [done|cbn in *; lia|done]. }
  by apply (H (length s)).
Qed.

(** *** Numbers *)

Lemma digit_is d : (0 <= d < 10)%Z -> is_digit (digit d) = true.
Proof. intros H. unfold is_digit, digit. rewrite byte_val_of, Z.mod_small by lia. lia. Qed.

Lemma digit_not_zero d : (1 <= d < 10)%Z -> is_non_zero_digit (digit d) = true.
Proof. intros H. unfold is_non_zero_digit, digit. rewrite byte_val_of, Z.mod_small by lia. lia. Qed.

Lemma small_text f n acc : (0 <= n < 10)%Z -> dec_go f n acc = digit n :: acc.
Proof. intros H. destruct f; cbn; rewrite Z.mod_small by lia; [done|]. by rewrite Z.div_small. Qed.

Lemma large_text f n acc :
  (10 <= n < 10 ^ Z.of_nat (S f))%Z ->
  exists d ds, dec_go f n acc = d :: ds ++ acc /\ is_non_zero_digit d = true /\ ds <> [] /\ forallb is_digit ds = true.
Proof.
  revert n acc. induction f as [|f IH]; intros n acc Hn; [cbn in Hn; lia|].
  pose proof (Z.mod_pos_bound n 10 ltac:(lia)). pose proof (Z.div_mod n 10 ltac:(lia)).
  cbn [dec_go]. destruct (Z.eqb_spec (n / 10) 0) as [E|E]; [lia|]. destruct (Z_lt_le_dec (n / 10) 10) as [Hs|Hl].
  - rewrite small_text by lia. exists (digit (n / 10)), [digit (n mod 10)]. split_and!; [done|apply digit_not_zero; lia|done|].
    cbn. by rewrite digit_is by lia.
  - destruct (IH (n / 10)%Z (digit (n mod 10) :: acc)) as (d & ds & -> & Hd & Hds & Hf).
    { split; [done|]. apply Z.div_lt_upper_bound; [lia|]. rewrite <-Z.pow_succ_r, <-Nat2Z.inj_succ by lia. lia. }
    exists d, (ds ++ [digit (n mod 10)]). rewrite <-app_assoc. split_and!; [done|done|by destruct ds|].
    rewrite forallb_app, Hf. cbn. by rewrite digit_is by lia.
Qed.

Lemma text_value f n rest :
  (0 <= n < 10 ^ Z.of_nat (S f))%Z ->
  fold_left (fun acc c => acc * 10 + default 0 (digit_val c))%Z (dec_go f n rest) 0%Z =
  fold_left (fun acc c => acc * 10 + default 0 (digit_val c))%Z rest n.
Proof.
  revert n rest. induction f as [|f IH]; intros n rest Hn.
  - rewrite small_text by (cbn in Hn; lia). cbn. by rewrite digit_val_digit by (cbn in Hn; lia).
  - pose proof (Z.mod_pos_bound n 10 ltac:(lia)). pose proof (Z.div_mod n 10 ltac:(lia)).
    cbn [dec_go]. destruct (Z.eqb_spec (n / 10) 0) as [E|E].
    + cbn. rewrite digit_val_digit by lia. cbn. f_equal. lia.
    + rewrite IH.
      * cbn. rewrite digit_val_digit by lia. cbn. f_equal. lia.
      * split; [apply Z.div_pos; lia|]. apply Z.div_lt_upper_bound; [lia|]. rewrite <-Z.pow_succ_r, <-Nat2Z.inj_succ by lia. lia.
Qed.

Lemma log_digits n : (0 <= n)%Z -> (n < 10 ^ Z.of_nat (S (Z.to_nat (Z.log2 n))))%Z.
Proof.
  intros Hn. rewrite Nat2Z.inj_succ, Z2Nat.id by apply Z.log2_nonneg. destruct (Z.eq_dec n 0%Z) as [->|H0]; [done|].
  destruct (Z.log2_spec n) as [_ H]; [lia|]. eapply Z.lt_le_trans; [exact H|]. apply Z.pow_le_mono_l. lia.
Qed.

Definition int_ok (i : Z) : bool := negb ((-9 <=? i) && (i <=? -1))%Z.

Definition nat_text (n : Z) : bytes := dec_go (Z.to_nat (Z.log2 n)) n [].

Lemma nat_text_value n : (0 <= n)%Z -> digits_integer (nat_text n) = n.
Proof. intros Hn. apply (text_value _ n []). split; [done|]. by apply log_digits. Qed.

Lemma no_sign c (r : bytes) : is_digit c = true -> p_optional (keep (str "-") (p_string (str "-"))) (c :: r) = Ok ([], c :: r).
Proof. intros Hc. unfold p_optional, p_choose, keep. cbn. rewrite bool_decide_false; [done|]. intros E. by rewrite <-E in Hc. Qed.

Lemma digits_end rest : delimited rest = true -> match rest with c :: _ => is_digit c = false | [] => True end.
Proof. intros Hd. by apply delimited_not. Qed.

Lemma digits_read ds rest : ds <> [] -> forallb is_digit ds = true -> delimited rest = true -> p_digits (ds ++ rest) = Ok (ds, rest).
Proof. intros Hn Hf Hd. apply many1_class; [done|done|by apply digits_end]. Qed.

Lemma no_digits rest : delimited rest = true -> p_digits rest = Err tt.
Proof.
  intros Hd%digits_end. unfold p_digits, p_one_or_more, p_zero_or_more. destruct rest as [|c r]; [done|]. cbn. by rewrite Hd.
Qed.

Lemma non_zero_digit_is c : is_non_zero_digit c = true -> is_digit c = true.
Proof. unfold is_non_zero_digit, is_digit. lia. Qed.

(** Numbers of one digit, and others with or without a sign. *)
Lemma small_read n rest : (0 <= n < 10)%Z -> delimited rest = true -> p_int (nat_text n ++ rest) = Ok (nat_text n, rest).
Proof.
  intros Hn Hd. unfold nat_text. rewrite small_text by done. cbn [app]. pose proof (digit_is n Hn) as Hdig.
  unfold p_int, p_choose at 1. rewrite no_sign by done. cbn [rbind p_charclass].
  destruct (is_non_zero_digit (digit n)); cbn [rbind]; rewrite ?no_digits by done; cbn [rbind p_charclass]; by rewrite Hdig.
Qed.

Lemma large_read n rest (sign : bool) :
  (10 <= n)%Z -> delimited rest = true ->
  let t := (if sign then str "-" else []) ++ nat_text n in p_int (t ++ rest) = Ok (t, rest).
Proof.
  intros Hn Hd t. destruct (large_text (Z.to_nat (Z.log2 n)) n []) as (d & ds & Et & Hdz & Hds & Hf).
  { split; [done|]. apply log_digits. lia. }
  rewrite app_nil_r in Et. unfold t, nat_text. rewrite Et. clear t Et. unfold p_int, p_choose at 1.
  assert (p_optional (keep (str "-") (p_string (str "-"))) (((if sign then str "-" else []) ++ d :: ds) ++ rest) =
    Ok (if sign then str "-" else [], d :: ds ++ rest)) as ->.
  { destruct sign; [done|]. cbn [app]. by apply no_sign, non_zero_digit_is. }
  cbn [rbind p_charclass]. rewrite Hdz. cbn [rbind]. rewrite digits_read by done. cbn [rbind]. done.
Qed.

Lemma list_to_integer_text n (sign : bool) :
  (0 <= n)%Z -> list_to_integer ((if sign then str "-" else []) ++ nat_text n) = if sign then (- n)%Z else n.
Proof.
  intros Hn. unfold list_to_integer. destruct sign.
  - rewrite p_string_app. by rewrite nat_text_value.
  - cbn [app]. assert (p_string (str "-") (nat_text n) = Err tt) as ->; [|by rewrite nat_text_value].
    assert (exists c r, nat_text n = c :: r /\ is_digit c = true) as (c & r & -> & Hc).
    { unfold nat_text. destruct (Z_lt_le_dec n 10) as [Hs|Hl]; [rewrite small_text by lia; eexists _, _; split; [done|apply digit_is; lia]|].
      destruct (large_text (Z.to_nat (Z.log2 n)) n []) as (d & ds & -> & Hdz & _); [split; [done|by apply log_digits]|].
      eexists _, _. split; [done|by apply non_zero_digit_is]. }
    cbn. rewrite bool_decide_false; [done|]. intros E. by rewrite <-E in Hc.
Qed.

(** What is read of an integer; what follows is neither a fraction nor an exponent. *)
Lemma int_read i rest :
  int_ok i = true -> delimited rest = true -> p_int (int_text i ++ rest) = Ok (int_text i, rest) /\ list_to_integer (int_text i) = i.
Proof.
  intros Hi Hd. unfold int_ok in Hi. unfold int_text. fold (nat_text (Z.abs i)). destruct (Z.ltb_spec i 0).
  - split; [apply (large_read _ _ true); [lia|done]|]. rewrite (list_to_integer_text _ true) by lia. lia.
  - split; [|rewrite (list_to_integer_text _ false) by lia; lia]. destruct (Z_lt_le_dec i 10).
    + apply small_read; [lia|done].
    + apply (large_read _ _ false); [lia|done].
Qed.

Lemma no_fraction rest : delimited rest = true -> p_optional p_frac rest = Ok ([], rest) /\ p_optional p_exp rest = Ok ([], rest).
Proof.
  intros Hd. pose proof (delimited_not (fun c => bool_decide (c = Byte.x2e)) rest Hd ltac:(by vm_compute)) as H1.
  pose proof (delimited_not (fun c => bool_decide (c ∈ str "eE")) rest Hd ltac:(by vm_compute)) as H2.
  destruct rest as [|c r]; [done|]. unfold p_optional, p_choose, p_frac, p_exp. split.
  - apply bool_decide_eq_false in H1. cbn. rewrite bool_decide_false; [done|]. intros E. by rewrite <-E in H1.
  - cbn [p_charclass]. by rewrite H2.
Qed.

(** *** Values, lists and operands *)

Section RoundTrip.
Context (list_to_float : bytes -> option spec_float) (float_text : spec_float -> bytes).

(** Values whose text the grammar has: not the numbers from -9 to -1, and not floats, whose
    text is a parameter. *)
Definition value_printable (v : rule_value) : bool :=
  match v with
  | XStr s => string_ok s
  | XInt i => int_ok i
  | XFloat _ => false
  | XBool _ => true
  end.

Lemma nat_text_starts n rest : (0 <= n)%Z -> exists c r, nat_text n ++ rest = c :: r /\ is_digit c = true.
Proof.
  intros Hn. unfold nat_text. destruct (Z_lt_le_dec n 10) as [Hs|Hl].
  - rewrite small_text by lia. eexists _, _. split; [done|apply digit_is; lia].
  - destruct (large_text (Z.to_nat (Z.log2 n)) n []) as (d & ds & -> & Hdz & _); [split; [done|by apply log_digits]|].
    eexists _, _. split; [done|by apply non_zero_digit_is].
Qed.

(** The first byte of a number. *)
Definition number_start (c : byte) : bool := is_digit c || bool_decide (c = Byte.x2d).

Lemma int_text_starts i : exists c r, int_text i = c :: r /\ number_start c = true.
Proof.
  unfold int_text. fold (nat_text (Z.abs i)). destruct (i <? 0)%Z; [by eexists _, _|].
  destruct (nat_text_starts (Z.abs i) []) as (c & r & E & Hc); [lia|]. rewrite app_nil_r in E. exists c, r.
  split; [done|]. unfold number_start. by rewrite Hc.
Qed.

Lemma number_start_not c d : number_start c = true -> number_start d = false -> bool_decide (d = c) = false.
Proof. intros Hc Hd. apply bool_decide_eq_false. intros ->. by rewrite Hc in Hd. Qed.

Lemma string_head s c r : match s with d :: _ => bool_decide (d = c) = false | [] => False end -> p_string s (c :: r) = Err tt.
Proof. destruct s as [|d s]; [done|]. intros H. cbn. by rewrite H. Qed.

Lemma boolean_read b rest : p_boolean (bool_text b ++ rest) = Ok (b, spaces rest).
Proof. by destruct b. Qed.

Lemma value_read v rest :
  value_printable v = true -> delimited rest = true -> p_value list_to_float (format_value float_text v ++ rest) = Ok (v, spaces rest).
Proof.
  intros Hv Hd. unfold p_value. destruct v as [s|i|f|b]; [| |done|].
  - cbn in Hv. unfold format_value. rewrite <-!app_assoc. unfold p_choose at 1, p_string_value. rewrite p_string_app. cbn [rbind].
    change ([quote] ++ rest) with (quote :: rest). rewrite string_read by done.
    change (quote :: rest) with ([quote] ++ rest). by rewrite p_string_app.
  - cbn in Hv. unfold format_value. destruct (int_read i rest Hv Hd) as [Hr Hi]. destruct (no_fraction rest Hd) as [Hf He].
    destruct (int_text_starts i) as (c & r & Et & Hc).
    assert (p_string_value (int_text i ++ rest) = Err tt) as Hs.
    { rewrite Et. cbn [app]. unfold p_string_value. rewrite string_head; [done|by apply (number_start_not c)]. }
    assert (p_boolean (int_text i ++ rest) = Err tt) as Hb.
    { rewrite Et. cbn [app]. unfold p_boolean, p_choose, keep, p_true, p_false, spaced_string.
      rewrite !string_head; [done|by apply (number_start_not c)..]. }
    unfold p_choose. rewrite Hs, Hb. cbn [rbind]. unfold p_number. rewrite Hr. cbn [rbind]. rewrite Hf. cbn [rbind].
    rewrite He. cbn [rbind]. by rewrite Hi.
  - unfold format_value, p_choose. assert (p_string_value (bool_text b ++ rest) = Err tt) as -> by (by destruct b).
    rewrite boolean_read. cbn [rbind]. by rewrite spaces_idem.
Qed.

(** An item is read, with the space after it. *)
Definition item {A} (p : parser A) (t : bytes) (x : A) : Prop :=
  starts t = true /\ forall rest, delimited rest = true -> p (t ++ rest) = Ok (x, spaces rest).

Lemma join_starts ts : ts <> [] -> Forall (fun t => starts t = true) ts -> starts (join ts) = true.
Proof. destruct ts as [|t [|t' ts]]; [done| |]; intros _ [Ht _]%list.Forall_cons; [done|]. by destruct t. Qed.

Lemma join_length ts : Forall (fun t => starts t = true) ts -> length ts <= length (join ts).
Proof.
  induction 1 as [|t ts Ht _ IH]; [done|]. assert (0 < length t) by (destruct t; [done|cbn; lia]). destruct ts as [|t' ts]; [cbn; lia|].
  change (join (t :: t' :: ts)) with (t ++ str " " ++ join (t' :: ts)). rewrite !length_app. cbn [length] in *. lia.
Qed.

Lemma items_start {A} (p : parser A) ts xs : Forall2 (item p) ts xs -> Forall (fun t => starts t = true) ts.
Proof. induction 1 as [|t x ts xs [Ht _] _ IH]; constructor; done. Qed.

Lemma spaces_join ts rest :
  Forall (fun t => starts t = true) ts -> spaces rest = rest -> spaces (join ts ++ rest) = join ts ++ rest.
Proof. intros Hs Hr. destruct (decide (ts = [])) as [->|Hn]; [done|]. by apply spaces_starts, join_starts. Qed.

(** Items with spaces between them. *)
Lemma scan_join {A} (p : parser A) n ts xs stop :
  Forall2 (item p) ts xs -> p stop = Err tt -> delimited stop = true -> spaces stop = stop -> length ts <= n ->
  p_scan n p (join ts ++ stop) = Ok (xs, stop).
Proof.
  intros Hi Hp Hd Hs. revert n. induction Hi as [|t x ts xs [Ht Hr] Hi IH]; intros n Hn.
  - destruct n as [|n]; [done|]. cbn. by rewrite Hp.
  - destruct n as [|n]; cbn in Hn; [lia|]. cbn [p_scan]. specialize (IH n ltac:(lia)). destruct ts as [|t' ts].
    + cbn [join]. rewrite Hr, Hs by done. inversion Hi; subst. cbn [join app] in IH. by rewrite IH.
    + change (join (t :: t' :: ts)) with (t ++ str " " ++ join (t' :: ts)). rewrite <-!app_assoc, Hr by done.
      change (spaces (str " " ++ join (t' :: ts) ++ stop)) with (spaces (join (t' :: ts) ++ stop)).
      rewrite spaces_join; [by rewrite IH|by eapply items_start|done].
Qed.

Lemma value_starts v : value_printable v = true -> starts (format_value float_text v) = true.
Proof.
  destruct v as [s|i|f|b]; [done| |done|by destruct b]. intros _. cbn. destruct (int_text_starts i) as (c & r & -> & Hc). cbn.
  unfold is_space. rewrite bool_decide_false; [done|]. rewrite !elem_of_cons, elem_of_nil. intros [->|[->|[->|[->|[]]]]]; done.
Qed.

Lemma value_item v : value_printable v = true -> item (p_value list_to_float) (format_value float_text v) v.
Proof. intros Hv. split; [by apply value_starts|]. intros rest Hd. by apply value_read. Qed.

Lemma list_read vs rest :
  forallb value_printable vs = true ->
  p_value_list list_to_float (format_term float_text (AList (map AVal vs)) ++ rest) = Ok (vs, spaces rest).
Proof.
  intros Hv. cbn [format_term]. rewrite map_map. cbn [format_term]. set (ts := map (format_value float_text) vs).
  assert (Forall2 (item (p_value list_to_float)) ts vs) as Hi.
  { unfold ts. clear ts. induction vs as [|v vs IH]; [constructor|]. cbn in Hv. apply andb_true_iff in Hv as [Hv Hvs].
    constructor; [by apply value_item|by apply IH]. }
  pose proof (items_start _ _ _ Hi) as Hst. rewrite <-!app_assoc. unfold p_value_list, list_open, spaced_string.
  rewrite p_string_app. cbn [rbind]. rewrite spaces_join by done. unfold p_zero_or_more.
  rewrite (scan_join _ _ ts vs) by (done || rewrite length_app; pose proof (join_length ts Hst); lia).
  cbn [rbind]. unfold list_close, spaced_string. by rewrite p_string_app.
Qed.

Definition operand_printable (o : operand) : bool :=
  match o with
  | OKey k => name_ok k.2
  | OTerm (AVal v) => value_printable v
  | OTerm (AList l) => forallb (fun a => match a with AVal v => value_printable v | AList _ => false end) l
  end.

Lemma key_item k : name_ok k.2 = true -> item as_key (key_text k) (OKey k).
Proof.
  intros Hk. split; [by destruct k as [[] ?]|]. intros rest Hd. unfold as_key. by rewrite attribute_read.
Qed.

Lemma value_not_key v rest : value_printable v = true -> as_key (format_value float_text v ++ rest) = Err tt.
Proof.
  destruct v as [s|i|f|b]; [done| |done|by destruct b]. intros _. cbn. destruct (int_text_starts i) as (c & r & -> & Hc). cbn [app].
  unfold as_key, p_attribute, attribute_type, p_choose, keep. rewrite !string_head; [done|by apply (number_start_not c)..].
Qed.

Lemma operand_item o :
  key_or_value o = true -> operand_printable o = true -> item (p_choose as_key (as_value list_to_float)) (format_arg float_text o) o.
Proof.
  destruct o as [k|[v|]]; cbn [key_or_value is_value operand_printable]; [|intros _ Hv|done].
  - intros _ [Hs Hr]%key_item. split; [done|]. intros rest Hd. unfold p_choose. cbn [format_arg]. by rewrite Hr.
  - split; [by apply value_starts|]. intros rest Hd. cbn [format_arg format_term]. unfold p_choose. rewrite value_not_key by done.
    unfold as_value. by rewrite value_read.
Qed.

(** What stands for a list. *)
Definition key_or_list (o : operand) : bool := match o with OTerm (AVal _) => false | _ => true end.

Lemma list_operand_item o :
  key_or_list o = true -> operand_printable o = true -> item (p_choose as_key (as_list list_to_float)) (format_arg float_text o) o.
Proof.
  destruct o as [k|[v|l]]; cbn [key_or_list operand_printable]; [|done|intros _ Hl].
  - intros _ [Hs Hr]%key_item. split; [done|]. intros rest Hd. unfold p_choose. cbn [format_arg]. by rewrite Hr.
  - split; [done|]. intros rest Hd. cbn [format_arg].
    assert (exists vs, l = map AVal vs /\ forallb value_printable vs = true) as (vs & -> & Hvs).
    { clear -Hl. induction l as [|[v|] l IH]; cbn in Hl; [by exists []| |done]. apply andb_true_iff in Hl as [Hv Hl].
      destruct (IH Hl) as (vs & -> & Hvs). exists (v :: vs). cbn. by rewrite Hv. }
    unfold p_choose. assert (as_key (format_term float_text (AList (map AVal vs)) ++ rest) = Err tt) as -> by done.
    unfold as_list. by rewrite list_read.
Qed.

(** *** Rules *)

Fixpoint rule_printable (r : rule) : bool :=
  match r with
  | RBool _ => true
  | RFilter _ a b | RMember a b => operand_printable a && operand_printable b
  | RExists a => operand_printable a
  | RNot r => rule_printable r
  | RAnd l | ROr l => forallb rule_printable l
  | RIf c t f => rule_printable c && rule_printable t && rule_printable f
  end.

Notation text := (format float_text).
Notation read := (p_rule list_to_float).

Lemma close_read rest : close (str ")" ++ rest) = Ok (spaces rest).
Proof. unfold close, spaced_string. by rewrite p_string_app. Qed.

Lemma open_read t rest : starts t = true -> open (str "(" ++ t ++ rest) = Ok (t ++ rest).
Proof. apply spaced_app. Qed.

Lemma word_read s t rest : starts t = true -> spaced_string s (s ++ str " " ++ t ++ rest) = Ok (t ++ rest).
Proof.
  intros Ht. unfold spaced_string. rewrite p_string_app. cbn [rbind].
  change (spaces (str " " ++ t ++ rest)) with (spaces (t ++ rest)). by rewrite spaces_starts.
Qed.

(** An item with another one after it. *)
Lemma item_next {A} (p : parser A) t x t' rest :
  item p t x -> starts t' = true -> p (t ++ str " " ++ t' ++ rest) = Ok (x, t' ++ rest).
Proof.
  intros [_ Hr] Ht. rewrite Hr by done. change (spaces (str " " ++ t' ++ rest)) with (spaces (t' ++ rest)). by rewrite spaces_starts.
Qed.

Lemma item_last {A} (p : parser A) t x rest : item p t x -> p (t ++ str ")" ++ rest) = Ok (x, str ")" ++ rest).
Proof. intros [_ Hr]. by rewrite Hr. Qed.

Lemma filter_read op a b rest :
  validate (RFilter op a b) = Ok tt -> rule_printable (RFilter op a b) = true ->
  filter_rule list_to_float (text (RFilter op a b) ++ rest) = Ok (RFilter op a b, spaces rest).
Proof.
  cbn [validate rule_printable]. destruct a as [k|]; [|done]. destruct (key_or_value b) eqn:Eb; [|done]. intros _ [Hk Hb]%andb_true_iff.
  pose proof (key_item k Hk) as Ha. pose proof (operand_item b Eb Hb) as Hi.
  cbn [format]. rewrite <-!app_assoc. unfold filter_rule. rewrite open_read by (by destruct op). cbn [rbind].
  change (format_arg float_text (OKey k)) with (key_text k).
  assert (forall x, p_filter (op_text op ++ str " " ++ x) = Ok (op, spaces x)) as -> by (by destruct op).
  cbn [rbind]. rewrite spaces_starts by apply Ha.
  rewrite (item_next _ _ _ _ _ Ha) by apply Hi. cbn [rbind]. rewrite (item_last _ _ _ _ Hi). cbn [rbind].
  by rewrite close_read.
Qed.

Lemma member_read a b rest :
  validate (RMember a b) = Ok tt -> rule_printable (RMember a b) = true ->
  member_rule list_to_float (text (RMember a b) ++ rest) = Ok (RMember a b, spaces rest).
Proof.
  intros Hv. cbn [rule_printable]. intros [Ha Hb]%andb_true_iff.
  assert (key_or_value a = true /\ key_or_list b = true) as [Ka Kb].
  { cbn [validate] in Hv. destruct b as [|[]]; destruct (key_or_value a); done. }
  pose proof (operand_item a Ka Ha) as Hi. pose proof (list_operand_item b Kb Hb) as Hj.
  cbn [format]. rewrite <-!app_assoc. unfold member_rule. rewrite open_read by done. cbn [rbind].
  assert (forall x, p_choose (keep tt (p_string (str "member?"))) (keep tt (p_string (str "in"))) (str "member?" ++ str " " ++ x) =
    Ok (tt, str " " ++ x)) as -> by done.
  cbn [rbind]. change (spaces (str " " ++ ?x)) with (spaces x). rewrite spaces_starts by apply Hi.
  rewrite (item_next _ _ _ _ _ Hi) by apply Hj. cbn [rbind]. rewrite (item_last _ _ _ _ Hj). cbn [rbind]. by rewrite close_read.
Qed.

Lemma exists_read a rest :
  validate (RExists a) = Ok tt -> rule_printable (RExists a) = true ->
  exists_rule (text (RExists a) ++ rest) = Ok (RExists a, spaces rest).
Proof.
  destruct a as [k|]; [|done]. intros _ Hk. pose proof (key_item k Hk) as Hi. cbn [format format_arg]. rewrite <-!app_assoc.
  change (str "(exists? " ++ ?x) with (str "(" ++ str "exists?" ++ str " " ++ x). unfold exists_rule. rewrite open_read by done.
  cbn [rbind]. rewrite word_read by apply Hi. cbn [rbind]. rewrite (item_last _ _ _ _ Hi). cbn [rbind]. by rewrite close_read.
Qed.

Lemma text_starts r : starts (text r) = true.
Proof. destruct r as [[]| | | | | | |]; done. Qed.

Lemma stop_read n rest : read n (str ")" ++ rest) = Err tt.
Proof. by destruct n. Qed.

Lemma combination_read n comb word r r' l rest :
  (forall x, logical_op (word ++ str " " ++ x) = Ok (comb, spaces x)) -> starts word = true ->
  Forall (fun r => item (read n) (text r) r) (r :: r' :: l) ->
  combination_rule (read n) (str "(" ++ word ++ str " " ++ join (map text (r :: r' :: l)) ++ str ")" ++ rest) =
    Ok (comb (r :: r' :: l), spaces rest).
Proof.
  intros Hop Hw Hi. apply list.Forall_cons in Hi as [Hr Hl]. unfold combination_rule. rewrite open_read by done. cbn [rbind].
  rewrite Hop. cbn [rbind]. set (ts := map text (r' :: l)).
  assert (Forall2 (item (read n)) ts (r' :: l)) as Hts.
  { unfold ts. clear -Hl. induction Hl; constructor; done. }
  pose proof (items_start _ _ _ Hts) as Hst. change (join (map text (r :: r' :: l))) with (text r ++ str " " ++ join ts).
  rewrite <-!app_assoc, spaces_starts by apply text_starts. rewrite (item_next _ _ _ _ _ Hr) by (by apply join_starts).
  cbn [rbind]. unfold p_one_or_more, p_zero_or_more. rewrite (scan_join _ _ ts (r' :: l)); try done.
  - apply stop_read.
  - rewrite length_app. pose proof (join_length ts Hst). lia.
Qed.

Lemma not_read n r rest : item (read n) (text r) r -> not_rule (read n) (text (RNot r) ++ rest) = Ok (RNot r, spaces rest).
Proof.
  intros Hi. cbn [format]. rewrite <-!app_assoc. change (str "(not " ++ ?x) with (str "(" ++ str "not" ++ str " " ++ x).
  unfold not_rule. rewrite open_read by done. cbn [rbind]. rewrite word_read by apply text_starts. cbn [rbind].
  rewrite (item_last _ _ _ _ Hi). cbn [rbind]. by rewrite close_read.
Qed.

Lemma if_read n c t f rest :
  item (read n) (text c) c -> item (read n) (text t) t -> item (read n) (text f) f ->
  if_rule (read n) (text (RIf c t f) ++ rest) = Ok (RIf c t f, spaces rest).
Proof.
  intros Hc Ht Hf. cbn [format]. rewrite <-!app_assoc. change (str "(if " ++ ?x) with (str "(" ++ str "if" ++ str " " ++ x).
  unfold if_rule. rewrite open_read by done. cbn [rbind]. rewrite word_read by apply text_starts. cbn [rbind].
  rewrite (item_next _ _ _ _ _ Hc) by apply text_starts. cbn [rbind]. rewrite (item_next _ _ _ _ _ Ht) by apply text_starts.
  cbn [rbind]. rewrite (item_last _ _ _ _ Hf). cbn [rbind]. by rewrite close_read.
Qed.

Lemma join_elem ts t : t ∈ ts -> length t <= length (join ts).
Proof.
  induction ts as [|x ts IH]; [by intros ?%elem_of_nil|]. destruct ts as [|x' ts]; [by intros ->%list_elem_of_singleton|].
  change (join (x :: x' :: ts)) with (x ++ str " " ++ join (x' :: ts)). rewrite !length_app.
  intros [->|Ht]%elem_of_cons; [lia|]. apply IH in Ht. lia.
Qed.

(** One step of [read]. *)
Lemma body_read n r t rest :
  starts t = true ->
  p_choose (filter_rule list_to_float) (p_choose (member_rule list_to_float) (p_choose exists_rule (p_choose (logical_rule (read n))
    (fun i => let? (b, i) := p_boolean i in Ok (RBool b, i))))) (t ++ rest) = Ok (r, spaces rest) ->
  read (S n) (t ++ rest) = Ok (r, spaces rest).
Proof. intros Ht H. cbn [p_rule]. unfold rule_body. rewrite spaces_starts by done. rewrite H. cbn [rbind]. by rewrite spaces_idem. Qed.

Lemma list_items n l :
  Forall (fun r => validate r = Ok tt -> rule_printable r = true -> forall n, length (text r) < n -> item (read n) (text r) r) l ->
  inner_rules (map validate l) = Ok tt -> forallb rule_printable l = true -> length (join (map text l)) < n ->
  Forall (fun r => item (read n) (text r) r) l.
Proof.
  intros IH Hv%inner_valid Hp Hn. apply list.Forall_forall. intros r Hr. rewrite list.Forall_forall in IH, Hv.
  apply IH; [done|by apply Hv| |].
  - rewrite forallb_forall in Hp. by apply Hp, list_elem_of_In.
  - pose proof (join_elem (map text l) (text r) (list_elem_of_fmap_2 text l r Hr)). lia.
Qed.

Lemma rule_item r :
  validate r = Ok tt -> rule_printable r = true -> forall n, length (text r) < n -> item (read n) (text r) r.
Proof.
  induction r as [b|op a b|a b|a|r IH|l IH|l IH|c t f IHc IHt IHf] using rule_ind'; intros Hv Hp [|n] Hn; try lia;
    (split; [apply text_starts|]); intros rest Hd; apply body_read; try apply text_starts; unfold p_choose at 1.
  - by destruct b.
  - by rewrite filter_read.
  - assert (filter_rule list_to_float (text (RMember a b) ++ rest) = Err tt) as -> by done. unfold p_choose at 1. by rewrite member_read.
  - assert (filter_rule list_to_float (text (RExists a) ++ rest) = Err tt) as -> by done.
    unfold p_choose at 1. assert (member_rule list_to_float (text (RExists a) ++ rest) = Err tt) as -> by done.
    unfold p_choose at 1. by rewrite exists_read.
  - assert (item (read n) (text r) r) as Hi by (apply IH; [done|done|]; cbn in Hn; rewrite length_app in Hn; lia).
    unfold p_choose, logical_rule, p_choose. assert (combination_rule (read n) (text (RNot r) ++ rest) = Err tt) as -> by done.
    by rewrite not_read.
  - destruct l as [|r [|r' l]]; [done|done|]. apply (list_items n) in IH; [|done|done|].
    2:{ cbn [format] in Hn. rewrite !length_app in Hn. change (length (str "(")) with 1 in Hn. lia. }
    cbn [format]. rewrite <-!app_assoc. unfold p_choose, logical_rule, p_choose.
    by rewrite (combination_read n RAnd (str "and")).
  - destruct l as [|r [|r' l]]; [done|done|]. apply (list_items n) in IH; [|done|done|].
    2:{ cbn [format] in Hn. rewrite !length_app in Hn. change (length (str "(")) with 1 in Hn. lia. }
    cbn [format]. rewrite <-!app_assoc. unfold p_choose, logical_rule, p_choose.
    by rewrite (combination_read n ROr (str "or")).
  - apply (inner_valid [c; t; f]) in Hv as [Hc [Ht [Hf _]%list.Forall_cons]%list.Forall_cons]%list.Forall_cons.
    cbn [rule_printable] in Hp. apply andb_true_iff in Hp as [[Pc Pt]%andb_true_iff Pf].
    cbn [format] in Hn. rewrite !length_app in Hn. change (length (str "(if ")) with 4 in Hn.
    unfold p_choose, logical_rule, p_choose. assert (combination_rule (read n) (text (RIf c t f) ++ rest) = Err tt) as -> by done.
    assert (not_rule (read n) (text (RIf c t f) ++ rest) = Err tt) as -> by done.
    rewrite if_read; [done|apply IHc|apply IHt|apply IHf]; done || lia.
Qed.

(** C36: the text of a policy is read back.  Formatting a valid rule and parsing the text
    gives the rule, for names, strings and integers that the grammar has. *)
Theorem rule_text_roundtrip r :
  validate r = Ok tt -> rule_printable r = true -> AttributeRule_parse list_to_float (text r) = Ok r.
Proof.
  intros Hv Hp. destruct (rule_item r Hv Hp (S (length (text r))) ltac:(lia)) as [_ Hr]. specialize (Hr [] eq_refl).
  rewrite app_nil_r in Hr. unfold AttributeRule_parse. rewrite Hr. cbn [spaces]. unfold AttributeRule_new. by rewrite Hv.
Qed.

(** The grammar has no negative numbers of one digit, although they are valid and printed. *)
Theorem small_negatives_not_read :
  Forall (fun i =>
    let r := RFilter FGt (OKey (SourceSubject, str "level")) (OTerm (AVal (XInt i))) in
    validate r = Ok tt /\ AttributeRule_parse list_to_float (text r) = Err (CannotParseRule (text r)))
    [-9; -8; -7; -6; -5; -4; -3; -2; -1]%Z.
Proof. repeat constructor; vm_compute; reflexivity. Qed.

(** Quotes are not escaped: the text of a list with one string is read as a list of two. *)
Theorem quotes_not_escaped :
  let list l := RMember (OKey (SourceSubject, str "role")) (OTerm (AList (map (fun s => AVal (XStr s)) l))) in
  let r := list [str "a" ++ [quote] ++ str " " ++ [quote] ++ str "b"] in
  validate r = Ok tt /\ AttributeRule_parse list_to_float (text r) = Ok (list [str "a"; str "b"]).
Proof. split; vm_compute; reflexivity. Qed.
End RoundTrip.

(** ** A policy *)

(** Administrators who are not suspended; the last condition always holds. *)
Definition sample_rule : rule :=
  RAnd [RFilter FEq (OKey (SourceSubject, str "role")) (OTerm (AVal (XStr (str "admin"))));
        RNot (RExists (OKey (SourceSubject, str "suspended")));
        RMember (OTerm (AVal (XInt (-12)))) (OTerm (AList [AVal (XInt 7); AVal (XInt (-12))]))].

Definition sample_request : AbacRequest := mkAbacRequest ∅ ∅ {[ str "role" := AVal (XStr (str "admin")) ]}.

Definition sample_environment : Env := {[ str "subject.role" := EStr (str "admin") ]}.

Lemma sample_attributes k : sample_environment !! key_text k = attribute_expr <$> fetch_attribute sample_request k.
Proof.
  unfold sample_environment, fetch_attribute. destruct k as [[] name]; cbn [fst snd sample_request rq_subject_attributes
    rq_action_attributes rq_resource_attributes]; rewrite ?lookup_empty; [by rewrite lookup_singleton_ne|by rewrite lookup_singleton_ne|].
  destruct (decide (name = str "role")) as [->|Hne]; [by rewrite !lookup_singleton_eq|]. rewrite !lookup_singleton_ne; [done|done|].
  intros E. apply Hne. change (str "subject." ++ str "role" = str "subject." ++ name) in E. by apply app_inv_head in E.
Qed.

Lemma sample_floats k a : fetch_attribute sample_request k = Some a -> term_ok a = true.
Proof.
  unfold fetch_attribute. destruct k as [[] name]; cbn; try done. intros [_ <-]%lookup_singleton_Some. done.
Qed.

Lemma rules_agree_witness :
  exists b, match_rule sample_rule sample_request = Ok b /\ b = true /\
    exists n, eval n (rule_expr sample_rule) sample_environment = Some (Ok (EBool b)).
Proof.
  destruct (rules_agree sample_request sample_environment sample_attributes sample_floats sample_rule eq_refl eq_refl eq_refl)
    as (b & Hb & _ & Ht).
  exists b. split; [exact Hb|]. split; [vm_compute in Hb; congruence|]. apply Ht. vm_compute. reflexivity.
Defined.

Lemma rule_text_roundtrip_witness :
  AttributeRule_parse (fun _ => None) (format (fun _ => []) sample_rule) = Ok sample_rule.
Proof. apply (rule_text_roundtrip (fun _ => None) (fun _ => []) sample_rule); vm_compute; reflexivity. Defined.
